(* ===== verification/_CoqProject ===== *)
-Q . S2P
Prelude.v
Wire.v
Framing.v
Text.v
JsonText.v
Regex.v
Program.v
Modfiles.v
Interp.v
Delivery.v
Bindings.v
Directory.v
Demand.v
Relay.v
Pool.v
LiveTail.v
Viewers.v
Placement.v
Reconciler.v
Pending.v
AdmissionQueue.v
Identity.v
Redaction.v
Refusal.v
Admission.v
AdmissionSweep.v
GateSweep.v
ClientLink.v
HttpErrors.v
Objects.v
Wakes.v
Encoding.v
Origins.v
Guard.v
Workload.v
Records.v
Journal.v
Controls.v
Recording.v
Reads.v
Agents.v
Routes.v
Router.v
CommandPath.v
ClientTransport.v
HostRpc.v
HostLinkCalls.v
HostSubs.v
Options.v
Sweeping.v
Deploy.v
Compose.v
PlacementPath.v
Lifecycle.v
Startup.v
