(* ===== verification/Prelude.v ===== *)
(** * Factory: a verification library for Looprig's orchestration service

    Factory (src/) is a Go service that sits between clients and agent Hosts. It
    decides where a session runs (placement), keeps a connection to that Host
    (HostLink), routes a session's commands to it, and relays the Host's live
    records to the clients that watch the session, repairing what a slow client
    or a lost connection would otherwise miss. Sessions themselves live in a
    durable SessionStore; a replica of Factory holds only what it can rebuild.

    ** How the program's parts fit together

    A client that watches a session raises demand (routing/demand.go); the
    demand plane asks the directory (routing/directory.go) who owns the session
    and takes a route in the routing table (routing/bindings.go), which binds it
    over the pooled HostLinks (realtime/hostlink) through the live tail plane
    (realtime/livetail/plane.go). Host frames reach the plane's mailboxes and
    then the relay (routing/repair.go), which fans them out to bounded
    per-client queues (realtime/delivery/queue.go), and repairs a client or a
    whole session when records would be lost. When a session has no owner, the
    placement reconciler (placement/reconciler.go, attach.go) decides by the
    policy (placement/policy.go) and, under a claim, attaches it to a Host; it is
    triggered by a sweep over the durable inbox (placement/pending.go) and, for
    latency, by a queue of fresh admissions (admission_queue.go).

    Commands come in over HTTP (internal/httpapi) and over ClientLinks
    (realtime/clientlink). Both edges authenticate a principal (identity,
    internal/identity), the browser guard (httpapi/guard.go) having checked host,
    origin and token, and hand the decoded request to the admission service
    (internal/admission), which authorizes it and writes it to the durable
    inbox; what it refuses is classified once for both edges
    (internal/command). A wake (httpapi/wake.go) then tells the Host. Commands
    nobody applied in time are rejected by deadline sweeps
    (admission/reconciler.go, dispositions.go), and stale gate intents are
    retired by another (reconcile/gates.go). A ClientLink subscription is what
    raises and releases delivery demand (clientlink/demand.go). Over HTTP, one
    router (httpapi/routes.go) leads to the control routes (controls.go), the
    reads of a session and of a tenant (sessions.go, reads.go, commands.go), the
    launchable agents (reads.go) and the objects (objects.go); a journal page is
    read from the store its session is bound to (journal.go).

    Both links run on a third-party transport: a pooled HostLink is a Centrifuge
    client (hostlink/centrifuge.go, subscribe.go), and the clients connect to a
    Centrifuge node (clientlink/centrifuge.go, publish.go). A deployment names
    its stores and limits as options (options.go, composition.go), from which
    [New] composes every part (server.go, compose.go); [Serve], [Start],
    [Quiesce] and [Stop] run and end them (serve.go).

    ** Files

    - Prelude.v: Go errors, results, uint64 arithmetic, reachability, list
      lemmas, tactics and the hint database [factory].
    - Wire.v: the records of Core and SessionStore that the code handles, and
      Core's codec as a class with the laws the source relies on.
    - Framing.v: the length-prefixed framing both packages hash for their
      idempotency keys, and its injectivity.
    - Text.v and Encoding.v: the string functions and byte encodings of the
      standard library the source uses, with their round trips.
    - JsonText.v: the JSON text of a pair of strings, read and written as
      encoding/json does; Regex.v: regular expressions searched for by
      derivatives.
    - Program.v: routines that call an environment, as finite trees of calls,
      with their execution [run] and a weakest precondition [wp]; Interp.v: a
      routine whose calls are answered by other routines.
    - Delivery.v: src/internal/realtime/delivery/queue.go.
    - Bindings.v: src/internal/routing/bindings.go.
    - Directory.v: src/internal/routing/directory.go.
    - Demand.v: src/internal/routing/demand.go.
    - Relay.v: src/internal/routing/repair.go.
    - Pool.v: src/internal/realtime/hostlink/link.go, deps.go, capability.go and
      the pool's part of subscribe.go.
    - LiveTail.v and Viewers.v: src/internal/realtime/livetail/plane.go.
    - Placement.v: src/internal/placement/policy.go and the pure functions of
      reconciler.go and attach.go.
    - Reconciler.v: the routines of src/internal/placement/reconciler.go and
      attach.go.
    - Pending.v: src/internal/placement/pending.go.
    - AdmissionQueue.v: src/admission_queue.go and the workers of Server.Start
      in src/serve.go.
    - Identity.v: src/identity/principal.go, credential.go and
      src/internal/identity/http.go, authorize.go; Redaction.v: the scrubbing of
      credentials out of messages.
    - Refusal.v: src/internal/command/refusal.go and kind.go.
    - Admission.v: src/internal/admission/service.go and create.go.
    - AdmissionSweep.v: src/internal/admission/reconciler.go and dispositions.go.
    - GateSweep.v: src/internal/reconcile/gates.go.
    - ClientLink.v: src/internal/realtime/clientlink/link.go, demand.go,
      command.go and the channel names of publish.go.
    - HttpErrors.v: src/internal/httpapi/errors.go and the reasons of guard.go.
    - Objects.v: src/internal/httpapi/objects.go.
    - Wakes.v: src/internal/httpapi/wake.go.
    - Origins.v: src/identity/csrf.go.
    - Guard.v: src/internal/httpapi/guard.go.
    - Workload.v: src/internal/placement/workload.go.
    - Records.v: src/internal/placement/records.go.
    - Journal.v: src/journal.go.
    - Controls.v: src/internal/httpapi/controls.go and commands.go.
    - Reads.v: src/internal/httpapi/sessions.go, bootstrap.go and the session
      list of reads.go.
    - Agents.v: the agent routes of src/internal/httpapi/reads.go.
    - Routes.v, Router.v: src/internal/httpapi/routes.go; Recording.v: its
      response writer and the recovery of a panic.
    - CommandPath.v: the router, its control handlers, the ClientLink's command
      RPC and the admission service as one path.
    - ClientTransport.v: src/internal/realtime/clientlink/centrifuge.go and the
      publication of publish.go, over the engine of ClientLink.v.
    - HostRpc.v: src/internal/realtime/hostlink/centrifuge.go; HostLinkCalls.v:
      the methods of its link and the capabilities of capability.go;
      HostSubs.v: the link's part of subscribe.go.
    - Options.v: src/options.go, src/composition.go, the options of
      src/journal.go, the limits of src/serve.go and the checks of [New] in
      src/server.go.
    - Compose.v: src/compose.go, the rest of [New], and src/exports.go,
      contract.go and seams.go; PlacementPath.v: a reconciliation over the pool
      behind its adapter.
    - Lifecycle.v: the lifecycle of src/serve.go with the node of compose.go;
      Sweeping.v: the loop around a sweep's passes; Startup.v: its warnings and
      its probe of the Hosts.
    - Modfiles.v: src/internal/modfiles; Deploy.v: src/examples/deploy/wiring.

    ** How the code is represented

    A struct is a record, a Go map a [gmap], a [uint64] a [Z] with its wrap
    written out, a time an instant of [Z]. [(T, error)] is [result T], or a pair
    where both halves are meaningful. Definitions keep the Go names; a trailing
    underscore separates a type from a function of the same name. An operation
    that runs under its component's mutex is a pure state transition. One that
    releases the mutex around I/O is split at that point ([Receive_locked],
    [Receive_probed], [repair_locked], ...), and the step relation of the
    component interleaves the pieces freely. Interfaces (a store, a transport, a
    clock, a codec) are type classes over an abstract world that the operation
    threads; a logging instance records the calls, so that theorems can say what
    was asked of the outside and in which order. The demand plane's theorems are
    about the routing table it really uses, and the live tail plane is an
    instance of that table's [Binder] class. The routines of the placement
    reconciler, the sweeps, the admission service, the authenticator, the
    ClientLink and the HTTP routes are trees of calls (Program.v), and their
    theorems hold for every handler of those calls. What Core, SessionStore and
    the cryptographic functions compute is a class ([CoreIdentifiers],
    [CoreCommands], [CoreJSON], [Sha256], [HMAC], ...), with only the documented
    laws a proof needs. Where two components meet, the calls of one are answered
    by the other: CommandPath.v interprets the handler call of the router and the
    admission call of the RPC by the routines themselves, and PlacementPath.v
    answers the reconciler's HostLink calls by the pool, so that the properties
    there are of the composition and not of either half.

    The transports and the lifecycle are machines: a state with every caller and
    callback at the critical section it takes next, a function [act] from an
    action to the next state, and [reachable] over it; invariants are proved by
    induction over the steps and the theorems read them off. In Lifecycle.v a
    measure bounds the steps and a resting state is shown to have answered
    everyone, so that no call depends on a scheduler or on an expired context.

    Everything that Go leaves open is universally quantified: the order a map is
    ranged in, which timers fire, what every store, Host and transport answers.

    ** What is shown

    - Delivery.v: the queue never discards a durable record, answers exactly as
      documented, picks a victim independent of map order, stays bounded; the
      watermark fence.
    - Bindings.v: the calls of the Binder balance with what the table records in
      every reachable state (a route the transport dropped under the table is
      for the plane to notice and rebind, Demand.v), demand is shared, closing unbinds everything once, an observation displaces exactly
      the older tuple, keys name one tuple.
    - Directory.v: bounded candidate search.
    - Demand.v: demand, routes and timers agree in every reachable state of the
      plane over the table; nothing is left after Close.
    - Relay.v: bounded queues, every pump delivers or repairs, a repair resets
      every viewer from one tip before it resumes, no public gap is skipped
      silently, the reported contiguous sequence was delivered, only a session's
      own records are taken.
    - Pool.v: routes match links, tenants are isolated, replacement only by a
      newer boot, attach answers what was asked, the reaper spares bound links.
    - LiveTail.v: bounded mailboxes with a drainer, no silent loss, bind is all
      or nothing, unbind retires the tail first, refused frames are repaired.
      Viewers.v: a channel link names one session, a closed plane takes nothing
      more and closes its relay once.
    - Placement.v: the policy equals its declarative statement.
    - Reconciler.v: scaling only under the claim and its release on every path,
      fenced and counted writes, attach only to capable and admissible Hosts,
      a wake sends what its Host said yes to and counts it exactly, bounded
      attempts and pauses.
    - Pending.v: a sweep places each session that needs a Host once, with its own
      live commands, against a reference read off the listed rows, and accounts for every placement, shards rotate and resume, an admission
      places only its own session.
    - AdmissionQueue.v: no panic, no session at two workers, no lost wake-up, a
      bounded queue that drops a notice only at its limit.
    - Identity.v: an authenticated request was vouched for once and in time,
      failures are classified as the verifier answered, principals and their
      wire form determine each other, trace identifiers are well formed.
      Redaction.v: a scrubbed message holds no occurrence of the credential.
    - Refusal.v: the public status of a command is faithful to its record.
    - Admission.v: nothing is written before it is authorized, an answer is what
      the store accepted, what is stored is the request with the caller's
      principal put in, every failed call ends with the code its answer means or
      none, gate responses go only to answerable gates, a create reserves one
      identity, whose preimage determines it, and the fence lets Quiesce return exactly when the last admission left.
    - AdmissionSweep.v, GateSweep.v: only due and settleable rows are rejected,
      each once, under a claim taken at most once and given back; only listed remnants are retired; the
      counters are the calls.
    - ClientLink.v: the demand held is the table and is kept while a
      subscription is outstanding, channel names are read one way, an RPC admits
      what it authorized.
    - HttpErrors.v: failures stay in the declared vocabulary, and error responses
      are well formed.
    - Objects.v: ranges are exact and bounded, a page is served only from a body
      that was verified whole, and an object only as its policy authorized, from
      the reader and address its binding selects.
    - Wakes.v: bounded, delivered once, and none in flight after a stop.
    - Origins.v, Guard.v: origins compare faithfully, the guard passes exactly
      configured hosts and origins with a bearer, a safe method or a valid
      token, and tokens are bound to their principal and expiry.
    - Workload.v, Records.v: a workload's name identifies its intent, the record
      sweeps account for every claim and resume where they stopped.
    - Journal.v: a cursor is read back only in the scope it was issued for, and a
      page is read where its session is bound.
    - Controls.v: a control answers once and wakes only after its answer, both
      edges decode and refuse alike, a command's status is scoped.
    - Reads.v: a query names one position and a bounded page, gates promise only
      what their owner confirms, reads stay in the caller's tenant.
    - Agents.v: the summary is exactly the launchable agents whatever the order
      of the map, and entity tags revalidate exactly equal digests.
    - Routes.v, Router.v: a path has one route and is never redirected, a handler
      runs only for an authenticated, guarded and authorized request with a
      bounded body and a resolved session, replies carry the security headers,
      and a panic is contained. Recording.v: the recovery of a panic appends
      nothing to a response that was begun.
    - CommandPath.v: nothing is written but what every check earned and the body
      decodes to, the answer is of what was stored and the wake of the session of
      the path, and both edges admit alike.
    - ClientTransport.v: a connection is let in with the identity that was
      vouched for and turned away for the reason that holds, every binding is
      accounted for once however the node's events interleave and none is lost
      while the node keeps its documented order, a disconnected client settles, a shutdown holds nothing.
    - HostRpc.v: a reserved call goes out only where it was advertised, and a
      closing link waits for its calls. HostLinkCalls.v: a capability is read
      off the current connection's reply. HostSubs.v: what a sink hears, and
      that no subscription is left behind at a Host.
    - Options.v, Compose.v: [New] accepts exactly the valid compositions, in any
      order of the options, names all that is missing, claims under separate
      ids, and what it composes can run. PlacementPath.v: a reconciliation leaves
      the links and routes of every other tenant alone.
    - Lifecycle.v: every call returns, the teardown happens once and in order, a
      completed [Quiesce] is for good. Sweeping.v: every pass of a loop keeps
      what a pass keeps, and the loop returns when its context is done.
      Startup.v: the probe is bounded and asks each Host once.
    - Modfiles.v: the list is exactly the module's own sources, and can be read
      back from what is written. Deploy.v: the validator accepts exactly the
      sound deployments, and an opening that fails leaves no pool behind.
    - Where the code or a comment falls short of these, a lemma exhibits the run:
      [serve_after_a_failed_start] and [failed_serve_keeps_the_claim] of
      Lifecycle.v, [expired_wait_drops_a_live_tail] and
      [late_registration_unsubscribes_a_newer_tail] of HostSubs.v,
      [closing_link_leaks_a_reserved_call] of HostRpc.v,
      [overwritten_binding_is_lost] of ClientTransport.v,
      [reference_reads_abort] of PlacementPath.v,
      [unwrapped_status_is_not_recorded] of Recording.v, [redaction_may_leak] of
      Redaction.v, and the last section of Compose.v.

    ** Bounds and fuel

    Loops that are not structural take a number of rounds that is shown or seen
    to be enough: [pumpLoop] and [drainLoop] one round per queued record and one
    more, each round taking a record off; [evictLoop] one round per queued event,
    each dropping one; [candidatesLoop] of Directory.v the cleanup attempts,
    of which each round but the last spends one; [attemptLoop] the attempts
    that remain; [collectPages], [sessionLoop] and [fallbackLoop] the page and
    shard budgets of the source; [ensureDesiredLoop] and [reviveLoop] the
    source's two; [claimLoop] and [releaseLoop] of AdmissionSweep.v structural on
    the source's attempts and on the claims held, and the pages of the sweeps
    their page budgets; [readLoop] of Objects.v a hundred empty reads before each
    byte of the object, shown never to run out; [uvarint] ten bytes, enough for
    a [uint64]; [probePages] of Startup.v the source's sixty-four pages; the
    JSON reader two steps per byte and two more, shown enough by [parse_total];
    [runSweep] a number of passes, of which a loop that has not returned has
    made every one. The machines need no fuel: their theorems are about every
    reachable state. None returns a result for lack of fuel that the code would
    not return.

    ** What is not modelled

    Message texts and log records (the reconciler's throttled report and the
    redaction of a verifier's message excepted); the durations of contexts and
    timers, whose expiry is an answer of the environment; goroutine scheduling
    below the granularity of a critical section; the Centrifuge client and node,
    the JSON of Core's records, the YAML decoder, [net/url.Parse] and
    [mime.ParseMediaType], which are parameters or the environment of a machine;
    [net/http]'s server; the system clock; the test dialer; the exit status of
    the two commands; and the version constants of realtime/transport/doc.go.
    Interfaces are the calls of the routines that use them, and the error types
    of a package are typed nodes of [error]. What is left of the source is of
    these kinds. *)

From stdpp Require Export base tactics option list gmap strings sets fin_maps relations sorting.
From Stdlib Require Export ZArith Lia Ascii.

#[global] Open Scope Z_scope.

(** ** Go errors

    A Go [error] is a tree: a node with an identity (a package-level sentinel,
    or a typed error with its public members) and the errors it wraps.
    [fmt.Errorf] with [%w] verbs and [errors.Join] build anonymous nodes. The
    message text is not part of the model: no code under src/ reads one. *)
Inductive errtag :=
| Sentinel (name : string)
| Typed (type code field : string) (at_time : Z)
| Wrapper.

Inductive error := Err (tag : errtag) (causes : list error).

#[global] Instance errtag_eq_dec : EqDecision errtag.
Proof. solve_decision. Defined.

(** [errors.New] at package level. *)
Definition sentinel (name : string) : error := Err (Sentinel name) [].
(** [fmt.Errorf] with one or more [%w]. *)
Definition wrapf (causes : list error) : error := Err Wrapper causes.

(** [errors.Join]: nil when every argument is nil. *)
Definition errors_join (errs : list error) : option error :=
  match errs with [] => None | _ => Some (Err Wrapper errs) end.

(** [errors.Is]: some node of the tree is the target. *)
Fixpoint errors_is (e : error) (target : errtag) : bool :=
  match e with
  | Err tag causes => bool_decide (tag = target) || existsb (fun c => errors_is c target) causes
  end.

Lemma errors_is_self t cs : errors_is (Err t cs) t = true.
Proof. simpl. by rewrite bool_decide_true. Qed.

Lemma errors_is_wrapf e es t :
  t <> Wrapper -> errors_is (wrapf (e :: es)) t = errors_is e t || existsb (fun c => errors_is c t) es.
Proof. intros Ht. unfold wrapf. simpl. by rewrite bool_decide_false. Qed.

Definition is_typed (ty : string) (t : errtag) : bool :=
  match t with Typed ty' _ _ _ => bool_decide (ty = ty') | _ => false end.

(** [errors.As] for a typed error: the first node of that type, depth first. *)
Fixpoint errors_as (ty : string) (e : error) : option errtag :=
  match e with
  | Err tag causes =>
      if is_typed ty tag then Some tag
      else (fix go (cs : list error) : option errtag :=
              match cs with
              | [] => None
              | c :: cs' => match errors_as ty c with Some t => Some t | None => go cs' end
              end) causes
  end.

(** The [Code] member of the typed error [errors.As] finds. *)
Definition errors_code (ty : string) (e : error) : option string :=
  match errors_as ty e with Some (Typed _ code _ _) => Some code | _ => None end.

Definition code_is (ty code : string) (e : error) : bool :=
  bool_decide (errors_code ty e = Some code).

(** A Go [(T, error)] return of which exactly one half is meaningful. *)
Inductive result (A : Type) :=
| Ok (a : A)
| Fail (e : error).
Arguments Ok {A} a.
Arguments Fail {A} e.

Definition is_Ok {A} (r : result A) : Prop := exists a, r = Ok a.

(** ** Machine integers: Go's [uint64], kept as a wrapped [Z]. *)
Definition u64_modulus : Z := 2 ^ 64.
Definition u64 (z : Z) : Z := z mod u64_modulus.
Definition is_u64 (z : Z) : Prop := 0 <= z < u64_modulus.

Lemma u64_small z : is_u64 z -> u64 z = z.
Proof. intros H. by apply Z.mod_small. Qed.

Lemma u64_range z : is_u64 (u64 z).
Proof. apply Z.mod_pos_bound. done. Qed.

(** Adding one to a counter that is not at the top does not wrap. *)
Lemma u64_succ z : is_u64 z -> z <> u64_modulus - 1 -> u64 (z + 1) = z + 1.
Proof. unfold is_u64. intros [? ?] ?. apply u64_small. unfold is_u64. lia. Qed.

Lemma u64_succ_top : u64 (u64_modulus - 1 + 1) = 0.
Proof. reflexivity. Qed.

(** ** Step relations: reachability from an initial predicate *)
Section Reachability.
Context {S : Type} (init : S -> Prop) (step : S -> S -> Prop).

Inductive reachable : S -> Prop :=
| reach_init s : init s -> reachable s
| reach_step s s' : reachable s -> step s s' -> reachable s'.

(** The induction every component's invariant uses. *)
Lemma reachable_invariant (I : S -> Prop) :
  (forall s, init s -> I s) -> (forall s s', I s -> step s s' -> I s') ->
  forall s, reachable s -> I s.
Proof. intros Hi Hs s Hr. induction Hr; eauto. Qed.
End Reachability.
Arguments reachable {S} init step.

(** ** Lists *)
Create HintDb factory.

Lemma filter_snoc {A} (P : A -> Prop) `{!forall x, Decision (P x)} l x :
  filter P (l ++ [x]) = filter P l ++ filter P [x].
Proof. apply filter_app. Qed.

(** A filter that accepts every element changes nothing. *)
Lemma filter_all {A} (P : A -> Prop) `{!forall x, Decision (P x)} (l : list A) : Forall P l -> filter P l = l.
Proof. induction 1 as [|x l Hx _ IH]; [done|]. by rewrite filter_cons_True, IH. Qed.

(** One that rejects every element leaves nothing. *)
Lemma filter_none {A} (P : A -> Prop) `{!forall x, Decision (P x)} (l : list A) :
  (forall x, x ∈ l -> ~ P x) -> filter P l = [].
Proof.
  induction l as [|x l IH]; intros Hl; [done|]. rewrite filter_cons_False by (apply Hl; apply elem_of_cons; by left).
  apply IH. intros y Hy. apply Hl. apply elem_of_cons. by right.
Qed.

(** Removing an element the filter rejects does not change what it keeps. *)
Lemma filter_take_drop_out {A} (P : A -> Prop) `{!forall x, Decision (P x)} (l : list A) i x :
  l !! i = Some x -> ~ P x -> filter P (take i l ++ drop (S i) l) = filter P l.
Proof.
  intros Hx Hn. rewrite <- (take_drop_middle l i x Hx) at 3.
  by rewrite !filter_app, (filter_cons_False _ _ _ Hn).
Qed.

Lemma length_take_drop_out {A} (l : list A) i :
  (i < length l)%nat -> length (take i l ++ drop (S i) l) = pred (length l).
Proof. intros H. rewrite length_app, length_take, length_drop. lia. Qed.

Lemma Forall_take_drop_out {A} (P : A -> Prop) (l : list A) i :
  Forall P l -> Forall P (take i l ++ drop (S i) l).
Proof. intros H. apply Forall_app_2; [by apply Forall_take | by apply Forall_drop]. Qed.

#[export] Hint Resolve Forall_take_drop_out u64_range : factory.

(** ** Tactics *)

(** Split the branches of a handler: destruct every scrutinee in the goal and
    clean the equations up. *)
Ltac branches := repeat (case_match; simplify_eq/=).

(** Reflect the boolean guards the code tests into propositions. *)
Ltac reflect_guards :=
  repeat match goal with
  | H : bool_decide _ = true |- _ => apply bool_decide_eq_true_1 in H
  | H : bool_decide _ = false |- _ => apply bool_decide_eq_false_1 in H
  | H : negb _ = true |- _ => apply negb_true_iff in H
  | H : negb _ = false |- _ => apply negb_false_iff in H
  | H : _ && _ = true |- _ => apply andb_true_iff in H as [? ?]
  | H : _ || _ = false |- _ => apply orb_false_iff in H as [? ?]
  | H : (_ <? _) = true |- _ => apply Z.ltb_lt in H
  | H : (_ <? _) = false |- _ => apply Z.ltb_ge in H
  | H : (_ <=? _) = true |- _ => apply Z.leb_le in H
  | H : (_ <=? _) = false |- _ => apply Z.leb_gt in H
  | H : (_ =? _) = true |- _ => apply Z.eqb_eq in H
  | H : (_ =? _) = false |- _ => apply Z.eqb_neq in H
  end.
