(* ===== verification/Wire.v ===== *)
(** * The records Factory exchanges with Core and SessionStore

    The record types of github.com/looprig/core/sessionwire/v1 and
    github.com/looprig/sessionstore that the modelled code handles, with the
    members that code reads or writes. Both modules are outside src/: nothing
    here gives them behaviour. Identifiers are Go strings, times are instants
    on an integer line ([After] is [>], [Before] is [<]), counters are [uint64]
    values in [Z]. Validation, encoding and every store call stay parameters of
    the components that use them. *)

From S2P Require Import Prelude.

Abbreviation TenantID := string (only parsing).
Abbreviation SessionID := string (only parsing).
Abbreviation HostID := string (only parsing).
Abbreviation AgentID := string (only parsing).
Abbreviation CommandID := string (only parsing).
Abbreviation InternalEndpoint := string (only parsing).
Abbreviation Cursor := string (only parsing).
Abbreviation time := Z (only parsing).
Abbreviation bytes := string (only parsing).

(** The key of every per-session table: Go's [struct{tenant, session}]. *)
Record sessionKey := SessionKey { key_tenant : TenantID; key_session : SessionID }.

#[global] Instance sessionKey_eq_dec : EqDecision sessionKey.
Proof. solve_decision. Defined.

#[global] Program Instance sessionKey_countable : Countable sessionKey :=
  inj_countable' (fun k => (key_tenant k, key_session k)) (fun p => SessionKey p.1 p.2) _.
Next Obligation. by intros []. Qed.

(** Go's string-typed enumerations: the named constants the code compares
    against, and any other value. *)
Inductive HostPlacement :=
| HostPlacementDedicated
| HostPlacementPooled
| HostPlacementOther (value : string).

Inductive SessionResidency :=
| SessionResidencyResident
| SessionResidencyOther (value : string).

Inductive HostIsolationClass :=
| HostIsolationClassCrossTenantIsolated
| HostIsolationClassOther (value : string).

Inductive HostLinkAttachMode :=
| HostLinkAttachModeCreate
| HostLinkAttachModeRestore.

#[global] Instance HostPlacement_eq_dec : EqDecision HostPlacement.
Proof. solve_decision. Defined.
#[global] Instance SessionResidency_eq_dec : EqDecision SessionResidency.
Proof. solve_decision. Defined.
#[global] Instance HostIsolationClass_eq_dec : EqDecision HostIsolationClass.
Proof. solve_decision. Defined.
#[global] Instance HostLinkAttachMode_eq_dec : EqDecision HostLinkAttachMode.
Proof. solve_decision. Defined.

(** sessionwire.HostLinkRegistryObservation *)
Record HostLinkRegistryObservation := RegistryObservation {
  obs_TenantID : TenantID;
  obs_SessionID : SessionID;
  obs_HostID : HostID;
  obs_HostGeneration : Z;
  obs_LeaseEpoch : Z;
  obs_AgentID : AgentID;
  obs_RuntimeCompatibilityID : string;
  obs_Placement : HostPlacement;
  obs_Residency : SessionResidency;
  obs_Accepting : bool;
  obs_ExpiresAt : time;
  obs_InternalEndpoint : InternalEndpoint
}.

#[global] Instance RegistryObservation_eq_dec : EqDecision HostLinkRegistryObservation.
Proof. solve_decision. Defined.

(** sessionwire.HostLinkCapacityReport *)
Record HostLinkCapacityReport := CapacityReport {
  cap_HostID : HostID;
  cap_HostGeneration : Z;
  cap_AgentID : AgentID;
  cap_RuntimeCompatibilityID : string;
  cap_Placement : HostPlacement;
  cap_IsolationClass : HostIsolationClass;
  cap_Accepting : bool;
  cap_AvailableCapacity : Z;
  cap_InternalEndpoint : InternalEndpoint
}.

#[global] Instance CapacityReport_eq_dec : EqDecision HostLinkCapacityReport.
Proof. solve_decision. Defined.

(** sessionwire.HostLinkBindRequest and HostLinkUnbindRequest; [Version] is the
    build's constant [CurrentWireVersion]. *)
Record HostLinkBindRequest := BindRequest {
  bind_TenantID : TenantID;
  bind_SessionID : SessionID;
  bind_HostID : HostID;
  bind_HostGeneration : Z;
  bind_LeaseEpoch : Z;
  bind_RuntimeCompatibilityID : string;
  bind_IdempotencyKey : string
}.

Record HostLinkUnbindRequest := UnbindRequest {
  unbind_TenantID : TenantID;
  unbind_SessionID : SessionID;
  unbind_HostID : HostID;
  unbind_HostGeneration : Z;
  unbind_LeaseEpoch : Z;
  unbind_IdempotencyKey : string
}.

#[global] Instance BindRequest_eq_dec : EqDecision HostLinkBindRequest.
Proof. solve_decision. Defined.
#[global] Instance UnbindRequest_eq_dec : EqDecision HostLinkUnbindRequest.
Proof. solve_decision. Defined.

(** sessionwire.HostLinkAttachRequest *)
Record HostLinkAttachRequest := AttachRequest {
  attach_TenantID : TenantID;
  attach_SessionID : SessionID;
  attach_HostID : HostID;
  attach_HostGeneration : Z;
  attach_AgentID : AgentID;
  attach_RuntimeCompatibilityID : string;
  attach_Mode : HostLinkAttachMode;
  attach_ActorID : string;
  attach_IdempotencyKey : string
}.

#[global] Instance AttachRequest_eq_dec : EqDecision HostLinkAttachRequest.
Proof. solve_decision. Defined.

(** sessionwire.JournalPage: the public events' sequences, the captured tip and
    how far the scan covered. *)
Record JournalPage := JournalPageOf {
  page_Events : list Z;
  page_CapturedTip : Z;
  page_CoveredThrough : Z
}.

(** sessionstore.DesiredWorkload and CatalogRecord *)
Record DesiredWorkload := Workload { wl_PayloadVersion : string; wl_Payload : bytes }.

#[global] Instance DesiredWorkload_eq_dec : EqDecision DesiredWorkload.
Proof. solve_decision. Defined.

(** sessionstore.SessionBinding: the immutable binding a create pins. *)
Inductive ProtocolMode := ProtocolModeDisposition | ProtocolModeOther (value : string).

#[global] Instance ProtocolMode_eq_dec : EqDecision ProtocolMode.
Proof. solve_decision. Defined.

Record SessionBinding := Session_Binding {
  bnd_StorageBindingID : string;
  bnd_BindingVersion : string;
  bnd_RuntimeSessionID : string;
  bnd_ProtocolMode : ProtocolMode
}.

#[global] Instance SessionBinding_eq_dec : EqDecision SessionBinding.
Proof. solve_decision. Defined.

(** sessionwire.GateProjection: the members the code reads. *)
Inductive GateAnswerability := GateAnswerabilityResident | GateAnswerabilityUnavailable | GateAnswerabilityOther (value : string).

#[global] Instance GateAnswerability_eq_dec : EqDecision GateAnswerability.
Proof. solve_decision. Defined.

Record GateProjection := Gate_Projection {
  gate_GateID : string;
  gate_OpenedEventID : string;
  gate_OpenedJournalSeq : Z;
  gate_Deadline : time;
  gate_Answerability : GateAnswerability
}.

#[global] Instance GateProjection_eq_dec : EqDecision GateProjection.
Proof. solve_decision. Defined.

Record CatalogRecord := Catalog_Record {
  rec_TenantID : TenantID;
  rec_SessionID : SessionID;
  rec_AgentID : AgentID;
  rec_RuntimeCompatibilityID : string;
  rec_DesiredPlacement : HostPlacement;
  rec_DesiredGeneration : Z;
  rec_DesiredWorkload : DesiredWorkload;
  rec_InitialWorkload : option DesiredWorkload;  (* PublicCreate.InitialWorkload *)
  rec_LastJournalSeq : Z;
  rec_CheckpointSeq : Z;
  rec_Binding : SessionBinding;
  rec_OpenGates : list GateProjection
}.

#[global] Instance CatalogRecord_eq_dec : EqDecision CatalogRecord.
Proof. solve_decision. Defined.

Record CatalogEntry := Catalog_Entry { entry_Record : CatalogRecord; entry_Revision : Z }.

(** ** Core's session-channel codec

    The functions of sessionwire the realtime plane calls on encoded records. *)
Inductive SessionRecordType :=
| SessionRecordTypeEnduringPublication
| SessionRecordTypeEphemeralPublication
| SessionRecordTypeOther (value : string).

#[global] Instance SessionRecordType_eq_dec : EqDecision SessionRecordType.
Proof. solve_decision. Defined.

Record EnduringPublication := Enduring_Publication {
  pub_TenantID : TenantID;
  pub_SessionID : SessionID;
  pub_EventID : string;
  pub_JournalSeq : Z;
  pub_CoveredThrough : Z;
  pub_Body : bytes
}.

Record EphemeralPublication := Ephemeral_Publication {
  eph_TenantID : TenantID;
  eph_SessionID : SessionID
}.

Record SessionReset := Session_Reset {
  reset_TenantID : TenantID;
  reset_SessionID : SessionID;
  reset_LastContiguous : Z;
  reset_JournalTip : Z
}.

Class SessionCodec := {
  SessionRecordTypeOf : bytes -> result SessionRecordType;
  unmarshalEnduring : bytes -> result EnduringPublication;
  unmarshalEphemeral : bytes -> result EphemeralPublication;
  marshalReset : SessionReset -> result bytes
}.

(** What the source documents of that codec: a decoded enduring publication
    covers exactly its own sequence (queue.go, ErrWatermarkNotItsEventSequence),
    and a [session.reset] whose last contiguous sequence is above its tip is
    refused (README, "A Host-owned session's journal"). *)
Class SessionCodecLaws (codec : SessionCodec) : Prop := {
  enduring_covers_itself : forall b p, unmarshalEnduring b = Ok p -> pub_CoveredThrough p = pub_JournalSeq p;
  enduring_is_u64 : forall b p, unmarshalEnduring b = Ok p -> is_u64 (pub_JournalSeq p);
  reset_is_coherent : forall r b, marshalReset r = Ok b -> reset_LastContiguous r <= reset_JournalTip r
}.

(** A concrete codec, for evaluating the components: ["e"] followed by [n]
    characters is tenant ["t"] session ["s"]'s enduring publication of sequence
    [n], ["p..."] an ephemeral publication of the same session, ["f..."] one of
    a foreign session, anything else does not decode. *)
Definition demo_type (b : bytes) : result SessionRecordType :=
  match b with
  | String "e"%char _ => Ok SessionRecordTypeEnduringPublication
  | String "p"%char _ | String "f"%char _ => Ok SessionRecordTypeEphemeralPublication
  | String "r"%char _ => Ok (SessionRecordTypeOther "session_reset")
  | _ => Fail (sentinel "sessionwire.decode")
  end.

Definition demo_codec : SessionCodec := {|
  SessionRecordTypeOf := demo_type;
  unmarshalEnduring b :=
    match b with
    | String "e"%char rest =>
        let n := Z.of_nat (String.length rest) in
        if n <? u64_modulus then Ok (Enduring_Publication "t" "s" rest n n rest)
        else Fail (sentinel "sessionwire.decode")
    | _ => Fail (sentinel "sessionwire.decode")
    end;
  unmarshalEphemeral b :=
    match b with
    | String "p"%char _ => Ok (Ephemeral_Publication "t" "s")
    | String "f"%char _ => Ok (Ephemeral_Publication "t" "other")
    | _ => Fail (sentinel "sessionwire.decode")
    end;
  marshalReset r :=
    if reset_LastContiguous r <=? reset_JournalTip r then Ok "r"%string
    else Fail (sentinel "sessionwire.validate")
|}.

#[global] Instance demo_codec_laws : SessionCodecLaws demo_codec.
Proof.
  split; simpl.
  - intros b p Hp. branches; done.
  - intros b p Hp. branches; try done. reflect_guards. unfold is_u64. simpl. lia.
  - intros r b Hp. branches; by reflect_guards.
Qed.
