(* ===== verification/Framing.v ===== *)
(** * Framed hashing of identity tuples

    Two packages derive idempotency keys by hashing a sequence of fields, each
    written as its decimal byte length, a NUL and its bytes:
    [frame] and [bindIdempotencyKey] in src/internal/routing/bindings.go,
    [framedDigest] in src/internal/placement/reconciler.go and [framedKey] in
    src/internal/placement/attach.go. SHA-256 and hex are the Go standard
    library's: the digest is a parameter, and what is proved here is that the
    bytes hashed determine the tuple. *)

From stdpp Require Import pretty.
From S2P Require Import Prelude.

(** [strconv.Itoa] of a length and [strconv.FormatUint] of a [uint64]. *)
Definition itoa (n : N) : string := pretty n.
Definition formatUint (z : Z) : string := pretty (Z.to_N z).

Definition NUL : ascii := "000"%char.

(** One framed field: length in decimal, NUL, bytes. *)
Definition frame (field : string) : string :=
  (itoa (N.of_nat (String.length field)) +:+ String NUL "" +:+ field)%string.

(** What is written to the hash for a list of fields. *)
Fixpoint framed (fields : list string) : string :=
  match fields with
  | [] => ""
  | field :: rest => (frame field +:+ framed rest)%string
  end.

(** ** Decimal lengths hold no NUL *)
Fixpoint no_nul (s : string) : Prop :=
  match s with
  | "" => True
  | String c s' => c <> NUL /\ no_nul s'
  end%string.

Lemma pretty_N_char_no_nul x : pretty_N_char x <> NUL.
Proof. unfold pretty_N_char. by repeat case_match. Qed.

Lemma pretty_N_go_no_nul x s : no_nul s -> no_nul (pretty_N_go x s).
Proof.
  revert s. induction (N.lt_wf_0 x) as [x _ IH]. intros s Hs.
  destruct (decide (0 < x)%N) as [Hx|Hx].
  - rewrite pretty_N_go_step by done. apply IH.
    + apply N.div_lt; lia.
    + simpl. split; [apply pretty_N_char_no_nul|done].
  - replace x with 0%N by lia. by rewrite pretty_N_go_0.
Qed.

Lemma itoa_no_nul n : no_nul (itoa n).
Proof.
  unfold itoa, pretty, pretty_N. case_decide; [by split|]. by apply pretty_N_go_no_nul.
Qed.

(** ** The first NUL splits the length from the rest *)
Lemma nul_split s1 s2 t1 t2 :
  no_nul s1 -> no_nul s2 ->
  (s1 +:+ String NUL t1)%string = (s2 +:+ String NUL t2)%string -> s1 = s2 /\ t1 = t2.
Proof.
  revert s2. induction s1 as [|c s1 IH]; intros [|c' s2] H1 H2 Heq; simpl in *; simplify_eq; try tauto.
  destruct H1, H2. destruct (IH s2) as [-> ->]; auto.
Qed.

Lemma app_length_inj (s1 s2 t1 t2 : string) :
  String.length s1 = String.length s2 -> (s1 +:+ t1)%string = (s2 +:+ t2)%string -> s1 = s2 /\ t1 = t2.
Proof.
  revert s2. induction s1 as [|c s1 IH]; intros [|c' s2] Hl Heq; simpl in *; simplify_eq; [done|].
  destruct (IH s2) as [-> ->]; auto.
Qed.

Lemma string_app_assoc (s t u : string) : ((s +:+ t) +:+ u)%string = (s +:+ (t +:+ u))%string.
Proof.
  induction s as [|c s IH]; [done|].
  change (String c ((s +:+ t) +:+ u)%string = String c (s +:+ (t +:+ u))%string). by rewrite IH.
Qed.

(** A framed field can be read back: it fixes both the field and what follows. *)
Lemma frame_inj f1 f2 t1 t2 :
  (frame f1 +:+ t1)%string = (frame f2 +:+ t2)%string -> f1 = f2 /\ t1 = t2.
Proof.
  unfold frame. rewrite !string_app_assoc. simpl. intros Heq.
  apply nul_split in Heq as [Hl Heq]; [|apply itoa_no_nul..].
  apply (inj pretty) in Hl. apply app_length_inj; [lia|done].
Qed.

Lemma framed_inj fs1 : forall fs2, length fs1 = length fs2 -> framed fs1 = framed fs2 -> fs1 = fs2.
Proof.
  induction fs1 as [|f1 fs1 IH]; intros [|f2 fs2] Hl Heq; simpl in *; simplify_eq; [done|].
  apply frame_inj in Heq as [-> Heq]. f_equal. auto.
Qed.

Lemma formatUint_inj x y : is_u64 x -> is_u64 y -> formatUint x = formatUint y -> x = y.
Proof. unfold is_u64, formatUint. intros ? ? H%(inj pretty). lia. Qed.

(** A pair of distinct inputs a digest maps to one value. *)
Definition collision (digest : string -> string) : Prop := exists x y, x <> y /\ digest x = digest y.

Lemma digest_inj (digest : string -> string) fs1 fs2 :
  length fs1 = length fs2 -> digest (framed fs1) = digest (framed fs2) ->
  fs1 = fs2 \/ collision digest.
Proof.
  intros Hl Hd. destruct (decide (framed fs1 = framed fs2)) as [Heq|Hne].
  - left. by apply framed_inj.
  - right. by exists (framed fs1), (framed fs2).
Qed.
