(* ===== verification/Text.v ===== *)
(** * Byte strings, as the Go code scans them

    The functions of Go's [strings], [unicode/utf8] and [strconv] that the
    modelled packages call, on byte strings: cutting and splitting at a byte,
    trimming, ASCII case folding, UTF-8 validity, decimal and hexadecimal
    digits. All are structural recursions on the string. *)

From S2P Require Import Prelude Framing.
Local Open Scope string_scope.
Local Open Scope Z_scope.

Definition byte_of (c : ascii) : Z := Z.of_N (N_of_ascii c).

Fixpoint all_bytes (p : ascii -> bool) (s : string) : bool :=
  match s with
  | "" => true
  | String c s => p c && all_bytes p s
  end.

(** [strings.IndexByte(s, c) >= 0]. *)
Fixpoint has_byte (c : ascii) (s : string) : bool :=
  match s with
  | "" => false
  | String d s => bool_decide (c = d) || has_byte c s
  end.

(** [strings.ContainsAny(s, cutset)]. *)
Definition contains_any (cutset s : string) : bool := negb (all_bytes (fun c => negb (has_byte c cutset)) s).

(** [strings.Cut(s, sep)] at a one-byte separator: the parts before and after
    the first one, or the whole string when there is none. *)
Fixpoint cut (sep : ascii) (s : string) : string * string * bool :=
  match s with
  | "" => ("", "", false)
  | String c s =>
      if bool_decide (c = sep) then ("", s, true)
      else let '(before, after, found) := cut sep s in (String c before, after, found)
  end.

(** [strings.Split(s, sep)] at a one-byte separator. *)
Fixpoint split (sep : ascii) (s : string) : list string :=
  match s with
  | "" => [""]
  | String c s =>
      match split sep s with
      | [] => [] (* not reached: a split has at least one part *)
      | part :: parts => if bool_decide (c = sep) then "" :: part :: parts else String c part :: parts
      end
  end.

(** [strings.TrimLeft(s, c)]. *)
Fixpoint trim_left (c : ascii) (s : string) : string :=
  match s with
  | String d s' => if bool_decide (c = d) then trim_left c s' else s
  | "" => ""
  end.

(** [strings.TrimPrefix] and [strings.HasPrefix] together. *)
Fixpoint after_prefix (prefix s : string) : option string :=
  match prefix, s with
  | "", _ => Some s
  | String c prefix, String d s => if bool_decide (c = d) then after_prefix prefix s else None
  | _, "" => None
  end.

(** Whether [s] ends with a byte, and [s] without its last one. *)
Fixpoint ends_with (c : ascii) (s : string) : bool :=
  match s with "" => false | String d "" => bool_decide (c = d) | String _ s => ends_with c s end.
Fixpoint without_last (s : string) : string :=
  match s with "" | String _ "" => "" | String c s => String c (without_last s) end.

(** ASCII case folding: [strings.ToLower] on ASCII, and [strings.EqualFold]
    where one side is ASCII without the letters k and s (the two ASCII letters
    with folds outside ASCII). *)
Definition in_range (lo hi : Z) (c : ascii) : bool := (lo <=? byte_of c) && (byte_of c <=? hi).
Definition lower_byte (c : ascii) : ascii :=
  if in_range 65 90 c then ascii_of_N (Z.to_N (byte_of c + 32)) else c.
Fixpoint to_lower (s : string) : string :=
  match s with
  | "" => ""
  | String c s => String (lower_byte c) (to_lower s)
  end.
Definition equal_fold (s t : string) : bool := bool_decide (to_lower s = to_lower t).

Definition is_digit : ascii -> bool := in_range 48 57.
Definition is_letter (c : ascii) : bool := in_range 97 122 c || in_range 65 90 c.

(** [utf8.ValidString]. *)
Definition continuation : ascii -> bool := in_range 128 191.
Fixpoint utf8_valid (s : string) : bool :=
  match s with
  | "" => true
  | String a s1 =>
      if byte_of a <? 128 then utf8_valid s1
      else
        match s1 with
        | "" => false
        | String b s2 =>
            if in_range 194 223 a then continuation b && utf8_valid s2
            else
              match s2 with
              | "" => false
              | String c s3 =>
                  if in_range 224 239 a then
                    (if byte_of a =? 224 then in_range 160 191 b
                     else if byte_of a =? 237 then in_range 128 159 b
                     else continuation b)
                    && continuation c && utf8_valid s3
                  else
                    match s3 with
                    | "" => false
                    | String d s4 =>
                        in_range 240 244 a &&
                        (if byte_of a =? 240 then in_range 144 191 b
                         else if byte_of a =? 244 then in_range 128 143 b
                         else continuation b)
                        && continuation c && continuation d && utf8_valid s4
                    end
              end
        end
  end.

(** ** Facts *)
Lemma string_app_nil_r (s : string) : (s +:+ "") = s.
Proof.
  induction s as [|c s IH]; [done|]. change (String c (s +:+ "") = String c s). by rewrite IH.
Qed.

Lemma has_byte_app c s t : has_byte c (s +:+ t) = has_byte c s || has_byte c t.
Proof. induction s as [|d s IH]; [done|]. simpl. by rewrite IH, orb_assoc. Qed.

Lemma cut_app sep s t : has_byte sep s = false -> cut sep (s +:+ String sep t) = (s, t, true).
Proof.
  induction s as [|c s IH]; simpl; intros Hs; [by rewrite bool_decide_true|].
  apply orb_false_iff in Hs as [Hc Hs]. apply bool_decide_eq_false_1 in Hc.
  rewrite bool_decide_false by congruence. by rewrite IH.
Qed.

Lemma cut_none sep s : has_byte sep s = false -> cut sep s = (s, "", false).
Proof.
  induction s as [|c s IH]; simpl; intros Hs; [done|].
  apply orb_false_iff in Hs as [Hc Hs]. apply bool_decide_eq_false_1 in Hc.
  rewrite bool_decide_false by congruence. by rewrite IH.
Qed.

Lemma cut_found sep s before after : cut sep s = (before, after, true) ->
  s = (before +:+ String sep after) /\ has_byte sep before = false.
Proof.
  revert before. induction s as [|c s IH]; simpl; intros before Hs; [done|].
  case_bool_decide as Hc; [by simplify_eq|].
  destruct (cut sep s) as [[b a] f]. simplify_eq. destruct (IH b eq_refl) as [-> Hb].
  split; [done|]. simpl. rewrite Hb, bool_decide_false by congruence. done.
Qed.

(** Cutting is injective on strings that hold the separator. *)
Lemma cut_inj sep s1 t1 s2 t2 :
  has_byte sep s1 = false -> has_byte sep s2 = false ->
  (s1 +:+ String sep t1) = (s2 +:+ String sep t2) -> s1 = s2 /\ t1 = t2.
Proof.
  intros H1 H2 Heq. pose proof (cut_app sep s1 t1 H1) as C1. pose proof (cut_app sep s2 t2 H2) as C2.
  rewrite Heq in C1. rewrite C1 in C2. by simplify_eq.
Qed.

Lemma after_prefix_app p s : after_prefix p (p +:+ s) = Some s.
Proof. induction p as [|c p IH]; [done|]. simpl. by rewrite bool_decide_true. Qed.

Lemma after_prefix_some p : forall s t, after_prefix p s = Some t -> s = (p +:+ t).
Proof.
  induction p as [|c p IH]; intros [|d s] t Hs; simpl in *; simplify_eq; try done.
  case_bool_decide; simplify_eq. by rewrite (IH s t Hs).
Qed.

Lemma split_nonempty sep s : split sep s <> [].
Proof.
  induction s as [|c s IH]; simpl; [done|]. destruct (split sep s); [done|]. by case_bool_decide.
Qed.

Lemma split_app sep s t : has_byte sep s = false -> split sep (s +:+ String sep t) = s :: split sep t.
Proof.
  induction s as [|c s IH]; simpl; intros Hs.
  - pose proof (split_nonempty sep t). destruct (split sep t); [done|]. by rewrite bool_decide_true.
  - apply orb_false_iff in Hs as [Hc Hs]. rewrite IH by done. rewrite bool_decide_false; [done|].
    apply bool_decide_eq_false in Hc. congruence.
Qed.

Lemma split_none sep s : has_byte sep s = false -> split sep s = [s].
Proof.
  induction s as [|c s IH]; simpl; intros Hs; [done|]. apply orb_false_iff in Hs as [Hc Hs]. rewrite IH by done.
  rewrite bool_decide_false; [done|]. apply bool_decide_eq_false in Hc. congruence.
Qed.

(** Joining the parts of a split gives the string back. *)
Fixpoint join (sep : ascii) (parts : list string) : string :=
  match parts with
  | [] => ""
  | [part] => part
  | part :: parts => part +:+ String sep (join sep parts)
  end.

Lemma join_split sep s : join sep (split sep s) = s.
Proof.
  induction s as [|c s IH]; [done|]. simpl. pose proof (split_nonempty sep s).
  destruct (split sep s) as [|part parts] eqn:Hs; [done|].
  case_bool_decide as Hc.
  - rewrite Hc. change (String sep (join sep (part :: parts)) = String sep s). by rewrite IH.
  - rewrite <- IH. by destruct parts.
Qed.

Lemma trim_left_not c s t d : trim_left c s = String d t -> d <> c.
Proof.
  induction s as [|e s IH]; simpl; [done|]. case_bool_decide; [auto|]. intros Heq. by simplify_eq.
Qed.

Lemma all_bytes_impl (p q : ascii -> bool) s :
  (forall c, p c = true -> q c = true) -> all_bytes p s = true -> all_bytes q s = true.
Proof.
  intros Hpq. induction s as [|c s IH]; [done|]. simpl. intros [Hc Hs]%andb_true_iff.
  by rewrite (Hpq _ Hc), (IH Hs).
Qed.

Lemma all_bytes_no (c : ascii) s : all_bytes (fun d => negb (bool_decide (c = d))) s = negb (has_byte c s).
Proof. induction s as [|d s IH]; [done|]. simpl. rewrite IH. by rewrite negb_orb. Qed.

(** ** Decimal numerals *)
Lemma pretty_N_char_digit x : is_digit (pretty.pretty_N_char x) = true.
Proof. unfold pretty.pretty_N_char. by repeat case_match. Qed.

Lemma pretty_N_go_digits x s : all_bytes is_digit s = true -> all_bytes is_digit (pretty.pretty_N_go x s) = true.
Proof.
  revert s. induction (N.lt_wf_0 x) as [x _ IH]. intros s Hs.
  destruct (decide (0 < x)%N) as [Hx|Hx].
  - rewrite pretty.pretty_N_go_step by done. apply IH.
    + apply N.div_lt; lia.
    + simpl. by rewrite pretty_N_char_digit.
  - replace x with 0%N by lia. by rewrite pretty.pretty_N_go_0.
Qed.

Lemma itoa_digits n : all_bytes is_digit (itoa n) = true.
Proof.
  unfold itoa, pretty.pretty, pretty.pretty_N. case_decide; [done|]. by apply pretty_N_go_digits.
Qed.

Lemma digits_have_no c s : is_digit c = false -> all_bytes is_digit s = true -> has_byte c s = false.
Proof.
  intros Hc. induction s as [|d s IH]; [done|]. simpl. intros [Hd Hs]%andb_true_iff.
  rewrite (IH Hs), bool_decide_false; [done|]. congruence.
Qed.

(** [strconv.ParseUint] with base 10 and 64 bits, on digits: [None] when the
    value does not fit. *)
Definition digit_value (c : ascii) : Z := byte_of c - 48.
Fixpoint decimal (s : string) (acc : Z) : Z :=
  match s with
  | EmptyString => acc
  | String c s => decimal s (acc * 10 + digit_value c)
  end.
Definition ParseUint (s : string) : option Z :=
  let v := decimal s 0 in if v <? u64_modulus then Some v else None.

Lemma decimal_pos s : forall acc, 0 <= acc -> all_bytes is_digit s = true -> 0 <= decimal s acc.
Proof.
  induction s as [|c s IH]; intros acc Hacc Hs; simpl in *; [done|]. apply andb_true_iff in Hs as [Hc Hs].
  apply IH; [|done]. unfold is_digit, in_range in Hc. apply andb_true_iff in Hc as [Hc _]. apply Z.leb_le in Hc.
  unfold digit_value. lia.
Qed.

Lemma digit_char x : (x < 10)%N -> digit_value (pretty.pretty_N_char x) = Z.of_N x.
Proof.
  intros Hx. assert (H : (x = 0 \/ x = 1 \/ x = 2 \/ x = 3 \/ x = 4 \/ x = 5 \/ x = 6 \/ x = 7 \/ x = 8 \/ x = 9)%N) by lia.
  by repeat (destruct H as [->|H]; [done|]); subst x.
Qed.

Lemma decimal_go x : forall s, (0 < x)%N -> decimal (pretty.pretty_N_go x s) 0 = decimal s (Z.of_N x).
Proof.
  induction (N.lt_wf_0 x) as [x _ IH]. intros s Hx. rewrite pretty.pretty_N_go_step by done.
  assert (Hm : (x mod 10 < 10)%N) by (apply N.mod_lt; lia).
  assert (Hd : Z.of_N x = Z.of_N (x / 10) * 10 + Z.of_N (x mod 10)) by (pose proof (N.div_mod x 10); lia).
  destruct (decide (0 < x / 10)%N) as [H0|H0].
  - rewrite IH; [|apply N.div_lt; lia|done]. simpl. by rewrite digit_char, Hd by done.
  - assert (H1 : (x / 10 = 0)%N) by lia. rewrite H1 in *. rewrite pretty.pretty_N_go_0. simpl. rewrite digit_char by done. f_equal. lia.
Qed.

(** Printing a number and reading it back. *)
Lemma decimal_itoa n : decimal (itoa n) 0 = Z.of_N n.
Proof.
  unfold itoa, pretty.pretty, pretty.pretty_N. case_decide; [by subst n|]. rewrite decimal_go by lia. done.
Qed.

Lemma itoa_nonempty n : itoa n <> "".
Proof. intros Hn. pose proof (decimal_itoa n) as Hd. rewrite Hn in Hd. destruct n; [by vm_compute in Hn|done]. Qed.

(** ** Bytes, by exhaustion *)
Lemma below_256 (P : Z -> bool) :
  forallb P (Z.of_nat <$> seq 0 256) = true -> forall b, 0 <= b < 256 -> P b = true.
Proof.
  intros Hf b Hb. rewrite forallb_forall in Hf. apply Hf. apply in_map_iff. exists (Z.to_nat b).
  split; [lia|]. apply in_seq. lia.
Qed.
