(* ===== verification/JsonText.v ===== *)
(** * JSON text (the parts of encoding/json the live tail relies on)

    The live tail names a viewer channel by the JSON of a pair of strings. The
    encoder writes strings as [encoding/json] does, with its escapes for HTML,
    control characters, U+2028, U+2029 and bytes that are not UTF-8; the decoder
    accepts any JSON text and decodes it into an array of two strings. Code
    points are [Z]; an array or object nests at most 10000 deep, as there. *)

From S2P Require Import Prelude Wire Framing Text.
Local Open Scope string_scope.
Local Open Scope Z_scope.

(** ** UTF-8 *)

(** A text rune by rune, as [utf8.DecodeRune] steps through it: a rune with its
    bytes, or one byte that starts none. *)
Inductive chunk := Bad | Good (r : Z) (raw : string).

Definition chr (x : Z) : ascii := ascii_of_N (Z.to_N x).

Definition second_of_three (a b : ascii) : bool :=
  if byte_of a =? 224 then in_range 160 191 b else if byte_of a =? 237 then in_range 128 159 b else continuation b.
Definition second_of_four (a b : ascii) : bool :=
  if byte_of a =? 240 then in_range 144 191 b else if byte_of a =? 244 then in_range 128 143 b else continuation b.

(** The bits below a lead byte's mark and a continuation byte's. *)
Definition rune2 (a b : ascii) : Z := (byte_of a - 192) * 64 + (byte_of b - 128).
Definition rune3 (a b c : ascii) : Z := (byte_of a - 224) * 4096 + (byte_of b - 128) * 64 + (byte_of c - 128).
Definition rune4 (a b c d : ascii) : Z :=
  (byte_of a - 240) * 262144 + (byte_of b - 128) * 4096 + (byte_of c - 128) * 64 + (byte_of d - 128).

Fixpoint chunks (s : string) : list chunk :=
  match s with
  | "" => []
  | String a s1 =>
      if byte_of a <? 128 then Good (byte_of a) (String a "") :: chunks s1
      else
        let bad := Bad :: chunks s1 in
        match s1 with
        | "" => bad
        | String b s2 =>
            if in_range 194 223 a then
              if continuation b then Good (rune2 a b) (String a (String b "")) :: chunks s2 else bad
            else
              match s2 with
              | "" => bad
              | String c s3 =>
                  if in_range 224 239 a then
                    if second_of_three a b && continuation c
                    then Good (rune3 a b c) (String a (String b (String c ""))) :: chunks s3 else bad
                  else
                    match s3 with
                    | "" => bad
                    | String d s4 =>
                        if in_range 240 244 a && second_of_four a b && continuation c && continuation d
                        then Good (rune4 a b c d) (String a (String b (String c (String d "")))) :: chunks s4 else bad
                    end
              end
        end
  end.

Definition replacement : string := String (chr 239) (String (chr 191) (String (chr 189) "")).

(** [utf8.EncodeRune]. *)
Definition EncodeRune (r : Z) : string :=
  if (r <? 0) || (1114111 <? r) || ((55296 <=? r) && (r <=? 57343)) then replacement
  else if r <? 128 then String (chr r) ""
  else if r <? 2048 then String (chr (192 + r / 64)) (String (chr (128 + r mod 64)) "")
  else if r <? 65536 then String (chr (224 + r / 4096)) (String (chr (128 + (r / 64) mod 64)) (String (chr (128 + r mod 64)) ""))
  else String (chr (240 + r / 262144)) (String (chr (128 + (r / 4096) mod 64))
         (String (chr (128 + (r / 64) mod 64)) (String (chr (128 + r mod 64)) ""))).

(** ** The encoder *)
Definition quote : ascii := "034".
Definition hexDigit (x : Z) : ascii := default "0"%char (String.get (Z.to_nat x) "0123456789abcdef").

(** [htmlSafeSet]. *)
Definition htmlSafe (r : Z) : bool :=
  (32 <=? r) && negb (r =? 34) && negb (r =? 92) && negb (r =? 60) && negb (r =? 62) && negb (r =? 38).

Definition escape (r : Z) (raw : string) : string :=
  if htmlSafe r then raw
  else if (r =? 92) || (r =? 34) then "\" +:+ raw
  else if r =? 8 then "\b" else if r =? 12 then "\f" else if r =? 10 then "\n" else if r =? 13 then "\r" else if r =? 9 then "\t"
  else "\u00" +:+ String (hexDigit (r / 16)) (String (hexDigit (r mod 16)) "").

Definition quoteChunk (c : chunk) : string :=
  match c with
  | Bad => "\ufffd"
  | Good r raw =>
      if r <? 128 then escape r raw
      else if (r =? 8232) || (r =? 8233) then "\u202" +:+ String (hexDigit (r mod 16)) ""
      else raw
  end.

Definition concatenate (l : list string) : string := fold_right String.append "" l.

Definition appendString (s : string) : string := String quote (concatenate (quoteChunk <$> chunks s) +:+ String quote "").

Definition marshalPair (a b : string) : string := "[" +:+ appendString a +:+ "," +:+ appendString b +:+ "]".

(** ** The decoder: strings *)
Definition hexValue (c : ascii) : option Z :=
  if in_range 48 57 c then Some (byte_of c - 48)
  else if in_range 97 102 c then Some (byte_of c - 87)
  else if in_range 65 70 c then Some (byte_of c - 55)
  else None.

Definition isHex (c : ascii) : bool := match hexValue c with Some _ => true | None => false end.

(** A string literal's body and what follows it, from behind its opening quote. *)
Fixpoint scanString (s : string) : option (string * string) :=
  match s with
  | "" => None
  | String c s1 =>
      if bool_decide (c = quote) then Some ("", s1)
      else if byte_of c <? 32 then None
      else if bool_decide (c = "\"%char) then
        match s1 with
        | "" => None
        | String e s2 =>
            if has_byte e (String quote "bfnrt/\") then prod_map (fun b => String c (String e b)) (fun r => r) <$> scanString s2
            else if bool_decide (e = "u"%char) then
              match s2 with
              | String h1 (String h2 (String h3 (String h4 s3))) =>
                  if isHex h1 && isHex h2 && isHex h3 && isHex h4
                  then prod_map (fun b => String c (String e (String h1 (String h2 (String h3 (String h4 b)))))) (fun r => r) <$> scanString s3
                  else None
              | _ => None
              end
            else None
        end
      else prod_map (String c) (fun r => r) <$> scanString s1
  end.

Definition isSurrogate (r : Z) : bool := (55296 <=? r) && (r <? 57344).

(** [utf16.DecodeRune], [None] when the two are no pair. *)
Definition pair_rune (r1 r2 : Z) : option Z :=
  if (55296 <=? r1) && (r1 <? 56320) && (56320 <=? r2) && (r2 <? 57344) then Some ((r1 - 55296) * 1024 + (r2 - 56320) + 65536) else None.

Definition hex_chunk (c : chunk) : option Z := match c with Good _ (String a "") => hexValue a | _ => None end.

(** [getu4] of four digits. *)
Definition u4 (h1 h2 h3 h4 : chunk) : option Z :=
  match hex_chunk h1, hex_chunk h2, hex_chunk h3, hex_chunk h4 with
  | Some a, Some b, Some c, Some d => Some (((a * 16 + b) * 16 + c) * 16 + d)
  | _, _, _, _ => None
  end.

Definition is_chunk (x : Z) (c : chunk) : bool := match c with Good r _ => r =? x | Bad => false end.

Definition next_u4 (cs : list chunk) : option Z :=
  match cs with
  | b :: u :: h1 :: h2 :: h3 :: h4 :: _ => if is_chunk 92 b && is_chunk 117 u then u4 h1 h2 h3 h4 else None
  | _ => None
  end.

Definition escaped (e : Z) : Z :=
  if e =? 98 then 8 else if e =? 102 then 12 else if e =? 110 then 10 else if e =? 114 then 13 else if e =? 116 then 9 else e.

(** [unquote], of a literal's body. [skip] counts the runes of a low surrogate's
    escape already consumed with its high one. *)
Fixpoint unquote (skip : nat) (cs : list chunk) : string :=
  match cs with
  | [] => ""
  | c :: cs1 =>
      match skip with
      | S skip => unquote skip cs1
      | O =>
          match c with
          | Bad => replacement +:+ unquote 0 cs1
          | Good r raw =>
              if r =? 92 then
                match cs1 with
                | [] => ""
                | e :: cs2 =>
                    if is_chunk 117 e then
                      match cs2 with
                      | h1 :: h2 :: h3 :: h4 :: cs3 =>
                          let rr := default 0 (u4 h1 h2 h3 h4) in
                          if isSurrogate rr then
                            match (match next_u4 cs3 with Some low => pair_rune rr low | None => None end) with
                            | Some rune => EncodeRune rune +:+ unquote 6 cs3
                            | None => replacement +:+ unquote 0 cs3
                            end
                          else EncodeRune rr +:+ unquote 0 cs3
                      | _ => ""
                      end
                    else (match e with Good x _ => EncodeRune (escaped x) | Bad => "" end) +:+ unquote 0 cs2
                end
              else EncodeRune r +:+ unquote 0 cs1
          end
      end
  end.

Definition unquoted (body : string) : string := unquote 0 (chunks body).

(** ** The decoder: values *)
Inductive json := JNull | JBool (b : bool) | JNumber | JString (s : string) | JArray (l : list json) | JObject.

Definition isSpace (c : ascii) : bool := has_byte c (String " " (String "009" (String "010" (String "013" "")))).

Fixpoint skipSpace (s : string) : string :=
  match s with String c s1 => if isSpace c then skipSpace s1 else s | "" => "" end.

Fixpoint skipDigits (s : string) : string :=
  match s with String c s1 => if is_digit c then skipDigits s1 else s | "" => "" end.

Definition oneDigit (s : string) : option string := match s with String c s1 => if is_digit c then Some (skipDigits s1) else None | "" => None end.

(** A number, from behind its sign: no leading zeros, an optional fraction and
    exponent, each with digits. *)
Definition scanInteger (s : string) : option string :=
  match s with
  | String c s1 => if bool_decide (c = "0"%char) then Some s1 else if is_digit c then Some (skipDigits s1) else None
  | "" => None
  end.
Definition scanFraction (s : string) : option string :=
  match s with String c s1 => if bool_decide (c = "."%char) then oneDigit s1 else Some s | "" => Some s end.
Definition scanExponent (s : string) : option string :=
  match s with
  | String c s1 =>
      if bool_decide (c = "e"%char) || bool_decide (c = "E"%char) then
        oneDigit (match s1 with String d s2 => if bool_decide (d = "+"%char) || bool_decide (d = "-"%char) then s2 else s1 | "" => s1 end)
      else Some s
  | "" => Some s
  end.
Definition scanNumber (s : string) : option string :=
  let s := match s with String c s1 => if bool_decide (c = "-"%char) then s1 else s | "" => s end in
  match scanInteger s with
  | None => None
  | Some s => match scanFraction s with None => None | Some s => scanExponent s end
  end.

Definition scanLiteral (s : string) : option (json * string) :=
  match after_prefix "null" s with
  | Some s => Some (JNull, s)
  | None =>
      match after_prefix "true" s with
      | Some s => Some (JBool true, s)
      | None =>
          match after_prefix "false" s with
          | Some s => Some (JBool false, s)
          | None => match scanNumber s with Some s => Some (JNumber, s) | None => None end
          end
      end
  end.

Definition maxNestingDepth : Z := 10000.

(** What is expected: a value, the values up to a closing bracket, or the
    members up to a closing brace. *)
Inductive expected := AValue | Values | Members.

(** The rest behind a given byte, if it is next. *)
Definition takes (c : ascii) (s : string) : option string :=
  match s with String d rest => if bool_decide (d = c) then Some rest else None | "" => None end.

Definition parseStep (rec : expected -> Z -> string -> option (list json * string)) (g : expected) (depth : Z) (s : string)
    : option (list json * string) :=
  let s := skipSpace s in
  match g with
  | AValue =>
      match s with
      | "" => None
      | String c s1 =>
          if bool_decide (c = "["%char) then
            if maxNestingDepth <=? depth then None
            else match takes "]" (skipSpace s1) with
            | Some s2 => Some ([JArray []], s2)
            | None => match rec Values (depth + 1) (skipSpace s1) with Some (vs, s2) => Some ([JArray vs], s2) | None => None end
            end
          else if bool_decide (c = "{"%char) then
            if maxNestingDepth <=? depth then None
            else match takes "}" (skipSpace s1) with
            | Some s2 => Some ([JObject], s2)
            | None => match rec Members (depth + 1) (skipSpace s1) with Some (_, s2) => Some ([JObject], s2) | None => None end
            end
          else if bool_decide (c = quote) then
            match scanString s1 with Some (body, s2) => Some ([JString (unquoted body)], s2) | None => None end
          else match scanLiteral s with Some (v, s2) => Some ([v], s2) | None => None end
      end
  | Values =>
      match rec AValue depth s with
      | None => None
      | Some (v, s1) =>
          match takes "," (skipSpace s1) with
          | Some s2 => match rec Values depth s2 with Some (vs, s3) => Some ((v ++ vs)%list, s3) | None => None end
          | None => match takes "]" (skipSpace s1) with Some s2 => Some (v, s2) | None => None end
          end
      end
  | Members =>
      match takes quote s with
      | None => None
      | Some s1 =>
          match scanString s1 with
          | None => None
          | Some (_, s2) =>
              match takes ":" (skipSpace s2) with
              | None => None
              | Some s3 =>
                  match rec AValue depth s3 with
                  | None => None
                  | Some (_, s4) =>
                      match takes "," (skipSpace s4) with
                      | Some s5 => rec Members depth s5
                      | None => match takes "}" (skipSpace s4) with Some s5 => Some ([], s5) | None => None end
                      end
                  end
              end
          end
      end
  end.

Fixpoint parse (fuel : nat) : expected -> Z -> string -> option (list json * string) :=
  match fuel with
  | O => fun _ _ _ => None
  | S fuel => parseStep (parse fuel)
  end.

(** Twice the length and two: a value takes a byte before anything else is
    expected, and what is expected then costs one step more. *)
Definition parseFuel (s : string) : nat := (2 * String.length s + 2)%nat.

Definition parseText (s : string) : option json :=
  match parse (parseFuel s) AValue 0 s with
  | Some ([v], rest) => if bool_decide (skipSpace rest = "") then Some v else None
  | _ => None
  end.

(** An element of the array: a string, or null for the zero value. *)
Definition element (v : option json) : option string :=
  match v with None | Some JNull => Some "" | Some (JString s) => Some s | Some _ => None end.

(** [json.Unmarshal] into a [[2]string]: null and missing elements are zero, and
    elements past the second are dropped. *)
Definition unmarshalPair (s : string) : option (string * string) :=
  match parseText s with
  | Some JNull => Some ("", "")
  | Some (JArray vs) =>
      match element (vs !! 0%nat), element (vs !! 1%nat) with
      | Some a, Some b => Some (a, b)
      | _, _ => None
      end
  | _ => None
  end.

Example json_demo :
  marshalPair "t<" (String quote "a\") = "[" +:+ String quote "t\u003c" +:+ String quote "," +:+ String quote "\" +:+ String quote "a\\" +:+ String quote "]"
  /\ unmarshalPair (marshalPair "t<" (String quote "a\")) = Some ("t<", String quote "a\")
  /\ unmarshalPair "[1e5]" = None /\ unmarshalPair " null " = Some ("", "") /\ unmarshalPair "[null , null, {} , 01]" = None
  /\ unmarshalPair "[null , null, [{}, -0.5e+7] ]" = Some ("", "").
Proof. by vm_compute. Qed.

(** ** A text that is UTF-8 *)
Lemma byte_of_range c : 0 <= byte_of c < 256.
Proof. unfold byte_of. pose proof (N_ascii_bounded c). lia. Qed.

Lemma chr_byte c : chr (byte_of c) = c.
Proof. unfold chr, byte_of. rewrite N2Z.id. apply ascii_N_embedding. Qed.

Lemma byte_chr x : 0 <= x < 256 -> byte_of (chr x) = x.
Proof. intros Hx. unfold chr, byte_of. rewrite N_ascii_embedding; lia. Qed.

Definition raw_of (c : chunk) : string := match c with Bad => "" | Good _ raw => raw end.

Record proper (r : Z) (raw : string) : Prop := {
  proper_encode : EncodeRune r = raw;
  proper_chunks : forall t, chunks (raw +:+ t) = Good r raw :: chunks t;
  proper_ascii : r < 128 -> 0 <= r /\ raw = String (chr r) "";
  proper_high : 128 <= r -> all_bytes (fun c => 128 <=? byte_of c) raw = true
}.

Definition proper_chunk (c : chunk) : Prop := match c with Bad => False | Good r raw => proper r raw end.

Lemma in_range_spec lo hi c : in_range lo hi c = true <-> lo <= byte_of c <= hi.
Proof. unfold in_range. rewrite andb_true_iff, !Z.leb_le. done. Qed.

Lemma continuation_spec c : continuation c = true <-> 128 <= byte_of c <= 191.
Proof. apply in_range_spec. Qed.

(** Decide the comparisons [lia] settles. *)
Ltac settle :=
  repeat match goal with
  | |- context [?a <? ?b] => first [rewrite (proj2 (Z.ltb_lt a b)) by lia | rewrite (proj2 (Z.ltb_ge a b)) by lia]
  | |- context [?a <=? ?b] => first [rewrite (proj2 (Z.leb_le a b)) by lia | rewrite (proj2 (Z.leb_gt a b)) by lia]
  | |- context [?a =? ?b] => first [rewrite (proj2 (Z.eqb_eq a b)) by lia | rewrite (proj2 (Z.eqb_neq a b)) by lia]
  end; cbn [andb orb negb].

Lemma proper1 a : byte_of a < 128 -> proper (byte_of a) (String a "").
Proof.
  intros Ha. pose proof (byte_of_range a). constructor; [|intros t|split; [lia|by rewrite chr_byte]|lia].
  - unfold EncodeRune. settle. by rewrite chr_byte.
  - simpl. by settle.
Qed.

(** The digits of a rune to base 64. *)
Lemma digit_low q x : 0 <= x < 64 -> (q * 64 + x) mod 64 = x.
Proof. intros Hx. rewrite Z.add_comm, Z.mod_add by lia. by apply Z.mod_small. Qed.

Lemma digit_high q x : 0 <= x < 64 -> (q * 64 + x) / 64 = q.
Proof. intros Hx. rewrite Z.add_comm, Z.div_add, Z.div_small by lia. lia. Qed.

Lemma mark m x : m + (x - m) = x.
Proof. lia. Qed.

Lemma proper2 a b : in_range 194 223 a = true -> continuation b = true -> proper (rune2 a b) (String a (String b "")).
Proof.
  rewrite in_range_spec, continuation_spec. intros Ha Hb. unfold rune2. constructor; [|intros t|lia|].
  - unfold EncodeRune. settle. rewrite digit_high, digit_low by lia. by rewrite !mark, !chr_byte.
  - change (String a (String b "") +:+ t) with (String a (String b t)). cbn [chunks]. unfold continuation, in_range. by settle.
  - intros _. simpl. by settle.
Qed.

Lemma proper3 a b c : in_range 224 239 a = true -> second_of_three a b = true -> continuation c = true ->
  proper (rune3 a b c) (String a (String b (String c ""))).
Proof.
  intros Ha Hs Hc. assert (Hb : 128 <= byte_of b <= 191 /\ (byte_of a = 224 -> 160 <= byte_of b) /\ (byte_of a = 237 -> byte_of b <= 159)).
  { unfold second_of_three, continuation in Hs. destruct (byte_of a =? 224) eqn:H1; [|destruct (byte_of a =? 237) eqn:H2];
      apply in_range_spec in Hs; reflect_guards; lia. }
  rewrite in_range_spec in Ha. rewrite continuation_spec in Hc. set (q := (byte_of a - 224) * 64 + (byte_of b - 128)).
  assert (Hr : rune3 a b c = q * 64 + (byte_of c - 128)) by (unfold rune3, q; lia).
  constructor; [|intros t|unfold rune3; lia|].
  - assert (Hsur : (55296 <=? q * 64 + (byte_of c - 128)) && (q * 64 + (byte_of c - 128) <=? 57343) = false)
      by (apply andb_false_iff; rewrite !Z.leb_gt; unfold q; lia).
    unfold EncodeRune. rewrite Hr, Hsur. unfold q in *. settle. change 4096 with (64 * 64).
    rewrite <- Z.div_div, !digit_high, !digit_low by lia. by rewrite !mark, !chr_byte.
  - change (String a (String b (String c "")) +:+ t) with (String a (String b (String c t))). cbn [chunks].
    rewrite Hs. unfold continuation, in_range. by settle.
  - intros _. simpl. by settle.
Qed.

Lemma proper4 a b c d : in_range 240 244 a = true -> second_of_four a b = true -> continuation c = true -> continuation d = true ->
  proper (rune4 a b c d) (String a (String b (String c (String d "")))).
Proof.
  intros Ha Hs Hc Hd. assert (Hb : 128 <= byte_of b <= 191 /\ (byte_of a = 240 -> 144 <= byte_of b) /\ (byte_of a = 244 -> byte_of b <= 143)).
  { unfold second_of_four, continuation in Hs. destruct (byte_of a =? 240) eqn:H1; [|destruct (byte_of a =? 244) eqn:H2];
      apply in_range_spec in Hs; reflect_guards; lia. }
  rewrite in_range_spec in Ha. rewrite continuation_spec in Hc, Hd.
  assert (Hr : rune4 a b c d = (((byte_of a - 240) * 64 + (byte_of b - 128)) * 64 + (byte_of c - 128)) * 64 + (byte_of d - 128)) by (unfold rune4; lia).
  constructor; [|intros t|unfold rune4; lia|].
  - unfold EncodeRune. rewrite Hr. settle. change 262144 with (64 * (64 * 64)). change 4096 with (64 * 64).
    rewrite <- !Z.div_div, !digit_high, !digit_low by lia. by rewrite !mark, !chr_byte.
  - change (String a (String b (String c (String d ""))) +:+ t) with (String a (String b (String c (String d t)))). cbn [chunks].
    rewrite Hs. unfold continuation, in_range. by settle.
  - intros _. simpl. by settle.
Qed.

Lemma chunks_proper n : forall s, (String.length s < n)%nat -> utf8_valid s = true ->
  Forall proper_chunk (chunks s) /\ concatenate (raw_of <$> chunks s) = s.
Proof.
  induction n as [|n IH]; intros s Hn Hv; [lia|]. destruct s as [|a s1]; [done|]. simpl in Hn.
  assert (Hstep : forall raw r t, proper r raw -> (String.length t < n)%nat -> utf8_valid t = true ->
    Forall proper_chunk (Good r raw :: chunks t) /\ concatenate (raw_of <$> (Good r raw :: chunks t)) = raw +:+ t).
  { intros raw r t Hp Ht Hvt. destruct (IH t Ht Hvt) as [Hf Hc]. split; [by constructor|].
    change (raw +:+ concatenate (raw_of <$> chunks t) = raw +:+ t). by rewrite Hc. }
  cbn [utf8_valid chunks] in *. destruct (byte_of a <? 128) eqn:Ha; [apply (Hstep (String a "")); [apply proper1; by apply Z.ltb_lt|lia|done]|].
  destruct s1 as [|b s2]; [done|]. simpl in Hn. destruct (in_range 194 223 a) eqn:Ha2.
  { apply andb_true_iff in Hv as [Hb Hv]. rewrite Hb. apply (Hstep (String a (String b ""))); [by apply proper2|lia|done]. }
  destruct s2 as [|c s3]; [done|]. simpl in Hn. destruct (in_range 224 239 a) eqn:Ha3.
  { change (if byte_of a =? 224 then in_range 160 191 b else if byte_of a =? 237 then in_range 128 159 b else continuation b) with (second_of_three a b) in Hv.
    rewrite !andb_true_iff in Hv. destruct Hv as [[Hb Hc] Hv]. rewrite Hb, Hc.
    apply (Hstep (String a (String b (String c "")))); [by apply proper3|lia|done]. }
  destruct s3 as [|d s4]; [done|]. simpl in Hn.
  change (if byte_of a =? 240 then in_range 144 191 b else if byte_of a =? 244 then in_range 128 143 b else continuation b) with (second_of_four a b) in Hv.
  rewrite !andb_true_iff in Hv. destruct Hv as [[[[Ha4 Hb] Hc] Hd] Hv]. rewrite Ha4, Hb, Hc, Hd.
  apply (Hstep (String a (String b (String c (String d ""))))); [by apply proper4|lia|done].
Qed.

(** ** The round trip of a string *)
Lemma chunks_ascii a t : byte_of a < 128 -> chunks (String a t) = Good (byte_of a) (String a "") :: chunks t.
Proof. intros Ha. simpl. by settle. Qed.

Lemma scan_plain s t : all_bytes (fun c => 128 <=? byte_of c) s = true ->
  scanString (s +:+ t) = prod_map (String.append s) (fun r => r) <$> scanString t.
Proof.
  induction s as [|c s IH]; simpl.
  - intros _. change ("" +:+ t) with t. by destruct (scanString t) as [[b r]|].
  - rewrite andb_true_iff, Z.leb_le. intros [Hc Hs]. change (String c s +:+ t) with (String c (s +:+ t)). cbn [scanString].
    rewrite !bool_decide_false by (intros ->; by vm_compute in Hc). settle. rewrite (IH Hs). by destruct (scanString t) as [[b r]|].
Qed.

(** What the decoder reads of one chunk the encoder wrote. *)
Record written_as (c : chunk) (text : string) : Prop := {
  read_scan : forall t, scanString (text +:+ t) = prod_map (String.append text) (fun r => r) <$> scanString t;
  read_unquote : forall t, unquote 0 (chunks (text +:+ t)) = raw_of c +:+ unquote 0 (chunks t)
}.

(** The 128 escapes of the encoder, each read back. *)
Lemma written_ascii a : byte_of a < 128 -> written_as (Good (byte_of a) (String a "")) (escape (byte_of a) (String a "")).
Proof.
  intros Ha. destruct a as [[] [] [] [] [] [] [] []]; try (exfalso; by vm_compute in Ha); clear Ha.
  all: constructor; intros t; [vm_compute escape; simpl; change ("" +:+ t) with t; by destruct (scanString t) as [[? ?]|]|reflexivity].
Qed.

Lemma written_chunk c : proper_chunk c -> written_as c (quoteChunk c).
Proof.
  destruct c as [|r raw]; [done|]. intros [He Hch Ha Hh]. unfold quoteChunk. destruct (r <? 128) eqn:Hr; reflect_guards.
  - destruct (Ha Hr) as [H0 ->]. pose proof (written_ascii (chr r)) as Hw. rewrite byte_chr in Hw by lia. by apply Hw.
  - destruct ((r =? 8232) || (r =? 8233)) eqn:Hs.
    + assert (Hcase : r = 8232 \/ r = 8233) by (apply orb_true_iff in Hs as [?|?]; reflect_guards; auto). subst raw.
      destruct Hcase as [-> | ->]; (constructor; intros t; [|reflexivity]); vm_compute (String (hexDigit _) _); simpl;
        change ("" +:+ t) with t; by destruct (scanString t) as [[? ?]|].
    + constructor; intros t; [apply scan_plain, Hh; lia|]. rewrite Hch. cbn [unquote]. settle. by rewrite He.
Qed.

Lemma literal_scan cs rest : Forall proper_chunk cs ->
  scanString (concatenate (quoteChunk <$> cs) +:+ String quote rest) = Some (concatenate (quoteChunk <$> cs), rest).
Proof.
  induction 1 as [|c cs Hc _ IH]; [done|].
  change (concatenate (quoteChunk <$> c :: cs)) with (quoteChunk c +:+ concatenate (quoteChunk <$> cs)).
  rewrite string_app_assoc. rewrite (read_scan _ _ (written_chunk c Hc)), IH. done.
Qed.

Lemma literal_unquoted cs : Forall proper_chunk cs -> unquoted (concatenate (quoteChunk <$> cs)) = concatenate (raw_of <$> cs).
Proof.
  induction 1 as [|c cs Hc _ IH]; [done|].
  change (concatenate (quoteChunk <$> c :: cs)) with (quoteChunk c +:+ concatenate (quoteChunk <$> cs)).
  change (concatenate (raw_of <$> c :: cs)) with (raw_of c +:+ concatenate (raw_of <$> cs)).
  unfold unquoted in *. by rewrite (read_unquote _ _ (written_chunk c Hc)), IH.
Qed.

(** A literal the encoder wrote, as the parser takes it. *)
Lemma parse_literal fuel depth s rest : utf8_valid s = true ->
  parse (S fuel) AValue depth (appendString s +:+ rest) = Some ([JString s], rest).
Proof.
  intros Hv. destruct (chunks_proper _ s (Nat.lt_succ_diag_r _) Hv) as [Hp Hc].
  unfold appendString. change (String quote ?x +:+ rest) with (String quote (x +:+ rest)). rewrite string_app_assoc.
  change (String quote "" +:+ rest) with (String quote rest).
  cbn [parse parseStep skipSpace]. change (isSpace quote) with false. cbv iota.
  rewrite !bool_decide_false, bool_decide_true by done. rewrite literal_scan by done. by rewrite literal_unquoted, Hc.
Qed.

Lemma parse_values fuel depth s rest : utf8_valid s = true ->
  parse (S (S fuel)) Values depth (appendString s +:+ rest) =
    match takes "," (skipSpace rest) with
    | Some s2 => match parse (S fuel) Values depth s2 with Some (vs, s3) => Some (([JString s] ++ vs)%list, s3) | None => None end
    | None => match takes "]" (skipSpace rest) with Some s2 => Some ([JString s], s2) | None => None end
    end.
Proof.
  intros Hv. change (parse (S (S fuel)) Values depth (appendString s +:+ rest)) with
    (match parse (S fuel) AValue depth (appendString s +:+ rest) with
     | None => None
     | Some (v, s1) =>
         match takes "," (skipSpace s1) with
         | Some s2 => match parse (S fuel) Values depth s2 with Some (vs, s3) => Some ((v ++ vs)%list, s3) | None => None end
         | None => match takes "]" (skipSpace s1) with Some s2 => Some (v, s2) | None => None end
         end
     end).
  by rewrite parse_literal.
Qed.

Lemma unmarshal_marshal a b : utf8_valid a = true -> utf8_valid b = true -> unmarshalPair (marshalPair a b) = Some (a, b).
Proof.
  intros Ha Hb. unfold unmarshalPair, parseText, marshalPair.
  assert (Hf : exists f, parseFuel ("[" +:+ appendString a +:+ "," +:+ appendString b +:+ "]") = S (S (S (S f)))).
  { unfold parseFuel. change (String.length ("[" +:+ ?x)) with (S (String.length x)). 
    generalize (String.length (appendString a +:+ "," +:+ appendString b +:+ "]")). intros n. exists (2 * n)%nat. lia. }
  destruct Hf as [f ->].
  assert (Hopen : parse (S (S (S (S f)))) AValue 0 ("[" +:+ appendString a +:+ "," +:+ appendString b +:+ "]") =
    match parse (S (S (S f))) Values 1 (appendString a +:+ "," +:+ appendString b +:+ "]") with
    | Some (vs, s3) => Some ([JArray vs], s3) | None => None end) by reflexivity.
  rewrite Hopen, parse_values by done. change (takes "," (skipSpace ("," +:+ ?x))) with (Some x). cbv iota.
  rewrite parse_values by done. change (skipSpace "]") with "]". reflexivity.
Qed.

(** ** The fuel is enough *)
Lemma skipSpace_length s : (String.length (skipSpace s) <= String.length s)%nat.
Proof. induction s as [|c s IH]; simpl; [lia|]. destruct (isSpace c); simpl; lia. Qed.

Lemma skipDigits_length s : (String.length (skipDigits s) <= String.length s)%nat.
Proof. induction s as [|c s IH]; simpl; [lia|]. destruct (is_digit c); simpl; lia. Qed.

Lemma scanString_length n : forall s body rest, (String.length s < n)%nat -> scanString s = Some (body, rest) ->
  (String.length rest < String.length s)%nat.
Proof.
  induction n as [|n IH]; intros s body rest Hn Hs; [lia|]. destruct s as [|c s1]; [done|]. cbn [scanString] in Hs. simpl in Hn.
  assert (Hmap : forall f t, prod_map f (fun r => r) <$> scanString t = Some (body, rest) -> (String.length t < n)%nat ->
    (String.length rest < String.length t)%nat).
  { intros f t Ht Hlt. destruct (scanString t) as [[b r]|] eqn:Hst; [|done]. simplify_eq/=. by eapply IH. }
  repeat case_match; simplify_eq/=; try (apply Hmap in Hs; lia); lia.
Qed.

Lemma after_prefix_length p : forall s t, after_prefix p s = Some t -> (String.length t <= String.length s)%nat.
Proof. intros s t Hp. apply after_prefix_some in Hp as ->. clear. induction p as [|c p IH]; [done|]. change (String c p +:+ t) with (String c (p +:+ t)). simpl. lia. Qed.

Lemma oneDigit_length s t : oneDigit s = Some t -> (String.length t <= String.length s)%nat.
Proof.
  unfold oneDigit. destruct s as [|c s1]; [done|]. destruct (is_digit c); [|done]. intros [= <-]. simpl.
  pose proof (skipDigits_length s1). lia.
Qed.

Lemma scanNumber_length s t : scanNumber s = Some t -> (String.length t <= String.length s)%nat.
Proof.
  unfold scanNumber. set (s0 := match s with "" => s | String c s1 => if bool_decide (c = "-"%char) then s1 else s end).
  assert (H0 : (String.length s0 <= String.length s)%nat) by (unfold s0; destruct s as [|c s1]; [done|]; case_bool_decide; simpl; lia).
  destruct (scanInteger s0) as [s1|] eqn:H1; [|done]. destruct (scanFraction s1) as [s2|] eqn:H2; [|done]. intros H3.
  assert (L1 : (String.length s1 <= String.length s0)%nat).
  { unfold scanInteger in H1. destruct s0 as [|c u]; [done|]. simpl. pose proof (skipDigits_length u).
    case_bool_decide; [simplify_eq; lia|]. destruct (is_digit c); [|done]. simplify_eq. lia. }
  assert (L2 : (String.length s2 <= String.length s1)%nat).
  { unfold scanFraction in H2. destruct s1 as [|c u]; [simplify_eq; lia|]. case_bool_decide; [apply oneDigit_length in H2; simpl; lia|simplify_eq; lia]. }
  assert (L3 : (String.length t <= String.length s2)%nat).
  { unfold scanExponent in H3. destruct s2 as [|c u]; [simplify_eq; lia|]. destruct (_ || _); [|simplify_eq; lia]. apply oneDigit_length in H3. simpl.
    destruct u as [|d v]; [simpl in *; lia|]. destruct (bool_decide (d = "+"%char) || bool_decide (d = "-"%char)); simpl in *; lia. }
  lia.
Qed.

Lemma scanLiteral_length s v t : scanLiteral s = Some (v, t) -> (String.length t <= String.length s)%nat.
Proof.
  unfold scanLiteral. repeat case_match; intros; simplify_eq; try by eapply after_prefix_length. by eapply scanNumber_length.
Qed.

Lemma takes_length c s t : takes c s = Some t -> (String.length t < String.length s)%nat.
Proof. unfold takes. destruct s as [|d s]; [done|]. case_bool_decide; [|done]. intros [= ->]. simpl. lia. Qed.

(** Read the lengths off every scan in the context. *)
Ltac lengths :=
  repeat match goal with
  | Hr : takes _ _ = Some _ |- _ => apply takes_length in Hr
  | Hr : scanString _ = Some _ |- _ => apply (scanString_length _ _ _ _ (Nat.lt_succ_diag_r _)) in Hr
  | Hr : scanLiteral _ = Some _ |- _ => apply scanLiteral_length in Hr; simpl in Hr
  end;
  repeat match goal with
  | _ : context [skipSpace ?s] |- _ =>
      lazymatch goal with _ : (String.length (skipSpace s) <= String.length s)%nat |- _ => fail | _ => pose proof (skipSpace_length s) end
  end.

Lemma parse_length n : forall g d s vs rest, parse n g d s = Some (vs, rest) -> (String.length rest <= String.length s)%nat.
Proof.
  induction n as [|n IH]; intros g d s vs rest Hp; [done|]. pose proof (skipSpace_length s) as Hsp.
  cbn [parse] in Hp. unfold parseStep in Hp. remember (skipSpace s) as s0 eqn:Hs0. clear Hs0. destruct g;
    repeat (case_match; try done); simplify_eq; simpl in *;
    repeat match goal with Hr : parse _ _ _ _ = Some _ |- _ => apply IH in Hr end; lengths; lia.
Qed.

Definition need (g : expected) (s : string) : nat := (2 * String.length s + match g with AValue => 0 | _ => 1 end)%nat.

Lemma parseStep_ext r1 r2 g d s :
  (forall g' d' s', (need g' s' < need g s)%nat -> r1 g' d' s' = r2 g' d' s') ->
  (forall g' d' s' vs rest, r1 g' d' s' = Some (vs, rest) -> (String.length rest <= String.length s')%nat) ->
  parseStep r1 g d s = parseStep r2 g d s.
Proof.
  intros Hrec Hlen. unfold parseStep, need in *. pose proof (skipSpace_length s) as Hsp. remember (skipSpace s) as s0 eqn:Hs0. clear Hs0. destruct g.
  - destruct s0 as [|c s1]; [done|]. simpl in Hsp. pose proof (skipSpace_length s1) as Hs1. by rewrite !(Hrec _ _ (skipSpace s1)) by lia.
  - rewrite <- (Hrec AValue d s0) by lia. destruct (r1 AValue d s0) as [[v s1]|] eqn:H1; [|done]. apply Hlen in H1.
    destruct (takes "," (skipSpace s1)) as [s2|] eqn:H2; [|done]. lengths. by rewrite (Hrec _ _ s2) by lia.
  - destruct (takes quote s0) as [s1|] eqn:H0; [|done]. destruct (scanString s1) as [[b s2]|] eqn:H1; [|done].
    destruct (takes ":" (skipSpace s2)) as [s3|] eqn:H2; [|done]. lengths. rewrite <- (Hrec AValue d s3) by lia.
    destruct (r1 AValue d s3) as [[v s4]|] eqn:H3; [|done]. apply Hlen in H3.
    destruct (takes "," (skipSpace s4)) as [s5|] eqn:H4; [|done]. lengths. by rewrite (Hrec _ _ s5) by lia.
Qed.

Lemma parse_enough n : forall g d s, (need g s < n)%nat -> parse (S n) g d s = parse n g d s.
Proof.
  induction n as [|n IH]; intros g d s Hn; [lia|]. change (parseStep (parse (S n)) g d s = parseStep (parse n) g d s).
  apply parseStep_ext; [intros g' d' s' Hs; apply IH; lia|]. intros g' d' s' vs rest. apply parse_length.
Qed.

(** However much more fuel it is given, the parser finds the same. *)
Lemma parse_total s k : parse (k + parseFuel s) AValue 0 s = parse (parseFuel s) AValue 0 s.
Proof. induction k as [|k IH]; [done|]. simpl plus. rewrite parse_enough; [done|]. unfold need, parseFuel. lia. Qed.
