(* ===== verification/Regex.v ===== *)
(** * Regular expressions over the runes of a text

    The part of Go's [regexp] the deployment validator uses: classes of code
    points, sequence, alternation, repetition and option, searched for anywhere
    in a text. [matches] says which texts an expression describes; the search
    runs on derivatives and is shown to find exactly the texts with such a part
    ([MatchString_found]). *)

From S2P Require Import Prelude Wire Framing Text JsonText.
Local Open Scope Z_scope.

(** A byte that starts no rune reads as U+FFFD. *)
Definition rune_of (c : chunk) : Z := match c with Good r _ => r | Bad => 65533 end.
Definition runes (s : string) : list Z := rune_of <$> chunks s.

(** A class of code points: a union of ranges. *)
Definition class : Type := list (Z * Z).
Definition in_class (c : class) (r : Z) : bool := existsb (fun '(lo, hi) => (lo <=? r) && (r <=? hi)) c.

Inductive regex := Void | Eps | Class (c : class) | Seq (a b : regex) | Alt (a b : regex) | Star (a : regex).

Inductive matches : regex -> list Z -> Prop :=
| m_eps : matches Eps []
| m_class c r : in_class c r = true -> matches (Class c) [r]
| m_seq a b s t : matches a s -> matches b t -> matches (Seq a b) (s ++ t)
| m_left a b s : matches a s -> matches (Alt a b) s
| m_right a b s : matches b s -> matches (Alt a b) s
| m_stop a : matches (Star a) []
| m_more a s t : matches a s -> matches (Star a) t -> matches (Star a) (s ++ t).

(** ** The search *)
Fixpoint nullable (e : regex) : bool :=
  match e with
  | Void | Class _ => false
  | Eps | Star _ => true
  | Seq a b => nullable a && nullable b
  | Alt a b => nullable a || nullable b
  end.

(** Sequence and alternation with their units, which keep derivatives small. *)
Definition seq (a b : regex) : regex := match a with Void => Void | Eps => b | _ => Seq a b end.
Definition alt (a b : regex) : regex := match a, b with Void, _ => b | _, Void => a | _, _ => Alt a b end.

Fixpoint derive (r : Z) (e : regex) : regex :=
  match e with
  | Void | Eps => Void
  | Class c => if in_class c r then Eps else Void
  | Seq a b => if nullable a then alt (seq (derive r a) b) (derive r b) else seq (derive r a) b
  | Alt a b => alt (derive r a) (derive r b)
  | Star a => seq (derive r a) (Star a)
  end.

(** Does some prefix match? *)
Fixpoint prefixed (e : regex) (s : list Z) : bool :=
  nullable e ||
  match s with
  | [] => false
  | r :: s => match derive r e with Void => false | d => prefixed d s end
  end.

Fixpoint searched (e : regex) (s : list Z) : bool :=
  prefixed e s || match s with [] => false | _ :: s => searched e s end.

Definition MatchString (e : regex) (s : string) : bool := searched e (runes s).

(** ** Correctness *)
Lemma matches_void s : matches Void s -> False.
Proof. inversion 1. Qed.

Lemma matches_class_nil c : matches (Class c) [] -> False.
Proof. inversion 1. Qed.

Lemma seq_split a b w : matches (Seq a b) w <-> exists s t, w = s ++ t /\ matches a s /\ matches b t.
Proof. split; [inversion 1; subst; eauto|]. intros (s & t & -> & ? & ?). by constructor. Qed.

Lemma alt_split a b w : matches (Alt a b) w <-> matches a w \/ matches b w.
Proof. split; [inversion 1; subst; auto|]. intros [?|?]; [by apply m_left|by apply m_right]. Qed.

Lemma seq_iff a b s : matches (seq a b) s <-> matches (Seq a b) s.
Proof.
  destruct a; simpl; try done; rewrite seq_split.
  - split; [intros []%matches_void|]. by intros (? & ? & _ & []%matches_void & _).
  - split; [intros Hm; exists [], s; split_and!; [done|constructor|done]|]. intros (u & t & -> & He & ?). by inversion He; subst.
Qed.

Lemma alt_iff a b s : matches (alt a b) s <-> matches (Alt a b) s.
Proof.
  destruct a; simpl; rewrite alt_split; [split; [by right|]; intros [[]%matches_void|?]; done|..];
    destruct b; rewrite ?alt_split; try done; (split; [by left|]; intros [?|[]%matches_void]; done).
Qed.

Lemma nullable_iff e : nullable e = true <-> matches e [].
Proof.
  induction e as [| |c|a IHa b IHb|a IHa b IHb|a IHa]; simpl.
  - split; [done|]. intros []%matches_void.
  - split; [constructor|done].
  - split; [done|]. intros []%matches_class_nil.
  - rewrite andb_true_iff, IHa, IHb. rewrite seq_split. split; [intros [? ?]; by exists [], []|].
    intros (s & t & Heq & ? & ?). symmetry in Heq. by apply app_eq_nil in Heq as [-> ->].
  - by rewrite orb_true_iff, IHa, IHb, alt_split.
  - split; [constructor|done].
Qed.

(** A repetition that matches a non-empty text begins with a non-empty match. *)
Lemma star_cons a r s : matches (Star a) (r :: s) -> exists u v, s = u ++ v /\ matches a (r :: u) /\ matches (Star a) v.
Proof.
  intros Hm. remember (Star a) as e eqn:He. remember (r :: s) as w eqn:Hw. revert He Hw.
  induction Hm as [| | | | | |a' u v Ha _ Hs IH]; intros He Hw; try done. simplify_eq.
  destruct u as [|x u]; simpl in Hw; [by apply IH|]. simplify_eq. by exists u, v.
Qed.

Lemma derive_iff r e : forall s, matches (derive r e) s <-> matches e (r :: s).
Proof.
  induction e as [| |c|a IHa b IHb|a IHa b IHb|a IHa]; intros s; simpl.
  - split; intros []%matches_void.
  - split; [intros []%matches_void|]. inversion 1.
  - destruct (in_class c r) eqn:Hc; split; intros Hm; inversion Hm; subst; try (by constructor); congruence.
  - assert (Hs : matches (seq (derive r a) b) s <-> exists u v, s = u ++ v /\ matches a (r :: u) /\ matches b v).
    { rewrite seq_iff, seq_split. by setoid_rewrite IHa. }
    assert (Hsplit : matches (Seq a b) (r :: s) <-> matches (seq (derive r a) b) s \/ nullable a = true /\ matches b (r :: s)).
    { rewrite Hs, nullable_iff, seq_split. split.
      - intros ([|x u] & v & Heq & Ha & Hb); simplify_eq/=; [by right|left; eauto].
      - intros [(u & v & -> & Ha & Hb)|[Ha Hb]]; [by exists (r :: u), v|by exists [], (r :: s)]. }
    destruct (nullable a) eqn:Hn; rewrite Hsplit; [|naive_solver]. rewrite alt_iff, alt_split, IHb. naive_solver.
  - by rewrite alt_iff, !alt_split, IHa, IHb.
  - rewrite seq_iff, seq_split. setoid_rewrite IHa. split; [|by intros (u & v & -> & ? & ?)%star_cons; eauto].
    intros (u & v & -> & Ha & Hb). by apply (m_more a (r :: u)).
Qed.

Lemma prefixed_iff s : forall e, prefixed e s = true <-> exists u v, s = u ++ v /\ matches e u.
Proof.
  induction s as [|r s IH]; intros e; simpl; rewrite orb_true_iff, nullable_iff.
  - split; [intros [?|?]; [by exists [], []|done]|]. intros (u & v & Heq & ?). symmetry in Heq. apply app_eq_nil in Heq as [-> ->]. by left.
  - assert (Hd : match derive r e with Void => false | d => prefixed d s end = true <-> exists u v, s = u ++ v /\ matches e (r :: u)).
    { assert (prefixed (derive r e) s = true <-> exists u v, s = u ++ v /\ matches e (r :: u)) as <-.
      { rewrite IH. by setoid_rewrite derive_iff. }
      destruct (derive r e) eqn:Hv; try done. split; [done|]. rewrite IH. by intros (u & v & _ & []%matches_void). }
    rewrite Hd. split.
    + intros [Hm|(u & v & -> & Hm)]; [by exists [], (r :: s)|by exists (r :: u), v].
    + intros ([|x u] & v & Heq & Hm); [by left|]. simplify_eq/=. right. eauto.
Qed.

(** The search finds an expression exactly in the texts that have a part it
    describes. *)
Lemma MatchString_found e s : MatchString e s = true <-> exists u w v, runes s = u ++ w ++ v /\ matches e w.
Proof.
  unfold MatchString. induction (runes s) as [|r rs IH]; cbn [searched]; rewrite orb_true_iff, prefixed_iff.
  - split; [intros [(w & v & ? & ?)|?]; [by exists [], w, v|done]|].
    intros (u & w & v & Heq & ?). left. symmetry in Heq. apply app_eq_nil in Heq as [-> Heq]. eauto.
  - rewrite IH. split.
    + intros [(w & v & ? & ?)|(u & w & v & -> & ?)]; [by exists [], w, v|by exists (r :: u), w, v].
    + intros ([|x u] & w & v & Heq & ?); simplify_eq/=; [left; eauto|right; eauto].
Qed.
