(* ===== verification/Program.v ===== *)
(** * Programs that call an environment

    The orchestration packages are long sequential routines over interfaces
    whose implementations are outside them: a catalog, a claim store, HostLinks,
    a clock. A routine is here a finite tree of calls: [Ret] returns, [Call]
    makes one call and continues with whatever it answered. [run] executes such
    a tree against any stateful environment and records the calls with their
    answers; [wp] states a property of the answer and of the calls made for
    every environment at once, and [wp_run] connects the two. *)

From S2P Require Import Prelude.

Section Program.
Context {E : Type -> Type}.

Inductive prog (A : Type) : Type :=
| Ret (a : A)
| Call (R : Type) (c : E R) (k : R -> prog A).
Arguments Ret {A} a.
Arguments Call {A} R c k.

(** One call and its answer. *)
Inductive event : Type := Ev (R : Type) (c : E R) (answer : R).

Fixpoint bind {A B} (p : prog A) (k : A -> prog B) : prog B :=
  match p with
  | Ret a => k a
  | Call R c f => Call R c (fun r => bind (f r) k)
  end.

Definition invoke {R} (c : E R) : prog R := Call R c Ret.

(** An environment: how it answers each call, in its state. *)
Definition handler (W : Type) : Type := forall R, E R -> W -> R * W.

Fixpoint run {W A} (h : handler W) (p : prog A) (w : W) : A * list event * W :=
  match p with
  | Ret a => (a, [], w)
  | Call R c k =>
      let '(r, w) := h R c w in
      let '(a, t, w) := run h (k r) w in
      (a, Ev R c r :: t, w)
  end.

(** [wp p Q]: however the environment answers, [p] ends with an answer and
    calls that satisfy [Q]. *)
Fixpoint wp {A} (p : prog A) (Q : A -> list event -> Prop) : Prop :=
  match p with
  | Ret a => Q a []
  | Call R c k => forall r, wp (k r) (fun a t => Q a (Ev R c r :: t))
  end.

Lemma wp_mono {A} (p : prog A) : forall (Q Q' : A -> list event -> Prop),
  (forall a t, Q a t -> Q' a t) -> wp p Q -> wp p Q'.
Proof.
  induction p as [a|R c k IH]; simpl; intros Q Q' HQ Hp; [auto|].
  intros r. eapply IH; [|apply Hp]. simpl. auto.
Qed.

Lemma wp_ret {A} (a : A) (Q : A -> list event -> Prop) : Q a [] -> wp (Ret a) Q.
Proof. done. Qed.

Lemma wp_bind {A B} (p : prog A) (k : A -> prog B) : forall (Q : B -> list event -> Prop),
  wp p (fun a t => wp (k a) (fun b u => Q b (t ++ u))) -> wp (bind p k) Q.
Proof. induction p as [a|R c f IH]; simpl; intros Q Hp; [done|]. intros r. apply IH, Hp. Qed.

(** The rule for sequencing: what the first part establishes is all the second
    part may use. *)
Lemma wp_seq {A B} (p : prog A) (k : A -> prog B) (P : A -> list event -> Prop) (Q : B -> list event -> Prop) :
  wp p P -> (forall a t, P a t -> wp (k a) (fun b u => Q b (t ++ u))) -> wp (bind p k) Q.
Proof. intros Hp Hk. apply wp_bind. eapply wp_mono; [|exact Hp]. done. Qed.

Lemma wp_and {A} (p : prog A) : forall (P Q : A -> list event -> Prop),
  wp p P -> wp p Q -> wp p (fun a t => P a t /\ Q a t).
Proof. induction p as [a|R c k IH]; simpl; intros P Q HP HQ; [done|]. intros r. by apply IH. Qed.

Lemma wp_true {A} (p : prog A) : wp p (fun _ _ => True).
Proof. induction p; simpl; auto. Qed.

Lemma wp_run {W A} (h : handler W) (p : prog A) : forall (Q : A -> list event -> Prop) w,
  wp p Q -> Q (run h p w).1.1 (run h p w).1.2.
Proof.
  induction p as [a|R c k IH]; simpl; intros Q w Hp; [done|].
  destruct (h R c w) as [r w']. specialize (IH r _ w' (Hp r)).
  by destruct (run h (k r) w') as [[a t] w''].
Qed.

Lemma run_bind {W A B} (h : handler W) (p : prog A) (k : A -> prog B) : forall w,
  run h (bind p k) w =
    let '(a, t, w) := run h p w in
    let '(b, u, w) := run h (k a) w in
    (b, t ++ u, w).
Proof.
  induction p as [a|R c f IH]; intros w; simpl; [by destruct (run h (k a) w) as [[b u] w']|].
  destruct (h R c w) as [r w']. rewrite IH. destruct (run h (f r) w') as [[a t] w2]. by destruct (run h (k a) w2) as [[b u] w3].
Qed.

(** What a program may answer, with the calls it made. *)
Fixpoint may {A} (p : prog A) (a : A) (t : list event) : Prop :=
  match p with
  | Ret b => a = b /\ t = []
  | Call R c k => exists r u, t = Ev R c r :: u /\ may (k r) a u
  end.

Lemma wp_may {A} (p : prog A) : forall (Q : A -> list event -> Prop) a t, wp p Q -> may p a t -> Q a t.
Proof.
  induction p as [b|R c k IH]; simpl; intros Q a t Hp Hm; [by destruct Hm as [-> ->]|].
  destruct Hm as (r & u & -> & Hm). exact (IH r _ a u (Hp r) Hm).
Qed.

Lemma wp_impl {A} (p : prog A) (H : Prop) : forall (Q : A -> list event -> Prop),
  (H -> wp p Q) -> wp p (fun a t => H -> Q a t).
Proof. induction p as [a|R c k IH]; simpl; intros Q Hp; [done|]. intros r. apply IH. auto. Qed.

(** ** Programs all of whose calls satisfy a predicate *)
Definition only {A} (P : event -> Prop) (p : prog A) : Prop := wp p (fun _ t => Forall P t).

Lemma only_ret {A} P (a : A) : only P (Ret a).
Proof. constructor. Qed.

Lemma only_call {A R} (P : event -> Prop) (c : E R) (k : R -> prog A) :
  (forall r, P (Ev R c r)) -> (forall r, only P (k r)) -> only P (Call R c k).
Proof. intros Hc Hk r. eapply wp_mono; [|apply Hk]. simpl. intros a t Ht. by constructor. Qed.

Lemma only_bind {A B} (P : event -> Prop) (p : prog A) (k : A -> prog B) :
  only P p -> (forall a, only P (k a)) -> only P (bind p k).
Proof.
  intros Hp Hk. eapply wp_seq; [exact Hp|]. intros a t Ht. eapply wp_mono; [|apply Hk].
  simpl. intros b u Hu. by apply Forall_app.
Qed.

Lemma only_mono {A} (P P' : event -> Prop) (p : prog A) : (forall e, P e -> P' e) -> only P p -> only P' p.
Proof. intros HP. apply wp_mono. intros a t Ht. by eapply Forall_impl. Qed.

(** ** Programs every answer of which satisfies a predicate *)
Definition returns {A} (P : A -> Prop) (p : prog A) : Prop := wp p (fun a _ => P a).

Lemma returns_ret {A} (P : A -> Prop) (a : A) : P a -> returns P (Ret a).
Proof. done. Qed.

Lemma returns_call {A R} (P : A -> Prop) (c : E R) (k : R -> prog A) :
  (forall r, returns P (k r)) -> returns P (Call R c k).
Proof. intros Hk r. apply Hk. Qed.

Lemma returns_bind {A B} (P : A -> Prop) (Q : B -> Prop) (p : prog A) (k : A -> prog B) :
  returns P p -> (forall a, P a -> returns Q (k a)) -> returns Q (bind p k).
Proof. intros Hp Hk. eapply wp_seq; [exact Hp|]. intros a t Ha. by apply Hk. Qed.

Lemma returns_any {A} (p : prog A) : returns (fun _ => True) p.
Proof. apply wp_true. Qed.

(** ** Answers of a program, assuming something of every call *)
Definition assuming {A} (C : event -> Prop) (P : A -> Prop) (p : prog A) : Prop := wp p (fun a t => Forall C t -> P a).

Lemma assuming_ret {A} (C : event -> Prop) (P : A -> Prop) a : P a -> assuming C P (Ret a).
Proof. by intros Ha ?. Qed.

Lemma assuming_call {A R} (C : event -> Prop) (P : A -> Prop) (c : E R) (k : R -> prog A) :
  (forall r, C (Ev R c r) -> assuming C P (k r)) -> assuming C P (Call R c k).
Proof.
  intros Hk r. eapply wp_mono; [|apply (wp_impl (k r) (C (Ev R c r)) _ (Hk r))].
  simpl. intros a t Ha Ht. apply Forall_cons in Ht as [? ?]. auto.
Qed.

Lemma assuming_bind {A B} (C : event -> Prop) (P : A -> Prop) (Q : B -> Prop) (p : prog A) (k : A -> prog B) :
  assuming C P p -> (forall a, P a -> assuming C Q (k a)) -> assuming C Q (bind p k).
Proof.
  intros Hp Hk. eapply wp_seq; [exact Hp|]. intros a t Ha.
  eapply wp_mono; [|apply (wp_impl (k a) (P a) _ (Hk a))].
  simpl. intros b u Hb Htu. apply Forall_app in Htu as [Ht Hu]. auto.
Qed.

(** ** No [w]-event before a [g]-event *)
Fixpoint guarded (g w : event -> bool) (t : list event) : Prop :=
  match t with
  | [] => True
  | e :: t => if g e then True else w e = false /\ guarded g w t
  end.

Lemma guarded_none g w t : Forall (fun e => w e = false) t -> guarded g w t.
Proof. induction 1 as [|e t He _ IH]; simpl; [done|]. by case_match. Qed.

Lemma guarded_app g w t u : guarded g w t -> guarded g w u -> guarded g w (t ++ u).
Proof. induction t as [|e t IH]; simpl; [done|]. case_match; [done|]. intros [? ?] ?. auto. Qed.

(** ** Calls licensed by the calls before them *)
Fixpoint obeys {A} (P : list event -> event -> Prop) (past : list event) (p : prog A) : Prop :=
  match p with
  | Ret _ => True
  | Call R c k => forall r, P past (Ev R c r) /\ obeys P (past ++ [Ev R c r]) (k r)
  end.

Lemma obeys_wp {A} P (p : prog A) : forall past, obeys P past p ->
  wp p (fun _ t => forall pre e post, t = pre ++ e :: post -> P (past ++ pre) e).
Proof.
  induction p as [a|R c k IH]; intros past Hp; simpl; [by intros [|] ? ? ?|].
  intros r. destruct (Hp r) as [Hc Hk]. eapply wp_mono; [|apply (IH r _ Hk)]. simpl. intros a t Ht [|e' pre] e post Heq; simplify_eq/=.
  - by rewrite app_nil_r.
  - specialize (Ht pre e post eq_refl). by rewrite <- app_assoc in Ht.
Qed.

Lemma obeys_bind {A B} P (p : prog A) (k : A -> prog B) : forall past,
  obeys P past p -> wp p (fun a t => obeys P (past ++ t) (k a)) -> obeys P past (bind p k).
Proof.
  induction p as [a|R c f IH]; intros past Hp Hk; simpl in *; [by rewrite app_nil_r in Hk|].
  intros r. destruct (Hp r) as [Hc Hf]. split; [done|]. apply IH; [done|]. eapply wp_mono; [|apply Hk].
  simpl. intros a t Ht. by rewrite <- app_assoc.
Qed.

Lemma obeys_then {A B} P (p : prog A) (k : A -> prog B) past :
  obeys P past p -> (forall a past, obeys P past (k a)) -> obeys P past (bind p k).
Proof. intros Hp Hk. apply obeys_bind; [done|]. eapply wp_mono; [|apply wp_true]. intros a t _. apply Hk. Qed.

(** ** Counting calls *)
Definition tally {A} (f : A -> bool) (t : list A) : Z := Z.of_nat (length (filter (fun e => Is_true (f e)) t)).

Lemma tally_nil {A} (f : A -> bool) : tally f [] = 0.
Proof. done. Qed.

Lemma tally_cons {A} (f : A -> bool) e t : tally f (e :: t) = (if f e then 1 else 0) + tally f t.
Proof.
  unfold tally. destruct (f e) eqn:He.
  - rewrite filter_cons_True by (rewrite He; exact I). simpl length. lia.
  - rewrite filter_cons_False by (rewrite He; exact (fun x => x)). lia.
Qed.

Lemma tally_app {A} (f : A -> bool) t u : tally f (t ++ u) = tally f t + tally f u.
Proof. unfold tally. rewrite filter_app, length_app. lia. Qed.

Lemma tally_none {A} (f : A -> bool) t : Forall (fun e => f e = false) t -> tally f t = 0.
Proof. induction 1 as [|e t He _ IH]; [done|]. by rewrite tally_cons, He, IH. Qed.

Lemma tally_pos {A} (f : A -> bool) t : 0 <= tally f t.
Proof. unfold tally. lia. Qed.
End Program.

Arguments prog E A : clear implicits.
Arguments event E : clear implicits.
Arguments handler E W : clear implicits.
#[global] Arguments bind : simpl never.
Arguments Ret {E A} a.
Arguments Call {E A} R c k.
Arguments Ev {E} R c answer.

Declare Scope prog_scope.
Delimit Scope prog_scope with prog.
Notation "'let!' x ':=' p 'in' k" := (bind p (fun x => k))
  (at level 200, x pattern, p at level 100, k at level 200, right associativity) : prog_scope.
Notation "'call!' x ':=' c 'in' k" := (Call _ c (fun x => k))
  (at level 200, x pattern, c at level 100, k at level 200, right associativity) : prog_scope.

(** Walk a routine, one call or branch at a time. *)
Ltac walk_only :=
  repeat match goal with
  | |- only _ (Ret _) => apply only_ret
  | |- only _ (Call _ _ _) => apply only_call; [by intros ?|intros ?]
  | |- only _ (bind _ _) => apply only_bind; [|intros ?]
  | |- only _ (match _ with _ => _ end) => case_match
  end.

Ltac walk_obeys :=
  repeat match goal with
  | |- obeys _ _ (Ret _) => exact I
  | |- obeys _ _ (Call _ _ _) => intros ?; split; [done|]
  | |- obeys _ _ (match _ with _ => _ end) => case_match
  end.

Ltac walk_assuming :=
  repeat match goal with
  | |- assuming _ _ (Ret _) => apply assuming_ret
  | |- assuming _ _ (Call _ _ _) => apply assuming_call; intros ? ?
  | |- assuming _ _ (match _ with _ => _ end) => case_match
  end.

Ltac walk_returns :=
  repeat match goal with
  | |- returns _ (Call _ _ _) => apply returns_call; intros ?
  | |- returns _ (match _ with _ => _ end) => case_match
  end.

#[export] Hint Resolve only_ret only_call only_bind : factory.
#[export] Hint Rewrite @tally_cons @tally_app @tally_nil : tally.
