(* ===== verification/Modfiles.v ===== *)
(** * The module's own source files (src/internal/modfiles/walk.go and
    cmd/modfiles/main.go)

    The build's list of the Go files this module owns. A directory tree is an
    inductive value, with what the file system can answer of each node: the mode
    of a file or why it cannot be told, why a directory cannot be read, and why
    nothing in it can be looked up. [filepath.WalkDir] is written out, and the
    callback is the code's. Entries come in the order [os.ReadDir] gives them. *)

From stdpp Require Import sorting.
From S2P Require Import Prelude Program Framing Text.
Local Open Scope prog_scope.
Local Open Scope string_scope.
Local Open Scope Z_scope.

(** ** The file system *)
Inductive fileMode := Regular | Symlink | Irregular.

Inductive node :=
| File (info : result fileMode)
| Dir (search read : option error) (entries : list (string * node)).

#[global] Instance fileMode_eq_dec : EqDecision fileMode.
Proof. solve_decision. Defined.

Definition IsDir (n : node) : bool := match n with Dir _ _ _ => true | File _ => false end.

(** [filepath.Join] of a clean path and a name. *)
Definition Join (dir name : string) : string := if bool_decide (dir = "/") then "/" +:+ name else dir +:+ "/" +:+ name.

(** The name [os.Lstat] gives an absolute path. *)
Definition baseName (path : string) : string :=
  match last (Text.split "/" path) with Some "" | None => "/" | Some name => name end.

Definition ErrNotExist : error := sentinel "fs.ErrNotExist".
Definition IsNotExist (err : error) : bool := errors_is err (Sentinel "fs.ErrNotExist").

(** [os.Lstat] of a name in a directory: [None] when it is there. *)
Definition Lstat (search : option error) (entries : list (string * node)) (name : string) : option error :=
  match search with
  | Some err => Some err
  | None => if existsb (fun entry => bool_decide (entry.1 = name)) entries then None else Some ErrNotExist
  end.

(** ** Names *)
Definition ReasonVendor : string := "vendor".
Definition ReasonTestdata : string := "testdata".
Definition ReasonDotPrefixed : string := "dot-prefixed".
Definition ReasonUnderscorePrefixed : string := "underscore-prefixed".

Definition boundaryMarkers : list string := [".git"; "go.mod"].
Definition BoundaryMarkers : list string := boundaryMarkers.

Definition goIgnoredName (name : string) : option string :=
  match name with
  | "" => None
  | String c _ =>
      if bool_decide (c = "."%char) then Some ReasonDotPrefixed
      else if bool_decide (c = "_"%char) then Some ReasonUnderscorePrefixed
      else None
  end.

Definition IgnoredDirectory (name : string) : option string :=
  if bool_decide (name = "vendor") then Some ReasonVendor
  else if bool_decide (name = "testdata") then Some ReasonTestdata
  else goIgnoredName name.

Definition IgnoredFile (name : string) : option string := goIgnoredName name.

Fixpoint nestedFrom (markers : list string) (search : option error) (entries : list (string * node)) : result bool :=
  match markers with
  | [] => Ok false
  | marker :: markers =>
      match Lstat search entries marker with
      | None => Ok true
      | Some err => if IsNotExist err then nestedFrom markers search entries else Fail err
      end
  end.

Definition nestedBoundary (search : option error) (entries : list (string * node)) : result bool := nestedFrom boundaryMarkers search entries.

(** [strings.HasSuffix]. *)
Fixpoint HasSuffix (s suffix : string) : bool :=
  bool_decide (s = suffix) || match s with "" => false | String _ s => HasSuffix s suffix end.

(** ** The walk *)
Definition SymlinkError (path : string) : error := Err (Typed "modfiles.SymlinkError" "" path 0) [].

(** What the callback did: carry on, skip the directory, collect the path, or
    stop the walk. *)
Inductive step := Continue | SkipDir | Collect | Stop (err : error).

(** A file's mode, looked up in its directory. *)
Definition Info (search : option error) (info : result fileMode) : result fileMode :=
  match search with Some err => Fail err | None => info end.

Definition visit (absoluteRoot path name : string) (search : option error) (n : node) : step :=
  match n with
  | Dir inner _ entries =>
      if negb (bool_decide (path = absoluteRoot)) then
        match IgnoredDirectory name with
        | Some _ => SkipDir
        | None =>
            match nestedBoundary inner entries with
            | Fail err => Stop err
            | Ok nested => if nested : bool then SkipDir else Continue
            end
        end
      else Continue
  | File info =>
      match IgnoredFile name with
      | Some _ => Continue
      | None =>
          if negb (HasSuffix name ".go") then Continue
          else match Info search info with
          | Fail err => Stop err
          | Ok mode => if bool_decide (mode = Symlink) then Stop (SymlinkError path) else if bool_decide (mode = Regular) then Collect else Continue
          end
      end
  end.

(** [filepath.WalkDir], the paths collected in their order. [search] is the
    directory's the node is an entry of. *)
Fixpoint walkDir (absoluteRoot path name : string) (search : option error) (n : node) : result (list string) :=
  match visit absoluteRoot path name search n with
  | Stop err => Fail err
  | SkipDir => Ok []
  | Collect => Ok [path]
  | Continue =>
      match n with
      | File _ => Ok []
      | Dir inner (Some err) _ => Fail err
      | Dir inner None entries =>
          (fix walkAll (entries : list (string * node)) : result (list string) :=
             match entries with
             | [] => Ok []
             | (name, n) :: entries =>
                 match walkDir absoluteRoot (Join path name) name inner n with
                 | Fail err => Fail err
                 | Ok files => match walkAll entries with Fail err => Fail err | Ok rest => Ok (files ++ rest)%list end
                 end
             end) entries
      end
  end.

Definition string_le (s t : string) : Prop := String.leb s t = true.
#[global] Instance string_le_dec : RelDecision string_le.
Proof. intros s t. unfold string_le. apply _. Defined.

(** [Files]: the absolute path of the root, and what is there. *)
Definition Files (absoluteRoot : result string) (root : result node) : result (list string) :=
  match absoluteRoot with
  | Fail err => Fail err
  | Ok absoluteRoot =>
      match root with
      | Fail err => Fail err
      | Ok root =>
          match walkDir absoluteRoot absoluteRoot (baseName absoluteRoot) None root with
          | Fail err => Fail err
          | Ok files => Ok (merge_sort string_le files)
          end
      end
  end.

(** ** The output *)
Inductive writerCall : Type -> Type := WriteString (s : string) : writerCall (option error).

Definition nul : string := String NUL "".

Fixpoint WriteNull (paths : list string) : prog writerCall (option error) :=
  match paths with
  | [] => Ret None
  | path :: paths =>
      call! err := WriteString path in
      match err with
      | Some err => Ret (Some err)
      | None =>
          call! err := WriteString nul in
          match err with Some err => Ret (Some err) | None => WriteNull paths end
      end
  end.

(** [main.run]. *)
Definition run_ (absoluteRoot : result string) (root : result node) : prog writerCall (option error) :=
  match Files absoluteRoot root with Fail err => Ret (Some err) | Ok files => WriteNull files end.

(** ** What the module owns *)

(** A source file by its name. *)
Definition owned_name (name : string) : Prop := goIgnoredName name = None /\ HasSuffix name ".go" = true.

(** A directory that is no repository or module of its own. *)
Definition unmarked (search : option error) (entries : list (string * node)) : Prop :=
  match search with
  | Some err => IsNotExist err = true
  | None => Forall (fun marker => marker ∉ entries.*1) boundaryMarkers
  end.

(** [source dir n path info]: under the directory [n] at [dir] the module owns a
    source at [path], of which the file system answers [info]. *)
Inductive source : string -> node -> string -> result fileMode -> Prop :=
| source_file dir s r es name info :
    (name, File info) ∈ es -> owned_name name -> source dir (Dir s r es) (Join dir name) (Info s info)
| source_sub dir s r es name s' r' es' path info :
    (name, Dir s' r' es') ∈ es -> IgnoredDirectory name = None -> unmarked s' es' ->
    source (Join dir name) (Dir s' r' es') path info -> source dir (Dir s r es) path info.

(** [trouble dir n err]: something the module owns there cannot be listed. *)
Inductive trouble : string -> node -> error -> Prop :=
| trouble_read dir s err es : trouble dir (Dir s (Some err) es) err
| trouble_link dir s r es name info :
    (name, File info) ∈ es -> owned_name name -> Info s info = Ok Symlink -> trouble dir (Dir s r es) (SymlinkError (Join dir name))
| trouble_info dir s r es name info err :
    (name, File info) ∈ es -> owned_name name -> Info s info = Fail err -> trouble dir (Dir s r es) err
| trouble_search dir s r es name err r' es' :
    (name, Dir (Some err) r' es') ∈ es -> IgnoredDirectory name = None -> IsNotExist err = false -> trouble dir (Dir s r es) err
| trouble_sub dir s r es name s' r' es' err :
    (name, Dir s' r' es') ∈ es -> IgnoredDirectory name = None -> unmarked s' es' ->
    trouble (Join dir name) (Dir s' r' es') err -> trouble dir (Dir s r es) err.

(** A tree of a file system: names are distinct, not empty, and hold no
    separator. *)
Inductive tree : node -> Prop :=
| tree_file info : tree (File info)
| tree_dir s r es :
    NoDup es.*1 -> (forall name n, (name, n) ∈ es -> name <> "" /\ has_byte "/" name = false) ->
    (forall name n, (name, n) ∈ es -> tree n) -> tree (Dir s r es).

(** ** The same, entry by entry *)
Definition entry_source (dir : string) (s : option error) (name : string) (n : node) (path : string) (info : result fileMode) : Prop :=
  match n with
  | File i => owned_name name /\ path = Join dir name /\ info = Info s i
  | Dir s' r' es' => IgnoredDirectory name = None /\ unmarked s' es' /\ source (Join dir name) n path info
  end.

Definition entry_trouble (dir : string) (s : option error) (name : string) (n : node) (err : error) : Prop :=
  match n with
  | File i => owned_name name /\ (Info s i = Ok Symlink /\ err = SymlinkError (Join dir name) \/ Info s i = Fail err)
  | Dir s' r' es' => IgnoredDirectory name = None
      /\ (s' = Some err /\ IsNotExist err = false \/ unmarked s' es' /\ trouble (Join dir name) n err)
  end.

Lemma source_entries dir s r es path info :
  source dir (Dir s r es) path info <-> exists name n, (name, n) ∈ es /\ entry_source dir s name n path info.
Proof.
  split.
  - inversion 1; subst; eexists _, _; (split; [done|]); simpl; auto.
  - intros (name & [i|s' r' es'] & Hin & Hs).
    + destruct Hs as (Ho & -> & ->). by apply source_file.
    + destruct Hs as (Hi & Hu & Hs). by eapply source_sub.
Qed.

Lemma trouble_entries dir s r es err :
  trouble dir (Dir s r es) err <-> r = Some err \/ exists name n, (name, n) ∈ es /\ entry_trouble dir s name n err.
Proof.
  split.
  - inversion 1; subst; [by left|right; eexists _, _; (split; [done|]); simpl; eauto 6..].
  - intros [->|(name & [i|s' r' es'] & Hin & Ht)]; [constructor| |].
    + destruct Ht as (Ho & [[Hi ->]|Hi]); [by eapply trouble_link|by eapply trouble_info].
    + destruct Ht as (Hi & [[-> Hn]|[Hu Ht]]); [by eapply trouble_search|by eapply trouble_sub].
Qed.

(** ** The walk finds it *)
Lemma nested_spec s es :
  match nestedBoundary s es with
  | Ok nested => (nested = false <-> unmarked s es) /\ forall err, s = Some err -> IsNotExist err = true
  | Fail err => s = Some err /\ IsNotExist err = false
  end.
Proof.
  unfold unmarked. destruct s as [err|].
  - unfold nestedBoundary, boundaryMarkers, nestedFrom, Lstat. destruct (IsNotExist err) eqn:He; [|done]. by split; [|intros ? [= <-]].
  - assert (Hex : forall m, existsb (fun entry => bool_decide (entry.1 = m)) es = true <-> m ∈ es.*1).
    { intros m. rewrite existsb_exists, list_elem_of_fmap. split.
      - intros (x & Hin & Hx). reflect_guards. exists x. split; [done|]. by apply list_elem_of_In.
      - intros (x & -> & Hin). exists x. split; [by apply list_elem_of_In|]. by rewrite bool_decide_true. }
    assert (Hno : IsNotExist ErrNotExist = true) by by vm_compute.
    assert (Hall : Forall (fun marker => marker ∉ es.*1) [".git"; "go.mod"] <-> ".git" ∉ es.*1 /\ "go.mod" ∉ es.*1)
      by (rewrite !Forall_cons, Forall_nil; naive_solver).
    pose proof (Hex ".git") as Hgit. pose proof (Hex "go.mod") as Hmod.
    unfold nestedBoundary, boundaryMarkers, nestedFrom, Lstat.
    destruct (existsb _ es); [split; [|done]; rewrite Hall; naive_solver|]. rewrite Hno.
    destruct (existsb _ es); [split; [|done]; rewrite Hall; naive_solver|].
    rewrite Hno. split; [|done]. rewrite Hall. naive_solver.
Qed.

Definition walkAll (absoluteRoot path : string) (inner : option error) : list (string * node) -> result (list string) :=
  fix walkAll (entries : list (string * node)) : result (list string) :=
    match entries with
    | [] => Ok []
    | (name, n) :: entries =>
        match walkDir absoluteRoot (Join path name) name inner n with
        | Fail err => Fail err
        | Ok files => match walkAll entries with Fail err => Fail err | Ok rest => Ok (files ++ rest)%list end
        end
    end.

(** What a directory's own entries come to, once it is entered. *)
Definition contents (absoluteRoot path : string) (n : node) : result (list string) :=
  match n with File _ => Ok [] | Dir _ (Some err) _ => Fail err | Dir inner None entries => walkAll absoluteRoot path inner entries end.

Lemma walkDir_contents root path name s n :
  walkDir root path name s n = match visit root path name s n with
    | Stop err => Fail err | SkipDir => Ok [] | Collect => Ok [path] | Continue => contents root path n end.
Proof. by destruct n as [i|s' [err|] es]. Qed.

Definition lists (files : result (list string)) (src : string -> result fileMode -> Prop) (bad : error -> Prop) : Prop :=
  match files with
  | Ok l => (forall path, path ∈ l <-> src path (Ok Regular)) /\ forall err, ~ bad err
  | Fail err => bad err
  end.

Lemma string_length_app (s t : string) : String.length (s +:+ t) = (String.length s + String.length t)%nat.
Proof. induction s as [|c s IH]; [done|]. change (S (String.length (s +:+ t)) = S (String.length s + String.length t)). by rewrite IH. Qed.

Lemma Join_longer dir name : name <> "" -> (String.length dir < String.length (Join dir name))%nat.
Proof.
  intros Hn. unfold Join. case_bool_decide as Hd; [subst|]; rewrite !string_length_app; simpl; [destruct name; [done|simpl; lia]|lia].
Qed.

(** One entry of a directory, given what entering it comes to. *)
Lemma walk_entry root dir s name n :
  Join dir name <> root ->
  (forall s' r' es', n = Dir s' r' es' -> lists (contents root (Join dir name) n) (source (Join dir name) n) (trouble (Join dir name) n)) ->
  lists (walkDir root (Join dir name) name s n) (entry_source dir s name n) (entry_trouble dir s name n).
Proof.
  intros Hne Hin. rewrite walkDir_contents. unfold visit. destruct n as [i|s' r' es'].
  - clear Hin. assert (Hnone : ~ owned_name name -> lists (Ok []) (entry_source dir s name (File i)) (entry_trouble dir s name (File i))).
    { intros Ho. split; [intros path; split; [intros Hp; by apply elem_of_nil in Hp|by intros [? _]]|by intros err [? _]]. }
    unfold IgnoredFile, owned_name in *. destruct (goIgnoredName name) eqn:Hi; [by apply Hnone; intros [? _]|].
    destruct (HasSuffix name ".go") eqn:Hg; [|by apply Hnone; intros [_ ?]]. simpl negb. cbv iota.
    assert (Ho : owned_name name) by done. unfold lists, entry_source, entry_trouble.
    destruct (Info s i) as [[]|err]; simpl; [|naive_solver| |naive_solver]; (split; [intros path|intros err Ht; naive_solver]).
    + rewrite list_elem_of_singleton. naive_solver.
    + rewrite elem_of_nil. naive_solver.
  - rewrite bool_decide_false by done. simpl negb. cbv iota. pose proof (nested_spec s' es') as Hs.
    specialize (Hin s' r' es' eq_refl). unfold lists, entry_source, entry_trouble.
    destruct (IgnoredDirectory name); [split; [intros path; rewrite elem_of_nil; by split; [|intros [? _]]|by intros err [? _]]|].
    destruct (nestedBoundary s' es') as [[]|err]; destruct Hs as [Hu He].
    + assert (Hn : ~ unmarked s' es') by (by intros Hn; apply Hu in Hn). split; [intros path; rewrite elem_of_nil; naive_solver|].
      intros err (_ & [[-> Hx]|[? _]]); [|done]. specialize (He err eq_refl). congruence.
    + assert (unmarked s' es') by by apply Hu. unfold lists in Hin.
      destruct (contents root (Join dir name) (Dir s' r' es')) as [l|err]; [|by split; [|right]]. destruct Hin as [Hl Hb].
      split; [intros path; rewrite Hl; naive_solver|]. intros err (_ & [[-> Hn]|[_ Ht]]); [|by eapply Hb]. specialize (He err eq_refl). congruence.
    + split; [done|]. by left.
Qed.

Lemma walk_all_spec root dir s es part :
  (String.length root <= String.length dir)%nat ->
  (forall name n, (name, n) ∈ es -> name <> "" /\ has_byte "/" name = false) ->
  (forall name n root dir, (name, n) ∈ es -> IsDir n = true -> (String.length root <= String.length dir)%nat ->
     lists (contents root dir n) (source dir n) (trouble dir n)) ->
  part ⊆ es ->
  lists (walkAll root dir s part)
    (fun path info => exists name n, (name, n) ∈ part /\ entry_source dir s name n path info)
    (fun err => exists name n, (name, n) ∈ part /\ entry_trouble dir s name n err).
Proof.
  intros Hlen Hnames IH. induction part as [|[name n] part IHp]; intros Hsub; simpl; [split; set_solver|].
  assert (Hin : (name, n) ∈ es) by (apply Hsub; by left). specialize (IHp ltac:(set_solver)).
  assert (Hl : (String.length root < String.length (Join dir name))%nat).
  { pose proof (Join_longer dir name (proj1 (Hnames _ _ Hin))). lia. }
  pose proof (walk_entry root dir s name n ltac:(intros Heq; rewrite Heq in Hl; lia)) as He.
  assert (Hrec : forall s' r' es', n = Dir s' r' es' -> lists (contents root (Join dir name) n) (source (Join dir name) n) (trouble (Join dir name) n)).
  { intros s' r' es' ->. apply (IH _ _ _ _ Hin); [done|lia]. }
  specialize (He Hrec). unfold lists in *. destruct (walkDir root (Join dir name) name s n) as [l|err]; [|by eexists _, _; split; [left|]].
  destruct He as [Hl1 Hb1]. destruct (walkAll root dir s part) as [rest|err].
  - destruct IHp as [Hl2 Hb2]. split.
    + intros path. rewrite elem_of_app, Hl1, Hl2. setoid_rewrite elem_of_cons. naive_solver.
    + intros err (nm & n' & Hc & Ht). apply elem_of_cons in Hc as [[= -> ->]|Hc]; [by eapply Hb1|]. apply (Hb2 err). by exists nm, n'.
  - destruct IHp as (nm & n' & Hc & Ht). exists nm, n'. split; [by right|done].
Qed.

Lemma contents_spec n : tree n -> forall root dir, IsDir n = true -> (String.length root <= String.length dir)%nat ->
  lists (contents root dir n) (source dir n) (trouble dir n).
Proof.
  induction 1 as [|s r es Hnd Hnames _ IH]; intros root dir Hdir Hlen; [done|].
  simpl. destruct r as [err|]; [constructor|]. pose proof (walk_all_spec root dir s es es Hlen Hnames) as Hes.
  assert (Hrec : forall name n root dir, (name, n) ∈ es -> IsDir n = true -> (String.length root <= String.length dir)%nat ->
    lists (contents root dir n) (source dir n) (trouble dir n)) by eauto.
  specialize (Hes Hrec ltac:(done)). unfold lists in *. destruct (walkAll root dir s es) as [l|err].
  - destruct Hes as [Hl Hb]. split; [intros path; by rewrite Hl, source_entries|]. intros err Ht. apply trouble_entries in Ht as [?|Ht]; [done|by eapply Hb].
  - apply trouble_entries. by right.
Qed.

(** ** Each once *)
Lemma Join_inj dir a b : Join dir a = Join dir b -> a = b.
Proof. unfold Join. case_bool_decide; intros Heq; [by apply (inj (String.append "/")) in Heq|]. by do 2 apply (inj (String.append _)) in Heq. Qed.

Lemma Join_Join dir name rest : name <> "" -> Join (Join dir name) rest = Join dir (name +:+ "/" +:+ rest).
Proof.
  intros Hn. unfold Join at 1. rewrite bool_decide_false.
  - unfold Join. case_bool_decide; by rewrite !string_app_assoc.
  - unfold Join. case_bool_decide; [by destruct name|]. destruct dir as [|c dir]; intros [=]; [by destruct name|by destruct dir].
Qed.

(** The name of the entry a path below a directory goes through. *)
Definition through (dir name path : string) : Prop := exists tail, path = Join dir (name +:+ tail) /\ (tail = "" \/ exists t, tail = "/" +:+ t).

Lemma through_name dir a b path :
  has_byte "/" a = false -> has_byte "/" b = false -> through dir a path -> through dir b path -> a = b.
Proof.
  intros Ha Hb (ta & -> & Hta) (tb & Heq & Htb). apply Join_inj in Heq.
  assert (Hc : forall n t, has_byte "/" n = false -> t = "" \/ (exists u, t = "/" +:+ u) -> (cut "/" (n +:+ t)).1.1 = n).
  { intros n t Hn [->|[u ->]]; [by rewrite string_app_nil_r, cut_none|]. change ("/" +:+ u) with (String "/" u). by rewrite cut_app. }
  rewrite <- (Hc a ta), Heq by done. by apply Hc.
Qed.

Lemma source_through n : tree n -> forall dir path info, source dir n path info -> exists rest, path = Join dir rest.
Proof.
  induction 1 as [|s r es _ Hnames _ IH]; intros dir path i Hs; [inversion Hs|].
  apply source_entries in Hs as (name & n & Hin & He). destruct n as [i0|s' r' es'].
  - destruct He as (_ & -> & _). by exists name.
  - destruct He as (_ & _ & He). destruct (IH _ _ Hin _ _ _ He) as [rest ->]. rewrite Join_Join by apply (Hnames _ _ Hin). by eexists.
Qed.

Lemma entry_through dir s name n path info : name <> "" -> tree n -> entry_source dir s name n path info -> through dir name path.
Proof.
  intros Hne Ht. destruct n as [i|s' r' es'].
  - intros (_ & -> & _). exists "". rewrite string_app_nil_r. auto.
  - intros (_ & _ & Hs). destruct (source_through _ Ht _ _ _ Hs) as [rest ->]. rewrite Join_Join by done. eexists. split; [done|]. right. by eexists.
Qed.

Lemma contents_nodup n : tree n -> forall root dir, (String.length root <= String.length dir)%nat ->
  match contents root dir n with Ok l => NoDup l | Fail _ => True end.
Proof.
  induction 1 as [|s r es Hnd Hnames Htree IH]; intros root dir Hlen; [constructor|]. destruct r as [err|]; [done|]. simpl.
  assert (Hsub : es ⊆ es) by done. revert Hnd Hsub. generalize es at 1 2 4 as part.
  induction part as [|[name n] part IHp]; intros Hnd Hsub; simpl; [constructor|].
  assert (Hin : (name, n) ∈ es) by (apply Hsub; by left). destruct (Hnames _ _ Hin) as [Hne Hnb].
  apply NoDup_cons in Hnd as [Hfresh Hnd]. specialize (IHp Hnd ltac:(set_solver)).
  assert (Hl : (String.length root < String.length (Join dir name))%nat) by (pose proof (Join_longer dir name Hne); lia).
  assert (Hroot : Join dir name <> root) by (intros Heq; rewrite Heq in Hl; lia).
  pose proof (walk_entry root dir s name n Hroot) as He.
  assert (Hrec : forall s' r' es', n = Dir s' r' es' -> lists (contents root (Join dir name) n) (source (Join dir name) n) (trouble (Join dir name) n)).
  { intros s' r' es' ->. apply contents_spec; [by eapply Htree|done|lia]. }
  specialize (He Hrec). assert (Hn1 : match walkDir root (Join dir name) name s n with Ok l => NoDup l | Fail _ => True end).
  { rewrite walkDir_contents. destruct (visit _ _ _ _ _); try done; [|constructor|apply NoDup_singleton]. apply (IH _ _ Hin). lia. }
  destruct (walkDir root (Join dir name) name s n) as [l|err]; [|done].
  pose proof (walk_all_spec root dir s es part Hlen Hnames ltac:(intros; apply contents_spec; eauto) ltac:(set_solver)) as Hrest.
  destruct (walkAll root dir s part) as [rest|err]; [|done]. apply NoDup_app. split_and!; [done| |done].
  intros path H1 H2. apply (proj1 He) in H1. apply (proj1 Hrest) in H2 as (nm & n' & Hin' & H2).
  assert (Hin2 : (nm, n') ∈ es) by set_solver.
  apply Hfresh, list_elem_of_fmap. exists (nm, n'). split; [|done]. simpl.
  eapply through_name; [done|apply (Hnames _ _ Hin2)| |].
  - exact (entry_through _ _ _ _ _ _ Hne (Htree _ _ Hin) H1).
  - exact (entry_through _ _ _ _ _ _ (proj1 (Hnames _ _ Hin2)) (Htree _ _ Hin2) H2).
Qed.

(** ** Sorted *)
#[global] Instance string_le_trans : Transitive string_le.
Proof.
  intros s t u. unfold string_le, String.leb. revert t u. induction s as [|c s IH]; intros [|d t] [|e u]; simpl; try done.
  unfold Ascii.compare. destruct (N.compare_spec (N_of_ascii c) (N_of_ascii d)) as [Hcd|Hcd|Hcd]; [rewrite Hcd| |done].
  - destruct (N_of_ascii d ?= N_of_ascii e)%N; [apply IH|done..].
  - destruct (N.compare_spec (N_of_ascii d) (N_of_ascii e)) as [Hde|Hde|Hde]; [| |done];
      by rewrite (proj2 (N.compare_lt_iff (N_of_ascii c) (N_of_ascii e))) by lia.
Qed.

#[global] Instance string_le_total : Total string_le.
Proof. intros s t. apply String.leb_total. Qed.

(** C38: The list is exactly what the module owns. Of a directory tree, [Files]
    fails, with a reason that is there, if and only if something the module owns
    cannot be listed: a source that is a symbolic link or whose mode cannot be
    told, a directory of its own that cannot be read or searched. Otherwise it
    lists, each once and in order, exactly the regular files whose name is a
    source's, in directories that are neither hidden, vendored nor test data
    and are no repository or module of their own, the root apart. *)
Theorem files_are_exactly_the_modules (root : string) (n : node) (Hdir : IsDir n = true) (Htree : tree n) :
  match Files (Ok root) (Ok n) with
  | Ok files => StronglySorted string_le files /\ NoDup files
      /\ (forall path, path ∈ files <-> source root n path (Ok Regular)) /\ forall err, ~ trouble root n err
  | Fail err => trouble root n err
  end.
Proof.
  unfold Files. rewrite walkDir_contents. destruct n as [|s r es]; [done|]. unfold visit. rewrite bool_decide_true by done. simpl negb. cbv iota.
  pose proof (contents_spec _ Htree root root eq_refl ltac:(done)) as Hs. pose proof (contents_nodup _ Htree root root ltac:(done)) as Hn.
  unfold lists in Hs. destruct (contents root root (Dir s r es)) as [l|err]; [|done]. destruct Hs as [Hl Hb].
  pose proof (merge_sort_Permutation string_le l) as Hp. split_and!; [apply StronglySorted_merge_sort; apply _|by rewrite Hp| |done].
  intros path. by rewrite Hp.
Qed.

Definition demo_tree : node :=
  Dir None None [("go.mod", File (Ok Regular)); ("main.go", File (Ok Regular)); ("main_test.txt", File (Ok Regular)); (".x.go", File (Ok Symlink));
    ("api", Dir None None [("b.go", File (Ok Regular)); ("a.go", File (Ok Regular)); ("pipe.go", File (Ok Irregular))]);
    ("sub", Dir None None [("go.mod", File (Ok Regular)); ("s.go", File (Ok Symlink))]);
    ("vendor", Dir None (Some ErrNotExist) [])].

Lemma tree_of s r es :
  NoDup es.*1 -> Forall (fun e => e.1 <> "" /\ has_byte "/" e.1 = false) es -> Forall (fun e => tree e.2) es -> tree (Dir s r es).
Proof.
  intros Hn Hs Ht. constructor; [done|..]; intros name n Hin;
    [exact (proj1 (Forall_forall _ _) Hs _ Hin)|exact (proj1 (Forall_forall _ _) Ht _ Hin)].
Qed.

Lemma demo_tree_tree : tree demo_tree.
Proof.
  repeat match goal with
  | |- tree (File _) => constructor
  | |- tree _ => apply tree_of; [apply (bool_decide_unpack _); by vm_compute|by repeat constructor|repeat apply Forall_cons_2; simpl; try apply Forall_nil_2]
  end.
Qed.

Lemma files_are_exactly_the_modules_witness :
  Files (Ok "/r") (Ok demo_tree) = Ok ["/r/api/a.go"; "/r/api/b.go"; "/r/main.go"]
  /\ ~ trouble "/r" demo_tree (SymlinkError "/r/sub/s.go").
Proof.
  assert (Hf : Files (Ok "/r") (Ok demo_tree) = Ok ["/r/api/a.go"; "/r/api/b.go"; "/r/main.go"]) by by vm_compute.
  split; [done|]. pose proof (files_are_exactly_the_modules "/r" demo_tree eq_refl demo_tree_tree) as Hx. rewrite Hf in Hx. apply Hx.
Defined.

(** ** The listing on a pipe *)

(** The text of the writes that were accepted. *)
Definition written (t : list (event writerCall)) : string :=
  fold_right (fun (e : event writerCall) out => match e with Ev _ (WriteString s) None => s +:+ out | _ => out end) "" t.

Definition terminated (paths : list string) : string := fold_right (fun path out => path +:+ nul +:+ out) "" paths.

Lemma WriteNull_written paths :
  wp (WriteNull paths) (fun err t => match err with
    | None => written t = terminated paths
    | Some err => exists done rest part, paths = (done ++ rest)%list /\ written t = terminated done +:+ part
        /\ (part = "" \/ exists path, head rest = Some path /\ part = path)
    end).
Proof.
  induction paths as [|path paths IH]; [done|]. simpl. intros [err|]; [exists [], (path :: paths), ""; auto|]. intros [err|].
  - exists [], (path :: paths), path. simpl. rewrite string_app_nil_r. split_and!; [done..|]. right. by exists path.
  - eapply wp_mono; [|apply IH]. simpl. intros [err|] t Ht.
    + destruct Ht as (d & rest & part & -> & Hw & Hp). exists (path :: d), rest, part. split_and!; [done| |done].
      simpl. by rewrite Hw, !string_app_assoc.
    + by rewrite Ht.
Qed.

Lemma terminated_split paths : Forall (fun path => has_byte NUL path = false) paths -> Text.split NUL (terminated paths) = (paths ++ [""])%list.
Proof.
  induction 1 as [|path paths Hp _ IH]; [done|]. simpl. change (nul +:+ ?s) with (String NUL s).
  by rewrite split_app, IH.
Qed.

(** The listing is read back as it was: what a reader of NUL-terminated names
    gets of the output is the paths, whatever other bytes their names hold; and
    a listing cut short by a failed write is reported, after a prefix of it. *)
Theorem write_null_roundtrip (paths : list string) (Hnul : Forall (fun path => has_byte NUL path = false) paths) :
  wp (WriteNull paths) (fun err t => match err with
    | None => Text.split NUL (written t) = (paths ++ [""])%list
    | Some err => exists done rest part, paths = (done ++ rest)%list /\ written t = terminated done +:+ part
        /\ (part = "" \/ exists path, head rest = Some path /\ part = path)
    end).
Proof.
  eapply wp_mono; [|apply WriteNull_written]. simpl. intros [err|] t Ht; [done|]. rewrite Ht. by apply terminated_split.
Qed.
