(* ===== verification/Interp.v ===== *)
(** * Programs whose calls are programs

    A component's calls are, in the deployment, the operations of another
    component. [interp] replaces each call of a program by the program that
    answers it, and the lemmas carry what is known of the caller and of the
    answering programs over to the composition: [wp_interp] is a forward
    simulation, in which a relation between the calls the caller made and the
    calls the composition made is kept by every call. *)

From S2P Require Import Prelude Program.

Section Interp.
Context {E F : Type -> Type}.

Fixpoint interp (h : forall R, E R -> prog F R) {A} (p : prog E A) : prog F A :=
  match p with
  | Ret a => Ret a
  | Call R c k => bind (h R c) (fun r => interp h (k r))
  end.

(** The calls of [E] as calls of [F]. *)
Definition lift (f : forall R, E R -> F R) {A} (p : prog E A) : prog F A := interp (fun R c => invoke (f R c)) p.

Definition lift_event (f : forall R, E R -> F R) (e : event E) : event F := match e with Ev R c r => Ev R (f R c) r end.

Lemma lift_wp (f : forall R, E R -> F R) {A} (p : prog E A) : forall (Q : A -> list (event E) -> Prop),
  wp p Q -> wp (lift f p) (fun a t => exists u, t = lift_event f <$> u /\ Q a u).
Proof.
  induction p as [a|R c k IH]; intros Q Hp; [by exists []|]. intros r. eapply wp_mono; [|apply (IH r _ (Hp r))].
  simpl. intros a t (u & -> & HQ). by exists (Ev R c r :: u).
Qed.

Lemma lift_run {W} (f : forall R, E R -> F R) (env : handler F W) {A} (p : prog E A) : forall w,
  run env (lift f p) w = let '(a, t, w) := run (fun R c => env R (f R c)) p w in (a, lift_event f <$> t, w).
Proof.
  induction p as [a|R c k IH]; intros w; [done|]. simpl. destruct (env R (f R c) w) as [r w'].
  change (interp _ (k r)) with (lift f (k r)). change (bind (Ret ?x) ?g) with (g x). cbv beta.
  fold (lift f (k r)). rewrite IH. by destruct (run _ (k r) w') as [[a t] w''].
Qed.

Section Simulation.
Context (h : forall R, E R -> prog F R) (sim : list (event E) -> list (event F) -> Prop).

Lemma wp_interp P {A} (p : prog E A) : forall (Q : A -> list (event E) -> Prop) past past',
  (forall past past' R (c : E R), sim past past' -> (forall r, P past (Ev R c r)) ->
     wp (h R c) (fun r t => sim (past ++ [Ev R c r]) (past' ++ t))) ->
  sim past past' -> obeys P past p -> wp p Q ->
  wp (interp h p) (fun a t' => exists t, Q a t /\ sim (past ++ t) (past' ++ t')).
Proof.
  induction p as [a|R c k IH]; intros Q past past' Hh Hs Ho Hp; simpl in *; [exists []; by rewrite !app_nil_r|].
  eapply wp_seq; [apply (Hh past past' R c Hs (fun r => proj1 (Ho r)))|]. intros r t Ht.
  eapply wp_mono; [|apply (IH r _ (past ++ [Ev R c r]) (past' ++ t) Hh Ht (proj2 (Ho r)) (Hp r))].
  simpl. intros a u (v & HQ & Hsim). exists (Ev R c r :: v). split; [done|]. by rewrite <- !app_assoc in Hsim.
Qed.
End Simulation.
End Interp.
