(* ===== verification/Delivery.v ===== *)
(** * Bounded record queues (src/internal/realtime/delivery/queue.go)

    [Queue], [Enqueue], [Head], [Next], [Clear], [Repair], [Close] and
    [selectVictim], and the envelope parser [ParseEnduring]. The queue's mutex
    makes each operation atomic, so an operation is a function on the queue
    value. Go's [int] indices are [Z], with [-1] for "no victim". *)

From S2P Require Import Prelude Wire.

Definition ErrInvalidConfig : error := sentinel "delivery.ErrInvalidConfig".
Definition ErrQueueClosed : error := sentinel "delivery.ErrQueueClosed".
Definition ErrOverflow : error := sentinel "delivery.ErrOverflow".
Definition ErrDropped : error := sentinel "delivery.ErrDropped".
Definition ErrNotEnduring : error := sentinel "delivery.ErrNotEnduring".
Definition ErrMalformed : error := sentinel "delivery.ErrMalformed".
Definition ErrWatermarkNotItsEventSequence : error :=
  sentinel "delivery.ErrWatermarkNotItsEventSequence".
Definition ErrWatermarkAboveCommitted : error := sentinel "delivery.ErrWatermarkAboveCommitted".

Inductive Class_ := ClassEnduring | ClassEphemeral | ClassControl.

#[global] Instance Class_eq_dec : EqDecision Class_.
Proof. solve_decision. Defined.

Definition droppable (c : Class_) : bool := bool_decide (c = ClassEphemeral).

Record Record_ := MkRecord {
  Class : Class_;
  Encoded : bytes;
  Seq : Z;
  CoalesceKey : string
}.

#[global] Instance Record_eq_dec : EqDecision Record_.
Proof. solve_decision. Defined.

Record Queue := MkQueue { capacity : Z; closed : bool; buf : list Record_ }.

Definition NewQueue (capacity : Z) : result Queue :=
  if capacity <? 1 then Fail (wrapf [ErrInvalidConfig])
  else Ok (MkQueue capacity false []).

Definition Len (q : Queue) : Z := Z.of_nat (length (buf q)).

(** The first loop of [selectVictim]: the oldest index and the count of each
    declared key, and the oldest ephemeral index, over [buf] from index [i]. *)
Fixpoint scanVictims (i : Z) (buf : list Record_)
    (oldestOfKey countOfKey : gmap string Z) (oldestEphemeral : Z)
    : gmap string Z * gmap string Z * Z :=
  match buf with
  | [] => (oldestOfKey, countOfKey, oldestEphemeral)
  | record :: buf' =>
      if negb (droppable (Class record)) then
        scanVictims (i + 1) buf' oldestOfKey countOfKey oldestEphemeral
      else
        let oldestEphemeral := if oldestEphemeral <? 0 then i else oldestEphemeral in
        let key := CoalesceKey record in
        if bool_decide (key = ""%string) then
          scanVictims (i + 1) buf' oldestOfKey countOfKey oldestEphemeral
        else
          let countOfKey := <[key := default 0 (countOfKey !! key) + 1]> countOfKey in
          let oldestOfKey := match oldestOfKey !! key with
                             | Some _ => oldestOfKey
                             | None => <[key := i]> oldestOfKey
                             end in
          scanVictims (i + 1) buf' oldestOfKey countOfKey oldestEphemeral
  end.

(** The second loop, over the counted keys in the order [ranged]: Go ranges
    over a map in an unspecified order, so the order is an argument. *)
Fixpoint busiestKey (ranged : list (string * Z)) (oldestOfKey : gmap string Z)
    (victim best : Z) : Z :=
  match ranged with
  | [] => victim
  | (key, count) :: rest =>
      let oldest := default 0 (oldestOfKey !! key) in
      if (best <? count) || ((count =? best) && (oldest <? victim))
      then busiestKey rest oldestOfKey oldest count
      else busiestKey rest oldestOfKey victim best
  end.

(** [selectVictim] with the order of its map iteration made explicit. *)
Definition selectVictimIn (order : gmap string Z -> list (string * Z)) (buf : list Record_) : Z :=
  let '(oldestOfKey, countOfKey, oldestEphemeral) := scanVictims 0 buf ∅ ∅ (-1) in
  let victim := busiestKey (order countOfKey) oldestOfKey (-1) 0 in
  if 0 <=? victim then victim else oldestEphemeral.

Definition selectVictim (buf : list Record_) : Z := selectVictimIn map_to_list buf.

Definition Enqueue (record : Record_) (q : Queue) : option error * Queue :=
  if closed q then (Some ErrQueueClosed, q)
  else if Len q <? capacity q then
    (None, MkQueue (capacity q) false (buf q ++ [record]))
  else
    let victim := selectVictim (buf q) in
    if victim <? 0 then
      if droppable (Class record) then (Some ErrDropped, q) else (Some ErrOverflow, q)
    else
      let v := Z.to_nat victim in
      (None, MkQueue (capacity q) false (take v (buf q) ++ drop (S v) (buf q) ++ [record])).

Definition Head (q : Queue) : option Record_ :=
  if closed q then None else head (buf q).

Definition Clear (q : Queue) : Queue :=
  if closed q then q else MkQueue (capacity q) false [].

Definition Next (q : Queue) : option Record_ * Queue :=
  if closed q then (None, q)
  else match buf q with
       | [] => (None, q)
       | record :: rest => (Some record, MkQueue (capacity q) false rest)
       end.

Definition Repair (control : Record_) (q : Queue) : option error * Queue :=
  if closed q then (Some ErrQueueClosed, q)
  else (None, MkQueue (capacity q) false [control]).

Definition Close (q : Queue) : Queue := MkQueue (capacity q) true [].

(** ** The envelope of an enduring publication *)
Record Enduring := MkEnduring {
  TenantID_ : TenantID;
  SessionID_ : SessionID;
  EventID_ : string;
  JournalSeq : Z;
  CoveredThrough : Z;
  Body : bytes;
  Encoded_ : bytes
}.

(** [func (e Enduring) Record() Record] *)
Definition Record_of (e : Enduring) : Record_ :=
  MkRecord ClassEnduring (Encoded_ e) (JournalSeq e) ""%string.

Definition validationField (e : error) : option string :=
  match errors_as "sessionwire.RequestValidationError" e with
  | Some (Typed _ _ field _) => Some field
  | _ => None
  end.

Definition ParseEnduring `{SessionCodec} (encoded : bytes) (committedAppend : Z) : result Enduring :=
  match SessionRecordTypeOf encoded with
  | Fail err => Fail (wrapf [ErrNotEnduring; err])
  | Ok recordType =>
      if negb (bool_decide (recordType = SessionRecordTypeEnduringPublication)) then
        Fail (wrapf [ErrNotEnduring])
      else
        match unmarshalEnduring encoded with
        | Fail err =>
            if bool_decide (validationField err = Some "covered_through"%string)
            then Fail (wrapf [ErrWatermarkNotItsEventSequence; err])
            else Fail (wrapf [ErrMalformed; err])
        | Ok publication =>
            if committedAppend <? pub_CoveredThrough publication then
              Fail (wrapf [ErrWatermarkAboveCommitted])
            else
              Ok (MkEnduring (pub_TenantID publication) (pub_SessionID publication)
                    (pub_EventID publication) (pub_JournalSeq publication)
                    (pub_CoveredThrough publication) (pub_Body publication) encoded)
        end
  end.

(** ** The victim: what [selectVictim]'s two loops compute *)
Definition ephemeral (r : Record_) : Prop := Class r = ClassEphemeral.
Definition keyed (k : string) (r : Record_) : Prop := ephemeral r /\ CoalesceKey r = k /\ k <> ""%string.
Definition durable (r : Record_) : Prop := Class r <> ClassEphemeral.

#[global] Instance ephemeral_dec r : Decision (ephemeral r).
Proof. unfold ephemeral. apply _. Defined.
#[global] Instance keyed_dec k r : Decision (keyed k r).
Proof. unfold keyed. apply _. Defined.
#[global] Instance durable_dec r : Decision (durable r).
Proof. unfold durable. apply _. Defined.

(** The code's class test is the one above. *)
Lemma droppable_true r : droppable (Class r) = true <-> ephemeral r.
Proof. unfold droppable. by rewrite bool_decide_eq_true. Qed.

Lemma droppable_false r : droppable (Class r) = false <-> durable r.
Proof. unfold droppable. by rewrite bool_decide_eq_false. Qed.

Lemma droppable_spec r : reflect (ephemeral r) (droppable (Class r)).
Proof. apply iff_reflect. symmetry. apply droppable_true. Qed.

(** How many records of the buffer carry the key, and where the first is. *)
Definition countKey (k : string) (buf : list Record_) : nat := length (filter (keyed k) buf).
Definition firstIndex (P : Record_ -> Prop) `{!forall r, Decision (P r)} (buf : list Record_) : option nat :=
  fst <$> list_find P buf.

Lemma firstIndex_snoc (P : Record_ -> Prop) `{!forall r, Decision (P r)} buf r :
  firstIndex P (buf ++ [r]) =
  match firstIndex P buf with
  | Some i => Some i
  | None => if decide (P r) then Some (length buf) else None
  end.
Proof.
  unfold firstIndex. destruct (list_find P buf) as [[i x]|] eqn:E; simpl.
  - by rewrite (list_find_app_l _ _ _ _ _ E).
  - rewrite (list_find_app_r _ _ _ E). simpl. case_decide; simpl; [|done].
    done.
Qed.

Lemma firstIndex_Some (P : Record_ -> Prop) `{!forall r, Decision (P r)} buf i :
  firstIndex P buf = Some i ->
  exists r, buf !! i = Some r /\ P r /\ forall j y, buf !! j = Some y -> (j < i)%nat -> ~ P y.
Proof.
  unfold firstIndex. intros Hf. apply fmap_Some in Hf as ([j x] & Hf & ->).
  apply list_find_Some in Hf as (? & ? & ?). eauto.
Qed.

Lemma firstIndex_None (P : Record_ -> Prop) `{!forall r, Decision (P r)} buf :
  firstIndex P buf = None -> Forall (fun r => ~ P r) buf.
Proof. unfold firstIndex. rewrite fmap_None. apply list_find_None. Qed.

Lemma countKey_snoc k buf r :
  countKey k (buf ++ [r]) = (countKey k buf + if decide (keyed k r) then 1 else 0)%nat.
Proof.
  unfold countKey. rewrite filter_snoc, length_app. f_equal.
  rewrite filter_cons. case_decide; done.
Qed.

Lemma countKey_firstIndex k buf : countKey k buf = 0%nat <-> firstIndex (keyed k) buf = None.
Proof.
  unfold countKey, firstIndex. rewrite fmap_None, list_find_None. rewrite length_zero_iff_nil.
  split; intros H.
  - apply Forall_forall. intros x Hx HP. eapply filter_nil_not_elem_of; eauto.
  - induction H as [|x l Hx _ IH]; [done|]. by rewrite filter_cons_False.
Qed.

(** The scan's accumulators, as functions of the records scanned so far. *)
Record scanned (pre : list Record_) (o c : gmap string Z) (e : Z) : Prop := {
  scanned_oldest : forall k, o !! k = Z.of_nat <$> firstIndex (keyed k) pre;
  scanned_count : forall k, default 0 (c !! k) = Z.of_nat (countKey k pre);
  scanned_dom : forall k, is_Some (c !! k) <-> is_Some (o !! k);
  scanned_ephemeral : e = default (-1) (Z.of_nat <$> firstIndex ephemeral pre)
}.

(** One more record scanned: one that carries no declared key, one that does,
    and the oldest-ephemeral index either way. *)
Lemma scanned_plain pre o c e e' r :
  scanned pre o c e -> (forall k, ~ keyed k r) ->
  e' = default (-1) (Z.of_nat <$> firstIndex ephemeral (pre ++ [r])) -> scanned (pre ++ [r]) o c e'.
Proof.
  intros [Ho Hc Hd _] Hnk ->. split; [intros k|intros k|done|done].
  - rewrite Ho, firstIndex_snoc, decide_False by done. by destruct (firstIndex (keyed k) pre).
  - rewrite Hc, countKey_snoc, decide_False by done. by rewrite Nat.add_0_r.
Qed.

Lemma scanned_keyed pre o c e e' r :
  scanned pre o c e -> keyed (CoalesceKey r) r ->
  e' = default (-1) (Z.of_nat <$> firstIndex ephemeral (pre ++ [r])) ->
  scanned (pre ++ [r])
    (match o !! CoalesceKey r with
     | Some _ => o
     | None => <[CoalesceKey r := Z.of_nat (length pre)]> o
     end)
    (<[CoalesceKey r := default 0 (c !! CoalesceKey r) + 1]> c) e'.
Proof.
  intros [Ho Hc Hd _] Hkr ->.
  assert (Hother : forall k, k <> CoalesceKey r -> ~ keyed k r) by (intros k Hne (_ & Heq & _); congruence).
  split; [intros k|intros k|intros k|done].
  - rewrite firstIndex_snoc, (Ho (CoalesceKey r)). destruct (decide (k = CoalesceKey r)) as [->|Hne].
    + rewrite decide_True by done.
      destruct (firstIndex (keyed (CoalesceKey r)) pre) as [i|] eqn:Ei; simpl.
      * by rewrite Ho, Ei.
      * by rewrite lookup_insert_eq.
    + rewrite decide_False by auto.
      destruct (firstIndex (keyed (CoalesceKey r)) pre); simpl;
        rewrite ?lookup_insert_ne, Ho by done; by destruct (firstIndex (keyed k) pre).
  - rewrite countKey_snoc. destruct (decide (k = CoalesceKey r)) as [->|Hne].
    + rewrite decide_True, lookup_insert_eq by done. simpl. rewrite Hc. lia.
    + rewrite decide_False by auto. rewrite lookup_insert_ne, Hc by done. lia.
  - destruct (decide (k = CoalesceKey r)) as [->|Hne].
    + rewrite lookup_insert_eq. destruct (o !! CoalesceKey r) eqn:E; split; eauto.
      by rewrite lookup_insert_eq.
    + rewrite lookup_insert_ne, Hd by done.
      destruct (o !! CoalesceKey r); by rewrite ?lookup_insert_ne by done.
Qed.

Lemma scanned_oldest_ephemeral pre r :
  let e := default (-1) (Z.of_nat <$> firstIndex ephemeral pre) in
  default (-1) (Z.of_nat <$> firstIndex ephemeral (pre ++ [r])) =
  if droppable (Class r) then if e <? 0 then Z.of_nat (length pre) else e else e.
Proof.
  simpl. rewrite firstIndex_snoc. destruct (firstIndex ephemeral pre) as [i|]; simpl.
  - rewrite (proj2 (Z.ltb_ge _ _)) by lia. by destruct (droppable _).
  - case_decide as Hr; rewrite <- droppable_true in Hr.
    + by rewrite Hr.
    + by destruct (droppable _).
Qed.

Lemma scanVictims_correct buf : forall pre o c e,
  scanned pre o c e ->
  let '(o', c', e') := scanVictims (Z.of_nat (length pre)) buf o c e in
  scanned (pre ++ buf) o' c' e'.
Proof.
  induction buf as [|r buf IH]; intros pre o c e Hs; simpl; [by rewrite app_nil_r|].
  replace (Z.of_nat (length pre) + 1) with (Z.of_nat (length (pre ++ [r])))
    by (rewrite length_app; simpl; lia).
  replace (pre ++ r :: buf) with ((pre ++ [r]) ++ buf) by by rewrite <- app_assoc.
  pose proof (scanned_oldest_ephemeral pre r) as He. simpl in He. rewrite <- (scanned_ephemeral _ _ _ _ Hs) in He.
  destruct (droppable (Class r)) eqn:Hdrop; simpl; [case_bool_decide|]; apply IH.
  - eapply scanned_plain; [done| |done]. intros k (_ & Hk & Hne). congruence.
  - eapply scanned_keyed; [done| |done]. apply droppable_true in Hdrop. by repeat split.
  - eapply scanned_plain; [done| |done]. intros k (Hk & _). apply droppable_true in Hk. congruence.
Qed.

Lemma scanVictims_all buf :
  let '(o, c, e) := scanVictims 0 buf ∅ ∅ (-1) in scanned buf o c e.
Proof. apply (scanVictims_correct buf [] ∅ ∅ (-1)). split; intros; rewrite ?lookup_empty; done. Qed.

(** A key beats another when it is busier, or as busy and older. *)
Definition beats (o : gmap string Z) (x y : string * Z) : Prop :=
  y.2 < x.2 \/ y.2 = x.2 /\ default 0 (o !! x.1) <= default 0 (o !! y.1).

(** The fold keeps a best entry, whatever it started from. *)
Lemma busiestKey_best o ranged : forall victim best,
  let v := busiestKey ranged o victim best in
  (v = victim /\ Forall (fun y => y.2 < best \/ y.2 = best /\ victim <= default 0 (o !! y.1)) ranged) \/
  (exists x, x ∈ ranged /\ v = default 0 (o !! x.1) /\ Forall (beats o x) ranged /\
     (best < x.2 \/ best = x.2 /\ default 0 (o !! x.1) <= victim)).
Proof.
  induction ranged as [|[k n] ranged IH]; intros victim best; simpl; [left; auto|].
  destruct ((best <? n) || ((n =? best) && (default 0 (o !! k) <? victim))) eqn:Hb.
  - assert (Hbeat : best < n \/ best = n /\ default 0 (o !! k) < victim) by lia.
    destruct (IH (default 0 (o !! k)) n) as [[-> HF]|(x & Hx & -> & HF & Hinit)]; right.
    + exists (k, n). simpl. split_and!; [set_solver|done| |lia].
      constructor; [right; simpl; lia|]. eapply Forall_impl; [done|].
      intros [k' n'] ?; unfold beats; simpl in *. lia.
    + exists x. split_and!; [set_solver|done| |lia].
      constructor; [unfold beats; simpl; lia|done].
  - assert (Hno : n < best \/ n = best /\ victim <= default 0 (o !! k)) by lia.
    destruct (IH victim best) as [[-> HF]|(x & Hx & -> & HF & Hinit)].
    + left. split; [done|]. constructor; [simpl; lia|done].
    + right. exists x. split_and!; [set_solver|done| |done].
      constructor; [unfold beats; simpl; lia|done].
Qed.

(** ** The victim is well chosen

    [victimOf buf v]: what the doc comment of [selectVictim] promises of the
    answer [v], without mentioning how it is found. *)
Definition victimOf (buf : list Record_) (v : Z) : Prop :=
  (v = -1 /\ Forall durable buf) \/
  (exists i r, v = Z.of_nat i /\ buf !! i = Some r /\ ephemeral r /\
     (* coalesce: the oldest member of the busiest key, ties to the older key *)
     ((CoalesceKey r <> ""%string /\ firstIndex (keyed (CoalesceKey r)) buf = Some i /\
       forall k j, firstIndex (keyed k) buf = Some j ->
         (countKey k buf < countKey (CoalesceKey r) buf)%nat \/
         countKey k buf = countKey (CoalesceKey r) buf /\ (i <= j)%nat) \/
      (* drop: no keyed record at all, the oldest ephemeral one *)
      (Forall (fun x => forall k, ~ keyed k x) buf /\ firstIndex ephemeral buf = Some i))).

Lemma scanned_entry buf o c e k n :
  scanned buf o c e -> (k, n) ∈ map_to_list c ->
  exists i, firstIndex (keyed k) buf = Some i /\ default 0 (o !! k) = Z.of_nat i /\
    n = Z.of_nat (countKey k buf) /\ 0 < n.
Proof.
  intros [Ho Hc Hd _] Hin%elem_of_map_to_list.
  assert (is_Some (o !! k)) as [z Hz] by (apply Hd; eauto).
  specialize (Hc k). rewrite Hin in Hc. simpl in Hc. rewrite Ho in Hz.
  destruct (firstIndex (keyed k) buf) as [i|] eqn:Ei; simplify_eq/=.
  exists i. rewrite Ho, Ei. split_and!; [done|done|done|].
  destruct (countKey k buf) eqn:E; [|lia]. apply countKey_firstIndex in E. congruence.
Qed.

Lemma scanned_counts buf o c e k i :
  scanned buf o c e -> firstIndex (keyed k) buf = Some i ->
  (k, Z.of_nat (countKey k buf)) ∈ map_to_list c.
Proof.
  intros [Ho Hc Hd _] Hi. apply elem_of_map_to_list.
  assert (is_Some (c !! k)) as [n Hn] by (apply Hd; rewrite Ho, Hi; eauto).
  specialize (Hc k). rewrite Hn in *. simpl in Hc. by subst.
Qed.

Lemma no_key_all buf :
  (forall k, firstIndex (keyed k) buf = None) -> Forall (fun x => forall k, ~ keyed k x) buf.
Proof.
  intros H. apply Forall_forall. intros x Hx k.
  exact (proj1 (Forall_forall _ _) (firstIndex_None (keyed k) buf (H k)) x Hx).
Qed.

Lemma selectVictimIn_correct order buf :
  (forall c : gmap string Z, order c ≡ₚ map_to_list c) -> victimOf buf (selectVictimIn order buf).
Proof.
  intros Hord. unfold selectVictimIn. pose proof (scanVictims_all buf) as Hs.
  destruct (scanVictims 0 buf ∅ ∅ (-1)) as [[o c] e].
  pose proof (busiestKey_best o (order c) (-1) 0) as Hbest. simpl in Hbest.
  assert (Hentry : forall x, x ∈ order c -> x ∈ map_to_list c) by (intros x; by rewrite (Hord c)).
  destruct Hbest as [[-> HF]|([k n] & Hin & -> & HF & _)]; simpl.
  - assert (Hnone : forall k, firstIndex (keyed k) buf = None).
    { intros k. destruct (firstIndex (keyed k) buf) as [i|] eqn:Ei; [|done]. exfalso.
      assert (Hin : (k, Z.of_nat (countKey k buf)) ∈ order c) by (rewrite (Hord c); by eapply scanned_counts).
      pose proof (scanned_entry _ _ _ _ _ _ Hs (Hentry _ Hin)) as (? & _ & _ & _ & Hpos).
      pose proof (proj1 (Forall_forall _ _) HF _ Hin) as Hlt. simpl in Hlt. lia. }
    rewrite (scanned_ephemeral _ _ _ _ Hs). destruct (firstIndex ephemeral buf) as [i|] eqn:Ei; simpl.
    + right. pose proof (firstIndex_Some ephemeral _ _ Ei) as (r & Hr & Heph & _).
      exists i, r. split_and!; [done|done|done|]. right. split; [by apply no_key_all|done].
    + left. split; [done|]. eapply Forall_impl; [by eapply firstIndex_None|].
      intros x Hx. exact Hx.
  - destruct (scanned_entry _ _ _ _ _ _ Hs (Hentry _ Hin)) as (i & Hi & Ho & -> & _).
    rewrite Ho, (proj2 (Z.leb_le _ _)) by lia. right.
    pose proof (firstIndex_Some (keyed k) _ _ Hi) as (r & Hr & (Heph & <- & Hne) & _).
    exists i, r. split_and!; [done|done|done|]. left. split_and!; [done|done|].
    intros k' j Hj. pose proof (scanned_counts _ _ _ _ _ _ Hs Hj) as Hc'.
    assert (Hin' : (k', Z.of_nat (countKey k' buf)) ∈ order c) by by rewrite (Hord c).
    destruct (scanned_entry _ _ _ _ _ _ Hs Hc') as (j' & Hj' & Ho' & _). simplify_eq.
    pose proof (proj1 (Forall_forall _ _) HF _ Hin') as Hb. unfold beats in Hb. simpl in Hb. lia.
Qed.

(** The promise determines the answer. *)
Lemma victimOf_unique buf v v' : victimOf buf v -> victimOf buf v' -> v = v'.
Proof.
  assert (Hdur : forall i r, buf !! i = Some r -> ephemeral r -> ~ Forall durable buf).
  { intros i r Hr He HF. pose proof (Forall_lookup_1 _ _ _ _ HF Hr) as Hd. exact (Hd He). }
  intros [[-> HF]|(i & r & -> & Hr & He & Hi)] [[-> HF']|(i' & r' & -> & Hr' & He' & Hi')];
    [done|by edestruct Hdur|by edestruct Hdur|]. f_equal.
  destruct Hi as [(Hk & Hf & Hb)|[Hn Hf]], Hi' as [(Hk' & Hf' & Hb')|[Hn' Hf']].
  - destruct (Hb _ _ Hf'), (Hb' _ _ Hf); lia.
  - destruct (Forall_lookup_1 _ _ _ _ Hn' Hr (CoalesceKey r)). by repeat split.
  - destruct (Forall_lookup_1 _ _ _ _ Hn Hr' (CoalesceKey r')). by repeat split.
  - congruence.
Qed.

Lemma selectVictim_correct buf : victimOf buf (selectVictim buf).
Proof. by apply selectVictimIn_correct. Qed.

Lemma selectVictim_range buf :
  (selectVictim buf < 0 -> Forall durable buf) /\
  (0 <= selectVictim buf ->
   exists r, buf !! Z.to_nat (selectVictim buf) = Some r /\ ephemeral r).
Proof.
  destruct (selectVictim_correct buf) as [[-> HF]|(i & r & -> & Hr & He & _)]; split; intros H.
  - done.
  - lia.
  - lia.
  - rewrite Nat2Z.id. eauto.
Qed.

(** ** What an [Enqueue] does, rule by rule *)
Inductive enqueued (q : Queue) (r : Record_) : option error -> Queue -> Prop :=
| enqueued_closed : closed q = true -> enqueued q r (Some ErrQueueClosed) q
| enqueued_room :
    closed q = false -> Len q < capacity q ->
    enqueued q r None (MkQueue (capacity q) false (buf q ++ [r]))
| enqueued_evict before x after :
    closed q = false -> capacity q <= Len q -> buf q = before ++ x :: after ->
    ephemeral x -> victimOf (buf q) (Z.of_nat (length before)) ->
    enqueued q r None (MkQueue (capacity q) false (before ++ after ++ [r]))
| enqueued_drop :
    closed q = false -> capacity q <= Len q -> Forall durable (buf q) -> ephemeral r ->
    enqueued q r (Some ErrDropped) q
| enqueued_overflow :
    closed q = false -> capacity q <= Len q -> Forall durable (buf q) -> durable r ->
    enqueued q r (Some ErrOverflow) q.

Lemma Enqueue_rules q r : enqueued q r (Enqueue r q).1 (Enqueue r q).2.
Proof.
  unfold Enqueue. destruct (closed q) eqn:Hc; [by constructor|].
  destruct (Len q <? capacity q) eqn:Hl; reflect_guards; [by constructor|].
  destruct (selectVictim_range (buf q)) as [Hneg Hpos].
  destruct (selectVictim (buf q) <? 0) eqn:Hv; reflect_guards.
  - destruct (droppable_spec r) as [Hd|Hd]; simpl; constructor; auto.
  - destruct (Hpos Hv) as (x & Hx & He). simpl.
    pose proof (take_drop_middle _ _ _ Hx) as Hb. pose proof (lookup_lt_Some _ _ _ Hx).
    eapply enqueued_evict; [done|done|by rewrite <- Hb at 1|done|].
    rewrite length_take, Nat.min_l, Z2Nat.id by lia. apply selectVictim_correct.
Qed.

Lemma ephemeral_not_durable r : ephemeral r -> ~ durable r.
Proof. intros He Hd. exact (Hd He). Qed.

Lemma selectVictim_all_durable buf : Forall durable buf -> (selectVictim buf <? 0) = true.
Proof.
  intros Hd. destruct (selectVictim buf <? 0) eqn:Hn; [done|]. reflect_guards.
  destruct (selectVictim_range buf) as [_ Hpos]. destruct (Hpos Hn) as (y & Hy & He).
  by destruct (ephemeral_not_durable y He (Forall_lookup_1 _ _ _ _ Hd Hy)).
Qed.

Lemma enqueued_functional q r e q' : enqueued q r e q' -> Enqueue r q = (e, q').
Proof.
  unfold Enqueue. intros [Hc|Hc Hl|b x a Hc Hl Hb He Hv|Hc Hl Hd Hr|Hc Hl Hd Hr]; rewrite Hc; [done|..].
  - by rewrite (proj2 (Z.ltb_lt _ _)).
  - rewrite (proj2 (Z.ltb_ge _ _)) by done.
    rewrite (victimOf_unique _ _ _ (selectVictim_correct _) Hv), (proj2 (Z.ltb_ge _ _)) by lia.
    rewrite Nat2Z.id, Hb, take_app_length.
    replace (b ++ x :: a) with ((b ++ [x]) ++ a) by by rewrite <- app_assoc.
    rewrite drop_app_length' by (rewrite length_app; simpl; lia). done.
  - rewrite (proj2 (Z.ltb_ge _ _)), selectVictim_all_durable by done. by rewrite (proj2 (droppable_true _) Hr).
  - rewrite (proj2 (Z.ltb_ge _ _)), selectVictim_all_durable by done. by rewrite (proj2 (droppable_false _) Hr).
Qed.

(** The durable records of the buffer, in order: an [Enqueue] only appends. *)
Lemma Enqueue_durable r q e q' :
  Enqueue r q = (e, q') ->
  filter durable (buf q') = filter durable (buf q) ++ (if e then [] else filter durable [r]).
Proof.
  intros HE. pose proof (Enqueue_rules q r) as Hr. rewrite HE in Hr. simpl in Hr.
  destruct Hr as [| |b x a Hc Hl -> He Hv| |]; simpl; rewrite ?app_nil_r; try done.
  - by rewrite filter_app.
  - rewrite !filter_app, (filter_cons_False durable x a (ephemeral_not_durable _ He)).
    by rewrite <- app_assoc.
Qed.

Lemma Enqueue_refused r q e q' : Enqueue r q = (Some e, q') -> q' = q.
Proof.
  intros HE. pose proof (Enqueue_rules q r) as Hr. rewrite HE in Hr. simpl in Hr. by inversion Hr.
Qed.

(** [wf]: composed with at least one slot, never above the bound, and empty
    once closed. *)
Record wf (q : Queue) : Prop := {
  wf_capacity : 1 <= capacity q;
  wf_bound : Len q <= capacity q;
  wf_closed : closed q = true -> buf q = []
}.

Inductive queue_step (q : Queue) : Queue -> Prop :=
| step_Enqueue r : queue_step q (Enqueue r q).2
| step_Clear : queue_step q (Clear q)
| step_Next : queue_step q (Next q).2
| step_Repair control : queue_step q (Repair control q).2
| step_Close : queue_step q (Close q).

Lemma Enqueue_wf r q : wf q -> wf (Enqueue r q).2.
Proof.
  intros [Hcap Hb Hcl]. destruct (Enqueue_rules q r) as [| |b x a Hc Hl Hbuf He Hv| |];
    split; simpl; auto; try done; unfold Len in *; simpl.
  - rewrite length_app. simpl. lia.
  - rewrite Hbuf in Hb. rewrite !length_app in *. simpl in *. lia.
Qed.

Lemma queue_step_wf q q' : wf q -> queue_step q q' -> wf q'.
Proof.
  intros Hwf []; [by apply Enqueue_wf|..]; destruct Hwf as [Hcap Hb Hcl];
    unfold Clear, Next, Repair, Close; branches; split; unfold Len in *; simpl; auto; try done; try lia.
  match goal with H : buf q = _ |- _ => rewrite H in Hb; simpl in Hb; lia end.
Qed.

#[export] Hint Resolve Enqueue_wf queue_step_wf : factory.

(** C32: Enqueue answers exactly as its doc comment's three outcomes say (and
    [ErrQueueClosed] on a closed queue): the record is taken when there is
    room; on a full queue the best ephemeral victim gives its place up; with
    no ephemeral record an ephemeral arrival is dropped and a durable one
    overflows, both leaving the queue unchanged. *)
Theorem enqueue_refines_policy (q : Queue) (r : Record_) (e : option error) (q' : Queue) :
  Enqueue r q = (e, q') <-> enqueued q r e q'.
Proof.
  split; [|apply enqueued_functional]. intros HE.
  pose proof (Enqueue_rules q r) as Hr. by rewrite HE in Hr.
Qed.

(** C1: No sequence of operations but Repair, Clear and Close discards an
    enduring or control record: an Enqueue that answers nil appends the
    arrival to the durable records already queued, in order, and one that
    answers an error leaves the whole buffer as it was. *)
Theorem enqueue_never_discards_durable (q : Queue) (r : Record_) :
  let '(e, q') := Enqueue r q in
  match e with
  | None => filter durable (buf q') = filter durable (buf q) ++ filter durable [r] /\ last (buf q') = Some r
  | Some _ => q' = q
  end.
Proof.
  pose proof (Enqueue_rules q r) as Hr. destruct (Enqueue r q) as [e q'] eqn:HE.
  pose proof (Enqueue_durable _ _ _ _ HE) as Hd. simpl in Hr.
  destruct e; [by eapply Enqueue_refused|]. split; [done|].
  inversion Hr; subst; simpl; rewrite ?app_assoc; apply last_snoc.
Qed.

(** The victim is a function of the buffer alone: whatever order Go ranges
    over the key counts in, selectVictim answers the same index, and that
    index is the oldest member of the busiest declared key (ties to the older
    key), else the oldest ephemeral record, else -1. *)
Theorem selectVictim_order_independent (order : gmap string Z -> list (string * Z)) (buf : list Record_) :
  (forall c : gmap string Z, order c ≡ₚ map_to_list c) ->
  selectVictimIn order buf = selectVictim buf /\ victimOf buf (selectVictim buf).
Proof.
  intros Hord. split; [|apply selectVictim_correct].
  apply (victimOf_unique buf); [by apply selectVictimIn_correct|apply selectVictim_correct].
Qed.

(** Every queue reachable from NewQueue by any sequence of operations holds
    at most its capacity of records, and a closed one holds none. *)
Theorem queue_bounded (cap : Z) (q : Queue) :
  reachable (fun q0 => NewQueue cap = Ok q0) queue_step q -> wf q.
Proof.
  apply reachable_invariant; [|apply queue_step_wf].
  intros q0. unfold NewQueue. case_match; [done|]. reflect_guards. intros. simplify_eq/=.
  split; unfold Len; simpl; [lia|lia|done].
Qed.

(** A parsed enduring publication forwards the caller's bytes unchanged,
    names the sequence it was committed at as its coverage, and that sequence
    is not above the Host's committed append; a refusal is one of the four
    classes, each reported for its own cause only. *)
Theorem parse_enduring_sound {codec : SessionCodec} {laws : SessionCodecLaws codec}
    (encoded : bytes) (committed : Z) :
  match ParseEnduring encoded committed with
  | Ok e =>
      Record_of e = MkRecord ClassEnduring encoded (JournalSeq e) "" /\
      CoveredThrough e = JournalSeq e /\ JournalSeq e <= committed /\ is_u64 (JournalSeq e)
  | Fail err =>
      (SessionRecordTypeOf encoded <> Ok SessionRecordTypeEnduringPublication /\
         exists rest, err = wrapf (ErrNotEnduring :: rest)) \/
      (exists cause, unmarshalEnduring encoded = Fail cause /\
         err = wrapf [if bool_decide (validationField cause = Some "covered_through"%string)
                      then ErrWatermarkNotItsEventSequence else ErrMalformed; cause]) \/
      (exists p, unmarshalEnduring encoded = Ok p /\ committed < pub_JournalSeq p /\
         err = wrapf [ErrWatermarkAboveCommitted])
  end.
Proof.
  unfold ParseEnduring.
  destruct (SessionRecordTypeOf encoded) as [ty|err] eqn:Ht; [|left; eauto].
  destruct (negb _) eqn:Hty; reflect_guards; [left; split; [congruence|eauto]|].
  destruct (unmarshalEnduring encoded) as [p|err] eqn:Hu.
  - pose proof (enduring_covers_itself _ _ Hu) as Hc. pose proof (enduring_is_u64 _ _ Hu).
    destruct (committed <? _) eqn:Hlt; reflect_guards; simpl.
    + right. right. exists p. split_and!; [done|lia|done].
    + unfold Record_of. simpl. split_and!; auto. lia.
  - destruct (bool_decide (validationField err = _)) eqn:Hb; right; left; exists err; by rewrite ?Hb.
Qed.

(** ** Witnesses *)
Definition demo_record (c : Class_) (n : Z) (k : string) : Record_ := MkRecord c "x" n k.

(** A full queue of two keys: the busier key's oldest member goes. *)
Example enqueue_evicts_busiest :
  Enqueue (demo_record ClassEnduring 9 "")
    (MkQueue 4 false [demo_record ClassEnduring 1 ""; demo_record ClassEphemeral 0 "a";
                      demo_record ClassEphemeral 0 "b"; demo_record ClassEphemeral 0 "b"])
  = (None, MkQueue 4 false [demo_record ClassEnduring 1 ""; demo_record ClassEphemeral 0 "a";
                            demo_record ClassEphemeral 0 "b"; demo_record ClassEnduring 9 ""]).
Proof. vm_compute. reflexivity. Qed.

Lemma selectVictim_order_independent_witness :
  selectVictimIn (fun c => reverse (map_to_list c))
    [demo_record ClassEphemeral 0 "a"; demo_record ClassControl 0 "";
     demo_record ClassEphemeral 0 "b"; demo_record ClassEphemeral 0 "b"] = 2.
Proof.
  destruct (selectVictim_order_independent (fun c => reverse (map_to_list c))
    [demo_record ClassEphemeral 0 "a"; demo_record ClassControl 0 "";
     demo_record ClassEphemeral 0 "b"; demo_record ClassEphemeral 0 "b"]) as [-> _].
  - intros c. apply reverse_Permutation.
  - vm_compute. reflexivity.
Defined.

Lemma queue_bounded_witness :
  wf (MkQueue 1 false [demo_record ClassControl 0 ""]).
Proof.
  apply (queue_bounded 1).
  eapply (reach_step _ _ (MkQueue 1 false [])); [by apply reach_init|].
  exact (step_Repair _ (demo_record ClassControl 0 "")).
Defined.

Lemma parse_enduring_sound_witness :
  exists e, @ParseEnduring demo_codec "exxx" 7 = Ok e /\ JournalSeq e = 3 /\ JournalSeq e <= 7.
Proof.
  pose proof (@parse_enduring_sound demo_codec _ "exxx" 7) as H.
  assert (exists e, @ParseEnduring demo_codec "exxx" 7 = Ok e /\ JournalSeq e = 3) as (e & He & Hs)
    by (eexists; split; vm_compute; reflexivity).
  exists e. rewrite He in H. destruct H as (_ & _ & Hle & _). auto.
Defined.
