(* ===== verification/Bindings.v ===== *)
(** * The local routing table (src/internal/routing/bindings.go)

    [Bindings] with [Acquire], [Release], [Deliver], [Observe], [Binding],
    [Demand], [Len], [Close] and the unexported [routeLocked], [bindLocked],
    [bindRequest], [unbindRequest] and [bindIdempotencyKey]. The table's mutex
    is held across each operation (the command RPC of [Deliver] apart, which
    touches no table state), so an operation is a function on the table and on
    the environment [W] behind the two interfaces it calls, [Resolver] and
    [Binder]. Every theorem holds for every environment. *)

From S2P Require Import Prelude Wire Framing.

Definition ErrInvalidConfig : error := sentinel "routing.ErrInvalidConfig".
Definition ErrBindingsClosed : error := sentinel "routing.ErrBindingsClosed".
Definition ErrNoOwner : error := sentinel "routing.ErrNoOwner".
Definition ErrUnroutableOwner : error := sentinel "routing.ErrUnroutableOwner".
Definition ErrNoBinding : error := sentinel "routing.ErrNoBinding".
Definition ErrNoDemand : error := sentinel "routing.ErrNoDemand".
Definition ErrRouteGone : errtag := Sentinel "routing.ErrRouteGone".

(** [type Resolver interface]: the authoritative owner of a session, if any. *)
Class Resolver (W : Type) := {
  Owner : TenantID -> SessionID -> W -> result (option HostLinkRegistryObservation) * W
}.

(** [type Binder interface], with the optional [RouteReporter] capability. *)
Class Binder (W : Type) := {
  binder_Bind : InternalEndpoint -> HostLinkBindRequest -> W -> option error * W;
  binder_Unbind : HostLinkUnbindRequest -> W -> option error * W;
  binder_DeliverCommand : TenantID -> SessionID -> CommandID -> W -> option error * W;
  binder_RouteHeld : option (TenantID -> SessionID -> W -> bool)
}.

(** What bindings.go takes from Core and the Go library: the validation of a
    bind request and the hex digest of the framed tuple. *)
Class BindingPrimitives := {
  validateBind : HostLinkBindRequest -> option error;
  sha256hex : string -> string
}.

Record BindingKey := MkBindingKey {
  bk_TenantID : TenantID;
  bk_SessionID : SessionID;
  bk_HostID : HostID;
  bk_HostGeneration : Z;
  bk_LeaseEpoch : Z
}.

#[global] Instance BindingKey_eq_dec : EqDecision BindingKey.
Proof. solve_decision. Defined.

Record Binding_ := MkBinding {
  Key : BindingKey;
  Endpoint : InternalEndpoint;
  RuntimeCompatibilityID : string
}.

Definition zeroBinding : Binding_ := MkBinding (MkBindingKey "" "" "" 0 0) "" "".

Record sessionRoute := MkRoute { demand : Z; binding : Binding_; bound : bool }.

Record Bindings_ := MkBindings { closed : bool; sessions : gmap sessionKey sessionRoute }.

Definition NewBindings : Bindings_ := MkBindings false ∅.

Section Table.
Context `{BindingPrimitives} {W : Type} `{Resolver W} `{Binder W}.

Definition bindIdempotencyKey (key : BindingKey) : string :=
  sha256hex (framed ["hostbind/v1"; bk_TenantID key; bk_SessionID key; bk_HostID key;
                     formatUint (bk_HostGeneration key); formatUint (bk_LeaseEpoch key)]).

Definition bindRequest (b : Binding_) : HostLinkBindRequest :=
  BindRequest (bk_TenantID (Key b)) (bk_SessionID (Key b)) (bk_HostID (Key b))
    (bk_HostGeneration (Key b)) (bk_LeaseEpoch (Key b)) (RuntimeCompatibilityID b)
    (bindIdempotencyKey (Key b)).

Definition unbindRequest (b : Binding_) : HostLinkUnbindRequest :=
  UnbindRequest (bk_TenantID (Key b)) (bk_SessionID (Key b)) (bk_HostID (Key b))
    (bk_HostGeneration (Key b)) (bk_LeaseEpoch (Key b)) (bindIdempotencyKey (Key b)).

(** [transportHolds]: true when the Binder cannot say. *)
Definition transportHolds (key : sessionKey) (w : W) : bool :=
  match binder_RouteHeld with
  | None => true
  | Some held => held (key_tenant key) (key_session key) w
  end.

Definition bindLocked (key : sessionKey) (w : W) : result Binding_ * W :=
  let '(observed, w) := Owner (key_tenant key) (key_session key) w in
  match observed with
  | Fail err => (Fail err, w)
  | Ok None => (Fail ErrNoOwner, w)
  | Ok (Some observed) =>
      let b := MkBinding
        (MkBindingKey (key_tenant key) (key_session key) (obs_HostID observed)
           (obs_HostGeneration observed) (obs_LeaseEpoch observed))
        (obs_InternalEndpoint observed) (obs_RuntimeCompatibilityID observed) in
      let req := bindRequest b in
      match validateBind req with
      | Some err => (Fail (wrapf [ErrUnroutableOwner; err]), w)
      | None =>
          let '(err, w) := binder_Bind (Endpoint b) req w in
          match err with
          | Some err => (Fail err, w)
          | None => (Ok b, w)
          end
      end
  end.

(** [routeLocked]: the session's route, binding it if the table holds none. *)
Definition routeLocked (key : sessionKey) (t : Bindings_) (w : W) : result sessionRoute * Bindings_ * W :=
  match sessions t !! key with
  | Some (MkRoute d b true) => (Ok (MkRoute d b true), t, w)
  | route =>
      let '(bound, w) := bindLocked key w in
      match bound with
      | Fail err => (Fail err, t, w)
      | Ok b =>
          let d := match route with Some r => demand r | None => 0 end in
          let r := MkRoute d b true in
          (Ok r, MkBindings (closed t) (<[key := r]> (sessions t)), w)
      end
  end.

Definition Acquire (key : sessionKey) (t : Bindings_) (w : W) : result Binding_ * Bindings_ * W :=
  if closed t then (Fail ErrBindingsClosed, t, w)
  else
    let '(route, t, w) := routeLocked key t w in
    match route with
    | Fail err => (Fail err, t, w)
    | Ok r =>
        let r := MkRoute (demand r + 1) (binding r) (bound r) in
        (Ok (binding r), MkBindings (closed t) (<[key := r]> (sessions t)), w)
    end.

Definition Release (key : sessionKey) (t : Bindings_) (w : W) : option error * Bindings_ * W :=
  if closed t then (Some ErrBindingsClosed, t, w)
  else
    match sessions t !! key with
    | None => (Some ErrNoDemand, t, w)
    | Some route =>
        if demand route =? 0 then (Some ErrNoDemand, t, w)
        else
          let d := demand route - 1 in
          if 0 <? d then
            (None, MkBindings (closed t) (<[key := MkRoute d (binding route) (bound route)]> (sessions t)), w)
          else
            let t := MkBindings (closed t) (delete key (sessions t)) in
            if negb (bound route) then (None, t, w)
            else let '(err, w) := binder_Unbind (unbindRequest (binding route)) w in (err, t, w)
    end.

Definition Deliver (key : sessionKey) (command : CommandID) (t : Bindings_) (w : W)
    : option error * Bindings_ * W :=
  if closed t then (Some ErrBindingsClosed, t, w)
  else
    let missing := match sessions t !! key with
                   | None => true
                   | Some route => demand route =? 0
                   end in
    if missing then (Some ErrNoBinding, t, w)
    else
      let '(route, t, w) := routeLocked key t w in
      match route with
      | Fail err => (Some err, t, w)
      | Ok r =>
          let target := Key (binding r) in
          let '(err, w) := binder_DeliverCommand (bk_TenantID target) (bk_SessionID target) command w in
          (err, t, w)
      end.

Definition Observe (observed : HostLinkRegistryObservation) (t : Bindings_) (w : W) : bool * Bindings_ * W :=
  let key := SessionKey (obs_TenantID observed) (obs_SessionID observed) in
  if closed t then (false, t, w)
  else
    match sessions t !! key with
    | None => (false, t, w)
    | Some route =>
        if negb (bound route) then (false, t, w)
        else
          let held := Key (binding route) in
          if obs_LeaseEpoch observed <? bk_LeaseEpoch held then (false, t, w)
          else if bool_decide (obs_HostID observed = bk_HostID held) &&
                  (obs_HostGeneration observed =? bk_HostGeneration held) &&
                  (obs_LeaseEpoch observed =? bk_LeaseEpoch held)
          then (false, t, w)
          else
            let dropped := binding route in
            let t := MkBindings (closed t) (<[key := MkRoute (demand route) zeroBinding false]> (sessions t)) in
            let '(_, w) := binder_Unbind (unbindRequest dropped) w in
            (true, t, w)
    end.

Definition Binding (key : sessionKey) (t : Bindings_) : option Binding_ :=
  match sessions t !! key with
  | Some route => if bound route then Some (binding route) else None
  | None => None
  end.

Definition Demand (key : sessionKey) (t : Bindings_) : Z :=
  match sessions t !! key with Some route => demand route | None => 0 end.

Definition Len (t : Bindings_) : Z := Z.of_nat (size (sessions t)).

(** The body of [Close]'s loop over the table's entries, in the order Go
    ranges over them. *)
Fixpoint closeRoutes (routes : list (sessionKey * sessionRoute)) (w : W) : list error * W :=
  match routes with
  | [] => ([], w)
  | (_, route) :: rest =>
      if negb (bound route) then closeRoutes rest w
      else
        let '(err, w) := binder_Unbind (unbindRequest (binding route)) w in
        let '(failures, w) := closeRoutes rest w in
        match err with
        | Some err => if errors_is err ErrRouteGone then (failures, w) else (err :: failures, w)
        | None => (failures, w)
        end
  end.

Definition Close (range : gmap sessionKey sessionRoute -> list (sessionKey * sessionRoute))
    (t : Bindings_) (w : W) : option error * Bindings_ * W :=
  let '(failures, w) := closeRoutes (range (sessions t)) w in
  (errors_join failures, MkBindings true ∅, w).

End Table.

(** ** The calls a table makes of its Binder

    [W * list bcall] is any environment with the Binder's calls recorded, oldest
    first; an unbind is recorded when it is sent, whatever the Host answers. What
    follows is about that record, which is all a table answers for: what a
    transport still holds is its own affair, and another writer of it can drop a
    route under the table, which is what [transportHolds] asks. *)
Inductive bcall :=
| CallBind (endpoint : InternalEndpoint) (req : HostLinkBindRequest) (accepted : bool)
| CallUnbind (req : HostLinkUnbindRequest)
| CallDeliver (tenant : TenantID) (session : SessionID) (command : CommandID).

#[global] Instance logged_resolver {W} `{Resolver W} : Resolver (W * list bcall) := {|
  Owner tenant session w :=
    let '(r, w') := Owner tenant session w.1 in (r, (w', w.2))
|}.

#[global] Instance logged_binder {W} `{Binder W} : Binder (W * list bcall) := {|
  binder_Bind endpoint req w :=
    let '(err, w') := binder_Bind endpoint req w.1 in
    (err, (w', w.2 ++ [CallBind endpoint req (if err then false else true)]));
  binder_Unbind req w :=
    let '(err, w') := binder_Unbind req w.1 in (err, (w', w.2 ++ [CallUnbind req]));
  binder_DeliverCommand tenant session command w :=
    let '(err, w') := binder_DeliverCommand tenant session command w.1 in
    (err, (w', w.2 ++ [CallDeliver tenant session command]));
  binder_RouteHeld := (fun held tenant session (w : W * list bcall) => held tenant session w.1) <$> binder_RouteHeld
|}.

Section Transport.
Context `{BindingPrimitives}.

Definition bind_key (req : HostLinkBindRequest) : sessionKey := SessionKey (bind_TenantID req) (bind_SessionID req).
Definition unbind_key (req : HostLinkUnbindRequest) : sessionKey := SessionKey (unbind_TenantID req) (unbind_SessionID req).
Definition key_of (k : BindingKey) : sessionKey := SessionKey (bk_TenantID k) (bk_SessionID k).

Definition bind_tuple (req : HostLinkBindRequest) : BindingKey :=
  MkBindingKey (bind_TenantID req) (bind_SessionID req) (bind_HostID req)
    (bind_HostGeneration req) (bind_LeaseEpoch req).

(** The routes bound and not given back after a call. *)
Definition apply_call (m : gmap sessionKey BindingKey) (c : bcall) : gmap sessionKey BindingKey :=
  match c with
  | CallBind _ req true => <[bind_key req := bind_tuple req]> m
  | CallBind _ _ false => m
  | CallUnbind req => delete (unbind_key req) m
  | CallDeliver _ _ _ => m
  end.

Definition unreturned (log : list bcall) : gmap sessionKey BindingKey := foldl apply_call ∅ log.

(** A call that is in order: a bind only for a session whose last route was given
    back, an unbind that names exactly the route bound, with that bind's own
    idempotency key, a delivery only over a route. *)
Definition ok_call (m : gmap sessionKey BindingKey) (c : bcall) : Prop :=
  match c with
  | CallBind _ req _ => m !! bind_key req = None
  | CallUnbind req =>
      exists k, m !! unbind_key req = Some k /\
        req = UnbindRequest (bk_TenantID k) (bk_SessionID k) (bk_HostID k) (bk_HostGeneration k)
                (bk_LeaseEpoch k) (bindIdempotencyKey k)
  | CallDeliver tenant session _ => is_Some (m !! SessionKey tenant session)
  end.

Definition disciplined (log : list bcall) : Prop :=
  forall pre c post, log = pre ++ c :: post -> ok_call (unreturned pre) c.

Lemma unreturned_snoc log c : unreturned (log ++ [c]) = apply_call (unreturned log) c.
Proof. unfold unreturned. by rewrite foldl_app. Qed.

Lemma disciplined_snoc log c : disciplined log -> ok_call (unreturned log) c -> disciplined (log ++ [c]).
Proof.
  intros Hd Hc pre c' post Heq. destruct post as [|p post _] using rev_ind.
  - apply app_inj_tail in Heq as [-> ->]. done.
  - rewrite app_comm_cons, app_assoc in Heq. apply app_inj_tail in Heq as [-> _]. by eapply Hd.
Qed.

(** The calls that bind or give back a session's routes. *)
Definition concerns (key : sessionKey) (c : bcall) : bool :=
  match c with
  | CallBind _ req true => bool_decide (bind_key req = key)
  | CallUnbind req => bool_decide (unbind_key req = key)
  | _ => false
  end.

Definition route_calls (key : sessionKey) (log : list bcall) : list bcall := filter (fun c => concerns key c = true) log.

(** A session's calls take turns: an accepted bind, then the unbind of that very
    tuple under that bind's idempotency key, and so on; the route is the one of a
    last bind that has had no unbind. *)
Inductive taking_turns : list bcall -> option BindingKey -> Prop :=
| turns_none : taking_turns [] None
| turns_bind calls endpoint req :
    taking_turns calls None -> taking_turns (calls ++ [CallBind endpoint req true]) (Some (bind_tuple req))
| turns_unbind calls k :
    taking_turns calls (Some k) ->
    taking_turns (calls ++ [CallUnbind (UnbindRequest (bk_TenantID k) (bk_SessionID k) (bk_HostID k) (bk_HostGeneration k)
      (bk_LeaseEpoch k) (bindIdempotencyKey k))]) None.

Lemma disciplined_init log c : disciplined (log ++ [c]) -> disciplined log /\ ok_call (unreturned log) c.
Proof.
  intros Hd. split; [|by apply (Hd log c [])]. intros pre c' post ->. apply (Hd pre c' (post ++ [c])). by rewrite <- app_assoc.
Qed.

Lemma disciplined_turns log : disciplined log -> forall key, taking_turns (route_calls key log) (unreturned log !! key).
Proof.
  induction log as [|c log IH] using rev_ind; intros Hd key; [constructor|].
  apply disciplined_init in Hd as [Hd Hc]. specialize (IH Hd). rewrite unreturned_snoc. unfold route_calls in *. rewrite filter_app.
  assert (Hskip : concerns key c = false -> filter (fun c => concerns key c = true) [c] = [])
    by (intros Hf; rewrite filter_cons_False; [done|congruence]).
  assert (Htake : concerns key c = true -> filter (fun c => concerns key c = true) [c] = [c]) by (intros Ht; by rewrite filter_cons_True).
  destruct c as [endpoint req [|]|req|tenant session command]; simpl in *;
    try (rewrite Hskip, app_nil_r by done; apply IH).
  - destruct (decide (bind_key req = key)) as [Hk|Hk].
    + rewrite Htake by (by apply bool_decide_eq_true). subst key. rewrite lookup_insert_eq. apply turns_bind. rewrite <- Hc. apply IH.
    + rewrite Hskip, app_nil_r, lookup_insert_ne by (done || by apply bool_decide_eq_false). apply IH.
  - destruct Hc as (k & Hm & ->). destruct (decide (SessionKey (bk_TenantID k) (bk_SessionID k) = key)) as [Hk|Hk].
    + rewrite Htake by (by apply bool_decide_eq_true). unfold unbind_key in *. simpl in *. rewrite Hk in *. rewrite lookup_delete_eq.
      apply turns_unbind. rewrite <- Hm. apply IH.
    + rewrite Hskip, app_nil_r, lookup_delete_ne by (done || by apply bool_decide_eq_false). apply IH.
Qed.

(** The route the table claims for a session. *)
Definition table_route (t : Bindings_) (key : sessionKey) : option BindingKey := Key <$> Binding key t.

Record agrees (t : Bindings_) (log : list bcall) : Prop := {
  agrees_routes : forall key, unreturned log !! key = table_route t key;
  agrees_keys : forall key k, table_route t key = Some k -> key_of k = key;
  agrees_log : disciplined log
}.

Lemma table_route_insert c m key r key' :
  table_route (MkBindings c (<[key := r]> m)) key' =
  if decide (key = key') then (if bound r then Some (Key (binding r)) else None)
  else table_route (MkBindings c m) key'.
Proof.
  unfold table_route, Binding. simpl. rewrite lookup_insert. case_decide; [|done]. by destruct (bound r).
Qed.

Lemma table_route_delete c m key key' :
  table_route (MkBindings c (delete key m)) key' =
  if decide (key = key') then None else table_route (MkBindings c m) key'.
Proof. unfold table_route, Binding. simpl. rewrite lookup_delete. by case_decide. Qed.

Lemma table_route_closed c c' m key : table_route (MkBindings c m) key = table_route (MkBindings c' m) key.
Proof. done. Qed.

(** Changes of the table and the log that keep the two in step. *)
Lemma agrees_unchanged t t' log :
  agrees t log -> (forall key, table_route t' key = table_route t key) -> agrees t' log.
Proof. intros [Hr Hk Hl] Heq. split; [intros key; by rewrite Heq|intros key k; rewrite Heq; auto|done]. Qed.

Lemma agrees_call t log c :
  agrees t log -> ok_call (unreturned log) c -> apply_call (unreturned log) c = unreturned log ->
  agrees t (log ++ [c]).
Proof.
  intros [Hr Hk Hl] Hok Heq. split; [|done|by apply disciplined_snoc].
  intros key. by rewrite unreturned_snoc, Heq.
Qed.

Lemma agrees_bind t log key b d e :
  agrees t log -> table_route t key = None -> key_of (Key b) = key ->
  agrees (MkBindings (closed t) (<[key := MkRoute d b true]> (sessions t)))
         (log ++ [CallBind e (bindRequest b) true]).
Proof.
  intros [Hr Hk Hl] Hnone Hkey. split.
  - intros key'. rewrite unreturned_snoc. simpl. rewrite lookup_insert, table_route_insert. simpl.
    change (bind_key (bindRequest b)) with (key_of (Key b)). rewrite Hkey.
    case_decide; [by destruct b as [[] ? ?]|]. rewrite Hr. by destruct t.
  - intros key' k. rewrite table_route_insert. simpl. case_decide; intros; simplify_eq; [done|].
    eapply Hk. by destruct t.
  - apply disciplined_snoc; [done|]. simpl. change (bind_key (bindRequest b)) with (key_of (Key b)).
    by rewrite Hkey, Hr.
Qed.

(** Dropping the route of [key], however the table records the drop. *)
Lemma agrees_unbind t t' log key r :
  agrees t log -> sessions t !! key = Some r -> bound r = true ->
  (forall key', table_route t' key' = if decide (key = key') then None else table_route t key') ->
  agrees t' (log ++ [CallUnbind (unbindRequest (binding r))]).
Proof.
  intros [Hr Hk Hl] Hs Hb Ht'.
  assert (Hroute : table_route t key = Some (Key (binding r))).
  { unfold table_route, Binding. by rewrite Hs, Hb. }
  pose proof (Hk _ _ Hroute) as Hkey. split.
  - intros key'. rewrite unreturned_snoc, Ht'. simpl.
    change (unbind_key (unbindRequest (binding r))) with (key_of (Key (binding r))).
    rewrite Hkey, lookup_delete. case_decide; [done|apply Hr].
  - intros key' k. rewrite Ht'. case_decide; [done|apply Hk].
  - apply disciplined_snoc; [done|]. simpl. exists (Key (binding r)).
    change (unbind_key (unbindRequest (binding r))) with (key_of (Key (binding r))).
    by rewrite Hkey, Hr, Hroute.
Qed.
End Transport.

Section Invariant.
Context `{BindingPrimitives} {W : Type} `{Resolver W} `{Binder W}.

Lemma bindLocked_logged key (w : W) log r w' log' :
  bindLocked key (w, log) = (r, (w', log')) ->
  match r with
  | Ok b => key_of (Key b) = key /\ log' = log ++ [CallBind (Endpoint b) (bindRequest b) true]
  | Fail _ => log' = log \/
      exists e b, key_of (Key b) = key /\ log' = log ++ [CallBind e (bindRequest b) false]
  end.
Proof.
  unfold bindLocked. simpl. intros Heq. destruct key as [tenant session]. simpl in *. branches; auto.
  right. do 2 eexists. split; [|reflexivity]. done.
Qed.

Lemma routeLocked_logged key t (w : W) log r t' w' log' :
  routeLocked key t (w, log) = (r, t', (w', log')) -> agrees t log ->
  agrees t' log' /\
  match r with
  | Ok rt => closed t' = closed t /\ sessions t' = <[key := rt]> (sessions t) /\
             bound rt = true /\ demand rt = Demand key t
  | Fail _ => t' = t
  end.
Proof.
  unfold routeLocked, Demand. intros Heq Ha.
  destruct (sessions t !! key) as [[d b [|]]|] eqn:Hs; simplify_eq/=.
  { split; [done|]. by rewrite insert_id. }
  all: destruct (bindLocked key (w, log)) as [rb [w1 log1]] eqn:Hb;
    pose proof (bindLocked_logged _ _ _ _ _ _ Hb) as Hl;
    assert (Hnone : table_route t key = None) by (unfold table_route, Binding; by rewrite Hs);
    destruct rb as [b'|err]; simplify_eq/=; [destruct Hl as [Hkey ->]|].
  1, 3: by split; [apply agrees_bind|].
  all: split; [|done]; destruct Hl as [->|(e & b' & Hkey & ->)]; [done|].
  all: apply agrees_call; [done| |done]; simpl;
    change (bind_key (bindRequest b')) with (key_of (Key b')); by rewrite Hkey, (agrees_routes _ _ Ha).
Qed.

(** The invariant of a table in its environment: what it bound and has not given
    back is exactly its routes, every entry is demanded, a closed table is
    empty. *)
Record inv (s : Bindings_ * (W * list bcall)) : Prop := {
  inv_agrees : agrees s.1 s.2.2;
  inv_demand : forall key r, sessions s.1 !! key = Some r -> 1 <= demand r;
  inv_closed : closed s.1 = true -> sessions s.1 = ∅
}.

Lemma inv_log t (w w' : W) log log' : inv (t, (w, log)) -> agrees t log' -> inv (t, (w', log')).
Proof. by intros [? ? ?] ?. Qed.

Lemma Acquire_inv key t (w : W) log r t' w' log' :
  Acquire key t (w, log) = (r, t', (w', log')) -> inv (t, (w, log)) -> inv (t', (w', log')).
Proof.
  unfold Acquire. intros Heq Hinv. pose proof Hinv as [Ha Hd Hc]. simpl in *. destruct (closed t) eqn:Hcl; [by simplify_eq|].
  destruct (routeLocked key t (w, log)) as [[rt t1] [w1 log1]] eqn:Hr.
  destruct (routeLocked_logged _ _ _ _ _ _ _ _ Hr Ha) as [Ha1 Hrt]. destruct rt as [rt|]; simplify_eq/=; [|by eapply inv_log].
  destruct Hrt as (Hcl1 & Hs1 & Hb & Hdem). split; simpl.
  - apply (agrees_unchanged t1); [done|]. intros key'. rewrite table_route_insert. simpl.
    case_decide; [|by destruct t1]. subst. unfold table_route, Binding. by rewrite Hs1, lookup_insert_eq, Hb.
  - intros key' r'. rewrite Hs1, insert_insert_eq, lookup_insert. case_decide; [|eauto].
    intros; simplify_eq/=. rewrite Hdem. unfold Demand. destruct (sessions t !! key') eqn:E; [|lia].
    pose proof (Hd _ _ E). lia.
  - congruence.
Qed.

Lemma Release_inv key t (w : W) log r t' w' log' :
  Release key t (w, log) = (r, t', (w', log')) -> inv (t, (w, log)) -> inv (t', (w', log')).
Proof.
  unfold Release. simpl. intros Heq Hinv. pose proof Hinv as [Ha Hd Hc]. simpl in *. branches; try done; reflect_guards.
  - match goal with Hs : sessions t !! key = Some ?rt |- _ => rename Hs into Hkey; rename rt into route end.
    split; simpl; [|intros key' r'; rewrite lookup_insert; case_decide; intros; simplify_eq/=; eauto; lia|congruence].
    apply (agrees_unchanged t); [done|]. intros key'. rewrite table_route_insert. simpl.
    case_decide; [|by destruct t]. subst. unfold table_route, Binding. by rewrite Hkey; destruct (bound route).
  - split; simpl; [|intros key' r' [? ?]%lookup_delete_Some; eauto|congruence].
    apply (agrees_unchanged t); [done|]. intros key'. rewrite table_route_delete.
    case_decide; [|by destruct t]. subst. unfold table_route, Binding.
    by repeat (match goal with Hx : _ = _ |- _ => rewrite Hx end; simpl).
  - split; simpl; [|intros key' r' [? ?]%lookup_delete_Some; eauto|congruence].
    eapply agrees_unbind; [done|done|done|]. intros key'. rewrite table_route_delete. by destruct t.
Qed.

Lemma Deliver_inv key command t (w : W) log r t' w' log' :
  Deliver key command t (w, log) = (r, t', (w', log')) -> inv (t, (w, log)) -> inv (t', (w', log')).
Proof.
  unfold Deliver. intros Heq Hinv. pose proof Hinv as [Ha Hd Hc]. simpl in *. destruct (closed t) eqn:Hcl; [by simplify_eq|].
  destruct (sessions t !! key) as [rt0|] eqn:Hs; simpl in Heq; [|by simplify_eq].
  destruct (demand rt0 =? 0) eqn:Hz; [by simplify_eq|].
  destruct (routeLocked key t (w, log)) as [[rt t1] [w1 log1]] eqn:Hr.
  destruct (routeLocked_logged _ _ _ _ _ _ _ _ Hr Ha) as [Ha1 Hrt]. destruct rt as [rt|]; simplify_eq/=; [|by eapply inv_log].
  destruct Hrt as (Hcl1 & Hs1 & Hb & Hdem). branches. split; simpl.
  - apply agrees_call; [done| |done]. simpl. rewrite (agrees_routes _ _ Ha1).
    assert (Hroute : table_route t' key = Some (Key (binding rt))) by (unfold table_route, Binding; by rewrite Hs1, lookup_insert_eq, Hb).
    change (SessionKey (bk_TenantID (Key (binding rt))) (bk_SessionID (Key (binding rt)))) with (key_of (Key (binding rt))).
    rewrite (agrees_keys _ _ Ha1 _ _ Hroute), Hroute. by eexists.
  - intros key' r'. rewrite Hs1, lookup_insert. case_decide; [|eauto]. intros; simplify_eq/=.
    rewrite Hdem. unfold Demand. rewrite Hs. eauto.
  - congruence.
Qed.

Lemma Observe_inv observed t (w : W) log r t' w' log' :
  Observe observed t (w, log) = (r, t', (w', log')) -> inv (t, (w, log)) -> inv (t', (w', log')).
Proof.
  unfold Observe. simpl. intros Heq Hinv. pose proof Hinv as [Ha Hd Hc]. simpl in *. branches; try done; reflect_guards.
  all: split; simpl; [|intros key' r' [[<- <-]|[? ?]]%lookup_insert_Some; simpl; eauto|congruence].
  all: eapply agrees_unbind; [done|done|done|]; intros key'; rewrite table_route_insert; simpl;
    (case_decide; [done|]); by destruct t.
Qed.

(** The calls [Close] makes: one unbind per bound route, in range order. *)
Definition unbinds (routes : list (sessionKey * sessionRoute)) : list bcall :=
  (fun p => CallUnbind (unbindRequest (binding p.2))) <$> filter (fun p => bound p.2 = true) routes.

Lemma closeRoutes_logged routes (w : W) log failures w' log' :
  closeRoutes routes (w, log) = (failures, (w', log')) -> log' = log ++ unbinds routes.
Proof.
  unfold unbinds. revert w log failures w' log'.
  induction routes as [|[key r] routes IH]; intros w log failures w' log' Heq; simpl in Heq.
  { simplify_eq. by rewrite app_nil_r. }
  rewrite filter_cons. simpl. destruct (bound r) eqn:Hb; simpl in Heq; [|eauto].
  destruct (binder_Unbind (unbindRequest (binding r)) w) as [err w1] eqn:Hu.
  destruct (closeRoutes routes (w1, log ++ [CallUnbind (unbindRequest (binding r))])) as [fs [w2 log2]] eqn:Hc.
  apply IH in Hc. subst. rewrite decide_True by done. simpl.
  branches; by rewrite <- app_assoc.
Qed.

Lemma unbinds_agree routes : forall c m log,
  agrees (MkBindings c m) log -> NoDup routes.*1 -> Forall (fun p => m !! p.1 = Some p.2) routes ->
  agrees (MkBindings c (foldl (fun m key => delete key m) m routes.*1)) (log ++ unbinds routes).
Proof.
  unfold unbinds. induction routes as [|[key r] routes IH]; intros c m log Ha Hnd Hall; simpl in *.
  { by rewrite app_nil_r. }
  apply NoDup_cons in Hnd as [Hni Hnd]. apply Forall_cons in Hall as [Hr Hall]. simpl in Hr.
  assert (Hall' : Forall (fun p => delete key m !! p.1 = Some p.2) routes).
  { rewrite Forall_forall in *. intros p Hp. rewrite lookup_delete_ne; [by apply Hall|].
    intros ->. apply Hni. by apply list_elem_of_fmap_2. }
  rewrite filter_cons. simpl. case_decide as Hb; simpl.
  - rewrite (cons_middle _ log), app_assoc. apply IH; [|done|done].
    eapply (agrees_unbind (MkBindings c m)); [done|done|done|]. intros key'. by rewrite table_route_delete.
  - apply IH; [|done|done]. apply (agrees_unchanged (MkBindings c m)); [done|].
    intros key'. rewrite table_route_delete. case_decide; [|done]. subst.
    unfold table_route, Binding. simpl. rewrite Hr. by destruct (bound r).
Qed.

Lemma foldl_delete_lookup keys : forall (m : gmap sessionKey sessionRoute) key,
  foldl (fun m key => delete key m) m keys !! key = if decide (key ∈ keys) then None else m !! key.
Proof.
  induction keys as [|k keys IH]; intros m key; cbn [foldl].
  - by rewrite decide_False by (by intros ?%not_elem_of_nil).
  - rewrite IH. destruct (decide (key = k)) as [->|Hne].
    + rewrite (decide_True (P := k ∈ k :: keys)) by set_solver. case_decide; [done|]. by rewrite lookup_delete_eq.
    + rewrite lookup_delete_ne by done. by repeat case_decide; set_solver.
Qed.

Lemma range_all (routes : list (sessionKey * sessionRoute)) (m : gmap sessionKey sessionRoute) :
  routes ≡ₚ map_to_list m ->
  NoDup routes.*1 /\ Forall (fun p => m !! p.1 = Some p.2) routes /\
  foldl (fun m key => delete key m) m routes.*1 = ∅.
Proof.
  intros Hp. split_and!.
  - rewrite Hp. apply NoDup_fst_map_to_list.
  - rewrite Hp. apply Forall_forall. intros [k r]. by rewrite elem_of_map_to_list.
  - apply map_eq. intros key. rewrite foldl_delete_lookup, lookup_empty. case_decide as Hin; [done|].
    destruct (m !! key) as [r|] eqn:Hm; [|done]. destruct Hin. rewrite Hp.
    apply list_elem_of_fmap. exists (key, r). by rewrite elem_of_map_to_list.
Qed.

Lemma Close_logged range t (w : W) log r t' w' log' :
  Close range t (w, log) = (r, t', (w', log')) ->
  t' = MkBindings true ∅ /\ log' = log ++ unbinds (range (sessions t)).
Proof.
  unfold Close. destruct (closeRoutes _ _) as [fs [w1 log1]] eqn:Hc. intros. simplify_eq.
  by apply closeRoutes_logged in Hc.
Qed.

Lemma Close_inv range t (w : W) log r t' w' log' :
  (forall m, range m ≡ₚ map_to_list m) ->
  Close range t (w, log) = (r, t', (w', log')) -> inv (t, (w, log)) -> inv (t', (w', log')).
Proof.
  intros Hrange [-> ->]%Close_logged [Ha Hd Hc]. simpl in *.
  destruct (range_all _ _ (Hrange (sessions t))) as (Hnd & Hall & Hempty). split; simpl; [|done|done].
  rewrite <- Hempty. apply (agrees_unchanged (MkBindings (closed t) (foldl (fun m key => delete key m) (sessions t) (range (sessions t)).*1))); [|done].
  apply unbinds_agree; [|done|done]. by destruct t.
Qed.

(** Everything that happens to a table: its operations, in any order, for any
    session, with Close ranging in any order, and any change of the world
    behind its interfaces. *)
Inductive table_step : Bindings_ * (W * list bcall) -> Bindings_ * (W * list bcall) -> Prop :=
| step_Acquire key t w r t' w' : Acquire key t w = (r, t', w') -> table_step (t, w) (t', w')
| step_Release key t w r t' w' : Release key t w = (r, t', w') -> table_step (t, w) (t', w')
| step_Deliver key c t w r t' w' : Deliver key c t w = (r, t', w') -> table_step (t, w) (t', w')
| step_Observe o t w r t' w' : Observe o t w = (r, t', w') -> table_step (t, w) (t', w')
| step_Close range t w r t' w' :
    (forall m, range m ≡ₚ map_to_list m) -> Close range t w = (r, t', w') -> table_step (t, w) (t', w')
| step_world t w w' log : table_step (t, (w, log)) (t, (w', log)).

Lemma table_step_inv s s' : inv s -> table_step s s' -> inv s'.
Proof.
  intros Hinv Hstep. destruct Hstep; try destruct w as [w log]; try destruct w' as [w' log'];
    eauto using Acquire_inv, Release_inv, Deliver_inv, Observe_inv, Close_inv.
  eapply inv_log; [done|]. apply Hinv.
Qed.

Definition fresh_table (s : Bindings_ * (W * list bcall)) : Prop := s.1 = NewBindings /\ s.2.2 = [].

Lemma inv_fresh s : fresh_table s -> inv s.
Proof.
  destruct s as [t [w log]]. intros [Ht Hl]. simpl in *. subst. split; simpl; [|done|done].
  split; [done|done|]. intros [|? ?] ? ? ?; done.
Qed.


Definition answers_gone : Prop :=
  forall req v, match (binder_Unbind (W := W) req v).1 with
                | Some e => errors_is e ErrRouteGone = true
                | None => True
                end.

Lemma closeRoutes_gone routes (w : W * list bcall) fs w' :
  answers_gone -> closeRoutes routes w = (fs, w') -> fs = [].
Proof.
  intros Hgone. revert w fs w'. induction routes as [|[key rt] routes IH]; intros [w log] fs w' Hc; simpl in Hc; [by simplify_eq|].
  destruct (bound rt); simpl in Hc; [|by eapply IH].
  pose proof (Hgone (unbindRequest (binding rt)) w) as Hg.
  destruct (binder_Unbind (unbindRequest (binding rt)) w) as [err w2]. simpl in Hg.
  destruct (closeRoutes routes _) as [fs' w3] eqn:Hc'. apply IH in Hc'. subst. branches; done.
Qed.

(** Close unbinds every bound route exactly once and no other, leaves a
    closed, empty table, and returns nil whenever each unbind either succeeds
    or finds its route already gone. *)
Theorem close_unbinds_every_route range t (w : W) log r t' w' log' :
  (forall m, range m ≡ₚ map_to_list m) ->
  Close range t (w, log) = (r, t', (w', log')) ->
  t' = MkBindings true ∅ /\
  (exists sent, log' = log ++ sent /\ sent ≡ₚ unbinds (map_to_list (sessions t))) /\
  (answers_gone -> r = None).
Proof.
  intros Hrange Heq. destruct (Close_logged _ _ _ _ _ _ _ _ Heq) as [-> ->]. split_and!; [done| |].
  - eexists. split; [done|]. unfold unbinds. by rewrite Hrange.
  - intros Hgone. unfold Close in Heq. destruct (closeRoutes _ _) as [fs w1] eqn:Hc. simplify_eq.
    by rewrite (closeRoutes_gone _ _ _ _ Hgone Hc).
Qed.
End Invariant.

Section Behaviour.
Context `{BindingPrimitives} {W : Type} `{Resolver W} `{Binder W}.

Lemma Demand_insert c m key r : Demand key (MkBindings c (<[key := r]> m)) = demand r.
Proof. unfold Demand. simpl. by rewrite lookup_insert_eq. Qed.

Lemma Binding_insert c m key r :
  Binding key (MkBindings c (<[key := r]> m)) = if bound r then Some (binding r) else None.
Proof. unfold Binding. simpl. by rewrite lookup_insert_eq. Qed.

(** The table differs from [t] at [key] only. *)
Definition only_at (key : sessionKey) (t t' : Bindings_) : Prop :=
  closed t' = closed t /\ forall key', key' <> key -> sessions t' !! key' = sessions t !! key'.

Lemma routeLocked_spec key t (w : W) r t' w' :
  routeLocked key t w = (r, t', w') ->
  match Binding key t, r with
  | Some b, Ok rt => rt = MkRoute (Demand key t) b true /\ t' = t /\ w' = w
  | Some _, Fail _ => False
  | None, Ok rt => bindLocked key w = (Ok (binding rt), w') /\ bound rt = true /\
      demand rt = Demand key t /\ t' = MkBindings (closed t) (<[key := rt]> (sessions t))
  | None, Fail e => bindLocked key w = (Fail e, w') /\ t' = t
  end.
Proof.
  unfold routeLocked, Binding, Demand. intros Heq.
  destruct (sessions t !! key) as [[d b [|]]|]; simplify_eq/=; [done| |].
  all: destruct (bindLocked key w) as [[b'|err] w1]; simplify_eq/=; done.
Qed.

Lemma Acquire_spec key t (w : W) r t' w' :
  closed t = false -> Acquire key t w = (r, t', w') ->
  match r with
  | Ok b =>
      (if Binding key t is Some held then b = held /\ w' = w else bindLocked key w = (Ok b, w')) /\
      Binding key t' = Some b /\ Demand key t' = Demand key t + 1 /\ only_at key t t'
  | Fail e => t' = t /\ Binding key t = None /\ bindLocked key w = (Fail e, w')
  end.
Proof.
  unfold Acquire. intros Hcl Heq. rewrite Hcl in Heq.
  destruct (routeLocked key t w) as [[rt t1] w1] eqn:Hr. apply routeLocked_spec in Hr.
  destruct rt as [rt|e]; destruct (Binding key t) as [held|] eqn:Hb; simplify_eq/=; try done.
  - destruct Hr as (-> & -> & ->). rewrite Binding_insert, Demand_insert. simpl.
    split_and!; try done. split; [done|]. intros key' Hne. simpl. by rewrite lookup_insert_ne.
  - destruct Hr as (Hbind & Hbound & Hd & ->). rewrite Binding_insert, Demand_insert. simpl.
    rewrite Hbound, Hd. split_and!; try done. split; [done|]. intros key' Hne. simpl. by rewrite !lookup_insert_ne.
  - by destruct Hr as (? & ->).
Qed.

(** How each operation moves the demand of every session. *)
Lemma Demand_only_at key t t' : only_at key t t' -> forall key', key' <> key -> Demand key' t' = Demand key' t.
Proof. intros [_ Ho] key' Hne. unfold Demand. by rewrite Ho. Qed.

Lemma Acquire_demand key t (w : W) r t' w' :
  closed t = false -> Acquire key t w = (r, t', w') ->
  closed t' = false /\
  forall key', Demand key' t' = Demand key' t + (if r is Ok _ then (if decide (key' = key) then 1 else 0) else 0).
Proof.
  intros Hcl Heq. pose proof (Acquire_spec _ _ _ _ _ _ Hcl Heq) as Hs. destruct r as [b|e].
  - destruct Hs as (_ & _ & Hd & Ho). split; [destruct Ho; congruence|]. intros key'.
    case_decide; [by subst|]. rewrite (Demand_only_at key t t') by done. lia.
  - destruct Hs as [-> _]. split; [done|]. intros. lia.
Qed.

Lemma Release_demand key t (w : W) r t' w' :
  closed t = false -> 1 <= Demand key t -> Release key t w = (r, t', w') ->
  closed t' = false /\
  forall key', Demand key' t' = Demand key' t - (if decide (key' = key) then 1 else 0).
Proof.
  unfold Release, Demand. intros Hcl Hd Heq. rewrite Hcl in Heq.
  destruct (sessions t !! key) as [rt|] eqn:Hs; [|lia]. destruct (_ =? 0) eqn:Hz; reflect_guards; [lia|].
  destruct (0 <? _) eqn:Hp; reflect_guards; simplify_eq/=.
  - split; [done|]. intros key'. case_decide; subst; [by rewrite lookup_insert_eq, Hs|].
    rewrite lookup_insert_ne by done. lia.
  - enough (t' = MkBindings (closed t) (delete key (sessions t))) as ->.
    { split; [done|]. intros key'. simpl. case_decide; subst; [rewrite lookup_delete_eq, Hs; lia|].
      rewrite lookup_delete_ne by done. lia. }
    branches; by rewrite Hcl.
Qed.

Lemma Observe_demand observed t (w : W) dropped t' w' :
  Observe observed t w = (dropped, t', w') ->
  closed t' = closed t /\ forall key, Demand key t' = Demand key t.
Proof.
  unfold Observe, Demand. intros Heq. destruct (closed t) eqn:Hcl; simplify_eq/=; [done|].
  destruct (sessions t !! _) as [rt|] eqn:Hs; simplify_eq/=; [|done].
  destruct (negb _); simplify_eq/=; [done|]. destruct (_ <? _); simplify_eq/=; [done|].
  destruct (_ && _); simplify_eq/=; [done|]. destruct (binder_Unbind _ _). simplify_eq/=.
  split; [done|]. intros key. rewrite lookup_insert. case_decide; subst; [by rewrite Hs|done].
Qed.

Lemma Deliver_demand key command t (w : W) r t' w' :
  Deliver key command t w = (r, t', w') ->
  closed t' = closed t /\ forall key', Demand key' t' = Demand key' t.
Proof.
  unfold Deliver. intros Heq. destruct (closed t) eqn:Hcl; [by simplify_eq|].
  destruct (if sessions t !! key is Some route then demand route =? 0 else true) eqn:Hm; [by simplify_eq|].
  destruct (routeLocked key t w) as [[rt t1] w1] eqn:Hr. apply routeLocked_spec in Hr.
  enough (closed t1 = closed t /\ forall key', Demand key' t1 = Demand key' t)
    by (destruct rt; [destruct (binder_DeliverCommand _ _ _ _)|]; simplify_eq/=; by rewrite Hcl in *).
  destruct rt as [rt|]; destruct (Binding key t); try done; [by destruct Hr as (_ & -> & _)| |by destruct Hr as [_ ->]].
  destruct Hr as (_ & _ & Hd & ->). split; [done|]. intros key'. destruct (decide (key' = key)) as [->|Hne].
  - by rewrite Demand_insert.
  - unfold Demand. simpl. by rewrite lookup_insert_ne.
Qed.

(** On an open table Acquire of a session with a route returns that route
    and costs no call at all; without one it binds the resolver's owner once
    and records exactly what was bound; either way one unit of demand is added
    and no other session changes. An Acquire that fails leaves the table as it
    was. *)
Theorem acquire_shares_one_route key t (w : W) r t' w' :
  closed t = false -> Acquire key t w = (r, t', w') ->
  match r with
  | Ok b =>
      (if Binding key t is Some held then b = held /\ w' = w else bindLocked key w = (Ok b, w')) /\
      Binding key t' = Some b /\ Demand key t' = Demand key t + 1 /\ only_at key t t'
  | Fail e => t' = t /\ Binding key t = None /\ bindLocked key w = (Fail e, w')
  end.
Proof. apply Acquire_spec. Qed.

(** What an observation says of a held binding: it is as new as the lease held
    and names a different Host, boot or lease. *)
Definition displaces (observed : HostLinkRegistryObservation) (held : BindingKey) : Prop :=
  bk_LeaseEpoch held <= obs_LeaseEpoch observed /\
  ~ (obs_HostID observed = bk_HostID held /\ obs_HostGeneration observed = bk_HostGeneration held /\
     obs_LeaseEpoch observed = bk_LeaseEpoch held).

Definition observed_key (observed : HostLinkRegistryObservation) : sessionKey :=
  SessionKey (obs_TenantID observed) (obs_SessionID observed).

Lemma Observe_spec observed t (w : W) dropped t' w' :
  closed t = false -> Observe observed t w = (dropped, t', w') ->
  (dropped = true <-> exists b, Binding (observed_key observed) t = Some b /\ displaces observed (Key b)) /\
  (dropped = true -> Binding (observed_key observed) t' = None /\
     Demand (observed_key observed) t' = Demand (observed_key observed) t /\
     only_at (observed_key observed) t t') /\
  (dropped = false -> t' = t /\ w' = w).
Proof.
  unfold Observe, displaces, observed_key, Binding, Demand. intros Hcl Heq. rewrite Hcl in Heq.
  destruct (sessions t !! _) as [[d b [|]]|] eqn:Hs; simplify_eq/=; [| |].
  2, 3: split; [|done]; split; [done|by intros (? & ? & _)].
  destruct (_ <? _) eqn:Hlt; simplify_eq/=; reflect_guards.
  { split; [|done]. split; [done|]. intros (? & ? & ? & ?). simplify_eq. lia. }
  destruct (_ && _) eqn:Hsame; simplify_eq/=.
  { reflect_guards. split; [|done]. split; [done|]. intros (? & ? & ? & Hn). simplify_eq. by destruct Hn. }
  destruct (binder_Unbind _ _) as [err w1]. simplify_eq/=. rewrite !lookup_insert_eq. split; [|split; [|done]].
  - split; [|done]. intros _. exists b. split_and!; [done|lia|]. intros (? & ? & ?).
    apply not_true_iff_false in Hsame. apply Hsame. rewrite !andb_true_iff, bool_decide_eq_true, !Z.eqb_eq. done.
  - intros _. split_and!; try done. split; [done|]. intros key' Hne. simpl. by rewrite lookup_insert_ne.
Qed.

(** Observe drops a route exactly when the observation displaces the
    binding held: an older lease never does, the held tuple itself never does.
    A drop keeps the session's demand, so its demanders are served again by a
    rebind; anything else changes neither the table nor makes a call. *)
Theorem observe_drops_displaced observed t (w : W) dropped t' w' :
  closed t = false -> Observe observed t w = (dropped, t', w') ->
  (dropped = true <-> exists b, Binding (observed_key observed) t = Some b /\ displaces observed (Key b)) /\
  (dropped = true -> Binding (observed_key observed) t' = None /\
     Demand (observed_key observed) t' = Demand (observed_key observed) t /\
     only_at (observed_key observed) t t') /\
  (dropped = false -> t' = t /\ w' = w).
Proof. apply Observe_spec. Qed.

(** Two routing tuples share a bind idempotency key only if they are the
    same tuple, unless the digest itself collides: the framing is injective. *)
Theorem bind_key_names_one_tuple (k1 k2 : BindingKey) :
  is_u64 (bk_HostGeneration k1) -> is_u64 (bk_LeaseEpoch k1) ->
  is_u64 (bk_HostGeneration k2) -> is_u64 (bk_LeaseEpoch k2) ->
  bindIdempotencyKey k1 = bindIdempotencyKey k2 -> k1 = k2 \/ collision sha256hex.
Proof.
  intros ? ? ? ? Heq. apply digest_inj in Heq as [Hf|]; [left|by right|done].
  destruct k1, k2. simplify_eq/=. f_equal; by apply formatUint_inj.
Qed.
End Behaviour.

(** ** Witnesses: an environment whose resolver answers the owner the world
    holds and whose Hosts accept every call *)
Definition demo_primitives : BindingPrimitives := {| validateBind _ := None; sha256hex s := s |}.

Definition demo_world : Type := option HostLinkRegistryObservation.

Definition demo_resolver : Resolver demo_world := {| Owner _ _ w := (Ok w, w) |}.

Definition demo_binder : Binder demo_world := {|
  binder_Bind _ _ w := (None, w);
  binder_Unbind _ w := (None, w);
  binder_DeliverCommand _ _ _ w := (None, w);
  binder_RouteHeld := None
|}.

Definition demo_owner (host : HostID) (epoch : Z) : HostLinkRegistryObservation :=
  RegistryObservation "t" "s" host 1 epoch "agent" "rt" HostPlacementPooled SessionResidencyResident true 100 "ep".

Definition demo_key : sessionKey := SessionKey "t" "s".

Definition demo_binding (host : HostID) (epoch : Z) : Binding_ :=
  MkBinding (MkBindingKey "t" "s" host 1 epoch) "ep" "rt".

Definition demo_table (host : HostID) (epoch d : Z) : Bindings_ :=
  MkBindings false {[ demo_key := MkRoute d (demo_binding host epoch) true ]}.

#[local] Existing Instances demo_primitives demo_resolver demo_binder.

(** A session bound, then released: a bind and its unbind. *)
Definition demo_log : list bcall := [CallBind "ep" (bindRequest (demo_binding "h" 1)) true; CallUnbind (unbindRequest (demo_binding "h" 1))].


Lemma close_unbinds_every_route_witness :
  exists w' log', Close (W := demo_world * list bcall) map_to_list (demo_table "h" 1 2) (None, []) =
    (None, MkBindings true ∅, (w', log')) /\ length log' = 1%nat.
Proof.
  destruct (Close (W := demo_world * list bcall) map_to_list (demo_table "h" 1 2) (None, []))
    as [[r t'] [w' log']] eqn:Hc.
  destruct (close_unbinds_every_route map_to_list _ _ _ _ _ _ _ (fun m => reflexivity _) Hc)
    as (-> & (sent & -> & Hp) & Hr).
  exists w', sent. rewrite (Hr (fun req v => I)). split; [done|]. rewrite Hp. vm_compute. reflexivity.
Defined.

Lemma acquire_shares_one_route_witness :
  exists t', Acquire (W := demo_world) demo_key (demo_table "h" 1 1) None = (Ok (demo_binding "h" 1), t', None) /\
    Demand demo_key t' = 2.
Proof.
  destruct (Acquire (W := demo_world) demo_key (demo_table "h" 1 1) None) as [[r t'] w'] eqn:Ha.
  assert (r = Ok (demo_binding "h" 1) /\ w' = None) as [-> ->] by (vm_compute in Ha; by simplify_eq).
  exists t'. split; [done|].
  by destruct (acquire_shares_one_route demo_key (demo_table "h" 1 1) _ _ _ _ eq_refl Ha) as (_ & _ & -> & _).
Defined.

Lemma observe_drops_displaced_witness :
  (Observe (W := demo_world) (demo_owner "h2" 2) (demo_table "h" 1 3) None).1.1 = true /\
  (Observe (W := demo_world) (demo_owner "h2" 0) (demo_table "h" 1 3) None).1.1 = false.
Proof.
  split; [|vm_compute; reflexivity].
  destruct (Observe (W := demo_world) (demo_owner "h2" 2) (demo_table "h" 1 3) None) as [[d t'] w'] eqn:Ho.
  destruct (observe_drops_displaced (W := demo_world) (demo_owner "h2" 2) (demo_table "h" 1 3) None d t' w' eq_refl Ho)
    as [[_ Hd] _].
  apply Hd. exists (demo_binding "h" 1). split; [vm_compute; reflexivity|]. split; simpl; [lia|by intros (? & _)].
Defined.

Lemma bind_key_names_one_tuple_witness :
  bindIdempotencyKey (MkBindingKey "t" "s" "h" 1 1) <> bindIdempotencyKey (MkBindingKey "t" "s" "h" 11 1).
Proof.
  intros Heq. apply bind_key_names_one_tuple in Heq; simpl; try (unfold is_u64, u64_modulus; lia).
  destruct Heq as [Heq|(x & y & Hne & Heq)]; [discriminate|done].
Defined.
