(* ===== verification/Directory.v ===== *)
(** * The durable directory (src/internal/routing/directory.go)

    [Limits], [DefaultLimits], [NewDirectory], [Owner], [Candidates] and
    [noSuchOwner]. The SessionStore behind the [Store] interface is outside
    src/: it is any instance of the class [Store]. [Owner] makes the directory
    an instance of the routing table's [Resolver]. *)

From S2P Require Import Prelude Wire Bindings.

(** storage.MaxOrderedPageLimit and sessionstore's reconcile page bounds. *)
Class StoreLimits := {
  MaxOrderedPageLimit : Z;
  DefaultHostTargetReconcilePages : Z;
  MaxHostTargetReconcilePages : Z
}.

Record ListCompatibleHostsRequest := ListRequest {
  list_AgentID : AgentID;
  list_RuntimeCompatibilityID : string;
  list_Placement : HostPlacement;
  list_Cursor : Cursor;
  list_Limit : Z
}.

Record HostTargetPage := TargetPage {
  tpage_Targets : list HostLinkCapacityReport;
  tpage_NextCursor : Cursor;
  tpage_LapsedSkipped : Z
}.

Record ReconcileHostTargetsRequest := ReconcileRequest {
  reconcile_Limit : Z;
  reconcile_MaxPages : Z;
  reconcile_Cursor : Cursor
}.

Record HostTargetReconcileResult := ReconcileResult { reconciled_NextCursor : Cursor; reconciled_Exhausted : bool }.

(** [type Store interface]. [Registration] is the store's entry type and
    [Observation] its method of that name. *)
Class Store (W : Type) := {
  Registration : Type;
  GetHostRegistration : TenantID -> SessionID -> W -> result Registration * W;
  Observation : Registration -> result HostLinkRegistryObservation;
  ListCompatibleHosts : ListCompatibleHostsRequest -> W -> result HostTargetPage * W;
  ReconcileHostTargets : ReconcileHostTargetsRequest -> W -> result HostTargetReconcileResult * W
}.

Record Limits := MkLimits {
  CandidatePageLimit : Z;
  ReconcilePageLimit : Z;
  ReconcileMaxPages : Z;
  MaxCleanupAttempts : Z
}.

Definition DefaultLimits `{StoreLimits} : Limits := MkLimits 32 32 DefaultHostTargetReconcilePages 2.

(** [NewDirectory]'s checks of its limits; the store is always present. *)
Definition NewDirectory `{StoreLimits} (limits : Limits) : result Limits :=
  if (CandidatePageLimit limits <? 1) || (MaxOrderedPageLimit <? CandidatePageLimit limits)
  then Fail (wrapf [ErrInvalidConfig])
  else if (ReconcilePageLimit limits <? 1) || (MaxOrderedPageLimit <? ReconcilePageLimit limits)
  then Fail (wrapf [ErrInvalidConfig])
  else if (ReconcileMaxPages limits <? 1) || (MaxHostTargetReconcilePages <? ReconcileMaxPages limits)
  then Fail (wrapf [ErrInvalidConfig])
  else if (MaxCleanupAttempts limits <? 1) || (ReconcileMaxPages limits <? MaxCleanupAttempts limits)
  then Fail (wrapf [ErrInvalidConfig])
  else Ok limits.

(** The codes are sessionstore's constants: RegistryErrorNotFound,
    RegistryErrorExpired, RegistryErrorReleased, KeyspaceBindingNotFound. *)
Definition noSuchOwner (err : error) : bool :=
  match errors_code "RegistryError" err with
  | Some code =>
      bool_decide (code = "RegistryErrorNotFound"%string) ||
      bool_decide (code = "RegistryErrorExpired"%string) ||
      bool_decide (code = "RegistryErrorReleased"%string)
  | None => code_is "KeyspaceError" "KeyspaceBindingNotFound" err
  end.

Section Directory.
Context {W : Type} `{Store W}.

Definition Owner (tenant : TenantID) (session : SessionID) (w : W)
    : result (option HostLinkRegistryObservation) * W :=
  let '(entry, w) := GetHostRegistration tenant session w in
  match entry with
  | Fail err => if noSuchOwner err then (Ok None, w) else (Fail err, w)
  | Ok entry =>
      match Observation entry with
      | Fail err => (Fail err, w)
      | Ok observation => (Ok (Some observation), w)
      end
  end.

(** The loop of [Candidates]: every iteration but the last spends one of the
    remaining attempts, so recursion is on them. *)
Fixpoint candidatesLoop (limits : Limits) (req : ListCompatibleHostsRequest)
    (remainingAttempts : nat) (remainingPages : Z) (dueCursor : Cursor) (w : W) : result HostTargetPage * W :=
  let '(page, w) := ListCompatibleHosts req w in
  match page with
  | Fail err => (Fail err, w)
  | Ok page =>
      if (tpage_LapsedSkipped page =? 0) || (remainingPages =? 0) then (Ok page, w)
      else
        match remainingAttempts with
        | O => (Ok page, w)
        | S attempts =>
            let pagesThisAttempt := (remainingPages + Z.of_nat remainingAttempts - 1) `quot` Z.of_nat remainingAttempts in
            let '(result, w) := ReconcileHostTargets
              (ReconcileRequest (ReconcilePageLimit limits) pagesThisAttempt dueCursor) w in
            match result with
            | Fail err => (Fail err, w)
            | Ok result =>
                candidatesLoop limits req attempts (remainingPages - pagesThisAttempt)
                  (if reconciled_Exhausted result then "" else reconciled_NextCursor result)%string w
            end
        end
  end.

Definition Candidates (limits : Limits) (original : ListCompatibleHostsRequest) (w : W) : result HostTargetPage * W :=
  let req :=
    if (list_Limit original =? 0) || (CandidatePageLimit limits <? list_Limit original)
    then ListRequest (list_AgentID original) (list_RuntimeCompatibilityID original) (list_Placement original)
           (list_Cursor original) (CandidatePageLimit limits)
    else original in
  candidatesLoop limits req (Z.to_nat (MaxCleanupAttempts limits)) (ReconcileMaxPages limits) "" w.

#[global] Instance directory_resolver : Resolver W := {| Bindings.Owner := Owner |}.
End Directory.

(** ** The store's calls, recorded *)
Inductive scall :=
| CallList (req : ListCompatibleHostsRequest) (answer : result HostTargetPage)
| CallReconcile (req : ReconcileHostTargetsRequest) (answer : result HostTargetReconcileResult).

#[global] Instance logged_store {W} `{Store W} : Store (W * list scall) := {|
  GetHostRegistration tenant session w :=
    let '(r, w') := GetHostRegistration tenant session w.1 in (r, (w', w.2));
  Observation := Observation;
  ListCompatibleHosts req w :=
    let '(r, w') := ListCompatibleHosts req w.1 in (r, (w', w.2 ++ [CallList req r]));
  ReconcileHostTargets req w :=
    let '(r, w') := ReconcileHostTargets req w.1 in (r, (w', w.2 ++ [CallReconcile req r]))
|}.

Definition pages_of (c : scall) : Z :=
  match c with CallReconcile req _ => reconcile_MaxPages req | CallList _ _ => 0 end.

Definition pages_spent (log : list scall) : Z := foldr (fun c n => pages_of c + n) 0 log.

Definition is_list (c : scall) : bool := match c with CallList _ _ => true | CallReconcile _ _ => false end.

Definition lists (log : list scall) : Z := foldr (fun c n => (if is_list c then 1 else 0) + n) 0 log.
Definition reconciles (log : list scall) : Z := foldr (fun c n => (if is_list c then 0 else 1) + n) 0 log.

Lemma pages_spent_app l1 l2 : pages_spent (l1 ++ l2) = pages_spent l1 + pages_spent l2.
Proof. induction l1 as [|c l1 IH]; simpl; [done|]. rewrite IH. lia. Qed.

(** The share of one attempt: at least a page, and the rest still holds a page
    for every attempt that follows; the last attempt takes all of it. *)
Lemma attempt_share (pages attempts : Z) :
  1 <= attempts <= pages ->
  let share := (pages + attempts - 1) `quot` attempts in
  1 <= share /\ attempts - 1 <= pages - share /\ (attempts = 1 -> share = pages).
Proof.
  intros Hb share. unfold share. rewrite Z.quot_div_nonneg by lia.
  pose proof (Z.div_mod (pages + attempts - 1) attempts ltac:(lia)) as Hdm.
  pose proof (Z.mod_pos_bound (pages + attempts - 1) attempts ltac:(lia)) as Hm.
  set (q := (pages + attempts - 1) `div` attempts) in *. split_and!; [nia|nia|intros ->; nia].
Qed.

(** What one run of the loop sends: listings of one request separated by
    reconciles that split the page budget. *)
Record candidates_trace (limits : Limits) (req : ListCompatibleHostsRequest) (attempts pages : Z)
    (sent : list scall) (r : result HostTargetPage) : Prop := {
  trace_pages : pages_spent sent <= pages;
  trace_lists : 1 <= lists sent <= attempts + 1;
  trace_reconciles : reconciles sent <= attempts;
  trace_calls : Forall (fun c => match c with
    | CallList req' _ => req' = req
    | CallReconcile rr _ => reconcile_Limit rr = ReconcilePageLimit limits /\ 1 <= reconcile_MaxPages rr
    end) sent;
  trace_answer : match r with
    | Ok page => last sent = Some (CallList req (Ok page)) /\
        (tpage_LapsedSkipped page = 0 \/ (reconciles sent = attempts /\ pages_spent sent = pages))
    | Fail e => last sent = Some (CallList req (Fail e)) \/ exists rr, last sent = Some (CallReconcile rr (Fail e))
    end
}.

Lemma trace_extend limits req attempts pages share cursor page rs sent r :
  1 <= share <= pages ->
  candidates_trace limits req attempts (pages - share) sent r ->
  candidates_trace limits req (attempts + 1) pages
    (CallList req (Ok page) :: CallReconcile (ReconcileRequest (ReconcilePageLimit limits) share cursor) (Ok rs) :: sent) r.
Proof.
  intros Hs [Hp Hl Hr Hc Ha].
  assert (Hne : sent <> []) by (intros ->; simpl in Hl; lia).
  split; simpl; try lia; [constructor; [done|]; constructor; [simpl; lia|done]|].
  destruct sent as [|c sent]; [done|]. destruct r; [|done].
  destruct Ha as [? [?|[? ?]]]; (split; [done|]); [by left|right; lia].
Qed.

Lemma trace_one limits req attempts pages r :
  0 <= attempts -> 0 <= pages ->
  match r with Ok page => tpage_LapsedSkipped page = 0 \/ (attempts = 0 /\ pages = 0) | Fail _ => True end ->
  candidates_trace limits req attempts pages [CallList req r] r.
Proof.
  intros ? ? Hr. split; simpl; try lia; [by repeat constructor|].
  destruct r; [|by left]. split; [done|]. destruct Hr as [?|[? ?]]; [by left|right; lia].
Qed.

Section Candidates.
Context {W : Type} `{Store W}.

Lemma candidatesLoop_trace limits req attempts : forall pages cursor (w : W) log r w' log',
  Z.of_nat attempts <= pages -> (attempts = O -> pages = 0) ->
  candidatesLoop limits req attempts pages cursor (w, log) = (r, (w', log')) ->
  exists sent, log' = log ++ sent /\ candidates_trace limits req (Z.of_nat attempts) pages sent r.
Proof.
  induction attempts as [|attempts IH]; intros pages cursor w log r w' log' Hle Hz Heq;
    cbn [candidatesLoop] in Heq; simpl in Heq;
    destruct (ListCompatibleHosts req w) as [[page|err] w1] eqn:Hlist; simplify_eq/=;
    try (eexists; split; [done|]; apply trace_one; [lia|lia|done]).
  - rewrite (Hz eq_refl), orb_true_r in Heq. simplify_eq. eexists. split; [done|]. apply trace_one; [done|lia|]. right. lia.
  - destruct (_ || _) eqn:Hstop; simplify_eq.
    { eexists. split; [done|]. apply trace_one; [lia|lia|]. apply orb_true_iff in Hstop as [?|?]; reflect_guards; [by left|lia]. }
    destruct (attempt_share pages (Z.of_nat (S attempts)) ltac:(lia)) as (Hs1 & Hs2 & Hs3).
    set (share := (pages + Z.of_nat (S attempts) - 1) `quot` Z.of_nat (S attempts)) in *.
    change (Z.pos (Pos.of_succ_nat attempts)) with (Z.of_nat (S attempts)) in Heq. fold share in Heq.
    destruct (ReconcileHostTargets _ w1) as [[rs|err] w2] eqn:Hrec; simplify_eq/=.
    + apply IH in Heq as (sent & -> & Ht); [|lia|intros ->; lia].
      eexists. split; [by rewrite <- !app_assoc|]. simpl.
      replace (Z.of_nat (S attempts)) with (Z.of_nat attempts + 1) by lia. apply trace_extend; [lia|done].
    + eexists. split; [by rewrite <- !app_assoc|]. simpl.
      split; simpl; try lia; [constructor; [done|]; constructor; [simpl; lia|done]|]. right. by eexists.
Qed.

(** Candidates always answers after at most MaxCleanupAttempts + 1
    listings of one bounded request, never asks the store to reconcile more
    than ReconcileMaxPages pages in all nor an attempt of no page, and answers
    the last listing: one with nothing lapsed in it, or one taken after every
    attempt and the whole page budget were spent. *)
Theorem candidates_bounded `{StoreLimits} limits original (w : W) r w' log :
  NewDirectory limits = Ok limits -> Candidates limits original (w, []) = (r, (w', log)) ->
  exists req, candidates_trace limits req (MaxCleanupAttempts limits) (ReconcileMaxPages limits) log r /\
    list_AgentID req = list_AgentID original /\ list_Cursor req = list_Cursor original /\
    list_RuntimeCompatibilityID req = list_RuntimeCompatibilityID original /\ list_Placement req = list_Placement original /\
    list_Limit req <= CandidatePageLimit limits /\ list_Limit req <> 0.
Proof.
  unfold NewDirectory, Candidates. intros Hl Heq. branches; reflect_guards;
    apply candidatesLoop_trace in Heq as (sent & -> & Ht); try lia;
    rewrite Z2Nat.id in Ht by lia; (eexists; split; [exact Ht|]); simpl; split_and!; try done; lia.
Qed.
End Candidates.

(** ** Witness: a store whose first listing skipped a lapsed target *)
Definition demo_limits : StoreLimits :=
  {| MaxOrderedPageLimit := 100; DefaultHostTargetReconcilePages := 8; MaxHostTargetReconcilePages := 64 |}.

Definition demo_store : Store Z := {|
  Registration := HostLinkRegistryObservation;
  GetHostRegistration _ _ w := (Fail (Err (Typed "RegistryError" "RegistryErrorExpired" "" 0) []), w);
  Observation o := Ok o;
  ListCompatibleHosts _ w := (Ok (TargetPage [] "" w), w);
  ReconcileHostTargets _ w := (Ok (ReconcileResult "c" false), w - 1)
|}.

Lemma candidates_bounded_witness :
  exists log, Candidates (H := logged_store (H := demo_store)) (@DefaultLimits demo_limits)
    (ListRequest "a" "rt" HostPlacementPooled "" 0) (1, []) = (Ok (TargetPage [] "" 0), (0, log)) /\
    pages_spent log <= 8 /\ lists log = 2.
Proof.
  destruct (Candidates (H := logged_store (H := demo_store)) (@DefaultLimits demo_limits)
    (ListRequest "a" "rt" HostPlacementPooled "" 0) (1, [])) as [r [w' log]] eqn:Hc.
  destruct (candidates_bounded (W := Z) (H := demo_store) (H0 := demo_limits) (@DefaultLimits demo_limits) _ _ _ _ _ eq_refl Hc)
    as (req & [Hp _ _ _ _] & _).
  exists log. vm_compute in Hc. simplify_eq. split_and!; [done|exact Hp|done].
Defined.
