(* ===== verification/Demand.v ===== *)
(** * Subscriber demand (src/internal/routing/demand.go)

    [Demand] with [Acquire], [Release], [Rebind], [Close], [Watching], [Len],
    the timer callback [poll] and the unexported [teardownLocked],
    [serveLocked], [scheduleLocked], [rescheduleLocked], [cancelPoll],
    [bindLocked], [refreshLocked], [hintLocked] and [tipRequest].

    The plane's mutex is held across each operation, so an operation is a
    function on the plane, the routing table below it and the environment. A
    [*demandSession] is an entry with an identity ([entry_id]), because [poll]
    and [rescheduleLocked] compare pointers. The clock's timers are part of the
    state: [armed] ones can still be stopped, [fired] ones have called [poll],
    which is waiting for the mutex; [stop] on a fired timer does nothing. *)

From S2P Require Import Prelude Wire Bindings.

Definition ErrDemandClosed : error := sentinel "routing.ErrDemandClosed".

Record JournalTip := MkJournalTip { tip_TenantID : TenantID; tip_SessionID : SessionID; tip_Tip : Z }.

(** sessionstore.ReadPublicJournalRequest *)
Record ReadPublicJournalRequest := JournalRequest {
  jr_TenantID : TenantID;
  jr_SessionID : SessionID;
  jr_FromSeq : Z;
  jr_TipOnly : bool;
  jr_Tail : bool;
  jr_Limit : Z;
  jr_ScanLimit : Z
}.

(** [type TipReader interface] *)
Class TipReader (W : Type) := {
  ReadPublicJournal : ReadPublicJournalRequest -> W -> result JournalPage * W
}.

(** The other interfaces demand.go declares ([Hinter], [Watcher]), Core's
    validation of a hint, and the caller's context: whether it is done when
    asked, and whether [Rebind] gave up waiting for the mutex. *)
Class DemandEnv (W : Type) := {
  demand_tips :: TipReader W;
  validateTip : JournalTip -> option error;
  PublishJournalTip : JournalTip -> W -> option error * W;
  watcher_Watching : sessionKey -> W -> W;
  watcher_Served : sessionKey -> W -> W;
  watcher_Unwatched : sessionKey -> W -> W;
  ctx_Err : W -> option error * W;
  lock_Abandoned : W -> option error * W
}.

Record DemandLimits := MkDemandLimits {
  OwnershipPollInterval : Z;
  HeldPollInterval : Z;
  PollTimeout : Z
}.

Definition second : Z := 1000000000.

Definition DefaultDemandLimits : DemandLimits := MkDemandLimits (5 * second) 0 (10 * second).

Definition Validate (l : DemandLimits) : option error :=
  if OwnershipPollInterval l <=? 0 then Some (wrapf [ErrInvalidConfig])
  else if PollTimeout l <=? 0 then Some (wrapf [ErrInvalidConfig])
  else None.

Definition tipReadLimit : Z := 1.

Record demandSession := MkEntry {
  entry_id : nat;
  subscribers : Z;
  held : bool;
  stop : option nat
}.

(** A timer of the clock: the poll it will run and after how long. *)
Record timer := MkTimer { timer_key : sessionKey; timer_entry : nat; timer_after : Z }.

Record Demand_ := MkDemand {
  limits : DemandLimits;
  closed : bool;
  sessions : gmap sessionKey demandSession;
  armed : gmap nat timer;
  fired : gmap nat timer;
  next : nat
}.

Definition NewDemand (l : DemandLimits) : result Demand_ :=
  match Validate l with
  | Some err => Fail err
  | None => Ok (MkDemand l false ∅ ∅ ∅ 0)
  end.

Definition tipRequest (key : sessionKey) : ReadPublicJournalRequest :=
  JournalRequest (key_tenant key) (key_session key) 0 true true tipReadLimit tipReadLimit.

(** Store an entry's fields through its pointer. *)
Definition put (key : sessionKey) (entry : demandSession) (d : Demand_) : Demand_ :=
  MkDemand (limits d) (closed d) (<[key := entry]> (sessions d)) (armed d) (fired d) (next d).

Definition cancelPoll (entry : demandSession) (d : Demand_) : Demand_ :=
  match stop entry with
  | None => d
  | Some id => MkDemand (limits d) (closed d) (sessions d) (delete id (armed d)) (fired d) (next d)
  end.

Definition scheduleLocked (key : sessionKey) (entry : demandSession) (d : Demand_) : Demand_ :=
  let interval :=
    if held entry && (0 <? HeldPollInterval (limits d)) then HeldPollInterval (limits d)
    else OwnershipPollInterval (limits d) in
  let id := next d in
  MkDemand (limits d) (closed d)
    (<[key := MkEntry (entry_id entry) (subscribers entry) (held entry) (Some id)]> (sessions d))
    (<[id := MkTimer key (entry_id entry) interval]> (armed d)) (fired d) (S id).

(** A fresh [&demandSession{...}] with no timer. *)
Definition newEntry (n : Z) (h : bool) (d : Demand_) : demandSession * Demand_ :=
  (MkEntry (next d) n h None,
   MkDemand (limits d) (closed d) (sessions d) (armed d) (fired d) (S (next d))).

Definition rescheduleLocked (key : sessionKey) (entry : demandSession) (d : Demand_) : Demand_ :=
  let d := cancelPoll entry d in
  let '(fresh, d) := newEntry (subscribers entry) (held entry) d in
  scheduleLocked key fresh (put key fresh d).

Section Plane.
Context `{BindingPrimitives} {W : Type} `{Resolver W} `{Binder W} `{DemandEnv W}.

Definition hintLocked (key : sessionKey) (w : W) : W :=
  let '(page, w) := ReadPublicJournal (tipRequest key) w in
  match page with
  | Fail _ => w
  | Ok page =>
      let hint := MkJournalTip (key_tenant key) (key_session key) (page_CapturedTip page) in
      match validateTip hint with
      | Some _ => w
      | None => let '(_, w) := PublishJournalTip hint w in w
      end
  end.

Definition withHeld (entry : demandSession) (h : bool) : demandSession :=
  MkEntry (entry_id entry) (subscribers entry) h (stop entry).

Definition bindLocked (key : sessionKey) (entry : demandSession) (t : Bindings_) (w : W)
    : demandSession * Bindings_ * W :=
  let '(r, t, w) := Bindings.Acquire key t w in
  match r with
  | Fail _ => (entry, t, w)
  | Ok _ => (withHeld entry true, t, w)
  end.

Definition serveLocked (key : sessionKey) (entry : demandSession) (t : Bindings_) (w : W)
    : demandSession * Bindings_ * W :=
  let '(entry, t, w) := if held entry then (entry, t, w) else bindLocked key entry t w in
  if held entry then (entry, t, w) else (entry, t, hintLocked key w).

Definition refreshLocked (key : sessionKey) (entry : demandSession) (t : Bindings_) (w : W)
    : demandSession * Bindings_ * W :=
  let '(observed, w) := Owner (key_tenant key) (key_session key) w in
  match observed with
  | Fail _ => (entry, t, w)
  | Ok observed =>
      let '(t, w) := match observed with
                     | Some o => let '(_, t, w) := Bindings.Observe o t w in (t, w)
                     | None => (t, w)
                     end in
      let keep := match Bindings.Binding key t, observed with
                  | Some _, Some _ => transportHolds key w
                  | _, _ => false
                  end in
      if keep then (entry, t, w)
      else
        let '(_, t, w) := Bindings.Release key t w in
        (withHeld entry false, t, w)
  end.

Definition teardownLocked (key : sessionKey) (entry : demandSession) (d : Demand_) (t : Bindings_) (w : W)
    : option error * Demand_ * Bindings_ * W :=
  let d := cancelPoll entry d in
  let d := MkDemand (limits d) (closed d) (delete key (sessions d)) (armed d) (fired d) (next d) in
  let w := watcher_Unwatched key w in
  if negb (held entry) then (None, d, t, w)
  else let '(err, t, w) := Bindings.Release key t w in (err, d, t, w).

Definition Acquire (key : sessionKey) (d : Demand_) (t : Bindings_) (w : W)
    : option error * Demand_ * Bindings_ * W :=
  if closed d then (Some ErrDemandClosed, d, t, w)
  else
    match sessions d !! key with
    | Some entry => (None, put key (MkEntry (entry_id entry) (subscribers entry + 1) (held entry) (stop entry)) d, t, w)
    | None =>
        let '(entry, d) := newEntry 1 false d in
        let d := put key entry d in
        let w := watcher_Watching key w in
        let '(entry, t, w) := serveLocked key entry t w in
        let w := watcher_Served key w in
        (None, scheduleLocked key entry d, t, w)
    end.

Definition Release (key : sessionKey) (d : Demand_) (t : Bindings_) (w : W)
    : option error * Demand_ * Bindings_ * W :=
  if closed d then (Some ErrDemandClosed, d, t, w)
  else
    match sessions d !! key with
    | None => (Some ErrNoDemand, d, t, w)
    | Some entry =>
        if subscribers entry =? 0 then (Some ErrNoDemand, d, t, w)
        else
          let entry := MkEntry (entry_id entry) (subscribers entry - 1) (held entry) (stop entry) in
          if 0 <? subscribers entry then (None, put key entry d, t, w)
          else teardownLocked key entry d t w
    end.

(** [errors.Join] of two possibly nil errors. *)
Definition join2 (a b : option error) : option error :=
  errors_join (match a with Some e => [e] | None => [] end ++ match b with Some e => [e] | None => [] end).

Definition Rebind (key : sessionKey) (d : Demand_) (t : Bindings_) (w : W)
    : option error * Demand_ * Bindings_ * W :=
  let '(abandoned, w) := lock_Abandoned w in
  match abandoned with
  | Some err => (Some err, d, t, w)
  | None =>
      let '(done, w) := ctx_Err w in
      match done with
      | Some err => (Some err, d, t, w)
      | None =>
          if closed d then (Some ErrDemandClosed, d, t, w)
          else
            match sessions d !! key with
            | None => (Some ErrNoDemand, d, t, w)
            | Some entry =>
                if held entry then
                  let '(err, t, w) := Bindings.Release key t w in
                  let entry := withHeld entry false in
                  let '(done, w) := ctx_Err w in
                  match done with
                  | Some _ =>
                      let '(done, w) := ctx_Err w in
                      (join2 err done, rescheduleLocked key entry d, t, w)
                  | None =>
                      let '(entry, t, w) := serveLocked key entry t w in
                      let '(done, w) := ctx_Err w in
                      (join2 err done, rescheduleLocked key entry d, t, w)
                  end
                else
                  let '(entry, t, w) := serveLocked key entry t w in
                  let '(done, w) := ctx_Err w in
                  (done, rescheduleLocked key entry d, t, w)
            end
      end
  end.

(** [poll], run by the fired timer [id]. *)
Definition poll (key : sessionKey) (scheduled : nat) (d : Demand_) (t : Bindings_) (w : W)
    : Demand_ * Bindings_ * W :=
  match sessions d !! key with
  | None => (d, t, w)
  | Some entry =>
      if negb (bool_decide (entry_id entry = scheduled)) then (d, t, w)
      else
        let '(entry, t, w) := if held entry then refreshLocked key entry t w else (entry, t, w) in
        let '(entry, t, w) := serveLocked key entry t w in
        (scheduleLocked key entry d, t, w)
  end.

(** [Close]'s loop over the entries, in the order Go ranges over them. *)
Fixpoint closeEntries (entries : list (sessionKey * demandSession)) (d : Demand_) (t : Bindings_) (w : W)
    : list error * Demand_ * Bindings_ * W :=
  match entries with
  | [] => ([], d, t, w)
  | (key, entry) :: rest =>
      let '(err, d, t, w) := teardownLocked key entry d t w in
      let '(failures, d, t, w) := closeEntries rest d t w in
      match err with
      | Some err => if errors_is err ErrRouteGone then (failures, d, t, w) else (err :: failures, d, t, w)
      | None => (failures, d, t, w)
      end
  end.

Definition Close (range : gmap sessionKey demandSession -> list (sessionKey * demandSession))
    (d : Demand_) (t : Bindings_) (w : W) : option error * Demand_ * Bindings_ * W :=
  let d := MkDemand (limits d) true (sessions d) (armed d) (fired d) (next d) in
  let '(failures, d, t, w) := closeEntries (range (sessions d)) d t w in
  (errors_join failures, d, t, w).

Definition Watching (key : sessionKey) (d : Demand_) : Z :=
  match sessions d !! key with Some entry => subscribers entry | None => 0 end.

Definition Len (d : Demand_) : Z := Z.of_nat (size (sessions d)).

(** The clock: an armed timer fires, and its [poll] takes the mutex later. *)
Definition fire (id : nat) (d : Demand_) : Demand_ :=
  match armed d !! id with
  | None => d
  | Some tm => MkDemand (limits d) (closed d) (sessions d) (delete id (armed d)) (<[id := tm]> (fired d)) (next d)
  end.

Definition run_fired (id : nat) (d : Demand_) (t : Bindings_) (w : W) : Demand_ * Bindings_ * W :=
  match fired d !! id with
  | None => (d, t, w)
  | Some tm =>
      poll (timer_key tm) (timer_entry tm)
        (MkDemand (limits d) (closed d) (sessions d) (armed d) (delete id (fired d)) (next d)) t w
  end.
End Plane.

(** ** Timers

    [hole] is the one session, if any, whose entry is between two timers. *)
Definition pending (d : Demand_) (id : nat) (tm : timer) : Prop := armed d !! id = Some tm \/ fired d !! id = Some tm.

Record tinv (hole : option sessionKey) (d : Demand_) : Prop := {
  t_entry : forall key e, sessions d !! key = Some e -> hole <> Some key ->
    exists id tm, stop e = Some id /\ pending d id tm /\ timer_key tm = key /\ timer_entry tm = entry_id e;
  t_armed : forall id tm, armed d !! id = Some tm ->
    hole <> Some (timer_key tm) /\
    exists e, sessions d !! timer_key tm = Some e /\ entry_id e = timer_entry tm /\ stop e = Some id;
  t_fired : forall id tm e, fired d !! id = Some tm -> sessions d !! timer_key tm = Some e ->
    entry_id e = timer_entry tm -> hole <> Some (timer_key tm) /\ stop e = Some id;
  t_next : forall id tm, pending d id tm -> (id < next d)%nat /\ (timer_entry tm < next d)%nat;
  t_disjoint : forall id tm, armed d !! id = Some tm -> fired d !! id = None;
  t_ids : forall key e, sessions d !! key = Some e -> (entry_id e < next d)%nat
}.

Lemma tinv_flags hole l c d :
  tinv hole d -> tinv hole (MkDemand l c (sessions d) (armed d) (fired d) (next d)).
Proof. by intros [T1 T2 T3 T4 T5 T6]. Qed.

Lemma tinv_put hole key e e' d :
  tinv hole d -> sessions d !! key = Some e -> entry_id e' = entry_id e -> stop e' = stop e ->
  tinv hole (put key e' d).
Proof.
  intros [T1 T2 T3 T4 T5 T6] Hk Hid Hst. split; try done; simpl.
  - intros k x [[<- <-]|[? ?]]%lookup_insert_Some Hh; [rewrite Hst, Hid|]; eauto.
  - intros id tm Ha. destruct (T2 _ _ Ha) as (? & x & Hx & ? & ?). split; [done|].
    destruct (decide (timer_key tm = key)) as [Heq|Hne].
    + exists e'. rewrite Heq, lookup_insert_eq. rewrite Heq in Hx. simplify_eq. split_and!; congruence.
    + exists x. by rewrite lookup_insert_ne.
  - intros id tm x Hf [[Heq <-]|[? ?]]%lookup_insert_Some Hx; [|eauto].
    rewrite Hst. subst key. by eapply T3; [..|congruence].
  - intros k x [[<- <-]|[? ?]]%lookup_insert_Some; [rewrite Hid|]; eauto.
Qed.

Lemma tinv_open key d : tinv None d -> sessions d !! key = None -> tinv (Some key) d.
Proof.
  intros [T1 T2 T3 T4 T5 T6] Hk. split; try done.
  - intros. eauto.
  - intros id tm Ha. destruct (T2 _ _ Ha) as (? & x & Hx & ?). split; [|eauto]. congruence.
  - intros id tm e Hf He Hid. split; [congruence|]. by eapply T3.
Qed.

Lemma tinv_shut key d : tinv (Some key) d -> sessions d !! key = None -> tinv None d.
Proof.
  intros [T1 T2 T3 T4 T5 T6] Hk. split; try done.
  - intros k e He _. apply T1; congruence.
  - intros id tm Ha. destruct (T2 _ _ Ha) as (? & ?). done.
  - intros id tm e Hf He Hid. split; [done|]. by eapply T3.
Qed.

Lemma tinv_fresh key n h d :
  tinv (Some key) d -> tinv (Some key) (put key (newEntry n h d).1 (newEntry n h d).2).
Proof.
  intros [T1 T2 T3 T4 T5 T6]. split; simpl.
  - intros k e He%lookup_insert_Some Hh. destruct He as [[-> _]|[_ He]]; [done|eauto].
  - intros id tm Ha. destruct (T2 _ _ Ha) as (Hh & e & He & ?). split; [done|]. exists e.
    rewrite lookup_insert_ne by congruence. done.
  - intros id tm e Hf [[Hk <-]|[? ?]]%lookup_insert_Some Hid; [|eauto].
    pose proof (T4 id tm (or_intror Hf)). simpl in *. lia.
  - intros id tm Hp. apply T4 in Hp. lia.
  - done.
  - intros k e [[_ <-]|[_ He]]%lookup_insert_Some; simpl; [lia|]. apply T6 in He. lia.
Qed.

Lemma tinv_schedule key e0 e d :
  tinv (Some key) d -> sessions d !! key = Some e0 -> entry_id e = entry_id e0 ->
  tinv None (scheduleLocked key e d).
Proof.
  intros [T1 T2 T3 T4 T5 T6] Hk Hid.
  assert (Hn : armed d !! next d = None /\ fired d !! next d = None).
  { split; apply eq_None_not_Some; intros [tm Hx];
      [pose proof (T4 _ tm (or_introl Hx))|pose proof (T4 _ tm (or_intror Hx))]; lia. }
  destruct Hn as [Hna Hnf]. split; unfold pending in *; simpl.
  - intros k x [[<- <-]|[Hne He]]%lookup_insert_Some _; simpl.
    + eexists _, _. split; [done|]. split; [left; apply lookup_insert_eq|done].
    + destruct (T1 _ _ He) as (id & tm & ? & Hp & ? & ?); [congruence|]. exists id, tm. split; [done|]. split; [|done].
      destruct Hp as [Hp|Hp]; [left; rewrite lookup_insert_ne; [done|congruence]|by right].
  - intros id tm [[<- <-]|[Hne Ha]]%lookup_insert_Some; (split; [done|]); simpl.
    + eexists. by rewrite lookup_insert_eq.
    + destruct (T2 _ _ Ha) as (? & x & ?). exists x. rewrite lookup_insert_ne by congruence. done.
  - intros id tm x Hf [[Heq <-]|[? ?]]%lookup_insert_Some Hx; (split; [done|]); simpl in *; [|by eapply T3].
    destruct (T3 id tm e0) as [Hh _]; [done|by rewrite <- Heq|congruence|congruence].
  - intros id tm Hp. rewrite lookup_insert_Some in Hp. apply T6 in Hk.
    destruct Hp as [[[<- <-]|[_ Hp]]|Hp]; simpl; [lia| |].
    + pose proof (T4 _ _ (or_introl Hp)). lia.
    + pose proof (T4 _ _ (or_intror Hp)). lia.
  - intros id tm [[<- _]|[_ Ha]]%lookup_insert_Some; eauto.
  - intros k x [[<- <-]|[_ He]]%lookup_insert_Some; simpl.
    + apply T6 in Hk. lia.
    + apply T6 in He. lia.
Qed.

(** Stopping an entry's timer and forgetting the entry. *)
Definition forget (key : sessionKey) (e : demandSession) (d : Demand_) : Demand_ :=
  let d := cancelPoll e d in
  MkDemand (limits d) (closed d) (delete key (sessions d)) (armed d) (fired d) (next d).

Lemma tinv_forget key e e0 d :
  tinv None d -> sessions d !! key = Some e0 -> stop e = stop e0 -> entry_id e = entry_id e0 ->
  tinv (Some key) (forget key e d).
Proof.
  intros [T1 T2 T3 T4 T5 T6] Hk Hst Hid. destruct (T1 _ _ Hk ltac:(done)) as (id0 & tm0 & Hs0 & Hp0 & Hk0 & He0).
  rewrite <- Hst in Hs0. unfold forget, cancelPoll. rewrite Hs0. split; unfold pending in *; simpl.
  - intros k x [Hne He]%lookup_delete_Some Hh. destruct (T1 _ _ He ltac:(done)) as (id & tm & Hs & Hp & ? & ?).
    exists id, tm. split; [done|]. split; [|done]. destruct Hp as [Hp|Hp]; [left|by right].
    rewrite lookup_delete_ne; [done|]. intros ->. destruct (T2 _ _ Hp) as (_ & y & ? & ? & ?).
    assert (tm0 = tm). { destruct Hp0 as [Hp0|Hp0]; [congruence|]. pose proof (T5 _ _ Hp). congruence. }
    congruence.
  - intros id tm [Hne Ha]%lookup_delete_Some. destruct (T2 _ _ Ha) as (_ & x & Hx & ? & ?).
    assert (timer_key tm <> key) by congruence. split; [congruence|]. exists x. by rewrite lookup_delete_ne.
  - intros id tm x Hf [Hne Hx]%lookup_delete_Some Hi. split; [congruence|]. by eapply T3.
  - intros id tm [[_ Hp]%lookup_delete_Some|Hp]; eauto.
  - intros id tm [_ Ha]%lookup_delete_Some. eauto.
  - intros k x [_ Hx]%lookup_delete_Some. eauto.
Qed.

Lemma reschedule_via_forget key e d :
  rescheduleLocked key e d =
  scheduleLocked key (newEntry (subscribers e) (held e) (forget key e d)).1
    (put key (newEntry (subscribers e) (held e) (forget key e d)).1
             (newEntry (subscribers e) (held e) (forget key e d)).2).
Proof.
  unfold rescheduleLocked, forget, put, newEntry. simpl. f_equal. by rewrite insert_delete_eq.
Qed.

Lemma tinv_reschedule key e e0 d :
  tinv None d -> sessions d !! key = Some e0 -> stop e = stop e0 -> entry_id e = entry_id e0 ->
  tinv None (rescheduleLocked key e d).
Proof.
  intros Ht Hk Hst Hid. rewrite reschedule_via_forget. eapply tinv_schedule; [by eapply tinv_fresh, tinv_forget| |done].
  simpl. by rewrite lookup_insert_eq.
Qed.

Lemma tinv_fire id d : tinv None d -> tinv None (fire id d).
Proof.
  intros Ht. unfold fire. destruct (armed d !! id) as [tm|] eqn:Ha; [|done]. destruct Ht as [T1 T2 T3 T4 T5 T6].
  destruct (T2 _ _ Ha) as (_ & e0 & He0 & Hid0 & Hst0). split; unfold pending in *; simpl; [..|done].
  - intros k e He _. destruct (T1 _ _ He ltac:(done)) as (i & tm' & ? & Hp & ?). exists i, tm'. split; [done|]. split; [|done].
    destruct (decide (i = id)) as [->|Hne].
    + right. rewrite lookup_insert_eq. destruct Hp as [Hp|Hp]; [congruence|]. pose proof (T5 _ _ Ha). congruence.
    + rewrite lookup_delete_ne, lookup_insert_ne by done. done.
  - intros i tm' [_ Hx]%lookup_delete_Some. eauto.
  - intros i tm' e [[<- <-]|[_ Hf]]%lookup_insert_Some He Hi; [|eauto]. split; [done|]. congruence.
  - intros i tm' [[_ Hx]%lookup_delete_Some|[[<- <-]|[_ Hx]]%lookup_insert_Some]; eauto.
  - intros i tm' [Hne Hx]%lookup_delete_Some. rewrite lookup_insert_ne by done. eauto.
Qed.

(** Taking a fired timer out: if it is the one of its session's entry, that
    entry has no timer left; otherwise nothing depended on it. *)
Definition unfire (id : nat) (d : Demand_) : Demand_ :=
  MkDemand (limits d) (closed d) (sessions d) (armed d) (delete id (fired d)) (next d).

Lemma tinv_unfire id tm d :
  tinv None d -> fired d !! id = Some tm ->
  tinv (match sessions d !! timer_key tm with
        | Some e => if decide (entry_id e = timer_entry tm) then Some (timer_key tm) else None
        | None => None
        end) (unfire id d).
Proof.
  intros [T1 T2 T3 T4 T5 T6] Hf.
  assert (Hone : forall e i tm', sessions d !! timer_key tm = Some e -> entry_id e = timer_entry tm ->
            pending d i tm' -> timer_key tm' = timer_key tm -> timer_entry tm' = entry_id e -> i = id).
  { intros e i tm' He Hi Hp Hk Hid. destruct (T3 _ _ _ Hf He Hi) as [_ Hs].
    destruct Hp as [Hp|Hp].
    - destruct (T2 _ _ Hp) as (_ & x & Hx & _ & Hsx). rewrite Hk in Hx. congruence.
    - destruct (T3 _ _ e Hp) as [_ Hsx]; [congruence|congruence|congruence]. }
  set (hole := match sessions d !! timer_key tm with Some e => _ | None => _ end).
  assert (Hhole : forall k, hole = Some k -> exists e, k = timer_key tm /\ sessions d !! k = Some e /\ entry_id e = timer_entry tm).
  { unfold hole. intros k Hk. branches. eauto. }
  assert (Hhole' : forall e, sessions d !! timer_key tm = Some e -> hole <> Some (timer_key tm) -> entry_id e <> timer_entry tm).
  { unfold hole. intros e -> Hh ?. rewrite decide_True in Hh by done. done. }
  clearbody hole. split; unfold pending in *; simpl; try done.
  - intros k e He Hh. destruct (T1 _ _ He ltac:(done)) as (i & tm' & ? & Hp & Hk & Hi). exists i, tm'. split; [done|]. split; [|done].
    destruct Hp as [Hp|Hp]; [by left|right]. rewrite lookup_delete_ne; [done|]. intros ->. simplify_eq. by eapply Hhole'.
  - intros i tm' Ha. destruct (T2 _ _ Ha) as (_ & x & Hx & Hi & Hsx). split; [|eauto].
    intros (e & Hk & He & Hie)%Hhole. 
    assert (i = id) as -> by (eapply (Hone e); [congruence|done|by left|done|congruence]).
    pose proof (T5 _ _ Ha). congruence.
  - intros i tm' e [Hne Hx]%lookup_delete_Some He Hi. split; [|by eapply T3].
    intros (e' & Hk & He' & Hie)%Hhole. apply Hne. symmetry. eapply (Hone e); [congruence|congruence|by right|done|done].
  - intros i tm' [Hp|[_ Hp]%lookup_delete_Some]; eauto.
  - intros i tm' Ha. rewrite lookup_delete_None. right. eauto.
Qed.

(** ** The plane over its table *)
Definition heldZ (e : demandSession) : Z := if held e then 1 else 0.

Definition heldOf (d : Demand_) (key : sessionKey) : Z :=
  match sessions d !! key with Some e => heldZ e | None => 0 end.

Record dcore (d : Demand_) (t : Bindings_) : Prop := {
  d_timers : tinv None d;
  d_subs : forall key e, sessions d !! key = Some e -> 1 <= subscribers e;
  d_demand : forall key, Bindings.Demand key t = heldOf d key
}.

Record dinv (d : Demand_) (t : Bindings_) : Prop := {
  d_core : dcore d t;
  d_open : Bindings.closed t = true -> closed d = true;
  d_closed : closed d = true -> sessions d = ∅
}.

Section PlaneLemmas.
Context `{BindingPrimitives} {W : Type} `{Resolver W} `{Binder W} `{DemandEnv W}.

(** [e'] is [e] but for [held], and the table moved [key]'s demand with it. *)
Record moved (key : sessionKey) (e e' : demandSession) (t t' : Bindings_) : Prop := {
  moved_id : entry_id e' = entry_id e;
  moved_subs : subscribers e' = subscribers e;
  moved_stop : stop e' = stop e;
  moved_open : Bindings.closed t' = false;
  moved_demand : forall k, Bindings.Demand k t' =
    if decide (k = key) then heldZ e' else Bindings.Demand k t
}.

Lemma moved_refl key e t :
  Bindings.closed t = false -> Bindings.Demand key t = heldZ e -> moved key e e t t.
Proof. intros ? Hd. split; try done. intros k. case_decide; by subst. Qed.

Lemma moved_trans key e1 e2 e3 t1 t2 t3 :
  moved key e1 e2 t1 t2 -> moved key e2 e3 t2 t3 -> moved key e1 e3 t1 t3.
Proof.
  intros [? ? ? ? D1] [? ? ? ? D2]. split; try congruence. intros k. rewrite D2. case_decide; [done|].
  by rewrite D1, decide_False.
Qed.

Lemma moved_held key e e' t t' : moved key e e' t t' -> Bindings.Demand key t' = heldZ e'.
Proof. intros [? ? ? ? Hd]. by rewrite Hd, decide_True. Qed.

Lemma serveLocked_moved key e t (w : W) e' t' w' :
  Bindings.closed t = false -> Bindings.Demand key t = heldZ e ->
  serveLocked key e t w = (e', t', w') -> moved key e e' t t'.
Proof.
  unfold serveLocked, bindLocked. intros Ho Hd Heq. destruct (held e) eqn:Hh; rewrite ?Hh in Heq; simplify_eq.
  { by apply moved_refl. }
  destruct (Bindings.Acquire key t w) as [[r t1] w1] eqn:Ha.
  destruct (Acquire_demand _ _ _ _ _ _ Ho Ha) as [Ho1 Hd1].
  destruct r; simpl in Heq; rewrite ?Hh in Heq; simplify_eq; split; try done; intros k; rewrite Hd1;
    unfold heldZ in *; simpl; case_decide; subst; rewrite ?Hh in *; lia.
Qed.

Lemma Release_moved key e t (w : W) r t' w' :
  Bindings.closed t = false -> Bindings.Demand key t = 1 ->
  Bindings.Release key t w = (r, t', w') -> moved key e (withHeld e false) t t'.
Proof.
  intros Ho Hd Heq. apply Release_demand in Heq as [Ho1 Hd1]; [|done|lia].
  split; try done. intros k. rewrite Hd1. unfold heldZ. simpl. case_decide; subst; lia.
Qed.

Lemma refreshLocked_moved key e t (w : W) e' t' w' :
  Bindings.closed t = false -> Bindings.Demand key t = 1 -> held e = true ->
  refreshLocked key e t w = (e', t', w') -> moved key e e' t t'.
Proof.
  unfold refreshLocked. intros Ho Hd Hh Heq.
  destruct (Owner _ _ w) as [[o|err] w1]; [|simplify_eq; apply moved_refl; [done|by unfold heldZ; rewrite Hh]].
  set (p := match o with Some _ => _ | None => _ end) in Heq.
  assert (Hp : Bindings.closed p.1 = false /\ forall k, Bindings.Demand k p.1 = Bindings.Demand k t).
  { unfold p. destruct o as [o|]; [|done]. destruct (Bindings.Observe o t w1) as [[dr t1] w2] eqn:Hob.
    apply Observe_demand in Hob as [? ?]. split; [simpl; congruence|done]. }
  destruct p as [t1 w2]. simpl in Hp. destruct Hp as [Ho1 Hd1].
  destruct (match Bindings.Binding key t1 with Some _ => _ | None => _ end); simplify_eq.
  - split; try done. intros k. rewrite Hd1. unfold heldZ. rewrite Hh. case_decide; by subst.
  - destruct (Bindings.Release key t1 w2) as [[r t2] w3] eqn:Hr. simplify_eq.
    apply (Release_moved _ e) in Hr as [? ? ? ? Hk]; [|done|by rewrite Hd1].
    split; try done. intros k. rewrite Hk. by case_decide.
Qed.

Lemma dinv_open d t : dinv d t -> closed d = false -> Bindings.closed t = false.
Proof. intros [_ Ho _] Hc. destruct (Bindings.closed t); [|done]. rewrite Ho in Hc; done. Qed.

(** Writing one entry back, the table having moved with it. *)
Lemma dinv_write key e2 d d' t t' :
  dinv d t -> closed d = false -> tinv None d' -> closed d' = closed d ->
  sessions d' = <[key := e2]> (sessions d) -> 1 <= subscribers e2 -> Bindings.closed t' = false ->
  (forall k, Bindings.Demand k t' = if decide (k = key) then heldZ e2 else Bindings.Demand k t) ->
  dinv d' t'.
Proof.
  intros [[_ Hs Hd] _ _] Hc Ht Hc' Hs' Hsub Ho Hdem. split; [split; [done| |]|congruence|congruence].
  - intros k e. rewrite Hs'. intros [[_ <-]|[_ ?]]%lookup_insert_Some; eauto.
  - intros k. rewrite Hdem. unfold heldOf. rewrite Hs', lookup_insert. rewrite Hd. unfold heldOf.
    repeat case_decide; congruence.
Qed.

(** The same for an operation that serves the entry of [key] and writes it. *)
Lemma dinv_served key e e' e2 d d' t t' :
  dinv d t -> closed d = false -> moved key e e' t t' -> 1 <= subscribers e ->
  tinv None d' -> closed d' = closed d -> sessions d' = <[key := e2]> (sessions d) ->
  subscribers e2 = subscribers e' -> held e2 = held e' -> dinv d' t'.
Proof.
  intros Hi Hc [_ Hms _ Hmo Hmd] Hsub Ht Hc' Hs' Hs2 Hh2. eapply dinv_write; try done; [congruence|].
  intros k. rewrite Hmd. unfold heldZ. by rewrite Hh2.
Qed.

Lemma sessions_schedule key e d :
  sessions (scheduleLocked key e d) =
  <[key := MkEntry (entry_id e) (subscribers e) (held e) (Some (next d))]> (sessions d).
Proof. done. Qed.

Lemma sessions_reschedule key e d :
  exists i n, sessions (rescheduleLocked key e d) = <[key := MkEntry i (subscribers e) (held e) (Some n)]> (sessions d).
Proof.
  unfold rescheduleLocked, cancelPoll. destruct (stop e); simpl; do 2 eexists; by rewrite insert_insert_eq.
Qed.

Lemma closed_reschedule key e d : closed (rescheduleLocked key e d) = closed d.
Proof. unfold rescheduleLocked, cancelPoll. by destruct (stop e). Qed.

Lemma Acquire_dinv key d t (w : W) r d' t' w' :
  Acquire key d t w = (r, d', t', w') -> dinv d t -> dinv d' t'.
Proof.
  unfold Acquire. intros Heq Hi. destruct (closed d) eqn:Hc; [by simplify_eq|].
  pose proof (dinv_open _ _ Hi Hc) as Ho. pose proof (d_core _ _ Hi) as Hcore. destruct (sessions d !! key) as [e|] eqn:Hk.
  - simplify_eq. eapply (dinv_write key); try done; [by eapply tinv_put; [apply Hcore|..]| |].
    + pose proof (d_subs _ _ Hcore _ _ Hk). simpl. lia.
    + intros k. rewrite (d_demand _ _ Hcore k). unfold heldOf. case_decide; [subst; by rewrite Hk|done].
  - simpl in Heq. destruct (serveLocked _ _ _ _) as [[e1 t1] w1] eqn:Hsv. simplify_eq.
    apply serveLocked_moved in Hsv as Hm; [|done|by rewrite (d_demand _ _ Hcore); unfold heldOf; rewrite Hk].
    eapply (dinv_served key (MkEntry (next d) 1 false None) e1
      (MkEntry (entry_id e1) (subscribers e1) (held e1) (Some (S (next d))))); try done.
    + eapply (tinv_schedule key (newEntry 1 false d).1); [|by simpl; rewrite lookup_insert_eq|by destruct Hm].
      apply (tinv_fresh key 1 false d), tinv_open; [apply Hcore|done].
    + rewrite sessions_schedule. simpl. by rewrite insert_insert_eq.
Qed.

Lemma teardown_dcore key e e0 d t (w : W) r d' t' w' :
  teardownLocked key e d t w = (r, d', t', w') -> dcore d t -> Bindings.closed t = false ->
  sessions d !! key = Some e0 -> stop e = stop e0 -> entry_id e = entry_id e0 -> held e = held e0 ->
  dcore d' t' /\ Bindings.closed t' = false /\ closed d' = closed d /\ sessions d' = delete key (sessions d).
Proof.
  unfold teardownLocked. fold (forget key e d). intros Heq Hi Ho Hk Hst Hid Hh.
  pose proof (d_demand _ _ Hi key) as Hdk. unfold heldOf, heldZ in Hdk. rewrite Hk, <- Hh in Hdk.
  assert (Ht : tinv None (forget key e d)).
  { apply (tinv_shut key); [by eapply tinv_forget; [apply Hi|..]|]. simpl. apply lookup_delete_eq. }
  assert (Hsess : sessions (forget key e d) = delete key (sessions d) /\ closed (forget key e d) = closed d).
  { unfold forget, cancelPoll. by destruct (stop e). }
  destruct Hsess as [Hs Hcl].
  enough (d' = forget key e d /\ Bindings.closed t' = false /\
          forall k, Bindings.Demand k t' = if decide (k = key) then 0 else Bindings.Demand k t) as (-> & Ho' & Hd').
  { split_and!; try done. split; [done| |].
    - intros k x. rewrite Hs. intros [_ ?]%lookup_delete_Some. by eapply Hi.
    - intros k. rewrite Hd', (d_demand _ _ Hi). unfold heldOf. rewrite Hs, lookup_delete. repeat case_decide; congruence. }
  destruct (held e); simpl in Heq.
  - destruct (Bindings.Release key t _) as [[err t1] w1] eqn:Hr. simplify_eq.
    apply Release_demand in Hr as [? Hd1]; [|done|lia]. split_and!; try done. intros k. rewrite Hd1. case_decide; subst; lia.
  - simplify_eq. split_and!; try done. intros k. case_decide; by subst.
Qed.

Lemma Release_dinv key d t (w : W) r d' t' w' :
  Release key d t w = (r, d', t', w') -> dinv d t -> dinv d' t'.
Proof.
  unfold Release. intros Heq Hi. destruct (closed d) eqn:Hc; [by simplify_eq|].
  pose proof (dinv_open _ _ Hi Hc) as Ho. pose proof (d_core _ _ Hi) as Hcore.
  destruct (sessions d !! key) as [e|] eqn:Hk; [|by simplify_eq].
  destruct (subscribers e =? 0); [by simplify_eq|]. simpl in Heq. destruct (0 <? _) eqn:Hp; reflect_guards.
  - simplify_eq. eapply (dinv_write key); try done; [by eapply tinv_put; [apply Hcore|..]|simpl; lia|].
    intros k. rewrite (d_demand _ _ Hcore k). unfold heldOf. case_decide; [subst; by rewrite Hk|done].
  - eapply teardown_dcore in Heq as (? & ? & ? & ?); [|done..]. split; [done|congruence|congruence].
Qed.

Lemma dinv_reschedule key e e' d t t' :
  dinv d t -> closed d = false -> sessions d !! key = Some e -> moved key e e' t t' ->
  dinv (rescheduleLocked key e' d) t'.
Proof.
  intros Hi Hc Hk Hm. pose proof (d_core _ _ Hi) as Hcore. destruct (sessions_reschedule key e' d) as (i & n & Hs).
  eapply dinv_served; try done.
  - by eapply Hcore.
  - eapply tinv_reschedule; [apply Hcore|done|by destruct Hm..].
  - apply closed_reschedule.
Qed.

Lemma Rebind_dinv key d t (w : W) r d' t' w' :
  Rebind key d t w = (r, d', t', w') -> dinv d t -> dinv d' t'.
Proof.
  unfold Rebind. intros Heq Hi. destruct (lock_Abandoned w) as [[?|] w1]; [by simplify_eq|].
  destruct (ctx_Err w1) as [[?|] w2]; [by simplify_eq|]. destruct (closed d) eqn:Hc; [by simplify_eq|].
  pose proof (dinv_open _ _ Hi Hc) as Ho. pose proof (d_demand _ _ (d_core _ _ Hi) key) as Hd.
  unfold heldOf in Hd. destruct (sessions d !! key) as [e|] eqn:Hk; [|by simplify_eq].
  destruct (held e) eqn:Hh.
  - destruct (Bindings.Release key t w2) as [[err t1] w3] eqn:Hr.
    apply (Release_moved _ e) in Hr; [|done|by rewrite Hd; unfold heldZ; rewrite Hh].
    destruct (ctx_Err w3) as [[?|] w4].
    + destruct (ctx_Err w4). simplify_eq. by eapply dinv_reschedule.
    + destruct (serveLocked key (withHeld e false) t1 w4) as [[e2 t2] w5] eqn:Hs. destruct (ctx_Err w5). simplify_eq.
      eapply dinv_reschedule; [done..|]. eapply moved_trans; [done|].
      eapply serveLocked_moved; [apply Hr|by eapply moved_held|done].
  - destruct (serveLocked key e t w2) as [[e2 t2] w3] eqn:Hs. destruct (ctx_Err w3). simplify_eq.
    eapply dinv_reschedule; [done..|]. by eapply serveLocked_moved.
Qed.

Lemma dinv_timers d d' t :
  dinv d t -> tinv None d' -> sessions d' = sessions d -> closed d' = closed d -> dinv d' t.
Proof.
  intros [[_ Hs Hd] Ho Hc] Ht Hse Hcl. split; [split; [done| |]|rewrite Hcl; done|rewrite Hcl, Hse; done].
  - rewrite Hse. done.
  - intros k. rewrite Hd. unfold heldOf. by rewrite Hse.
Qed.

(** A poll of the entry that scheduled it. *)
Lemma poll_live key e d t (w : W) d' t' w' :
  dinv d t -> closed d = false -> sessions d !! key = Some e -> forall d0,
  tinv (Some key) d0 -> sessions d0 = sessions d -> closed d0 = closed d ->
  poll key (entry_id e) d0 t w = (d', t', w') -> dinv d' t'.
Proof.
  intros Hi Hc Hk d0 Ht0 Hs0 Hc0. unfold poll. rewrite Hs0, Hk, bool_decide_true by done. simpl.
  pose proof (dinv_open _ _ Hi Hc) as Ho. pose proof (d_demand _ _ (d_core _ _ Hi) key) as Hd.
  unfold heldOf in Hd. rewrite Hk in Hd. intros Heq.
  destruct (if held e then refreshLocked key e t w else (e, t, w)) as [[e1 t1] w1] eqn:Hr.
  assert (Hm1 : moved key e e1 t t1).
  { unfold heldZ in Hd. destruct (held e) eqn:Hh; [by eapply refreshLocked_moved|]. simplify_eq.
    apply moved_refl; [done|]. unfold heldZ. by rewrite Hh. }
  destruct (serveLocked key e1 t1 w1) as [[e2 t2] w2] eqn:Hsv. simplify_eq.
  assert (Hm : moved key e e2 t t').
  { eapply moved_trans; [done|]. eapply serveLocked_moved; [apply Hm1|by eapply moved_held|done]. }
  eapply (dinv_served key e e2 (MkEntry (entry_id e2) (subscribers e2) (held e2) (Some (next d0)))); try done.
  - by eapply (d_core _ _ Hi).
  - eapply tinv_schedule; [done|by rewrite Hs0|by destruct Hm].
  - by rewrite sessions_schedule, Hs0.
Qed.

Lemma run_fired_dinv id d t (w : W) d' t' w' :
  run_fired id d t w = (d', t', w') -> dinv d t -> dinv d' t'.
Proof.
  unfold run_fired. intros Heq Hi. destruct (fired d !! id) as [tm|] eqn:Hf; [|by simplify_eq].
  fold (unfire id d) in Heq. pose proof (tinv_unfire _ _ _ (d_timers _ _ (d_core _ _ Hi)) Hf) as Ht.
  destruct (sessions d !! timer_key tm) as [e|] eqn:Hk.
  - case_decide as He.
    + rewrite <- He in Heq. eapply poll_live; try done.
      destruct (closed d) eqn:Hc; [|done]. by rewrite (d_closed _ _ Hi Hc) in Hk.
    + unfold poll in Heq. simpl in Heq. rewrite Hk, bool_decide_false in Heq by done. simplify_eq/=.
      by eapply dinv_timers.
  - unfold poll in Heq. simpl in Heq. rewrite Hk in Heq. simplify_eq. by eapply dinv_timers.
Qed.

Lemma closeEntries_dcore entries : forall d t (w : W) failures d' t' w',
  closeEntries entries d t w = (failures, d', t', w') -> dcore d t -> Bindings.closed t = false ->
  NoDup entries.*1 -> Forall (fun p => sessions d !! p.1 = Some p.2) entries ->
  dcore d' t' /\ Bindings.closed t' = false /\ closed d' = closed d /\
  forall key, sessions d' !! key = if decide (key ∈ entries.*1) then None else sessions d !! key.
Proof.
  induction entries as [|[key e] rest IH]; intros d t w failures d' t' w' Heq Hcore Ho Hnd Hall.
  { cbn [closeEntries] in Heq. by simplify_eq. }
  simpl in Heq, Hnd. apply NoDup_cons in Hnd as [Hni Hnd]. apply Forall_cons in Hall as [Hk Hall]. simpl in Hk.
  destruct (teardownLocked key e d t w) as [[[err d1] t1] w1] eqn:Htd.
  eapply teardown_dcore in Htd as (Hcore1 & Ho1 & Hc1 & Hs1); [|done..].
  destruct (closeEntries rest d1 t1 w1) as [[[fs d2] t2] w2] eqn:Hcl.
  apply IH in Hcl as (Hcore2 & Ho2 & Hc2 & Hs2); try done.
  - enough (d' = d2 /\ t' = t2) as [-> ->]; [|by branches].
    split_and!; try done; [congruence|]. intros k. rewrite Hs2, Hs1, lookup_delete. cbn [fmap list_fmap].
    repeat case_decide; set_solver.
  - rewrite Hs1. rewrite Forall_forall in *. intros p Hp. rewrite lookup_delete_ne; [by apply Hall|].
    intros ->. apply Hni. by apply list_elem_of_fmap_2.
Qed.

Lemma Close_dinv range d t (w : W) r d' t' w' :
  (forall m, range m ≡ₚ map_to_list m) ->
  Close range d t w = (r, d', t', w') -> dinv d t -> dinv d' t' /\ closed d' = true.
Proof.
  intros Hrange Heq Hi. unfold Close in Heq. cbn [sessions limits armed fired next] in Heq.
  destruct (closed d) eqn:Hc.
  - assert (range (sessions d) = []) as Hnil.
    { apply Permutation_nil_r. rewrite Hrange, (d_closed _ _ Hi Hc). by rewrite map_to_list_empty. }
    rewrite Hnil in Heq. simplify_eq/=. split; [|done]. eapply dinv_timers; [done|apply tinv_flags, Hi|done|done].
  - destruct (closeEntries _ _ t w) as [[[fs d1] t1] w1] eqn:Hcl. simplify_eq.
    pose proof (Hrange (sessions d)) as Hp.
    apply closeEntries_dcore in Hcl as (Hcore & Ho & Hc1 & Hs).
    + simpl in Hc1. split; [|done]. split; [done|done|]. intros _. apply map_eq. intros k. rewrite Hs, lookup_empty.
      case_decide as Hin; [done|]. simpl. destruct (sessions d !! k) as [e|] eqn:Hk; [|done]. destruct Hin. rewrite Hp.
      apply list_elem_of_fmap. exists (k, e). by rewrite elem_of_map_to_list.
    + destruct Hi as [[? ? ?] ? ?]. split; [by apply tinv_flags|done|done].
    + by eapply dinv_open.
    + rewrite Hp. apply NoDup_fst_map_to_list.
    + rewrite Hp. apply Forall_forall. intros [k e]. by rewrite elem_of_map_to_list.
Qed.
End PlaneLemmas.

(** ** The stack: the plane, its table and the calls it made of the Binder *)
#[global] Instance logged_demand_env {W} `{DemandEnv W} : DemandEnv (W * list bcall) := {|
  demand_tips := {| ReadPublicJournal req w := let '(r, w') := ReadPublicJournal req w.1 in (r, (w', w.2)) |};
  validateTip := validateTip;
  PublishJournalTip hint w := let '(r, w') := PublishJournalTip hint w.1 in (r, (w', w.2));
  watcher_Watching key w := (watcher_Watching key w.1, w.2);
  watcher_Served key w := (watcher_Served key w.1, w.2);
  watcher_Unwatched key w := (watcher_Unwatched key w.1, w.2);
  ctx_Err w := let '(r, w') := ctx_Err w.1 in (r, (w', w.2));
  lock_Abandoned w := let '(r, w') := lock_Abandoned w.1 in (r, (w', w.2))
|}.

Section Stack.
Context `{BindingPrimitives} {W : Type} `{Resolver W} `{Binder W} `{DemandEnv W}.

Abbreviation world := (W * list bcall)%type.
Abbreviation steps := (rtc (table_step (W := W))).

(** Every operation of the plane reaches the table by the table's own
    operations and changes of the world. *)
Lemma steps_world t (w w' : world) : w.2 = w'.2 -> steps (t, w) (t, w').
Proof. destruct w as [w log], w' as [w' log']. simpl. intros ->. apply rtc_once. constructor. Qed.

Lemma steps_Owner tenant session t (w : world) r w' : Owner tenant session w = (r, w') -> steps (t, w) (t, w').
Proof. intros Heq. apply steps_world. simpl in Heq. branches; done. Qed.

Lemma steps_ctx t (w : world) r w' : ctx_Err w = (r, w') -> steps (t, w) (t, w').
Proof. intros Heq. apply steps_world. simpl in Heq. branches; done. Qed.

Lemma steps_hint key t (w : world) : steps (t, w) (t, hintLocked key w).
Proof. apply steps_world. unfold hintLocked. simpl. branches; done. Qed.

Lemma steps_release key t (w : world) r t' w' : Bindings.Release key t w = (r, t', w') -> steps (t, w) (t', w').
Proof. intros Heq. apply rtc_once. by eapply step_Release. Qed.

Lemma steps_serve key e t (w : world) e' t' w' : serveLocked key e t w = (e', t', w') -> steps (t, w) (t', w').
Proof.
  unfold serveLocked, bindLocked. intros Heq.
  destruct (held e) eqn:Hh; rewrite ?Hh in Heq; simplify_eq; [done|].
  destruct (Bindings.Acquire key t w) as [[r t1] w1] eqn:Ha.
  assert (steps (t, w) (t1, w1)) by (apply rtc_once; by eapply step_Acquire).
  destruct r; simpl in Heq; rewrite ?Hh in Heq; simplify_eq; [done|].
  eapply rtc_trans; [done|]. apply steps_hint.
Qed.

Lemma steps_refresh key e t (w : world) e' t' w' : refreshLocked key e t w = (e', t', w') -> steps (t, w) (t', w').
Proof.
  unfold refreshLocked. intros Heq. destruct (Owner _ _ w) as [o w1] eqn:Hown. apply (steps_Owner _ _ t) in Hown.
  destruct o as [o|]; [|by simplify_eq]. eapply rtc_trans; [done|]. clear Hown.
  set (p := match o with Some _ => _ | None => _ end) in Heq.
  assert (Hp : steps (t, w1) (p.1, p.2)).
  { unfold p. destruct o as [o|]; [|done]. destruct (Bindings.Observe o t w1) as [[? ?] ?] eqn:Hob.
    apply rtc_once. by eapply step_Observe. }
  destruct p as [t1 w2]. eapply rtc_trans; [done|]. simpl.
  destruct (match Bindings.Binding key t1 with Some _ => _ | None => _ end); [by simplify_eq|].
  destruct (Bindings.Release key t1 w2) as [[? ?] ?] eqn:Hr. simplify_eq. by eapply steps_release.
Qed.

Lemma steps_teardown key e d t (w : world) r d' t' w' :
  teardownLocked key e d t w = (r, d', t', w') -> steps (t, w) (t', w').
Proof.
  unfold teardownLocked. intros Heq. transitivity (t, watcher_Unwatched key w); [by apply steps_world|].
  destruct (held e); simpl in Heq; [|by simplify_eq].
  destruct (Bindings.Release key t _) as [[? ?] ?] eqn:Hr. simplify_eq. by eapply steps_release.
Qed.

Lemma steps_demand_Acquire key d t (w : world) r d' t' w' :
  Acquire key d t w = (r, d', t', w') -> steps (t, w) (t', w').
Proof.
  unfold Acquire. intros Heq. destruct (closed d); [by simplify_eq|].
  destruct (sessions d !! key); [by simplify_eq|]. cbn [newEntry] in Heq.
  destruct (serveLocked key _ t _) as [[e1 t1] w1] eqn:Hs. simplify_eq.
  transitivity (t, watcher_Watching key w); [by apply steps_world|].
  eapply rtc_trans; [by eapply steps_serve|]. by apply steps_world.
Qed.

Lemma steps_demand_Release key d t (w : world) r d' t' w' :
  Release key d t w = (r, d', t', w') -> steps (t, w) (t', w').
Proof.
  unfold Release. intros Heq. destruct (closed d); [by simplify_eq|].
  destruct (sessions d !! key); [|by simplify_eq]. destruct (_ =? 0); [by simplify_eq|].
  destruct (0 <? _); [by simplify_eq|]. by eapply steps_teardown.
Qed.

Lemma steps_Rebind key d t (w : world) r d' t' w' :
  Rebind key d t w = (r, d', t', w') -> steps (t, w) (t', w').
Proof.
  unfold Rebind. intros Heq. destruct (lock_Abandoned w) as [a w1] eqn:Hl.
  assert (steps (t, w) (t, w1)) by (apply steps_world; simpl in Hl; branches; done).
  eapply rtc_trans; [done|]. destruct a; [by simplify_eq|].
  destruct (ctx_Err w1) as [c w2] eqn:Hc. eapply rtc_trans; [by eapply steps_ctx|].
  destruct c; [by simplify_eq|]. destruct (closed d); [by simplify_eq|].
  destruct (sessions d !! key) as [e|]; [|by simplify_eq]. destruct (held e).
  - destruct (Bindings.Release key t w2) as [[err t1] w3] eqn:Hr. eapply rtc_trans; [by eapply steps_release|].
    destruct (ctx_Err w3) as [c w4] eqn:Hc2. eapply rtc_trans; [by eapply steps_ctx|]. destruct c.
    + destruct (ctx_Err w4) eqn:Hc3. simplify_eq. by eapply steps_ctx.
    + destruct (serveLocked _ _ _ _) as [[e1 t2] w5] eqn:Hs. eapply rtc_trans; [by eapply steps_serve|].
      destruct (ctx_Err w5) eqn:Hc3. simplify_eq. by eapply steps_ctx.
  - destruct (serveLocked _ _ _ _) as [[e1 t2] w5] eqn:Hs. eapply rtc_trans; [by eapply steps_serve|].
    destruct (ctx_Err w5) eqn:Hc3. simplify_eq. by eapply steps_ctx.
Qed.

Lemma steps_run_fired id d t (w : world) d' t' w' :
  run_fired id d t w = (d', t', w') -> steps (t, w) (t', w').
Proof.
  unfold run_fired, poll. intros Heq. destruct (fired d !! id); [|by simplify_eq]. simpl in Heq.
  destruct (sessions d !! _) as [e|]; [|by simplify_eq]. destruct (negb _); [by simplify_eq|].
  destruct (if held e then _ else _) as [[e1 t1] w1] eqn:Hr.
  assert (steps (t, w) (t1, w1)).
  { destruct (held e); [by eapply steps_refresh|by simplify_eq]. }
  destruct (serveLocked _ _ _ _) as [[e2 t2] w2] eqn:Hs. simplify_eq.
  eapply rtc_trans; [done|]. by eapply steps_serve.
Qed.

Lemma steps_closeEntries entries : forall d t (w : world) fs d' t' w',
  closeEntries entries d t w = (fs, d', t', w') -> steps (t, w) (t', w').
Proof.
  induction entries as [|[key e] rest IH]; intros d t w fs d' t' w' Hc; simpl in Hc; [by simplify_eq|].
  destruct (teardownLocked key e d t w) as [[[err d1] t1] w1] eqn:Htd.
  destruct (closeEntries rest d1 t1 w1) as [[[fs2 d2] t2] w2] eqn:Hc2.
  eapply rtc_trans; [by eapply steps_teardown|].
  assert (t2 = t' /\ w2 = w') as [-> ->] by (branches; done). by eapply IH.
Qed.

Lemma steps_demand_Close range d t (w : world) r d' t' w' :
  Close range d t w = (r, d', t', w') -> steps (t, w) (t', w').
Proof.
  unfold Close. intros Heq. destruct (closeEntries _ _ t w) as [[[fs d1] t1] w1] eqn:Hc. simplify_eq.
  by eapply steps_closeEntries.
Qed.

(** Everything that happens to the stack. The table is also used directly: by
    command delivery at any time, and by the server's shutdown, which closes
    the plane first. *)
Inductive stack_step : Demand_ * Bindings_ * world -> Demand_ * Bindings_ * world -> Prop :=
| stack_Acquire key d t w r d' t' w' : Acquire key d t w = (r, d', t', w') -> stack_step (d, t, w) (d', t', w')
| stack_Release key d t w r d' t' w' : Release key d t w = (r, d', t', w') -> stack_step (d, t, w) (d', t', w')
| stack_Rebind key d t w r d' t' w' : Rebind key d t w = (r, d', t', w') -> stack_step (d, t, w) (d', t', w')
| stack_Close range d t w r d' t' w' :
    (forall m, range m ≡ₚ map_to_list m) -> Close range d t w = (r, d', t', w') -> stack_step (d, t, w) (d', t', w')
| stack_fire id d t w : stack_step (d, t, w) (fire id d, t, w)
| stack_poll id d t w d' t' w' : run_fired id d t w = (d', t', w') -> stack_step (d, t, w) (d', t', w')
| stack_Deliver key c d t w r t' w' : Bindings.Deliver key c t w = (r, t', w') -> stack_step (d, t, w) (d, t', w')
| stack_CloseTable range d t w r t' w' : closed d = true ->
    (forall m, range m ≡ₚ map_to_list m) -> Bindings.Close range t w = (r, t', w') -> stack_step (d, t, w) (d, t', w')
| stack_world d t w w' log : stack_step (d, t, (w, log)) (d, t, (w', log)).

Definition stack_inv (s : Demand_ * Bindings_ * world) : Prop := dinv s.1.1 s.1.2 /\ Bindings.inv (s.1.2, s.2).

Lemma steps_inv s s' : steps s s' -> Bindings.inv s -> Bindings.inv s'.
Proof. induction 1; eauto using table_step_inv. Qed.

Lemma dinv_table d t t' :
  dinv d t -> Bindings.closed t' = Bindings.closed t -> (forall k, Bindings.Demand k t' = Bindings.Demand k t) -> dinv d t'.
Proof. intros [[? ? Hd] ? ?] Hc Hk. split; [split; [done|done|]|rewrite Hc; done|done]. intros k. by rewrite Hk. Qed.

Lemma stack_step_inv s s' : stack_inv s -> stack_step s s' -> stack_inv s'.
Proof.
  unfold stack_inv. intros [Hd Hb] Hstep. destruct Hstep as
    [key d t w r d' t' w' Heq|key d t w r d' t' w' Heq|key d t w r d' t' w' Heq|range d t w r d' t' w' Hr Heq
    |id d t w|id d t w d' t' w' Heq|key c d t w r t' w' Heq|range d t w r t' w' Hc Hr Heq|d t w w' log]; simpl in *.
  - split; [by eapply (Acquire_dinv (W := world))|by eapply steps_inv; [eapply steps_demand_Acquire|]].
  - split; [by eapply (Release_dinv (W := world))|by eapply steps_inv; [eapply steps_demand_Release|]].
  - split; [by eapply (Rebind_dinv (W := world))|by eapply steps_inv; [eapply steps_Rebind|]].
  - split; [by eapply (Close_dinv (W := world))|by eapply steps_inv; [eapply steps_demand_Close|]].
  - split; [|done]. eapply dinv_timers; [done|apply tinv_fire, Hd|unfold fire; by case_match..].
  - split; [by eapply (run_fired_dinv (W := world))|by eapply steps_inv; [eapply steps_run_fired|]].
  - split; [|by eapply table_step_inv; [|eapply step_Deliver]].
    apply Deliver_demand in Heq as [? ?]. by eapply dinv_table.
  - split; [|by eapply table_step_inv; [|eapply step_Close]].
    unfold Bindings.Close in Heq. destruct (closeRoutes _ _). simplify_eq. destruct Hd as [[? ? ?] ? Hcd].
    split; [split; [done|done|]|done|done]. intros k. unfold heldOf. by rewrite (Hcd Hc), lookup_empty.
  - split; [done|]. eapply table_step_inv; [done|]. constructor.
Qed.

Definition fresh_stack (s : Demand_ * Bindings_ * world) : Prop :=
  exists l, NewDemand l = Ok s.1.1 /\ s.1.2 = NewBindings /\ s.2.2 = [].

Lemma stack_inv_fresh s : fresh_stack s -> stack_inv s.
Proof.
  destruct s as [[d t] w]. intros (l & Hn & Ht & Hw). simpl in *. unfold NewDemand in Hn. case_match; simplify_eq.
  split; [|apply inv_fresh; by split]. simpl. split; [split; [|done|done]|done|done].
  split; unfold pending; simpl; try done; set_solver.
Qed.

Lemma stack_reachable_inv s : reachable fresh_stack stack_step s -> stack_inv s.
Proof. apply reachable_invariant; [apply stack_inv_fresh|apply stack_step_inv]. Qed.

(** In every state the demand plane reaches: a session with subscribers
    has exactly one pending poll, and no armed timer polls anything else; the
    plane holds exactly one unit of the routing table's demand for each session
    it records as held and none for any other; and the calls the table made
    balance with its routes. *)
Theorem demand_plane_invariant d t w :
  reachable fresh_stack stack_step (d, t, w) ->
  (forall key e, sessions d !! key = Some e ->
     1 <= subscribers e /\
     exists id tm, pending d id tm /\ timer_key tm = key /\ timer_entry tm = entry_id e /\
       forall id' tm', pending d id' tm' -> timer_key tm' = key -> timer_entry tm' = entry_id e -> id' = id) /\
  (forall id tm, armed d !! id = Some tm ->
     exists e, sessions d !! timer_key tm = Some e /\ entry_id e = timer_entry tm) /\
  (forall key, Bindings.Demand key t = heldOf d key) /\
  agrees t w.2.
Proof.
  intros [[[[T1 T2 T3 T4 T5 T6] Hs Hd] _ _] Hb]%stack_reachable_inv. simpl in *. split_and!.
  - intros key e He. split; [eauto|]. destruct (T1 _ _ He ltac:(done)) as (id & tm & Hst & Hp & Hk & Hi).
    exists id, tm. split_and!; try done. intros id' tm' [Ha|Hf] Hk' Hi'.
    + destruct (T2 _ _ Ha) as (_ & x & Hx & _ & Hsx). congruence.
    + destruct (T3 _ _ e Hf) as [_ Hsx]; congruence.
  - intros id tm Ha. destruct (T2 _ _ Ha) as (_ & x & ? & ? & _). eauto.
  - done.
  - apply Hb.
Qed.

(** Once the demand plane has closed, no session is left in it, no timer
    is armed, and every route it ever bound has been unbound: no accepted bind is
    without its unbind, whatever polls still run afterwards. *)
Theorem closed_plane_holds_no_route d t w :
  reachable fresh_stack stack_step (d, t, w) -> closed d = true ->
  sessions d = ∅ /\ armed d = ∅ /\ Bindings.sessions t = ∅ /\ unreturned w.2 = ∅.
Proof.
  intros [[[[T1 T2 T3 T4 T5 T6] Hs Hd] Ho Hc] Hb]%stack_reachable_inv Hcl. simpl in *.
  specialize (Hc Hcl). assert (Ht : Bindings.sessions t = ∅).
  { apply map_empty. intros key. apply eq_None_not_Some. intros [r Hr].
    pose proof (inv_demand _ Hb _ _ Hr) as Hge. pose proof (Hd key) as Hk. unfold Bindings.Demand, heldOf in Hk.
    simpl in *. rewrite Hr, Hc, lookup_empty in Hk. lia. }
  split_and!; [done| |done|].
  - apply map_empty. intros id. apply eq_None_not_Some. intros [tm Ha].
    destruct (T2 _ _ Ha) as (_ & x & Hx & _). by rewrite Hc in Hx.
  - apply map_empty. intros key. rewrite (agrees_routes _ _ (inv_agrees _ Hb)). simpl.
    unfold table_route, Binding. by rewrite Ht.
Qed.
End Stack.

Section Refresh.
Context `{BindingPrimitives} {W : Type} `{Resolver W} `{Binder W} `{DemandEnv W}.

(** A poll of a held session keeps its route only while the directory
    names an owner that does not displace it and the transport still holds it;
    it never drops a route because the directory could not be read; and when it
    lets go, the session's demand on the table is gone with it. *)
Theorem refresh_keeps_only_current key e t (w : W) e' t' w' :
  Bindings.closed t = false -> Bindings.Demand key t = 1 -> held e = true ->
  refreshLocked key e t w = (e', t', w') ->
  match (Owner (key_tenant key) (key_session key) w).1 with
  | Fail _ => e' = e /\ t' = t
  | Ok None => held e' = false /\ Bindings.Demand key t' = 0 /\ Binding key t' = None
  | Ok (Some o) =>
      observed_key o = key ->
      if held e' then
        exists b, Binding key t = Some b /\ ~ displaces o (Key b) /\ t' = t /\ transportHolds key w' = true
      else Bindings.Demand key t' = 0 /\ Binding key t' = None
  end.
Proof.
  intros Ho Hd Hh Heq.
  assert (Hrel : forall t1 (w1 : W) r t2 w2, Bindings.closed t1 = false -> Bindings.Demand key t1 = 1 ->
    Bindings.Release key t1 w1 = (r, t2, w2) -> Bindings.Demand key t2 = 0 /\ Binding key t2 = None).
  { clear -H. intros t1 w1 r t2 w2 Ho1 Hd1 Hr. unfold Bindings.Release, Bindings.Demand, Binding in *. rewrite Ho1 in Hr.
    destruct (Bindings.sessions t1 !! key) as [rt|] eqn:Hs; [|lia]. rewrite Hd1 in Hr. simpl in Hr.
    enough (Bindings.sessions t2 = delete key (Bindings.sessions t1)) as -> by (by rewrite lookup_delete_eq).
    branches; done. }
  unfold refreshLocked in Heq. destruct (Owner _ _ w) as [[[o|]|err] w1]; simpl.
  - intros Hkey. destruct (Bindings.Observe o t w1) as [[dropped t1] w2] eqn:Hob.
    pose proof (Observe_demand _ _ _ _ _ _ Hob) as [Ho1 Hd1].
    destruct (Observe_spec _ _ _ _ _ _ Ho Hob) as (Hiff & Hdrop & Hkeep). rewrite Hkey in *.
    assert (Hgone : forall r t2 w3, Bindings.Release key t1 w2 = (r, t2, w3) -> Bindings.Demand key t2 = 0 /\ Binding key t2 = None).
    { intros. eapply Hrel; [|by rewrite Hd1|done]. congruence. }
    destruct (Binding key t1) as [b|] eqn:Hb; [destruct (transportHolds key w2) eqn:Hth|].
    + simplify_eq. rewrite Hh. destruct dropped; [by destruct Hdrop|]. destruct Hkeep as [-> ->]; [done|].
      exists b. split_and!; try done. intros Hdis. assert (false = true) by (apply Hiff; eauto). done.
    + destruct (Bindings.Release key t1 w2) as [[r t2] w3]. simplify_eq. simpl. eauto.
    + destruct (Bindings.Release key t1 w2) as [[r t2] w3]. simplify_eq. simpl. eauto.
  - destruct (Binding key t); (destruct (Bindings.Release key t w1) as [[r t2] w2] eqn:Hr; simplify_eq; simpl;
      split; [done|]; by eapply Hrel).
  - by simplify_eq.
Qed.
End Refresh.

(** ** The watcher

    [SetWatcher] composes one before the plane is used: the environment with its
    calls, or with calls that do nothing when there is none. Every theorem above
    holds of both, because it holds of any environment. *)
Record Watcher (W : Type) := MkWatcher {
  on_Watching : sessionKey -> W -> W; on_Served : sessionKey -> W -> W; on_Unwatched : sessionKey -> W -> W }.
Arguments on_Watching {W}.
Arguments on_Served {W}.
Arguments on_Unwatched {W}.

Definition discardWatcher {W} : Watcher W := MkWatcher W (fun _ w => w) (fun _ w => w) (fun _ w => w).

Definition SetWatcher {W} (watcher : option (Watcher W)) (env : DemandEnv W) : DemandEnv W :=
  let watcher := default discardWatcher watcher in
  {| demand_tips := @demand_tips W env; validateTip := @validateTip W env; PublishJournalTip := @PublishJournalTip W env;
     watcher_Watching := on_Watching watcher; watcher_Served := on_Served watcher; watcher_Unwatched := on_Unwatched watcher;
     ctx_Err := @ctx_Err W env; lock_Abandoned := @lock_Abandoned W env |}.

(** ** Witnesses *)
Definition demo_env : DemandEnv demo_world := {|
  demand_tips := {| ReadPublicJournal _ w := (Ok (JournalPageOf [] 4 4), w) |};
  validateTip _ := None;
  PublishJournalTip _ w := (None, w);
  watcher_Watching _ w := w;
  watcher_Served _ w := w;
  watcher_Unwatched _ w := w;
  ctx_Err w := (None, w);
  lock_Abandoned w := (None, w)
|}.

#[local] Existing Instances demo_primitives demo_resolver demo_binder demo_env.

Definition demo_plane : Demand_ := MkDemand DefaultDemandLimits false ∅ ∅ ∅ 0.

Lemma demand_plane_invariant_witness :
  exists d t w, (Acquire (W := demo_world * list bcall) demo_key demo_plane NewBindings (Some (demo_owner "h" 1), []))
    = (None, d, t, w) /\ Bindings.Demand demo_key t = 1 /\ heldOf d demo_key = 1.
Proof.
  destruct (Acquire (W := demo_world * list bcall) demo_key demo_plane NewBindings (Some (demo_owner "h" 1), []))
    as [[[r d] t] w] eqn:Ha.
  destruct (demand_plane_invariant (W := demo_world) d t w) as (_ & _ & Hd & _).
  { eapply reach_step; [apply reach_init|by eapply stack_Acquire]. by exists DefaultDemandLimits. }
  exists d, t, w. rewrite Hd. vm_compute in Ha. simplify_eq. split_and!; vm_compute; reflexivity.
Defined.

Lemma closed_plane_holds_no_route_witness :
  exists r d t w, Close (W := demo_world * list bcall) map_to_list demo_plane NewBindings (None, [])
    = (r, d, t, w) /\ unreturned w.2 = ∅.
Proof.
  destruct (Close (W := demo_world * list bcall) map_to_list demo_plane NewBindings (None, []))
    as [[[r d] t] w] eqn:Hc.
  exists r, d, t, w. split; [done|].
  apply (closed_plane_holds_no_route (W := demo_world) d t w).
  - eapply reach_step; [apply reach_init|by eapply (stack_Close map_to_list)]. by exists DefaultDemandLimits.
  - vm_compute in Hc. by simplify_eq.
Defined.

Lemma refresh_keeps_only_current_witness :
  exists e' t' w', refreshLocked (W := demo_world) demo_key (MkEntry 0 1 true None) (demo_table "h" 1 1)
    (Some (demo_owner "h2" 2)) = (e', t', w') /\ held e' = false /\ Bindings.Demand demo_key t' = 0.
Proof.
  destruct (refreshLocked (W := demo_world) demo_key (MkEntry 0 1 true None) (demo_table "h" 1 1)
    (Some (demo_owner "h2" 2))) as [[e' t'] w'] eqn:Hr.
  assert (Hh : held e' = false) by (vm_compute in Hr; by simplify_eq).
  exists e', t', w'. split_and!; [done|done|].
  pose proof (refresh_keeps_only_current (W := demo_world) demo_key (MkEntry 0 1 true None) (demo_table "h" 1 1)
    (Some (demo_owner "h2" 2)) e' t' w' eq_refl eq_refl eq_refl Hr eq_refl) as Hk.
  simpl in Hk. rewrite Hh in Hk. apply Hk.
Defined.
