(* ===== verification/Relay.v ===== *)
(** * The delivery relay and its repairs (src/internal/routing/repair.go)

    [Relay] with [Open], [Subscribe], [Unsubscribe], [Receive], [Pump],
    [HostLinkClosed], [Resync], [Anchor], [Forget], [Close] and the unexported
    [classify], [owns], [fanOutLocked], [drainLocked], [advance], [repair],
    [resetBindingLocked], [probeGap], [resetForGapLocked],
    [closeBindingLocked], [readTip] and [sortedBindings].

    The relay's mutex is released around a repair's I/O, the gap probe and the
    tip reads of [Resync] and [Anchor]. Each critical section is a definition
    of its own ([Receive_locked], [Receive_probed], [repair_locked], ...); the
    operations compose them with the I/O between, and [relay_step] interleaves
    them freely. A [*hostBinding] has an identity ([host_id]) because the code
    compares the pointer after it retakes the mutex. *)

From S2P Require Import Prelude Wire Delivery Bindings Directory Demand.

Definition ErrRelayClosed : error := sentinel "routing.ErrRelayClosed".
Definition ErrNoHostBinding : error := sentinel "routing.ErrNoHostBinding".
Definition ErrUnexpectedControl : error := sentinel "routing.ErrUnexpectedControl".
Definition ErrForeignRecord : error := Err (Sentinel "routing.ErrForeignRecord") [ErrMalformed].
Definition ErrWouldBlock : errtag := Sentinel "routing.ErrWouldBlock".

Abbreviation LinkID := string (only parsing).

(** [Publisher], [Tail] and [Rebinder]. *)
Class RelayEnv (W : Type) := {
  relay_tips :: TipReader W;
  Publish : LinkID -> sessionKey -> bytes -> W -> option error * W;
  CloseLink : LinkID -> string -> W -> option error * W;
  tail_Stop : sessionKey -> W -> option error * W;
  tail_Resume : sessionKey -> Z -> W -> option error * W;
  rebinder_Rebind : sessionKey -> W -> option error * W
}.

Record RepairLimits := MkRepairLimits { HostBindingQueue : Z; DeliveryBindingQueue : Z }.

Definition DefaultRepairLimits : RepairLimits := MkRepairLimits 1024 512.

Definition Validate (l : RepairLimits) : option error :=
  if HostBindingQueue l <? 1 then Some (wrapf [Bindings.ErrInvalidConfig])
  else if DeliveryBindingQueue l <? 1 then Some (wrapf [Bindings.ErrInvalidConfig])
  else None.

Record Frame := MkFrame { frame_Encoded : bytes; frame_CommittedAppendSeq : Z; frame_CoalesceKey : string }.

Record deliveryBinding := MkDelivery { dqueue : Queue; lastContiguous : Z; forwarded : Z }.

Record hostBinding := MkHost {
  host_id : nat;
  hqueue : Queue;
  stopped : bool;
  deliveries : gmap string deliveryBinding;
  tailSeq : Z;
  tailKnown : bool
}.

Record Relay_ := MkRelay {
  limits : RepairLimits;
  closed : bool;
  hosts : gmap sessionKey hostBinding;
  foreign : Z;
  next : nat
}.

Definition NewRelay (l : RepairLimits) : result Relay_ :=
  match Validate l with
  | Some err => Fail err
  | None => Ok (MkRelay l false ∅ 0 0)
  end.

(** Writes through the pointers the code holds. *)
Definition withQueue (h : hostBinding) (q : Queue) : hostBinding :=
  MkHost (host_id h) q (stopped h) (deliveries h) (tailSeq h) (tailKnown h).
Definition withStopped (h : hostBinding) (b : bool) : hostBinding :=
  MkHost (host_id h) (hqueue h) b (deliveries h) (tailSeq h) (tailKnown h).
Definition withDeliveries (h : hostBinding) (ds : gmap string deliveryBinding) : hostBinding :=
  MkHost (host_id h) (hqueue h) (stopped h) ds (tailSeq h) (tailKnown h).
Definition withTail (h : hostBinding) (seq : Z) (known : bool) : hostBinding :=
  MkHost (host_id h) (hqueue h) (stopped h) (deliveries h) seq known.
Definition withHost (r : Relay_) (key : sessionKey) (h : hostBinding) : Relay_ :=
  MkRelay (limits r) (closed r) (<[key := h]> (hosts r)) (foreign r) (next r).

Definition anchorLocked (h : hostBinding) (tip : Z) : hostBinding := withTail h tip true.

Definition Open (key : sessionKey) (r : Relay_) : option error * Relay_ :=
  if closed r then (Some ErrRelayClosed, r)
  else match hosts r !! key with
  | Some _ => (None, r)
  | None =>
      match NewQueue (HostBindingQueue (limits r)) with
      | Fail err => (Some err, r)
      | Ok q => (None, MkRelay (limits r) (closed r) (<[key := MkHost (next r) q false ∅ 0 false]> (hosts r))
                         (foreign r) (S (next r)))
      end
  end.

Definition Subscribe (key : sessionKey) (link : LinkID) (r : Relay_) : option error * Relay_ :=
  if closed r then (Some ErrRelayClosed, r)
  else match hosts r !! key with
  | None => (Some ErrNoHostBinding, r)
  | Some host =>
      match deliveries host !! link with
      | Some _ => (None, r)
      | None =>
          match NewQueue (DeliveryBindingQueue (limits r)) with
          | Fail err => (Some err, r)
          | Ok q => (None, withHost r key (withDeliveries host (<[link := MkDelivery q 0 0]> (deliveries host))))
          end
      end
  end.

Definition Unsubscribe (key : sessionKey) (link : LinkID) (r : Relay_) : Relay_ :=
  match hosts r !! key with
  | None => r
  | Some host =>
      match deliveries host !! link with
      | Some _ => withHost r key (withDeliveries host (delete link (deliveries host)))
      | None => r
      end
  end.

(** [Close] and [Forget] also close the queues they drop; nothing reaches a
    queue once its binding has left the table. *)
Definition Close (r : Relay_) : Relay_ := MkRelay (limits r) true ∅ (foreign r) (next r).

Definition Forget (key : sessionKey) (r : Relay_) : Relay_ :=
  match hosts r !! key with
  | None => r
  | Some _ => MkRelay (limits r) (closed r) (delete key (hosts r)) (foreign r) (next r)
  end.

Definition ForeignRecords (r : Relay_) : Z := foreign r.

Definition owns (key : sessionKey) (tenant : TenantID) (session : SessionID) : option error :=
  if bool_decide (tenant = key_tenant key) && bool_decide (session = key_session key) then None
  else Some (wrapf [ErrForeignRecord]).

Definition classify `{SessionCodec} (key : sessionKey) (frame : Frame) : result Record_ :=
  match SessionRecordTypeOf (frame_Encoded frame) with
  | Fail err => Fail (wrapf [ErrMalformed; err])
  | Ok SessionRecordTypeEnduringPublication =>
      match ParseEnduring (frame_Encoded frame) (frame_CommittedAppendSeq frame) with
      | Fail err => Fail err
      | Ok parsed =>
          match owns key (TenantID_ parsed) (SessionID_ parsed) with
          | Some err => Fail err
          | None => Ok (Record_of parsed)
          end
      end
  | Ok SessionRecordTypeEphemeralPublication =>
      match unmarshalEphemeral (frame_Encoded frame) with
      | Fail err => Fail (wrapf [ErrMalformed; err])
      | Ok publication =>
          match owns key (eph_TenantID publication) (eph_SessionID publication) with
          | Some err => Fail err
          | None => Ok (MkRecord ClassEphemeral (frame_Encoded frame) 0 (frame_CoalesceKey frame))
          end
      end
  | Ok (SessionRecordTypeOther _) => Fail (wrapf [ErrUnexpectedControl])
  end.

Definition advance (record : Record_) (b : deliveryBinding) : deliveryBinding :=
  match Class record with
  | ClassEnduring =>
      let last :=
        if (forwarded b =? 0) || (Seq record =? u64 (lastContiguous b + 1)) then Seq record
        else lastContiguous b in
      MkDelivery (dqueue b) last (u64 (forwarded b + 1))
  | _ => b
  end.

(** [sortedBindings]: the links in [slices.Sort] order; each loop looks its
    binding up by link, as only a loop's own body touches that binding. *)
Definition sortedBindings (h : hostBinding) : list LinkID :=
  merge_sort String.le (map_to_list (deliveries h)).*1.

Section Relay.
Context `{SessionCodec} `{StoreLimits} {W : Type} `{RelayEnv W}.

Definition maxGapProbe : Z := MaxOrderedPageLimit.

Definition readTip (key : sessionKey) (w : W) : result Z * W :=
  let '(page, w) := ReadPublicJournal (tipRequest key) w in
  match page with
  | Fail err => (Fail err, w)
  | Ok page => (Ok (page_CapturedTip page), w)
  end.

Definition closeBindingLocked (h : hostBinding) (link : LinkID) (reason : string) (w : W) : hostBinding * W :=
  let h := withDeliveries h (delete link (deliveries h)) in
  let '(_, w) := CloseLink link reason w in (h, w).

Definition resetBindingLocked (key : sessionKey) (h : hostBinding) (link : LinkID) (tip : Z) (w : W)
    : option error * hostBinding * W :=
  match deliveries h !! link with
  | None => (None, h, w)
  | Some b =>
      let reset := Session_Reset (key_tenant key) (key_session key) (lastContiguous b) tip in
      match marshalReset reset with
      | Fail err =>
          let '(h, w) := closeBindingLocked h link "repair control is incoherent" w in (Some err, h, w)
      | Ok encoded =>
          let '(err, q) := Repair (MkRecord ClassControl encoded 0 "") (dqueue b) in
          match err with
          | Some err =>
              let '(h, w) := closeBindingLocked h link "repair control could not be queued" w in (Some err, h, w)
          | None =>
              (None, withDeliveries h (<[link := MkDelivery q (lastContiguous b) (forwarded b)]> (deliveries h)), w)
          end
      end
  end.

(** The loop the code writes over [sortedBindings]: one call per binding, the
    failures collected. *)
Fixpoint eachBinding (op : hostBinding -> LinkID -> W -> option error * hostBinding * W)
    (links : list LinkID) (h : hostBinding) (w : W) : list error * hostBinding * W :=
  match links with
  | [] => ([], h, w)
  | link :: rest =>
      let '(err, h, w) := op h link w in
      let '(failures, h, w) := eachBinding op rest h w in
      (match err with Some e => e :: failures | None => failures end, h, w)
  end.

Definition resetAll (key : sessionKey) (tip : Z) (h : hostBinding) (w : W) : list error * hostBinding * W :=
  eachBinding (fun h link w => resetBindingLocked key h link tip w) (sortedBindings h) h w.

Definition closeAll (reason : string) (h : hostBinding) (w : W) : hostBinding * W :=
  let '(_, h, w) :=
    eachBinding (fun h link w => let '(h, w) := closeBindingLocked h link reason w in (None, h, w))
      (sortedBindings h) h w in
  (h, w).

Definition fanOutLocked (key : sessionKey) (h : hostBinding) (link : LinkID) (record : Record_) (w : W)
    : option error * hostBinding * W :=
  match deliveries h !! link with
  | None => (None, h, w)
  | Some b =>
      let '(err, q) := Enqueue record (dqueue b) in
      let h := withDeliveries h (<[link := MkDelivery q (lastContiguous b) (forwarded b)]> (deliveries h)) in
      match err with
      | None => (None, h, w)
      | Some err =>
          if errors_is err (Sentinel "delivery.ErrDropped") then (None, h, w)
          else if errors_is err (Sentinel "delivery.ErrOverflow") then
            let '(tip, w) := readTip key w in
            match tip with
            | Fail err => let '(h, w) := closeBindingLocked h link "repair tip unavailable" w in (Some err, h, w)
            | Ok tip => resetBindingLocked key h link tip w
            end
          else (Some err, h, w)
      end
  end.

(** [Pump]'s first loop: an iteration takes one record off the host's queue, so
    its length bounds them. *)
Fixpoint pumpLoop (fuel : nat) (key : sessionKey) (h : hostBinding) (w : W) : list error * hostBinding * W :=
  match fuel with
  | O => ([], h, w)
  | S fuel =>
      let '(record, q) := Next (hqueue h) in
      match record with
      | None => ([], h, w)
      | Some record =>
          let h := withQueue h q in
          let '(failures, h, w) := eachBinding (fun h link w => fanOutLocked key h link record w) (sortedBindings h) h w in
          let '(more, h, w) := pumpLoop fuel key h w in
          (failures ++ more, h, w)
      end
  end.

(** [drainLocked]'s loop: an iteration that goes on takes one record off the
    binding's queue. *)
Fixpoint drainLoop (fuel : nat) (key : sessionKey) (link : LinkID) (h : hostBinding) (w : W)
    : option error * hostBinding * W :=
  match fuel, deliveries h !! link with
  | O, _ | _, None => (None, h, w)
  | S fuel, Some b =>
      match Head (dqueue b) with
      | None => (None, h, w)
      | Some record =>
          let '(err, w) := Publish link key (Encoded record) w in
          match err with
          | Some err =>
              if errors_is err ErrWouldBlock then (None, h, w)
              else let '(h, w) := closeBindingLocked h link "publish failed" w in (Some err, h, w)
          | None =>
              let '(_, q) := Next (dqueue b) in
              let b := advance record (MkDelivery q (lastContiguous b) (forwarded b)) in
              drainLoop fuel key link (withDeliveries h (<[link := b]> (deliveries h))) w
          end
      end
  end.

Definition drainLocked (key : sessionKey) (h : hostBinding) (link : LinkID) (w : W) : option error * hostBinding * W :=
  match deliveries h !! link with
  | None => (None, h, w)
  | Some b => drainLoop (S (length (buf (dqueue b)))) key link h w
  end.

Definition Pump (key : sessionKey) (r : Relay_) (w : W) : option error * Relay_ * W :=
  if closed r then (Some ErrRelayClosed, r, w)
  else match hosts r !! key with
  | None => (Some ErrNoHostBinding, r, w)
  | Some host =>
      let '(failures, host, w) := pumpLoop (S (length (buf (hqueue host)))) key host w in
      let '(more, host, w) := eachBinding (drainLocked key) (sortedBindings host) host w in
      (errors_join (failures ++ more), withHost r key host, w)
  end.

(** [probeGap]: (hole, tip, err). Go's [uint64] arithmetic wraps. *)
Definition probeGap (key : sessionKey) (last seq : Z) (w : W) : (bool * Z * option error) * W :=
  let scan := u64 (seq - last - 1) in
  let scan := if maxGapProbe <? scan then maxGapProbe else scan in
  let '(page, w) := ReadPublicJournal
    (JournalRequest (key_tenant key) (key_session key) (u64 (last + 1)) false false 1 scan) w in
  match page with
  | Fail err => ((true, 0, Some err), w)
  | Ok page =>
      match page_Events page with
      | first :: _ => ((first <? seq, page_CapturedTip page, None), w)
      | [] => ((u64 (page_CoveredThrough page + 1) <? seq, page_CapturedTip page, None), w)
      end
  end.

Definition resetForGapLocked (key : sessionKey) (h : hostBinding) (seq tip : Z) (probeErr : option error) (w : W)
    : hostBinding * W :=
  let '(tip, w) := match probeErr with
                   | None => (tip, w)
                   | Some _ =>
                       let '(read, w) := readTip key w in
                       (match read with Ok read => read | Fail _ => 0 end, w)
                   end in
  if u64 (tip + 1) <? seq then
    let '(h, w) := closeAll "a gap in the tail cannot be repaired from the journal tip" h w in
    (withTail h (tailSeq h) false, w)
  else
    let '(_, h, w) := resetAll key tip h w in
    (anchorLocked h tip, w).

(** What a critical section of [Receive] leaves to do without the mutex. *)
Inductive rxNext :=
| RxReturn (err : option error)
| RxProbe (host : nat) (last : Z) (record : Record_)
| RxRepair (host : nat).

(** The end of [Receive]: the tail sequence and the host's queue. *)
Definition acceptLocked (key : sessionKey) (host : hostBinding) (record : Record_) (r : Relay_) : rxNext * Relay_ :=
  let host :=
    match Class record with
    | ClassEnduring =>
        if negb (tailKnown host) || (tailSeq host <? Seq record)
        then withTail host (Seq record) (tailKnown host) else host
    | _ => host
    end in
  let '(err, q) := Enqueue record (hqueue host) in
  let host := withQueue host q in
  match err with
  | None => (RxReturn None, withHost r key host)
  | Some err =>
      if errors_is err (Sentinel "delivery.ErrDropped") then (RxReturn None, withHost r key host)
      else if errors_is err (Sentinel "delivery.ErrOverflow")
      then (RxRepair (host_id host), withHost r key (withStopped host true))
      else (RxReturn (Some err), withHost r key host)
  end.

Definition Receive_locked (key : sessionKey) (frame : Frame) (r : Relay_) : rxNext * Relay_ :=
  if closed r then (RxReturn (Some ErrRelayClosed), r)
  else match hosts r !! key with
  | None => (RxReturn (Some ErrNoHostBinding), r)
  | Some host =>
      if stopped host then (RxReturn None, r)
      else match classify key frame with
      | Fail err =>
          let n := if errors_is err (Sentinel "routing.ErrForeignRecord") then u64 (foreign r + 1) else foreign r in
          (RxReturn (Some err), MkRelay (limits r) (closed r) (hosts r) n (next r))
      | Ok record =>
          if bool_decide (Class record = ClassEnduring) && tailKnown host && (u64 (tailSeq host + 1) <? Seq record)
          then (RxProbe (host_id host) (tailSeq host) record, r)
          else acceptLocked key host record r
      end
  end.

(** [r.hosts[key] == host], by identity. *)
Definition sameHost (key : sessionKey) (id : nat) (r : Relay_) : option hostBinding :=
  match hosts r !! key with
  | Some h => if bool_decide (host_id h = id) then Some h else None
  | None => None
  end.

Definition Receive_probed (key : sessionKey) (id : nat) (record : Record_) (probe : bool * Z * option error)
    (r : Relay_) (w : W) : rxNext * Relay_ * W :=
  let '(hole, tip, probeErr) := probe in
  if closed r then (RxReturn (Some ErrRelayClosed), r, w)
  else match sameHost key id r with
  | None => (RxReturn None, r, w)
  | Some host =>
      if stopped host then (RxReturn None, r, w)
      else
        let '(host, w) := if hole then resetForGapLocked key host (Seq record) tip probeErr w else (host, w) in
        let '(nxt, r) := acceptLocked key host record r in
        (nxt, r, w)
  end.

(** [repair]'s critical section: what it collected, and the tip to resume
    after, or [None] when the binding is gone and the repair ends. *)
Definition repair_locked (key : sessionKey) (id : nat) (tip : result Z) (r : Relay_) (w : W)
    : option (list error * Z) * Relay_ * W :=
  if closed r then (None, r, w)
  else match sameHost key id r with
  | None => (None, r, w)
  | Some host =>
      match tip with
      | Fail err =>
          let '(host, w) := closeAll "repair tip unavailable" host w in
          (Some ([err], 0), withHost r key (withQueue host (Clear (hqueue host))), w)
      | Ok tip =>
          let '(failures, host, w) := resetAll key tip host w in
          let host := anchorLocked host tip in
          (Some (failures, tip), withHost r key (withQueue host (Clear (hqueue host))), w)
      end
  end.

Definition repair_finish (key : sessionKey) (id : nat) (r : Relay_) : Relay_ :=
  match sameHost key id r with
  | Some host => withHost r key (withStopped host false)
  | None => r
  end.

Definition opt_list (e : option error) : list error := match e with Some e => [e] | None => [] end.

Definition repair (key : sessionKey) (id : nat) (r : Relay_) (w : W) : option error * Relay_ * W :=
  let '(stopErr, w) := tail_Stop key w in
  let '(tip, w) := readTip key w in
  let '(repaired, r, w) := repair_locked key id tip r w in
  match repaired with
  | None => (errors_join (opt_list stopErr), r, w)
  | Some (failures, tip) =>
      let '(rebindErr, w) := rebinder_Rebind key w in
      let '(resumeErr, w) := tail_Resume key tip w in
      (errors_join (opt_list stopErr ++ failures ++ opt_list rebindErr ++ opt_list resumeErr),
       repair_finish key id r, w)
  end.

Definition Receive (key : sessionKey) (frame : Frame) (r : Relay_) (w : W) : option error * Relay_ * W :=
  let '(nxt, r, w) :=
    match Receive_locked key frame r with
    | (RxProbe id last record, r) =>
        let '(probe, w) := probeGap key last (Seq record) w in
        Receive_probed key id record probe r w
    | (nxt, r) => (nxt, r, w)
    end in
  match nxt with
  | RxReturn err => (err, r, w)
  | RxRepair id => repair key id r w
  | RxProbe _ _ _ => (None, r, w)
  end.

Definition HostLinkClosed_locked (key : sessionKey) (r : Relay_) : result nat * Relay_ :=
  if closed r then (Fail ErrRelayClosed, r)
  else match hosts r !! key with
  | None => (Fail ErrNoHostBinding, r)
  | Some host => (Ok (host_id host), withHost r key (withStopped host true))
  end.

Definition HostLinkClosed (key : sessionKey) (r : Relay_) (w : W) : option error * Relay_ * W :=
  match HostLinkClosed_locked key r with
  | (Fail err, r) => (Some err, r, w)
  | (Ok id, r) => repair key id r w
  end.

(** The check both [Resync] and [Anchor] make before reading the tip. *)
Definition knownHost (key : sessionKey) (r : Relay_) : option error :=
  if closed r then Some ErrRelayClosed
  else match hosts r !! key with None => Some ErrNoHostBinding | Some _ => None end.

Definition Resync_locked (key : sessionKey) (tip : result Z) (r : Relay_) (w : W) : option error * Relay_ * W :=
  match knownHost key r, hosts r !! key with
  | Some err, _ => (Some err, r, w)
  | None, None => (Some ErrNoHostBinding, r, w)
  | None, Some host =>
      match tip with
      | Fail err =>
          let '(host, w) := closeAll "resync tip unavailable" host w in
          (Some err, withHost r key (withQueue host (Clear (hqueue host))), w)
      | Ok tip =>
          let '(failures, host, w) := resetAll key tip host w in
          (errors_join failures,
           withHost r key (anchorLocked (withQueue host (Clear (hqueue host))) tip), w)
      end
  end.

Definition Resync (key : sessionKey) (r : Relay_) (w : W) : option error * Relay_ * W :=
  match knownHost key r with
  | Some err => (Some err, r, w)
  | None => let '(tip, w) := readTip key w in Resync_locked key tip r w
  end.

Definition Anchor_locked (key : sessionKey) (tip : Z) (r : Relay_) : option error * Relay_ :=
  match closed r, hosts r !! key with
  | false, Some host => (None, withHost r key (anchorLocked host tip))
  | _, _ => (Some ErrRelayClosed, r)
  end.

Definition Anchor (key : sessionKey) (r : Relay_) (w : W) : option error * Relay_ * W :=
  match knownHost key r with
  | Some err => (Some err, r, w)
  | None =>
      let '(tip, w) := readTip key w in
      match tip with
      | Fail err => (Some err, r, w)
      | Ok tip => let '(err, r) := Anchor_locked key tip r in (err, r, w)
      end
  end.

Definition LastContiguous (key : sessionKey) (link : LinkID) (r : Relay_) : option Z :=
  match hosts r !! key with
  | Some host => lastContiguous <$> deliveries host !! link
  | None => None
  end.

Definition BindingCount (key : sessionKey) (r : Relay_) : Z :=
  match hosts r !! key with Some host => Z.of_nat (size (deliveries host)) | None => 0 end.

Definition Queued (key : sessionKey) (link : LinkID) (r : Relay_) : Z :=
  match hosts r !! key with
  | Some host => match deliveries host !! link with Some b => Delivery.Len (dqueue b) | None => 0 end
  | None => 0
  end.
End Relay.

(** ** What the relay sends, per link

    [W * list rcall] is any environment with the publisher's, the tail's and
    the rebinder's calls recorded, oldest first. *)
Inductive rcall :=
| CallPublish (link : LinkID) (key : sessionKey) (encoded : bytes) (taken : bool)
| CallCloseLink (link : LinkID)
| CallStop (key : sessionKey)
| CallRebind (key : sessionKey)
| CallResume (key : sessionKey) (after : Z).

#[global] Instance logged_relay_env {W} `{RelayEnv W} : RelayEnv (W * list rcall) := {|
  relay_tips := {| ReadPublicJournal req w := let '(r, w') := ReadPublicJournal req w.1 in (r, (w', w.2)) |};
  Publish link key encoded w :=
    let '(e, w') := Publish link key encoded w.1 in
    (e, (w', w.2 ++ [CallPublish link key encoded (if e then false else true)]));
  CloseLink link reason w := let '(e, w') := CloseLink link reason w.1 in (e, (w', w.2 ++ [CallCloseLink link]));
  tail_Stop key w := let '(e, w') := tail_Stop key w.1 in (e, (w', w.2 ++ [CallStop key]));
  tail_Resume key after w := let '(e, w') := tail_Resume key after w.1 in (e, (w', w.2 ++ [CallResume key after]));
  rebinder_Rebind key w := let '(e, w') := rebinder_Rebind key w.1 in (e, (w', w.2 ++ [CallRebind key]))
|}.

Definition names (l : LinkID) (c : rcall) : Prop :=
  match c with
  | CallPublish l' _ _ _ | CallCloseLink l' => l' = l
  | _ => False
  end.

#[global] Instance names_dec l c : Decision (names l c).
Proof. destruct c; simpl; apply _. Defined.

Definition about (l : LinkID) (sent : list rcall) : list rcall := filter (names l) sent.

Lemma about_all l sent : Forall (names l) sent -> about l sent = sent.
Proof. induction 1 as [|c sent Hc _ IH]; [done|]. unfold about in *. by rewrite filter_cons_True, IH. Qed.

Lemma about_other l l' sent : Forall (names l') sent -> l <> l' -> about l sent = [].
Proof.
  induction 1 as [|c sent Hc _ IH]; intros Hne; [done|]. unfold about in *. rewrite filter_cons_False; [auto|].
  destruct c; simpl in *; congruence.
Qed.

Lemma about_app l s1 s2 : about l (s1 ++ s2) = about l s1 ++ about l s2.
Proof. apply filter_app. Qed.

(** A host after work on one of its links, and after a loop over several: all
    but the deliveries is untouched, a link worked on relates to its old
    binding by [P] with the calls made about it, every other link is as it was. *)
Definition outcome := LinkID -> deliveryBinding -> option deliveryBinding -> list rcall -> Prop.

Record touch (P : outcome) (link : LinkID) (h h' : hostBinding) (sent : list rcall) : Prop := {
  touch_host : h' = withDeliveries h (deliveries h');
  touch_others : forall l, l <> link -> deliveries h' !! l = deliveries h !! l;
  touch_calls : Forall (names link) sent;
  touch_outcome : forall b, deliveries h !! link = Some b -> P link b (deliveries h' !! link) sent
}.

Record touched (P : outcome) (links : list LinkID) (h h' : hostBinding) (sent : list rcall) : Prop := {
  touched_host : h' = withDeliveries h (deliveries h');
  touched_absent : forall l, deliveries h !! l = None -> deliveries h' !! l = None /\ about l sent = [];
  touched_in : forall l b, l ∈ links -> deliveries h !! l = Some b -> P l b (deliveries h' !! l) (about l sent);
  touched_out : forall l, l ∉ links -> deliveries h' !! l = deliveries h !! l /\ about l sent = []
}.

Lemma withDeliveries_trans h h1 h2 :
  h1 = withDeliveries h (deliveries h1) -> h2 = withDeliveries h1 (deliveries h2) ->
  h2 = withDeliveries h (deliveries h2).
Proof. intros H1 H2. rewrite H2, H1. done. Qed.

Lemma touched_cons P link links h h1 h2 s1 s2 :
  link ∉ links -> is_Some (deliveries h !! link) -> touch P link h h1 s1 -> touched P links h1 h2 s2 ->
  touched P (link :: links) h h2 (s1 ++ s2).
Proof.
  intros Hni Hpre [Th To Tc Tp] [Uh Ua Ui Uo]. split.
  - by eapply withDeliveries_trans.
  - intros l Hl. destruct (decide (l = link)) as [->|Hne]; [by rewrite Hl in Hpre; destruct Hpre|].
    rewrite about_app, (about_other l link) by done. apply Ua. by rewrite To.
  - intros l b Hin Hb. rewrite about_app. destruct (decide (l = link)) as [->|Hne].
    + destruct (Uo link Hni) as [-> ->]. rewrite app_nil_r, about_all by done. eauto.
    + rewrite (about_other l link) by done. apply Ui; [set_solver|]. by rewrite To.
  - intros l Hin. rewrite about_app. apply not_elem_of_cons in Hin as [Hne Hin].
    rewrite (about_other l link) by done. destruct (Uo l Hin) as [-> ->]. by rewrite To.
Qed.

(** The specification of one loop body: on a binding that is there. *)
Definition body_spec {W} (P : outcome)
    (op : hostBinding -> LinkID -> W * list rcall -> option error * hostBinding * (W * list rcall)) : Prop :=
  forall h link b w log e h' w' log', deliveries h !! link = Some b ->
    op h link (w, log) = (e, h', (w', log')) -> exists sent, log' = log ++ sent /\ touch P link h h' sent.

Lemma eachBinding_touched {W} (P : outcome)
    (op : hostBinding -> LinkID -> W * list rcall -> option error * hostBinding * (W * list rcall)) :
  body_spec P op ->
  forall links h w log es h' w' log', NoDup links -> Forall (fun l => is_Some (deliveries h !! l)) links ->
    eachBinding op links h (w, log) = (es, h', (w', log')) ->
    exists sent, log' = log ++ sent /\ touched P links h h' sent.
Proof.
  intros Hop links. induction links as [|link links IH]; intros h w log es h' w' log' Hnd Hin Heq; simpl in Heq.
  - simplify_eq. exists []. rewrite app_nil_r. split; [done|]. split; [by destruct h'|done|set_solver|done].
  - apply NoDup_cons in Hnd as [Hni Hnd]. apply Forall_cons in Hin as [[b Hb] Hin].
    destruct (op h link (w, log)) as [[e h1] [w1 log1]] eqn:Hone.
    destruct (eachBinding op links h1 (w1, log1)) as [[es' h2] [w2 log2]] eqn:Hrest. simplify_eq.
    destruct (Hop _ _ _ _ _ _ _ _ _ Hb Hone) as (s1 & -> & Ht).
    apply IH in Hrest as (s2 & -> & Hts); [|done|].
    2: { rewrite Forall_forall in *. intros l Hl. rewrite (touch_others _ _ _ _ _ Ht); [by apply Hin|]. by intros ->. }
    exists (s1 ++ s2). rewrite app_assoc. split; [done|]. eapply touched_cons; [done|by exists b|done..].
Qed.

(** [sortedBindings] lists each binding's link once. *)
Lemma elem_of_sortedBindings h l : l ∈ sortedBindings h <-> is_Some (deliveries h !! l).
Proof.
  unfold sortedBindings. rewrite merge_sort_Permutation, list_elem_of_fmap. split.
  - intros ([k b] & -> & Hin). rewrite elem_of_map_to_list in Hin. by exists b.
  - intros [b Hb]. exists (l, b). by rewrite elem_of_map_to_list.
Qed.

Lemma sortedBindings_NoDup h : NoDup (sortedBindings h).
Proof. unfold sortedBindings. rewrite merge_sort_Permutation. apply NoDup_fst_map_to_list. Qed.

Lemma sortedBindings_sorted h : StronglySorted String.le (sortedBindings h).
Proof. apply StronglySorted_merge_sort; apply _. Qed.

(** A loop over all of a host's bindings. *)
Lemma eachBinding_all {W} (P : outcome)
    (op : hostBinding -> LinkID -> W * list rcall -> option error * hostBinding * (W * list rcall)) h w log es h' w' log' :
  body_spec P op ->
  eachBinding op (sortedBindings h) h (w, log) = (es, h', (w', log')) ->
  exists sent, log' = log ++ sent /\ h' = withDeliveries h (deliveries h') /\
    forall l, match deliveries h !! l with
              | None => deliveries h' !! l = None /\ about l sent = []
              | Some b => P l b (deliveries h' !! l) (about l sent)
              end.
Proof.
  intros Hop Heq. destruct (eachBinding_touched P op Hop (sortedBindings h) h w log es h' w' log') as (sent & -> & [Th Ta Ti To]);
    [apply sortedBindings_NoDup| |done|].
  { apply Forall_forall. intros l. by rewrite elem_of_sortedBindings. }
  exists sent. split_and!; [done|done|]. intros l. destruct (deliveries h !! l) as [b|] eqn:Hb; [|auto].
  apply Ti; [|done]. apply elem_of_sortedBindings. by exists b.
Qed.

(** ** One binding's outcome of each operation *)
Section Outcomes.
Context `{SessionCodec} `{StoreLimits} {W : Type} `{RelayEnv W}.

Abbreviation world := (W * list rcall)%type.

Definition closed_call (o : option deliveryBinding) (l : LinkID) : list rcall :=
  if o then [] else [CallCloseLink l].

Definition closeOutcome : outcome := fun l _ o sent => o = None /\ sent = [CallCloseLink l].

(** A reset: the queue holds the one control record, naming what this binding
    was delivered contiguously and the tip to read to; or the link is closed. *)
Definition resetBinding (key : sessionKey) (tip : Z) (b : deliveryBinding) : option deliveryBinding :=
  match marshalReset (Session_Reset (key_tenant key) (key_session key) (lastContiguous b) tip) with
  | Fail _ => None
  | Ok encoded =>
      match Repair (MkRecord ClassControl encoded 0 "") (dqueue b) with
      | (Some _, _) => None
      | (None, q) => Some (MkDelivery q (lastContiguous b) (forwarded b))
      end
  end.

Definition resetOutcome (key : sessionKey) (tip : Z) : outcome := fun l b o sent =>
  o = resetBinding key tip b /\ sent = closed_call o l.

Definition withDQueue (b : deliveryBinding) (q : Queue) : deliveryBinding :=
  MkDelivery q (lastContiguous b) (forwarded b).

(** A fan-out: the record queued or dropped, or, on overflow, a reset or a
    closed link. *)
Definition fanOutcome (key : sessionKey) (record : Record_) : outcome := fun l b o sent =>
  sent = closed_call o l /\
  match Enqueue record (dqueue b) with
  | (Some err, q) =>
      if errors_is err (Sentinel "delivery.ErrOverflow") then o = None \/ exists tip, o = resetBinding key tip b
      else o = Some (withDQueue b q)
  | (None, q) => o = Some (withDQueue b q)
  end.

Lemma touch_close h link reason (w : W) log h' w' log' :
  closeBindingLocked h link reason (w, log) = (h', (w', log')) ->
  log' = log ++ [CallCloseLink link] /\ h' = withDeliveries h (delete link (deliveries h)).
Proof. unfold closeBindingLocked. simpl. destruct (CloseLink link reason w). intros. by simplify_eq/=. Qed.

Lemma touch_insert P link h b b' :
  deliveries h !! link = Some b -> P link b (Some b') [] ->
  touch P link h (withDeliveries h (<[link := b']> (deliveries h))) [].
Proof.
  intros Hb HP. split; simpl; [done| |done|].
  - intros l Hne. by rewrite lookup_insert_ne.
  - intros b0 Hb0. simplify_eq. by rewrite lookup_insert_eq.
Qed.

Lemma touch_delete P link h b :
  deliveries h !! link = Some b -> P link b None [CallCloseLink link] ->
  touch P link h (withDeliveries h (delete link (deliveries h))) [CallCloseLink link].
Proof.
  intros Hb HP. split; simpl; [done| |by repeat constructor|].
  - intros l Hne. by rewrite lookup_delete_ne.
  - intros b0 Hb0. simplify_eq. by rewrite lookup_delete_eq.
Qed.

Lemma resetBindingLocked_touch key tip :
  body_spec (resetOutcome key tip) (fun h link (w : world) => resetBindingLocked key h link tip w).
Proof.
  intros h link b w log e h' w' log' Hb. unfold resetBindingLocked. rewrite Hb. intros Heq.
  destruct (marshalReset _) as [enc|err] eqn:Hm; [destruct (Repair _ (dqueue b)) as [[err|] q] eqn:Hr|].
  - destruct (closeBindingLocked _ _ _ _) as [h1 [w1 log1]] eqn:Hc. apply touch_close in Hc as [-> ->]. simplify_eq.
    eexists. split; [done|]. eapply touch_delete; [done|]. unfold resetOutcome, resetBinding. by rewrite Hm, Hr.
  - simplify_eq. exists []. rewrite app_nil_r. split; [done|]. eapply touch_insert; [done|].
    unfold resetOutcome, resetBinding. by rewrite Hm, Hr.
  - destruct (closeBindingLocked _ _ _ _) as [h1 [w1 log1]] eqn:Hc. apply touch_close in Hc as [-> ->]. simplify_eq.
    eexists. split; [done|]. eapply touch_delete; [done|]. unfold resetOutcome, resetBinding. by rewrite Hm.
Qed.

Lemma Enqueue_error record q err q' :
  Enqueue record q = (Some err, q') -> q' = q /\ (err = ErrQueueClosed \/ err = ErrDropped \/ err = ErrOverflow).
Proof.
  intros HE. pose proof (Enqueue_rules q record) as Hr. rewrite HE in Hr. simpl in Hr. inversion Hr; auto.
Qed.

Lemma readTip_logged key (w : W) log r w' log' : readTip key (w, log) = (r, (w', log')) -> log' = log.
Proof. unfold readTip. simpl. intros. by branches. Qed.

Lemma resetBinding_withDQueue key tip b : resetBinding key tip (withDQueue b (dqueue b)) = resetBinding key tip b.
Proof. by destruct b. Qed.

Lemma withDeliveries_same h link b :
  deliveries h !! link = Some b -> withDeliveries h (<[link := withDQueue b (dqueue b)]> (deliveries h)) = h.
Proof. intros Hb. destruct h, b; simpl in *. unfold withDeliveries, withDQueue. simpl. by rewrite insert_id. Qed.

Lemma touch_weaken (P Q : outcome) link h h' sent :
  touch P link h h' sent -> (forall b, deliveries h !! link = Some b -> forall o, P link b o sent -> Q link b o sent) ->
  touch Q link h h' sent.
Proof. intros [? ? ? ?] HPQ. split; eauto. Qed.

Lemma fanOutLocked_touch key record :
  body_spec (fanOutcome key record) (fun h link (w : world) => fanOutLocked key h link record w).
Proof.
  intros h link b w log e h' w' log' Hb. unfold fanOutLocked. rewrite Hb. intros Heq.
  destruct (Enqueue record (dqueue b)) as [[err|] q] eqn:HE.
  2: { simplify_eq. exists []. rewrite app_nil_r. split; [done|]. eapply touch_insert; [done|]. unfold fanOutcome. by rewrite HE. }
  apply Enqueue_error in HE as Hq. destruct Hq as [-> Herr].
  change (MkDelivery (dqueue b) (lastContiguous b) (forwarded b)) with (withDQueue b (dqueue b)) in Heq.
  rewrite (withDeliveries_same _ _ _ Hb) in Heq.
  assert (Hkeep : errors_is err (Sentinel "delivery.ErrOverflow") = false -> touch (fanOutcome key record) link h h []).
  { intros Hne. split; [by destruct h|done|done|]. intros b0 Hb0. simplify_eq. rewrite Hb.
    unfold fanOutcome. rewrite HE, Hne. split; [done|]. by destruct b. }
  destruct Herr as [->|[->| ->]]; simpl in Heq; simplify_eq.
  - exists []. rewrite app_nil_r. eauto.
  - exists []. rewrite app_nil_r. eauto.
  - destruct (readTip key (w, log)) as [[tip|terr] [w1 log1]] eqn:Ht; apply readTip_logged in Ht; subst.
    + eapply resetBindingLocked_touch in Heq as (sent & -> & Htouch); [|done]. exists sent. split; [done|].
      eapply touch_weaken; [done|]. intros b0 Hb0 o [-> ->]. simplify_eq. unfold fanOutcome. rewrite HE.
      split; [done|]. simpl. eauto.
    + destruct (closeBindingLocked _ _ _ _) as [h1 [w2 log2]] eqn:Hc. apply touch_close in Hc as [-> ->]. simplify_eq.
      eexists. split; [done|]. eapply touch_delete; [done|]. unfold fanOutcome. rewrite HE. split; [done|]. simpl. by left.
Qed.

Lemma closeBinding_touch reason :
  body_spec closeOutcome (fun h link (w : world) =>
    let '(h, w) := closeBindingLocked h link reason w in (None, h, w)).
Proof.
  intros h link b w log e h' w' log' Hb Heq.
  destruct (closeBindingLocked _ _ _ _) as [h1 [w2 log2]] eqn:Hc. apply touch_close in Hc as [-> ->]. simplify_eq.
  eexists. split; [done|]. by eapply touch_delete.
Qed.

(** A drain: a prefix of the queue published in order and accounted for; it
    stops at the end, at a record the transport cannot take now, or at a
    failure, which closes the link. *)
Definition publishes (l : LinkID) (key : sessionKey) (ps : list Record_) : list rcall :=
  (fun r => CallPublish l key (Encoded r) true) <$> ps.

Definition advanced (b : deliveryBinding) (ps rest : list Record_) : deliveryBinding :=
  foldl (fun b r => advance r b) (withDQueue b (MkQueue (capacity (dqueue b)) false rest)) ps.

Definition drainOutcome (key : sessionKey) : outcome := fun l b o sent =>
  Delivery.closed (dqueue b) = false ->
  exists ps rest, buf (dqueue b) = ps ++ rest /\
    ((o = Some (advanced b ps rest) /\ rest = [] /\ sent = publishes l key ps) \/
     exists x, head rest = Some x /\
      ((o = Some (advanced b ps rest) /\ sent = publishes l key ps ++ [CallPublish l key (Encoded x) false]) \/
       (o = None /\ sent = publishes l key ps ++ [CallPublish l key (Encoded x) false; CallCloseLink l]))).

Lemma advance_withDQueue r b q : advance r (withDQueue b q) = withDQueue (advance r b) q.
Proof. unfold advance, withDQueue. simpl. by destruct (Class r). Qed.

Lemma advance_dqueue r b : dqueue (advance r b) = dqueue b.
Proof. unfold advance. by destruct (Class r). Qed.

Lemma advanced_cons b x ps rest :
  advanced (advance x (withDQueue b (MkQueue (capacity (dqueue b)) false (ps ++ rest)))) ps rest = advanced b (x :: ps) rest.
Proof.
  unfold advanced. cbn [foldl]. rewrite advance_dqueue. simpl. f_equal. rewrite !advance_withDQueue. done.
Qed.

Lemma drainLoop_touch fuel : forall key h link b (w : W) log e h' w' log',
  deliveries h !! link = Some b -> (length (buf (dqueue b)) < fuel)%nat ->
  drainLoop fuel key link h (w, log) = (e, h', (w', log')) ->
  exists sent, log' = log ++ sent /\ touch (drainOutcome key) link h h' sent.
Proof.
  induction fuel as [|fuel IH]; intros key h link b w log e h' w' log' Hb Hf Heq; [lia|].
  simpl in Heq. rewrite Hb in Heq. unfold Head in Heq. destruct (Delivery.closed (dqueue b)) eqn:Hcl.
  { simplify_eq. exists []. rewrite app_nil_r. split; [done|]. split; [by destruct h'|done|done|].
    intros b0 Hb0. simplify_eq. intros Hc. congruence. }
  destruct (buf (dqueue b)) as [|x rest] eqn:Hbuf; simpl in Heq.
  { simplify_eq. exists []. rewrite app_nil_r. split; [done|]. split; [by destruct h'|done|done|].
    intros b0 Hb0 _. simplify_eq. exists [], []. split; [done|]. left. split_and!; try done. rewrite Hb.
    unfold advanced, withDQueue. simpl. rewrite <- Hcl, <- Hbuf. by destruct b as [[] ? ?]. }
  destruct (Publish link key (Encoded x) w) as [[perr|] w1] eqn:Hp.
  - destruct (errors_is perr ErrWouldBlock).
    + simplify_eq. eexists. split; [done|]. split; [by destruct h'|done|by repeat constructor|].
      intros b0 Hb0 _. simplify_eq. exists [], (x :: rest). split; [done|]. right. exists x. split; [done|]. left.
      split; [|done]. rewrite Hb. unfold advanced, withDQueue. simpl. rewrite <- Hcl, <- Hbuf. by destruct b as [[] ? ?].
    + destruct (closeBindingLocked _ _ _ _) as [h1 [w2 log2]] eqn:Hc. apply touch_close in Hc as [-> ->]. simplify_eq.
      eexists. split; [by rewrite <- app_assoc|]. split; simpl; [done| |by repeat constructor|].
      * intros l Hne. by rewrite lookup_delete_ne.
      * intros b0 Hb0 _. simplify_eq. exists [], (x :: rest). split; [done|]. right. exists x. split; [done|]. right.
        by rewrite lookup_delete_eq.
  - unfold Next in Heq. rewrite Hcl, Hbuf in Heq.
    set (b1 := advance x _) in Heq.
    assert (Hq1 : dqueue b1 = MkQueue (capacity (dqueue b)) false rest) by (unfold b1; by rewrite advance_dqueue).
    eapply IH in Heq as (sent & -> & [Th To Tc Tp]).
    2: { simpl. by rewrite lookup_insert_eq. }
    2: { rewrite Hq1. simpl in *. lia. }
    exists (CallPublish link key (Encoded x) true :: sent). split; [by rewrite <- app_assoc|]. split.
    + by rewrite Th.
    + intros l Hne. rewrite To by done. simpl. by rewrite lookup_insert_ne.
    + by constructor.
    + intros b0 Hb0 _. simplify_eq. destruct (Tp b1) as (ps & rest' & Hbuf1 & Hout).
      { simpl. by rewrite lookup_insert_eq. }
      { by rewrite Hq1. }
      rewrite Hq1 in Hbuf1. simpl in Hbuf1. exists (x :: ps), rest'. split; [by rewrite Hbuf, Hbuf1|].
      assert (Hadv : advanced b1 ps rest' = advanced b (x :: ps) rest').
      { unfold b1. rewrite Hbuf1. apply advanced_cons. }
      rewrite <- Hadv. destruct Hout as [(? & ? & ->)|(y & ? & [(? & ->)|(? & ->)])].
      * left. done.
      * right. exists y. split; [done|]. by left.
      * right. exists y. split; [done|]. by right.
Qed.

Lemma drainLocked_touch key : body_spec (drainOutcome key) (fun h link (w : world) => drainLocked key h link w).
Proof.
  intros h link b w log e h' w' log' Hb. unfold drainLocked. rewrite Hb. intros Heq.
  eapply drainLoop_touch; [done| |done]. lia.
Qed.

Lemma resetAll_spec key tip h (w : W) log es h' w' log' :
  resetAll key tip h (w, log) = (es, h', (w', log')) ->
  exists sent, log' = log ++ sent /\ h' = withDeliveries h (omap (resetBinding key tip) (deliveries h)) /\
    forall l, about l sent = match deliveries h !! l with
                             | Some b => closed_call (resetBinding key tip b) l
                             | None => []
                             end.
Proof.
  intros Heq. eapply eachBinding_all in Heq as (sent & -> & Hh & Hall); [|apply resetBindingLocked_touch].
  exists sent. split; [done|]. split.
  - rewrite Hh. f_equal. apply map_eq. intros l. rewrite lookup_omap. specialize (Hall l).
    destruct (deliveries h !! l); by destruct Hall.
  - intros l. specialize (Hall l). destruct (deliveries h !! l); [|by destruct Hall]. by destruct Hall as [<- ->].
Qed.

Lemma closeAll_spec reason h (w : W) log h' w' log' :
  closeAll reason h (w, log) = (h', (w', log')) ->
  exists sent, log' = log ++ sent /\ h' = withDeliveries h ∅ /\
    forall l, about l sent = match deliveries h !! l with Some _ => [CallCloseLink l] | None => [] end.
Proof.
  unfold closeAll. destruct (eachBinding _ _ _ _) as [[es h1] [w1 log1]] eqn:Heq. intros; simplify_eq.
  eapply eachBinding_all in Heq as (sent & -> & Hh & Hall); [|apply closeBinding_touch].
  exists sent. split; [done|]. split.
  - rewrite Hh. f_equal. apply map_eq. intros l. rewrite lookup_empty. specialize (Hall l).
    destruct (deliveries h !! l); by destruct Hall.
  - intros l. specialize (Hall l). destruct (deliveries h !! l); by destruct Hall.
Qed.
End Outcomes.

(** ** The invariant of a relay *)
Definition binding_ok (l : RepairLimits) (b : deliveryBinding) : Prop :=
  Delivery.closed (dqueue b) = false /\ capacity (dqueue b) = DeliveryBindingQueue l /\ Delivery.wf (dqueue b).

Record host_ok (l : RepairLimits) (h : hostBinding) : Prop := {
  host_open : Delivery.closed (hqueue h) = false;
  host_capacity : capacity (hqueue h) = HostBindingQueue l;
  host_wf : Delivery.wf (hqueue h);
  host_bindings : forall link b, deliveries h !! link = Some b -> binding_ok l b
}.

Record rinv (r : Relay_) : Prop := {
  rinv_limits : Validate (limits r) = None;
  rinv_closed : closed r = true -> hosts r = ∅;
  rinv_hosts : forall key h, hosts r !! key = Some h -> host_ok (limits r) h;
  rinv_ids : forall key h, hosts r !! key = Some h -> (host_id h < next r)%nat
}.

Lemma queue_kept l q q' :
  Delivery.wf q' -> capacity q' = capacity q -> Delivery.closed q' = false ->
  capacity q = DeliveryBindingQueue l -> forall c f, binding_ok l (MkDelivery q' c f).
Proof. intros. split_and!; simpl; [done|congruence|done]. Qed.

Lemma Enqueue_kept record q :
  Delivery.wf q -> Delivery.closed q = false ->
  Delivery.wf (Enqueue record q).2 /\ capacity (Enqueue record q).2 = capacity q /\
  Delivery.closed (Enqueue record q).2 = false.
Proof.
  intros Hwf Hc. split; [by apply Enqueue_wf|]. pose proof (Enqueue_rules q record) as Hr. destruct Hr; simpl; split; congruence.
Qed.

Lemma wf_shrink cap q rest : Delivery.wf q -> cap = capacity q -> (length rest <= length (buf q))%nat ->
  Delivery.wf (MkQueue cap false rest).
Proof. intros [? Hb ?] -> ?. unfold Delivery.Len in *. split; unfold Delivery.Len; simpl; [done|lia|done]. Qed.

Section Invariant.
Context `{SessionCodec} `{StoreLimits} {W : Type} `{RelayEnv W}.

Lemma resetBinding_ok l key tip b b' : binding_ok l b -> resetBinding key tip b = Some b' -> binding_ok l b'.
Proof.
  intros (Ho & Hc & Hwf) Hr. unfold resetBinding, Repair in Hr. rewrite Ho in Hr. branches.
  split_and!; simpl; [done|done|]. destruct Hwf as [? ? ?]. split; unfold Delivery.Len; simpl; [done|lia|done].
Qed.

Lemma fanOutcome_ok l key record link b o sent b' :
  binding_ok l b -> fanOutcome key record link b o sent -> o = Some b' -> binding_ok l b'.
Proof.
  intros (Ho & Hc & Hwf) [_ HE] ->. destruct (Enqueue_kept record _ Hwf Ho) as (Hw & Hcap & Hop).
  destruct (Enqueue record (dqueue b)) as [[err|] q]; simpl in *.
  - destruct (errors_is err _); [|simplify_eq; split_and!; simpl; congruence].
    destruct HE as [?|[tip Hr]]; [done|]. eapply resetBinding_ok; [|done]. done.
  - simplify_eq. split_and!; simpl; congruence.
Qed.

Lemma advanced_dqueue b ps rest : dqueue (advanced b ps rest) = MkQueue (capacity (dqueue b)) false rest.
Proof.
  unfold advanced. assert (Hq : forall ps b, dqueue (foldl (fun b r => advance r b) b ps) = dqueue b).
  { clear. induction ps as [|x ps IH]; intros b; simpl; [done|]. by rewrite IH, advance_dqueue. }
  by rewrite Hq.
Qed.

Lemma drainOutcome_ok l key link b o sent b' :
  binding_ok l b -> drainOutcome key link b o sent -> o = Some b' -> binding_ok l b'.
Proof.
  intros (Ho & Hc & Hwf) Hd ->. destruct (Hd Ho) as (ps & rest & Hbuf & Hout).
  assert (b' = advanced b ps rest) as ->.
  { destruct Hout as [(? & _)|(x & _ & [(? & _)|(? & _)])]; by simplify_eq. }
  unfold binding_ok. rewrite advanced_dqueue. simpl. split_and!; [done|done|].
  eapply wf_shrink; [done|done|]. rewrite Hbuf, length_app. lia.
Qed.

(** A loop whose outcomes keep bindings well formed keeps the host so. *)
Lemma eachBinding_ok l (P : outcome) op h (w : W) log es h' w' log' :
  body_spec P op ->
  (forall link b o sent b', binding_ok l b -> P link b o sent -> o = Some b' -> binding_ok l b') ->
  eachBinding op (sortedBindings h) h (w, log) = (es, h', (w', log')) ->
  host_ok l h -> host_ok l h'.
Proof.
  intros Hop HP Heq [Ho Hc Hwf Hb]. eapply eachBinding_all in Heq as (sent & -> & Hh & Hall); [|done].
  rewrite Hh. split; simpl; [done..|]. intros link b' Hb'. specialize (Hall link).
  destruct (deliveries h !! link) as [b|] eqn:Hl; [|destruct Hall; congruence]. eapply HP; [by eapply Hb|done|done].
Qed.

Lemma pumpLoop_ok l key fuel : forall h (w : W) log es h' w' log',
  pumpLoop fuel key h (w, log) = (es, h', (w', log')) -> host_ok l h -> host_ok l h'.
Proof.
  induction fuel as [|fuel IH]; intros h w log es h' w' log' Heq Hok; simpl in Heq; [by simplify_eq|].
  unfold Next in Heq. rewrite (host_open _ _ Hok) in Heq. destruct (buf (hqueue h)) as [|x rest] eqn:Hbuf; [by simplify_eq|].
  destruct (eachBinding _ _ _ (w, log)) as [[es1 h1] [w1 log1]] eqn:He.
  destruct (pumpLoop fuel key h1 (w1, log1)) as [[es2 h2] [w2 log2]] eqn:Hp. simplify_eq.
  eapply IH; [done|]. eapply eachBinding_ok; [apply fanOutLocked_touch|intros; by eapply fanOutcome_ok|done|].
  destruct Hok as [Ho Hc Hwf Hb]. split; simpl; [done|done| |done]. eapply wf_shrink; [done|done|]. rewrite Hbuf. simpl. lia.
Qed.

Lemma host_ok_resetAll l key tip h : host_ok l h -> host_ok l (withDeliveries h (omap (resetBinding key tip) (deliveries h))).
Proof.
  intros [? ? ? Hb]. split; simpl; [done..|]. intros link b. rewrite lookup_omap. intros (b0 & Hb0 & Hr)%bind_Some.
  eapply resetBinding_ok; [by eapply Hb|done].
Qed.

Lemma host_ok_closeAll l h : host_ok l h -> host_ok l (withDeliveries h ∅).
Proof. intros [? ? ? Hb]. by split. Qed.

Lemma host_ok_Clear l h : host_ok l h -> host_ok l (withQueue h (Clear (hqueue h))).
Proof.
  intros [Ho Hc Hwf Hb]. unfold Clear. rewrite Ho. split; simpl; [done|done| |done].
  eapply wf_shrink; [done|done|]. simpl. lia.
Qed.

Lemma host_ok_tail l h s k : host_ok l h -> host_ok l (withTail h s k).
Proof. by intros [? ? ? ?]. Qed.

Lemma host_ok_stopped l h b : host_ok l h -> host_ok l (withStopped h b).
Proof. by intros [? ? ? ?]. Qed.

Lemma resetForGap_ok l key h seq tip perr (w : W) log h' w' log' :
  resetForGapLocked key h seq tip perr (w, log) = (h', (w', log')) -> host_ok l h -> host_ok l h' /\ host_id h' = host_id h.
Proof.
  unfold resetForGapLocked. intros Heq Hok.
  destruct (match perr with None => _ | Some _ => _ end) as [tip1 [w1 log1]].
  destruct (_ <? _).
  - destruct (closeAll _ _ _) as [h1 [w2 log2]] eqn:Hc. apply closeAll_spec in Hc as (sent & -> & -> & _). simplify_eq.
    split; [|done]. by apply host_ok_tail, host_ok_closeAll.
  - destruct (resetAll _ _ _ _) as [[es h1] [w2 log2]] eqn:Hc. apply resetAll_spec in Hc as (sent & -> & -> & _). simplify_eq.
    split; [|done]. by apply host_ok_tail, host_ok_resetAll.
Qed.

Lemma rinv_withHost r key h :
  rinv r -> closed r = false -> host_ok (limits r) h -> (host_id h < next r)%nat -> rinv (withHost r key h).
Proof.
  intros [Hl Hc Hh Hi] Ho Hok Hid. split; simpl; [done|congruence| |].
  - intros k h0 [[_ <-]|[_ ?]]%lookup_insert_Some; eauto.
  - intros k h0 [[_ <-]|[_ ?]]%lookup_insert_Some; eauto.
Qed.

Lemma acceptLocked_rinv key h record r nxt r' :
  acceptLocked key h record r = (nxt, r') -> rinv r -> closed r = false -> host_ok (limits r) h ->
  (host_id h < next r)%nat -> rinv r'.
Proof.
  unfold acceptLocked. intros Heq Hr Ho Hok Hid.
  set (h1 := match Class record with ClassEnduring => _ | _ => _ end) in Heq.
  assert (Hok1 : host_ok (limits r) h1 /\ host_id h1 = host_id h).
  { unfold h1. destruct (Class record); [|done|done]. destruct (_ || _); [|done]. split; [by apply host_ok_tail|done]. }
  destruct Hok1 as [[Ho1 Hc1 Hwf1 Hb1] Hid1]. clearbody h1.
  destruct (Enqueue_kept record _ Hwf1 Ho1) as (Hw & Hcap & Hop).
  destruct (Enqueue record (hqueue h1)) as [err q]. simpl in *.
  assert (Hok2 : host_ok (limits r) (withQueue h1 q)) by (split; simpl; congruence || done).
  branches; apply rinv_withHost; try done; simpl; try lia; by apply host_ok_stopped.
Qed.

Lemma sameHost_Some key id r h : sameHost key id r = Some h -> hosts r !! key = Some h /\ host_id h = id.
Proof. unfold sameHost. intros. branches. by reflect_guards. Qed.

Lemma Receive_locked_rinv key frame r nxt r' : Receive_locked key frame r = (nxt, r') -> rinv r -> rinv r'.
Proof.
  unfold Receive_locked. intros Heq Hr. destruct (closed r) eqn:Ho; [by simplify_eq|].
  destruct (hosts r !! key) as [h|] eqn:Hh; [|by simplify_eq]. destruct (stopped h); [by simplify_eq|].
  destruct (classify key frame) as [record|err].
  - destruct (_ && _); [by simplify_eq|]. eapply acceptLocked_rinv; try done; by eapply Hr.
  - simplify_eq. destruct Hr as [Hl Hc ? ?]. split; simpl; done.
Qed.

Lemma Receive_probed_rinv key id record probe r (w : W) log nxt r' w' log' :
  Receive_probed key id record probe r (w, log) = (nxt, r', (w', log')) -> rinv r -> rinv r'.
Proof.
  unfold Receive_probed. destruct probe as [[hole tip] perr]. intros Heq Hr. destruct (closed r) eqn:Ho; [by simplify_eq|].
  destruct (sameHost key id r) as [h|] eqn:Hs; [|by simplify_eq]. apply sameHost_Some in Hs as [Hh Hid].
  destruct (stopped h); [by simplify_eq|].
  pose proof (rinv_hosts _ Hr _ _ Hh) as Hok. pose proof (rinv_ids _ Hr _ _ Hh) as Hlt.
  destruct (if hole then _ else _) as [h1 [w1 log1]] eqn:Hgap.
  assert (Hok1 : host_ok (limits r) h1 /\ host_id h1 = host_id h).
  { destruct hole; [by eapply resetForGap_ok|by simplify_eq]. }
  destruct Hok1 as [Hok1 Hid1]. destruct (acceptLocked key h1 record r) as [n r1] eqn:Ha. simplify_eq.
  eapply acceptLocked_rinv; try done. lia.
Qed.

Lemma repair_locked_rinv key id tip r (w : W) log o r' w' log' :
  repair_locked key id tip r (w, log) = (o, r', (w', log')) -> rinv r -> rinv r'.
Proof.
  unfold repair_locked. intros Heq Hr. destruct (closed r) eqn:Ho; [by simplify_eq|].
  destruct (sameHost key id r) as [h|] eqn:Hs; [|by simplify_eq]. apply sameHost_Some in Hs as [Hh Hid].
  pose proof (rinv_hosts _ Hr _ _ Hh) as Hok. pose proof (rinv_ids _ Hr _ _ Hh) as Hlt. destruct tip as [tip|err].
  - destruct (resetAll _ _ _ _) as [[es h1] [w1 log1]] eqn:Ha. apply resetAll_spec in Ha as (sent & -> & -> & _). simplify_eq.
    apply rinv_withHost; [done..| |done]. by apply host_ok_Clear, host_ok_tail, host_ok_resetAll.
  - destruct (closeAll _ _ _) as [h1 [w1 log1]] eqn:Ha. apply closeAll_spec in Ha as (sent & -> & -> & _). simplify_eq.
    apply rinv_withHost; [done..| |done]. by apply host_ok_Clear, host_ok_closeAll.
Qed.

Lemma repair_finish_rinv key id r : rinv r -> rinv (repair_finish key id r).
Proof.
  intros Hr. unfold repair_finish. destruct (sameHost key id r) as [h|] eqn:Hs; [|done].
  apply sameHost_Some in Hs as [Hh Hid]. apply rinv_withHost; [done| |by apply host_ok_stopped; eapply rinv_hosts|exact (rinv_ids _ Hr _ _ Hh)].
  destruct (closed r) eqn:Hc; [|done]. rewrite (rinv_closed _ Hr Hc) in Hh. done.
Qed.

Lemma Resync_locked_rinv key tip r (w : W) log e r' w' log' :
  Resync_locked key tip r (w, log) = (e, r', (w', log')) -> rinv r -> rinv r'.
Proof.
  unfold Resync_locked, knownHost. intros Heq Hr. destruct (closed r) eqn:Ho; [by simplify_eq|].
  destruct (hosts r !! key) as [h|] eqn:Hh; [|by simplify_eq].
  pose proof (rinv_hosts _ Hr _ _ Hh) as Hok. pose proof (rinv_ids _ Hr _ _ Hh) as Hlt. destruct tip as [tip|err].
  - destruct (resetAll _ _ _ _) as [[es h1] [w1 log1]] eqn:Ha. apply resetAll_spec in Ha as (sent & -> & -> & _). simplify_eq.
    apply rinv_withHost; [done..| |done]. by apply host_ok_tail, host_ok_Clear, host_ok_resetAll.
  - destruct (closeAll _ _ _) as [h1 [w1 log1]] eqn:Ha. apply closeAll_spec in Ha as (sent & -> & -> & _). simplify_eq.
    apply rinv_withHost; [done..| |done]. by apply host_ok_Clear, host_ok_closeAll.
Qed.

Lemma pumpLoop_id key fuel : forall h (w : W) log es h' w' log',
  pumpLoop fuel key h (w, log) = (es, h', (w', log')) -> host_id h' = host_id h.
Proof.
  induction fuel as [|fuel IH]; intros h w log es h' w' log' Heq; simpl in Heq; [by simplify_eq|].
  destruct (Next (hqueue h)) as [[x|] q]; [|by simplify_eq].
  destruct (eachBinding _ _ _ (w, log)) as [[es1 h1] [w1 log1]] eqn:He.
  destruct (pumpLoop fuel key h1 (w1, log1)) as [[es2 h2] [w2 log2]] eqn:Hp. simplify_eq.
  apply IH in Hp. rewrite Hp. eapply eachBinding_all in He as (sent & -> & -> & _); [done|apply fanOutLocked_touch].
Qed.

Lemma Pump_rinv key r (w : W) log e r' w' log' :
  Pump key r (w, log) = (e, r', (w', log')) -> rinv r -> rinv r'.
Proof.
  unfold Pump. intros Heq Hr. destruct (closed r) eqn:Ho; [by simplify_eq|].
  destruct (hosts r !! key) as [h|] eqn:Hh; [|by simplify_eq].
  destruct (pumpLoop _ _ _ _) as [[es1 h1] [w1 log1]] eqn:Hp.
  destruct (eachBinding _ _ _ _) as [[es2 h2] [w2 log2]] eqn:He. simplify_eq.
  pose proof (pumpLoop_id _ _ _ _ _ _ _ _ _ Hp) as Hid. apply (pumpLoop_ok (limits r)) in Hp; [|by eapply rinv_hosts].
  apply rinv_withHost; [done|done| |].
  - eapply eachBinding_ok; [apply drainLocked_touch|intros; by eapply drainOutcome_ok|done|done].
  - eapply eachBinding_all in He as (sent & -> & -> & _); [|apply drainLocked_touch]. simpl. rewrite Hid. exact (rinv_ids _ Hr _ _ Hh).
Qed.

Lemma NewQueue_ok c q : NewQueue c = Ok q -> Delivery.wf q /\ Delivery.closed q = false /\ capacity q = c.
Proof.
  unfold NewQueue. intros. branches. reflect_guards. split_and!; try done. split; unfold Delivery.Len; simpl; [lia|lia|done].
Qed.

(** Everything that happens to a relay: each critical section, with any
    outcome of the I/O before it and for any host identity, in any order. *)
Inductive relay_step : Relay_ * (W * list rcall) -> Relay_ * (W * list rcall) -> Prop :=
| rstep_Open key r w : relay_step (r, w) ((Open key r).2, w)
| rstep_Subscribe key link r w : relay_step (r, w) ((Subscribe key link r).2, w)
| rstep_Unsubscribe key link r w : relay_step (r, w) (Unsubscribe key link r, w)
| rstep_Close r w : relay_step (r, w) (Close r, w)
| rstep_Forget key r w : relay_step (r, w) (Forget key r, w)
| rstep_Receive key frame r w nxt r' : Receive_locked key frame r = (nxt, r') -> relay_step (r, w) (r', w)
| rstep_probed key id record probe r w nxt r' w' :
    Receive_probed key id record probe r w = (nxt, r', w') -> relay_step (r, w) (r', w')
| rstep_HostLinkClosed key r w : relay_step (r, w) ((HostLinkClosed_locked key r).2, w)
| rstep_repair key id tip r w o r' w' : repair_locked key id tip r w = (o, r', w') -> relay_step (r, w) (r', w')
| rstep_finish key id r w : relay_step (r, w) (repair_finish key id r, w)
| rstep_Resync key tip r w e r' w' : Resync_locked key tip r w = (e, r', w') -> relay_step (r, w) (r', w')
| rstep_Anchor key tip r w : relay_step (r, w) ((Anchor_locked key tip r).2, w)
| rstep_Pump key r w e r' w' : Pump key r w = (e, r', w') -> relay_step (r, w) (r', w')
| rstep_world r w w' : relay_step (r, w) (r, w').

Lemma Open_rinv key r : rinv r -> rinv (Open key r).2.
Proof.
  intros Hr. unfold Open. destruct (closed r) eqn:Ho; [done|]. destruct (hosts r !! key); [done|].
  destruct (NewQueue _) as [q|] eqn:Hq; [|done]. apply NewQueue_ok in Hq as (? & ? & ?).
  destruct Hr as [Hl Hc Hh Hi]. split; simpl; [done|congruence| |].
  - intros k h [[_ <-]|[_ ?]]%lookup_insert_Some; [by split|eauto].
  - intros k h [[_ <-]|[_ Hk]]%lookup_insert_Some; simpl; [lia|]. apply Hi in Hk. lia.
Qed.

Lemma Subscribe_rinv key link r : rinv r -> rinv (Subscribe key link r).2.
Proof.
  intros Hr. unfold Subscribe. destruct (closed r) eqn:Ho; [done|]. destruct (hosts r !! key) as [h|] eqn:Hh; [|done].
  destruct (deliveries h !! link); [done|]. destruct (NewQueue _) as [q|] eqn:Hq; [|done].
  apply NewQueue_ok in Hq as (? & ? & ?). apply rinv_withHost; [done|done| |exact (rinv_ids _ Hr _ _ Hh)].
  destruct (rinv_hosts _ Hr _ _ Hh) as [? ? ? Hb]. split; simpl; [done..|].
  intros l b [[_ <-]|[_ ?]]%lookup_insert_Some; [by split_and!|eauto].
Qed.

Lemma rinv_present r key h : rinv r -> hosts r !! key = Some h -> closed r = false.
Proof. intros Hr Hh. destruct (closed r) eqn:Hc; [|done]. by rewrite (rinv_closed _ Hr Hc) in Hh. Qed.

Lemma relay_step_inv s s' : rinv s.1 -> relay_step s s' -> rinv s'.1.
Proof.
  intros Hr Hstep. destruct Hstep; simpl in *; try destruct w as [w log]; try destruct w' as [w' log'];
    eauto using Open_rinv, Subscribe_rinv, Receive_locked_rinv, Receive_probed_rinv, repair_locked_rinv,
      repair_finish_rinv, Resync_locked_rinv, Pump_rinv.
  - unfold Unsubscribe. destruct (hosts r !! key) as [h|] eqn:Hh; [|done]. destruct (deliveries h !! link); [|done].
    apply rinv_withHost; [done|by eapply rinv_present| |exact (rinv_ids _ Hr _ _ Hh)].
    destruct (rinv_hosts _ Hr _ _ Hh) as [? ? ? Hb]. split; simpl; [done..|].
    intros l b [_ ?]%lookup_delete_Some. eauto.
  - destruct Hr as [? ? ? ?]. by split.
  - unfold Forget. destruct (hosts r !! key) as [h|] eqn:Hh; [|done]. pose proof (rinv_present _ _ _ Hr Hh).
    destruct Hr as [? ? Hhs Hid]. split; simpl; [done|congruence| |]; intros k h0 [_ ?]%lookup_delete_Some; eauto.
  - unfold HostLinkClosed_locked. destruct (closed r) eqn:Ho; [done|]. destruct (hosts r !! key) as [h|] eqn:Hh; [|done].
    apply rinv_withHost; [done|done|by apply host_ok_stopped; eapply rinv_hosts|exact (rinv_ids _ Hr _ _ Hh)].
  - unfold Anchor_locked. destruct (closed r) eqn:Ho; [done|]. destruct (hosts r !! key) as [h|] eqn:Hh; [|done].
    apply rinv_withHost; [done|done|by apply host_ok_tail; eapply rinv_hosts|exact (rinv_ids _ Hr _ _ Hh)].
Qed.

Definition fresh_relay (s : Relay_ * (W * list rcall)) : Prop := exists l, NewRelay l = Ok s.1.

(** However its critical sections interleave and whatever the I/O between
    them answers, a relay holds at most HostBindingQueue records per session
    and DeliveryBindingQueue per link, no queue it can still reach is closed,
    and a closed relay holds no session. *)
Theorem relay_bounded (s : Relay_ * (W * list rcall)) :
  reachable fresh_relay relay_step s -> rinv s.1.
Proof.
  apply (reachable_invariant _ _ (fun s => rinv s.1)); [|apply relay_step_inv].
  intros [r w] (l & Hn). unfold NewRelay in Hn. case_match; simplify_eq/=. by split.
Qed.
End Invariant.

(** ** No durable record is lost silently *)
Section Delivery.
Context `{SessionCodec} `{StoreLimits} {W : Type} `{RelayEnv W}.

Definition resetRecord (encoded : bytes) : Record_ := MkRecord ClassControl encoded 0 "".

(** What a binding holds after the records [recs] were fanned out to it: all
    the durable ones behind those it held, in order; or a session.reset that
    names what it was delivered and a tip, then every durable record that
    followed the overflow. *)
Record stream (key : sessionKey) (b0 : deliveryBinding) (recs : list Record_) (b : deliveryBinding) : Prop := {
  stream_last : lastContiguous b = lastContiguous b0;
  stream_forwarded : forwarded b = forwarded b0;
  stream_open : Delivery.closed (dqueue b) = false;
  stream_durable :
    filter durable (buf (dqueue b)) = filter durable (buf (dqueue b0)) ++ filter durable recs \/
    exists before after tip encoded, recs = before ++ after /\
      marshalReset (Session_Reset (key_tenant key) (key_session key) (lastContiguous b0) tip) = Ok encoded /\
      filter durable (buf (dqueue b)) = resetRecord encoded :: filter durable after
}.

Lemma stream_refl key b : Delivery.closed (dqueue b) = false -> stream key b [] b.
Proof. intros Ho. split; try done. left. by rewrite app_nil_r. Qed.

Lemma stream_trans key b0 b1 b2 r1 r2 :
  stream key b0 r1 b1 -> stream key b1 r2 b2 -> stream key b0 (r1 ++ r2) b2.
Proof.
  intros [L1 F1 O1 D1] [L2 F2 O2 D2]. split; [congruence|congruence|done|].
  destruct D2 as [D2|(before & after & tip & enc & -> & Hm & D2)].
  - rewrite D2. destruct D1 as [D1|(before & after & tip & enc & -> & Hm & D1)]; rewrite D1.
    + left. by rewrite filter_app, app_assoc.
    + right. exists before, (after ++ r2), tip, enc. rewrite <- app_assoc. split_and!; [done|done|]. by rewrite filter_app.
  - right. exists (r1 ++ before), after, tip, enc. rewrite app_assoc. split_and!; [done|congruence|done].
Qed.

Lemma fanOutcome_stream key record l b o sent :
  Delivery.closed (dqueue b) = false -> fanOutcome key record l b o sent ->
  match o with
  | Some b' => stream key b [record] b' /\ sent = []
  | None => sent = [CallCloseLink l]
  end.
Proof.
  intros Ho [-> HE]. pose proof (Enqueue_rules (dqueue b) record) as Hr.
  destruct (Enqueue record (dqueue b)) as [err q] eqn:Heq. pose proof (Enqueue_durable _ _ _ _ Heq) as Hd. simpl in Hr.
  assert (Hkeep : (err = None \/ err = Some ErrDropped) -> stream key b [record] (withDQueue b q)).
  { intros He. split; [done|done|destruct Hr; simpl; congruence|]. left. simpl. rewrite Hd.
    f_equal. destruct err as [err|]; [|done]. destruct He as [?|He]; [done|]. simplify_eq.
    rewrite filter_cons_False; [done|]. apply ephemeral_not_durable. by inversion Hr. }
  destruct err as [err|]; [|subst o; split; [by apply Hkeep; left|done]].
  assert (err = ErrDropped \/ err = ErrOverflow) as [->| ->] by (inversion Hr; subst; auto; congruence).
  - simpl in HE. subst o. split; [by apply Hkeep; right|done].
  - simpl in HE. destruct HE as [->|[tip ->]]; [done|]. destruct (resetBinding key tip b) as [b'|] eqn:Hrb; [|done].
    split; [|done]. unfold resetBinding, Repair in Hrb. rewrite Ho in Hrb. branches. split; try done.
    right. by eexists [record], [], tip, _.
Qed.

Lemma pumpLoop_stream key fuel : forall h (w : W) log es h' w' log',
  (length (buf (hqueue h)) < fuel)%nat -> Delivery.closed (hqueue h) = false ->
  (forall l b, deliveries h !! l = Some b -> Delivery.closed (dqueue b) = false) ->
  pumpLoop fuel key h (w, log) = (es, h', (w', log')) ->
  exists sent, log' = log ++ sent /\
    h' = withDeliveries (withQueue h (MkQueue (capacity (hqueue h)) false [])) (deliveries h') /\
    forall l, match deliveries h !! l with
              | None => deliveries h' !! l = None /\ about l sent = []
              | Some b0 => match deliveries h' !! l with
                           | Some b => stream key b0 (buf (hqueue h)) b /\ about l sent = []
                           | None => about l sent = [CallCloseLink l]
                           end
              end.
Proof.
  induction fuel as [|fuel IH]; intros h w log es h' w' log' Hf Ho Hd Heq; [lia|].
  simpl in Heq. unfold Next in Heq. rewrite Ho in Heq. destruct (buf (hqueue h)) as [|x rest] eqn:Hbuf.
  { simplify_eq. exists []. rewrite app_nil_r. split_and!; [done| |].
    - destruct h' as [i q st ds ts tk]. simpl in *. rewrite <- Ho, <- Hbuf. by destruct q.
    - intros l. destruct (deliveries h' !! l) as [b|] eqn:Hl; [|done]. split; [|done]. apply stream_refl. eauto. }
  destruct (eachBinding _ _ _ (w, log)) as [[es1 h1] [w1 log1]] eqn:He.
  destruct (pumpLoop fuel key h1 (w1, log1)) as [[es2 h2] [w2 log2]] eqn:Hp. simplify_eq.
  eapply eachBinding_all in He as (s1 & -> & Hh1 & Hall1); [|apply fanOutLocked_touch]. simpl in Hall1.
  assert (Hq1 : hqueue h1 = MkQueue (capacity (hqueue h)) false rest) by (by rewrite Hh1).
  assert (Hout1 : forall l b0, deliveries h !! l = Some b0 ->
    match deliveries h1 !! l with Some b => stream key b0 [x] b /\ about l s1 = [] | None => about l s1 = [CallCloseLink l] end).
  { intros l b0 Hl. specialize (Hall1 l). rewrite Hl in Hall1. eapply fanOutcome_stream; [|done]. eauto. }
  apply IH in Hp as (s2 & -> & Hh2 & Hall2).
  - exists (s1 ++ s2). rewrite app_assoc. split_and!; [done|rewrite Hh2, Hh1; done|]. intros l. rewrite about_app.
    specialize (Hall1 l). specialize (Hall2 l). specialize (Hout1 l). destruct (deliveries h !! l) as [b0|].
    + specialize (Hout1 _ eq_refl). destruct (deliveries h1 !! l) as [b1|].
      * destruct Hout1 as [Hst ->]. destruct (deliveries h' !! l) as [b|]; [|done].
        destruct Hall2 as [Hst2 ->]. rewrite Hq1 in Hst2. split; [|done]. apply (stream_trans _ _ _ _ [x] rest Hst Hst2).
      * destruct Hall2 as [-> ->]. by rewrite Hout1.
    + destruct Hall1 as [Hn ->]. rewrite Hn in Hall2. done.
  - rewrite Hq1. simpl in *. lia.
  - by rewrite Hq1.
  - intros l b Hb. destruct (deliveries h !! l) as [b0|] eqn:Hl.
    + specialize (Hout1 l b0 Hl). rewrite Hb in Hout1. by destruct Hout1 as [[? ? ? ?] _].
    + specialize (Hall1 l). rewrite Hl in Hall1. destruct Hall1. congruence.
Qed.

(** C6: A pump empties the session's inbound queue into its links' queues and
    drains those. For every link: what is now published and queued is the
    durable content it held followed by all the durable content that came in,
    in order, unless an overflow cut it, and then a session.reset stands where
    the cut is; what was published is a prefix of that, in order; a link that
    left was closed. *)
Theorem pump_delivers_or_repairs key r (w : W) log e r' w' log' h :
  rinv r -> hosts r !! key = Some h -> Pump key r (w, log) = (e, r', (w', log')) ->
  exists h' sent, log' = log ++ sent /\ hosts r' = <[key := h']> (hosts r) /\ buf (hqueue h') = [] /\
    forall l, match deliveries h !! l with
    | None => deliveries h' !! l = None /\ about l sent = []
    | Some b0 =>
        match deliveries h' !! l with
        | None => last (about l sent) = Some (CallCloseLink l)
        | Some b' => exists b published rest,
            stream key b0 (buf (hqueue h)) b /\ buf (dqueue b) = published ++ rest /\
            b' = advanced b published rest /\
            (about l sent = publishes l key published /\ rest = [] \/
             exists x, head rest = Some x /\
               about l sent = publishes l key published ++ [CallPublish l key (Encoded x) false])
        end
    end.
Proof.
  intros Hr Hh Heq. pose proof (rinv_present _ _ _ Hr Hh) as Hcl. destruct (rinv_hosts _ Hr _ _ Hh) as [Ho _ _ Hb].
  unfold Pump in Heq. rewrite Hcl, Hh in Heq.
  destruct (pumpLoop _ _ _ _) as [[es1 h1] [w1 log1]] eqn:Hp.
  destruct (eachBinding _ _ _ _) as [[es2 h2] [w2 log2]] eqn:He. simplify_eq.
  apply pumpLoop_stream in Hp as (s1 & -> & Hh1 & Hall1); [|lia|done|intros l b Hl; by destruct (Hb _ _ Hl)].
  eapply eachBinding_all in He as (s2 & -> & Hh2 & Hall2); [|apply drainLocked_touch].
  exists h2, (s1 ++ s2). rewrite app_assoc. split_and!; [done|done|by rewrite Hh2, Hh1|].
  intros l. specialize (Hall1 l). specialize (Hall2 l). rewrite about_app.
  destruct (deliveries h !! l) as [b0|].
  2: { destruct Hall1 as [Hn ->]. by rewrite Hn in Hall2. }
  destruct (deliveries h1 !! l) as [b|].
  2: { destruct Hall2 as [-> ->]. by rewrite Hall1, app_nil_r. }
  destruct Hall1 as [Hst ->]. destruct (Hall2 (stream_open _ _ _ _ Hst)) as (ps & rest & Hbuf & Hout). simpl.
  destruct Hout as [(-> & -> & ->)|(x & Hx & [(-> & ->)|(-> & ->)])].
  - exists b, ps, []. split_and!; try done. by left.
  - exists b, ps, rest. split_and!; try done. right. eauto.
  - by rewrite last_app.
Qed.
End Delivery.

(** ** Repairs *)
Section Repairs.
Context `{SessionCodec} `{StoreLimits} {W : Type} `{RelayEnv W}.

(** A binding after a reset: one control record, naming what the link was
    delivered contiguously and the tip its viewer reads to. *)
Definition is_reset (key : sessionKey) (tip : Z) (b b' : deliveryBinding) : Prop :=
  exists encoded,
    marshalReset (Session_Reset (key_tenant key) (key_session key) (lastContiguous b) tip) = Ok encoded /\
    b' = MkDelivery (MkQueue (capacity (dqueue b)) false [resetRecord encoded]) (lastContiguous b) (forwarded b).

Lemma resetBinding_is_reset key tip b b' : resetBinding key tip b = Some b' -> is_reset key tip b b'.
Proof. unfold resetBinding, Repair, is_reset. intros. branches; eauto. Qed.

(** Every link of [h] is, in [h'], reset to [tip] or closed by a call sent. *)
Definition all_reset (key : sessionKey) (tip : Z) (h h' : hostBinding) (sent : list rcall) : Prop :=
  forall l, match deliveries h !! l with
            | None => deliveries h' !! l = None
            | Some b => match deliveries h' !! l with
                        | Some b' => is_reset key tip b b' /\ about l sent = []
                        | None => about l sent = [CallCloseLink l]
                        end
            end.

Definition all_closed (h h' : hostBinding) (sent : list rcall) : Prop :=
  deliveries h' = ∅ /\ forall l, is_Some (deliveries h !! l) -> about l sent = [CallCloseLink l].

Lemma resetAll_all key tip h (w : W) log es h' w' log' :
  resetAll key tip h (w, log) = (es, h', (w', log')) ->
  exists sent, log' = log ++ sent /\ h' = withDeliveries h (deliveries h') /\ all_reset key tip h h' sent.
Proof.
  intros (sent & -> & -> & Hab)%resetAll_spec. exists sent. split_and!; [done|done|]. intros l. simpl.
  rewrite lookup_omap, Hab. destruct (deliveries h !! l) as [b|]; simpl; [|done].
  destruct (resetBinding key tip b) eqn:Hr; simpl; [|done]. split; [by apply resetBinding_is_reset|done].
Qed.

Lemma closeAll_all reason h (w : W) log h' w' log' :
  closeAll reason h (w, log) = (h', (w', log')) ->
  exists sent, log' = log ++ sent /\ h' = withDeliveries h ∅ /\ all_closed h h' sent.
Proof.
  intros (sent & -> & -> & Hab)%closeAll_spec. exists sent. split_and!; [done|done|]. split; [done|].
  intros l [b Hb]. by rewrite Hab, Hb.
Qed.

Lemma repair_spec key id r (w : W) log e r' w' log' h :
  rinv r -> hosts r !! key = Some h -> host_id h = id ->
  repair key id r (w, log) = (e, r', (w', log')) ->
  exists h' sent tip,
    hosts r' = <[key := h']> (hosts r) /\ host_id h' = id /\ stopped h' = false /\ buf (hqueue h') = [] /\
    log' = log ++ CallStop key :: sent ++ [CallRebind key; CallResume key tip] /\
    (all_reset key tip h h' sent /\ tailSeq h' = tip /\ tailKnown h' = true \/
     all_closed h h' sent /\ tip = 0).
Proof.
  intros Hr Hh Hid Heq. pose proof (rinv_present _ _ _ Hr Hh) as Hcl.
  pose proof (host_open _ _ (rinv_hosts _ Hr _ _ Hh)) as Ho. unfold repair in Heq. simpl in Heq.
  assert (Hsame : sameHost key id r = Some h) by (unfold sameHost; by rewrite Hh, bool_decide_true).
  destruct (tail_Stop key w) as [serr w1]. destruct (readTip key _) as [tip [w2 log2]] eqn:Ht. apply readTip_logged in Ht as ->.
  unfold repair_locked in Heq. rewrite Hcl, Hsame in Heq. destruct tip as [tip|terr].
  - destruct (resetAll _ _ _ _) as [[es h1] [w3 log3]] eqn:Ha. apply resetAll_all in Ha as (sent & -> & Hh1 & Hall).
    simpl in Heq. destruct (rebinder_Rebind key w3) as [rerr w4]. simpl in Heq. destruct (tail_Resume key tip w4) as [merr w5].
    unfold repair_finish, sameHost in Heq. simpl in Heq. rewrite lookup_insert_eq, bool_decide_true in Heq by (by rewrite Hh1).
    simplify_eq. eexists _, sent, tip. simpl. rewrite insert_insert_eq. split_and!; try done.
    + by rewrite Hh1.
    + rewrite Hh1. simpl. unfold Clear. by rewrite Ho.
    + by rewrite <- !app_assoc.
    + left. done.
  - destruct (closeAll _ _ _) as [h1 [w3 log3]] eqn:Ha. apply closeAll_all in Ha as (sent & -> & -> & Hall).
    simpl in Heq. destruct (rebinder_Rebind key w3) as [rerr w4]. simpl in Heq. destruct (tail_Resume key 0 w4) as [merr w5].
    unfold repair_finish, sameHost in Heq. simpl in Heq. rewrite lookup_insert_eq, bool_decide_true in Heq by done.
    simplify_eq. eexists _, sent, 0. simpl. rewrite insert_insert_eq. split_and!; try done.
    + unfold Clear. by rewrite Ho.
    + by rewrite <- !app_assoc.
    + right. done.
Qed.

Lemma repair_rinv key id r (w : W) log e r' w' log' :
  repair key id r (w, log) = (e, r', (w', log')) -> rinv r -> rinv r'.
Proof.
  unfold repair. simpl. intros Heq Hr. destruct (tail_Stop key w) as [se w1].
  destruct (readTip key _) as [tip [w2 log2]]. destruct (repair_locked key id tip r _) as [[o r1] [w3 log3]] eqn:Hl.
  apply repair_locked_rinv in Hl; [|done]. destruct o as [[fs t]|]; [|by simplify_eq]. simpl in Heq.
  destruct (rebinder_Rebind key w3) as [? w4]. simpl in Heq. destruct (tail_Resume key t w4) as [? w5]. simplify_eq.
  by apply repair_finish_rinv.
Qed.

(** A repair of a session this replica still serves stops the tail, then
    resets every link to one durable tip (or, with no tip readable, closes
    every link), empties the inbound queue, rebinds, resumes the tail after
    exactly the tip the resets named (from the start if there was none), and
    only then accepts records again. *)
Theorem repair_resets_then_resumes key id r (w : W) log e r' w' log' h :
  rinv r -> hosts r !! key = Some h -> host_id h = id ->
  repair key id r (w, log) = (e, r', (w', log')) ->
  exists h' sent tip,
    hosts r' = <[key := h']> (hosts r) /\ host_id h' = id /\ stopped h' = false /\ buf (hqueue h') = [] /\
    log' = log ++ CallStop key :: sent ++ [CallRebind key; CallResume key tip] /\
    (all_reset key tip h h' sent /\ tailSeq h' = tip /\ tailKnown h' = true \/
     all_closed h h' sent /\ tip = 0).
Proof. apply repair_spec. Qed.

(** The journal's read, as SessionStore documents it: the first public record
    from [FromSeq] on, or how far none was found. *)
Definition truthful (public : sessionKey -> Z -> Prop) : Prop :=
  forall req (w : W) page w', ReadPublicJournal req w = (Ok page, w') -> jr_TipOnly req = false ->
    is_u64 (page_CoveredThrough page) /\
    forall n, public (SessionKey (jr_TenantID req) (jr_SessionID req)) n -> jr_FromSeq req <= n ->
      match page_Events page with
      | first :: _ => first <= n
      | [] => page_CoveredThrough page < n
      end.

Lemma probeGap_sound public key last seq n (w : W) log hole tip perr w' :
  truthful public -> is_u64 last -> is_u64 seq -> last < n < seq -> public key n ->
  probeGap key last seq (w, log) = ((hole, tip, perr), w') -> hole = true.
Proof.
  intros Htr Hl Hs Hn Hp. unfold probeGap. destruct key as [tenant session]. simpl.
  rewrite (u64_succ last) by (unfold is_u64, u64_modulus in *; lia).
  destruct (ReadPublicJournal _ w) as [[page|err] w1] eqn:Hread; simpl; [|intros; by simplify_eq].
  destruct (Htr _ _ _ _ Hread eq_refl) as [Hcov Hfirst]. simpl in Hfirst. specialize (Hfirst n Hp ltac:(lia)).
  destruct (page_Events page) as [|first rest].
  - intros. simplify_eq. apply Z.ltb_lt. unfold u64.
    destruct (decide (page_CoveredThrough page = u64_modulus - 1)) as [->|Hne].
    + change ((u64_modulus - 1 + 1) mod u64_modulus) with 0. unfold is_u64 in *. lia.
    + fold (u64 (page_CoveredThrough page + 1)). rewrite u64_succ by done. lia.
  - intros. simplify_eq. apply Z.ltb_lt. lia.
Qed.

Lemma resetForGap_spec key h seq tip perr (w : W) log h' w' log' :
  resetForGapLocked key h seq tip perr (w, log) = (h', (w', log')) ->
  exists sent, log' = log ++ sent /\
    (all_closed h h' sent /\ tailKnown h' = false \/
     exists tip', all_reset key tip' h h' sent /\ seq <= u64 (tip' + 1) /\ tailSeq h' = tip' /\ tailKnown h' = true).
Proof.
  unfold resetForGapLocked. intros Heq.
  destruct (match perr with None => _ | Some _ => _ end) as [tip1 [w1 log1]] eqn:Htip.
  assert (log1 = log) as ->.
  { destruct perr; [|by simplify_eq]. destruct (readTip key (w, log)) as [? [? ?]] eqn:Ht.
    apply readTip_logged in Ht. simplify_eq. done. }
  destruct (_ <? _) eqn:Hlt; reflect_guards.
  - destruct (closeAll _ _ _) as [h1 [w2 log2]] eqn:Hc. apply closeAll_all in Hc as (sent & -> & -> & Hall). simplify_eq.
    exists sent. split; [done|]. by left.
  - destruct (resetAll _ _ _ _) as [[es h1] [w2 log2]] eqn:Hc. apply resetAll_all in Hc as (sent & -> & Hh1 & Hall). simplify_eq.
    exists sent. split; [done|]. right. exists tip1. by split_and!.
Qed.

Lemma acceptLocked_deliveries key h record r nxt r' :
  acceptLocked key h record r = (nxt, r') -> exists h', hosts r' !! key = Some h' /\ deliveries h' = deliveries h.
Proof.
  unfold acceptLocked. set (h1 := match Class record with ClassEnduring => _ | _ => _ end).
  assert (Hd : deliveries h1 = deliveries h). { unfold h1. destruct (Class record); [|done|done]. by destruct (_ || _). }
  clearbody h1. destruct (Enqueue record (hqueue h1)) as [err q]. intros Heq.
  branches; eexists; simpl; rewrite lookup_insert_eq; (split; [done|]); done.
Qed.

(** C24: No public record is skipped in front of a viewer. When an accepted
    record is ahead of the tail and the journal holds a public record in
    between, the relay finds the hole, and before the record is queued every
    link is either closed or holds nothing but a session.reset whose tip
    reaches at least to the record before the one that arrived. *)
Theorem gap_resets_every_viewer public key frame record h n r (w : W) log probe w1 log1 nxt r' w' log' :
  truthful public -> rinv r -> hosts r !! key = Some h -> stopped h = false ->
  classify key frame = Ok record -> Class record = ClassEnduring -> tailKnown h = true ->
  is_u64 (tailSeq h) -> is_u64 (Seq record) -> tailSeq h < n < Seq record -> public key n ->
  probeGap key (tailSeq h) (Seq record) (w, log) = (probe, (w1, log1)) ->
  Receive_probed key (host_id h) record probe r (w1, log1) = (nxt, r', (w', log')) ->
  Receive_locked key frame r = (RxProbe (host_id h) (tailSeq h) record, r) /\
  exists h' sent, hosts r' !! key = Some h' /\ log' = log1 ++ sent /\
    (all_closed h h' sent \/ exists tip, all_reset key tip h h' sent /\ Seq record <= u64 (tip + 1)).
Proof.
  intros Htr Hr Hh Hst Hcls Hend Hkn Hlu Hsu Hn Hp Hprobe Heq. pose proof (rinv_present _ _ _ Hr Hh) as Hcl.
  assert (Hsucc : u64 (tailSeq h + 1) = tailSeq h + 1) by (apply u64_succ; [done|]; unfold is_u64 in *; lia).
  split.
  { unfold Receive_locked. rewrite Hcl, Hh, Hst, Hcls, Hkn, bool_decide_true by done. rewrite Hsucc.
    simpl. by rewrite (proj2 (Z.ltb_lt _ _)) by lia. }
  destruct probe as [[hole tip] perr]. eapply probeGap_sound in Hprobe as ->; try done.
  unfold Receive_probed in Heq. rewrite Hcl in Heq. unfold sameHost in Heq. rewrite Hh, bool_decide_true in Heq by done.
  rewrite Hst in Heq. destruct (resetForGapLocked _ _ _ _ _ _) as [h1 [w2 log2]] eqn:Hgap.
  apply resetForGap_spec in Hgap as (sent & -> & Hout).
  destruct (acceptLocked key h1 record r) as [nx r1] eqn:Ha. simplify_eq.
  apply acceptLocked_deliveries in Ha as (h' & Hh' & Hd'). exists h', sent. split_and!; [done|done|].
  unfold all_closed, all_reset in *. rewrite Hd'. destruct Hout as [[? ?]|(tip' & ? & ? & ?)]; [by left|right; eauto].
Qed.
End Repairs.

(** ** Coverage and ownership *)
Definition seqs (ps : list Record_) : list Z := Seq <$> filter (fun r => Class r = ClassEnduring) ps.

Lemma seqs_snoc ps r :
  seqs (ps ++ [r]) = seqs ps ++ match Class r with ClassEnduring => [Seq r] | _ => [] end.
Proof.
  unfold seqs. rewrite filter_app, fmap_app. f_equal. destruct (Class r) eqn:Hc.
  - by rewrite filter_cons_True.
  - rewrite filter_cons_False; [done|]. by rewrite Hc.
  - rewrite filter_cons_False; [done|]. by rewrite Hc.
Qed.

(** What a session.reset claims was delivered was delivered: when a link
    has been published the records [ps], the sequence it records as last
    contiguous is the sequence of one of them, and every sequence from the
    first published through it was published. *)
Theorem last_contiguous_was_delivered (b : deliveryBinding) (ps : list Record_) (first : Z) :
  forwarded b = 0 -> Forall is_u64 (seqs ps) -> head (seqs ps) = Some first ->
  Z.of_nat (length (seqs ps)) < u64_modulus ->
  let last := lastContiguous (foldl (fun b r => advance r b) b ps) in
  last ∈ seqs ps /\ forall n, first <= n <= last -> n ∈ seqs ps.
Proof.
  intros Hf Hu. enough (Hgen : Z.of_nat (length (seqs ps)) < u64_modulus ->
    let b' := foldl (fun b r => advance r b) b ps in
    forwarded b' = Z.of_nat (length (seqs ps)) /\
    (forall s0, head (seqs ps) = Some s0 ->
       lastContiguous b' ∈ seqs ps /\ forall n, s0 <= n <= lastContiguous b' -> n ∈ seqs ps)).
  { intros Hh Hlen. by destruct (Hgen Hlen) as [_ Hg]; apply Hg. }
  induction ps as [|r ps IH] using rev_ind; intros Hlen; [done|].
  rewrite seqs_snoc in *. rewrite foldl_app. simpl. rewrite length_app in Hlen.
  apply Forall_app in Hu as [Hu _]. destruct IH as [Hfw Hall]; [done|lia|]. set (b' := foldl (fun b r => advance r b) b ps) in *.
  unfold advance. destruct (Class r) eqn:Hc; simpl in Hlen; [|rewrite app_nil_r; done|rewrite app_nil_r; done].
  rewrite length_app. cbn [forwarded lastContiguous length]. rewrite Hfw. split.
  { rewrite u64_small; unfold is_u64; lia. }
  intros f0 Hh. destruct (seqs ps) as [|s0 ss] eqn:Hs.
  - simpl in *. simplify_eq. split; [set_solver|]. intros n Hn. assert (n = Seq r) by lia. set_solver.
  - simpl in Hh. simplify_eq. destruct (Hall f0 eq_refl) as [Hin Hr]. simpl (length _) in *.
    destruct (_ || _) eqn:Hg; [|split; [set_solver|intros n Hn; specialize (Hr n Hn); set_solver]].
    split; [set_solver|]. intros n Hn. apply orb_true_iff in Hg as [Hg|Hg]; reflect_guards; [lia|].
    destruct (decide (n = Seq r)) as [->|Hne]; [set_solver|].
    assert (n ∈ f0 :: ss); [|set_solver]. apply Hr.
    assert (is_u64 (lastContiguous b')) as [? ?] by (rewrite Forall_forall in Hu; by apply Hu).
    assert (u64 (lastContiguous b' + 1) <= lastContiguous b' + 1) by (apply Z.mod_le; [lia|done]). lia.
Qed.

Definition names_session `{SessionCodec} (key : sessionKey) (encoded : bytes) : Prop :=
  (exists p, unmarshalEnduring encoded = Ok p /\ SessionKey (pub_TenantID p) (pub_SessionID p) = key) \/
  (exists p, unmarshalEphemeral encoded = Ok p /\ SessionKey (eph_TenantID p) (eph_SessionID p) = key).

Lemma owns_None key tenant session : owns key tenant session = None -> SessionKey tenant session = key.
Proof. unfold owns. intros. branches. reflect_guards. destruct key; simpl in *. congruence. Qed.

Lemma classify_names `{SessionCodec} key frame record :
  classify key frame = Ok record ->
  Encoded record = frame_Encoded frame /\ names_session key (frame_Encoded frame) /\ Class record <> ClassControl.
Proof.
  unfold classify. intros Heq. destruct (SessionRecordTypeOf _) as [ty|]; [|done]. destruct ty; [| |done].
  - unfold ParseEnduring in Heq. branches. split_and!; [done| |done]. left.
    match goal with Ho : owns _ _ _ = None |- _ => apply owns_None in Ho; simpl in Ho end. eauto.
  - branches. split_and!; [done| |done]. right.
    match goal with Ho : owns _ _ _ = None |- _ => apply owns_None in Ho end. eauto.
Qed.

(** On a session whose tail runs, a frame is taken only if its bytes are a
    publication naming that very tenant and session, never a control; the bytes
    are forwarded as they came. Any other frame is refused with an error, and
    changes nothing but the count of foreign records. *)
Theorem receive_takes_only_own_records `{SessionCodec} key frame r h :
  closed r = false -> hosts r !! key = Some h -> stopped h = false ->
  match classify key frame with
  | Ok record => Encoded record = frame_Encoded frame /\ names_session key (frame_Encoded frame) /\
      Class record <> ClassControl
  | Fail err => exists r', Receive_locked key frame r = (RxReturn (Some err), r') /\ hosts r' = hosts r /\
      foreign r' = if errors_is err (Sentinel "routing.ErrForeignRecord") then u64 (foreign r + 1) else foreign r
  end.
Proof.
  intros Hc Hh Hs. destruct (classify key frame) as [record|err] eqn:Hcl; [by apply classify_names|].
  unfold Receive_locked. rewrite Hc, Hh, Hs, Hcl. by eexists.
Qed.


(** ** Witnesses: a journal of tip 9 whose one public record is 2, over the
    demonstration codec *)
Definition demo_relay_env : RelayEnv unit := {|
  relay_tips := {| ReadPublicJournal req w :=
    (Ok (JournalPageOf (if negb (jr_TipOnly req) && (jr_FromSeq req <=? 2) then [2] else []) 9 9), w) |};
  Publish _ _ _ w := (None, w);
  CloseLink _ _ w := (None, w);
  tail_Stop _ w := (None, w);
  tail_Resume _ _ w := (None, w);
  rebinder_Rebind _ w := (None, w)
|}.

#[local] Existing Instances demo_codec demo_limits demo_relay_env.

Definition demo_enduring (n : nat) : Record_ := MkRecord ClassEnduring (String "e" (String.concat "" (replicate n "x"%string))) (Z.of_nat n) "".

Definition demo_host (recs : list Record_) : hostBinding :=
  MkHost 0 (MkQueue 1024 false recs) false {[ "l"%string := MkDelivery (MkQueue 512 false []) 1 1 ]} 1 true.

Definition demo_relay (recs : list Record_) : Relay_ :=
  MkRelay DefaultRepairLimits false {[ SessionKey "t" "s" := demo_host recs ]} 0 1.

Lemma demo_relay_ok recs : (length recs <= 10)%nat -> rinv (demo_relay recs).
Proof.
  intros Hlen. split; simpl; [done|done| |].
  - intros k h Hh. apply lookup_singleton_Some in Hh as [_ <-]. split; simpl; [done|done| |].
    + split; unfold Delivery.Len; simpl; [done|lia|done].
    + intros l b Hb. apply lookup_singleton_Some in Hb as [_ <-]. split_and!; [done|done|]. by split.
  - intros k h Hh. apply lookup_singleton_Some in Hh as [_ <-]. simpl. lia.
Qed.

Lemma relay_bounded_witness :
  rinv (Subscribe (SessionKey "t" "s") "l" (Open (SessionKey "t" "s") (MkRelay DefaultRepairLimits false ∅ 0 0)).2).2.
Proof.
  set (r0 := MkRelay DefaultRepairLimits false ∅ 0 0).
  apply (relay_bounded (W := unit) ((Subscribe (SessionKey "t" "s") "l" (Open (SessionKey "t" "s") r0).2).2, (tt, []))).
  apply (reach_step _ _ ((Open (SessionKey "t" "s") r0).2, (tt, []))); [|exact (rstep_Subscribe _ _ _ _)].
  apply (reach_step _ _ (r0, (tt, []))); [|exact (rstep_Open _ _ _)].
  apply reach_init. by exists DefaultRepairLimits.
Defined.

Lemma pump_delivers_or_repairs_witness :
  exists e r' w' log',
    Pump (SessionKey "t" "s") (demo_relay [demo_enduring 2]) (tt, []) = (e, r', (w', log')) /\
    exists h', hosts r' !! SessionKey "t" "s" = Some h' /\ buf (hqueue h') = [] /\
    log' = [CallPublish "l" (SessionKey "t" "s") "exx" true].
Proof.
  destruct (Pump (SessionKey "t" "s") (demo_relay [demo_enduring 2]) (tt, [])) as [[e r'] [w' log']] eqn:Hp.
  exists e, r', w', log'. split; [done|].
  destruct (pump_delivers_or_repairs _ _ _ _ _ _ _ _ _ (demo_relay_ok [demo_enduring 2] ltac:(simpl; lia)) (lookup_singleton_eq _ _) Hp)
    as (h' & sent & _ & Hr' & Hq & _).
  exists h'. rewrite Hr', lookup_insert_eq. split_and!; [done|done|]. vm_compute in Hp. by simplify_eq.
Defined.

Lemma repair_resets_then_resumes_witness :
  exists e r' w' log',
    repair (SessionKey "t" "s") 0 (demo_relay [demo_enduring 2]) (tt, []) = (e, r', (w', log')) /\
    exists h', hosts r' !! SessionKey "t" "s" = Some h' /\ stopped h' = false /\
    last log' = Some (CallResume (SessionKey "t" "s") 9).
Proof.
  destruct (repair (SessionKey "t" "s") 0 (demo_relay [demo_enduring 2]) (tt, [])) as [[e r'] [w' log']] eqn:Hp.
  exists e, r', w', log'. split; [done|].
  destruct (repair_resets_then_resumes _ _ _ _ _ _ _ _ _ _ (demo_relay_ok [demo_enduring 2] ltac:(simpl; lia))
    (lookup_singleton_eq _ _) eq_refl Hp) as (h' & sent & tip & Hr' & _ & Hs & _).
  exists h'. rewrite Hr', lookup_insert_eq. split_and!; [done|done|]. vm_compute in Hp. by simplify_eq.
Defined.

Lemma demo_truthful : truthful (fun _ n => n = 2).
Proof.
  intros req w page w' Heq Htip. simpl in Heq. rewrite Htip in Heq. simplify_eq/=. split; [by unfold is_u64|].
  intros n -> Hle. by rewrite (proj2 (Z.leb_le _ _)) by lia.
Qed.

Lemma gap_resets_every_viewer_witness :
  exists h' sent, hosts (Receive_probed (SessionKey "t" "s") 0 (demo_enduring 5) (true, 9, None) (demo_relay [])
      (tt, @nil rcall)).1.2 !! SessionKey "t" "s" = Some h' /\
    (all_closed (demo_host []) h' sent \/
     exists tip, all_reset (SessionKey "t" "s") tip (demo_host []) h' sent /\ 5 <= u64 (tip + 1)).
Proof.
  destruct (Receive_probed (SessionKey "t" "s") 0 (demo_enduring 5) (true, 9, None) (demo_relay []) (tt, @nil rcall))
    as [[nxt r'] [w' log']] eqn:Hp.
  destruct (gap_resets_every_viewer (fun _ n => n = 2) (SessionKey "t" "s") (MkFrame "exxxxx" 9 "") (demo_enduring 5) (demo_host []) 2
    (demo_relay []) tt [] (true, 9, None) tt [] nxt r' w' log' demo_truthful (demo_relay_ok [] ltac:(simpl; lia)) (lookup_singleton_eq _ _)
    eq_refl eq_refl eq_refl eq_refl) as (_ & h' & sent & Hh' & _ & Hout);
    [unfold is_u64, u64_modulus; simpl; lia..|reflexivity|reflexivity|done|].
  exists h', sent. split; [exact Hh'|exact Hout].
Defined.

Lemma last_contiguous_was_delivered_witness :
  lastContiguous (foldl (fun b r => advance r b) (MkDelivery (MkQueue 4 false []) 0 0)
    [demo_enduring 3; demo_enduring 4; demo_enduring 6]) ∈ seqs [demo_enduring 3; demo_enduring 4; demo_enduring 6].
Proof.
  apply (last_contiguous_was_delivered (MkDelivery (MkQueue 4 false []) 0 0) [demo_enduring 3; demo_enduring 4; demo_enduring 6] 3).
  - reflexivity.
  - change (Forall is_u64 [3; 4; 6]). rewrite !Forall_cons, Forall_nil. unfold is_u64, u64_modulus. lia.
  - reflexivity.
  - vm_compute; reflexivity.
  - vm_compute. split; discriminate.
Defined.

Lemma receive_takes_only_own_records_witness :
  exists r', Receive_locked (SessionKey "t" "s") (MkFrame "fx" 9 "") (demo_relay []) =
    (RxReturn (Some (wrapf [ErrForeignRecord])), r') /\ foreign r' = 1.
Proof.
  destruct (receive_takes_only_own_records (SessionKey "t" "s") (MkFrame "fx" 9 "") (demo_relay []) (demo_host [])
    eq_refl (lookup_singleton_eq _ _) eq_refl) as (r' & Hr & _ & Hf).
  exists r'. split; [exact Hr|]. rewrite Hf. vm_compute. reflexivity.
Defined.
