(* ===== verification/Pool.v ===== *)
(** * The HostLink pool (src/internal/realtime/hostlink/link.go, capability.go,
      subscribe.go and deps.go)

    [Pool] with [Bind], [Attach], [Unbind], [DeliverCommand], [ReapIdle],
    [Close], [RouteFor], [Subscribe], [Unsubscribe], the capability read
    [accepts] and the unexported [acquireLocked], [acquireUnlocked],
    [dropLinkLocked], [evict], [newPooledLink], [supersededBy], [observe],
    [tenantTarget] and [attachAnswers]. The connections themselves, and the
    dialer that opens them, are behind the interfaces deps.go declares: any
    instance of [LinkEnv]. A [*pooledLink] has an identity ([pl_id]) because
    [dropLinkLocked] compares the pointer. *)

From S2P Require Import Prelude Wire Bindings.

Definition ErrInvalidConfig : error := sentinel "hostlink.ErrInvalidConfig".
Definition ErrPoolClosed : error := sentinel "hostlink.ErrPoolClosed".
Definition ErrLinkLimit : error := sentinel "hostlink.ErrLinkLimit".
Definition ErrTargetMismatch : error := sentinel "hostlink.ErrTargetMismatch".
Definition ErrBindingConflict : error := sentinel "hostlink.ErrBindingConflict".
Definition ErrUnknownBinding : error := sentinel "hostlink.ErrUnknownBinding".
Definition ErrNoTenantEndpoint : error := sentinel "hostlink.ErrNoTenantEndpoint".
Definition ErrAttachMismatch : error := sentinel "hostlink.ErrAttachMismatch".
Definition ErrCommandUndelivered : error := sentinel "hostlink.ErrCommandUndelivered".
Definition ErrSubscribeUnsupported : error := sentinel "hostlink.ErrSubscribeUnsupported".

Record Target := MkTarget { target_Host : HostID; target_Endpoint : InternalEndpoint; target_Generation : Z }.

(** Core's validations and its per-tenant endpoint derivation. *)
Class PoolPrimitives := {
  pool_bindings :: BindingPrimitives;
  hostValidate : HostID -> option error;
  endpointValidate : InternalEndpoint -> option error;
  validateUnbind : HostLinkUnbindRequest -> option error;
  validateAttach : HostLinkAttachRequest -> option error;
  validateDelivery : CommandID -> option error;
  HostLinkEndpoint : InternalEndpoint -> TenantID -> result InternalEndpoint
}.

(** [Dialer] and [Link], with the optional [Subscriber] and [Negotiator]
    capabilities, and the pool's clock. A capability the link lacks is [None]. *)
Class LinkEnv (W : Type) := {
  Link : Type;
  Reply : Type;
  Sink : Type;
  Dial : Target -> W -> result Link * W;
  link_Bind : Link -> HostLinkBindRequest -> W -> option error * W;
  link_Unbind : Link -> HostLinkUnbindRequest -> W -> option error * W;
  link_Attach : Link -> HostLinkAttachRequest -> W -> result HostLinkRegistryObservation * W;
  link_DeliverCommand : Link -> sessionKey -> CommandID -> W -> option error * W;
  link_Close : Link -> W -> option error * W;
  link_Subscribe : Link -> option (sessionKey -> Sink -> W -> option error * W);
  link_Unsubscribe : Link -> option (sessionKey -> W -> W);
  link_Negotiated : Link -> option (W -> result Reply * W);
  pool_Now : W -> time * W
}.

Record Limits := MkLimits {
  MaxLinks : Z;
  DialTimeout : Z;
  IdleTimeout : Z;
  ReconnectMin : Z;
  ReconnectMax : Z
}.

Definition millisecond : Z := 1000000.

Definition DefaultLimits : Limits :=
  MkLimits 256 (5000 * millisecond) (60000 * millisecond) (250 * millisecond) (10000 * millisecond).

Definition Validate (l : Limits) : option error :=
  if MaxLinks l <? 1 then Some (wrapf [ErrInvalidConfig])
  else if DialTimeout l <=? 0 then Some (wrapf [ErrInvalidConfig])
  else if IdleTimeout l <=? 0 then Some (wrapf [ErrInvalidConfig])
  else if ReconnectMin l <=? 0 then Some (wrapf [ErrInvalidConfig])
  else if ReconnectMax l <=? 0 then Some (wrapf [ErrInvalidConfig])
  else if ReconnectMax l <? ReconnectMin l then Some (wrapf [ErrInvalidConfig])
  else if IdleTimeout l <? DialTimeout l then Some (wrapf [ErrInvalidConfig])
  else None.

(** [routeKey] is the per-session key; [linkKey] a Host's link for a tenant. *)
Record linkKey := MkLinkKey { lk_host : HostID; lk_tenant : TenantID }.

#[global] Instance linkKey_eq_dec : EqDecision linkKey.
Proof. solve_decision. Defined.

#[global] Program Instance linkKey_countable : Countable linkKey :=
  inj_countable' (fun k => (lk_host k, lk_tenant k)) (fun p => MkLinkKey p.1 p.2) _.
Next Obligation. by intros []. Qed.

Definition route_link (key : sessionKey) (host : HostID) : linkKey := MkLinkKey host (key_tenant key).

(** [terminalLinkError] and [ConnectionGone]: ErrUnsupportedProtocol,
    ErrLinkClosed or a *HostDisconnect; and a link that is reconnecting. *)
Definition terminalLinkError (err : error) : bool :=
  errors_is err (Sentinel "hostlink.ErrUnsupportedProtocol") ||
  errors_is err (Sentinel "hostlink.ErrLinkClosed") ||
  (if errors_as "hostlink.HostDisconnect" err then true else false).

Definition ConnectionGone (err : error) : bool :=
  errors_is err (Sentinel "hostlink.ErrLinkReconnecting") || terminalLinkError err.

Definition attachAnswers (req : HostLinkAttachRequest) (o : HostLinkRegistryObservation) : option error :=
  if negb (bool_decide (obs_TenantID o = attach_TenantID req) && bool_decide (obs_SessionID o = attach_SessionID req))
  then Some (wrapf [ErrAttachMismatch])
  else if negb (bool_decide (obs_HostID o = attach_HostID req) && (obs_HostGeneration o =? attach_HostGeneration req))
  then Some (wrapf [ErrAttachMismatch])
  else if negb (bool_decide (obs_AgentID o = attach_AgentID req) &&
                bool_decide (obs_RuntimeCompatibilityID o = attach_RuntimeCompatibilityID req))
  then Some (wrapf [ErrAttachMismatch])
  else None.

Section Pool.
Context `{PoolPrimitives} {W : Type} `{LinkEnv W}.

Record pooledLink := MkPooled {
  pl_id : nat;
  pl_link : Link;
  pl_endpoint : InternalEndpoint;
  pl_generation : Z;
  pl_bindings : gset sessionKey;
  pl_idleSince : time
}.

Record Pool_ := MkPool {
  limits : Limits;
  closed : bool;
  links : gmap linkKey pooledLink;
  routes : gmap sessionKey HostID;
  next : nat
}.

(** [NewPool]: zero limits select the defaults; the dialer is always present. *)
Definition NewPool (l : option Limits) : result Pool_ :=
  let l := default DefaultLimits l in
  match Validate l with
  | Some err => Fail err
  | None => Ok (MkPool l false ∅ ∅ 0)
  end.

Definition validateHost (host : HostID) : option error :=
  match hostValidate host with Some err => Some (wrapf [ErrInvalidConfig; err]) | None => None end.

Definition validateEndpoint (endpoint : InternalEndpoint) : option error :=
  match endpointValidate endpoint with Some err => Some (wrapf [ErrInvalidConfig; err]) | None => None end.

Definition Target_Validate (t : Target) : option error :=
  match validateHost (target_Host t) with
  | Some err => Some err
  | None => validateEndpoint (target_Endpoint t)
  end.

(** [tenantTarget]: Core's typed refusal becomes an [EndpointError], which
    unwraps to ErrNoTenantEndpoint and its cause, as the untyped one does. *)
Definition tenantTarget (base : Target) (tenant : TenantID) : result Target :=
  match HostLinkEndpoint (target_Endpoint base) tenant with
  | Fail err =>
      match errors_as "sessionwire.HostLinkEndpointError" err with
      | Some cause => Fail (Err (Typed "hostlink.EndpointError" "" "" 0) [ErrNoTenantEndpoint; Err cause []])
      | None => Fail (wrapf [ErrNoTenantEndpoint; err])
      end
  | Ok endpoint => Ok (MkTarget (target_Host base) endpoint (target_Generation base))
  end.

Definition withGeneration (t : Target) (g : Z) : Target := MkTarget (target_Host t) (target_Endpoint t) g.

(** [Target.dialable]: the link's address alone, generation zero. *)
Definition dialable (t : Target) : Target := MkTarget (target_Host t) (target_Endpoint t) 0.

Definition supersededBy (l : pooledLink) (dial : Target) : bool :=
  negb (bool_decide (target_Endpoint dial = pl_endpoint l)) && (pl_generation l <? target_Generation dial).

Definition observe (l : pooledLink) (dial : Target) : pooledLink :=
  if bool_decide (target_Endpoint dial = pl_endpoint l) && (pl_generation l <? target_Generation dial)
  then MkPooled (pl_id l) (pl_link l) (pl_endpoint l) (target_Generation dial) (pl_bindings l) (pl_idleSince l)
  else l.

Definition withLinks (p : Pool_) (ls : gmap linkKey pooledLink) (rs : gmap sessionKey HostID) : Pool_ :=
  MkPool (limits p) (closed p) ls rs (next p).

(** Delete the link, and every route that goes over it, if it is still the
    pool's. *)
Definition dropLinkLocked (linked : linkKey) (stale : nat) (p : Pool_) : bool * Pool_ :=
  match links p !! linked with
  | None => (false, p)
  | Some current =>
      if negb (bool_decide (pl_id current = stale)) then (false, p)
      else (true, withLinks p (delete linked (links p))
                    (filter (fun r => route_link r.1 r.2 <> linked) (routes p)))
  end.

Definition newPooledLink (link : Link) (dial : Target) (p : Pool_) (w : W) : pooledLink * Pool_ * W :=
  let '(now, w) := pool_Now w in
  (MkPooled (next p) link (target_Endpoint dial) (target_Generation dial) ∅ now,
   MkPool (limits p) (closed p) (links p) (routes p) (S (next p)), w).

(** Keep the dialled link for [linked] in place of what it supersedes. *)
Definition installLink (linked : linkKey) (dial : Target) (link : Link) (p : Pool_) (w : W)
    : pooledLink * option Link * Pool_ * W :=
  let '(replaced, p) :=
    match links p !! linked with
    | Some current =>
        let '(dropped, p) := dropLinkLocked linked (pl_id current) p in
        (if dropped then Some (pl_link current) else None, p)
    | None => (None, p)
    end in
  let '(pooled, p, w) := newPooledLink link dial p w in
  (pooled, replaced, withLinks p (<[linked := pooled]> (links p)) (routes p), w).

(** The link the pool already has for [linked], if [dial] does not supersede
    it; a refusal if there is no room for another. *)
Definition currentLink (linked : linkKey) (dial : Target) (p : Pool_) : result (option pooledLink) * Pool_ :=
  match links p !! linked with
  | Some current =>
      if negb (supersededBy current dial) then
        let current := observe current dial in
        (Ok (Some current), withLinks p (<[linked := current]> (links p)) (routes p))
      else (Ok None, p)
  | None =>
      if MaxLinks (limits p) <=? Z.of_nat (size (links p)) then (Fail (wrapf [ErrLinkLimit]), p)
      else (Ok None, p)
  end.

Definition acquireLocked (linked : linkKey) (dial : Target) (p : Pool_) (w : W)
    : result (pooledLink * option Link) * Pool_ * W :=
  let '(current, p) := currentLink linked dial p in
  match current with
  | Fail err => (Fail err, p, w)
  | Ok (Some current) => (Ok (current, None), p, w)
  | Ok None =>
      let '(link, w) := Dial (dialable dial) w in
      match link with
      | Fail err => (Fail err, p, w)
      | Ok link =>
          let '(pooled, replaced, p, w) := installLink linked dial link p w in
          (Ok (pooled, replaced), p, w)
      end
  end.

Definition closeOpt (link : option Link) (w : W) : W :=
  match link with Some link => (link_Close link w).2 | None => w end.

(** [Bind], its deferred closes run after the mutex is released: the link a
    dial superseded, then the dead one. *)
Definition Bind (target : Target) (req : HostLinkBindRequest) (p : Pool_) (w : W) : option error * Pool_ * W :=
  match Target_Validate target with
  | Some err => (Some err, p, w)
  | None =>
      if negb (bool_decide (bind_HostID req = target_Host target)) then (Some (wrapf [ErrTargetMismatch]), p, w)
      else match validateBind req with
      | Some err => (Some err, p, w)
      | None =>
          match tenantTarget target (bind_TenantID req) with
          | Fail err => (Some err, p, w)
          | Ok dial =>
              let dial := withGeneration dial (bind_HostGeneration req) in
              let key := SessionKey (bind_TenantID req) (bind_SessionID req) in
              if closed p then (Some ErrPoolClosed, p, w)
              else if match routes p !! key with
                      | Some bound => negb (bool_decide (bound = target_Host target))
                      | None => false
                      end
              then (Some (wrapf [ErrBindingConflict]), p, w)
              else
                let linked := route_link key (target_Host target) in
                let '(acquired, p, w) := acquireLocked linked dial p w in
                match acquired with
                | Fail err => (Some err, p, w)
                | Ok (pooled, moved) =>
                    let '(err, w) := link_Bind (pl_link pooled) req w in
                    match err with
                    | Some err =>
                        if terminalLinkError err then
                          let '(dropped, p) := dropLinkLocked linked (pl_id pooled) p in
                          let w := closeOpt moved w in
                          let w := closeOpt (if dropped then Some (pl_link pooled) else None) w in
                          (Some err, p, w)
                        else (Some err, p, closeOpt moved w)
                    | None =>
                        let pooled := MkPooled (pl_id pooled) (pl_link pooled) (pl_endpoint pooled)
                          (pl_generation pooled) ({[ key ]} ∪ pl_bindings pooled) (pl_idleSince pooled) in
                        (None, withLinks p (<[linked := pooled]> (links p)) (<[key := target_Host target]> (routes p)),
                         closeOpt moved w)
                    end
                end
          end
      end
  end.

Definition evict (linked : linkKey) (stale : pooledLink) (p : Pool_) (w : W) : Pool_ * W :=
  let '(dropped, p) := dropLinkLocked linked (pl_id stale) p in
  (p, closeOpt (if dropped then Some (pl_link stale) else None) w).

Definition Attach (target : Target) (req : HostLinkAttachRequest) (p : Pool_) (w : W)
    : result HostLinkRegistryObservation * Pool_ * W :=
  match Target_Validate target with
  | Some err => (Fail err, p, w)
  | None =>
      if negb (bool_decide (attach_HostID req = target_Host target)) then (Fail (wrapf [ErrTargetMismatch]), p, w)
      else match validateAttach req with
      | Some err => (Fail err, p, w)
      | None =>
          match tenantTarget target (attach_TenantID req) with
          | Fail err => (Fail err, p, w)
          | Ok dial =>
              let dial := withGeneration dial (attach_HostGeneration req) in
              let linked := MkLinkKey (target_Host target) (attach_TenantID req) in
              if closed p then (Fail ErrPoolClosed, p, w)
              else
                let '(acquired, p, w) := acquireLocked linked dial p w in
                match acquired with
                | Fail err => (Fail err, p, w)
                | Ok (pooled, replaced) =>
                    let w := closeOpt replaced w in
                    let '(answer, w) := link_Attach (pl_link pooled) req w in
                    match answer with
                    | Fail err =>
                        let '(p, w) := if terminalLinkError err then evict linked pooled p w else (p, w) in
                        (Fail err, p, w)
                    | Ok observation =>
                        match attachAnswers req observation with
                        | Some err => (Fail err, p, w)
                        | None => (Ok observation, p, w)
                        end
                    end
                end
          end
      end
  end.

Definition Unbind (req : HostLinkUnbindRequest) (p : Pool_) (w : W) : option error * Pool_ * W :=
  match validateUnbind req with
  | Some err => (Some err, p, w)
  | None =>
      let key := SessionKey (unbind_TenantID req) (unbind_SessionID req) in
      if closed p then (Some ErrPoolClosed, p, w)
      else match routes p !! key with
      | None => (Some (wrapf [ErrUnknownBinding]), p, w)
      | Some host =>
          if negb (bool_decide (unbind_HostID req = host)) then (Some (wrapf [ErrTargetMismatch]), p, w)
          else match links p !! route_link key host with
          | None => (Some (wrapf [ErrUnknownBinding]), withLinks p (links p) (delete key (routes p)), w)
          | Some pooled =>
              let bindings := pl_bindings pooled ∖ {[ key ]} in
              let '(idle, w) := if decide (bindings = ∅) then pool_Now w else (pl_idleSince pooled, w) in
              let pooled := MkPooled (pl_id pooled) (pl_link pooled) (pl_endpoint pooled) (pl_generation pooled) bindings idle in
              let p := withLinks p (<[route_link key host := pooled]> (links p)) (delete key (routes p)) in
              let '(err, w) := link_Unbind (pl_link pooled) req w in
              (err, p, w)
          end
      end
  end.

(** The session's live link: the lookup [DeliverCommand] and [Subscribe] share. *)
Definition routedLink (key : sessionKey) (p : Pool_) : result pooledLink :=
  if closed p then Fail ErrPoolClosed
  else match routes p !! key with
  | None => Fail (wrapf [ErrUnknownBinding])
  | Some host =>
      match links p !! route_link key host with
      | None => Fail (wrapf [ErrUnknownBinding])
      | Some pooled => Ok pooled
      end
  end.

Definition DeliverCommand (key : sessionKey) (command : CommandID) (p : Pool_) (w : W) : option error * W :=
  match validateDelivery command with
  | Some err => (Some err, w)
  | None =>
      match routedLink key p with
      | Fail err => (Some err, w)
      | Ok pooled =>
          let '(err, w) := link_DeliverCommand (pl_link pooled) key command w in
          match err with
          | Some err =>
              if errors_as "hostlink.HostRefusal" err then (Some err, w)
              else (Some (wrapf [ErrCommandUndelivered; err]), w)
          | None => (None, w)
          end
      end
  end.

Definition Subscribe (key : sessionKey) (sink : Sink) (p : Pool_) (w : W) : option error * W :=
  match routedLink key p with
  | Fail err => (Some err, w)
  | Ok pooled =>
      match link_Subscribe (pl_link pooled) with
      | None => (Some (wrapf [ErrSubscribeUnsupported]), w)
      | Some subscribe => subscribe key sink w
      end
  end.

(** [Unsubscribe] asks every link of the session's tenant. *)
Definition Unsubscribe (key : sessionKey) (p : Pool_) (w : W) : W :=
  foldl (fun w e => match link_Unsubscribe (pl_link e.2) with
                    | Some unsubscribe => unsubscribe key w
                    | None => w
                    end)
    w (filter (fun e => lk_tenant e.1 = key_tenant key) (map_to_list (links p))).

Definition RouteFor (key : sessionKey) (p : Pool_) : option HostID := routes p !! key.

Definition Links (p : Pool_) : Z := Z.of_nat (size (links p)).

Definition TenantBindings (host : HostID) (tenant : TenantID) (p : Pool_) : Z :=
  match links p !! MkLinkKey host tenant with
  | Some pooled => Z.of_nat (size (pl_bindings pooled))
  | None => 0
  end.

(** [closeLinks]: every link is closed; the closes race each other. *)
Fixpoint closeLinks (ls : list pooledLink) (w : W) : list error * W :=
  match ls with
  | [] => ([], w)
  | pooled :: rest =>
      let '(err, w) := link_Close (pl_link pooled) w in
      let '(errs, w) := closeLinks rest w in
      (match err with Some e => e :: errs | None => errs end, w)
  end.

Definition reapable (deadline : time) (l : pooledLink) : Prop := pl_bindings l = ∅ /\ pl_idleSince l <= deadline.

#[global] Instance reapable_dec deadline l : Decision (reapable deadline l).
Proof. unfold reapable. apply _. Defined.

Definition ReapIdle (p : Pool_) (w : W) : Z * Pool_ * W :=
  let '(now, w) := pool_Now w in
  let deadline := now - IdleTimeout (limits p) in
  let reaped := filter (fun e => reapable deadline e.2) (map_to_list (links p)) in
  let p := withLinks p (filter (fun e => ~ reapable deadline e.2) (links p)) (routes p) in
  let '(_, w) := closeLinks reaped.*2 w in
  (Z.of_nat (length reaped), p, w).

Definition Close (p : Pool_) (w : W) : option error * Pool_ * W :=
  let ls := (map_to_list (links p)).*2 in
  let '(errs, w) := closeLinks ls w in
  (errors_join errs, MkPool (limits p) true ∅ ∅ (next p), w).

(** [acquireUnlocked]: its second critical section, with the link it dialled
    while the mutex was free. *)
Definition acquire_install (linked : linkKey) (dial : Target) (link : Link) (p : Pool_) (w : W)
    : result pooledLink * Pool_ * W :=
  if closed p then (Fail ErrPoolClosed, p, closeOpt (Some link) w)
  else
    let install :=
      let '(pooled, replaced, p, w) := installLink linked dial link p w in
      (Ok pooled, p, closeOpt replaced w) in
    match links p !! linked with
    | Some existing =>
        if negb (supersededBy existing dial) then (Ok existing, p, closeOpt (Some link) w) else install
    | None =>
        if MaxLinks (limits p) <=? Z.of_nat (size (links p))
        then (Fail (wrapf [ErrLinkLimit]), p, closeOpt (Some link) w) else install
    end.

Definition acquireUnlocked (linked : linkKey) (dial : Target) (p : Pool_) (w : W) : result pooledLink * Pool_ * W :=
  if closed p then (Fail ErrPoolClosed, p, w)
  else
    let '(current, p) := currentLink linked dial p in
    match current with
    | Fail err => (Fail err, p, w)
    | Ok (Some current) => (Ok current, p, w)
    | Ok None =>
        let '(link, w) := Dial (dialable dial) w in
        match link with
        | Fail err => (Fail err, p, w)
        | Ok link => acquire_install linked dial link p w
        end
    end.

(** [accepts]: whether the Host's negotiated reply carries the capability. *)
Definition accepts (target : Target) (tenant : TenantID) (capable : Reply -> bool) (p : Pool_) (w : W)
    : result bool * Pool_ * W :=
  match Target_Validate target with
  | Some err => (Fail err, p, w)
  | None =>
      match tenantTarget target tenant with
      | Fail err => (Fail err, p, w)
      | Ok dial =>
          let linked := MkLinkKey (target_Host target) tenant in
          let '(pooled, p, w) := acquireUnlocked linked dial p w in
          match pooled with
          | Fail err => (Fail err, p, w)
          | Ok pooled =>
              match link_Negotiated (pl_link pooled) with
              | None => (Ok false, p, w)
              | Some negotiated =>
                  let '(reply, w) := negotiated w in
                  match reply with
                  | Fail err =>
                      let '(p, w) := if terminalLinkError err then evict linked pooled p w else (p, w) in
                      (Fail err, p, w)
                  | Ok reply => (Ok (capable reply), p, w)
                  end
              end
          end
      end
  end.

(** ** The pool's invariant

    A route exists exactly where its link records the binding, on the link of
    the route's Host for the route's own tenant. *)
Record pinv (p : Pool_) : Prop := {
  pinv_route : forall key host, routes p !! key = Some host ->
    exists l, links p !! route_link key host = Some l /\ key ∈ pl_bindings l;
  pinv_binding : forall lk l key, links p !! lk = Some l -> key ∈ pl_bindings l ->
    key_tenant key = lk_tenant lk /\ routes p !! key = Some (lk_host lk);
  pinv_limit : Z.of_nat (size (links p)) <= MaxLinks (limits p);
  pinv_closed : closed p = true -> links p = ∅ /\ routes p = ∅;
  pinv_ids : forall lk l, links p !! lk = Some l -> (pl_id l < next p)%nat
}.

Lemma route_link_tenant key host : lk_tenant (route_link key host) = key_tenant key.
Proof. done. Qed.

(** Replacing a link by one with the same bindings. *)
Lemma pinv_update lk l l' p :
  pinv p -> links p !! lk = Some l -> pl_bindings l' = pl_bindings l -> pl_id l' = pl_id l ->
  pinv (withLinks p (<[lk := l']> (links p)) (routes p)).
Proof.
  intros [Pr Pb Pl Pc Pi] Hl Hb Hid. split; simpl.
  - intros key host Hk. destruct (Pr _ _ Hk) as (x & Hx & Hin). destruct (decide (lk = route_link key host)) as [->|Hne].
    + exists l'. rewrite lookup_insert_eq. rewrite Hb. split; [done|]. congruence.
    + exists x. by rewrite lookup_insert_ne.
  - intros lk' x key [[<- <-]|[_ Hx]]%lookup_insert_Some Hin; [rewrite Hb in Hin|]; eauto.
  - rewrite map_size_insert_Some by done. done.
  - intros Hc. destruct (Pc Hc) as [He _]. by rewrite He in Hl.
  - intros lk' x [[<- <-]|[_ Hx]]%lookup_insert_Some; [rewrite Hid|]; eauto.
Qed.

Lemma dropLinkLocked_spec lk id p dropped p' :
  dropLinkLocked lk id p = (dropped, p') -> pinv p ->
  pinv p' /\ closed p' = closed p /\ limits p' = limits p /\ next p' = next p /\
  (forall lk', lk' <> lk -> links p' !! lk' = links p !! lk') /\
  (forall key, key_tenant key <> lk_tenant lk -> routes p' !! key = routes p !! key) /\
  (links p' !! lk = if dropped then None else links p !! lk) /\
  (if dropped then links p' = delete lk (links p) /\ is_Some (links p !! lk) else p' = p).
Proof.
  unfold dropLinkLocked. intros Heq [Pr Pb Pl Pc Pi]. destruct (links p !! lk) as [l|] eqn:Hl.
  2: { by simplify_eq. }
  destruct (negb _); simplify_eq; [by split_and!|]. split_and!; simpl; try done.
  - split; simpl.
    + intros key host [Hk Hne]%map_lookup_filter_Some. simpl in Hne. destruct (Pr _ _ Hk) as (x & Hx & Hin).
      exists x. rewrite lookup_delete_ne by done. done.
    + intros lk' x key [Hne Hx]%lookup_delete_Some Hin. destruct (Pb _ _ _ Hx Hin) as [Ht Hr]. split; [done|].
      apply map_lookup_filter_Some. split; [done|]. simpl. intros Heq. apply Hne. rewrite <- Heq. unfold route_link.
      rewrite Ht. by destruct lk'.
    + rewrite map_size_delete, Hl. lia.
    + intros Hc. destruct (Pc Hc) as [He _]. by rewrite He in Hl.
    + intros lk' x [_ Hx]%lookup_delete_Some. eauto.
  - intros lk' Hne. by rewrite lookup_delete_ne.
  - intros key Hne. rewrite map_lookup_filter. destruct (routes p !! key) as [host|]; simpl; [|done].
    rewrite option_guard_True; [done|]. intros <-. done.
  - by rewrite lookup_delete_eq.
Qed.

Lemma pinv_install lk l p :
  pinv p -> closed p = false -> links p !! lk = None -> Z.of_nat (size (links p)) < MaxLinks (limits p) ->
  pl_bindings l = ∅ -> pl_id l = next p ->
  pinv (MkPool (limits p) (closed p) (<[lk := l]> (links p)) (routes p) (S (next p))).
Proof.
  intros [Pr Pb Pl Pc Pi] Ho Hl Hlt Hb Hid. split; simpl.
  - intros key host Hk. destruct (Pr _ _ Hk) as (x & Hx & Hin). exists x. rewrite lookup_insert_ne by congruence. done.
  - intros lk' x key [[<- <-]|[_ Hx]]%lookup_insert_Some Hin; [rewrite Hb in Hin; set_solver|eauto].
  - rewrite map_size_insert_None by done. lia.
  - congruence.
  - intros lk' x [[<- <-]|[_ Hx]]%lookup_insert_Some; [lia|]. apply Pi in Hx. lia.
Qed.

(** What an operation for one tenant leaves alone. *)
Record others_kept (tenant : TenantID) (p p' : Pool_) : Prop := {
  kept_links : forall lk, lk_tenant lk <> tenant -> links p' !! lk = links p !! lk;
  kept_routes : forall key, key_tenant key <> tenant -> routes p' !! key = routes p !! key;
  kept_limits : limits p' = limits p
}.

Lemma others_refl tenant p : others_kept tenant p p.
Proof. by split. Qed.

Lemma others_trans tenant p1 p2 p3 : others_kept tenant p1 p2 -> others_kept tenant p2 p3 -> others_kept tenant p1 p3.
Proof.
  intros [L1 R1 M1] [L2 R2 M2]. split; [intros; rewrite L2; auto|intros; rewrite R2; auto|congruence].
Qed.

Lemma drop_others lk id p dropped p' :
  dropLinkLocked lk id p = (dropped, p') -> pinv p -> others_kept (lk_tenant lk) p p'.
Proof.
  intros Heq Hp. destruct (dropLinkLocked_spec _ _ _ _ _ Heq Hp) as (_ & _ & Hm & _ & Hl & Hr & _).
  split; [|done|done]. intros lk' Hne. apply Hl. congruence.
Qed.

Lemma installLink_spec lk dial link p (w : W) pooled replaced p' w' :
  installLink lk dial link p w = (pooled, replaced, p', w') -> pinv p -> closed p = false ->
  (links p !! lk = None -> Z.of_nat (size (links p)) < MaxLinks (limits p)) ->
  pinv p' /\ closed p' = false /\ others_kept (lk_tenant lk) p p' /\
  links p' !! lk = Some pooled /\ pl_bindings pooled = ∅ /\ pl_link pooled = link /\
  (forall key, routes p' !! key = Some (lk_host lk) -> key_tenant key <> lk_tenant lk) /\
  (forall key host, routes p' !! key = Some host -> routes p !! key = Some host).
Proof.
  unfold installLink. intros Heq Hp Ho Hroom.
  destruct (match links p !! lk with Some _ => _ | None => _ end) as [rep p1] eqn:Hd.
  assert (Hp1 : pinv p1 /\ closed p1 = false /\ others_kept (lk_tenant lk) p p1 /\ links p1 !! lk = None /\
    Z.of_nat (size (links p1)) < MaxLinks (limits p1) /\
    (forall key, routes p1 !! key = Some (lk_host lk) -> key_tenant key <> lk_tenant lk) /\
    (forall key host, routes p1 !! key = Some host -> routes p !! key = Some host)).
  { destruct (links p !! lk) as [cur|] eqn:Hl.
    - destruct (dropLinkLocked lk (pl_id cur) p) as [dropped p2] eqn:Hdrop. simplify_eq.
      pose proof (drop_others _ _ _ _ _ Hdrop Hp) as Hoth.
      destruct (dropLinkLocked_spec _ _ _ _ _ Hdrop Hp) as (Hp2 & Hc2 & Hm2 & _ & _ & _ & Hlk & Hdel).
      assert (dropped = true) as ->.
      { unfold dropLinkLocked in Hdrop. rewrite Hl, bool_decide_true in Hdrop by done. by simplify_eq/=. }
      destruct Hdel as [Hdel _]. split_and!; try done.
      + congruence.
      + rewrite Hdel, map_size_delete, Hl, Hm2. pose proof (pinv_limit _ Hp). 
        assert (size (links p) <> 0%nat) by (intros He%map_size_empty_iff; by rewrite He in Hl). lia.
      + unfold dropLinkLocked in Hdrop. rewrite Hl, bool_decide_true in Hdrop by done. simplify_eq/=.
        intros key [_ Hne]%map_lookup_filter_Some. simpl in Hne. unfold route_link in Hne. intros Ht. rewrite Ht in Hne. by destruct lk.
      + unfold dropLinkLocked in Hdrop. rewrite Hl, bool_decide_true in Hdrop by done. simplify_eq/=.
        intros key host [? _]%map_lookup_filter_Some. done.
    - simplify_eq. split_and!; try done; [auto|].
      intros key Hk Ht. destruct (pinv_route _ Hp _ _ Hk) as (x & Hx & _). unfold route_link in Hx. rewrite Ht in Hx.
      destruct lk; simpl in *. congruence. }
  destruct Hp1 as (Hp1 & Hc1 & Hoth1 & Hl1 & Hsz1 & Hr1 & Hr1').
  unfold newPooledLink in Heq. destruct (pool_Now w) as [now w1]. simplify_eq. split_and!; simpl; try done.
  - by apply (pinv_install lk _ p1).
  - eapply others_trans; [done|]. split; simpl; [|done|done]. intros lk' Hne. rewrite lookup_insert_ne; [done|congruence].
  - by rewrite lookup_insert_eq.
Qed.

(** An operation for [tenant] on an open pool: it keeps the invariant, and
    everything of the other tenants. *)
Record preserves (tenant : TenantID) (p p' : Pool_) : Prop := {
  preserves_inv : pinv p';
  preserves_open : closed p' = closed p;
  preserves_others : others_kept tenant p p'
}.

Lemma preserves_refl tenant p : pinv p -> preserves tenant p p.
Proof. intros. split; [done|done|apply others_refl]. Qed.

Lemma preserves_trans tenant p1 p2 p3 : preserves tenant p1 p2 -> preserves tenant p2 p3 -> preserves tenant p1 p3.
Proof. intros [? ? ?] [? ? ?]. split; [done|congruence|by eapply others_trans]. Qed.

Lemma observe_kept l dial : pl_bindings (observe l dial) = pl_bindings l /\ pl_id (observe l dial) = pl_id l /\
  pl_link (observe l dial) = pl_link l /\ pl_endpoint (observe l dial) = pl_endpoint l.
Proof. unfold observe. by destruct (_ && _). Qed.

Lemma currentLink_spec lk dial p r p' :
  currentLink lk dial p = (r, p') -> pinv p ->
  preserves (lk_tenant lk) p p' /\ routes p' = routes p /\
  match r with
  | Ok (Some l) => links p' !! lk = Some l /\
      exists l0, links p !! lk = Some l0 /\ l = observe l0 dial /\ supersededBy l0 dial = false
  | Ok None => p' = p /\ (links p !! lk = None -> Z.of_nat (size (links p)) < MaxLinks (limits p)) /\
      (forall l0, links p !! lk = Some l0 -> supersededBy l0 dial = true)
  | Fail _ => p' = p /\ links p !! lk = None
  end.
Proof.
  unfold currentLink. intros Heq Hp. destruct (links p !! lk) as [l|] eqn:Hl.
  - destruct (supersededBy l dial) eqn:Hs; simpl in Heq; simplify_eq.
    + split_and!; [by apply preserves_refl|done|done|congruence|intros; by simplify_eq].
    + destruct (observe_kept l dial) as (Hb & Hid & _). split_and!; [|done|by simpl; rewrite lookup_insert_eq|eauto].
      split; simpl; [by eapply pinv_update|done|]. split; simpl; [|done|done].
      intros lk' Hne. rewrite lookup_insert_ne; [done|congruence].
  - destruct (_ <=? _) eqn:Hlim; reflect_guards; simplify_eq; (split; [by apply preserves_refl|]); [done|].
    split_and!; [done|done|lia|done].
Qed.

Lemma acquireLocked_spec lk dial p (w : W) r p' w' :
  acquireLocked lk dial p w = (r, p', w') -> pinv p -> closed p = false ->
  preserves (lk_tenant lk) p p' /\
  (forall key host, routes p' !! key = Some host -> routes p !! key = Some host) /\
  match r with Ok (l, _) => links p' !! lk = Some l | Fail _ => True end.
Proof.
  unfold acquireLocked. intros Heq Hp Ho. destruct (currentLink lk dial p) as [cur p1] eqn:Hc.
  destruct (currentLink_spec _ _ _ _ _ Hc Hp) as (Hpr & Hro & Hcur).
  destruct cur as [[l|]|err]; simplify_eq.
  - destruct Hcur as [Hl _]. split_and!; [done|by rewrite Hro|done].
  - destruct Hcur as (-> & Hroom & _). destruct (Dial (dialable dial) w) as [[link|err] w1]; simplify_eq.
    + destruct (installLink lk dial link p w1) as [[[pooled replaced] p2] w2] eqn:Hi. simplify_eq.
      destruct (installLink_spec _ _ _ _ _ _ _ _ _ Hi Hp Ho Hroom) as (Hp2 & Hc2 & Hoth & Hl & _ & _ & _ & Hr).
      split_and!; [split; [done|congruence|done]|done|done].
    + split_and!; [by apply preserves_refl|done|done].
  - split_and!; [done|by rewrite Hro|done].
Qed.

Lemma drop_preserves lk id p dropped p' :
  dropLinkLocked lk id p = (dropped, p') -> pinv p -> preserves (lk_tenant lk) p p'.
Proof.
  intros Heq Hp. pose proof (drop_others _ _ _ _ _ Heq Hp).
  destruct (dropLinkLocked_spec _ _ _ _ _ Heq Hp) as (? & ? & _). by split.
Qed.

Lemma evict_preserves lk stale p (w : W) p' w' :
  evict lk stale p w = (p', w') -> pinv p -> preserves (lk_tenant lk) p p'.
Proof.
  unfold evict. intros Heq Hp. destruct (dropLinkLocked lk (pl_id stale) p) as [d p1] eqn:Hd. simplify_eq.
  by eapply drop_preserves.
Qed.

(** Recording a bound session on its link. *)
Lemma pinv_bind lk l key p :
  pinv p -> links p !! lk = Some l -> key_tenant key = lk_tenant lk ->
  (forall host, routes p !! key = Some host -> host = lk_host lk) ->
  pinv (withLinks p (<[lk := MkPooled (pl_id l) (pl_link l) (pl_endpoint l) (pl_generation l)
                         ({[ key ]} ∪ pl_bindings l) (pl_idleSince l)]> (links p))
                    (<[key := lk_host lk]> (routes p))).
Proof.
  intros [Pr Pb Pl Pc Pi] Hl Ht Hone.
  assert (Hlk : forall k, key_tenant k = lk_tenant lk -> route_link k (lk_host lk) = lk).
  { intros k Hk. unfold route_link. rewrite Hk. by destruct lk. }
  split; simpl.
  - intros k host [[<- <-]|[Hne Hk]]%lookup_insert_Some.
    + eexists. rewrite Hlk by done. rewrite lookup_insert_eq. split; [done|]. simpl. set_solver.
    + destruct (Pr _ _ Hk) as (x & Hx & Hin). destruct (decide (lk = route_link k host)) as [->|Hne'].
      * eexists. rewrite lookup_insert_eq. split; [done|]. simpl. simplify_eq. set_solver.
      * exists x. by rewrite lookup_insert_ne.
  - intros lk' x k [[<- <-]|[Hne Hx]]%lookup_insert_Some Hin; simpl in *.
    + apply elem_of_union in Hin as [->%elem_of_singleton|Hin]; [by rewrite lookup_insert_eq|].
      destruct (Pb _ _ _ Hl Hin) as [? Hr]. split; [done|]. destruct (decide (k = key)) as [->|?]; [by rewrite lookup_insert_eq|].
      by rewrite lookup_insert_ne.
    + destruct (Pb _ _ _ Hx Hin) as [Htk Hr]. split; [done|]. destruct (decide (k = key)) as [->|?].
      * exfalso. apply Hne. pose proof (Hone _ Hr). destruct lk, lk'; simpl in *. congruence.
      * by rewrite lookup_insert_ne.
  - rewrite map_size_insert_Some by done. done.
  - intros Hc. destruct (Pc Hc) as [He _]. by rewrite He in Hl.
  - intros lk' x [[<- <-]|[_ Hx]]%lookup_insert_Some; simpl; eauto.
Qed.

Lemma Bind_preserves target req p (w : W) e p' w' :
  Bind target req p w = (e, p', w') -> pinv p ->
  preserves (bind_TenantID req) p p' /\
  (e = None -> routes p' !! SessionKey (bind_TenantID req) (bind_SessionID req) = Some (bind_HostID req)).
Proof.
  unfold Bind. intros Heq Hp. destruct (Target_Validate target); [simplify_eq; split; [by apply preserves_refl|done]|].
  destruct (bool_decide (bind_HostID req = target_Host target)) eqn:Hhost; simpl in Heq; reflect_guards;
    [|simplify_eq; split; [by apply preserves_refl|done]].
  destruct (validateBind req); [simplify_eq; split; [by apply preserves_refl|done]|].
  destruct (tenantTarget target (bind_TenantID req)) as [dial|]; [|simplify_eq; split; [by apply preserves_refl|done]].
  destruct (closed p) eqn:Ho; [simplify_eq; split; [by apply preserves_refl|done]|].
  set (key := SessionKey (bind_TenantID req) (bind_SessionID req)) in *.
  destruct (if routes p !! key is Some bound then negb (bool_decide (bound = target_Host target)) else false) eqn:Hconf;
    [simplify_eq; split; [by apply preserves_refl|done]|].
  set (lk := route_link key (target_Host target)) in *.
  destruct (acquireLocked lk _ p w) as [[acq p1] w1] eqn:Ha.
  destruct (acquireLocked_spec _ _ _ _ _ _ _ Ha Hp Ho) as (Hpr & Hro & Hl).
  destruct acq as [[pooled moved]|err]; [|simplify_eq; done].
  destruct (link_Bind (pl_link pooled) req w1) as [[err|] w2].
  - destruct (terminalLinkError err); [|simplify_eq; done].
    destruct (dropLinkLocked lk (pl_id pooled) p1) as [dropped p2] eqn:Hd. simplify_eq. split; [|done].
    eapply preserves_trans; [done|]. change (bind_TenantID req) with (lk_tenant lk). eapply drop_preserves; [done|apply Hpr].
  - simplify_eq. split; [|intros _; simpl; rewrite lookup_insert_eq; congruence].
    eapply preserves_trans; [done|]. split; [|done|].
    + apply (pinv_bind lk pooled key p1); [apply Hpr|done|done|].
      intros host Hk. apply Hro in Hk. rewrite Hk in Hconf. by reflect_guards.
    + split; simpl; [| |done].
      * intros lk' Hne. rewrite lookup_insert_ne; [done|]. intros <-. done.
      * intros k Hne. rewrite lookup_insert_ne; [done|]. intros <-. done.
Qed.

Lemma Attach_preserves target req p (w : W) r p' w' :
  Attach target req p w = (r, p', w') -> pinv p ->
  preserves (attach_TenantID req) p p' /\
  (forall key host, routes p' !! key = Some host -> routes p !! key = Some host).
Proof.
  unfold Attach. intros Heq Hp.
  assert (Hkeep : preserves (attach_TenantID req) p p) by by apply preserves_refl.
  destruct (Target_Validate target); [by simplify_eq|]. destruct (negb _); [by simplify_eq|].
  destruct (validateAttach req); [by simplify_eq|]. destruct (tenantTarget target (attach_TenantID req)) as [dial|]; [|by simplify_eq].
  destruct (closed p) eqn:Ho; [by simplify_eq|].
  set (lk := MkLinkKey (target_Host target) (attach_TenantID req)) in *.
  destruct (acquireLocked lk _ p w) as [[acq p1] w1] eqn:Ha.
  destruct (acquireLocked_spec _ _ _ _ _ _ _ Ha Hp Ho) as (Hpr & Hro & Hl).
  change (lk_tenant lk) with (attach_TenantID req) in Hpr.
  destruct acq as [[pooled replaced]|err]; [|simplify_eq; eauto].
  destruct (link_Attach _ _ _) as [[o|err] w2].
  - destruct (attachAnswers req o); simplify_eq; eauto.
  - destruct (terminalLinkError err); [|simplify_eq; eauto].
    destruct (evict lk pooled p1 w2) as [p2 w3] eqn:He. simplify_eq. split.
    + apply (preserves_trans _ _ p1); [done|]. change (attach_TenantID req) with (lk_tenant lk). eapply evict_preserves; [done|apply Hpr].
    + intros key host Hk. apply Hro. unfold evict, dropLinkLocked in He. branches; try done.
      by apply map_lookup_filter_Some in Hk as [? _].
Qed.

(** Taking a session off its link. *)
Lemma pinv_unbind lk l key idle p :
  pinv p -> links p !! lk = Some l -> routes p !! key = Some (lk_host lk) -> key_tenant key = lk_tenant lk ->
  pinv (withLinks p (<[lk := MkPooled (pl_id l) (pl_link l) (pl_endpoint l) (pl_generation l)
                         (pl_bindings l ∖ {[ key ]}) idle]> (links p)) (delete key (routes p))).
Proof.
  intros [Pr Pb Pl Pc Pi] Hl Hr Ht. split; simpl.
  - intros k host [Hne Hk]%lookup_delete_Some. destruct (Pr _ _ Hk) as (x & Hx & Hin).
    destruct (decide (lk = route_link k host)) as [->|Hne'].
    + eexists. rewrite lookup_insert_eq. split; [done|]. simpl. simplify_eq. set_solver.
    + exists x. by rewrite lookup_insert_ne.
  - intros lk' x k [[<- <-]|[Hne Hx]]%lookup_insert_Some Hin; simpl in *.
    + apply elem_of_difference in Hin as [Hin Hne]. destruct (Pb _ _ _ Hl Hin) as [? ?]. split; [done|].
      rewrite lookup_delete_ne; [done|]. set_solver.
    + destruct (Pb _ _ _ Hx Hin) as [Htk Hrk]. split; [done|]. rewrite lookup_delete_ne; [done|]. intros <-.
      apply Hne. rewrite Hr in Hrk. simplify_eq. destruct lk, lk'; simpl in *. congruence.
  - rewrite map_size_insert_Some by done. done.
  - intros Hc. destruct (Pc Hc) as [He _]. by rewrite He in Hl.
  - intros lk' x [[<- <-]|[_ Hx]]%lookup_insert_Some; simpl; eauto.
Qed.

Lemma Unbind_preserves req p (w : W) e p' w' :
  Unbind req p w = (e, p', w') -> pinv p -> preserves (unbind_TenantID req) p p'.
Proof.
  unfold Unbind. intros Heq Hp.
  assert (Hkeep : preserves (unbind_TenantID req) p p) by by apply preserves_refl.
  destruct (validateUnbind req); [by simplify_eq|]. destruct (closed p) eqn:Ho; [by simplify_eq|].
  set (key := SessionKey (unbind_TenantID req) (unbind_SessionID req)) in *.
  destruct (routes p !! key) as [host|] eqn:Hr; [|by simplify_eq]. destruct (negb _); [by simplify_eq|].
  destruct (pinv_route _ Hp _ _ Hr) as (l & Hl & Hin). rewrite Hl in Heq.
  destruct (if decide (pl_bindings l ∖ {[key]} = ∅) then pool_Now w else (pl_idleSince l, w)) as [idle w1] eqn:Hid.
  simpl in Heq. destruct (link_Unbind (pl_link l) req w1) as [err w2]. simplify_eq. split; [|done|].
  - by apply (pinv_unbind (route_link key host) l key idle p).
  - split; simpl; [| |done].
    + intros lk Hne. rewrite lookup_insert_ne; [done|]. intros <-. done.
    + intros k Hne. rewrite lookup_delete_ne; [done|]. intros <-. done.
Qed.

Lemma map_size_filter_le {K A} `{Countable K} (P : K * A -> Prop) `{!forall x, Decision (P x)} (m : gmap K A) :
  (size (filter P m) <= size m)%nat.
Proof. apply map_subseteq_size, map_filter_subseteq. Qed.

Lemma ReapIdle_spec p (w : W) n p' w' :
  ReapIdle p w = (n, p', w') -> pinv p ->
  pinv p' /\ closed p' = closed p /\ routes p' = routes p /\ limits p' = limits p /\
  (forall lk l, links p !! lk = Some l -> links p' !! lk = Some l \/
     (links p' !! lk = None /\ reapable ((pool_Now w).1 - IdleTimeout (limits p)) l)) /\
  (forall lk l, links p' !! lk = Some l -> links p !! lk = Some l).
Proof.
  unfold ReapIdle. intros Heq [Pr Pb Pl Pc Pi]. destruct (pool_Now w) as [now w1]. simpl.
  destruct (closeLinks _ w1) as [errs w2]. simplify_eq. split_and!; simpl; try done.
  - split; simpl.
    + intros key host Hk. destruct (Pr _ _ Hk) as (x & Hx & Hin). exists x. split; [|done].
      apply map_lookup_filter_Some. split; [done|]. simpl. intros [He _]. set_solver.
    + intros lk x key [Hx _]%map_lookup_filter_Some Hin. eauto.
    + etrans; [|done]. apply inj_le, map_size_filter_le.
    + intros Hc. destruct (Pc Hc) as [He ?]. rewrite He. split; [apply map_filter_empty|done].
    + intros lk x [Hx _]%map_lookup_filter_Some. eauto.
  - intros lk l Hl. destruct (decide (reapable (now - IdleTimeout (limits p)) l)) as [Hre|Hre].
    + right. split; [|done]. apply map_lookup_filter_None. right. intros x Hx. simplify_eq. simpl. tauto.
    + left. apply map_lookup_filter_Some. done.
  - intros lk l [? _]%map_lookup_filter_Some. done.
Qed.

Lemma Close_pool_spec p (w : W) e p' w' :
  Close p w = (e, p', w') -> pinv p -> pinv p' /\ closed p' = true.
Proof.
  unfold Close. intros Heq [Pr Pb Pl Pc Pi]. destruct (closeLinks _ w) as [errs w1]. simplify_eq.
  split; [|done]. split; simpl; try done. rewrite map_size_empty. lia.
Qed.

Lemma acquire_install_preserves lk dial link p (w : W) r p' w' :
  acquire_install lk dial link p w = (r, p', w') -> pinv p -> preserves (lk_tenant lk) p p'.
Proof.
  unfold acquire_install. intros Heq Hp. destruct (closed p) eqn:Ho; [simplify_eq; by apply preserves_refl|].
  destruct (installLink lk dial link p w) as [[[pooled replaced] p2] w2] eqn:Hi.
  assert (Hin : (links p !! lk = None -> Z.of_nat (size (links p)) < MaxLinks (limits p)) -> preserves (lk_tenant lk) p p2).
  { intros Hroom. destruct (installLink_spec _ _ _ _ _ _ _ _ _ Hi Hp Ho Hroom) as (? & ? & ? & _). split; [done|congruence|done]. }
  destruct (links p !! lk) as [l|] eqn:Hl.
  - destruct (negb _); simplify_eq; [by apply preserves_refl|by apply Hin].
  - destruct (_ <=? _) eqn:Hlim; reflect_guards; simplify_eq; [by apply preserves_refl|]. apply Hin. lia.
Qed.

Lemma acquireUnlocked_preserves lk dial p (w : W) r p' w' :
  acquireUnlocked lk dial p w = (r, p', w') -> pinv p -> preserves (lk_tenant lk) p p'.
Proof.
  unfold acquireUnlocked. intros Heq Hp. destruct (closed p) eqn:Ho; [simplify_eq; by apply preserves_refl|].
  destruct (currentLink lk dial p) as [cur p1] eqn:Hc.
  destruct (currentLink_spec _ _ _ _ _ Hc Hp) as (Hpr & Hro & Hcur).
  destruct cur as [[l|]|err]; simplify_eq; [done| |done].
  destruct Hcur as (-> & _). destruct (Dial (dialable dial) w) as [[link|err] w1]; [|by simplify_eq].
  by eapply acquire_install_preserves.
Qed.

Lemma accepts_preserves target tenant capable p (w : W) r p' w' :
  accepts target tenant capable p w = (r, p', w') -> pinv p -> preserves tenant p p'.
Proof.
  unfold accepts. intros Heq Hp.
  assert (Hkeep : preserves tenant p p) by by apply preserves_refl.
  destruct (Target_Validate target); [by simplify_eq|]. destruct (tenantTarget target tenant) as [dial|]; [|by simplify_eq].
  set (lk := MkLinkKey (target_Host target) tenant) in *.
  destruct (acquireUnlocked lk dial p w) as [[acq p1] w1] eqn:Ha.
  apply acquireUnlocked_preserves in Ha; [|done]. change (lk_tenant lk) with tenant in Ha.
  destruct acq as [pooled|]; [|by simplify_eq]. destruct (link_Negotiated _) as [neg|]; [|by simplify_eq].
  destruct (neg w1) as [[reply|err] w2]; [by simplify_eq|]. destruct (terminalLinkError err); [|by simplify_eq].
  destruct (evict lk pooled p1 w2) as [p2 w3] eqn:He. simplify_eq. apply (preserves_trans _ _ p1); [done|].
  change tenant with (lk_tenant lk). eapply evict_preserves; [done|apply Ha].
Qed.

(** Everything that happens to a pool; [acquire_install] and [evict] also run
    on their own, after other operations took the mutex in between. *)
Inductive pool_step : Pool_ * W -> Pool_ * W -> Prop :=
| pstep_Bind target req p w e p' w' : Bind target req p w = (e, p', w') -> pool_step (p, w) (p', w')
| pstep_Attach target req p w r p' w' : Attach target req p w = (r, p', w') -> pool_step (p, w) (p', w')
| pstep_Unbind req p w e p' w' : Unbind req p w = (e, p', w') -> pool_step (p, w) (p', w')
| pstep_ReapIdle p w n p' w' : ReapIdle p w = (n, p', w') -> pool_step (p, w) (p', w')
| pstep_Close p w e p' w' : Close p w = (e, p', w') -> pool_step (p, w) (p', w')
| pstep_accepts target tenant capable p w r p' w' :
    accepts target tenant capable p w = (r, p', w') -> pool_step (p, w) (p', w')
| pstep_install lk dial link p w r p' w' : acquire_install lk dial link p w = (r, p', w') -> pool_step (p, w) (p', w')
| pstep_evict lk stale p w p' w' : evict lk stale p w = (p', w') -> pool_step (p, w) (p', w')
| pstep_world p w w' : pool_step (p, w) (p, w').

Lemma pool_step_inv s s' : pinv s.1 -> pool_step s s' -> pinv s'.1.
Proof.
  intros Hp Hstep. destruct Hstep as [? ? ? ? ? ? ? Heq|? ? ? ? ? ? ? Heq|? ? ? ? ? ? Heq|? ? ? ? ? Heq|? ? ? ? ? Heq
    |? ? ? ? ? ? ? ? Heq|? ? ? ? ? ? ? ? Heq|? ? ? ? ? ? Heq|]; simpl in *.
  - by eapply Bind_preserves in Heq as [[? ? ?] _].
  - by eapply Attach_preserves in Heq as [[? ? ?] _].
  - by eapply Unbind_preserves in Heq as [? ? ?].
  - by eapply ReapIdle_spec in Heq as [? _].
  - by eapply Close_pool_spec in Heq as [? _].
  - by eapply accepts_preserves in Heq as [? ? ?].
  - by eapply acquire_install_preserves in Heq as [? ? ?].
  - by eapply evict_preserves in Heq as [? ? ?].
  - done.
Qed.

Definition fresh_pool (s : Pool_ * W) : Prop := exists l, NewPool l = Ok s.1.

Lemma fresh_pool_inv s : fresh_pool s -> pinv s.1.
Proof.
  destruct s as [p w]. intros (l & Hn). unfold NewPool in Hn. destruct (Validate _) eqn:Hv; simplify_eq/=.
  split; simpl; try done. rewrite map_size_empty. unfold Validate in Hv. branches. reflect_guards. lia.
Qed.

(** In every state a pool reaches, whatever its dialer and its Hosts
    answer and however its operations interleave: a session's route and its
    link's record of the binding name each other, on the link of that Host for
    the session's own tenant; so a routed session always has a live link
    ([Unbind]'s no-link branch never runs); at most MaxLinks links are open; a
    closed pool has none. *)
Theorem pool_routes_match_links (s : Pool_ * W) :
  reachable fresh_pool pool_step s ->
  pinv s.1 /\ forall key host, routes s.1 !! key = Some host -> exists l, routedLink key s.1 = Ok l.
Proof.
  intros Hr. assert (Hp : pinv s.1).
  { revert s Hr. apply (reachable_invariant _ _ (fun s => pinv s.1)); [apply fresh_pool_inv|apply pool_step_inv]. }
  split; [done|]. intros key host Hk. destruct (pinv_route _ Hp _ _ Hk) as (l & Hl & _). exists l.
  unfold routedLink. rewrite Hk, Hl. destruct (closed s.1) eqn:Hc; [|done].
  destruct (pinv_closed _ Hp Hc) as [_ He]. by rewrite He in Hk.
Qed.

(** Tenants are isolated in the pool: binding, unbinding, attaching or
    reading a capability for one tenant leaves every link and every route of
    every other tenant exactly as it was, even when a link of that tenant is
    superseded or found dead. *)
Theorem pool_tenants_isolated target breq areq ureq tenant capable p (w : W) :
  pinv p ->
  others_kept (bind_TenantID breq) p (Bind target breq p w).1.2 /\
  others_kept (attach_TenantID areq) p (Attach target areq p w).1.2 /\
  others_kept (unbind_TenantID ureq) p (Unbind ureq p w).1.2 /\
  others_kept tenant p (accepts target tenant capable p w).1.2.
Proof.
  intros Hp.
  destruct (Bind target breq p w) as [[? p1] ?] eqn:H1. destruct (Attach target areq p w) as [[? p2] ?] eqn:H2.
  destruct (Unbind ureq p w) as [[? p3] ?] eqn:H3. destruct (accepts target tenant capable p w) as [[? p4] ?] eqn:H4.
  apply Bind_preserves in H1 as [[? ? ?] _]; [|done]. apply Attach_preserves in H2 as [[? ? ?] _]; [|done].
  apply Unbind_preserves in H3 as [? ? ?]; [|done]. by apply accepts_preserves in H4 as [? ? ?].
Qed.

(** A pooled link is replaced only by a dial of a different address for a
    newer boot of the Host: any other acquisition of a pooled link is served by
    it, without a dial, and never lowers the generation it has seen. *)
Theorem link_superseded_only_by_newer_boot lk dial p (w : W) l :
  pinv p -> closed p = false -> links p !! lk = Some l ->
  match acquireLocked lk dial p w with
  | (Ok (l', replaced), p', w') =>
      if supersededBy l dial
      then replaced = Some (pl_link l) /\ pl_endpoint l' = target_Endpoint dial /\
           pl_endpoint l <> pl_endpoint l' /\ pl_generation l < pl_generation l' /\ pl_bindings l' = ∅
      else replaced = None /\ w' = w /\ routes p' = routes p /\ pl_link l' = pl_link l /\
           pl_bindings l' = pl_bindings l /\ pl_generation l <= pl_generation l'
  | (Fail _, p', _) => supersededBy l dial = true /\ p' = p
  end.
Proof.
  intros Hp Ho Hl. unfold acquireLocked, currentLink. rewrite Hl. destruct (supersededBy l dial) eqn:Hs; simpl.
  - destruct (Dial (dialable dial) w) as [[link|err] w1]; [|done].
    unfold installLink, dropLinkLocked, newPooledLink. rewrite Hl, bool_decide_true by done. simpl.
    destruct (pool_Now w1) as [now w2]. simpl. unfold supersededBy in Hs. reflect_guards.
    split_and!; [done|done|congruence|done|done].
  - destruct (observe_kept l dial) as (Hb & _ & Hk & _). split_and!; try done.
    unfold observe. destruct (_ && _) eqn:Hg; [|done]. reflect_guards. simpl. lia.
Qed.

(** What Attach returns is the owner it asked for: an observation is
    answered only if it names the request's own tenant, session, Host, boot,
    agent and runtime. *)
Theorem attach_returns_what_it_asked target req p (w : W) o p' w' :
  Attach target req p w = (Ok o, p', w') ->
  obs_TenantID o = attach_TenantID req /\ obs_SessionID o = attach_SessionID req /\
  obs_HostID o = attach_HostID req /\ obs_HostGeneration o = attach_HostGeneration req /\
  obs_AgentID o = attach_AgentID req /\ obs_RuntimeCompatibilityID o = attach_RuntimeCompatibilityID req /\
  attach_HostID req = target_Host target.
Proof.
  unfold Attach. intros Heq. branches.
  match goal with Ha : attachAnswers req o = None |- _ => unfold attachAnswers in Ha; branches end.
  reflect_guards. by split_and!.
Qed.

(** The idle reaper closes no link a session is bound over, and so cuts
    no route: only links with no binding that have been idle for IdleTimeout
    go. *)
Theorem reaper_spares_bound_links p (w : W) n p' w' :
  pinv p -> ReapIdle p w = (n, p', w') ->
  routes p' = routes p /\
  (forall lk l, links p !! lk = Some l -> pl_bindings l <> ∅ -> links p' !! lk = Some l) /\
  (forall lk l, links p !! lk = Some l -> links p' !! lk = None ->
     pl_bindings l = ∅ /\ pl_idleSince l <= (pool_Now w).1 - IdleTimeout (limits p)).
Proof.
  intros Hp Heq. destruct (ReapIdle_spec _ _ _ _ _ Heq Hp) as (_ & _ & Hr & _ & Hl & _). split_and!; [done| |].
  - intros lk l Hlk Hb. destruct (Hl _ _ Hlk) as [?|[_ [? _]]]; done.
  - intros lk l Hlk Hn. destruct (Hl _ _ Hlk) as [?|[_ ?]]; [congruence|done].
Qed.
End Pool.

(** ** Witnesses: Hosts that accept everything; a link is its address *)
Definition demo_pool_primitives : PoolPrimitives := {|
  pool_bindings := demo_primitives;
  hostValidate _ := None;
  endpointValidate _ := None;
  validateUnbind _ := None;
  validateAttach _ := None;
  validateDelivery _ := None;
  HostLinkEndpoint e _ := Ok e
|}.

Definition demo_attach_answer (req : HostLinkAttachRequest) : HostLinkRegistryObservation :=
  RegistryObservation (attach_TenantID req) (attach_SessionID req) (attach_HostID req) (attach_HostGeneration req) 1
    (attach_AgentID req) (attach_RuntimeCompatibilityID req) HostPlacementPooled SessionResidencyResident true 100 "ep".

Definition demo_links : LinkEnv Z := {|
  Link := string;
  Reply := bool;
  Sink := unit;
  Dial t w := (Ok (target_Endpoint t), w);
  link_Bind _ _ w := (None, w);
  link_Unbind _ _ w := (None, w);
  link_Attach _ req w := (Ok (demo_attach_answer req), w);
  link_DeliverCommand _ _ _ w := (None, w);
  link_Close _ w := (None, w);
  link_Subscribe _ := None;
  link_Unsubscribe _ := None;
  link_Negotiated _ := None;
  pool_Now w := (w, w)
|}.

#[local] Existing Instances demo_pool_primitives demo_links.

Definition demo_empty_pool : Pool_ (W := Z) := MkPool DefaultLimits false ∅ ∅ 0.
Definition demo_bind (tenant : TenantID) : HostLinkBindRequest := BindRequest tenant "s" "h" 1 1 "rt" "key".
Definition demo_attach : HostLinkAttachRequest := AttachRequest "t" "s" "h" 1 "a" "rt" HostLinkAttachModeCreate "actor" "key".
Definition demo_target (endpoint : InternalEndpoint) : Target := MkTarget "h" endpoint 0.

(** A pool that bound one session. *)
Definition demo_bound_pool : Pool_ (W := Z) := (Bind (demo_target "e1") (demo_bind "t") demo_empty_pool 0).1.2.

Lemma demo_bound_pool_inv : pinv demo_bound_pool.
Proof.
  destruct (Bind (demo_target "e1") (demo_bind "t") demo_empty_pool 0) as [[e p'] w'] eqn:Hb.
  unfold demo_bound_pool. rewrite Hb. simpl. apply Bind_preserves in Hb as [[? ? ?] _]; [done|].
  apply (fresh_pool_inv (demo_empty_pool, 0)). by exists None.
Qed.

Lemma pool_routes_match_links_witness :
  exists l, routedLink (SessionKey "t" "s") demo_bound_pool = Ok l.
Proof.
  destruct (pool_routes_match_links (W := Z) (demo_bound_pool, 0)) as [_ Hr].
  - apply (reach_step _ _ (demo_empty_pool, 0)); [by apply reach_init; exists None|].
    eapply (pstep_Bind (demo_target "e1") (demo_bind "t")). reflexivity.
  - apply (Hr _ "h"%string). vm_compute. reflexivity.
Defined.

Lemma pool_tenants_isolated_witness :
  routes (Bind (demo_target "e2") (demo_bind "t2") demo_bound_pool 5).1.2 !! SessionKey "t" "s" = Some "h"%string.
Proof.
  destruct (pool_tenants_isolated (demo_target "e2") (demo_bind "t2") demo_attach
    (UnbindRequest "t" "s" "h" 1 1 "key") "t2" (fun _ => true) demo_bound_pool 5 demo_bound_pool_inv) as [[_ Hr _] _].
  rewrite Hr; [vm_compute; reflexivity|discriminate].
Defined.

Lemma link_superseded_only_by_newer_boot_witness :
  exists l, links demo_bound_pool !! MkLinkKey "h" "t" = Some l /\
    supersededBy l (MkTarget "h" "e2" 2) = true /\
    (acquireLocked (MkLinkKey "h" "t") (MkTarget "h" "e2" 2) demo_bound_pool 5).1.1 =
      Ok (MkPooled (W := Z) 1 "e2"%string "e2" 2 ∅ 5, Some "e1"%string).
Proof.
  eexists. split; [vm_compute; reflexivity|]. split; [vm_compute; reflexivity|].
  pose proof (link_superseded_only_by_newer_boot (MkLinkKey "h" "t") (MkTarget "h" "e2" 2) demo_bound_pool 5 _
    demo_bound_pool_inv eq_refl eq_refl) as Hs. vm_compute in Hs. destruct Hs as (_ & _ & _ & _ & _).
  vm_compute. reflexivity.
Defined.

Lemma attach_returns_what_it_asked_witness :
  exists o p' w', Attach (demo_target "e1") demo_attach demo_empty_pool 0 = (Ok o, p', w') /\ obs_HostID o = "h"%string.
Proof.
  eexists _, _, _. split; [vm_compute; reflexivity|].
  eapply (attach_returns_what_it_asked (demo_target "e1") demo_attach demo_empty_pool 0). reflexivity.
Defined.

Lemma reaper_spares_bound_links_witness :
  routes (ReapIdle demo_bound_pool 1000000000000000).1.2 !! SessionKey "t" "s" = Some "h"%string.
Proof.
  destruct (ReapIdle demo_bound_pool 1000000000000000) as [[n p'] w'] eqn:Hr.
  destruct (reaper_spares_bound_links _ _ _ _ _ demo_bound_pool_inv Hr) as (Hro & _).
  simpl. rewrite Hro. vm_compute. reflexivity.
Defined.
