(* ===== verification/LiveTail.v ===== *)
(** * The live-tail plane (src/internal/realtime/livetail/plane.go)

    [Plane]'s mailboxes: [Watching], [Served], [Unwatched], the sink callbacks
    [Subscribed], [Publication], [Ended], [Restored], [pushLocked], one turn of
    the drainer ([drain_take]) and what it does with an event ([handle]); the
    routing seams it implements ([Bind], [Unbind], [Stop], [Resume],
    [RouteHeld]) over the HostLink pool's [Links] interface.

    A session's state stays in the table for as long as its drainer runs (only
    the drainer deletes it), so the table entry is the state the drainer owns. *)

From S2P Require Import Prelude Wire Delivery Bindings Directory Demand Relay Pool.

Definition ErrInvalidConfig : error := sentinel "livetail.ErrInvalidConfig".

Inductive eventKind := evLive | evFrame | evLost | evRestored | evForget.

#[global] Instance eventKind_eq_dec : EqDecision eventKind.
Proof. solve_decision. Defined.

Record event := MkEvent { kind : eventKind; ev_initial : bool; data : bytes; ev_ephemeral : bool }.

Definition plain (k : eventKind) : event := MkEvent k false "" false.

Record sessionState := MkState {
  watched : bool;
  initial : bool;
  gen : Z;
  events : list event;
  running : bool
}.

Record Plane_ := MkPlane {
  limit : Z;
  closed : bool;
  droppedEphemerals : Z;
  nextGen : Z;
  sessions : gmap sessionKey sessionState
}.

(** [New]'s checks: the mailbox limit and the event timeout. *)
Definition New (mailboxLimit eventTimeout : Z) : result Plane_ :=
  if mailboxLimit <? 1 then Fail (wrapf [ErrInvalidConfig])
  else if eventTimeout <=? 0 then Fail (wrapf [ErrInvalidConfig])
  else Ok (MkPlane mailboxLimit false 0 0 ∅).

Definition put (key : sessionKey) (s : sessionState) (p : Plane_) : Plane_ :=
  MkPlane (limit p) (closed p) (droppedEphemerals p) (nextGen p) (<[key := s]> (sessions p)).

(** [pushLocked]: a closed plane takes nothing; the first event of an idle
    mailbox starts its drainer. *)
Definition pushLocked (s : sessionState) (ev : event) (p : Plane_) : sessionState :=
  if closed p then s
  else MkState (watched s) (initial s) (gen s) (events s ++ [ev]) true.

Definition Watching (key : sessionKey) (p : Plane_) : Plane_ :=
  let s := match sessions p !! key with Some s => s | None => MkState false false 0 [] false end in
  put key (MkState true true (gen s) (events s) (running s)) p.

Definition Served (key : sessionKey) (p : Plane_) : Plane_ :=
  match sessions p !! key with
  | Some s => put key (MkState (watched s) false (gen s) (events s) (running s)) p
  | None => p
  end.

Definition Unwatched (key : sessionKey) (p : Plane_) : Plane_ :=
  match sessions p !! key with
  | None => p
  | Some s => put key (pushLocked (MkState false false 0 (events s) (running s)) (plain evForget) p) p
  end.

(** A [sink] is its session and the generation it was created with. *)
Definition newSink (p : Plane_) : Z * Plane_ :=
  let g := u64 (nextGen p + 1) in
  (g, MkPlane (limit p) (closed p) (droppedEphemerals p) g (sessions p)).

Definition Subscribed (key : sessionKey) (g : Z) (p : Plane_) : Plane_ :=
  match sessions p !! key with
  | None => p
  | Some s =>
      if negb (watched s) then p
      else put key (pushLocked (MkState (watched s) false g (events s) (running s))
                      (MkEvent evLive (initial s) "" false) p) p
  end.

(** The sink's generation is the one the session accepts. *)
Definition accepting (key : sessionKey) (g : Z) (p : Plane_) : option sessionState :=
  match sessions p !! key with
  | Some s => if watched s && negb (gen s =? 0) && (gen s =? g) then Some s else None
  | None => None
  end.

(** [Publication]'s inner loop: the first queued ephemeral, taken out. *)
Fixpoint dropEphemeral (evs : list event) : option (list event) :=
  match evs with
  | [] => None
  | ev :: rest => if ev_ephemeral ev then Some rest else (ev ::.) <$> dropEphemeral rest
  end.

(** Its outer loop, which runs while the mailbox is over its limit and holds an
    ephemeral; an iteration shortens the mailbox by one. *)
Fixpoint evictLoop (fuel : nat) (lim : Z) (evs : list event) (dropped : Z) : list event * Z :=
  match fuel with
  | O => (evs, dropped)
  | S fuel =>
      if Z.of_nat (length evs) <? lim then (evs, dropped)
      else match dropEphemeral evs with
           | None => (evs, dropped)
           | Some evs => evictLoop fuel lim evs (u64 (dropped + 1))
           end
  end.

Definition withDropped (p : Plane_) (n : Z) : Plane_ :=
  MkPlane (limit p) (closed p) n (nextGen p) (sessions p).

(** [bytes.Contains], and the quoted type name the probe looks for. *)
Definition Contains (d needle : bytes) : bool := if String.index 0 needle d then true else false.

Definition quotedType : bytes :=
  String "034"%char (String.app "ephemeral_publication" (String "034"%char EmptyString)).

Definition droppableEphemeral `{SessionCodec} (key : sessionKey) (d : bytes) : bool :=
  if negb (Contains d quotedType) then false
  else match SessionRecordTypeOf d with
  | Ok SessionRecordTypeEphemeralPublication =>
      match unmarshalEphemeral d with
      | Ok pub => bool_decide (eph_TenantID pub = key_tenant key) && bool_decide (eph_SessionID pub = key_session key)
      | Fail _ => false
      end
  | _ => false
  end.

(** [Publication], with the classification [ephemeral] made before the lock. *)
Definition Publication (key : sessionKey) (g : Z) (d : bytes) (ephemeral : bool) (p : Plane_) : Plane_ :=
  match accepting key g p with
  | None => p
  | Some s =>
      let frame := MkEvent evFrame false d ephemeral in
      let push s p := put key (pushLocked s frame p) p in
      if Z.of_nat (length (events s)) <? limit p then push s p
      else if ephemeral then withDropped p (u64 (droppedEphemerals p + 1))
      else
        let '(evs, dropped) := evictLoop (length (events s)) (limit p) (events s) (droppedEphemerals p) in
        let p := withDropped p dropped in
        if Z.of_nat (length evs) <? limit p
        then push (MkState (watched s) (initial s) (gen s) evs (running s)) p
        else
          let kept := filter (fun ev => kind ev <> evFrame) evs in
          put key (pushLocked (MkState (watched s) (initial s) 0 kept (running s)) (plain evLost) p) p
  end.

Definition DroppedEphemerals (p : Plane_) : Z := droppedEphemerals p.

Definition Ended (key : sessionKey) (g : Z) (p : Plane_) : Plane_ :=
  match accepting key g p with
  | None => p
  | Some s => put key (pushLocked (MkState (watched s) (initial s) 0 (events s) (running s)) (plain evLost) p) p
  end.

Definition Restored (key : sessionKey) (p : Plane_) : Plane_ :=
  match sessions p !! key with
  | None => p
  | Some s => if negb (watched s) then p else put key (pushLocked s (plain evRestored) p) p
  end.

Definition CloseFlag (p : Plane_) : Plane_ :=
  MkPlane (limit p) true (droppedEphemerals p) (nextGen p) (sessions p).

(** [stopTail]'s part under the lock. *)
Definition stopGeneration (key : sessionKey) (p : Plane_) : Plane_ :=
  match sessions p !! key with
  | Some s => put key (MkState (watched s) (initial s) 0 (events s) (running s)) p
  | None => p
  end.

(** One turn of [drain] under the lock, by the drainer of a running session:
    the next event, or the end of the drainer. *)
Definition drain_take (key : sessionKey) (p : Plane_) : option event * Plane_ :=
  match sessions p !! key with
  | None => (None, p)
  | Some s =>
      match closed p, events s with
      | false, ev :: rest => (Some ev, put key (MkState (watched s) (initial s) (gen s) rest (running s)) p)
      | _, _ =>
          if watched s then (None, put key (MkState (watched s) (initial s) (gen s) [] false) p)
          else (None, MkPlane (limit p) (closed p) (droppedEphemerals p) (nextGen p) (delete key (sessions p)))
      end
  end.

(** ** The routing seams, over the pool *)
Class Links (L : Type) := {
  links_Bind : Target -> HostLinkBindRequest -> L -> option error * L;
  links_Unbind : HostLinkUnbindRequest -> L -> option error * L;
  links_DeliverCommand : TenantID -> SessionID -> CommandID -> L -> option error * L;
  links_Subscribe : sessionKey -> Z -> L -> option error * L;
  links_Unsubscribe : sessionKey -> L -> L;
  links_RouteFor : sessionKey -> L -> option HostID
}.

Definition unbindFor (req : HostLinkBindRequest) : HostLinkUnbindRequest :=
  UnbindRequest (bind_TenantID req) (bind_SessionID req) (bind_HostID req) (bind_HostGeneration req)
    (bind_LeaseEpoch req) (bind_IdempotencyKey req).

Section Seams.
Context {L : Type} `{Links L}.

Definition stopTail (key : sessionKey) (s : Plane_ * L) : Plane_ * L :=
  (stopGeneration key s.1, links_Unsubscribe key s.2).

(** Subscribe the session's tail with a fresh sink. *)
Definition subscribeTail (key : sessionKey) (s : Plane_ * L) : option error * (Plane_ * L) :=
  let '(g, p) := newSink s.1 in
  let '(err, l) := links_Subscribe key g s.2 in
  (err, (p, l)).

Definition Bind (endpoint : InternalEndpoint) (req : HostLinkBindRequest) (s : Plane_ * L) : option error * (Plane_ * L) :=
  let '(err, l) := links_Bind (MkTarget (bind_HostID req) endpoint 0) req s.2 in
  match err with
  | Some err => (Some err, (s.1, l))
  | None =>
      let '(err, s) := subscribeTail (SessionKey (bind_TenantID req) (bind_SessionID req)) (s.1, l) in
      match err with
      | Some err => let '(_, l) := links_Unbind (unbindFor req) s.2 in (Some (wrapf [err]), (s.1, l))
      | None => (None, s)
      end
  end.

Definition Unbind (req : HostLinkUnbindRequest) (s : Plane_ * L) : option error * (Plane_ * L) :=
  let s := stopTail (SessionKey (unbind_TenantID req) (unbind_SessionID req)) s in
  let '(err, l) := links_Unbind req s.2 in
  (match err with
   | Some err => if ConnectionGone err then Some (wrapf [Err ErrRouteGone []; err]) else Some err
   | None => None
   end, (s.1, l)).

Definition RouteHeld (tenant : TenantID) (session : SessionID) (s : Plane_ * L) : bool :=
  if links_RouteFor (SessionKey tenant session) s.2 then true else false.

Definition DeliverCommand (tenant : TenantID) (session : SessionID) (c : CommandID) (s : Plane_ * L)
    : option error * (Plane_ * L) :=
  let '(err, l) := links_DeliverCommand tenant session c s.2 in (err, (s.1, l)).

Definition Stop (key : sessionKey) (s : Plane_ * L) : option error * (Plane_ * L) := (None, stopTail key s).

Definition Resume (key : sessionKey) (after : Z) (s : Plane_ * L) : option error * (Plane_ * L) :=
  match links_RouteFor key s.2 with
  | None => (None, s)
  | Some _ => subscribeTail key s
  end.

(** The plane is the routing table's Binder. *)
#[global] Instance plane_binder : Binder (Plane_ * L) := {|
  binder_Bind := Bind;
  binder_Unbind := Unbind;
  binder_DeliverCommand := DeliverCommand;
  binder_RouteHeld := Some RouteHeld
|}.
End Seams.

(** ** What the drainer does with an event *)
Section Handle.
Context `{SessionCodec} `{StoreLimits} {W : Type} `{RelayEnv W}.
Variable channelLink : sessionKey -> LinkID.
Variable routeFor : sessionKey -> W -> bool.

Definition coveredThrough (d : bytes) : Z :=
  match SessionRecordTypeOf d with
  | Ok SessionRecordTypeEnduringPublication =>
      match unmarshalEnduring d with Ok pub => pub_CoveredThrough pub | Fail _ => 0 end
  | _ => 0
  end.

(** [handle]: failures are logged, so its result is the relay it leaves. *)
Definition handle (key : sessionKey) (ev : event) (r : Relay_) (w : W) : Relay_ * W :=
  match kind ev with
  | evForget => (Forget key r, w)
  | evRestored => if routeFor key w then (r, w) else (r, (rebinder_Rebind key w).2)
  | k =>
      match Open key r with
      | (Some _, r) => (r, w)
      | (None, r) =>
          match Relay.Subscribe key (channelLink key) r with
          | (Some _, r) => (r, w)
          | (None, r) =>
              let '(r, w) :=
                match k with
                | evLive =>
                    if negb (ev_initial ev)
                    then let '(_, r, w) := Resync key r w in (r, w)
                    else let '(_, r, w) := Anchor key r w in (r, w)
                | evFrame =>
                    let frame := MkFrame (data ev) (coveredThrough (data ev)) "" in
                    let '(err, r, w) := Receive key frame r w in
                    match err with
                    | Some _ => let '(_, r, w) := HostLinkClosed key r w in (r, w)
                    | None => (r, w)
                    end
                | _ => let '(_, r, w) := HostLinkClosed key r w in (r, w)
                end in
              let '(_, r, w) := Pump key r w in (r, w)
          end
      end
  end.
End Handle.

(** ** Mailboxes *)
Definition frames (evs : list event) : Z := Z.of_nat (length (filter (fun ev => kind ev = evFrame) evs)).

(** The events that may not be dropped silently. *)
Definition essential (evs : list event) : list event := filter (fun ev => ev_ephemeral ev = false) evs.

Record mailbox_ok (lim : Z) (open : bool) (s : sessionState) : Prop := {
  mbx_bound : frames (events s) <= lim;
  mbx_drained : open = true -> events s <> [] -> running s = true;
  mbx_unwatched : open = true -> watched s = false -> running s = true;
  mbx_ephemeral : Forall (fun ev => ev_ephemeral ev = true -> kind ev = evFrame) (events s);
  mbx_gen : gen s <> 0 -> watched s = true
}.

Record minv (p : Plane_) : Prop := {
  minv_limit : 1 <= limit p;
  minv_sessions : forall key s, sessions p !! key = Some s -> mailbox_ok (limit p) (negb (closed p)) s
}.

Lemma frames_app a b : frames (a ++ b) = frames a + frames b.
Proof. unfold frames. rewrite filter_app, length_app. lia. Qed.

Lemma frames_le evs : frames evs <= Z.of_nat (length evs).
Proof. unfold frames. apply inj_le, length_filter. Qed.

Lemma frames_one ev : frames [ev] = if decide (kind ev = evFrame) then 1 else 0.
Proof. unfold frames. rewrite filter_cons. by case_decide. Qed.

Lemma frames_nonneg evs : 0 <= frames evs.
Proof. unfold frames. lia. Qed.

Lemma minv_put key s p : minv p -> mailbox_ok (limit p) (negb (closed p)) s -> minv (put key s p).
Proof. intros [? Hs] Hok. split; simpl; [done|]. intros k x [[_ <-]|[_ ?]]%lookup_insert_Some; eauto. Qed.

(** Pushing an event keeps a mailbox well formed when there is room for it. *)
Lemma push_ok p s ev :
  frames (events s) + (if decide (kind ev = evFrame) then 1 else 0) <= limit p ->
  Forall (fun ev => ev_ephemeral ev = true -> kind ev = evFrame) (events s) ->
  (ev_ephemeral ev = true -> kind ev = evFrame) -> (gen s <> 0 -> watched s = true) ->
  mailbox_ok (limit p) (negb (closed p)) (pushLocked s ev p).
Proof.
  intros Hb He Hev Hg. unfold pushLocked. destruct (closed p) eqn:Hc; simpl.
  - split; try done. pose proof (frames_nonneg (events s)). case_decide; lia.
  - split; simpl; try done; [by rewrite frames_app, frames_one|]. apply Forall_app_2; [done|]. by constructor.
Qed.

Lemma dropEphemeral_spec evs evs' :
  dropEphemeral evs = Some evs' ->
  exists a ev b, evs = a ++ ev :: b /\ evs' = a ++ b /\ ev_ephemeral ev = true.
Proof.
  revert evs'. induction evs as [|ev evs IH]; intros evs' Heq; simpl in Heq; [done|].
  destruct (ev_ephemeral ev) eqn:He; simplify_eq; [by exists [], ev, evs'|].
  apply fmap_Some in Heq as (x & Hx & ->). destruct (IH _ Hx) as (a & e & b & -> & -> & ?). by exists (ev :: a), e, b.
Qed.

(** The eviction takes only ephemerals, and stops below the limit or when none
    is left. *)
Lemma evictLoop_spec fuel : forall lim evs n evs' n',
  evictLoop fuel lim evs n = (evs', n') -> (length evs <= fuel)%nat -> 1 <= lim ->
  essential evs' = essential evs /\ evs' `sublist_of` evs /\
  (Z.of_nat (length evs') < lim \/ Forall (fun ev => ev_ephemeral ev = false) evs').
Proof.
  induction fuel as [|fuel IH]; intros lim evs n evs' n' Heq Hf Hlim; simpl in Heq.
  { simplify_eq. destruct evs'; [|simpl in Hf; lia]. split_and!; [done|done|]. left. simpl. lia. }
  destruct (_ <? _) eqn:Hlt; reflect_guards; [simplify_eq; by split_and!; [..|left]|].
  destruct (dropEphemeral evs) as [evs1|] eqn:Hd.
  - apply dropEphemeral_spec in Hd as (a & ev & b & -> & -> & He). apply IH in Heq as (Hes & Hsub & Hend); [| |done].
    + split_and!; [|etrans; [done|]|done].
      * rewrite Hes. unfold essential. rewrite !filter_app, (filter_cons_False _ ev); [done|congruence].
      * apply sublist_app; [done|]. by constructor.
    + rewrite length_app in *. simpl in Hf. lia.
  - simplify_eq. split_and!; [done|done|right]. clear -Hd.
    induction evs' as [|ev evs IH]; [done|]. simpl in Hd. destruct (ev_ephemeral ev) eqn:He; [done|].
    apply fmap_None in Hd. constructor; auto.
Qed.

Lemma frames_kept evs : frames (filter (fun ev => kind ev <> evFrame) evs) = 0.
Proof.
  unfold frames. rewrite list_filter_filter. induction evs as [|ev evs IH]; [done|].
  rewrite filter_cons_False; [done|tauto].
Qed.

Lemma Forall_sublist {A} (P : A -> Prop) l k : l `sublist_of` k -> Forall P k -> Forall P l.
Proof. intros Hs Hk. rewrite Forall_forall in *. intros x Hx. apply Hk. by eapply elem_of_sublist. Qed.

Lemma accepting_Some key g p s : accepting key g p = Some s ->
  sessions p !! key = Some s /\ watched s = true /\ gen s = g /\ gen s <> 0.
Proof. unfold accepting. intros. branches. reflect_guards. by split_and!. Qed.

Lemma Publication_minv key g d eph p : minv p -> minv (Publication key g d eph p).
Proof.
  intros Hp. unfold Publication. destruct (accepting key g p) as [s|] eqn:Ha; [|done].
  apply accepting_Some in Ha as (Hs & Hw & Hg & Hg0). pose proof (minv_limit _ Hp) as Hlim.
  destruct (minv_sessions _ Hp _ _ Hs) as [Hb Hd Hu He Hgen].
  destruct (_ <? _) eqn:Hlt; reflect_guards.
  { apply minv_put; [done|]. apply push_ok; try done; simpl. pose proof (frames_le (events s)). lia. }
  destruct eph; [by destruct Hp|].
  destruct (evictLoop _ _ _ _) as [evs dropped] eqn:Hev.
  apply evictLoop_spec in Hev as (Hes & Hsub & Hend); [|done|done].
  assert (Hp' : minv (withDropped p dropped)) by by destruct Hp.
  assert (He' : Forall (fun ev => ev_ephemeral ev = true -> kind ev = evFrame) evs) by by eapply Forall_sublist.
  destruct (_ <? _) eqn:Hlt2; simpl in Hlt2; reflect_guards; apply minv_put; try done; apply push_ok; simpl; try done.
  - pose proof (frames_le evs). lia.
  - rewrite frames_kept. lia.
  - eapply Forall_sublist; [apply sublist_filter|done].
Qed.

(** Everything that happens to the mailboxes. A drainer takes a turn only while
    its session is running. *)
Inductive mailbox_step : Plane_ -> Plane_ -> Prop :=
| mstep_Watching key p : mailbox_step p (Watching key p)
| mstep_Served key p : mailbox_step p (Served key p)
| mstep_Unwatched key p : mailbox_step p (Unwatched key p)
| mstep_newSink p : mailbox_step p (newSink p).2
| mstep_Subscribed key g p : g <> 0 -> mailbox_step p (Subscribed key g p)
| mstep_Publication key g d eph p : mailbox_step p (Publication key g d eph p)
| mstep_Ended key g p : mailbox_step p (Ended key g p)
| mstep_Restored key p : mailbox_step p (Restored key p)
| mstep_stop key p : mailbox_step p (stopGeneration key p)
| mstep_drain key s p : sessions p !! key = Some s -> running s = true -> mailbox_step p (drain_take key p).2
| mstep_Close p : mailbox_step p (CloseFlag p).

Lemma mailbox_weaken lim s o : mailbox_ok lim o s -> mailbox_ok lim false s.
Proof. by intros [? ? ? ? ?]. Qed.

Lemma drain_take_minv key s p : minv p -> sessions p !! key = Some s -> running s = true -> minv (drain_take key p).2.
Proof.
  intros Hp Hs Hrun. unfold drain_take. rewrite Hs. destruct (minv_sessions _ Hp _ _ Hs) as [Hb Hd Hu He Hg].
  assert (Hend : minv (if watched s then (@None event, put key (MkState (watched s) (initial s) (gen s) [] false) p)
    else (None, MkPlane (limit p) (closed p) (droppedEphemerals p) (nextGen p) (delete key (sessions p)))).2).
  { destruct (watched s) eqn:Hw; simpl.
    - apply minv_put; [done|]. split; simpl; try done. pose proof (minv_limit _ Hp). unfold frames. simpl. lia.
    - destruct Hp as [? Hx]. split; simpl; [done|]. intros k x [_ ?]%lookup_delete_Some. eauto. }
  destruct (closed p); [exact Hend|]. destruct (events s) as [|ev rest] eqn:Hev; [exact Hend|]. simpl.
  apply minv_put; [done|]. apply Forall_cons in He as [_ He]. split; simpl; try done.
  pose proof (frames_app [ev] rest). pose proof (frames_nonneg [ev]). simpl in *. lia.
Qed.

Lemma mailbox_step_inv p p' : minv p -> mailbox_step p p' -> minv p'.
Proof.
  intros Hp Hstep. pose proof (minv_limit _ Hp) as Hlim. destruct Hstep as [key p|key p|key p|p|key g p Hg|key g d eph p|key g p|key p|key p|key s p Hs Hr|p].
  - unfold Watching. apply minv_put; [done|]. destruct (sessions p !! key) as [s|] eqn:Hs; simpl.
    + destruct (minv_sessions _ Hp _ _ Hs) as [? ? ? ? ?]. by split.
    + split; simpl; try done. unfold frames. simpl. lia.
  - unfold Served. destruct (sessions p !! key) as [s|] eqn:Hs; [|done]. apply minv_put; [done|].
    destruct (minv_sessions _ Hp _ _ Hs) as [? ? ? ? ?]. by split.
  - unfold Unwatched. destruct (sessions p !! key) as [s|] eqn:Hs; [|done]. apply minv_put; [done|].
    destruct (minv_sessions _ Hp _ _ Hs) as [? ? ? ? ?]. apply push_ok; simpl; try done. lia.
  - by destruct Hp.
  - unfold Subscribed. destruct (sessions p !! key) as [s|] eqn:Hs; [|done]. destruct (watched s) eqn:Hw; [|done].
    apply minv_put; [done|]. destruct (minv_sessions _ Hp _ _ Hs) as [? ? ? ? ?]. apply push_ok; simpl; try done. lia.
  - by apply Publication_minv.
  - unfold Ended. destruct (accepting key g p) as [s|] eqn:Ha; [|done]. apply accepting_Some in Ha as (Hs & _).
    apply minv_put; [done|]. destruct (minv_sessions _ Hp _ _ Hs) as [? ? ? ? ?]. apply push_ok; simpl; try done. lia.
  - unfold Restored. destruct (sessions p !! key) as [s|] eqn:Hs; [|done]. destruct (watched s) eqn:Hw; [|done].
    apply minv_put; [done|]. destruct (minv_sessions _ Hp _ _ Hs) as [? ? ? ? ?]. apply push_ok; simpl; try done. lia.
  - unfold stopGeneration. destruct (sessions p !! key) as [s|] eqn:Hs; [|done]. apply minv_put; [done|].
    destruct (minv_sessions _ Hp _ _ Hs) as [? ? ? ? ?]. by split.
  - by eapply drain_take_minv.
  - destruct Hp as [? Hx]. split; simpl; [done|]. intros key s Hs. eapply mailbox_weaken. eauto.
Qed.

(** Whatever order its callbacks come in, a session's mailbox holds at
    most MailboxLimit frames; while the plane is open a mailbox with anything
    in it has a drainer, and so has a session nobody watches any more, until
    the drainer deletes it; a session accepts no generation unless watched. *)
Theorem mailboxes_bounded_and_drained lim timeout (p : Plane_) :
  reachable (fun p0 => New lim timeout = Ok p0) mailbox_step p -> minv p.
Proof.
  apply reachable_invariant; [|apply mailbox_step_inv].
  intros p0 Hn. unfold New in Hn. branches. reflect_guards. split; simpl; [lia|done].
Qed.

(** C22: A Host frame that is not a droppable ephemeral is never dropped
    silently. Accepted on the current tail, it is queued behind every event
    that may not be dropped, all of them kept in order; or, with no room to be
    made, the tail's generation is retired and a loss is queued in place of the
    frames, behind the other events, so that the viewers are repaired. *)
Theorem publication_never_silent key g d p s :
  minv p -> closed p = false -> accepting key g p = Some s ->
  exists s', sessions (Publication key g d false p) !! key = Some s' /\ running s' = true /\
    (gen s' = g /\ essential (events s') = essential (events s) ++ [MkEvent evFrame false d false] \/
     gen s' = 0 /\ frames (events s') = 0 /\
       exists others, events s' = others ++ [plain evLost] /\
         others = filter (fun ev => kind ev <> evFrame) (essential (events s))).
Proof.
  intros Hp Ho Ha. unfold Publication. rewrite Ha. apply accepting_Some in Ha as (Hs & Hw & Hg & Hg0).
  destruct (minv_sessions _ Hp _ _ Hs) as [Hb Hd Hu He Hgen].
  destruct (_ <? _) eqn:Hlt.
  { eexists. simpl. rewrite lookup_insert_eq. split; [done|]. unfold pushLocked. rewrite Ho. simpl. split; [done|]. left.
    split; [done|]. unfold essential. by rewrite filter_app. }
  destruct (evictLoop _ _ _ _) as [evs dropped] eqn:Hev.
  apply evictLoop_spec in Hev as (Hes & Hsub & Hend); [|done|apply Hp].
  destruct (Z.of_nat (length evs) <? limit (withDropped p dropped)) eqn:Hlt2; reflect_guards;
    eexists; simpl; rewrite lookup_insert_eq; (split; [done|]);
    unfold pushLocked; simpl; rewrite Ho; simpl; (split; [done|]).
  - left. split; [done|]. rewrite <- Hes. unfold essential. by rewrite filter_app.
  - right. simpl in Hlt2. destruct Hend as [?|Hend]; [lia|]. split_and!; [done| |].
    + rewrite frames_app, frames_kept. done.
    + eexists. split; [done|]. rewrite <- Hes. f_equal. unfold essential. symmetry. by apply filter_all.
Qed.

(** ** The seams' calls on the pool, recorded *)
Inductive lcall :=
| LBind (req : HostLinkBindRequest) (accepted : bool)
| LUnbind (req : HostLinkUnbindRequest)
| LSubscribe (key : sessionKey) (g : Z) (accepted : bool)
| LUnsubscribe (key : sessionKey).

#[global] Instance logged_links {L} `{Links L} : Links (L * list lcall) := {|
  links_Bind t req l :=
    let '(e, l') := links_Bind t req l.1 in (e, (l', l.2 ++ [LBind req (if e then false else true)]));
  links_Unbind req l := let '(e, l') := links_Unbind req l.1 in (e, (l', l.2 ++ [LUnbind req]));
  links_DeliverCommand t s c l := let '(e, l') := links_DeliverCommand t s c l.1 in (e, (l', l.2));
  links_Subscribe key g l :=
    let '(e, l') := links_Subscribe key g l.1 in (e, (l', l.2 ++ [LSubscribe key g (if e then false else true)]));
  links_Unsubscribe key l := (links_Unsubscribe key l.1, l.2 ++ [LUnsubscribe key]);
  links_RouteFor key l := links_RouteFor key l.1
|}.

Section SeamTheorems.
Context {L : Type} `{Links L}.

(** A bind is all or nothing: it succeeds with the route bound and its
    tail subscribed under a generation no earlier sink has; or it fails, and
    then either nothing was bound or the very tuple that was bound has been
    unbound again. *)
Theorem bind_is_all_or_nothing endpoint req p (l : L) log err p' l' log' :
  Bind endpoint req (p, (l, log)) = (err, (p', (l', log'))) ->
  let key := SessionKey (bind_TenantID req) (bind_SessionID req) in
  let g := u64 (nextGen p + 1) in
  match err with
  | None => log' = log ++ [LBind req true; LSubscribe key g true] /\ nextGen p' = g
  | Some _ => log' = log ++ [LBind req false] /\ p' = p \/
      log' = log ++ [LBind req true; LSubscribe key g false; LUnbind (unbindFor req)]
  end /\ sessions p' = sessions p.
Proof.
  unfold Bind, subscribeTail. simpl. intros Heq.
  destruct (links_Bind _ req l) as [[e|] l1]; [simplify_eq; split; [by left|done]|]. simpl in Heq.
  destruct (links_Subscribe _ _ l1) as [[e|] l2]; simpl in Heq.
  - destruct (links_Unbind (unbindFor req) l2) as [e2 l3]. simplify_eq/=. split; [|done]. right. by rewrite <- !app_assoc.
  - simplify_eq/=. rewrite <- app_assoc. done.
Qed.

(** An unbind retires the session's tail before the route goes: from then
    on no sink's late frame, of whatever generation, reaches the mailbox. It
    reports a route already gone exactly when the connection that carried it
    is gone, and every other failure as it is. *)
Theorem unbind_retires_the_tail req p (l : L) log err p' l' log' :
  Unbind req (p, (l, log)) = (err, (p', (l', log'))) ->
  let key := SessionKey (unbind_TenantID req) (unbind_SessionID req) in
  log' = log ++ [LUnsubscribe key; LUnbind req] /\
  (forall g d eph, Publication key g d eph p' = p') /\
  match (links_Unbind req (links_Unsubscribe key l)).1 with
  | None => err = None
  | Some cause => exists e, err = Some e /\
      errors_is e ErrRouteGone = (ConnectionGone cause || errors_is cause ErrRouteGone)
  end.
Proof.
  unfold Unbind, stopTail. simpl. intros Heq. set (key := SessionKey _ _) in *.
  destruct (links_Unbind req (links_Unsubscribe key l)) as [e l1] eqn:Hu. simplify_eq/=. split_and!.
  - by rewrite <- app_assoc.
  - intros g d eph. unfold Publication. assert (Ha : accepting key g (stopGeneration key p) = None); [|by rewrite Ha].
    unfold accepting, stopGeneration. destruct (sessions p !! key) as [s|] eqn:Hs; [|by rewrite Hs].
    simpl. rewrite lookup_insert_eq. simpl. by rewrite andb_false_r.
  - destruct e as [cause|]; [|done]. destruct (ConnectionGone cause); eexists; (split; [done|]); [|done].
    by rewrite errors_is_wrapf, errors_is_self by done.
Qed.
End SeamTheorems.

Section HandleTheorems.
Context `{SessionCodec} `{StoreLimits} {W : Type} `{RelayEnv W}.
Variable channelLink : sessionKey -> LinkID.
Variable routeFor : sessionKey -> W * list rcall -> bool.

Lemma Pump_log key r (w : W) log e r' w' log' :
  Pump key r (w, log) = (e, r', (w', log')) -> rinv r -> exists sent, log' = log ++ sent.
Proof.
  unfold Pump. intros Heq Hr. destruct (Relay.closed r); [simplify_eq; exists []; by rewrite app_nil_r|].
  destruct (hosts r !! key) as [h|] eqn:Hh; [|simplify_eq; exists []; by rewrite app_nil_r].
  destruct (rinv_hosts _ Hr _ _ Hh) as [Ho _ _ Hb].
  destruct (pumpLoop _ _ _ _) as [[es1 h1] [w1 log1]] eqn:Hp. destruct (eachBinding _ _ _ _) as [[es2 h2] [w2 log2]] eqn:He.
  simplify_eq. apply pumpLoop_stream in Hp as (s1 & -> & _); [|lia|done|intros l b Hl; by destruct (Hb _ _ Hl)].
  eapply eachBinding_all in He as (s2 & -> & _); [|apply drainLocked_touch]. exists (s1 ++ s2). by rewrite app_assoc.
Qed.

(** A frame the relay refuses (malformed, foreign, or a control a Host may
    not send) is a hole in the stream, and is repaired as one: the tail is
    stopped, every viewer is reset to one journal tip or closed, and the tail
    is resumed from exactly that tip. *)
Theorem refused_frame_is_repaired key ev r (w : W) log r' w' log' h b err :
  rinv r -> hosts r !! key = Some h -> stopped h = false -> deliveries h !! channelLink key = Some b ->
  kind ev = evFrame ->
  classify key (MkFrame (data ev) (coveredThrough (data ev)) "") = Fail err ->
  handle channelLink routeFor key ev r (w, log) = (r', (w', log')) ->
  exists h1 tip sent more,
    log' = log ++ CallStop key :: sent ++ [CallRebind key; CallResume key tip] ++ more /\
    (all_reset key tip h h1 sent \/ all_closed h h1 sent /\ tip = 0).
Proof.
  intros Hr Hh Hst Hd Hk Hcl Heq. pose proof (rinv_present _ _ _ Hr Hh) as Hc.
  unfold handle in Heq. rewrite Hk in Heq. unfold Open in Heq. rewrite Hc, Hh in Heq. unfold Relay.Subscribe in Heq.
  rewrite Hc, Hh, Hd in Heq. unfold Receive, Receive_locked in Heq. rewrite Hc, Hh, Hst, Hcl in Heq.
  set (r1 := MkRelay (Relay.limits r) false (hosts r) _ (Relay.next r)) in Heq.
  assert (Hr1 : rinv r1) by (destruct Hr as [? ? ? ?]; split; simpl; done).
  unfold HostLinkClosed, HostLinkClosed_locked in Heq. simpl in Heq. rewrite Hh in Heq.
  set (r2 := withHost r1 key (withStopped h true)) in Heq.
  assert (Hr2 : rinv r2).
  { apply rinv_withHost; [done|done|apply host_ok_stopped; by eapply (rinv_hosts _ Hr1)|exact (rinv_ids _ Hr _ _ Hh)]. }
  destruct (repair key (host_id h) r2 (w, log)) as [[e3 r3] [w3 log3]] eqn:Hrep.
  destruct (Pump key r3 (w3, log3)) as [[e4 r4] [w4 log4]] eqn:Hp. simplify_eq.
  pose proof (repair_rinv _ _ _ _ _ _ _ _ _ Hrep Hr2) as Hr3. apply Pump_log in Hp as (more & ->); [|done].
  eapply (repair_spec _ _ _ _ _ _ _ _ _ (withStopped h true)) in Hrep as (h1 & sent & tip & _ & _ & _ & _ & -> & Hout);
    [|done|by simpl; rewrite lookup_insert_eq|done].
  exists h1, tip, sent, more. split; [by rewrite <- !app_assoc; simpl; rewrite <- !app_assoc|].
  destruct Hout as [(? & _)|?]; [by left|by right].
Qed.
End HandleTheorems.

(** ** Witnesses *)
Definition demo_links_env : Links unit := {|
  links_Bind _ _ l := (None, l);
  links_Unbind _ l := (Some (sentinel "hostlink.ErrLinkReconnecting"), l);
  links_DeliverCommand _ _ _ l := (None, l);
  links_Subscribe _ _ l := (Some (sentinel "hostlink.ErrSubscribeRefused"), l);
  links_Unsubscribe _ l := l;
  links_RouteFor _ _ := None
|}.

#[local] Existing Instances demo_codec demo_limits demo_relay_env demo_links_env.

Definition demo_key_ts : sessionKey := SessionKey "t" "s".
Definition demo_mailbox (evs : list event) : Plane_ :=
  MkPlane 1 false 0 5 {[ demo_key_ts := MkState true false 5 evs true ]}.

Lemma demo_mailbox_ok evs :
  frames evs <= 1 -> Forall (fun ev => ev_ephemeral ev = true -> kind ev = evFrame) evs -> minv (demo_mailbox evs).
Proof.
  intros. split; simpl; [lia|]. intros key s Hs. apply lookup_singleton_Some in Hs as [_ <-]. by split.
Qed.

Lemma mailboxes_bounded_and_drained_witness :
  minv (Publication demo_key_ts 1 "exx" false (Subscribed demo_key_ts 1 (Watching demo_key_ts (MkPlane 8 false 0 0 ∅)))).
Proof.
  apply (mailboxes_bounded_and_drained 8 1).
  eapply reach_step; [|apply mstep_Publication]. eapply reach_step; [|by apply mstep_Subscribed].
  eapply reach_step; [|apply mstep_Watching]. by apply reach_init.
Defined.

(** A mailbox full with an undroppable frame: the next one retires the tail. *)
Lemma publication_never_silent_witness :
  exists s', sessions (Publication demo_key_ts 5 "exxx" false (demo_mailbox [MkEvent evFrame false "exx" false])) !! demo_key_ts
    = Some s' /\ gen s' = 0 /\ events s' = [plain evLost].
Proof.
  destruct (publication_never_silent demo_key_ts 5 "exxx" (demo_mailbox [MkEvent evFrame false "exx" false])
    (MkState true false 5 [MkEvent evFrame false "exx" false] true)) as (s' & Hs & _ & Hout).
  - apply demo_mailbox_ok; [done|]. by repeat constructor.
  - reflexivity.
  - vm_compute. reflexivity.
  - exists s'. split; [exact Hs|]. vm_compute in Hs. simplify_eq. destruct Hout as [[Hg _]|_]; [discriminate|done].
Defined.

Lemma bind_is_all_or_nothing_witness :
  exists e p' log', Bind "ep" (demo_bind "t") (demo_mailbox [], (tt, [])) = (Some e, (p', (tt, log'))) /\
    last log' = Some (LUnbind (unbindFor (demo_bind "t"))).
Proof.
  destruct (Bind "ep" (demo_bind "t") (demo_mailbox [], (tt, []))) as [err [p' [[] log']]] eqn:Hb.
  destruct (bind_is_all_or_nothing _ _ _ _ _ _ _ _ _ Hb) as [Hout _]. vm_compute in Hb. simplify_eq.
  destruct Hout as [[? _]|_]; [discriminate|]. by eexists _, _, _.
Defined.

Lemma unbind_retires_the_tail_witness :
  exists e p' log', Unbind (UnbindRequest "t" "s" "h" 1 1 "k") (demo_mailbox [], (tt, [])) = (Some e, (p', (tt, log'))) /\
    errors_is e ErrRouteGone = true.
Proof.
  destruct (Unbind (UnbindRequest "t" "s" "h" 1 1 "k") (demo_mailbox [], (tt, []))) as [err [p' [[] log']]] eqn:Hb.
  destruct (unbind_retires_the_tail _ _ _ _ _ _ _ _ Hb) as (_ & _ & (e & -> & He)).
  exists e, p', log'. split; [done|]. rewrite He. vm_compute. reflexivity.
Defined.

Lemma refused_frame_is_repaired_witness :
  exists tip more, (handle (fun _ => "l"%string) (fun _ _ => true) demo_key_ts (MkEvent evFrame false "fx" false)
      (demo_relay []) (tt, @nil rcall)).2.2 =
    CallStop demo_key_ts :: [CallRebind demo_key_ts; CallResume demo_key_ts tip] ++ more /\ tip = 9.
Proof.
  destruct (handle (fun _ => "l"%string) (fun _ _ => true) demo_key_ts (MkEvent evFrame false "fx" false)
    (demo_relay []) (tt, @nil rcall)) as [r' [w' log']] eqn:Hh.
  destruct (refused_frame_is_repaired (fun _ => "l"%string) (fun _ _ => true) demo_key_ts (MkEvent evFrame false "fx" false)
    (demo_relay []) tt [] r' w' log' (demo_host []) (MkDelivery (MkQueue 512 false []) 1 1) (wrapf [ErrForeignRecord])
    (demo_relay_ok [] ltac:(simpl; lia)) (lookup_singleton_eq _ _) eq_refl (lookup_singleton_eq _ _) eq_refl eq_refl Hh)
    as (h1 & tip & sent & more & Hlog & _).
  clear Hlog. vm_compute in Hh. simplify_eq/=. exists 9. eexists. split; reflexivity.
Defined.
