(* ===== verification/Viewers.v ===== *)
(** * The live tail's viewers (src/internal/realtime/livetail/plane.go)

    The other side of the plane: the publisher and closer it is for the relay and
    the demand plane, over the ClientLink that may or may not be running; the
    channel links a session's viewers are known by, which are JSON; and the
    plane's [Attach] and [Close]. *)

From S2P Require Import Prelude Wire Text JsonText Program Delivery Bindings Directory Demand Relay Pool LiveTail.
Local Open Scope prog_scope.
Local Open Scope string_scope.

Definition ErrNoViewers : error := sentinel "livetail.ErrNoViewers".

(** ** Channel links *)
Definition channelLink (key : sessionKey) : LinkID := marshalPair (key_tenant key) (key_session key).

Definition channelOf (link : LinkID) : option sessionKey :=
  match unmarshalPair link with None => None | Some (tenant, session) => Some (SessionKey tenant session) end.

(** ** Publishing and closing *)

(** [Viewers], and whether [p.viewers()] is one. *)
Class ViewersEnv (W : Type) := {
  viewers : W -> bool;
  PublishSession : sessionKey -> bytes -> W -> option error * W;
  CloseSession : sessionKey -> W -> W
}.

Section Viewers.
Context {W : Type} `{ViewersEnv W}.
(** Core's encoding of a tip. *)
Context (marshalTip : JournalTip -> result bytes).

Definition Publish (link : LinkID) (key : sessionKey) (encoded : bytes) (w : W) : option error * W :=
  if negb (viewers w) then (Some ErrNoViewers, w) else PublishSession key encoded w.

Definition CloseLink (link : LinkID) (reason : string) (w : W) : option error * W :=
  match channelOf link with
  | None => (Some (wrapf []), w)
  | Some key => (None, if viewers w then CloseSession key w else w)
  end.

Definition PublishJournalTip (hint : JournalTip) (w : W) : option error * W :=
  match marshalTip hint with
  | Fail err => (Some err, w)
  | Ok encoded =>
      if negb (viewers w) then (Some ErrNoViewers, w)
      else PublishSession (SessionKey (tip_TenantID hint) (tip_SessionID hint)) encoded w
  end.
End Viewers.

(** The plane as the relay's publisher, beside the relay's other environment. *)
Definition planeEnv {W : Type} `{ViewersEnv W} `{TipReader W} (stop : sessionKey -> W -> option error * W)
    (resume : sessionKey -> Z -> W -> option error * W) (rebind : sessionKey -> W -> option error * W) : RelayEnv W := {|
  Relay.Publish := Publish; Relay.CloseLink := CloseLink; tail_Stop := stop; tail_Resume := resume; rebinder_Rebind := rebind |}.

(** The drainer's work on an event, with the plane's own links and publisher. *)
Definition handleEvent `{SessionCodec} `{StoreLimits} {W : Type} `{ViewersEnv W} `{TipReader W}
    (stop : sessionKey -> W -> option error * W) (resume : sessionKey -> Z -> W -> option error * W)
    (rebind : sessionKey -> W -> option error * W) (routeFor : sessionKey -> W -> bool)
    (key : sessionKey) (ev : event) (r : Relay_) (w : W) : Relay_ * W :=
  handle (H1 := planeEnv stop resume rebind) channelLink routeFor key ev r w.

(** ** The plane's own life *)

(** The plane and what [Attach] gave it, by presence. *)
Record Attached := MkAttached { at_plane : Plane_; at_relay : bool; at_rebinder : bool }.

Definition Attach (relay rebinder : bool) (p : Attached) : Attached := MkAttached (at_plane p) relay rebinder.

(** A turn of [drain]: the event to handle, if a relay is attached to handle it;
    without one the event is dropped and the drainer goes on. *)
Definition drain_turn (key : sessionKey) (p : Attached) : option (option event) * Attached :=
  let '(ev, plane) := drain_take key (at_plane p) in
  (match ev with None => None | Some ev => Some (if at_relay p then Some ev else None) end, MkAttached plane (at_relay p) (at_rebinder p)).

(** [Close]'s two waits: [true] when what is waited for came, [false] when the
    context ended first; [RunRelayClose] starts the relay's own close. *)
Inductive closeCall : Type -> Type :=
| WaitDrained : closeCall bool
| RunRelayClose : closeCall unit
| WaitRelayClosed : closeCall bool
| CloseCtxErr : closeCall error.

Definition Close (p : Attached) : Attached * prog closeCall (option error) :=
  let p := MkAttached (CloseFlag (at_plane p)) (at_relay p) (at_rebinder p) in
  (p,
   call! drained := WaitDrained in
   let! err := (if (drained : bool) then Ret None else call! err := CloseCtxErr in Ret (Some err)) in
   if negb (at_relay p) then Ret err
   else
     call! _ := RunRelayClose in
     call! finished := WaitRelayClosed in
     if (finished : bool) then Ret err
     else match err with Some err => Ret (Some err) | None => call! err := CloseCtxErr in Ret (Some err) end).

(** ** Facts *)
Ltac in_trace := first [by left | right; in_trace].

(** A key both of whose identifiers are UTF-8, as every decoded one is. *)
Definition text_key (key : sessionKey) : Prop := utf8_valid (key_tenant key) = true /\ utf8_valid (key_session key) = true.

Lemma channel_link_roundtrip key : text_key key -> channelOf (channelLink key) = Some key.
Proof. intros [Ht Hs]. unfold channelOf, channelLink. rewrite unmarshal_marshal by done. by destruct key. Qed.

(** C23: A viewer channel names its session and no other. The link a session's
    viewers are subscribed under is decoded back to that session, for every
    tenant and session that is UTF-8, whatever else they hold; so two sessions
    never share a link, and closing a link closes that session's viewers and
    answers no error, with nothing to do when no ClientLink is running. *)
Theorem channel_link_names_its_session {W : Type} `{ViewersEnv W} (key other : sessionKey) (reason : string) (w : W)
    (Hkey : text_key key) (Hother : text_key other) :
  channelOf (channelLink key) = Some key
  /\ (channelLink key = channelLink other -> key = other)
  /\ CloseLink (channelLink key) reason w = (None, if viewers w then CloseSession key w else w).
Proof.
  pose proof (channel_link_roundtrip key Hkey) as Hk. split_and!; [done| |].
  - intros Heq. rewrite Heq, channel_link_roundtrip in Hk by done. by simplify_eq.
  - unfold CloseLink. by rewrite Hk.
Qed.

#[local] Instance demo_viewers : ViewersEnv (list sessionKey) := {|
  viewers _ := true; PublishSession _ _ w := (None, w); CloseSession key w := key :: w |}.

Lemma channel_link_names_its_session_witness :
  let key := SessionKey ("a" +:+ String quote ",b<" +:+ replacement) "s\" in
  CloseLink (channelLink key) "gone" [] = (None, [key]).
Proof.
  intros key. assert (Hk : text_key key) by (by split; vm_compute).
  exact (proj2 (proj2 (channel_link_names_its_session key (SessionKey "a" "b") "gone" [] Hk (conj eq_refl eq_refl)))).
Defined.

(** The plane is closed for good before anything is waited for, so no drainer
    takes another event; the relay is closed exactly once if there is one, even
    when the context ended while drainers ran; and the answer is nil only if
    the drainers had ended and the relay had closed. *)
Theorem plane_close_waits (p : Attached) :
  closed (at_plane (Close p).1) = true
  /\ (forall key, (drain_turn key (Close p).1).1 = None)
  /\ wp (Close p).2 (fun err t =>
       let starts := tally (fun e => match e with Ev _ RunRelayClose _ => true | _ => false end) t in
       starts = (if at_relay p then 1%Z else 0%Z)
       /\ (err = None -> Ev _ WaitDrained true ∈ t /\ (at_relay p = true -> Ev _ WaitRelayClosed true ∈ t))).
Proof.
  split_and!; [done| |].
  - intros key. unfold drain_turn, drain_take. simpl. destruct (_ !! key) as [s|]; [|done]. by destruct (watched s).
  - simpl. destruct (at_relay p); intros [].
    + intros [] []; [|intros err]; (split; [done|]); intros Hn; try done; split; intros; in_trace.
    + intros err [] []; (split; [done|]); by intros ?.
    + split; [done|]. intros _. split; [in_trace|done].
    + intros err. split; [done|by intros ?].
Qed.
