(* ===== verification/Placement.v ===== *)
(** * Placement policy and its data (src/internal/placement/policy.go and the
    pure part of reconciler.go and attach.go)

    The policy [Decide] with [ReusableOwner] and [admissible]; the requests,
    results and configuration of the reconciler with [NewReconciler];
    [released], [launchTemplate], [storedDesired]; the idempotency keys and the
    wire requests built on them; the classification of what a Host answered
    ([attachAnswer], [classifyGateCapability]); [backoff] and [jittered]. The
    routines that call the outside are in Reconciler.v. *)

From S2P Require Import Prelude Wire Framing Bindings Directory Pool.

Definition ErrInvalidConfig : error := sentinel "placement.ErrInvalidConfig".
Definition ErrNoWorkloadController : error := sentinel "placement.ErrNoWorkloadController".
Definition ErrSessionReleased : error := sentinel "placement.ErrSessionReleased".
Definition ErrNoLaunchTemplate : error := sentinel "placement.ErrNoLaunchTemplate".
Definition ErrAttachUnsupported : error := sentinel "placement.ErrAttachUnsupported".
Definition ErrRegistryStale : error := sentinel "placement.ErrRegistryStale".
Definition ErrBindAfterAttach : error := sentinel "placement.ErrBindAfterAttach".
Definition ErrDedicatedEndpointInvalid : error := sentinel "placement.ErrDedicatedEndpointInvalid".
Definition ErrDedicatedObservationInvalid : error := sentinel "placement.ErrDedicatedObservationInvalid".
Definition ErrWorkloadEndpointUnsupported : error := sentinel "placement.ErrWorkloadEndpointUnsupported".

(** ** The policy *)
Inductive Outcome :=
| OutcomeUndecided
| OutcomeReuseOwner
| OutcomeAttachPooled
| OutcomeReconcileDedicated
| OutcomeNoCapacity.

#[global] Instance Outcome_eq_dec : EqDecision Outcome.
Proof. solve_decision. Defined.

(** [Outcome.String], for a log line; [None] is a value outside the enumeration. *)
Definition Outcome_String (o : option Outcome) : string :=
  match o with
  | Some OutcomeUndecided => "undecided"
  | Some OutcomeReuseOwner => "reuse_owner"
  | Some OutcomeAttachPooled => "attach_pooled"
  | Some OutcomeReconcileDedicated => "reconcile_dedicated"
  | Some OutcomeNoCapacity => "no_capacity"
  | None => "unrecognized"
  end.

(** Every member renders distinctly, an unrecognized one included. *)
Lemma outcomes_render_distinctly : Inj (=) (=) Outcome_String.
Proof. intros [[]|] [[]|] Heq; by vm_compute in Heq. Qed.

(** [Decision]: the owner and the target are set for their outcomes only. *)
Record Decision_ := MkDecision {
  d_Outcome : Outcome;
  d_Owner : option HostLinkRegistryObservation;
  d_Target : option HostLinkCapacityReport
}.

Definition ReusableOwner (owner : HostLinkRegistryObservation) (record : CatalogRecord) (now : time) : bool :=
  bool_decide (obs_TenantID owner = rec_TenantID record) && bool_decide (obs_SessionID owner = rec_SessionID record) &&
  bool_decide (obs_AgentID owner = rec_AgentID record) &&
  bool_decide (obs_RuntimeCompatibilityID owner = rec_RuntimeCompatibilityID record) &&
  bool_decide (obs_Placement owner = rec_DesiredPlacement record) &&
  bool_decide (obs_Residency owner = SessionResidencyResident) && obs_Accepting owner && (now <? obs_ExpiresAt owner).

Definition admissible (candidate : HostLinkCapacityReport) (record : CatalogRecord) : bool :=
  bool_decide (cap_AgentID candidate = rec_AgentID record) &&
  bool_decide (cap_RuntimeCompatibilityID candidate = rec_RuntimeCompatibilityID record) &&
  bool_decide (cap_Placement candidate = rec_DesiredPlacement record) &&
  bool_decide (cap_IsolationClass candidate = HostIsolationClassCrossTenantIsolated) &&
  cap_Accepting candidate && (0 <? cap_AvailableCapacity candidate).

(** The loop over the candidates: the first admissible one. *)
Fixpoint firstAdmissible (candidates : list HostLinkCapacityReport) (record : CatalogRecord)
    : option HostLinkCapacityReport :=
  match candidates with
  | [] => None
  | c :: rest => if admissible c record then Some c else firstAdmissible rest record
  end.

(** [observed] is the owner when [ownerObserved]. *)
Definition Decide (record : CatalogRecord) (observed : option HostLinkRegistryObservation)
    (candidates : list HostLinkCapacityReport) (now : time) : Decision_ :=
  let rest :=
    match rec_DesiredPlacement record with
    | HostPlacementDedicated => MkDecision OutcomeReconcileDedicated None None
    | HostPlacementPooled =>
        match firstAdmissible candidates record with
        | Some c => MkDecision OutcomeAttachPooled None (Some c)
        | None => MkDecision OutcomeNoCapacity None None
        end
    | HostPlacementOther _ => MkDecision OutcomeUndecided None None
    end in
  match observed with
  | Some owner => if ReusableOwner owner record now then MkDecision OutcomeReuseOwner (Some owner) None else rest
  | None => rest
  end.

(** ** Requests, results and configuration *)
Record Desired := MkDesired {
  des_Placement : HostPlacement;
  des_RuntimeCompatibilityID : string;
  des_Workload : DesiredWorkload
}.

Record Request := MkRequest {
  req_TenantID : TenantID;
  req_SessionID : SessionID;
  req_Desired : option Desired;
  req_Wake : list CommandID;
  req_GateResponses : list CommandID;
  req_PayloadReferences : list CommandID;
  req_PrincipalCommands : list CommandID;
  req_RestoreRequested : bool
}.

Definition req_key (req : Request) : sessionKey := SessionKey (req_TenantID req) (req_SessionID req).

(** sessionstore.PlacementIntent *)
Record PlacementIntent := MkIntent {
  intent_TenantID : TenantID;
  intent_SessionID : SessionID;
  intent_AgentID : AgentID;
  intent_RuntimeCompatibilityID : string;
  intent_Generation : Z;
  intent_Workload : DesiredWorkload
}.

Record CandidateRefusal := MkRefusal { refused_HostID : HostID; refused_HostGeneration : Z; refused_Code : string }.

Record Result := MkResult {
  res_Decision : Decision_;
  res_Deferred : bool;
  res_ClaimExpiresAt : time;
  res_DesiredWrites : Z;
  res_Intent : option PlacementIntent;
  res_Attached : option HostLinkRegistryObservation;
  res_Bound : bool;
  res_Delivered : Z;
  res_DeliveryFailures : Z;
  res_WithheldGateResponses : Z;
  res_WithheldPrincipalCommands : Z;
  res_Excluded : list HostID;
  res_Unreachable : list HostID;
  res_Unaddressable : list HostID;
  res_Incapable : list HostID;
  res_Refused : list CandidateRefusal;
  res_Failed : list HostID;
  res_Replacements : Z
}.

Definition undecided : Decision_ := MkDecision OutcomeUndecided None None.

Definition zeroResult : Result :=
  MkResult undecided false 0 0 None None false 0 0 0 0 [] [] [] [] [] [] 0.

(** Assignments to members of the result. *)
Definition setDecision (d : Decision_) (r : Result) : Result :=
  let 'MkResult _ a b c e f g h i j k l m n o p q s := r in MkResult d a b c e f g h i j k l m n o p q s.
Definition setDeferred (at_time : time) (r : Result) : Result :=
  let 'MkResult d _ _ c e f g h i j k l m n o p q s := r in MkResult d true at_time c e f g h i j k l m n o p q s.
Definition setWrites (n : Z) (r : Result) : Result :=
  let 'MkResult d a b _ e f g h i j k l m x o p q s := r in MkResult d a b n e f g h i j k l m x o p q s.
Definition setIntent (intent : PlacementIntent) (r : Result) : Result :=
  let 'MkResult d a b c _ f g h i j k l m n o p q s := r in MkResult d a b c (Some intent) f g h i j k l m n o p q s.
Definition setAttached (ob : HostLinkRegistryObservation) (r : Result) : Result :=
  let 'MkResult d a b c e _ g h i j k l m n o p q s := r in MkResult d a b c e (Some ob) g h i j k l m n o p q s.
Definition setBound (r : Result) : Result :=
  let 'MkResult d a b c e f _ h i j k l m n o p q s := r in MkResult d a b c e f true h i j k l m n o p q s.
Definition incDelivered (r : Result) : Result :=
  let 'MkResult d a b c e f g h i j k l m n o p q s := r in MkResult d a b c e f g (h + 1) i j k l m n o p q s.
Definition incDeliveryFailures (r : Result) : Result :=
  let 'MkResult d a b c e f g h i j k l m n o p q s := r in MkResult d a b c e f g h (i + 1) j k l m n o p q s.
Definition incWithheldGate (r : Result) : Result :=
  let 'MkResult d a b c e f g h i j k l m n o p q s := r in MkResult d a b c e f g h i (j + 1) k l m n o p q s.
Definition incWithheldPrincipal (r : Result) : Result :=
  let 'MkResult d a b c e f g h i j k l m n o p q s := r in MkResult d a b c e f g h i j (k + 1) l m n o p q s.
Definition addExcluded (x : HostID) (r : Result) : Result :=
  let 'MkResult d a b c e f g h i j k l m n o p q s := r in MkResult d a b c e f g h i j k (l ++ [x]) m n o p q s.
Definition addUnreachable (x : HostID) (r : Result) : Result :=
  let 'MkResult d a b c e f g h i j k l m n o p q s := r in MkResult d a b c e f g h i j k l (m ++ [x]) n o p q s.
Definition addUnaddressable (x : HostID) (r : Result) : Result :=
  let 'MkResult d a b c e f g h i j k l m n o p q s := r in MkResult d a b c e f g h i j k l m (n ++ [x]) o p q s.
Definition addIncapable (x : HostID) (r : Result) : Result :=
  let 'MkResult d a b c e f g h i j k l m n o p q s := r in MkResult d a b c e f g h i j k l m n (o ++ [x]) p q s.
Definition addRefused (x : CandidateRefusal) (r : Result) : Result :=
  let 'MkResult d a b c e f g h i j k l m n o p q s := r in MkResult d a b c e f g h i j k l m n o (p ++ [x]) q s.
Definition addFailed (x : HostID) (r : Result) : Result :=
  let 'MkResult d a b c e f g h i j k l m n o p q s := r in MkResult d a b c e f g h i j k l m n o p (q ++ [x]) s.
Definition incReplacements (r : Result) : Result :=
  let 'MkResult d a b c e f g h i j k l m n o p q s := r in MkResult d a b c e f g h i j k l m n o p q (s + 1).

Record Config := MkConfig {
  HolderID : string;
  ClaimTTL : Z;
  CandidateLimit : Z;
  ActorID : string;
  ReplaceAttempts : Z;
  ReplaceBackoff : Z;
  hasLinks : bool;       (* Links != nil *)
  hasWorkloads : bool;   (* Workloads != nil *)
  hasDiscovery : bool    (* Workloads implements WorkloadEndpointDiscovery *)
}.

Definition defaultReplaceAttempts : Z := 3.
Definition defaultReplaceBackoff : Z := 200 * millisecond.
Definition maxReplaceAttempts : Z := 10.
Definition maxReplaceBackoff : Z := 5000 * millisecond.

Definition attachConfigError (cfg : Config) : option error :=
  if negb (hasLinks cfg) then None
  else if bool_decide (ActorID cfg = ""%string) then Some (wrapf [ErrInvalidConfig])
  else if (ReplaceAttempts cfg <? 0) || (maxReplaceAttempts <? ReplaceAttempts cfg) then Some (wrapf [ErrInvalidConfig])
  else if (ReplaceBackoff cfg <? 0) || (maxReplaceBackoff <? ReplaceBackoff cfg) then Some (wrapf [ErrInvalidConfig])
  else None.

(** sessionstore.MaxReconciliationClaimTTL is a parameter. *)
Definition NewReconciler `{StoreLimits} (maxTTL : Z) (cfg : Config) : result Config :=
  if bool_decide (HolderID cfg = ""%string) then Fail (wrapf [ErrInvalidConfig])
  else if (ClaimTTL cfg <=? 0) || (maxTTL <? ClaimTTL cfg) then Fail (wrapf [ErrInvalidConfig])
  else if (CandidateLimit cfg <? 1) || (MaxOrderedPageLimit <? CandidateLimit cfg) then Fail (wrapf [ErrInvalidConfig])
  else match attachConfigError cfg with
       | Some err => Fail err
       | None => Ok cfg
       end.

Definition replaceAttempts (cfg : Config) : Z :=
  if ReplaceAttempts cfg =? 0 then defaultReplaceAttempts else ReplaceAttempts cfg.

(** [backoff]'s doubling loop, for [n - 1] rounds at most. *)
Fixpoint double (rounds : nat) (d : Z) : Z :=
  match rounds with
  | O => d
  | S rounds => if d <? maxReplaceBackoff then double rounds (d * 2) else d
  end.

Definition backoff (cfg : Config) (n : Z) : Z :=
  let d := if ReplaceBackoff cfg =? 0 then defaultReplaceBackoff else ReplaceBackoff cfg in
  Z.min (double (Z.to_nat (n - 1)) d) maxReplaceBackoff.

(** [jittered] with the value [rand.N(d-half+1)] drew. *)
Definition jittered (d draw : Z) : Z :=
  let half := d `quot` 2 in
  if half <=? 0 then d else half + draw.

(** ** Keys *)
Definition hostPlacementString (p : HostPlacement) : string :=
  match p with
  | HostPlacementDedicated => "dedicated"
  | HostPlacementPooled => "pooled"
  | HostPlacementOther v => v
  end.

Definition attachModeString (m : HostLinkAttachMode) : string :=
  match m with HostLinkAttachModeCreate => "create" | HostLinkAttachModeRestore => "restore" end.

Section Keys.
Context `{BindingPrimitives}.

Definition framedDigest (fields : list string) : string := sha256hex (framed fields).
Definition framedKey (domain : string) (fields : list string) : string := framedDigest (domain :: fields).

Definition desiredFields (req : Request) (d : Desired) : list string :=
  [req_TenantID req; req_SessionID req; hostPlacementString (des_Placement d); des_RuntimeCompatibilityID d;
   wl_PayloadVersion (des_Workload d); wl_Payload (des_Workload d)].

Definition desiredKey (req : Request) (d : Desired) : string :=
  String.app "placement-" (framedDigest (desiredFields req d)).

Definition reviveKey (req : Request) (d : Desired) (releasedGeneration : Z) : string :=
  String.app "revive-" (framedDigest (desiredFields req d ++ [formatUint releasedGeneration])).

Definition attachMode (record : CatalogRecord) : HostLinkAttachMode :=
  if (rec_LastJournalSeq record =? 0) && (rec_CheckpointSeq record =? 0) then HostLinkAttachModeCreate
  else HostLinkAttachModeRestore.

Definition attachKey (record : CatalogRecord) (mode : HostLinkAttachMode) : string :=
  framedKey "placement-attach/v1"
    [rec_TenantID record; rec_SessionID record; rec_AgentID record; rec_RuntimeCompatibilityID record;
     attachModeString mode; formatUint (rec_DesiredGeneration record)].

Definition attachRequest (record : CatalogRecord) (candidate : HostLinkCapacityReport) (mode : HostLinkAttachMode)
    (actor : string) : HostLinkAttachRequest :=
  AttachRequest (rec_TenantID record) (rec_SessionID record) (cap_HostID candidate) (cap_HostGeneration candidate)
    (rec_AgentID record) (rec_RuntimeCompatibilityID record) mode actor (attachKey record mode).

Definition bindRequestFor (o : HostLinkRegistryObservation) : HostLinkBindRequest :=
  BindRequest (obs_TenantID o) (obs_SessionID o) (obs_HostID o) (obs_HostGeneration o) (obs_LeaseEpoch o)
    (obs_RuntimeCompatibilityID o)
    (framedKey "placement-bind/v1"
       [obs_TenantID o; obs_SessionID o; obs_HostID o; formatUint (obs_HostGeneration o); formatUint (obs_LeaseEpoch o)]).

Definition unbindRequestFor (b : HostLinkBindRequest) : HostLinkUnbindRequest :=
  UnbindRequest (bind_TenantID b) (bind_SessionID b) (bind_HostID b) (bind_HostGeneration b) (bind_LeaseEpoch b)
    (bind_IdempotencyKey b).
End Keys.

Definition targetKey (record : CatalogRecord) (limit : Z) : ListCompatibleHostsRequest :=
  ListRequest (rec_AgentID record) (rec_RuntimeCompatibilityID record) (rec_DesiredPlacement record) "" limit.

Definition storedDesired (record : CatalogRecord) (d : Desired) : bool :=
  bool_decide (rec_DesiredPlacement record = des_Placement d) &&
  bool_decide (rec_RuntimeCompatibilityID record = des_RuntimeCompatibilityID d) &&
  bool_decide (wl_PayloadVersion (rec_DesiredWorkload record) = wl_PayloadVersion (des_Workload d)) &&
  bool_decide (wl_Payload (rec_DesiredWorkload record) = wl_Payload (des_Workload d)).

Definition firstDesiredGeneration : Z := 1.

Definition emptyWorkload (w : DesiredWorkload) : bool :=
  bool_decide (wl_PayloadVersion w = ""%string) && bool_decide (wl_Payload w = ""%string).

Definition released (record : CatalogRecord) : bool :=
  bool_decide (rec_DesiredPlacement record = HostPlacementDedicated) &&
  (firstDesiredGeneration <? rec_DesiredGeneration record) && emptyWorkload (rec_DesiredWorkload record).

Definition launchTemplate (record : CatalogRecord) : option DesiredWorkload :=
  match rec_InitialWorkload record with
  | None => None
  | Some w =>
      if bool_decide (wl_PayloadVersion w = ""%string) || bool_decide (wl_Payload w = ""%string) then None
      else Some w
  end.

(** ** What a Host answered *)
Inductive gateCapability := gateCapable | gateIncapable | gateUnaddressable | gateUnreachable | gateAbort.

Definition classifyGateCapability (answer : result bool) : gateCapability :=
  match answer with
  | Ok true => gateCapable
  | Ok false => gateIncapable
  | Fail err =>
      if errors_is err (Sentinel "placement.ErrTenantUnaddressable") then gateUnaddressable
      else if errors_is err (Sentinel "placement.ErrHostUnreachable") then gateUnreachable
      else gateAbort
  end.

Inductive answer :=
| answerAbort | answerAccepted | answerStale | answerRefused | answerUnsupported
| answerUnreachable | answerFailed | answerUnaddressable.

(** [attachAnswer]: the classification and the refusal's code. *)
Definition attachAnswer (err : option error) : answer * string :=
  match err with
  | None => (answerAccepted, "")
  | Some err =>
      match errors_code "placement.AttachRefusal" err with
      | Some code =>
          if bool_decide (code = "HostLinkErrorEpochMismatch"%string) then (answerStale, code) else (answerRefused, code)
      | None =>
          if errors_is err (Sentinel "placement.ErrAttachUnsupported") then (answerUnsupported, "")
          else if errors_is err (Sentinel "placement.ErrTenantUnaddressable") then (answerUnaddressable, "")
          else if errors_is err (Sentinel "placement.ErrHostUnreachable") then (answerUnreachable, "")
          else if errors_is err (Sentinel "placement.ErrAttachFailed") then (answerFailed, "")
          else (answerAbort, "")
      end
  end%string.

(** ** The policy, as a relation

    [fits] and [live] spell out the two predicates the policy rests on. *)
Definition fits (candidate : HostLinkCapacityReport) (record : CatalogRecord) : Prop :=
  cap_AgentID candidate = rec_AgentID record /\
  cap_RuntimeCompatibilityID candidate = rec_RuntimeCompatibilityID record /\
  cap_Placement candidate = rec_DesiredPlacement record /\
  cap_IsolationClass candidate = HostIsolationClassCrossTenantIsolated /\
  cap_Accepting candidate = true /\ 0 < cap_AvailableCapacity candidate.

Definition live (owner : HostLinkRegistryObservation) (record : CatalogRecord) (now : time) : Prop :=
  obs_TenantID owner = rec_TenantID record /\ obs_SessionID owner = rec_SessionID record /\
  obs_AgentID owner = rec_AgentID record /\
  obs_RuntimeCompatibilityID owner = rec_RuntimeCompatibilityID record /\
  obs_Placement owner = rec_DesiredPlacement record /\
  obs_Residency owner = SessionResidencyResident /\ obs_Accepting owner = true /\ now < obs_ExpiresAt owner.

Lemma admissible_fits candidate record : admissible candidate record = true <-> fits candidate record.
Proof.
  unfold admissible, fits. rewrite !andb_true_iff, !bool_decide_eq_true, Z.ltb_lt. tauto.
Qed.

Lemma ReusableOwner_live owner record now : ReusableOwner owner record now = true <-> live owner record now.
Proof.
  unfold ReusableOwner, live. rewrite !andb_true_iff, !bool_decide_eq_true, Z.ltb_lt. tauto.
Qed.

Section Policy.
Context (record : CatalogRecord) (observed : option HostLinkRegistryObservation)
  (candidates : list HostLinkCapacityReport) (now : time).

Definition noOwner : Prop := forall owner, observed = Some owner -> ~ live owner record now.

Inductive decides : Decision_ -> Prop :=
| decides_reuse owner :
    observed = Some owner -> live owner record now -> decides (MkDecision OutcomeReuseOwner (Some owner) None)
| decides_dedicated :
    noOwner -> rec_DesiredPlacement record = HostPlacementDedicated ->
    decides (MkDecision OutcomeReconcileDedicated None None)
| decides_attach before target after :
    noOwner -> rec_DesiredPlacement record = HostPlacementPooled ->
    candidates = before ++ target :: after -> Forall (fun c => ~ fits c record) before -> fits target record ->
    decides (MkDecision OutcomeAttachPooled None (Some target))
| decides_full :
    noOwner -> rec_DesiredPlacement record = HostPlacementPooled -> Forall (fun c => ~ fits c record) candidates ->
    decides (MkDecision OutcomeNoCapacity None None)
| decides_unknown value :
    noOwner -> rec_DesiredPlacement record = HostPlacementOther value -> decides (MkDecision OutcomeUndecided None None).
End Policy.

Lemma firstAdmissible_first candidates record before target after :
  candidates = before ++ target :: after -> Forall (fun c => ~ fits c record) before -> fits target record ->
  firstAdmissible candidates record = Some target.
Proof.
  intros -> Hb Ht. induction Hb as [|c before Hc _ IH]; simpl.
  - by rewrite (proj2 (admissible_fits _ _) Ht).
  - destruct (admissible c record) eqn:Ha; [|done]. by apply admissible_fits in Ha.
Qed.

Lemma firstAdmissible_none candidates record :
  Forall (fun c => ~ fits c record) candidates -> firstAdmissible candidates record = None.
Proof.
  induction 1 as [|c cs Hc _ IH]; simpl; [done|].
  destruct (admissible c record) eqn:Ha; [|done]. by apply admissible_fits in Ha.
Qed.

Lemma firstAdmissible_cases candidates record :
  match firstAdmissible candidates record with
  | Some target => exists before after, candidates = before ++ target :: after /\
      Forall (fun c => ~ fits c record) before /\ fits target record
  | None => Forall (fun c => ~ fits c record) candidates
  end.
Proof.
  induction candidates as [|c cs IH]; simpl; [constructor|].
  destruct (admissible c record) eqn:Ha.
  - exists [], cs. split_and!; [done|constructor|by apply admissible_fits].
  - assert (~ fits c record) by (intros ?%admissible_fits; congruence).
    destruct (firstAdmissible cs record) as [target|]; [|by constructor].
    destruct IH as (before & after & -> & Hb & Ht). exists (c :: before), after. split_and!; [done|by constructor|done].
Qed.

(** [Decide] is the placement policy and nothing else. An observed owner
    is reused exactly when it is this session's, runs the record's agent and
    runtime at the desired placement, is resident, accepting and not expired;
    otherwise a dedicated session is reconciled, and a pooled one goes to the
    first candidate, in directory order, with the record's agent and runtime
    that is cross-tenant isolated, accepting and has room, or is refused for
    lack of capacity when there is none. Exactly one decision applies. *)
Theorem decide_is_the_policy record observed candidates now d :
  decides record observed candidates now d <-> d = Decide record observed candidates now.
Proof.
  assert (Hno : noOwner record observed now ->
    match observed with Some o => ReusableOwner o record now | None => false end = false).
  { intros Hn. destruct observed as [o|]; [|done]. destruct (ReusableOwner o record now) eqn:Hr; [|done].
    apply ReusableOwner_live in Hr. by destruct (Hn o). }
  split.
  - intros [owner Ho Hl|Hn Hp|before target after Hn Hp Hc Hb Ht|Hn Hp Hf|value Hn Hp]; unfold Decide.
    { subst observed. by rewrite (proj2 (ReusableOwner_live _ _ _) Hl). }
    all: specialize (Hno Hn); rewrite Hp; destruct observed; rewrite ?Hno;
      try (by rewrite (firstAdmissible_first _ _ before target after)); by rewrite ?firstAdmissible_none.
  - intros ->. unfold Decide.
    assert (Hrest : noOwner record observed now -> decides record observed candidates now
      match rec_DesiredPlacement record with
      | HostPlacementDedicated => MkDecision OutcomeReconcileDedicated None None
      | HostPlacementPooled =>
          match firstAdmissible candidates record with
          | Some c => MkDecision OutcomeAttachPooled None (Some c)
          | None => MkDecision OutcomeNoCapacity None None
          end
      | HostPlacementOther _ => MkDecision OutcomeUndecided None None
      end).
    { intros Hn. destruct (rec_DesiredPlacement record) as [| |v] eqn:Hp; [by constructor| |by eapply decides_unknown].
      pose proof (firstAdmissible_cases candidates record) as Hc.
      destruct (firstAdmissible candidates record) as [c|]; [|by apply decides_full].
      destruct Hc as (before & after & Hc & Hb & Ht). by eapply decides_attach. }
    destruct observed as [o|]; [|by apply Hrest].
    destruct (ReusableOwner o record now) eqn:Hr; [apply decides_reuse; [done|by apply ReusableOwner_live]|].
    apply Hrest. intros owner Ho. simplify_eq. rewrite <- ReusableOwner_live. congruence.
Qed.
