(* ===== verification/Reconciler.v ===== *)
(** * The placement reconciler (src/internal/placement/reconciler.go, attach.go)

    [Reconcile] with [claim], [deferToHolder], [ensureDesired],
    [reviveReleased], the pooled and the dedicated placement [placePooled] and
    [placeDedicated], [bindAndDeliver], [bindAttached], [wake] and the
    throttled report [reportIncapable], as programs over the interfaces the
    package declares: [Directory], [Catalog], [Claims], [Clock],
    [WorkloadController], [WorkloadEndpointDiscovery] and [HostLinks]. Each
    method is a constructor of [request]; a Go [(Result, error)] is a pair,
    because both halves are meaningful at once. Of the warnings logged, only
    the throttled one is kept: the others change nothing. *)

From S2P Require Import Prelude Wire Framing Bindings Directory Pool Placement Program.
Local Open Scope prog_scope.

(** The capabilities [AcceptsGateResponses], [AcceptsPayloadReferences] and
    [AcceptsCommandPrincipal] ask about. *)
Inductive capability := GateResponses | PayloadReferences | CommandPrincipal.

Record UpdateCatalogDesiredStateRequest := UpdateRequest {
  upd_TenantID : TenantID;
  upd_SessionID : SessionID;
  upd_ExpectedRevision : Z;
  upd_IdempotencyKey : string;
  upd_DesiredPlacement : HostPlacement;
  upd_RuntimeCompatibilityID : string;
  upd_DesiredWorkload : DesiredWorkload
}.

Record DedicatedEndpoint := MkDedicatedEndpoint {
  ded_HostID : HostID;
  ded_HostGeneration : Z;
  ded_InternalEndpoint : InternalEndpoint
}.

(** The calls the reconciler makes. [WorkloadEndpoint] answers [None] while the
    workload is not ready. *)
Inductive request : Type -> Type :=
| GetCatalogEntry (tenant : TenantID) (session : SessionID) : request (result CatalogEntry)
| UpdateCatalogDesiredState (req : UpdateCatalogDesiredStateRequest) : request (result CatalogEntry)
| AcquireReconciliationClaim (tenant : TenantID) (session : SessionID) (holder : string) (expiresAt : time)
    : request (option error)
| ReleaseReconciliationClaim (tenant : TenantID) (session : SessionID) (holder : string) : request (option error)
| Owner (tenant : TenantID) (session : SessionID) : request (result (option HostLinkRegistryObservation))
| Candidates (req : ListCompatibleHostsRequest) : request (result HostTargetPage)
| Now : request time
| EnsureWorkload (intent : PlacementIntent) : request (option error)
| ObserveWorkload (intent : PlacementIntent) : request (result (option HostLinkRegistryObservation))
| WorkloadEndpoint (intent : PlacementIntent) : request (result (option DedicatedEndpoint))
| Attach (endpoint : InternalEndpoint) (req : HostLinkAttachRequest) : request (result HostLinkRegistryObservation)
| Bind (endpoint : InternalEndpoint) (req : HostLinkBindRequest) : request (option error)
| Unbind (req : HostLinkUnbindRequest) : request (option error)
| DeliverCommand (tenant : TenantID) (session : SessionID) (command : CommandID) : request (option error)
| RouteFor (tenant : TenantID) (session : SessionID) : request (option HostID)
| Accepts (capability : capability) (owner : HostLinkRegistryObservation) : request (result bool)
| Wait (d : Z) : request (option error).

Abbreviation routine := (prog request).

(** What the package takes from Core and SessionStore as pure functions. *)
Class PlacementPrimitives := {
  placement_bindings :: BindingPrimitives;
  placementIntent : CatalogRecord -> result PlacementIntent;
  validateObservation : HostLinkRegistryObservation -> option error;
  validateHostID : HostID -> option error;
  HostLinkEndpoint : InternalEndpoint -> TenantID -> result InternalEndpoint
}.

Section Reconciler.
Context `{PlacementPrimitives} (cfg : Config).

(** ** Waking an owner *)

(** The answers [bindAndDeliver] has already asked for. *)
Record asked := MkAsked {
  asked_reference : option (result bool);
  asked_gate : option (result bool);
  asked_principal : option (result bool)
}.

Definition accepted (answer : result bool) : bool := match answer with Ok b => b | Fail _ => false end.

(** Ask once whether [observation]'s Host takes the commands in [listed], when
    [command] is one of them. *)
Definition screen (cap : capability) (listed : list CommandID) (command : CommandID)
    (observation : HostLinkRegistryObservation) (memo : option (result bool)) : routine (bool * option (result bool)) :=
  if bool_decide (command ∈ listed) then
    match memo with
    | Some answer => Ret (accepted answer, memo)
    | None => call! answer := Accepts cap observation in Ret (accepted answer, Some answer)
    end
  else Ret (true, memo).

Fixpoint deliverLoop (req : Request) (observation : HostLinkRegistryObservation) (wake : list CommandID)
    (memo : asked) (result : Result) : routine Result :=
  match wake with
  | [] => Ret result
  | command :: wake =>
      let! (ok, reference) := screen PayloadReferences (req_PayloadReferences req) command observation (asked_reference memo) in
      let memo := MkAsked reference (asked_gate memo) (asked_principal memo) in
      if negb ok then deliverLoop req observation wake memo result
      else
        let! (ok, gate) := screen GateResponses (req_GateResponses req) command observation (asked_gate memo) in
        let memo := MkAsked reference gate (asked_principal memo) in
        if negb ok then deliverLoop req observation wake memo (incWithheldGate result)
        else
          let! (ok, principal) := screen CommandPrincipal (req_PrincipalCommands req) command observation (asked_principal memo) in
          let memo := MkAsked reference gate principal in
          if negb ok then deliverLoop req observation wake memo (incWithheldPrincipal result)
          else
            call! err := DeliverCommand (req_TenantID req) (req_SessionID req) command in
            deliverLoop req observation wake memo
              match err with Some _ => incDeliveryFailures result | None => incDelivered result end
  end.

Definition bindAndDeliver (req : Request) (observation : HostLinkRegistryObservation) (result : Result)
    (attached : bool) : routine (Result * option error) :=
  let bind := bindRequestFor observation in
  call! routed := RouteFor (req_TenantID req) (req_SessionID req) in
  call! err := Bind (obs_InternalEndpoint observation) bind in
  match err with
  | Some err => Ret (result, Some (if attached then wrapf [ErrBindAfterAttach; err] else err))
  | None =>
      let! result := deliverLoop req observation (req_Wake req) (MkAsked None None None) (setBound result) in
      match routed with
      | Some _ => Ret (result, None)
      | None => call! _ := Unbind (unbindRequestFor bind) in Ret (result, None)
      end
  end.

Definition bindAttached (req : Request) (observation : HostLinkRegistryObservation) (result : Result) :=
  bindAndDeliver req observation result true.

Definition wake (req : Request) (owner : HostLinkRegistryObservation) (result : Result) : routine (Result * option error) :=
  if negb (hasLinks cfg) || bool_decide (req_Wake req = []) then Ret (result, None)
  else bindAndDeliver req owner result false.

(** ** Pooled placement *)

(** The observation a capability question carries before there is an owner. *)
Definition probe (req : Request) (host : HostID) (generation : Z) (endpoint : InternalEndpoint) : HostLinkRegistryObservation :=
  RegistryObservation (req_TenantID req) (req_SessionID req) host generation 0 "" ""
    (HostPlacementOther "") (SessionResidencyOther "") false 0 endpoint.

Definition answerError (answer : result bool) : option error := match answer with Ok _ => None | Fail err => Some err end.

(** What one pass over the candidates leaves: a return from [placePooled], or
    the accumulated result and whether the registry was stale. *)
Inductive pass := Return (out : Result * option error) | Swept (result : Result) (stale : bool).

(** One of the three capability switches: [skip] is [continue]. *)
Definition gatePooled (cap : capability) (pending : list CommandID) (req : Request) (candidate : HostLinkCapacityReport)
    (result : Result) (skip : Result -> routine pass) (capable : routine pass) : routine pass :=
  match pending with
  | [] => capable
  | _ =>
      call! answer := Accepts cap (probe req (cap_HostID candidate) (cap_HostGeneration candidate) (cap_InternalEndpoint candidate)) in
      match classifyGateCapability answer with
      | gateUnaddressable => skip (addUnaddressable (cap_HostID candidate) result)
      | gateIncapable => skip (addIncapable (cap_HostID candidate) result)
      | gateUnreachable => skip (addUnreachable (cap_HostID candidate) result)
      | gateAbort => Ret (Return (result, answerError answer))
      | gateCapable => capable
      end
  end.

Fixpoint candidatesLoop (req : Request) (record : CatalogRecord) (mode : HostLinkAttachMode)
    (hosts : list HostLinkCapacityReport) (result : Result) : routine pass :=
  match hosts with
  | [] => Ret (Swept result false)
  | candidate :: hosts =>
      let host := cap_HostID candidate in
      let next result := candidatesLoop req record mode hosts result in
      if negb (admissible candidate record) then next result
      else
        gatePooled GateResponses (req_GateResponses req) req candidate result next
        (gatePooled PayloadReferences (req_PayloadReferences req) req candidate result next
        (gatePooled CommandPrincipal (req_PrincipalCommands req) req candidate result next
        (call! attached := Attach (cap_InternalEndpoint candidate) (attachRequest record candidate mode (ActorID cfg)) in
         match attached with
         | Ok observation =>
             let! out := bindAttached req observation
               (setAttached observation (setDecision (MkDecision OutcomeAttachPooled None (Some candidate)) result)) in
             Ret (Return out)
         | Fail err =>
             let '(answer, code) := attachAnswer (Some err) in
             let refusal := MkRefusal host (cap_HostGeneration candidate) code in
             match answer with
             | answerStale => Ret (Swept (addRefused refusal result) true)
             | answerRefused => next (addRefused refusal result)
             | answerUnsupported => next (addExcluded host result)
             | answerUnreachable => next (addUnreachable host result)
             | answerUnaddressable => next (addUnaddressable host result)
             | answerFailed => next (addFailed host result)
             | answerAccepted | answerAbort => Ret (Return (result, Some (wrapf [err])))
             end
         end)))
  end.

Definition noCapacity : Decision_ := MkDecision OutcomeNoCapacity None None.

(** A pass over the candidates of one page; [again] continues after a stale
    pass when an attempt remains. *)
Definition attachCandidates (req : Request) (record : CatalogRecord) (mode : HostLinkAttachMode)
    (again : option (Result -> routine (Result * option error))) (result : Result) : routine (Result * option error) :=
  call! page := Candidates (targetKey record (CandidateLimit cfg)) in
  match page with
  | Fail err => Ret (result, Some err)
  | Ok page =>
      let! swept := candidatesLoop req record mode (tpage_Targets page) result in
      match swept with
      | Return out => Ret out
      | Swept result false => Ret (setDecision noCapacity result, None)
      | Swept result true =>
          match again with
          | None => Ret (setDecision noCapacity result, Some ErrRegistryStale)
          | Some again => again result
          end
      end
  end.

(** One attempt: the owner, then the candidates. *)
Definition attemptBody (req : Request) (record : CatalogRecord) (mode : HostLinkAttachMode)
    (again : option (Result -> routine (Result * option error))) (result : Result) : routine (Result * option error) :=
  call! owner := Owner (req_TenantID req) (req_SessionID req) in
  match owner with
  | Fail err => Ret (result, Some err)
  | Ok owner =>
      call! now := Now in
      match owner with
      | Some owner =>
          if ReusableOwner owner record now
          then wake req owner (setDecision (MkDecision OutcomeReuseOwner (Some owner) None) result)
          else attachCandidates req record mode again result
      | None => attachCandidates req record mode again result
      end
  end.

(** The attempts: [remaining] more may follow this one, so recursion is on it. *)
Fixpoint attemptLoop (req : Request) (record : CatalogRecord) (mode : HostLinkAttachMode) (remaining : nat)
    (attempt : Z) (result : Result) : routine (Result * option error) :=
  let again :=
    match remaining with
    | O => None
    | S remaining => Some (attemptLoop req record mode remaining (attempt + 1))
    end in
  if 0 <? attempt then
    let result := incReplacements result in
    call! err := Wait (backoff cfg attempt) in
    match err with
    | Some err => Ret (result, Some err)
    | None => attemptBody req record mode again result
    end
  else attemptBody req record mode again result.

(** ** The throttled report *)
Definition incapableReportInterval : Z := 300000 * millisecond.
Definition maxIncapableReports : Z := 4096.

Record IncapableReport := MkReport {
  report_key : sessionKey;
  report_gates : Z;
  report_references : Z;
  report_principals : Z;
  report_hosts : list HostID;
  report_waiting : bool
}.

(** [Reconciler.reports], and the reports logged. *)
Record reporter := MkReporter { reports : gmap sessionKey time; logged : list IncapableReport }.

Definition reportIncapable (req : Request) (result : Result) (rep : reporter) : routine reporter :=
  match res_Incapable result with
  | [] => Ret rep
  | _ =>
      let key := req_key req in
      call! now := Now in
      let throttled :=
        match reports rep !! key with
        | Some last => now - last <? incapableReportInterval
        | None => false
        end in
      if throttled then Ret rep
      else
        let kept :=
          if maxIncapableReports <=? Z.of_nat (size (reports rep))
          then filter (fun kv => now - kv.2 < incapableReportInterval) (reports rep)
          else reports rep in
        let kept := if Z.of_nat (size kept) <? maxIncapableReports then <[key := now]> kept else kept in
        Ret (MkReporter kept
               (logged rep ++
                [MkReport key (Z.of_nat (length (req_GateResponses req))) (Z.of_nat (length (req_PayloadReferences req)))
                   (Z.of_nat (length (req_PrincipalCommands req))) (res_Incapable result)
                   (negb (bool_decide (d_Outcome (res_Decision result) = OutcomeAttachPooled)))]))
  end.

(** [placePooled] without its deferred report. *)
Definition placePooled_body (req : Request) (writes : Z) : routine (Result * option error) :=
  let result := setWrites writes zeroResult in
  call! entry := GetCatalogEntry (req_TenantID req) (req_SessionID req) in
  match entry with
  | Fail err => Ret (result, Some err)
  | Ok entry =>
      let record := entry_Record entry in
      if bool_decide (rec_DesiredPlacement record = HostPlacementPooled)
      then attemptLoop req record (attachMode record) (Z.to_nat (replaceAttempts cfg - 1)) 0 result
      else Ret (setDecision undecided result, None)
  end.

(** The deferred report reads [Incapable] and the outcome, which the binding
    that ends a placement leaves alone ([bindAndDeliver_frame]). *)
Definition placePooled (req : Request) (writes : Z) (rep : reporter) : routine ((Result * option error) * reporter) :=
  let! out := placePooled_body req writes in
  let! rep := reportIncapable req out.1 rep in
  Ret (out, rep).

(** ** Dedicated placement *)
Definition stillIntended (record : CatalogRecord) (intent : PlacementIntent) : bool :=
  bool_decide (rec_DesiredPlacement record = HostPlacementDedicated) &&
  (rec_DesiredGeneration record =? intent_Generation intent).

(** The re-read before every step that depends on the intent. *)
Definition rereadDedicated (req : Request) (intent : PlacementIntent) (result : Result)
    (k : CatalogRecord -> routine (Result * option error)) : routine (Result * option error) :=
  call! entry := GetCatalogEntry (req_TenantID req) (req_SessionID req) in
  match entry with
  | Fail err => Ret (result, Some err)
  | Ok entry =>
      if stillIntended (entry_Record entry) intent then k (entry_Record entry)
      else Ret (setDecision undecided result, None)
  end.

Definition gateDedicated (cap : capability) (pending : list CommandID) (req : Request) (intent : PlacementIntent)
    (endpoint : DedicatedEndpoint) (result : Result) (record : CatalogRecord)
    (k : CatalogRecord -> routine (Result * option error)) : routine (Result * option error) :=
  match pending with
  | [] => k record
  | _ =>
      let host := ded_HostID endpoint in
      call! answer := Accepts cap (probe req host (ded_HostGeneration endpoint) (ded_InternalEndpoint endpoint)) in
      match classifyGateCapability answer with
      | gateUnaddressable => Ret (addUnaddressable host result, None)
      | gateUnreachable => Ret (addUnreachable host result, None)
      | gateAbort => Ret (result, answerError answer)
      | gateIncapable => Ret (addIncapable host result, None)
      | gateCapable => rereadDedicated req intent result k
      end
  end.

Definition ownerDecision (owner : HostLinkRegistryObservation) : Decision_ :=
  MkDecision OutcomeReuseOwner (Some owner) None.

Definition reusable (record : CatalogRecord) (intent : PlacementIntent) (now : time) (owner : HostLinkRegistryObservation) : bool :=
  ReusableOwner owner record now && (obs_HostGeneration owner =? intent_Generation intent).

(** The attach to the workload's endpoint and its answers. *)
Definition attachDedicated (req : Request) (intent : PlacementIntent) (endpoint : DedicatedEndpoint) (result : Result)
    (record : CatalogRecord) : routine (Result * option error) :=
  let host := ded_HostID endpoint in
  let candidate := CapacityReport host (ded_HostGeneration endpoint) "" "" (HostPlacementOther "")
    (HostIsolationClassOther "") false 0 "" in
  call! attached := Attach (ded_InternalEndpoint endpoint) (attachRequest record candidate (attachMode record) (ActorID cfg)) in
  match attached with
  | Ok observation =>
      let invalid := Ret (result, Some (wrapf [ErrDedicatedObservationInvalid])) in
      match validateObservation observation with
      | Some _ => invalid
      | None =>
          call! now := Now in
          if ReusableOwner observation record now && bool_decide (obs_HostID observation = host) &&
             (obs_HostGeneration observation =? ded_HostGeneration endpoint) &&
             bool_decide (obs_InternalEndpoint observation = ded_InternalEndpoint endpoint)
          then bindAttached req observation (setAttached observation result)
          else invalid
      end
  | Fail err =>
      let '(answer, code) := attachAnswer (Some err) in
      let refusal := MkRefusal host (ded_HostGeneration endpoint) code in
      match answer with
      | answerStale =>
          let result := addRefused refusal result in
          call! current := Owner (req_TenantID req) (req_SessionID req) in
          match current with
          | Fail err => Ret (result, Some err)
          | Ok None => Ret (result, Some ErrRegistryStale)
          | Ok (Some current) =>
              call! now := Now in
              if reusable record intent now current
              then wake req current (setDecision (ownerDecision current) result)
              else Ret (result, Some ErrRegistryStale)
          end
      | answerRefused => Ret (addRefused refusal result, None)
      | answerUnsupported => Ret (addExcluded host result, Some ErrAttachUnsupported)
      | answerUnreachable => Ret (addUnreachable host result, None)
      | answerUnaddressable => Ret (addUnaddressable host result, None)
      | answerFailed => Ret (addFailed host result, None)
      | answerAccepted | answerAbort => Ret (result, Some err)
      end
  end.

(** From the discovery of the workload's endpoint on. *)
Definition discoverDedicated (req : Request) (intent : PlacementIntent) (result : Result) : routine (Result * option error) :=
  if negb (hasLinks cfg) then Ret (result, None)
  else if negb (hasDiscovery cfg) then Ret (result, Some ErrWorkloadEndpointUnsupported)
  else
    call! found := WorkloadEndpoint intent in
    match found with
    | Fail err => Ret (result, Some err)
    | Ok None => Ret (result, None)
    | Ok (Some endpoint) =>
        if bool_decide (is_Some (validateHostID (ded_HostID endpoint))) ||
           negb (ded_HostGeneration endpoint =? intent_Generation intent)
        then Ret (result, Some (wrapf [ErrDedicatedEndpointInvalid]))
        else
          match HostLinkEndpoint (ded_InternalEndpoint endpoint) (intent_TenantID intent) with
          | Fail err => Ret (result, Some (wrapf [ErrDedicatedEndpointInvalid; err]))
          | Ok _ =>
              rereadDedicated req intent result (fun record =>
              gateDedicated GateResponses (req_GateResponses req) req intent endpoint result record (fun record =>
              gateDedicated PayloadReferences (req_PayloadReferences req) req intent endpoint result record (fun record =>
              gateDedicated CommandPrincipal (req_PrincipalCommands req) req intent endpoint result record (fun record =>
              attachDedicated req intent endpoint result record))))
          end
    end.

(** [result.Intent] is [intent]. *)
Definition placeDedicated (req : Request) (intent : PlacementIntent) (result : Result) : routine (Result * option error) :=
  call! observed := ObserveWorkload intent in
  match observed with
  | Fail err => Ret (result, Some err)
  | Ok observed =>
      rereadDedicated req intent result (fun record =>
        call! owner := Owner (req_TenantID req) (req_SessionID req) in
        match owner with
        | Fail err => Ret (result, Some err)
        | Ok owner =>
            let placeObserved :=
              match observed with
              | None => discoverDedicated req intent result
              | Some observed =>
                  let invalid := Ret (result, Some (wrapf [ErrDedicatedObservationInvalid])) in
                  match validateObservation observed with
                  | Some _ => invalid
                  | None =>
                      call! now := Now in
                      if reusable record intent now observed
                      then wake req observed (setDecision (ownerDecision observed) result)
                      else invalid
                  end
              end in
            match owner with
            | None => placeObserved
            | Some owner =>
                call! now := Now in
                if reusable record intent now owner
                then wake req owner (setDecision (ownerDecision owner) result)
                else placeObserved
            end
        end)
  end.

(** ** Desired state *)
Definition catalogConflict (err : error) : bool := code_is "CatalogError" "CatalogErrorConflict" err.

Definition desiredUpdate (req : Request) (entry : CatalogEntry) (key : string) (desired : Desired) : UpdateCatalogDesiredStateRequest :=
  UpdateRequest (req_TenantID req) (req_SessionID req) (entry_Revision entry) key
    (des_Placement desired) (des_RuntimeCompatibilityID desired) (des_Workload desired).

(** [attempts] iterations remain, this one included. *)
Fixpoint ensureDesiredLoop (req : Request) (desired : Desired) (attempts : nat) (entry : CatalogEntry) (writes : Z)
    : routine (result CatalogEntry * Z) :=
  match attempts with
  | O => Ret (Ok entry, writes)
  | S attempts =>
      if storedDesired (entry_Record entry) desired then Ret (Ok entry, writes)
      else
        call! updated := UpdateCatalogDesiredState (desiredUpdate req entry (desiredKey req desired) desired) in
        match updated with
        | Ok updated => Ret (Ok updated, writes + 1)
        | Fail err =>
            if negb (catalogConflict err) || bool_decide (attempts = O) then Ret (Fail err, 0)
            else
              call! entry := GetCatalogEntry (req_TenantID req) (req_SessionID req) in
              match entry with
              | Fail err => Ret (Fail err, 0)
              | Ok entry => ensureDesiredLoop req desired attempts entry (writes + 1)
              end
        end
  end.

Definition ensureDesired (req : Request) (entry : CatalogEntry) (desired : Desired) : routine (result CatalogEntry * Z) :=
  ensureDesiredLoop req desired 2 entry 0.

Fixpoint reviveLoop (req : Request) (attempts : nat) (entry : CatalogEntry) (writes : Z)
    : routine (result CatalogEntry * Z) :=
  match attempts with
  | O => Ret (Ok entry, writes)
  | S attempts =>
      let record := entry_Record entry in
      if negb (released record) then Ret (Ok entry, writes)
      else
        match launchTemplate record with
        | None => Ret (Fail (wrapf [ErrNoLaunchTemplate]), writes)
        | Some template =>
            let desired := MkDesired (rec_DesiredPlacement record) (rec_RuntimeCompatibilityID record) template in
            call! updated := UpdateCatalogDesiredState
              (desiredUpdate req entry (reviveKey req desired (rec_DesiredGeneration record)) desired) in
            match updated with
            | Ok updated => Ret (Ok updated, writes + 1)
            | Fail err =>
                if negb (catalogConflict err) || bool_decide (attempts = O) then Ret (Fail err, writes + 1)
                else
                  call! entry := GetCatalogEntry (req_TenantID req) (req_SessionID req) in
                  match entry with
                  | Fail err => Ret (Fail err, writes + 1)
                  | Ok entry => reviveLoop req attempts entry (writes + 1)
                  end
            end
        end
  end.

Definition reviveReleased (req : Request) (entry : CatalogEntry) : routine (result CatalogEntry * Z) :=
  reviveLoop req 2 entry 0.

(** ** The reconciliation *)

(** [claim]: taken, held until an instant, or failed. *)
Inductive claimed := Claimed | HeldUntil (expiresAt : time) | ClaimFailed (err : error).

Definition claim (req : Request) (now : time) : routine claimed :=
  call! err := AcquireReconciliationClaim (req_TenantID req) (req_SessionID req) (HolderID cfg) (now + ClaimTTL cfg) in
  match err with
  | None => Ret Claimed
  | Some err =>
      match errors_as "ReconcileError" err with
      | Some (Typed _ code _ expiresAt) =>
          if bool_decide (code = "ReconcileErrorHeld"%string) then Ret (HeldUntil expiresAt) else Ret (ClaimFailed err)
      | _ => Ret (ClaimFailed err)
      end
  end.

(** The owner a routing read may return: reusable, and for a dedicated session
    of the generation the record desires. *)
Definition routable (record : CatalogRecord) (owner : option HostLinkRegistryObservation) (now : time)
    : option HostLinkRegistryObservation :=
  if bool_decide (d_Outcome (Decide record owner [] now) = OutcomeReuseOwner) then
    match owner with
    | Some o =>
        if negb (bool_decide (rec_DesiredPlacement record = HostPlacementDedicated)) ||
           (obs_HostGeneration o =? rec_DesiredGeneration record)
        then Some o else None
    | None => None
    end
  else None.

Definition deferToHolder (req : Request) (heldUntil : time) : routine (Result * option error) :=
  call! entry := GetCatalogEntry (req_TenantID req) (req_SessionID req) in
  match entry with
  | Fail err => Ret (zeroResult, Some err)
  | Ok entry =>
      call! owner := Owner (req_TenantID req) (req_SessionID req) in
      match owner with
      | Fail err => Ret (zeroResult, Some err)
      | Ok owner =>
          call! now := Now in
          match routable (entry_Record entry) owner now with
          | Some o => Ret (setDecision (ownerDecision o) zeroResult, None)
          | None => Ret (setDeferred heldUntil zeroResult, None)
          end
      end
  end.

(** The switch on the desired placement. *)
Definition place (req : Request) (record : CatalogRecord) (owner : option HostLinkRegistryObservation) (now : time)
    (writes : Z) (rep : reporter) : routine ((Result * option error) * reporter) :=
  let done out := Ret (out, rep) in
  match rec_DesiredPlacement record with
  | HostPlacementPooled =>
      if hasLinks cfg then placePooled req writes rep
      else
        call! page := Candidates (targetKey record (CandidateLimit cfg)) in
        match page with
        | Fail err => done (zeroResult, Some err)
        | Ok page => done (setWrites writes (setDecision (Decide record owner (tpage_Targets page) now) zeroResult), None)
        end
  | HostPlacementDedicated =>
      if released record then done (setWrites writes zeroResult, Some ErrSessionReleased)
      else if negb (hasWorkloads cfg) then done (zeroResult, Some ErrNoWorkloadController)
      else
        match placementIntent record with
        | Fail err => done (zeroResult, Some err)
        | Ok intent =>
            call! err := EnsureWorkload intent in
            match err with
            | Some err => done (zeroResult, Some err)
            | None =>
                let! out := placeDedicated req intent
                  (setIntent intent (setWrites writes (setDecision (MkDecision OutcomeReconcileDedicated None None) zeroResult))) in
                done out
            end
        end
  | HostPlacementOther _ => done (setWrites writes zeroResult, None)
  end.

(** What [Reconcile] does while it holds the claim. *)
Definition underClaim (req : Request) (owner : option HostLinkRegistryObservation) (now : time) (rep : reporter)
    : routine ((Result * option error) * reporter) :=
  let failed err := Ret ((zeroResult, Some err), rep) in
  call! entry := GetCatalogEntry (req_TenantID req) (req_SessionID req) in
  match entry with
  | Fail err => failed err
  | Ok entry =>
      let! (ensured, writes) :=
        match req_Desired req with
        | Some desired => ensureDesired req entry desired
        | None => Ret (Ok entry, 0)
        end in
      match ensured with
      | Fail err => failed err
      | Ok entry =>
          let! (restored, revived) :=
            if req_RestoreRequested req then reviveReleased req entry else Ret (Ok entry, 0) in
          match restored with
          | Fail err => failed err
          | Ok entry => place req (entry_Record entry) owner now (writes + revived) rep
          end
      end
  end.

Definition Reconcile (req : Request) (rep : reporter) : routine ((Result * option error) * reporter) :=
  let tenant := req_TenantID req in
  let session := req_SessionID req in
  call! entry := GetCatalogEntry tenant session in
  match entry with
  | Fail err => Ret ((zeroResult, Some err), rep)
  | Ok entry =>
      call! owner := Owner tenant session in
      match owner with
      | Fail err => Ret ((zeroResult, Some err), rep)
      | Ok owner =>
          call! now := Now in
          match routable (entry_Record entry) owner now with
          | Some o =>
              let! out := wake req o (setDecision (ownerDecision o) zeroResult) in Ret (out, rep)
          | None =>
              let! held := claim req now in
              match held with
              | ClaimFailed err => Ret ((zeroResult, Some err), rep)
              | HeldUntil expiresAt => let! out := deferToHolder req expiresAt in Ret (out, rep)
              | Claimed =>
                  let! out := underClaim req owner now rep in
                  call! _ := ReleaseReconciliationClaim tenant session (HolderID cfg) in
                  Ret out
              end
          end
      end
  end.
End Reconciler.

#[global] Arguments gatePooled : simpl never.
#[global] Arguments attachAnswer : simpl never.

(** * Proofs *)

(** ** Which calls are made where *)

(** The claim's own two calls. *)
Definition is_claim_call (e : event request) : bool :=
  match e with
  | Ev _ c _ =>
      match c with
      | AcquireReconciliationClaim _ _ _ _ | ReleaseReconciliationClaim _ _ _ => true
      | _ => false
      end
  end.

Definition is_update (e : event request) : bool :=
  match e with Ev _ c _ => match c with UpdateCatalogDesiredState _ => true | _ => false end end.

Definition is_attach (e : event request) : bool :=
  match e with Ev _ c _ => match c with Attach _ _ => true | _ => false end end.

(** The calls that scale: they change desired state, start a workload or attach
    a session. *)
Definition is_scaling (e : event request) : bool :=
  match e with
  | Ev _ c _ =>
      match c with
      | UpdateCatalogDesiredState _ | EnsureWorkload _ | Attach _ _ => true
      | _ => false
      end
  end.

(** The classes of calls the lemmas below sort routines into. *)
Definition quiet (e : event request) : Prop := is_claim_call e = false /\ is_scaling e = false.
Definition inner (e : event request) : Prop := is_claim_call e = false.
Definition placing (e : event request) : Prop := is_claim_call e = false /\ is_update e = false.

Lemma quiet_inner e : quiet e -> inner e.
Proof. by intros [? _]. Qed.
Lemma quiet_placing e : quiet e -> placing e.
Proof. intros [? Hs]. split; [done|]. by destruct e as [R []]. Qed.
Lemma placing_inner e : placing e -> inner e.
Proof. by intros [? _]. Qed.

Section Calls.
Context `{PlacementPrimitives} (cfg : Config).

Lemma screen_quiet cap listed command observation memo :
  only quiet (screen cap listed command observation memo).
Proof. unfold screen. walk_only. Qed.

Lemma deliverLoop_quiet req observation wake memo result :
  only quiet (deliverLoop req observation wake memo result).
Proof.
  revert memo result. induction wake as [|command wake IH]; intros memo result; simpl; [apply only_ret|].
  repeat first [apply screen_quiet | apply IH | progress walk_only].
Qed.

Lemma bindAndDeliver_quiet req observation result attached :
  only quiet (bindAndDeliver req observation result attached).
Proof. unfold bindAndDeliver. repeat first [apply deliverLoop_quiet | progress walk_only]. Qed.

Lemma wake_quiet req owner result : only quiet (wake cfg req owner result).
Proof. unfold wake. case_match; [apply only_ret|apply bindAndDeliver_quiet]. Qed.

Lemma reportIncapable_quiet req result rep : only quiet (reportIncapable req result rep).
Proof. unfold reportIncapable. walk_only. Qed.

Lemma deferToHolder_quiet req heldUntil : only quiet (deferToHolder req heldUntil).
Proof. unfold deferToHolder. walk_only. Qed.

Lemma bindAndDeliver_placing req observation result attached :
  only placing (bindAndDeliver req observation result attached).
Proof. eapply only_mono; [apply quiet_placing|apply bindAndDeliver_quiet]. Qed.

Lemma wake_placing req owner result : only placing (wake cfg req owner result).
Proof. eapply only_mono; [apply quiet_placing|apply wake_quiet]. Qed.

Lemma gatePooled_only P cap pending req candidate result skip capable :
  (forall o a, P (Ev _ (Accepts cap o) a)) -> (forall r, only P (skip r)) -> only P capable ->
  only P (gatePooled cap pending req candidate result skip capable).
Proof.
  intros HP Hs Hc. unfold gatePooled. destruct pending; [done|].
  apply only_call; [auto|]. intros answer. case_match; auto using only_ret.
Qed.

Lemma candidatesLoop_placing req record mode hosts result :
  only placing (candidatesLoop cfg req record mode hosts result).
Proof.
  revert result. induction hosts as [|candidate hosts IH]; intros result; simpl; [apply only_ret|].
  case_match; [apply IH|].
  do 3 (apply gatePooled_only; [done|done|]). unfold bindAttached.
  repeat first [apply IH | apply bindAndDeliver_placing | progress walk_only].
Qed.

Lemma attemptBody_only (P : event request -> Prop) req record mode again result :
  (forall e, placing e -> P e) ->
  (forall again', again = Some again' -> forall r, only P (again' r)) ->
  only P (attemptBody cfg req record mode again result).
Proof.
  intros HP Hagain. unfold attemptBody, attachCandidates.
  repeat first [by apply (Hagain _ eq_refl) | eapply only_mono; [exact HP|apply wake_placing]
               | eapply only_mono; [exact HP|apply candidatesLoop_placing]
               | apply only_call; [intros ?; by apply HP|intros ?] | progress walk_only].
Qed.

Lemma attemptLoop_placing req record mode remaining attempt result :
  only placing (attemptLoop cfg req record mode remaining attempt result).
Proof.
  revert attempt result. induction remaining as [|remaining IH]; intros attempt result; simpl; walk_only;
    (apply attemptBody_only; [done|]; intros again' Heq; simplify_eq; intros r; apply IH).
Qed.

Lemma placePooled_placing req writes rep : only placing (placePooled cfg req writes rep).
Proof.
  unfold placePooled, placePooled_body.
  repeat first [apply attemptLoop_placing | eapply only_mono; [apply quiet_placing|apply reportIncapable_quiet]
               | progress walk_only].
Qed.

Lemma rereadDedicated_only P req intent result k :
  (forall a, P (Ev _ (GetCatalogEntry (req_TenantID req) (req_SessionID req)) a)) -> (forall r, only P (k r)) ->
  only P (rereadDedicated req intent result k).
Proof.
  intros HP Hk. unfold rereadDedicated. apply only_call; [done|]. intros entry.
  repeat case_match; auto using only_ret.
Qed.

Lemma gateDedicated_placing cap pending req intent endpoint result record k :
  (forall r, only placing (k r)) -> only placing (gateDedicated cap pending req intent endpoint result record k).
Proof.
  intros Hk. unfold gateDedicated. destruct pending; [done|]. apply only_call; [done|].
  intros answer. case_match; try apply only_ret. by apply rereadDedicated_only.
Qed.

Lemma attachDedicated_placing req intent endpoint result record :
  only placing (attachDedicated cfg req intent endpoint result record).
Proof.
  unfold attachDedicated, bindAttached.
  repeat first [apply bindAndDeliver_placing | apply wake_placing | progress walk_only].
Qed.

Lemma discoverDedicated_placing req intent result : only placing (discoverDedicated cfg req intent result).
Proof.
  unfold discoverDedicated. walk_only. apply rereadDedicated_only; [done|intros record1].
  do 3 (apply gateDedicated_placing; intros ?). apply attachDedicated_placing.
Qed.

Lemma placeDedicated_placing req intent result : only placing (placeDedicated cfg req intent result).
Proof.
  unfold placeDedicated. walk_only. apply rereadDedicated_only; [done|intros record].
  repeat first [apply discoverDedicated_placing | apply wake_placing | progress walk_only].
Qed.

Lemma place_placing req record owner now writes rep : only placing (place cfg req record owner now writes rep).
Proof.
  unfold place. repeat first [apply placePooled_placing | apply placeDedicated_placing | progress walk_only].
Qed.

Lemma ensureDesired_inner req entry desired : only inner (ensureDesired req entry desired).
Proof. unfold ensureDesired, ensureDesiredLoop. walk_only. Qed.

Lemma reviveReleased_inner req entry : only inner (reviveReleased req entry).
Proof. unfold reviveReleased, reviveLoop. walk_only. Qed.

Lemma underClaim_inner req owner now rep : only inner (underClaim cfg req owner now rep).
Proof.
  unfold underClaim.
  repeat first [apply ensureDesired_inner | apply reviveReleased_inner
               | eapply only_mono; [apply placing_inner|apply place_placing] | progress walk_only].
Qed.
End Calls.

(** ** The claim brackets the work *)

(** [bracketed held t]: reading the calls in order, a claim is acquired at most
    while none is held, always for the request's session and by this replica;
    the calls that scale happen only while it is held; a release gives back the
    held claim and is the last call; and no claim is left held. *)
Section Bracket.
Context (tenant : TenantID) (session : SessionID) (holder : string).

Definition names (t : TenantID) (s : SessionID) (h : string) : Prop := t = tenant /\ s = session /\ h = holder.

Fixpoint bracketed (held : bool) (t : list (event request)) : Prop :=
  match t with
  | [] => held = false
  | Ev _ c r :: t =>
      match c in request R return R -> Prop with
      | AcquireReconciliationClaim t0 s h _ =>
          fun r => held = false /\ names t0 s h /\ bracketed (match r with None => true | Some _ => false end) t
      | ReleaseReconciliationClaim t0 s h => fun _ => held = true /\ names t0 s h /\ t = []
      | UpdateCatalogDesiredState _ | EnsureWorkload _ => fun _ => held = true /\ bracketed held t
      | Attach _ _ => fun _ => held = true /\ bracketed held t
      | _ => fun _ => bracketed held t
      end r
  end.

Lemma bracketed_quiet held t u : Forall quiet t -> bracketed held u -> bracketed held (t ++ u).
Proof.
  induction 1 as [|e t [Hc Hs] _ IH]; simpl; [done|]. intros Hu. specialize (IH Hu).
  by destruct e as [R c r], c.
Qed.

Lemma bracketed_inner t u : Forall inner t -> bracketed true u -> bracketed true (t ++ u).
Proof.
  induction 1 as [|e t Hc _ IH]; simpl; [done|]. intros Hu. specialize (IH Hu).
  by destruct e as [R c r], c.
Qed.

Lemma wp_quiet_bracketed {A} (p : routine A) held :
  only quiet p -> held = false -> wp p (fun _ t => bracketed held t).
Proof.
  intros Hp ->. eapply wp_mono; [|exact Hp]. simpl. intros _ t Ht.
  rewrite <- (app_nil_r t). by apply bracketed_quiet.
Qed.
End Bracket.

Section ClaimBracket.
Context `{PlacementPrimitives} (cfg : Config).
Abbreviation req_bracketed req := (bracketed (req_TenantID req) (req_SessionID req) (HolderID cfg)).

Lemma wp_quiet_ret {A B} (p : routine A) (f : A -> B) held req :
  only quiet p -> held = false -> wp (bind p (fun a => Ret (f a))) (fun _ t => req_bracketed req held t).
Proof. intros Hp Hh. apply wp_quiet_bracketed; [|done]. apply only_bind; [done|]. intros. apply only_ret. Qed.

Lemma underClaim_bracketed req owner now rep :
  wp (let! out := underClaim cfg req owner now rep in
      call! _ := ReleaseReconciliationClaim (req_TenantID req) (req_SessionID req) (HolderID cfg) in Ret out)
     (fun _ t => req_bracketed req true t).
Proof.
  eapply wp_seq; [apply underClaim_inner|]. intros out t Ht r. simpl. by apply bracketed_inner.
Qed.

Lemma Reconcile_bracketed req rep : wp (Reconcile cfg req rep) (fun _ t => req_bracketed req false t).
Proof.
  unfold Reconcile. intros [entry|err]; [|done]. intros [owner|err]; [|done]. intros now.
  destruct (routable _ owner now) as [o|].
  { simpl. apply wp_quiet_ret; [apply wake_quiet|done]. }
  apply wp_bind. unfold claim. intros [err|].
  - repeat case_match; try (by simpl).
    apply wp_ret. cbv beta iota. eapply wp_mono; [|apply (wp_quiet_ret _ _ false req (deferToHolder_quiet req _) eq_refl)]. by simpl.
  - apply wp_ret. cbv beta iota. eapply wp_mono; [|apply underClaim_bracketed]. by simpl.
Qed.
End ClaimBracket.

(** C9: whatever the stores, the Hosts, the workload controller and the
    clock answer, the calls of one [Reconcile] are bracketed by the session's
    reconciliation claim: desired state is written, a workload ensured and a
    session attached only after this replica acquired the claim for that very
    session; a claim it acquired is released exactly once, as the last call, on
    every error path too; and a reconciliation that finds a live owner or loses
    the claim scales nothing. *)
Theorem reconcile_scales_only_under_claim `{PlacementPrimitives} (cfg : Config) {W} (h : handler request W) (w : W)
    (req : Request) (rep : reporter) :
  bracketed (req_TenantID req) (req_SessionID req) (HolderID cfg) false (run h (Reconcile cfg req rep) w).1.2.
Proof. exact (wp_run h (Reconcile cfg req rep) _ w (Reconcile_bracketed cfg req rep)). Qed.

(** ** Desired-state writes *)

(** The revision of the entry the catalog answered last. *)
Definition answered (last : option Z) (answer : result CatalogEntry) : option Z :=
  match answer with Ok entry => Some (entry_Revision entry) | Fail _ => last end.

Fixpoint lastRead (last : option Z) (t : list (event request)) : option Z :=
  match t with
  | [] => last
  | Ev _ c r :: t =>
      match c in request R return R -> option Z with
      | GetCatalogEntry _ _ | UpdateCatalogDesiredState _ => fun r => lastRead (answered last r) t
      | _ => fun _ => lastRead last t
      end r
  end.

(** Every write expects the revision of the entry the catalog answered last. *)
Fixpoint fenced (last : option Z) (t : list (event request)) : Prop :=
  match t with
  | [] => True
  | Ev _ c r :: t =>
      match c in request R return R -> Prop with
      | GetCatalogEntry _ _ => fun r => fenced (answered last r) t
      | UpdateCatalogDesiredState req => fun r => last = Some (upd_ExpectedRevision req) /\ fenced (answered last r) t
      | _ => fun _ => fenced last t
      end r
  end.

Lemma fenced_app last t u : fenced last t -> fenced (lastRead last t) u -> fenced last (t ++ u).
Proof.
  revert last. induction t as [|[R c r] t IH]; simpl; intros last Ht Hu; [done|].
  destruct c; try (by apply IH). destruct Ht. split; [done|]. by apply IH.
Qed.

Lemma fenced_placing last t : Forall placing t -> fenced last t.
Proof.
  intros Ht. revert last. induction Ht as [|e t [_ Hu] _ IH]; intros last; simpl; [done|].
  destruct e as [R c r], c; done || apply IH.
Qed.

Lemma placing_no_update t : Forall placing t -> tally is_update t = 0.
Proof. intros Ht. apply tally_none. eapply Forall_impl; [exact Ht|]. by intros e [_ ?]. Qed.

(** What a routine that settles an entry did: its writes were fenced, at most
    [n], and on success counted, and the entry it returns is the last answer. *)
Definition settles (n : Z) (last : option Z) (out : result CatalogEntry * Z) (t : list (event request)) : Prop :=
  fenced last t /\ tally is_update t <= n /\
  (forall entry, out.1 = Ok entry -> out.2 = tally is_update t /\ lastRead last t = Some (entry_Revision entry)).

Section Writes.
Context `{PlacementPrimitives} (cfg : Config).

Ltac settle := repeat split; simpl in *; autorewrite with tally; simpl; intros; simplify_eq; done || lia.

Lemma ensureDesired_settles req entry desired :
  wp (ensureDesired req entry desired) (settles 2 (Some (entry_Revision entry))).
Proof.
  unfold ensureDesired, ensureDesiredLoop.
  repeat (case_match; simpl; try (intros ?)); settle.
Qed.

Lemma reviveReleased_settles req entry :
  wp (reviveReleased req entry) (settles 2 (Some (entry_Revision entry))).
Proof.
  unfold reviveReleased, reviveLoop.
  repeat (case_match; simpl; try (intros ?)); settle.
Qed.

(** The members of the result that binding and delivering leave alone. *)
Definition framed_by (r : Result) (out : Result) : Prop :=
  res_DesiredWrites out = res_DesiredWrites r /\ res_Decision out = res_Decision r /\
  res_Incapable out = res_Incapable r /\ res_Attached out = res_Attached r.

Lemma framed_by_trans r1 r2 r3 : framed_by r1 r2 -> framed_by r2 r3 -> framed_by r1 r3.
Proof. unfold framed_by. intuition congruence. Qed.

Definition woken (r : Result) (out : Result) : Prop := framed_by r out /\ res_Bound out = res_Bound r.

Lemma woken_trans r1 r2 r3 : woken r1 r2 -> woken r2 r3 -> woken r1 r3.
Proof. intros [? ?] [? ?]. split; [by eapply framed_by_trans|congruence]. Qed.

Lemma deliverLoop_frame req observation wake memo result :
  returns (woken result) (deliverLoop req observation wake memo result).
Proof.
  revert memo result. induction wake as [|command wake IH]; intros memo result; simpl; [by apply returns_ret|].
  assert (Hstep : forall memo r, woken result r -> returns (woken result) (deliverLoop req observation wake memo r)).
  { intros memo' r Hr. eapply wp_mono; [|apply IH]. simpl. intros out _. by apply woken_trans. }
  do 3 (eapply returns_bind; [apply returns_any|]; intros [[] ?] _; simpl;
        [|apply Hstep; by destruct result]).
  intros err. apply Hstep. by destruct err, result.
Qed.

Lemma bindAndDeliver_frame req observation result attached :
  returns (fun out => framed_by result out.1) (bindAndDeliver req observation result attached).
Proof.
  unfold bindAndDeliver. walk_returns; [by apply returns_ret|].
  eapply returns_bind; [apply deliverLoop_frame|]. intros out [Hr _].
  assert (framed_by result out) by (eapply framed_by_trans; [|exact Hr]; by destruct result).
  walk_returns; by apply returns_ret.
Qed.

Lemma wake_frame req owner result :
  returns (fun out => framed_by result out.1) (wake cfg req owner result).
Proof. unfold wake. case_match; [by apply returns_ret|apply bindAndDeliver_frame]. Qed.

(** Every result of a placement carries the writes made before it. *)
Definition carries (n : Z) (out : Result * option error) : Prop := res_DesiredWrites out.1 = n.
Definition pass_carries (n : Z) (p : pass) : Prop :=
  match p with Return out => carries n out | Swept r _ => res_DesiredWrites r = n end.

Lemma framed_carries {req owner r n} attached :
  res_DesiredWrites r = n -> returns (carries n) (bindAndDeliver req owner r attached).
Proof. intros <-. eapply wp_mono; [|apply bindAndDeliver_frame]. by intros out _ [? _]. Qed.

Lemma wake_carries req owner r n : res_DesiredWrites r = n -> returns (carries n) (wake cfg req owner r).
Proof. intros <-. eapply wp_mono; [|apply wake_frame]. by intros out _ [? _]. Qed.

Lemma gatePooled_carries n cap pending req candidate r skip capable :
  res_DesiredWrites r = n ->
  (forall r, res_DesiredWrites r = n -> returns (pass_carries n) (skip r)) -> returns (pass_carries n) capable ->
  returns (pass_carries n) (gatePooled cap pending req candidate r skip capable).
Proof.
  intros Hr Hs Hc. unfold gatePooled. destruct pending; [done|]. apply returns_call. intros answer.
  case_match; try done; apply Hs; by destruct r.
Qed.

Lemma candidatesLoop_carries n req record mode hosts r :
  res_DesiredWrites r = n -> returns (pass_carries n) (candidatesLoop cfg req record mode hosts r).
Proof.
  revert r. induction hosts as [|candidate hosts IH]; intros r Hr; simpl; [done|].
  case_match; [by apply IH|]. do 3 (apply gatePooled_carries; [done|auto|]).
  apply returns_call. intros [observation|err].
  - eapply returns_bind; [apply (framed_carries (n := n) true); by destruct r|]. done.
  - destruct (attachAnswer (Some err)) as [a code].
    destruct a; first [by destruct r | apply IH; by destruct r].
Qed.

Lemma attemptBody_carries n req record mode again r :
  res_DesiredWrites r = n ->
  (forall again', again = Some again' -> forall r, res_DesiredWrites r = n -> returns (carries n) (again' r)) ->
  returns (carries n) (attemptBody cfg req record mode again r).
Proof.
  intros Hr Hagain. unfold attemptBody. apply returns_call. intros [owner|err]; [|done].
  apply returns_call. intros now.
  assert (Hattach : returns (carries n) (attachCandidates cfg req record mode again r)).
  { apply returns_call. intros [page|err]; [|done].
    eapply returns_bind; [by apply candidatesLoop_carries|]. intros [out|r' []] Hp; simpl in Hp; [done| |by destruct r'].
    destruct again as [again|]; [by apply (Hagain again)|by destruct r']. }
  destruct owner as [owner|]; [|exact Hattach]. destruct (ReusableOwner owner record now); [|exact Hattach].
  apply wake_carries. by destruct r.
Qed.

Lemma attemptLoop_carries n req record mode remaining attempt r :
  res_DesiredWrites r = n -> returns (carries n) (attemptLoop cfg req record mode remaining attempt r).
Proof.
  revert attempt r. induction remaining as [|remaining IH]; intros attempt r Hr; simpl;
  (case_match; [apply returns_call; intros [err|]; [by destruct r|]|];
   (apply attemptBody_carries; [by destruct r|intros again' Heq r' Hr'; simplify_eq; by apply IH])).
Qed.

Lemma rereadDedicated_carries n req intent r k :
  res_DesiredWrites r = n -> (forall record, returns (carries n) (k record)) ->
  returns (carries n) (rereadDedicated req intent r k).
Proof.
  intros Hr Hk. unfold rereadDedicated. apply returns_call. intros [entry|err]; [|done].
  case_match; [done|by destruct r].
Qed.

Lemma gateDedicated_carries n cap pending req intent endpoint r record k :
  res_DesiredWrites r = n -> (forall record, returns (carries n) (k record)) ->
  returns (carries n) (gateDedicated cap pending req intent endpoint r record k).
Proof.
  intros Hr Hk. unfold gateDedicated. destruct pending; [done|]. apply returns_call. intros answer.
  case_match; try (by destruct r). by apply rereadDedicated_carries.
Qed.

Lemma attachDedicated_carries n req intent endpoint r record :
  res_DesiredWrites r = n -> returns (carries n) (attachDedicated cfg req intent endpoint r record).
Proof.
  intros Hr. unfold attachDedicated. apply returns_call. intros [observation|err].
  - walk_returns; try done. apply framed_carries. by destruct r.
  - destruct (attachAnswer (Some err)) as [a code]. destruct a; try (by destruct r).
    apply returns_call. intros [[current|]|err']; try (by destruct r).
    apply returns_call. intros now. case_match; [|by destruct r]. apply wake_carries. by destruct r.
Qed.

Lemma discoverDedicated_carries n req intent r :
  res_DesiredWrites r = n -> returns (carries n) (discoverDedicated cfg req intent r).
Proof.
  intros Hr. unfold discoverDedicated. walk_returns; try done.
  apply rereadDedicated_carries; [done|intros record].
  do 3 (apply gateDedicated_carries; [done|intros ?]). by apply attachDedicated_carries.
Qed.

Lemma placeDedicated_carries n req intent r :
  res_DesiredWrites r = n -> returns (carries n) (placeDedicated cfg req intent r).
Proof.
  intros Hr. unfold placeDedicated. apply returns_call. intros [observed|err]; [|done].
  apply rereadDedicated_carries; [done|intros record]. walk_returns; try done;
    first [by apply discoverDedicated_carries | apply wake_carries; by destruct r].
Qed.

Lemma place_carries req record owner now writes rep :
  returns (fun out => out.1.2 = None -> carries writes out.1) (place cfg req record owner now writes rep).
Proof.
  assert (Hret : forall (p : routine (Result * option error)), returns (carries writes) p ->
    returns (fun out : (Result * option error) * reporter => out.1.2 = None -> carries writes out.1)
      (let! out := p in Ret (out, rep))).
  { intros p Hp. eapply returns_bind; [exact Hp|]. intros out Hout. by apply returns_ret. }
  unfold place. walk_returns; try done; [by apply Hret, placeDedicated_carries|].
  unfold placePooled. eapply returns_bind with (P := carries writes).
  - unfold placePooled_body. walk_returns; try done. by apply attemptLoop_carries.
  - intros out Hout. eapply returns_bind; [apply returns_any|]. intros rep' _. by apply returns_ret.
Qed.

(** What a whole reconciliation says about its writes. *)
Definition accounted (last : option Z) (before bound : Z) (out : (Result * option error) * reporter)
    (t : list (event request)) : Prop :=
  fenced last t /\ tally is_update t <= bound /\
  (out.1.2 = None -> res_DesiredWrites out.1.1 = before + tally is_update t).

Lemma placing_accounted {p : routine ((Result * option error) * reporter)} {last writes} bound :
  0 <= bound -> only placing p -> returns (fun out => out.1.2 = None -> carries writes out.1) p ->
  wp p (accounted last writes bound).
Proof.
  intros Hb Ho Hr. eapply wp_mono; [|apply (wp_and _ _ _ Ho Hr)]. simpl. intros out t [Ht Hout].
  pose proof (placing_no_update t Ht) as Hn.
  split; [by apply fenced_placing|]. rewrite Hn. split; [done|]. intros He. rewrite (Hout He). lia.
Qed.

(** Sequencing after a routine that settles an entry. *)
Lemma settles_seq last writes n bound (p : routine (result CatalogEntry * Z)) k :
  0 <= bound -> wp p (settles n last) ->
  (forall err w, wp (k (Fail err, w)) (fun out t => t = [] /\ out.1.2 <> None)) ->
  (forall entry w, wp (k (Ok entry, w)) (accounted (Some (entry_Revision entry)) (writes + w) bound)) ->
  wp (bind p k) (accounted last writes (n + bound)).
Proof.
  intros Hb Hp Hfail Hok. eapply wp_seq; [exact Hp|]. intros [[entry|err] w] t (Hf & Hn & Hs).
  - destruct (Hs entry eq_refl) as [Hw Hl]. eapply wp_mono; [|apply Hok]. simpl in *.
    intros out u (Hf' & Hn' & Ho). unfold accounted. rewrite tally_app. split_and!; [|lia|intros He; rewrite (Ho He); lia].
    apply fenced_app; [done|]. by rewrite Hl.
  - eapply wp_mono; [|apply Hfail]. simpl. intros out u [-> He]. rewrite app_nil_r.
    unfold accounted. split_and!; [done|lia|done].
Qed.

Lemma underClaim_accounted req owner now rep last :
  wp (underClaim cfg req owner now rep) (accounted last 0 4).
Proof.
  unfold underClaim. intros [entry|err]; [|by repeat split; autorewrite with tally].
  assert (Hid : forall e : CatalogEntry, wp (Ret (Ok e, 0) : routine _) (settles 2 (Some (entry_Revision e)))).
  { intros e. repeat split; simpl in *; simplify_eq; by autorewrite with tally. }
  apply wp_mono with (Q := accounted (Some (entry_Revision entry)) 0 4).
  { intros out t (Hf & Hn & Ho). unfold accounted. by autorewrite with tally. }
  apply (settles_seq _ 0 2 2); [done|destruct (req_Desired req); [apply ensureDesired_settles|apply Hid]|done|].
  intros entry1 w1. apply (settles_seq _ _ 2 0); [done| |done|].
  { destruct (req_RestoreRequested req); [apply reviveReleased_settles|apply Hid]. }
  intros entry2 w2. apply placing_accounted; [done|apply place_placing|apply place_carries].
Qed.
End Writes.

Section ReconcileWrites.
Context `{PlacementPrimitives} (cfg : Config).

(** Calls before the claimed part: none is a write. *)
Lemma accounted_quiet last bound {p : routine (Result * option error)} (rep : reporter) :
  0 <= bound -> only quiet p -> returns (fun out => out.2 = None -> res_DesiredWrites out.1 = 0) p ->
  wp (let! out := p in Ret (out, rep)) (accounted last 0 bound).
Proof.
  intros Hb Ho Hr. apply (placing_accounted bound Hb).
  - apply only_bind; [|intros; apply only_ret]. eapply only_mono; [apply quiet_placing|done].
  - eapply returns_bind; [exact Hr|]. intros out Hout. by apply returns_ret.
Qed.

Lemma Reconcile_accounted req rep : wp (Reconcile cfg req rep) (accounted None 0 4).
Proof.
  unfold Reconcile. intros [entry|err]; [|by repeat split; autorewrite with tally].
  intros [owner|err]; [|by repeat split; autorewrite with tally]. intros now.
  eapply wp_mono with (Q := accounted (Some (entry_Revision entry)) 0 4).
  { intros out t Ha. unfold accounted in *. by autorewrite with tally. }
  destruct (routable _ owner now) as [o|].
  { apply accounted_quiet; [done|apply wake_quiet|]. eapply wp_mono; [|apply wake_frame]. by intros out _ [? _]. }
  apply wp_bind. unfold claim. intros [err|].
  - repeat case_match; try (by repeat split; autorewrite with tally).
    apply wp_ret. cbv beta iota. eapply wp_mono; [|apply (accounted_quiet (Some (entry_Revision entry)) 4 rep)];
      [|done|apply deferToHolder_quiet|].
    { intros out t Ha. unfold accounted in *. by autorewrite with tally. }
    unfold deferToHolder. walk_returns; done.
  - apply wp_ret. cbv beta iota. eapply wp_seq; [apply underClaim_accounted|].
    intros out t (Hf & Hn & Ho) r. simpl. unfold accounted. autorewrite with tally. simpl.
    split_and!; [|lia|intros He; rewrite (Ho He); lia]. by apply fenced_app.
Qed.
End ReconcileWrites.

(** C35: one [Reconcile] writes desired state at most four times (twice to
    apply the requested intent, twice to restore a released session), each
    write expects the revision of the entry the catalog answered last, so it is
    never blind, and a reconciliation that succeeds reports in [DesiredWrites]
    exactly the number of writes it made. *)
Theorem reconcile_accounts_for_its_writes `{PlacementPrimitives} (cfg : Config) {W} (h : handler request W) (w : W)
    (req : Request) (rep : reporter) :
  let '(out, calls, _) := run h (Reconcile cfg req rep) w in
  fenced None calls /\ tally is_update calls <= 4 /\
  (out.1.2 = None -> res_DesiredWrites out.1.1 = tally is_update calls).
Proof.
  pose proof (wp_run h (Reconcile cfg req rep) _ w (Reconcile_accounted cfg req rep)) as Ha.
  destruct (run h (Reconcile cfg req rep) w) as [[out calls] w']. exact Ha.
Qed.

(** ** A Host is attached only after it vouched for the pending commands *)
Definition pending (req : Request) (cap : capability) : list CommandID :=
  match cap with
  | GateResponses => req_GateResponses req
  | PayloadReferences => req_PayloadReferences req
  | CommandPrincipal => req_PrincipalCommands req
  end.

(** The Host at [endpoint] answered that it takes [cap], if that is pending. *)
Definition vouched (req : Request) (host : HostID) (generation : Z) (endpoint : InternalEndpoint)
    (seen : list (event request)) (cap : capability) : Prop :=
  pending req cap <> [] -> Ev _ (Accepts cap (probe req host generation endpoint)) (Ok true) ∈ seen.

Definition attach_vouched (req : Request) (seen : list (event request)) (e : event request) : Prop :=
  match e with
  | Ev _ c _ =>
      match c with
      | Attach endpoint areq =>
          forall cap, vouched req (attach_HostID areq) (attach_HostGeneration areq) endpoint seen cap
      | _ => True
      end
  end.

(** Every attach among the calls [t], made after the calls [seen]. *)
Fixpoint vouched_attaches (req : Request) (seen t : list (event request)) : Prop :=
  match t with
  | [] => True
  | e :: t => attach_vouched req seen e /\ vouched_attaches req (e :: seen) t
  end.

Definition vouches {A} (req : Request) (seen : list (event request)) (p : routine A) : Prop :=
  wp p (fun _ t => vouched_attaches req seen t).

Section Vouched.
Context `{PlacementPrimitives} (cfg : Config) (req : Request).

Lemma vouched_attaches_mono seen seen' t :
  seen ⊆ seen' -> vouched_attaches req seen t -> vouched_attaches req seen' t.
Proof.
  revert seen seen'. induction t as [|e t IH]; simpl; intros seen seen' Hs Ht; [done|]. destruct Ht as [He Ht]. split.
  - destruct e as [R c r], c; try done. simpl in *. intros cap Hcap. apply Hs. by apply He.
  - eapply IH; [|exact Ht]. set_solver.
Qed.

Lemma vouched_attaches_app seen t u :
  vouched_attaches req seen t -> vouched_attaches req seen u -> vouched_attaches req seen (t ++ u).
Proof.
  revert seen. induction t as [|e t IH]; simpl; intros seen Ht Hu; [done|]. destruct Ht as [He Ht].
  split; [done|]. apply IH; [done|]. eapply vouched_attaches_mono; [|exact Hu]. set_solver.
Qed.

Lemma vouches_bind {A B} seen (p : routine A) (k : A -> routine B) :
  vouches req seen p -> (forall a, vouches req seen (k a)) -> vouches req seen (bind p k).
Proof.
  intros Hp Hk. eapply wp_seq; [exact Hp|]. intros a t Ht. eapply wp_mono; [|apply Hk].
  simpl. intros b u Hu. by apply vouched_attaches_app.
Qed.

Lemma vouches_call {A R} seen (c : request R) (k : R -> routine A) :
  (forall r, attach_vouched req seen (Ev R c r)) -> (forall r, vouches req (Ev R c r :: seen) (k r)) ->
  vouches req seen (Call R c k).
Proof. intros Hc Hk r. eapply wp_mono; [|apply Hk]. intros a t Ht. split; [apply Hc|done]. Qed.

Lemma vouches_mono {A} seen seen' (p : routine A) : seen ⊆ seen' -> vouches req seen p -> vouches req seen' p.
Proof. intros Hs. apply wp_mono. intros _ t. by apply vouched_attaches_mono. Qed.

Lemma vouches_skip {A R} seen (c : request R) (k : R -> routine A) :
  (forall r, is_attach (Ev R c r) = false) -> (forall r, vouches req seen (k r)) -> vouches req seen (Call R c k).
Proof.
  intros Hc Hk. apply vouches_call.
  - intros r. specialize (Hc r). by destruct c.
  - intros r. eapply vouches_mono; [|apply Hk]. set_solver.
Qed.

Lemma vouches_quiet {A} seen (p : routine A) : only quiet p -> vouches req seen p.
Proof.
  apply wp_mono. intros _ t Ht. revert seen. induction Ht as [|e t [_ He] _ IH]; intros seen; simpl; [done|].
  split; [|apply IH]. by destruct e as [R c r], c.
Qed.

Lemma classify_capable answer : classifyGateCapability answer = gateCapable -> answer = Ok true.
Proof. unfold classifyGateCapability. intros. by branches. Qed.
End Vouched.

(** Walk a routine whose calls are not attaches. *)
Ltac walk_vouches :=
  repeat match goal with
  | |- vouches _ _ (Ret _) => exact I
  | |- vouches _ _ (Call _ _ _) => apply vouches_skip; [by intros ?|intros ?]
  | |- vouches _ _ (bind _ _) => apply vouches_bind; [|intros ?]
  | |- vouches _ _ (match _ with _ => _ end) => case_match
  end.

Section VouchedPlacement.
Context `{PlacementPrimitives} (cfg : Config) (req : Request).

Lemma gatePooled_vouches cap seen candidate r skip capable :
  (forall r, vouches req seen (skip r)) ->
  (forall seen', seen ⊆ seen' ->
     vouched req (cap_HostID candidate) (cap_HostGeneration candidate) (cap_InternalEndpoint candidate) seen' cap ->
     vouches req seen' capable) ->
  vouches req seen (gatePooled cap (pending req cap) req candidate r skip capable).
Proof.
  intros Hs Hc. unfold gatePooled. destruct (pending req cap) as [|c cs] eqn:Hp.
  { apply Hc; [done|]. unfold vouched. by rewrite Hp. }
  apply vouches_call; [done|]. intros answer.
  destruct (classifyGateCapability answer) eqn:Ha; try (by simpl);
    try (eapply vouches_mono; [|apply Hs]; set_solver).
  apply Hc; [set_solver|]. intros _. rewrite (classify_capable _ Ha). set_solver.
Qed.

Lemma gateDedicated_vouches cap seen intent endpoint r record k :
  (forall seen' record, seen ⊆ seen' ->
     vouched req (ded_HostID endpoint) (ded_HostGeneration endpoint) (ded_InternalEndpoint endpoint) seen' cap ->
     vouches req seen' (k record)) ->
  vouches req seen (gateDedicated cap (pending req cap) req intent endpoint r record k).
Proof.
  intros Hk. unfold gateDedicated. destruct (pending req cap) as [|c cs] eqn:Hp.
  { apply Hk; [done|]. unfold vouched. by rewrite Hp. }
  apply vouches_call; [done|]. intros answer.
  destruct (classifyGateCapability answer) eqn:Ha; try (by simpl).
  rewrite (classify_capable _ Ha). unfold rereadDedicated. walk_vouches.
  apply Hk; [set_solver|]. intros _. set_solver.
Qed.

Lemma vouched_mono host generation endpoint seen seen' cap :
  seen ⊆ seen' -> vouched req host generation endpoint seen cap -> vouched req host generation endpoint seen' cap.
Proof. unfold vouched. set_solver. Qed.

Lemma candidatesLoop_vouches seen record mode hosts r :
  vouches req seen (candidatesLoop cfg req record mode hosts r).
Proof.
  revert seen r. induction hosts as [|candidate hosts IH]; intros seen r; simpl; [done|].
  case_match; [apply IH|].
  apply (gatePooled_vouches GateResponses); [intros; apply IH|intros seen1 Hs1 Hv1].
  apply (gatePooled_vouches PayloadReferences); [intros; apply IH|intros seen2 Hs2 Hv2].
  apply (gatePooled_vouches CommandPrincipal); [intros; apply IH|intros seen3 Hs3 Hv3].
  apply vouches_call.
  - simpl. intros _ []; [| |done]; (eapply vouched_mono; [|done]; set_solver).
  - intros [observation|err]; walk_vouches; try apply IH. apply vouches_quiet, bindAndDeliver_quiet.
Qed.

Lemma attemptLoop_vouches seen record mode remaining attempt r :
  vouches req seen (attemptLoop cfg req record mode remaining attempt r).
Proof.
  revert attempt r. induction remaining as [|remaining IH]; intros attempt r; simpl; unfold attemptBody, attachCandidates;
    walk_vouches; first [apply IH | apply candidatesLoop_vouches | apply vouches_quiet, wake_quiet].
Qed.

Lemma attachDedicated_vouches seen intent endpoint r record :
  (forall cap, vouched req (ded_HostID endpoint) (ded_HostGeneration endpoint) (ded_InternalEndpoint endpoint) seen cap) ->
  vouches req seen (attachDedicated cfg req intent endpoint r record).
Proof.
  intros Hv. unfold attachDedicated. apply vouches_call; [intros ?; exact Hv|]. intros attached. walk_vouches;
    apply vouches_quiet; first [apply bindAndDeliver_quiet | apply wake_quiet].
Qed.

Lemma placeDedicated_vouches seen intent r : vouches req seen (placeDedicated cfg req intent r).
Proof.
  assert (Hdiscover : vouches req seen (discoverDedicated cfg req intent r)).
  { unfold discoverDedicated, rereadDedicated. walk_vouches.
    apply (gateDedicated_vouches GateResponses); intros seen1 record1 Hs1 Hv1.
    apply (gateDedicated_vouches PayloadReferences); intros seen2 record2 Hs2 Hv2.
    apply (gateDedicated_vouches CommandPrincipal); intros seen3 record3 Hs3 Hv3.
    apply attachDedicated_vouches. intros []; [| |done]; (eapply vouched_mono; [|done]; set_solver). }
  unfold placeDedicated, rereadDedicated. walk_vouches; try done; apply vouches_quiet, wake_quiet.
Qed.

Lemma Reconcile_vouches rep : vouches req [] (Reconcile cfg req rep).
Proof.
  unfold Reconcile, claim, deferToHolder, underClaim, place, placePooled, placePooled_body, reportIncapable,
    ensureDesired, ensureDesiredLoop, reviveReleased, reviveLoop.
  walk_vouches; first [apply vouches_quiet, wake_quiet | apply attemptLoop_vouches | apply placeDedicated_vouches].
Qed.
End VouchedPlacement.

(** C26: whatever the environment answers, [Reconcile] attaches a session to
    a Host, pooled or dedicated, only after that Host (same identity, boot and
    endpoint, in the same reconciliation) answered that it takes every kind of
    command the session has pending: gate responses, referenced payloads and
    principal-stamped commands. A session is never placed on a Host that cannot
    apply what is waiting for it. *)
Theorem reconcile_attaches_only_capable_hosts `{PlacementPrimitives} (cfg : Config) {W} (h : handler request W) (w : W)
    (req : Request) (rep : reporter) :
  vouched_attaches req [] (run h (Reconcile cfg req rep) w).1.2.
Proof. exact (wp_run h (Reconcile cfg req rep) _ w (Reconcile_vouches cfg req rep)). Qed.

(** ** Waking a bound session *)

(** The questions asked and the deliveries tried, in order, with their answers. *)
Fixpoint asks (t : list (event request)) : list (capability * result bool) :=
  match t with
  | [] => []
  | Ev _ c r :: t =>
      match c in request R return R -> _ with
      | Accepts cap _ => fun r => (cap, r) :: asks t
      | _ => fun _ => asks t
      end r
  end.

Fixpoint deliveries (t : list (event request)) : list (CommandID * option error) :=
  match t with
  | [] => []
  | Ev _ c r :: t =>
      match c in request R return R -> _ with
      | DeliverCommand _ _ command => fun r => (command, r) :: deliveries t
      | _ => fun _ => deliveries t
      end r
  end.

Lemma asks_app t u : asks (t ++ u) = asks t ++ asks u.
Proof. induction t as [|[R c r] t IH]; simpl; [done|]. destruct c; simpl; by rewrite IH. Qed.

Lemma deliveries_app t u : deliveries (t ++ u) = deliveries t ++ deliveries u.
Proof. induction t as [|[R c r] t IH]; simpl; [done|]. destruct c; simpl; by rewrite IH. Qed.

#[global] Instance capability_eq_dec : EqDecision capability.
Proof. solve_decision. Defined.

Definition said_yes (answer : result bool) : bool := match answer with Ok true => true | _ => false end.

Lemma accepted_yes a : accepted a = said_yes a.
Proof. by destruct a as [[]|]. Qed.

(** What the Host said about a capability in the questions [l]; one it was not
    asked about it did not accept. *)
Definition said (l : list (capability * result bool)) (cap : capability) : result bool :=
  match List.find (fun p => bool_decide (p.1 = cap)) l with Some p => p.2 | None => Ok false end.

(** The reference: which capability, if any, keeps a command from the Host,
    given what the Host answers about each. *)
Section Refusal.
Context (req : Request) (ans : capability -> result bool).

Definition refuses (cap : capability) (command : CommandID) : bool :=
  bool_decide (command ∈ pending req cap) && negb (said_yes (ans cap)).

Definition refusal (command : CommandID) : option capability :=
  if refuses PayloadReferences command then Some PayloadReferences
  else if refuses GateResponses command then Some GateResponses
  else if refuses CommandPrincipal command then Some CommandPrincipal
  else None.
End Refusal.

Definition withheld_by (req : Request) ans (cap : capability) (command : CommandID) : bool :=
  bool_decide (refusal req ans command = Some cap).
Definition offered (req : Request) ans (command : CommandID) : bool := bool_decide (refusal req ans command = None).
Definition failed (d : CommandID * option error) : bool := bool_decide (is_Some d.2).

(** How the counters of [out] follow from those of [r]. *)
Definition wake_counts (req : Request) ans (wake : list CommandID) (sent : list (CommandID * option error)) (r out : Result) : Prop :=
  res_Delivered out = res_Delivered r + tally (fun d => negb (failed d)) sent /\
  res_DeliveryFailures out = res_DeliveryFailures r + tally failed sent /\
  res_WithheldGateResponses out = res_WithheldGateResponses r + tally (withheld_by req ans GateResponses) wake /\
  res_WithheldPrincipalCommands out = res_WithheldPrincipalCommands r + tally (withheld_by req ans CommandPrincipal) wake.

Lemma refusal_ext req ans ans' : (forall cap, ans cap = ans' cap) -> forall c, refusal req ans c = refusal req ans' c.
Proof. intros Ha c. unfold refusal, refuses. by rewrite !Ha. Qed.

Lemma offered_ext req ans ans' : (forall cap, ans cap = ans' cap) -> forall c, offered req ans c = offered req ans' c.
Proof. intros Ha c. unfold offered. by rewrite (refusal_ext req ans ans' Ha). Qed.

Lemma wake_counts_ext req ans ans' wake sent r out :
  (forall cap, ans cap = ans' cap) -> wake_counts req ans wake sent r out -> wake_counts req ans' wake sent r out.
Proof.
  intros Ha. assert (Hw : forall cap l, tally (withheld_by req ans' cap) l = tally (withheld_by req ans cap) l).
  { intros cap l. induction l as [|c l IH]; [done|]. rewrite !tally_cons, IH. unfold withheld_by. by rewrite (refusal_ext req ans ans' Ha). }
  unfold wake_counts. by rewrite !Hw.
Qed.

Definition memo_of (memo : asked) (cap : capability) : option (result bool) :=
  match cap with
  | PayloadReferences => asked_reference memo
  | GateResponses => asked_gate memo
  | CommandPrincipal => asked_principal memo
  end.

(** [ans] is what the Host answers: it agrees with the answers already given
    and with the questions [l] asked now, each once and none again, and accepts
    nothing it is not asked about. *)
Definition consulted (memo : asked) (ans : capability -> result bool) (l : list (capability * result bool)) : Prop :=
  (forall cap a, memo_of memo cap = Some a -> ans cap = a) /\
  Forall (fun p => p.2 = ans p.1 /\ memo_of memo p.1 = None) l /\ NoDup l.*1 /\
  (forall cap, memo_of memo cap = None -> cap ∉ l.*1 -> ans cap = Ok false).

(** From nothing asked, what it answers is what it said. *)
Lemma consulted_said ans l : consulted (MkAsked None None None) ans l -> forall cap, ans cap = said l cap.
Proof.
  intros (_ & Hl & _ & Hno) cap. unfold said. destruct (List.find _ l) as [p|] eqn:Hf.
  - apply List.find_some in Hf as [Hin Hc]. reflect_guards. subst cap. symmetry. apply (proj1 (Forall_forall _ _) Hl). by apply list_elem_of_In.
  - apply Hno; [by destruct cap|]. intros (p & -> & Hp)%list_elem_of_fmap.
    apply list_elem_of_In, (List.find_none _ _ Hf), bool_decide_eq_false in Hp. done.
Qed.

(** One question, put when the command is listed and not asked before. *)
Definition screen_post (cap : capability) (listed : list CommandID) (command : CommandID) (observation : HostLinkRegistryObservation)
    (memo : option (result bool)) (out : bool * option (result bool)) (t : list (event request)) : Prop :=
  (forall a, (forall a', out.2 = Some a' -> a = a') -> out.1 = negb (bool_decide (command ∈ listed) && negb (said_yes a))) /\
  ((t = [] /\ out.2 = memo) \/
   (exists a, t = [Ev _ (Accepts cap observation) a] /\ memo = None /\ out.2 = Some a)).

Lemma screen_spec cap listed command observation memo :
  wp (screen cap listed command observation memo) (screen_post cap listed command observation memo).
Proof.
  unfold screen. case_bool_decide as Hin.
  - destruct memo as [a|]; [|intros a]; (split; [|by eauto]); simpl; intros a' Ha;
      rewrite (Ha a eq_refl), ?bool_decide_true, accepted_yes by done; by destruct (said_yes a).
  - split; [|by left]. simpl. intros a _. by rewrite ?bool_decide_false.
Qed.

Definition memo_with (memo : asked) (cap : capability) (m : option (result bool)) : asked :=
  match cap with
  | PayloadReferences => MkAsked m (asked_gate memo) (asked_principal memo)
  | GateResponses => MkAsked (asked_reference memo) m (asked_principal memo)
  | CommandPrincipal => MkAsked (asked_reference memo) (asked_gate memo) m
  end.

Lemma memo_of_with memo cap m cap' :
  memo_of (memo_with memo cap m) cap' = if decide (cap' = cap) then m else memo_of memo cap'.
Proof. by destruct memo, cap, cap'. Qed.

(** What was answered after a question was also answered before it. *)
Lemma consulted_step memo ans cap listed command observation out t l :
  screen_post cap listed command observation (memo_of memo cap) out t ->
  consulted (memo_with memo cap out.2) ans l ->
  consulted memo ans (asks t ++ l) /\
  out.1 = negb (bool_decide (command ∈ listed) && negb (said_yes (ans cap))).
Proof.
  intros [Hok Ht] (Hag & Hl & Hnd & Hno).
  assert (Hcap : forall a, out.2 = Some a -> ans cap = a).
  { intros a Ha. apply Hag. rewrite memo_of_with. by rewrite decide_True. }
  split; [|by apply Hok]. destruct Ht as [[-> Hm]|(a & -> & Hn & Hm)]; simpl.
  - rewrite Hm in *. assert (Heq : forall c, memo_of (memo_with memo cap (memo_of memo cap)) c = memo_of memo c).
    { intros c. by destruct memo, cap, c. }
    split_and!; [by intros c b Hb; apply Hag; rewrite Heq| |done|by intros c Hc; apply Hno; rewrite Heq].
    eapply Forall_impl; [exact Hl|]. simpl. intros p. by rewrite Heq.
  - split_and!.
    + intros c b Hb. apply Hag. rewrite memo_of_with. destruct (decide (c = cap)) as [->|]; [congruence|done].
    + constructor; [simpl; by rewrite (Hcap a)|].
      eapply Forall_impl; [exact Hl|]. simpl. intros p [? Hp]. rewrite memo_of_with in Hp.
      destruct (decide (p.1 = cap)); [congruence|done].
    + simpl. apply NoDup_cons. split; [|done]. intros Hin. apply list_elem_of_fmap in Hin as (p & -> & Hp).
      rewrite Forall_forall in Hl. destruct (Hl p Hp) as [_ Hp']. rewrite memo_of_with, decide_True in Hp' by done. congruence.
    + simpl. intros c Hc Hin. apply Hno; [|set_solver]. rewrite memo_of_with, decide_False by set_solver. done.
Qed.

Definition wake_post (req : Request) (memo : asked) (wake : list CommandID) (r out : Result) (t : list (event request)) : Prop :=
  exists ans, consulted memo ans (asks t) /\
  (deliveries t).*1 = filter (fun c => Is_true (offered req ans c)) wake /\
  wake_counts req ans wake (deliveries t) r out.

Lemma wake_counts_app req ans command wake sent1 sent r r' out :
  wake_counts req ans [command] sent1 r r' -> wake_counts req ans wake sent r' out ->
  wake_counts req ans (command :: wake) (sent1 ++ sent) r out.
Proof.
  unfold wake_counts. rewrite !tally_app, !tally_cons, !tally_nil. intros (H1 & H2 & H3 & H4) (K1 & K2 & K3 & K4).
  split_and!; lia.
Qed.

Lemma screen_no_delivery cap listed command observation memo out t :
  screen_post cap listed command observation memo out t -> deliveries t = [].
Proof. by intros [_ [[-> _]|(a & -> & _)]]. Qed.

(** One command and then the rest: the questions [t1] put for the command, what
    was sent for it, and what that did to the counters. *)
Lemma wake_post_cons req memo memo' command wake r r' out t1 t (sent : option (option error)) :
  (forall ans l, consulted memo' ans l -> consulted memo ans (asks t1 ++ l) /\
     refusal req ans command = (match sent with None => refusal req ans command | Some _ => None end) /\
     (sent = None -> refusal req ans command <> None) /\
     wake_counts req ans [command] (match sent with None => [] | Some err => [(command, err)] end) r r') ->
  deliveries t1 = (match sent with None => [] | Some err => [(command, err)] end) ->
  wake_post req memo' wake r' out t -> wake_post req memo (command :: wake) r out (t1 ++ t).
Proof.
  intros Hstep Hd1 (ans & Hc & Hd & Hn). destruct (Hstep ans _ Hc) as (Hc' & Hr & Hr' & Hn').
  exists ans. rewrite asks_app, deliveries_app, Hd1, fmap_app. split; [done|]. split; [|by eapply wake_counts_app].
  rewrite Hd. unfold offered. destruct sent as [err|]; simpl.
  - by rewrite filter_cons_True by (rewrite Hr; exact I).
  - rewrite filter_cons_False; [done|]. rewrite bool_decide_false by auto. exact (fun z => z).
Qed.

(** The counters after one command, once its refusal is known. *)
Ltac count_one Hr :=
  unfold wake_counts, withheld_by; rewrite !tally_cons, !tally_nil, Hr;
  repeat first [rewrite bool_decide_true by done | rewrite bool_decide_false by done];
  split_and!; repeat match goal with x : Result |- _ => destruct x end; simpl; lia.

Section Wake.
Context `{PlacementPrimitives} (cfg : Config).

(** Withholding a command changes one counter at most. *)
Definition withhold (cap : capability) (r : Result) : Result :=
  match cap with
  | PayloadReferences => r
  | GateResponses => incWithheldGate r
  | CommandPrincipal => incWithheldPrincipal r
  end.

Lemma wake_withheld req memo memo' cap command wake r out t1 t :
  (forall ans l, consulted memo' ans l -> consulted memo ans (asks t1 ++ l) /\ refusal req ans command = Some cap) ->
  deliveries t1 = [] -> wake_post req memo' wake (withhold cap r) out t ->
  wake_post req memo (command :: wake) r out (t1 ++ t).
Proof.
  intros Hstep Hd Ht. eapply (wake_post_cons _ _ _ _ _ _ _ _ _ _ None); [|exact Hd|exact Ht].
  intros ans l Hl. destruct (Hstep ans l Hl) as [Hc Hr]. split_and!; [done|done|by rewrite Hr|].
  destruct cap; count_one Hr.
Qed.

Lemma wake_sent req memo memo' command wake r out t1 t err :
  (forall ans l, consulted memo' ans l -> consulted memo ans (asks t1 ++ l) /\ refusal req ans command = None) ->
  deliveries t1 = [(command, err)] ->
  wake_post req memo' wake (match err with Some _ => incDeliveryFailures r | None => incDelivered r end) out t ->
  wake_post req memo (command :: wake) r out (t1 ++ t).
Proof.
  intros Hstep Hd Ht. eapply (wake_post_cons _ _ _ _ _ _ _ _ _ _ (Some err)); [|exact Hd|exact Ht].
  intros ans l Hl. destruct (Hstep ans l Hl) as [Hc Hr]. split_and!; [done|done|done|].
  unfold failed. destruct err; simpl; count_one Hr.
Qed.

(** A question's outcome, in terms of the reference. *)
Lemma screen_refuses req memo cap command observation :
  wp (screen cap (pending req cap) command observation (memo_of memo cap))
     (fun out t => deliveries t = [] /\
        forall ans l, consulted (memo_with memo cap out.2) ans l ->
          consulted memo ans (asks t ++ l) /\ refuses req ans cap command = negb out.1).
Proof.
  eapply wp_mono; [|apply screen_spec]. intros out t Ht. split; [by eapply screen_no_delivery|].
  intros ans l Hl. destruct (consulted_step _ _ _ _ _ _ _ _ _ Ht Hl) as [Hc ->].
  split; [done|]. by rewrite negb_involutive.
Qed.

Lemma deliverLoop_spec req observation wake memo r :
  wp (deliverLoop req observation wake memo r) (fun out t => wake_post req memo wake r out t).
Proof.
  revert memo r. induction wake as [|command wake IH]; intros memo r; simpl.
  { exists (fun cap => default (Ok false) (memo_of memo cap)).
    split_and!; [split_and!; [by intros cap a ->|constructor|constructor|by intros cap ->]|done|].
    unfold wake_counts. simpl. rewrite !tally_nil. split_and!; lia. }
  eapply wp_seq; [apply (screen_refuses req memo PayloadReferences)|]. intros [ok1 m1] t1 [D1 S1]. simpl in S1.
  destruct ok1; simpl.
  2: { eapply wp_mono; [|apply IH]. intros out t. apply (wake_withheld _ _ _ PayloadReferences); [|done].
       intros ans l Hl. destruct (S1 ans l Hl) as [Hc R1]. split; [done|]. unfold refusal. by rewrite R1. }
  set (memo1 := MkAsked m1 (asked_gate memo) (asked_principal memo)) in *.
  eapply wp_seq; [apply (screen_refuses req memo1 GateResponses)|]. intros [ok2 m2] t2 [D2 S2]. simpl in S2.
  destruct ok2; simpl.
  2: { eapply wp_mono; [|apply IH]. intros out t. rewrite (assoc_L (++)).
       apply (wake_withheld _ _ _ GateResponses); [|by rewrite deliveries_app, D1, D2].
       intros ans l Hl. destruct (S2 ans l Hl) as [Hc2 R2]. destruct (S1 ans _ Hc2) as [Hc1 R1].
       rewrite asks_app, <- (assoc_L (++)). split; [done|]. unfold refusal. by rewrite R1, R2. }
  set (memo2 := MkAsked m1 m2 (asked_principal memo)) in *.
  eapply wp_seq; [apply (screen_refuses req memo2 CommandPrincipal)|]. intros [ok3 m3] t3 [D3 S3]. simpl in S3.
  assert (Hstep : forall ans l, consulted (MkAsked m1 m2 m3) ans l ->
    consulted memo ans ((asks t1 ++ asks t2 ++ asks t3) ++ l) /\
    refusal req ans command = if ok3 then None else Some CommandPrincipal).
  { intros ans l Hl. destruct (S3 ans l Hl) as [Hc3 R3]. destruct (S2 ans _ Hc3) as [Hc2 R2].
    destruct (S1 ans _ Hc2) as [Hc1 R1]. rewrite <- !(assoc_L (++)). split; [done|].
    unfold refusal. rewrite R1, R2, R3. by destruct ok3. }
  destruct ok3; simpl.
  - intros err. eapply wp_mono; [|apply IH]. intros out t Ht.
    replace (t1 ++ t2 ++ t3 ++ _ :: t) with
      ((t1 ++ t2 ++ t3 ++ [Ev _ (DeliverCommand (req_TenantID req) (req_SessionID req) command) err]) ++ t)
      by (by rewrite <- !(assoc_L (++))).
    eapply wake_sent; [|by rewrite !deliveries_app, D1, D2, D3|exact Ht].
    intros ans l Hl. rewrite !asks_app. simpl. rewrite app_nil_r. by apply Hstep.
  - eapply wp_mono; [|apply IH]. intros out t. rewrite !(assoc_L (++)).
    apply (wake_withheld _ _ _ CommandPrincipal); [|by rewrite !deliveries_app, D1, D2, D3].
    intros ans l Hl. rewrite !asks_app, <- (assoc_L (++) (asks t1)). by apply Hstep.
Qed.

(** The calls between the bind and the unbind: questions to the bound Host and
    deliveries to the session. *)
Definition wake_call (req : Request) (observation : HostLinkRegistryObservation) (e : event request) : Prop :=
  match e with
  | Ev _ c _ =>
      match c with
      | Accepts _ o => o = observation
      | DeliverCommand t s _ => t = req_TenantID req /\ s = req_SessionID req
      | _ => False
      end
  end.

Lemma deliverLoop_calls req observation wake memo r :
  only (wake_call req observation) (deliverLoop req observation wake memo r).
Proof.
  revert memo r. induction wake as [|command wake IH]; intros memo r; simpl; [apply only_ret|].
  repeat first [apply IH | unfold screen; progress walk_only | progress walk_only].
Qed.

(** A command is delivered only after the Host took every capability it needs. *)
Definition cleared (req : Request) (past : list (event request)) (e : event request) : Prop :=
  match e with
  | Ev _ (DeliverCommand _ _ command) _ => forall cap, command ∈ pending req cap -> (cap, Ok true) ∈ asks past
  | _ => True
  end.

Lemma screen_cleared req cap command observation memo past (k : bool * option (result bool) -> routine Result) :
  (forall a, memo = Some a -> (cap, a) ∈ asks past) ->
  (forall out u, (forall a, out.2 = Some a -> (cap, a) ∈ asks (past ++ u)) ->
     (out.1 = true -> command ∈ pending req cap -> (cap, Ok true) ∈ asks (past ++ u)) -> asks past ⊆ asks (past ++ u) ->
     obeys (cleared req) (past ++ u) (k out)) ->
  obeys (cleared req) past (bind (screen cap (pending req cap) command observation memo) k).
Proof.
  intros Hm Hk. unfold screen. case_bool_decide as Hin.
  - destruct memo as [a|].
    + specialize (Hk (accepted a, Some a) []). rewrite app_nil_r in Hk. apply Hk; [done| |done]. simpl. intros Ha _.
      destruct a as [[]|]; try done. by apply Hm.
    + intros a. split; [done|]. assert (Hq : (cap, a) ∈ asks (past ++ [Ev _ (Accepts cap observation) a])) by (rewrite asks_app; set_solver).
      apply Hk; [by intros a' [= <-]|simpl; intros Ha _; by destruct a as [[]|]|rewrite asks_app; set_solver].
  - specialize (Hk (true, memo) []). rewrite app_nil_r in Hk. by apply Hk.
Qed.

Lemma deliverLoop_cleared req observation wake : forall memo r past,
  (forall cap a, memo_of memo cap = Some a -> (cap, a) ∈ asks past) ->
  obeys (cleared req) past (deliverLoop req observation wake memo r).
Proof.
  induction wake as [|command wake IH]; intros memo r past Hm; [done|]. simpl.
  apply (screen_cleared req PayloadReferences); [apply (Hm PayloadReferences)|]. intros [ok1 m1] u1 M1 Y1 S1. simpl in *.
  destruct ok1; simpl; [|apply IH; intros [] a Ha; simpl in Ha; auto].
  apply (screen_cleared req GateResponses); [intros a Ha; by apply S1, (Hm GateResponses)|]. intros [ok2 m2] u2 M2 Y2 S2. simpl in *.
  destruct ok2; simpl; [|apply IH; intros [] a Ha; simpl in Ha; auto].
  apply (screen_cleared req CommandPrincipal); [intros a Ha; by apply S2, S1, (Hm CommandPrincipal)|]. intros [ok3 m3] u3 M3 Y3 S3. simpl in *.
  destruct ok3; simpl; [|apply IH; intros [] a Ha; simpl in Ha; auto].
  intros err. split; [intros [] Hc; auto|]. apply IH. intros cap a Ha. rewrite asks_app. apply elem_of_app. left.
  destruct cap; simpl in Ha; auto.
Qed.

(** What one waking did. *)
Definition woke (req : Request) (observation : HostLinkRegistryObservation) (attached : bool) (r : Result)
    (out : Result * option error) (t : list (event request)) : Prop :=
  exists routed bound rest,
  t = Ev _ (RouteFor (req_TenantID req) (req_SessionID req)) routed ::
      Ev _ (Bind (obs_InternalEndpoint observation) (bindRequestFor observation)) bound :: rest /\
  match bound with
  | Some err => rest = [] /\ out = (r, Some (if attached then wrapf [ErrBindAfterAttach; err] else err))
  | None =>
      out.2 = None /\ res_Bound out.1 = true /\
      exists sent,
        let answers := said (asks sent) in
        Forall (wake_call req observation) sent /\ NoDup (asks sent).*1 /\
        (deliveries sent).*1 = filter (fun c => Is_true (offered req answers c)) (req_Wake req) /\
        (forall before e after, sent = before ++ e :: after -> cleared req before e) /\
        wake_counts req answers (req_Wake req) (deliveries sent) r out.1 /\
        match routed with
        | Some _ => rest = sent
        | None => exists e, rest = sent ++ [Ev _ (Unbind (unbindRequestFor (bindRequestFor observation))) e]
        end
  end.

Lemma bindAndDeliver_woke req observation r attached :
  wp (bindAndDeliver req observation r attached) (woke req observation attached r).
Proof.
  unfold bindAndDeliver. intros routed [err|]; [by exists routed, (Some err), []|].
  eapply wp_seq; [apply wp_and; [apply deliverLoop_calls|apply wp_and; [apply deliverLoop_spec|apply wp_and;
    [apply deliverLoop_frame|apply (obeys_wp (cleared req) _ []), deliverLoop_cleared; by intros []]]]|].
  intros out t (Hcalls & (ans & Hcons & Hd & Hn) & [_ Hb] & Hclear).
  pose proof (consulted_said _ _ Hcons) as Hsaid. destruct Hcons as (_ & Hask & Hnd & _).
  pose proof (offered_ext req _ _ Hsaid) as Hoff. pose proof (wake_counts_ext req _ _ (req_Wake req) (deliveries t) (setBound r) out Hsaid Hn) as Hn'.
  assert (Hsent : (deliveries t).*1 = filter (fun c => Is_true (offered req (said (asks t)) c)) (req_Wake req)).
  { rewrite Hd. apply list_filter_iff. intros c. by rewrite Hoff. }
  assert (Hcount : wake_counts req (said (asks t)) (req_Wake req) (deliveries t) r out) by (unfold wake_counts in *; by destruct r).
  assert (Hbound : res_Bound out = true) by (rewrite Hb; by destruct r).
  destruct routed as [host|].
  - exists (Some host), None, t. rewrite app_nil_r. split; [done|]. split_and!; [done|done|]. exists t. by split_and!.
  - intros e. exists None, None, (t ++ [Ev _ (Unbind (unbindRequestFor (bindRequestFor observation))) e]).
    split; [done|]. split_and!; [done|done|]. exists t. split_and!; eauto.
Qed.
End Wake.

(** C31: Waking a session on an owner binds exactly the tuple the owner's
    observation names and, if the bind fails, does nothing else. Otherwise the
    commands are offered in order, each kind of capability is asked of that Host
    at most once, and the commands sent are exactly those for which the Host said
    yes to every capability they need: a capability it said no to, failed to
    answer about or was not asked about keeps back every command that needs it,
    and each yes comes before the delivery it licenses. What was delivered,
    failed or was withheld for a gate or a principal is counted exactly; and the
    route is unbound again, as the last call, exactly when the session was not
    routed before. *)
Theorem wake_sends_what_the_host_takes `{PlacementPrimitives} {W} (h : handler request W) (w : W)
    (req : Request) (observation : HostLinkRegistryObservation) (r : Result) (attached : bool) :
  let '(out, calls, _) := run h (bindAndDeliver req observation r attached) w in
  woke req observation attached r out calls.
Proof.
  pose proof (wp_run h _ _ w (bindAndDeliver_woke req observation r attached)) as Hw.
  destruct (run h (bindAndDeliver req observation r attached) w) as [[out calls] w']. exact Hw.
Qed.

(** ** Pooled placement is bounded and only attaches admissible candidates *)
Definition is_page (e : event request) : bool :=
  match e with Ev _ c _ => match c with Candidates _ => true | _ => false end end.

Fixpoint waits (t : list (event request)) : list Z :=
  match t with
  | [] => []
  | Ev _ c _ :: t => match c with Wait d => d :: waits t | _ => waits t end
  end.

Lemma waits_app t u : waits (t ++ u) = waits t ++ waits u.
Proof. induction t as [|[R c r] t IH]; simpl; [done|]. destruct c; simpl; by rewrite IH. Qed.

Section PooledCalls.
Context `{PlacementPrimitives} (cfg : Config).

(** An attach to an admissible candidate of the page, for the record. *)
Definition admits (record : CatalogRecord) (page : list HostLinkCapacityReport) (endpoint : InternalEndpoint)
    (areq : HostLinkAttachRequest) : Prop :=
  exists candidate, candidate ∈ page /\ admissible candidate record = true /\
  endpoint = cap_InternalEndpoint candidate /\ areq = attachRequest record candidate (attachMode record) (ActorID cfg).

(** Every attach follows the catalog's last answer and the last page listed. *)
Fixpoint admitted (record : option CatalogRecord) (page : list HostLinkCapacityReport) (t : list (event request)) : Prop :=
  match t with
  | [] => True
  | Ev _ c r :: t =>
      match c in request R return R -> Prop with
      | GetCatalogEntry _ _ => fun r => admitted (match r with Ok e => Some (entry_Record e) | Fail _ => record end) page t
      | Candidates _ => fun r => admitted record (match r with Ok p => tpage_Targets p | Fail _ => page end) t
      | Attach endpoint areq => fun _ => (exists rec, record = Some rec /\ admits rec page endpoint areq) /\ admitted record page t
      | _ => fun _ => admitted record page t
      end r
  end.

(** The calls of one pass. *)
Definition pass_call (record : CatalogRecord) (page : list HostLinkCapacityReport) (e : event request) : Prop :=
  match e with
  | Ev _ c _ =>
      match c with
      | GetCatalogEntry _ _ | Candidates _ | Wait _ => False
      | Attach endpoint areq => admits record page endpoint areq
      | _ => True
      end
  end.

Lemma pass_admitted record page t u :
  Forall (pass_call record page) t -> admitted (Some record) page u -> admitted (Some record) page (t ++ u).
Proof.
  induction 1 as [|e t He _ IH]; simpl; [done|]. intros Hu. specialize (IH Hu).
  destruct e as [R c r], c; try done. split; eauto.
Qed.

Lemma pass_waits record page t : Forall (pass_call record page) t -> waits t = [] /\ tally is_page t = 0.
Proof.
  induction 1 as [|e t He _ [IH1 IH2]]; [by rewrite tally_nil|]. rewrite tally_cons.
  by destruct e as [R c r], c.
Qed.

Lemma bindAndDeliver_pass record page req observation r attached :
  only (pass_call record page) (bindAndDeliver req observation r attached).
Proof.
  unfold bindAndDeliver. walk_only. eapply only_mono; [|apply deliverLoop_calls].
  intros e He. by destruct e as [R c a], c.
Qed.

Lemma candidatesLoop_pass req record page hosts r :
  hosts ⊆ page -> only (pass_call record page) (candidatesLoop cfg req record (attachMode record) hosts r).
Proof.
  revert r. induction hosts as [|candidate hosts IH]; intros r Hs; simpl; [apply only_ret|].
  assert (Hrest : forall r, only (pass_call record page) (candidatesLoop cfg req record (attachMode record) hosts r)).
  { intros r'. apply IH. set_solver. }
  case_match eqn:Ha; [apply Hrest|]. apply negb_false_iff in Ha.
  do 3 (apply gatePooled_only; [done|done|]). apply only_call.
  - intros answer. exists candidate. split_and!; [set_solver|done|done|done].
  - intros attached. repeat first [apply Hrest | apply bindAndDeliver_pass | progress walk_only].
Qed.

(** At most [passes] more pages are listed, and the waits are the backoffs from
    the [from]-th on. *)
Definition bounded_run (record : option CatalogRecord) (passes : nat) (from : Z) (n : nat) (t : list (event request)) : Prop :=
  (forall page, admitted record page t) /\ tally is_page t <= Z.of_nat passes /\
  waits t `prefix_of` map (backoff cfg) (seqZ from (Z.of_nat n)).

(** Calls that list no page, wait for nothing and attach nothing. *)
Lemma bounded_idle record rec passes from n t :
  Forall (pass_call rec []) t -> bounded_run record passes from n t.
Proof.
  intros Ht. destruct (pass_waits _ _ _ Ht) as [Hw Hp]. unfold bounded_run. rewrite Hw, Hp.
  split_and!; [|lia|apply prefix_nil]. intros page.
  induction Ht as [|e t He _ IH]; simpl; [done|].
  rewrite tally_cons in Hp. pose proof (tally_pos is_page t).
  destruct e as [R c r], c; try done; simpl in *; try (by apply IH).
  destruct He as (? & ?%elem_of_nil & _). done.
Qed.

Lemma bounded_page record owner now req page passes from n t u tenant session :
  Forall (pass_call record (tpage_Targets page)) t -> bounded_run (Some record) passes from n u ->
  bounded_run (Some record) (S passes) from n
    (Ev _ (Owner tenant session) owner :: Ev _ Now now :: Ev _ (Candidates req) (Ok page) :: t ++ u).
Proof.
  intros Ht (Ha & Hp & Hw). destruct (pass_waits _ _ _ Ht) as [Hw' Hp']. unfold bounded_run. simpl.
  rewrite waits_app, Hw', !tally_cons, tally_app, Hp'. simpl. split_and!; [|lia|done].
  intros _. by apply pass_admitted.
Qed.

Lemma attemptBody_bounded req record again r passes from n :
  (forall again', again = Some again' -> forall r, wp (again' r) (fun _ t => bounded_run (Some record) passes from n t)) ->
  wp (attemptBody cfg req record (attachMode record) again r) (fun _ t => bounded_run (Some record) (S passes) from n t).
Proof.
  intros Hagain. unfold attemptBody.
  assert (Hshort : forall t, Forall (pass_call record []) t -> bounded_run (Some record) (S passes) from n t).
  { intros t Ht. by eapply bounded_idle. }
  intros [owner|err]; [|by apply Hshort; repeat constructor]. intros now.
  assert (Hattach : wp (attachCandidates cfg req record (attachMode record) again r)
    (fun _ t => bounded_run (Some record) (S passes) from n
       (Ev _ (Owner (req_TenantID req) (req_SessionID req)) (Ok owner) :: Ev _ Now now :: t))).
  { intros [page|err]; [|by unfold bounded_run; simpl; rewrite !tally_cons, tally_nil; simpl; split_and!; [|lia|apply prefix_nil]].
    eapply wp_seq; [by apply (candidatesLoop_pass req record (tpage_Targets page))|]. intros swept t Ht.
    assert (Hnil : bounded_run (Some record) passes from n []) by (eapply (bounded_idle _ record); constructor).
    destruct swept as [out|r' []]; [by apply bounded_page| |by apply bounded_page].
    destruct again as [again|]; [|by apply bounded_page].
    eapply wp_mono; [|by apply (Hagain again)]. intros out u Hu. by apply bounded_page. }
  destruct owner as [owner|]; [|exact Hattach]. destruct (ReusableOwner owner record now); [|exact Hattach].
  apply wp_mono with (Q := fun _ t => Forall (pass_call record []) t).
  - intros out t Ht. apply Hshort. by repeat constructor.
  - unfold wake. case_match; [constructor|apply bindAndDeliver_pass].
Qed.

Lemma bounded_wait record passes attempt n err t :
  bounded_run record passes (attempt + 1) n t ->
  bounded_run record passes attempt (S n) (Ev _ (Wait (backoff cfg attempt)) err :: t).
Proof.
  intros (Ha & Hp & Hw). unfold bounded_run. simpl. rewrite tally_cons. simpl. split_and!; [done|lia|].
  rewrite seqZ_cons by lia. replace (Z.pred (Z.of_nat (S n))) with (Z.of_nat n) by lia. by apply prefix_cons.
Qed.

(** A later attempt waits first. *)
Lemma attemptLoop_later req record remaining attempt r :
  0 < attempt ->
  wp (attemptLoop cfg req record (attachMode record) remaining attempt r)
     (fun _ t => bounded_run (Some record) (S remaining) attempt (S remaining) t).
Proof.
  revert attempt r. induction remaining as [|remaining IH]; intros attempt r Hat; simpl;
    (rewrite (proj2 (Z.ltb_lt 0 attempt) Hat); intros [err|];
     [apply bounded_wait; eapply (bounded_idle _ record); constructor|]).
  - eapply wp_mono; [|apply (attemptBody_bounded _ _ _ _ 0 (attempt + 1) 0); done].
    intros out t. apply bounded_wait.
  - eapply wp_mono; [|apply (attemptBody_bounded _ _ _ _ (S remaining) (attempt + 1) (S remaining))].
    + intros out t. apply bounded_wait.
    + intros again' Heq r'. simplify_eq. apply IH. lia.
Qed.

Lemma attemptLoop_bounded req record remaining r :
  wp (attemptLoop cfg req record (attachMode record) remaining 0 r)
     (fun _ t => bounded_run (Some record) (S remaining) 1 remaining t).
Proof.
  destruct remaining as [|remaining]; simpl; apply attemptBody_bounded; [done|].
  intros again' Heq r'. simplify_eq. apply attemptLoop_later. lia.
Qed.

Lemma placePooled_bounded req writes :
  wp (placePooled_body cfg req writes)
     (fun _ t => bounded_run None (S (Z.to_nat (replaceAttempts cfg - 1))) 1 (Z.to_nat (replaceAttempts cfg - 1)) t).
Proof.
  assert (Hidle : forall answer, bounded_run None (S (Z.to_nat (replaceAttempts cfg - 1))) 1
    (Z.to_nat (replaceAttempts cfg - 1)) [Ev _ (GetCatalogEntry (req_TenantID req) (req_SessionID req)) answer]).
  { intros answer. unfold bounded_run. simpl. rewrite tally_cons, tally_nil. split_and!; [done|simpl; lia|apply prefix_nil]. }
  intros [entry|err]; [|by apply Hidle]. cbv zeta. case_bool_decide; [|by apply Hidle].
  eapply wp_mono; [|apply attemptLoop_bounded]. intros out t (Ha & Hp & Hw).
  unfold bounded_run. simpl. rewrite tally_cons. by split_and!.
Qed.
End PooledCalls.

(** ** Backoff *)
Lemma double_pos rounds d : 0 < d -> 0 < double rounds d.
Proof. revert d. induction rounds as [|rounds IH]; intros d Hd; simpl; [done|]. case_match; [apply IH; lia|done]. Qed.

Lemma backoff_bounds cfg n : 0 <= ReplaceBackoff cfg -> 0 < backoff cfg n <= maxReplaceBackoff.
Proof.
  intros Hb. unfold backoff. split; [|lia].
  apply Z.min_glb_lt; [apply double_pos; case_match; reflect_guards; [done|lia]|done].
Qed.

Lemma NewReconciler_links `{StoreLimits} maxTTL cfg0 cfg :
  NewReconciler maxTTL cfg0 = Ok cfg -> hasLinks cfg = true ->
  0 <= ReplaceAttempts cfg <= maxReplaceAttempts /\ 0 <= ReplaceBackoff cfg <= maxReplaceBackoff.
Proof.
  unfold NewReconciler, attachConfigError. intros Hn Hl. branches; reflect_guards; congruence || lia.
Qed.

(** C36: with a configuration [NewReconciler] accepts and HostLinks composed,
    pooled placement ends after at most [replaceAttempts] passes over a page of
    candidates (ten at most), its pauses are the successive backoffs in order,
    each positive and at most five seconds, and every attach names a candidate
    of the page listed last that is admissible for the record the catalog
    answered last: the same agent and runtime, cross-tenant isolated, accepting
    and with room. *)
Theorem pooled_placement_bounded `{PlacementPrimitives} `{StoreLimits} (maxTTL : Z) (cfg0 cfg : Config) {W}
    (h : handler request W) (w : W) (req : Request) (writes : Z) :
  NewReconciler maxTTL cfg0 = Ok cfg -> hasLinks cfg = true ->
  let '(_, calls, _) := run h (placePooled_body cfg req writes) w in
  admitted cfg None [] calls /\
  tally is_page calls <= replaceAttempts cfg <= maxReplaceAttempts /\
  waits calls `prefix_of` map (backoff cfg) (seqZ 1 (replaceAttempts cfg - 1)) /\
  Forall (fun d => 0 < d <= maxReplaceBackoff) (waits calls).
Proof.
  intros Hnew Hl. destruct (NewReconciler_links _ _ _ Hnew Hl) as [Hat Hbo].
  assert (Hra : 1 <= replaceAttempts cfg <= maxReplaceAttempts).
  { unfold replaceAttempts, defaultReplaceAttempts, maxReplaceAttempts in *. case_match; reflect_guards; lia. }
  pose proof (wp_run h _ _ w (placePooled_bounded cfg req writes)) as (Ha & Hp & Hw).
  destruct (run h (placePooled_body cfg req writes) w) as [[out calls] w']. simpl in *.
  rewrite Z2Nat.id in Hw by lia. split_and!; [apply Ha|lia|lia|done|].
  destruct Hw as [rest Hrest].
  assert (Hall : Forall (fun d => 0 < d <= maxReplaceBackoff) (waits calls ++ rest)).
  { rewrite <- Hrest. apply Forall_map, Forall_true. intros n. apply backoff_bounds. lia. }
  by apply Forall_app in Hall as [? _].
Qed.

(** ** A concrete reconciliation

    Session ["t"]/["s"], pooled, with one pending gate response. The directory
    shows no owner and two candidates; ["h1"] does not take gate responses, the
    first attach to ["h2"] is refused as stale and the second is accepted. *)
Definition demo_placement : PlacementPrimitives := {|
  placement_bindings := demo_primitives;
  placementIntent rec := Ok (MkIntent (rec_TenantID rec) (rec_SessionID rec) (rec_AgentID rec)
    (rec_RuntimeCompatibilityID rec) (rec_DesiredGeneration rec) (rec_DesiredWorkload rec));
  validateObservation _ := None;
  validateHostID _ := None;
  HostLinkEndpoint e _ := Ok e
|}.

Definition demo_store_limits : StoreLimits := {|
  MaxOrderedPageLimit := 100; DefaultHostTargetReconcilePages := 4; MaxHostTargetReconcilePages := 16 |}.

Definition demo_record : CatalogRecord :=
  Catalog_Record "t" "s" "agent" "rt" HostPlacementPooled 1 (Workload "" "") None 0 0
    (Session_Binding "storage" "1" "runtime" ProtocolModeDisposition) [].

Definition demo_candidate (host endpoint : string) : HostLinkCapacityReport :=
  CapacityReport host 1 "agent" "rt" HostPlacementPooled HostIsolationClassCrossTenantIsolated true 2 endpoint.

Definition demo_owner : HostLinkRegistryObservation :=
  RegistryObservation "t" "s" "h2" 1 7 "agent" "rt" HostPlacementPooled SessionResidencyResident true 100 "e2".

Definition demo_config : Config := MkConfig "replica" 30 10 "factory" 0 0 true false false.

Definition demo_request : Request := MkRequest "t" "s" None ["c1"; "c2"]%string ["c2"%string] [] [] false.

Definition demo_world : handler request nat := fun R c =>
  match c in request R return nat -> R * nat with
  | GetCatalogEntry _ _ => fun w => (Ok (Catalog_Entry demo_record 5), w)
  | UpdateCatalogDesiredState _ => fun w => (Ok (Catalog_Entry demo_record 6), w)
  | AcquireReconciliationClaim _ _ _ _ => fun w => (None, w)
  | ReleaseReconciliationClaim _ _ _ => fun w => (None, w)
  | Owner _ _ => fun w => (Ok None, w)
  | Candidates _ => fun w => (Ok (TargetPage [demo_candidate "h1" "e1"; demo_candidate "h2" "e2"] "" 0), w)
  | Now => fun w => (10, w)
  | EnsureWorkload _ => fun w => (None, w)
  | ObserveWorkload _ => fun w => (Ok None, w)
  | WorkloadEndpoint _ => fun w => (Ok None, w)
  | Attach _ _ => fun w =>
      match w with
      | O => (Fail (Err (Typed "placement.AttachRefusal" "HostLinkErrorEpochMismatch" "" 0) []), 1%nat)
      | S _ => (Ok demo_owner, w)
      end
  | Bind _ _ => fun w => (None, w)
  | Unbind _ => fun w => (None, w)
  | DeliverCommand _ _ _ => fun w => (None, w)
  | RouteFor _ _ => fun w => (None, w)
  | Accepts _ o => fun w => (Ok (bool_decide (obs_HostID o = "h2"%string)), w)
  | Wait _ => fun w => (None, w)
  end.

(** Both passes skip the incapable Host; the second attaches, binds, delivers
    both commands and unbinds; one pause of 200 ms; one report. *)
Example reconcile_demo :
  let '(out, calls, _) := run demo_world (@Reconcile demo_placement demo_config demo_request (MkReporter ∅ [])) O in
  out.1.2 = None /\ d_Outcome (res_Decision out.1.1) = OutcomeAttachPooled /\ res_Attached out.1.1 = Some demo_owner /\
  res_Delivered out.1.1 = 2 /\ res_Incapable out.1.1 = ["h1"; "h1"]%string /\ length (logged out.2) = 1%nat /\
  waits calls = [200 * millisecond] /\ tally is_attach calls = 2 /\ length calls = 27%nat.
Proof. vm_compute. repeat split. Qed.

Lemma pooled_placement_bounded_witness :
  @NewReconciler demo_store_limits 60 demo_config = Ok demo_config /\ hasLinks demo_config = true /\
  let '(_, calls, _) := run demo_world (@placePooled_body demo_placement demo_config demo_request 0) O in
  tally is_page calls <= replaceAttempts demo_config /\ length (waits calls) = 1%nat.
Proof.
  split; [reflexivity|]. split; [reflexivity|].
  pose proof (@pooled_placement_bounded demo_placement demo_store_limits 60 demo_config demo_config nat demo_world O
    demo_request 0 eq_refl eq_refl) as H.
  destruct (run demo_world (@placePooled_body demo_placement demo_config demo_request 0) O) as [[out calls] w] eqn:Hrun.
  destruct H as (_ & Hp & _). split; [exact (proj1 Hp)|]. vm_compute in Hrun. injection Hrun as _ <- _. reflexivity.
Defined.
