(* ===== verification/Pending.v ===== *)
(** * The pending-work sweep (src/internal/placement/pending.go)

    [PendingSweeper]: [NewPendingSweeper], [Sweep] with [begin], [collectPages],
    [commit] and [openSession.add], and the admission trigger
    [PlaceAdmission], [PlaceAdmissionWith], [collectAdmissionSession] and
    [collectAdmissionFallback], as programs over the interfaces the file
    declares. [begin] and [commit] are critical sections of the sweeper's mutex:
    pure transitions of its state. The principal a sweep runs as is only passed
    to the authorizer. *)

From S2P Require Import Prelude Wire Framing Bindings Directory Pool Placement Program Reconciler.
Local Open Scope prog_scope.

Definition ErrInvalidPendingSweeperConfig : error := sentinel "placement.ErrInvalidPendingSweeperConfig".

(** ** The inbox's records (github.com/looprig/sessionstore) *)

(** sessionstore.CommandKind with the vocabulary of src/internal/command/kind.go. *)
Inductive CommandKind :=
| KindCreateSession | KindInput | KindInterrupt | KindRestore | KindGateResponse | KindOther (value : string).

Inductive InboxState :=
| InboxStatePending | InboxStateClaimed | InboxStateApplying | InboxStateApplied | InboxStateRejected
| InboxStateOther (value : string).

#[global] Instance CommandKind_eq_dec : EqDecision CommandKind.
Proof. solve_decision. Defined.
#[global] Instance InboxState_eq_dec : EqDecision InboxState.
Proof. solve_decision. Defined.

(** The descriptor's members the code reads; presence of an optional member is
    a flag. *)
Record CommandDescriptor := MkDescriptor {
  desc_TenantID : TenantID;
  desc_SessionID : SessionID;
  desc_CommandID : CommandID;
  desc_Kind : CommandKind;
  desc_Binding : SessionBinding;
  desc_hasPayloadObject : bool;   (* PayloadObject != nil *)
  desc_hasPrincipal : bool;       (* Principal != nil *)
  desc_Metadata : Z               (* len(Metadata) *)
}.

Record DispositionInboxEntry := MkEntry {
  inbox_Descriptor : CommandDescriptor;
  inbox_ApplyDeadline : time;
  inbox_State : InboxState;
  inbox_AcceptedOrder : Z;
  inbox_hasAttempt : bool;        (* Attempt != nil *)
  inbox_Claim : option time;      (* Claim, by its ExpiresAt *)
  inbox_Revision : Z
}.

Record ListDueRequest := MkDueRequest { due_Shard : Z; due_Limit : Z; due_Cursor : Cursor; due_AtOrBefore : time }.

Record DuePage := MkDuePage {
  due_Commands : list DispositionInboxEntry;
  due_NextCursor : Cursor;
  due_Examined : Z;
  due_Unreadable : Z
}.

Record ListSessionRequest := MkSessionRequest {
  sess_TenantID : TenantID; sess_SessionID : SessionID; sess_AfterOrder : Z; sess_Limit : Z }.

Record SessionPage := MkSessionPage { sess_Commands : list DispositionInboxEntry; sess_NextAfterOrder : Z }.

Record AdmissionNotice := MkNotice {
  notice_TenantID : TenantID;
  notice_SessionID : SessionID;
  notice_CommandID : CommandID;
  notice_AcceptedOrder : Z;
  notice_Deadline : time;
  notice_Pending : bool
}.

Definition notice_key (n : AdmissionNotice) : sessionKey := SessionKey (notice_TenantID n) (notice_SessionID n).

Definition Notice (entry : DispositionInboxEntry) : AdmissionNotice :=
  let d := inbox_Descriptor entry in
  MkNotice (desc_TenantID d) (desc_SessionID d) (desc_CommandID d) (inbox_AcceptedOrder entry)
    (inbox_ApplyDeadline entry) (bool_decide (inbox_State entry = InboxStatePending)).

(** ** Configuration and state *)

(** sessionstore.MinControlShards: a store has at least one shard. *)
Class ControlLimits := { MinControlShards : Z; MinControlShards_pos : 0 < MinControlShards }.

Record PendingSweeperConfig := MkSweeperConfig {
  Horizon : Z;
  PageLimit : Z;
  MaxPages : Z;
  hasSessionCommands : bool;     (* SessionCommands != nil *)
  hasCatalogAndDirectory : bool; (* Catalog != nil && Directory != nil *)
  hasAdmissionPlacer : bool      (* AdmissionPlacer != nil *)
}.

Record PendingSweeper := MkSweeper { next : Z; cursors : gmap Z Cursor }.

Definition NewPendingSweeper `{StoreLimits} (cfg : PendingSweeperConfig) : result PendingSweeper :=
  if Horizon cfg <=? 0 then Fail (wrapf [ErrInvalidPendingSweeperConfig])
  else if (PageLimit cfg <? 1) || (MaxOrderedPageLimit <? PageLimit cfg) then Fail (wrapf [ErrInvalidPendingSweeperConfig])
  else if MaxPages cfg <? 1 then Fail (wrapf [ErrInvalidPendingSweeperConfig])
  else Ok (MkSweeper 0 ∅).

(** [Outcomes] counts by outcome. *)
#[global] Instance Outcome_countable : Countable Outcome :=
  inj_countable'
    (fun o => match o with OutcomeUndecided => 0%nat | OutcomeReuseOwner => 1%nat | OutcomeAttachPooled => 2%nat
              | OutcomeReconcileDedicated => 3%nat | OutcomeNoCapacity => 4%nat end)
    (fun n => match n with O => OutcomeUndecided | 1%nat => OutcomeReuseOwner | 2%nat => OutcomeAttachPooled
              | 3%nat => OutcomeReconcileDedicated | _ => OutcomeNoCapacity end)
    (fun o => match o with OutcomeUndecided | OutcomeReuseOwner | OutcomeAttachPooled
              | OutcomeReconcileDedicated | OutcomeNoCapacity => eq_refl end).

Definition outcomeCount (m : gmap Outcome Z) (o : Outcome) : Z := default 0 (m !! o).

Record PendingSweepResult := MkSweepResult {
  Shard : Z;
  Pages : Z;
  Examined : Z;
  Unreadable : Z;
  Truncated : bool;
  Resumed : bool;
  Sessions : Z;
  Outcomes : gmap Outcome Z;
  Attached : Z;
  Deferred : Z;
  NoController : Z;
  Released : Z;
  Failures : Z
}.

Definition zeroSweep : PendingSweepResult := MkSweepResult 0 0 0 0 false false 0 ∅ 0 0 0 0 0.

Definition countPage (page : DuePage) (r : PendingSweepResult) : PendingSweepResult :=
  let 'MkSweepResult a p e u t b s o at_ d n rl f := r in
  MkSweepResult a (p + 1) (e + due_Examined page) (u + due_Unreadable page) t b s o at_ d n rl f.
Definition setTruncated (r : PendingSweepResult) : PendingSweepResult :=
  let 'MkSweepResult a p e u _ b s o at_ d n rl f := r in MkSweepResult a p e u true b s o at_ d n rl f.

(** ** Open sessions *)
Record openSession := MkOpen {
  os_tenant : TenantID;
  os_id : SessionID;
  os_wake : list CommandID;
  os_needsHost : bool;
  os_gates : list CommandID;
  os_references : list CommandID;
  os_principals : list CommandID;
  os_restore : bool
}.

Definition newOpen (tenant : TenantID) (session : SessionID) : openSession :=
  MkOpen tenant session [] false [] [] [] false.

Definition os_key (s : openSession) : sessionKey := SessionKey (os_tenant s) (os_id s).
Definition entry_key (e : DispositionInboxEntry) : sessionKey :=
  SessionKey (desc_TenantID (inbox_Descriptor e)) (desc_SessionID (inbox_Descriptor e)).

Definition appendIf (b : bool) (c : CommandID) (l : list CommandID) : list CommandID := if b then l ++ [c] else l.

Definition add (entry : DispositionInboxEntry) (now : time) (s : openSession) : openSession :=
  let d := inbox_Descriptor entry in
  let c := desc_CommandID d in
  let live := now <? inbox_ApplyDeadline entry in
  let carries := desc_hasPrincipal d || (0 <? desc_Metadata d) in
  match inbox_State entry with
  | InboxStatePending =>
      if live then
        let referenced := desc_hasPayloadObject d &&
          (bool_decide (desc_Kind d = KindCreateSession) || bool_decide (desc_Kind d = KindInput)) in
        MkOpen (os_tenant s) (os_id s) (os_wake s ++ [c]) true
          (appendIf (bool_decide (desc_Kind d = KindGateResponse)) c (os_gates s))
          (appendIf referenced c (os_references s))
          (appendIf carries c (os_principals s))
          (os_restore s || bool_decide (desc_Kind d = KindRestore))
      else s
  | InboxStateClaimed =>
      if live then
        MkOpen (os_tenant s) (os_id s) (os_wake s) true (os_gates s) (os_references s)
          (appendIf carries c (os_principals s)) (os_restore s)
      else s
  | InboxStateApplying =>
      MkOpen (os_tenant s) (os_id s) (os_wake s) true (os_gates s) (os_references s) (os_principals s) (os_restore s)
  | _ => s
  end.

(** One entry of a page: the [sessions] map finds the session's open record in
    [order], or a new one is appended there. *)
Fixpoint file (now : time) (order : list openSession) (entry : DispositionInboxEntry) : list openSession :=
  match order with
  | [] => [add entry now (newOpen (desc_TenantID (inbox_Descriptor entry)) (desc_SessionID (inbox_Descriptor entry)))]
  | s :: rest =>
      if bool_decide (os_key s = entry_key entry) then add entry now s :: rest else s :: file now rest entry
  end.

(** The reconcile request for an open session. *)
Definition openRequest (s : openSession) : Request :=
  MkRequest (os_tenant s) (os_id s) None (os_wake s) (os_gates s) (os_references s) (os_principals s) (os_restore s).

(** ** The calls *)
Inductive placer := SweepPlacer | AdmissionPlacer | GivenPlacer (n : nat).

Inductive sweepCall (Principal : Type) : Type -> Type :=
| AuthorizeServiceSweep (principal : Principal) : sweepCall Principal (option error)
| ControlShards : sweepCall Principal Z
| ListDueDispositionCommands (req : ListDueRequest) : sweepCall Principal (result DuePage)
| ListSessionDispositionCommands (req : ListSessionRequest) : sweepCall Principal (result SessionPage)
| CatalogEntryOf (tenant : TenantID) (session : SessionID) : sweepCall Principal (result CatalogEntry)
| OwnerOf (tenant : TenantID) (session : SessionID) : sweepCall Principal (result (option HostLinkRegistryObservation))
| Clock : sweepCall Principal time
| CtxErr : sweepCall Principal (option error)
| Place (p : placer) (req : Request) : sweepCall Principal (Result * option error).
Arguments AuthorizeServiceSweep {Principal} principal.
Arguments ControlShards {Principal}.
Arguments ListDueDispositionCommands {Principal} req.
Arguments ListSessionDispositionCommands {Principal} req.
Arguments CatalogEntryOf {Principal} tenant session.
Arguments OwnerOf {Principal} tenant session.
Arguments Clock {Principal}.
Arguments CtxErr {Principal}.
Arguments Place {Principal} p req.

(** ** Rotation *)
Section Rotation.
Context `{ControlLimits}.

(** [begin] with the number of shards the store answered. *)
Definition begin (shards : Z) (s : PendingSweeper) : result (Z * Cursor) * PendingSweeper :=
  if shards <? MinControlShards then (Fail (wrapf []), s)
  else
    let shard := if shards <=? next s then 0 else next s in
    let kept := filter (fun kv => kv.1 < shards) (cursors s) in
    (Ok (shard, default ""%string (kept !! shard)), MkSweeper ((shard + 1) `rem` shards) kept).

Definition commit (shard : Z) (cursor : Cursor) (s : PendingSweeper) : PendingSweeper :=
  if bool_decide (cursor = ""%string) then MkSweeper (next s) (delete shard (cursors s))
  else MkSweeper (next s) (<[shard := cursor]> (cursors s)).
End Rotation.

Section Pending.
Context `{ControlLimits} {Principal : Type} (cfg : PendingSweeperConfig).
Abbreviation sweep_routine := (prog (sweepCall Principal)).

Definition refusedCursor (err : error) : bool := code_is "InboxError" "InboxErrorCursor" err.

Definition dueRequest (shard : Z) (cursor : Cursor) (now : time) : ListDueRequest :=
  MkDueRequest shard (PageLimit cfg) cursor (if bool_decide (cursor = ""%string) then now + Horizon cfg else 0).

(** The pages left to read are the recursion's measure. *)
Fixpoint collectPages (shard : Z) (now : time) (pages : nat) (cursor : Cursor) (order : list openSession)
    (result : PendingSweepResult)
    : sweep_routine ((list openSession * Cursor * option error) * PendingSweepResult) :=
  match pages with
  | O => Ret ((order, cursor, None), setTruncated result)
  | S pages =>
      call! page := ListDueDispositionCommands (dueRequest shard cursor now) in
      match page with
      | Fail err =>
          if refusedCursor err then Ret (([], "", Some (wrapf [err])), result)
          else Ret (([], cursor, Some (wrapf [err])), result)
      | Ok page =>
          let result := countPage page result in
          let order := foldl (file now) order (due_Commands page) in
          if bool_decide (due_NextCursor page = ""%string) then Ret ((order, "", None), result)
          else collectPages shard now pages (due_NextCursor page) order result
      end
  end%string.

Definition collect (shard : Z) (cursor : Cursor) (now : time) (result : PendingSweepResult) :=
  collectPages shard now (Z.to_nat (MaxPages cfg)) cursor [] result.

(** What one placement did to the counters. *)
Inductive placed := PlacedReleased | PlacedNoController | PlacedFailed | PlacedDeferred | PlacedOutcome (o : Outcome) (attached : bool).

Definition classifyPlaced (answer : Result * option error) : placed :=
  match answer.2 with
  | Some err =>
      if errors_is err (Sentinel "placement.ErrSessionReleased") then PlacedReleased
      else if errors_is err (Sentinel "placement.ErrNoWorkloadController") then PlacedNoController
      else PlacedFailed
  | None =>
      if res_Deferred answer.1 then PlacedDeferred
      else PlacedOutcome (d_Outcome (res_Decision answer.1)) (bool_decide (is_Some (res_Attached answer.1)))
  end.

Definition countPlaced (p : placed) (r : PendingSweepResult) : PendingSweepResult :=
  let 'MkSweepResult a pg e u t b s o at_ d n rl f := r in
  match p with
  | PlacedReleased => MkSweepResult a pg e u t b (s + 1) o at_ d n (rl + 1) f
  | PlacedNoController => MkSweepResult a pg e u t b (s + 1) o at_ d (n + 1) rl f
  | PlacedFailed => MkSweepResult a pg e u t b (s + 1) o at_ d n rl (f + 1)
  | PlacedDeferred => MkSweepResult a pg e u t b (s + 1) o at_ (d + 1) n rl f
  | PlacedOutcome out attached =>
      MkSweepResult a pg e u t b (s + 1) (<[out := outcomeCount o out + 1]> o) (if attached then at_ + 1 else at_) d n rl f
  end.

(** The loop over the sessions. *)
Fixpoint placeAll (sessions : list openSession) (result : PendingSweepResult)
    : sweep_routine (PendingSweepResult * option error) :=
  match sessions with
  | [] => Ret (result, None)
  | session :: sessions =>
      if negb (os_needsHost session) then placeAll sessions result
      else
        call! answer := Place SweepPlacer (openRequest session) in
        let p := classifyPlaced answer in
        let result := countPlaced p result in
        match p with
        | PlacedFailed =>
            call! ctxErr := CtxErr in
            match ctxErr with
            | Some err => Ret (result, Some err)
            | None => placeAll sessions result
            end
        | _ => placeAll sessions result
        end
  end.

Definition Sweep (principal : Principal) (s : PendingSweeper)
    : sweep_routine ((PendingSweepResult * option error) * PendingSweeper) :=
  call! refused := AuthorizeServiceSweep principal in
  match refused with
  | Some err => Ret ((zeroSweep, Some err), s)
  | None =>
      call! shards := ControlShards in
      match begin shards s with
      | (Fail err, s) => Ret ((zeroSweep, Some err), s)
      | (Ok (shard, cursor), s) =>
          let result := MkSweepResult shard 0 0 0 false (negb (bool_decide (cursor = ""%string))) 0 ∅ 0 0 0 0 0 in
          call! now := Clock in
          let! ((sessions, position, err), result) := collect shard cursor now result in
          let s := commit shard position s in
          match err with
          | Some err => Ret ((result, Some err), s)
          | None => let! out := placeAll sessions result in Ret (out, s)
          end
      end
  end.

(** ** The admission trigger *)

(** [for shard := range ControlShards()]: [shards] remain, from [shard] on. *)
Fixpoint fallbackLoop (notice : AdmissionNotice) (shards : nat) (shard : Z) (remaining : nat)
    : sweep_routine (result (option openSession)) :=
  match shards, remaining with
  | O, _ | _, O => Ret (Ok None)
  | S shards, S _ =>
      call! now := Clock in
      let! ((sessions, _, err), result) := collectPages shard now remaining "" [] zeroSweep in
      let remaining := Nat.sub remaining (Z.to_nat (Pages result)) in
      match err with
      | Some err => Ret (Fail err)
      | None =>
          match list_find (fun s => os_key s = notice_key notice) sessions with
          | Some (_, session) =>
              if Truncated result || negb (bool_decide (notice_CommandID notice ∈ os_wake session)) then Ret (Ok None)
              else Ret (Ok (Some session))
          | None => fallbackLoop notice shards (shard + 1) remaining
          end
      end
  end.

Definition maxDuePages : nat := 2.

Definition collectAdmissionFallback (notice : AdmissionNotice) : sweep_routine (result (option openSession)) :=
  call! shards := ControlShards in
  fallbackLoop notice (Z.to_nat shards) 0 maxDuePages.

(** Each entry is added at a time of its own. *)
Fixpoint addAll (entries : list DispositionInboxEntry) (target : openSession) : sweep_routine openSession :=
  match entries with
  | [] => Ret target
  | entry :: entries => call! now := Clock in addAll entries (add entry now target)
  end.

Fixpoint sessionLoop (notice : AdmissionNotice) (pages : nat) (after : Z) (target : openSession)
    : sweep_routine (result openSession) :=
  match pages with
  | O => Ret (Ok target)
  | S pages =>
      call! page := ListSessionDispositionCommands
        (MkSessionRequest (notice_TenantID notice) (notice_SessionID notice) after (PageLimit cfg)) in
      match page with
      | Fail err => Ret (Fail err)
      | Ok page =>
          if bool_decide (sess_Commands page = []) then Ret (Ok target)
          else if sess_NextAfterOrder page <=? after then Ret (Fail (wrapf []))
          else
            let! target := addAll (sess_Commands page) target in
            if (notice_AcceptedOrder notice <=? sess_NextAfterOrder page) &&
               bool_decide (notice_CommandID notice ∈ os_wake target) then Ret (Ok target)
            else if Z.of_nat (length (sess_Commands page)) <? PageLimit cfg then Ret (Ok target)
            else sessionLoop notice pages (sess_NextAfterOrder page) target
      end
  end.

Definition collectAdmissionSession (notice : AdmissionNotice) : sweep_routine (result (option openSession)) :=
  let! target := sessionLoop notice (Z.to_nat (MaxPages cfg)) 0
    (newOpen (notice_TenantID notice) (notice_SessionID notice)) in
  match target with
  | Fail err => Ret (Fail err)
  | Ok target =>
      if negb (bool_decide (notice_CommandID notice ∈ os_wake target)) then collectAdmissionFallback notice
      else Ret (Ok (Some target))
  end.

(** The routine from the inventory on. *)
Definition placeTarget (notice : AdmissionNotice) (p : placer) : sweep_routine (Result * option error) :=
  let! target := (if hasSessionCommands cfg then collectAdmissionSession notice else collectAdmissionFallback notice) in
  match target with
  | Fail err => Ret (zeroResult, Some err)
  | Ok None => Ret (zeroResult, None)
  | Ok (Some target) =>
      if negb (os_needsHost target) then Ret (zeroResult, None)
      else call! answer := Place p (openRequest target) in Ret answer
  end.

Definition PlaceAdmissionWith (principal : Principal) (notice : AdmissionNotice) (p : placer)
    : sweep_routine (Result * option error) :=
  call! refused := AuthorizeServiceSweep principal in
  match refused with
  | Some err => Ret (zeroResult, Some err)
  | None =>
      let inventory :=
        if hasCatalogAndDirectory cfg then
          call! entry := CatalogEntryOf (notice_TenantID notice) (notice_SessionID notice) in
          match entry with
          | Fail err => Ret (zeroResult, Some err)
          | Ok entry =>
              call! owner := OwnerOf (notice_TenantID notice) (notice_SessionID notice) in
              match owner with
              | Fail err => Ret (zeroResult, Some err)
              | Ok None => placeTarget notice p
              | Ok (Some owner) =>
                  call! now := Clock in
                  match routable (entry_Record entry) (Some owner) now with
                  | Some _ => Ret (zeroResult, None)
                  | None => placeTarget notice p
                  end
              end
          end
        else placeTarget notice p in
      if negb (notice_Pending notice) then Ret (zeroResult, None)
      else
        call! now := Clock in
        if negb (now <? notice_Deadline notice) then Ret (zeroResult, None) else inventory
  end.

Definition PlaceAdmission (principal : Principal) (notice : AdmissionNotice) : sweep_routine (Result * option error) :=
  PlaceAdmissionWith principal notice (if hasAdmissionPlacer cfg then AdmissionPlacer else SweepPlacer).
End Pending.

(** * Proofs *)

(** ** The rotation

    [pass n pos i s] is the state before the [i]-th pass from [s], when the
    store keeps answering [n] shards and the [i]-th pass leaves the position
    [pos i]; [visit] is what [begin] hands the [i]-th pass. *)
Section RotationProofs.
Context `{ControlLimits} (n : Z) (pos : nat -> Cursor).

Fixpoint pass (i : nat) (s : PendingSweeper) : PendingSweeper :=
  match i with
  | O => s
  | S i =>
      let s := pass i s in
      match begin n s with
      | (Ok (shard, _), s) => commit shard (pos i) s
      | (Fail _, s) => s
      end
  end.

Definition visit (i : nat) (s : PendingSweeper) : result (Z * Cursor) := (begin n (pass i s)).1.

Definition in_range (s : PendingSweeper) : Prop := 0 <= next s < n.

Hypothesis enough : MinControlShards <= n.

Lemma n_pos : 0 < n.
Proof using enough. pose proof MinControlShards_pos. lia. Qed.

(** The position kept for a shard. *)
Definition kept (s : PendingSweeper) (shard : Z) : Cursor := default ""%string (cursors s !! shard).

Lemma kept_filter (s : PendingSweeper) shard :
  shard < n -> default ""%string (filter (fun kv : Z * Cursor => kv.1 < n) (cursors s) !! shard) = kept s shard.
Proof.
  intros Hs. unfold kept. destruct (cursors s !! shard) as [c|] eqn:Hc; simpl.
  - by rewrite (proj2 (map_lookup_filter_Some _ _ _ _) (conj Hc Hs)).
  - by rewrite (proj2 (map_lookup_filter_None _ _ _)) by (by left).
Qed.

Lemma begin_spec s :
  in_range s ->
  exists s', begin n s = (Ok (next s, kept s (next s)), s') /\ next s' = (next s + 1) `mod` n /\
  (forall shard, shard < n -> kept s' shard = kept s shard).
Proof using enough.
  intros [Hlo Hhi]. pose proof n_pos. unfold begin.
  rewrite (proj2 (Z.ltb_ge _ _) enough), (proj2 (Z.leb_gt n (next s)) Hhi).
  eexists. split; [by rewrite kept_filter|]. split; [by rewrite Z.rem_mod_nonneg by lia|].
  intros shard Hs. by apply kept_filter.
Qed.

Lemma kept_commit shard c s shard' :
  kept (commit shard c s) shard' = if decide (shard' = shard) then c else kept s shard'.
Proof.
  unfold commit, kept. case_bool_decide as Hc; simpl; destruct (decide (shard' = shard)) as [->|Hne].
  - by rewrite lookup_delete_eq, Hc.
  - by rewrite lookup_delete_ne by done.
  - by rewrite lookup_insert_eq.
  - by rewrite lookup_insert_ne by done.
Qed.

Lemma next_commit shard c s : next (commit shard c s) = next s.
Proof. unfold commit. by case_bool_decide. Qed.

Lemma pass_next i s : in_range s -> in_range (pass i s) /\ next (pass i s) = (next s + Z.of_nat i) `mod` n.
Proof using enough.
  pose proof n_pos. intros Hs. induction i as [|i [IHr IHn]]; simpl.
  - split; [done|]. rewrite Z.add_0_r. symmetry. by apply Z.mod_small.
  - destruct (begin_spec _ IHr) as (s' & -> & Hn & _). unfold in_range. rewrite next_commit, Hn, IHn.
    split; [apply Z.mod_pos_bound; lia|]. rewrite Zplus_mod_idemp_l. f_equal. lia.
Qed.

(** Between a pass and the next over its shard, nothing touches its position. *)
Lemma pass_kept i j s :
  in_range s -> (j < Z.to_nat n)%nat ->
  kept (pass (S i + j) s) ((next s + Z.of_nat i) `mod` n) = pos i.
Proof using enough.
  pose proof n_pos. intros Hs. induction j as [|j IH]; intros Hj.
  - rewrite Nat.add_0_r. simpl. destruct (pass_next i s Hs) as [Hr Hn].
    destruct (begin_spec _ Hr) as (s' & -> & _ & _). rewrite kept_commit, Hn. by rewrite decide_True.
  - rewrite Nat.add_succ_r. cbn [pass]. destruct (pass_next (S i + j) s Hs) as [Hr Hn].
    destruct (begin_spec _ Hr) as (s' & -> & _ & Hk). rewrite kept_commit, Hn.
    rewrite decide_False; [rewrite Hk; [apply IH; lia|apply Z.mod_pos_bound; lia]|].
    intros Heq. assert (Hmod : (Z.of_nat (S j)) `mod` n = 0).
    { replace (Z.of_nat (S j)) with ((next s + Z.of_nat (S i + j)) - (next s + Z.of_nat i)) by lia.
      rewrite Zminus_mod, <- Heq, Z.sub_diag. by rewrite Z.mod_0_l by lia. }
    rewrite Z.mod_small in Hmod by lia. lia.
Qed.
End RotationProofs.

(** successive passes visit the control shards round-robin, whatever the
    passes find, so every shard is swept once in any [n] consecutive passes;
    and the pass that comes back to a shard resumes exactly where the previous
    pass over that shard stopped (from the head when it had reached the end),
    so no command behind a long head of skipped rows is starved. *)
Theorem sweep_rotates_and_resumes `{ControlLimits} (n : Z) (pos : nat -> Cursor) (s : PendingSweeper) (i : nat) :
  MinControlShards <= n -> 0 <= next s < n ->
  (exists cursor, visit n pos i s = Ok ((next s + Z.of_nat i) `mod` n, cursor)) /\
  visit n pos (i + Z.to_nat n) s = Ok ((next s + Z.of_nat i) `mod` n, pos i) /\
  (forall shard, 0 <= shard < n -> exists j cursor, (j < Z.to_nat n)%nat /\ visit n pos (i + j) s = Ok (shard, cursor)).
Proof.
  intros Hn Hs. pose proof (n_pos n Hn) as Hpos.
  assert (Hvisit : forall k, visit n pos k s = Ok ((next s + Z.of_nat k) `mod` n, kept (pass n pos k s) ((next s + Z.of_nat k) `mod` n))).
  { intros k. unfold visit. destruct (pass_next n pos Hn k s Hs) as [Hr Hk].
    destruct (begin_spec n Hn _ Hr) as (s' & -> & _). simpl. by rewrite Hk. }
  split_and!.
  - eexists. apply Hvisit.
  - rewrite Hvisit. replace ((next s + Z.of_nat (i + Z.to_nat n)) `mod` n) with ((next s + Z.of_nat i) `mod` n).
    + replace (i + Z.to_nat n)%nat with (S i + (Z.to_nat n - 1))%nat by lia.
      by rewrite (pass_kept n pos Hn) by (done || lia).
    + replace (next s + Z.of_nat (i + Z.to_nat n)) with (next s + Z.of_nat i + 1 * n) by lia. by rewrite Z_mod_plus_full.
  - intros shard Hsh. exists (Z.to_nat ((shard - (next s + Z.of_nat i)) `mod` n)).
    pose proof (Z.mod_pos_bound (shard - (next s + Z.of_nat i)) n Hpos). eexists. split; [lia|].
    rewrite Hvisit. replace ((next s + Z.of_nat (i + _)) `mod` n) with shard; [done|].
    rewrite Nat2Z.inj_add, Z2Nat.id, Z.add_assoc, Zplus_mod_idemp_r by lia.
    replace (next s + Z.of_nat i + (shard - (next s + Z.of_nat i))) with shard by lia. by rewrite Z.mod_small.
Qed.

(** ** Grouping by session *)
Lemma add_key entry now s : os_key (add entry now s) = os_key s.
Proof. unfold add. by repeat case_match. Qed.

(** The reference, from the entries listed and the time alone. A command waits
    while it is pending and its deadline has not passed, and is held while it is
    claimed and its deadline has not passed. *)
Definition waits_at (now : time) (e : DispositionInboxEntry) : bool :=
  bool_decide (inbox_State e = InboxStatePending) && (now <? inbox_ApplyDeadline e).
Definition held_at (now : time) (e : DispositionInboxEntry) : bool :=
  bool_decide (inbox_State e = InboxStateClaimed) && (now <? inbox_ApplyDeadline e).
Definition of_kind (kinds : list CommandKind) (e : DispositionInboxEntry) : bool := bool_decide (desc_Kind (inbox_Descriptor e) ∈ kinds).

(** The identifiers of a session's commands that satisfy [f], as listed. *)
Definition commands_of (f : DispositionInboxEntry -> bool) (key : sessionKey) (entries : list DispositionInboxEntry) : list CommandID :=
  (fun e => desc_CommandID (inbox_Descriptor e)) <$> filter (fun e => entry_key e = key /\ f e = true) entries.

(** A session needs a Host while a command of it waits, is held or is being
    applied. *)
Definition needs_host (now : time) (entries : list DispositionInboxEntry) (key : sessionKey) : bool :=
  existsb (fun e => bool_decide (entry_key e = key)
    && (waits_at now e || held_at now e || bool_decide (inbox_State e = InboxStateApplying))) entries.

(** The placement a session is owed: to wake what waits; of that, the gate
    responses, and the creates and inputs whose payload is an object; what waits
    or is held and carries a principal or metadata; and whether a restore
    waits. *)
Definition request_for (now : time) (entries : list DispositionInboxEntry) (key : sessionKey) : Request :=
  MkRequest (key_tenant key) (key_session key) None
    (commands_of (waits_at now) key entries)
    (commands_of (fun e => waits_at now e && of_kind [KindGateResponse] e) key entries)
    (commands_of (fun e => waits_at now e && of_kind [KindCreateSession; KindInput] e && desc_hasPayloadObject (inbox_Descriptor e)) key entries)
    (commands_of (fun e => (waits_at now e || held_at now e)
       && (desc_hasPrincipal (inbox_Descriptor e) || (0 <? desc_Metadata (inbox_Descriptor e)))) key entries)
    (existsb (fun e => bool_decide (entry_key e = key) && (waits_at now e && of_kind [KindRestore] e)) entries).

(** The sessions listed, each once, in the order they were first seen. *)
Definition first_seen (entries : list DispositionInboxEntry) : list sessionKey :=
  foldl (fun seen e => if bool_decide (entry_key e ∈ seen) then seen else seen ++ [entry_key e]) [] entries.

(** What a sweep of [entries] owes. *)
Definition placements_owed (now : time) (entries : list DispositionInboxEntry) : list Request :=
  request_for now entries <$> filter (fun key => needs_host now entries key = true) (first_seen entries).

Lemma commands_snoc f key entries e :
  commands_of f key (entries ++ [e]) =
  commands_of f key entries ++ (if bool_decide (entry_key e = key) && f e then [desc_CommandID (inbox_Descriptor e)] else []).
Proof.
  unfold commands_of. rewrite filter_app, fmap_app. f_equal. case_bool_decide as Hk; simpl; [destruct (f e) eqn:Hf|].
  - by rewrite filter_cons_True.
  - rewrite filter_cons_False; [done|]. intros [_ ?]. congruence.
  - rewrite filter_cons_False; [done|]. by intros [? _].
Qed.

Lemma existsb_snoc {A} (f : A -> bool) l x : existsb f (l ++ [x]) = existsb f l || f x.
Proof. rewrite existsb_app. simpl. by rewrite orb_false_r. Qed.

(** The code's open record of a session: its entries, added in order. *)
Definition gathered (now : time) (key : sessionKey) (entries : list DispositionInboxEntry) : openSession :=
  foldl (fun s e => add e now s) (newOpen (key_tenant key) (key_session key))
    (filter (fun e => entry_key e = key) entries).

Lemma gathered_key now key entries : os_key (gathered now key entries) = key.
Proof.
  unfold gathered. assert (Hinit : os_key (newOpen (key_tenant key) (key_session key)) = key) by (by destruct key).
  revert Hinit. generalize (newOpen (key_tenant key) (key_session key)).
  induction (filter (fun e => entry_key e = key) entries) as [|e es IH]; intros s Hs; simpl; [done|].
  apply IH. by rewrite add_key.
Qed.

Lemma gathered_snoc now key entries e :
  gathered now key (entries ++ [e]) =
  if decide (entry_key e = key) then add e now (gathered now key entries) else gathered now key entries.
Proof.
  unfold gathered. rewrite filter_app. destruct (decide (entry_key e = key)) as [He|He].
  - by rewrite filter_cons_True, foldl_app.
  - by rewrite filter_cons_False, app_nil_r.
Qed.

Lemma request_snoc_other now entries e key : entry_key e <> key ->
  request_for now (entries ++ [e]) key = request_for now entries key /\ needs_host now (entries ++ [e]) key = needs_host now entries key.
Proof.
  intros Hk. unfold request_for, needs_host. rewrite !commands_snoc, !existsb_snoc, !(bool_decide_false (entry_key e = key)) by done. simpl.
  by rewrite !app_nil_r, !orb_false_r.
Qed.

(** One more entry of a session: [add] keeps to the reference. *)
Lemma add_request now entries e key s : entry_key e = key ->
  openRequest s = request_for now entries key -> os_needsHost s = needs_host now entries key ->
  openRequest (add e now s) = request_for now (entries ++ [e]) key /\ os_needsHost (add e now s) = needs_host now (entries ++ [e]) key.
Proof.
  intros Hk Hs Hn. unfold request_for, needs_host in *. rewrite !commands_snoc, !existsb_snoc, !(bool_decide_true (entry_key e = key)) by done.
  rewrite <- Hn. destruct s as [t sid wake need gates refs prins restore]. unfold openRequest in Hs. simpl in *. injection Hs as -> -> -> -> -> -> ->.
  unfold add, waits_at, held_at, appendIf, of_kind.
  assert (Hgate : forall k, bool_decide (desc_Kind (inbox_Descriptor e) ∈ [k]) = bool_decide (desc_Kind (inbox_Descriptor e) = k))
    by (intros k; apply bool_decide_ext, list_elem_of_singleton).
  assert (Hin : bool_decide (desc_Kind (inbox_Descriptor e) ∈ [KindCreateSession; KindInput])
    = bool_decide (desc_Kind (inbox_Descriptor e) = KindCreateSession) || bool_decide (desc_Kind (inbox_Descriptor e) = KindInput))
    by (rewrite <- bool_decide_or; apply bool_decide_ext; set_solver).
  rewrite !Hgate, Hin. clear Hgate Hin Hn.
  destruct (inbox_State e), (now <? inbox_ApplyDeadline e); simpl; rewrite ?app_nil_r, ?orb_false_r, ?orb_true_r; try done.
  all: try rewrite (andb_comm (bool_decide _ || bool_decide _)).
  all: split; [unfold openRequest; simpl; f_equal|done]; by case_match; rewrite ?app_nil_r.
Qed.

Lemma gathered_request now entries key :
  openRequest (gathered now key entries) = request_for now entries key /\ os_needsHost (gathered now key entries) = needs_host now entries key.
Proof.
  induction entries as [|e entries [IHr IHn]] using rev_ind; [done|]. rewrite gathered_snoc.
  destruct (decide (entry_key e = key)) as [He|He]; [by apply add_request|].
  destruct (request_snoc_other now entries e key He) as [-> ->]. done.
Qed.

(** The sessions of [entries], each once, with its own open work. *)
Record grouped (now : time) (entries : list DispositionInboxEntry) (sessions : list openSession) : Prop := {
  grouped_once : NoDup (os_key <$> sessions);
  grouped_order : os_key <$> sessions = first_seen entries;
  grouped_all : forall key, key ∈ os_key <$> sessions <-> exists e, e ∈ entries /\ entry_key e = key;
  grouped_own : forall s, s ∈ sessions -> s = gathered now (os_key s) entries
}.

Lemma file_keys now e sessions :
  os_key <$> file now sessions e =
  if decide (entry_key e ∈ os_key <$> sessions) then os_key <$> sessions else (os_key <$> sessions) ++ [entry_key e].
Proof.
  induction sessions as [|s sessions IH].
  - rewrite decide_False by (apply not_elem_of_nil). simpl. by rewrite add_key.
  - cbn [file]. rewrite fmap_cons. case_bool_decide as Hk; rewrite fmap_cons.
    + rewrite add_key, decide_True; [done|]. rewrite Hk. apply elem_of_cons. by left.
    + rewrite IH. destruct (decide (entry_key e ∈ os_key <$> sessions)) as [Hin|Hin].
      * rewrite decide_True; [done|]. apply elem_of_cons. by right.
      * rewrite decide_False; [done|]. rewrite elem_of_cons. by intros [?|?].
Qed.

Lemma file_elem now e sessions s :
  NoDup (os_key <$> sessions) -> s ∈ file now sessions e ->
  (s ∈ sessions /\ os_key s <> entry_key e) \/
  (exists s0, s = add e now s0 /\ os_key s0 = entry_key e /\
     (s0 ∈ sessions \/ (entry_key e ∉ os_key <$> sessions /\
                        s0 = newOpen (key_tenant (entry_key e)) (key_session (entry_key e))))).
Proof.
  induction sessions as [|x sessions IH]; simpl; intros Hnd Hs.
  - apply list_elem_of_singleton in Hs as ->. right. eexists. split_and!; [done|done|]. right.
    split; [apply not_elem_of_nil|done].
  - apply NoDup_cons in Hnd as [Hx Hnd]. case_bool_decide as Hk.
    + apply elem_of_cons in Hs as [->|Hs].
      * right. exists x. split_and!; [done|done|]. left. apply elem_of_cons. by left.
      * left. split; [apply elem_of_cons; by right|]. intros Heq. apply Hx. rewrite Hk, <- Heq. by apply list_elem_of_fmap_2.
    + apply elem_of_cons in Hs as [->|Hs]; [left; split; [apply elem_of_cons; by left|done]|].
      destruct (IH Hnd Hs) as [[? ?]|(s0 & -> & Hs0 & [Hin|[Hout Hnew]])].
      * left. split; [apply elem_of_cons; by right|done].
      * right. exists s0. split_and!; [done|done|]. left. apply elem_of_cons. by right.
      * right. exists s0. split_and!; [done|done|]. right. split; [|done]. rewrite elem_of_cons. by intros [?|?].
Qed.

Lemma grouped_file now entries sessions e :
  grouped now entries sessions -> grouped now (entries ++ [e]) (file now sessions e).
Proof.
  intros [Hnd Hord Hall Hown]. split.
  - rewrite file_keys. case_decide as Hin; [done|]. apply NoDup_app. split_and!; [done| |apply NoDup_singleton].
    intros k Hk. rewrite list_elem_of_singleton. by intros ->.
  - rewrite file_keys. unfold first_seen. rewrite foldl_app. simpl. fold (first_seen entries). rewrite <- Hord.
    case_decide; [by rewrite bool_decide_true|by rewrite bool_decide_false].
  - intros key. rewrite file_keys. case_decide as Hin.
    + rewrite Hall. split; intros (x & Hx & Hk).
      * exists x. split; [apply elem_of_app; by left|done].
      * apply elem_of_app in Hx as [Hx|Hx]; [by exists x|]. apply list_elem_of_singleton in Hx as ->. subst key. by apply Hall.
    + rewrite elem_of_app, list_elem_of_singleton, Hall. split.
      * intros [(x & Hx & Hk)| ->]; [exists x|exists e]; (split; [apply elem_of_app|done]); [by left|right; by apply list_elem_of_singleton].
      * intros (x & Hx & Hk). apply elem_of_app in Hx as [Hx|Hx]; [left; by exists x|].
        apply list_elem_of_singleton in Hx as ->. by right.
  - intros s Hs. rewrite gathered_snoc. apply (file_elem _ _ _ _ Hnd) in Hs as [[Hs Hne]|(s0 & -> & Hs0 & Hcase)].
    + rewrite decide_False by done. by apply Hown.
    + rewrite add_key, decide_True by done. f_equal. destruct Hcase as [Hin|[Hout ->]]; [by apply Hown|].
      unfold gathered. rewrite filter_none; [done|].
      intros x Hx Hk. apply Hout. apply Hall. exists x. split; [done|]. rewrite Hk. by destruct (entry_key e).
Qed.

Lemma grouped_files now es entries sessions :
  grouped now entries sessions -> grouped now (entries ++ es) (foldl (file now) sessions es).
Proof.
  revert entries sessions. induction es as [|e es IH]; intros entries sessions Hg; simpl; [by rewrite app_nil_r|].
  rewrite cons_middle, (assoc_L (++)). by apply IH, grouped_file.
Qed.

Lemma grouped_nil now : grouped now [] [].
Proof.
  split; [constructor|done| |intros s Hs; by apply elem_of_nil in Hs].
  intros key. split; [intros Hk; by apply elem_of_nil in Hk|intros (e & He & _); by apply elem_of_nil in He].
Qed.

(** ** The calls of a sweep *)
Section SweepProofs.
Context `{ControlLimits} {Principal : Type} (cfg : PendingSweeperConfig).
Abbreviation sweep_routine := (prog (sweepCall Principal)).
Abbreviation sweep_event := (event (sweepCall Principal)).

(** The entries listed, the times read and the placements made, in order. *)
Fixpoint listed (t : list sweep_event) : list DispositionInboxEntry :=
  match t with
  | [] => []
  | Ev _ c r :: t =>
      match c in sweepCall _ R return R -> _ with
      | ListDueDispositionCommands _ => fun r => (match r with Ok page => due_Commands page | Fail _ => [] end) ++ listed t
      | _ => fun _ => listed t
      end r
  end.

Fixpoint clocks (t : list sweep_event) : list time :=
  match t with
  | [] => []
  | Ev _ c r :: t =>
      match c in sweepCall _ R return R -> _ with
      | Clock => fun r => r :: clocks t
      | _ => fun _ => clocks t
      end r
  end.

Fixpoint placements (t : list sweep_event) : list (placer * Request * (Result * option error)) :=
  match t with
  | [] => []
  | Ev _ c r :: t =>
      match c in sweepCall _ R return R -> _ with
      | Place p req => fun r => (p, req, r) :: placements t
      | _ => fun _ => placements t
      end r
  end.

Lemma listed_app t u : listed (t ++ u) = listed t ++ listed u.
Proof. induction t as [|[R c r] t IH]; simpl; [done|]. destruct c; simpl; rewrite IH; by rewrite ?(assoc_L (++)). Qed.
Lemma clocks_app t u : clocks (t ++ u) = clocks t ++ clocks u.
Proof. induction t as [|[R c r] t IH]; simpl; [done|]. destruct c; simpl; by rewrite IH. Qed.
Lemma placements_app t u : placements (t ++ u) = placements t ++ placements u.
Proof. induction t as [|[R c r] t IH]; simpl; [done|]. destruct c; simpl; by rewrite IH. Qed.

(** What an answer of a placement means, from the answer alone. *)
Definition failed_as (name : string) (a : Result * option error) : bool :=
  match a.2 with Some err => errors_is err (Sentinel name) | None => false end.
Definition was_released (a : Result * option error) : bool := failed_as "placement.ErrSessionReleased" a.
Definition had_no_controller (a : Result * option error) : bool :=
  failed_as "placement.ErrNoWorkloadController" a && negb (was_released a).
Definition was_failure (a : Result * option error) : bool :=
  bool_decide (is_Some a.2) && negb (was_released a) && negb (had_no_controller a).
Definition was_deferred (a : Result * option error) : bool := bool_decide (a.2 = None) && res_Deferred a.1.
Definition was_settled (a : Result * option error) : bool := bool_decide (a.2 = None) && negb (res_Deferred a.1).
Definition had_outcome (o : Outcome) (a : Result * option error) : bool := was_settled a && bool_decide (d_Outcome (res_Decision a.1) = o).
Definition had_attached (a : Result * option error) : bool := was_settled a && bool_decide (is_Some (res_Attached a.1)).

(** How the counters of [out] follow from those of [r] and the answers. *)
Definition is_placed (p : Result * option error -> bool) (a : placer * Request * (Result * option error)) : bool := p a.2.

Record sweep_counts (answers : list (placer * Request * (Result * option error))) (r out : PendingSweepResult) : Prop := {
  counts_sessions : Sessions out = Sessions r + Z.of_nat (length answers);
  counts_released : Released out = Released r +
    tally (is_placed was_released) answers;
  counts_controller : NoController out = NoController r +
    tally (is_placed had_no_controller) answers;
  counts_failures : Failures out = Failures r +
    tally (is_placed was_failure) answers;
  counts_deferred : Deferred out = Deferred r +
    tally (is_placed was_deferred) answers;
  counts_attached : Attached out = Attached r +
    tally (is_placed had_attached) answers;
  counts_outcomes : forall o, outcomeCount (Outcomes out) o = outcomeCount (Outcomes r) o +
    tally (is_placed (had_outcome o)) answers
}.

Lemma sweep_counts_nil r : sweep_counts [] r r.
Proof. split; intros; rewrite ?tally_nil; simpl; lia. Qed.

Lemma outcomeCount_insert (m : gmap Outcome Z) o' o :
  outcomeCount (<[o' := outcomeCount m o' + 1]> m) o = outcomeCount m o + (if bool_decide (o = o') then 1 else 0).
Proof.
  unfold outcomeCount at 1. case_bool_decide as Ho.
  - subst. by rewrite lookup_insert_eq.
  - rewrite lookup_insert_ne by done. unfold outcomeCount. lia.
Qed.

Lemma classified a :
  was_released a = match classifyPlaced a with PlacedReleased => true | _ => false end
  /\ had_no_controller a = match classifyPlaced a with PlacedNoController => true | _ => false end
  /\ was_failure a = match classifyPlaced a with PlacedFailed => true | _ => false end
  /\ was_deferred a = match classifyPlaced a with PlacedDeferred => true | _ => false end
  /\ had_attached a = match classifyPlaced a with PlacedOutcome _ attached => attached | _ => false end
  /\ forall o, had_outcome o a = match classifyPlaced a with PlacedOutcome o' _ => bool_decide (o = o') | _ => false end.
Proof.
  unfold had_outcome, had_attached, was_settled, was_deferred, was_failure, had_no_controller, was_released, failed_as, classifyPlaced.
  destruct a as [res [err|]]; simpl.
  - destruct (errors_is err _), (errors_is err _); done.
  - destruct (res_Deferred res); simpl; split_and!; try done. intros o. by apply bool_decide_ext.
Qed.

Lemma sweep_counts_cons a answers r out :
  sweep_counts answers (countPlaced (classifyPlaced a.2) r) out -> sweep_counts (a :: answers) r out.
Proof.
  intros Hout. assert (Hip : forall f, is_placed f a = f a.2) by done. pose proof (classified a.2) as Hc.
  destruct r, (classifyPlaced a.2) as [| | | |o' attached]; destruct Hc as (C1 & C2 & C3 & C4 & C5 & C6); simpl in Hout;
    destruct Hout as [H1 H2 H3 H4 H5 H6 H7]; split; intros; rewrite ?tally_cons, ?Hip, ?C1, ?C2, ?C3, ?C4, ?C5, ?C6, ?H7; simpl in *;
    rewrite ?outcomeCount_insert; try destruct attached; try case_bool_decide; lia.
Qed.

(** The requests a sweep owes a list of sessions. *)
Definition owed (sessions : list openSession) : list Request :=
  openRequest <$> filter (fun s => os_needsHost s = true) sessions.

Definition sent (answers : list (placer * Request * (Result * option error))) : list Request := (fun a => a.1.2) <$> answers.

Lemma owed_cons s sessions : owed (s :: sessions) = if os_needsHost s then openRequest s :: owed sessions else owed sessions.
Proof.
  unfold owed. destruct (os_needsHost s) eqn:Hs; [by rewrite filter_cons_True|].
  rewrite filter_cons_False; [done|congruence].
Qed.

Lemma placeAll_spec sessions r :
  wp (placeAll (Principal := Principal) sessions r) (fun out t =>
    listed t = [] /\ clocks t = [] /\ sent (placements t) `prefix_of` owed sessions /\
    Forall (fun a => a.1.1 = SweepPlacer) (placements t) /\
    (out.2 = None -> sent (placements t) = owed sessions) /\ sweep_counts (placements t) r out.1).
Proof.
  revert r. induction sessions as [|s sessions IH]; intros r; simpl.
  { split_and!; try done. apply sweep_counts_nil. }
  rewrite owed_cons. destruct (os_needsHost s); simpl; [|apply IH]. intros answer.
  assert (Hnext : forall tail, tail = [] \/ (exists e, tail = [Ev _ CtxErr e]) ->
    wp (placeAll sessions (countPlaced (classifyPlaced answer) r)) (fun out t =>
      let t := Ev _ (Place SweepPlacer (openRequest s)) answer :: tail ++ t in
      listed t = [] /\ clocks t = [] /\ sent (placements t) `prefix_of` openRequest s :: owed sessions /\
      Forall (fun a => a.1.1 = SweepPlacer) (placements t) /\
      (out.2 = None -> sent (placements t) = openRequest s :: owed sessions) /\ sweep_counts (placements t) r out.1)).
  { intros tail Htail. eapply wp_mono; [|apply IH]. simpl. intros out t (Hl & Hc & Hp & Hf & Hn & Hk).
    assert (placements (tail ++ t) = placements t /\ listed (tail ++ t) = listed t /\ clocks (tail ++ t) = clocks t) as (-> & -> & ->)
      by (by destruct Htail as [->|[e ->]]).
    split_and!; [done|done|by apply prefix_cons|by constructor|intros Ho; unfold sent; simpl; f_equal; by apply Hn|
                 by apply sweep_counts_cons]. }
  destruct (classifyPlaced answer) eqn:Ha; try (apply (Hnext []); by left).
  intros [err|].
  - simpl. split_and!; [done|done|apply prefix_cons, prefix_nil|by repeat constructor|done|].
    apply sweep_counts_cons. simpl. rewrite Ha. apply sweep_counts_nil.
  - apply (Hnext [Ev _ CtxErr None]). right. by exists None.
Qed.

Lemma collectPages_spec shard now pages cursor order r entries :
  grouped now entries order ->
  wp (collectPages (Principal := Principal) cfg shard now pages cursor order r) (fun out t =>
    placements t = [] /\ clocks t = [] /\ sweep_counts [] r out.2 /\
    (out.1.2 = None -> grouped now (entries ++ listed t) out.1.1.1)).
Proof.
  revert cursor order r entries. induction pages as [|pages IH]; intros cursor order r entries Hg; simpl.
  { rewrite app_nil_r. split_and!; try done. destruct r. split; intros; rewrite ?tally_nil; simpl; lia. }
  intros [page|err]; [|case_match; (split_and!; try done); apply sweep_counts_nil].
  assert (Hcount : forall out, sweep_counts [] (countPage page r) out -> sweep_counts [] r out).
  { intros out [? ? ? ? ? ? ?]. by destruct r. }
  assert (Hg' : grouped now (entries ++ due_Commands page) (foldl (file now) order (due_Commands page))) by (by apply grouped_files).
  case_bool_decide; simpl.
  - rewrite app_nil_r. split_and!; try done. apply Hcount, sweep_counts_nil.
  - eapply wp_mono; [|by apply IH]. simpl. intros out t (Hp & Hc & Hk & Ho). rewrite (assoc_L (++)).
    split_and!; auto.
Qed.

(** The sessions grouped are owed what the reference says. *)
Lemma owed_reference now entries sessions : grouped now entries sessions -> owed sessions = placements_owed now entries.
Proof.
  intros [_ Hord _ Hown]. unfold placements_owed. rewrite <- Hord. clear Hord. induction sessions as [|s sessions IH]; [done|].
  rewrite owed_cons, fmap_cons, IH by (intros x Hx; apply Hown; by apply elem_of_cons; right).
  assert (Hs : s = gathered now (os_key s) entries) by (apply Hown; by apply elem_of_cons; left).
  destruct (gathered_request now entries (os_key s)) as [Hr Hn]. rewrite <- Hs in Hr, Hn. rewrite Hr, Hn.
  destruct (needs_host now entries (os_key s)) eqn:He; [by rewrite filter_cons_True|]. rewrite filter_cons_False; [done|]. congruence.
Qed.

(** What a sweep did. *)
Definition swept (out : PendingSweepResult * option error) (t : list sweep_event) : Prop :=
  Forall (fun a => a.1.1 = SweepPlacer) (placements t) /\
  sweep_counts (placements t) zeroSweep out.1 /\
  (out.2 = None \/ placements t <> [] -> exists now,
     clocks t = [now] /\ sent (placements t) `prefix_of` placements_owed now (listed t) /\
     (out.2 = None -> sent (placements t) = placements_owed now (listed t))).

Lemma swept_idle r err t : placements t = [] -> sweep_counts [] zeroSweep r -> swept (r, Some err) t.
Proof. intros Hp Hr. unfold swept. rewrite Hp. split_and!; [constructor|done|]. by intros [?|?]. Qed.

Lemma Sweep_swept principal s :
  wp (Sweep (Principal := Principal) cfg principal s) (fun out t => swept out.1 t).
Proof.
  unfold Sweep. intros [err|]; [apply swept_idle; [done|apply sweep_counts_nil]|]. intros shards.
  destruct (begin shards s) as [[[shard cursor]|err] s'];
    [|apply swept_idle; [done|apply sweep_counts_nil]].
  intros now. eapply wp_seq; [apply collectPages_spec, grouped_nil|].
  intros [[[sessions position] err] r] t (Hp & Hc & Hk & Hg). simpl in *.
  assert (Hzero : forall answers out, sweep_counts answers r out -> sweep_counts answers zeroSweep out).
  { intros answers out [K1 K2 K3 K4 K5 K6 K7]. destruct Hk as [J1 J2 J3 J4 J5 J6 J7]. simpl in *.
    split; intros; rewrite ?K1, ?K2, ?K3, ?K4, ?K5, ?K6, ?K7, ?J1, ?J2, ?J3, ?J4, ?J5, ?J6, ?J7, ?tally_nil; done. }
  destruct err as [err|].
  { apply wp_ret. simpl. rewrite app_nil_r. apply swept_idle; [done|]. apply Hzero, sweep_counts_nil. }
  eapply wp_seq; [apply placeAll_spec|]. intros out u (Hl & Hc' & Hpre & Hf & Hn & Hcounts).
  apply wp_ret. unfold swept. simpl. rewrite app_nil_r, placements_app, clocks_app, listed_app, Hp, Hc, Hc', Hl. simpl.
  split_and!; [done|by apply Hzero|]. intros _. exists now. rewrite app_nil_r.
  rewrite <- (owed_reference now (listed t) sessions) by auto. split_and!; auto.
Qed.
End SweepProofs.

(** C33: A sweep asks for the placement of every session it listed that needs a
    Host, exactly once, in the order the sessions were first listed: those with a
    command that is pending or claimed before its deadline, or being applied.
    Each is asked for with its own commands alone: to wake, the pending ones
    before their deadline, in the order listed; of those the gate responses, and
    the creates and inputs held by reference; the ones carrying a principal or
    metadata, claimed ones included; and whether a restore waits. Only a cancelled
    context cuts the list short. Whatever the placements answer, the sweep's
    counters add up: every placement is counted once, as released, without a
    controller, failed, deferred, or under its outcome. *)
Theorem sweep_places_each_open_session_once `{ControlLimits} {Principal W : Type} (cfg : PendingSweeperConfig)
    (h : handler (sweepCall Principal) W) (w : W) (principal : Principal) (s : PendingSweeper) :
  let '(out, calls, _) := run h (Sweep cfg principal s) w in swept out.1 calls.
Proof.
  pose proof (wp_run h _ _ w (Sweep_swept cfg principal s)) as Hs.
  destruct (run h (Sweep cfg principal s) w) as [[out calls] w']. exact Hs.
Qed.

(** ** The admission trigger places only its own session *)
Section AdmissionProofs.
Context `{ControlLimits} {Principal : Type} (cfg : PendingSweeperConfig).
Abbreviation sweep_routine := (prog (sweepCall Principal)).

(** Routines that place nothing. *)
Definition no_place (e : event (sweepCall Principal)) : Prop := placements [e] = [].

Lemma no_place_all t : Forall no_place t -> placements t = [].
Proof.
  induction 1 as [|e t He _ IH]; [done|]. destruct e as [R c r]. unfold no_place in He. simpl in *.
  by destruct c.
Qed.

Lemma addAll_spec entries target :
  wp (addAll (Principal := Principal) entries target) (fun out t => Forall no_place t /\ os_key out = os_key target).
Proof.
  revert target. induction entries as [|e entries IH]; intros target; simpl; [done|]. intros now.
  eapply wp_mono; [|apply IH]. simpl. intros out t [Ht ->]. rewrite add_key. split; [by constructor|done].
Qed.

Lemma sessionLoop_spec notice pages after target :
  wp (sessionLoop (Principal := Principal) cfg notice pages after target)
    (fun out t => Forall no_place t /\ (forall s, out = Ok s -> os_key s = os_key target)).
Proof.
  revert after target. induction pages as [|pages IH]; intros after target; simpl.
  { split; [constructor|]. intros s [=]. by subst. }
  assert (Hone : forall a, no_place (Ev _ (ListSessionDispositionCommands
    (MkSessionRequest (notice_TenantID notice) (notice_SessionID notice) after (PageLimit cfg))) a)) by done.
  intros [page|err]; [|split; [by repeat constructor|done]].
  case_bool_decide; [split; [by repeat constructor|by intros s [= <-]]|].
  case_match; [split; [by repeat constructor|done]|].
  eapply wp_seq; [apply addAll_spec|]. intros target' t [Ht Hk].
  repeat case_match; [split; [|intros s [= <-]; done]; rewrite app_nil_r; by constructor..|].
  eapply wp_mono; [|apply IH]. simpl. intros out u [Hu Hs].
  split; [constructor; [done|by apply Forall_app]|]. intros s Ho. rewrite (Hs s Ho). done.
Qed.

Lemma collectPages_no_place shard now pages cursor order r :
  only no_place (collectPages (Principal := Principal) cfg shard now pages cursor order r).
Proof.
  revert cursor order r. induction pages as [|pages IH]; intros cursor order r; simpl; [apply only_ret|].
  apply only_call; [done|]. intros [page|err]; case_match; try apply only_ret. apply IH.
Qed.

(** A target of the notice: its session, and its command among those to wake. *)
Definition target_of (notice : AdmissionNotice) (out : result (option openSession)) : Prop :=
  forall s, out = Ok (Some s) -> os_key s = notice_key notice /\ notice_CommandID notice ∈ os_wake s.

Lemma fallbackLoop_spec notice shards shard remaining :
  wp (fallbackLoop (Principal := Principal) cfg notice shards shard remaining)
    (fun out t => Forall no_place t /\ target_of notice out).
Proof.
  revert shard remaining. induction shards as [|shards IH]; intros shard remaining; simpl; [done|].
  destruct remaining as [|remaining]; [done|]. intros now.
  eapply wp_seq; [apply collectPages_no_place|]. intros [[[sessions position] err] r] t Ht.
  destruct err as [err|]; [by split; [constructor; [done|by rewrite app_nil_r]|]|].
  destruct (list_find _ sessions) as [[i s]|] eqn:Hfind.
  - apply list_find_Some in Hfind as (_ & Hk & _). repeat case_match; apply wp_ret; rewrite app_nil_r;
      (split; [by constructor|]); intros s' [=]; subst; split; [done|]. by reflect_guards.
  - eapply wp_mono; [|apply IH]. simpl. intros out u [Hu Ho]. split; [constructor; [done|by apply Forall_app]|done].
Qed.

Lemma fallback_spec notice :
  wp (collectAdmissionFallback (Principal := Principal) cfg notice) (fun out t => Forall no_place t /\ target_of notice out).
Proof.
  unfold collectAdmissionFallback. intros shards. eapply wp_mono; [|apply fallbackLoop_spec].
  simpl. intros out t [Ht Ho]. split; [by constructor|done].
Qed.

Lemma collectSession_spec notice :
  wp (collectAdmissionSession (Principal := Principal) cfg notice) (fun out t => Forall no_place t /\ target_of notice out).
Proof.
  unfold collectAdmissionSession. eapply wp_seq; [apply sessionLoop_spec|]. intros target t [Ht Hk].
  destruct target as [target|err]; [|by split; [rewrite app_nil_r|]].
  case_bool_decide as Hin; cbn [negb].
  - apply wp_ret. rewrite app_nil_r. split; [done|]. intros s [= <-]. split; [|done]. by rewrite (Hk target eq_refl).
  - eapply wp_mono; [|apply fallback_spec]. simpl. intros out u [Hu Ho]. split; [by apply Forall_app|done].
Qed.

(** At most one placement, of the notice's session, waking its command. *)
Definition places_notice (notice : AdmissionNotice) (p : placer) (t : list (event (sweepCall Principal))) : Prop :=
  placements t = [] \/
  exists req answer, placements t = [(p, req, answer)] /\ req_key req = notice_key notice /\ notice_CommandID notice ∈ req_Wake req.

Lemma placeTarget_spec notice p :
  wp (placeTarget (Principal := Principal) cfg notice p) (fun _ t => places_notice notice p t).
Proof.
  unfold placeTarget. apply wp_seq with (P := fun out t => Forall no_place t /\ target_of notice out).
  { destruct (hasSessionCommands cfg); [apply collectSession_spec|apply fallback_spec]. }
  intros target t [Ht Ho]. apply no_place_all in Ht. unfold places_notice.
  destruct target as [[s|]|err]; [|left; by rewrite app_nil_r..].
  case_match; [left; by rewrite app_nil_r|]. intros answer. right. destruct (Ho s eq_refl) as [Hk Hc].
  exists (openRequest s), answer. by rewrite placements_app, Ht.
Qed.

(** The notice was pending and its deadline ahead when a placement was asked. *)
Definition admission_post (notice : AdmissionNotice) (p : placer) (t : list (event (sweepCall Principal))) : Prop :=
  places_notice notice p t /\
  (placements t <> [] -> notice_Pending notice = true /\ exists now, now ∈ clocks t /\ now < notice_Deadline notice).

Lemma places_notice_cons notice p e t : no_place e -> places_notice notice p t -> places_notice notice p (e :: t).
Proof. intros He Ht. unfold places_notice in *. destruct e as [R c r]. unfold no_place in He. by destruct c. Qed.

Lemma PlaceAdmissionWith_post principal notice p :
  wp (PlaceAdmissionWith cfg principal notice p) (fun _ t => admission_post notice p t).
Proof.
  assert (Hidle : forall t, placements t = [] -> admission_post notice p t).
  { intros t Ht. split; [by left|]. by rewrite Ht. }
  unfold PlaceAdmissionWith. intros [err|]; [by apply Hidle|].
  destruct (notice_Pending notice) eqn:Hpend; simpl; [|by apply Hidle]. intros now.
  destruct (now <? notice_Deadline notice) eqn:Hdue; simpl; [|by apply Hidle]. reflect_guards.
  apply wp_mono with (Q := fun _ t => places_notice notice p t).
  { intros out t Ht. split; [by apply places_notice_cons, places_notice_cons|]. intros _. split; [done|].
    exists now. split; [|done]. simpl. apply elem_of_cons. by left. }
  assert (Hleft : forall t, placements t = [] -> places_notice notice p t) by (by left).
  destruct (hasCatalogAndDirectory cfg); [|apply placeTarget_spec].
  intros [entry|err]; [|by apply Hleft]. intros [[owner|]|err]; [| |by apply Hleft].
  - intros now'. destruct (routable _ _ _); [by apply Hleft|].
    eapply wp_mono; [|apply placeTarget_spec]. intros out t Ht. by do 3 (apply places_notice_cons; [done|]).
  - eapply wp_mono; [|apply placeTarget_spec]. intros out t Ht. by do 2 (apply places_notice_cons; [done|]).
Qed.
End AdmissionProofs.

(** an admission notice triggers at most one placement, with the placer
    it was given, of the notice's own session, and among the commands that
    placement wakes is the one the notice is about; a notice that is not
    pending or whose deadline has passed triggers none. *)
Theorem admission_places_only_its_session `{ControlLimits} {Principal W : Type} (cfg : PendingSweeperConfig)
    (h : handler (sweepCall Principal) W) (w : W) (principal : Principal) (notice : AdmissionNotice) (p : placer) :
  admission_post notice p (run h (PlaceAdmissionWith cfg principal notice p) w).1.2.
Proof. exact (wp_run h _ _ w (PlaceAdmissionWith_post cfg principal notice p)). Qed.

(** ** Concrete sweeps *)
Definition demo_control : ControlLimits := {| MinControlShards := 1; MinControlShards_pos := eq_refl |}.

Definition demo_position (i : nat) : Cursor := match i with O => "after-40" | _ => "" end%string.

(** Three shards, starting at shard 1: pass 0 stops inside shard 1 and pass 3,
    back on shard 1, resumes there. *)
Lemma sweep_rotates_and_resumes_witness :
  @visit demo_control 3 demo_position 0 (MkSweeper 1 ∅) = Ok (1, ""%string) /\
  @visit demo_control 3 demo_position (0 + Z.to_nat 3) (MkSweeper 1 ∅) = Ok (1, "after-40"%string).
Proof.
  split; [vm_compute; reflexivity|].
  refine (proj1 (proj2 (@sweep_rotates_and_resumes demo_control 3 demo_position (MkSweeper 1 ∅) 0 _ _))).
  - vm_compute. discriminate.
  - simpl. lia.
Defined.

Definition demo_binding : SessionBinding := Session_Binding "storage" "1" "runtime" ProtocolModeDisposition.

Definition demo_inbox (session command : string) (kind : CommandKind) (state : InboxState) : DispositionInboxEntry :=
  MkEntry (MkDescriptor "t" session command kind demo_binding false false 0) 100 state 1 false None 1.

(** One page: two commands of session ["a"], an expired one of ["b"], one being
    applied of ["c"]. *)
Definition demo_page : DuePage :=
  MkDuePage [demo_inbox "a" "c1" KindInput InboxStatePending;
             MkEntry (MkDescriptor "t" "b" "c2" KindInput demo_binding false false 0) 5 InboxStatePending 1 false None 1;
             demo_inbox "a" "c3" KindGateResponse InboxStatePending;
             demo_inbox "c" "c4" KindInput InboxStateApplying] "" 4 0.

Definition demo_sweep_world : handler (sweepCall unit) unit := fun R c =>
  match c in sweepCall _ R return unit -> R * unit with
  | AuthorizeServiceSweep _ => fun w => (None, w)
  | ControlShards => fun w => (2, w)
  | ListDueDispositionCommands _ => fun w => (Ok demo_page, w)
  | ListSessionDispositionCommands _ => fun w => (Ok (MkSessionPage [] 0), w)
  | CatalogEntryOf _ _ => fun w => (Fail (sentinel "absent"), w)
  | OwnerOf _ _ => fun w => (Ok None, w)
  | Clock => fun w => (10, w)
  | CtxErr => fun w => (None, w)
  | Place _ req => fun w =>
      (if bool_decide (req_SessionID req = "c"%string) then (zeroResult, Some ErrSessionReleased)
       else (setDecision noCapacity zeroResult, None), w)
  end.

(** Sessions ["a"] and ["c"] are placed, ["b"] has nothing live. *)
Example sweep_demo :
  let '(out, calls, _) :=
    run demo_sweep_world (@Sweep demo_control unit (MkSweeperConfig 60 10 2 false false false) tt (MkSweeper 0 ∅)) tt in
  sent (placements calls) =
    [MkRequest "t" "a" None ["c1"; "c3"] ["c3"] [] [] false; MkRequest "t" "c" None [] [] [] [] false]%string /\
  Sessions out.1.1 = 2 /\ Released out.1.1 = 1 /\ outcomeCount (Outcomes out.1.1) OutcomeNoCapacity = 1 /\ out.1.2 = None.
Proof. vm_compute. repeat split. Qed.
