(* ===== verification/AdmissionQueue.v ===== *)
(** * The admission queue (src/admission_queue.go) and its workers

    [newAdmissionQueue], [signal], [enqueue], [next] and [finish]. Each runs
    under the queue's mutex and is a pure transition; [next]'s loop is split
    into its critical section [next_take] and its wait for the [ready] channel,
    [next_wake]. The workers of [Server.Start] (src/serve.go) take a notice,
    place it and [finish] its key, forever: the step relation [queue_step] interleaves
    any number of them with [enqueue]. *)

From S2P Require Import Prelude Wire Pending.

(** [queuedAdmission]. *)
Record queuedAdmission := MkQueued { notice : AdmissionNotice; inFlight : bool; dirty : bool }.

(** [ready] is a channel of one slot: whether it holds a token. *)
Record admissionQueue := MkAdmission {
  ready : bool;
  limit : Z;
  order : list sessionKey;
  items : gmap sessionKey queuedAdmission
}.

Definition newAdmissionQueue (limit : Z) : admissionQueue := MkAdmission false limit [] ∅.

(** A send that does not block: the slot is full afterwards. *)
Definition signal (q : admissionQueue) : admissionQueue := MkAdmission true (limit q) (order q) (items q).

Definition enqueue (n : AdmissionNotice) (q : admissionQueue) : admissionQueue :=
  if negb (notice_Pending n) then q
  else
    let key := notice_key n in
    match items q !! key with
    | Some item =>
        MkAdmission (ready q) (limit q) (order q)
          (<[key := MkQueued n (inFlight item) (if inFlight item then true else dirty item)]> (items q))
    | None =>
        if limit q <=? Z.of_nat (length (order q)) then q
        else signal (MkAdmission (ready q) (limit q) (order q ++ [key]) (<[key := MkQueued n false false]> (items q)))
    end.

(** [next]'s critical section: a notice and its key, nothing to take, or the nil
    dereference of a key without an item. *)
Inductive taken := Took (n : AdmissionNotice) (key : sessionKey) | TookNothing | TookPanic.

Definition next_take (q : admissionQueue) : taken * admissionQueue :=
  match order q with
  | [] => (TookNothing, q)
  | key :: rest =>
      match items q !! key with
      | None => (TookPanic, q)
      | Some item =>
          (Took (notice item) key,
           MkAdmission (ready q) (limit q) rest (<[key := MkQueued (notice item) true (dirty item)]> (items q)))
      end
  end.

(** The receive from [ready]: possible while it holds a token. *)
Definition next_wake (q : admissionQueue) : option admissionQueue :=
  if ready q then Some (MkAdmission false (limit q) (order q) (items q)) else None.

Definition finish (key : sessionKey) (q : admissionQueue) : admissionQueue :=
  match items q !! key with
  | None => q
  | Some item =>
      if negb (dirty item) then MkAdmission (ready q) (limit q) (order q) (delete key (items q))
      else signal (MkAdmission (ready q) (limit q) (order q ++ [key]) (<[key := MkQueued (notice item) false false]> (items q)))
  end.

(** ** The workers *)
Inductive worker := Checking | Waiting | Holding (key : sessionKey).

Definition state : Type := admissionQueue * list worker.

Fixpoint held (ws : list worker) : list sessionKey :=
  match ws with
  | [] => []
  | Holding key :: ws => key :: held ws
  | _ :: ws => held ws
  end.

Inductive queue_step : state -> state -> Prop :=
| step_enqueue n q ws : queue_step (q, ws) (enqueue n q, ws)
| step_take i n key q q' ws :
    ws !! i = Some Checking -> next_take q = (Took n key, q') -> queue_step (q, ws) (q', <[i := Holding key]> ws)
| step_empty i q ws :
    ws !! i = Some Checking -> (next_take q).1 = TookNothing -> queue_step (q, ws) (q, <[i := Waiting]> ws)
| step_wake i q q' ws :
    ws !! i = Some Waiting -> next_wake q = Some q' -> queue_step (q, ws) (q', <[i := Checking]> ws)
| step_finish i key q ws :
    ws !! i = Some (Holding key) -> queue_step (q, ws) (finish key q, <[i := Checking]> ws).

(** [Start] launches the workers on a new queue, each about to look for work. *)
Definition started (lim : Z) (workers : nat) (s : state) : Prop :=
  s = (newAdmissionQueue lim, replicate workers Checking).

(** ** What holds in every state *)
Definition queued (q : admissionQueue) (key : sessionKey) : Prop :=
  exists item, items q !! key = Some item /\ inFlight item = false.
Definition flying (q : admissionQueue) (key : sessionKey) : Prop :=
  exists item, items q !! key = Some item /\ inFlight item = true.

Record ainv (s : state) : Prop := {
  ainv_order : NoDup (order s.1);
  ainv_queued : forall key, key ∈ order s.1 <-> queued s.1 key;
  ainv_clean : forall key item, items s.1 !! key = Some item -> inFlight item = false -> dirty item = false;
  ainv_held : NoDup (held s.2);
  ainv_flying : forall key, key ∈ held s.2 <-> flying s.1 key;
  ainv_awake : order s.1 <> [] -> ready s.1 = true \/ exists w, w ∈ s.2 /\ w <> Waiting;
  ainv_size : Z.of_nat (size (items s.1)) <= limit s.1 + Z.of_nat (length s.2)
}.

Lemma held_app ws ws' : held (ws ++ ws') = held ws ++ held ws'.
Proof. induction ws as [|[] ws IH]; simpl; [done|done|done|by rewrite IH]. Qed.

Lemma held_length ws : (length (held ws) <= length ws)%nat.
Proof. induction ws as [|[] ws IH]; simpl; lia. Qed.

(** Replacing one worker. *)
Lemma held_insert ws i w w' :
  ws !! i = Some w -> exists a b, held ws = a ++ held [w] ++ b /\ held (<[i := w']> ws) = a ++ held [w'] ++ b.
Proof.
  intros Hi. exists (held (take i ws)), (held (drop (S i) ws)).
  rewrite <- !held_app. split; [f_equal; symmetry; exact (take_drop_middle ws i w Hi)|].
  by rewrite insert_take_drop by (by eapply lookup_lt_Some).
Qed.

Lemma awake_insert ws i w : w <> Waiting -> (i < length ws)%nat -> exists w', w' ∈ <[i := w]> ws /\ w' <> Waiting.
Proof. intros Hw Hi. exists w. split; [|done]. eapply list_elem_of_lookup_2. by rewrite list_lookup_insert_eq. Qed.

(** A worker that holds nothing before and after changes nothing for the keys. *)
Lemma held_same ws i w w' : ws !! i = Some w -> held [w] = held [w'] -> held (<[i := w']> ws) = held ws.
Proof. intros Hi Heq. destruct (held_insert ws i w w' Hi) as (a & b & -> & ->). by rewrite Heq. Qed.

(** The keys of the items are those queued and those in flight. *)
Lemma items_split s key : ainv s -> is_Some (items s.1 !! key) <-> key ∈ order s.1 \/ key ∈ held s.2.
Proof.
  intros [_ Hq _ _ Hf _ _]. rewrite Hq, Hf. unfold queued, flying. split.
  - intros [item Hi]. destruct (inFlight item) eqn:Hfl; eauto.
  - intros [(item & Hi & _)|(item & Hi & _)]; eauto.
Qed.

Lemma items_size s : ainv s -> size (items s.1) = (length (order s.1) + length (held s.2))%nat.
Proof.
  intros Hs. pose proof (items_split s) as Hsplit. destruct Hs as [Ho Hq Hc Hh Hf Ha Hz] eqn:Heq.
  rewrite <- length_app, <- size_dom.
  assert (Hdom : dom (items s.1) = list_to_set (order s.1 ++ held s.2)).
  { apply set_eq. intros key. rewrite elem_of_dom, elem_of_list_to_set, elem_of_app. by apply Hsplit. }
  rewrite Hdom. apply size_list_to_set. apply NoDup_app. split_and!; [done| |done].
  intros key Hk1%Hq Hk2%Hf. destruct Hk1 as (x & Hx & ?), Hk2 as (y & Hy & ?). congruence.
Qed.

Lemma queued_insert r l o m key it k :
  queued (MkAdmission r l o (<[key := it]> m)) k <->
  if decide (k = key) then inFlight it = false else queued (MkAdmission r l o m) k.
Proof.
  unfold queued. simpl. destruct (decide (k = key)) as [->|Hne].
  - rewrite lookup_insert_eq. split; [by intros (x & [= <-] & ?)|eauto].
  - by rewrite lookup_insert_ne by done.
Qed.

Lemma flying_insert r l o m key it k :
  flying (MkAdmission r l o (<[key := it]> m)) k <->
  if decide (k = key) then inFlight it = true else flying (MkAdmission r l o m) k.
Proof.
  unfold flying. simpl. destruct (decide (k = key)) as [->|Hne].
  - rewrite lookup_insert_eq. split; [by intros (x & [= <-] & ?)|eauto].
  - by rewrite lookup_insert_ne by done.
Qed.

(** The conditions on an item survive a write that respects them. *)
Lemma clean_insert (m : gmap sessionKey queuedAdmission) key it :
  (forall k x, m !! k = Some x -> inFlight x = false -> dirty x = false) ->
  (inFlight it = false -> dirty it = false) ->
  forall k x, <[key := it]> m !! k = Some x -> inFlight x = false -> dirty x = false.
Proof. intros Hm Hit k x Hx. destruct (decide (k = key)) as [->|]; simplify_map_eq; eauto. Qed.

Lemma enqueue_ainv n q ws : ainv (q, ws) -> ainv (enqueue n q, ws).
Proof.
  intros Hs. unfold enqueue, signal. case_match; [done|]. set (key := notice_key n).
  pose proof (items_size _ Hs) as Hsize. pose proof (held_length ws) as Hlen. simpl in Hsize.
  destruct Hs as [Ho Hq Hc Hh Hf Ha Hz]. simpl in *.
  destruct (items q !! key) as [item|] eqn:Hi.
  - split; simpl; try done.
    + intros k. rewrite Hq, queued_insert. simpl. destruct (decide (k = key)) as [->|]; [|done].
      unfold queued. rewrite Hi. split; [by intros (x & [= <-] & ?)|eauto].
    + apply clean_insert; [done|]. simpl. intros Hfl. rewrite Hfl. by eapply Hc.
    + intros k. rewrite Hf, flying_insert. simpl. destruct (decide (k = key)) as [->|]; [|done].
      unfold flying. rewrite Hi. split; [by intros (x & [= <-] & ?)|eauto].
    + rewrite map_size_insert_Some by eauto. done.
  - case_match; [by split|]. reflect_guards.
    assert (Hno : key ∉ order q) by (rewrite Hq; intros (x & Hx & _); congruence).
    split; simpl; try done.
    + apply NoDup_app. split_and!; [done| |apply NoDup_singleton]. intros k Hk. rewrite list_elem_of_singleton. by intros ->.
    + intros k. rewrite elem_of_app, list_elem_of_singleton, Hq, queued_insert. simpl.
      destruct (decide (k = key)) as [->|Hne]; [tauto|]. unfold queued. simpl. tauto.
    + by apply clean_insert.
    + intros k. rewrite Hf, flying_insert. simpl. destruct (decide (k = key)) as [->|]; [|done].
      unfold flying. rewrite Hi. split; [by intros (x & ? & ?)|done].
    + by left.
    + rewrite map_size_insert_None by done. lia.
Qed.

Lemma take_ainv i n key q q' ws :
  ws !! i = Some Checking -> next_take q = (Took n key, q') -> ainv (q, ws) -> ainv (q', <[i := Holding key]> ws).
Proof.
  intros Hi Ht Hs. unfold next_take in Ht. destruct Hs as [Ho Hq Hc Hh Hf Ha Hz]. simpl in *.
  destruct (order q) as [|k0 rest] eqn:Hord; [done|]. destruct (items q !! k0) as [item|] eqn:Hitem; [|done].
  simplify_eq. apply NoDup_cons in Ho as [Hkey Ho].
  assert (Hfl : inFlight item = false).
  { destruct (proj1 (Hq key)) as (x & Hx & Hfx); [apply elem_of_cons; by left|]. congruence. }
  assert (Hnh : key ∉ held ws) by (rewrite Hf; intros (x & Hx & ?); congruence).
  destruct (held_insert ws i Checking (Holding key) Hi) as (a & b & Hab & Hab'). simpl in Hab, Hab'.
  split; simpl; try done.
  - intros k. rewrite queued_insert. simpl. destruct (decide (k = key)) as [->|Hne]; [by split|].
    specialize (Hq k). rewrite elem_of_cons in Hq. unfold queued in *. simpl. naive_solver.
  - apply clean_insert; [done|]. done.
  - rewrite Hab'. rewrite Hab in Hh, Hnh. apply (NoDup_Permutation_proper _ _ (Permutation_middle a b key)).
    by apply NoDup_cons.
  - intros k. rewrite Hab', flying_insert. simpl. rewrite Hab in Hf.
    rewrite elem_of_app, elem_of_cons. destruct (decide (k = key)) as [->|Hne]; [tauto|].
    specialize (Hf k). rewrite elem_of_app in Hf. unfold flying in *. simpl. tauto.
  - intros _. right. apply awake_insert; [done|by eapply lookup_lt_Some].
  - rewrite length_insert, map_size_insert_Some by eauto. done.
Qed.

Lemma finish_ainv i key q ws :
  ws !! i = Some (Holding key) -> ainv (q, ws) -> ainv (finish key q, <[i := Checking]> ws).
Proof.
  intros Hi [Ho Hq Hc Hh Hf Ha Hz]. simpl in *.
  destruct (held_insert ws i (Holding key) Checking Hi) as (a & b & Hab & Hab'). simpl in Hab, Hab'.
  assert (Hfl : flying q key) by (apply Hf; rewrite Hab; apply elem_of_app; right; apply elem_of_cons; by left).
  destruct Hfl as (item & Hitem & Hfl).
  assert (Hno : key ∉ order q) by (rewrite Hq; intros (x & Hx & ?); congruence).
  rewrite Hab in Hh. apply (NoDup_Permutation_proper _ _ (Permutation_middle a b key)) in Hh.
  apply NoDup_cons in Hh as [Hkab Hh].
  assert (Hother : forall k, k <> key -> k ∈ a ++ b <-> flying q k).
  { intros k Hne. rewrite <- Hf, Hab, !elem_of_app, elem_of_cons. tauto. }
  assert (Hawake : exists w, w ∈ <[i := Checking]> ws /\ w <> Waiting) by (apply awake_insert; [done|by eapply lookup_lt_Some]).
  unfold finish, signal. rewrite Hitem. destruct (dirty item); simpl.
  - split; simpl; try done.
    + apply NoDup_app. split_and!; [done| |apply NoDup_singleton]. intros k Hk. rewrite list_elem_of_singleton. by intros ->.
    + intros k. rewrite elem_of_app, list_elem_of_singleton, Hq, queued_insert. simpl.
      destruct (decide (k = key)) as [->|]; [tauto|]. unfold queued. simpl. tauto.
    + by apply clean_insert.
    + by rewrite Hab'.
    + intros k. rewrite Hab', flying_insert. simpl. destruct (decide (k = key)) as [->|]; [|by apply Hother].
      split; [done|discriminate].
    + by left.
    + rewrite length_insert, map_size_insert_Some by eauto. done.
  - split; simpl; try done.
    + intros k. rewrite Hq. unfold queued. simpl. destruct (decide (k = key)) as [->|]; simplify_map_eq; [|done].
      split; [intros (x & Hx & ?); congruence|by intros (? & ? & _)].
    + intros k x Hx. apply lookup_delete_Some in Hx as [_ Hx]. by eapply Hc.
    + by rewrite Hab'.
    + intros k. rewrite Hab'. unfold flying. simpl. destruct (decide (k = key)) as [->|Hne]; simplify_map_eq; [|by apply Hother].
      split; [done|by intros (? & ? & _)].
    + intros _. by right.
    + rewrite length_insert, map_size_delete_Some by eauto. lia.
Qed.

Lemma queue_step_ainv s s' : ainv s -> queue_step s s' -> ainv s'.
Proof.
  intros Hs Hstep. destruct Hstep as [n q ws|i n key q q' ws Hi Ht|i q ws Hi Ht|i q q' ws Hi Hw|i key q ws Hi].
  - by apply enqueue_ainv.
  - by eapply take_ainv.
  - assert (Hord : order q = []) by (unfold next_take in Ht; by repeat case_match).
    destruct Hs as [Ho Hq Hc Hh Hf Ha Hz]. split; simpl in *; try done.
    + by rewrite (held_same _ _ _ Waiting Hi).
    + by rewrite (held_same _ _ _ Waiting Hi).
    + by rewrite length_insert.
  - unfold next_wake in Hw. case_match; simplify_eq. destruct Hs as [Ho Hq Hc Hh Hf Ha Hz]. split; simpl in *; try done.
    + by rewrite (held_same _ _ _ Checking Hi).
    + by rewrite (held_same _ _ _ Checking Hi).
    + intros _. right. apply awake_insert; [done|by eapply lookup_lt_Some].
    + by rewrite length_insert.
  - by apply finish_ainv.
Qed.

Lemma held_replicate n : held (replicate n Checking) = [].
Proof. induction n; simpl; done. Qed.

Lemma started_ainv lim workers s : 0 <= lim -> started lim workers s -> ainv s.
Proof.
  intros Hl ->. unfold newAdmissionQueue. split; simpl; rewrite ?held_replicate; try (by constructor).
  - intros key. split; [intros Hk; by apply elem_of_nil in Hk|by intros (x & ? & _)].
  - done.
  - intros key. split; [intros Hk; by apply elem_of_nil in Hk|by intros (x & ? & _)].
  - rewrite map_size_empty. lia.
Qed.

Lemma queue_step_shape s s' : queue_step s s' -> limit s'.1 = limit s.1 /\ length s'.2 = length s.2.
Proof.
  intros [n q ws|i n key q q' ws Hi Ht|i q ws Hi Ht|i q q' ws Hi Hw|i key q ws Hi]; simpl; rewrite ?length_insert;
    (split; [|done]).
  - unfold enqueue, signal. by repeat case_match.
  - unfold next_take in Ht. by repeat case_match; simplify_eq.
  - done.
  - unfold next_wake in Hw. by case_match; simplify_eq.
  - unfold finish, signal. by repeat case_match.
Qed.

Lemma queue_reachable lim workers s :
  0 <= lim -> reachable (started lim workers) queue_step s -> ainv s /\ limit s.1 = lim /\ length s.2 = workers.
Proof.
  intros Hl. apply (reachable_invariant (started lim workers) queue_step (fun s => ainv s /\ limit s.1 = lim /\ length s.2 = workers)).
  - intros s0 Hs. split; [by eapply started_ainv|]. rewrite Hs. simpl. by rewrite length_replicate.
  - intros s0 s1 (Hi & Hlim & Hws) Hstep. destruct (queue_step_shape _ _ Hstep) as [-> ->].
    split; [by eapply queue_step_ainv|done].
Qed.

Lemma take_never_panics s : ainv s -> (next_take s.1).1 <> TookPanic.
Proof.
  intros Hs. unfold next_take. destruct (order s.1) as [|key rest] eqn:Ho; [done|].
  destruct (proj1 (ainv_queued _ Hs key)) as (item & -> & _); [rewrite Ho; apply elem_of_cons; by left|done].
Qed.

(** A pending notice is dropped only by a queue at its limit; otherwise it is
    what the next placement of its session sees: the key waits in the order, or
    is in flight and goes back to the order's tail when its worker finishes. *)
Definition recorded (n : AdmissionNotice) (q : admissionQueue) (ws : list worker) : Prop :=
  let key := notice_key n in
  let q' := enqueue n q in
  (items q !! key = None /\ limit q <= Z.of_nat (length (order q)) /\ q' = q) \/
  (exists item, items q' !! key = Some item /\ notice item = n /\
   (key ∈ order q' \/ (key ∈ held ws /\ exists rest, order (finish key q') = rest ++ [key]))).

Lemma enqueue_recorded n q ws : ainv (q, ws) -> notice_Pending n = true -> recorded n q ws.
Proof.
  intros Hs Hp. unfold recorded, enqueue, signal. rewrite Hp. simpl. set (key := notice_key n).
  destruct (items q !! key) as [item|] eqn:Hi.
  - right. eexists. split; [simpl; by rewrite lookup_insert_eq|]. split; [done|]. simpl.
    destruct (inFlight item) eqn:Hfl.
    + right. split; [apply (ainv_flying _ Hs); by exists item|]. exists (order q).
      unfold finish, signal. simpl. by rewrite lookup_insert_eq.
    + left. apply (ainv_queued _ Hs). by exists item.
  - destruct (limit q <=? Z.of_nat (length (order q))) eqn:Hfull; [left; by reflect_guards|].
    right. eexists. split; [simpl; by rewrite lookup_insert_eq|]. split; [done|]. left. simpl.
    apply elem_of_app. right. by apply list_elem_of_singleton.
Qed.

(** C34: however the workers and the admissions interleave, the admission
    queue takes no key that has no item, never hands one session to two workers
    at a time, never leaves work queued with every worker asleep and no wake-up
    pending, and holds at most [limit] sessions plus one per worker; and a
    pending notice is dropped only when the queue is at its limit, otherwise a
    later placement of its session is due and will see it. *)
Theorem admission_queue_loses_no_notice lim workers q ws :
  0 <= lim -> reachable (started lim workers) queue_step (q, ws) ->
  (next_take q).1 <> TookPanic /\ NoDup (held ws) /\
  (order q <> [] -> ready q = true \/ exists w, w ∈ ws /\ w <> Waiting) /\
  Z.of_nat (size (items q)) <= lim + Z.of_nat workers /\
  (forall n, notice_Pending n = true -> recorded n q ws).
Proof.
  intros Hl Hr. destruct (queue_reachable lim workers _ Hl Hr) as (Hs & Hlim & Hws). simpl in *. subst.
  split_and!; [exact (take_never_panics _ Hs)|exact (ainv_held _ Hs)|exact (ainv_awake _ Hs)|exact (ainv_size _ Hs)|].
  intros n Hp. by apply enqueue_recorded.
Qed.

(** Two workers; a session is taken, a second notice for it arrives while it is
    in flight. *)
Definition demo_notice (command : string) : AdmissionNotice := MkNotice "t" "s" command 1 100 true.

Definition demo_inflight : admissionQueue :=
  enqueue (demo_notice "c2") (next_take (enqueue (demo_notice "c1") (newAdmissionQueue 1))).2.

Lemma admission_queue_loses_no_notice_witness :
  order demo_inflight = [] /\ order (finish (SessionKey "t" "s") demo_inflight) = [SessionKey "t" "s"] /\
  Z.of_nat (size (items demo_inflight)) <= 1 + Z.of_nat 2.
Proof.
  split; [vm_compute; reflexivity|]. split; [vm_compute; reflexivity|].
  refine (proj1 (proj2 (proj2 (proj2 (admission_queue_loses_no_notice 1 2 demo_inflight
    [Holding (SessionKey "t" "s"); Checking] _ _))))); [lia|].
  unfold demo_inflight. eapply reach_step; [|apply step_enqueue].
  eapply (reach_step _ _ (_, [Checking; Checking])); [|exact (step_take 0 (demo_notice "c1") (SessionKey "t" "s")
    (enqueue (demo_notice "c1") (newAdmissionQueue 1)) _ [Checking; Checking] eq_refl eq_refl)].
  eapply reach_step; [|apply step_enqueue]. by apply reach_init.
Defined.
