(* ===== verification/Identity.v ===== *)
(** * Identity (src/identity, src/internal/identity)

    Who a caller is and what it may do: [Principal] and [Credential]
    (principal.go, credential.go), the authenticator of requests and links and
    its trace identifiers (internal/identity/http.go), and the tenant boundary
    (internal/identity/authorize.go). The authenticator's calls to the
    deployment's verifier and to the clock are calls of a program; an HTTP
    request is the three things the code reads of it. *)

From S2P Require Import Prelude Wire Text Program.
Local Open Scope prog_scope.
Local Open Scope string_scope.
Local Open Scope Z_scope.

(** ** Core's identifiers

    What is validated by Core and how long an identifier may be are Core's. *)
Inductive PrincipalKind := KindActor | KindService | KindOther_ (value : string).

#[global] Instance PrincipalKind_eq_dec : EqDecision PrincipalKind.
Proof. solve_decision. Defined.

(** sessionwire.Principal *)
Record WirePrincipal := Wire_Principal {
  wire_Tenant : TenantID; wire_Subject : string; wire_Kind : PrincipalKind }.

#[global] Instance WirePrincipal_eq_dec : EqDecision WirePrincipal.
Proof. solve_decision. Defined.

Class CoreIdentifiers := {
  MaxIDBytes : Z;
  TenantID_Validate : TenantID -> option error;
  SessionID_Validate : SessionID -> option error;
  Principal_Validate : WirePrincipal -> option error
}.

(** Core refuses the empty identifier (clientlink/demand.go, [demandKeyOf]:
    "both segments non-empty and both valid Core identifiers"). *)
Class CoreIdentifiersLaws (core : CoreIdentifiers) : Prop := {
  TenantID_nonempty : TenantID_Validate "" <> None;
  SessionID_nonempty : SessionID_Validate "" <> None
}.

(** ** Principals *)
Definition ErrInvalidPrincipal : error := sentinel "identity.ErrInvalidPrincipal".
Definition ErrClientPrincipal : error := sentinel "identity.ErrClientPrincipal".
Definition ErrMetadataUnsupported : error := sentinel "identity.ErrMetadataUnsupported".
Definition ErrUnauthenticated : error := sentinel "identity.ErrUnauthenticated".
Definition ErrUnauthorized : error := sentinel "identity.ErrUnauthorized".
Definition ErrRateLimited : error := sentinel "identity.ErrRateLimited".
(** A package-level [fmt.Errorf] with [%w]: a value of its own that wraps. *)
Definition ErrCredentialExpired : error := Err (Sentinel "identity.ErrCredentialExpired") [ErrUnauthenticated].
Definition RateLimitedError (retryAfter : Z) : error :=
  Err (Typed "identity.RateLimitedError" "" "" retryAfter) [ErrRateLimited].

Record Principal := MkPrincipal { tenant : TenantID; subject : string; kind : PrincipalKind }.

#[global] Instance Principal_eq_dec : EqDecision Principal.
Proof. solve_decision. Defined.

Definition zeroPrincipal : Principal := MkPrincipal "" "" (KindOther_ "").

Definition IsService (p : Principal) : bool := bool_decide (kind p = KindService).

Definition Wire (p : Principal) : WirePrincipal := Wire_Principal (tenant p) (subject p) (kind p).

Section Principals.
Context `{CoreIdentifiers}.

Definition NewPrincipal (tenant : TenantID) (subject : string) (kind : PrincipalKind) : result Principal :=
  if bool_decide (tenant = "") then Fail (wrapf [ErrInvalidPrincipal])
  else match TenantID_Validate tenant with
  | Some _ => Fail (wrapf [ErrInvalidPrincipal])
  | None =>
      if bool_decide (subject = "") then Fail (wrapf [ErrInvalidPrincipal])
      else if MaxIDBytes <? Z.of_nat (String.length subject) then Fail (wrapf [ErrInvalidPrincipal])
      else if negb (utf8_valid subject) then Fail (wrapf [ErrInvalidPrincipal])
      else match kind with
      | KindActor | KindService => Ok (MkPrincipal tenant subject kind)
      | KindOther_ _ => Fail (wrapf [ErrInvalidPrincipal])
      end
  end.

Definition PrincipalFromWire (wire : WirePrincipal) : result Principal :=
  match Principal_Validate wire with
  | Some _ => Fail (wrapf [ErrInvalidPrincipal])
  | None => NewPrincipal (wire_Tenant wire) (wire_Subject wire) (wire_Kind wire)
  end.

(** What a constructed principal guarantees. *)
Record principal_ok (p : Principal) : Prop := {
  ok_tenant : tenant p <> "" /\ TenantID_Validate (tenant p) = None;
  ok_subject : subject p <> "" /\ Z.of_nat (String.length (subject p)) <= MaxIDBytes /\ utf8_valid (subject p) = true;
  ok_kind : kind p = KindActor \/ kind p = KindService
}.

Lemma NewPrincipal_spec t s k p : NewPrincipal t s k = Ok p <-> p = MkPrincipal t s k /\ principal_ok p.
Proof.
  unfold NewPrincipal. split.
  - intros Hp. branches; reflect_guards; (split; [done|]); split; simpl; auto.
  - intros [-> [[? Ht] [? [? Hu]] Hk]]. simpl in *.
    rewrite !bool_decide_false by done. rewrite Ht, Hu. simpl.
    rewrite (proj2 (Z.ltb_ge _ _)) by done. by destruct Hk as [-> | ->].
Qed.

Lemma NewPrincipal_error t s k e : NewPrincipal t s k = Fail e -> e = wrapf [ErrInvalidPrincipal].
Proof. unfold NewPrincipal. intros He. by branches. Qed.
End Principals.

(** ** Credentials *)
Inductive Source := SourceBearer | SourceCookie | SourceLink.

#[global] Instance Source_eq_dec : EqDecision Source.
Proof. solve_decision. Defined.

Definition source_string (s : Source) : string :=
  match s with SourceBearer => "bearer" | SourceCookie => "cookie" | SourceLink => "link" end.

Record Credential := NewCredential { cred_Source : Source; cred_Value : string }.

#[global] Instance Credential_eq_dec : EqDecision Credential.
Proof. solve_decision. Defined.

Definition RedactedPlaceholder : string := "REDACTED".

(** [Credential.String]: what every formatter, the structured log and JSON
    print. *)
Definition Credential_String (c : Credential) : string :=
  "identity.Credential{source:" +:+ source_string (cred_Source c) +:+ ", value:" +:+ RedactedPlaceholder +:+ "}".

Record Claims := MkClaims {
  claims_Tenant : TenantID; claims_Subject : string; claims_Kind : PrincipalKind; claims_ExpiresAt : time }.

(** ** The authenticator (internal/identity/http.go) *)
Definition ErrInvalidConfig : error := sentinel "identity.ErrInvalidConfig".
Definition ErrVerifierUnavailable : error := sentinel "identity.ErrVerifierUnavailable".
Definition DefaultCookieName : string := "factory_session".
Definition bearerScheme : string := "bearer".
Definition maxTraceparentBytes : Z := 256.

(** An [*http.Request], by what is read of it: the values of its
    [Authorization] header when it has one, [r.Cookie] and its [traceparent]. *)
Record HTTPRequest := MkHTTPRequest {
  req_Authorization : option (list string);
  req_Cookie : string -> option string;
  req_traceparent : string
}.

Record Authenticator := MkAuthenticator { cookieName : string; defaultTenant : TenantID }.

Definition isTokenByte (c : ascii) : bool :=
  is_letter c || is_digit c || has_byte c "!#$%&'*+-.^_`|~".

Definition isCookieToken (name : string) : bool := negb (bool_decide (name = "")) && all_bytes isTokenByte name.

Section Authenticate.
Context `{CoreIdentifiers}.

(** [hasVerifier] is [cfg.Verifier != nil]. *)
Definition NewAuthenticator (hasVerifier : bool) (cookie : string) (default : TenantID) : result Authenticator :=
  if negb hasVerifier then Fail (wrapf [ErrInvalidConfig])
  else
    let cookie := if bool_decide (cookie = "") then DefaultCookieName else cookie in
    if negb (isCookieToken cookie) then Fail (wrapf [ErrInvalidConfig])
    else if bool_decide (default <> "") then
      match TenantID_Validate default with
      | Some _ => Fail (wrapf [ErrInvalidConfig])
      | None => Ok (MkAuthenticator cookie default)
      end
    else Ok (MkAuthenticator cookie default).

Inductive authCall : Type -> Type :=
| VerifyCredential (c : Credential) : authCall (result Claims)
| Now : authCall time.

Definition bearerToken (header : string) : option string :=
  let '(scheme, rest, found) := cut " " header in
  if negb found || negb (equal_fold scheme bearerScheme) then None
  else
    let token := trim_left " " rest in
    if bool_decide (token = "") || contains_any (String " " (String "009" "")) token then None
    else Some token.

Definition presented (a : Authenticator) (r : HTTPRequest) : result Credential :=
  match req_Authorization r with
  | Some values =>
      match values with
      | [value] =>
          match bearerToken value with
          | Some token => Ok (NewCredential SourceBearer token)
          | None => Fail (wrapf [ErrUnauthenticated])
          end
      | _ => Fail (wrapf [ErrUnauthenticated])
      end
  | None =>
      match req_Cookie r (cookieName a) with
      | Some value => Ok (NewCredential SourceCookie value)
      | None => Fail (wrapf [ErrUnauthenticated])
      end
  end.

Definition CredentialSource (a : Authenticator) (r : option HTTPRequest) : option Source :=
  match r with
  | None => None
  | Some r => match presented a r with Ok c => Some (cred_Source c) | Fail _ => None end
  end.

Definition tenantFor (a : Authenticator) (claims : Claims) : result TenantID :=
  if bool_decide (claims_Tenant claims <> "") then Ok (claims_Tenant claims)
  else if bool_decide (claims_Kind claims = KindService) then Fail (wrapf [ErrUnauthenticated])
  else if bool_decide (defaultTenant a = "") then Fail (wrapf [ErrUnauthenticated])
  else Ok (defaultTenant a).

(** The zero [time.Time] is instant 0. *)
Definition authenticate (a : Authenticator) (credential : Credential) : prog authCall (result Principal) :=
  if bool_decide (cred_Value credential = "") then Ret (Fail (wrapf [ErrUnauthenticated]))
  else
    call! verified := VerifyCredential credential in
    match verified with
    | Fail err =>
        if errors_is err (Sentinel "identity.ErrUnauthenticated") then Ret (Fail (wrapf [ErrUnauthenticated]))
        else Ret (Fail (wrapf [ErrVerifierUnavailable]))
    | Ok claims =>
        if claims_ExpiresAt claims =? 0 then Ret (Fail (wrapf [ErrUnauthenticated]))
        else
          call! now := Now in
          if negb (now <? claims_ExpiresAt claims) then Ret (Fail (wrapf [ErrCredentialExpired]))
          else match tenantFor a claims with
          | Fail err => Ret (Fail err)
          | Ok tenant =>
              match NewPrincipal tenant (claims_Subject claims) (claims_Kind claims) with
              | Ok principal => Ret (Ok principal)
              | Fail _ => Ret (Fail (wrapf [ErrUnauthenticated]))
              end
          end
    end.

Definition AuthenticateRequest (a : Authenticator) (r : option HTTPRequest) : prog authCall (result Principal) :=
  match r with
  | None => Ret (Fail (wrapf [ErrUnauthenticated]))
  | Some r =>
      match presented a r with
      | Fail err => Ret (Fail err)
      | Ok credential => authenticate a credential
      end
  end.

Definition AuthenticateLink (a : Authenticator) (token : string) : prog authCall (result Principal) :=
  authenticate a (NewCredential SourceLink token).
End Authenticate.

(** ** Operation contexts and trace identifiers *)
Definition lower_hex_byte (c : ascii) : bool := is_digit c || in_range 97 102 c.
Definition isLowerHex (s : string) : bool := all_bytes lower_hex_byte s.
(** [strings.Trim(s, "0")] is empty exactly when every byte is ['0']. *)
Definition isAllZero (s : string) : bool := all_bytes (fun c => bool_decide (c = "0"%char)) s.

Definition len (s : string) : Z := Z.of_nat (String.length s).

Definition traceIDFrom (r : option HTTPRequest) : string :=
  match r with
  | None => ""
  | Some r =>
      let header := req_traceparent r in
      if bool_decide (header = "") then ""
      else if maxTraceparentBytes <? len header then ""
      else
        let fields := split "-" header in
        if bool_decide ("" ∈ fields) then ""
        else match fields with
        | version :: traceID :: parentID :: flags :: _ =>
            if negb (len version =? 2) || negb (isLowerHex version) || bool_decide (version = "ff") then ""
            else if bool_decide (version = "00") && negb (Nat.eqb (length fields) 4) then ""
            else if negb (len flags =? 2) || negb (isLowerHex flags) then ""
            else if negb (len parentID =? 16) || negb (isLowerHex parentID) || isAllZero parentID then ""
            else if negb (len traceID =? 32) || negb (isLowerHex traceID) || isAllZero traceID then ""
            else traceID
        | _ => ""
        end
  end.

Record OperationContext := MkOperationContext {
  op_Principal : Principal; op_CredentialSource : option Source; op_TraceID : string }.

Definition NewOperationContextWithSource (r : option HTTPRequest) (principal : Principal) (source : option Source)
    : OperationContext := MkOperationContext principal source (traceIDFrom r).
Definition NewOperationContext (a : Authenticator) (r : option HTTPRequest) (principal : Principal) : OperationContext :=
  NewOperationContextWithSource r principal (CredentialSource a r).
Definition NewLinkOperationContext (principal : Principal) : OperationContext :=
  MkOperationContext principal (Some SourceLink) "".

(** ** The tenant boundary (internal/identity/authorize.go) *)
Definition authorizationResult (allowed : bool) : option error := if allowed then None else Some ErrUnauthorized.

Definition authorizeTenantPrincipal (p : Principal) : option error := authorizationResult (bool_decide (tenant p <> "")).

Definition AuthorizeSessionList (p : Principal) : option error := authorizeTenantPrincipal p.
Definition AuthorizeSessionRead (p : Principal) (_ : SessionID) : option error := authorizeTenantPrincipal p.
Definition AuthorizeAuditRead (p : Principal) (_ : SessionID) : option error := authorizeTenantPrincipal p.
Definition AuthorizeObjectRead (p : Principal) (_ : SessionID) (_ : string) : option error := authorizeTenantPrincipal p.
Definition AuthorizeControl {K : Type} (p : Principal) (_ : SessionID) (_ : K) : option error := authorizeTenantPrincipal p.
Definition AuthorizeServiceSweep_ (p : Principal) : option error := authorizationResult (IsService p).

(** [sessionChannelPattern], \Asession:([^:]+):([^:]+)\z: the two captures. *)
Definition sessionChannelPattern (channel : string) : option (string * string) :=
  match after_prefix "session:" channel with
  | None => None
  | Some rest =>
      let '(first, second, found) := cut ":" rest in
      if found && negb (bool_decide (first = "")) && negb (bool_decide (second = "")) && negb (has_byte ":" second)
      then Some (first, second) else None
  end.

Record parsedSessionChannel := MkParsed { parsed_tenant : TenantID; parsed_session : SessionID; parsed_valid : bool }.

Section Channels.
Context `{CoreIdentifiers}.

Definition valid (err : option error) : bool := match err with None => true | Some _ => false end.

Definition parseSessionChannel (channel : string) : parsedSessionChannel :=
  match sessionChannelPattern channel with
  | None => MkParsed "" "" false
  | Some (tenant, session) =>
      MkParsed tenant session (valid (TenantID_Validate tenant) && valid (SessionID_Validate session))
  end.

Definition sessionChannelAllowed (principalTenant : TenantID) (parsed : parsedSessionChannel) : bool :=
  parsed_valid parsed && bool_decide (parsed_tenant parsed = principalTenant).

Definition AuthorizeSubscribe (p : Principal) (channel : string) : option error :=
  authorizationResult (sessionChannelAllowed (tenant p) (parseSessionChannel channel)).
End Channels.

(** ** Principals survive the wire *)

(** A principal and its wire form determine each other: [PrincipalFromWire]
    answers [p] exactly for the wire form of [p], when [p] is well formed (a
    non-empty valid tenant, a non-empty, bounded UTF-8 subject, a known kind)
    and Core accepts the form. Nothing is normalised, widened or dropped on the
    way, and every refusal is [ErrInvalidPrincipal]. *)
Theorem principal_wire_roundtrip `{CoreIdentifiers} (w : WirePrincipal) :
  (forall p, PrincipalFromWire w = Ok p <-> w = Wire p /\ principal_ok p /\ Principal_Validate w = None)
  /\ (is_Ok (PrincipalFromWire w) \/ PrincipalFromWire w = Fail (wrapf [ErrInvalidPrincipal])).
Proof.
  unfold PrincipalFromWire. split.
  - intros p. destruct (Principal_Validate w) as [e|].
    + split; [done|]. by intros (_ & _ & ?).
    + rewrite NewPrincipal_spec. destruct w as [t s k], p as [t' s' k']. unfold Wire. simpl. split.
      * intros [Heq Hok]. by simplify_eq.
      * intros (Heq & Hok & _). by simplify_eq.
  - destruct (Principal_Validate w) as [e|]; [by right|].
    destruct (NewPrincipal _ _ _) as [p|e] eqn:Hp; [left; by exists p|right].
    by apply NewPrincipal_error in Hp as ->.
Qed.

(** ** Authentication *)
Section AuthenticateFacts.
Context `{CoreIdentifiers}.

(** The tenant a principal gets is the credential's own, or the configured
    default for an actor whose credential names none. *)
Definition tenant_of_claims (a : Authenticator) (claims : Claims) (t : TenantID) : Prop :=
  t = claims_Tenant claims /\ t <> ""
  \/ claims_Tenant claims = "" /\ claims_Kind claims <> KindService /\ t = defaultTenant a /\ t <> "".

Lemma tenantFor_spec a claims t : tenantFor a claims = Ok t <-> tenant_of_claims a claims t.
Proof.
  unfold tenantFor, tenant_of_claims.
  repeat case_bool_decide; (split; [intros ?; simplify_eq; tauto|naive_solver]).
Qed.

Lemma tenantFor_error a claims e : tenantFor a claims = Fail e -> e = wrapf [ErrUnauthenticated].
Proof. unfold tenantFor. intros He. by branches. Qed.

(** The claims the verifier answered, the instant they were checked at, and the
    principal they make. *)
Definition vouched (a : Authenticator) (c : Credential) (p : Principal) (t : list (event authCall)) : Prop :=
  exists claims now,
    t = [Ev _ (VerifyCredential c) (Ok claims); Ev _ Now now]
    /\ cred_Value c <> "" /\ claims_ExpiresAt claims <> 0 /\ now < claims_ExpiresAt claims
    /\ tenant_of_claims a claims (tenant p)
    /\ subject p = claims_Subject claims /\ kind p = claims_Kind claims /\ principal_ok p.

(** How a failure is classified: the verifier could not answer, the credential
    expired, or it is not a credential. *)
Definition refused (c : Credential) (e : error) (t : list (event authCall)) : Prop :=
  match t with
  | [] => cred_Value c = "" /\ e = wrapf [ErrUnauthenticated]
  | [Ev _ (VerifyCredential c') answer] =>
      c' = c /\
      match answer with
      | Fail err => e = if errors_is err (Sentinel "identity.ErrUnauthenticated")
                        then wrapf [ErrUnauthenticated] else wrapf [ErrVerifierUnavailable]
      | Ok claims => claims_ExpiresAt claims = 0 /\ e = wrapf [ErrUnauthenticated]
      end
  | [Ev _ (VerifyCredential c') answer; Ev _ Now now] =>
      c' = c /\
      match answer with
      | Fail _ => False
      | Ok claims => e = if claims_ExpiresAt claims <=? now then wrapf [ErrCredentialExpired] else wrapf [ErrUnauthenticated]
      end
  | _ => False
  end.

Lemma authenticate_wp a c :
  wp (authenticate a c) (fun r t => match r with Ok p => vouched a c p t | Fail e => refused c e t end).
Proof.
  unfold authenticate. case_bool_decide as Hv; [by apply wp_ret|]. intros [claims|err].
  - destruct (claims_ExpiresAt claims =? 0) eqn:Hz; [apply wp_ret; by reflect_guards|]. intros now.
    destruct (now <? claims_ExpiresAt claims) eqn:Hn; simpl negb; cbv iota.
    + assert (Hle : (claims_ExpiresAt claims <=? now) = false) by (reflect_guards; apply Z.leb_gt; lia).
      destruct (tenantFor a claims) as [t|e] eqn:Ht.
      * destruct (NewPrincipal t _ _) as [p|e] eqn:Hp; apply wp_ret.
        -- apply NewPrincipal_spec in Hp as [-> Hok]. exists claims, now. reflect_guards.
           repeat (split; [done|]). split; [by apply tenantFor_spec|done].
        -- simpl. by rewrite Hle.
      * apply wp_ret. apply tenantFor_error in Ht as ->. simpl. by rewrite Hle.
    + apply wp_ret. simpl. split; [done|]. reflect_guards. by rewrite (proj2 (Z.leb_le _ _)).
  - destruct (errors_is err _) eqn:He; apply wp_ret; simpl; by rewrite He.
Qed.

(** Not a credential: none was presented, the verifier rejected it, or the claims
    it vouched for never expire or make no principal. *)
Definition rejected (a : Authenticator) (c : Credential) (t : list (event authCall)) : Prop :=
  (cred_Value c = "" /\ t = [])
  \/ (exists err, t = [Ev _ (VerifyCredential c) (Fail err)] /\ errors_is err (Sentinel "identity.ErrUnauthenticated") = true)
  \/ (exists claims, t = [Ev _ (VerifyCredential c) (Ok claims)] /\ claims_ExpiresAt claims = 0)
  \/ (exists claims now, t = [Ev _ (VerifyCredential c) (Ok claims); Ev _ Now now] /\ now < claims_ExpiresAt claims
       /\ forall p, ~ vouched a c p t).

(** The verifier failed with something else than a rejection. *)
Definition verifier_failed (t : list (event authCall)) : bool :=
  match t with
  | [Ev _ (VerifyCredential _) answer] =>
      match answer with
      | Fail err => negb (errors_is err (Sentinel "identity.ErrUnauthenticated"))
      | Ok _ => false
      end
  | _ => false
  end.

(** It verified claims whose expiry had passed at the clock reading. *)
Definition claims_expired (t : list (event authCall)) : bool :=
  match t with
  | [Ev _ (VerifyCredential _) answer; Ev _ Now now] =>
      match answer with
      | Fail _ => false
      | Ok claims => claims_ExpiresAt claims <=? now
      end
  | _ => false
  end.

Lemma rejected_only a c t : rejected a c t -> verifier_failed t = false /\ claims_expired t = false.
Proof.
  intros [[_ ->]|[(err & -> & He)|[(claims & -> & _)|(claims & now & -> & Hn & _)]]]; simpl; try done.
  - by rewrite He.
  - split; [done|]. apply Z.leb_gt. lia.
Qed.

(** The claims a run's verifier answered. *)
Definition verified_claims (t : list (event authCall)) : option Claims :=
  match t with Ev _ (VerifyCredential _) (Ok claims) :: _ => Some claims | _ => None end.

(** A failure is one of the three. *)
Lemma authenticate_rejects a c :
  wp (authenticate a c) (fun r t => match r with
    | Ok _ => True
    | Fail _ => verifier_failed t = false -> claims_expired t = false -> rejected a c t
    end).
Proof.
  unfold authenticate. case_bool_decide as Hv; [apply wp_ret; by left|]. intros [claims|err].
  - destruct (claims_ExpiresAt claims =? 0) eqn:Hz; reflect_guards; [apply wp_ret; right; right; left; eauto|]. intros now.
    destruct (now <? claims_ExpiresAt claims) eqn:Hn; simpl negb; cbv iota; reflect_guards.
    2:{ apply wp_ret. simpl. intros _ Hx%Z.leb_gt. lia. }
    assert (Hnone : (forall p, NewPrincipal (tenant p) (claims_Subject claims) (claims_Kind claims) = Ok p ->
        tenantFor a claims = Ok (tenant p) -> False) ->
      rejected a c [Ev _ (VerifyCredential c) (Ok claims); Ev _ Now now]).
    { intros Hno. right; right; right. exists claims, now. split_and!; [done..|].
      intros p (claims' & now' & Heq & _ & _ & _ & Ht & Hs & Hk & Hok).
      apply (f_equal verified_claims) in Heq. injection Heq as <-. apply (Hno p); [|by apply tenantFor_spec].
      rewrite <- Hs, <- Hk. apply NewPrincipal_spec. by destruct p. }
    destruct (tenantFor a claims) as [t|e] eqn:Ht; [|apply wp_ret; intros _ _; by apply Hnone].
    destruct (NewPrincipal t _ _) as [p|e] eqn:Hp; apply wp_ret; [done|]. intros _ _. apply Hnone. intros p Hp' Ht'. simplify_eq. congruence.
  - destruct (errors_is err _) eqn:He; apply wp_ret; simpl; rewrite He; [|done]. intros _ _. right; left. eauto.
Qed.

(** The credential a request presents. *)
Definition presents (a : Authenticator) (r : HTTPRequest) (c : Credential) : Prop :=
  match req_Authorization r with
  | Some values => exists v, values = [v] /\ bearerToken v = Some (cred_Value c) /\ cred_Source c = SourceBearer
  | None => req_Cookie r (cookieName a) = Some (cred_Value c) /\ cred_Source c = SourceCookie
  end.

Lemma presented_spec a r c : presented a r = Ok c <-> presents a r c.
Proof.
  unfold presented, presents. destruct c as [src v]. destruct (req_Authorization r) as [[|v' [|? ?]]|]; simpl.
  - split; [done|]. by intros (? & ? & _).
  - destruct (bearerToken v') as [t|] eqn:Hb.
    + split; [intros ?; simplify_eq; eauto|]. intros (? & ? & ? & ?). by simplify_eq.
    + split; [done|]. intros (? & ? & ? & ?). by simplify_eq.
  - split; [done|]. by intros (? & ? & _).
  - destruct (req_Cookie r _) as [w|]; [|split; [done|by intros [? _]]]. split; [by intros ?; simplify_eq|].
    intros [? ?]. by simplify_eq.
Qed.

Lemma presented_error a r e : presented a r = Fail e -> e = wrapf [ErrUnauthenticated].
Proof. unfold presented. intros He. by branches. Qed.
End AuthenticateFacts.

(** Whatever the verifier answers, a request that is authenticated was
    vouched for: the credential is the one it presents (the single bearer token
    when it has an Authorization header at all, else the cookie), it was sent to
    the verifier once, the claims name an expiry that had not passed at the
    clock reading that follows, and the principal is well formed with the
    claims' subject and kind and their tenant, or the configured default for
    an actor without one. *)
Theorem request_authenticated_is_vouched `{CoreIdentifiers} (a : Authenticator) (r : HTTPRequest) :
  wp (AuthenticateRequest a (Some r)) (fun answer t =>
    match answer with
    | Ok p => exists c, presents a r c /\ vouched a c p t
    | Fail e => (forall c, ~ presents a r c) /\ t = [] /\ e = wrapf [ErrUnauthenticated]
                \/ exists c, presents a r c /\ refused c e t
    end).
Proof.
  unfold AuthenticateRequest. destruct (presented a r) as [c|e] eqn:Hc.
  - apply presented_spec in Hc. eapply wp_mono; [|apply authenticate_wp]. simpl. intros [p|e] t Ht; eauto.
  - apply wp_ret. left. split; [|by apply presented_error in Hc].
    intros c Hp. apply presented_spec in Hp. congruence.
Qed.

(** A caller's fault and the credential service's are never confused: every
    failure of a link's authentication is either a rejection of the credential
    ([ErrUnauthenticated], which an expiry also is) or [ErrVerifierUnavailable],
    never both; the latter exactly when the verifier failed with something else
    than a rejection; and an expiry is reported only for verified claims whose
    expiry had passed. *)
Theorem authentication_failures_classified `{CoreIdentifiers} (a : Authenticator) (token : string) :
  wp (AuthenticateLink a token) (fun answer t =>
    match answer with
    | Ok _ => True
    | Fail e =>
        errors_is e (Sentinel "identity.ErrUnauthenticated") = negb (verifier_failed t)
        /\ errors_is e (Sentinel "identity.ErrVerifierUnavailable") = verifier_failed t
        /\ errors_is e (Sentinel "identity.ErrCredentialExpired") = claims_expired t
    end).
Proof.
  eapply wp_mono; [|apply authenticate_wp]. intros [p|e] t Ht; [done|]. simpl in Ht.
  destruct t as [|[? c answer] t]; simpl in Ht; [by destruct Ht as [_ ->]|].
  destruct c as [c|]; [|done]. destruct t as [|[? c2 now] t].
  - destruct Ht as [-> Ht]. destruct answer as [claims|err]; [by destruct Ht as [_ ->]|].
    simpl. destruct (errors_is err _); by subst e.
  - destruct c2 as [?|]; [done|]. destruct t; [|done]. destruct Ht as [-> Ht]. destruct answer as [claims|]; [|done].
    simpl. destruct (claims_ExpiresAt claims <=? now); by subst e.
Qed.

(** ** Trace identifiers *)

(** A trace identifier taken from a request is either absent or a W3C
    trace-id: 32 lowercase hexadecimal digits, not all zero, the second field of
    a [traceparent] header of at most 256 bytes. Nothing else a client puts in
    that header reaches a log. *)
Theorem traceID_well_formed (r : HTTPRequest) :
  traceIDFrom (Some r) = ""
  \/ len (traceIDFrom (Some r)) = 32 /\ isLowerHex (traceIDFrom (Some r)) = true
     /\ isAllZero (traceIDFrom (Some r)) = false
     /\ len (req_traceparent r) <= maxTraceparentBytes
     /\ split "-" (req_traceparent r) !! 1%nat = Some (traceIDFrom (Some r)).
Proof.
  unfold traceIDFrom. case_bool_decide; [by left|].
  destruct (maxTraceparentBytes <? _) eqn:Hlen; [by left|].
  case_bool_decide; [by left|]. destruct (split "-" (req_traceparent r)) as [|v [|t [|p [|f rest]]]]; try (by left).
  do 4 (case_match; [by left|]). case_match eqn:Ht; [by left|right]. reflect_guards. repeat split; done.
Qed.

(** ** Channels *)
Definition session_channel (t : TenantID) (s : SessionID) : string := "session:" +:+ t +:+ ":" +:+ s.

Lemma sessionChannelPattern_spec channel t s :
  sessionChannelPattern channel = Some (t, s) <->
  channel = session_channel t s /\ t <> "" /\ s <> "" /\ has_byte ":" t = false /\ has_byte ":" s = false.
Proof.
  unfold sessionChannelPattern, session_channel. split.
  - destruct (after_prefix "session:" channel) as [rest|] eqn:Hr; [|done]. apply after_prefix_some in Hr as ->.
    destruct (cut ":" rest) as [[first second] found] eqn:Hc. intros Hm. branches. reflect_guards. subst.
    apply cut_found in Hc as [-> ?]. done.
  - intros (-> & ? & ? & Ht & Hs). rewrite after_prefix_app.
    change (":" +:+ s) with (String ":" s). rewrite (cut_app ":" t s Ht), Hs. by rewrite !bool_decide_false.
Qed.

Lemma AuthorizeSubscribe_spec `{CoreIdentifiers} p channel :
  AuthorizeSubscribe p channel = None <->
  exists s, channel = session_channel (tenant p) s /\ tenant p <> "" /\ s <> ""
    /\ has_byte ":" (tenant p) = false /\ has_byte ":" s = false
    /\ TenantID_Validate (tenant p) = None /\ SessionID_Validate s = None.
Proof.
  unfold AuthorizeSubscribe, parseSessionChannel, authorizationResult, sessionChannelAllowed. split.
  - intros Ha. destruct (sessionChannelPattern channel) as [[t s]|] eqn:Hp; [|done]. simpl in Ha.
    apply sessionChannelPattern_spec in Hp as (-> & ? & ? & ? & ?).
    destruct (TenantID_Validate t) eqn:?; [done|]. destruct (SessionID_Validate s) eqn:?; [done|]. simpl in Ha.
    case_bool_decide; [|done]. subst t. by exists s.
  - intros (s & Hc & ? & ? & ? & ? & Ht & Hs).
    assert (Hp : sessionChannelPattern channel = Some (tenant p, s)) by (apply sessionChannelPattern_spec; tauto).
    rewrite Hp. simpl. rewrite Ht, Hs. simpl. by rewrite bool_decide_true.
Qed.
