(* ===== verification/Redaction.v ===== *)
(** * Redaction (src/internal/identity/http.go redactSecrets, src/identity/credential.go)

    The text of a verifier's error with the presented credential scrubbed out
    of it, and the renderings of a credential. *)

From S2P Require Import Prelude Wire Framing Text JsonText Identity.
Local Open Scope string_scope.

(** [strings.ReplaceAll] for a non-empty [old]: the occurrences from the left
    that do not overlap; [skip] bytes of the last one are still to be passed. *)
Fixpoint replaceFrom (old new : string) (skip : nat) (s : string) : string :=
  match s with
  | "" => ""
  | String c rest =>
      match skip with
      | S skip => replaceFrom old new skip rest
      | O =>
          if String.prefix old s then new +:+ replaceFrom old new (String.length old - 1) rest
          else String c (replaceFrom old new 0 rest)
      end
  end.

Definition ReplaceAll (s old new : string) : string := replaceFrom old new 0 s.

Definition redactSecrets (message : string) (secrets : list string) : string :=
  fold_left (fun message secret => if bool_decide (secret = "") then message else ReplaceAll message secret RedactedPlaceholder)
    secrets message.

(** The other renderings of a credential; [LogValue] is the string's too. *)
Definition Credential_GoString (c : Credential) : string := Credential_String c.
Definition Credential_LogValue (c : Credential) : string := Credential_String c.
Definition Credential_MarshalJSON (c : Credential) : string := appendString (Credential_String c).

(** ** What is left of a secret *)
Definition starts (p s : string) : Prop := exists r, s = p +:+ r.
Definition occurs (p s : string) : Prop := exists a b, s = a +:+ p +:+ b.

(** No end of [new] begins [old] or the other way round, and no end of [old]
    begins [new] or the other way round. *)
Fixpoint ends (s : string) : list string := match s with "" => [] | String _ rest => s :: ends rest end.
Definition disjoint_ends (old new : string) : bool := forallb (fun x => negb (String.prefix x old) && negb (String.prefix old x)) (ends new).
Definition apart (old new : string) : bool := disjoint_ends old new && disjoint_ends new old.

Lemma prefix_starts p s : String.prefix p s = true <-> starts p s.
Proof.
  revert s. induction p as [|c p IH]; intros s; [split; [intros _; by exists s|by destruct s]|]. destruct s as [|d s]; simpl; [split; [done|by intros [? ?]]|].
  destruct (ascii_dec c d) as [->|Hne]; [rewrite IH; split; intros [r Hr]; exists r; [by rewrite Hr|by injection Hr]|]. split; [done|].
  intros [r Hr]. by injection Hr.
Qed.

Lemma ends_app a x : x <> "" -> x ∈ ends (a +:+ x).
Proof. induction a as [|c a IH]; intros Hx; simpl; [destruct x; [done|left]|right; auto]. Qed.

Lemma disjoint_ends_apart old new a x :
  disjoint_ends old new = true -> new = a +:+ x -> x <> "" -> ~ starts x old /\ ~ starts old x.
Proof.
  unfold disjoint_ends. rewrite forallb_forall. intros Hd -> Hx. specialize (Hd x). rewrite <- list_elem_of_In, andb_true_iff, !negb_true_iff in Hd.
  destruct (Hd (ends_app a x Hx)) as [H1 H2]. rewrite <- !prefix_starts. split; congruence.
Qed.

#[local] Arguments String.prefix : simpl never.

Lemma starts_app x y z : starts x (y +:+ z) -> starts x y \/ starts y x.
Proof.
  revert x. induction y as [|c y IH]; intros x [r Hr]; [right; by exists x|].
  destruct x as [|d x]; [left; by exists (String c y)|]. simpl in Hr. injection Hr as -> Hr.
  destruct (IH x) as [[q Hq]|[q Hq]]; [by exists r|left; exists q; by rewrite Hq|right; exists q; by rewrite Hq].
Qed.

Lemma occurs_cons p c s : occurs p (String c s) -> starts p (String c s) \/ occurs p s.
Proof. intros ([|d a] & b & Heq); [left; by exists b|]. simpl in Heq. injection Heq as <- ->. right. by exists a, b. Qed.

Lemma occurs_app p a b : occurs p (a +:+ b) -> occurs p b \/ exists x y, a = x +:+ y /\ y <> "" /\ starts p (y +:+ b).
Proof.
  induction a as [|c a IH]; intros Ho; [by left|]. simpl in Ho. apply occurs_cons in Ho as [Hs|Ho].
  - right. by exists "", (String c a).
  - destruct (IH Ho) as [?|(x & y & -> & ? & ?)]; [by left|]. right. by exists (String c x), y.
Qed.

Section Clean.
Context (old new : string) (Hap : apart old new = true) (Hne : old <> "").

Lemma new_apart a x : new = a +:+ x -> x <> "" -> ~ starts x old /\ ~ starts old x.
Proof. apply disjoint_ends_apart. by apply andb_true_iff in Hap as [? _]. Qed.

Lemma old_apart a x : old = a +:+ x -> x <> "" -> ~ starts x new /\ ~ starts new x.
Proof. apply disjoint_ends_apart. by apply andb_true_iff in Hap as [_ ?]. Qed.


(** What follows a begun occurrence is the message's own text. *)
Lemma starts_replaced s : forall skip a x, old = a +:+ x -> (skip = 0%nat -> starts x (replaceFrom old new skip s) -> starts x s).
Proof.
  induction s as [|c s IH]; intros skip a x Hx ->; simpl; [done|]. destruct x as [|d x]; [intros _; by exists (String c s)|].
  destruct (String.prefix old (String c s)) eqn:Hp.
  - intros [Hs|Hs]%starts_app; exfalso; destruct (old_apart a (String d x) Hx ltac:(done)) as [H1 H2]; auto.
  - intros [r Hr]. injection Hr as <- Hr. destruct (IH 0%nat (a +:+ String c "") x) as [q Hq]; [rewrite Hx; by rewrite string_app_assoc|done|by exists r|].
    exists q. by rewrite Hq.
Qed.

Lemma replaced_clean s : forall skip, ~ occurs old (replaceFrom old new skip s).
Proof.
  induction s as [|c s IH]; intros skip Ho; simpl in Ho.
  - destruct Ho as ([|] & ? & Heq); [|done]. by destruct old.
  - destruct skip as [|skip]; [|by apply IH in Ho]. destruct (String.prefix old (String c s)) eqn:Hp.
    + apply occurs_app in Ho as [Ho|(x & y & Hxy & Hy & Hs)]; [by apply IH in Ho|].
      destruct (new_apart x y Hxy Hy) as [H1 H2]. by apply starts_app in Hs as [?|?].
    + apply occurs_cons in Ho as [Hs|Ho]; [|by apply IH in Ho]. assert (Hst : starts old (String c s)); [|by apply prefix_starts in Hst; congruence].
      apply (starts_replaced (String c s) 0 "" old); [done|done|]. simpl. by rewrite Hp.
Qed.
End Clean.

(** A scrubbed message holds no occurrence of the secret, wherever and however
    often the verifier's text repeated it - provided the secret and the
    placeholder do not run into each other; [redaction_may_leak] shows why. *)
Theorem redacted_message_is_clean message secret :
  secret <> "" -> apart secret RedactedPlaceholder = true -> ~ occurs secret (redactSecrets message [secret]).
Proof.
  intros Hne Hap. unfold redactSecrets. simpl. rewrite bool_decide_false by done. by apply replaced_clean.
Qed.

(** A credential that ends as the placeholder begins can survive: the text
    before an occurrence and the placeholder spell it again. *)
Lemma redaction_may_leak : occurs "abR" (redactSecrets "ababR" ["abR"]).
Proof. exists "", "EDACTED". reflexivity. Qed.

Lemma redacted_message_is_clean_witness :
  redactSecrets "bad token s3cr3t (s3cr3t)" ["s3cr3t"] = "bad token REDACTED (REDACTED)" /\
  ~ occurs "s3cr3t" (redactSecrets "bad token s3cr3t (s3cr3t)" ["s3cr3t"]).
Proof.
  split; [reflexivity|]. by apply redacted_message_is_clean.
Defined.

(** No rendering of a credential depends on its value. *)
Lemma renderings_hide_the_value source v w :
  let c := NewCredential source v in let d := NewCredential source w in
  Credential_String c = Credential_String d /\ Credential_GoString c = Credential_GoString d /\
  Credential_LogValue c = Credential_LogValue d /\ Credential_MarshalJSON c = Credential_MarshalJSON d.
Proof. by split_and!. Qed.
