(* ===== verification/Refusal.v ===== *)
(** * Command kinds, refusals and public statuses (src/internal/command)

    [Kinds] (kind.go) and the three decisions the REST routes and the ClientLink
    share (refusal.go): the HTTP status of a classified refusal, which store
    failures mean that there is no such session, and the public status of a
    durable inbox record of either family. *)

From S2P Require Import Prelude Wire Program Reconciler Pending.
Local Open Scope string_scope.
Local Open Scope Z_scope.

Definition Kinds : list CommandKind :=
  [KindCreateSession; KindInput; KindInterrupt; KindRestore; KindGateResponse].

(** ** Error codes of sessionwire *)
Definition ErrorCodeInvalidRequest := "invalid_request".
Definition ErrorCodeSessionNotFound := "session_not_found".
Definition ErrorCodeCommandRejected := "command_rejected".
Definition ErrorCodeGateResolved := "gate_resolved".
Definition ErrorCodeGateNotResumable := "gate_not_resumable".
Definition ErrorCodeGateExpired := "gate_expired".
Definition ErrorCodeRuntimeUnavailable := "runtime_unavailable".

(** ** HTTP statuses *)
Definition StatusBadRequest : Z := 400.
Definition StatusNotFound : Z := 404.
Definition StatusConflict : Z := 409.
Definition StatusUnprocessableEntity : Z := 422.
Definition StatusTooManyRequests : Z := 429.
Definition StatusBadGateway : Z := 502.
Definition StatusServiceUnavailable : Z := 503.
Definition StatusGatewayTimeout : Z := 504.

Definition refusalStatus : gmap string Z := list_to_map [
  (ErrorCodeInvalidRequest, StatusBadRequest);
  (ErrorCodeSessionNotFound, StatusNotFound);
  (ErrorCodeCommandRejected, StatusConflict);
  (ErrorCodeGateResolved, StatusConflict);
  (ErrorCodeGateNotResumable, StatusConflict);
  (ErrorCodeGateExpired, StatusConflict);
  (ErrorCodeRuntimeUnavailable, StatusUnprocessableEntity)].

Definition RefusalStatus (code : string) : option Z := refusalStatus !! code.

(** The codes in the order the table is ranged in, which Go leaves open. *)
Definition RefusalCodes : list string := (map_to_list refusalStatus).*1.

Definition RetryableStatus (status : Z) : bool :=
  (status =? StatusTooManyRequests) || (status =? StatusBadGateway)
  || (status =? StatusServiceUnavailable) || (status =? StatusGatewayTimeout).

(** ** Absence *)
Definition SessionAbsent (err : error) : bool :=
  code_is "CatalogError" "CatalogErrorNotFound" err
  || code_is "CatalogError" "CatalogErrorDeleted" err
  || code_is "CatalogError" "CatalogErrorIdentity" err
  || code_is "KeyspaceError" "KeyspaceBindingNotFound" err.

(** ** Public statuses *)

(** sessionstore.InboxEntry, the legacy family: the members the code reads. *)
Record InboxEntry := MkInboxEntry {
  leg_TenantID : TenantID;
  leg_SessionID : SessionID;
  leg_CommandID : CommandID;
  leg_State : InboxState;
  leg_Rejection : option string;     (* Rejection, by its Code *)
  leg_ClaimExpiresAt : time;
  leg_ApplyDeadline : time;
  leg_AcceptedOrder : Z;
  leg_Revision : Z
}.

(** sessionwire.CommandState; [CommandStatePending] is never minted. *)
Inductive CommandState := CommandStateAccepted | CommandStateApplied | CommandStateRejected.

#[global] Instance CommandState_eq_dec : EqDecision CommandState.
Proof. solve_decision. Defined.

Record CommandStatus := MkCommandStatus {
  status_CommandID : CommandID;
  status_AcceptedOrder : Z;
  status_State : CommandState;
  status_Error : option string
}.

Definition statusFor (command : CommandID) (acceptedOrder : Z) (state : InboxState) (rejection : option string)
    : option CommandStatus :=
  match state with
  | InboxStatePending | InboxStateClaimed | InboxStateApplying =>
      Some (MkCommandStatus command acceptedOrder CommandStateAccepted None)
  | InboxStateApplied => Some (MkCommandStatus command acceptedOrder CommandStateApplied None)
  | InboxStateRejected =>
      match rejection with
      | None => None
      | Some _ => Some (MkCommandStatus command acceptedOrder CommandStateRejected rejection)
      end
  | InboxStateOther _ => None
  end.

Definition StatusFor (entry : InboxEntry) : option CommandStatus :=
  statusFor (leg_CommandID entry) (leg_AcceptedOrder entry) (leg_State entry) (leg_Rejection entry).

Definition StatusForDisposition (entry : DispositionInboxEntry) : option CommandStatus :=
  let rejection :=
    if bool_decide (inbox_State entry = InboxStateRejected) && negb (inbox_hasAttempt entry)
    then Some ErrorCodeRuntimeUnavailable else None in
  statusFor (desc_CommandID (inbox_Descriptor entry)) (inbox_AcceptedOrder entry) (inbox_State entry) rejection.

(** ** Facts *)

(** A code the table rules on. *)
Definition ruled (code : string) : Prop := exists status, RefusalStatus code = Some status.

Lemma ruled_status code status :
  RefusalStatus code = Some status -> 400 <= status < 500 /\ RetryableStatus status = false.
Proof.
  unfold RefusalStatus. intros Hs. apply elem_of_list_to_map_2 in Hs.
  repeat (apply elem_of_cons in Hs as [Hs|Hs]; [by simplify_eq|]). by apply elem_of_nil in Hs.
Qed.

Lemma RefusalCodes_spec code : code ∈ RefusalCodes <-> ruled code.
Proof.
  unfold RefusalCodes, ruled, RefusalStatus. rewrite list_elem_of_fmap. split.
  - intros ([c s] & -> & Hs). exists s. by apply elem_of_map_to_list.
  - intros [s Hs]. exists (code, s). split; [done|]. by apply elem_of_map_to_list.
Qed.

(** A public status is a faithful projection of the durable record: it
    carries the record's own command and order, an error exactly when it is a
    rejection, and it exists for exactly the five states of the inbox, less a
    rejection that carries an attempt, whose cause was never observed; an
    attemptless one is described as [runtime_unavailable]. *)
Theorem disposition_status_faithful (entry : DispositionInboxEntry) :
  match StatusForDisposition entry with
  | Some status =>
      status_CommandID status = desc_CommandID (inbox_Descriptor entry)
      /\ status_AcceptedOrder status = inbox_AcceptedOrder entry
      /\ (status_State status = CommandStateAccepted <->
            inbox_State entry ∈ [InboxStatePending; InboxStateClaimed; InboxStateApplying])
      /\ (status_State status = CommandStateApplied <-> inbox_State entry = InboxStateApplied)
      /\ (status_State status = CommandStateRejected <-> inbox_State entry = InboxStateRejected)
      /\ (status_State status = CommandStateRejected -> inbox_hasAttempt entry = false)
      /\ status_Error status = (if bool_decide (status_State status = CommandStateRejected)
                                then Some ErrorCodeRuntimeUnavailable else None)
  | None => inbox_State entry = InboxStateRejected /\ inbox_hasAttempt entry = true
            \/ exists v, inbox_State entry = InboxStateOther v
  end.
Proof.
  unfold StatusForDisposition, statusFor.
  destruct (inbox_State entry), (inbox_hasAttempt entry); simpl; rewrite ?elem_of_cons, ?elem_of_nil; naive_solver.
Qed.
