(* ===== verification/Admission.v ===== *)
(** * The admission service (src/internal/admission/service.go, create.go)

    How a command becomes durable: the admission gate and its fence, the five
    entry points, the retry read, the checks on the session, its open gate and
    its owner, the admission itself (inline or by reference), the public create
    and the identity it pins. An entry point is a program over the interfaces
    the package declares; [BeginAdmission] and [EndAdmission] are its two
    critical sections on the service's own gate, whose state machine is
    [AdmissionGate]. Request validation and JSON are Core's and the standard
    library's on Core's types: parameters. *)

From S2P Require Import Prelude Wire Framing Text Program Placement Identity Pending Refusal.
Local Open Scope prog_scope.
Local Open Scope string_scope.
Local Open Scope Z_scope.

(** ** Errors *)
Definition ErrLegacySessionUnsupported : error := sentinel "admission.ErrLegacySessionUnsupported".
Definition ErrGateResponseUnsupported : error := sentinel "admission.ErrGateResponseUnsupported".
Definition ErrGateResponderUnavailable : error := sentinel "admission.ErrGateResponderUnavailable".
Definition ErrPrincipalResponderUnavailable : error := sentinel "admission.ErrPrincipalResponderUnavailable".
Definition ErrGateResponseTooLarge : error := sentinel "admission.ErrGateResponseTooLarge".
Definition ErrLegacyCreateUnsupported : error := sentinel "admission.ErrLegacyCreateUnsupported".
Definition ErrAdmissionQuiesced : error := sentinel "admission.ErrAdmissionQuiesced".
Definition ErrCreateBindingUnconfigured : error := sentinel "admission.ErrCreateBindingUnconfigured".

(** [*Error]: a public code and the cause it unwraps to. *)
Definition refusal (code : string) (cause : option error) : error :=
  Err (Typed "admission.Error" code "" 0) (match cause with None => [] | Some e => [e] end).

Definition IsCode (err : error) (code : string) : bool := code_is "admission.Error" code err.

Definition resolveTargetFault (err : error) : error := wrapf [err].

(** ** The admission gate *)
Module AdmissionGate.

(** [drained] is nil, open or closed. *)
Record Gate := MkGate { gateClosed : bool; active : Z; drained : option bool }.

Definition newGate : Gate := MkGate false 0 None.

(** [close]: panics on a nil channel and on a closed one. *)
Definition close (g : Gate) : option Gate :=
  match drained g with
  | Some false => Some (MkGate (gateClosed g) (active g) (Some true))
  | _ => None
  end.

Definition FenceAdmissions (g : Gate) : option Gate :=
  if gateClosed g then Some g
  else
    let g := MkGate true (active g) (Some (default false (drained g))) in
    if active g =? 0 then close g else Some g.

(** [beginAdmission]: the error, or the call is inside. *)
Definition beginAdmission (g : Gate) : option error * Gate :=
  if gateClosed g then (Some ErrAdmissionQuiesced, g)
  else (None, MkGate (gateClosed g) (active g + 1) (drained g)).

(** The function it returns. *)
Definition endAdmission (g : Gate) : option Gate :=
  let g := MkGate (gateClosed g) (active g - 1) (drained g) in
  if gateClosed g && (active g =? 0) then close g else Some g.

(** [Quiesce] after the fence: it waits on the channel it got and on its
    context, so it may return [nil] exactly when the channel is closed. *)
Definition quiesced (g : Gate) : bool := bool_decide (drained g = Some true).
End AdmissionGate.
Import AdmissionGate.

(** ** The requests (github.com/looprig/core/sessionwire/v1) *)
Abbreviation MessageMetadata := (list (string * string)) (only parsing).

Record CreateRequest := MkCreate {
  cr_SessionID : SessionID; cr_CommandID : CommandID; cr_AgentID : AgentID;
  cr_Principal : option WirePrincipal; cr_Metadata : MessageMetadata; cr_Blocks : bytes }.
Record InputRequest := MkInput {
  in_SessionID : SessionID; in_CommandID : CommandID;
  in_Principal : option WirePrincipal; in_Metadata : MessageMetadata; in_Blocks : bytes }.
Record InterruptRequest := MkInterrupt {
  it_SessionID : SessionID; it_CommandID : CommandID; it_Principal : option WirePrincipal }.
Record RestoreRequest := MkRestore {
  rs_SessionID : SessionID; rs_CommandID : CommandID; rs_Principal : option WirePrincipal }.
Record GateResponseRequest := MkGateResponse {
  gr_SessionID : SessionID; gr_CommandID : CommandID; gr_GateID : string;
  gr_ExpectedOpenEventID : string; gr_ExpectedOpenJournalSeq : Z;
  gr_Principal : option WirePrincipal; gr_Answer : bytes }.

Inductive command_request :=
| RCreate (r : CreateRequest) | RInput (r : InputRequest) | RInterrupt (r : InterruptRequest)
| RRestore (r : RestoreRequest) | RGateResponse (r : GateResponseRequest).

Class CoreCommands := {
  Validate : command_request -> option error;
  Marshal : command_request -> result bytes
}.

(** SHA-256: 32 bytes of its input. *)
Class Sha256 := {
  Sum256 : bytes -> list Z;
  Sum256_length : forall b, length (Sum256 b) = 32%nat;
  Sum256_bytes : forall b, Forall (fun x => 0 <= x < 256) (Sum256 b)
}.

(** sessionstore.MaxInboxPayloadBytes *)
Class InboxLimits := { MaxInboxPayloadBytes : Z }.

(** ** The store's requests *)
Record HostTargetKey := MkTargetKey {
  tk_AgentID : AgentID; tk_RuntimeCompatibilityID : string; tk_Placement : HostPlacement }.
Record Target := MkTarget { tg_Key : HostTargetKey; tg_Workload : DesiredWorkload }.
Record members := MkMembers { m_principal : option WirePrincipal; m_metadata : MessageMetadata }.
Abbreviation ObjectMetadata := string (only parsing).

(** A body is held inline or by reference. *)
Inductive payload_member := PayloadInline (b : bytes) | PayloadObject (object : ObjectMetadata).

Record AdmitDispositionRequest := MkAdmit {
  ad_TenantID : TenantID; ad_SessionID : SessionID; ad_CommandID : CommandID; ad_Binding : SessionBinding;
  ad_ProposedRuntimeCommandID : string; ad_Kind : CommandKind; ad_AcceptedAt : time; ad_ApplyDeadline : time;
  ad_Payload : payload_member; ad_Principal : option WirePrincipal; ad_Metadata : MessageMetadata }.

Record PutPayloadRequest := MkPutPayload {
  pp_TenantID : TenantID; pp_SessionID : SessionID; pp_SizeBytes : Z; pp_SHA256 : list Z; pp_MediaType : string;
  pp_Body : bytes }.

Record PublicCreateIdentity := MkCreateIdentity {
  ci_TenantID : TenantID; ci_SessionID : SessionID; ci_CommandID : CommandID; ci_Target : HostTargetKey;
  ci_Binding : SessionBinding; ci_Kind : CommandKind; ci_PayloadDigest : string; ci_PayloadSize : Z }.

Record PrepareCreateRequest := MkPrepare {
  pc_Identity : PublicCreateIdentity; pc_ProposedRuntimeCommandID : string;
  pc_AcceptedAt : time; pc_ApplyDeadline : time; pc_InitialWorkload : DesiredWorkload }.

Record AdmitCreateRequest := MkAdmitCreate {
  ac_Identity : PublicCreateIdentity; ac_Payload : payload_member;
  ac_Principal : option WirePrincipal; ac_Metadata : MessageMetadata }.

(** The plane an oversized payload is uploaded through. *)
Inductive payloadStore := CommandsPlane | PublicCreatesPlane.

(** ** The calls *)
Inductive admissionCall : Type -> Type :=
| BeginAdmission : admissionCall (option error)
| EndAdmission : admissionCall unit
| AskAuthorizeControl (p : Principal) (session : SessionID) (kind : CommandKind) : admissionCall (option error)
| ResolveAgent (agent : AgentID) : admissionCall (result (option Target))
| IsKnown (key : HostTargetKey) : admissionCall (result bool)
| GetCatalogEntry (tenant : TenantID) (session : SessionID) : admissionCall (result CatalogEntry)
| GetDispositionCommand (tenant : TenantID) (session : SessionID) (command : CommandID)
    : admissionCall (result DispositionInboxEntry)
| PutCommandPayload (plane : payloadStore) (req : PutPayloadRequest) : admissionCall (result ObjectMetadata)
| AdmitDispositionCommand (req : AdmitDispositionRequest) : admissionCall (result (DispositionInboxEntry * bool))
| PreparePublicCreate (req : PrepareCreateRequest) : admissionCall (option error)
| AdmitPublicCreate (req : AdmitCreateRequest) : admissionCall (result (DispositionInboxEntry * bool))
| Owner (tenant : TenantID) (session : SessionID) : admissionCall (result (option HostLinkRegistryObservation))
| AcceptsGateResponses (owner : HostLinkRegistryObservation) : admissionCall (result bool)
| AcceptsCommandPrincipal (owner : HostLinkRegistryObservation) : admissionCall (result bool)
| NewUUID : admissionCall (result string)
| ClockNow : admissionCall time
| OnAdmitted (notice : AdmissionNotice) : admissionCall unit.

Abbreviation admission := (prog admissionCall).
Abbreviation answer := (result (DispositionInboxEntry * bool)).

(** ** Configuration *)
Record SessionBindingTemplate := MkTemplate { StorageBindingID : string; BindingVersion : string }.

Definition configured (t : SessionBindingTemplate) : bool :=
  negb (bool_decide (StorageBindingID t = "")) && negb (bool_decide (BindingVersion t = "")).

Record Config := MkConfig {
  hasDependencies : bool;        (* the seven required interfaces are not nil *)
  hasGateResponders : bool;
  StampPrincipal : bool;
  hasPrincipalResponders : bool;
  hasPublicCreates : bool;
  Binding : SessionBindingTemplate;
  ApplyDeadline : Z;
  hasOnAdmitted : bool
}.

Definition createsServed (c : Config) : bool := hasPublicCreates c && configured (Binding c).

Definition NewService (cfg : Config) : result (Config * Gate) :=
  if negb (hasDependencies cfg) then Fail (sentinel "admission.NewService.incomplete")
  else if ApplyDeadline cfg <=? 0 then Fail (sentinel "admission.NewService.deadline")
  else Ok (cfg, newGate).

(** ** Classification of the store's answers *)
Definition legacyProtocolField : string := "binding.protocol_mode".

Definition legacyProtocol (err : error) : bool :=
  match errors_as "CatalogError" err with
  | Some (Typed _ code field _) =>
      bool_decide (field = legacyProtocolField) &&
      (bool_decide (code = "CatalogErrorInvalid") || bool_decide (code = "CatalogErrorConflict"))
  | _ => false
  end.

Definition commandRefusal (err : error) : error :=
  if legacyProtocol err then
    refusal ErrorCodeRuntimeUnavailable (Some (wrapf [ErrLegacySessionUnsupported; err]))
  else if code_is "InboxError" "InboxErrorCommandMismatch" err then refusal ErrorCodeCommandRejected (Some err)
  else err.

Definition createRefusal (err : error) : error :=
  if code_is "InboxError" "InboxErrorCommandMismatch" err then refusal ErrorCodeCommandRejected (Some err)
  else if code_is "CatalogError" "CatalogErrorConflict" err then refusal ErrorCodeCommandRejected (Some err)
  else wrapf [err].

Definition catalogNotFound (err : error) : bool := SessionAbsent err.

Definition commandNotFound (err : error) : bool :=
  code_is "InboxError" "InboxErrorNotFound" err || SessionAbsent err.

Definition catalogTarget (record : CatalogRecord) : HostTargetKey :=
  MkTargetKey (rec_AgentID record) (rec_RuntimeCompatibilityID record) (rec_DesiredPlacement record).

Definition freshMatchingOwner (owner : HostLinkRegistryObservation) (record : CatalogRecord) (now : time) : bool :=
  ReusableOwner owner record now.

Definition matchingVersion (gate : GateProjection) (request : GateResponseRequest) : bool :=
  negb (bool_decide (gr_ExpectedOpenEventID request = "")) &&
    bool_decide (gate_OpenedEventID gate = gr_ExpectedOpenEventID request)
  || negb (gr_ExpectedOpenJournalSeq request =? 0) && (gate_OpenedJournalSeq gate =? gr_ExpectedOpenJournalSeq request).

Fixpoint gateAdmission (gates : list GateProjection) (request : GateResponseRequest) (now : time) : option error :=
  match gates with
  | [] => Some (refusal ErrorCodeGateResolved None)
  | gate :: gates =>
      if negb (bool_decide (gate_GateID gate = gr_GateID request)) then gateAdmission gates request now
      else if negb (now <? gate_Deadline gate) then Some (refusal ErrorCodeGateExpired None)
      else if negb (matchingVersion gate request) then Some (refusal ErrorCodeGateResolved None)
      else if negb (bool_decide (gate_Answerability gate = GateAnswerabilityResident))
      then Some (refusal ErrorCodeGateNotResumable None)
      else None
  end.

(** ** The identity a create pins (create.go) *)
Definition hex_digit (x : Z) : ascii := ascii_of_N (Z.to_N (if x <? 10 then 48 + x else 87 + x)).

(** [hex.EncodeToString]. *)
Fixpoint EncodeToString (bs : list Z) : string :=
  match bs with
  | [] => ""
  | b :: bs => String (hex_digit (b / 16)) (String (hex_digit (b mod 16)) (EncodeToString bs))
  end.

(** [h[lo:hi]]. *)
Definition slice (lo hi : nat) (h : string) : string := String.substring lo (hi - lo) h.

Definition runtimeSessionNamespace : string := "looprig/factory/runtime-session-id/v1".

(** One ["|%d:%s"] of the format. *)
Definition sized (s : string) : string := "|" +:+ itoa (N.of_nat (String.length s)) +:+ ":" +:+ s.

Definition runtimeSessionPreimage (tenant : TenantID) (session : SessionID) (command : CommandID) : bytes :=
  runtimeSessionNamespace +:+ sized tenant +:+ sized session +:+ sized command.

Definition canonicalCommandMediaType : string := "application/json".

Section Create.
Context `{Sha256} (cfg : Config).

(** The digest's first sixteen bytes as a version-8 UUID. *)
Definition uuid8 (sum : list Z) : string :=
  let raw := take 16 sum in
  let raw := alter (fun b => Z.lor (Z.land b 15) 128) 6%nat raw in
  let raw := alter (fun b => Z.lor (Z.land b 63) 128) 8%nat raw in
  let h := EncodeToString raw in
  slice 0 8 h +:+ "-" +:+ slice 8 12 h +:+ "-" +:+ slice 12 16 h +:+ "-" +:+ slice 16 20 h +:+ "-" +:+ slice 20 32 h.

Definition deriveRuntimeSessionID (tenant : TenantID) (session : SessionID) (command : CommandID) : string :=
  uuid8 (Sum256 (runtimeSessionPreimage tenant session command)).

Definition bind_ (tenant : TenantID) (session : SessionID) (command : CommandID) : SessionBinding :=
  Session_Binding (StorageBindingID (Binding cfg)) (BindingVersion (Binding cfg))
    (deriveRuntimeSessionID tenant session command) ProtocolModeDisposition.

Definition payloadIdentity (payload : bytes) : string * Z := (EncodeToString (Sum256 payload), len payload).

Definition createIdentity (tenant : TenantID) (req : CreateRequest) (target : Target) (payload : bytes)
    : PublicCreateIdentity :=
  let '(digest, size) := payloadIdentity payload in
  MkCreateIdentity tenant (cr_SessionID req) (cr_CommandID req) (tg_Key target)
    (bind_ tenant (cr_SessionID req) (cr_CommandID req)) KindCreateSession digest size.

Definition putCommandPayload (plane : payloadStore) (tenant : TenantID) (session : SessionID) (payload : bytes)
    : admission (result ObjectMetadata) :=
  call! object := PutCommandPayload plane
    (MkPutPayload tenant session (len payload) (Sum256 payload) canonicalCommandMediaType payload) in
  match object with
  | Fail err => Ret (Fail (wrapf [err]))
  | Ok object => Ret (Ok object)
  end.

Definition notify (entry : DispositionInboxEntry) : admission unit :=
  if hasOnAdmitted cfg then invoke (OnAdmitted (Notice entry)) else Ret tt.
End Create.

Section Service.
Context `{Sha256} `{InboxLimits} `{CoreCommands} (cfg : Config).

Definition canonicalCommand (request : command_request) : result bytes :=
  match Marshal request with Ok payload => Ok payload | Fail err => Fail (wrapf [err]) end.

(** The payload member of both admissions: by reference above the bound. *)
Definition admitPublicCreate (tenant : TenantID) (req : CreateRequest) (target : Target) (payload : bytes)
    : admission answer :=
  let identity := createIdentity cfg tenant req target payload in
  call! runtimeID := NewUUID in
  match runtimeID with
  | Fail err => Ret (Fail err)
  | Ok runtimeID =>
      call! now := ClockNow in
      call! refused := PreparePublicCreate
        (MkPrepare identity runtimeID now (now + ApplyDeadline cfg) (tg_Workload target)) in
      match refused with
      | Some err => Ret (Fail (createRefusal err))
      | None =>
          let! body :=
            if MaxInboxPayloadBytes <? ci_PayloadSize identity then
              let! object := putCommandPayload PublicCreatesPlane tenant (cr_SessionID req) payload in
              Ret (match object with Ok object => Ok (PayloadObject object) | Fail err => Fail err end)
            else Ret (Ok (PayloadInline payload)) in
          match body with
          | Fail err => Ret (Fail err)
          | Ok body =>
              call! admitted := AdmitPublicCreate (MkAdmitCreate identity body (cr_Principal req) (cr_Metadata req)) in
              match admitted with
              | Fail err => Ret (Fail (createRefusal err))
              | Ok (entry, created) => let! _ := notify cfg entry in Ret (Ok (entry, created))
              end
          end
      end
  end.

Definition admit_ (tenant : TenantID) (session : SessionID) (command : CommandID) (kind : CommandKind)
    (binding : SessionBinding) (payload : bytes) (m : members) : admission answer :=
  call! runtimeID := NewUUID in
  match runtimeID with
  | Fail err => Ret (Fail err)
  | Ok runtimeID =>
      call! now := ClockNow in
      let! body :=
        if MaxInboxPayloadBytes <? len payload then
          let! object := putCommandPayload CommandsPlane tenant session payload in
          Ret (match object with Ok object => Ok (PayloadObject object) | Fail err => Fail (commandRefusal err) end)
        else Ret (Ok (PayloadInline payload)) in
      match body with
      | Fail err => Ret (Fail err)
      | Ok body =>
          call! admitted := AdmitDispositionCommand
            (MkAdmit tenant session command binding runtimeID kind now (now + ApplyDeadline cfg) body
               (m_principal m) (m_metadata m)) in
          match admitted with
          | Fail err => Ret (Fail (commandRefusal err))
          | Ok (entry, created) => let! _ := notify cfg entry in Ret (Ok (entry, created))
          end
      end
  end.

(** [Ok None] is "not handled". *)
Definition retry (tenant : TenantID) (session : SessionID) (command : CommandID) (kind : CommandKind)
    (payload : bytes) (m : members) : admission (result (option DispositionInboxEntry)) :=
  call! found := GetDispositionCommand tenant session command in
  match found with
  | Fail err => if commandNotFound err then Ret (Ok None) else Ret (Fail (commandRefusal err))
  | Ok found =>
      let! admitted := admit_ tenant session command kind (desc_Binding (inbox_Descriptor found)) payload m in
      match admitted with
      | Ok (entry, _) => Ret (Ok (Some entry))
      | Fail err => Ret (Fail err)
      end
  end.

Definition existingCompatible (tenant : TenantID) (session : SessionID) : admission (result CatalogEntry) :=
  call! entry := GetCatalogEntry tenant session in
  match entry with
  | Fail err => if catalogNotFound err then Ret (Fail (refusal ErrorCodeSessionNotFound (Some err))) else Ret (Fail err)
  | Ok entry =>
      call! known := IsKnown (catalogTarget (entry_Record entry)) in
      match known with
      | Fail err => Ret (Fail (wrapf [err]))
      | Ok false => Ret (Fail (refusal ErrorCodeRuntimeUnavailable None))
      | Ok true => Ret (Ok entry)
      end
  end.

Definition ownerAppliesPrincipal (tenant : TenantID) (session : SessionID) (record : CatalogRecord) (m : members)
    : admission (option error) :=
  if bool_decide (m_principal m = None) && bool_decide (m_metadata m = []) then Ret None
  else
    call! owner := Owner tenant session in
    match owner with
    | Fail err => Ret (Some (wrapf [err]))
    | Ok None => Ret None
    | Ok (Some owner) =>
        call! now := ClockNow in
        if negb (freshMatchingOwner owner record now) then Ret None
        else if negb (hasPrincipalResponders cfg)
        then Ret (Some (refusal ErrorCodeRuntimeUnavailable (Some ErrMetadataUnsupported)))
        else
          call! accepts := AcceptsCommandPrincipal owner in
          match accepts with
          | Fail err => Ret (Some (wrapf [err]))
          | Ok false => Ret (Some (refusal ErrorCodeRuntimeUnavailable (Some ErrMetadataUnsupported)))
          | Ok true => Ret None
          end
    end.

Definition ownerAppliesGateResponses (owner : HostLinkRegistryObservation) : admission (option error) :=
  if negb (hasGateResponders cfg) then Ret (Some (refusal ErrorCodeGateNotResumable (Some ErrGateResponseUnsupported)))
  else
    call! accepts := AcceptsGateResponses owner in
    match accepts with
    | Fail err => Ret (Some (wrapf [err]))
    | Ok false => Ret (Some (refusal ErrorCodeGateNotResumable (Some ErrGateResponseUnsupported)))
    | Ok true => Ret None
    end.

Definition gateOwnerAnswers (tenant : TenantID) (session : SessionID) (record : CatalogRecord) (now : time)
    : admission (option error) :=
  call! owner := Owner tenant session in
  match owner with
  | Fail err => Ret (Some (wrapf [err]))
  | Ok None => Ret (Some (refusal ErrorCodeGateNotResumable None))
  | Ok (Some owner) =>
      if negb (freshMatchingOwner owner record now) then Ret (Some (refusal ErrorCodeGateNotResumable None))
      else ownerAppliesGateResponses owner
  end.

Definition GateResponsesAnswerable (tenant : TenantID) (session : SessionID) (record : CatalogRecord)
    : admission (result bool) :=
  call! now := ClockNow in
  let! err := gateOwnerAnswers tenant session record now in
  match err with
  | None => Ret (Ok true)
  | Some err => match errors_as "admission.Error" err with Some _ => Ret (Ok false) | None => Ret (Fail err) end
  end.

Definition admitExisting (principal : Principal) (session : SessionID) (command : CommandID) (kind : CommandKind)
    (request : command_request) (m : members) : admission answer :=
  match canonicalCommand request with
  | Fail err => Ret (Fail (refusal ErrorCodeInvalidRequest (Some err)))
  | Ok payload =>
      call! denied := AskAuthorizeControl principal session kind in
      match denied with
      | Some err => Ret (Fail err)
      | None =>
          let! retried := retry (tenant principal) session command kind payload m in
          match retried with
          | Fail err => Ret (Fail err)
          | Ok (Some entry) => Ret (Ok (entry, false))
          | Ok None =>
              let! entry := existingCompatible (tenant principal) session in
              match entry with
              | Fail err => Ret (Fail err)
              | Ok entry =>
                  let! refused := ownerAppliesPrincipal (tenant principal) session (entry_Record entry) m in
                  match refused with
                  | Some err => Ret (Fail err)
                  | None => admit_ (tenant principal) session command kind (rec_Binding (entry_Record entry)) payload m
                  end
              end
          end
      end
  end.

Definition attribute (principal : Principal) (carried : option WirePrincipal) : result (option WirePrincipal) :=
  match carried with
  | Some _ => Fail (refusal ErrorCodeInvalidRequest (Some (wrapf [ErrClientPrincipal])))
  | None => Ok (if StampPrincipal cfg then Some (Wire principal) else None)
  end.

(** [beginAdmission] and the deferred [end] around an entry point's body. *)
Definition gated {A} (body : admission (result A)) : admission (result A) :=
  call! quiesced := BeginAdmission in
  match quiesced with
  | Some err => Ret (Fail err)
  | None => let! r := body in call! _ := EndAdmission in Ret r
  end.

(** The steps every entry point starts with: attribution, then validation of
    the request as it will be stored. *)
Definition attributed (principal : Principal) (carried : option WirePrincipal)
    (request : option WirePrincipal -> command_request) (k : option WirePrincipal -> admission answer) : admission answer :=
  match attribute principal carried with
  | Fail err => Ret (Fail err)
  | Ok carried =>
      match Validate (request carried) with
      | Some err => Ret (Fail (refusal ErrorCodeInvalidRequest (Some err)))
      | None => k carried
      end
  end.

Definition create_with (req : CreateRequest) (p : option WirePrincipal) : CreateRequest :=
  MkCreate (cr_SessionID req) (cr_CommandID req) (cr_AgentID req) p (cr_Metadata req) (cr_Blocks req).
Definition input_with (req : InputRequest) (p : option WirePrincipal) : InputRequest :=
  MkInput (in_SessionID req) (in_CommandID req) p (in_Metadata req) (in_Blocks req).
Definition gate_with (req : GateResponseRequest) (p : option WirePrincipal) : GateResponseRequest :=
  MkGateResponse (gr_SessionID req) (gr_CommandID req) (gr_GateID req) (gr_ExpectedOpenEventID req)
    (gr_ExpectedOpenJournalSeq req) p (gr_Answer req).

Definition AdmitCreate (principal : Principal) (req : CreateRequest) : admission answer :=
  gated (attributed principal (cr_Principal req) (fun p => RCreate (create_with req p)) (fun p =>
    let req := create_with req p in
    match canonicalCommand (RCreate req) with
    | Fail err => Ret (Fail (refusal ErrorCodeInvalidRequest (Some err)))
    | Ok payload =>
        call! denied := AskAuthorizeControl principal (cr_SessionID req) KindCreateSession in
        match denied with
        | Some err => Ret (Fail err)
        | None =>
            call! target := ResolveAgent (cr_AgentID req) in
            match target with
            | Fail err => Ret (Fail (resolveTargetFault err))
            | Ok None => Ret (Fail (refusal ErrorCodeRuntimeUnavailable None))
            | Ok (Some target) =>
                if negb (bool_decide (tk_AgentID (tg_Key target) = cr_AgentID req))
                then Ret (Fail (refusal ErrorCodeRuntimeUnavailable None))
                else if negb (createsServed cfg)
                then Ret (Fail (refusal ErrorCodeRuntimeUnavailable (Some ErrCreateBindingUnconfigured)))
                else admitPublicCreate (tenant principal) req target payload
            end
        end
    end)).

Definition AdmitInput (principal : Principal) (req : InputRequest) : admission answer :=
  gated (attributed principal (in_Principal req) (fun p => RInput (input_with req p)) (fun p =>
    admitExisting principal (in_SessionID req) (in_CommandID req) KindInput (RInput (input_with req p))
      (MkMembers p (in_Metadata req)))).

Definition AdmitInterrupt (principal : Principal) (req : InterruptRequest) : admission answer :=
  let with_ p := MkInterrupt (it_SessionID req) (it_CommandID req) p in
  gated (attributed principal (it_Principal req) (fun p => RInterrupt (with_ p)) (fun p =>
    admitExisting principal (it_SessionID req) (it_CommandID req) KindInterrupt (RInterrupt (with_ p)) (MkMembers p []))).

Definition AdmitRestore (principal : Principal) (req : RestoreRequest) : admission answer :=
  let with_ p := MkRestore (rs_SessionID req) (rs_CommandID req) p in
  gated (attributed principal (rs_Principal req) (fun p => RRestore (with_ p)) (fun p =>
    admitExisting principal (rs_SessionID req) (rs_CommandID req) KindRestore (RRestore (with_ p)) (MkMembers p []))).

Definition AdmitGateResponse (principal : Principal) (req : GateResponseRequest) : admission answer :=
  gated (attributed principal (gr_Principal req) (fun p => RGateResponse (gate_with req p)) (fun p =>
    match canonicalCommand (RGateResponse (gate_with req p)) with
    | Fail err => Ret (Fail (refusal ErrorCodeInvalidRequest (Some err)))
    | Ok payload =>
        let m := MkMembers p [] in
        let session := gr_SessionID req in
        call! denied := AskAuthorizeControl principal session KindGateResponse in
        match denied with
        | Some err => Ret (Fail err)
        | None =>
            let! retried := retry (tenant principal) session (gr_CommandID req) KindGateResponse payload m in
            match retried with
            | Fail err => Ret (Fail err)
            | Ok (Some entry) => Ret (Ok (entry, false))
            | Ok None =>
                if MaxInboxPayloadBytes <? len payload
                then Ret (Fail (refusal ErrorCodeInvalidRequest (Some (wrapf [ErrGateResponseTooLarge]))))
                else
                  let! entry := existingCompatible (tenant principal) session in
                  match entry with
                  | Fail err => Ret (Fail err)
                  | Ok entry =>
                      call! now := ClockNow in
                      match gateAdmission (rec_OpenGates (entry_Record entry)) req now with
                      | Some err => Ret (Fail err)
                      | None =>
                          let! refused := gateOwnerAnswers (tenant principal) session (entry_Record entry) now in
                          match refused with
                          | Some err => Ret (Fail err)
                          | None =>
                              let! refused := ownerAppliesPrincipal (tenant principal) session (entry_Record entry) m in
                              match refused with
                              | Some err => Ret (Fail err)
                              | None => admit_ (tenant principal) session (gr_CommandID req) KindGateResponse
                                          (rec_Binding (entry_Record entry)) payload m
                              end
                          end
                      end
                  end
            end
        end
    end)).

(** The result's entry is of the legacy family and always zero. *)
Definition AdmitLegacyCreate : admission (result unit) :=
  gated (Ret (Fail (refusal ErrorCodeRuntimeUnavailable (Some ErrLegacyCreateUnsupported)))).
End Service.

(** ** The gate's state machine *)

(** A service and the admissions that are inside it: an admission begins, a
    late one is turned away, one ends, the fence falls (any number of times). *)
Inductive gate_step : Gate * nat -> Gate * nat -> Prop :=
| step_begin g g' n : beginAdmission g = (None, g') -> gate_step (g, n) (g', S n)
| step_refused g e n : beginAdmission g = (Some e, g) -> gate_step (g, n) (g, n)
| step_end g g' n : endAdmission g = Some g' -> gate_step (g, S n) (g', n)
| step_fence g g' n : FenceAdmissions g = Some g' -> gate_step (g, n) (g', n).

Definition gate_reachable : Gate * nat -> Prop := reachable (fun s => s = (newGate, O)) gate_step.

Definition gate_inv (s : Gate * nat) : Prop :=
  let '(g, n) := s in
  active g = Z.of_nat n
  /\ drained g = (if gateClosed g then Some (Nat.eqb n 0) else None).

Lemma gate_inv_end g n : gate_inv (g, S n) -> exists g', endAdmission g = Some g' /\ gate_inv (g', n) /\ gateClosed g' = gateClosed g.
Proof.
  destruct g as [c a d]. unfold gate_inv, endAdmission. simpl. intros [-> ->].
  replace (Z.of_nat (S n) - 1) with (Z.of_nat n) by lia.
  destruct c; simpl; [|eexists; split; [done|split; done]].
  destruct n as [|n]; simpl.
  - eexists. split; [done|]. split; done.
  - eexists. split; [done|]. split; done.
Qed.

Lemma gate_inv_fence g n : gate_inv (g, n) -> exists g', FenceAdmissions g = Some g' /\ gate_inv (g', n) /\ gateClosed g' = true.
Proof.
  destruct g as [c a d]. unfold gate_inv, FenceAdmissions. simpl. intros [-> ->]. destruct c; simpl.
  - eexists. split; [done|]. split; done.
  - destruct n as [|n]; simpl; (eexists; split; [done|]; split; done).
Qed.

Lemma gate_inv_begin g g' n : gate_inv (g, n) -> beginAdmission g = (None, g') -> gate_inv (g', S n) /\ gateClosed g = false.
Proof.
  destruct g as [c a d]. unfold gate_inv, beginAdmission. simpl. intros [-> ->] Hb. destruct c; [done|]. simplify_eq.
  simpl. split; [split; [lia|done]|done].
Qed.

Lemma gate_inv_reachable s : gate_reachable s -> gate_inv s.
Proof.
  apply reachable_invariant; [by intros ? ->|].
  intros s1 s2 Hi Hs. destruct Hs as [g g' n Hb|g e n _|g g' n He|g g' n Hf]; [|done| |].
  - by eapply gate_inv_begin.
  - apply gate_inv_end in Hi as (g2 & He2 & ? & _). by simplify_eq.
  - apply gate_inv_fence in Hi as (g2 & Hf2 & ? & _). by simplify_eq.
Qed.

(** A fenced service stays fenced and admits nothing more. *)
Lemma gate_step_fenced s1 s2 :
  gate_step s1 s2 -> gate_inv s1 -> gateClosed s1.1 = true -> gateClosed s2.1 = true /\ (s2.2 <= s1.2)%nat.
Proof.
  intros Hs Hi Hc. destruct Hs as [g g' n Hb|g e n _|g g' n He|g g' n Hf]; simpl in *; [|by split| |].
  - destruct (gate_inv_begin _ _ _ Hi Hb). congruence.
  - apply gate_inv_end in Hi as (g2 & He2 & _ & Hc2). simplify_eq. split; [congruence|lia].
  - apply gate_inv_fence in Hi as (g2 & Hf2 & _ & Hc2). simplify_eq. by split.
Qed.

(** C29: The admission fence, for every interleaving of admissions and fences:
    no transition panics (the drained channel is closed at most once and never
    while nil), the count is the number of admissions inside, the channel
    [Quiesce] waits on is closed exactly when the service is fenced and the
    last admission has left, and from the fence on every admission is turned
    away. *)
Theorem fence_waits_for_every_admission (g : Gate) (n : nat) (Hr : gate_reachable (g, n)) :
  active g = Z.of_nat n
  /\ (quiesced g = true <-> gateClosed g = true /\ n = O)
  /\ is_Some (FenceAdmissions g) /\ ((0 < n)%nat -> is_Some (endAdmission g))
  /\ (gateClosed g = true -> beginAdmission g = (Some ErrAdmissionQuiesced, g))
  /\ (forall g' n', gate_step (g, n) (g', n') -> gateClosed g = true -> gateClosed g' = true /\ (n' <= n)%nat).
Proof.
  apply gate_inv_reachable in Hr as Hi. pose proof Hi as [Ha Hd]. split; [done|]. split; [|split; [|split; [|split]]].
  - unfold quiesced. rewrite bool_decide_eq_true, Hd. destruct (gateClosed g), n; naive_solver.
  - apply gate_inv_fence in Hi as (g' & -> & _). eauto.
  - destruct n as [|n]; [lia|]. intros _. apply gate_inv_end in Hi as (g' & -> & _). eauto.
  - intros Hc. unfold beginAdmission. by rewrite Hc.
  - intros g' n' Hs Hc. by apply (gate_step_fenced (g, n) (g', n')).
Qed.

(** Two admissions inside, the fence, one of them leaves. *)
Lemma fence_waits_for_every_admission_witness :
  gate_reachable (MkGate true 1 (Some false), 1%nat) /\ quiesced (MkGate true 1 (Some false)) = false
  /\ beginAdmission (MkGate true 1 (Some false)) = (Some ErrAdmissionQuiesced, MkGate true 1 (Some false)).
Proof.
  assert (Hr : gate_reachable (MkGate true 1 (Some false), 1%nat)).
  { eapply reach_step; [eapply reach_step; [eapply reach_step; [eapply reach_step; [by apply reach_init|]|]|]|].
    - by apply (step_begin newGate (MkGate false 1 None)).
    - by apply (step_begin _ (MkGate false 2 None)).
    - by apply (step_fence _ (MkGate true 2 (Some false))).
    - by apply step_end. }
  split; [done|]. split; [done|].
  by apply (proj1 (proj2 (proj2 (proj2 (proj2 (fence_waits_for_every_admission _ _ Hr)))))).
Defined.

(** ** The entry points as one *)
Section Facts.
Context `{Sha256} `{InboxLimits} `{CoreCommands} (cfg : Config).

Definition Admit (principal : Principal) (r : command_request) : admission answer :=
  match r with
  | RCreate r => AdmitCreate cfg principal r
  | RInput r => AdmitInput cfg principal r
  | RInterrupt r => AdmitInterrupt cfg principal r
  | RRestore r => AdmitRestore cfg principal r
  | RGateResponse r => AdmitGateResponse cfg principal r
  end.

Definition request_session (r : command_request) : SessionID :=
  match r with
  | RCreate r => cr_SessionID r | RInput r => in_SessionID r | RInterrupt r => it_SessionID r
  | RRestore r => rs_SessionID r | RGateResponse r => gr_SessionID r
  end.
Definition request_command (r : command_request) : CommandID :=
  match r with
  | RCreate r => cr_CommandID r | RInput r => in_CommandID r | RInterrupt r => it_CommandID r
  | RRestore r => rs_CommandID r | RGateResponse r => gr_CommandID r
  end.
Definition request_kind (r : command_request) : CommandKind :=
  match r with
  | RCreate _ => KindCreateSession | RInput _ => KindInput | RInterrupt _ => KindInterrupt
  | RRestore _ => KindRestore | RGateResponse _ => KindGateResponse
  end.

(** ** What is written, and when *)
Definition is_write (e : event admissionCall) : bool :=
  match e with
  | Ev _ c _ =>
      match c with
      | PutCommandPayload _ _ | AdmitDispositionCommand _ | PreparePublicCreate _ | AdmitPublicCreate _ => true
      | _ => false
      end
  end.

Definition grants (p : Principal) (session : SessionID) (kind : CommandKind) (e : event admissionCall) : bool :=
  match e with
  | Ev _ (AskAuthorizeControl p' session' kind') denied =>
      bool_decide (p' = p) && bool_decide (session' = session) && bool_decide (kind' = kind) &&
      match denied with None => true | Some _ => false end
  | _ => false
  end.

(** Every write names the tenant, the session and the command, declares the
    size and digest of the bytes it uploads, and keeps a body inline only up to
    the inbox's bound. *)
Definition own_payload (body : payload_member) : Prop :=
  match body with PayloadInline b => len b <= MaxInboxPayloadBytes | PayloadObject _ => True end.

Definition own_write (t : TenantID) (s : SessionID) (c : CommandID) (k : CommandKind) (e : event admissionCall) : Prop :=
  match e with
  | Ev _ call _ =>
      match call with
      | PutCommandPayload _ req =>
          pp_TenantID req = t /\ pp_SessionID req = s /\ pp_SizeBytes req = len (pp_Body req)
          /\ pp_SHA256 req = Sum256 (pp_Body req) /\ MaxInboxPayloadBytes < len (pp_Body req)
      | AdmitDispositionCommand req =>
          ad_TenantID req = t /\ ad_SessionID req = s /\ ad_CommandID req = c /\ ad_Kind req = k
          /\ own_payload (ad_Payload req) /\ ad_ApplyDeadline req = ad_AcceptedAt req + ApplyDeadline cfg
      | PreparePublicCreate req =>
          ci_TenantID (pc_Identity req) = t /\ ci_SessionID (pc_Identity req) = s /\ ci_CommandID (pc_Identity req) = c
          /\ ci_Kind (pc_Identity req) = k /\ pc_ApplyDeadline req = pc_AcceptedAt req + ApplyDeadline cfg
      | AdmitPublicCreate req =>
          ci_TenantID (ac_Identity req) = t /\ ci_SessionID (ac_Identity req) = s /\ ci_CommandID (ac_Identity req) = c
          /\ ci_Kind (ac_Identity req) = k /\ own_payload (ac_Payload req)
      | GetCatalogEntry t' s' | Owner t' s' => t' = t /\ s' = s
      | GetDispositionCommand t' s' c' => t' = t /\ s' = s /\ c' = c
      | _ => True
      end
  end.

Lemma notify_only (P : event admissionCall -> Prop) entry :
  P (Ev _ (OnAdmitted (Notice entry)) tt) -> only P (notify cfg entry).
Proof.
  intros HP. unfold notify, invoke. destruct (hasOnAdmitted cfg); [|apply only_ret].
  apply only_call; [by intros []|]. intros ?. apply only_ret.
Qed.

Section Writes.
Context (principal : Principal) (s : SessionID) (c : CommandID) (k : CommandKind).
Let own := own_write (tenant principal) s c k.

Lemma notify_own entry : only own (notify cfg entry).
Proof. by apply notify_only. Qed.

Lemma put_own plane payload :
  MaxInboxPayloadBytes < len payload -> only own (putCommandPayload plane (tenant principal) s payload).
Proof. intros Hl. unfold putCommandPayload. apply only_call; [done|]. intros r. walk_only. Qed.

(** The body of either admission, and what follows it. *)
Lemma body_own plane payload (f : error -> error) :
  wp (if MaxInboxPayloadBytes <? len payload then
        bind (putCommandPayload plane (tenant principal) s payload)
          (fun object => Ret (match object with Ok o => Ok (PayloadObject o) | Fail err => Fail (f err) end))
      else Ret (Ok (PayloadInline payload)))
    (fun body t => Forall own t /\ match body with Ok b => own_payload b | Fail _ => True end).
Proof.
  destruct (MaxInboxPayloadBytes <? len payload) eqn:Hl; reflect_guards; [|by apply wp_ret].
  eapply wp_seq; [by apply put_own|]. intros [o|e] t Ht; apply wp_ret; by rewrite app_nil_r.
Qed.

Lemma body_then_own (p : admission (result payload_member)) (k' : result payload_member -> admission answer) :
  wp p (fun body t => Forall own t /\ match body with Ok b => own_payload b | Fail _ => True end) ->
  (forall body, match body with Ok b => own_payload b | Fail _ => True end -> only own (k' body)) ->
  only own (bind p k').
Proof.
  intros Hp Hk. eapply wp_seq; [exact Hp|]. intros body t [Ht Hb]. eapply wp_mono; [|by apply Hk].
  intros a u Hu. by apply Forall_app.
Qed.

Lemma admit_own binding payload m : only own (admit_ cfg (tenant principal) s c k binding payload m).
Proof.
  unfold admit_. apply only_call; [done|]. intros [id|]; [|walk_only]. apply only_call; [done|]. intros now.
  apply body_then_own; [apply body_own|]. intros [body|] Hb; [|walk_only]. apply only_call; [done|].
  intros [[entry created]|]; [|walk_only]. apply only_bind; [apply notify_own|intros _; walk_only].
Qed.

Lemma retry_own payload m : only own (retry cfg (tenant principal) s c k payload m).
Proof.
  unfold retry. apply only_call; [done|]. intros [found|e]; [|walk_only].
  apply only_bind; [apply admit_own|]. intros [[? ?]|?]; walk_only.
Qed.

Lemma existing_own : only own (existingCompatible (tenant principal) s).
Proof. unfold existingCompatible. walk_only. Qed.

Lemma ownerAppliesPrincipal_own record m : only own (ownerAppliesPrincipal cfg (tenant principal) s record m).
Proof. unfold ownerAppliesPrincipal. walk_only. Qed.

Lemma gateOwnerAnswers_own record now : only own (gateOwnerAnswers cfg (tenant principal) s record now).
Proof. unfold gateOwnerAnswers, ownerAppliesGateResponses. walk_only. Qed.
End Writes.

Lemma create_own principal req target payload :
  only (own_write (tenant principal) (cr_SessionID req) (cr_CommandID req) KindCreateSession)
    (admitPublicCreate cfg (tenant principal) req target payload).
Proof.
  unfold admitPublicCreate. apply only_call; [done|]. intros [id|]; [|walk_only].
  apply only_call; [done|]. intros now. apply only_call; [done|]. intros [e|]; [walk_only|].
  apply body_then_own; [apply (body_own principal (cr_SessionID req) (cr_CommandID req) KindCreateSession _ payload (fun e => e))|].
  intros [body|] Hb; [|walk_only]. apply only_call; [done|].
  intros [[entry created]|]; [|walk_only]. apply only_bind; [apply notify_own|intros _; walk_only].
Qed.

(** What the two first steps of an entry point need of the rest. *)
Definition safe_trace (principal : Principal) (s : SessionID) (c : CommandID) (k : CommandKind)
    (t : list (event admissionCall)) : Prop :=
  guarded (grants principal s k) is_write t /\ Forall (own_write (tenant principal) s c k) t.

Lemma authorize_safe principal s c k (body : admission answer) :
  only (own_write (tenant principal) s c k) body ->
  wp (Call _ (AskAuthorizeControl principal s k)
        (fun denied => match denied with Some err => Ret (Fail err) | None => body end))
    (fun _ t => safe_trace principal s c k t).
Proof.
  intros Hb [err|].
  - apply wp_ret. unfold safe_trace. simpl. rewrite andb_false_r. repeat split; by repeat constructor.
  - eapply wp_mono; [|exact Hb]. intros a t Ht. unfold safe_trace. simpl. rewrite !bool_decide_true by done.
    split; [done|]. by constructor.
Qed.

Lemma gated_safe {A} principal s c k (body : admission (result A)) :
  wp body (fun _ t => safe_trace principal s c k t) -> wp (gated body) (fun _ t => safe_trace principal s c k t).
Proof.
  intros Hb [err|]; [by repeat split; constructor|]. eapply wp_seq; [exact Hb|]. intros a t [Hg Ho] [].
  apply wp_ret. unfold safe_trace. simpl. split.
  - split; [done|]. by apply guarded_app.
  - constructor; [done|]. apply Forall_app. split; [done|]. by repeat constructor.
Qed.

Lemma attributed_safe principal s c k carried request (body : option WirePrincipal -> admission answer) :
  (forall p, wp (body p) (fun _ t => safe_trace principal s c k t)) ->
  wp (attributed cfg principal carried request body) (fun _ t => safe_trace principal s c k t).
Proof.
  intros Hb. unfold attributed. destruct (attribute cfg principal carried) as [p|]; [|apply wp_ret; by repeat constructor].
  destruct (Validate (request p)); [apply wp_ret; by repeat constructor|]. apply Hb.
Qed.

Lemma admitExisting_safe principal s c k request m :
  wp (admitExisting cfg principal s c k request m) (fun _ t => safe_trace principal s c k t).
Proof.
  unfold admitExisting. destruct (canonicalCommand request); [|apply wp_ret; by repeat constructor].
  apply authorize_safe. apply only_bind; [apply retry_own|]. intros [[e|]|e]; [walk_only| |walk_only].
  apply only_bind; [apply existing_own|]. intros [entry|]; [|walk_only].
  apply only_bind; [apply ownerAppliesPrincipal_own|]. intros [e|]; [walk_only|]. apply admit_own.
Qed.

Lemma AdmitCreate_safe principal req :
  wp (AdmitCreate cfg principal req)
    (fun _ t => safe_trace principal (cr_SessionID req) (cr_CommandID req) KindCreateSession t).
Proof.
  apply gated_safe, attributed_safe. intros p. cbv beta zeta.
  case_match; [|apply wp_ret; by repeat constructor]. apply authorize_safe. apply only_call; [done|]. intros [[target|]|]; [|walk_only..].
  case_match; [walk_only|]. case_match; [walk_only|]. apply (create_own principal (create_with req p)).
Qed.

Lemma AdmitGateResponse_safe principal req :
  wp (AdmitGateResponse cfg principal req)
    (fun _ t => safe_trace principal (gr_SessionID req) (gr_CommandID req) KindGateResponse t).
Proof.
  apply gated_safe, attributed_safe. intros p. cbv beta zeta.
  case_match; [|apply wp_ret; by repeat constructor]. apply authorize_safe. apply only_bind; [apply retry_own|]. intros [[e|]|e]; [walk_only| |walk_only].
  case_match; [walk_only|]. apply only_bind; [apply existing_own|]. intros [entry|]; [|walk_only].
  apply only_call; [done|]. intros now. case_match; [walk_only|].
  apply only_bind; [apply gateOwnerAnswers_own|]. intros [e|]; [walk_only|].
  apply only_bind; [apply ownerAppliesPrincipal_own|]. intros [e|]; [walk_only|]. apply admit_own.
Qed.

Lemma Admit_safe principal r :
  wp (Admit principal r) (fun _ t => safe_trace principal (request_session r) (request_command r) (request_kind r) t).
Proof.
  destruct r; [apply AdmitCreate_safe| | | |apply AdmitGateResponse_safe].
  all: apply gated_safe, attributed_safe; intros ?; apply admitExisting_safe.
Qed.

(** ** What a caller is answered *)

(** What the store admitted, and what was announced. *)
Definition stored (e : event admissionCall) : option (DispositionInboxEntry * bool) :=
  match e with
  | Ev _ (AdmitDispositionCommand _) r => match r with Ok x => Some x | Fail _ => None end
  | Ev _ (AdmitPublicCreate _) r => match r with Ok x => Some x | Fail _ => None end
  | _ => None
  end.
Definition announced (e : event admissionCall) : option AdmissionNotice :=
  match e with Ev _ (OnAdmitted n) _ => Some n | _ => None end.
(** The retry read found the command. *)
Definition found_command (e : event admissionCall) : bool :=
  match e with
  | Ev _ (GetDispositionCommand _ _ _) r => match r with Ok _ => true | Fail _ => false end
  | _ => false
  end.
Definition retried (t : list (event admissionCall)) : bool := existsb found_command t.

Definition accounts (a : answer) (t : list (event admissionCall)) : Prop :=
  match a with
  | Ok (entry, created) =>
      exists fresh, omap stored t = [(entry, fresh)] /\ created = fresh && negb (retried t)
        /\ omap announced t = if hasOnAdmitted cfg then [Notice entry] else []
  | Fail _ => omap stored t = [] /\ omap announced t = []
  end.

(** A call that neither admits, announces nor finds. *)
Definition silent (e : event admissionCall) : Prop :=
  stored e = None /\ announced e = None /\ found_command e = false.

Lemma silent_accounts a t u : Forall silent t -> accounts a u -> accounts a (t ++ u).
Proof.
  intros Ht Hu. induction Ht as [|e t (Hs & Ha & Hf) _ IH]; [done|].
  unfold accounts, retried in *. cbn [omap list_omap existsb app]. rewrite Hs, Ha, Hf. exact IH.
Qed.

Lemma silent_fail e t : Forall silent t -> accounts (Fail e) t.
Proof. intros Ht. rewrite <- (app_nil_r t). by apply silent_accounts. Qed.

(** Sequencing after calls that are silent. *)
Lemma silent_then {A} (p : admission A) (k : A -> admission answer) :
  only silent p -> (forall a, wp (k a) accounts) -> wp (bind p k) accounts.
Proof. intros Hp Hk. eapply wp_seq; [exact Hp|]. intros a t Ht. eapply wp_mono; [|apply Hk]. intros b u. by apply silent_accounts. Qed.

Lemma silent_call {R} (c : admissionCall R) (k : R -> admission answer) :
  (forall r, silent (Ev R c r)) -> (forall r, wp (k r) accounts) -> wp (Call R c k) accounts.
Proof.
  intros Hc Hk r. eapply wp_mono; [|apply Hk]. intros a t. apply (silent_accounts a [Ev R c r]). constructor; [apply Hc|constructor].
Qed.

Lemma accounts_fail e : wp (Ret (Fail e)) accounts.
Proof. by apply wp_ret. Qed.

Lemma put_silent plane t s payload : only silent (putCommandPayload plane t s payload).
Proof. unfold putCommandPayload. walk_only. Qed.

(** The end of either admission: what the store answered is what is announced
    and returned. *)
Lemma stored_accounts (c : admissionCall (result (DispositionInboxEntry * bool))) (f : error -> error) :
  (forall r, stored (Ev _ c r) = match r with Ok x => Some x | Fail _ => None end
             /\ announced (Ev _ c r) = None /\ found_command (Ev _ c r) = false) ->
  wp (Call _ c (fun admitted : answer =>
        match admitted with
        | Fail err => Ret (Fail (f err))
        | Ok (entry, created) => bind (notify cfg entry) (fun _ => Ret (Ok (entry, created)))
        end)) accounts.
Proof.
  intros Hc [[entry created]|err].
  - specialize (Hc (Ok (entry, created))) as (Hs & Ha & Hf).
    eapply wp_mono with (Q := fun a t => a = Ok (entry, created) /\ omap stored t = [] /\ retried t = false
                             /\ omap announced t = if hasOnAdmitted cfg then [Notice entry] else []).
    + intros a t (-> & Ht & Hr & Hn). exists created. unfold retried in *.
      cbn [omap list_omap existsb]. rewrite Hs, Ha, Hf, Ht, Hn, Hr.
      by rewrite andb_true_r.
    + unfold notify. destruct (hasOnAdmitted cfg); by repeat split.
  - specialize (Hc (Fail err)) as (Hs & Ha & Hf). apply wp_ret. unfold accounts. cbn [omap list_omap].
    by rewrite Hs, Ha.
Qed.

Lemma body_accounts (p : admission (result payload_member)) (k : payload_member -> admission answer) :
  only silent p -> (forall b, wp (k b) accounts) ->
  wp (bind p (fun body => match body with Fail err => Ret (Fail err) | Ok body => k body end)) accounts.
Proof. intros Hp Hk. apply silent_then; [done|]. intros [b|e]; [apply Hk|apply accounts_fail]. Qed.

Lemma body_silent plane t s payload (f : error -> error) :
  only silent (if MaxInboxPayloadBytes <? len payload then
        bind (putCommandPayload plane t s payload)
          (fun object => Ret (match object with Ok o => Ok (PayloadObject o) | Fail err => Fail (f err) end))
      else Ret (Ok (PayloadInline payload))).
Proof. case_match; [|apply only_ret]. apply only_bind; [apply put_silent|]. intros ?. apply only_ret. Qed.

Lemma admit_accounts t s c k binding payload m : wp (admit_ cfg t s c k binding payload m) accounts.
Proof.
  unfold admit_. apply silent_call; [done|]. intros [id|]; [|apply accounts_fail]. apply silent_call; [done|].
  intros now. apply body_accounts; [apply body_silent|]. intros body. by apply stored_accounts.
Qed.

Lemma create_accounts t req target payload : wp (admitPublicCreate cfg t req target payload) accounts.
Proof.
  unfold admitPublicCreate. apply silent_call; [done|]. intros [id|]; [|apply accounts_fail].
  apply silent_call; [done|]. intros now. apply silent_call; [done|]. intros [e|]; [apply accounts_fail|].
  apply body_accounts; [apply (body_silent _ _ _ payload (fun e => e))|]. intros body. by apply stored_accounts.
Qed.

Lemma retry_accounts t s c k payload m (rest : admission answer) :
  wp rest accounts ->
  wp (bind (retry cfg t s c k payload m) (fun retried =>
        match retried with
        | Fail err => Ret (Fail err)
        | Ok (Some entry) => Ret (Ok (entry, false))
        | Ok None => rest
        end)) accounts.
Proof.
  intros Hrest. unfold retry. intros [found|err].
  - eapply wp_seq; [eapply wp_seq; [apply admit_accounts|]|]; [intros a u Hu|intros r u Hu; exact Hu].
    destruct a as [[entry created]|err]; apply wp_ret; apply wp_ret; rewrite !app_nil_r.
    + destruct Hu as (fresh & Hs & _ & Ha). exists fresh. unfold retried. simpl. rewrite andb_false_r. auto.
    + exact Hu.
  - destruct (commandNotFound err); [|by apply wp_ret].
    change (wp rest (fun a u => accounts a (Ev _ (GetDispositionCommand t s c) (Fail err) :: u))).
    eapply wp_mono; [|exact Hrest]. intros a u. apply (silent_accounts a [_]). by repeat constructor.
Qed.

Lemma existing_silent t s : only silent (existingCompatible t s).
Proof. unfold existingCompatible. walk_only. Qed.
Lemma ownerAppliesPrincipal_silent t s record m : only silent (ownerAppliesPrincipal cfg t s record m).
Proof. unfold ownerAppliesPrincipal. walk_only. Qed.
Lemma gateOwnerAnswers_silent t s record now : only silent (gateOwnerAnswers cfg t s record now).
Proof. unfold gateOwnerAnswers, ownerAppliesGateResponses. walk_only. Qed.

Lemma gated_accounts (body : admission answer) : wp body accounts -> wp (gated body) accounts.
Proof.
  intros Hb. apply silent_call; [done|]. intros [e|]; [apply accounts_fail|].
  eapply wp_seq; [exact Hb|]. intros a t Ha []. apply wp_ret. destruct a as [[entry created]|e].
  - destruct Ha as (fresh & Hs & Hc & Ha). exists fresh. unfold retried in *.
    rewrite !omap_app, existsb_app. simpl. rewrite !app_nil_r, orb_false_r. auto.
  - destruct Ha as [Hs Ha]. split; rewrite omap_app; simpl; by rewrite app_nil_r.
Qed.

Lemma attributed_accounts principal carried request (body : option WirePrincipal -> admission answer) :
  (forall p, wp (body p) accounts) -> wp (attributed cfg principal carried request body) accounts.
Proof.
  intros Hb. unfold attributed. destruct (attribute cfg principal carried) as [p|]; [|apply accounts_fail].
  destruct (Validate (request p)); [apply accounts_fail|]. apply Hb.
Qed.

Lemma admitExisting_accounts principal s c k request m : wp (admitExisting cfg principal s c k request m) accounts.
Proof.
  unfold admitExisting. destruct (canonicalCommand request); [|apply accounts_fail].
  apply silent_call; [done|]. intros [e|]; [apply accounts_fail|]. apply retry_accounts.
  apply silent_then; [apply existing_silent|]. intros [entry|]; [|apply accounts_fail].
  apply silent_then; [apply ownerAppliesPrincipal_silent|]. intros [e|]; [apply accounts_fail|]. apply admit_accounts.
Qed.

Lemma AdmitCreate_accounts principal req : wp (AdmitCreate cfg principal req) accounts.
Proof.
  apply gated_accounts, attributed_accounts. intros p. cbv beta zeta. case_match; [|apply accounts_fail].
  apply silent_call; [done|]. intros [e|]; [apply accounts_fail|].
  apply silent_call; [done|]. intros [[target|]|]; [|apply accounts_fail..].
  case_match; [apply accounts_fail|]. case_match; [apply accounts_fail|]. apply create_accounts.
Qed.

Lemma AdmitGateResponse_accounts principal req : wp (AdmitGateResponse cfg principal req) accounts.
Proof.
  apply gated_accounts, attributed_accounts. intros p. cbv beta zeta. case_match; [|apply accounts_fail].
  apply silent_call; [done|]. intros [e|]; [apply accounts_fail|]. apply retry_accounts.
  case_match; [apply accounts_fail|]. apply silent_then; [apply existing_silent|].
  intros [entry|]; [|apply accounts_fail]. apply silent_call; [done|]. intros now.
  case_match; [apply accounts_fail|].
  apply silent_then; [apply gateOwnerAnswers_silent|]. intros [e|]; [apply accounts_fail|].
  apply silent_then; [apply ownerAppliesPrincipal_silent|]. intros [e|]; [apply accounts_fail|]. apply admit_accounts.
Qed.

Lemma Admit_accounts principal r : wp (Admit principal r) accounts.
Proof.
  destruct r; [apply AdmitCreate_accounts| | | |apply AdmitGateResponse_accounts].
  all: apply gated_accounts, attributed_accounts; intros ?; apply admitExisting_accounts.
Qed.

(** ** What is written *)

(** The principal an admission records: the caller's own, when principals are
    stamped. *)
Definition stamp (principal : Principal) : option WirePrincipal :=
  if StampPrincipal cfg then Some (Wire_Principal (tenant principal) (subject principal) (kind principal)) else None.

Definition request_principal (r : command_request) : option WirePrincipal :=
  match r with
  | RCreate r => cr_Principal r | RInput r => in_Principal r | RInterrupt r => it_Principal r
  | RRestore r => rs_Principal r | RGateResponse r => gr_Principal r
  end.

Definition request_metadata (r : command_request) : MessageMetadata :=
  match r with RCreate r => cr_Metadata r | RInput r => in_Metadata r | _ => [] end.

(** The request as it is recorded: every member the caller sent, with the
    principal put in. *)
Definition recorded (principal : Principal) (r : command_request) : command_request :=
  let p := stamp principal in
  match r with
  | RCreate (MkCreate s c agent _ metadata blocks) => RCreate (MkCreate s c agent p metadata blocks)
  | RInput (MkInput s c _ metadata blocks) => RInput (MkInput s c p metadata blocks)
  | RInterrupt (MkInterrupt s c _) => RInterrupt (MkInterrupt s c p)
  | RRestore (MkRestore s c _) => RRestore (MkRestore s c p)
  | RGateResponse (MkGateResponse s c gate event seq _ answer) => RGateResponse (MkGateResponse s c gate event seq p answer)
  end.

(** The bytes of a request: sent by the caller without a principal, valid as
    recorded, and encoded. *)
Definition encoded (principal : Principal) (r : command_request) (payload : bytes) : Prop :=
  request_principal r = None /\ Validate (recorded principal r) = None /\ Marshal (recorded principal r) = Ok payload.

(** A body that is [payload]: the bytes themselves up to the bound, and above it
    the object the store made of exactly those bytes. *)
Definition holds (plane : payloadStore) (payload : bytes) (past : list (event admissionCall)) (body : payload_member) : Prop :=
  match body with
  | PayloadInline b => b = payload /\ len payload <= MaxInboxPayloadBytes
  | PayloadObject object => MaxInboxPayloadBytes < len payload
      /\ exists req, Ev _ (PutCommandPayload plane req) (Ok object) ∈ past /\ pp_Body req = payload
  end.

(** The identity a create reserves names the bytes, and the target its agent
    resolved to. *)
Definition identifies (r : command_request) (payload : bytes) (past : list (event admissionCall)) (identity : PublicCreateIdentity) : Prop :=
  ci_PayloadDigest identity = EncodeToString (Sum256 payload) /\ ci_PayloadSize identity = len payload
  /\ exists create target, r = RCreate create /\ tk_AgentID (ci_Target identity) = cr_AgentID create
       /\ Ev _ (ResolveAgent (cr_AgentID create)) (Ok (Some target)) ∈ past /\ tg_Key target = ci_Target identity.

(** What each write stores of the request, given the calls before it. *)
Definition stores (principal : Principal) (r : command_request) (past : list (event admissionCall)) (e : event admissionCall) : Prop :=
  match e with
  | Ev _ call _ =>
      match call with
      | PutCommandPayload _ req => encoded principal r (pp_Body req) /\ pp_MediaType req = "application/json"
      | AdmitDispositionCommand req => exists payload,
          encoded principal r payload /\ holds CommandsPlane payload past (ad_Payload req)
          /\ ad_Principal req = stamp principal /\ ad_Metadata req = request_metadata r
      | PreparePublicCreate req => exists payload, encoded principal r payload /\ identifies r payload past (pc_Identity req)
      | AdmitPublicCreate req => exists payload,
          encoded principal r payload /\ identifies r payload past (ac_Identity req)
          /\ holds PublicCreatesPlane payload past (ac_Payload req)
          /\ ac_Principal req = stamp principal /\ ac_Metadata req = request_metadata r
      | _ => True
      end
  end.

Definition writes (r : command_request) (principal : Principal) (p : admission answer) : Prop :=
  forall past, obeys (stores principal r) past p.

(** The body of either admission. *)
Lemma body_stores {B} principal r payload plane t s (f : error -> error) (k : result payload_member -> admission B) past :
  encoded principal r payload ->
  (forall body u, match body with Ok body => holds plane payload (past ++ u)%list body | Fail _ => True end ->
     obeys (stores principal r) (past ++ u) (k body)) ->
  obeys (stores principal r) past (bind (if MaxInboxPayloadBytes <? len payload then
        bind (putCommandPayload plane t s payload)
          (fun object => Ret (match object with Ok o => Ok (PayloadObject o) | Fail err => Fail (f err) end))
      else Ret (Ok (PayloadInline payload))) k).
Proof.
  intros He Hk. destruct (MaxInboxPayloadBytes <? len payload) eqn:Hl; reflect_guards.
  - intros [o|err]; (split; [done|]); apply Hk; [|done]. split; [done|]. eexists. split; [apply elem_of_app; right; by left|done].
  - change (obeys (stores principal r) past (k (Ok (PayloadInline payload)))). rewrite <- (app_nil_r past). by apply Hk.
Qed.

Lemma notify_stores principal r entry past : obeys (stores principal r) past (notify cfg entry).
Proof. unfold notify, invoke. walk_obeys. Qed.

Lemma admit_stores principal r payload binding m past :
  encoded principal r payload -> m_principal m = stamp principal -> m_metadata m = request_metadata r ->
  obeys (stores principal r) past (admit_ cfg (tenant principal) (request_session r) (request_command r) (request_kind r) binding payload m).
Proof.
  intros He Hp Hm. unfold admit_. intros [id|]; (split; [done|]); [|done]. intros now. split; [done|].
  eapply body_stores; [done|]. intros [body|] u Hb; [|done]. intros [[entry created]|]; (split; [by exists payload|]); [|done].
  apply obeys_then; [apply notify_stores|done].
Qed.

Lemma retry_stores principal r payload m (k : result (option DispositionInboxEntry) -> admission answer) past :
  encoded principal r payload -> m_principal m = stamp principal -> m_metadata m = request_metadata r ->
  (forall a past, obeys (stores principal r) past (k a)) ->
  obeys (stores principal r) past
    (bind (retry cfg (tenant principal) (request_session r) (request_command r) (request_kind r) payload m) k).
Proof.
  intros He Hp Hm Hk. apply obeys_then; [|done].
  unfold retry. intros [found|err]; (split; [done|]); [|by case_match].
  apply obeys_then; [by apply admit_stores|]. by intros [[? ?]|?].
Qed.

Ltac walk_reads := unfold existingCompatible, ownerAppliesPrincipal, gateOwnerAnswers, ownerAppliesGateResponses; walk_obeys.

Lemma authorize_stores principal r s k (body : admission answer) past :
  (forall past, obeys (stores principal r) past body) ->
  obeys (stores principal r) past (Call _ (AskAuthorizeControl principal s k)
    (fun denied => match denied with Some err => Ret (Fail err) | None => body end)).
Proof. intros Hb [err|]; (split; [done|]); [done|apply Hb]. Qed.

Lemma admitExisting_stores principal r m :
  request_principal r = None -> Validate (recorded principal r) = None ->
  m_principal m = stamp principal -> m_metadata m = request_metadata r ->
  writes r principal (admitExisting cfg principal (request_session r) (request_command r) (request_kind r) (recorded principal r) m).
Proof.
  intros Hc Hv Hp Hm past. unfold admitExisting, canonicalCommand. destruct (Marshal _) as [payload|] eqn:Hpay; [|done].
  assert (He : encoded principal r payload) by done. apply authorize_stores. intros past'. apply retry_stores; [done..|].
  intros [[e|]|e] past''; [done| |done]. apply obeys_then; [walk_reads|]. intros [entry|] past3; [|done].
  apply obeys_then; [walk_reads|]. intros [e|] past4; [done|]. by apply admit_stores.
Qed.

Lemma create_stores principal req target payload past :
  let r := RCreate req in
  encoded principal r payload -> tk_AgentID (tg_Key target) = cr_AgentID req ->
  Ev _ (ResolveAgent (cr_AgentID req)) (Ok (Some target)) ∈ past ->
  obeys (stores principal r) past (admitPublicCreate cfg (tenant principal) (create_with req (stamp principal)) target payload).
Proof.
  intros r He Ha Hin. unfold admitPublicCreate.
  assert (Hid : forall past', past ⊆ past' ->
    identifies r payload past' (createIdentity cfg (tenant principal) (create_with req (stamp principal)) target payload))
    by (intros past' Hs; split_and!; [done..|]; exists req, target; split_and!; auto).
  intros [id|]; (split; [done|]); [|done]. intros now. split; [done|].
  intros [err|]; (split; [exists payload; split; [done|apply Hid; set_solver]|]); [done|].
  eapply (body_stores _ _ _ _ _ _ (fun e => e)); [done|]. intros [body|] u Hb; [|done].
  intros [[entry created]|]; (split; [exists payload; split_and!; [done|apply Hid; set_solver|done..]|]); [|done].
  apply obeys_then; [apply notify_stores|done].
Qed.

Lemma gated_stores principal r (body : admission answer) : writes r principal body -> writes r principal (gated body).
Proof.
  intros Hb past [err|]; (split; [done|]); [done|]. apply obeys_then; [apply Hb|]. by intros a past' [].
Qed.

Lemma attributed_stores principal r carried request (body : option WirePrincipal -> admission answer) :
  carried = request_principal r -> request (stamp principal) = recorded principal r ->
  (request_principal r = None -> Validate (recorded principal r) = None -> writes r principal (body (stamp principal))) ->
  writes r principal (attributed cfg principal carried request body).
Proof.
  intros -> Hr Hb past. unfold attributed, attribute. destruct (request_principal r); [done|].
  change (if StampPrincipal cfg then Some (Wire principal) else None) with (stamp principal). rewrite Hr.
  destruct (Validate _) eqn:Hv; [done|]. by apply Hb.
Qed.

Lemma AdmitCreate_stores principal req : writes (RCreate req) principal (AdmitCreate cfg principal req).
Proof.
  apply gated_stores, attributed_stores; [done|by destruct req|]. intros Hc Hv past. unfold canonicalCommand.
  assert (Hr : RCreate (create_with req (stamp principal)) = recorded principal (RCreate req)) by by destruct req.
  cbv zeta. rewrite Hr. destruct (Marshal _) as [payload|] eqn:Hpay; [|done]. apply authorize_stores. intros past'.
  intros [[target|]|]; (split; [done|]); [|done..]. case_match eqn:Ha; [done|]. case_match; [done|]. reflect_guards.
  apply create_stores; [done|done|set_solver].
Qed.

Lemma AdmitGateResponse_stores principal req : writes (RGateResponse req) principal (AdmitGateResponse cfg principal req).
Proof.
  apply gated_stores, attributed_stores; [done|by destruct req|]. intros Hc Hv past. unfold canonicalCommand.
  assert (Hr : RGateResponse (gate_with req (stamp principal)) = recorded principal (RGateResponse req)) by by destruct req.
  rewrite Hr. destruct (Marshal _) as [payload|] eqn:Hpay; [|done].
  assert (He : encoded principal (RGateResponse req) payload) by done. apply authorize_stores. intros past'. cbv zeta.
  apply (retry_stores principal (RGateResponse req) payload); [done..|]. intros [[e|]|e] past1; [done| |done]. case_match; [done|].
  apply obeys_then; [walk_reads|]. intros [entry|] past2; [|done]. intros now. split; [done|]. case_match; [done|].
  apply obeys_then; [walk_reads|]. intros [e|] past3; [done|]. apply obeys_then; [walk_reads|]. intros [e|] past4; [done|].
  by apply (admit_stores principal (RGateResponse req)).
Qed.

(** Every write stores the request the caller made, as it is recorded. *)
Lemma Admit_stores principal r : writes r principal (Admit principal r).
Proof.
  destruct r as [r|r|r|r|r]; [apply AdmitCreate_stores| | | |apply AdmitGateResponse_stores].
  all: apply gated_stores, attributed_stores; [done|by destruct r|]; intros Hc Hv; destruct r as [].
  - by eapply (admitExisting_stores principal (RInput (MkInput _ _ _ _ _)) (MkMembers _ _)).
  - by eapply (admitExisting_stores principal (RInterrupt (MkInterrupt _ _ _)) (MkMembers _ [])).
  - by eapply (admitExisting_stores principal (RRestore (MkRestore _ _ _)) (MkMembers _ [])).
Qed.

(** ** Refusals and faults *)

(** The public code of an error, if it is a classified refusal. *)
Definition coded (e : error) : option string := errors_code "admission.Error" e.

Definition err_of {A} (r : result A) : option error := match r with Ok _ => None | Fail e => Some e end.

(** The error a dependency answered. *)
Definition fault (e : event admissionCall) : option error :=
  match e with
  | Ev _ BeginAdmission r | Ev _ (AskAuthorizeControl _ _ _) r | Ev _ (PreparePublicCreate _) r => r
  | Ev _ (ResolveAgent _) r => err_of r
  | Ev _ (IsKnown _) r | Ev _ (AcceptsGateResponses _) r | Ev _ (AcceptsCommandPrincipal _) r => err_of r
  | Ev _ (GetCatalogEntry _ _) r => err_of r
  | Ev _ (GetDispositionCommand _ _ _) r => err_of r
  | Ev _ (PutCommandPayload _ _) r => err_of r
  | Ev _ (AdmitDispositionCommand _) r | Ev _ (AdmitPublicCreate _) r => err_of r
  | Ev _ (Owner _ _) r => err_of r
  | Ev _ NewUUID r => err_of r
  | _ => None
  end.

(** No dependency answers an admission refusal of its own. *)
Definition foreign (e : event admissionCall) : Prop :=
  match fault e with Some err => coded err = None | None => True end.

(** ** What a failed call means

    Written from the store's error codes, not with the service's classifiers. *)
Definition answers (ty : string) (codes : list string) (err : error) : bool :=
  match errors_code ty err with Some code => bool_decide (code ∈ codes) | None => false end.

(** There is no such session. *)
Definition session_unknown (err : error) : bool :=
  answers "CatalogError" ["CatalogErrorNotFound"; "CatalogErrorDeleted"; "CatalogErrorIdentity"] err
  || answers "KeyspaceError" ["KeyspaceBindingNotFound"] err.

(** The session speaks the protocol before dispositions. *)
Definition protocol_refused (err : error) : bool :=
  answers "CatalogError" ["CatalogErrorInvalid"; "CatalogErrorConflict"] err
  && match errors_as "CatalogError" err with
     | Some (Typed _ _ field _) => bool_decide (field = "binding.protocol_mode")
     | _ => false
     end.

(** The identifier was used for another command. *)
Definition command_clashes (err : error) : bool := answers "InboxError" ["InboxErrorCommandMismatch"] err.

Definition command_meaning (err : error) : option string :=
  if protocol_refused err then Some "runtime_unavailable"
  else if command_clashes err then Some "command_rejected"
  else None.

Definition create_meaning (err : error) : option string :=
  if command_clashes err || answers "CatalogError" ["CatalogErrorConflict"] err then Some "command_rejected" else None.

(** A call that failed, with the public code its error is a decision for, if it
    is one. The retry read that finds no such command is not a failure. *)
Definition ruling (e : event admissionCall) : option (option string) :=
  match fault e with
  | None => None
  | Some err =>
      match e with
      | Ev _ c _ =>
          match c with
          | GetCatalogEntry _ _ => Some (if session_unknown err then Some "session_not_found" else None)
          | GetDispositionCommand _ _ _ =>
              if answers "InboxError" ["InboxErrorNotFound"] err || session_unknown err then None else Some (command_meaning err)
          | PutCommandPayload CommandsPlane _ | AdmitDispositionCommand _ => Some (command_meaning err)
          | PreparePublicCreate _ | AdmitPublicCreate _ => Some (create_meaning err)
          | _ => Some None
          end
      end
  end.

Definition smooth (e : event admissionCall) : Prop := ruling e = None.

(** The error [err] says what the failed call [e] means, and no more. *)
Definition told (err : error) (e : event admissionCall) : Prop :=
  match ruling e with Some code => coded err = code | None => True end.

Definition verdict (err : option error) (t : list (event admissionCall)) : Prop :=
  match err with
  | None => Forall smooth t
  | Some e => (forall code, coded e = Some code -> ruled code) /\ Forall (told e) t
  end.

Definition judged {A} (err : A -> option error) (a : A) (t : list (event admissionCall)) : Prop :=
  Forall foreign t -> verdict (err a) t.

Lemma coded_refusal code cause : coded (refusal code cause) = Some code.
Proof. done. Qed.

Lemma errors_as_wrapf ty e : errors_as ty (wrapf [e]) = errors_as ty e.
Proof. unfold wrapf. simpl. by destruct (errors_as ty e). Qed.

Lemma coded_wrapf e : coded (wrapf [e]) = coded e.
Proof. unfold coded, errors_code. by rewrite errors_as_wrapf. Qed.

Lemma code_is_answers ty code e : code_is ty code e = answers ty [code] e.
Proof.
  unfold code_is, answers. destruct (errors_code ty e) as [c|]; [|by rewrite bool_decide_false].
  apply bool_decide_ext. split; [intros [= ->]; by left|]. by intros ->%list_elem_of_singleton.
Qed.

Lemma SessionAbsent_unknown e : SessionAbsent e = session_unknown e.
Proof.
  unfold SessionAbsent, session_unknown. rewrite !code_is_answers. f_equal. unfold answers.
  destruct (errors_code "CatalogError" e) as [c|]; [|done]. rewrite <- !bool_decide_or. apply bool_decide_ext. set_solver.
Qed.

Lemma legacyProtocol_refused e : legacyProtocol e = protocol_refused e.
Proof.
  unfold legacyProtocol, protocol_refused, answers, errors_code, legacyProtocolField.
  destruct (errors_as "CatalogError" e) as [[|? c f ?| ]|]; try (by rewrite andb_false_r); try done.
  rewrite andb_comm. f_equal. rewrite <- bool_decide_or. apply bool_decide_ext. set_solver.
Qed.

Lemma coded_commandRefusal e : coded e = None -> coded (commandRefusal e) = command_meaning e.
Proof.
  intros He. unfold commandRefusal, command_meaning. rewrite legacyProtocol_refused, code_is_answers.
  change (answers "InboxError" ["InboxErrorCommandMismatch"] e) with (command_clashes e). by do 2 (case_match; [apply coded_refusal|]).
Qed.

Lemma coded_createRefusal e : coded e = None -> coded (createRefusal e) = create_meaning e.
Proof.
  intros He. unfold createRefusal, create_meaning. rewrite !code_is_answers.
  change (answers "InboxError" ["InboxErrorCommandMismatch"] e) with (command_clashes e).
  destruct (command_clashes e); [apply coded_refusal|]. simpl. case_match; [apply coded_refusal|by rewrite coded_wrapf].
Qed.

Lemma meaning_wrapf e : command_meaning (wrapf [e]) = command_meaning e.
Proof. unfold command_meaning, protocol_refused, command_clashes, answers, errors_code. by rewrite !errors_as_wrapf. Qed.

Lemma command_meaning_ruled e code : command_meaning e = Some code -> ruled code.
Proof. unfold command_meaning. intros Hc. repeat case_match; simplify_eq; by eexists. Qed.

Lemma create_meaning_ruled e code : create_meaning e = Some code -> ruled code.
Proof. unfold create_meaning. intros Hc. repeat case_match; simplify_eq; by eexists. Qed.

Lemma smooth_told err t : Forall smooth t -> Forall (told err) t.
Proof. intros Ht. eapply Forall_impl; [exact Ht|]. unfold smooth, told. by intros e ->. Qed.

Lemma verdict_refusal code cause t : ruled code -> Forall smooth t -> verdict (Some (refusal code cause)) t.
Proof. intros Hr Ht. split; [|by apply smooth_told]. rewrite coded_refusal. intros c Hc. by simplify_eq. Qed.

(** The failed call is the last, and its error is what is returned. *)
Lemma verdict_told e ev code : ruling ev = Some code -> coded e = code -> (forall c, code = Some c -> ruled c) -> verdict (Some e) [ev].
Proof.
  intros Hr He Hc. split; [intros c Hce; apply Hc; congruence|]. repeat constructor. unfold told. by rewrite Hr.
Qed.

Lemma verdict_unruled e ev : ruling ev = Some None -> coded e = None -> verdict (Some e) [ev].
Proof. intros Hr He. by eapply verdict_told. Qed.

Lemma judged_seq {A} (err : A -> option error) (p : admission A) (k : A -> admission answer) :
  wp p (judged err) -> (forall a, err a = None -> wp (k a) (judged err_of)) ->
  (forall a e, err a = Some e -> k a = Ret (Fail e)) -> wp (bind p k) (judged err_of).
Proof.
  intros Hp Hk He. eapply wp_seq; [exact Hp|]. intros a t Ha. destruct (err a) as [e|] eqn:Hea.
  - rewrite (He a e Hea). apply wp_ret. rewrite app_nil_r. unfold judged in *. by rewrite Hea in Ha.
  - eapply wp_mono; [|by apply Hk]. intros b u Hb Htu. apply Forall_app in Htu as [Ht Hu].
    unfold judged in Ha. rewrite Hea in Ha. specialize (Ha Ht). specialize (Hb Hu). simpl in Ha.
    unfold verdict in *. destruct (err_of b) as [e|]; [destruct Hb as [Hr Hb]; split; [done|]|]; apply Forall_app; split; try done.
    by apply smooth_told.
Qed.

Lemma judged_call {A R} (err : A -> option error) (c : admissionCall R) (k : R -> admission A) :
  (forall r, foreign (Ev R c r) -> wp (k r) (fun a t => Forall foreign t -> verdict (err a) (Ev R c r :: t))) ->
  wp (Call R c k) (judged err).
Proof.
  intros Hk r. eapply wp_mono; [|apply (wp_impl _ _ _ (Hk r))]. intros a t Ha Ht. apply Forall_cons in Ht as [? ?]. auto.
Qed.

(** After a call that did not fail the rest is judged on its own. *)
Lemma judged_step {A R} (err : A -> option error) (c : admissionCall R) r (p : admission A) :
  smooth (Ev R c r) -> wp p (judged err) ->
  wp p (fun a t => Forall foreign t -> verdict (err a) (Ev R c r :: t)).
Proof.
  intros Hc Hp. eapply wp_mono; [|exact Hp]. intros a t Ha Ht. specialize (Ha Ht). unfold verdict in *.
  destruct (err a) as [e|]; [|by constructor]. destruct Ha as [Hr Ha]. split; [done|]. constructor; [|done]. unfold told. by rewrite Hc.
Qed.

Lemma judged_ret {A} (err : A -> option error) a (t : list (event admissionCall)) :
  verdict (err a) t -> wp (Ret a) (fun a u => Forall foreign u -> verdict (err a) (t ++ u)).
Proof. intros Ha _. by rewrite app_nil_r. Qed.

Ltac judge_leaf :=
  apply wp_ret; unfold judged, resolveTargetFault; intros _; cbn [err_of];
  first [ by repeat constructor
        | apply verdict_refusal; [by eexists|by repeat constructor]
        | apply verdict_unruled; [reflexivity|by rewrite ?coded_wrapf] ].

Ltac judge_err := intros [?|] ? Heq; simplify_eq/=; done.

Ltac judge :=
  repeat match goal with
  | |- wp (Ret _) _ => judge_leaf
  | |- wp (Call _ _ _) (judged _) => apply judged_call; intros ? ?
  | |- wp (match _ with _ => _ end) _ => case_match; subst
  | |- wp _ (fun _ _ => Forall foreign _ -> _) => apply judged_step; [reflexivity|]
  end.

Lemma notify_judged entry (created : bool) : wp (bind (notify cfg entry) (fun _ => Ret (Ok (entry, created)))) (judged err_of).
Proof. unfold notify. case_match; [|by intros _; constructor]. intros [] _. by repeat constructor. Qed.

Lemma existing_judged t s : wp (existingCompatible t s) (judged err_of).
Proof.
  unfold existingCompatible, catalogNotFound. apply judged_call. intros [entry|e] He; [apply judged_step; [done|]; judge|].
  rewrite SessionAbsent_unknown. case_match eqn:Hu; apply wp_ret; intros _; eapply verdict_told;
    try (unfold ruling; simpl; by rewrite Hu); try done. intros c [= <-]. by eexists.
Qed.

Lemma ownerAppliesPrincipal_judged t s record m : wp (ownerAppliesPrincipal cfg t s record m) (judged (fun e => e)).
Proof. unfold ownerAppliesPrincipal. judge. Qed.

Lemma gateOwnerAnswers_judged t s record now : wp (gateOwnerAnswers cfg t s record now) (judged (fun e => e)).
Proof. unfold gateOwnerAnswers, ownerAppliesGateResponses. judge. Qed.

Lemma body_judged plane t s payload (f : error -> error) :
  (forall e, coded e = None -> verdict (Some (f (wrapf [e]))) [Ev _ (PutCommandPayload plane
     (MkPutPayload t s (len payload) (Sum256 payload) canonicalCommandMediaType payload)) (Fail e)]) ->
  wp (if MaxInboxPayloadBytes <? len payload then
        bind (putCommandPayload plane t s payload)
          (fun object => Ret (match object with Ok o => Ok (PayloadObject o) | Fail err => Fail (f err) end))
      else Ret (Ok (PayloadInline payload))) (judged err_of).
Proof.
  intros Hf. case_match; [|judge_leaf]. unfold putCommandPayload. intros [o|e]; [intros _; by repeat constructor|]. simpl.
  intros Ht. apply Forall_cons in Ht as [He _]. by apply Hf.
Qed.

Lemma admit_judged t s c k binding payload m : wp (admit_ cfg t s c k binding payload m) (judged err_of).
Proof.
  unfold admit_. apply judged_call. intros [id|e] Hid; [|judge_leaf]. apply judged_step; [done|].
  apply judged_call. intros now _. apply judged_step; [done|].
  eapply judged_seq; [apply body_judged; intros e He; eapply verdict_told; [done| |apply command_meaning_ruled]| |judge_err].
  { rewrite coded_commandRefusal by by rewrite coded_wrapf. apply meaning_wrapf. }
  intros [body|?] ?; [|done]. apply judged_call. intros [[entry created]|e] He.
  2:{ apply wp_ret. intros _. eapply verdict_told; [done|by apply coded_commandRefusal|apply command_meaning_ruled]. }
  apply judged_step; [done|]. apply notify_judged.
Qed.

Lemma create_judged t req target payload : wp (admitPublicCreate cfg t req target payload) (judged err_of).
Proof.
  unfold admitPublicCreate. apply judged_call. intros [id|e] Hid; [|judge_leaf]. apply judged_step; [done|].
  apply judged_call. intros now _. apply judged_step; [done|]. apply judged_call.
  intros [e|] He; [apply wp_ret; intros _; eapply verdict_told; [done|by apply coded_createRefusal|apply create_meaning_ruled]|].
  apply judged_step; [done|].
  eapply judged_seq;
    [apply (body_judged _ _ _ payload (fun e => e)); intros; apply verdict_unruled; [done|by rewrite coded_wrapf]| |judge_err].
  intros [body|?] ?; [|done]. apply judged_call. intros [[entry created]|e] Ha.
  2:{ apply wp_ret. intros _. eapply verdict_told; [done|by apply coded_createRefusal|apply create_meaning_ruled]. }
  apply judged_step; [done|]. apply notify_judged.
Qed.

Lemma retry_judged t s c k payload m (rest : admission answer) :
  wp rest (judged err_of) ->
  wp (bind (retry cfg t s c k payload m) (fun retried =>
        match retried with
        | Fail err => Ret (Fail err)
        | Ok (Some entry) => Ret (Ok (entry, false))
        | Ok None => rest
        end)) (judged err_of).
Proof.
  intros Hrest. eapply judged_seq with (err := err_of); [|intros [[e|]|?] ?; [by intros _; constructor|exact Hrest|done]|].
  - unfold retry. apply judged_call. intros [found|e] He.
    + apply judged_step; [done|]. eapply wp_seq; [apply admit_judged|]. intros [[? ?]|?] u Hu; apply wp_ret;
        rewrite app_nil_r; exact Hu.
    + unfold commandNotFound. rewrite code_is_answers, SessionAbsent_unknown.
      case_match eqn:Hn; [apply judged_step; [unfold smooth, ruling; simpl; by rewrite Hn|]; by intros _; constructor|].
      apply wp_ret. intros _. eapply verdict_told; [unfold ruling; simpl; by rewrite Hn|by apply coded_commandRefusal|apply command_meaning_ruled].
  - intros [[?|]|?] ? Heq; simplify_eq/=; done.
Qed.

Lemma gated_judged (body : admission answer) : wp body (judged err_of) -> wp (gated body) (judged err_of).
Proof.
  intros Hb. apply judged_call. intros [e|] He; [judge_leaf|]. apply judged_step; [done|].
  eapply wp_seq; [exact Hb|]. intros a t Ha []. apply wp_ret. intros Ht. apply Forall_app in Ht as [Ht _].
  specialize (Ha Ht). unfold verdict in *. destruct (err_of a) as [e|]; [destruct Ha as [Hr Ha]; split; [done|]|];
    apply Forall_app; split; try done; by repeat constructor.
Qed.

Lemma attributed_judged principal carried request (body : option WirePrincipal -> admission answer) :
  (forall p, wp (body p) (judged err_of)) -> wp (attributed cfg principal carried request body) (judged err_of).
Proof.
  intros Hb. unfold attributed, attribute. destruct carried; [judge_leaf|].
  destruct (Validate _); [judge_leaf|]. apply Hb.
Qed.

Lemma gateAdmission_judged gates req now e : gateAdmission gates req now = Some e -> exists code, ruled code /\ e = refusal code None.
Proof.
  induction gates as [|gate gates IH]; simpl; intros He; [simplify_eq; eexists; split; [|done]; by eexists|].
  case_match; [by apply IH|]. repeat (case_match; [simplify_eq; eexists; split; [|done]; by eexists|]). done.
Qed.

Lemma authorize_judged principal s k (body : admission answer) :
  wp body (judged err_of) ->
  wp (Call _ (AskAuthorizeControl principal s k)
        (fun denied => match denied with Some err => Ret (Fail err) | None => body end)) (judged err_of).
Proof. intros Hb. apply judged_call. intros [e|] He; [judge_leaf|]. by apply judged_step. Qed.

Lemma admitExisting_judged principal s c k request m : wp (admitExisting cfg principal s c k request m) (judged err_of).
Proof.
  unfold admitExisting. destruct (canonicalCommand request); [|judge_leaf]. apply authorize_judged, retry_judged.
  eapply judged_seq; [apply existing_judged| |judge_err]. intros [entry|?] ?; [|done].
  eapply judged_seq; [apply ownerAppliesPrincipal_judged| |judge_err].
  intros [?|] ?; [done|]. apply admit_judged.
Qed.

Lemma AdmitCreate_judged principal req : wp (AdmitCreate cfg principal req) (judged err_of).
Proof.
  apply gated_judged, attributed_judged. intros p. cbv beta zeta. case_match; [|judge_leaf].
  apply authorize_judged. apply judged_call. intros [[target|]|e] He; [|judge_leaf..]. apply judged_step; [done|].
  case_match; [judge_leaf|]. case_match; [judge_leaf|]. apply create_judged.
Qed.

Lemma AdmitGateResponse_judged principal req : wp (AdmitGateResponse cfg principal req) (judged err_of).
Proof.
  apply gated_judged, attributed_judged. intros p. cbv beta zeta. case_match; [|judge_leaf].
  apply authorize_judged, retry_judged. case_match; [judge_leaf|].
  eapply judged_seq; [apply existing_judged| |judge_err]. intros [entry|?] ?; [|done].
  apply judged_call. intros now _. apply judged_step; [done|].
  destruct (gateAdmission _ _ _) as [e|] eqn:He.
  { apply gateAdmission_judged in He as (code & Hc & ->). apply wp_ret. intros _. by apply verdict_refusal. }
  eapply judged_seq; [apply gateOwnerAnswers_judged| |judge_err]. intros [?|] ?; [done|].
  eapply judged_seq; [apply ownerAppliesPrincipal_judged| |judge_err].
  intros [?|] ?; [done|]. apply admit_judged.
Qed.

(** ** Which binding a command is admitted under *)
Inductive stage := Fresh | Winner (b : SessionBinding) | Session (b : SessionBinding).

(** A reading of the trace: the retry read and the catalog read, each at most
    once and in that order; after a retry read that found the command nothing
    about the session, its target or its owner is read; an admission carries
    the binding last read. *)
Definition advance (st : stage) (e : event admissionCall) : stage :=
  match e with
  | Ev _ (GetDispositionCommand _ _ _) r =>
      match r with Ok found => Winner (desc_Binding (inbox_Descriptor found)) | Fail _ => st end
  | Ev _ (GetCatalogEntry _ _) r => match r with Ok entry => Session (rec_Binding (entry_Record entry)) | Fail _ => st end
  | _ => st
  end.

Definition admissible_at (st : stage) (e : event admissionCall) : Prop :=
  match e with
  | Ev _ c _ =>
      match c with
      | GetDispositionCommand _ _ _ | GetCatalogEntry _ _ => st = Fresh
      | IsKnown _ | Owner _ _ | AcceptsGateResponses _ | AcceptsCommandPrincipal _ => exists b, st = Session b
      | AdmitDispositionCommand req => st = Winner (ad_Binding req) \/ st = Session (ad_Binding req)
      | ResolveAgent _ | PreparePublicCreate _ | AdmitPublicCreate _ => False
      | _ => True
      end
  end.

Fixpoint staged (st : stage) (t : list (event admissionCall)) : Prop :=
  match t with
  | [] => True
  | e :: t => admissible_at st e /\ staged (advance st e) t
  end.

Lemma staged_app st t u : staged st (t ++ u) <-> staged st t /\ staged (foldl advance st t) u.
Proof. revert st. induction t as [|e t IH]; intros st; simpl; [tauto|]. rewrite IH. tauto. Qed.

(** A part of the routine that does not move the stage. *)
Definition stays (st : stage) (e : event admissionCall) : Prop := admissible_at st e /\ advance st e = st.

Lemma stays_staged st t : Forall (stays st) t -> staged st t /\ foldl advance st t = st.
Proof.
  induction 1 as [|e t [Ha Hst] _ IH]; [done|]. simpl. rewrite Hst. tauto.
Qed.

Lemma staged_stays {A B} st (p : admission A) (k : A -> admission B) :
  only (stays st) p -> (forall a, wp (k a) (fun _ u => staged st u)) -> wp (bind p k) (fun _ u => staged st u).
Proof.
  intros Hp Hk. eapply wp_seq; [exact Hp|]. intros a t Ht. apply stays_staged in Ht as [Ht Hst].
  eapply wp_mono; [|apply Hk]. intros b u Hu. apply staged_app. by rewrite Hst.
Qed.

Lemma admit_staged st t s c k binding payload m :
  st = Winner binding \/ st = Session binding -> only (stays st) (admit_ cfg t s c k binding payload m).
Proof.
  intros Hst. unfold admit_. apply only_call; [by intros [|]|]. intros [id|]; [|walk_only]. apply only_call; [done|].
  intros now. apply only_bind.
  - case_match; [|walk_only]. apply only_bind; [|intros ?; walk_only]. unfold putCommandPayload. walk_only.
  - intros [body|]; [|walk_only]. apply only_call; [done|]. intros [[entry created]|]; [|walk_only].
    apply only_bind; [by apply notify_only|intros []; walk_only].
Qed.

Lemma session_stays b t s record m :
  only (stays (Session b)) (ownerAppliesPrincipal cfg t s record m).
Proof.
  unfold ownerAppliesPrincipal. case_match; [apply only_ret|]. apply only_call; [by intros ?; split; [eexists|]|].
  intros [[owner|]|]; [|walk_only..]. apply only_call; [done|]. intros now. do 2 (case_match; [apply only_ret|]).
  apply only_call; [by intros ?; split; [eexists|]|]. intros [[|]|]; walk_only.
Qed.

Lemma gate_stays b t s record now : only (stays (Session b)) (gateOwnerAnswers cfg t s record now).
Proof.
  unfold gateOwnerAnswers, ownerAppliesGateResponses. apply only_call; [by intros ?; split; [eexists|]|].
  intros [[owner|]|]; [|walk_only..]. do 2 (case_match; [apply only_ret|]).
  apply only_call; [by intros ?; split; [eexists|]|]. intros [[|]|]; walk_only.
Qed.

Lemma retry_staged t s c k payload m (rest : admission answer) :
  wp rest (fun _ u => staged Fresh u) ->
  wp (bind (retry cfg t s c k payload m) (fun retried =>
        match retried with
        | Fail err => Ret (Fail err)
        | Ok (Some entry) => Ret (Ok (entry, false))
        | Ok None => rest
        end)) (fun _ u => staged Fresh u).
Proof.
  intros Hrest. unfold retry. intros [found|err].
  - set (st := Winner (desc_Binding (inbox_Descriptor found))).
    apply wp_mono with (Q := fun _ u => staged st u); [intros a u Hu; by split|].
    change (wp (bind (bind (admit_ cfg t s c k (desc_Binding (inbox_Descriptor found)) payload m)
      (fun admitted => match admitted with Ok (entry, _) => Ret (Ok (Some entry)) | Fail err => Ret (Fail err) end))
      (fun retried => match retried with
        | Fail err => Ret (Fail err) | Ok (Some entry) => Ret (Ok (entry, false)) | Ok None => rest end))
      (fun _ u => staged st u)).
    eapply wp_seq; [eapply wp_seq; [apply (admit_staged st); by left|]|]; [|intros a u Hu; exact Hu].
    intros [[entry created]|err] u Hu; apply wp_ret; apply wp_ret; rewrite !app_nil_r; by apply stays_staged.
  - destruct (commandNotFound err); [|by apply wp_ret].
    change (wp rest (fun _ u => staged Fresh (Ev _ (GetDispositionCommand t s c) (Fail err) :: u))).
    eapply wp_mono; [|exact Hrest]. intros a u Hu. by split.
Qed.

Lemma existing_staged t s (k : CatalogEntry -> admission answer) :
  (forall entry, wp (k entry) (fun _ u => staged (Session (rec_Binding (entry_Record entry))) u)) ->
  wp (bind (existingCompatible t s) (fun entry => match entry with Fail err => Ret (Fail err) | Ok entry => k entry end))
    (fun _ u => staged Fresh u).
Proof.
  intros Hk. unfold existingCompatible. intros [entry|err]; [|case_match; by apply wp_ret].
  assert (Hs : forall r u, staged (Session (rec_Binding (entry_Record entry))) u ->
    staged Fresh (Ev _ (GetCatalogEntry t s) (Ok entry) :: Ev _ (IsKnown (catalogTarget (entry_Record entry))) r :: u)).
  { intros r u Hu. split; [done|]. simpl. eauto. }
  intros [[|]|err]; [|by apply wp_ret, (Hs _ [])..]. eapply wp_mono; [|apply Hk]. intros a u Hu. by apply Hs.
Qed.

Lemma gated_staged (body : admission answer) :
  wp body (fun _ u => staged Fresh u) -> wp (gated body) (fun _ u => staged Fresh u).
Proof.
  intros Hb [err|]; [by apply wp_ret|]. eapply wp_seq; [exact Hb|]. intros a t Ha []. apply wp_ret.
  split; [done|]. apply staged_app. split; [exact Ha|]. by split.
Qed.

Lemma attributed_staged principal carried request (body : option WirePrincipal -> admission answer) :
  (forall p, wp (body p) (fun _ u => staged Fresh u)) ->
  wp (attributed cfg principal carried request body) (fun _ u => staged Fresh u).
Proof.
  intros Hb. unfold attributed. destruct (attribute cfg principal carried) as [p|]; [|done].
  destruct (Validate (request p)); [done|]. apply Hb.
Qed.

Lemma authorize_staged principal s k (body : admission answer) :
  wp body (fun _ u => staged Fresh u) ->
  wp (Call _ (AskAuthorizeControl principal s k)
        (fun denied => match denied with Some err => Ret (Fail err) | None => body end)) (fun _ u => staged Fresh u).
Proof. intros Hb [e|]; [by apply wp_ret|]. eapply wp_mono; [|exact Hb]. intros a u Hu. by split. Qed.

Lemma admitExisting_staged principal s c k request m :
  wp (admitExisting cfg principal s c k request m) (fun _ u => staged Fresh u).
Proof.
  unfold admitExisting. destruct (canonicalCommand request); [|done]. apply authorize_staged, retry_staged, existing_staged.
  intros entry. apply staged_stays; [apply session_stays|]. intros [e|]; [done|].
  eapply wp_mono; [|apply admit_staged; by right]. intros ? ? Hu. by apply stays_staged.
Qed.

Lemma AdmitGateResponse_staged principal req : wp (AdmitGateResponse cfg principal req) (fun _ u => staged Fresh u).
Proof.
  apply gated_staged, attributed_staged. intros p. cbv beta zeta. case_match; [|done].
  apply authorize_staged, retry_staged. case_match; [done|]. apply existing_staged. intros entry now.
  eapply wp_mono with (Q := fun _ u => staged (Session (rec_Binding (entry_Record entry))) u); [intros ? ? Hu; by split|].
  destruct (gateAdmission _ _ _); [done|].
  apply staged_stays; [apply gate_stays|]. intros [e|]; [done|].
  apply staged_stays; [apply session_stays|]. intros [e|]; [done|].
  eapply wp_mono; [|apply admit_staged; by right]. intros ? ? Hu. by apply stays_staged.
Qed.

(** ** What a gate response was checked against *)
Definition gate_evidence (t : TenantID) (req : GateResponseRequest) (tr : list (event admissionCall)) : Prop :=
  exists entry now gate owner,
    Ev _ (GetCatalogEntry t (gr_SessionID req)) (Ok entry) ∈ tr /\ Ev _ ClockNow now ∈ tr
    /\ gate ∈ rec_OpenGates (entry_Record entry) /\ gate_GateID gate = gr_GateID req
    /\ now < gate_Deadline gate /\ matchingVersion gate req = true /\ gate_Answerability gate = GateAnswerabilityResident
    /\ Ev _ (Owner t (gr_SessionID req)) (Ok (Some owner)) ∈ tr
    /\ freshMatchingOwner owner (entry_Record entry) now = true
    /\ Ev _ (AcceptsGateResponses owner) (Ok true) ∈ tr.

Definition held_inline (e : event admissionCall) : Prop :=
  match e with
  | Ev _ (AdmitDispositionCommand req) _ => match ad_Payload req with PayloadInline _ => True | PayloadObject _ => False end
  | Ev _ (PutCommandPayload _ _) _ => False
  | _ => True
  end.

Lemma gateAdmission_open gates req now :
  gateAdmission gates req now = None ->
  exists gate, gate ∈ gates /\ gate_GateID gate = gr_GateID req /\ now < gate_Deadline gate
    /\ matchingVersion gate req = true /\ gate_Answerability gate = GateAnswerabilityResident.
Proof.
  induction gates as [|gate gates IH]; [done|]. simpl. intros Hg. case_match.
  - destruct (IH Hg) as (g & ? & ?). exists g. split; [|done]. apply elem_of_cons. by right.
  - repeat (case_match; [done|]). reflect_guards. exists gate. repeat split; try done. apply elem_of_cons. by left.
Qed.

Lemma admit_inline t s c k binding payload m :
  len payload <= MaxInboxPayloadBytes -> only held_inline (admit_ cfg t s c k binding payload m).
Proof.
  intros Hl. unfold admit_. apply only_call; [done|]. intros [id|]; [|walk_only]. apply only_call; [done|]. intros now.
  rewrite (proj2 (Z.ltb_ge _ _)) by done. apply only_call; [done|]. intros [[entry created]|]; [|walk_only].
  apply only_bind; [by apply notify_only|intros []; walk_only].
Qed.

Definition gate_checked (t : TenantID) (req : GateResponseRequest) (tr : list (event admissionCall)) : Prop :=
  existsb is_write tr = true -> retried tr = false -> gate_evidence t req tr /\ Forall held_inline tr.

Lemma gate_evidence_mono t req tr tr' : tr ⊆ tr' -> gate_evidence t req tr -> gate_evidence t req tr'.
Proof.
  intros Hs (entry & now & gate & owner & He & Hn & ? & ? & ? & ? & ? & Ho & ? & Ha).
  exists entry, now, gate, owner. repeat split; try done; by apply Hs.
Qed.

(** A call that writes nothing and finds nothing before the rest, and one after. *)
Lemma gate_checked_cons t req e tr :
  is_write e = false -> held_inline e -> gate_checked t req tr -> gate_checked t req (e :: tr).
Proof.
  intros Hw Hi Hc. unfold gate_checked, retried. cbn [existsb]. rewrite Hw. simpl. intros Hx [_ Hy]%orb_false_iff.
  destruct (Hc Hx Hy) as [He Hf]. split; [|by constructor]. eapply gate_evidence_mono; [|exact He]. set_solver.
Qed.

Lemma gate_checked_quiet t req tr u :
  Forall (fun e => is_write e = false /\ held_inline e) u -> gate_checked t req tr -> gate_checked t req (u ++ tr).
Proof. intros Hu Hc. induction Hu as [|e u [? ?] _ IH]; [done|]. by apply gate_checked_cons. Qed.

Lemma gate_checked_after t req tr :
  gate_checked t req tr -> gate_checked t req (tr ++ [Ev _ EndAdmission tt]).
Proof.
  unfold gate_checked, retried. rewrite !existsb_app. simpl. rewrite !orb_false_r. intros Hc Hw Hr.
  destruct (Hc Hw Hr) as [He Hf]. split.
  - eapply gate_evidence_mono; [|exact He]. set_solver.
  - apply Forall_app. split; [done|]. by repeat constructor.
Qed.

Lemma existing_checked t req (k : CatalogEntry -> admission answer) :
  (forall entry, wp (k entry) (fun _ u =>
     gate_checked t req (Ev _ (GetCatalogEntry t (gr_SessionID req)) (Ok entry) :: u))) ->
  wp (bind (existingCompatible t (gr_SessionID req))
        (fun entry => match entry with Fail err => Ret (Fail err) | Ok entry => k entry end))
    (fun _ u => gate_checked t req u).
Proof.
  intros Hk. unfold existingCompatible. intros [entry|err]; [|case_match; by apply wp_ret].
  intros [[|]|err]; [|by apply wp_ret..]. eapply wp_mono; [|apply Hk]. intros a u Hu Hw Hr.
  destruct (Hu Hw Hr) as [He Hf]. split.
  - eapply gate_evidence_mono; [|exact He]. set_solver.
  - inversion Hf; subst. by repeat constructor.
Qed.

(** The gate is open, the owner answers: then whatever is written is checked. *)
Lemma gate_rest_checked t req m entry payload :
  len payload <= MaxInboxPayloadBytes ->
  wp (Call _ ClockNow (fun now =>
        match gateAdmission (rec_OpenGates (entry_Record entry)) req now with
        | Some err => Ret (Fail err)
        | None =>
            bind (gateOwnerAnswers cfg t (gr_SessionID req) (entry_Record entry) now) (fun refused =>
              match refused with
              | Some err => Ret (Fail err)
              | None =>
                  bind (ownerAppliesPrincipal cfg t (gr_SessionID req) (entry_Record entry) m) (fun refused =>
                    match refused with
                    | Some err => Ret (Fail err)
                    | None => admit_ cfg t (gr_SessionID req) (gr_CommandID req) KindGateResponse
                                (rec_Binding (entry_Record entry)) payload m
                    end)
              end)
        end))
    (fun _ u => gate_checked t req (Ev _ (GetCatalogEntry t (gr_SessionID req)) (Ok entry) :: u)).
Proof.
  intros Hl now. destruct (gateAdmission _ _ _) eqn:Hg; [by apply wp_ret|].
  apply gateAdmission_open in Hg as (gate & Hgate). unfold gateOwnerAnswers, ownerAppliesGateResponses.
  intros [[owner|]|err]; [|by apply wp_ret..]. destruct (freshMatchingOwner owner _ now) eqn:Ho; [|by apply wp_ret].
  simpl negb. cbv iota. destruct (hasGateResponders cfg); [|by apply wp_ret]. simpl negb. cbv iota.
  intros [[|]|err]; [|by apply wp_ret..].
  apply wp_mono with (Q := fun _ u => Forall held_inline u).
  - intros a u Hu _ _. split; [|by repeat constructor].
    exists entry, now, gate, owner. destruct Hgate as (? & ? & ? & ? & ?). repeat split; try done; set_solver.
  - apply only_bind; [apply only_ret|]. intros [e|]; [walk_only|].
    apply only_bind; [|intros [e|]; [walk_only|by apply admit_inline]].
    unfold ownerAppliesPrincipal. walk_only.
Qed.

Lemma AdmitGateResponse_checked principal req :
  wp (AdmitGateResponse cfg principal req) (fun _ u => gate_checked (tenant principal) req u).
Proof.
  intros [err|]; [by apply wp_ret|].
  eapply wp_seq with (P := fun _ u => gate_checked (tenant principal) req u).
  2:{ intros a u Hu []. apply wp_ret. apply gate_checked_cons; [done..|]. by apply gate_checked_after. }
  unfold attributed. destruct (attribute cfg principal (gr_Principal req)) as [p|]; [|done].
  destruct (Validate _); [done|]. destruct (canonicalCommand _) as [payload|]; [|done]. cbv zeta.
  intros [err|]; [by apply wp_ret|]. unfold retry. intros [found|err].
  - eapply wp_mono; [|apply wp_true]. intros a u _ _. by unfold retried.
  - destruct (commandNotFound err); [|by apply wp_ret]. unfold bind at 1. cbv iota beta.
    destruct (MaxInboxPayloadBytes <? len payload) eqn:Hl; [by apply wp_ret|]. reflect_guards.
    eapply wp_mono; [|apply existing_checked; intros entry; by apply gate_rest_checked].
    intros a u Hu. do 2 (apply gate_checked_cons; [done..|]). exact Hu.
Qed.

(** ** The create's reservation *)
Definition reserves (e : event admissionCall) : bool :=
  match e with
  | Ev _ (PreparePublicCreate _) refused => match refused with None => true | Some _ => false end
  | _ => false
  end.
Definition after_reservation (e : event admissionCall) : bool :=
  match e with
  | Ev _ (PutCommandPayload _ _) _ | Ev _ (AdmitPublicCreate _) _ | Ev _ (OnAdmitted _) _ => true
  | _ => false
  end.
(** Both the reservation and the admission carry this identity. *)
Definition pins (identity : PublicCreateIdentity) (payload : bytes) (e : event admissionCall) : Prop :=
  match e with
  | Ev _ (PreparePublicCreate req) _ => pc_Identity req = identity
  | Ev _ (PutCommandPayload plane req) _ => plane = PublicCreatesPlane /\ pp_Body req = payload
  | Ev _ (AdmitPublicCreate req) _ =>
      ac_Identity req = identity /\ match ac_Payload req with PayloadInline b => b = payload | PayloadObject _ => True end
  | Ev _ (AdmitDispositionCommand _) _ => False
  | _ => True
  end.

Lemma create_pins t req target payload :
  wp (admitPublicCreate cfg t req target payload) (fun _ tr =>
    guarded reserves after_reservation tr
    /\ Forall (pins (createIdentity cfg t req target payload) payload) tr).
Proof.
  set (identity := createIdentity cfg t req target payload).
  unfold admitPublicCreate. intros [id|]; [|apply wp_ret; by repeat constructor]. intros now [e|].
  - apply wp_ret. by repeat constructor.
  - apply wp_mono with (Q := fun _ u => Forall (pins identity payload) u).
    { intros a u Hu. split; [done|]. by repeat constructor. }
    apply wp_seq with (P := fun body u => Forall (pins identity payload) u
      /\ match body with Ok (PayloadInline b) => b = payload | _ => True end).
    + case_match; [|by apply wp_ret]. unfold putCommandPayload. intros [o|e]; apply wp_ret; by repeat constructor.
    + intros body u [Hu Hb]. apply wp_mono with (Q := fun _ v => Forall (pins identity payload) v);
        [intros a v Hv; by apply Forall_app|].
      destruct body as [body|]; [|by apply wp_ret]. apply only_call; [intros r; split; [done|by destruct body]|].
      intros [[entry created]|]; [|walk_only]. apply only_bind; [by apply notify_only|intros []; walk_only].
Qed.
End Facts.

(** ** Properties of admission *)

(** C2: However the dependencies answer, no entry point uploads, reserves or
    admits anything before [AuthorizeControl] allowed this principal this kind
    on this session; every read and write is then for the principal's own
    tenant, the request's session and command; an upload declares the size and
    digest of its bytes and happens only above the inline bound, below which a
    body is admitted inline. *)
Theorem admission_writes_only_when_authorized `{Sha256} `{InboxLimits} `{CoreCommands} (cfg : Config)
    (principal : Principal) (r : command_request) :
  wp (Admit cfg principal r) (fun _ t =>
    guarded (grants principal (request_session r) (request_kind r)) is_write t
    /\ Forall (own_write cfg (tenant principal) (request_session r) (request_command r) (request_kind r)) t).
Proof. apply Admit_safe. Qed.

(** A caller is answered exactly what the store accepted: a success returns
    the one entry the store admitted, is announced once to placement (when a
    listener is composed), and claims to have created it only if the store said
    so and it was not a retry; a failure admitted and announced nothing. *)
Theorem admission_answers_what_was_stored `{Sha256} `{InboxLimits} `{CoreCommands} (cfg : Config)
    (principal : Principal) (r : command_request) :
  wp (Admit cfg principal r) (accounts cfg).
Proof. apply Admit_accounts. Qed.


(** A command other than a create is admitted under the store's own
    binding and nothing else: the winner's when the retry read finds the command
    already durable, in which case neither the session, its target, its gate nor
    its owner is consulted again; otherwise the binding of the catalog record
    read for this session. *)
Theorem admission_binding_is_the_stores `{Sha256} `{InboxLimits} `{CoreCommands} (cfg : Config)
    (principal : Principal) (r : command_request) :
  match r with
  | RCreate _ => True
  | _ => wp (Admit cfg principal r) (fun _ t => staged Fresh t)
  end.
Proof.
  destruct r; [done| | | |apply AdmitGateResponse_staged].
  all: apply gated_staged, attributed_staged; intros ?; apply admitExisting_staged.
Qed.

(** C30: A gate response that is not a retry is written only for a gate that can
    take it: the catalog lists the gate as open, unexpired at the clock reading,
    in the version the caller saw and answerable by a resident; the session's
    observed owner is its fresh live owner at that reading; that very owner said
    it applies gate responses; and the body is held inline. *)
Theorem gate_response_only_to_answerable_gate `{Sha256} `{InboxLimits} `{CoreCommands} (cfg : Config)
    (principal : Principal) (req : GateResponseRequest) :
  wp (AdmitGateResponse cfg principal req) (fun _ t => gate_checked (tenant principal) req t).
Proof. apply AdmitGateResponse_checked. Qed.

(** A create reserves its identity before it uploads, admits or announces
    anything, and the reservation and the admission carry one identity, which
    is a function of the tenant, the stamped request, the target and the
    payload alone: a repeated create presents the identity of the first. *)
Theorem create_reserves_one_identity `{Sha256} `{InboxLimits} `{CoreCommands} (cfg : Config)
    (t : TenantID) (req : CreateRequest) (target : Target) (payload : bytes) :
  wp (admitPublicCreate cfg t req target payload) (fun _ tr =>
    guarded reserves after_reservation tr
    /\ Forall (pins (createIdentity cfg t req target payload) payload) tr).
Proof. apply create_pins. Qed.

(** ** The runtime session identity *)

(** The shape of a version-8 UUID of RFC 9562. *)
Definition uuid_position (i : nat) (c : ascii) : bool :=
  match i with
  | 8 | 13 | 18 | 23 => bool_decide (c = "-"%char)
  | 14 => bool_decide (c = "8"%char)
  | 19 => has_byte c "89ab"
  | _ => lower_hex_byte c
  end%nat.

Fixpoint shaped (i : nat) (s : string) : bool :=
  match s with
  | "" => Nat.eqb i 36
  | String c s => uuid_position i c && shaped (S i) s
  end.

Lemma hex_digit_lower x : 0 <= x < 16 -> lower_hex_byte (hex_digit x) = true.
Proof.
  intros Hx. assert (H : (negb (x <? 16) || lower_hex_byte (hex_digit x)) = true).
  { apply (below_256 (fun x => negb (x <? 16) || lower_hex_byte (hex_digit x))); [by vm_compute|lia]. }
  by rewrite (proj2 (Z.ltb_lt _ _)) in H by lia.
Qed.

Lemma hex_high b : 0 <= b < 256 -> lower_hex_byte (hex_digit (b / 16)) = true.
Proof. intros Hb. apply hex_digit_lower. split; [apply Z.div_pos; lia|apply Z.div_lt_upper_bound; lia]. Qed.

Lemma hex_low b : lower_hex_byte (hex_digit (b mod 16)) = true.
Proof. apply hex_digit_lower. apply Z.mod_pos_bound. lia. Qed.

Lemma version_bits b : 0 <= b < 256 -> hex_digit (Z.lor (Z.land b 15) 128 / 16) = "8"%char.
Proof.
  intros Hb. apply Ascii.eqb_eq.
  by apply (below_256 (fun b => Ascii.eqb (hex_digit (Z.lor (Z.land b 15) 128 / 16)) "8"%char)); [vm_compute|].
Qed.

Lemma variant_bits b : 0 <= b < 256 -> has_byte (hex_digit (Z.lor (Z.land b 63) 128 / 16)) "89ab" = true.
Proof.
  intros Hb. by apply (below_256 (fun b => has_byte (hex_digit (Z.lor (Z.land b 63) 128 / 16)) "89ab")); [vm_compute|].
Qed.

Lemma uuid8_shaped sum :
  (16 <= length sum)%nat -> Forall (fun x => 0 <= x < 256) sum -> shaped 0 (uuid8 sum) = true.
Proof.
  intros Hl Hf. do 16 (destruct sum as [|? sum]; [simpl in Hl; lia|]). clear Hl.
  do 16 (apply Forall_cons in Hf as [? Hf]). clear Hf.
  unfold uuid8. cbn [take alter list_alter EncodeToString].
  cbn -[hex_digit lower_hex_byte has_byte Z.lor Z.land Z.div Z.modulo].
  rewrite version_bits by done. cbv -[hex_digit lower_hex_byte has_byte Z.lor Z.land Z.div Z.modulo].
  rewrite variant_bits by done. by rewrite !hex_low, !hex_high by done.
Qed.

(** ["|%d:%s"] can be read back. *)
Lemma sized_inj f1 f2 t1 t2 : sized f1 +:+ t1 = sized f2 +:+ t2 -> f1 = f2 /\ t1 = t2.
Proof.
  unfold sized. rewrite !string_app_assoc. simpl. intros Heq. injection Heq as Heq.
  apply cut_inj in Heq as [Hl Heq]; [|apply digits_have_no; [done|apply itoa_digits]..].
  apply (inj pretty.pretty) in Hl. apply app_length_inj; [lia|done].
Qed.

Lemma runtimeSessionPreimage_inj t s c t' s' c' :
  runtimeSessionPreimage t s c = runtimeSessionPreimage t' s' c' -> (t, s, c) = (t', s', c').
Proof.
  unfold runtimeSessionPreimage. intros Heq. apply app_length_inj in Heq as [_ Heq]; [|done].
  apply sized_inj in Heq as [-> Heq]. apply sized_inj in Heq as [-> Heq].
  rewrite <- (string_app_nil_r (sized c)), <- (string_app_nil_r (sized c')) in Heq.
  by apply sized_inj in Heq as [-> _].
Qed.

(** The bits of a digest a version-8 UUID keeps. *)
Definition kept_bits (sum : list Z) : list Z :=
  alter (fun b => b mod 64) 8%nat (alter (fun b => b mod 16) 6%nat (take 16 sum)).

Definition hex_digit_value (c : ascii) : Z := if byte_of c <? 58 then byte_of c - 48 else byte_of c - 87.

Lemma hex_digit_inj x y : 0 <= x < 16 -> 0 <= y < 16 -> hex_digit x = hex_digit y -> x = y.
Proof.
  intros Hx Hy He. assert (H : forall z, 0 <= z < 16 -> (negb (z <? 16) || (hex_digit_value (hex_digit z) =? z)) = true).
  { intros z Hz. apply (below_256 (fun z => negb (z <? 16) || (hex_digit_value (hex_digit z) =? z))); [by vm_compute|lia]. }
  pose proof (H x Hx) as H1. pose proof (H y Hy) as H2. rewrite He in H1. lia.
Qed.

Lemma hex_byte_inj x y : 0 <= x < 256 -> 0 <= y < 256 ->
  hex_digit (x / 16) = hex_digit (y / 16) -> hex_digit (x mod 16) = hex_digit (y mod 16) -> x = y.
Proof.
  intros Hx Hy Hh Hl. assert (Hd : forall z, 0 <= z < 256 -> 0 <= z / 16 < 16)
    by (intros z Hz; split; [apply Z.div_pos; lia|apply Z.div_lt_upper_bound; lia]).
  apply hex_digit_inj in Hh; [|by apply Hd..]. apply hex_digit_inj in Hl; [|apply Z.mod_pos_bound; lia..].
  rewrite (Z.div_mod x 16), (Z.div_mod y 16) by lia. lia.
Qed.

Lemma version_kept b : 0 <= b < 256 -> Z.lor (Z.land b 15) 128 = 128 + b mod 16.
Proof.
  intros Hb. apply Z.eqb_eq. by apply (below_256 (fun b => Z.lor (Z.land b 15) 128 =? 128 + b mod 16)); [vm_compute|].
Qed.

Lemma variant_kept b : 0 <= b < 256 -> Z.lor (Z.land b 63) 128 = 128 + b mod 64.
Proof.
  intros Hb. apply Z.eqb_eq. by apply (below_256 (fun b => Z.lor (Z.land b 63) 128 =? 128 + b mod 64)); [vm_compute|].
Qed.

Lemma uuid8_kept sum sum' :
  (16 <= length sum)%nat -> (16 <= length sum')%nat ->
  Forall (fun x => 0 <= x < 256) sum -> Forall (fun x => 0 <= x < 256) sum' ->
  uuid8 sum = uuid8 sum' -> kept_bits sum = kept_bits sum'.
Proof.
  assert (Hbound : forall z m, 0 < m <= 128 -> 0 <= 128 + z mod m < 256) by (intros z m Hm; pose proof (Z.mod_pos_bound z m); lia).
  intros Hl Hl' Hf Hf'. do 16 (destruct sum as [|? sum]; [simpl in Hl; lia|]). do 16 (destruct sum' as [|? sum']; [simpl in Hl'; lia|]).
  clear Hl Hl'. do 16 (apply Forall_cons in Hf as [? Hf]). do 16 (apply Forall_cons in Hf' as [? Hf']). clear Hf Hf'.
  unfold uuid8, kept_bits. cbn [take alter list_alter EncodeToString]. rewrite !version_kept, !variant_kept by done.
  cbv -[hex_digit Z.add Z.div Z.modulo Z.le Z.lt not]. intros Heq. injection Heq. clear Heq. intros.
  repeat match goal with
  | Hh : hex_digit (?x / 16) = hex_digit (?y / 16), Hm : hex_digit (?x mod 16) = hex_digit (?y mod 16) |- _ =>
      apply (hex_byte_inj x y) in Hm; [clear Hh|first [assumption|by apply Hbound]..|exact Hh]
  | Hm : 128 + _ = 128 + _ |- _ => apply Z.add_reg_l in Hm
  end.
  congruence.
Qed.

(** C40: The runtime session identity a create pins is a well-formed version-8
    UUID, 8-4-4-4-12 lowercase hexadecimal digits with the version and variant
    nibbles set, whatever the digest's bytes are. It is made of the digest of
    bytes from which the tenant, the session and the command can be read back:
    two creates hash the same bytes only if they are the same create, so two
    that differ share an identity only if the digests of those two different
    inputs agree in the 122 bits kept. *)
Theorem runtime_session_id_well_formed `{Sha256} (t t' : TenantID) (s s' : SessionID) (c c' : CommandID) :
  shaped 0 (deriveRuntimeSessionID t s c) = true
  /\ deriveRuntimeSessionID t s c = uuid8 (Sum256 (runtimeSessionPreimage t s c))
  /\ (runtimeSessionPreimage t s c = runtimeSessionPreimage t' s' c' -> (t, s, c) = (t', s', c'))
  /\ (deriveRuntimeSessionID t s c = deriveRuntimeSessionID t' s' c' ->
      (t, s, c) = (t', s', c')
      \/ runtimeSessionPreimage t s c <> runtimeSessionPreimage t' s' c'
         /\ kept_bits (Sum256 (runtimeSessionPreimage t s c)) = kept_bits (Sum256 (runtimeSessionPreimage t' s' c'))).
Proof.
  split_and!; [apply uuid8_shaped; [by rewrite Sum256_length; lia|apply Sum256_bytes]|done|apply runtimeSessionPreimage_inj|].
  intros Heq. destruct (decide (runtimeSessionPreimage t s c = runtimeSessionPreimage t' s' c')) as [Hp|Hp].
  - left. by apply runtimeSessionPreimage_inj.
  - right. split; [done|]. by apply uuid8_kept; rewrite ?Sum256_length; [lia..|apply Sum256_bytes|apply Sum256_bytes|].
Qed.

(** ** A service to run *)

(** A digest of the right shape: the length of its input, repeated. *)
#[global] Program Instance demo_sha : Sha256 := {|
  Sum256 b := replicate 32 (Z.of_nat (String.length b) mod 256)
|}.
Next Obligation. intros b. apply length_replicate. Qed.
Next Obligation. intros b. apply Forall_replicate. apply Z.mod_pos_bound. lia. Qed.

#[global] Instance demo_inbox_limits : InboxLimits := {| MaxInboxPayloadBytes := 8 |}.

(** Every request is valid; its encoding is its body. *)
#[global] Instance demo_commands : CoreCommands := {|
  Validate _ := None;
  Marshal r :=
    Ok (match r with
        | RCreate r => cr_Blocks r | RInput r => in_Blocks r | RInterrupt _ | RRestore _ => "{}"
        | RGateResponse r => gr_Answer r
        end)
|}.

Lemma runtime_session_id_well_formed_witness :
  shaped 0 (deriveRuntimeSessionID "t" "s" "c") = true
  /\ deriveRuntimeSessionID "t" "s" "c" = "31313131-3131-8131-b131-313131313131".
Proof.
  split; [|by vm_compute]. exact (proj1 (runtime_session_id_well_formed "t" "t" "s" "s" "c" "c")).
Defined.

Definition demo_service : Config := MkConfig true true true true true (MkTemplate "storage" "1") 60 true.

Definition demo_catalog_entry : CatalogEntry :=
  Catalog_Entry (Catalog_Record "t" "s" "agent" "rt" HostPlacementPooled 1 (Workload "" "") None 0 0 demo_binding
    [Gate_Projection "g" "event" 3 50 GateAnswerabilityResident]) 7.

Definition demo_owner_observation : HostLinkRegistryObservation :=
  RegistryObservation "t" "s" "host" 1 1 "agent" "rt" HostPlacementPooled SessionResidencyResident true 100 "endpoint".

(** A world with one session owned by a capable Host, and an empty inbox: the
    state counts the commands it accepted. *)
Definition demo_admission_world : handler admissionCall Z := fun R c =>
  match c in admissionCall R return Z -> R * Z with
  | BeginAdmission | AskAuthorizeControl _ _ _ => fun w => (None, w)
  | PreparePublicCreate _ => fun w => (None, w)
  | EndAdmission | OnAdmitted _ => fun w => (tt, w)
  | ResolveAgent agent => fun w => (Ok (Some (MkTarget (MkTargetKey agent "rt" HostPlacementPooled) (Workload "" ""))), w)
  | IsKnown _ | AcceptsGateResponses _ | AcceptsCommandPrincipal _ => fun w => (Ok true, w)
  | GetCatalogEntry _ _ => fun w => (Ok demo_catalog_entry, w)
  | GetDispositionCommand _ _ _ => fun w => (Fail (Err (Typed "InboxError" "InboxErrorNotFound" "" 0) []), w)
  | PutCommandPayload _ _ => fun w => (Ok "object", w)
  | AdmitDispositionCommand req => fun w =>
      (Ok (demo_inbox (ad_SessionID req) (ad_CommandID req) (ad_Kind req) InboxStatePending, true), w + 1)
  | AdmitPublicCreate req => fun w =>
      (Ok (demo_inbox (ci_SessionID (ac_Identity req)) (ci_CommandID (ac_Identity req)) KindCreateSession InboxStatePending, true), w + 1)
  | Owner _ _ => fun w => (Ok (Some demo_owner_observation), w)
  | NewUUID => fun w => (Ok "runtime-command", w)
  | ClockNow => fun w => (10, w)
  end.

Definition demo_principal : Principal := MkPrincipal "t" "alice" KindActor.

(** A small gate response is admitted; one over the bound is refused before
    anything is written; an oversized input goes by reference. *)
Example admission_demo :
  (run demo_admission_world (Admit demo_service demo_principal (RGateResponse (MkGateResponse "s" "c" "g" "event" 0 None "yes"))) 0).1.1
    = Ok (demo_inbox "s" "c" KindGateResponse InboxStatePending, true)
  /\ (let '(a, t, w) := run demo_admission_world
        (Admit demo_service demo_principal (RGateResponse (MkGateResponse "s" "c" "g" "event" 0 None "far too long"))) 0 in
      err_of a = Some (refusal ErrorCodeInvalidRequest (Some (wrapf [ErrGateResponseTooLarge]))) /\ existsb is_write t = false /\ w = 0)
  /\ tally is_write (run demo_admission_world
        (Admit demo_service demo_principal (RInput (MkInput "s" "c" None [] "far too long"))) 0).1.2 = 2.
Proof. by vm_compute. Qed.
