(* ===== verification/AdmissionSweep.v ===== *)
(** * The deadline sweeps (src/internal/admission/reconciler.go, dispositions.go)

    What turns a command no runtime applied before its deadline into a terminal
    rejection, once per inbox family: [Reconciler] over the legacy family and
    [DispositionReconciler] over the disposition family, with the claims and the
    rotor they share. Both are programs over the interfaces of the package. A
    sweep's [held] map is a [gmap] from sessions to what the claim answered; the
    order [release] ranges it in is a parameter. *)

From S2P Require Import Prelude Wire Program Directory Identity Pending Refusal.
Local Open Scope prog_scope.
Local Open Scope string_scope.
Local Open Scope Z_scope.

Definition ErrInvalidReconcilerConfig : error := sentinel "admission.ErrInvalidReconcilerConfig".

(** ** Configuration *)

(** The interfaces of [ReconcilerConfig] and [DispositionReconcilerConfig], by
    presence, and their members, which are the same. *)
Record ReconcilerConfig := MkReconcilerConfig {
  hasAuthorizer : bool; hasDue : bool; hasSettlement : bool; hasClaims : bool; hasClock : bool;
  HolderID : string; ClaimTTL : Z; PageLimit_ : Z; MaxPages_ : Z
}.

(** sessionstore.MaxReconciliationClaimTTL *)
Class ClaimLimits := { MaxReconciliationClaimTTL : Z }.

Definition NewReconciler `{StoreLimits} `{ClaimLimits} (cfg : ReconcilerConfig) : result ReconcilerConfig :=
  let invalid := Fail (wrapf [ErrInvalidReconcilerConfig]) in
  if negb (hasAuthorizer cfg) then invalid
  else if negb (hasDue cfg) then invalid
  else if negb (hasSettlement cfg) then invalid
  else if negb (hasClaims cfg) then invalid
  else if negb (hasClock cfg) then invalid
  else if bool_decide (HolderID cfg = "") then invalid
  else if (ClaimTTL cfg <=? 0) || (MaxReconciliationClaimTTL <? ClaimTTL cfg) then invalid
  else if (PageLimit_ cfg <? 1) || (MaxOrderedPageLimit <? PageLimit_ cfg) then invalid
  else if MaxPages_ cfg <? 1 then invalid
  else Ok cfg.

(** The disposition family's constructor makes the same checks in the same
    order, so one configuration serves both ([constructors_agree]). *)
Definition NewDispositionReconciler `{StoreLimits} `{ClaimLimits} (cfg : ReconcilerConfig) : result ReconcilerConfig :=
  let invalid := Fail (wrapf [ErrInvalidReconcilerConfig]) in
  if negb (hasAuthorizer cfg) then invalid
  else if negb (hasDue cfg) then invalid
  else if negb (hasSettlement cfg) then invalid
  else if negb (hasClaims cfg) then invalid
  else if negb (hasClock cfg) then invalid
  else if bool_decide (HolderID cfg = "") then invalid
  else if (ClaimTTL cfg <=? 0) || (MaxReconciliationClaimTTL <? ClaimTTL cfg) then invalid
  else if (PageLimit_ cfg <? 1) || (MaxOrderedPageLimit <? PageLimit_ cfg) then invalid
  else if MaxPages_ cfg <? 1 then invalid
  else Ok cfg.

Lemma constructors_agree `{StoreLimits} `{ClaimLimits} cfg : NewDispositionReconciler cfg = NewReconciler cfg.
Proof. reflexivity. Qed.

(** ** Dispositions *)
Inductive Disposition :=
| DispositionSettleable | DispositionRejected | DispositionUnexpired | DispositionClaimLive | DispositionApplying
| DispositionTerminal | DispositionEvidence | DispositionRaceLost | DispositionDeferred | DispositionUnrecognized.

#[global] Instance Disposition_eq_dec : EqDecision Disposition.
Proof. solve_decision. Defined.

(** [Disposition.String]. *)
Definition Disposition_String (d : Disposition) : string :=
  match d with
  | DispositionSettleable => "settleable"
  | DispositionRejected => "rejected"
  | DispositionUnexpired => "unexpired"
  | DispositionClaimLive => "claim_live"
  | DispositionApplying => "applying"
  | DispositionTerminal => "terminal"
  | DispositionEvidence => "evidence"
  | DispositionRaceLost => "race_lost"
  | DispositionDeferred => "deferred"
  | DispositionUnrecognized => "unrecognized_state"
  end.

Definition disposition_code (d : Disposition) : nat :=
  match d with
  | DispositionSettleable => 0 | DispositionRejected => 1 | DispositionUnexpired => 2 | DispositionClaimLive => 3
  | DispositionApplying => 4 | DispositionTerminal => 5 | DispositionEvidence => 6 | DispositionRaceLost => 7
  | DispositionDeferred => 8 | DispositionUnrecognized => 9
  end.
Definition disposition_of_code (n : nat) : Disposition :=
  match n with
  | 0 => DispositionSettleable | 1 => DispositionRejected | 2 => DispositionUnexpired | 3 => DispositionClaimLive
  | 4 => DispositionApplying | 5 => DispositionTerminal | 6 => DispositionEvidence | 7 => DispositionRaceLost
  | 8 => DispositionDeferred | _ => DispositionUnrecognized
  end%nat.
#[global] Program Instance Disposition_countable : Countable Disposition :=
  inj_countable' disposition_code disposition_of_code _.
Next Obligation. by intros []. Qed.

Record SweepResult := MkSettleResult {
  sr_Shard : Z;
  sr_Pages : Z;
  sr_Examined : Z;
  sr_Unreadable : Z;
  sr_Due : Z;
  sr_Rejected : Z;
  sr_Claimed : Z;
  sr_Released : Z;
  sr_Dispositions : gmap Disposition Z;
  sr_Queries : Z;
  sr_ReleaseFailures : Z;
  sr_Truncated : bool;
  sr_Resumed : bool
}.

Definition zeroSettle (shard : Z) (resumed : bool) : SweepResult :=
  MkSettleResult shard 0 0 0 0 0 0 0 ∅ 0 0 false resumed.

(** [result.Dispositions[d]++] and the counters' increments. *)
Definition bump (m : gmap Disposition Z) (d : Disposition) : gmap Disposition Z := <[d := default 0 (m !! d) + 1]> m.

Definition addDisposition (d : Disposition) (r : SweepResult) : SweepResult :=
  let 'MkSettleResult s p e u du rj c rl ds q rf t rs := r in MkSettleResult s p e u du rj c rl (bump ds d) q rf t rs.
Definition addRejected (r : SweepResult) : SweepResult :=
  let 'MkSettleResult s p e u du rj c rl ds q rf t rs := r in
  MkSettleResult s p e u du (rj + 1) c rl (bump ds DispositionRejected) q rf t rs.
Definition addQuery (r : SweepResult) : SweepResult :=
  let 'MkSettleResult s p e u du rj c rl ds q rf t rs := r in MkSettleResult s p e u du rj c rl ds (q + 1) rf t rs.
Definition addClaimed (r : SweepResult) : SweepResult :=
  let 'MkSettleResult s p e u du rj c rl ds q rf t rs := r in MkSettleResult s p e u du rj (c + 1) rl ds q rf t rs.
Definition addReleased (r : SweepResult) : SweepResult :=
  let 'MkSettleResult s p e u du rj c rl ds q rf t rs := r in MkSettleResult s p e u du rj c (rl + 1) ds q rf t rs.
Definition addReleaseFailure (r : SweepResult) : SweepResult :=
  let 'MkSettleResult s p e u du rj c rl ds q rf t rs := r in MkSettleResult s p e u du rj c rl ds q (rf + 1) t rs.
Definition addPage (examined unreadable due : Z) (r : SweepResult) : SweepResult :=
  let 'MkSettleResult s p e u du rj c rl ds q rf t rs := r in
  MkSettleResult s (p + 1) (e + examined) (u + unreadable) (du + due) rj c rl ds q rf t rs.
Definition truncate (r : SweepResult) : SweepResult :=
  let 'MkSettleResult s p e u du rj c rl ds q rf _ rs := r in MkSettleResult s p e u du rj c rl ds q rf true rs.

(** ** The rotor *)
Record rotor := MkRotor { rotor_next : Z; rotor_cursors : gmap Z Cursor }.

Section Rotor.
Context `{ControlLimits}.

Definition rotate (shards : Z) (r : rotor) : result Z * rotor :=
  if shards <? MinControlShards then (Fail (wrapf []), r)
  else
    let shard := if shards <=? rotor_next r then 0 else rotor_next r in
    (Ok shard, MkRotor ((shard + 1) `rem` shards) (rotor_cursors r)).

(** The second critical section of [begin]: prune, then read. *)
Definition resume (shards shard : Z) (r : rotor) : Cursor * rotor :=
  let kept := filter (fun kv => kv.1 < shards) (rotor_cursors r) in
  (default "" (kept !! shard), MkRotor (rotor_next r) kept).

Definition begin_ (shards : Z) (r : rotor) : result (Z * Cursor) * rotor :=
  match rotate shards r with
  | (Fail err, r) => (Fail err, r)
  | (Ok shard, r) => let '(cursor, r) := resume shards shard r in (Ok (shard, cursor), r)
  end.

Definition commit_ (shard : Z) (cursor : Cursor) (r : rotor) : rotor :=
  if bool_decide (cursor = "") then MkRotor (rotor_next r) (delete shard (rotor_cursors r))
  else MkRotor (rotor_next r) (<[shard := cursor]> (rotor_cursors r)).
End Rotor.

(** ** The calls *)
Record LegacyPage := MkLegacyPage {
  lp_Commands : list InboxEntry; lp_NextCursor : Cursor; lp_Examined : Z; lp_Unreadable : Z }.

Record RejectRequest := MkReject {
  rj_TenantID : TenantID; rj_SessionID : SessionID; rj_CommandID : CommandID; rj_ExpectedRevision : Z }.

Inductive settleCall : Type -> Type :=
| AuthorizeSweep (p : Principal) : settleCall (option error)
| ShardCount : settleCall Z
| SweepNow : settleCall time
| ListDueCommands (req : ListDueRequest) : settleCall (result LegacyPage)
| ListDueDispositions (req : ListDueRequest) : settleCall (result DuePage)
| AcquireReconciliationClaim (t : TenantID) (s : SessionID) (holder : string) (expires : time) : settleCall (option error)
| ReleaseReconciliationClaim (t : TenantID) (s : SessionID) (holder : string) : settleCall (option error)
| RejectCommand (req : RejectRequest) (rejection : string) : settleCall (option error)
| RejectDispositionCommand (req : RejectRequest) : settleCall (result bool).

Abbreviation settling := (prog settleCall).

(** A sweep's own state: its counters and the claims it asked for. *)
Record sweep_state := MkState { st_result : SweepResult; held : gmap sessionKey bool }.

Definition with_result (f : SweepResult -> SweepResult) (st : sweep_state) : sweep_state := MkState (f (st_result st)) (held st).
Definition with_held (key : sessionKey) (taken : bool) (st : sweep_state) : sweep_state :=
  MkState (st_result st) (<[key := taken]> (held st)).

Section Claimant.
Context (holder : string) (ttl : Z).

Inductive claim_answer := ClaimTaken | ClaimDeferred | ClaimConflict (err : error) | ClaimFault (err : error).

Definition claimAnswer (err : option error) : claim_answer :=
  match err with
  | None => ClaimTaken
  | Some err =>
      match errors_code "ReconcileError" err with
      | None => ClaimFault err
      | Some code =>
          if bool_decide (code = "ReconcileErrorHeld") then ClaimDeferred
          else if bool_decide (code = "ReconcileErrorConflict") then ClaimConflict err
          else ClaimFault err
      end
  end.

(** The attempts left; [err] is the last one's error. A fault breaks out of the
    loop, and after it only a conflict is a deferral. *)
Fixpoint claimLoop (attempts : nat) (tenant : TenantID) (session : SessionID) (now : time) (err : error) (st : sweep_state)
    : settling (result bool * sweep_state) :=
  match attempts with
  | O =>
      if code_is "ReconcileError" "ReconcileErrorConflict" err
      then Ret (Ok false, with_held (SessionKey tenant session) false st)
      else Ret (Fail (wrapf [err]), st)
  | S attempts =>
      let st := with_result addQuery st in
      call! answer := AcquireReconciliationClaim tenant session holder (now + ttl) in
      match claimAnswer answer with
      | ClaimTaken => Ret (Ok true, with_result addClaimed (with_held (SessionKey tenant session) true st))
      | ClaimDeferred => Ret (Ok false, with_held (SessionKey tenant session) false st)
      | ClaimConflict err => claimLoop attempts tenant session now err st
      | ClaimFault err => Ret (Fail (wrapf [err]), st)
      end
  end.

Definition claim (tenant : TenantID) (session : SessionID) (now : time) (st : sweep_state)
    : settling (result bool * sweep_state) :=
  match held st !! SessionKey tenant session with
  | Some answer => Ret (Ok answer, st)
  | None => claimLoop 2 tenant session now (wrapf []) st
  end.

(** [release] over the memo, in the order it is ranged in. *)
Fixpoint releaseLoop (keys : list (sessionKey * bool)) (r : SweepResult) : settling SweepResult :=
  match keys with
  | [] => Ret r
  | (key, taken) :: keys =>
      if negb taken then releaseLoop keys r
      else
        let r := addQuery r in
        call! err := ReleaseReconciliationClaim (key_tenant key) (key_session key) holder in
        match err with
        | Some _ => releaseLoop keys (addReleaseFailure r)
        | None => releaseLoop keys (addReleased r)
        end
  end.

Definition release (order : gmap sessionKey bool -> list (sessionKey * bool)) (st : sweep_state) : settling SweepResult :=
  releaseLoop (order (held st)) (st_result st).
End Claimant.

(** ** The safety predicates and the classification of refusals *)
Definition settleable (record : InboxEntry) (now : time) : Disposition :=
  if bool_decide (leg_State record = InboxStateApplied) || bool_decide (leg_State record = InboxStateRejected)
  then DispositionTerminal
  else if bool_decide (leg_State record = InboxStateApplying) then DispositionApplying
  else if now <? leg_ClaimExpiresAt record then DispositionClaimLive
  else if now <? leg_ApplyDeadline record then DispositionUnexpired
  else DispositionSettleable.

Definition dispositionSettleable (record : DispositionInboxEntry) (now : time) : Disposition :=
  match inbox_State record with
  | InboxStateApplied | InboxStateRejected => DispositionTerminal
  | InboxStateApplying => DispositionApplying
  | InboxStateOther _ => DispositionUnrecognized
  | InboxStatePending | InboxStateClaimed =>
      if inbox_hasAttempt record then DispositionApplying
      else if match inbox_Claim record with Some expires => now <? expires | None => false end then DispositionClaimLive
      else if now <? inbox_ApplyDeadline record then DispositionUnexpired
      else DispositionSettleable
  end.

Definition settlementRefusal (err : error) : option Disposition :=
  match errors_code "InboxError" err with
  | None => None
  | Some code =>
      if bool_decide (code = "InboxErrorEvidence") then Some DispositionEvidence
      else if bool_decide (code = "InboxErrorClaimHeld") then Some DispositionClaimLive
      else if bool_decide (code = "InboxErrorClaimLost") then Some DispositionApplying
      else if bool_decide (code = "InboxErrorConflict") then Some DispositionRaceLost
      else if bool_decide (code ∈ ["InboxErrorTerminal"; "InboxErrorNotFound"; "InboxErrorDeleted"])
      then Some DispositionTerminal
      else None
  end.

Definition dispositionRefusal (err : error) : option Disposition :=
  if SessionAbsent err then Some DispositionTerminal
  else
    match errors_code "InboxError" err with
    | None => None
    | Some code =>
        if bool_decide (code = "InboxErrorState") then Some DispositionApplying
        else if bool_decide (code = "InboxErrorClaimHeld") then Some DispositionClaimLive
        else if bool_decide (code = "InboxErrorConflict") then Some DispositionRaceLost
        else if bool_decide (code ∈ ["InboxErrorTerminal"; "InboxErrorNotFound"; "InboxErrorDeleted"])
        then Some DispositionTerminal
        else None
    end.

Definition expiredCommandRejection : string := ErrorCodeRuntimeUnavailable.

Definition refusedDispositionCursor (err : error) : bool := code_is "InboxError" "InboxErrorCursor" err.

(** ** Settling one row *)
Section Sweeps.
Context `{ControlLimits} (cfg : ReconcilerConfig) (order : gmap sessionKey bool -> list (sessionKey * bool)).

(** What both [settle]s do around their own predicate and reject edge. [reject]
    answers the disposition to count, or a fault; [DispositionRejected] is the
    rejection this sweep wrote. *)
Definition settleWith (verdict : Disposition) (tenant : TenantID) (session : SessionID) (now : time)
    (reject : settling (result Disposition)) (st : sweep_state) : settling (sweep_state * option error) :=
  if negb (bool_decide (verdict = DispositionSettleable)) then Ret (with_result (addDisposition verdict) st, None)
  else
    let! (claimed, st) := claim (HolderID cfg) (ClaimTTL cfg) tenant session now st in
    match claimed with
    | Fail err => Ret (st, Some err)
    | Ok false => Ret (with_result (addDisposition DispositionDeferred) st, None)
    | Ok true =>
        let st := with_result addQuery st in
        let! answer := reject in
        match answer with
        | Fail err => Ret (st, Some err)
        | Ok DispositionRejected => Ret (with_result addRejected st, None)
        | Ok disposition => Ret (with_result (addDisposition disposition) st, None)
        end
    end.

Definition rejectLegacy (entry : InboxEntry) : settling (result Disposition) :=
  call! err := RejectCommand
    (MkReject (leg_TenantID entry) (leg_SessionID entry) (leg_CommandID entry) (leg_Revision entry)) expiredCommandRejection in
  match err with
  | None => Ret (Ok DispositionRejected)
  | Some err =>
      match settlementRefusal err with
      | Some disposition => Ret (Ok disposition)
      | None => Ret (Fail (wrapf [err]))
      end
  end.

Definition rejectDisposition (entry : DispositionInboxEntry) : settling (result Disposition) :=
  let d := inbox_Descriptor entry in
  call! answer := RejectDispositionCommand
    (MkReject (desc_TenantID d) (desc_SessionID d) (desc_CommandID d) (inbox_Revision entry)) in
  match answer with
  | Ok true => Ret (Ok DispositionRejected)
  | Ok false => Ret (Ok DispositionTerminal)
  | Fail err =>
      match dispositionRefusal err with
      | Some disposition => Ret (Ok disposition)
      | None => Ret (Fail (wrapf [err]))
      end
  end.

(** [Reconciler.settle] and [DispositionReconciler.settle]. *)
Definition settleLegacy (entry : InboxEntry) (now : time) (st : sweep_state) : settling (sweep_state * option error) :=
  settleWith (settleable entry now) (leg_TenantID entry) (leg_SessionID entry) now (rejectLegacy entry) st.

Definition settleDisposition (entry : DispositionInboxEntry) (now : time) (st : sweep_state)
    : settling (sweep_state * option error) :=
  let d := inbox_Descriptor entry in
  settleWith (dispositionSettleable entry now) (desc_TenantID d) (desc_SessionID d) now (rejectDisposition entry) st.

(** The rows of a page, until one faults. *)
Fixpoint settleAll {E} (settle : E -> time -> sweep_state -> settling (sweep_state * option error)) (rows : list E)
    (now : time) (st : sweep_state) : settling (sweep_state * option error) :=
  match rows with
  | [] => Ret (st, None)
  | row :: rows =>
      let! (st, err) := settle row now st in
      match err with
      | Some err => Ret (st, Some err)
      | None => settleAll settle rows now st
      end
  end.

Definition dueRequest_ (shard : Z) (cursor : Cursor) (now : time) : ListDueRequest :=
  MkDueRequest shard (PageLimit_ cfg) cursor (if bool_decide (cursor = "") then now else 0).

(** [Reconciler.page]: the pages left are the measure. *)
Fixpoint legacyPages (pages : nat) (shard : Z) (cursor : Cursor) (now : time) (st : sweep_state)
    : settling (sweep_state * option error) :=
  match pages with
  | O => Ret (with_result truncate st, None)
  | S pages =>
      let st := with_result addQuery st in
      call! page := ListDueCommands (dueRequest_ shard cursor now) in
      match page with
      | Fail err => Ret (st, Some (wrapf [err]))
      | Ok page =>
          let st := with_result (addPage (lp_Examined page) (lp_Unreadable page) (Z.of_nat (length (lp_Commands page)))) st in
          let! (st, err) := settleAll settleLegacy (lp_Commands page) now st in
          match err with
          | Some err => Ret (st, Some err)
          | None =>
              if bool_decide (lp_NextCursor page = "") then Ret (st, None)
              else legacyPages pages shard (lp_NextCursor page) now st
          end
      end
  end.

(** [DispositionReconciler.page]: also the cursor to resume from. *)
Fixpoint dispositionPages (pages : nat) (shard : Z) (cursor : Cursor) (now : time) (st : sweep_state)
    : settling (sweep_state * Cursor * option error) :=
  match pages with
  | O => Ret (with_result truncate st, cursor, None)
  | S pages =>
      let st := with_result addQuery st in
      call! page := ListDueDispositions (dueRequest_ shard cursor now) in
      match page with
      | Fail err =>
          if refusedDispositionCursor err then Ret (st, "", Some (wrapf [err]))
          else Ret (st, cursor, Some (wrapf [err]))
      | Ok page =>
          let st := with_result (addPage (due_Examined page) (due_Unreadable page) (Z.of_nat (length (due_Commands page)))) st in
          let! (st, err) := settleAll settleDisposition (due_Commands page) now st in
          match err with
          | Some err => Ret (st, cursor, Some err)
          | None =>
              if bool_decide (due_NextCursor page = "") then Ret (st, "", None)
              else dispositionPages pages shard (due_NextCursor page) now st
          end
      end
  end.

Definition zeroState (shard : Z) (resumed : bool) : sweep_state := MkState (zeroSettle shard resumed) ∅.

(** [Reconciler.Sweep]. *)
Definition LegacySweep (principal : Principal) (r : rotor) : settling (SweepResult * option error * rotor) :=
  call! denied := AuthorizeSweep principal in
  match denied with
  | Some err => Ret (zeroSettle 0 false, Some err, r)
  | None =>
      call! shards := ShardCount in
      match rotate shards r with
      | (Fail err, r) => Ret (zeroSettle 0 false, Some err, r)
      | (Ok shard, r) =>
          call! now := SweepNow in
          let! (st, err) := legacyPages (Z.to_nat (MaxPages_ cfg)) shard "" now (zeroState shard false) in
          let! result := release (HolderID cfg) order st in
          Ret (result, err, r)
      end
  end.

(** [DispositionReconciler.Sweep]. *)
Definition DispositionSweep (principal : Principal) (r : rotor) : settling (SweepResult * option error * rotor) :=
  call! denied := AuthorizeSweep principal in
  match denied with
  | Some err => Ret (zeroSettle 0 false, Some err, r)
  | None =>
      call! shards := ShardCount in
      match begin_ shards r with
      | (Fail err, r) => Ret (zeroSettle 0 false, Some err, r)
      | (Ok (shard, cursor), r) =>
          call! now := SweepNow in
          let! (st, next, err) := dispositionPages (Z.to_nat (MaxPages_ cfg)) shard cursor now
            (zeroState shard (negb (bool_decide (cursor = "")))) in
          let r := commit_ shard next r in
          let! result := release (HolderID cfg) order st in
          Ret (result, err, r)
      end
  end.
End Sweeps.

(** ** What a sweep is licensed to do

    A reading of a sweep's calls: the instant it read, the rows listed to it
    that are due at that instant and not yet spent, the sessions it holds a claim
    on, and those it ever held one on. A rejection needs such a row, which it
    spends, and its session's claim; a claim is taken for this holder until the
    instant plus the configured time, and never for a session that had one
    before; a release gives back a claim that is held. *)
Record licence := MkLicence { l_now : time; l_rows : list RejectRequest; l_held : gset sessionKey; l_ever : gset sessionKey }.

(** A command whose time has passed and nobody is applying: what a listed row
    has to say for itself. *)
Definition legacy_due (now : time) (e : InboxEntry) : bool :=
  negb (bool_decide (leg_State e ∈ [InboxStateApplied; InboxStateRejected; InboxStateApplying]))
  && (leg_ClaimExpiresAt e <=? now) && (leg_ApplyDeadline e <=? now).
Definition disposition_due (now : time) (e : DispositionInboxEntry) : bool :=
  bool_decide (inbox_State e ∈ [InboxStatePending; InboxStateClaimed]) && negb (inbox_hasAttempt e)
  && match inbox_Claim e with Some expires => expires <=? now | None => true end && (inbox_ApplyDeadline e <=? now).

Definition legacy_row (now : time) (e : InboxEntry) : option RejectRequest :=
  if legacy_due now e
  then Some (MkReject (leg_TenantID e) (leg_SessionID e) (leg_CommandID e) (leg_Revision e)) else None.
Definition disposition_row (now : time) (e : DispositionInboxEntry) : option RejectRequest :=
  let d := inbox_Descriptor e in
  if disposition_due now e
  then Some (MkReject (desc_TenantID d) (desc_SessionID d) (desc_CommandID d) (inbox_Revision e)) else None.

Lemma settleable_due e now : settleable e now = DispositionSettleable -> legacy_due now e = true.
Proof.
  unfold settleable, legacy_due. intros Hs. repeat case_match; try done.
  rewrite bool_decide_false; [simpl; reflect_guards; rewrite andb_true_iff, !Z.leb_le; lia|].
  intros Hin. repeat (apply elem_of_cons in Hin as [Hin|Hin]; [by rewrite Hin in *|]). by apply elem_of_nil in Hin.
Qed.

Lemma dispositionSettleable_due e now : dispositionSettleable e now = DispositionSettleable -> disposition_due now e = true.
Proof.
  unfold dispositionSettleable, disposition_due. intros Hs.
  assert (Hd : forall b c d, (if b : bool then DispositionApplying else if c : bool then DispositionClaimLive
      else if d : bool then DispositionUnexpired else DispositionSettleable) = DispositionSettleable -> b = false /\ c = false /\ d = false)
    by (by intros [] [] []).
  destruct (inbox_State e); try done; apply Hd in Hs as (-> & Hc & Ht%Z.ltb_ge); rewrite bool_decide_true by set_solver; simpl.
  all: rewrite (proj2 (Z.leb_le _ _) Ht), andb_true_r; destruct (inbox_Claim e); [|done]; apply Z.leb_le, Z.ltb_ge, Hc.
Qed.

#[global] Instance RejectRequest_eq_dec : EqDecision RejectRequest.
Proof. solve_decision. Defined.

Definition reject_key (req : RejectRequest) : sessionKey := SessionKey (rj_TenantID req) (rj_SessionID req).

(** One row less. *)
Fixpoint spend (req : RejectRequest) (rows : list RejectRequest) : option (list RejectRequest) :=
  match rows with
  | [] => None
  | row :: rows => if bool_decide (row = req) then Some rows else (row ::.) <$> spend req rows
  end.

Lemma spend_spec req rest rows : req :: rest ⊆+ rows -> exists rows', spend req rows = Some rows' /\ rest ⊆+ rows'.
Proof.
  intros Hs. assert (Hin : req ∈ rows) by (eapply elem_of_submseteq; [by apply elem_of_cons; left|exact Hs]).
  cut (exists rows', spend req rows = Some rows' /\ rows ≡ₚ req :: rows').
  { intros (rows' & Hr & Hp). exists rows'. split; [done|]. rewrite Hp in Hs. by apply (submseteq_app_inv_l _ _ [req]). }
  clear Hs. induction rows as [|row rows IH]; [by apply elem_of_nil in Hin|]. simpl. case_bool_decide as Hr; [subst; eauto|].
  apply elem_of_cons in Hin as [?|Hin]; [congruence|]. destruct (IH Hin) as (rows' & -> & Hp). exists (row :: rows'). split; [done|].
  rewrite Hp. apply Permutation_swap.
Qed.

Section Licence.
Context (cfg : ReconcilerConfig).

Definition hold (k : sessionKey) (l : licence) : option licence :=
  if bool_decide (k ∈ l_ever l) then None else Some (MkLicence (l_now l) (l_rows l) ({[k]} ∪ l_held l) ({[k]} ∪ l_ever l)).

Definition license (l : licence) (e : event settleCall) : option licence :=
  match e with
  | Ev _ SweepNow now => Some (MkLicence now (l_rows l) (l_held l) (l_ever l))
  | Ev _ (ListDueCommands _) r =>
      match r with
      | Ok page => Some (MkLicence (l_now l) (l_rows l ++ omap (legacy_row (l_now l)) (lp_Commands page)) (l_held l) (l_ever l))
      | Fail _ => Some l
      end
  | Ev _ (ListDueDispositions _) r =>
      match r with
      | Ok page => Some (MkLicence (l_now l) (l_rows l ++ omap (disposition_row (l_now l)) (due_Commands page)) (l_held l) (l_ever l))
      | Fail _ => Some l
      end
  | Ev _ (AcquireReconciliationClaim t s h expires) r =>
      match r with
      | None => if bool_decide (h = HolderID cfg) && bool_decide (expires = l_now l + ClaimTTL cfg)
                then hold (SessionKey t s) l else None
      | Some _ => Some l
      end
  | Ev _ (ReleaseReconciliationClaim t s h) _ =>
      if bool_decide (h = HolderID cfg) && bool_decide (SessionKey t s ∈ l_held l)
      then Some (MkLicence (l_now l) (l_rows l) (l_held l ∖ {[SessionKey t s]}) (l_ever l)) else None
  | Ev _ (RejectCommand req _) _ | Ev _ (RejectDispositionCommand req) _ =>
      match spend req (l_rows l) with
      | Some rows => if bool_decide (reject_key req ∈ l_held l) then Some (MkLicence (l_now l) rows (l_held l) (l_ever l)) else None
      | None => None
      end
  | _ => Some l
  end.

Fixpoint licensed (l : licence) (t : list (event settleCall)) : option licence :=
  match t with
  | [] => Some l
  | e :: t => match license l e with Some l => licensed l t | None => None end
  end.

Lemma licensed_app l t u : licensed l (t ++ u) = match licensed l t with Some l' => licensed l' u | None => None end.
Proof. revert l. induction t as [|e t IH]; intros l; simpl; [done|]. by destruct (license l e). Qed.

(** ** Counting *)
Definition is_query (e : event settleCall) : bool :=
  match e with
  | Ev _ c _ =>
      match c with AuthorizeSweep _ | ShardCount | SweepNow => false | _ => true end
  end.
Definition is_claimed (e : event settleCall) : bool :=
  match e with Ev _ (AcquireReconciliationClaim _ _ _ _) r => match r with None => true | Some _ => false end | _ => false end.
Definition is_rejected (e : event settleCall) : bool :=
  match e with
  | Ev _ (RejectCommand _ _) r => match r with None => true | Some _ => false end
  | Ev _ (RejectDispositionCommand _) r => match r with Ok b => b | Fail _ => false end
  | _ => false
  end.
Definition is_released (e : event settleCall) : bool :=
  match e with Ev _ (ReleaseReconciliationClaim _ _ _) r => match r with None => true | Some _ => false end | _ => false end.

Definition all_dispositions : list Disposition :=
  [DispositionSettleable; DispositionRejected; DispositionUnexpired; DispositionClaimLive; DispositionApplying;
   DispositionTerminal; DispositionEvidence; DispositionRaceLost; DispositionDeferred; DispositionUnrecognized].

(** The rows a result has decided. *)
Definition decided (r : SweepResult) : Z := foldr (fun d n => default 0 (sr_Dispositions r !! d) + n) 0 all_dispositions.

Lemma bump_lookup m d d' : default 0 (bump m d !! d') = default 0 (m !! d') + (if bool_decide (d = d') then 1 else 0).
Proof.
  unfold bump. case_bool_decide as Hd; [subst; rewrite lookup_insert_eq; simpl; lia|].
  rewrite lookup_insert_ne by done. lia.
Qed.

Lemma decided_bump s p e u du rj c rl ds q rf t rs d :
  decided (MkSettleResult s p e u du rj c rl (bump ds d) q rf t rs)
  = decided (MkSettleResult s p e u du rj c rl ds q rf t rs) + 1.
Proof. unfold decided. simpl. rewrite !bump_lookup. destruct d; simpl; lia. Qed.

(** The sessions whose claim the sweep holds. *)
Definition taken (st : sweep_state) : gset sessionKey := dom (filter (fun kv => kv.2 = true) (held st)).

Lemma elem_of_taken k st : k ∈ taken st <-> held st !! k = Some true.
Proof.
  unfold taken. rewrite elem_of_dom. split.
  - intros [b Hb]. apply map_lookup_filter_Some in Hb as [Hb Ht]. simpl in Ht. by subst.
  - intros Hk. exists true. by apply map_lookup_filter_Some.
Qed.

(** What a part of a sweep did: the licence moved with the claims it took, and
    the counters with the calls it made. *)
Record moved (now : time) (rows rows' : list RejectRequest) (st : sweep_state) (t : list (event settleCall)) (st' : sweep_state) : Prop := {
  mv_licence : licensed (MkLicence now rows (taken st) (taken st)) t = Some (MkLicence now rows' (taken st') (taken st'));
  mv_queries : sr_Queries (st_result st') = sr_Queries (st_result st) + tally is_query t;
  mv_claimed : sr_Claimed (st_result st') = sr_Claimed (st_result st) + tally is_claimed t;
  mv_size : Z.of_nat (size (taken st')) = Z.of_nat (size (taken st)) + tally is_claimed t;
  mv_rejected : sr_Rejected (st_result st') = sr_Rejected (st_result st) + tally is_rejected t;
  mv_released : sr_Released (st_result st') = sr_Released (st_result st) /\ sr_ReleaseFailures (st_result st') = sr_ReleaseFailures (st_result st);
  mv_none : tally is_released t = 0
}.

Lemma sweep_moved_refl now rows st : moved now rows rows st [] st.
Proof. split; simpl; rewrite ?tally_nil; try lia. done. Qed.

Lemma sweep_moved_trans now rows1 rows2 rows3 st1 st2 st3 t u :
  moved now rows1 rows2 st1 t st2 -> moved now rows2 rows3 st2 u st3 -> moved now rows1 rows3 st1 (t ++ u) st3.
Proof.
  intros [L1 Q1 C1 S1 J1 [R1 F1] N1] [L2 Q2 C2 S2 J2 [R2 F2] N2]. split; rewrite ?tally_app; try lia.
  by rewrite licensed_app, L1, L2.
Qed.

(** A change of counters the calls do not determine. *)
Definition quiet (f : SweepResult -> SweepResult) : Prop := forall r,
  sr_Queries (f r) = sr_Queries r /\ sr_Claimed (f r) = sr_Claimed r /\ sr_Rejected (f r) = sr_Rejected r
  /\ sr_Released (f r) = sr_Released r /\ sr_ReleaseFailures (f r) = sr_ReleaseFailures r.

Lemma moved_quiet now rows rows' st t st' f :
  quiet f -> moved now rows rows' st t st' -> moved now rows rows' st t (with_result f st').
Proof.
  intros Hf [L Q C S J [R F] N]. destruct (Hf (st_result st')) as (? & ? & ? & ? & ?).
  split; unfold with_result; cbn [st_result]; try lia; done.
Qed.

Lemma quiet_addDisposition d : quiet (addDisposition d).
Proof. by intros []. Qed.
Lemma quiet_truncate : quiet truncate.
Proof. by intros []. Qed.
Lemma quiet_addPage a b c : quiet (addPage a b c).
Proof. by intros []. Qed.

(** One call the sweep counts, that takes no claim and rejects nothing. *)
Lemma moved_query now rows rows' st R (c : settleCall R) r :
  is_query (Ev R c r) = true -> is_claimed (Ev R c r) = false -> is_rejected (Ev R c r) = false -> is_released (Ev R c r) = false ->
  license (MkLicence now rows (taken st) (taken st)) (Ev R c r) = Some (MkLicence now rows' (taken st) (taken st)) ->
  moved now rows rows' st [Ev R c r] (with_result addQuery st).
Proof.
  intros Hq Hc Hr Hn Hl. split; [cbn [licensed]; by rewrite Hl|..]; destruct st as [[] held0];
    rewrite ?tally_cons, ?tally_nil, ?Hq, ?Hc, ?Hr, ?Hn; unfold taken; simpl; lia.
Qed.

Lemma taken_false k st : held st !! k = None -> taken (with_held k false st) = taken st.
Proof.
  intros Hk. apply set_eq. intros k'. rewrite !elem_of_taken. simpl. destruct (decide (k = k')) as [<-|Hn].
  - rewrite lookup_insert_eq, Hk. split; done.
  - by rewrite lookup_insert_ne.
Qed.

Lemma taken_true k st : taken (with_held k true st) = {[k]} ∪ taken st.
Proof.
  apply set_eq. intros k'. rewrite elem_of_union, elem_of_singleton, !elem_of_taken. simpl.
  destruct (decide (k = k')) as [<-|Hn]; [rewrite lookup_insert_eq; tauto|].
  rewrite lookup_insert_ne by done. split; [by right|]. intros [?|?]; [congruence|done].
Qed.

Lemma not_taken k st : held st !! k = None -> k ∉ taken st.
Proof. rewrite elem_of_taken. congruence. Qed.

Lemma moved_deferred now rows st t k st' :
  held st' !! k = None -> moved now rows rows st t st' -> moved now rows rows st t (with_held k false st').
Proof. intros Hk [L Q C S J F N]. split; rewrite ?taken_false by done; done. Qed.

(** The claim that is taken. *)
Lemma moved_claimed now rows st t s :
  held st !! SessionKey t s = None ->
  moved now rows rows st [Ev _ (AcquireReconciliationClaim t s (HolderID cfg) (now + ClaimTTL cfg)) None]
    (with_result addClaimed (with_held (SessionKey t s) true (with_result addQuery st))).
Proof.
  intros Hk. pose proof (not_taken _ _ Hk) as Hn.
  assert (Ht : taken (with_result addClaimed (with_held (SessionKey t s) true (with_result addQuery st)))
             = {[SessionKey t s]} ∪ taken st).
  { change (taken (with_held (SessionKey t s) true st) = {[SessionKey t s]} ∪ taken st). apply taken_true. }
  split; rewrite ?Ht, ?tally_cons, ?tally_nil; try (destruct st as [[] ?]; simpl; lia).
  - cbn -[taken]. rewrite !bool_decide_true by done. simpl. unfold hold. cbn [l_ever].
    rewrite bool_decide_false by done. done.
  - rewrite size_union by set_solver. rewrite size_singleton. simpl. lia.
Qed.

(** The rows decided and due so far. *)
Definition kept (st st' : sweep_state) : Prop :=
  decided (st_result st') = decided (st_result st) /\ sr_Due (st_result st') = sr_Due (st_result st).

Lemma claimLoop_moved rows t s now n : forall err st,
  held st !! SessionKey t s = None ->
  wp (claimLoop (HolderID cfg) (ClaimTTL cfg) n t s now err st) (fun r u =>
    moved now rows rows st u r.2 /\ kept st r.2 /\ (r.1 = Ok true -> SessionKey t s ∈ taken r.2)).
Proof.
  induction n as [|n IH]; intros err st Hk; simpl.
  - case_match; apply wp_ret; simpl; (split; [|split; [done|done]]); [|apply sweep_moved_refl].
    apply moved_deferred; [done|apply sweep_moved_refl].
  - intros answer.
    assert (Hq : answer <> None -> moved now rows rows st
        [Ev _ (AcquireReconciliationClaim t s (HolderID cfg) (now + ClaimTTL cfg)) answer] (with_result addQuery st)).
    { intros Ha. destruct answer; [|done]. by apply moved_query. }
    destruct (claimAnswer answer) as [| |err'|err'] eqn:Hans; unfold claimAnswer in Hans.
    + destruct answer; [branches|]. apply wp_ret. split; [by apply moved_claimed|]. split; [by destruct st as [[] ?]|].
      intros _. apply elem_of_taken. simpl. apply lookup_insert_eq.
    + apply wp_ret. split; [|split; [by destruct st as [[] ?]|done]]. destruct answer; [|done].
      apply moved_deferred; [done|]. by apply Hq.
    + destruct answer; [|done]. eapply wp_mono; [|apply (IH err' (with_result addQuery st) Hk)].
      intros r u (Hm & [Hk1 Hk2] & Ht). split; [eapply (sweep_moved_trans _ _ _ _ _ _ _ [_]); [by apply Hq|exact Hm]|].
      split; [|done]. destruct st as [[] ?]. by split.
    + apply wp_ret. destruct answer; [|done]. split; [by apply Hq|]. split; [by destruct st as [[] ?]|done].
Qed.

Lemma claim_moved rows t s now st :
  wp (claim (HolderID cfg) (ClaimTTL cfg) t s now st) (fun r u =>
    moved now rows rows st u r.2 /\ kept st r.2 /\ (r.1 = Ok true -> SessionKey t s ∈ taken r.2)).
Proof.
  unfold claim. destruct (held st !! SessionKey t s) as [b|] eqn:Hk; [|by apply claimLoop_moved].
  apply wp_ret. split; [apply sweep_moved_refl|]. split; [done|]. simpl. intros Hb. simplify_eq. by apply elem_of_taken.
Qed.

(** A call that spends the row [req]. *)
Definition spends (req : RejectRequest) (e : event settleCall) : Prop :=
  forall l rows, spend req (l_rows l) = Some rows -> reject_key req ∈ l_held l ->
    license l e = Some (MkLicence (l_now l) rows (l_held l) (l_ever l)).

(** A reject edge makes one call, for [req]. *)
Definition rejects (req : RejectRequest) (reject : settling (result Disposition)) : Prop :=
  wp reject (fun a u => exists e, u = [e] /\ is_query e = true /\ is_claimed e = false /\ is_released e = false
    /\ is_rejected e = match a with Ok DispositionRejected => true | _ => false end
    /\ spends req e).

Lemma settlementRefusal_never_rejects err d : settlementRefusal err = Some d -> d <> DispositionRejected.
Proof. unfold settlementRefusal. intros Hd. by branches. Qed.

Lemma dispositionRefusal_never_rejects err d : dispositionRefusal err = Some d -> d <> DispositionRejected.
Proof. unfold dispositionRefusal. intros Hd. by branches. Qed.

Lemma license_reject_legacy req rejection (r : option error) : spends req (Ev _ (RejectCommand req rejection) r).
Proof. intros l rows Hr Hk. cbn [license]. by rewrite Hr, bool_decide_true. Qed.

Lemma license_reject_disposition req (r : result bool) : spends req (Ev _ (RejectDispositionCommand req) r).
Proof. intros l rows Hr Hk. cbn [license]. by rewrite Hr, bool_decide_true. Qed.

Lemma rejectLegacy_rejects e :
  rejects (MkReject (leg_TenantID e) (leg_SessionID e) (leg_CommandID e) (leg_Revision e)) (rejectLegacy e).
Proof.
  unfold rejects, rejectLegacy. intros [err|].
  - destruct (settlementRefusal err) as [d|] eqn:Hd; apply wp_ret; eexists; repeat (split; [done|]).
    + apply settlementRefusal_never_rejects in Hd. split; [by destruct d|]. apply license_reject_legacy.
    + apply license_reject_legacy.
  - apply wp_ret. eexists. repeat (split; [done|]). apply license_reject_legacy.
Qed.

Lemma rejectDisposition_rejects e : let d := inbox_Descriptor e in
  rejects (MkReject (desc_TenantID d) (desc_SessionID d) (desc_CommandID d) (inbox_Revision e)) (rejectDisposition e).
Proof.
  unfold rejects, rejectDisposition. intros [[|]|err].
  1,2: apply wp_ret; eexists; repeat (split; [done|]); apply license_reject_disposition.
  destruct (dispositionRefusal err) as [d|] eqn:Hd; apply wp_ret; eexists; repeat (split; [done|]).
  - apply dispositionRefusal_never_rejects in Hd. split; [by destruct d|]. apply license_reject_disposition.
  - apply license_reject_disposition.
Qed.

(** What settling one row, or the rows of a page, did; [rest] is still to spend. *)
Definition settled (now : time) (rows rest : list RejectRequest) (n : Z) (st : sweep_state)
    (r : sweep_state * option error) (u : list (event settleCall)) : Prop :=
  (exists rows', moved now rows rows' st u r.1 /\ rest ⊆+ rows') /\ sr_Due (st_result r.1) = sr_Due (st_result st)
  /\ (r.2 = None -> decided (st_result r.1) = decided (st_result st) + n).

(** Counting the answer of a reject edge. *)
Lemma moved_rejected now rows rows' st req e f :
  spend req rows = Some rows' -> reject_key req ∈ taken st -> is_query e = true -> is_claimed e = false -> is_released e = false ->
  spends req e ->
  (forall r, sr_Rejected (f r) = sr_Rejected r + (if is_rejected e then 1 else 0)
     /\ sr_Queries (f r) = sr_Queries r /\ sr_Claimed (f r) = sr_Claimed r
     /\ sr_Released (f r) = sr_Released r /\ sr_ReleaseFailures (f r) = sr_ReleaseFailures r) ->
  moved now rows rows' st [e] (with_result f (with_result addQuery st)).
Proof.
  intros Hr Hk Hq Hc Hn Hl Hf. destruct (Hf (addQuery (st_result st))) as (? & ? & ? & ? & ?).
  split; [cbn [licensed]; by rewrite (Hl (MkLicence now rows (taken st) (taken st)) rows' Hr Hk)|..];
    rewrite ?tally_cons, ?tally_nil, ?Hq, ?Hc, ?Hn; unfold with_result, taken in *; cbn [st_result held];
    destruct (st_result st); simpl in *; lia.
Qed.

Lemma decided_addDisposition d r : decided (addDisposition d r) = decided r + 1.
Proof. destruct r. apply decided_bump. Qed.
Lemma decided_addRejected r : decided (addRejected r) = decided r + 1.
Proof. destruct r. unfold decided. simpl. rewrite !bump_lookup. simpl. lia. Qed.

Lemma settleWith_settled verdict t s now reject st rows rest req :
  reject_key req = SessionKey t s -> rejects req reject -> rest ⊆+ rows -> (verdict = DispositionSettleable -> req :: rest ⊆+ rows) ->
  wp (settleWith cfg verdict t s now reject st) (settled now rows rest 1 st).
Proof.
  intros Hkey Hrej Hrest Hrow. unfold settleWith. case_bool_decide as Hv; simpl negb; cbv iota.
  2:{ apply wp_ret. split; [|split; [by destruct st as [[] ?]|intros _; apply decided_addDisposition]].
      exists rows. split; [|done]. apply moved_quiet; [apply quiet_addDisposition|apply sweep_moved_refl]. }
  destruct (spend_spec _ _ _ (Hrow Hv)) as (rows' & Hspend & Hleft).
  eapply wp_seq; [apply (claim_moved rows)|]. intros [claimed st1] u (Hm & [Hk1 Hk2] & Ht). simpl in *.
  destruct claimed as [[|]|err].
  - specialize (Ht eq_refl). rewrite <- Hkey in Ht. eapply wp_seq; [exact Hrej|]. simpl.
    intros a v (e & -> & Hq & Hc & Hn & Hr & Hl).
    assert (Hend : forall f, (forall r, sr_Rejected (f r) = sr_Rejected r + (if is_rejected e then 1 else 0)
       /\ sr_Queries (f r) = sr_Queries r /\ sr_Claimed (f r) = sr_Claimed r
       /\ sr_Released (f r) = sr_Released r /\ sr_ReleaseFailures (f r) = sr_ReleaseFailures r) ->
       exists rows', moved now rows rows' st (u ++ [e]) (with_result f (with_result addQuery st1)) /\ rest ⊆+ rows').
    { intros f Hf. exists rows'. split; [|done]. eapply sweep_moved_trans; [exact Hm|]. eapply moved_rejected; eauto. }
    destruct a as [d|err].
    + destruct d; apply wp_ret; rewrite app_nil_r;
        (split; [apply Hend; intros []; rewrite Hr; simpl; repeat split; lia|]);
        (split; [destruct st1 as [[] ?]; simpl in *; lia|intros _]);
        unfold with_result; cbn [fst st_result]; rewrite ?decided_addDisposition, ?decided_addRejected;
        destruct st1 as [[] ?]; simpl in *; unfold decided in *; simpl in *; lia.
    + apply wp_ret. rewrite app_nil_r. split; [|split; [destruct st1 as [[] ?]; simpl in *; lia|done]].
      apply (Hend (fun r => r)). intros []. rewrite Hr. simpl. repeat split; lia.
  - apply wp_ret. rewrite app_nil_r. split; [exists rows; split; [apply moved_quiet; [apply quiet_addDisposition|exact Hm]|done]|].
    split; [destruct st1 as [[] ?]; simpl in *; lia|]. intros _. unfold with_result. cbn [fst st_result].
    rewrite decided_addDisposition. lia.
  - apply wp_ret. rewrite app_nil_r. split; [by exists rows|]. split; done.
Qed.

Lemma settleAll_settled {E} (settle : E -> time -> sweep_state -> settling (sweep_state * option error)) (row : E -> option RejectRequest)
    now rest es : forall rows st,
  (omap row es ++ rest)%list ⊆+ rows ->
  (forall e st rows rest, e ∈ es -> (option_list (row e) ++ rest)%list ⊆+ rows -> wp (settle e now st) (settled now rows rest 1 st)) ->
  wp (settleAll settle es now st) (settled now rows rest (Z.of_nat (length es)) st).
Proof.
  induction es as [|e es IH]; intros rows st Hrows He; simpl settleAll.
  - apply wp_ret. split; [exists rows; split; [apply sweep_moved_refl|done]|]. split; [done|]. simpl. lia.
  - eapply wp_seq; [apply (He e st rows (omap row es ++ rest)%list); [by apply elem_of_cons; left|]|].
    { simpl in Hrows. by destruct (row e). }
    intros [st1 [err|]] u ((rows1 & Hm & Hr1) & Hd & Hn).
    + apply wp_ret. rewrite app_nil_r. split; [|done]. exists rows1. split; [done|].
      etrans; [|exact Hr1]. by apply submseteq_inserts_l.
    + eapply wp_mono; [|apply (IH rows1 st1 Hr1)].
      * intros [st2 err] v ((rows2 & Hm2 & Hr2) & Hd2 & Hn2). split; [exists rows2; split; [by eapply sweep_moved_trans|done]|].
        split; [simpl in *; congruence|]. simpl in *. intros He2. rewrite (Hn2 He2), (Hn eq_refl). lia.
      * intros e' st' rows' rest' He'. apply He. apply elem_of_cons. by right.
Qed.

Lemma settleLegacy_settled now rows rest e st :
  (option_list (legacy_row now e) ++ rest)%list ⊆+ rows -> wp (settleLegacy cfg e now st) (settled now rows rest 1 st).
Proof.
  intros Hs. eapply settleWith_settled; [|apply rejectLegacy_rejects| |]; [done|..].
  - etrans; [|exact Hs]. by apply submseteq_inserts_l.
  - intros Hv. unfold legacy_row in Hs. by rewrite (settleable_due _ _ Hv) in Hs.
Qed.

Lemma settleDisposition_settled now rows rest e st :
  (option_list (disposition_row now e) ++ rest)%list ⊆+ rows -> wp (settleDisposition cfg e now st) (settled now rows rest 1 st).
Proof.
  intros Hs. eapply settleWith_settled; [|apply rejectDisposition_rejects| |]; [done|..].
  - etrans; [|exact Hs]. by apply submseteq_inserts_l.
  - intros Hv. unfold disposition_row in Hs. by rewrite (dispositionSettleable_due _ _ Hv) in Hs.
Qed.

(** What paging a shard did. *)
Definition paged (now : time) (rows : list RejectRequest) (st : sweep_state) (r : sweep_state * option error)
    (u : list (event settleCall)) : Prop :=
  exists rows', moved now rows rows' st u r.1
    /\ (r.2 = None -> decided (st_result st) = sr_Due (st_result st) -> decided (st_result r.1) = sr_Due (st_result r.1)).

Lemma paged_truncated now rows st : paged now rows st (with_result truncate st, None) [].
Proof.
  exists rows. split; [apply moved_quiet; [apply quiet_truncate|apply sweep_moved_refl]|]. destruct st as [[] ?]. by intros _ ?.
Qed.

Lemma paged_seq now rows rows' st st1 r t u :
  moved now rows rows' st t st1 ->
  (decided (st_result st) = sr_Due (st_result st) -> decided (st_result st1) = sr_Due (st_result st1)) ->
  paged now rows' st1 r u -> paged now rows st r (t ++ u).
Proof. intros Hm Hd (rows2 & Hm2 & Hd2). exists rows2. split; [by eapply sweep_moved_trans|]. auto. Qed.

(** A listed page whose rows are then settled; [view] is the state and the
    error of what the paging routine returns. *)
Lemma page_settled {E R B} (view : B -> sweep_state * option error) now rows rows' st (c : settleCall R) (r : R) (es : list E)
    a b (settle : E -> time -> sweep_state -> settling (sweep_state * option error)) (row : E -> option RejectRequest)
    (f : sweep_state * option error -> settling B) :
  moved now rows rows' st [Ev R c r] (with_result addQuery st) -> omap row es ⊆+ rows' ->
  (forall e st rows rest, e ∈ es -> (option_list (row e) ++ rest)%list ⊆+ rows -> wp (settle e now st) (settled now rows rest 1 st)) ->
  (forall st err, wp (f (st, Some err)) (fun x u => view x = (st, Some err) /\ u = [])) ->
  (forall rows st, wp (f (st, None)) (fun x => paged now rows st (view x))) ->
  wp (bind (settleAll settle es now (with_result (addPage a b (Z.of_nat (length es))) (with_result addQuery st))) f)
    (fun x u => paged now rows st (view x) (Ev R c r :: u)).
Proof.
  intros Hc Hrows Hes Herr Hok. eapply wp_seq; [apply (settleAll_settled _ row now [] es rows'); [by rewrite app_nil_r|exact Hes]|].
  intros [st1 err] u ((rows2 & Hm & _) & Hd & Hn). simpl in Hm, Hd, Hn.
  assert (Hm1 : moved now rows rows2 st (Ev R c r :: u) st1).
  { eapply (sweep_moved_trans _ _ _ _ _ _ _ [_]); [|exact Hm]. by apply moved_quiet; [apply quiet_addPage|]. }
  destruct err as [err|].
  - eapply wp_mono; [|apply Herr]. intros x v [-> ->]. rewrite app_nil_r. by exists rows2.
  - eapply wp_mono; [|apply (Hok rows2)]. intros x v Hp.
    apply (paged_seq now rows rows2 st st1 (view x) (Ev R c r :: u) v Hm1); [|done].
    specialize (Hn eq_refl). destruct st as [[] ?]. simpl in *. unfold decided in *. simpl in *. lia.
Qed.

Lemma paged_done now rows st : paged now rows st (st, None) [].
Proof. exists rows. split; [apply sweep_moved_refl|auto]. Qed.

Lemma legacyPages_paged now shard n : forall rows cursor st,
  wp (legacyPages cfg n shard cursor now st) (paged now rows st).
Proof.
  induction n as [|n IH]; intros rows cursor st; simpl; [apply paged_truncated|]. intros [page|err].
  - eapply (page_settled (fun x => x) now rows (rows ++ omap (legacy_row now) (lp_Commands page)));
      [by apply moved_query|by apply submseteq_inserts_l| |by intros|].
    + intros e st' rows' rest _. apply settleLegacy_settled.
    + intros rows' st'. case_bool_decide; [apply paged_done|apply IH].
  - apply wp_ret. exists rows. split; [by apply moved_query|done].
Qed.

Lemma dispositionPages_paged now shard n : forall rows cursor st,
  wp (dispositionPages cfg n shard cursor now st) (fun x => paged now rows st (x.1.1, x.2)).
Proof.
  induction n as [|n IH]; intros rows cursor st; simpl; [apply paged_truncated|]. intros [page|err].
  - eapply (page_settled (fun x : sweep_state * Cursor * option error => (x.1.1, x.2)) now rows
      (rows ++ omap (disposition_row now) (due_Commands page))); [by apply moved_query|by apply submseteq_inserts_l| |by intros|].
    + intros e st' rows' rest _. apply settleDisposition_settled.
    + intros rows' st'. case_bool_decide; [apply paged_done|apply IH].
  - case_match; apply wp_ret; exists rows; (split; [by apply moved_query|done]).
Qed.

(** ** Releasing *)
Definition taken_keys (l : list (sessionKey * bool)) : gset sessionKey :=
  list_to_set (omap (fun kv : sessionKey * bool => if kv.2 then Some kv.1 else None) l).

Lemma taken_keys_notin k l : k ∉ l.*1 -> k ∉ taken_keys l.
Proof.
  intros Hk Hin. apply elem_of_list_to_set, list_elem_of_omap in Hin as ([k' b'] & Hin & Heq). simpl in Heq.
  destruct b'; simplify_eq. apply Hk. apply list_elem_of_fmap. by exists (k, true).
Qed.

(** Every claim in the list is given back, once; the counters say how it went. *)
Record released (now : time) (rows : list RejectRequest) (keys ever : gset sessionKey) (r : SweepResult) (r' : SweepResult)
    (u : list (event settleCall)) : Prop := {
  rl_licence : licensed (MkLicence now rows keys ever) u = Some (MkLicence now rows ∅ ever);
  rl_queries : sr_Queries r' = sr_Queries r + tally is_query u;
  rl_released : sr_Released r' = sr_Released r + tally is_released u;
  rl_total : sr_Released r' + sr_ReleaseFailures r' = sr_Released r + sr_ReleaseFailures r + Z.of_nat (size keys);
  rl_same : sr_Claimed r' = sr_Claimed r /\ sr_Rejected r' = sr_Rejected r /\ decided r' = decided r /\ sr_Due r' = sr_Due r;
  rl_none : tally is_claimed u = 0 /\ tally is_rejected u = 0
}.

Lemma released_cons now rows keys ever k r r1 r' err u :
  k ∉ keys -> r1 = (if bool_decide (err = None) then addReleased (addQuery r) else addReleaseFailure (addQuery r)) ->
  released now rows keys ever r1 r' u ->
  released now rows ({[k]} ∪ keys) ever r r'
    (Ev _ (ReleaseReconciliationClaim (key_tenant k) (key_session k) (HolderID cfg)) err :: u).
Proof.
  intros Hk Hr1 [HL HQ HR HS (HC & HJ & HD & HDue) [Hc Hj]].
  assert (Hkk : SessionKey (key_tenant k) (key_session k) = k) by by destruct k.
  split; rewrite ?tally_cons; rewrite ?size_union, ?size_singleton by set_solver.
  - cbn [licensed license l_held l_now l_rows l_ever]. rewrite Hkk, !bool_decide_true by set_solver. simpl.
    replace (({[k]} ∪ keys) ∖ {[k]}) with keys by set_solver. exact HL.
  - destruct err; subst r1; destruct r; simpl in *; lia.
  - destruct err; subst r1; destruct r; simpl in *; lia.
  - destruct err; subst r1; destruct r; simpl in *; lia.
  - destruct err; subst r1; destruct r; unfold decided in *; simpl in *; lia.
  - simpl. lia.
Qed.

Lemma releaseLoop_released now rows ever l : forall r,
  NoDup (l.*1) -> wp (releaseLoop (HolderID cfg) l r) (released now rows (taken_keys l) ever r).
Proof.
  induction l as [|[k b] l IH]; intros r Hnd; simpl releaseLoop.
  - apply wp_ret. unfold taken_keys. simpl. split; rewrite ?tally_nil, ?size_empty; simpl; try lia. done.
  - apply NoDup_cons in Hnd as [Hk Hnd]. destruct b; simpl negb; cbv iota; [|by apply IH].
    intros err. change (taken_keys ((k, true) :: l)) with ({[k]} ∪ taken_keys l).
    assert (Hn : k ∉ taken_keys l) by by apply taken_keys_notin.
    destruct err as [e|]; (eapply wp_mono; [|by apply IH]); intros r' u Hr; by eapply released_cons.
Qed.

Lemma taken_keys_order order st :
  order (held st) ≡ₚ map_to_list (held st) -> taken_keys (order (held st)) = taken st /\ NoDup ((order (held st)).*1).
Proof.
  intros Hp. split; [|rewrite Hp; apply NoDup_fst_map_to_list].
  apply set_eq. intros k. rewrite elem_of_taken. unfold taken_keys. rewrite elem_of_list_to_set, list_elem_of_omap. split.
  - intros ([k' b] & Hin & Heq). simpl in Heq. destruct b; simplify_eq. rewrite Hp in Hin.
    by apply elem_of_map_to_list in Hin.
  - intros Hk. exists (k, true). split; [|done]. rewrite Hp. by apply elem_of_map_to_list.
Qed.

(** ** The sweep as a whole *)

(** What a sweep promises of its calls and its result. *)
Record sweep_ok (r : SweepResult) (err : option error) (t : list (event settleCall)) : Prop := {
  so_licence : exists l, licensed (MkLicence 0 [] ∅ ∅) t = Some l /\ l_held l = ∅;
  so_queries : sr_Queries r = tally is_query t;
  so_claimed : sr_Claimed r = tally is_claimed t;
  so_rejected : sr_Rejected r = tally is_rejected t;
  so_released : sr_Released r = tally is_released t /\ sr_Released r + sr_ReleaseFailures r = sr_Claimed r;
  so_decided : err = None -> decided r = sr_Due r
}.
End Licence.

Lemma taken_zero shard b : taken (zeroState shard b) = ∅.
Proof. apply set_eq. intros k. rewrite elem_of_taken. simpl. rewrite lookup_empty. set_solver. Qed.

(** Paging from a fresh state, then releasing. *)
Lemma sweep_release cfg order now shard b st err t :
  (forall m, order m ≡ₚ map_to_list m) ->
  paged cfg now [] (zeroState shard b) (st, err) t ->
  wp (release (HolderID cfg) order st) (fun r u =>
    forall p n, sweep_ok cfg r err (Ev _ (AuthorizeSweep p) None :: Ev _ ShardCount n :: Ev _ SweepNow now :: t ++ u)).
Proof.
  intros Ho (rows & [L Q C S J [R F] N] & Hd). destruct (taken_keys_order order st (Ho _)) as [Hk Hnd].
  eapply wp_mono; [|apply (releaseLoop_released cfg now rows (taken st)); exact Hnd]. rewrite Hk.
  intros r u [HL HQ HR HS (HC & HJ & HD & HDue) [Hc Hj]] p n. rewrite taken_zero in L, S. rewrite size_empty in S. simpl in *.
  split; rewrite ?tally_cons, ?tally_app; simpl.
  - exists (MkLicence now rows ∅ (taken st)). split; [|done]. by rewrite licensed_app, L.
  - lia.
  - lia.
  - lia.
  - lia.
  - intros He. rewrite HD, HDue. by apply Hd.
Qed.

Lemma sweep_ok_quiet cfg err t :
  Forall (fun e => is_query e = false) t -> licensed cfg (MkLicence 0 [] ∅ ∅) t = Some (MkLicence 0 [] ∅ ∅) ->
  tally is_claimed t = 0 -> tally is_rejected t = 0 -> tally is_released t = 0 ->
  sweep_ok cfg (zeroSettle 0 false) (Some err) t.
Proof. intros Hq Hl Hc Hj Hr. split; rewrite ?(tally_none _ _ Hq), ?Hc, ?Hj, ?Hr; simpl; try lia; try done. eauto. Qed.

Lemma DispositionSweep_ok `{ControlLimits} (cfg : ReconcilerConfig)
    (order : gmap sessionKey bool -> list (sessionKey * bool)) (p : Principal) (r : rotor)
    (Ho : forall m, order m ≡ₚ map_to_list m) :
  wp (DispositionSweep cfg order p r) (fun a t => sweep_ok cfg a.1.1 a.1.2 t).
Proof.
  unfold DispositionSweep. intros [err|]; [apply wp_ret; by apply sweep_ok_quiet; [repeat constructor|..]|]. intros shards.
  destruct (begin_ shards r) as [[[shard cursor]|err] r1]; [|apply wp_ret; by apply sweep_ok_quiet; [repeat constructor|..]].
  intros now. eapply wp_seq; [apply (dispositionPages_paged cfg now shard _ [])|]. intros [[st next] err] t Hp.
  cbv beta iota zeta. eapply wp_seq; [by eapply sweep_release|]. simpl. intros res u Hu.
  rewrite app_nil_r. apply Hu.
Qed.

(** C27: A deadline sweep of the disposition family, on every path, errors
    included, and in whatever order the claims are released: it rejects only
    rows listed to it that are pending or claimed under a lapsed claim, carry
    no attempt and whose deadline has passed at the sweep's instant, each listed
    row at most once, at the revision it read, and only while it holds their
    session's claim; it takes a session's claim at most once in the sweep, never
    again after giving it back, for its own holder and the configured time, and
    gives every claim back; its counters are the calls it made; and when it
    reports no error every due row is accounted for. *)
Theorem disposition_sweep_is_licensed `{ControlLimits} (cfg : ReconcilerConfig)
    (order : gmap sessionKey bool -> list (sessionKey * bool)) (p : Principal) (r : rotor)
    (Ho : forall m, order m ≡ₚ map_to_list m) :
  wp (DispositionSweep cfg order p r) (fun a t => sweep_ok cfg a.1.1 a.1.2 t).
Proof. by apply DispositionSweep_ok. Qed.

Lemma LegacySweep_ok `{ControlLimits} (cfg : ReconcilerConfig)
    (order : gmap sessionKey bool -> list (sessionKey * bool)) (p : Principal) (r : rotor)
    (Ho : forall m, order m ≡ₚ map_to_list m) :
  wp (LegacySweep cfg order p r) (fun a t => sweep_ok cfg a.1.1 a.1.2 t).
Proof.
  unfold LegacySweep. intros [err|]; [apply wp_ret; by apply sweep_ok_quiet; [repeat constructor|..]|]. intros shards.
  destruct (rotate shards r) as [[shard|err] r1]; [|apply wp_ret; by apply sweep_ok_quiet; [repeat constructor|..]].
  intros now. eapply wp_seq; [apply (legacyPages_paged cfg now shard _ [])|]. intros [st err] t Hp.
  cbv beta iota zeta. eapply wp_seq; [by eapply sweep_release|]. simpl. intros res u Hu.
  rewrite app_nil_r. apply Hu.
Qed.

(** The same of the legacy family's sweep, whose rows are neither applied,
    rejected nor being applied, under no live claim and past their deadline. *)
Theorem legacy_sweep_is_licensed `{ControlLimits} (cfg : ReconcilerConfig)
    (order : gmap sessionKey bool -> list (sessionKey * bool)) (p : Principal) (r : rotor)
    (Ho : forall m, order m ≡ₚ map_to_list m) :
  wp (LegacySweep cfg order p r) (fun a t => sweep_ok cfg a.1.1 a.1.2 t).
Proof. by apply LegacySweep_ok. Qed.

(** ** The rotors *)

(** The admission rotor is the pending sweeper's: [begin] and [commit] answer
    and move alike, so its shards rotate and resume as
    [sweep_rotates_and_resumes] states. *)
Definition as_pending (r : rotor) : PendingSweeper := MkSweeper (rotor_next r) (rotor_cursors r).

Lemma rotor_begin_is_pending `{ControlLimits} shards r :
  begin shards (as_pending r) = ((begin_ shards r).1, as_pending (begin_ shards r).2).
Proof. unfold begin, begin_, rotate, as_pending. simpl. by destruct (shards <? MinControlShards). Qed.

Lemma rotor_commit_is_pending shard cursor r :
  commit shard cursor (as_pending r) = as_pending (commit_ shard cursor r).
Proof. unfold commit, commit_, as_pending. simpl. by case_bool_decide. Qed.

(** Where a sweep of a shard left off: the cursor of the page it could not
    finish, or the start once the shard was exhausted or its cursor refused. *)
Inductive leaves_at : Cursor -> list (event settleCall) -> option error -> Cursor -> Prop :=
| leaves_truncated cursor : leaves_at cursor [] None cursor
| leaves_refused cursor req err e : refusedDispositionCursor err = true ->
    leaves_at cursor [Ev _ (ListDueDispositions req) (Fail err)] (Some e) ""
| leaves_failed cursor req err e : refusedDispositionCursor err = false ->
    leaves_at cursor [Ev _ (ListDueDispositions req) (Fail err)] (Some e) cursor
| leaves_unsettled cursor req page u e :
    due_Cursor req = cursor -> leaves_at cursor (Ev _ (ListDueDispositions req) (Ok page) :: u) (Some e) cursor
| leaves_exhausted cursor req page u :
    due_NextCursor page = "" -> leaves_at cursor (Ev _ (ListDueDispositions req) (Ok page) :: u) None ""
| leaves_later cursor req page u v err next :
    due_NextCursor page <> "" -> due_Cursor req = cursor -> leaves_at (due_NextCursor page) v err next ->
    leaves_at cursor (Ev _ (ListDueDispositions req) (Ok page) :: u ++ v) err next.

Lemma dispositionPages_leaves cfg shard now n : forall cursor st,
  wp (dispositionPages cfg n shard cursor now st)
    (fun x u => leaves_at cursor u (x : sweep_state * string * option error).2 x.1.2).
Proof.
  induction n as [|n IH]; intros cursor st; simpl dispositionPages; [constructor|]. intros [page|err].
  - eapply wp_seq; [apply wp_true|]. intros [st1 [err|]] u _; [apply wp_ret; rewrite app_nil_r; by apply leaves_unsettled|].
    case_bool_decide as Hc; [apply wp_ret; rewrite app_nil_r; by apply leaves_exhausted|].
    eapply wp_mono; [|apply IH]. intros x v Hv. by apply leaves_later.
  - destruct (refusedDispositionCursor err) eqn:Hr; apply wp_ret; by constructor.
Qed.

(** ** A sweep to run *)
Definition demo_sweep_config : ReconcilerConfig := MkReconcilerConfig true true true true true "replica" 30 10 4.

(** Two expired commands of one session, one of them being applied, and one
    still live. *)
Definition demo_due : DuePage :=
  MkDuePage [MkEntry (MkDescriptor "t" "a" "c1" KindInput demo_binding false false 0) 5 InboxStatePending 1 false None 11;
             MkEntry (MkDescriptor "t" "a" "c2" KindInput demo_binding false false 0) 5 InboxStateClaimed 2 true None 12;
             MkEntry (MkDescriptor "t" "b" "c3" KindInput demo_binding false false 0) 50 InboxStatePending 3 false None 13] "" 3 0.

Definition demo_settle_world : handler settleCall unit := fun R c =>
  match c in settleCall R return unit -> R * unit with
  | AuthorizeSweep _ => fun w => (None, w)
  | ShardCount => fun w => (2, w)
  | SweepNow => fun w => (10, w)
  | ListDueCommands _ => fun w => (Ok (MkLegacyPage [] "" 0 0), w)
  | ListDueDispositions _ => fun w => (Ok demo_due, w)
  | AcquireReconciliationClaim _ _ _ _ | ReleaseReconciliationClaim _ _ _ => fun w => (None, w)
  | RejectCommand _ _ => fun w => (None, w)
  | RejectDispositionCommand _ => fun w => (Ok true, w)
  end.

Definition demo_swept : SweepResult * option error * rotor * list (event settleCall) * unit :=
  run demo_settle_world (@DispositionSweep demo_control demo_sweep_config map_to_list (MkPrincipal "t" "svc" KindService)
    (MkRotor 0 ∅)) tt.

Lemma disposition_sweep_is_licensed_witness :
  sweep_ok demo_sweep_config demo_swept.1.1.1.1 demo_swept.1.1.1.2 demo_swept.1.2
  /\ sr_Rejected demo_swept.1.1.1.1 = 1 /\ sr_Claimed demo_swept.1.1.1.1 = 1 /\ sr_Released demo_swept.1.1.1.1 = 1.
Proof.
  split; [|by vm_compute].
  refine (wp_run demo_settle_world _ (fun a t => sweep_ok demo_sweep_config a.1.1 a.1.2 t) tt
    (@disposition_sweep_is_licensed demo_control demo_sweep_config map_to_list _ _ _)). reflexivity.
Defined.

Lemma legacy_sweep_is_licensed_witness :
  sweep_ok demo_sweep_config
    (run demo_settle_world (@LegacySweep demo_control demo_sweep_config map_to_list (MkPrincipal "t" "svc" KindService) (MkRotor 1 ∅)) tt).1.1.1.1
    (run demo_settle_world (@LegacySweep demo_control demo_sweep_config map_to_list (MkPrincipal "t" "svc" KindService) (MkRotor 1 ∅)) tt).1.1.1.2
    (run demo_settle_world (@LegacySweep demo_control demo_sweep_config map_to_list (MkPrincipal "t" "svc" KindService) (MkRotor 1 ∅)) tt).1.2.
Proof.
  refine (wp_run demo_settle_world _ (fun a t => sweep_ok demo_sweep_config a.1.1 a.1.2 t) tt
    (@legacy_sweep_is_licensed demo_control demo_sweep_config map_to_list _ _ _)). reflexivity.
Defined.
