(* ===== verification/GateSweep.v ===== *)
(** * The gate-intent sweep (src/internal/reconcile/gates.go)

    [GateSweeper]: retires the deadline intents of gates that are no longer open
    (remnants), counts the ones open past their deadline, and resumes each shard
    where it left off. *)

From S2P Require Import Prelude Wire Program Directory Identity Pending.
Local Open Scope prog_scope.
Local Open Scope string_scope.
Local Open Scope Z_scope.

Definition ErrInvalidGateSweeperConfig : error := sentinel "reconcile.ErrInvalidGateSweeperConfig".

Record GateSweeperConfig := MkGateConfig {
  g_hasAuthorizer : bool; g_hasDue : bool; g_hasIntents : bool; g_hasClock : bool;
  g_PageLimit : Z; g_MaxPages : Z
}.

Inductive GateDisposition :=
| GateDispositionRetired | GateDispositionTooSoon | GateDispositionReopened | GateDispositionRaceLost
| GateDispositionAbsent.

#[global] Instance GateDisposition_eq_dec : EqDecision GateDisposition.
Proof. solve_decision. Defined.
Definition gate_code (d : GateDisposition) : nat :=
  match d with
  | GateDispositionRetired => 0 | GateDispositionTooSoon => 1 | GateDispositionReopened => 2
  | GateDispositionRaceLost => 3 | GateDispositionAbsent => 4
  end.
Definition gate_of_code (n : nat) : GateDisposition :=
  match n with
  | 0 => GateDispositionRetired | 1 => GateDispositionTooSoon | 2 => GateDispositionReopened
  | 3 => GateDispositionRaceLost | _ => GateDispositionAbsent
  end%nat.
#[global] Program Instance GateDisposition_countable : Countable GateDisposition :=
  inj_countable' gate_code gate_of_code _.
Next Obligation. by intros []. Qed.

(** [GateDisposition.String]. *)
Definition GateDisposition_String (d : GateDisposition) : string :=
  match d with
  | GateDispositionRetired => "retired"
  | GateDispositionTooSoon => "too_soon"
  | GateDispositionReopened => "reopened"
  | GateDispositionRaceLost => "race_lost"
  | GateDispositionAbsent => "absent"
  end.

(** sessionstore.RemnantGateIntent and DueGatePage. *)
Record RemnantGateIntent := MkRemnant {
  rem_TenantID : TenantID; rem_SessionID : SessionID; rem_GateID : string; rem_Revision : Z }.

#[global] Instance RemnantGateIntent_eq_dec : EqDecision RemnantGateIntent.
Proof. solve_decision. Defined.

Record DueGatePage := MkGatePage {
  gp_Remnants : list RemnantGateIntent;
  gp_Gates : Z;                     (* len(Gates): open past their deadline *)
  gp_NextCursor : Cursor;
  gp_Examined : Z;
  gp_Unreadable : Z
}.

Record GateSweepResult := MkGateResult {
  gs_Shard : Z; gs_Pages : Z; gs_Examined : Z; gs_Unreadable : Z; gs_Remnants : Z; gs_OpenPastDeadline : Z;
  gs_Retired : Z; gs_Dispositions : gmap GateDisposition Z; gs_Queries : Z;
  gs_Resumed : bool; gs_Exhausted : bool; gs_Truncated : bool
}.

Definition zeroGateResult (shard : Z) (resumed : bool) : GateSweepResult :=
  MkGateResult shard 0 0 0 0 0 0 ∅ 0 resumed false false.

Definition gateQuery (r : GateSweepResult) : GateSweepResult :=
  let 'MkGateResult s p e u rm o rt d q rs ex t := r in MkGateResult s p e u rm o rt d (q + 1) rs ex t.
Definition gatePage (page : DueGatePage) (r : GateSweepResult) : GateSweepResult :=
  let 'MkGateResult s p e u rm o rt d q rs ex t := r in
  MkGateResult s (p + 1) (e + gp_Examined page) (u + gp_Unreadable page) (rm + Z.of_nat (length (gp_Remnants page)))
    (o + gp_Gates page) rt d q rs ex t.
Definition gateDisposed (disposition : GateDisposition) (r : GateSweepResult) : GateSweepResult :=
  let 'MkGateResult s p e u rm o rt d q rs ex t := r in
  MkGateResult s p e u rm o (if bool_decide (disposition = GateDispositionRetired) then rt + 1 else rt)
    (<[disposition := default 0 (d !! disposition) + 1]> d) q rs ex t.
Definition gateExhausted (r : GateSweepResult) : GateSweepResult :=
  let 'MkGateResult s p e u rm o rt d q rs _ t := r in MkGateResult s p e u rm o rt d q rs true t.
Definition gateTruncated (r : GateSweepResult) : GateSweepResult :=
  let 'MkGateResult s p e u rm o rt d q rs ex _ := r in MkGateResult s p e u rm o rt d q rs ex true.

Definition NewGateSweeper `{StoreLimits} (cfg : GateSweeperConfig) : result (GateSweeperConfig * PendingSweeper) :=
  let invalid := Fail (wrapf [ErrInvalidGateSweeperConfig]) in
  if negb (g_hasAuthorizer cfg) then invalid
  else if negb (g_hasDue cfg) then invalid
  else if negb (g_hasIntents cfg) then invalid
  else if negb (g_hasClock cfg) then invalid
  else if (g_PageLimit cfg <? 1) || (MaxOrderedPageLimit <? g_PageLimit cfg) then invalid
  else if g_MaxPages cfg <? 1 then invalid
  else Ok (cfg, MkSweeper 0 ∅).

(** A retirement's answer, or [None] for a fault. *)
Definition classifyRetirement (err : option error) : option GateDisposition :=
  match err with
  | None => Some GateDispositionRetired
  | Some err =>
      match errors_as "CatalogError" err with
      | Some (Typed _ code field _) =>
          if bool_decide (code = "CatalogErrorTooSoon") then Some GateDispositionTooSoon
          else if bool_decide (code = "CatalogErrorConflict") && bool_decide (field = "gate_id") then Some GateDispositionReopened
          else if bool_decide (code = "CatalogErrorConflict") && bool_decide (field = "gate_intent") then Some GateDispositionRaceLost
          else if bool_decide (code = "CatalogErrorNotFound") && bool_decide (field = "gate_intent") then Some GateDispositionAbsent
          else None
      | _ => None
      end
  end.

Definition refusedGateCursor (err : error) : bool := code_is "CatalogError" "CatalogErrorCursor" err.

Inductive gateCall : Type -> Type :=
| AuthorizeGateSweep (p : Principal) : gateCall (option error)
| GateShards : gateCall Z
| GateNow : gateCall time
| ListDueGates (req : ListDueRequest) : gateCall (result DueGatePage)
| RetireGateDeadlineIntent (remnant : RemnantGateIntent) : gateCall (option error).

Abbreviation gating := (prog gateCall).

(** [begin] and [commit] under the sweeper's mutex; its state is a shard and
    the cursors by shard. *)
Section Rotation.
Context `{ControlLimits}.

Definition gateBegin (shards : Z) (s : PendingSweeper) : result (Z * Cursor) * PendingSweeper :=
  if shards <? MinControlShards then (Fail (wrapf []), s)
  else
    let next0 := if shards <=? next s then 0 else next s in
    let kept := filter (fun kv => kv.1 < shards) (cursors s) in
    (Ok (next0, default "" (kept !! next0)), MkSweeper ((next0 + 1) `rem` shards) kept).

Definition gateCommit (shard : Z) (cursor : Cursor) (s : PendingSweeper) : PendingSweeper :=
  if bool_decide (cursor = "") then MkSweeper (next s) (delete shard (cursors s))
  else MkSweeper (next s) (<[shard := cursor]> (cursors s)).
End Rotation.

Section GateSweep.
Context `{ControlLimits} (cfg : GateSweeperConfig).

Definition retire (remnant : RemnantGateIntent) (r : GateSweepResult) : gating (GateSweepResult * option error) :=
  let r := gateQuery r in
  call! err := RetireGateDeadlineIntent remnant in
  match classifyRetirement err with
  | None => Ret (r, Some (wrapf (match err with Some e => [e] | None => [] end)))
  | Some disposition => Ret (gateDisposed disposition r, None)
  end.

Fixpoint retireAll (remnants : list RemnantGateIntent) (r : GateSweepResult) : gating (GateSweepResult * option error) :=
  match remnants with
  | [] => Ret (r, None)
  | remnant :: remnants =>
      let! (r, err) := retire remnant r in
      match err with
      | Some err => Ret (r, Some err)
      | None => retireAll remnants r
      end
  end.

Definition gateRequest (shard : Z) (cursor : Cursor) (now : time) : ListDueRequest :=
  MkDueRequest shard (g_PageLimit cfg) cursor (if bool_decide (cursor = "") then now else 0).

Fixpoint gatePages (pages : nat) (shard : Z) (cursor : Cursor) (now : time) (r : GateSweepResult)
    : gating (GateSweepResult * Cursor * option error) :=
  match pages with
  | O => Ret (gateTruncated r, cursor, None)
  | S pages =>
      let r := gateQuery r in
      call! page := ListDueGates (gateRequest shard cursor now) in
      match page with
      | Fail err =>
          if refusedGateCursor err then Ret (r, "", Some (wrapf [err])) else Ret (r, cursor, Some (wrapf [err]))
      | Ok page =>
          let! (r, err) := retireAll (gp_Remnants page) (gatePage page r) in
          match err with
          | Some err => Ret (r, cursor, Some err)
          | None =>
              if bool_decide (gp_NextCursor page = "") then Ret (gateExhausted r, "", None)
              else gatePages pages shard (gp_NextCursor page) now r
          end
      end
  end.

Definition GateSweep (principal : Principal) (s : PendingSweeper)
    : gating (GateSweepResult * option error * PendingSweeper) :=
  call! denied := AuthorizeGateSweep principal in
  match denied with
  | Some err => Ret (zeroGateResult 0 false, Some err, s)
  | None =>
      call! shards := GateShards in
      match gateBegin shards s with
      | (Fail err, s) => Ret (zeroGateResult 0 false, Some err, s)
      | (Ok (shard, cursor), s) =>
          call! now := GateNow in
          let! (r, next, err) := gatePages (Z.to_nat (g_MaxPages cfg)) shard cursor now
            (zeroGateResult shard (negb (bool_decide (cursor = "")))) in
          Ret (r, err, gateCommit shard next s)
      end
  end.
End GateSweep.

(** ** What a gate sweep does and counts *)

(** Only remnants listed to the sweep are retired, as they were listed. *)
Fixpoint retires_listed (rows : list RemnantGateIntent) (t : list (event gateCall)) : Prop :=
  match t with
  | [] => True
  | Ev _ (ListDueGates _) r :: t =>
      match r with Ok page => retires_listed (rows ++ gp_Remnants page) t | Fail _ => retires_listed rows t end
  | Ev _ (RetireGateDeadlineIntent remnant) _ :: t => remnant ∈ rows /\ retires_listed rows t
  | _ :: t => retires_listed rows t
  end.

(** The rows listed after a trace. *)
Definition list_rows (rows : list RemnantGateIntent) (e : event gateCall) : list RemnantGateIntent :=
  match e with
  | Ev _ (ListDueGates _) r => match r with Ok page => rows ++ gp_Remnants page | Fail _ => rows end
  | _ => rows
  end.

Lemma retires_listed_app rows t u :
  retires_listed rows (t ++ u) <-> retires_listed rows t /\ retires_listed (foldl list_rows rows t) u.
Proof.
  revert rows. induction t as [|[R c r] t IH]; intros rows; simpl; [tauto|].
  destruct c; simpl; rewrite ?IH; try tauto. destruct r; apply IH.
Qed.

Definition gate_query (e : event gateCall) : bool :=
  match e with Ev _ c _ => match c with ListDueGates _ | RetireGateDeadlineIntent _ => true | _ => false end end.
Definition gate_retired (e : event gateCall) : bool :=
  match e with Ev _ (RetireGateDeadlineIntent _) r => match r with None => true | Some _ => false end | _ => false end.

Definition gates_decided (r : GateSweepResult) : Z :=
  foldr (fun d n => default 0 (gs_Dispositions r !! d) + n) 0
    [GateDispositionRetired; GateDispositionTooSoon; GateDispositionReopened; GateDispositionRaceLost; GateDispositionAbsent].

(** What a part of the sweep did to the counters; [n] remnants were decided. *)
Record gate_moved (rows : list RemnantGateIntent) (r r' : GateSweepResult) (t : list (event gateCall)) : Prop := {
  gm_listed : retires_listed rows t;
  gm_queries : gs_Queries r' = gs_Queries r + tally gate_query t;
  gm_retired : gs_Retired r' = gs_Retired r + tally gate_retired t;
  gm_same : default 0 (gs_Dispositions r' !! GateDispositionRetired) - gs_Retired r'
            = default 0 (gs_Dispositions r !! GateDispositionRetired) - gs_Retired r
}.

Lemma gate_moved_refl rows r : gate_moved rows r r [].
Proof. split; rewrite ?tally_nil; simpl; lia || done. Qed.

Lemma gate_moved_trans rows r1 r2 r3 t u :
  gate_moved rows r1 r2 t -> gate_moved (foldl list_rows rows t) r2 r3 u -> gate_moved rows r1 r3 (t ++ u).
Proof. intros [L1 Q1 R1 S1] [L2 Q2 R2 S2]. split; rewrite ?tally_app; [by apply retires_listed_app|lia..]. Qed.

Lemma gates_decided_disposed d r :
  gates_decided (gateDisposed d r) = gates_decided r + 1
  /\ default 0 (gs_Dispositions (gateDisposed d r) !! GateDispositionRetired) - gs_Retired (gateDisposed d r)
     = default 0 (gs_Dispositions r !! GateDispositionRetired) - gs_Retired r.
Proof. destruct r, d; unfold gates_decided; simpl; rewrite ?lookup_insert_eq, ?lookup_insert_ne by done; simpl; lia. Qed.

(** The members a retirement leaves alone. *)
Definition flags (r : GateSweepResult) : Z * Z * bool * bool :=
  (gs_Shard r, gs_Remnants r, gs_Exhausted r, gs_Truncated r).

Lemma retire_moved rows remnant r :
  remnant ∈ rows ->
  wp (retire remnant r) (fun x u => gate_moved rows r x.1 u /\ foldl list_rows rows u = rows
    /\ flags x.1 = flags r
    /\ (x.2 = None -> gates_decided x.1 = gates_decided r + 1)).
Proof.
  intros Hr. unfold retire. intros err. destruct (classifyRetirement err) as [d|] eqn:Hd; apply wp_ret; simpl.
  - destruct (gates_decided_disposed d (gateQuery r)) as [Hdec Hsame].
    assert (Hret : gate_retired (Ev _ (RetireGateDeadlineIntent remnant) err) = bool_decide (d = GateDispositionRetired)).
    { unfold classifyRetirement in Hd. simpl. destruct err; [branches|by simplify_eq]; done. }
    split; [split|].
    + simpl. done.
    + rewrite tally_cons, tally_nil. destruct r. simpl. lia.
    + rewrite tally_cons, tally_nil, Hret. destruct r. simpl. case_bool_decide; lia.
    + rewrite Hsame. by destruct r.
    + split; [done|]. rewrite Hdec. by destruct r.
  - assert (He : err <> None) by by intros ->. destruct err; [|done].
    split; [split|]; rewrite ?tally_cons, ?tally_nil; destruct r; simpl; try lia; done.
Qed.

Lemma retireAll_moved rows remnants : forall r,
  remnants ⊆ rows ->
  wp (retireAll remnants r) (fun x u => gate_moved rows r x.1 u /\ foldl list_rows rows u = rows
    /\ flags x.1 = flags r
    /\ (x.2 = None -> gates_decided x.1 = gates_decided r + Z.of_nat (length remnants))).
Proof.
  induction remnants as [|remnant remnants IH]; intros r Hs; simpl retireAll.
  - apply wp_ret. split; [apply gate_moved_refl|]. repeat split; try done. simpl. lia.
  - eapply wp_seq; [apply (retire_moved rows); set_solver|].
    intros [r1 err] u (Hm & Hl & Hf & Hd). simpl in *. destruct err as [err|].
    + apply wp_ret. rewrite app_nil_r. done.
    + eapply wp_mono; [|apply (IH r1); set_solver].
      intros [r2 err] v (Hm2 & Hl2 & Hf2 & Hd2). simpl in *.
      split; [eapply gate_moved_trans; [exact Hm|by rewrite Hl]|]. rewrite foldl_app, Hl, Hl2.
      repeat split; try congruence. intros Hn. rewrite (Hd2 Hn), (Hd eq_refl). lia.
Qed.

(** What paging a shard did, and where it left off. *)
Definition gates_paged (rows : list RemnantGateIntent) (r : GateSweepResult)
    (x : GateSweepResult * Cursor * option error) (u : list (event gateCall)) : Prop :=
  gate_moved rows r x.1.1 u /\ gs_Shard x.1.1 = gs_Shard r
  /\ (x.2 = None -> gates_decided x.1.1 - gs_Remnants x.1.1 = gates_decided r - gs_Remnants r
        /\ gs_Exhausted x.1.1 = negb (gs_Truncated x.1.1)
        /\ (gs_Exhausted x.1.1 = true <-> x.1.2 = "")).

Lemma gate_listed rows r req ans :
  gate_moved rows r (match ans with Ok page => gatePage page (gateQuery r) | Fail _ => gateQuery r end)
    [Ev _ (ListDueGates req) ans].
Proof. split; rewrite ?tally_cons, ?tally_nil; destruct ans, r; simpl; try lia; done. Qed.

Lemma gate_moved_flags rows r r1 r2 u :
  gs_Queries r2 = gs_Queries r1 -> gs_Retired r2 = gs_Retired r1 -> gs_Dispositions r2 = gs_Dispositions r1 ->
  gate_moved rows r r1 u -> gate_moved rows r r2 u.
Proof. intros Hq Hr Hd [L Q R S]. split; rewrite ?Hq, ?Hr, ?Hd; done. Qed.

Lemma gatePages_paged cfg shard now n : forall rows cursor r,
  (cursor <> "" \/ (0 < n)%nat) -> gs_Exhausted r = false -> gs_Truncated r = false ->
  wp (gatePages cfg n shard cursor now r) (gates_paged rows r).
Proof.
  induction n as [|n IH]; intros rows cursor r Hc Hx Ht; simpl gatePages.
  - apply wp_ret. destruct Hc as [Hc|]; [|lia]. destruct r; simpl in *. subst.
    split; [apply gate_moved_flags with (r1 := MkGateResult gs_Shard0 gs_Pages0 gs_Examined0 gs_Unreadable0 gs_Remnants0
      gs_OpenPastDeadline0 gs_Retired0 gs_Dispositions0 gs_Queries0 gs_Resumed0 false false); try done; apply gate_moved_refl|].
    split; [done|]. intros _. split; [done|]. split; [done|]. by split.
  - intros [page|err].
    + pose proof (gate_listed rows r (gateRequest cfg shard cursor now) (Ok page)) as Hp.
      eapply wp_seq; [apply (retireAll_moved (rows ++ gp_Remnants page)); set_solver|].
      intros [r1 err] u (Hm & Hl & Hf & Hd). simpl in *.
      pose proof (gate_moved_trans _ _ _ _ [_] u Hp Hm) as Hm1.
      assert (Hflags : gs_Shard r1 = gs_Shard r /\ gs_Remnants r1 = gs_Remnants r + Z.of_nat (length (gp_Remnants page))
        /\ gs_Exhausted r1 = false /\ gs_Truncated r1 = false).
      { destruct r, r1. unfold flags in Hf. simpl in *. by simplify_eq. }
      destruct Hflags as (Hsh & Hrem & He & Htr). destruct err as [err|].
      * apply wp_ret. rewrite app_nil_r. by split.
      * specialize (Hd eq_refl).
        assert (Hd1 : gates_decided r1 = gates_decided r + Z.of_nat (length (gp_Remnants page))).
        { rewrite Hd. by destruct r. }
        case_bool_decide as Hn.
        -- apply wp_ret. rewrite app_nil_r. split; [by apply gate_moved_flags with (r1 := r1); try by destruct r1|].
           destruct r1; simpl in *. split; [done|]. intros _. subst. split; [unfold gates_decided in *; simpl in *; lia|]. done.
        -- eapply wp_mono; [|apply (IH (rows ++ gp_Remnants page)%list (gp_NextCursor page) r1)]; [|by left|done..].
           intros x v (Hm2 & Hs2 & Hx2).
           split; [eapply (gate_moved_trans _ _ _ _ (_ :: u)); [exact Hm1|]; simpl; by rewrite Hl|].
           split; [congruence|]. intros Hn2. destruct (Hx2 Hn2) as [Hd2 ?]. split; [lia|done].
    + case_match; apply wp_ret; (split; [exact (gate_listed rows r _ (Fail err))|split; [by destruct r|done]]).
Qed.

(** A gate sweep touches nothing but stale intents: every retirement is of
    a remnant listed to this sweep, at the revision listed; the query count is
    its store calls; the retired count is the retirements the store accepted and
    the disposition recorded for them; and a sweep without an error decided
    every remnant it listed and either exhausted its shard, which then restarts
    at its head, or was truncated and keeps a position to resume from. *)
Theorem gate_sweep_retires_only_remnants `{ControlLimits} (cfg : GateSweeperConfig) (p : Principal) (s : PendingSweeper)
    (Hpages : 1 <= g_MaxPages cfg) :
  wp (GateSweep cfg p s) (fun x t =>
    let r := x.1.1 in
    retires_listed [] t /\ gs_Queries r = tally gate_query t /\ gs_Retired r = tally gate_retired t
    /\ gs_Retired r = default 0 (gs_Dispositions r !! GateDispositionRetired)
    /\ (x.1.2 = None -> gates_decided r = gs_Remnants r /\ gs_Exhausted r = negb (gs_Truncated r)
          /\ (cursors x.2 !! gs_Shard r = None <-> gs_Exhausted r = true))).
Proof.
  unfold GateSweep. intros [err|]; [by apply wp_ret|]. intros shards.
  destruct (gateBegin shards s) as [[[shard cursor]|err] s1]; [|by apply wp_ret]. intros now.
  eapply wp_seq; [apply (gatePages_paged cfg shard now _ []); [right; lia|done..]|].
  intros [[r nxt] err] t ([L Q R S] & Hsh & Hd). apply wp_ret. rewrite app_nil_r. simpl in *.
  rewrite !tally_cons. simpl. split; [done|]. split; [lia|]. split; [lia|].
  split; [rewrite lookup_empty in S; cbn in S |- *; lia|]. intros He. destruct (Hd He) as (Hd1 & Hd2 & Hd3).
  change (gates_decided (zeroGateResult _ _)) with 0 in Hd1. split; [lia|]. split; [done|]. rewrite Hsh, Hd3.
  unfold gateCommit. destruct (bool_decide_reflect (nxt = "")); simpl; [by rewrite lookup_delete_eq|].
  by rewrite lookup_insert_eq.
Qed.

Definition demo_gate_config : GateSweeperConfig := MkGateConfig true true true true 10 2.

(** Two pages with a remnant each, the second one resolved meanwhile. *)
Definition demo_gate_world : handler gateCall unit := fun R c =>
  match c in gateCall R return unit -> R * unit with
  | AuthorizeGateSweep _ => fun w => (None, w)
  | GateShards => fun w => (2, w)
  | GateNow => fun w => (10, w)
  | ListDueGates req => fun w =>
      (Ok (if bool_decide (due_Cursor req = "")
           then MkGatePage [MkRemnant "t" "a" "g1" 4] 1 "more" 2 0
           else MkGatePage [MkRemnant "t" "b" "g2" 5] 0 "" 1 0), w)
  | RetireGateDeadlineIntent remnant => fun w =>
      (if bool_decide (rem_GateID remnant = "g1") then None
       else Some (Err (Typed "CatalogError" "CatalogErrorConflict" "gate_intent" 0) []), w)
  end.

Definition demo_gate_sweep := run demo_gate_world
  (@GateSweep demo_control demo_gate_config (MkPrincipal "t" "svc" KindService) (MkSweeper 0 ∅)) tt.

Lemma gate_sweep_retires_only_remnants_witness :
  gs_Retired demo_gate_sweep.1.1.1.1 = 1 /\ gs_Remnants demo_gate_sweep.1.1.1.1 = 2
  /\ retires_listed [] demo_gate_sweep.1.2.
Proof.
  split; [by vm_compute|]. split; [by vm_compute|].
  refine (proj1 (wp_run demo_gate_world _ _ tt
    (@gate_sweep_retires_only_remnants demo_control demo_gate_config (MkPrincipal "t" "svc" KindService) (MkSweeper 0 ∅) _))).
  vm_compute. discriminate.
Defined.

(** Its rotation is the pending sweeper's. *)
Lemma gate_rotation_is_pending `{ControlLimits} shards shard cursor s :
  gateBegin shards s = begin shards s /\ gateCommit shard cursor s = commit shard cursor s.
Proof. done. Qed.
