(* ===== verification/ClientLink.v ===== *)
(** * The ClientLink engine (src/internal/realtime/clientlink)

    The transport-independent half of the client edge: its limits and handshake
    (link.go), the delivery demand its subscriptions hold (demand.go), the
    command RPCs (command.go) and the channel names it publishes on
    (publish.go). Each operation on the demand table runs under the engine's
    mutex, so it is one step; the authorizer, the admission service and the
    demand plane are calls. An armed release is a callback that may run at any
    later time, also after it was stopped. The handler over the Centrifuge node is
    in ClientTransport.v. *)

From S2P Require Import Prelude Wire Framing Text Program Identity Pending Refusal Admission.
Local Open Scope prog_scope.
Local Open Scope string_scope.
Local Open Scope Z_scope.

Definition ErrInvalidConfig : error := sentinel "clientlink.ErrInvalidConfig".
Definition ErrUnsupportedProtocol : error := sentinel "clientlink.ErrUnsupportedProtocol".
Definition ErrUnroutableChannel : error := sentinel "clientlink.ErrUnroutableChannel".
Definition ErrUnknownMethod : error := sentinel "clientlink.ErrUnknownMethod".
Definition ErrUnreadableRecord : error := sentinel "clientlink.ErrUnreadableRecord".

(** ** Limits and configuration (link.go); durations in nanoseconds *)
Definition ProtocolVersion : string := "1".
Definition MinPingInterval : Z := 1000000000.

Record Limits := MkLimits {
  MaxMessageBytes : Z; MaxConnections : Z; MaxChannelsPerConnection : Z; PerConnectionQueueBytes : Z;
  WriteTimeout : Z; PingInterval : Z; PongTimeout : Z; CommandTimeout : Z; DemandReleaseDebounce : Z;
  OwnershipPollInterval : Z; DemandTimeout : Z
}.

Definition Limits_Validate (l : Limits) : option error :=
  let invalid := Some (wrapf [ErrInvalidConfig]) in
  if negb (MaxMessageBytes l =? 0) && ((MaxMessageBytes l <? Z.shiftl 64 10) || (Z.shiftl 16 20 <? MaxMessageBytes l)) then invalid
  else if MaxConnections l <? 1 then invalid
  else if MaxChannelsPerConnection l <? 1 then invalid
  else if PerConnectionQueueBytes l <? 1 then invalid
  else if WriteTimeout l <=? 0 then invalid
  else if PingInterval l <? MinPingInterval then invalid
  else if PongTimeout l <=? 0 then invalid
  else if CommandTimeout l <=? 0 then invalid
  else if DemandReleaseDebounce l <? 0 then invalid
  else if DemandTimeout l <=? 0 then invalid
  else None.

(** [Config]: the five interfaces by presence. *)
Record EngineConfig := MkEngineConfig {
  e_hasAuthenticator : bool; e_hasAuthorizer : bool; e_hasAdmitter : bool; e_hasDemand : bool; e_hasClock : bool;
  e_Limits : Limits; e_Version : string
}.

(** ** The demand table (demand.go) *)

(** A [*demandEntry]: its identity, and its members; [stop] by presence. *)
Record demandEntry := MkDemandEntry { de_id : nat; bindings : Z; generation : Z; armed : bool }.

(** A scheduled [drain]: what its closure captured. *)
Record callback := MkCallback { cb_key : sessionKey; cb_entry : nat; cb_generation : Z }.

(** [Engine]: the table, the entries allocated so far, and the releases ever
    scheduled. *)
Record Engine := MkEngine { demand : gmap sessionKey demandEntry; allocated : nat; scheduled : list callback }.

Definition NewEngine (cfg : EngineConfig) : result Engine :=
  let invalid := Fail (wrapf [ErrInvalidConfig]) in
  if negb (e_hasAuthenticator cfg) then invalid
  else if negb (e_hasAuthorizer cfg) then invalid
  else if negb (e_hasAdmitter cfg) then invalid
  else if negb (e_hasDemand cfg) then invalid
  else if negb (e_hasClock cfg) then invalid
  else if bool_decide (e_Version cfg = "") then invalid
  else match Limits_Validate (e_Limits cfg) with
  | Some err => Fail err
  | None => Ok (MkEngine ∅ 0 [])
  end.

Inductive linkCall : Type -> Type :=
| AskSubscribe (p : Principal) (channel : string) : linkCall (option error)
| DemandAcquire (key : sessionKey) : linkCall (option error)
| DemandRelease (key : sessionKey) : linkCall (option error).

Abbreviation linking := (prog linkCall).

Definition put (key : sessionKey) (entry : demandEntry) (e : Engine) : Engine :=
  MkEngine (<[key := entry]> (demand e)) (allocated e) (scheduled e).

Definition cancelRelease (entry : demandEntry) : demandEntry :=
  if armed entry then MkDemandEntry (de_id entry) (bindings entry) (u64 (generation entry + 1)) false else entry.

Definition acquire (key : sessionKey) (e : Engine) : linking (option error * Engine) :=
  match demand e !! key with
  | Some entry =>
      let entry := MkDemandEntry (de_id entry) (bindings entry + 1) (generation entry) (armed entry) in
      Ret (None, put key (cancelRelease entry) e)
  | None =>
      call! err := DemandAcquire key in
      match err with
      | Some err => Ret (Some err, e)
      | None =>
          Ret (None, MkEngine (<[key := MkDemandEntry (allocated e) 1 0 false]> (demand e)) (S (allocated e)) (scheduled e))
      end
  end.

Definition releaseBinding (key : sessionKey) (e : Engine) : Engine :=
  match demand e !! key with
  | None => e
  | Some entry =>
      if bindings entry =? 0 then e
      else
        let n := bindings entry - 1 in
        if 0 <? n then put key (MkDemandEntry (de_id entry) n (generation entry) (armed entry)) e
        else
          MkEngine (<[key := MkDemandEntry (de_id entry) n (generation entry) true]> (demand e)) (allocated e)
            (MkCallback key (de_id entry) (generation entry) :: scheduled e)
  end.

Definition releaseDemandLocked (key : sessionKey) : linking (option error) := invoke (DemandRelease key).

Definition drop_ (key : sessionKey) (e : Engine) : Engine := MkEngine (delete key (demand e)) (allocated e) (scheduled e).

Definition drain (cb : callback) (e : Engine) : linking Engine :=
  match demand e !! cb_key cb with
  | None => Ret e
  | Some entry =>
      if negb (bool_decide (de_id entry = cb_entry cb)) || negb (generation entry =? cb_generation cb)
         || negb (bindings entry =? 0)
      then Ret e
      else let! _ := releaseDemandLocked (cb_key cb) in Ret (drop_ (cb_key cb) e)
  end.

(** The table in the order it is ranged in. *)
Fixpoint releaseIdle (entries : list (sessionKey * demandEntry)) (e : Engine) : linking (list error * Engine) :=
  match entries with
  | [] => Ret ([], e)
  | (key, entry) :: entries =>
      if (0 <? bindings entry) || negb (armed entry) then releaseIdle entries e
      else
        let! err := releaseDemandLocked key in
        let! (failures, e) := releaseIdle entries (drop_ key e) in
        Ret (match err with Some err => err :: failures | None => failures end, e)
  end.

Definition ReleaseIdleDemand (order : gmap sessionKey demandEntry -> list (sessionKey * demandEntry)) (e : Engine)
    : linking (option error * Engine) :=
  let! (failures, e) := releaseIdle (order (demand e)) e in
  Ret (errors_join failures, e).

Definition channelPrefix : string := "session:".

Definition SessionChannel (tenant : TenantID) (session : SessionID) : string :=
  channelPrefix +:+ tenant +:+ ":" +:+ session.

Section Channel.
Context `{CoreIdentifiers}.

Definition demandKeyOf (principal : Principal) (channel : string) : result sessionKey :=
  match after_prefix channelPrefix channel with
  | None => Fail (wrapf [ErrUnroutableChannel])
  | Some rest =>
      let '(t, s, found) := cut ":" rest in
      if negb found then Fail (wrapf [ErrUnroutableChannel])
      else if has_byte ":" s then Fail (wrapf [ErrUnroutableChannel])
      else match TenantID_Validate t with
      | Some _ => Fail (wrapf [ErrUnroutableChannel])
      | None =>
          match SessionID_Validate s with
          | Some _ => Fail (wrapf [ErrUnroutableChannel])
          | None =>
              if negb (bool_decide (t = tenant principal)) then Fail (wrapf [ErrUnauthorized])
              else Ok (SessionKey (tenant principal) s)
          end
      end
  end.

(** [Bind]: the key is the binding its release gives back, once. *)
Definition Bind (principal : Principal) (channel : string) (e : Engine) : linking (result sessionKey * Engine) :=
  call! denied := AskSubscribe principal channel in
  match denied with
  | Some err => Ret (Fail err, e)
  | None =>
      match demandKeyOf principal channel with
      | Fail err => Ret (Fail err, e)
      | Ok key =>
          let! (err, e) := acquire key e in
          match err with
          | Some err => Ret (Fail err, e)
          | None => Ret (Ok key, e)
          end
      end
  end.
End Channel.

(** ** The handshake *)
Record ConnectRequest := MkConnect {
  con_Token : string; con_ProtocolVersion : string; con_Upgrade : OperationContext; con_Upgraded : bool }.

Definition Authenticate `{CoreIdentifiers} (a : Authenticator) (req : ConnectRequest) : prog authCall (result Principal) :=
  if negb (bool_decide (con_ProtocolVersion req = ProtocolVersion)) then Ret (Fail (wrapf [ErrUnsupportedProtocol]))
  else if bool_decide (con_Token req = "") && con_Upgraded req
       && bool_decide (op_CredentialSource (con_Upgrade req) = Some SourceCookie)
       && negb (bool_decide (tenant (op_Principal (con_Upgrade req)) = ""))
  then Ret (Ok (op_Principal (con_Upgrade req)))
  else AuthenticateLink a (con_Token req).

(** ** Command RPCs (command.go) *)
Definition MethodSessionCreate := "session.create".
Definition MethodSessionInput := "session.input".
Definition MethodSessionInterrupt := "session.interrupt".
Definition MethodSessionRestore := "session.restore".
Definition MethodGateRespond := "gate.respond".

Definition Methods : list string :=
  [MethodSessionCreate; MethodSessionInput; MethodSessionInterrupt; MethodSessionRestore; MethodGateRespond].

(** JSON of Core's records, decoded and encoded by Core and the standard
    library. *)
Class CoreJSON := {
  unmarshalCreate : bytes -> result CreateRequest;
  unmarshalInput : bytes -> result InputRequest;
  unmarshalInterrupt : bytes -> result InterruptRequest;
  unmarshalRestore : bytes -> result RestoreRequest;
  unmarshalGateResponse : bytes -> result GateResponseRequest;
  marshalStatus : CommandStatus -> result bytes;
  marshalEnvelope : string -> bool -> result bytes     (* ErrorEnvelope: code, retryable *)
}.

Definition result_map {A B} (f : A -> B) (r : result A) : result B := match r with Ok a => Ok (f a) | Fail e => Fail e end.

Section RPC.
Context `{CoreJSON} (limits : Limits).

Inductive rpcCall : Type -> Type :=
| EdgeAuthorizeControl (p : Principal) (session : SessionID) (kind : CommandKind) : rpcCall (option error)
| AdmitterAdmit (p : Principal) (request : command_request) : rpcCall (result (DispositionInboxEntry * bool)).

(** An [rpcCommand] is the request its decoder read: it names the session, and
    [AdmitterAdmit] is the entry point its [admit] closure calls. *)
Definition decodeCreate (data : bytes) : result command_request := result_map RCreate (unmarshalCreate data).
Definition decodeInput (data : bytes) : result command_request := result_map RInput (unmarshalInput data).
Definition decodeInterrupt (data : bytes) : result command_request := result_map RInterrupt (unmarshalInterrupt data).
Definition decodeRestore (data : bytes) : result command_request := result_map RRestore (unmarshalRestore data).
Definition decodeGateResponse (data : bytes) : result command_request := result_map RGateResponse (unmarshalGateResponse data).

(** [commandSpecs]: the kind and the decoder of each method. *)
Definition commandSpecs (method : string) : option (CommandKind * (bytes -> result command_request)) :=
  if bool_decide (method = MethodSessionCreate) then Some (KindCreateSession, decodeCreate)
  else if bool_decide (method = MethodSessionInput) then Some (KindInput, decodeInput)
  else if bool_decide (method = MethodSessionInterrupt) then Some (KindInterrupt, decodeInterrupt)
  else if bool_decide (method = MethodSessionRestore) then Some (KindRestore, decodeRestore)
  else if bool_decide (method = MethodGateRespond) then Some (KindGateResponse, decodeGateResponse)
  else None.

Definition CommandKindFor (method : string) : option CommandKind := fst <$> commandSpecs method.

Definition refusalBody (code : string) : result bytes :=
  let retryable := match RefusalStatus code with Some status => RetryableStatus status | None => false end in
  match marshalEnvelope code retryable with
  | Ok body => Ok body
  | Fail err => Fail (wrapf [ErrUnreadableRecord])
  end.

Definition replyFor (status : option CommandStatus) : result bytes :=
  match status with
  | None => Fail (wrapf [ErrUnreadableRecord])
  | Some status => match marshalStatus status with Ok body => Ok body | Fail _ => Fail (wrapf [ErrUnreadableRecord]) end
  end.

Definition rpcLimit (method : string) : Z :=
  let limit := if MaxMessageBytes limits =? 0 then Z.shiftl 64 10 else MaxMessageBytes limits in
  if negb (bool_decide (method = MethodSessionCreate)) && negb (bool_decide (method = MethodSessionInput))
     && (Z.shiftl 64 10 <? limit)
  then Z.shiftl 64 10 else limit.

Definition RPC_Admit (principal : Principal) (method : string) (data : bytes) : prog rpcCall (result bytes) :=
  match commandSpecs method with
  | None => Ret (Fail (wrapf [ErrUnknownMethod]))
  | Some (kind, decode) =>
      if rpcLimit method <? len data then Ret (refusalBody ErrorCodeInvalidRequest)
      else match decode data with
      | Fail _ => Ret (refusalBody ErrorCodeInvalidRequest)
      | Ok request =>
          call! denied := EdgeAuthorizeControl principal (request_session request) kind in
          match denied with
          | Some err => Ret (Fail err)
          | None =>
              call! admitted := AdmitterAdmit principal request in
              match admitted with
              | Fail err =>
                  match errors_code "admission.Error" err with
                  | Some code => Ret (refusalBody code)
                  | None => Ret (Fail err)
                  end
              | Ok (entry, _) => Ret (replyFor (StatusForDisposition entry))
              end
          end
      end
  end.
End RPC.

(** ** What the table means to the demand plane *)

(** A reading of the calls to the demand plane: demand is acquired only when it
    is not held, and given back only when it is. *)
Fixpoint ledger (H : gset sessionKey) (t : list (event linkCall)) : option (gset sessionKey) :=
  match t with
  | [] => Some H
  | Ev _ (DemandAcquire key) r :: t =>
      match r with
      | None => if bool_decide (key ∈ H) then None else ledger ({[key]} ∪ H) t
      | Some _ => ledger H t
      end
  | Ev _ (DemandRelease key) _ :: t => if bool_decide (key ∈ H) then ledger (H ∖ {[key]}) t else None
  | _ :: t => ledger H t
  end.

(** The engine, the bindings whose release is still outstanding, and the demand
    held with the plane; [None] if the engine ever broke the ledger. *)
Record link_state := MkLink { ls_engine : Engine; outstanding : gmap sessionKey Z; ls_held : option (gset sessionKey) }.

Definition count (ls : gmap sessionKey Z) (key : sessionKey) : Z := default 0 (ls !! key).

Definition after (t : list (event linkCall)) (held : option (gset sessionKey)) : option (gset sessionKey) :=
  match held with Some H => ledger H t | None => None end.

Section LinkSteps.
Context `{CoreIdentifiers} (order : gmap sessionKey demandEntry -> list (sessionKey * demandEntry)).

(** Subscriptions come and go, releases of bindings are called once each, any
    release ever scheduled may run at any time, and the idle demand may be
    flushed. *)
Inductive link_step : link_state -> link_state -> Prop :=
| link_bound p channel key e e' out held t :
    may (Bind p channel e) (Ok key, e') t ->
    link_step (MkLink e out held) (MkLink e' (<[key := count out key + 1]> out) (after t held))
| link_refused p channel err e e' out held t :
    may (Bind p channel e) (Fail err, e') t ->
    link_step (MkLink e out held) (MkLink e' out (after t held))
| link_released key e out held :
    0 < count out key ->
    link_step (MkLink e out held) (MkLink (releaseBinding key e) (<[key := count out key - 1]> out) held)
| link_drained cb e e' out held t :
    cb ∈ scheduled e -> may (drain cb e) e' t ->
    link_step (MkLink e out held) (MkLink e' out (after t held))
| link_flushed e e' err out held t :
    may (ReleaseIdleDemand order e) (err, e') t ->
    link_step (MkLink e out held) (MkLink e' out (after t held)).

Definition link_reachable : link_state -> Prop :=
  reachable (fun ls => ls = MkLink (MkEngine ∅ 0 []) ∅ (Some ∅)) link_step.
End LinkSteps.

(** An entry counts the outstanding bindings of its session, and has a release
    armed, and scheduled, exactly when there are none. *)
Record entry_ok (out : gmap sessionKey Z) (cbs : list callback) (key : sessionKey) (entry : demandEntry) : Prop := {
  eo_count : bindings entry = count out key;
  eo_armed : armed entry = true <-> bindings entry = 0;
  eo_scheduled : armed entry = true -> MkCallback key (de_id entry) (generation entry) ∈ cbs
}.

Record link_inv (ls : link_state) : Prop := {
  li_held : ls_held ls = Some (dom (demand (ls_engine ls)));
  li_count : forall key, 0 <= count (outstanding ls) key;
  li_entry : forall key entry, demand (ls_engine ls) !! key = Some entry ->
               entry_ok (outstanding ls) (scheduled (ls_engine ls)) key entry;
  li_absent : forall key, demand (ls_engine ls) !! key = None -> count (outstanding ls) key = 0
}.

Lemma count_insert out key n key' : count (<[key := n]> out) key' = if bool_decide (key = key') then n else count out key'.
Proof.
  unfold count. case_bool_decide as Hk; [subst; by rewrite lookup_insert_eq|]. by rewrite lookup_insert_ne.
Qed.

Lemma entry_ok_other out cbs cbs' key key' n entry :
  key <> key' -> cbs ⊆ cbs' -> entry_ok out cbs key' entry -> entry_ok (<[key := n]> out) cbs' key' entry.
Proof.
  intros Hk Hs [C A S]. split; [|done|auto]. rewrite count_insert, bool_decide_false by done. done.
Qed.

(** Taking one more binding. *)
Lemma acquire_inv key e out :
  link_inv (MkLink e out (Some (dom (demand e)))) ->
  wp (acquire key e) (fun r t =>
    match r.1 with
    | None => link_inv (MkLink r.2 (<[key := count out key + 1]> out) (after t (Some (dom (demand e)))))
    | Some _ => link_inv (MkLink r.2 out (after t (Some (dom (demand e)))))
    end).
Proof.
  intros [_ HC HE HA]. simpl in *. unfold acquire. destruct (demand e !! key) as [entry|] eqn:Hk.
  - destruct (HE key entry Hk) as [C A S]. pose proof (HC key) as Hpos.
    assert (Hok : entry_ok (<[key := count out key + 1]> out) (scheduled e) key
      (cancelRelease (MkDemandEntry (de_id entry) (bindings entry + 1) (generation entry) (armed entry)))).
    { unfold cancelRelease. simpl. destruct (armed entry) eqn:Ha; split; simpl; rewrite ?count_insert, ?bool_decide_true by done;
        rewrite ?Ha; try lia; try done; (split; [done|]; intros ?; lia). }
    apply wp_ret. split; simpl.
    + by rewrite dom_insert_lookup_L.
    + intros key'. rewrite count_insert. case_bool_decide; [lia|apply HC].
    + intros key' entry' Hk'. destruct (decide (key = key')) as [<-|Hn].
      * rewrite lookup_insert_eq in Hk'. by simplify_eq.
      * rewrite lookup_insert_ne in Hk' by done. apply entry_ok_other with (scheduled e); [done..|]. by apply HE.
    + intros key' Hk'. destruct (decide (key = key')) as [<-|Hn]; [by rewrite lookup_insert_eq in Hk'|].
      rewrite lookup_insert_ne in Hk' by done. rewrite count_insert, bool_decide_false by done. by apply HA.
  - intros [err|]; apply wp_ret; simpl; [by split|]. rewrite bool_decide_false by by apply not_elem_of_dom.
    assert (H0 : count out key = 0) by by apply HA. split; simpl.
    + by rewrite dom_insert_L.
    + intros key'. rewrite count_insert. case_bool_decide; [lia|apply HC].
    + intros key' entry' Hk'. destruct (decide (key = key')) as [<-|Hn].
      * rewrite lookup_insert_eq in Hk'. simplify_eq. split; simpl; [|done..].
        rewrite count_insert, bool_decide_true by done. lia.
      * rewrite lookup_insert_ne in Hk' by done. apply entry_ok_other with (scheduled e); [done..|]. by apply HE.
    + intros key' Hk'. destruct (decide (key = key')) as [<-|Hn]; [by rewrite lookup_insert_eq in Hk'|].
      rewrite lookup_insert_ne in Hk' by done. rewrite count_insert, bool_decide_false by done. by apply HA.
Qed.

Lemma Bind_inv `{CoreIdentifiers} p channel e out :
  link_inv (MkLink e out (Some (dom (demand e)))) ->
  wp (Bind p channel e) (fun r t =>
    match r.1 with
    | Ok key => link_inv (MkLink r.2 (<[key := count out key + 1]> out) (after t (Some (dom (demand e)))))
    | Fail _ => link_inv (MkLink r.2 out (after t (Some (dom (demand e)))))
    end).
Proof.
  intros Hi. unfold Bind. intros [err|]; [by apply wp_ret|]. destruct (demandKeyOf p channel) as [key|err]; [|by apply wp_ret].
  eapply wp_seq; [by apply (acquire_inv key)|]. intros [[err|] e'] t Ht; apply wp_ret; rewrite app_nil_r; exact Ht.
Qed.

(** Giving one binding back. *)
Lemma releaseBinding_inv key e out :
  link_inv (MkLink e out (Some (dom (demand e)))) -> 0 < count out key ->
  link_inv (MkLink (releaseBinding key e) (<[key := count out key - 1]> out) (Some (dom (demand e)))).
Proof.
  intros [_ HC HE HA] Hpos. simpl in *. unfold releaseBinding.
  destruct (demand e !! key) as [entry|] eqn:Hk; [|rewrite (HA key Hk) in Hpos; lia].
  destruct (HE key entry Hk) as [C A S]. rewrite (proj2 (Z.eqb_neq _ _)) by lia.
  set (n := bindings entry - 1).
  assert (Hrest : forall entry' cbs, scheduled e ⊆ cbs -> entry_ok (<[key := count out key - 1]> out) cbs key entry' ->
    link_inv (MkLink (MkEngine (<[key := entry']> (demand e)) (allocated e) cbs) (<[key := count out key - 1]> out) (Some (dom (demand e))))).
  { intros entry' cbs Hs Hok. split; simpl.
    - by rewrite dom_insert_lookup_L.
    - intros key'. rewrite count_insert. case_bool_decide; [lia|apply HC].
    - intros key' entry2 Hk'. destruct (decide (key = key')) as [<-|Hn].
      + rewrite lookup_insert_eq in Hk'. by simplify_eq.
      + rewrite lookup_insert_ne in Hk' by done. apply entry_ok_other with (scheduled e); [done..|]. by apply HE.
    - intros key' Hk'. destruct (decide (key = key')) as [<-|Hn]; [by rewrite lookup_insert_eq in Hk'|].
      rewrite lookup_insert_ne in Hk' by done. rewrite count_insert, bool_decide_false by done. by apply HA. }
  destruct (0 <? n) eqn:Hn; reflect_guards; unfold n in *.
  - apply Hrest; [done|]. split; simpl; [rewrite count_insert, bool_decide_true by done; lia| |by auto].
    destruct (armed entry); (split; [intros Ha; apply A in Ha; lia|lia]).
  - apply Hrest; [set_solver|]. split; simpl; [rewrite count_insert, bool_decide_true by done; lia| |set_solver].
    split; [lia|done].
Qed.

(** Giving the demand of an unbound session back. *)
Lemma drop_inv key entry e out :
  link_inv (MkLink e out (Some (dom (demand e)))) -> demand e !! key = Some entry -> bindings entry = 0 ->
  link_inv (MkLink (drop_ key e) out (Some (dom (demand (drop_ key e))))).
Proof.
  intros [_ HC HE HA] Hk Hb. simpl in *. destruct (HE key entry Hk) as [C _ _]. split; simpl; [done|done| |].
  - intros key' entry' Hk'. apply lookup_delete_Some in Hk' as [_ Hk']. by apply HE.
  - intros key' Hk'. destruct (decide (key = key')) as [<-|Hn]; [congruence|].
    rewrite lookup_delete_ne in Hk' by done. by apply HA.
Qed.

Lemma ledger_release H key r : key ∈ H -> ledger H [Ev _ (DemandRelease key) r] = Some (H ∖ {[key]}).
Proof. intros Hk. simpl. by rewrite bool_decide_true. Qed.

Lemma drain_inv cb e out :
  link_inv (MkLink e out (Some (dom (demand e)))) ->
  wp (drain cb e) (fun e' t => link_inv (MkLink e' out (after t (Some (dom (demand e)))))).
Proof.
  intros Hi. unfold drain. destruct (demand e !! cb_key cb) as [entry|] eqn:Hk; [|by apply wp_ret].
  case_match eqn:Hg; [by apply wp_ret|]. reflect_guards. intros r.
  change (link_inv (MkLink (drop_ (cb_key cb) e) out (ledger (dom (demand e)) [Ev _ (DemandRelease (cb_key cb)) r]))).
  rewrite ledger_release by (apply elem_of_dom; eauto).
  replace (dom (demand e) ∖ {[cb_key cb]}) with (dom (demand (drop_ (cb_key cb) e))) by (simpl; by rewrite dom_delete_L).
  by eapply drop_inv.
Qed.

Lemma ledger_app H t u : ledger H (t ++ u) = match ledger H t with Some H' => ledger H' u | None => None end.
Proof.
  revert H. induction t as [|[R c r] t IH]; intros H; [done|]. simpl. destruct c as [p ch|key|key]; [apply IH| |].
  - destruct r; [apply IH|]. case_bool_decide; [done|apply IH].
  - case_bool_decide; [apply IH|done].
Qed.

Lemma releaseIdle_inv out es : forall e,
  NoDup (es.*1) -> (forall key entry, (key, entry) ∈ es -> demand e !! key = Some entry) ->
  link_inv (MkLink e out (Some (dom (demand e)))) ->
  wp (releaseIdle es e) (fun r t => link_inv (MkLink r.2 out (after t (Some (dom (demand e)))))
    /\ ledger (dom (demand e)) t = Some (dom (demand r.2))).
Proof.
  induction es as [|[key entry] es IH]; intros e Hnd Hin Hi; simpl releaseIdle; [by apply wp_ret|].
  apply NoDup_cons in Hnd as [Hk Hnd]. case_match eqn:Hg.
  - apply IH; [done| |done]. intros key' entry' Hin'. apply Hin. apply elem_of_cons. by right.
  - reflect_guards. assert (Hke : demand e !! key = Some entry) by (apply Hin; apply elem_of_cons; by left).
    destruct (li_entry _ Hi key entry Hke) as [C A S]. simpl in *.
    assert (Hb : bindings entry = 0) by (by apply A). intros err.
    pose proof (drop_inv key entry e out Hi Hke Hb) as Hd.
    assert (Hl : ledger (dom (demand e)) [Ev _ (DemandRelease key) err] = Some (dom (demand (drop_ key e)))).
    { rewrite ledger_release by (apply elem_of_dom; eauto). simpl. by rewrite dom_delete_L. }
    apply wp_bind, wp_ret. cbv beta. cbn [app].
    eapply wp_seq; [apply (IH (drop_ key e) Hnd)|]; [|exact Hd|].
    + intros key' entry' Hin'. simpl. rewrite lookup_delete_ne.
      * apply Hin. apply elem_of_cons. by right.
      * intros <-. apply Hk. apply list_elem_of_fmap. by exists (key, entry').
    + intros [fs e'] t [Hi' Hl']. apply wp_ret. rewrite app_nil_r. simpl in Hi', Hl'.
      assert (Hall : ledger (dom (demand e)) (Ev _ (DemandRelease key) err :: t) = Some (dom (demand e'))).
      { change (Ev (option error) (DemandRelease key) err :: t) with ([Ev (option error) (DemandRelease key) err] ++ t)%list.
        by rewrite ledger_app, Hl. }
      split; [|exact Hall]. rewrite Hl' in Hi'.
      change (link_inv (MkLink e' out (ledger (dom (demand e)) (Ev _ (DemandRelease key) err :: t)))).
      exact (eq_rect_r (fun h => link_inv (MkLink e' out h)) Hi' Hall).
Qed.

Lemma ReleaseIdleDemand_inv order e out :
  (forall m, order m ≡ₚ map_to_list m) -> link_inv (MkLink e out (Some (dom (demand e)))) ->
  wp (ReleaseIdleDemand order e) (fun r t => link_inv (MkLink r.2 out (after t (Some (dom (demand e)))))).
Proof.
  intros Ho Hi. unfold ReleaseIdleDemand. eapply wp_seq; [apply (releaseIdle_inv out); [| |exact Hi]|].
  - rewrite (Ho _). apply NoDup_fst_map_to_list.
  - intros key entry Hin. rewrite (Ho _) in Hin. by apply elem_of_map_to_list.
  - intros [fs e'] t [Hi' _]. apply wp_ret. by rewrite app_nil_r.
Qed.

Lemma link_inv_reachable `{CoreIdentifiers} order ls :
  (forall m, order m ≡ₚ map_to_list m) -> link_reachable order ls -> link_inv ls.
Proof.
  intros Ho. apply reachable_invariant.
  - intros ls1 ->. split; simpl; [by rewrite dom_empty_L|..].
    + intros key. unfold count. by rewrite lookup_empty.
    + intros key entry Hk. by rewrite lookup_empty in Hk.
    + intros key _. unfold count. by rewrite lookup_empty.
  - intros ls1 ls2 Hi Hs. pose proof (li_held _ Hi) as Hh.
    destruct Hs as [p ch key e e' out held t Hm|p ch err e e' out held t Hm|key e out held Hpos
                   |cb e e' out held t _ Hm|e e' err out held t Hm]; simpl in Hh; subst held.
    + exact (wp_may _ _ _ _ (Bind_inv p ch e out Hi) Hm).
    + exact (wp_may _ _ _ _ (Bind_inv p ch e out Hi) Hm).
    + unfold releaseBinding in *. by apply releaseBinding_inv.
    + exact (wp_may _ _ _ _ (drain_inv cb e out Hi) Hm).
    + exact (wp_may _ _ _ _ (ReleaseIdleDemand_inv order e out Ho Hi) Hm).
Qed.

(** A release that is due, and still current, gives the demand back. *)
Lemma drain_current key entry e :
  demand e !! key = Some entry -> bindings entry = 0 ->
  returns (fun e' => demand e' !! key = None) (drain (MkCallback key (de_id entry) (generation entry)) e).
Proof.
  intros Hk Hb. unfold drain. simpl. rewrite Hk, Hb, bool_decide_true, Z.eqb_refl by done. simpl.
  intros r. apply lookup_delete_eq.
Qed.

(** C18: Over any sequence of subscribes, unsubscribes, debounced releases
    (stopped, stale or late) and flushes, and whatever the authorizer and the
    demand plane answer, the demand this replica holds is exactly its table: the
    plane is never asked twice for a session nor released one it does not hold.
    A session with a subscription outstanding is in the table with the right
    count and no release armed, so its demand is never given back under it; one
    without has a release scheduled, and that release, run, gives it back. *)
Theorem demand_held_while_bound `{CoreIdentifiers} (order : gmap sessionKey demandEntry -> list (sessionKey * demandEntry))
    (ls : link_state) :
  (forall m, order m ≡ₚ map_to_list m) -> link_reachable order ls ->
  ls_held ls = Some (dom (demand (ls_engine ls)))
  /\ (forall key, 0 < count (outstanding ls) key ->
        exists entry, demand (ls_engine ls) !! key = Some entry
          /\ bindings entry = count (outstanding ls) key /\ armed entry = false)
  /\ (forall key entry, demand (ls_engine ls) !! key = Some entry -> count (outstanding ls) key = 0 ->
        armed entry = true
        /\ exists cb, cb ∈ scheduled (ls_engine ls)
             /\ returns (fun e' => demand e' !! key = None) (drain cb (ls_engine ls))).
Proof.
  intros Ho Hr. destruct (link_inv_reachable order ls Ho Hr) as [Hh HC HE HA]. split; [done|]. split.
  - intros key Hpos. destruct (demand (ls_engine ls) !! key) as [entry|] eqn:Hk; [|rewrite (HA key Hk) in Hpos; lia].
    destruct (HE key entry Hk) as [C A _]. exists entry. split; [done|]. split; [done|].
    destruct (armed entry); [|done]. assert (bindings entry = 0) by by apply A. lia.
  - intros key entry Hk H0. destruct (HE key entry Hk) as [C A S].
    assert (Ha : armed entry = true) by (apply A; lia). split; [done|].
    eexists. split; [by apply S|]. apply drain_current; [done|lia].
Qed.

(** ** Channels *)

(** A channel of the grammar: the session it names. *)
Definition names `{CoreIdentifiers} (channel : string) (t : TenantID) (s : SessionID) : Prop :=
  channel = session_channel t s /\ has_byte ":" t = false /\ has_byte ":" s = false
  /\ TenantID_Validate t = None /\ SessionID_Validate s = None.

Lemma names_inj `{CoreIdentifiers} channel t s t' s' : names channel t s -> names channel t' s' -> t = t' /\ s = s'.
Proof.
  intros (-> & Ht & _) (Heq & Ht' & _). unfold session_channel in Heq.
  apply (f_equal (after_prefix "session:")) in Heq. rewrite !after_prefix_app in Heq. injection Heq as Heq.
  by apply (cut_inj ":").
Qed.

Lemma demandKeyOf_named `{CoreIdentifiers} p channel t s :
  names channel t s ->
  demandKeyOf p channel = if bool_decide (t = tenant p) then Ok (SessionKey (tenant p) s) else Fail (wrapf [ErrUnauthorized]).
Proof.
  intros (-> & Ht & Hs & Hvt & Hvs). unfold demandKeyOf, session_channel. rewrite (after_prefix_app channelPrefix).
  change (":" +:+ s) with (String ":" s). rewrite (cut_app ":" t s Ht). simpl. rewrite Hs, Hvt, Hvs.
  by case_bool_decide.
Qed.

Lemma demandKeyOf_cases `{CoreIdentifiers} p channel :
  (exists t s, names channel t s) \/ demandKeyOf p channel = Fail (wrapf [ErrUnroutableChannel]).
Proof.
  unfold demandKeyOf. destruct (after_prefix channelPrefix channel) as [rest|] eqn:Hr; [|by right].
  apply after_prefix_some in Hr. destruct (cut ":" rest) as [[t s] []] eqn:Hc; [|by right]. simpl.
  destruct (has_byte ":" s) eqn:Hs; [by right|]. destruct (TenantID_Validate t) eqn:Ht; [by right|].
  destruct (SessionID_Validate s) eqn:Hv; [by right|]. left. exists t, s. apply cut_found in Hc as [-> ?]. by subst channel.
Qed.

Lemma allowed_named `{core : CoreIdentifiers} (laws : CoreIdentifiersLaws core) p channel :
  AuthorizeSubscribe p channel = None <-> exists s, names channel (tenant p) s.
Proof.
  rewrite AuthorizeSubscribe_spec. split.
  - intros (s & ? & ? & ? & ? & ? & ? & ?). by exists s.
  - intros (s & ? & ? & ? & Ht & Hs). exists s. repeat (split; [done|]).
    split; [intros He; rewrite He in Ht; by apply TenantID_nonempty in Ht|].
    split; [intros He; rewrite He in Hs; by apply SessionID_nonempty in Hs|]. done.
Qed.

(** The two readings of a channel name agree. [demandKeyOf] derives a
    session exactly for the channels the default authorizer allows; it is the
    one the channel is published for, and its tenant is the caller's. A channel
    of the grammar that names another tenant is refused as [ErrUnauthorized],
    and everything else as [ErrUnroutableChannel]. *)
Theorem channel_grammars_agree `{core : CoreIdentifiers} (laws : CoreIdentifiersLaws core) (p : Principal) (channel : string) :
  match demandKeyOf p channel with
  | Ok key =>
      AuthorizeSubscribe p channel = None
      /\ channel = SessionChannel (key_tenant key) (key_session key) /\ key_tenant key = tenant p
  | Fail e =>
      AuthorizeSubscribe p channel = Some ErrUnauthorized
      /\ ((exists t s, t <> tenant p /\ names channel t s) /\ e = wrapf [ErrUnauthorized]
          \/ (forall t s, ~ names channel t s) /\ e = wrapf [ErrUnroutableChannel])
  end.
Proof.
  assert (Hd : (forall s, ~ names channel (tenant p) s) -> AuthorizeSubscribe p channel = Some ErrUnauthorized).
  { intros Hno. destruct (AuthorizeSubscribe p channel) as [e|] eqn:Ha.
    - unfold AuthorizeSubscribe, authorizationResult in Ha. destruct (sessionChannelAllowed _ _); by simplify_eq.
    - apply (allowed_named laws) in Ha as [s Hs]. by destruct (Hno s). }
  destruct (demandKeyOf_cases p channel) as [(t & s & Hn)|Hu].
  - rewrite (demandKeyOf_named p channel t s Hn). case_bool_decide as Ht.
    + subst t. split; [apply (allowed_named laws); by exists s|]. split; [apply Hn|done].
    + split; [|left; by eauto]. apply Hd. intros s' Hs'. by destruct (names_inj _ _ _ _ _ Hn Hs').
  - rewrite Hu. assert (Hno : forall t s, ~ names channel t s).
    { intros t s Hn. rewrite (demandKeyOf_named p channel t s Hn) in Hu. by case_bool_decide. }
    split; [by apply Hd|by right].
Qed.

(** Identifiers of at most eight bytes, none of them empty. *)
#[global] Instance demo_core : CoreIdentifiers := {|
  MaxIDBytes := 8;
  TenantID_Validate t := if bool_decide (t = "") then Some (sentinel "core.ErrInvalid") else None;
  SessionID_Validate s := if bool_decide (s = "") then Some (sentinel "core.ErrInvalid") else None;
  Principal_Validate _ := None
|}.

#[global] Instance demo_core_laws : CoreIdentifiersLaws demo_core.
Proof. by split. Qed.

Lemma channel_grammars_agree_witness :
  demandKeyOf demo_principal "session:t:s" = Ok (SessionKey "t" "s")
  /\ AuthorizeSubscribe demo_principal "session:t:s" = None
  /\ demandKeyOf demo_principal "session:u:s" = Fail (wrapf [ErrUnauthorized])
  /\ demandKeyOf demo_principal "session:t:s:x" = Fail (wrapf [ErrUnroutableChannel]).
Proof.
  split; [by vm_compute|]. split; [|by vm_compute].
  exact (proj1 (channel_grammars_agree demo_core_laws demo_principal "session:t:s")).
Defined.

(** A subscribe, its unsubscribe, and the release that was scheduled. *)
Lemma demand_held_while_bound_witness : exists ls,
  @link_reachable demo_core map_to_list ls /\ ls_held ls = Some {[SessionKey "t" "s"]}
  /\ count (outstanding ls) (SessionKey "t" "s") = 1.
Proof.
  pose (e := MkEngine {[SessionKey "t" "s" := MkDemandEntry 0 1 0 false]} 1 []).
  pose (ls := MkLink e {[SessionKey "t" "s" := 1]} (Some {[SessionKey "t" "s"]})).
  assert (Hr : @link_reachable demo_core map_to_list ls).
  { eapply reach_step; [by apply reach_init|].
    refine (link_bound _ demo_principal "session:t:s" (SessionKey "t" "s") (MkEngine ∅ 0 []) e ∅ (Some ∅)
      [Ev _ (AskSubscribe demo_principal "session:t:s") None; Ev _ (DemandAcquire (SessionKey "t" "s")) None] _).
    simpl. eexists None, _. split; [done|]. eexists None, _. split; [done|]. by vm_compute. }
  exists ls. split; [exact Hr|]. split; [|done].
  rewrite (proj1 (demand_held_while_bound map_to_list ls (fun m => reflexivity _) Hr)). by vm_compute.
Defined.

(** ** Command RPCs *)
Lemma commandSpecs_kind `{CoreJSON} method kind decode data request :
  commandSpecs method = Some (kind, decode) -> decode data = Ok request -> request_kind request = kind.
Proof.
  unfold commandSpecs. intros Hs Hd.
  repeat case_bool_decide; simplify_eq;
    unfold decodeCreate, decodeInput, decodeInterrupt, decodeRestore, decodeGateResponse, result_map in Hd;
    case_match; by simplify_eq.
Qed.

Lemma commandSpecs_methods `{CoreJSON} method : is_Some (commandSpecs method) <-> method ∈ Methods.
Proof.
  unfold commandSpecs, Methods. rewrite !elem_of_cons, elem_of_nil. repeat case_bool_decide; split; intros Hs;
    try (by destruct Hs); try (by eexists); naive_solver.
Qed.

(** No refusal code is retryable. *)
Lemma refusalBody_final `{CoreJSON} code :
  refusalBody code = match marshalEnvelope code false with
                     | Ok body => Ok body | Fail _ => Fail (wrapf [ErrUnreadableRecord]) end.
Proof.
  unfold refusalBody. destruct (RefusalStatus code) as [status|] eqn:Hs; [|done].
  by rewrite (proj2 (ruled_status _ _ Hs)).
Qed.

(** What the request of an RPC decodes to, within its limit. *)
Definition rpc_request `{CoreJSON} (limits : Limits) (method : string) (data : bytes) : option command_request :=
  match commandSpecs method with
  | Some (_, decode) =>
      if rpcLimit limits method <? len data then None
      else match decode data with Ok request => Some request | Fail _ => None end
  | None => None
  end.

(** A command RPC authorizes and admits one request, and the same one:
    what its bytes decode to. A method that is not one of the five, a body over
    its limit and a body that does not decode make no call at all; the limit is
    64 KiB for every method but [session.create] and [session.input]. Otherwise
    the edge is asked once, for the session and the kind of that request, and
    only if it grants is that request, under the caller's principal, admitted.
    The caller is answered the status of the entry admitted, a refusal by its
    code in an envelope that says not to retry, and anything else as it is. *)
Theorem rpc_admits_what_it_authorized `{CoreJSON} (limits : Limits) (p : Principal) (method : string) (data : bytes) :
  (forall code, refusalBody code = match marshalEnvelope code false with
                                   | Ok body => Ok body | Fail _ => Fail (wrapf [ErrUnreadableRecord]) end)
  /\ wp (RPC_Admit limits p method data) (fun r t =>
    match rpc_request limits method data with
    | None =>
        t = [] /\ r = if bool_decide (method ∈ Methods) then refusalBody ErrorCodeInvalidRequest
                      else Fail (wrapf [ErrUnknownMethod])
    | Some request =>
        (method <> MethodSessionCreate -> method <> MethodSessionInput -> len data <= Z.shiftl 64 10)
        /\ exists denied rest,
             t = Ev _ (EdgeAuthorizeControl p (request_session request) (request_kind request)) denied :: rest
             /\ match denied with
                | Some err => rest = [] /\ r = Fail err
                | None => exists admitted,
                    rest = [Ev _ (AdmitterAdmit p request) admitted]
                    /\ match admitted with
                       | Ok (entry, _) => r = replyFor (StatusForDisposition entry)
                       | Fail err =>
                           match errors_code "admission.Error" err with
                           | Some code => r = refusalBody code
                           | None => r = Fail err
                           end
                       end
                end
    end).
Proof.
  split; [apply refusalBody_final|]. unfold RPC_Admit, rpc_request. destruct (commandSpecs method) as [[kind decode]|] eqn:Hs.
  - assert (Hm : method ∈ Methods) by (apply commandSpecs_methods; by eexists).
    case_match eqn:Hl; [apply wp_ret; by rewrite bool_decide_true|].
    destruct (decode data) as [request|e] eqn:Hd; [|apply wp_ret; by rewrite bool_decide_true].
    rewrite <- (commandSpecs_kind _ _ _ _ _ Hs Hd).
    assert (Hb : method <> MethodSessionCreate -> method <> MethodSessionInput -> len data <= Z.shiftl 64 10).
    { intros H1 H2. unfold rpcLimit in Hl. rewrite !(bool_decide_false (method = _)) in Hl by done. simpl negb in Hl.
      cbn [andb] in Hl. reflect_guards. case_match; reflect_guards; lia. }
    intros [err|]; [apply wp_ret; split; [done|]; by eexists (Some err), []|].
    intros admitted.
    destruct admitted as [[entry created]|err]; [|case_match eqn:Hc]; apply wp_ret; (split; [done|]);
      eexists None, _; (split; [done|]); eexists; (split; [done|]); simpl; rewrite ?Hc; done.
  - apply wp_ret. rewrite bool_decide_false; [done|]. intros Hm. apply commandSpecs_methods in Hm as [? ?]. congruence.
Qed.
