(* ===== verification/HttpErrors.v ===== *)
(** * The HTTP error vocabulary (src/internal/httpapi/errors.go, and the reasons
    of guard.go)

    How each failure becomes a status and a code, and what is written for it.
    Message texts are not modelled: an [apiError] is its status, its code and
    its retry delay. A response is its status, its headers and its body; Core's
    error envelope is encoded by a parameter. *)

From S2P Require Import Prelude Wire Framing Text Program Identity Refusal.
Local Open Scope string_scope.
Local Open Scope Z_scope.

Definition StatusUnauthorized : Z := 401.
Definition StatusForbidden : Z := 403.
Definition StatusInternalServerError : Z := 500.
Definition statusClientClosedRequest : Z := 499.

Definition ErrorCodeUnsupportedVersion := "unsupported_version".
Definition ErrorCodeGateResponseInvalid := "gate_response_invalid".

Definition ErrorCodeUnauthenticated := "unauthenticated".
Definition ErrorCodeNotAuthorized := "not_authorized".
Definition ErrorCodeRouteNotFound := "route_not_found".
Definition ErrorCodeMethodNotAllowed := "method_not_allowed".
Definition ErrorCodeUnsupportedMediaType := "unsupported_media_type".
Definition ErrorCodePayloadTooLarge := "payload_too_large".
Definition ErrorCodeNotImplemented := "not_implemented".
Definition ErrorCodeInternal := "internal_error".
Definition ErrorCodeUnavailable := "unavailable".
Definition ErrorCodeTimeout := "timeout".
Definition ErrorCodeCommandNotFound := "command_not_found".

(** ** The guard's reasons *)
Inductive Reason :=
| ReasonNoRequest | ReasonHostNotTrusted | ReasonOriginNotTrusted | ReasonUpgradeOriginMissing | ReasonOriginMissing
| ReasonUnauthenticated | ReasonCSRFMissing | ReasonCSRFInvalid | ReasonCSRFExpired.

#[global] Instance Reason_eq_dec : EqDecision Reason.
Proof. solve_decision. Defined.

Definition reason_code (reason : Reason) : string :=
  match reason with
  | ReasonNoRequest => "no_request"
  | ReasonHostNotTrusted => "host_not_trusted"
  | ReasonOriginNotTrusted => "origin_not_trusted"
  | ReasonUpgradeOriginMissing => "websocket_origin_missing"
  | ReasonOriginMissing => "origin_missing"
  | ReasonUnauthenticated => "unauthenticated"
  | ReasonCSRFMissing => "csrf_token_missing"
  | ReasonCSRFInvalid => "csrf_token_invalid"
  | ReasonCSRFExpired => "csrf_token_expired"
  end.

(** The keys of [reasonMessages]. *)
Definition reasons : list Reason :=
  [ReasonNoRequest; ReasonHostNotTrusted; ReasonOriginNotTrusted; ReasonUpgradeOriginMissing; ReasonOriginMissing;
   ReasonUnauthenticated; ReasonCSRFMissing; ReasonCSRFInvalid; ReasonCSRFExpired].

(** ** The codes the API answers *)
Definition declaredErrorCodes : list string :=
  [ErrorCodeUnauthenticated; ErrorCodeNotAuthorized; ErrorCodeRouteNotFound; ErrorCodeMethodNotAllowed;
   ErrorCodeUnsupportedMediaType; ErrorCodePayloadTooLarge; ErrorCodeNotImplemented; ErrorCodeInternal;
   ErrorCodeUnavailable; ErrorCodeTimeout; ErrorCodeCommandNotFound].

Definition guardErrorCodes : list string := reason_code <$> reasons.

Definition factoryErrorCodes : list string := declaredErrorCodes ++ guardErrorCodes.

Definition coreErrorCodes : list string :=
  [ErrorCodeInvalidRequest; ErrorCodeUnsupportedVersion; ErrorCodeSessionNotFound; ErrorCodeCommandRejected;
   ErrorCodeGateResolved; ErrorCodeGateNotResumable; ErrorCodeGateExpired; ErrorCodeGateResponseInvalid;
   ErrorCodeRuntimeUnavailable].

Definition apiErrorCodes : list string := factoryErrorCodes ++ coreErrorCodes.

(** ** Failures *)
Record apiError := MkApiError { status : Z; code : string; retryAfter : Z }.

Definition api (status : Z) (code : string) : apiError := MkApiError status code 0.

Definition retryableStatus (status : Z) : bool := RetryableStatus status.

Definition internalFailure : apiError := api StatusInternalServerError ErrorCodeInternal.
Definition sessionNotFound : apiError := api StatusNotFound ErrorCodeSessionNotFound.

Definition contextFailure (err : error) : option apiError :=
  if errors_is err (Sentinel "context.DeadlineExceeded") then Some (api StatusGatewayTimeout ErrorCodeTimeout)
  else if errors_is err (Sentinel "context.Canceled") then Some (api statusClientClosedRequest ErrorCodeTimeout)
  else None.

Definition storeUnavailable (err : error) : option apiError :=
  match errors_as "StoreClosedError" err with
  | None => None
  | Some _ => Some (api StatusServiceUnavailable ErrorCodeUnavailable)
  end.

Definition catalogFailure (err : error) : apiError :=
  match contextFailure err with
  | Some failure => failure
  | None =>
      match storeUnavailable err with
      | Some failure => failure
      | None =>
          if SessionAbsent err then sessionNotFound
          else match errors_code "CatalogError" err with
          | None => internalFailure
          | Some c =>
              if bool_decide (c = "CatalogErrorCursor") then api StatusBadRequest ErrorCodeInvalidRequest
              else internalFailure
          end
      end
  end.

Definition authorizationFailure (err : error) : apiError :=
  if errors_is err (Sentinel "identity.ErrRateLimited") then
    MkApiError StatusTooManyRequests ErrorCodeUnavailable
      (match errors_as "identity.RateLimitedError" err with Some (Typed _ _ _ after) => after | _ => 0 end)
  else if errors_is err (Sentinel "identity.ErrUnauthorized") then api StatusForbidden ErrorCodeNotAuthorized
  else internalFailure.

Definition authenticationFailure (err : error) : apiError :=
  if errors_is err (Sentinel "identity.ErrUnauthenticated") then api StatusUnauthorized ErrorCodeUnauthenticated
  else if errors_is err (Sentinel "identity.ErrVerifierUnavailable") then api StatusServiceUnavailable ErrorCodeUnavailable
  else internalFailure.

(** ** What is written *)
Record Response := MkResponse { resp_status : Z; resp_header : gmap string string; resp_body : bytes }.

Definition emptyHeader : gmap string string := ∅.

(** [writeJSONBytes], on the headers set so far. *)
Definition writeJSONBytes (header : gmap string string) (status : Z) (body : bytes) : Response :=
  MkResponse status
    (<["Cache-Control" := "no-store"]> (<["X-Content-Type-Options" := "nosniff"]> (<["Content-Type" := "application/json"]> header)))
    body.

(** The JSON text, with quotes as the byte they are. *)
Definition q : string := String "034" "".
Definition fallbackErrorBody : bytes :=
  "{" +:+ q +:+ "error" +:+ q +:+ ":{" +:+ q +:+ "code" +:+ q +:+ ":" +:+ q +:+ "internal_error" +:+ q +:+ ","
  +:+ q +:+ "message" +:+ q +:+ ":" +:+ q +:+ "the server could not describe this failure" +:+ q +:+ ","
  +:+ q +:+ "retryable" +:+ q +:+ ":false}}".

(** Durations in nanoseconds. *)
Definition Second : Z := 1000000000.

Definition retryAfterSeconds (d : Z) : Z :=
  let seconds := d `quot` Second in
  if negb (d `rem` Second =? 0) then seconds + 1 else seconds.

Section Write.
(** The envelope of a code and its retryable flag, encoded; [None] is a
    marshalling error. *)
Context (marshalEnvelope : string -> bool -> option bytes).

Definition writeAPIError (header : gmap string string) (e : apiError) : Response :=
  let '(st, body) := match marshalEnvelope (code e) (retryableStatus (status e)) with
                     | Some body => (status e, body)
                     | None => (StatusInternalServerError, fallbackErrorBody)
                     end in
  let header := if (st =? StatusTooManyRequests) && (0 <? retryAfter e)
                then <["Retry-After" := itoa (Z.to_N (retryAfterSeconds (retryAfter e)))]> header else header in
  writeJSONBytes header st body.

Definition writeRejection (header : gmap string string) (reason : Reason) : Response :=
  writeAPIError header (api StatusForbidden (reason_code reason)).
End Write.

(** ** Facts *)
Lemma retryAfterSeconds_ceil d : 0 < d -> d <= retryAfterSeconds d * Second < d + Second.
Proof.
  intros Hd. unfold retryAfterSeconds, Second. pose proof (Z.quot_rem' d 1000000000) as Hq.
  pose proof (Z.rem_bound_pos d 1000000000 ltac:(lia) ltac:(lia)) as Hr.
  destruct (d `rem` 1000000000 =? 0) eqn:H0; simpl; reflect_guards; lia.
Qed.

(** A failure the API may answer: a code of its vocabulary under an error status. *)
Definition public (f : apiError) : bool :=
  bool_decide (code f ∈ apiErrorCodes) && (400 <=? status f) && (status f <? 600).

Lemma contextFailure_public err f : contextFailure err = Some f -> public f = true /\ code f = ErrorCodeTimeout.
Proof. unfold contextFailure. intros Hf. branches; by vm_compute. Qed.

Lemma storeUnavailable_public err f : storeUnavailable err = Some f -> f = api StatusServiceUnavailable ErrorCodeUnavailable.
Proof. unfold storeUnavailable. intros Hf. by branches. Qed.

Lemma catalogFailure_public err : public (catalogFailure err) = true.
Proof.
  unfold catalogFailure. destruct (contextFailure err) as [f|] eqn:Hc; [by apply contextFailure_public in Hc as [? _]|].
  destruct (storeUnavailable err) as [f|] eqn:Hs; [apply storeUnavailable_public in Hs as ->; by vm_compute|].
  repeat case_match; by vm_compute.
Qed.

Lemma authorizationFailure_public err : public (authorizationFailure err) = true.
Proof.
  unfold authorizationFailure. destruct (errors_is err (Sentinel "identity.ErrRateLimited")); [by vm_compute|].
  case_match; by vm_compute.
Qed.

(** Every failure is answered in the API's own vocabulary: whatever the
    error, its code is one the API declares and its status an error status.
    Authentication is 401 only for a refused credential; authorization is 429
    only when throttled and 403 only when denied; a catalog failure says that a
    session does not exist only for the absences Core classifies, and never
    when the request was cancelled or the store is closed. Everything
    unclassified is one opaque 500, which no client is told to retry. *)
Theorem failures_stay_in_the_vocabulary (err : error) :
  public (authenticationFailure err) = true /\ public (authorizationFailure err) = true /\ public (catalogFailure err) = true
  /\ (status (authenticationFailure err) = StatusUnauthorized <-> errors_is err (Sentinel "identity.ErrUnauthenticated") = true)
  /\ (status (authorizationFailure err) = StatusTooManyRequests <-> errors_is err (Sentinel "identity.ErrRateLimited") = true)
  /\ (status (authorizationFailure err) = StatusForbidden <->
        errors_is err (Sentinel "identity.ErrRateLimited") = false /\ errors_is err (Sentinel "identity.ErrUnauthorized") = true)
  /\ (status (catalogFailure err) = StatusNotFound <->
        contextFailure err = None /\ storeUnavailable err = None /\ SessionAbsent err = true)
  /\ retryableStatus (status internalFailure) = false.
Proof.
  split_and!; [|apply authorizationFailure_public|apply catalogFailure_public| | | | |done].
  - unfold authenticationFailure. repeat case_match; by vm_compute.
  - unfold authenticationFailure. repeat case_match; by split.
  - unfold authorizationFailure. repeat case_match; by split.
  - unfold authorizationFailure. repeat case_match; simpl; split; try done; by intros [? ?].
  - unfold catalogFailure. destruct (contextFailure err) as [f|] eqn:Hc.
    + split; [|by intros (? & _)]. intros Hs. unfold contextFailure in Hc. by branches.
    + destruct (storeUnavailable err) as [f|] eqn:Hs; [apply storeUnavailable_public in Hs as ->; split; [done|by intros (_ & ? & _)]|].
      destruct (SessionAbsent err); [done|]. split; [|by intros (_ & _ & ?)]. by repeat case_match.
Qed.

(** Every error response is a JSON document that is neither sniffed nor
    stored, also when the envelope cannot be encoded: then it is the fixed 500
    body. A throttled caller is told to wait at least as long as the throttle
    asked, and less than a second more; nobody else is given a [Retry-After]. *)
Theorem error_response_well_formed (marshalEnvelope : string -> bool -> option bytes) (header : gmap string string) (e : apiError) :
  let r := writeAPIError marshalEnvelope header e in
  let envelope := marshalEnvelope (code e) (retryableStatus (status e)) in
  resp_header r !! "Content-Type" = Some "application/json"
  /\ resp_header r !! "X-Content-Type-Options" = Some "nosniff"
  /\ resp_header r !! "Cache-Control" = Some "no-store"
  /\ (resp_status r, resp_body r) = match envelope with
                                    | Some body => (status e, body)
                                    | None => (StatusInternalServerError, fallbackErrorBody)
                                    end
  /\ (if (resp_status r =? StatusTooManyRequests) && (0 <? retryAfter e) then
        exists n, resp_header r !! "Retry-After" = Some (itoa (Z.to_N n))
          /\ retryAfter e <= n * Second < retryAfter e + Second
      else resp_header r !! "Retry-After" = header !! "Retry-After").
Proof.
  unfold writeAPIError, writeJSONBytes. simpl.
  destruct (marshalEnvelope _ _) as [body|]; simpl; split_and!; try (by simpl_map).
  destruct ((status e =? StatusTooManyRequests) && (0 <? retryAfter e)) eqn:Hg; simpl_map; [|done].
  exists (retryAfterSeconds (retryAfter e)). split; [done|]. apply retryAfterSeconds_ceil. reflect_guards. lia.
Qed.
