(* ===== verification/Objects.v ===== *)
(** * Object reads (src/internal/httpapi/objects.go)

    Range parsing, the verification of an object's body as it is streamed, and
    the whole object route. The policy, the readers and the stream are calls;
    bytes that are indexed are lists. [ctx.Err] is a call, since a request can
    be cancelled between any two steps; [StopAfter] is the [stop] of the
    [context.AfterFunc] that closes the stream on cancellation. *)

From Stdlib Require Import String.
From S2P Require Import Prelude Wire Framing Text Program Identity Refusal Admission HttpErrors.
Local Open Scope prog_scope.
Local Open Scope string_scope.
Local Open Scope Z_scope.

Definition ErrInvalidRouterConfig : error := sentinel "httpapi.ErrInvalidRouterConfig".

(** ** Limits *)
Record ObjectLimits := MkObjectLimits { MaxPageBytes : Z; MaxVerificationBytes : Z }.

Definition DefaultObjectLimits : ObjectLimits := MkObjectLimits (Z.shiftl 1 20) (Z.shiftl 64 20).

Definition ObjectLimits_Validate (l : ObjectLimits) : option error :=
  if (MaxPageBytes l =? 0) || (Z.shiftl 1 20 <? MaxPageBytes l) || (MaxVerificationBytes l <? MaxPageBytes l)
     || (Z.shiftl 64 20 <? MaxVerificationBytes l)
  then Some (wrapf [ErrInvalidRouterConfig]) else None.

(** ** Failures *)
Definition invalidObjectRequest : apiError := api 400 ErrorCodeInvalidRequest.
Definition objectUnavailable : apiError := api 503 ErrorCodeUnavailable.
Definition objectAbsent : apiError := api 404 ErrorCodeInvalidRequest.
Definition objectTooLarge : apiError := api 413 ErrorCodePayloadTooLarge.
Definition rangeOutside : apiError := api 416 ErrorCodeInvalidRequest.

Definition objectPolicyFailure (err : error) : apiError :=
  if errors_is err (Sentinel "identity.ErrUnauthorized") then objectAbsent else authorizationFailure err.

Definition objectFailure (err : error) : apiError :=
  match contextFailure err with
  | Some failure => failure
  | None =>
      match storeUnavailable err with
      | Some failure => failure
      | None =>
          match errors_as "storage.BlobNotFoundError" err with
          | Some _ => objectAbsent
          | None =>
              match errors_code "ObjectError" err with
              | Some c =>
                  if bool_decide (c = "ObjectErrorMetadataUnavailable") then objectAbsent
                  else if bool_decide (c = "ObjectErrorInvalid") then invalidObjectRequest
                  else if bool_decide (c = "ObjectErrorBackend") then objectUnavailable
                  else catalogFailure err
              | None => catalogFailure err
              end
          end
      end
  end.

(** ** Ranges *)

Definition digits (s : string) : bool := negb (bool_decide (s = "")) && all_bytes is_digit s.

Definition objectRange (values : list string) (size maxPage : Z) : Z * Z * bool + apiError :=
  match values with
  | [] =>
      if maxPage <? size then inr objectTooLarge
      else inl (0, if 0 <? size then size - 1 else 0, false)
  | [value] =>
      match after_prefix "bytes=" value with
      | None => inr invalidObjectRequest
      | Some spec =>
          let '(a, b, ok) := cut "-" spec in
          if negb ok || negb (digits a) || negb (digits b) then inr invalidObjectRequest
          else match ParseUint a with
          | None => inr invalidObjectRequest
          | Some start =>
              match ParseUint b with
              | None => inr invalidObjectRequest
              | Some end_ =>
                  if end_ <? start then inr invalidObjectRequest
                  else if (size <=? start) || (size <=? end_) then inr rangeOutside
                  else if maxPage <=? u64 (end_ - start) then inr objectTooLarge
                  else inl (start, end_, true)
              end
          end
      end
  | _ => inr invalidObjectRequest
  end.

(** ** Calls *)

(** sessionwire.ObjectMetadata: its members the code reads. *)
Record ObjectMetadata := MkMetadata { meta_ObjectID : string; meta_SizeBytes : Z; meta_Digest : string }.

Inductive ObjectKind := ObjectKindToolResult | ObjectKindOther (value : string).

#[global] Instance ObjectKind_eq_dec : EqDecision ObjectKind.
Proof. solve_decision. Defined.

(** Which reader answers: the router's own, or the one a resolver returned. *)
Inductive reader := CanonicalReader | SessionObjects | BindingObjects.

Record GetObjectMetadataRequest := MkGetMetadata {
  gm_TenantID : TenantID; gm_SessionID : SessionID; gm_ExpectedKind : ObjectKind; gm_Reference : string }.
Record GetObjectRequest := MkGetObject {
  go_TenantID : TenantID; go_SessionID : SessionID; go_ExpectedKind : ObjectKind; go_Metadata : ObjectMetadata }.

(** A read answers the bytes it put in the window, or [None] for a negative
    count, and an error. [GetObject] and the resolvers answer presence. *)
Inductive objectCall : Type -> Type :=
| AuthorizeReference (p : Principal) (entry : CatalogEntry) (object : string) : objectCall (result ObjectKind)
| ResolveSessionObjects (t : TenantID) (s : SessionID) (b : SessionBinding) : objectCall (result bool)
| ResolveObjectStore (b : SessionBinding) : objectCall (result bool)
| GetObjectMetadata (from : reader) (req : GetObjectMetadataRequest) : objectCall (result ObjectMetadata)
| GetObject (from : reader) (req : GetObjectRequest) : objectCall (result bool)
| CtxErr : objectCall (option error)
| Read (window : Z) : objectCall (option (list ascii) * option error)
| StopAfter : objectCall bool
| CloseStream : objectCall (option error).

Abbreviation reading := (prog objectCall).

(** ** Verification of a body as it is read *)
Record progress := MkProgress { offset : Z; emptyReads : Z; page : list ascii; digested : list ascii }.

(** [errors.New] inside a function: an error no caller can name. *)
Definition anonymous : error := wrapf [].
Definition ErrNoProgress : error := sentinel "io.ErrNoProgress".
Definition bufferBytes : Z := Z.shiftl 32 10.

(** [data[lo:hi]]. *)
Definition section_ (lo hi : Z) (data : list ascii) : list ascii := take (Z.to_nat (hi - lo)) (drop (Z.to_nat lo) data).

Section Verify.
Context `{Sha256} (m : ObjectMetadata) (start end_ ceiling : Z).

Definition pageCount : Z := if 0 <? meta_SizeBytes m then u64 (u64 (end_ - start) + 1) else 0.

(** The bytes of one read: counted, digested, and the part of them in the range
    copied. *)
Definition absorb (p : progress) (data : list ascii) : result progress :=
  let n := Z.of_nat (length data) in
  if 0 <? n then
    if (u64 (ceiling - offset p) <? n) || (meta_SizeBytes m <? u64 (offset p + n)) then Fail anonymous
    else
      let next := u64 (offset p + n) in
      let left := Z.max (offset p) start in
      let right := Z.min next (u64 (end_ + 1)) in
      let page := if (left <? right) && (0 <? pageCount)
                  then list_inserts (Z.to_nat (left - start)) (section_ (left - offset p) (right - offset p) data) (page p)
                  else page p in
      Ok (MkProgress next 0 page (digested p ++ data))
  else
    let empty := emptyReads p + 1 in
    if 100 <? empty then Fail ErrNoProgress
    else Ok (MkProgress (offset p) empty (page p) (digested p)).

Definition window (p : progress) : Z :=
  let remaining := u64 (u64 (ceiling - offset p) + 1) in
  if remaining <? bufferBytes then remaining else bufferBytes.

(** The loop; [None] when the rounds ran out. *)
Fixpoint readLoop (rounds : nat) (p : progress) : reading (option (result progress)) :=
  match rounds with
  | O => Ret None
  | S rounds =>
      call! cancelled := CtxErr in
      match cancelled with
      | Some err => Ret (Some (Fail err))
      | None =>
          call! (read, readErr) := Read (window p) in
          match read with
          | None => Ret (Some (Fail anonymous))
          | Some data =>
              if window p <? Z.of_nat (length data) then Ret (Some (Fail anonymous))
              else match absorb p data with
              | Fail err => Ret (Some (Fail err))
              | Ok p =>
                  match readErr with
                  | None => readLoop rounds p
                  | Some err =>
                      if negb (errors_is err (Sentinel "io.EOF")) then Ret (Some (Fail err)) else Ret (Some (Ok p))
                  end
              end
          end
      end
  end.

(** The rounds that are always enough: a hundred empty reads before each byte. *)
Definition readRounds : nat := Z.to_nat (101 * meta_SizeBytes m + 102).

Definition sha256Digest (body : list ascii) : string :=
  "sha256:" +:+ EncodeToString (Sum256 (string_of_list_ascii body)).

(** The deferred close. *)
Definition closing (r : result (list ascii)) : reading (result (list ascii)) :=
  call! stopped := StopAfter in
  let! r := match stopped with
            | true => call! closeErr := CloseStream in
                      Ret (match r, closeErr with Ok _, Some err => Fail err | _, _ => r end)
            | false => Ret r
            end in
  call! late := CtxErr in
  Ret (match late with Some err => Fail err | None => r end).

Definition verifiedObjectPage : reading (option (result (list ascii))) :=
  let! r := readLoop readRounds (MkProgress 0 0 (replicate (Z.to_nat pageCount) "000"%char) []) in
  match r with
  | None => Ret None
  | Some r =>
      let r := match r with
               | Fail err => Fail err
               | Ok p =>
                   if negb (offset p =? meta_SizeBytes m) || negb (bool_decide (meta_Digest m = sha256Digest (digested p)))
                   then Fail anonymous else Ok (page p)
               end in
      let! r := closing r in Ret (Some r)
  end.
End Verify.

(** ** The object route *)

(** What the route reads of its request: the contexts its middleware left, the
    path, the method and the [Range] values. *)
Record ObjectRequest := MkObjectRequest {
  oreq_operation : option OperationContext;
  oreq_session : option CatalogEntry;
  oreq_sid : SessionID;
  oreq_oid : string;
  oreq_Range : list string;
  oreq_HEAD : bool
}.

(** The router's members the route reads, the functions by presence. *)
Record ObjectRouter := MkObjectRouter {
  hasPolicy : bool; hasSessionResolver : bool; hasStoreResolver : bool; objectLimits : ObjectLimits }.

Definition unbound : SessionBinding := Session_Binding "" "" "" (ProtocolModeOther "").

(** A [scope]'s object requests: the tenant is the principal's. *)
Definition objectMetadata (p : Principal) (session : SessionID) (ref : string) (kind : ObjectKind) : GetObjectMetadataRequest :=
  MkGetMetadata (tenant p) session kind ref.
Definition objectBody (p : Principal) (session : SessionID) (m : ObjectMetadata) (kind : ObjectKind) : GetObjectRequest :=
  MkGetObject (tenant p) session kind m.

(** sessionstore and sessionwire: a record's summary and a metadata record are
    validated and encoded there. *)
Class ObjectCodec := {
  Summary : CatalogRecord -> option error;
  Metadata_Validate : ObjectMetadata -> option error;
  marshalMetadata : ObjectMetadata -> option bytes
}.

Section Route.
Context `{Sha256} `{ObjectCodec} (marshalEnvelope : string -> bool -> option bytes) (rt : ObjectRouter).

Definition fails (header : gmap string string) (f : apiError) : Response := writeAPIError marshalEnvelope header f.
Definition refuse (f : apiError) : reading (option Response) := Ret (Some (fails ∅ f)).

(** The reader of an entry and the session it is addressed by. *)
Definition resolveReader (p : Principal) (entry : CatalogEntry) : reading ((reader * SessionID) + apiError) :=
  let record := entry_Record entry in
  let binding := rec_Binding record in
  let resolved (r : reader) (address : SessionID) (answer : result bool) : (reader * SessionID) + apiError :=
    match answer with
    | Fail err => inr (match contextFailure err with Some failure => failure | None => objectUnavailable end)
    | Ok false => inr objectUnavailable
    | Ok true => inl (r, address)
    end in
  if bool_decide (binding = unbound) then Ret (inl (CanonicalReader, rec_SessionID record))
  else if hasSessionResolver rt then
    call! answer := ResolveSessionObjects (tenant p) (rec_SessionID record) binding in
    Ret (resolved SessionObjects (bnd_RuntimeSessionID binding) answer)
  else if hasStoreResolver rt then
    call! answer := ResolveObjectStore binding in
    Ret (resolved BindingObjects (rec_SessionID record) answer)
  else Ret (inr objectUnavailable).

(** The response that carries a page. *)
Definition pageResponse (head : bool) (m : ObjectMetadata) (start end_ : Z) (partial : bool) (page : list ascii) : Response :=
  let header : gmap string string :=
    <["X-Object-Size" := formatUint (meta_SizeBytes m)]> (<["X-Object-Digest" := meta_Digest m]>
    (<["Accept-Ranges" := "bytes"]> (<["Content-Length" := itoa (N.of_nat (length page))]>
    (<["Content-Type" := "application/octet-stream"]> ∅)))) in
  let header := if partial
    then <["Content-Range" := "bytes " +:+ formatUint start +:+ "-" +:+ formatUint end_ +:+ "/" +:+ formatUint (meta_SizeBytes m)]> header
    else header in
  MkResponse (if partial then 206 else 200) header (if head then "" else string_of_list_ascii page).

(** The body of an object, from the reader it was resolved to. *)
Definition serveBody (r : ObjectRequest) (p : Principal) (from : reader) (address : SessionID) (kind : ObjectKind)
    (m : ObjectMetadata) : reading (option Response) :=
  let limits := objectLimits rt in
  match objectRange (oreq_Range r) (meta_SizeBytes m) (MaxPageBytes limits) with
  | inr failure =>
      let header : gmap string string :=
        if status failure =? 416 then <["Content-Range" := "bytes */" +:+ formatUint (meta_SizeBytes m)]> ∅ else ∅ in
      Ret (Some (fails header failure))
  | inl (start, end_, partial) =>
      if MaxVerificationBytes limits <? meta_SizeBytes m then refuse objectTooLarge
      else
        call! stream := GetObject from (objectBody p address m kind) in
        match stream with
        | Fail err => refuse (objectFailure err)
        | Ok false => refuse internalFailure
        | Ok true =>
            let! verified := verifiedObjectPage m start end_ (MaxVerificationBytes limits) in
            match verified with
            | None => Ret None
            | Some (Fail err) => refuse (objectFailure err)
            | Some (Ok page) => Ret (Some (pageResponse (oreq_HEAD r) m start end_ partial page))
            end
        end
  end.

Definition serveObject (metadataOnly : bool) (r : ObjectRequest) : reading (option Response) :=
  match oreq_operation r, oreq_session r with
  | None, _ | _, None => refuse internalFailure
  | Some op, Some entry =>
      let p := op_Principal op in
      let record := entry_Record entry in
      if negb (hasPolicy rt) then refuse objectUnavailable
      else if negb (valid (Summary record)) || negb (bool_decide (rec_TenantID record = tenant p))
              || negb (bool_decide (rec_SessionID record = oreq_sid r))
      then refuse internalFailure
      else
        call! authorized := AuthorizeReference p entry (oreq_oid r) in
        match authorized with
        | Fail err => refuse (objectPolicyFailure err)
        | Ok kind =>
            if negb (bool_decide (kind = ObjectKindToolResult)) then refuse internalFailure
            else
              let! resolved := resolveReader p entry in
              match resolved with
              | inr failure => refuse failure
              | inl (from, address) =>
                  call! metadata := GetObjectMetadata from (objectMetadata p address (oreq_oid r) kind) in
                  match metadata with
                  | Fail err => refuse (objectFailure err)
                  | Ok m =>
                      if negb (valid (Metadata_Validate m)) || negb (bool_decide (meta_ObjectID m = oreq_oid r))
                      then refuse internalFailure
                      else if metadataOnly then
                        match marshalMetadata m with
                        | None => refuse internalFailure
                        | Some body => Ret (Some (writeJSONBytes ∅ 200 body))
                        end
                      else serveBody r p from address kind m
                  end
              end
        end
  end.
End Route.

(** ** Ranges *)
Lemma ParseUint_range s v : ParseUint s = Some v -> all_bytes is_digit s = true -> is_u64 v.
Proof.
  unfold ParseUint. intros Hv Hs. case_match eqn:Hb; simplify_eq. reflect_guards.
  pose proof (decimal_pos s 0 ltac:(lia) Hs). unfold is_u64. lia.
Qed.

Lemma digits_itoa n : digits (itoa n) = true.
Proof. unfold digits. by rewrite itoa_digits, bool_decide_false by apply itoa_nonempty. Qed.

(** A range is served exactly as asked and never past a bound. Whatever
    the header says, what is served lies inside the object and is at most one
    page; without a header it is the whole object, and with one it is the two
    numbers the header spells; every refusal is 400, 413 or 416. Conversely, a
    well-formed range inside the object and no longer than a page is served. *)
Theorem object_range_exact (values : list string) (size maxPage : Z) :
  is_u64 size -> 0 < maxPage ->
  match objectRange values size maxPage with
  | inl (start, end_, partial) =>
      0 <= start <= end_ /\ end_ < Z.max 1 size /\ Z.min size (end_ - start + 1) <= maxPage
      /\ (if partial then exists a b, values = ["bytes=" +:+ a +:+ "-" +:+ b] /\ ParseUint a = Some start /\ ParseUint b = Some end_
          else values = [] /\ start = 0 /\ end_ = Z.max 0 (size - 1))
  | inr f => status f ∈ [400; 413; 416]
  end
  /\ (forall a b : N, (a <= b)%N -> Z.of_N b < size -> Z.of_N b - Z.of_N a < maxPage ->
        objectRange ["bytes=" +:+ itoa a +:+ "-" +:+ itoa b] size maxPage = inl (Z.of_N a, Z.of_N b, true)).
Proof.
  intros Hsize Hmax. unfold is_u64 in Hsize.
  assert (Hst : Forall (fun f => status f ∈ [400; 413; 416]) [invalidObjectRequest; objectTooLarge; rangeOutside]).
  { repeat constructor; by apply bool_decide_eq_true; vm_compute. }
  apply Forall_cons in Hst as [H400 Hst]. apply Forall_cons in Hst as [H413 Hst]. apply Forall_cons in Hst as [H416 _]. split.
  - unfold objectRange. destruct values as [|v [|? ?]]; [| |done].
    + destruct (maxPage <? size) eqn:Hg; [done|]. destruct (0 <? size) eqn:Hz; reflect_guards; split_and!; try done; lia.
    + destruct (after_prefix "bytes=" v) as [spec|] eqn:Hv; [|done]. apply after_prefix_some in Hv as ->.
      destruct (cut "-" spec) as [[a b] ok] eqn:Hc.
      destruct (negb ok || _ || _) eqn:Hg; [done|]. unfold digits in Hg. reflect_guards. subst ok. apply cut_found in Hc as [-> _].
      destruct (ParseUint a) as [start|] eqn:Ha; [|done]. destruct (ParseUint b) as [end_|] eqn:Hb; [|done].
      destruct (end_ <? start) eqn:?; [done|]. destruct (_ || _) eqn:?; [done|].
      destruct (maxPage <=? _) eqn:?; [done|]. reflect_guards.
      pose proof (ParseUint_range a start Ha ltac:(done)) as Hra. pose proof (ParseUint_range b end_ Hb ltac:(done)) as Hrb.
      unfold is_u64 in *. rewrite u64_small in * by (unfold is_u64; lia).
      split_and!; [lia..|by exists a, b].
  - intros a b Hab Hb Hp. unfold objectRange. rewrite after_prefix_app.
    change ("-" +:+ itoa b) with (String "-" (itoa b)).
    rewrite (cut_app "-" (itoa a)) by (by apply digits_have_no; [|apply itoa_digits]). simpl.
    rewrite !digits_itoa. simpl. unfold ParseUint. rewrite !decimal_itoa.
    rewrite !(proj2 (Z.ltb_lt _ u64_modulus)) by lia. rewrite (proj2 (Z.ltb_ge _ _)) by lia.
    rewrite !(proj2 (Z.leb_gt size _)) by lia. simpl.
    rewrite u64_small by (unfold is_u64; lia). by rewrite (proj2 (Z.leb_gt maxPage _)) by lia.
Qed.

Lemma object_range_exact_witness :
  objectRange ["bytes=2-5"] 10 4 = inl (2, 5, true) /\ objectRange ["bytes=2-6"] 10 4 = inr objectTooLarge
  /\ objectRange ["bytes=2-10"] 10 4 = inr rangeOutside /\ objectRange [] 0 4 = inl (0, 0, false).
Proof.
  split; [|by vm_compute]. apply (proj2 (object_range_exact [] 10 4 ltac:(done) ltac:(done)) 2%N 5%N); lia.
Defined.

(** ** Verified bodies *)

(** The bytes a stream produced. *)
Definition produced (e : event objectCall) : list ascii :=
  match e with
  | Ev _ (Read _) answer => default [] answer.1
  | _ => []
  end.
Definition body_of (t : list (event objectCall)) : list ascii := concat (produced <$> t).

Lemma body_of_app t u : body_of (t ++ u)%list = (body_of t ++ body_of u)%list.
Proof. unfold body_of. by rewrite fmap_app, concat_app. Qed.

Section Verified.
Context `{Sha256} (m : ObjectMetadata) (start end_ ceiling : Z).
Context (Hsize : 0 <= meta_SizeBytes m <= ceiling) (Hceiling : ceiling < u64_modulus - 1).
Context (Hrange : 0 <= start <= end_ /\ end_ < Z.max 1 (meta_SizeBytes m)).

Lemma pageCount_val : pageCount m start end_ = if 0 <? meta_SizeBytes m then end_ - start + 1 else 0.
Proof.
  unfold pageCount. case_match eqn:Hs; [|done]. reflect_guards.
  rewrite (u64_small (end_ - start)) by (unfold is_u64; lia). apply u64_small. unfold is_u64. lia.
Qed.

(** What has been read is digested, and the part of it in the range copied. *)
Record verified (p : progress) : Prop := {
  vf_offset : offset p = Z.of_nat (length (digested p));
  vf_bound : offset p <= meta_SizeBytes m;
  vf_empty : 0 <= emptyReads p <= 100;
  vf_length : Z.of_nat (length (page p)) = pageCount m start end_;
  vf_page : forall i : nat, Z.of_nat i < pageCount m start end_ -> start + Z.of_nat i < offset p ->
              page p !! i = digested p !! (Z.to_nat start + i)%nat
}.

(** The bound on the rounds that are left. *)
Definition left_over (p : progress) : Z := 101 * (meta_SizeBytes m - offset p) + (101 - emptyReads p).

Lemma section_lookup lo hi data (j : nat) :
  0 <= lo -> Z.of_nat j < hi - lo -> section_ lo hi data !! j = data !! (Z.to_nat lo + j)%nat.
Proof. intros Hlo Hj. unfold section_. rewrite lookup_take_lt by lia. by rewrite lookup_drop. Qed.

Lemma section_length lo hi data :
  0 <= lo <= hi -> hi <= Z.of_nat (length data) -> length (section_ lo hi data) = Z.to_nat (hi - lo).
Proof. intros Hlo Hhi. unfold section_. rewrite length_take, length_drop. lia. Qed.

(** The copy, byte by byte. *)
Lemma copied_page p data (o := offset p) (left := Z.max o start) (right := Z.min (o + Z.of_nat (length data)) (end_ + 1))
    (page' := if (left <? right) && (0 <? pageCount m start end_)
              then list_inserts (Z.to_nat (left - start)) (section_ (left - o) (right - o) data) (page p) else page p) :
  verified p ->
  length page' = length (page p)
  /\ forall i : nat, Z.of_nat i < pageCount m start end_ -> start + Z.of_nat i < o + Z.of_nat (length data) ->
       page' !! i = (digested p ++ data)%list !! (Z.to_nat start + i)%nat.
Proof.
  intros [Ho Hb He Hl Hp]. fold o in Ho, Hp, Hb. split; [unfold page'; case_match; [apply length_inserts|done]|].
  intros i Hi Hn. pose proof pageCount_val as Hc. rewrite Hc in Hi. case_match eqn:Hs; reflect_guards; [|lia].
  rewrite Hc in Hl. assert (Hlr : start + Z.of_nat i < right) by (unfold right; lia).
  destruct (decide (start + Z.of_nat i < o)) as [Hlt|Hge].
  - rewrite lookup_app_l by lia. rewrite <- Hp by (rewrite ?Hc; lia).
    unfold page'. case_match; [|done]. apply list_lookup_inserts_lt. unfold left. lia.
  - rewrite lookup_app_r by lia. unfold page'.
    rewrite (proj2 (Z.ltb_lt left right)) by (unfold left; lia). rewrite Hc, (proj2 (Z.ltb_lt 0 _)) by lia. simpl.
    assert (Hlen : length (section_ (left - o) (right - o) data) = Z.to_nat (right - left)).
    { rewrite section_length by (unfold left, right in *; lia). f_equal. lia. }
    rewrite list_lookup_inserts; [|rewrite Hlen; unfold left in *; lia|lia].
    rewrite section_lookup by (unfold left; lia). f_equal. unfold left. lia.
Qed.

Lemma absorb_verified p data p' :
  verified p -> absorb m start end_ ceiling p data = Ok p' ->
  verified p' /\ digested p' = (digested p ++ data)%list /\ left_over p' < left_over p.
Proof.
  intros Hv. pose proof Hv as [Ho Hb He Hl Hp]. unfold absorb, left_over.
  destruct (0 <? Z.of_nat (length data)) eqn:Hn; reflect_guards.
  - rewrite (u64_small (ceiling - offset p)) by (unfold is_u64; lia).
    destruct (ceiling - offset p <? Z.of_nat (length data)) eqn:Hg; [done|]. reflect_guards.
    rewrite (u64_small (offset p + _)) by (unfold is_u64; lia). rewrite (u64_small (end_ + 1)) by (unfold is_u64; lia). simpl.
    destruct (meta_SizeBytes m <? _) eqn:Hm; [done|]. intros Hok. injection Hok as <-. reflect_guards. simpl.
    destruct (copied_page p data Hv) as [Hlen Hpage].
    split_and!; [split; simpl; [rewrite length_app; lia|lia|lia|by rewrite Hlen|exact Hpage]|done|lia].
  - case_match eqn:Hm; [done|]. intros Hok. injection Hok as <-. reflect_guards. simpl.
    assert (Hd : data = []) by (destruct data; [done|simpl in *; lia]). subst data. rewrite app_nil_r.
    split_and!; [split; simpl; try done; lia|done|lia].
Qed.

(** What a body that was accepted has been. *)
Definition accepted (body : list ascii) (pg : list ascii) : Prop :=
  Z.of_nat (length body) = meta_SizeBytes m /\ meta_Digest m = sha256Digest body
  /\ pg = (if 0 <? meta_SizeBytes m then section_ start (end_ + 1) body else []).

Lemma verified_accepted p :
  verified p -> offset p = meta_SizeBytes m -> meta_Digest m = sha256Digest (digested p) -> accepted (digested p) (page p).
Proof.
  intros [Ho Hb He Hl Hp] Hoff Hd. split_and!; [lia|done|]. rewrite pageCount_val in Hl.
  destruct (0 <? meta_SizeBytes m) eqn:Hs; reflect_guards.
  - apply list_eq_same_length with (length (page p)); [|done|].
    + rewrite section_length; lia.
    + intros i x y Hi Hx Hy. rewrite Hp in Hx by (rewrite ?pageCount_val, ?(proj2 (Z.ltb_lt _ _)); lia).
      rewrite section_lookup in Hy by lia. congruence.
  - by apply nil_length_inv; lia.
Qed.

Lemma readLoop_verified : forall rounds p, verified p -> left_over p < Z.of_nat rounds ->
  wp (readLoop m start end_ ceiling rounds p) (fun r t =>
    match r with
    | None => False
    | Some (Fail _) => True
    | Some (Ok p') => verified p' /\ digested p' = (digested p ++ body_of t)%list
    end).
Proof.
  induction rounds as [|rounds IH]; intros p Hv Hf.
  { destruct Hv as [Ho Hb He Hl Hp]. unfold left_over in Hf. lia. }
  simpl. intros [err|]; [done|]. intros [[data|] readErr]; [|done].
  case_match; [done|]. destruct (absorb m start end_ ceiling p data) as [p'|err] eqn:Ha; [|done].
  destruct (absorb_verified p data p' Hv Ha) as (Hv' & Hd & Hlo).
  destruct readErr as [err|].
  - case_match; [done|]. apply wp_ret. split; [done|]. unfold body_of. simpl. by rewrite app_nil_r.
  - eapply wp_mono; [|apply IH; [done|lia]]. simpl. intros [[p2|e]|] t; [|done..]. intros [Hv2 Hd2]. split; [done|].
    rewrite Hd2, Hd. unfold body_of. simpl. by rewrite app_assoc.
Qed.

Lemma closing_wp r :
  wp (closing r) (fun r' t => body_of t = [] /\ forall pg, r' = Ok pg -> r = Ok pg).
Proof.
  intros [|]; simpl.
  - intros closeErr late. split; [done|]. intros pg Hr. destruct late; [done|]. destruct r, closeErr; by simplify_eq.
  - intros late. split; [done|]. intros pg Hr. by destruct late.
Qed.

Lemma verified_start : verified (MkProgress 0 0 (replicate (Z.to_nat (pageCount m start end_)) "000"%char) []).
Proof.
  split; simpl; [done|lia|lia| |intros; lia].
  rewrite length_replicate, pageCount_val. case_match; lia.
Qed.
End Verified.

Lemma verifiedObjectPage_accepted `{Sha256} (m : ObjectMetadata) (start end_ ceiling : Z) :
  0 <= meta_SizeBytes m <= ceiling -> ceiling < u64_modulus - 1 ->
  0 <= start <= end_ -> end_ < Z.max 1 (meta_SizeBytes m) ->
  wp (verifiedObjectPage m start end_ ceiling) (fun r t =>
    match r with
    | None => False
    | Some (Fail _) => True
    | Some (Ok pg) => accepted m start end_ (body_of t) pg
    end).
Proof.
  intros Hsize Hc Hr He. assert (Hrange : 0 <= start <= end_ /\ end_ < Z.max 1 (meta_SizeBytes m)) by done.
  unfold verifiedObjectPage. eapply wp_seq.
  { apply (readLoop_verified m start end_ ceiling Hsize Hc Hrange); [by apply (verified_start m start end_ ceiling)|].
    unfold left_over, readRounds. simpl. lia. }
  intros [r|] t Ht; [|done]. simpl in Ht.
  set (r' := match r with Fail err => Fail err | Ok p => _ end). eapply wp_seq; [apply (closing_wp r')|].
  intros r2 u [Hu Hr2]. apply wp_ret. destruct r2 as [pg|]; [|done]. specialize (Hr2 pg eq_refl).
  unfold r' in Hr2. destruct r as [p|]; [|done]. destruct Ht as [Hv Hd]. case_match eqn:Hg; [done|]. reflect_guards.
  injection Hr2 as <-. rewrite (app_nil_r u), body_of_app, Hu, app_nil_r, <- Hd.
  by apply (verified_accepted m start end_ ceiling).
Qed.

(** C12: Nothing unverified is served. Whatever the stream and the context do
    (short reads, empty reads, errors with data, overruns, cancellation, a
    failing close), reading an object ends, and a page is returned only if the
    bytes the stream produced are exactly the object's size and hash to its
    digest; the page is then precisely the requested range of those bytes. *)
Theorem object_page_is_verified `{Sha256} (m : ObjectMetadata) (start end_ ceiling : Z) :
  0 <= meta_SizeBytes m <= ceiling -> ceiling < u64_modulus - 1 ->
  0 <= start <= end_ -> end_ < Z.max 1 (meta_SizeBytes m) ->
  wp (verifiedObjectPage m start end_ ceiling) (fun r t =>
    match r with
    | None => False
    | Some (Fail _) => True
    | Some (Ok pg) => accepted m start end_ (body_of t) pg
    end).
Proof. apply verifiedObjectPage_accepted. Qed.

(** ** The route *)
Lemma objectFailure_public err : public (objectFailure err) = true.
Proof.
  unfold objectFailure. destruct (contextFailure err) as [f|] eqn:Hc; [by apply contextFailure_public in Hc as [? _]|].
  destruct (storeUnavailable err) as [f|] eqn:Hs; [apply storeUnavailable_public in Hs as ->; by vm_compute|].
  destruct (errors_as _ err); [by vm_compute|]. destruct (errors_code _ err); [|apply catalogFailure_public].
  do 3 (case_bool_decide; [by vm_compute|]). apply catalogFailure_public.
Qed.

Lemma objectPolicyFailure_public err : public (objectPolicyFailure err) = true.
Proof.
  unfold objectPolicyFailure. case_match; [by vm_compute|]. apply authorizationFailure_public.
Qed.

Lemma public_status f : public f = true -> 400 <= status f.
Proof. unfold public. intros Hp. reflect_guards. lia. Qed.

Lemma fails_status envelope header f : 400 <= status f -> 400 <= resp_status (fails envelope header f).
Proof. intros Hf. unfold fails, writeAPIError. by destruct (envelope _ _). Qed.

(** Sizes are what a [uint64] can hold. *)
Definition sized_answer (e : event objectCall) : bool :=
  match e with
  | Ev _ (GetObjectMetadata _ _) answer =>
      match answer with Ok m => (0 <=? meta_SizeBytes m) && (meta_SizeBytes m <? u64_modulus) | Fail _ => true end
  | _ => true
  end.

(** A stream is opened. *)
Definition opens (e : event objectCall) : bool := match e with Ev _ (GetObject _ _) _ => true | _ => false end.

Lemma verifiedObjectPage_opens `{Sha256} m start end_ ceiling : only (fun e => opens e = false) (verifiedObjectPage m start end_ ceiling).
Proof.
  assert (Hloop : forall rounds p, only (fun e => opens e = false) (readLoop m start end_ ceiling rounds p)).
  { induction rounds as [|rounds IH]; intros p; [apply only_ret|]. simpl. apply only_call; [done|]. intros [err|]; [apply only_ret|].
    apply only_call; [done|]. intros [[data|] readErr]; [|apply only_ret]. repeat (case_match; try apply only_ret). apply IH. }
  unfold verifiedObjectPage, closing. apply only_bind; [apply Hloop|]. intros [r|]; walk_only.
Qed.

(** The session a reader is addressed by. *)
Definition address_of (from : reader) (record : CatalogRecord) : SessionID :=
  match from with SessionObjects => bnd_RuntimeSessionID (rec_Binding record) | _ => rec_SessionID record end.

Lemma refuse_wp envelope f (Q : option Response -> list (event objectCall) -> Prop) :
  public f = true -> (forall rsp, 400 <= resp_status rsp -> Q (Some rsp) []) -> wp (refuse envelope f) Q.
Proof. intros Hf HQ. apply wp_ret, HQ, fails_status, public_status, Hf. Qed.

Ltac refused :=
  apply refuse_wp;
  [lazymatch goal with
   | |- public (objectFailure _) = _ => apply objectFailure_public
   | |- public (objectPolicyFailure _) = _ => apply objectPolicyFailure_public
   | _ => first [assumption | by vm_compute]
   end
  |intros; eexists; (split; [done|by left])].

Section Served.
Context `{Sha256} `{ObjectCodec} (envelope : string -> bool -> option bytes) (rt : ObjectRouter).
Context (Hlimits : ObjectLimits_Validate (objectLimits rt) = None) (Hpage : 0 <= MaxPageBytes (objectLimits rt)).

(** The reader a session's binding selects: the router's own for a session
    without one, and otherwise what the resolver answered for that very
    binding. *)
Definition selected (p : Principal) (record : CatalogRecord) (from : reader) (t : list (event objectCall)) : Prop :=
  match from with
  | CanonicalReader => rec_Binding record = unbound
  | SessionObjects => rec_Binding record <> unbound /\ hasSessionResolver rt = true
      /\ Ev _ (ResolveSessionObjects (tenant p) (rec_SessionID record) (rec_Binding record)) (Ok true) ∈ t
  | BindingObjects => rec_Binding record <> unbound /\ hasSessionResolver rt = false
      /\ Ev _ (ResolveObjectStore (rec_Binding record)) (Ok true) ∈ t
  end.

(** A response that carries a verified page of the object [body] asks for: the
    one stream opened is that body's, every byte was read from it, and the bytes
    are the object's. *)
Definition page_of (r : ObjectRequest) (from : reader) (body : GetObjectRequest) (rsp : Response) (t : list (event objectCall)) : Prop :=
  exists start end_ partial pg before reads,
    t = (before ++ Ev _ (GetObject from body) (Ok true) :: reads)%list
    /\ body_of before = [] /\ forallb (fun e => negb (opens e)) (before ++ reads) = true
    /\ objectRange (oreq_Range r) (meta_SizeBytes (go_Metadata body)) (MaxPageBytes (objectLimits rt)) = inl (start, end_, partial)
    /\ accepted (go_Metadata body) start end_ (body_of reads) pg
    /\ rsp = pageResponse (oreq_HEAD r) (go_Metadata body) start end_ partial pg.

(** A response that carries an object, or its metadata, and what licensed it. *)
Definition served (metadataOnly : bool) (r : ObjectRequest) (rsp : Response) (t : list (event objectCall)) : Prop :=
  exists op entry from m,
    let address := address_of from (entry_Record entry) in
    oreq_operation r = Some op /\ oreq_session r = Some entry
    /\ rec_TenantID (entry_Record entry) = tenant (op_Principal op) /\ rec_SessionID (entry_Record entry) = oreq_sid r
    /\ Ev _ (AuthorizeReference (op_Principal op) entry (oreq_oid r)) (Ok ObjectKindToolResult) ∈ t
    /\ selected (op_Principal op) (entry_Record entry) from t
    /\ Ev _ (GetObjectMetadata from (MkGetMetadata (tenant (op_Principal op)) address ObjectKindToolResult (oreq_oid r))) (Ok m) ∈ t
    /\ meta_ObjectID m = oreq_oid r
    /\ if metadataOnly then marshalMetadata m = Some (resp_body rsp) /\ forallb (fun e => negb (opens e)) t = true
       else page_of r from (MkGetObject (tenant (op_Principal op)) address ObjectKindToolResult m) rsp t.

(** An answer: a failure, or something licensed. *)
Definition answered (P : Response -> list (event objectCall) -> Prop) (resp : option Response) (t : list (event objectCall)) : Prop :=
  exists rsp, resp = Some rsp /\ (400 <= resp_status rsp \/ P rsp t).

Lemma limits_range : 0 < MaxPageBytes (objectLimits rt) /\ MaxVerificationBytes (objectLimits rt) <= Z.shiftl 64 20.
Proof. unfold ObjectLimits_Validate in Hlimits. case_match eqn:Hg; [done|]. reflect_guards. lia. Qed.

Lemma serveBody_answered r p from address kind m :
  is_u64 (meta_SizeBytes m) ->
  wp (serveBody envelope rt r p from address kind m) (answered (page_of r from (MkGetObject (tenant p) address kind m))).
Proof.
  intros Hs. destruct limits_range as [Hp Hc]. unfold serveBody.
  pose proof (proj1 (object_range_exact (oreq_Range r) (meta_SizeBytes m) _ Hs Hp)) as Hr.
  destruct (objectRange _ _ _) as [[[start end_] partial]|f] eqn:Hrange.
  - destruct (_ <? meta_SizeBytes m) eqn:Hg; [refused|]. reflect_guards.
    intros [[|]|err]; [|refused|refused].
    destruct Hr as (H1 & H2 & _). unfold is_u64 in Hs.
    assert (Hc' : MaxVerificationBytes (objectLimits rt) < u64_modulus - 1) by (eapply Z.le_lt_trans; [exact Hc|done]).
    eapply wp_seq; [apply wp_and; [apply (verifiedObjectPage_accepted m start end_ (MaxVerificationBytes (objectLimits rt))); lia
      |apply verifiedObjectPage_opens]|].
    intros [[pg|err]|] t [Ht Hopens]; [| |done]; [|refused].
    apply wp_ret. eexists. split; [done|]. right. exists start, end_, partial, pg, [], t. rewrite app_nil_r. split_and!; try done.
    apply forallb_forall. intros e He%list_elem_of_In. by rewrite (proj1 (Forall_forall _ _) Hopens e He).
  - apply wp_ret. eexists. split; [done|]. left. apply fails_status.
    apply list_elem_of_In in Hr. simpl in Hr. lia.
Qed.

Lemma resolveReader_wp p entry :
  wp (resolveReader rt p entry) (fun a t => body_of t = [] /\ forallb (fun e => negb (opens e)) t = true /\
    match a with
    | inr f => public f = true
    | inl (from, address) => address = address_of from (entry_Record entry) /\ selected p (entry_Record entry) from t
    end).
Proof.
  unfold resolveReader. case_bool_decide as Hu; [by apply wp_ret|].
  assert (Hf : forall err, public (match contextFailure err with Some f => f | None => objectUnavailable end) = true).
  { intros err. destruct (contextFailure err) as [f|] eqn:Hc; [by apply contextFailure_public in Hc as [? _]|by vm_compute]. }
  destruct (hasSessionResolver rt) eqn:Hses; [|destruct (hasStoreResolver rt); [|by apply wp_ret]].
  all: intros [[|]|err]; (split; [done|]; split; [done|]); try done; try apply Hf.
  all: split; [done|]; split; [done|]; split; [done|]; apply list_elem_of_here.
Qed.

Lemma selected_mono p record from t t' : t ⊆ t' -> selected p record from t -> selected p record from t'.
Proof. intros Ht. destruct from; [done|..]; intros (? & ? & Hin); split_and!; try done; by apply Ht. Qed.
End Served.

(** C28: An object, or its metadata, is answered only as authorized. Whatever
    the policy, the readers and the stream answer, the route answers, and an
    answer that is not an error comes from: an authenticated principal, the
    session entry the path names in that principal's own tenant, the policy's
    grant of this reference as a tool result, and metadata for this very
    reference read under that tenant from the reader the session's binding
    selects: the router's own only for a session without a binding, and otherwise
    the one the resolver answered for that binding (addressed by the runtime
    session only through the session resolver). The body is then read from that
    same reader, under the same tenant and address, for that metadata, in the one
    stream the run opens, and is exactly the verified range that was asked; for
    the metadata no stream is opened at all. *)
Theorem object_served_as_authorized `{Sha256} `{ObjectCodec} (envelope : string -> bool -> option bytes) (rt : ObjectRouter)
    (metadataOnly : bool) (r : ObjectRequest) :
  ObjectLimits_Validate (objectLimits rt) = None -> 0 <= MaxPageBytes (objectLimits rt) ->
  wp (serveObject envelope rt metadataOnly r) (fun resp t => forallb sized_answer t = true -> answered (served rt metadataOnly r) resp t).
Proof.
  intros Hlim Hpage. unfold serveObject.
  destruct (oreq_operation r) as [op|] eqn:Hop, (oreq_session r) as [entry|] eqn:Hse;
    try refused.
  destruct (negb (hasPolicy rt)); [refused|]. destruct (negb (valid _) || _ || _) eqn:Hown; [refused|].
  intros [kind|err]; [|refused]. destruct (negb (bool_decide (kind = _))) eqn:Hkind; [refused|].
  reflect_guards. subst kind.
  eapply wp_seq; [apply resolveReader_wp|]. intros [[from address]|f] t (Hbody & Hopen & Hres); [|refused].
  destruct Hres as [-> Hfrom]. intros [m|err]; [|refused]. destruct (negb (valid _) || _) eqn:Hm; [refused|]. reflect_guards.
  assert (Hlic : forall rsp u, (if metadataOnly then marshalMetadata m = Some (resp_body rsp) /\ u = []
      else page_of rt r from (MkGetObject (tenant (op_Principal op)) (address_of from (entry_Record entry)) ObjectKindToolResult m) rsp u) ->
    served rt metadataOnly r rsp
      (Ev _ (AuthorizeReference (op_Principal op) entry (oreq_oid r)) (Ok ObjectKindToolResult)
       :: t ++ Ev _ (GetObjectMetadata from (objectMetadata (op_Principal op) (address_of from (entry_Record entry)) (oreq_oid r)
            ObjectKindToolResult)) (Ok m) :: u)).
  { intros rsp u Hp. exists op, entry, from, m. cbv zeta. split_and!; try done; [apply list_elem_of_here| | |].
    - eapply selected_mono; [|exact Hfrom]. intros e He. apply list_elem_of_further, elem_of_app. by left.
    - apply list_elem_of_further, elem_of_app. right. apply list_elem_of_here.
    - destruct metadataOnly; [destruct Hp as [? ->]; split; [done|]; simpl; by rewrite forallb_app, Hopen|].
      destruct Hp as (start & end_ & partial & pg & before & reads & -> & Hb & Hno & Hr & Ha & ->).
      eexists start, end_, partial, pg, (_ :: t ++ _ :: before)%list, reads.
      split; [simpl; f_equal; rewrite <- app_assoc; done|]. split_and!; [|simpl; rewrite <- app_assoc; simpl; by rewrite forallb_app, Hopen|done..].
      change (body_of (t ++ Ev _ (GetObjectMetadata from (objectMetadata (op_Principal op) (address_of from (entry_Record entry)) (oreq_oid r)
            ObjectKindToolResult)) (Ok m) :: before) = []). rewrite body_of_app, Hbody. exact Hb. }
  destruct metadataOnly.
  - destruct (marshalMetadata m) as [body|] eqn:Hmm; [|refused]. apply wp_ret. intros _. eexists. split; [done|]. right.
    by apply Hlic.
  - eapply wp_mono; [|apply (wp_impl _ (is_u64 (meta_SizeBytes m))); intros Hu; by apply serveBody_answered].
    simpl. intros resp u Hans Hall. rewrite forallb_app in Hall. simpl in Hall. reflect_guards.
    assert (Hsz : is_u64 (meta_SizeBytes m)) by (unfold is_u64; lia). destruct (Hans Hsz) as (rsp & -> & [Hst|Hp]); eexists; (split; [done|]); [by left|right].
    by apply Hlic.
Qed.

(** ** An object to read: [hello], in two chunks and an empty read *)
#[global] Instance demo_codec : ObjectCodec := {|
  Summary _ := None; Metadata_Validate _ := None; marshalMetadata m := Some (meta_ObjectID m) |}.

Definition demo_object : ObjectMetadata := MkMetadata "o" 5 (sha256Digest (list_ascii_of_string "hello")).

Definition demo_stream : handler objectCall Z := fun R c =>
  match c in objectCall R return Z -> R * Z with
  | AuthorizeReference _ _ _ => fun w => (Ok ObjectKindToolResult, w)
  | ResolveSessionObjects _ _ _ | ResolveObjectStore _ | GetObject _ _ => fun w => (Ok true, w)
  | GetObjectMetadata _ _ => fun w => (Ok demo_object, w)
  | CtxErr | CloseStream => fun w => (None, w)
  | StopAfter => fun w => (true, w)
  | Read _ => fun w =>
      (if w =? 0 then (Some (list_ascii_of_string "he"), None)
       else if w =? 1 then (Some [], None)
       else (Some (list_ascii_of_string "llo"), Some (sentinel "io.EOF")), w + 1)
  end.

Lemma object_page_is_verified_witness :
  let run := run demo_stream (verifiedObjectPage demo_object 1 3 100) 0 in
  run.1.1 = Some (Ok (list_ascii_of_string "ell")) /\ accepted demo_object 1 3 (body_of run.1.2) (list_ascii_of_string "ell").
Proof.
  split; [by vm_compute|].
  refine (wp_run demo_stream _ _ 0 (object_page_is_verified demo_object 1 3 100 _ _ _ _)); by vm_compute.
Defined.

Definition demo_object_request : ObjectRequest :=
  MkObjectRequest (Some (NewLinkOperationContext demo_principal)) (Some demo_catalog_entry) "s" "o" ["bytes=1-3"] false.
Definition demo_object_router : ObjectRouter := MkObjectRouter true true true DefaultObjectLimits.

Lemma object_served_as_authorized_witness :
  let run := run demo_stream (serveObject (fun _ _ => None) demo_object_router false demo_object_request) 0 in
  (resp_status <$> run.1.1, resp_body <$> run.1.1) = (Some 206, Some "ell")
  /\ answered (served demo_object_router false demo_object_request) run.1.1 run.1.2.
Proof.
  split; [by vm_compute|].
  refine (wp_run demo_stream _ _ 0 (object_served_as_authorized (fun _ _ => None) demo_object_router false demo_object_request _ _) _);
    [by vm_compute|by vm_compute|].
  by vm_compute.
Defined.
