(* ===== verification/Wakes.v ===== *)
(** * Host wakes after an acknowledgement (src/internal/httpapi/wake.go)

    The router's bounded set of detached wakes. [schedule] is one critical
    section; a wake's goroutine delivers, then runs its deferred steps in their
    order: it gives its slot back and then leaves the wait group. A delivery
    that panics is recovered, so it returns like any other. The logger and the
    timeout are not modelled. *)

From S2P Require Import Prelude Wire Program.
Local Open Scope Z_scope.

Definition maxConcurrentWakes : Z := 64.

Record wake := MkWake { wk_tenant : TenantID; wk_session : SessionID; wk_command : CommandID }.

(** Where a wake's goroutine is. *)
Inductive stage := Delivering | Returned | SlotGiven.

#[global] Instance stage_eq_dec : EqDecision stage.
Proof. solve_decision. Defined.

(** The channel [slots] by its capacity and its fill, the wait group by its
    counter, [cancelled] is the state of [ctx]. *)
Record wakes := MkWakes { hasDelivery : bool; limit : Z; slots : Z; cancelled : bool; stopped : bool; wg : Z }.

Definition newWakes (hasDelivery : bool) (limit : Z) : wakes := MkWakes hasDelivery limit 0 false false 0.

(** Whether the wake's goroutine was started, and the state after. *)
Definition schedule (w : wakes) : bool * wakes :=
  if negb (hasDelivery w) then (false, w)
  else if stopped w then (false, w)
  else if slots w <? limit w then (true, MkWakes (hasDelivery w) (limit w) (slots w + 1) (cancelled w) (stopped w) (wg w + 1))
  else (false, w).

(** The two deferred steps of [run]. *)
Definition giveSlot (w : wakes) : wakes := MkWakes (hasDelivery w) (limit w) (slots w - 1) (cancelled w) (stopped w) (wg w).
Definition wgDone (w : wakes) : wakes := MkWakes (hasDelivery w) (limit w) (slots w) (cancelled w) (stopped w) (wg w - 1).

(** [stop]: the flag, under the lock, and then the cancellation. *)
Definition stop_flag (w : wakes) : wakes := MkWakes (hasDelivery w) (limit w) (slots w) (cancelled w) true (wg w).
Definition stop_cancel (w : wakes) : wakes := MkWakes (hasDelivery w) (limit w) (slots w) true (stopped w) (wg w).
(** [wg.Wait] returns, and with it [stop] may return nil. *)
Definition waited (w : wakes) : bool := wg w =? 0.

Definition WakesStopped (w : wakes) : bool := stopped w.

(** ** The router's wakes over time *)

(** The state, the goroutines alive, the wakes accepted and the deliveries made,
    latest first. *)
Record wake_state := MkWakeState {
  ws_wakes : wakes; alive : list (wake * stage); ws_accepted : list wake; ws_delivered : list wake }.

Inductive wake_step : wake_state -> wake_state -> Prop :=
| wake_scheduled k w w' al acc del :
    schedule w = (true, w') -> wake_step (MkWakeState w al acc del) (MkWakeState w' ((k, Delivering) :: al) (k :: acc) del)
| wake_dropped w w' al acc del :
    schedule w = (false, w') -> wake_step (MkWakeState w al acc del) (MkWakeState w' al acc del)
| wake_delivers k w al1 al2 acc del :
    wake_step (MkWakeState w (al1 ++ (k, Delivering) :: al2) acc del)
              (MkWakeState w (al1 ++ (k, Returned) :: al2) acc (k :: del))
| wake_gives_slot k w al1 al2 acc del :
    wake_step (MkWakeState w (al1 ++ (k, Returned) :: al2) acc del)
              (MkWakeState (giveSlot w) (al1 ++ (k, SlotGiven) :: al2) acc del)
| wake_leaves k w al1 al2 acc del :
    wake_step (MkWakeState w (al1 ++ (k, SlotGiven) :: al2) acc del)
              (MkWakeState (wgDone w) (al1 ++ al2) acc del)
| wake_stop_flag w al acc del : wake_step (MkWakeState w al acc del) (MkWakeState (stop_flag w) al acc del)
| wake_stop_cancel w al acc del :
    stopped w = true -> wake_step (MkWakeState w al acc del) (MkWakeState (stop_cancel w) al acc del).

Definition wake_reachable (delivery : bool) (limit : Z) : wake_state -> Prop :=
  reachable (fun s => s = MkWakeState (newWakes delivery limit) [] [] []) wake_step.

(** Whether a wake holds a slot, and whether its delivery is still to come. *)
Definition holds (g : wake * stage) : bool := match g.2 with SlotGiven => false | _ => true end.
Definition undelivered (al : list (wake * stage)) : list wake :=
  (filter (fun g => g.2 = Delivering) al).*1.

#[global] Arguments undelivered : simpl never.

Record wake_inv (lim : Z) (s : wake_state) : Prop := {
  wi_limit : limit (ws_wakes s) = lim;
  wi_slots : slots (ws_wakes s) = tally holds (alive s);
  wi_bound : slots (ws_wakes s) <= Z.max 0 lim;
  wi_wg : wg (ws_wakes s) = Z.of_nat (length (alive s));
  wi_cancel : cancelled (ws_wakes s) = true -> stopped (ws_wakes s) = true;
  wi_once : ws_accepted s ≡ₚ undelivered (alive s) ++ ws_delivered s
}.

Lemma undelivered_app a b : undelivered (a ++ b) = undelivered a ++ undelivered b.
Proof. unfold undelivered. by rewrite filter_app, fmap_app. Qed.

Lemma undelivered_cons g al :
  undelivered (g :: al) = match g.2 with Delivering => g.1 :: undelivered al | _ => undelivered al end.
Proof. unfold undelivered. rewrite filter_cons. by destruct g as [k []]. Qed.

Lemma wake_inv_reachable delivery lim s : wake_reachable delivery lim s -> wake_inv lim s.
Proof.
  apply reachable_invariant; [by intros ? ->; split; simpl; lia || done|].
  intros s1 s2 [L S B W C O] Hs.
  destruct Hs as [k w w' al acc del Hsch|w w' al acc del Hsch|k w al1 al2 acc del|k w al1 al2 acc del|k w al1 al2 acc del|w al acc del|w al acc del Hst];
    simpl in *; try (by split).
  - unfold schedule in Hsch. branches. reflect_guards. split; simpl; autorewrite with tally; simpl; try done; try lia.
    by apply perm_skip.
  - assert (w' = w) as -> by (unfold schedule in Hsch; by branches). by split.
  - split; simpl; try done; rewrite ?length_app in *; autorewrite with tally in *; simpl in *; try done; try lia.
    rewrite O, !undelivered_app, !undelivered_cons. simpl. rewrite <- !app_assoc. simpl. by rewrite <- Permutation_middle, <- !Permutation_middle.
  - split; simpl; try done; rewrite ?length_app in *; autorewrite with tally in *; simpl in *; try done; try lia.
    by rewrite O, !undelivered_app, !undelivered_cons.
  - split; simpl; try done; rewrite ?length_app in *; autorewrite with tally in *; simpl in *; try done; try lia.
    by rewrite O, !undelivered_app, !undelivered_cons.
Qed.

(** Once stopped, the goroutines alive only become fewer. *)
Lemma stopped_only_drains s s' :
  wake_step s s' -> stopped (ws_wakes s) = true ->
  stopped (ws_wakes s') = true /\ ws_accepted s' = ws_accepted s /\ (length (alive s') <= length (alive s))%nat.
Proof.
  intros Hs Hst. destruct Hs; simpl in *; rewrite ?length_app; simpl; try (split_and!; [done|done|lia]).
  - unfold schedule in *. rewrite Hst in *. by case_match.
  - assert (w' = w) as -> by (unfold schedule in *; by branches). done.
Qed.

(** The wakes a router starts after acknowledging commands, for every
    interleaving of requests, deliveries and stops: the goroutines that hold a
    slot, and with them the deliveries in flight, are never more than the
    limit; every delivery is of a wake that was accepted, once; a wake is
    dropped only with no delivery seam, after a stop or when every slot is
    taken; and when a stop returns nil no delivery is in flight and, since
    nothing starts after a stop, none ever will be. *)
Theorem wakes_bounded_and_drained (delivery : bool) (lim : Z) (s : wake_state) :
  0 <= lim -> wake_reachable delivery lim s ->
  tally holds (alive s) <= lim
  /\ Z.of_nat (length (undelivered (alive s))) <= tally holds (alive s)
  /\ ws_accepted s ≡ₚ undelivered (alive s) ++ ws_delivered s
  /\ ((schedule (ws_wakes s)).1 = false <->
        hasDelivery (ws_wakes s) = false \/ stopped (ws_wakes s) = true \/ tally holds (alive s) = lim)
  /\ (waited (ws_wakes s) = true <-> alive s = [])
  /\ (stopped (ws_wakes s) = true -> forall s', reachable (fun x => x = s) wake_step s' ->
        ws_accepted s' = ws_accepted s /\ (length (alive s') <= length (alive s))%nat).
Proof.
  intros Hlim Hr. destruct (wake_inv_reachable _ _ _ Hr) as [L S B W C O]. split_and!; [lia| |done| | |].
  - clear. induction (alive s) as [|[k st] al IH]; [done|]. rewrite undelivered_cons. autorewrite with tally. simpl.
    destruct st; simpl; lia.
  - unfold schedule. destruct (hasDelivery _); simpl; [|naive_solver]. destruct (stopped _); simpl; [naive_solver|].
    destruct (slots (ws_wakes s) <? limit (ws_wakes s)) eqn:Hs; simpl; reflect_guards; split; try done; try lia.
  - unfold waited. rewrite Z.eqb_eq, W. destruct (alive s); simpl; split; intros; try done; lia.
  - intros Hst s' Hr'. cut (stopped (ws_wakes s') = true /\ ws_accepted s' = ws_accepted s /\ (length (alive s') <= length (alive s))%nat);
      [tauto|]. revert s' Hr'. apply reachable_invariant; [by intros ? ->|].
    intros s1 s2 (H1 & H2 & H3) Hs. apply stopped_only_drains in Hs as (? & -> & ?); [|done]. split_and!; [done|done|lia].
Qed.

(** One wake delivering into a set of one slot: the next is dropped. *)
Lemma wakes_bounded_and_drained_witness : exists s,
  wake_reachable true 1 s /\ tally holds (alive s) <= 1 /\ length (alive s) = 1%nat /\ (schedule (ws_wakes s)).1 = false.
Proof.
  pose (k := MkWake "t" "s" "c").
  assert (Hr : wake_reachable true 1 (MkWakeState (MkWakes true 1 1 false false 1) [(k, Delivering)] [k] [])).
  { eapply reach_step; [by apply reach_init|]. by apply wake_scheduled. }
  eexists. split; [exact Hr|]. split; [|done]. exact (proj1 (wakes_bounded_and_drained true 1 _ ltac:(done) Hr)).
Defined.
