(* ===== verification/Encoding.v ===== *)
(** * Byte encodings of the standard library

    [base64.RawURLEncoding], [binary.BigEndian] and [binary.AppendUvarint] on
    bytes as integers below 256, with the facts their users need: decoding an
    encoding gives the bytes back, and what is length-prefixed can be read back
    in one way. *)

From S2P Require Import Prelude Text.
Local Open Scope string_scope.
Local Open Scope Z_scope.

Definition byte (b : Z) : Prop := 0 <= b < 256.

(** The bytes of a string. *)
Fixpoint string_bytes (s : string) : list Z :=
  match s with "" => [] | String c s => byte_of c :: string_bytes s end.

Lemma byte_of_inj c d : byte_of c = byte_of d -> c = d.
Proof. unfold byte_of. intros Heq. apply (inj Z.of_N) in Heq. rewrite <- (ascii_N_embedding c), <- (ascii_N_embedding d). by f_equal. Qed.

Lemma string_bytes_inj s : forall t, string_bytes s = string_bytes t -> s = t.
Proof.
  induction s as [|c s IH]; intros [|d t] Heq; simplify_eq/=; [done|]. f_equal; [by apply byte_of_inj|by apply IH].
Qed.

(** The string of some bytes. *)
Definition bytes_text (bs : list Z) : string := fold_right (fun b s => String (ascii_of_N (Z.to_N b)) s) "" bs.

Lemma string_bytes_text bs : Forall byte bs -> string_bytes (bytes_text bs) = bs.
Proof.
  induction 1 as [|b bs Hb _ IH]; [done|]. simpl. rewrite IH. f_equal. unfold byte_of, byte in *.
  rewrite N_ascii_embedding by lia. lia.
Qed.

Lemma bytes_text_string s : bytes_text (string_bytes s) = s.
Proof. induction s as [|c s IH]; [done|]. simpl. rewrite IH. unfold byte_of. by rewrite N2Z.id, ascii_N_embedding. Qed.

Lemma string_bytes_range s : Forall byte (string_bytes s).
Proof.
  induction s as [|c s IH]; simpl; constructor; [|done]. unfold byte, byte_of. pose proof (N_ascii_bounded c). lia.
Qed.

Lemma length_string_bytes s : length (string_bytes s) = String.length s.
Proof. induction s; simpl; congruence. Qed.

(** ** base64, URL alphabet, no padding *)
Definition alphabet : string := "ABCDEFGHIJKLMNOPQRSTUVWXYZabcdefghijklmnopqrstuvwxyz0123456789-_".

Definition encode_sextet (x : Z) : ascii := default "A"%char (String.get (Z.to_nat x) alphabet).

Fixpoint index_from (i : Z) (c : ascii) (s : string) : option Z :=
  match s with
  | "" => None
  | String d s => if bool_decide (c = d) then Some i else index_from (i + 1) c s
  end.
Definition decode_sextet (c : ascii) : option Z := index_from 0 c alphabet.

(** [EncodeToString]. *)
Fixpoint base64_encode (bs : list Z) : string :=
  match bs with
  | a :: b :: c :: bs =>
      String (encode_sextet (a / 4)) (String (encode_sextet (a mod 4 * 16 + b / 16))
        (String (encode_sextet (b mod 16 * 4 + c / 64)) (String (encode_sextet (c mod 64)) (base64_encode bs))))
  | [a; b] =>
      String (encode_sextet (a / 4)) (String (encode_sextet (a mod 4 * 16 + b / 16)) (String (encode_sextet (b mod 16 * 4)) ""))
  | [a] => String (encode_sextet (a / 4)) (String (encode_sextet (a mod 4 * 16)) "")
  | [] => ""
  end.

(** A line end. *)
Definition line_end (c : ascii) : bool := bool_decide (c = "010"%char) || bool_decide (c = "013"%char).

(** The sextets of a text. The decoder skips line ends and refuses any other
    byte outside the alphabet. *)
Fixpoint sextets (s : string) : option (list Z) :=
  match s with
  | "" => Some []
  | String c s =>
      if line_end c then sextets s
      else match decode_sextet c, sextets s with Some x, Some xs => Some (x :: xs) | _, _ => None end
  end.

(** Four at a time, then two or three; the bits that are left are ignored. *)
Fixpoint pack (xs : list Z) : option (list Z) :=
  match xs with
  | a :: b :: c :: d :: xs =>
      match pack xs with
      | Some bs => Some (a * 4 + b / 16 :: b mod 16 * 16 + c / 4 :: c mod 4 * 64 + d :: bs)
      | None => None
      end
  | [a; b; c] => Some [a * 4 + b / 16; b mod 16 * 16 + c / 4]
  | [a; b] => Some [a * 4 + b / 16]
  | [_] => None
  | [] => Some []
  end.

(** [DecodeString]; [None] is an error. *)
Definition base64_decode (s : string) : option (list Z) :=
  match sextets s with Some xs => pack xs | None => None end.

Definition sextet_ok (x : Z) : bool :=
  negb (x <? 64) || (bool_decide (decode_sextet (encode_sextet x) = Some x) && negb (line_end (encode_sextet x))).

Lemma decode_encode_sextet x : 0 <= x < 64 ->
  decode_sextet (encode_sextet x) = Some x /\ line_end (encode_sextet x) = false.
Proof.
  intros Hx. assert (Hb : sextet_ok x = true) by (apply below_256; [by vm_compute|lia]). unfold sextet_ok in Hb.
  rewrite (proj2 (Z.ltb_lt x 64)) in Hb by lia. simpl in Hb. apply andb_true_iff in Hb as [Hd Hn].
  split; [by apply bool_decide_eq_true in Hd|]. by apply negb_true_iff in Hn.
Qed.

Lemma sextets_cons x s : 0 <= x < 64 ->
  sextets (String (encode_sextet x) s) = match sextets s with Some xs => Some (x :: xs) | None => None end.
Proof.
  intros Hx. destruct (decode_encode_sextet x Hx) as [Hd Hn]. simpl. by rewrite Hn, Hd.
Qed.

Ltac bytes_lia := unfold byte in *; Z.div_mod_to_equations; lia.

Lemma base64_sextets bs : Forall byte bs -> exists xs, sextets (base64_encode bs) = Some xs /\ pack xs = Some bs.
Proof.
  induction bs as [bs IH] using (well_founded_induction (Wf_nat.well_founded_ltof _ (@length Z))).
  intros Hb. destruct bs as [|a [|b [|c bs]]].
  - by exists [].
  - apply Forall_cons in Hb as [Ha _]. simpl base64_encode. rewrite !sextets_cons by bytes_lia. eexists. split; [done|].
    simpl. do 2 f_equal. bytes_lia.
  - apply Forall_cons in Hb as [Ha Hb]. apply Forall_cons in Hb as [Hb _]. simpl base64_encode.
    rewrite !sextets_cons by bytes_lia. eexists. split; [done|]. simpl. do 2 f_equal; [|f_equal]; bytes_lia.
  - apply Forall_cons in Hb as [Ha Hb]. apply Forall_cons in Hb as [Hb Hc]. apply Forall_cons in Hc as [Hc Hbs].
    destruct (IH bs) as (xs & Hs & Hp); [unfold Wf_nat.ltof; simpl; lia|done|].
    simpl base64_encode. rewrite !sextets_cons, Hs by bytes_lia. eexists. split; [done|].
    simpl. rewrite Hp. f_equal. f_equal; [|f_equal; [|f_equal]]; bytes_lia.
Qed.

Lemma base64_roundtrip bs : Forall byte bs -> base64_decode (base64_encode bs) = Some bs.
Proof. intros Hb. unfold base64_decode. by destruct (base64_sextets bs Hb) as (xs & -> & ->). Qed.

(** No byte outside the alphabet is written. *)
Lemma base64_encode_no c bs : has_byte c alphabet = false -> Forall byte bs -> has_byte c (base64_encode bs) = false.
Proof.
  intros Hc. assert (Hs : forall x s, 0 <= x < 64 -> has_byte c (String (encode_sextet x) s) = has_byte c s).
  { intros x s Hx. simpl. rewrite bool_decide_false; [done|]. intros ->.
    assert (Hin : negb (x <? 64) || has_byte (encode_sextet x) alphabet = true).
    { apply (below_256 (fun x => negb (x <? 64) || has_byte (encode_sextet x) alphabet)); [by vm_compute|lia]. }
    rewrite (proj2 (Z.ltb_lt x 64)) in Hin by lia. by rewrite Hc in Hin. }
  induction bs as [bs IH] using (well_founded_induction (Wf_nat.well_founded_ltof _ (@length Z))).
  intros Hb. destruct bs as [|a [|b [|d bs]]]; [done|..];
    repeat match goal with H : Forall _ (_ :: _) |- _ => apply Forall_cons in H as [? H] end;
    cbn [base64_encode]; rewrite !Hs by bytes_lia; [done..|].
  apply IH; [unfold Wf_nat.ltof; simpl; lia|done].
Qed.

(** ** Big-endian integers *)

(** [n] bytes. *)
Fixpoint big_endian (n : nat) (x : Z) : list Z :=
  match n with O => [] | S n => x / 256 ^ Z.of_nat n mod 256 :: big_endian n x end.
(** [binary.BigEndian.AppendUint64] and [Uint64]. *)
Definition put_uint64 (x : Z) : list Z := big_endian 8 x.
Definition get_uint64 (bs : list Z) : Z := fold_left (fun acc b => acc * 256 + b) (take 8 bs) 0.

Lemma length_big_endian n x : length (big_endian n x) = n.
Proof. induction n; simpl; congruence. Qed.

Lemma big_endian_bytes n x : Forall byte (big_endian n x).
Proof. induction n; simpl; constructor; [apply Z.mod_pos_bound; lia|done]. Qed.

Lemma big_endian_fold n x : forall acc, 0 <= x ->
  fold_left (fun acc b => acc * 256 + b) (big_endian n x) acc = acc * 256 ^ Z.of_nat n + x mod 256 ^ Z.of_nat n.
Proof.
  induction n as [|n IH]; intros acc Hx; simpl; [rewrite Z.mod_1_r; lia|]. rewrite IH by done.
  replace (Z.of_nat (S n)) with (Z.of_nat n + 1) by lia. rewrite Z.pow_add_r, Z.pow_1_r by lia.
  rewrite (Z.rem_mul_r x (256 ^ Z.of_nat n) 256) by lia. lia.
Qed.

Lemma uint64_roundtrip x rest : is_u64 x -> get_uint64 (put_uint64 x ++ rest) = x.
Proof.
  intros [Hx Hx']. unfold get_uint64, put_uint64. rewrite take_app_length' by (by rewrite length_big_endian).
  rewrite big_endian_fold by done. simpl Z.of_nat. rewrite Z.mod_small; [lia|]. split; [done|]. exact Hx'.
Qed.

(** ** Unsigned varints *)
Fixpoint uvarint_from (fuel : nat) (x : Z) : list Z :=
  match fuel with
  | O => []
  | S fuel => if x <? 128 then [x] else Z.lor (x mod 256) 128 :: uvarint_from fuel (x / 128)
  end.
(** [binary.AppendUvarint]: ten bytes hold any [uint64]. *)
Definition uvarint (x : Z) : list Z := uvarint_from 10 x.

Lemma lor_128 b : byte b -> Z.lor b 128 = b mod 128 + 128.
Proof.
  intros Hb. assert (Hc : (Z.lor b 128 =? b mod 128 + 128) = true).
  { apply (below_256 (fun b => Z.lor b 128 =? b mod 128 + 128)); [by vm_compute|done]. }
  by apply Z.eqb_eq.
Qed.

(** A varint followed by anything is read in one way. *)
Lemma uvarint_from_inj f : forall x y t u,
  0 <= x < 128 ^ Z.of_nat f -> 0 <= y < 128 ^ Z.of_nat f ->
  (uvarint_from f x ++ t = uvarint_from f y ++ u)%list -> x = y /\ t = u.
Proof.
  induction f as [|f IH]; intros x y t u Hx Hy Heq; [simpl in *; split; [lia|done]|].
  replace (Z.of_nat (S f)) with (1 + Z.of_nat f) in * by lia. rewrite Z.pow_add_r, Z.pow_1_r in * by lia. simpl in Heq.
  assert (Hbyte : forall z, byte (z mod 256)) by (intros; apply Z.mod_pos_bound; lia).
  destruct (x <? 128) eqn:Ex, (y <? 128) eqn:Ey; reflect_guards; rewrite ?lor_128 in Heq by done; simplify_list_eq.
  - done.
  - bytes_lia.
  - bytes_lia.
  - match goal with H : (_ ++ _ = _ ++ _)%list |- _ => apply IH in H as [Hd ->] end; [split; [|done]| |]; bytes_lia.
Qed.

Lemma uvarint_inj x y t u : is_u64 x -> is_u64 y -> (uvarint x ++ t = uvarint y ++ u)%list -> x = y /\ t = u.
Proof.
  unfold is_u64, u64_modulus. intros Hx Hy. apply uvarint_from_inj; split; try lia; eapply Z.lt_le_trans; try apply Hx; try apply Hy; done.
Qed.

(** ** Length-prefixed strings *)
Definition length_prefixed (s : string) : list Z := uvarint (Z.of_nat (String.length s)) ++ string_bytes s.

Lemma length_prefixed_inj s s' t u :
  is_u64 (Z.of_nat (String.length s)) -> is_u64 (Z.of_nat (String.length s')) ->
  (length_prefixed s ++ t = length_prefixed s' ++ u)%list -> s = s' /\ t = u.
Proof.
  intros Hs Hs' Heq. unfold length_prefixed in Heq. rewrite <- !app_assoc in Heq.
  apply uvarint_inj in Heq as [Hl Heq]; [|done..]. apply app_inj_1 in Heq as [Hb Ht]; [|rewrite !length_string_bytes; lia].
  split; [by apply string_bytes_inj|done].
Qed.

(** ** Strings framed by a big-endian length *)
Definition framed_field (field : list Z) : list Z := put_uint64 (Z.of_nat (length field)) ++ field.

Lemma put_uint64_inj x y t u : is_u64 x -> is_u64 y -> (put_uint64 x ++ t = put_uint64 y ++ u)%list -> x = y /\ t = u.
Proof.
  intros Hx Hy Heq. apply app_inj_1 in Heq as [Hp ->]; [|unfold put_uint64; by rewrite !length_big_endian].
  split; [|done]. rewrite <- (uint64_roundtrip x [] Hx), <- (uint64_roundtrip y [] Hy). by rewrite !app_nil_r, Hp.
Qed.

Lemma framed_field_inj f f' t u :
  is_u64 (Z.of_nat (length f)) -> is_u64 (Z.of_nat (length f')) ->
  (framed_field f ++ t = framed_field f' ++ u)%list -> f = f' /\ t = u.
Proof.
  intros Hf Hf' Heq. unfold framed_field in Heq. rewrite <- !app_assoc in Heq.
  apply put_uint64_inj in Heq as [Hl Heq]; [|done..]. apply app_inj_1 in Heq; [done|lia].
Qed.

Lemma framed_field_bytes f : Forall byte f -> Forall byte (framed_field f).
Proof. intros Hf. apply Forall_app. split; [apply big_endian_bytes|done]. Qed.
