(* ===== verification/Origins.v ===== *)
(** * Origins and the CSRF configuration (src/identity/csrf.go)

    Trusted origins, their canonical form and the host names they serve.
    [net/url.Parse] is a parameter, by the two members the code reads, and
    nothing is assumed of it; [URL.Hostname], [URL.Port], [net.SplitHostPort]
    and [strconv.Atoi] are written out. [strings.EqualFold] is ASCII folding
    here: one side is ASCII, and a rune that folds to an ASCII letter could only
    come from an escape of another length. *)

From S2P Require Import Prelude Wire Framing Text Program Identity.
Local Open Scope string_scope.
Local Open Scope Z_scope.

Definition ErrInvalidCSRFConfig : error := sentinel "identity.ErrInvalidCSRFConfig".
Definition ErrInvalidOrigin : error := sentinel "identity.ErrInvalidOrigin".
Definition MinCSRFSharedKeyBytes : Z := 32.

(** ** Standard library *)

(** At the last separator. *)
Fixpoint cut_last (sep : ascii) (s : string) : option (string * string) :=
  match s with
  | "" => None
  | String c s =>
      match cut_last sep s with
      | Some (before, after) => Some (String c before, after)
      | None => if bool_decide (c = sep) then Some ("", s) else None
      end
  end.

Definition first_byte (c : ascii) (s : string) : bool := match s with String d _ => bool_decide (c = d) | "" => false end.
Definition tail (s : string) : string := match s with String _ s => s | "" => "" end.
Fixpoint last_byte (c : ascii) (s : string) : bool :=
  match s with
  | "" => false
  | String d "" => bool_decide (c = d)
  | String _ s => last_byte c s
  end.
Fixpoint init (s : string) : string :=
  match s with
  | "" | String _ "" => ""
  | String c s => String c (init s)
  end.
Definition unbracket (s : string) : string := if first_byte "[" s && last_byte "]" s then init (tail s) else s.

(** [net.SplitHostPort]: host and port, or whether what is wrong is a missing
    port. *)
Definition SplitHostPort (hostport : string) : (string * string) + bool :=
  match cut_last ":" hostport with
  | None => inr true
  | Some (before, port) =>
      if first_byte "[" hostport then
        let '(bracketed, after, found) := cut "]" hostport in
        if negb found then inr false
        else match after with
        | "" => inr true
        | String c rest =>
            if bool_decide (c = ":"%char) then
              if has_byte ":" rest then inr false
              else if has_byte "[" (tail hostport) then inr false
              else if has_byte "]" after then inr false
              else inl (tail bracketed, rest)
            else inr true
        end
      else if has_byte ":" before then inr false
      else if has_byte "[" hostport then inr false
      else if has_byte "]" hostport then inr false
      else inl (before, port)
  end.

(** [URL.Hostname] and [URL.Port] of a [Host]. *)
Definition url_splitHostPort (hostPort : string) : string * string :=
  let '(host, port) := match cut_last ":" hostPort with
                       | Some (before, after) => if all_bytes is_digit after then (before, after) else (hostPort, "")
                       | None => (hostPort, "")
                       end in
  (unbracket host, port).

(** [strconv.Atoi]. *)
Definition Atoi (s : string) : option Z :=
  let '(sign, ds) := match s with
                     | String c rest => if bool_decide (c = "-"%char) then (-1, rest)
                                        else if bool_decide (c = "+"%char) then (1, rest) else (1, s)
                     | "" => (1, "")
                     end in
  if bool_decide (ds = "") || negb (all_bytes is_digit ds) then None
  else
    let v := sign * decimal ds 0 in
    if (v <? - 2 ^ 63) || (2 ^ 63 - 1 <? v) then None else Some v.

(** [strconv.Itoa]. *)
Definition Itoa (z : Z) : string := if z <? 0 then "-" +:+ itoa (Z.to_N (- z)) else itoa (Z.to_N z).

(** ** Origins *)
Record Origin := MkOrigin { scheme : string; hostname : string; port : string }.

#[global] Instance Origin_eq_dec : EqDecision Origin.
Proof. solve_decision. Defined.

Definition ascii_byte (c : ascii) : bool := byte_of c <? 128.
(** Whether [firstNonASCII] finds one. *)
Definition firstNonASCII (text : string) : bool := negb (all_bytes ascii_byte text).

Definition isHostByte (c : ascii) : bool := is_letter c || is_digit c || has_byte c "-._:".

Definition canonicalHostname (host : string) : result string :=
  if bool_decide (host = "") then Fail (wrapf [ErrInvalidOrigin])
  else if last_byte "." host then Fail (wrapf [ErrInvalidOrigin])
  else if negb (all_bytes isHostByte host) then Fail (wrapf [ErrInvalidOrigin])
  else Ok (to_lower host).

Definition canonicalPort (port : string) : result string :=
  if bool_decide (port = "") then Ok ""
  else match Atoi port with
  | None => Fail (wrapf [ErrInvalidOrigin])
  | Some number =>
      if (number <? 1) || (65535 <? number) || negb (bool_decide (Itoa number = port)) then Fail (wrapf [ErrInvalidOrigin])
      else Ok port
  end.

Definition defaultPort (scheme : string) : string := if bool_decide (scheme = "https") then "443" else "80".

Definition splitAuthorityHost (authority : string) : result string :=
  match SplitHostPort authority with
  | inl (host, port) => match canonicalPort port with Fail _ => Fail (wrapf [ErrInvalidOrigin]) | Ok _ => Ok host end
  | inr missingPort => if negb missingPort then Fail (wrapf [ErrInvalidOrigin]) else Ok (unbracket authority)
  end.

Definition CanonicalHostname (authority : string) : result string :=
  if bool_decide (authority = "") then Fail (wrapf [ErrInvalidOrigin])
  else if firstNonASCII authority then Fail (wrapf [ErrInvalidOrigin])
  else match splitAuthorityHost authority with
  | Fail err => Fail err
  | Ok host => canonicalHostname host
  end.

(** [url.Parse]: [Scheme] and [Host], or an error. *)
Class NetURL := url_Parse : string -> option (string * string).

Definition ParseOrigin `{NetURL} (text : string) : result Origin :=
  if bool_decide (text = "") then Fail (wrapf [ErrInvalidOrigin])
  else if bool_decide (text = "*") then Fail (wrapf [ErrInvalidOrigin])
  else if firstNonASCII text then Fail (wrapf [ErrInvalidOrigin])
  else match url_Parse text with
  | None => Fail (wrapf [ErrInvalidOrigin])
  | Some (scheme, host) =>
      if negb (bool_decide (scheme = "http")) && negb (bool_decide (scheme = "https")) then Fail (wrapf [ErrInvalidOrigin])
      else if bool_decide (host = "") then Fail (wrapf [ErrInvalidOrigin])
      else if negb (equal_fold text (scheme +:+ "://" +:+ host)) then Fail (wrapf [ErrInvalidOrigin])
      else
        let '(name, number) := url_splitHostPort host in
        match canonicalHostname name with
        | Fail err => Fail err
        | Ok hostname =>
            match canonicalPort number with
            | Fail err => Fail err
            | Ok port => Ok (MkOrigin scheme hostname (if bool_decide (port = defaultPort scheme) then "" else port))
            end
        end
  end.

(** What follows the scheme. *)
Definition authority (o : Origin) : string :=
  let host := if has_byte ":" (hostname o) then "[" +:+ hostname o +:+ "]" else hostname o in
  if bool_decide (port o = "") then host else host +:+ ":" +:+ port o.

Definition Origin_String (o : Origin) : string :=
  if bool_decide (scheme o = "") then "" else scheme o +:+ "://" +:+ authority o.

Definition Origin_Hostname (o : Origin) : string := hostname o.

(** ** The configuration *)
Record CSRFConfig := MkCSRFConfig {
  SharedKey : list Z; TokenTTL : Z; TrustedOrigins : list string; TrustForwardedHeaders : bool }.

Section Config.
Context `{NetURL}.

Fixpoint validateOrigins (seen : gset string) (entries : list string) : option error :=
  match entries with
  | [] => None
  | entry :: entries =>
      if bool_decide (entry = "") then Some (wrapf [ErrInvalidCSRFConfig])
      else match ParseOrigin entry with
      | Fail err => Some (wrapf [ErrInvalidCSRFConfig; err])
      | Ok origin =>
          if bool_decide (Origin_String origin ∈ seen) then Some (wrapf [ErrInvalidCSRFConfig])
          else validateOrigins ({[Origin_String origin]} ∪ seen) entries
      end
  end.

Definition CSRFConfig_Validate (c : CSRFConfig) : option error :=
  if Z.of_nat (length (SharedKey c)) <? MinCSRFSharedKeyBytes then Some (wrapf [ErrInvalidCSRFConfig])
  else if TokenTTL c <=? 0 then Some (wrapf [ErrInvalidCSRFConfig])
  else match TrustedOrigins c with
  | [] => Some (wrapf [ErrInvalidCSRFConfig])
  | entries => validateOrigins ∅ entries
  end.
End Config.

(** ** Lower case *)
Lemma lower_byte_idem c : lower_byte (lower_byte c) = lower_byte c.
Proof. by destruct c as [[] [] [] [] [] [] [] []]. Qed.

Lemma lower_byte_host c : isHostByte c = true -> isHostByte (lower_byte c) = true.
Proof. by destruct c as [[] [] [] [] [] [] [] []]. Qed.

Lemma lower_byte_dot c : bool_decide ("."%char = lower_byte c) = bool_decide ("."%char = c).
Proof. by destruct c as [[] [] [] [] [] [] [] []]. Qed.

Lemma to_lower_idem s : to_lower (to_lower s) = to_lower s.
Proof. induction s as [|c s IH]; [done|]. simpl. by rewrite lower_byte_idem, IH. Qed.

Lemma to_lower_host s : all_bytes isHostByte s = true -> all_bytes isHostByte (to_lower s) = true.
Proof.
  induction s as [|c s IH]; [done|]. simpl. intros [Hc Hs]%andb_true_iff. by rewrite lower_byte_host, IH.
Qed.

Lemma to_lower_dot s : last_byte "." (to_lower s) = last_byte "." s.
Proof.
  induction s as [|c [|d s] IH]; [done|exact (lower_byte_dot c)|]. exact IH.
Qed.

Lemma to_lower_empty s : to_lower s = "" <-> s = "".
Proof. by destruct s. Qed.

(** ** Canonical origins *)

(** A canonical host name, and a canonical origin. *)
Record canonical_host (h : string) : Prop := {
  ch_nonempty : h <> "";
  ch_dot : last_byte "." h = false;
  ch_bytes : all_bytes isHostByte h = true;
  ch_lower : to_lower h = h
}.

Record canonical (o : Origin) : Prop := {
  co_scheme : scheme o = "http" \/ scheme o = "https";
  co_host : canonical_host (hostname o);
  co_port : canonicalPort (port o) = Ok (port o);
  co_default : port o <> defaultPort (scheme o)
}.

Lemma canonicalHostname_ok host h : canonicalHostname host = Ok h -> h = to_lower host /\ canonical_host h.
Proof.
  unfold canonicalHostname. intros Hh. branches. reflect_guards. split; [done|]. split.
  - by rewrite to_lower_empty.
  - by rewrite to_lower_dot.
  - by apply to_lower_host.
  - apply to_lower_idem.
Qed.

Lemma canonicalHostname_canonical h : canonical_host h -> canonicalHostname h = Ok h.
Proof.
  intros [Hne Hd Hb Hl]. unfold canonicalHostname. rewrite bool_decide_false by done. by rewrite Hd, Hb, Hl.
Qed.

Lemma canonicalPort_ok p q : canonicalPort p = Ok q -> q = p.
Proof. unfold canonicalPort. intros Hp. branches; reflect_guards; congruence. Qed.

Lemma canonicalPort_digits p : canonicalPort p = Ok p -> all_bytes is_digit p = true.
Proof.
  unfold canonicalPort. intros Hp. case_bool_decide; [by subst|]. destruct (Atoi p) as [n|]; [|done].
  branches. reflect_guards. unfold Itoa in *. rewrite (proj2 (Z.ltb_ge n 0)) in * by lia. subst p. apply itoa_digits.
Qed.

Lemma defaultPort_nonempty s : defaultPort s <> "".
Proof. unfold defaultPort. by case_bool_decide. Qed.

Lemma ParseOrigin_canonical `{NetURL} text o : ParseOrigin text = Ok o -> canonical o.
Proof.
  assert (Hsch : forall s, negb (bool_decide (s = "http")) && negb (bool_decide (s = "https")) = false -> s = "http" \/ s = "https").
  { intros s Hs. repeat case_bool_decide; auto; done. }
  unfold ParseOrigin. intros Ho. branches.
  all: match goal with Hs : (negb _ && negb _)%bool = false |- _ => apply Hsch in Hs end.
  all: match goal with Hh : canonicalHostname _ = Ok _ |- _ => apply canonicalHostname_ok in Hh as [_ Hh] end.
  all: reflect_guards; split; simpl; try done.
  - intros Hd. by destruct (defaultPort_nonempty s).
  - match goal with Hp : canonicalPort _ = Ok _ |- _ => pose proof (canonicalPort_ok _ _ Hp) end. by subst.
Qed.

Lemma ParseOrigin_error `{NetURL} text e : ParseOrigin text = Fail e -> e = wrapf [ErrInvalidOrigin].
Proof. unfold ParseOrigin, canonicalHostname, canonicalPort. intros He. by branches. Qed.

(** ** Serialization *)
Lemma host_byte_not c s : isHostByte c = false -> all_bytes isHostByte s = true -> has_byte c s = false.
Proof.
  intros Hc. induction s as [|d s IH]; [done|]. simpl. intros [Hd Hs]%andb_true_iff. rewrite IH by done.
  rewrite bool_decide_false; [done|congruence].
Qed.

Lemma port_suffix_inj p q :
  (if bool_decide (p = "") then "" else String ":" p) = (if bool_decide (q = "") then "" else String ":" q) -> p = q.
Proof. repeat case_bool_decide; intros Heq; congruence. Qed.

(** The authority as the host, bracketed or not, and the port. *)
Lemma authority_split o :
  authority o = (if has_byte ":" (hostname o) then String "[" (hostname o +:+ String "]" (if bool_decide (port o = "") then "" else String ":" (port o)))
                 else hostname o +:+ (if bool_decide (port o = "") then "" else String ":" (port o))).
Proof.
  unfold authority. destruct (has_byte ":" (hostname o)); case_bool_decide; simpl; rewrite ?string_app_nil_r, ?string_app_assoc; done.
Qed.

Lemma authority_inj o o' :
  canonical_host (hostname o) -> canonical_host (hostname o') -> authority o = authority o' ->
  hostname o = hostname o' /\ port o = port o'.
Proof.
  intros [Hn _ Hb _] [Hn' _ Hb' _]. rewrite !authority_split.
  destruct (has_byte ":" (hostname o)) eqn:Hc, (has_byte ":" (hostname o')) eqn:Hc'; intros Heq.
  - injection Heq as Heq. apply (cut_inj "]") in Heq as [-> Hp]; [|by apply host_byte_not..].
    split; [done|]. by apply port_suffix_inj.
  - destruct (hostname o') as [|c h]; [done|]. simpl in *. injection Heq as <- _. by apply andb_true_iff in Hb' as [? _].
  - destruct (hostname o) as [|c h]; [done|]. simpl in *. injection Heq as -> _. by apply andb_true_iff in Hb as [? _].
  - apply (f_equal (cut ":")) in Heq. repeat case_bool_decide.
    + rewrite !string_app_nil_r, !cut_none in Heq by done. split; congruence.
    + rewrite string_app_nil_r, cut_none, cut_app in Heq by done. congruence.
    + rewrite string_app_nil_r, cut_app, cut_none in Heq by done. congruence.
    + rewrite !cut_app in Heq by done. split; congruence.
Qed.

Lemma Origin_String_inj o o' : canonical o -> canonical o' -> Origin_String o = Origin_String o' -> o = o'.
Proof.
  intros [Hs Hh _ _] [Hs' Hh' _ _]. unfold Origin_String.
  assert (Hcut : forall s a, s = "http" \/ s = "https" -> cut ":" (s +:+ "://" +:+ a) = (s, "//" +:+ a, true)) by (by intros s a [-> | ->]).
  rewrite !bool_decide_false by (intros H0; rewrite H0 in *; naive_solver). intros Heq.
  apply (f_equal (cut ":")) in Heq. rewrite !Hcut in Heq by done. injection Heq as Hsch Ha.
  apply authority_inj in Ha as [? ?]; [|done..]. destruct o, o'. simpl in *. congruence.
Qed.

(** ** Recognizing an authority *)
Lemma cut_last_none sep s : has_byte sep s = false -> cut_last sep s = None.
Proof.
  induction s as [|c s IH]; [done|]. simpl. intros [Hc Hs]%orb_false_iff. rewrite IH by done.
  rewrite bool_decide_false; [done|]. reflect_guards. congruence.
Qed.

Lemma cut_last_app sep s t : has_byte sep t = false -> cut_last sep (s +:+ String sep t) = Some (s, t).
Proof.
  intros Ht. induction s as [|c s IH]; simpl; [|by rewrite IH].
  by rewrite cut_last_none, bool_decide_true by done.
Qed.

Lemma all_bytes_app p s t : all_bytes p (s +:+ t) = all_bytes p s && all_bytes p t.
Proof. induction s as [|c s IH]; [done|]. simpl. by rewrite IH, andb_assoc. Qed.

Lemma unbracket_bracketed s : unbracket (String "[" (s +:+ "]")) = s.
Proof.
  assert (Hl : forall d, last_byte "]" (String d (s +:+ "]")) = true) by (induction s as [|c s IH]; intros d; [done|exact (IH c)]).
  assert (Hi : init (s +:+ "]") = s).
  { clear Hl. induction s as [|c s IH]; [done|]. simpl. rewrite IH. by destruct s. }
  unfold unbracket. rewrite Hl. exact Hi.
Qed.

Lemma unbracket_plain s : has_byte "[" s = false -> unbracket s = s.
Proof. unfold unbracket. destruct s as [|c s]; [done|]. simpl. by intros [-> _]%orb_false_iff. Qed.

Lemma host_ascii c : isHostByte c = true -> ascii_byte c = true.
Proof. by destruct c as [[] [] [] [] [] [] [] []]. Qed.

Lemma digit_host c : is_digit c = true -> isHostByte c = true.
Proof. by destruct c as [[] [] [] [] [] [] [] []]. Qed.

(** The four shapes of an authority. *)
Lemma SplitHostPort_name h : has_byte ":" h = false -> SplitHostPort h = inr true.
Proof. intros Hc. unfold SplitHostPort. by rewrite cut_last_none. Qed.

Lemma SplitHostPort_name_port h p :
  has_byte ":" h = false -> has_byte "[" h = false -> has_byte "]" h = false ->
  has_byte ":" p = false -> has_byte "[" p = false -> has_byte "]" p = false ->
  SplitHostPort (h +:+ String ":" p) = inl (h, p).
Proof.
  intros H1 H2 H3 H4 H5 H6. unfold SplitHostPort. rewrite cut_last_app by done.
  assert (Hf : first_byte "[" (h +:+ String ":" p) = false) by (destruct h; [done|]; by apply orb_false_iff in H2 as [? _]).
  rewrite Hf, H1, !has_byte_app, H2, H3. simpl. by rewrite H5, H6.
Qed.

Lemma SplitHostPort_literal h : has_byte "]" h = false -> SplitHostPort (String "[" (h +:+ "]")) = inr true.
Proof.
  intros Hb. unfold SplitHostPort. destruct (cut_last _ _) as [[before after]|]; [|done].
  change (String "[" (h +:+ "]")) with (String "[" h +:+ String "]" ""). by rewrite (cut_app "]").
Qed.

Lemma SplitHostPort_literal_port h p :
  has_byte "[" h = false -> has_byte "]" h = false ->
  has_byte ":" p = false -> has_byte "[" p = false -> has_byte "]" p = false ->
  SplitHostPort (String "[" (h +:+ String "]" (String ":" p))) = inl (h, p).
Proof.
  intros H2 H3 H4 H5 H6. unfold SplitHostPort.
  assert (Hl : cut_last ":" (String "[" (h +:+ String "]" (String ":" p))) = Some (String "[" (h +:+ "]"), p)).
  { change (String "[" (h +:+ String "]" (String ":" p))) with (String "[" h +:+ ("]" +:+ String ":" p)).
    rewrite <- string_app_assoc. by apply cut_last_app. }
  rewrite Hl. change (String "[" (h +:+ String "]" (String ":" p))) with (String "[" h +:+ String "]" (String ":" p)).
  rewrite (cut_app "]") by done. simpl. rewrite H4, has_byte_app, H2. simpl. by rewrite H5, H6.
Qed.

Lemma splitAuthorityHost_authority o : canonical o -> splitAuthorityHost (authority o) = Ok (hostname o).
Proof.
  intros [_ [Hn Hd Hb Hl] Hp _]. pose proof (canonicalPort_digits _ Hp) as Hdig.
  assert (Hno : forall c, is_digit c = false -> has_byte c (port o) = false) by (intros; by apply digits_have_no).
  assert (Hhost : forall c, isHostByte c = false -> has_byte c (hostname o) = false) by (intros; by apply host_byte_not).
  unfold splitAuthorityHost. rewrite authority_split.
  destruct (has_byte ":" (hostname o)) eqn:Hc; case_bool_decide as Hport.
  - rewrite SplitHostPort_literal by by apply Hhost. simpl. by rewrite unbracket_bracketed.
  - rewrite SplitHostPort_literal_port by (by apply Hhost || by apply Hno). by rewrite Hp.
  - rewrite string_app_nil_r, SplitHostPort_name by done. simpl. by rewrite unbracket_plain by by apply Hhost.
  - rewrite SplitHostPort_name_port by (done || by apply Hhost || by apply Hno). by rewrite Hp.
Qed.

Lemma authority_ascii o : canonical o -> firstNonASCII (authority o) = false /\ authority o <> "".
Proof.
  intros [_ [Hn _ Hb _] Hp _]. pose proof (canonicalPort_digits _ Hp) as Hdig. unfold firstNonASCII. rewrite authority_split.
  assert (Hh : all_bytes ascii_byte (hostname o) = true) by (eapply all_bytes_impl; [|exact Hb]; apply host_ascii).
  assert (Hs : all_bytes ascii_byte (if bool_decide (port o = "") then "" else String ":" (port o)) = true).
  { case_bool_decide; [done|]. simpl. eapply all_bytes_impl; [|exact Hdig]. intros c Hc. by apply host_ascii, digit_host. }
  destruct (has_byte ":" (hostname o)).
  - simpl. rewrite all_bytes_app, Hh. simpl. by rewrite Hs.
  - rewrite all_bytes_app, Hh, Hs. split; [done|]. by destruct (hostname o).
Qed.

(** Trusted origins are compared faithfully. Every origin that parses is
    canonical (http or https, a lower-case ASCII host that is a host and ends in
    no dot, a port that is a port and not the scheme's default), its text
    determines it, so comparing texts is comparing origins; and the authority a
    browser sends to it, with or without a port, bracketed for a colon, is
    recognized as its host name. Every refusal is [ErrInvalidOrigin]. *)
Theorem origins_compare_faithfully `{NetURL} (text : string) :
  match ParseOrigin text with
  | Ok o =>
      canonical o
      /\ (forall text' o', ParseOrigin text' = Ok o' -> Origin_String o = Origin_String o' -> o = o')
      /\ CanonicalHostname (authority o) = Ok (Origin_Hostname o)
  | Fail e => e = wrapf [ErrInvalidOrigin]
  end.
Proof.
  destruct (ParseOrigin text) as [o|e] eqn:Ho; [|by eapply ParseOrigin_error].
  assert (Hc : canonical o) by by eapply ParseOrigin_canonical. split_and!; [done| |].
  - intros text' o' Ho' Heq. apply Origin_String_inj; [done| |done]. by eapply ParseOrigin_canonical.
  - unfold CanonicalHostname. destruct (authority_ascii o Hc) as [-> Hne]. rewrite bool_decide_false by done.
    rewrite splitAuthorityHost_authority by done. apply canonicalHostname_canonical, Hc.
Qed.

(** ** A URL parser to run: a scheme, two slashes and a host *)
Definition demo_url : NetURL := fun text =>
  match cut ":" text with
  | (s, String "/" (String "/" host), true) => Some (to_lower s, host)
  | _ => None
  end.

Example origin_demo :
  ParseOrigin (H := demo_url) "HTTPS://App.Example:443" = Ok (MkOrigin "https" "app.example" "")
  /\ ParseOrigin (H := demo_url) "http://[::1]:8080" = Ok (MkOrigin "http" "::1" "8080")
  /\ Origin_String (MkOrigin "http" "::1" "8080") = "http://[::1]:8080"
  /\ ParseOrigin (H := demo_url) "http://a/b" = Fail (wrapf [ErrInvalidOrigin])
  /\ CanonicalHostname "APP.example:8080" = Ok "app.example".
Proof. by vm_compute. Qed.
