(* ===== verification/Guard.v ===== *)
(** * The browser guard (src/internal/httpapi/guard.go)

    The checks every request passes before a route runs, and the CSRF tokens
    that state-changing browser requests carry. A request is the headers the
    guard reads; instants are nanoseconds from the Unix epoch. HMAC-SHA256 is a
    parameter of which only the length of a tag is assumed; entropy and the
    clock are arguments. *)

From S2P Require Import Prelude Wire Framing Text Encoding Program Identity Refusal HttpErrors Origins.
Local Open Scope string_scope.
Local Open Scope Z_scope.

Definition ErrInvalidGuardConfig : error := sentinel "httpapi.ErrInvalidGuardConfig".
Definition CSRFHeaderName : string := "X-CSRF-Token".
Definition websocketUpgrade : string := "websocket".

(** The instant of a time in milliseconds, [time.Time.UnixMilli]. *)
Definition UnixMilli (t : Z) : Z := t / 1000000.

Record GuardConfig := MkGuardConfig {
  cfg_CSRF : CSRFConfig; cfg_Credentials : option Authenticator; cfg_hasClock : bool }.

Record Guard := MkGuard {
  key : list Z; ttl : Z; trustForwarded : bool; origins : gset string; hostnames : gset string; credentials : Authenticator }.

Section New.
Context `{NetURL}.

Fixpoint addOrigins (entries : list string) (g : Guard) : result Guard :=
  match entries with
  | [] => Ok g
  | entry :: entries =>
      match ParseOrigin entry with
      | Fail err => Fail (wrapf [ErrInvalidGuardConfig; err])
      | Ok origin =>
          addOrigins entries (MkGuard (key g) (ttl g) (trustForwarded g) ({[Origin_String origin]} ∪ origins g)
            ({[Origin_Hostname origin]} ∪ hostnames g) (credentials g))
      end
  end.

Definition NewGuard (cfg : GuardConfig) : result Guard :=
  match cfg_Credentials cfg with
  | None => Fail (wrapf [ErrInvalidGuardConfig])
  | Some credentials =>
      if negb (cfg_hasClock cfg) then Fail (wrapf [ErrInvalidGuardConfig])
      else match CSRFConfig_Validate (cfg_CSRF cfg) with
      | Some err => Fail (wrapf [ErrInvalidGuardConfig; err])
      | None =>
          let csrf := cfg_CSRF cfg in
          addOrigins (TrustedOrigins csrf) (MkGuard (SharedKey csrf) (TokenTTL csrf) (TrustForwardedHeaders csrf) ∅ ∅ credentials)
      end
  end.
End New.

(** ** Requests *)

(** An [*http.Request], by what the guard reads: the host, the values of three
    headers, the token header, the method, the operation its middleware
    recorded, and what the authenticator reads. *)
Record GuardRequest := MkGuardRequest {
  g_Host : string;
  g_ForwardedHost : list string;
  g_Origin : list string;
  g_Upgrade : list string;
  g_CSRFToken : string;
  g_Method : string;
  g_operation : option OperationContext;
  g_http : HTTPRequest
}.

(** [strings.TrimSpace]: the UTF-8 of every space, trimmed from both ends. *)
Definition spaces : list string :=
  bytes_text <$> [[9]; [10]; [11]; [12]; [13]; [32]; [194; 133]; [194; 160]; [225; 154; 128];
    [226; 128; 128]; [226; 128; 129]; [226; 128; 130]; [226; 128; 131]; [226; 128; 132]; [226; 128; 133]; [226; 128; 134];
    [226; 128; 135]; [226; 128; 136]; [226; 128; 137]; [226; 128; 138]; [226; 128; 168]; [226; 128; 169]; [226; 128; 175];
    [226; 129; 159]; [227; 128; 128]].

Fixpoint reverse_text (s acc : string) : string :=
  match s with "" => acc | String c s => reverse_text s (String c acc) end.

Fixpoint strip_any (prefixes : list string) (s : string) : option string :=
  match prefixes with
  | [] => None
  | prefix :: prefixes => match after_prefix prefix s with Some rest => Some rest | None => strip_any prefixes s end
  end.

Fixpoint strip_all (fuel : nat) (prefixes : list string) (s : string) : string :=
  match fuel with
  | O => s
  | S fuel => match strip_any prefixes s with Some rest => strip_all fuel prefixes rest | None => s end
  end.

Definition TrimSpace (s : string) : string :=
  let left := strip_all (String.length s) spaces s in
  reverse_text (strip_all (String.length left) ((fun p => reverse_text p "") <$> spaces) (reverse_text left "")) "".

(** [strings.EqualFold] against ASCII letters: besides the other case, the long
    s and the Kelvin sign fold to a letter. *)
Fixpoint fold_letters (s : string) : string :=
  match s with
  | String "197" (String "191" s) => String "s" (fold_letters s)
  | String "226" (String "132" (String "170" s)) => String "k" (fold_letters s)
  | String c s => String (lower_byte c) (fold_letters s)
  | "" => ""
  end.

Definition claimsWebSocketUpgrade (r : GuardRequest) : bool :=
  existsb (fun value => existsb (fun token => bool_decide (fold_letters (TrimSpace token) = websocketUpgrade)) (split "," value))
    (g_Upgrade r).

Definition stateChanging (method : string) : bool :=
  negb (bool_decide (method = "GET") || bool_decide (method = "HEAD") || bool_decide (method = "OPTIONS")).

Definition requestAuthority (g : Guard) (r : GuardRequest) : option string :=
  if negb (trustForwarded g) then Some (g_Host r)
  else match g_ForwardedHost r with
  | [] => Some (g_Host r)
  | [value] => Some value
  | _ => None
  end.

Definition hostTrusted (g : Guard) (r : GuardRequest) : bool :=
  match requestAuthority g r with
  | None => false
  | Some authority =>
      match CanonicalHostname authority with
      | Fail _ => false
      | Ok hostname => bool_decide (hostname ∈ hostnames g)
      end
  end.

(** Whether an origin is present, and whether it is trusted. *)
Definition originTrusted `{NetURL} (g : Guard) (r : GuardRequest) : bool * bool :=
  match g_Origin r with
  | [] => (false, false)
  | [value] =>
      match ParseOrigin value with
      | Fail _ => (true, false)
      | Ok origin => (true, bool_decide (Origin_String origin ∈ origins g))
      end
  | _ => (true, false)
  end.

(** ** Tokens *)
Definition csrfMACDomain : string := "factory/csrf/v1".
Definition csrfNonceBytes : nat := 16.
Definition csrfExpiryBytes : nat := 8.
Definition csrfMACBytes : nat := 32.

(** The text of a kind (sessionwire). *)
Definition kind_text (k : PrincipalKind) : string :=
  match k with KindActor => "actor" | KindService => "service" | KindOther_ v => v end.

Class HMAC := {
  hmac_sha256 : list Z -> list Z -> list Z;
  hmac_length : forall k m, length (hmac_sha256 k m) = csrfMACBytes;
  hmac_bytes : forall k m, Forall byte (hmac_sha256 k m)
}.

Section Tokens.
Context `{HMAC}.

Definition writeLengthPrefixed (value : string) : list Z := length_prefixed value.

(** What is authenticated. *)
Definition macInput (payload : list Z) (p : Principal) : list Z :=
  string_bytes csrfMACDomain ++ writeLengthPrefixed (tenant p) ++ writeLengthPrefixed (subject p)
  ++ writeLengthPrefixed (kind_text (kind p)) ++ payload.

Definition tokenMAC (g : Guard) (payload : list Z) (p : Principal) : list Z := hmac_sha256 (key g) (macInput payload p).

(** [IssueToken], with what [rand.Read] and the clock answered: the token and
    its expiry. *)
Definition IssueToken (g : Guard) (p : Principal) (entropy : result (list Z)) (now : Z) : result (string * Z) :=
  if bool_decide (tenant p = "") || bool_decide (subject p = "") then Fail (wrapf [ErrInvalidGuardConfig])
  else match entropy with
  | Fail _ => Fail (wrapf [ErrInvalidGuardConfig])
  | Ok nonce =>
      let expiry := now + ttl g in
      let milli := UnixMilli expiry in
      if milli <? 0 then Fail (wrapf [ErrInvalidGuardConfig])
      else
        let payload := (nonce ++ put_uint64 (u64 milli))%list in
        Ok (base64_encode (payload ++ tokenMAC g payload p), expiry)
  end.

(** [verifyToken]: nothing when it is accepted. *)
Definition verifyToken (g : Guard) (token : string) (p : Principal) (now : Z) : option Reason :=
  match base64_decode token with
  | None => Some ReasonCSRFInvalid
  | Some raw =>
      if negb (length raw =? csrfNonceBytes + csrfExpiryBytes + csrfMACBytes)%nat then Some ReasonCSRFInvalid
      else
        let payload := take (csrfNonceBytes + csrfExpiryBytes) raw in
        let mac := drop (csrfNonceBytes + csrfExpiryBytes) raw in
        if negb (bool_decide (mac = tokenMAC g payload p)) then Some ReasonCSRFInvalid
        else
          let expiryMilli := get_uint64 (drop csrfNonceBytes payload) in
          let nowMilli := UnixMilli now in
          if (nowMilli <? 0) || (expiryMilli <=? u64 nowMilli) then Some ReasonCSRFExpired else None
  end.

(** ** The check *)
Definition Check `{NetURL} (g : Guard) (r : option GuardRequest) (now : Z) : option Reason :=
  match r with
  | None => Some ReasonNoRequest
  | Some r =>
      if negb (hostTrusted g r) then Some ReasonHostNotTrusted
      else
        let '(originPresent, originTrusted) := originTrusted g r in
        if originPresent && negb originTrusted then Some ReasonOriginNotTrusted
        else if bool_decide (CredentialSource (credentials g) (Some (g_http r)) = Some SourceBearer) then None
        else if claimsWebSocketUpgrade r && negb originPresent then Some ReasonUpgradeOriginMissing
        else if negb (stateChanging (g_Method r)) then None
        else if negb originPresent then Some ReasonOriginMissing
        else match g_operation r with
        | None => Some ReasonUnauthenticated
        | Some operation =>
            if bool_decide (g_CSRFToken r = "") then Some ReasonCSRFMissing
            else verifyToken g (g_CSRFToken r) (op_Principal operation) now
        end
  end.

(** [Wrap]: the wrapped handler runs exactly for what passes the check. *)
Definition Wrap `{NetURL} (envelope : string -> bool -> option bytes) (next : GuardRequest -> Response) (g : Guard)
    (r : GuardRequest) (now : Z) : Response :=
  match Check g (Some r) now with
  | Some reason => writeRejection envelope ∅ reason
  | None => next r
  end.

(** [TokenHandler]; the token response is encoded by a parameter, its expiry
    included. *)
Definition writeJSON (status : Z) (body : bytes) : Response :=
  MkResponse status (<["Cache-Control" := "no-store"]> (<["X-Content-Type-Options" := "nosniff"]>
    (<["Content-Type" := "application/json"]> ∅))) body.

Definition TokenHandler (envelope : string -> bool -> option bytes) (tokenResponse : string -> Z -> bytes) (g : Guard)
    (operation : option OperationContext) (entropy : result (list Z)) (now : Z) : Response :=
  match operation with
  | None => writeRejection envelope ∅ ReasonUnauthenticated
  | Some operation =>
      match IssueToken g (op_Principal operation) entropy now with
      | Fail _ => writeRejection envelope ∅ ReasonUnauthenticated
      | Ok (token, expiry) => writeJSON 200 (tokenResponse token expiry)
      end
  end.
End Tokens.

(** ** What a guard trusts *)

(** The origins of a configuration. *)
Definition configured `{NetURL} (entries : list string) (o : Origin) : Prop := exists entry, entry ∈ entries /\ ParseOrigin entry = Ok o.

Lemma addOrigins_spec `{NetURL} entries : forall g g', addOrigins entries g = Ok g' ->
  credentials g' = credentials g
  /\ (forall s, s ∈ origins g' <-> s ∈ origins g \/ exists o, configured entries o /\ s = Origin_String o)
  /\ (forall h, h ∈ hostnames g' <-> h ∈ hostnames g \/ exists o, configured entries o /\ h = Origin_Hostname o).
Proof.
  unfold configured. induction entries as [|entry entries IH]; intros g g' Hg; simpl in Hg.
  - simplify_eq. split_and!; [done| |]; intros s; (split; [by left|]); intros [?|(o & (e & He & _) & _)]; try done; by apply elem_of_nil in He.
  - destruct (ParseOrigin entry) as [o|] eqn:Ho; [|done]. apply IH in Hg as (Hc & Hs & Hh). simpl in *.
    assert (Hsplit : forall P : Origin -> Prop, (exists o', (exists e, e ∈ entry :: entries /\ ParseOrigin e = Ok o') /\ P o')
      <-> P o \/ exists o', (exists e, e ∈ entries /\ ParseOrigin e = Ok o') /\ P o').
    { intros P. split.
      - intros (o' & (e & He & Hp) & HP). apply elem_of_cons in He as [->|He]; [left; congruence|right; eauto].
      - intros [HP|(o' & (e & He & Hp) & HP)]; [exists o|exists o']; (split; [|done]);
          eexists; (split; [|done]); apply elem_of_cons; auto. }
    split_and!; [done| |]; intros s; rewrite ?Hs, ?Hh, Hsplit, elem_of_union, elem_of_singleton; tauto.
Qed.

Lemma NewGuard_trusts `{NetURL} cfg g : NewGuard cfg = Ok g ->
  cfg_Credentials cfg = Some (credentials g)
  /\ (forall s, s ∈ origins g <-> exists o, configured (TrustedOrigins (cfg_CSRF cfg)) o /\ s = Origin_String o)
  /\ (forall h, h ∈ hostnames g <-> exists o, configured (TrustedOrigins (cfg_CSRF cfg)) o /\ h = Origin_Hostname o).
Proof.
  unfold NewGuard. destruct (cfg_Credentials cfg) as [creds|]; [|done]. intros Hg. branches.
  apply addOrigins_spec in Hg as (Hc & Hs & Hh). simpl in *. rewrite Hc.
  split_and!; [done| |]; intros s; rewrite ?Hs, ?Hh; set_solver.
Qed.

Lemma hostTrusted_spec g r :
  hostTrusted g r = true <-> exists a h, requestAuthority g r = Some a /\ CanonicalHostname a = Ok h /\ h ∈ hostnames g.
Proof.
  unfold hostTrusted. destruct (requestAuthority g r) as [a|]; [|split; [done|by intros (? & ? & ? & _)]].
  destruct (CanonicalHostname a) as [h|] eqn:Hh; [|split; [done|intros (? & ? & ? & Hc & _); congruence]].
  rewrite bool_decide_eq_true. split; [by intros ?; exists a, h|]. intros (a' & h' & Ha & Hc & Hin). congruence.
Qed.

(** A request may pass as far as its origin is concerned. *)
Definition origin_passes `{NetURL} (g : Guard) (r : GuardRequest) : Prop :=
  g_Origin r = [] \/ exists text o, g_Origin r = [text] /\ ParseOrigin text = Ok o /\ Origin_String o ∈ origins g.

Lemma originTrusted_spec `{NetURL} g r :
  let '(present, trusted) := originTrusted g r in
  (present = false <-> g_Origin r = []) /\ (present && negb trusted = false <-> origin_passes g r).
Proof.
  unfold originTrusted, origin_passes. destruct (g_Origin r) as [|text [|? ?]].
  - split; [done|]. split; [by left|done].
  - destruct (ParseOrigin text) as [o|e] eqn:Ho; simpl; (split; [done|]).
    + rewrite negb_false_iff, bool_decide_eq_true. split; [intros; right; by exists text, o|].
      intros [?|(t & o' & Ht & Ho' & Hin)]; [done|]. congruence.
    + split; [done|]. intros [?|(t & o' & Ht & Ho' & Hin)]; [done|]. congruence.
  - split; [done|]. split; [done|]. by intros [?|(? & ? & ? & _)].
Qed.

(** C14: What the guard lets through. Of a guard built from a configuration, a
    request passes if and only if it is addressed to the host of a configured
    origin; its [Origin], if it sends one at all, is a single header naming a
    configured origin; and one of: it carries a bearer credential, which no
    browser attaches by itself; it changes nothing, and sends an [Origin] if it
    is a WebSocket handshake; or it sends an [Origin] and a token that verifies
    for the very principal the request was authenticated as. *)
Theorem guard_passes_exactly `{HMAC} `{NetURL} (cfg : GuardConfig) (g : Guard) (r : GuardRequest) (now : Z) :
  NewGuard cfg = Ok g ->
  Check g (Some r) now = None <->
    (exists a o, requestAuthority g r = Some a /\ CanonicalHostname a = Ok (Origin_Hostname o)
       /\ configured (TrustedOrigins (cfg_CSRF cfg)) o)
    /\ (g_Origin r = [] \/ exists text o, g_Origin r = [text] /\ ParseOrigin text = Ok o
          /\ configured (TrustedOrigins (cfg_CSRF cfg)) o)
    /\ (CredentialSource (credentials g) (Some (g_http r)) = Some SourceBearer
        \/ (stateChanging (g_Method r) = false /\ (claimsWebSocketUpgrade r = true -> g_Origin r <> []))
        \/ (g_Origin r <> [] /\ exists op, g_operation r = Some op /\ g_CSRFToken r <> ""
              /\ verifyToken g (g_CSRFToken r) (op_Principal op) now = None)).
Proof.
  intros Hnew. apply NewGuard_trusts in Hnew as (_ & Hor & Hho).
  assert (Hhost : hostTrusted g r = true <-> exists a o, requestAuthority g r = Some a
    /\ CanonicalHostname a = Ok (Origin_Hostname o) /\ configured (TrustedOrigins (cfg_CSRF cfg)) o).
  { rewrite hostTrusted_spec. split.
    - intros (a & h & Ha & Hc & Hin). apply Hho in Hin as (o & Ho & ->). by exists a, o.
    - intros (a & o & Ha & Hc & Ho). exists a, (Origin_Hostname o). split_and!; [done..|]. apply Hho. by exists o. }
  assert (Horigin : origin_passes g r <-> (g_Origin r = [] \/ exists text o, g_Origin r = [text] /\ ParseOrigin text = Ok o
    /\ configured (TrustedOrigins (cfg_CSRF cfg)) o)).
  { unfold origin_passes. split; (intros [?|(text & o & Ht & Ho & Hin)]; [by left|right; exists text, o; split_and!; try done]).
    - apply Hor in Hin as (o' & (e & He & Hp) & Heq). exists e. split; [done|]. rewrite Hp. f_equal. symmetry.
      apply Origin_String_inj; [by eapply ParseOrigin_canonical..|done].
    - apply Hor. by exists o. }
  rewrite <- Hhost, <- Horigin. unfold Check. pose proof (originTrusted_spec g r) as Hs.
  destruct (originTrusted g r) as [present trusted]. destruct Hs as [Hpres Hpass]. rewrite <- Hpass.
  destruct (hostTrusted g r); simpl; [|split; [done|by intros [? _]]].
  destruct (present && negb trusted); [split; [done|by intros (_ & ? & _)]|].
  case_bool_decide as Hb; [split; [by auto|done]|].
  assert (Hp : present = true <-> g_Origin r <> []) by (rewrite <- Hpres; by destruct present).
  destruct (claimsWebSocketUpgrade r && negb present) eqn:Hw.
  - split; [done|]. reflect_guards. subst present. intros (_ & _ & [?|[[_ Hc]|[Hc _]]]); exfalso; [done| |]; by apply Hc, Hpres.
  - destruct (stateChanging (g_Method r)) eqn:Hm; simpl.
    + destruct present; simpl; [|split; [done|]; intros (_ & _ & [?|[[? _]|[Hc _]]]); exfalso; try done; by apply Hc, Hpres].
      destruct (g_operation r) as [op|]; [|split; [done|]; by intros (_ & _ & [?|[[? _]|(_ & ? & ? & _)]])].
      case_bool_decide as Ht; [split; [done|]; by intros (_ & _ & [?|[[? _]|(_ & ? & ? & ? & _)]])|]. split.
      * intros Hv. split_and!; [done..|]. right. right. split; [by apply Hp|]. by exists op.
      * intros (_ & _ & [?|[[? _]|(_ & op' & Hop & _ & Hv)]]); [done..|]. by simplify_eq.
    + split; [|done]. intros _. split_and!; [done..|]. right. left. split; [done|]. intros Hcl. rewrite Hcl in Hw. simpl in Hw.
      apply Hp. by destruct present.
Qed.

(** ** Tokens *)

(** Strings a machine can hold. *)
Definition fits (p : Principal) : Prop :=
  is_u64 (Z.of_nat (String.length (tenant p))) /\ is_u64 (Z.of_nat (String.length (subject p)))
  /\ is_u64 (Z.of_nat (String.length (kind_text (kind p)))).

(** What is authenticated determines the principal and the payload. *)
Lemma macInput_inj payload payload' p p' :
  fits p -> fits p' -> macInput payload p = macInput payload' p' ->
  tenant p = tenant p' /\ subject p = subject p' /\ kind_text (kind p) = kind_text (kind p') /\ payload = payload'.
Proof.
  intros (Ht & Hs & Hk) (Ht' & Hs' & Hk'). unfold macInput, writeLengthPrefixed. intros Heq. apply app_inj_1 in Heq as [_ Heq]; [|done].
  apply length_prefixed_inj in Heq as [? Heq]; [|done..]. apply length_prefixed_inj in Heq as [? Heq]; [|done..].
  by apply length_prefixed_inj in Heq as [? ?].
Qed.

Section TokenFacts.
Context `{HMAC}.

(** A token of this guard, opened. *)
Lemma verifyToken_payload g p q nonce milli later :
  length nonce = csrfNonceBytes -> Forall byte nonce -> is_u64 milli ->
  let payload := (nonce ++ put_uint64 milli)%list in
  verifyToken g (base64_encode (payload ++ tokenMAC g payload p)) q later =
    if bool_decide (tokenMAC g payload p = tokenMAC g payload q) then
      if (UnixMilli later <? 0) || (milli <=? u64 (UnixMilli later)) then Some ReasonCSRFExpired else None
    else Some ReasonCSRFInvalid.
Proof.
  intros Hn Hb Hm payload. unfold verifyToken.
  assert (Hlen : length payload = (csrfNonceBytes + csrfExpiryBytes)%nat).
  { unfold payload. rewrite length_app, Hn. unfold put_uint64. by rewrite length_big_endian. }
  rewrite base64_roundtrip.
  2:{ apply Forall_app. split; [|apply hmac_bytes]. apply Forall_app. split; [done|apply big_endian_bytes]. }
  rewrite length_app, Hlen. unfold tokenMAC at 1. rewrite hmac_length, Nat.eqb_refl. cbv beta iota delta [negb].
  rewrite <- Hlen, take_app_length, drop_app_length. case_bool_decide; [|done].
  unfold payload at 1. rewrite <- Hn, drop_app_length.
  by rewrite <- (app_nil_r (put_uint64 milli)), uint64_roundtrip.
Qed.
End TokenFacts.

(** C25: A CSRF token. One issued to a principal verifies for that principal
    at every instant from the epoch to its expiry and at none after, whichever
    replica with the same key checks it. For anyone else it is invalid, unless
    HMAC-SHA256 gives one tag to two different messages: the tenant, subject
    and kind are length-prefixed, so no two principals share an authenticated
    text. A principal that is nobody, and a clock before the epoch, get no
    token at all. *)
Theorem csrf_token_roundtrip `{HMAC} (g g' : Guard) (p : Principal) (nonce : list Z) (now : Z) (token : string) (expiry : Z) :
  length nonce = csrfNonceBytes -> Forall byte nonce -> key g' = key g -> UnixMilli (now + ttl g) < u64_modulus ->
  IssueToken g p (Ok nonce) now = Ok (token, expiry) ->
  expiry = now + ttl g /\ tenant p <> "" /\ subject p <> "" /\ 0 <= UnixMilli expiry
  /\ (forall later, UnixMilli later < u64_modulus ->
        verifyToken g' token p later =
          if (0 <=? UnixMilli later) && (UnixMilli later <? UnixMilli expiry) then None else Some ReasonCSRFExpired)
  /\ (forall q later, fits p -> fits q -> verifyToken g' token q later <> Some ReasonCSRFInvalid ->
        (tenant q = tenant p /\ subject q = subject p /\ kind_text (kind q) = kind_text (kind p))
        \/ exists payload, macInput payload q <> macInput payload p
             /\ hmac_sha256 (key g) (macInput payload q) = hmac_sha256 (key g) (macInput payload p)).
Proof.
  intros Hn Hb Hkey Hmax. unfold IssueToken. intros Hi. branches. reflect_guards.
  rewrite (u64_small (UnixMilli _)) by (unfold is_u64; lia).
  set (payload := (nonce ++ put_uint64 (UnixMilli (now + ttl g)))%list).
  assert (Hmac : forall q, tokenMAC g payload q = tokenMAC g' payload q) by (intros; unfold tokenMAC; by rewrite Hkey).
  assert (Hm : is_u64 (UnixMilli (now + ttl g))) by (unfold is_u64; lia).
  split_and!; try done.
  - intros later Hl. rewrite Hmac. unfold payload. rewrite verifyToken_payload, bool_decide_true by done.
    destruct (UnixMilli later <? 0) eqn:Hneg; reflect_guards; [by rewrite (proj2 (Z.leb_gt 0 _)) by lia|].
    rewrite (proj2 (Z.leb_le 0 _)), u64_small by (unfold is_u64; lia). simpl.
    destruct (UnixMilli (now + ttl g) <=? UnixMilli later) eqn:Hle; reflect_guards;
      [by rewrite (proj2 (Z.ltb_ge _ _)) by lia|by rewrite (proj2 (Z.ltb_lt _ _)) by lia].
  - intros q later Hfp Hfq Hv. rewrite Hmac in Hv. unfold payload in Hv. rewrite verifyToken_payload in Hv by done.
    case_bool_decide as Heq; [|done]. rewrite <- !Hmac in Heq. unfold tokenMAC in Heq.
    destruct (decide (macInput payload q = macInput payload p)) as [He|Hne]; [|right; by exists payload].
    left. by apply macInput_inj in He as (? & ? & ? & _).
Qed.

(** ** A guard to run *)

(** A tag of the right shape: the sum of the key and the message, repeated. *)
#[global] Program Instance demo_hmac : HMAC := {|
  hmac_sha256 k m := replicate 32 (fold_right Z.add 0 (k ++ m)%list mod 256)
|}.
Next Obligation. intros k m. apply length_replicate. Qed.
Next Obligation. intros k m. apply Forall_replicate. apply Z.mod_pos_bound. lia. Qed.

Definition demo_guard_config : GuardConfig :=
  MkGuardConfig (MkCSRFConfig (replicate 32 7) 60000000000 ["https://app.example"] false)
    (Some (MkAuthenticator "factory_session" "")) true.
Definition demo_guard : Guard :=
  MkGuard (replicate 32 7) 60000000000 false {["https://app.example"]} {["app.example"]} (MkAuthenticator "factory_session" "").
Definition demo_actor : Principal := MkPrincipal "t" "alice" KindActor.
Definition demo_token : string :=
  match IssueToken demo_guard demo_actor (Ok (replicate 16 1)) 0 with Ok (token, _) => token | Fail _ => "" end.
(** A POST from the browser of an authenticated actor. *)
Definition demo_post (origin : list string) (token : string) : GuardRequest :=
  MkGuardRequest "APP.example:443" [] origin [] token "POST"
    (Some (MkOperationContext demo_actor (Some SourceCookie) "")) (MkHTTPRequest None (fun _ => Some "c") "").

Lemma csrf_token_roundtrip_witness :
  verifyToken demo_guard demo_token demo_actor 59999000000 = None
  /\ verifyToken demo_guard demo_token demo_actor 60000000000 = Some ReasonCSRFExpired.
Proof.
  destruct (csrf_token_roundtrip demo_guard demo_guard demo_actor (replicate 16 1) 0 demo_token 60000000000)
    as (_ & _ & _ & _ & Hv & _); [by vm_compute|by repeat constructor|done|by vm_compute|by vm_compute|].
  split; (rewrite Hv by by vm_compute); by vm_compute.
Defined.

Lemma guard_passes_exactly_witness :
  NewGuard (H := demo_url) demo_guard_config = Ok demo_guard
  /\ Check (H0 := demo_url) demo_guard (Some (demo_post ["HTTPS://app.example:443"] demo_token)) 1 = None
  /\ Check (H0 := demo_url) demo_guard (Some (demo_post ["https://evil.example"] demo_token)) 1 = Some ReasonOriginNotTrusted
  /\ Check (H0 := demo_url) demo_guard (Some (demo_post ["https://app.example"] "")) 1 = Some ReasonCSRFMissing.
Proof.
  assert (Hg : NewGuard (H := demo_url) demo_guard_config = Ok demo_guard) by by vm_compute.
  split; [done|]. split; [|by vm_compute].
  apply (guard_passes_exactly (H0 := demo_url) demo_guard_config demo_guard _ 1 Hg).
  assert (Hc : configured (H := demo_url) ["https://app.example"] (MkOrigin "https" "app.example" "")).
  { exists "https://app.example". split; [apply list_elem_of_here|by vm_compute]. }
  split_and!.
  - exists "APP.example:443", (MkOrigin "https" "app.example" ""). split_and!; [done|by vm_compute|exact Hc].
  - right. exists "HTTPS://app.example:443", (MkOrigin "https" "app.example" ""). split_and!; [done|by vm_compute|exact Hc].
  - right. right. split; [done|]. eexists. split_and!; [done|by vm_compute|by vm_compute].
Defined.
