(* ===== verification/Workload.v ===== *)
(** * Workload identity (src/internal/placement/workload.go)

    The name a dedicated workload is derived under, from the placement intent's
    own members. The controller interfaces of the file are calls of the
    reconciler (Reconciler.v). *)

From S2P Require Import Prelude Wire Framing Text Encoding Program Identity Placement Admission.
Local Open Scope string_scope.
Local Open Scope Z_scope.

Definition ErrWorkloadEndpointUnsupported : error := sentinel "placement.ErrWorkloadEndpointUnsupported".

Record WorkloadIdentity := MkWorkloadIdentity {
  wid_Name : string; wid_TenantID : TenantID; wid_SessionID : SessionID; wid_AgentID : AgentID;
  wid_RuntimeCompatibilityID : string; wid_Generation : Z }.

Definition writeIdentityField (field : list Z) : list Z := framed_field field.

(** What is digested. *)
Definition identityPreimage (intent : PlacementIntent) : list Z :=
  writeIdentityField (string_bytes (intent_TenantID intent)) ++ writeIdentityField (string_bytes (intent_SessionID intent))
  ++ writeIdentityField (string_bytes (intent_AgentID intent))
  ++ writeIdentityField (string_bytes (intent_RuntimeCompatibilityID intent))
  ++ writeIdentityField (put_uint64 (intent_Generation intent)).

Section Derive.
Context `{Sha256}.

Definition DeriveWorkloadIdentity (intent : PlacementIntent) : WorkloadIdentity :=
  MkWorkloadIdentity ("lrw-" +:+ EncodeToString (take 28 (Sum256 (bytes_text (identityPreimage intent)))))
    (intent_TenantID intent) (intent_SessionID intent) (intent_AgentID intent)
    (intent_RuntimeCompatibilityID intent) (intent_Generation intent).

Definition WorkloadName (intent : PlacementIntent) : string := wid_Name (DeriveWorkloadIdentity intent).
End Derive.

(** ** Facts *)
(** Members a machine can hold. *)
Definition intent_fits (i : PlacementIntent) : Prop :=
  Forall (fun s => is_u64 (Z.of_nat (String.length s)))
    [intent_TenantID i; intent_SessionID i; intent_AgentID i; intent_RuntimeCompatibilityID i] /\ is_u64 (intent_Generation i).

(** The members a workload is named by. *)
Definition named_by (i : PlacementIntent) : TenantID * SessionID * AgentID * string * Z :=
  (intent_TenantID i, intent_SessionID i, intent_AgentID i, intent_RuntimeCompatibilityID i, intent_Generation i).

Lemma identityPreimage_inj i j :
  intent_fits i -> intent_fits j -> identityPreimage i = identityPreimage j -> named_by i = named_by j.
Proof.
  intros [Hi Hgi] [Hj Hgj] Heq. unfold identityPreimage in Heq.
  repeat match goal with H : Forall _ (_ :: _) |- _ => apply Forall_cons in H as [? H] end.
  do 4 (apply framed_field_inj in Heq as [? Heq]; [|by rewrite length_string_bytes..]).
  unfold writeIdentityField, framed_field in Heq. apply app_inj_1 in Heq as [_ Heq]; [|unfold put_uint64; by rewrite !length_big_endian].
  assert (Hg : (put_uint64 (intent_Generation i) ++ [] = put_uint64 (intent_Generation j) ++ [])%list) by (by rewrite !app_nil_r).
  apply put_uint64_inj in Hg as [? _]; [|done..]. unfold named_by.
  repeat match goal with H : string_bytes _ = string_bytes _ |- _ => apply string_bytes_inj in H end. congruence.
Qed.

Lemma EncodeToString_spec bs :
  Forall byte bs -> String.length (EncodeToString bs) = (2 * length bs)%nat /\ isLowerHex (EncodeToString bs) = true.
Proof.
  induction 1 as [|b bs Hb _ [IHl IHh]]; [done|]. simpl. rewrite IHl. split; [lia|].
  unfold isLowerHex in *. simpl. by rewrite (hex_high b Hb), hex_low, IHh.
Qed.

Lemma identityPreimage_bytes i : Forall byte (identityPreimage i).
Proof.
  unfold identityPreimage. rewrite !Forall_app.
  split_and!; apply framed_field_bytes; try apply string_bytes_range; apply big_endian_bytes.
Qed.

(** A workload's name is a DNS label a scheduler accepts: "lrw-" and 56 lower
    case hexadecimal digits, 60 bytes. It depends on the tenant, the session, the
    agent, the runtime and the generation and on nothing else (the desired
    workload of an intent is not part of it), and two intents that differ in
    one of them have one name only if SHA-256, cut to 28 bytes, collides on
    two different texts. *)
Theorem workload_name_identifies `{Sha256} (i j : PlacementIntent) :
  (exists hex, WorkloadName i = "lrw-" +:+ hex /\ String.length hex = 56%nat /\ isLowerHex hex = true)
  /\ (named_by i = named_by j -> WorkloadName i = WorkloadName j)
  /\ (intent_fits i -> intent_fits j -> named_by i <> named_by j -> WorkloadName i = WorkloadName j ->
        exists a b, a <> b /\ EncodeToString (take 28 (Sum256 a)) = EncodeToString (take 28 (Sum256 b))).
Proof.
  split_and!.
  - eexists. split; [done|]. pose proof (Sum256_bytes (bytes_text (identityPreimage i))) as Hb.
    destruct (EncodeToString_spec (take 28 (Sum256 (bytes_text (identityPreimage i))))) as [Hl Hh]; [by apply Forall_take|].
    split; [|done]. rewrite Hl, length_take, Sum256_length. lia.
  - unfold named_by, WorkloadName, DeriveWorkloadIdentity, identityPreimage. intros Heq. injection Heq as Ht Hs Ha Hr Hg. by rewrite Ht, Hs, Ha, Hr, Hg.
  - intros Hi Hj Hne Heq. exists (bytes_text (identityPreimage i)), (bytes_text (identityPreimage j)). split.
    + intros Htext. apply (f_equal string_bytes) in Htext. rewrite !string_bytes_text in Htext by apply identityPreimage_bytes.
      by apply Hne, identityPreimage_inj.
    + apply (f_equal (after_prefix "lrw-")) in Heq. unfold WorkloadName, DeriveWorkloadIdentity in Heq. cbn [wid_Name] in Heq.
      rewrite !after_prefix_app in Heq. congruence.
Qed.
