(* ===== verification/Records.v ===== *)
(** * The record sweeper (src/internal/placement/records.go)

    The reclaiming of ranked capacity and of reconciliation claims, as routines
    over the two stores it is given. The cursor is the only state that is kept,
    and the sweep of targets runs under the sweeper's mutex. *)

From S2P Require Import Prelude Wire Program.
Local Open Scope prog_scope.
Local Open Scope string_scope.
Local Open Scope Z_scope.

Definition ErrInvalidSweeperConfig : error := sentinel "placement.ErrInvalidSweeperConfig".

(** storage.MaxOrderedPageLimit and sessionstore.MaxHostTargetReconcilePages. *)
Class SweepLimits := { MaxOrderedPageLimit : Z; MaxHostTargetReconcilePages : Z }.

(** [SweeperConfig]: the stores by presence. *)
Record SweeperConfig := MkSweeperConfig {
  sw_hasTargets : bool; sw_hasClaims : bool; sw_HolderID : string; sw_PageLimit : Z; sw_MaxPages : Z }.

(** [RecordSweeper]: its cursor. *)
Abbreviation Cursor := string (only parsing).

Definition NewRecordSweeper `{SweepLimits} (cfg : SweeperConfig) : result Cursor :=
  let invalid := Fail (wrapf [ErrInvalidSweeperConfig]) in
  if negb (sw_hasTargets cfg) then invalid
  else if negb (sw_hasClaims cfg) then invalid
  else if bool_decide (sw_HolderID cfg = "") then invalid
  else if (sw_PageLimit cfg <? 1) || (MaxOrderedPageLimit <? sw_PageLimit cfg) then invalid
  else if (sw_MaxPages cfg <? 1) || (MaxHostTargetReconcilePages <? sw_MaxPages cfg) then invalid
  else Ok "".

(** sessionstore.HostTargetReconcileResult *)
Record HostTargetReconcileResult := MkReconcileResult {
  hr_Scanned : Z; hr_Withdrawn : Z; hr_StillLive : Z; hr_Contended : Z; hr_Unreadable : Z; hr_Unverified : Z;
  hr_Exhausted : bool; hr_NextCursor : Cursor }.

Record TargetSweepResult := MkTargetSweep {
  Scanned : Z; Unranked : Z; Retained : Z; Contended : Z; Unreadable : Z; Unverified : Z; Exhausted : bool; Resumed : bool }.

Record SessionRef := MkSessionRef { ref_TenantID : TenantID; ref_SessionID : SessionID }.

Record ClaimSweepResult := MkClaimSweep { Examined : Z; Released : Z; Held : Z; Lapsed : Z; Absent : Z }.

(** The reply of a target sweep is meaningful also beside an error. *)
Inductive recordCall : Type -> Type :=
| ReconcileHostTargets (limit maxPages : Z) (cursor : Cursor) : recordCall (HostTargetReconcileResult * option error)
| ReleaseClaim (tenant : TenantID) (session : SessionID) (holder : string) : recordCall (option error).

Abbreviation recording := (prog recordCall).

Definition refusedContinuation (err : error) : bool := code_is "HostTargetError" "HostTargetErrorCursor" err.

Definition translateTargetSweep (result : HostTargetReconcileResult) (resumed : bool) : TargetSweepResult :=
  MkTargetSweep (hr_Scanned result) (hr_Withdrawn result) (hr_StillLive result) (hr_Contended result)
    (hr_Unreadable result) (hr_Unverified result) (hr_Exhausted result) resumed.

Definition SweepTargets (cfg : SweeperConfig) (cursor : Cursor) : recording (TargetSweepResult * option error * Cursor) :=
  let resumed := negb (bool_decide (cursor = "")) in
  call! (result, err) := ReconcileHostTargets (sw_PageLimit cfg) (sw_MaxPages cfg) cursor in
  let cursor := hr_NextCursor result in
  match err with
  | Some err => Ret (translateTargetSweep result resumed, Some err, if refusedContinuation err then "" else cursor)
  | None => Ret (translateTargetSweep result resumed, None, cursor)
  end.

Definition claimCodeIs (err : error) (code : string) : bool := code_is "ReconcileError" code err.
Definition noSuchSession (err : error) : bool := code_is "KeyspaceError" "KeyspaceBindingNotFound" err.

(** Where an answer is counted; nothing for a failure. *)
Definition countClaim (err : option error) (r : ClaimSweepResult) : option ClaimSweepResult :=
  let '(MkClaimSweep examined released held lapsed absent) := r in
  match err with
  | None => Some (MkClaimSweep (examined + 1) (released + 1) held lapsed absent)
  | Some err =>
      if claimCodeIs err "ReconcileErrorHeld" then Some (MkClaimSweep (examined + 1) released (held + 1) lapsed absent)
      else if claimCodeIs err "ReconcileErrorLapsed" then Some (MkClaimSweep (examined + 1) released held (lapsed + 1) absent)
      else if claimCodeIs err "ReconcileErrorNotFound" || noSuchSession err
      then Some (MkClaimSweep (examined + 1) released held lapsed (absent + 1))
      else None
  end.

Fixpoint sweepClaims (cfg : SweeperConfig) (refs : list SessionRef) (r : ClaimSweepResult)
    : recording (ClaimSweepResult * option error) :=
  match refs with
  | [] => Ret (r, None)
  | ref :: refs =>
      call! err := ReleaseClaim (ref_TenantID ref) (ref_SessionID ref) (sw_HolderID cfg) in
      match countClaim err r with
      | Some r => sweepClaims cfg refs r
      | None => Ret (r, match err with Some err => Some (wrapf [err]) | None => None end)
      end
  end.

Definition SweepClaims (cfg : SweeperConfig) (refs : list SessionRef) : recording (ClaimSweepResult * option error) :=
  sweepClaims cfg refs (MkClaimSweep 0 0 0 0 0).

(** ** Facts *)

(** The calls for some sessions, with their answers. *)
Definition releases (cfg : SweeperConfig) (refs : list SessionRef) (answers : list (option error)) : list (event recordCall) :=
  zip_with (fun ref err => Ev _ (ReleaseClaim (ref_TenantID ref) (ref_SessionID ref) (sw_HolderID cfg)) err) refs answers.

(** A result whose parts add up. *)
Definition balanced (r : ClaimSweepResult) : Prop := Examined r = Released r + Held r + Lapsed r + Absent r.

(** What an answer may be counted as. *)
Definition settled (err : option error) : bool :=
  match err with
  | None => true
  | Some err => claimCodeIs err "ReconcileErrorHeld" || claimCodeIs err "ReconcileErrorLapsed"
                || (claimCodeIs err "ReconcileErrorNotFound" || noSuchSession err)
  end.

Lemma countClaim_spec err r :
  match countClaim err r with
  | Some r' => settled err = true /\ Examined r' = Examined r + 1 /\ (balanced r -> balanced r')
               /\ Released r' = Released r + (if err then 0 else 1)
  | None => exists e, err = Some e /\ settled err = false
  end.
Proof.
  destruct r as [ex re he la ab]. unfold countClaim, settled, balanced. destruct err as [e|]; simpl; [|lia].
  destruct (claimCodeIs e "ReconcileErrorHeld"); simpl; [lia|].
  destruct (claimCodeIs e "ReconcileErrorLapsed"); simpl; [lia|].
  destruct (claimCodeIs e "ReconcileErrorNotFound" || noSuchSession e); simpl; [lia|]. by exists e.
Qed.

(** The sessions were asked for in order, once each, up to the first answer that
    is a failure, which ends the sweep and is returned. *)
Definition swept (cfg : SweeperConfig) (refs : list SessionRef) (r0 : ClaimSweepResult) (a : ClaimSweepResult * option error)
    (t : list (event recordCall)) : Prop :=
  exists done answers rest,
    refs = (done ++ rest)%list /\ length answers = length done /\ forallb settled answers = true
    /\ Examined a.1 = Examined r0 + Z.of_nat (length done) /\ (balanced r0 -> balanced a.1)
    /\ Released a.1 = Released r0 + tally (fun err => match err with None => true | Some _ => false end) answers
    /\ match a.2 with
       | None => rest = [] /\ t = releases cfg done answers
       | Some e => exists ref rest' cause, rest = ref :: rest' /\ e = wrapf [cause] /\ settled (Some cause) = false
                     /\ t = (releases cfg done answers ++ releases cfg [ref] [Some cause])%list
       end.

Lemma sweepClaims_swept cfg refs : forall r, wp (sweepClaims cfg refs r) (swept cfg refs r).
Proof.
  induction refs as [|ref refs IH]; intros r.
  - apply wp_ret. exists [], [], []. simpl. split_and!; try done; rewrite ?tally_nil; lia.
  - intros err. pose proof (countClaim_spec err r) as Hc. destruct (countClaim err r) as [r'|].
    + destruct Hc as (Hs & Hex & Hbal & Hrel). eapply wp_mono; [|apply IH]. simpl.
      intros a t (dn & answers & rest & -> & Hlen & Hset & Hex' & Hbal' & Hrel' & Hend).
      exists (ref :: dn), (err :: answers), rest. simpl. rewrite Hset, Hs, tally_cons. split_and!; try done; try lia; auto.
      * destruct err; lia.
      * destruct (a.2) as [e|]; [|by destruct Hend as [-> ->]].
        destruct Hend as (ref' & rest' & cause & -> & -> & Hcs & ->). by exists ref', rest', cause.
    + destruct Hc as (e & -> & Hs). apply wp_ret. exists [], [], (ref :: refs). simpl.
      split_and!; try done; rewrite ?tally_nil; try lia. by exists ref, refs, e.
Qed.

(** Claims are released only for sessions it was given, in their order, under
    this replica's own name, each at most once and until the first failure,
    which is reported; every answer before it is counted in exactly one
    column. *)
Theorem claim_sweep_accounts (cfg : SweeperConfig) (refs : list SessionRef) :
  wp (SweepClaims cfg refs) (fun a t => swept cfg refs (MkClaimSweep 0 0 0 0 0) a t /\ balanced a.1).
Proof.
  eapply wp_mono; [|apply sweepClaims_swept]. intros a t Hs. split; [done|].
  destruct Hs as (? & ? & ? & _ & _ & _ & _ & Hb & _). by apply Hb.
Qed.

(** A target sweep makes one bounded call from where the last one stopped; it
    keeps the position the reply names also when the call failed, and starts
    over exactly when that position was refused. *)
Theorem target_sweep_resumes (cfg : SweeperConfig) (cursor : Cursor) :
  wp (SweepTargets cfg cursor) (fun a t => exists reply err,
    t = [Ev _ (ReconcileHostTargets (sw_PageLimit cfg) (sw_MaxPages cfg) cursor) (reply, err)]
    /\ a.1.2 = err /\ a.1.1 = translateTargetSweep reply (negb (bool_decide (cursor = "")))
    /\ a.2 = match err with
             | Some e => if refusedContinuation e then "" else hr_NextCursor reply
             | None => hr_NextCursor reply
             end).
Proof. intros [reply [e|]]; apply wp_ret; eexists reply, _; done. Qed.
