(* ===== verification/Journal.v ===== *)
(** * Resolved journals and their cursors (src/journal.go)

    The reader that sends a Host session's journal reads to the store its
    binding names, and the cursors it hands out, which are bound to the session
    they were issued for. Options are part of the server's configuration and
    not modelled here. *)

From S2P Require Import Prelude Wire Framing Text Encoding Program Identity Admission.
Local Open Scope prog_scope.
Local Open Scope string_scope.
Local Open Scope Z_scope.

Definition journalCursorVersion : string := "j1".
Definition journalCursorDomain : string := "looprig/factory/resolved-journal-cursor/v1" +:+ String NUL "".
Definition maxJournalCursorBytes : Z := 8192.

Definition JournalError (code field : string) : error := Err (Typed "JournalError" code field 0) [].
Definition journalCursorError : error := JournalError "JournalErrorCursor" "cursor".

(** sessionstore.ReadPublicJournalRequest and sessionwire.JournalPage; the
    records of a page are carried through. *)
Record ReadPublicJournalRequest := MkReadJournal {
  rj_TenantID : TenantID; rj_SessionID : SessionID; rj_FromSeq : Z; rj_Tail : bool; rj_ScanLimit : Z;
  rj_Cursor : string; rj_Limit : Z }.
Record JournalPage := MkJournalPage { jp_Records : list bytes; jp_NextCursor : string; jp_PreviousCursor : string }.

Inductive journalCall : Type -> Type :=
| JournalCatalogEntry (tenant : TenantID) (session : SessionID) : journalCall (result CatalogEntry)
| StoreReadJournal (req : ReadPublicJournalRequest) : journalCall (result JournalPage)
| ResolveJournal (tenant : TenantID) (session : SessionID) (binding : SessionBinding) : journalCall (result bool)
| ResolvedReadJournal (req : ReadPublicJournalRequest) : journalCall (result JournalPage).

(** A [JournalResolver] as a [SessionJournalResolver]: it is not told the
    session. *)
Definition sessionAware {R} (r : TenantID -> SessionBinding -> R) : TenantID -> SessionID -> SessionBinding -> R :=
  fun tenant _ binding => r tenant binding.

Section Cursors.
(** The text of a protocol mode is the store's. *)
Context `{Sha256} (mode_text : ProtocolMode -> string).

Definition scopeParts (tenant : TenantID) (public : SessionID) (b : SessionBinding) : list string :=
  [tenant; public; bnd_StorageBindingID b; bnd_BindingVersion b; bnd_RuntimeSessionID b; mode_text (bnd_ProtocolMode b)].

(** What is digested: the domain and the framed parts. *)
Definition scopePreimage (tenant : TenantID) (public : SessionID) (b : SessionBinding) : list Z :=
  string_bytes journalCursorDomain ++ concat ((fun part => framed_field (string_bytes part)) <$> scopeParts tenant public b).

Definition journalCursorScope (tenant : TenantID) (public : SessionID) (b : SessionBinding) : string :=
  EncodeToString (Sum256 (bytes_text (scopePreimage tenant public b))).

Definition wrapJournalCursor (inner : string) (tenant : TenantID) (public : SessionID) (b : SessionBinding) : result string :=
  if bool_decide (inner = "") then Ok ""
  else
    let token := journalCursorVersion +:+ "." +:+ journalCursorScope tenant public b +:+ "." +:+ base64_encode (string_bytes inner) in
    if maxJournalCursorBytes <? len token then Fail journalCursorError else Ok token.

Definition unwrapJournalCursor (token : string) (tenant : TenantID) (public : SessionID) (b : SessionBinding) : result string :=
  if bool_decide (token = "") then Ok ""
  else if maxJournalCursorBytes <? len token then Fail journalCursorError
  else match split "." token with
  | [version; scope; encoded] =>
      if negb (bool_decide (version = journalCursorVersion)) || negb (bool_decide (scope = journalCursorScope tenant public b))
         || bool_decide (encoded = "")
      then Fail journalCursorError
      else match base64_decode encoded with
      | None | Some [] => Fail journalCursorError
      | Some inner => Ok (bytes_text inner)
      end
  | _ => Fail journalCursorError
  end.

Definition ReadPublicJournal (req : ReadPublicJournalRequest) : prog journalCall (result JournalPage) :=
  let tenant := rj_TenantID req in
  let session := rj_SessionID req in
  call! entry := JournalCatalogEntry tenant session in
  match entry with
  | Fail err => Ret (Fail err)
  | Ok entry =>
      let binding := rec_Binding (entry_Record entry) in
      if negb (bool_decide (bnd_ProtocolMode binding = ProtocolModeDisposition)) then invoke (StoreReadJournal req)
      else if bool_decide (bnd_RuntimeSessionID binding = "")
      then Ret (Fail (wrapf [JournalError "JournalErrorInvalid" "binding.runtime_session_id"]))
      else
        call! reader := ResolveJournal tenant session binding in
        match reader with
        | Fail err => Ret (Fail (wrapf [err]))
        | Ok false => Ret (Fail (wrapf []))
        | Ok true =>
            match unwrapJournalCursor (rj_Cursor req) tenant session binding with
            | Fail err => Ret (Fail err)
            | Ok cursor =>
                let inner := MkReadJournal tenant (bnd_RuntimeSessionID binding) (rj_FromSeq req) (rj_Tail req)
                               (rj_ScanLimit req) cursor (rj_Limit req) in
                call! page := ResolvedReadJournal inner in
                match page with
                | Fail err => Ret (Fail err)
                | Ok page =>
                    match wrapJournalCursor (jp_NextCursor page) tenant session binding with
                    | Fail err => Ret (Fail err)
                    | Ok next =>
                        match wrapJournalCursor (jp_PreviousCursor page) tenant session binding with
                        | Fail err => Ret (Fail err)
                        | Ok previous => Ret (Ok (MkJournalPage (jp_Records page) next previous))
                        end
                    end
                end
            end
        end
  end.
End Cursors.

(** ** Cursors *)
Lemma hex_no_dot bs : Forall byte bs -> has_byte "." (EncodeToString bs) = false.
Proof.
  assert (Hd : forall c, lower_hex_byte c = true -> bool_decide ("."%char = c) = false).
  { intros c Hc. apply bool_decide_eq_false. intros <-. by vm_compute in Hc. }
  induction 1 as [|b bs Hb _ IH]; [done|]. simpl. by rewrite (Hd _ (hex_high b Hb)), (Hd _ (hex_low b)), IH.
Qed.

Section CursorFacts.
Context `{Sha256} (mode_text : ProtocolMode -> string).

Lemma split_token scope inner :
  has_byte "." scope = false -> Forall byte inner ->
  split "." (journalCursorVersion +:+ "." +:+ scope +:+ "." +:+ base64_encode inner) = [journalCursorVersion; scope; base64_encode inner].
Proof.
  intros Hs Hi. change ("." +:+ scope +:+ "." +:+ base64_encode inner) with (String "." (scope +:+ String "." (base64_encode inner))).
  rewrite split_app by done. rewrite split_app by done. rewrite split_none; [done|]. by apply base64_encode_no.
Qed.

(** A cursor, opened in some scope. *)
Lemma unwrap_wrapped inner t s b token t' s' b' :
  inner <> "" -> wrapJournalCursor mode_text inner t s b = Ok token ->
  unwrapJournalCursor mode_text token t' s' b' =
    if bool_decide (journalCursorScope mode_text t s b = journalCursorScope mode_text t' s' b') then Ok inner else Fail journalCursorError.
Proof.
  intros Hne. unfold wrapJournalCursor. rewrite bool_decide_false by done. cbv zeta. intros Hw. case_match eqn:Hl; [done|]. injection Hw as <-.
  unfold unwrapJournalCursor. rewrite bool_decide_false by done. rewrite Hl.
  rewrite split_token by (apply hex_no_dot, Sum256_bytes || apply string_bytes_range).
  rewrite bool_decide_true by done. simpl negb. cbn [orb].
  destruct inner as [|c inner]; [done|]. rewrite (bool_decide_false (base64_encode _ = "")).
  2:{ simpl. destruct (string_bytes inner) as [|? [|? ?]]; done. }
  rewrite base64_roundtrip by apply string_bytes_range. case_bool_decide; [|done].
  simpl negb. cbv iota. f_equal. exact (bytes_text_string (String c inner)).
Qed.
End CursorFacts.

Lemma framed_parts_inj ps : forall qs, length ps = length qs ->
  Forall (fun s => is_u64 (Z.of_nat (String.length s))) (ps ++ qs)%list ->
  concat ((fun part => framed_field (string_bytes part)) <$> ps) = concat ((fun part => framed_field (string_bytes part)) <$> qs) ->
  ps = qs.
Proof.
  induction ps as [|p ps IH]; intros [|q qs] Hlen Hf Heq; try done. simpl in *.
  apply Forall_cons in Hf as [Hp Hf]. apply Forall_app in Hf as [Hps Hf]. apply Forall_cons in Hf as [Hq Hqs].
  apply framed_field_inj in Heq as [Hs Heq]; [|by rewrite length_string_bytes..]. f_equal; [by apply string_bytes_inj|].
  apply IH; [lia| |done]. apply Forall_app. by split.
Qed.

Lemma scopePreimage_bytes mode_text t s b : Forall byte (scopePreimage mode_text t s b).
Proof.
  unfold scopePreimage. apply Forall_app. split; [apply string_bytes_range|]. unfold scopeParts. cbn [fmap list_fmap concat].
  rewrite !Forall_app. split_and!; try done; apply framed_field_bytes, string_bytes_range.
Qed.

(** Journal cursors are bound to what they were issued for. A cursor that
    is wrapped for a session and binding unwraps to itself there, the empty one
    included; anywhere else it is refused as a bad cursor, unless SHA-256 gives
    one digest to two different texts: the tenant, the public session and every
    member of the binding are framed by their length, so no two scopes share a
    text. *)
Theorem journal_cursor_roundtrip `{Sha256} (mode_text : ProtocolMode -> string) (inner : string)
    (t : TenantID) (s : SessionID) (b : SessionBinding) (token : string) :
  wrapJournalCursor mode_text inner t s b = Ok token ->
  unwrapJournalCursor mode_text token t s b = Ok inner
  /\ (forall t' s' b', inner <> "" ->
        Forall (fun p => is_u64 (Z.of_nat (String.length p))) (scopeParts mode_text t s b ++ scopeParts mode_text t' s' b')%list ->
        unwrapJournalCursor mode_text token t' s' b' = Fail journalCursorError
        \/ scopeParts mode_text t s b = scopeParts mode_text t' s' b'
        \/ exists x y, x <> y /\ EncodeToString (Sum256 x) = EncodeToString (Sum256 y)).
Proof.
  intros Hw. split.
  - destruct (decide (inner = "")) as [->|Hne]; [by injection Hw as <-|].
    rewrite (unwrap_wrapped mode_text inner t s b token t s b Hne Hw). by rewrite bool_decide_true.
  - intros t' s' b' Hne Hf. rewrite (unwrap_wrapped mode_text inner t s b token t' s' b' Hne Hw).
    case_bool_decide as Hs; [right|by left].
    destruct (decide (scopePreimage mode_text t s b = scopePreimage mode_text t' s' b')) as [Heq|Hd].
    + left. unfold scopePreimage in Heq. apply app_inj_1 in Heq as [_ Heq]; [|done]. by apply framed_parts_inj.
    + right. exists (bytes_text (scopePreimage mode_text t s b)), (bytes_text (scopePreimage mode_text t' s' b')).
      split; [|exact Hs]. intros Ht. apply (f_equal string_bytes) in Ht.
      by rewrite !string_bytes_text in Ht by apply scopePreimage_bytes.
Qed.

(** The calls that follow a catalog entry which is a Host session's. *)
Definition host_read `{Sha256} (mode_text : ProtocolMode -> string) (req : ReadPublicJournalRequest) (b : SessionBinding)
    (r : result JournalPage) (rest : list (event journalCall)) : Prop :=
  let tenant := rj_TenantID req in let session := rj_SessionID req in
  (rest = [] \/ exists resolved, rest = [Ev _ (ResolveJournal tenant session b) resolved]) /\ ~ is_Ok r
  \/ exists cursor page,
       unwrapJournalCursor mode_text (rj_Cursor req) tenant session b = Ok cursor /\ bnd_RuntimeSessionID b <> ""
       /\ rest = [Ev _ (ResolveJournal tenant session b) (Ok true);
                  Ev _ (ResolvedReadJournal (MkReadJournal tenant (bnd_RuntimeSessionID b) (rj_FromSeq req) (rj_Tail req)
                    (rj_ScanLimit req) cursor (rj_Limit req))) page]
       /\ forall answer, r = Ok answer -> exists inner, page = Ok inner /\ jp_Records answer = jp_Records inner
            /\ wrapJournalCursor mode_text (jp_NextCursor inner) tenant session b = Ok (jp_NextCursor answer)
            /\ wrapJournalCursor mode_text (jp_PreviousCursor inner) tenant session b = Ok (jp_PreviousCursor answer).

(** A Host session's journal is read only from the reader its own binding
    resolved to, as the runtime session, with the caller's cursor unwrapped for
    this very session and every cursor of the answer wrapped for it; any other
    session's read is passed to the store as it came. *)
Theorem journal_read_is_scoped `{Sha256} (mode_text : ProtocolMode -> string) (req : ReadPublicJournalRequest) :
  wp (ReadPublicJournal mode_text req) (fun r t => exists found rest,
    t = Ev _ (JournalCatalogEntry (rj_TenantID req) (rj_SessionID req)) found :: rest /\
    match found with
    | Fail err => rest = [] /\ r = Fail err
    | Ok entry =>
        let b := rec_Binding (entry_Record entry) in
        if bool_decide (bnd_ProtocolMode b = ProtocolModeDisposition) then host_read mode_text req b r rest
        else exists page, rest = [Ev _ (StoreReadJournal req) page] /\ r = page
    end).
Proof.
  unfold ReadPublicJournal. cbv zeta. intros [entry|err]; [|apply wp_ret; by eexists (Fail err), []].
  set (b := rec_Binding (entry_Record entry)).
  assert (Hno : forall e : error, ~ is_Ok (A := JournalPage) (Fail e)) by (by intros e [? ?]).
  eapply wp_mono; [intros r t Ht; exists (Ok entry), t; split; [done|]; fold b; exact Ht|].
  destruct (bool_decide (bnd_ProtocolMode b = ProtocolModeDisposition)); simpl negb; cbv iota; [|intros page; by exists page].
  case_bool_decide as Hr; [apply wp_ret; left; by split; [left|]|].
  intros [[|]|err]; [|left; by split; [right; eexists|]..].
  destruct (unwrapJournalCursor _ _ _ _ _) as [cursor|err] eqn:Hu; [|left; by split; [right; eexists|]].
  intros page. assert (Hread : forall r : result JournalPage, (forall answer, r = Ok answer -> exists inner, page = Ok inner
      /\ jp_Records answer = jp_Records inner
      /\ wrapJournalCursor mode_text (jp_NextCursor inner) (rj_TenantID req) (rj_SessionID req) b = Ok (jp_NextCursor answer)
      /\ wrapJournalCursor mode_text (jp_PreviousCursor inner) (rj_TenantID req) (rj_SessionID req) b = Ok (jp_PreviousCursor answer)) ->
    host_read mode_text req b r [Ev _ (ResolveJournal (rj_TenantID req) (rj_SessionID req) b) (Ok true);
      Ev _ (ResolvedReadJournal (MkReadJournal (rj_TenantID req) (bnd_RuntimeSessionID b) (rj_FromSeq req) (rj_Tail req)
        (rj_ScanLimit req) cursor (rj_Limit req))) page]) by (intros r Hr'; right; by exists cursor, page).
  destruct page as [page|err]; [|apply wp_ret; by apply Hread].
  destruct (wrapJournalCursor _ (jp_NextCursor page) _ _ _) as [next|] eqn:Hn; [|apply wp_ret; by apply Hread].
  destruct (wrapJournalCursor _ (jp_PreviousCursor page) _ _ _) as [previous|] eqn:Hp; [|apply wp_ret; by apply Hread].
  apply wp_ret, Hread. intros answer Ha. injection Ha as <-. by exists page.
Qed.

(** A cursor of one session, presented to another. *)
Lemma journal_cursor_roundtrip_witness :
  let b := Session_Binding "store" "1" "rt" ProtocolModeDisposition in
  let mode (m : ProtocolMode) : string := "disposition" in
  exists token, wrapJournalCursor mode "page-2" "t" "s" b = Ok token
    /\ unwrapJournalCursor mode token "t" "s" b = Ok "page-2"
    /\ unwrapJournalCursor mode token "t" "other" b = Fail journalCursorError.
Proof.
  intros b mode. destruct (wrapJournalCursor mode "page-2" "t" "s" b) as [token|e] eqn:Hw; [|by vm_compute in Hw].
  exists token. split; [done|]. split; [exact (proj1 (journal_cursor_roundtrip mode "page-2" "t" "s" b token Hw))|].
  vm_compute in Hw. injection Hw as <-. by vm_compute.
Defined.
