(* ===== verification/Controls.v ===== *)
(** * Control routes and command reads (src/internal/httpapi/controls.go and
    commands.go)

    The REST edge of the admission service and the read of a command's status.
    The admission service, the store, the audit authorizer and the request body
    are calls, and so are the response that is written and the wake that follows
    it, because their order matters. The rules that run before these handlers
    (authentication, authorization, limits) are the router's. *)

From S2P Require Import Prelude Wire Framing Text Program Identity Reconciler Pending Refusal Admission ClientLink HttpErrors.
Local Open Scope prog_scope.
Local Open Scope string_scope.
Local Open Scope Z_scope.

Definition StatusOK : Z := 200.
Definition StatusCreated : Z := 201.
Definition StatusAccepted : Z := 202.

(** ** Failures *)
Definition refusedRequest (cause : error) : error := refusal ErrorCodeInvalidRequest (Some cause).
Definition mismatchedIdentifier : error := refusedRequest (wrapf []).

Definition controlUnavailable : apiError := api StatusServiceUnavailable ErrorCodeUnavailable.
Definition realtimeUnavailable : apiError := api StatusServiceUnavailable ErrorCodeUnavailable.

Definition admissionFailure (err : error) : apiError :=
  match errors_code "admission.Error" err with
  | Some code => match RefusalStatus code with Some status => api status code | None => internalFailure end
  | None =>
      match contextFailure err with
      | Some failure => failure
      | None =>
          match storeUnavailable err with
          | Some failure => failure
          | None =>
              if errors_is err (Sentinel "admission.ErrGateResponderUnavailable")
                 || errors_is err (Sentinel "admission.ErrPrincipalResponderUnavailable")
              then api StatusServiceUnavailable ErrorCodeUnavailable
              else if errors_is err (Sentinel "admission.ErrAdmissionQuiesced") then controlUnavailable
              else internalFailure
          end
      end
  end.

Definition commandNotFound_ : apiError := api StatusNotFound ErrorCodeCommandNotFound.

Definition commandLegacyBound (err : error) : bool :=
  match errors_as "CatalogError" err with
  | Some (Typed _ code field _) =>
      bool_decide (field = "binding.protocol_mode")
      && (bool_decide (code = "CatalogErrorInvalid") || bool_decide (code = "CatalogErrorConflict"))
  | _ => false
  end.

Definition commandReadFailure (err : error) : apiError :=
  if code_is "InboxError" "InboxErrorNotFound" err || SessionAbsent err || commandLegacyBound err then commandNotFound_
  else match contextFailure err with
  | Some failure => failure
  | None => match storeUnavailable err with Some failure => failure | None => internalFailure end
  end.

(** ** Calls *)
Inductive controlCall : Type -> Type :=
| ReadBody : controlCall (result bytes)
| ControlAdmit (p : Principal) (request : command_request) : controlCall (result (DispositionInboxEntry * bool))
| WriteResponse (r : Response) : controlCall unit
| ScheduleWake (tenant : TenantID) (session : SessionID) (command : CommandID) : controlCall bool
| ReadCommand (tenant : TenantID) (session : SessionID) (command : CommandID) : controlCall (result DispositionInboxEntry)
| AskAuditRead (p : Principal) (session : SessionID) : controlCall (option error).

Abbreviation control := (prog controlCall).

Section Edge.
Context `{CoreJSON}.

(** The error envelope, as [writeAPIError] encodes it. *)
Definition envelope (code : string) (retryable : bool) : option bytes :=
  match marshalEnvelope code retryable with Ok body => Some body | Fail _ => None end.

Definition writeError (f : apiError) : control unit := invoke (WriteResponse (writeAPIError envelope ∅ f)).

(** ** Decoding *)
Definition decodeInto (body : bytes) (decode : bytes -> result command_request) : result command_request :=
  match decode body with Fail err => Fail (refusedRequest err) | Ok request => Ok request end.

Definition decodeCommand (body : bytes) (decode : bytes -> result command_request) (path : SessionID) : result command_request :=
  match decodeInto body decode with
  | Fail err => Fail err
  | Ok request => if negb (bool_decide (request_session request = path)) then Fail mismatchedIdentifier else Ok request
  end.

(** What a gate response's path names. *)
Definition gateNamed (request : command_request) (gid : string) : bool :=
  match request with RGateResponse r => bool_decide (gr_GateID r = gid) | _ => true end.

(** [controlSpecs]: the success status of a kind, and the decoding its [admit]
    starts with. *)
Definition controlSpecs (kind : CommandKind) : option (Z * (SessionID -> string -> bytes -> result command_request)) :=
  match kind with
  | KindInput => Some (StatusOK, fun sid _ body => decodeCommand body decodeInput sid)
  | KindInterrupt => Some (StatusOK, fun sid _ body => decodeCommand body decodeInterrupt sid)
  | KindRestore => Some (StatusOK, fun sid _ body => decodeCommand body decodeRestore sid)
  | KindGateResponse => Some (StatusAccepted, fun sid gid body =>
      match decodeCommand body decodeGateResponse sid with
      | Fail err => Fail err
      | Ok request => if negb (gateNamed request gid) then Fail mismatchedIdentifier else Ok request
      end)
  | KindCreateSession => Some (StatusCreated, fun _ _ body => decodeInto body decodeCreate)
  | KindOther _ => None
  end.

(** [admitted]. *)
Record admitted := MkAdmitted { ad_status : option CommandStatus; ad_command : CommandID; ad_session : SessionID }.

Definition dispositionAdmitted (kind : CommandKind) (entry : DispositionInboxEntry) : admitted :=
  MkAdmitted (StatusForDisposition entry) (desc_CommandID (inbox_Descriptor entry))
    (if bool_decide (kind = KindCreateSession) then desc_SessionID (inbox_Descriptor entry) else "").

(** The route's own request: what its middleware left, and the path. *)
Record ControlRequest := MkControlRequest { ctl_operation : option OperationContext; ctl_sid : SessionID; ctl_gid : string; ctl_cid : CommandID }.

Definition serveControl (hasAdmissions : bool) (kind : CommandKind) (r : ControlRequest) : control unit :=
  match controlSpecs kind with
  | None => writeError internalFailure
  | Some (success, decode) =>
      match ctl_operation r with
      | None => writeError internalFailure
      | Some operation =>
          if negb hasAdmissions then writeError controlUnavailable
          else
            call! body := ReadBody in
            match body with
            | Fail _ => writeError (api StatusBadRequest ErrorCodeInvalidRequest)
            | Ok body =>
                match decode (ctl_sid r) (ctl_gid r) body with
                | Fail err => writeError (admissionFailure err)
                | Ok request =>
                    call! answer := ControlAdmit (op_Principal operation) request in
                    match answer with
                    | Fail err => writeError (admissionFailure err)
                    | Ok (entry, _) =>
                        let result := dispositionAdmitted kind entry in
                        match ad_status result with
                        | None => writeError internalFailure
                        | Some status =>
                            match marshalStatus status with
                            | Fail _ => writeError internalFailure
                            | Ok payload =>
                                let target := if negb (bool_decide (ad_session result = "")) then ad_session result else ctl_sid r in
                                call! _ := WriteResponse (writeJSONBytes ∅ success payload) in
                                call! _ := ScheduleWake (tenant (op_Principal operation)) target (ad_command result) in
                                Ret tt
                            end
                        end
                    end
                end
            end
      end
  end.

(** [serveRealtime]: a supplier, what it supplies for this request, and what that
    handler writes. *)
Definition serveRealtime (realtime : option (option Response)) : Response :=
  match realtime with
  | Some (Some written) => written
  | _ => writeAPIError envelope ∅ realtimeUnavailable
  end.

(** ** Command status (commands.go) *)

(** Core's validation of a command identifier, and the encodings of what a
    command's record carries. *)
Context (CommandID_Validate : CommandID -> option error).
Context (marshalAuditPrincipal marshalAuditMetadata : DispositionInboxEntry -> option bytes).

Definition quoted (s : string) : string := q +:+ s +:+ q.

Definition withAuditMembers (body : bytes) (entry : DispositionInboxEntry) : option bytes :=
  let d := inbox_Descriptor entry in
  if negb (desc_hasPrincipal d) && (desc_Metadata d =? 0) then Some body
  else if (len body <? 2) || negb (ends_with "}" body) then None
  else
    let out := without_last body in
    match (if desc_hasPrincipal d then
             match marshalAuditPrincipal entry with Some p => Some (out +:+ "," +:+ quoted "principal" +:+ ":" +:+ p) | None => None end
           else Some out) with
    | None => None
    | Some out =>
        match (if 0 <? desc_Metadata d then
                 match marshalAuditMetadata entry with Some v => Some (out +:+ "," +:+ quoted "metadata" +:+ ":" +:+ v) | None => None end
               else Some out) with
        | None => None
        | Some out => Some (out +:+ "}")
        end
    end.

(** [rt.authorizer.(AuditAuthorizer)] by presence. *)
Definition auditGranted (hasAudit : bool) (p : Principal) (session : SessionID) : control bool :=
  if negb hasAudit then Ret false
  else call! denied := AskAuditRead p session in Ret (match denied with None => true | Some _ => false end).

Definition serveCommandStatus (hasReads hasAudit : bool) (r : ControlRequest) : control unit :=
  match ctl_operation r with
  | None => writeError internalFailure
  | Some operation =>
      let p := op_Principal operation in
      if negb hasReads then writeError controlUnavailable
      else match CommandID_Validate (ctl_cid r) with
      | Some _ => writeError (api StatusBadRequest ErrorCodeInvalidRequest)
      | None =>
          call! found := ReadCommand (tenant p) (ctl_sid r) (ctl_cid r) in
          match found with
          | Fail err => writeError (commandReadFailure err)
          | Ok entry =>
              match StatusForDisposition entry with
              | None => writeError internalFailure
              | Some status =>
                  match marshalStatus status with
                  | Fail _ => writeError internalFailure
                  | Ok body =>
                      let! granted := auditGranted hasAudit p (ctl_sid r) in
                      match granted with
                      | false => invoke (WriteResponse (writeJSONBytes ∅ StatusOK body))
                      | true =>
                          match withAuditMembers body entry with
                          | None => writeError internalFailure
                          | Some body => invoke (WriteResponse (writeJSONBytes ∅ StatusOK body))
                          end
                      end
                  end
              end
          end
      end
  end.
End Edge.

(** ** Facts *)
Lemma ruled_public code status : RefusalStatus code = Some status -> public (api status code) = true.
Proof.
  unfold RefusalStatus. intros Hs. apply elem_of_list_to_map_2 in Hs.
  repeat (apply elem_of_cons in Hs as [Hs|Hs]; [simplify_eq; by vm_compute|]). by apply elem_of_nil in Hs.
Qed.

Lemma admissionFailure_public err : public (admissionFailure err) = true.
Proof.
  unfold admissionFailure. destruct (errors_code _ err) as [code|].
  - destruct (RefusalStatus code) eqn:Hs; [by apply ruled_public|by vm_compute].
  - destruct (contextFailure err) as [f|] eqn:Hc; [by apply contextFailure_public in Hc as [? _]|].
    destruct (storeUnavailable err) as [f|] eqn:Hs; [apply storeUnavailable_public in Hs as ->; by vm_compute|].
    destruct (_ || _); [by vm_compute|]. destruct (errors_is err _); by vm_compute.
Qed.

Lemma commandReadFailure_public err : public (commandReadFailure err) = true.
Proof.
  unfold commandReadFailure. destruct (_ || _); [by vm_compute|].
  destruct (contextFailure err) as [f|] eqn:Hc; [by apply contextFailure_public in Hc as [? _]|].
  destruct (storeUnavailable err) as [f|] eqn:Hs; [apply storeUnavailable_public in Hs as ->|]; by vm_compute.
Qed.

Section ControlFacts.
Context `{CoreJSON}.

(** Neither a response nor a wake. *)
Definition quiet (e : event controlCall) : bool :=
  match e with Ev _ (WriteResponse _) _ | Ev _ (ScheduleWake _ _ _) _ => false | _ => true end.

(** A run that ends in one public failure, and wakes nobody. *)
Definition refused_with (t : list (event controlCall)) : Prop :=
  exists pre f, t = (pre ++ [Ev _ (WriteResponse (writeAPIError envelope ∅ f)) tt])%list /\ forallb quiet pre = true /\ public f = true.

Lemma writeError_wp f pre (Q : list (event controlCall) -> Prop) :
  public f = true -> forallb quiet pre = true -> (forall t, refused_with t -> Q t) ->
  wp (writeError f) (fun _ u => Q (pre ++ u)%list).
Proof. intros Hf Hp HQ. intros []. apply HQ. by exists pre, f. Qed.

(** The request a control body is, and the path it came by. *)
Definition addressed (kind : CommandKind) (r : ControlRequest) (request : command_request) : Prop :=
  request_kind request = kind /\ (kind <> KindCreateSession -> request_session request = ctl_sid r)
  /\ gateNamed request (ctl_gid r) = true.

Lemma decodeCommand_spec body decode path request :
  decodeCommand body decode path = Ok request <-> decode body = Ok request /\ request_session request = path.
Proof.
  unfold decodeCommand, decodeInto. destruct (decode body) as [req|e]; [|split; [done|by intros [? _]]].
  case_bool_decide as Hs; simpl; (split; [|intros [? ?]; by simplify_eq]); intros ?; by simplify_eq.
Qed.

(** Both edges decode the same bytes to the same request. *)
Lemma control_decodes kind success decode sid gid body request :
  controlSpecs kind = Some (success, decode) -> decode sid gid body = Ok request ->
  400 > success
  /\ (exists method rpc, commandSpecs method = Some (kind, rpc) /\ rpc body = Ok request)
  /\ (kind <> KindCreateSession -> request_session request = sid) /\ gateNamed request gid = true.
Proof.
  unfold controlSpecs. intros Hs Hd.
  assert (Hok : forall d, decodeCommand body d sid = Ok request -> d body = Ok request /\ request_session request = sid)
    by (intros d; apply decodeCommand_spec).
  destruct kind; simplify_eq.
  - unfold decodeInto in Hd. destruct (decodeCreate body) as [req|] eqn:Hr; [|done]. simplify_eq.
    split_and!; [done|by exists MethodSessionCreate, decodeCreate|done|].
    unfold decodeCreate, result_map in Hr. by destruct (unmarshalCreate body); simplify_eq.
  - apply Hok in Hd as [Hr ?]. split_and!; [done|by exists MethodSessionInput, decodeInput|done|].
    unfold decodeInput, result_map in Hr. by destruct (unmarshalInput body); simplify_eq.
  - apply Hok in Hd as [Hr ?]. split_and!; [done|by exists MethodSessionInterrupt, decodeInterrupt|done|].
    unfold decodeInterrupt, result_map in Hr. by destruct (unmarshalInterrupt body); simplify_eq.
  - apply Hok in Hd as [Hr ?]. split_and!; [done|by exists MethodSessionRestore, decodeRestore|done|].
    unfold decodeRestore, result_map in Hr. by destruct (unmarshalRestore body); simplify_eq.
  - destruct (decodeCommand body decodeGateResponse sid) as [req|] eqn:Hr; [|done].
    destruct (gateNamed req gid) eqn:Hg; simpl in Hd; simplify_eq. apply Hok in Hr as [Hr ?].
    by split_and!; [|exists MethodGateRespond, decodeGateResponse|..].
Qed.

(** A control that was admitted: the body read once, one admission of what it
    decodes to under the authenticated principal, then the answer, and only
    then the wake. *)
Definition admitted_run (kind : CommandKind) (r : ControlRequest) (t : list (event controlCall)) : Prop :=
  exists op success body request entry created status payload woken,
    ctl_operation r = Some op /\ (exists decode, controlSpecs kind = Some (success, decode)) /\ success < 400
    /\ addressed kind r request
    /\ StatusForDisposition entry = Some status /\ marshalStatus status = Ok payload
    /\ t = [Ev _ ReadBody (Ok body); Ev _ (ControlAdmit (op_Principal op) request) (Ok (entry, created));
            Ev _ (WriteResponse (writeJSONBytes ∅ success payload)) tt;
            Ev _ (ScheduleWake (tenant (op_Principal op))
                    (let created := desc_SessionID (inbox_Descriptor entry) in
                     if bool_decide (kind = KindCreateSession) && negb (bool_decide (created = "")) then created else ctl_sid r)
                    (desc_CommandID (inbox_Descriptor entry))) woken].

(** Every admission is of a request the path and the route name. *)
Definition own_admission (kind : CommandKind) (r : ControlRequest) (e : event controlCall) : Prop :=
  match e with
  | Ev _ (ControlAdmit p request) _ => (exists op, ctl_operation r = Some op /\ p = op_Principal op) /\ addressed kind r request
  | _ => True
  end.

Lemma refused_tail pre f (P : event controlCall -> Prop) (Q : list (event controlCall) -> Prop) :
  public f = true -> forallb quiet pre = true -> Forall P pre -> (forall x, P (Ev _ (WriteResponse x) tt)) ->
  wp (writeError f) (fun _ u => (refused_with (pre ++ u) \/ Q (pre ++ u)%list) /\ Forall P (pre ++ u)%list).
Proof.
  intros Hf Hp HP HW []. split; [left; by exists pre, f|]. apply Forall_app. split; [done|]. by repeat constructor.
Qed.
End ControlFacts.

(** A control route answers once and truthfully. Whatever the body, the
    admission service and the encoder answer, it either writes one failure of
    the API's vocabulary and wakes nobody, or admits exactly the request its
    body decodes to, which names the session (and gate) of the path and is of
    the route's kind, under the authenticated principal; then it answers that
    entry's status, and only after the answer schedules one wake for that
    command. No other admission is ever attempted. *)
Theorem control_answers_then_wakes `{CoreJSON} (hasAdmissions : bool) (kind : CommandKind) (r : ControlRequest) :
  wp (serveControl hasAdmissions kind r) (fun _ t =>
    (refused_with t \/ admitted_run kind r t) /\ Forall (own_admission kind r) t).
Proof.
  assert (Href : forall pre f, public f = true -> forallb quiet pre = true -> Forall (own_admission kind r) pre ->
    wp (writeError f) (fun _ u => (refused_with (pre ++ u) \/ admitted_run kind r (pre ++ u)%list) /\ Forall (own_admission kind r) (pre ++ u)%list))
    by (intros; by apply refused_tail).
  unfold serveControl. destruct (controlSpecs kind) as [[success decode]|] eqn:Hk; [|by apply (Href [])].
  destruct (ctl_operation r) as [op|] eqn:Hop; [|by apply (Href [])].
  destruct hasAdmissions; simpl negb; cbv iota; [|by apply (Href [])].
  intros [body|err]; [|by apply (Href [Ev _ ReadBody (Fail err)]); repeat constructor].
  destruct (decode (ctl_sid r) (ctl_gid r) body) as [request|err] eqn:Hd.
  2:{ apply (Href [Ev _ ReadBody (Ok body)]); [apply admissionFailure_public|done|by repeat constructor]. }
  destruct (control_decodes _ _ _ _ _ _ _ Hk Hd) as (Hsucc & (method & rpc & Hm & Hr) & Hsid & Hgid).
  assert (Haddr : addressed kind r request) by (split_and!; [by eapply commandSpecs_kind|done|done]).
  assert (Hpre : forall a, Forall (own_admission kind r) [Ev _ ReadBody (Ok body); Ev _ (ControlAdmit (op_Principal op) request) a]).
  { intros a. repeat constructor; [by exists op|apply Haddr..]. }
  intros answer. specialize (Hpre answer). destruct answer as [[entry created]|err].
  2:{ apply (Href [_; _]); [apply admissionFailure_public|done|done]. }
  cbv zeta. destruct (ad_status _) as [status|] eqn:Hst; [|by apply (Href [_; _])].
  destruct (marshalStatus status) as [payload|err] eqn:Hp; [|by apply (Href [_; _])].
  intros [] woken. apply wp_ret. split; [right|].
  - exists op, success, body, request, entry, created, status, payload, woken. split_and!; try done; [by eexists|lia|].
    unfold dispositionAdmitted. simpl. by destruct (bool_decide (kind = KindCreateSession)).
  - apply (Forall_app (own_admission kind r) [_; _] [_; _]). split; [exact Hpre|]. by repeat constructor.
Qed.

(** The two edges agree. A control body the REST route accepts is the
    request the ClientLink decodes from the same bytes for the method of that
    kind; and a classified refusal is answered with the same envelope bytes by
    both, its code and not retryable, under the status the shared table
    rules. *)
Theorem edges_agree `{CoreJSON} (kind : CommandKind) (r : ControlRequest) (success : Z)
    (decode : SessionID -> string -> bytes -> result command_request) (err : error) (code : string) (status_ : Z) :
  controlSpecs kind = Some (success, decode) ->
  errors_code "admission.Error" err = Some code -> RefusalStatus code = Some status_ ->
  (forall body request, decode (ctl_sid r) (ctl_gid r) body = Ok request ->
     exists method rpc, commandSpecs method = Some (kind, rpc) /\ rpc body = Ok request)
  /\ match refusalBody code with
     | Ok body => writeAPIError envelope ∅ (admissionFailure err) = writeJSONBytes ∅ status_ body
     | Fail _ => writeAPIError envelope ∅ (admissionFailure err) = writeJSONBytes ∅ StatusInternalServerError fallbackErrorBody
     end.
Proof.
  intros Hk Hc Hs. split; [intros body request Hd; by destruct (control_decodes _ _ _ _ _ _ _ Hk Hd) as (_ & ? & _)|].
  rewrite refusalBody_final. unfold admissionFailure. rewrite Hc, Hs. unfold writeAPIError, envelope. simpl.
  unfold retryableStatus. destruct (ruled_status _ _ Hs) as [Hr Hret]. rewrite Hret.
  destruct (marshalEnvelope code false) as [body|e]; [|done].
  by rewrite andb_false_r.
Qed.

(** A status that was answered. *)
Definition status_run `{CoreJSON} (validate : CommandID -> option error) (principals metadata : DispositionInboxEntry -> option bytes)
    (r : ControlRequest) (t : list (event controlCall)) : Prop :=
  exists op entry status body asked shown,
    ctl_operation r = Some op /\ validate (ctl_cid r) = None
    /\ StatusForDisposition entry = Some status /\ marshalStatus status = Ok body
    /\ t = (Ev _ (ReadCommand (tenant (op_Principal op)) (ctl_sid r) (ctl_cid r)) (Ok entry) :: asked
            ++ [Ev _ (WriteResponse (writeJSONBytes ∅ StatusOK shown)) tt])%list
    /\ (shown = body \/ asked = [Ev _ (AskAuditRead (op_Principal op) (ctl_sid r)) None]
          /\ withAuditMembers principals metadata body entry = Some shown).

(** A command's status is read under the caller's own tenant, for the session and
    command of the path, and answered once. The principal and the metadata a
    command carries are added only for a caller the audit authorizer granted,
    and only after the members everyone sees. *)
Theorem command_status_is_scoped `{CoreJSON} (validate : CommandID -> option error)
    (principals metadata : DispositionInboxEntry -> option bytes) (hasReads hasAudit : bool) (r : ControlRequest) :
  wp (serveCommandStatus validate principals metadata hasReads hasAudit r) (fun _ t =>
    refused_with t \/ status_run validate principals metadata r t).
Proof.
  assert (Href : forall pre f, public f = true -> forallb quiet pre = true ->
    wp (writeError f) (fun _ u => refused_with (pre ++ u) \/ status_run validate principals metadata r (pre ++ u)%list)).
  { intros pre f Hf Hp []. left. by exists pre, f. }
  unfold serveCommandStatus. destruct (ctl_operation r) as [op|] eqn:Hop; [|by apply (Href [])].
  destruct hasReads; simpl negb; cbv iota zeta; [|by apply (Href [])].
  destruct (validate (ctl_cid r)) eqn:Hv; [by apply (Href [])|].
  intros [entry|err]; [|apply (Href [_]); [apply commandReadFailure_public|done]].
  destruct (StatusForDisposition entry) as [status|] eqn:Hst; [|by apply (Href [_])].
  destruct (marshalStatus status) as [body|err] eqn:Hb; [|by apply (Href [_])].
  unfold auditGranted. destruct hasAudit; simpl negb; cbv iota.
  - intros [denied|]; [intros []; right; exists op, entry, status, body, [Ev _ (AskAuditRead (op_Principal op) (ctl_sid r)) (Some denied)], body; split_and!; auto|].
    cbn [bind]. destruct (withAuditMembers principals metadata body entry) as [shown|] eqn:Hw; [|by apply (Href [_; _])].
    intros []. right. exists op, entry, status, body, [Ev _ (AskAuditRead (op_Principal op) (ctl_sid r)) None], shown. by split_and!; auto.
  - intros []. right. exists op, entry, status, body, [], body. by split_and!; auto.
Qed.

(** The codec of a deployment that encodes codes and command identifiers as
    themselves. *)
#[global] Instance demo_json : CoreJSON := {|
  unmarshalCreate _ := Fail (wrapf []);
  unmarshalInput b := Ok (MkInput b "c" None [] "");
  unmarshalInterrupt _ := Fail (wrapf []);
  unmarshalRestore _ := Fail (wrapf []);
  unmarshalGateResponse _ := Fail (wrapf []);
  marshalStatus s := Ok (status_CommandID s);
  marshalEnvelope code retryable := Ok code
|}.

Lemma edges_agree_witness :
  writeAPIError envelope ∅ (admissionFailure (refusal ErrorCodeRuntimeUnavailable None))
    = writeJSONBytes ∅ 422 ErrorCodeRuntimeUnavailable.
Proof.
  exact (proj2 (edges_agree KindInput (MkControlRequest None "s" "" "") 200 (fun sid _ body => decodeCommand body decodeInput sid)
    (refusal ErrorCodeRuntimeUnavailable None) ErrorCodeRuntimeUnavailable 422 eq_refl ltac:(by vm_compute) ltac:(by vm_compute))).
Defined.

(** An input is answered, then its Host is woken. *)
Example control_demo :
  let world : handler controlCall Z := fun R c =>
    match c in controlCall R return Z -> R * Z with
    | ReadBody => fun w => (Ok "s", w)
    | ControlAdmit _ _ => fun w => (Ok (demo_inbox "s" "c" KindInput InboxStatePending, true), w + 1)
    | WriteResponse _ => fun w => (tt, w)
    | ScheduleWake _ _ _ => fun w => (true, w)
    | ReadCommand _ _ _ => fun w => (Fail (wrapf []), w)
    | AskAuditRead _ _ => fun w => (None, w)
    end in
  let run := run world (serveControl true KindInput (MkControlRequest (Some (NewLinkOperationContext demo_principal)) "s" "" "")) 0 in
  length run.1.2 = 4%nat /\ run.2 = 1 /\ last (quiet <$> run.1.2) = Some false.
Proof. by vm_compute. Qed.
