(* ===== verification/Recording.v ===== *)
(** * The recording writer (src/internal/httpapi/routes.go recordingWriter, recoverPanic)

    The router answers a panicking handler from one bit: whether the writer it
    handed down has been written to. Here is that writer over net/http's
    response - which sends its status once, implies 200 at the first write or
    flush, and takes nothing after a hijack - and the recovery over it. The
    [Panics] of [Router.handled] is what is left of a handler when only the bit
    and the headers are kept. *)

From S2P Require Import Prelude Wire Framing Text Refusal HttpErrors Controls.
Local Open Scope string_scope.
Local Open Scope Z_scope.

(** ** net/http's response: what has been sent *)
Record response := MkSent { sent_status : option Z; sent_body : string; hijacked : bool }.

Definition fresh_response : response := MkSent None "" false.

Definition http_WriteHeader (status : Z) (r : response) : response :=
  if hijacked r then r else match sent_status r with Some _ => r | None => MkSent (Some status) (sent_body r) false end.
Definition http_Write (b : string) (r : response) : response :=
  if hijacked r then r else MkSent (Some (default StatusOK (sent_status r))) (sent_body r +:+ b) false.
Definition http_Flush (r : response) : response :=
  if hijacked r then r else MkSent (Some (default StatusOK (sent_status r))) (sent_body r) false.
Definition http_Hijack (r : response) : response := MkSent (sent_status r) (sent_body r) true.

(** ** The writer *)
Record recordingWriter := MkRecording { under : response; wrote : bool }.

(** What a handler may do with it; [Unwrapped] is a call on the writer below,
    which [Unwrap] hands out. *)
Inductive writerOp := WriteHeader (status : Z) | Write (b : string) | Hijack | Unwrapped_Flush | Unwrapped_WriteHeader (status : Z).

Definition apply_op (w : recordingWriter) (op : writerOp) : recordingWriter :=
  match op with
  | WriteHeader status => MkRecording (http_WriteHeader status (under w)) true
  | Write b => MkRecording (http_Write b (under w)) true
  | Hijack => MkRecording (http_Hijack (under w)) (wrote w)
  | Unwrapped_Flush => MkRecording (http_Flush (under w)) (wrote w)
  | Unwrapped_WriteHeader status => MkRecording (http_WriteHeader status (under w)) (wrote w)
  end.

Definition handle (ops : list writerOp) : recordingWriter := fold_left apply_op ops (MkRecording fresh_response false).

(** A panic's recovery: the connection aborted, or the envelope written through
    the writer. *)
Inductive recovered := Aborted (partial : response) | Enveloped (sent : response).

Section Recover.
Context (marshalEnvelope : string -> bool -> option bytes).

Definition writeFailure (w : recordingWriter) : recordingWriter :=
  let r := writeAPIError marshalEnvelope ∅ internalFailure in
  fold_left apply_op [WriteHeader (resp_status r); Write (resp_body r)] w.

Definition recoverPanic (w : recordingWriter) : recovered :=
  if wrote w then Aborted (under w) else Enveloped (under (writeFailure w)).

(** ** What a client is left with *)
Definition direct (op : writerOp) : bool := match op with WriteHeader _ | Write _ => true | _ => false end.

Definition unsent (r : response) : bool := negb (hijacked r) && bool_decide (sent_status r = None) && bool_decide (sent_body r = "").

Lemma handle_records ops w : forallb direct ops = true -> hijacked (under w) = false -> wrote w = negb (unsent (under w)) ->
  let w' := fold_left apply_op ops w in hijacked (under w') = false /\ wrote w' = negb (unsent (under w')).
Proof.
  revert w. induction ops as [|op ops IH]; intros w Hd Hh Hw; [done|]. simpl in Hd. apply andb_true_iff in Hd as [Ho Hd].
  apply (IH (apply_op w op) Hd); destruct op as [status|b| | |]; try done; simpl; unfold http_WriteHeader, http_Write; rewrite Hh.
  - by destruct (sent_status (under w)).
  - done.
  - unfold unsent. destruct (sent_status (under w)) as [s|] eqn:Hs; simpl; rewrite ?Hs; [|done]. by rewrite Hh.
  - by unfold unsent.
Qed.

(** A handler that only writes through the writer it was handed and then panics
    leaves the client one of two things: the whole internal error and nothing
    else, when it had sent nothing, or what it had sent with nothing appended,
    and the connection closed. *)
Theorem recovery_never_appends ops :
  forallb direct ops = true ->
  match recoverPanic (handle ops) with
  | Aborted partial => partial = under (handle ops) /\ unsent partial = false
  | Enveloped sent =>
      under (handle ops) = fresh_response /\
      let r := writeAPIError marshalEnvelope ∅ internalFailure in sent = MkSent (Some (resp_status r)) (resp_body r) false
  end.
Proof.
  intros Hd. destruct (handle_records ops (MkRecording fresh_response false) Hd eq_refl eq_refl) as [Hh Hw].
  fold (handle ops) in Hh, Hw. unfold recoverPanic. destruct (wrote (handle ops)).
  - split; [done|]. symmetry in Hw. by apply negb_true_iff in Hw.
  - symmetry in Hw. apply negb_false_iff in Hw. unfold unsent in Hw. rewrite !andb_true_iff, !bool_decide_eq_true in Hw. destruct Hw as [[_ Hs] Hb].
    assert (Hf : under (handle ops) = fresh_response) by (destruct (under (handle ops)); simpl in *; by subst).
    split; [done|]. unfold writeFailure. simpl. by rewrite Hf.
Qed.
End Recover.

(** The record is of the wrapper only: a status sent through [Unwrap] is not
    recorded, and the envelope of a panic after it is appended to what the
    client already has, under that status. *)
Lemma unwrapped_status_is_not_recorded :
  recoverPanic (fun _ _ => Some "{error}") (handle [Unwrapped_Flush]) = Enveloped (MkSent (Some StatusOK) "{error}" false).
Proof. reflexivity. Qed.

Lemma recovery_never_appends_witness :
  recoverPanic (fun _ _ => Some "{error}") (handle [Write "half"]) = Aborted (MkSent (Some StatusOK) "half" false) /\
  unsent (MkSent (Some StatusOK) "half" false) = false.
Proof.
  split; [reflexivity|]. pose proof (recovery_never_appends (fun _ _ => Some "{error}") [Write "half"] eq_refl) as Hr. apply Hr.
Defined.
