(* ===== verification/Reads.v ===== *)
(** * Session reads (src/internal/httpapi/sessions.go, bootstrap.go and the session
    list of reads.go)

    The read routes of a session and of a tenant's list, with their query
    parameters and page limits. Stores and the gate owners are calls; the pages
    they answer are encoded by Core, so a page carries its encoding or [None]
    where the routes do not look inside it. [query[name]] is a function to the
    values given. *)

From S2P Require Import Prelude Wire Framing Text Program Identity Refusal Admission HttpErrors Origins Guard Journal.
Local Open Scope prog_scope.
Local Open Scope string_scope.
Local Open Scope Z_scope.

Definition maxJournalPageLimit : Z := 100.
Definition defaultJournalPageLimit : Z := 64.
Definition maxSessionPageLimit : Z := 200.

Definition invalidQuery : apiError := api StatusBadRequest ErrorCodeInvalidRequest.

(** ** Query parameters *)
Abbreviation Values := (string -> list string) (only parsing).

(** [queryValue]: the value of a parameter, where it was given. *)
Definition present (value : option string) : bool := match value with Some _ => true | None => false end.

Definition singleValue (query : Values) (name : string) : option string + apiError :=
  match query name with
  | [] => inl None
  | [value] => if bool_decide (value = "") then inr invalidQuery else inl (Some value)
  | _ => inr invalidQuery
  end.

Definition boundedPageLimit (query : Values) (ceiling : Z) : option Z + apiError :=
  match singleValue query "limit" with
  | inr failure => inr failure
  | inl None => inl None
  | inl (Some value) =>
      match Atoi value with
      | None => inr invalidQuery
      | Some parsed => if parsed <? 1 then inr invalidQuery else inl (Some (Z.min parsed ceiling))
      end
  end.

(** Without a limit the store chooses, on 0. *)
Definition sessionPageLimit (query : Values) : Z + apiError :=
  match boundedPageLimit query maxSessionPageLimit with
  | inr failure => inr failure
  | inl limit => inl (default 0 limit)
  end.

Record journalPosition := MkPosition { pos_cursor : string; pos_fromSeq : Z; pos_positioned : bool; pos_limit : Z }.

(** [strconv.ParseUint] of text that need not be digits. *)
Definition parseUint (s : string) : option Z :=
  if bool_decide (s = "") || negb (all_bytes is_digit s) then None else ParseUint s.

Definition journalPositionOf (query : Values) : journalPosition + apiError :=
  match singleValue query "cursor" with
  | inr failure => inr failure
  | inl cursor =>
      match singleValue query "from_seq" with
      | inr failure => inr failure
      | inl position =>
          if present cursor && present position then inr invalidQuery
          else
            match (match position with None => Some 0 | Some text => parseUint text end) with
            | None => inr invalidQuery
            | Some fromSeq =>
                match boundedPageLimit query maxJournalPageLimit with
                | inr failure => inr failure
                | inl limit =>
                    inl (MkPosition (default "" cursor) fromSeq (present cursor || present position)
                           (default defaultJournalPageLimit limit))
                end
            end
      end
  end.

(** ** Failures *)
Definition journalFailure (err : error) : apiError :=
  match contextFailure err with
  | Some failure => failure
  | None =>
      match errors_code "JournalError" err with
      | Some code => if bool_decide (code = "JournalErrorCursor") then invalidQuery else internalFailure
      | None => catalogFailure err
      end
  end.

(** ** Calls *)
Abbreviation encoded := (option bytes) (only parsing).

Record GatePage := MkGatePage_ { gp_Gates : list GateProjection; gp_rest : bytes }.

Inductive readCall : Type -> Type :=
| ListSessionsPage (tenant : TenantID) (cursor : string) (limit : Z) : readCall (result encoded)
| ReadJournalPage (req : ReadPublicJournalRequest) : readCall (result encoded)
| ReadGates (tenant : TenantID) (session : SessionID) : readCall (result GatePage)
| AskAnswerable (tenant : TenantID) (session : SessionID) (record : CatalogRecord) : readCall (result bool).

Abbreviation readings := (prog readCall).

(** What a read route is given: the operation and the session its middleware
    left, and its query. *)
Record ReadRequest := MkReadRequest { rr_operation : option OperationContext; rr_session : option CatalogEntry; rr_query : Values }.

(** A [scope]'s requests: the tenant is the principal's. *)
Definition journalPage (p : Principal) (session : SessionID) (cursor : string) (fromSeq limit : Z) (tail : bool)
    : ReadPublicJournalRequest := MkReadJournal (tenant p) session fromSeq tail limit cursor limit.

Section Routes.
(** Encodings: the error envelope, the status of a record and a gate page; and
    Core's validation of a tenant. *)
Context `{CoreIdentifiers} (marshalEnvelope : string -> bool -> option bytes).
Context (statusJSON : CatalogRecord -> option bytes) (marshalGatePage : GatePage -> option bytes) (bootstrapJSON : TenantID -> bytes).

Definition failed (f : apiError) : Response := writeAPIError marshalEnvelope ∅ f.

Definition answer_ (body : encoded) : Response :=
  match body with None => failed internalFailure | Some body => writeJSONBytes ∅ 200 body end.

Definition serveSessionStatus (r : ReadRequest) : Response :=
  match rr_session r with
  | None => failed internalFailure
  | Some entry => answer_ (statusJSON (entry_Record entry))
  end.

Definition serveSessionJournal (r : ReadRequest) : readings Response :=
  match rr_operation r, rr_session r with
  | Some operation, Some entry =>
      match journalPositionOf (rr_query r) with
      | inr failure => Ret (failed failure)
      | inl position =>
          call! page := ReadJournalPage (journalPage (op_Principal operation) (rec_SessionID (entry_Record entry))
            (pos_cursor position) (pos_fromSeq position) (pos_limit position) (negb (pos_positioned position))) in
          Ret (match page with Fail err => failed (journalFailure err) | Ok page => answer_ page end)
      end
  | _, _ => Ret (failed internalFailure)
  end.

Definition resident (g : GateProjection) : bool := bool_decide (gate_Answerability g = GateAnswerabilityResident).

Definition overlay (g : GateProjection) : GateProjection :=
  if resident g then Gate_Projection (gate_GateID g) (gate_OpenedEventID g) (gate_OpenedJournalSeq g) (gate_Deadline g)
                       GateAnswerabilityUnavailable
  else g.

Definition overlayAnswerability (hasOwners : bool) (t : TenantID) (record : CatalogRecord) (page : GatePage) : readings GatePage :=
  if negb hasOwners then Ret page
  else if negb (existsb resident (gp_Gates page)) then Ret page
  else
    call! answerable := AskAnswerable t (rec_SessionID record) record in
    match answerable with
    | Ok true => Ret page
    | _ => Ret (MkGatePage_ (overlay <$> gp_Gates page) (gp_rest page))
    end.

Definition serveSessionGates (hasOwners : bool) (r : ReadRequest) : readings Response :=
  match rr_operation r, rr_session r with
  | Some operation, Some entry =>
      let t := tenant (op_Principal operation) in
      call! page := ReadGates t (rec_SessionID (entry_Record entry)) in
      match page with
      | Fail err => Ret (failed (catalogFailure err))
      | Ok page => let! page := overlayAnswerability hasOwners t (entry_Record entry) page in Ret (answer_ (marshalGatePage page))
      end
  | _, _ => Ret (failed internalFailure)
  end.

Definition serveSessionList (r : ReadRequest) : readings Response :=
  match rr_operation r with
  | None => Ret (failed (authenticationFailure ErrUnauthenticated))
  | Some operation =>
      match singleValue (rr_query r) "cursor" with
      | inr failure => Ret (failed failure)
      | inl cursor =>
          match sessionPageLimit (rr_query r) with
          | inr failure => Ret (failed failure)
          | inl limit =>
              call! page := ListSessionsPage (tenant (op_Principal operation)) (default "" cursor) limit in
              Ret (match page with Fail err => failed (catalogFailure err) | Ok page => answer_ page end)
          end
      end
  end.

Definition serveBootstrap (operation : option OperationContext) (rawQuery : string) : Response :=
  match operation with
  | None => failed (authenticationFailure ErrUnauthenticated)
  | Some operation =>
      if negb (bool_decide (rawQuery = "")) then failed invalidQuery
      else
        let t := tenant (op_Principal operation) in
        match TenantID_Validate t with
        | Some _ => failed internalFailure
        | None => writeJSON 200 (bootstrapJSON t)
        end
  end.
End Routes.

(** ** Facts *)
Lemma singleValue_spec query name :
  match singleValue query name with
  | inl None => query name = []
  | inl (Some v) => query name = [v] /\ v <> ""
  | inr f => f = invalidQuery
  end.
Proof. unfold singleValue. destruct (query name) as [|v [|? ?]]; [done| |done]. by case_bool_decide. Qed.

Lemma boundedPageLimit_spec query ceiling : 1 <= ceiling ->
  match boundedPageLimit query ceiling with
  | inl None => query "limit" = []
  | inl (Some n) => 1 <= n <= ceiling /\ exists v parsed, query "limit" = [v] /\ Atoi v = Some parsed /\ n = Z.min parsed ceiling
  | inr f => f = invalidQuery
  end.
Proof.
  intros Hc. unfold boundedPageLimit. pose proof (singleValue_spec query "limit") as Hs.
  destruct (singleValue query "limit") as [[v|]|f]; [|done..]. destruct (Atoi v) as [n|] eqn:Ha; [|done].
  destruct (n <? 1) eqn:Hn; [done|]. reflect_guards. split; [lia|]. exists v, n. by destruct Hs.
Qed.

Lemma parseUint_range text v : parseUint text = Some v -> is_u64 v.
Proof.
  unfold parseUint, ParseUint. intros Hv. branches. reflect_guards.
  pose proof (decimal_pos text 0 ltac:(lia) ltac:(done)). unfold is_u64. lia.
Qed.

Lemma journal_page_bounds query :
  match journalPositionOf query with inl p => 1 <= pos_limit p <= maxJournalPageLimit | inr _ => True end.
Proof.
  unfold journalPositionOf. pose proof (boundedPageLimit_spec query maxJournalPageLimit ltac:(done)) as Hl.
  destruct (singleValue query "cursor") as [cursor|]; [|done]. destruct (singleValue query "from_seq") as [position|]; [|done].
  destruct (_ && _); [done|]. destruct (match position with None => _ | _ => _ end); [|done].
  destruct (boundedPageLimit query maxJournalPageLimit) as [[n|]|]; [by destruct Hl|by vm_compute|done].
Qed.

(** A journal read names one position and a bounded page. Whatever the
    query, an accepted one has at most one of a cursor and a sequence, reads
    the tail exactly when it has neither, carries the cursor or the number that
    was given and no other, and asks for between 1 and 100 records, 64 when it
    names no limit; anything else (repeated, empty or unreadable parameters,
    two positions) is refused as a bad request. *)
Theorem journal_position_exact (query : string -> list string) :
  match journalPositionOf query with
  | inl p =>
      1 <= pos_limit p <= maxJournalPageLimit /\ (query "limit" = [] -> pos_limit p = defaultJournalPageLimit)
      /\ is_u64 (pos_fromSeq p)
      /\ (pos_positioned p = false <-> query "cursor" = [] /\ query "from_seq" = [])
      /\ (query "cursor" = [] \/ query "from_seq" = [])
      /\ (if bool_decide (query "cursor" = []) then pos_cursor p = "" else query "cursor" = [pos_cursor p])
      /\ (if bool_decide (query "from_seq" = []) then pos_fromSeq p = 0
          else exists text, query "from_seq" = [text] /\ parseUint text = Some (pos_fromSeq p))
  | inr f => f = invalidQuery
  end.
Proof.
  unfold journalPositionOf.
  pose proof (singleValue_spec query "cursor") as Hc. destruct (singleValue query "cursor") as [cursor|f]; [|done].
  pose proof (singleValue_spec query "from_seq") as Hp. destruct (singleValue query "from_seq") as [position|f]; [|done].
  destruct (present cursor && present position) eqn:Hboth; [done|].
  destruct (match position with None => Some 0 | Some text => parseUint text end) as [fromSeq|] eqn:Hf; [|done].
  pose proof (boundedPageLimit_spec query maxJournalPageLimit ltac:(done)) as Hl.
  destruct (boundedPageLimit query maxJournalPageLimit) as [limit|f]; [|done]. simpl.
  assert (Hu : is_u64 fromSeq).
  { destruct position as [text|]; [by apply parseUint_range in Hf|by simplify_eq]. }
  assert (Hlim : 1 <= default defaultJournalPageLimit limit <= maxJournalPageLimit
    /\ (query "limit" = [] -> default defaultJournalPageLimit limit = defaultJournalPageLimit)).
  { destruct limit as [n|]; [|done]. destruct Hl as (Hn & v & parsed & Hv & _). split; [done|]. intros He. congruence. }
  destruct Hlim as [Hlim Hdef]. split_and!; try done; try lia.
  - destruct cursor, position; simpl; simpl in Hboth; (split; [intros Hp'|intros [Hq Hq']]); try done; intuition congruence.
  - destruct cursor, position; simpl in Hboth; intuition congruence.
  - destruct cursor; case_bool_decide; simpl; intuition congruence.
  - destruct position; case_bool_decide; [intuition congruence|exists s; intuition congruence|congruence|intuition congruence].
Qed.

(** ** Gates *)
Section GateFacts.

(** A gate as it is shown: itself, or itself answered as unavailable where it
    was stored as resident. *)
Definition shown (stored g : GateProjection) : Prop :=
  gate_GateID g = gate_GateID stored /\ gate_OpenedEventID g = gate_OpenedEventID stored
  /\ gate_OpenedJournalSeq g = gate_OpenedJournalSeq stored /\ gate_Deadline g = gate_Deadline stored
  /\ (gate_Answerability g = gate_Answerability stored
      \/ resident stored = true /\ gate_Answerability g = GateAnswerabilityUnavailable).

Lemma shown_refl g : shown g g.
Proof. unfold shown. naive_solver. Qed.

Lemma overlay_shown g : shown g (overlay g) /\ resident (overlay g) = false.
Proof.
  unfold overlay. destruct (resident g) eqn:Hg; [|split; [apply shown_refl|done]].
  split; [|done]. unfold shown. simpl. naive_solver.
Qed.

Lemma overlaid gates : Forall2 shown gates (overlay <$> gates) /\ existsb resident (overlay <$> gates) = false.
Proof.
  induction gates as [|g gates [IH1 IH2]]; [split; [constructor|done]|]. destruct (overlay_shown g) as [Hs Hr].
  split; [by constructor|]. rewrite fmap_cons. simpl. by rewrite Hr.
Qed.

Lemma same_shown gates : Forall2 shown gates gates.
Proof. induction gates; constructor; [apply shown_refl|done]. Qed.
End GateFacts.

(** A gate page promises only what the owner confirms. Every stored gate is
    shown, in order and with its own identity and deadline, and nothing else is;
    a gate may turn from resident to unavailable and in no other way. Where the
    owners can be asked, a gate is shown as resident only when the owner of
    this session, asked once about this record, answered that it can be
    answered: an owner that says no, or fails, promises nothing. *)
Theorem gates_promise_nothing (hasOwners : bool) (t : TenantID) (record : CatalogRecord) (page : GatePage) :
  wp (overlayAnswerability hasOwners t record page) (fun page' trace =>
    Forall2 shown (gp_Gates page) (gp_Gates page') /\ gp_rest page' = gp_rest page
    /\ (trace = [] \/ exists answer, hasOwners = true /\ existsb resident (gp_Gates page) = true
          /\ trace = [Ev _ (AskAnswerable t (rec_SessionID record) record) answer])
    /\ (hasOwners = true -> existsb resident (gp_Gates page') = true ->
          trace = [Ev _ (AskAnswerable t (rec_SessionID record) record) (Ok true)])).
Proof.
  pose proof (same_shown (gp_Gates page)) as Hsame. destruct (overlaid (gp_Gates page)) as [Hover Hnone].
  unfold overlayAnswerability. destruct hasOwners; simpl; [|by split_and!; auto].
  destruct (existsb resident (gp_Gates page)) eqn:Hr; simpl; [|split_and!; auto; congruence].
  intros [[]|err]; simpl; split_and!; eauto 6; by rewrite Hnone.
Qed.

(** ** Scope *)

(** A call names the caller's tenant, the session the middleware resolved and a
    page within its ceiling. *)
Definition in_scope (p : Principal) (session : option SessionID) (e : event readCall) : Prop :=
  match e with
  | Ev _ (ListSessionsPage t _ limit) _ => t = tenant p /\ 0 <= limit <= maxSessionPageLimit
  | Ev _ (ReadJournalPage req) _ =>
      rj_TenantID req = tenant p /\ Some (rj_SessionID req) = session
      /\ 1 <= rj_Limit req <= maxJournalPageLimit /\ rj_ScanLimit req = rj_Limit req
  | Ev _ (ReadGates t s) _ => t = tenant p /\ Some s = session
  | Ev _ (AskAnswerable t s record) _ => t = tenant p /\ Some s = session /\ rec_SessionID record = s
  end.

Lemma reads_are_in_scope `{CoreIdentifiers} (marshalEnvelope : string -> bool -> option bytes)
    (marshalGatePage : GatePage -> option bytes) (hasOwners : bool) (r : ReadRequest) (op : OperationContext) :
  rr_operation r = Some op ->
  let session := (fun e => rec_SessionID (entry_Record e)) <$> rr_session r in
  only (in_scope (op_Principal op) session) (serveSessionJournal marshalEnvelope r)
  /\ only (in_scope (op_Principal op) session) (serveSessionGates marshalEnvelope marshalGatePage hasOwners r)
  /\ only (in_scope (op_Principal op) session) (serveSessionList marshalEnvelope r).
Proof.
  intros Hop. cbv zeta. unfold serveSessionJournal, serveSessionGates, serveSessionList. rewrite Hop. split_and!.
  - destruct (rr_session r) as [entry|]; [|apply only_ret]. pose proof (journal_page_bounds (rr_query r)) as Hl.
    destruct (journalPositionOf (rr_query r)); [|apply only_ret]. by apply only_call; [|intros; apply only_ret].
  - destruct (rr_session r) as [entry|]; [|apply only_ret]. apply only_call; [done|]. intros [page|err]; [|apply only_ret].
    apply only_bind; [|intros; apply only_ret]. unfold overlayAnswerability. by walk_only.
  - destruct (singleValue _ _); [|apply only_ret]. unfold sessionPageLimit.
    pose proof (boundedPageLimit_spec (rr_query r) maxSessionPageLimit ltac:(done)) as Hl.
    destruct (boundedPageLimit _ _) as [[n|]|]; [| |apply only_ret]; (apply only_call; [|intros; apply only_ret]); intros a; simpl.
    + split; [done|]. lia.
    + done.
Qed.
