(* ===== verification/Agents.v ===== *)
(** * The launchable agents (the agent routes of src/internal/httpapi/reads.go)

    [GET /v1/agents] and [GET /v1/capabilities]: the configured templates that
    the directory of advertised Hosts makes launchable, aggregated, sorted and
    validated by an entity tag. The directory is a call; the order in which Go
    ranges over a map is a parameter, any permutation of the keys; Core's
    encoding of a summary is a parameter too. *)

From stdpp Require Import sorting.
From S2P Require Import Prelude Wire Framing Text Encoding Program Identity Refusal Admission HttpErrors Guard Objects.
Local Open Scope prog_scope.
Local Open Scope string_scope.
Local Open Scope Z_scope.

Definition agentProbePageLimit : Z := 32.

(** ** Templates *)
Record LaunchTemplate := MkTemplate { lt_Key : HostTargetKey; lt_Capabilities : list string }.

Section Validate.
Context (AgentID_Validate : AgentID -> option error).

Definition LaunchTemplate_Validate (t : LaunchTemplate) : option error :=
  match AgentID_Validate (tk_AgentID (lt_Key t)) with
  | Some _ => Some (wrapf [ErrInvalidRouterConfig])
  | None =>
      if bool_decide (tk_RuntimeCompatibilityID (lt_Key t) = "") then Some (wrapf [ErrInvalidRouterConfig])
      else match tk_Placement (lt_Key t) with
      | HostPlacementOther _ => Some (wrapf [ErrInvalidRouterConfig])
      | _ => if existsb (fun c => bool_decide (c = "")) (lt_Capabilities t) then Some (wrapf [ErrInvalidRouterConfig]) else None
      end
  end.
End Validate.

(** ** The summary *)
Record AgentCapabilitySummary := MkAgentSummary { as_AgentID : AgentID; as_RuntimeCompatibilityID : string; as_Capabilities : list string }.

Inductive directoryCall : Type -> Type :=
| Candidates (key : HostTargetKey) (limit : Z) : directoryCall (result (list string)).

Abbreviation directory := (prog directoryCall).

(** The [identity] two templates are aggregated under. *)
Abbreviation agentKey := (AgentID * string)%type.
Definition keyOf (t : LaunchTemplate) : agentKey := (tk_AgentID (lt_Key t), tk_RuntimeCompatibilityID (lt_Key t)).

Definition targetIsAdvertised (key : HostTargetKey) : directory (result bool) :=
  call! page := Candidates key agentProbePageLimit in
  Ret (match page with Fail err => Fail err | Ok hosts => Ok (0 <? Z.of_nat (length hosts)) end).

(** [live[key] = append(live[key], template.Capabilities...)]. *)
Definition addTemplate (t : LaunchTemplate) (live : gmap agentKey (list string)) : gmap agentKey (list string) :=
  <[keyOf t := (default [] (live !! keyOf t) ++ lt_Capabilities t)%list]> live.

Fixpoint liveTemplates (department : list LaunchTemplate) (live : gmap agentKey (list string))
    : directory (result (gmap agentKey (list string))) :=
  match department with
  | [] => Ret (Ok live)
  | t :: department =>
      if bool_decide (tk_Placement (lt_Key t) = HostPlacementPooled) then
        let! advertised := targetIsAdvertised (lt_Key t) in
        match advertised with
        | Fail err => Ret (Fail err)
        | Ok false => liveTemplates department live
        | Ok true => liveTemplates department (addTemplate t live)
        end
      else liveTemplates department (addTemplate t live)
  end.

(** [slices.Compact]. *)
Fixpoint Compact (l : list string) : list string :=
  match l with
  | a :: (b :: _) as rest => if bool_decide (a = b) then Compact rest else a :: Compact rest
  | _ => l
  end.

(** [slices.Sort] on strings, then [slices.Compact]. *)
Definition summarize (live : gmap agentKey (list string)) (key : agentKey) : AgentCapabilitySummary :=
  MkAgentSummary key.1 key.2 (Compact (merge_sort String.le (default [] (live !! key)))).

Definition agent_le (a b : AgentCapabilitySummary) : Prop :=
  if bool_decide (as_AgentID a = as_AgentID b)
  then String.le (as_RuntimeCompatibilityID a) (as_RuntimeCompatibilityID b)
  else String.le (as_AgentID a) (as_AgentID b).

#[global] Instance agent_le_dec : RelDecision agent_le.
Proof. intros a b. unfold agent_le. destruct (bool_decide _); apply _. Defined.

Section Launchable.
(** The order a [range] visits a map's keys in. *)
Context (range : list agentKey -> list agentKey).

Definition departmentSummary (live : gmap agentKey (list string)) : list AgentCapabilitySummary :=
  merge_sort agent_le (summarize live <$> range (map_to_list live).*1).

Definition launchableAgents (department : list LaunchTemplate) : directory (result (list AgentCapabilitySummary)) :=
  let! live := liveTemplates department ∅ in
  Ret (match live with Fail err => Fail err | Ok live => Ok (departmentSummary live) end).
End Launchable.

(** ** Entity tags *)
Definition trim_prefix (prefix s : string) : string := default s (after_prefix prefix s).

Section Tags.
Context `{Sha256}.

Definition entityTag (body : bytes) : string := q +:+ base64_encode (Sum256 body) +:+ q.
End Tags.

Definition matchesEntityTag (fields : list string) (etag : string) : bool :=
  existsb (fun field =>
    existsb (fun part =>
      let candidate := TrimSpace part in
      bool_decide (candidate = "*") || bool_decide (trim_prefix "W/" candidate = trim_prefix "W/" etag))
      (split "," field)) fields.

Definition FormatBool (b : bool) : string := if b then "true" else "false".

Definition withFeatures (body : bytes) (stamps : bool) : bytes :=
  if (len body <? 2) || negb (ends_with "}" body) then body
  else without_last body +:+ "," +:+ q +:+ "command_principal" +:+ q +:+ ":" +:+ FormatBool stamps
         +:+ "," +:+ q +:+ "message_metadata" +:+ q +:+ ":true}".

(** ** The route *)
Definition directoryFailure (err : error) : apiError :=
  match contextFailure err with
  | Some failure => failure
  | None =>
      match storeUnavailable err with
      | Some failure => failure
      | None =>
          match errors_code "HostTargetError" err with
          | Some code =>
              if bool_decide (code = "HostTargetErrorBackend") || bool_decide (code = "HostTargetErrorUnknown")
              then api StatusServiceUnavailable ErrorCodeUnavailable else internalFailure
          | None => internalFailure
          end
      end
  end.

Section Route.
Context `{Sha256} (range : list agentKey -> list agentKey).
Context (marshalEnvelope : string -> bool -> option bytes) (marshalSummary : list AgentCapabilitySummary -> option bytes).

(** What is written for a body, and the caller's [If-None-Match]. *)
Definition conditional (ifNoneMatch : list string) (body : bytes) : Response :=
  let etag := entityTag body in
  if matchesEntityTag ifNoneMatch etag then MkResponse 304 {["Etag" := etag]} ""
  else writeJSONBytes {["Etag" := etag]} 200 body.

Definition serveAgents (features stampsPrincipal : bool) (department : list LaunchTemplate)
    (operation : option OperationContext) (ifNoneMatch : list string) : directory Response :=
  match operation with
  | None => Ret (writeAPIError marshalEnvelope ∅ (authenticationFailure ErrUnauthenticated))
  | Some _ =>
      let! summary := launchableAgents range department in
      Ret (match summary with
      | Fail err => writeAPIError marshalEnvelope ∅ (directoryFailure err)
      | Ok agents =>
          match marshalSummary agents with
          | None => writeAPIError marshalEnvelope ∅ internalFailure
          | Some body => conditional ifNoneMatch (if features then withFeatures body stampsPrincipal else body)
          end
      end)
  end.
End Route.

(** ** Sorted lists without repetition *)
Definition string_lt (a b : string) : Prop := String.le a b /\ a <> b.
Definition agent_lt (a b : AgentCapabilitySummary) : Prop :=
  agent_le a b /\ (as_AgentID a, as_RuntimeCompatibilityID a) <> (as_AgentID b, as_RuntimeCompatibilityID b).

#[global] Instance agent_le_trans : Transitive agent_le.
Proof.
  intros a b c. unfold agent_le.
  destruct (decide (as_AgentID a = as_AgentID b)) as [Hab|Hab], (decide (as_AgentID b = as_AgentID c)) as [Hbc|Hbc];
    rewrite ?Hab, ?Hbc; repeat case_bool_decide; intros Hx Hy; try congruence; try done; try (by etrans).
  exfalso. apply Hbc, (anti_symm String.le); congruence.
Qed.
#[global] Instance agent_le_total : Total agent_le.
Proof.
  intros a b. unfold agent_le. repeat case_bool_decide; try congruence; apply (total String.le).
Qed.

Lemma Compact_elem l x : x ∈ Compact l <-> x ∈ l.
Proof.
  induction l as [|a [|b l] IH]; [done..|]. cbn [Compact] in *. case_bool_decide as Hab; rewrite ?elem_of_cons, IH, ?elem_of_cons; naive_solver.
Qed.

Lemma Compact_sorted l : StronglySorted String.le l -> StronglySorted string_lt (Compact l).
Proof.
  induction 1 as [|a l Hl IH Ha]; [constructor|]. destruct l as [|b l]; [by repeat constructor|].
  cbn [Compact] in *. case_bool_decide as Hab; [done|]. constructor; [done|].
  rewrite Forall_forall in *. intros x Hx. apply (Compact_elem (b :: l)) in Hx. split; [auto|]. intros ->.
  apply Hab. apply (anti_symm String.le); [apply Ha; constructor|].
  apply elem_of_cons in Hx as [->|Hx]; [done|]. inversion_clear Hl as [|? ? _ Hb]. rewrite Forall_forall in Hb. auto.
Qed.

Lemma agent_le_anti a b : agent_le a b -> agent_le b a ->
  (as_AgentID a, as_RuntimeCompatibilityID a) = (as_AgentID b, as_RuntimeCompatibilityID b).
Proof.
  unfold agent_le. repeat case_bool_decide; try congruence; intros Hx Hy.
  - f_equal; [done|]. by apply (anti_symm String.le).
  - exfalso. apply H. by apply (anti_symm String.le).
Qed.

Lemma summarize_inj live k k' :
  (as_AgentID (summarize live k), as_RuntimeCompatibilityID (summarize live k))
  = (as_AgentID (summarize live k'), as_RuntimeCompatibilityID (summarize live k')) -> k = k'.
Proof. destruct k, k'. simpl. congruence. Qed.

(** A list sorted with no two keys the same is strictly sorted. *)
Lemma summaries_strict live keys :
  NoDup keys -> StronglySorted agent_lt (merge_sort agent_le (summarize live <$> keys)).
Proof.
  intros Hnd. pose proof (StronglySorted_merge_sort agent_le (summarize live <$> keys)) as Hs.
  assert (Hn : NoDup ((fun a => (as_AgentID a, as_RuntimeCompatibilityID a)) <$> merge_sort agent_le (summarize live <$> keys))).
  { rewrite merge_sort_Permutation, <- list_fmap_compose. apply NoDup_fmap_2_strong; [|done].
    intros k k' _ _. apply summarize_inj. }
  induction Hs as [|a l Hs IH Ha]; [constructor|]. apply NoDup_cons in Hn as [Hna Hn]. constructor; [auto|].
  rewrite Forall_forall in *. intros b Hb. split; [auto|]. intros He. apply Hna. rewrite He. apply list_elem_of_fmap. eauto.
Qed.

Lemma summaries_order live keys keys' :
  keys ≡ₚ keys' -> merge_sort agent_le (summarize live <$> keys) = merge_sort agent_le (summarize live <$> keys').
Proof.
  intros Hp. apply (StronglySorted_unique_strong agent_le); [|apply StronglySorted_merge_sort; apply _..|by rewrite !merge_sort_Permutation, Hp].
  intros a b Ha Hb Hab Hba. rewrite merge_sort_Permutation in Ha, Hb.
  apply list_elem_of_fmap in Ha as (k & -> & _). apply list_elem_of_fmap in Hb as (k' & -> & _).
  by rewrite (summarize_inj live k k' (agent_le_anti _ _ Hab Hba)).
Qed.

(** ** Which templates are launchable *)

(** The directory is asked once, in order, for every pooled template; a template
    is live when it is not pooled, or some Host advertises its target. *)
Inductive probing : list LaunchTemplate -> list (event directoryCall) -> list LaunchTemplate -> Prop :=
| probing_nil : probing [] [] []
| probing_other t ts trace live :
    tk_Placement (lt_Key t) <> HostPlacementPooled -> probing ts trace live -> probing (t :: ts) trace (t :: live)
| probing_live t ts trace live hosts :
    tk_Placement (lt_Key t) = HostPlacementPooled -> hosts <> [] -> probing ts trace live ->
    probing (t :: ts) (Ev _ (Candidates (lt_Key t) agentProbePageLimit) (Ok hosts) :: trace) (t :: live)
| probing_absent t ts trace live :
    tk_Placement (lt_Key t) = HostPlacementPooled -> probing ts trace live ->
    probing (t :: ts) (Ev _ (Candidates (lt_Key t) agentProbePageLimit) (Ok []) :: trace) live.

(** What the aggregate of a list of templates holds. *)
Definition aggregates (live : gmap agentKey (list string)) (ts : list LaunchTemplate) (acc : gmap agentKey (list string)) : Prop :=
  (forall k, is_Some (acc !! k) <-> is_Some (live !! k) \/ exists t, t ∈ ts /\ keyOf t = k)
  /\ (forall k c, c ∈ default [] (acc !! k) <-> c ∈ default [] (live !! k) \/ exists t, t ∈ ts /\ keyOf t = k /\ c ∈ lt_Capabilities t).

Lemma aggregates_nil live : aggregates live [] live.
Proof. split; intros; set_solver. Qed.

Lemma exists_cons {A} (P : A -> Prop) x l : (exists y, y ∈ x :: l /\ P y) <-> P x \/ exists y, y ∈ l /\ P y.
Proof.
  split.
  - intros (y & [->|Hy]%elem_of_cons & HP); eauto.
  - intros [HP|(y & Hy & HP)]; [exists x|exists y]; (split; [|done]); rewrite elem_of_cons; auto.
Qed.

Lemma aggregates_add live t ts acc : aggregates (addTemplate t live) ts acc -> aggregates live (t :: ts) acc.
Proof.
  unfold aggregates, addTemplate. intros [Hk Hc]. split.
  - intros k. rewrite Hk, exists_cons. destruct (decide (keyOf t = k)) as [<-|Hne].
    + rewrite lookup_insert_eq. split; [tauto|by left; eexists].
    + rewrite lookup_insert_ne by done. tauto.
  - intros k c. rewrite Hc, exists_cons. destruct (decide (keyOf t = k)) as [<-|Hne].
    + rewrite lookup_insert_eq. simpl. rewrite elem_of_app. tauto.
    + rewrite lookup_insert_ne by done. tauto.
Qed.

Lemma liveTemplates_spec department : forall live,
  wp (liveTemplates department live) (fun res trace =>
    match res with
    | Ok acc => exists ts, probing department trace ts /\ aggregates live ts acc
    | Fail err => exists pre key, trace = (pre ++ [Ev _ (Candidates key agentProbePageLimit) (Fail err)])%list
    end).
Proof.
  induction department as [|t department IH]; intros live; [exists []; split; [constructor|apply aggregates_nil]|].
  simpl. case_bool_decide as Hp.
  - apply wp_bind. intros [hosts|err]; simpl; [|by exists [], (lt_Key t)].
    destruct hosts as [|h hosts]; simpl; (eapply wp_mono; [|apply IH]); intros [acc|err] trace Hr; simpl in *.
    + destruct Hr as (ts & Hts & Ha). exists ts. split; [by constructor|done].
    + destruct Hr as (pre & key & ->). by eexists (_ :: pre), key.
    + destruct Hr as (ts & Hts & Ha). exists (t :: ts). split; [by constructor|by apply aggregates_add].
    + destruct Hr as (pre & key & ->). by eexists (_ :: pre), key.
  - eapply wp_mono; [|apply IH]. intros [acc|err] trace Hr; [|done].
    destruct Hr as (ts & Hts & Ha). exists (t :: ts). split; [by constructor|by apply aggregates_add].
Qed.

(** The summary of a list of templates: each agent and runtime once, in order;
    under it each capability of those templates once, in order. *)
Definition summary_of (ts : list LaunchTemplate) (agents : list AgentCapabilitySummary) : Prop :=
  StronglySorted agent_lt agents
  /\ Forall (fun a => StronglySorted string_lt (as_Capabilities a)) agents
  /\ (forall k, (exists a, a ∈ agents /\ (as_AgentID a, as_RuntimeCompatibilityID a) = k) <-> (exists t, t ∈ ts /\ keyOf t = k))
  /\ (forall a c, a ∈ agents ->
        c ∈ as_Capabilities a <-> exists t, t ∈ ts /\ keyOf t = (as_AgentID a, as_RuntimeCompatibilityID a) /\ c ∈ lt_Capabilities t).

Lemma departmentSummary_spec range ts live :
  (forall l, range l ≡ₚ l) -> aggregates ∅ ts live -> summary_of ts (departmentSummary range live).
Proof.
  intros Hr [Hk Hc]. unfold departmentSummary.
  assert (Hin : forall a, a ∈ merge_sort agent_le (summarize live <$> range (map_to_list live).*1) <->
    exists k, is_Some (live !! k) /\ a = summarize live k).
  { intros a. rewrite merge_sort_Permutation, Hr, list_elem_of_fmap. setoid_rewrite list_elem_of_fmap. split.
    - intros (k & -> & [k' caps] & -> & Hl%elem_of_map_to_list). exists k'. by rewrite Hl.
    - intros (k & [caps Hl] & ->). exists k. split; [done|]. exists (k, caps). split; [done|]. by apply elem_of_map_to_list. }
  split_and!.
  - apply summaries_strict. rewrite Hr. apply NoDup_fst_map_to_list.
  - apply Forall_forall. intros a (k & _ & ->)%Hin. simpl. apply Compact_sorted, StronglySorted_merge_sort; apply _.
  - intros k. setoid_rewrite Hin. specialize (Hk k). rewrite lookup_empty in Hk. split.
    + intros (a & (k' & Hl & ->) & <-). simpl. destruct k' as [x y]. simpl in *. apply Hk in Hl as [[? ?]|Hl]; [done|exact Hl].
    + intros Ht. exists (summarize live k). destruct k as [x y]. split; [|done]. exists (x, y). split; [|done]. apply Hk. by right.
  - intros a c (k & _ & ->)%Hin. specialize (Hc k c). rewrite lookup_empty in Hc. simpl.
    rewrite Compact_elem, merge_sort_Permutation, Hc. destruct k as [x y]. simpl. set_solver.
Qed.

(** The agents answered are exactly the launchable ones. Whatever the
    directory answers, it is asked once for each pooled template, in the
    configured order, up to the first failure, which is the answer; otherwise
    the summary lists every agent and runtime of the live templates once and no
    other, in ascending order, each with the capabilities of its live templates
    once, in ascending order. The order in which the map is ranged over makes no
    difference to it. *)
Theorem agents_summary_exact (range : list agentKey -> list agentKey) (department : list LaunchTemplate) :
  (forall l, range l ≡ₚ l) ->
  wp (launchableAgents range department) (fun res trace =>
    match res with
    | Ok agents => exists live, probing department trace live /\ summary_of live agents
    | Fail err => exists pre key, trace = (pre ++ [Ev _ (Candidates key agentProbePageLimit) (Fail err)])%list
    end)
  /\ (forall W (h : handler directoryCall W) w, run h (launchableAgents range department) w = run h (launchableAgents id department) w).
Proof.
  intros Hr. split.
  - unfold launchableAgents. eapply wp_seq; [apply liveTemplates_spec|]. intros [live|err] trace Hl; simpl; rewrite app_nil_r; [|done].
    destruct Hl as (ts & Hp & Ha). exists ts. split; [done|]. by apply departmentSummary_spec.
  - intros W h w. unfold launchableAgents. rewrite !run_bind. destruct (run h (liveTemplates department ∅) w) as [[[live|err] t] w']; [|done].
    simpl. unfold departmentSummary. by rewrite (summaries_order live _ _ (Hr _)).
Qed.

(** ** Entity tags *)
Lemma reverse_text_app s : forall t acc, reverse_text (s +:+ t) acc = reverse_text t (reverse_text s acc).
Proof. induction s as [|c s IH]; intros t acc; [done|]. exact (IH t (String c acc)). Qed.

Lemma reverse_text_acc s : forall acc, reverse_text s acc = reverse_text s "" +:+ acc.
Proof.
  induction s as [|c s IH]; intros acc; [done|]. simpl. rewrite (IH (String c acc)), (IH (String c "")).
  by rewrite string_app_assoc.
Qed.

Lemma reverse_text_involutive s : reverse_text (reverse_text s "") "" = s.
Proof.
  induction s as [|c s IH]; [done|]. simpl. rewrite (reverse_text_acc s (String c "")), reverse_text_app. by rewrite IH.
Qed.

(** A text that neither starts nor ends with a space is trimmed to itself. *)
Lemma TrimSpace_id s :
  strip_any spaces s = None -> strip_any ((fun p => reverse_text p "") <$> spaces) (reverse_text s "") = None -> TrimSpace s = s.
Proof.
  intros Hl Hr. unfold TrimSpace.
  assert (Hid : forall prefixes t n, strip_any prefixes t = None -> strip_all n prefixes t = t)
    by (intros prefixes t [|n] Ht; simpl; [done|by rewrite Ht]).
  rewrite (Hid _ _ _ Hl), (Hid _ _ _ Hr). apply reverse_text_involutive.
Qed.

Section TagFacts.
Context `{Sha256}.

Lemma tag_trimmed body : TrimSpace (entityTag body) = entityTag body /\ TrimSpace ("W/" +:+ entityTag body) = "W/" +:+ entityTag body.
Proof.
  split; apply TrimSpace_id; [by vm_compute| |by vm_compute|]; unfold entityTag; rewrite !reverse_text_app; by vm_compute.
Qed.

Lemma tag_plain body : has_byte "," (entityTag body) = false.
Proof.
  unfold entityTag. rewrite !has_byte_app, base64_encode_no; [done|done|apply Sum256_bytes].
Qed.

Lemma tag_inj body body' : entityTag body = entityTag body' <-> Sum256 body = Sum256 body'.
Proof.
  unfold entityTag. split; [|by intros ->]. intros He. injection He as He.
  apply cut_inj in He as [He _]; [|apply base64_encode_no; [done|apply Sum256_bytes]..].
  pose proof (base64_roundtrip (Sum256 body) (Sum256_bytes body)) as Hd. rewrite He, base64_roundtrip in Hd by apply Sum256_bytes.
  congruence.
Qed.

(** The tag, as it was given or marked weak. *)
Definition presentedTag (weak : bool) (body : bytes) : string := (if weak then "W/" else "") +:+ entityTag body.

Lemma matches_presented weak old new : matchesEntityTag [presentedTag weak old] (entityTag new) = bool_decide (Sum256 old = Sum256 new).
Proof.
  unfold matchesEntityTag, presentedTag. simpl existsb. rewrite split_none by (rewrite has_byte_app, tag_plain; by destruct weak).
  destruct (tag_trimmed old) as [Ht Hw]. simpl existsb. rewrite !orb_false_r.
  assert (He : TrimSpace ((if weak then "W/" else "") +:+ entityTag old) = (if weak then "W/" else "") +:+ entityTag old) by (by destruct weak).
  rewrite He. rewrite (bool_decide_false (_ = "*")) by (destruct weak; discriminate). simpl.
  assert (Hp : trim_prefix "W/" ((if weak then "W/" else "") +:+ entityTag old) = entityTag old) by (by destruct weak).
  assert (Hn : trim_prefix "W/" (entityTag new) = entityTag new) by done.
  rewrite Hp, Hn. apply bool_decide_ext, tag_inj.
Qed.

Lemma matchesEntityTag_spec fields body :
  matchesEntityTag fields (entityTag body) = true <->
  exists field part, field ∈ fields /\ part ∈ split "," field /\ (TrimSpace part = "*" \/ trim_prefix "W/" (TrimSpace part) = entityTag body).
Proof.
  unfold matchesEntityTag. rewrite existsb_exists. setoid_rewrite existsb_exists. setoid_rewrite orb_true_iff.
  setoid_rewrite bool_decide_eq_true. setoid_rewrite <- list_elem_of_In. split.
  - intros (field & Hf & part & Hp & Hm). by exists field, part.
  - intros (field & part & Hf & Hp & Hm). exists field. split; [done|]. by exists part.
Qed.
End TagFacts.

(** A conditional read is answered as the tag rules. A body is answered as
    not modified exactly when one of the entries of the caller's lists is the
    wildcard or the body's own tag, weak or not. So a caller that presents the
    tag it was given for an earlier body gets nothing but that tag back if the
    SHA-256 of the two bodies is the same, and otherwise the whole new body
    under its own, different tag. *)
Theorem agents_revalidate `{Sha256} :
  (forall fields body, resp_status (conditional fields body) = 304 <->
     exists field part, field ∈ fields /\ part ∈ split "," field
       /\ (TrimSpace part = "*" \/ trim_prefix "W/" (TrimSpace part) = entityTag body))
  /\ (forall weak old new,
        conditional [presentedTag weak old] new =
          if bool_decide (Sum256 old = Sum256 new) then MkResponse 304 {["Etag" := entityTag old]} ""
          else writeJSONBytes {["Etag" := entityTag new]} 200 new)
  /\ (forall old new, entityTag old = entityTag new <-> Sum256 old = Sum256 new).
Proof.
  split_and!; [| |apply tag_inj].
  - intros fields body. rewrite <- matchesEntityTag_spec. unfold conditional. by destruct (matchesEntityTag _ _).
  - intros weak old new. unfold conditional. rewrite matches_presented. case_bool_decide as Hd; [|done].
    by rewrite (proj2 (tag_inj old new) Hd).
Qed.

Definition demo_department : list LaunchTemplate :=
  [MkTemplate (MkTargetKey "b" "rt" HostPlacementPooled) ["z"; "a"; "z"]; MkTemplate (MkTargetKey "a" "rt" HostPlacementDedicated) [];
   MkTemplate (MkTargetKey "c" "rt" HostPlacementPooled) ["x"]; MkTemplate (MkTargetKey "b" "rt" HostPlacementDedicated) ["m"]].

Definition demo_directory : handler directoryCall unit := fun R c =>
  match c in directoryCall R return unit -> R * unit with
  | Candidates key _ => fun w => (Ok (if bool_decide (tk_AgentID key = "b") then ["host"] else []), w)
  end.

Lemma agents_summary_exact_witness :
  (run demo_directory (launchableAgents reverse demo_department) tt).1.1 =
    Ok [MkAgentSummary "a" "rt" []; MkAgentSummary "b" "rt" ["a"; "m"; "z"]]
  /\ run demo_directory (launchableAgents reverse demo_department) tt = run demo_directory (launchableAgents id demo_department) tt.
Proof.
  split; [by vm_compute|]. apply (agents_summary_exact reverse demo_department). intros l. apply reverse_Permutation.
Defined.
