(* ===== verification/Routes.v ===== *)
(** * Paths and the route table (src/internal/httpapi/routes.go)

    Which requests are the API's, the table of routes with the rules of each
    method, and what [http.ServeMux] does with it. A request carries both forms
    of its path, [URL.Path] and [URL.EscapedPath()]: the router tests the first
    and the multiplexer matches the second. *)

From S2P Require Import Prelude Wire Framing Program Pending Refusal HttpErrors Text Encoding.
Local Open Scope string_scope.
Local Open Scope Z_scope.

Definition apiVersionSegment : string := "v1".

(** ** Clean paths *)
Definition slash : ascii := "/".

(** One segment of a rooted path, on the segments kept so far, last first. *)
Definition cleanSegment (kept : list string) (segment : string) : list string :=
  if bool_decide (segment = "") || bool_decide (segment = ".") then kept
  else if bool_decide (segment = "..") then tail kept
  else segment :: kept.

Definition cleanSegments (segments : list string) : list string := reverse (foldl cleanSegment [] segments).

Fixpoint rooted (segments : list string) : string :=
  match segments with [] => "" | s :: segments => String slash (s +:+ rooted segments) end.

(** [path.Clean] of a rooted path. *)
Definition Clean (p : string) : string :=
  match cleanSegments (split slash p) with [] => "/" | segments => rooted segments end.

Definition withRoot (p : string) : string :=
  match p with
  | "" => "/"
  | String c _ => if bool_decide (c = slash) then p else String slash p
  end.

Definition cleanRequestPath (p : string) : string := if bool_decide (p = "") then "/" else Clean (withRoot p).

(** The multiplexer's own cleaning, which keeps a trailing slash. *)
Definition cleanPath (p : string) : string :=
  if bool_decide (p = "") then "/"
  else
    let np := Clean (withRoot p) in
    if ends_with slash p && negb (bool_decide (np = "/")) then np +:+ "/" else np.

Definition isAPIPath (p : string) : bool :=
  let '(first, _, _) := cut slash (default p (after_prefix "/" p)) in bool_decide (first = apiVersionSegment).

(** ** Escaped paths *)
Definition hex_value (c : ascii) : option Z :=
  if is_digit c then Some (byte_of c - 48)
  else if in_range 97 102 c then Some (byte_of c - 87)
  else if in_range 65 70 c then Some (byte_of c - 55)
  else None.

(** [url.PathUnescape]. *)
Fixpoint PathUnescape (s : string) : option string :=
  match s with
  | "" => Some ""
  | String c rest =>
      if bool_decide (c = "%"%char) then
        match rest with
        | String a (String b rest) =>
            match hex_value a, hex_value b with
            | Some x, Some y => String (ascii_of_N (Z.to_N (16 * x + y))) <$> PathUnescape rest
            | _, _ => None
            end
        | _ => None
        end
      else String c <$> PathUnescape rest
  end.

(** The multiplexer's segments: unescaped where that succeeds. *)
Definition pathUnescape (s : string) : string := default s (PathUnescape s).
Definition pathSegments (escaped : string) : list string := pathUnescape <$> split slash (default escaped (after_prefix "/" escaped)).

(** ** Rules *)
Inductive bodyRule := bodyNone | bodyJSON.
Inductive authRule := authAuthenticated | authSessionList | authSessionRead | authObjectRead | authControl.

#[global] Instance bodyRule_eq_dec : EqDecision bodyRule.
Proof. solve_decision. Defined.
#[global] Instance authRule_eq_dec : EqDecision authRule.
Proof. solve_decision. Defined.

(** The handlers a rule names, [rule.handle]. *)
Inductive handlerName :=
| serveBootstrap_ | serveAgents_ (features : bool) | serveCommandStatus_ | serveSessionList_ | serveSessionStatus_
| serveSessionJournal_ | serveSessionGates_ | serveObject_ (metadata : bool) | serveControl_ (kind : CommandKind)
| serveRealtime_ | TokenHandler_.

#[global] Instance handlerName_eq_dec : EqDecision handlerName.
Proof. solve_decision. Defined.

Record methodRule := MkRule {
  rule_method : string; rule_auth : authRule; rule_command : CommandKind; rule_body : bodyRule; rule_handle : option handlerName }.

Record route := MkRoute { pattern : string; rules : list methodRule; session : bool; streams : bool }.

#[global] Instance methodRule_eq_dec : EqDecision methodRule.
Proof. solve_decision. Defined.
#[global] Instance route_eq_dec : EqDecision route.
Proof. solve_decision. Defined.

Definition MethodGet : string := "GET".
Definition MethodHead : string := "HEAD".
Definition MethodPost : string := "POST".
Definition MethodConnect : string := "CONNECT".

Definition methods (r : route) : list string := rule_method <$> rules r.

Definition ruleFor (r : route) (method : string) : option methodRule :=
  List.find (fun rule => bool_decide (rule_method rule = method)) (rules r).

Definition with_method (method : string) (rule : methodRule) : methodRule :=
  MkRule method (rule_auth rule) (rule_command rule) (rule_body rule) (rule_handle rule).

Definition readRules (rule : methodRule) : list methodRule := [with_method MethodGet rule; with_method MethodHead rule].

(** ** The table *)
Definition controlRule (kind : CommandKind) : list methodRule :=
  [MkRule MethodPost authControl kind bodyJSON (Some (serveControl_ kind))].

Definition servedRule (auth : authRule) (handle : handlerName) : list methodRule :=
  readRules (MkRule "" auth (KindOther "") bodyNone (Some handle)).

Definition routeTable : list route :=
  [MkRoute "/v1/bootstrap" (servedRule authAuthenticated serveBootstrap_) false false;
   MkRoute "/v1/agents" (servedRule authAuthenticated (serveAgents_ false)) false false;
   MkRoute "/v1/capabilities" (servedRule authAuthenticated (serveAgents_ true)) false false;
   MkRoute "/v1/sessions/{sid}/commands/{cid}" (servedRule authSessionRead serveCommandStatus_) true false;
   MkRoute "/v1/sessions" (servedRule authSessionList serveSessionList_ ++ controlRule KindCreateSession) false false;
   MkRoute "/v1/sessions/{sid}/status" (servedRule authSessionRead serveSessionStatus_) true false;
   MkRoute "/v1/sessions/{sid}/journal" (servedRule authSessionRead serveSessionJournal_) true false;
   MkRoute "/v1/sessions/{sid}/gates" (servedRule authSessionRead serveSessionGates_) true false;
   MkRoute "/v1/sessions/{sid}/objects/{oid}" (servedRule authObjectRead (serveObject_ false)) true false;
   MkRoute "/v1/sessions/{sid}/objects/{oid}/metadata" (servedRule authObjectRead (serveObject_ true)) true false;
   MkRoute "/v1/sessions/{sid}/input" (controlRule KindInput) true false;
   MkRoute "/v1/sessions/{sid}/interrupt" (controlRule KindInterrupt) true false;
   MkRoute "/v1/sessions/{sid}/restore" (controlRule KindRestore) true false;
   MkRoute "/v1/sessions/{sid}/gates/{gid}" (controlRule KindGateResponse) true false;
   MkRoute "/v1/realtime" (servedRule authAuthenticated serveRealtime_) false true;
   MkRoute "/v1/csrf-token" (servedRule authAuthenticated TokenHandler_) false false].

(** ** The multiplexer *)
Inductive segment := Lit (text : string) | Wild (name : string).

#[global] Instance segment_eq_dec : EqDecision segment.
Proof. solve_decision. Defined.

Definition parseSegment (s : string) : segment :=
  match s with
  | String "{" rest => if ends_with "}" rest then Wild (without_last rest) else Lit s
  | _ => Lit s
  end.

Definition patternSegments (p : string) : list segment := parseSegment <$> split slash (default p (after_prefix "/" p)).

(** The values of a pattern's wildcards on a path; a wildcard takes one segment
    that is not empty. *)
Fixpoint matchSegments (p : list segment) (path : list string) : option (list (string * string)) :=
  match p, path with
  | [], [] => Some []
  | Lit text :: p, s :: path => if bool_decide (s = text) then matchSegments p path else None
  | Wild name :: p, s :: path => if bool_decide (s = "") then None else ((name, s) ::.) <$> matchSegments p path
  | _, _ => None
  end.

Definition matchRoute (r : route) (path : list string) : option (list (string * string)) := matchSegments (patternSegments (pattern r)) path.

Fixpoint findRoute (table : list route) (path : list string) : option (route * list (string * string)) :=
  match table with
  | [] => None
  | r :: table => match matchRoute r path with Some values => Some (r, values) | None => findRoute table path end
  end.

(** [r.PathValue]. *)
Definition PathValue (values : list (string * string)) (name : string) : string :=
  default "" (snd <$> List.find (fun v => bool_decide (v.1 = name)) values).

(** What the multiplexer does with a request: a redirect to the clean path, a
    route with its values, or the catch-all. *)
Inductive muxed := MuxRedirect (to : string) | MuxRoute (r : route) (values : list (string * string)) | MuxNone.

Definition muxHandler (method escaped : string) : muxed :=
  if negb (bool_decide (method = MethodConnect)) && negb (bool_decide (cleanPath escaped = escaped)) then MuxRedirect (cleanPath escaped)
  else match findRoute routeTable (pathSegments escaped) with
  | Some (r, values) => MuxRoute r values
  | None => MuxNone
  end.

(** ** One route for a path *)

(** Two patterns no path matches both of. *)
Fixpoint apart (p q : list segment) : bool :=
  match p, q with
  | Lit a :: p, Lit b :: q => negb (bool_decide (a = b)) || apart p q
  | _ :: p, _ :: q => apart p q
  | [], [] => false
  | _, _ => true
  end.

Lemma apart_spec p : forall q path, apart p q = true -> matchSegments p path <> None -> matchSegments q path = None.
Proof.
  induction p as [|s p IH]; intros [|t q] path Ha Hm; try done; destruct path as [|x path]; try done; try (by destruct t); try (by destruct s).
  assert (Hp : matchSegments p path <> None) by (destruct s; simpl in Hm; case_bool_decide; try done; by destruct (matchSegments p path)).
  assert (Ht : apart p q = true -> matchSegments (t :: q) (x :: path) = None).
  { intros Hpq. destruct t; simpl; case_bool_decide; try done; by rewrite (IH _ _ Hpq Hp). }
  destruct s as [a|a], t as [b|b]; simpl in Ha; try by apply Ht.
  apply orb_true_iff in Ha as [Ha|Ha]; [|by apply Ht]. reflect_guards. simpl in *. repeat case_bool_decide; congruence.
Qed.

Lemma table_apart : forallb (fun r => forallb (fun r' => bool_decide (r = r') || apart (patternSegments (pattern r)) (patternSegments (pattern r'))) routeTable) routeTable = true.
Proof. by vm_compute. Qed.

Lemma routes_apart r r' path : r ∈ routeTable -> r' ∈ routeTable -> matchRoute r path <> None -> matchRoute r' path <> None -> r = r'.
Proof.
  intros Hr Hr' Hm Hm'. pose proof table_apart as Ht. rewrite forallb_forall in Ht. specialize (Ht r (proj1 (list_elem_of_In _ _) Hr)).
  rewrite forallb_forall in Ht. specialize (Ht r' (proj1 (list_elem_of_In _ _) Hr')).
  apply orb_true_iff in Ht as [Ht|Ht]; [by reflect_guards|]. destruct Hm'. by eapply apart_spec.
Qed.

Lemma findRoute_spec table path :
  match findRoute table path with
  | Some (r, values) => r ∈ table /\ matchRoute r path = Some values
  | None => forall r, r ∈ table -> matchRoute r path = None
  end.
Proof.
  induction table as [|r table IH]; [by intros ? ?%elem_of_nil|]. simpl. destruct (matchRoute r path) as [values|] eqn:Hm.
  - split; [by left|done].
  - destruct (findRoute table path) as [[r' values]|]; [destruct IH; split; [by right|done]|].
    intros r' [->|Hr]%elem_of_cons; auto.
Qed.

(** ** Clean paths *)
Definition plain (s : string) : bool :=
  negb (bool_decide (s = "") || bool_decide (s = ".") || bool_decide (s = "..")).

Lemma cleanSegment_plain kept s : plain s = true -> cleanSegment kept s = s :: kept.
Proof. unfold plain, cleanSegment. by destruct (bool_decide (s = "")), (bool_decide (s = ".")), (bool_decide (s = "..")). Qed.

Lemma cleanSegment_length kept s : (length (cleanSegment kept s) <= length kept + (if plain s then 1 else 0))%nat.
Proof.
  unfold plain, cleanSegment. destruct (bool_decide (s = "")), (bool_decide (s = ".")), (bool_decide (s = "..")); simpl;
    destruct kept; simpl; lia.
Qed.

Lemma foldl_clean_length l : forall kept,
  (length (foldl cleanSegment kept l) <= length kept + length (filter (fun s => Is_true (plain s)) l))%nat.
Proof.
  induction l as [|s l IH]; intros kept; simpl; [lia|]. specialize (IH (cleanSegment kept s)). pose proof (cleanSegment_length kept s) as Hc.
  destruct (plain s) eqn:Hs.
  - rewrite filter_cons_True by (rewrite Hs; exact I). simpl. lia.
  - rewrite filter_cons_False by (rewrite Hs; exact (fun x => x)). simpl in *. lia.
Qed.

Lemma cleanSegments_plain l : forallb plain l = true -> cleanSegments l = l.
Proof.
  intros Hl. unfold cleanSegments. assert (He : forall kept, foldl cleanSegment kept l = (reverse l ++ kept)%list).
  { induction l as [|s l IH]; intros kept; [done|]. simpl in *. apply andb_true_iff in Hl as [Hs Hl].
    rewrite cleanSegment_plain, IH, reverse_cons by done. by rewrite <- app_assoc. }
  by rewrite He, app_nil_r, reverse_involutive.
Qed.

Lemma cleanSegments_fixed l : cleanSegments l = l -> forallb plain l = true.
Proof.
  intros Hl. pose proof (foldl_clean_length l []) as Hn. unfold cleanSegments in Hl. rewrite <- (length_reverse (foldl _ _ _)), Hl in Hn.
  simpl in Hn. clear Hl. induction l as [|s l IH]; [done|]. simpl in *.
  pose proof (length_filter (fun s => Is_true (plain s)) l) as Hf. destruct (plain s) eqn:Hs; simpl.
  - rewrite filter_cons_True in Hn by (rewrite Hs; exact I). simpl in Hn. apply IH. lia.
  - rewrite filter_cons_False in Hn by (rewrite Hs; exact (fun x => x)). lia.
Qed.

Lemma split_cons c s : exists part parts, split slash s = part :: parts
  /\ split slash (String c s) = if bool_decide (c = slash) then "" :: part :: parts else String c part :: parts.
Proof.
  pose proof (split_nonempty slash s) as Hn. simpl. destruct (split slash s) as [|part parts]; [done|]. by exists part, parts.
Qed.

Lemma rooted_split s : rooted (split slash s) = String slash s.
Proof.
  induction s as [|c s IH]; [done|]. destruct (split_cons c s) as (part & parts & Hs & ->). rewrite Hs in IH. simpl in IH.
  injection IH as IH. case_bool_decide as Hc; [subst c|]; rewrite <- IH; done.
Qed.

Lemma split_plain_parts s : Forall (fun part => has_byte slash part = false) (split slash s).
Proof.
  induction s as [|c s IH]; [by repeat constructor|]. destruct (split_cons c s) as (part & parts & Hs & ->). rewrite Hs in IH.
  apply Forall_cons in IH as [Hp Hps]. case_bool_decide as Hc; repeat constructor; try done. simpl.
  rewrite bool_decide_false by congruence. done.
Qed.

Lemma split_rooted us u : split slash (u +:+ rooted us) = (split slash u ++ concat (split slash <$> us))%list.
Proof.
  revert u. induction us as [|v us IH]; intros u.
  - simpl. rewrite app_nil_r. by rewrite string_app_nil_r.
  - rewrite fmap_cons. simpl. rewrite <- IH. induction u as [|c u IHu].
    + destruct (split_cons slash (v +:+ rooted us)) as (part & parts & Hs & He). simpl in *. by rewrite Hs.
    + destruct (split_cons c (u +:+ String slash (v +:+ rooted us))) as (part & parts & Hs & He).
      destruct (split_cons c u) as (part' & parts' & Hs' & He'). change ((String c u) +:+ String slash (v +:+ rooted us))
        with (String c (u +:+ String slash (v +:+ rooted us))). rewrite He, He'. rewrite IHu, Hs' in Hs. simpl in Hs. simplify_eq.
      by case_bool_decide.
Qed.

Lemma rooted_inj l l' : Forall (fun s => has_byte slash s = false) l -> Forall (fun s => has_byte slash s = false) l' ->
  rooted l = rooted l' -> l = l'.
Proof.
  intros Hl Hl' He. assert (Hc : forall l, Forall (fun s => has_byte slash s = false) l -> concat (split slash <$> l) = l).
  { induction 1 as [|s m Hs _ IH]; [done|]. rewrite fmap_cons. simpl. by rewrite split_none, IH. }
  pose proof (split_rooted l "") as H1. rewrite He, split_rooted, !Hc in H1 by done. by simplify_eq.
Qed.

Lemma foldl_clean_elem l : forall kept s, s ∈ foldl cleanSegment kept l -> s ∈ kept \/ s ∈ l.
Proof.
  induction l as [|x l IH]; intros kept s Hs; [by left|]. simpl in Hs. apply IH in Hs as [Hs|Hs]; [|right; by right].
  unfold cleanSegment in Hs. repeat case_match; [by left|left; destruct kept; [done|by right]|].
  apply elem_of_cons in Hs as [->|Hs]; [right; by left|by left].
Qed.

Lemma Clean_fixed rest : Clean (String slash rest) = String slash rest <-> rest = "" \/ forallb plain (split slash rest) = true.
Proof.
  unfold Clean. destruct (split_cons slash rest) as (part & parts & Hs & ->). rewrite bool_decide_true by done. rewrite <- Hs.
  change (cleanSegments ("" :: split slash rest)) with (cleanSegments (split slash rest)). split.
  - destruct (cleanSegments (split slash rest)) as [|x l] eqn:Hc; [intros He; left; by injection He|]. rewrite <- rooted_split.
    intros He. right. apply cleanSegments_fixed. rewrite Hc. apply rooted_inj; [|apply split_plain_parts|done].
    rewrite <- Hc. apply Forall_forall. intros s Hin. pose proof (split_plain_parts rest) as Hp. rewrite Forall_forall in Hp. apply Hp.
    unfold cleanSegments in Hin. apply elem_of_reverse, foldl_clean_elem in Hin as [?%elem_of_nil|?]; done.
  - intros [->|Hp]; [done|]. rewrite cleanSegments_plain by done. rewrite Hs. rewrite <- Hs. apply rooted_split.
Qed.

(** ** Escaped paths *)
Lemma hex_slash : hex_value slash = None.
Proof. by vm_compute. Qed.

Lemma PathUnescape_app s : forall t r, (t = "" \/ exists t', t = String slash t') ->
  PathUnescape (s +:+ t) = Some r -> exists u v, PathUnescape s = Some u /\ PathUnescape t = Some v /\ r = u +:+ v.
Proof.
  induction (well_founded_ltof string String.length s) as [s _ IH]. unfold ltof in IH. intros t r Ht Hr.
  destruct s as [|c s]; [by exists "", r|]. change (PathUnescape (String c (s +:+ t)) = Some r) in Hr.
  cbn [PathUnescape] in Hr |- *. case_bool_decide as Hc.
  - destruct s as [|a [|b s]].
    + exfalso. destruct Ht as [->|[t' ->]]; [done|]. change ("" +:+ String slash t') with (String slash t') in Hr.
      destruct t'; [done|]. cbv beta iota in Hr. by rewrite hex_slash in Hr.
    + exfalso. destruct Ht as [->|[t' ->]]; [by rewrite string_app_nil_r in Hr|]. change (String a "" +:+ String slash t') with (String a (String slash t')) in Hr.
      cbv beta iota in Hr. rewrite hex_slash in Hr. by destruct (hex_value a).
    + change (String a (String b s) +:+ t) with (String a (String b (s +:+ t))) in Hr. cbv beta iota in Hr.
      destruct (hex_value a) as [x|]; [|done]. destruct (hex_value b) as [y|]; [|done].
      apply fmap_Some in Hr as (r' & Hr & ->). destruct (IH s ltac:(simpl; lia) t r' Ht Hr) as (u & v & -> & -> & ->).
      eexists _, v. split; [done|]. split; done.
  - apply fmap_Some in Hr as (r' & Hr & ->). destruct (IH s ltac:(simpl; lia) t r' Ht Hr) as (u & v & -> & -> & ->).
    eexists _, v. split; [done|]. split; done.
Qed.

Lemma PathUnescape_rooted l : forall r, PathUnescape (rooted l) = Some r ->
  exists us, Forall2 (fun s u => PathUnescape s = Some u) l us /\ r = rooted us.
Proof.
  induction l as [|s l IH]; intros r Hr; [exists []; by simplify_eq/=|].
  cbn [rooted PathUnescape] in Hr. rewrite bool_decide_false in Hr by done. apply fmap_Some in Hr as (r' & Hr & ->).
  apply PathUnescape_app in Hr as (u & v & Hu & Hv & ->); [|destruct l; [by left|right; by eexists]].
  destruct (IH v Hv) as (us & Hus & ->). exists (u :: us). split; [by constructor|done].
Qed.

Lemma plain_unescape s : plain s = false -> PathUnescape s = Some s /\ has_byte slash s = false.
Proof.
  unfold plain. intros Hp. apply negb_false_iff in Hp. rewrite !orb_true_iff in Hp. destruct Hp as [[Hp|Hp]|Hp]; reflect_guards; by subst.
Qed.

(** A path whose decoded form is clean is clean as it was escaped. *)
Lemma escaped_plain e rest : PathUnescape e = Some rest -> forallb plain (split slash rest) = true -> forallb plain (split slash e) = true.
Proof.
  intros Hu Hr. assert (Hroot : PathUnescape (rooted (split slash e)) = Some (String slash rest)).
  { rewrite rooted_split. cbn [PathUnescape]. by rewrite bool_decide_false, Hu. }
  apply PathUnescape_rooted in Hroot as (us & Hus & Heq).
  assert (Hsplit : split slash rest = concat (split slash <$> us)).
  { pose proof (split_rooted us "") as Hs. change (split slash (rooted us) = ([""] ++ concat (split slash <$> us))%list) in Hs. rewrite <- Heq in Hs.
    destruct (split_cons slash rest) as (part & parts & Hp & Hq). rewrite Hq, bool_decide_true in Hs by done. rewrite Hp. by injection Hs. }
  rewrite Hsplit in Hr. clear Heq Hsplit Hu. induction Hus as [|s u l us Hs _ IH]; [done|].
  rewrite fmap_cons in Hr. simpl in Hr. rewrite forallb_app in Hr. apply andb_true_iff in Hr as [Hu Hr]. simpl. rewrite IH by done.
  destruct (plain s) eqn:Hp; [done|]. destruct (plain_unescape s Hp) as [He Hn]. rewrite He in Hs. simplify_eq.
  rewrite split_none in Hu by done. simpl in Hu. by rewrite Hp in Hu.
Qed.

Lemma ends_with_split e : ends_with slash e = true -> exists l, l <> [] /\ split slash e = (l ++ [""])%list.
Proof.
  induction e as [|c e IH]; intros He; [done|]. destruct (split_cons c e) as (part & parts & Hs & ->).
  destruct e as [|d e].
  - simpl in He. reflect_guards. subst. rewrite bool_decide_true by done. simpl in Hs. simplify_eq. by exists [""].
  - destruct (IH He) as (l & Hl & Hsplit). rewrite Hs in Hsplit. destruct l as [|x l]; [done|]. injection Hsplit as -> ->.
    case_bool_decide; [by exists ("" :: x :: l)|by exists (String c x :: l)].
Qed.

Lemma cleanPath_plain e : forallb plain (split slash e) = true -> cleanPath (String slash e) = String slash e.
Proof.
  intros Hp. unfold cleanPath, withRoot. rewrite (bool_decide_true (slash = slash)) by done.
  rewrite (proj2 (Clean_fixed e)) by auto. rewrite bool_decide_false by done.
  destruct (ends_with slash (String slash e)) eqn:He; [exfalso|done]. destruct e as [|c e]; [done|].
  change (ends_with slash (String c e) = true) in He. destruct (ends_with_split _ He) as (l & _ & Hs). rewrite Hs, forallb_app in Hp. by apply andb_true_iff in Hp as [_ ?].
Qed.

Lemma cleanRequestPath_rooted p : cleanRequestPath p = p -> exists rest, p = String slash rest.
Proof.
  unfold cleanRequestPath, Clean. case_bool_decide as Hp; [by intros <-; exists ""|]. intros <-.
  destruct (cleanSegments _); [by exists ""|]. by eexists.
Qed.

(** The paths [dispatch] passes on reach the table as they are. *)
Lemma dispatched_never_redirects method e rest :
  PathUnescape e = Some rest -> cleanRequestPath (String slash rest) = String slash rest ->
  forall to, muxHandler method (String slash e) <> MuxRedirect to.
Proof.
  intros Hu Hc to. assert (Hclean : cleanPath (String slash e) = String slash e).
  { unfold cleanRequestPath, withRoot in Hc. rewrite bool_decide_false, bool_decide_true in Hc by done.
    apply Clean_fixed in Hc as [->|Hp]; [|by apply cleanPath_plain; eapply escaped_plain].
    destruct e as [|c e]; [done|]. exfalso. cbn [PathUnescape] in Hu. repeat case_match; simplify_eq;
      by apply fmap_Some in Hu as (? & ? & ?). }
  unfold muxHandler. rewrite Hclean, (bool_decide_true (_ = String slash e)) by done. rewrite andb_false_r. by repeat case_match.
Qed.

(** A path has one route. For a request whose path is clean once decoded,
    which is what the router passes on, the multiplexer never answers a redirect
    of its own; the route it chooses matches the path, with the values of its
    wildcards, and no other route of the table does, so the order of the table
    makes no difference; and when it chooses none, none matches. *)
Theorem one_route_for_a_path (method e rest : string) :
  PathUnescape e = Some rest -> cleanRequestPath (String slash rest) = String slash rest ->
  match muxHandler method (String slash e) with
  | MuxRedirect _ => False
  | MuxRoute r values =>
      r ∈ routeTable /\ matchRoute r (pathSegments (String slash e)) = Some values
      /\ forall r' values', r' ∈ routeTable -> matchRoute r' (pathSegments (String slash e)) = Some values' -> r' = r /\ values' = values
  | MuxNone => forall r, r ∈ routeTable -> matchRoute r (pathSegments (String slash e)) = None
  end.
Proof.
  intros Hu Hc. pose proof (dispatched_never_redirects method e rest Hu Hc) as Hn.
  pose proof (findRoute_spec routeTable (pathSegments (String slash e))) as Hf.
  unfold muxHandler in *. destruct (_ && _); [by eapply Hn|].
  destruct (findRoute _ _) as [[r values]|]; [|done]. destruct Hf as [Hr Hm]. split_and!; [done..|]. intros r' values' Hr' Hm'.
  assert (r' = r) as -> by (apply (routes_apart _ _ (pathSegments (String slash e))); [done|done|by rewrite Hm'|by rewrite Hm]). split; congruence.
Qed.

Lemma one_route_for_a_path_witness :
  muxHandler "GET" "/v1/sessions/a%20b/gates" =
    MuxRoute (MkRoute "/v1/sessions/{sid}/gates" (servedRule authSessionRead serveSessionGates_) true false) [("sid", "a b")]
  /\ forall r' values', r' ∈ routeTable -> matchRoute r' (pathSegments "/v1/sessions/a%20b/gates") = Some values' ->
       r' = MkRoute "/v1/sessions/{sid}/gates" (servedRule authSessionRead serveSessionGates_) true false /\ values' = [("sid", "a b")].
Proof.
  assert (Hm : muxHandler "GET" "/v1/sessions/a%20b/gates" =
    MuxRoute (MkRoute "/v1/sessions/{sid}/gates" (servedRule authSessionRead serveSessionGates_) true false) [("sid", "a b")]) by (by vm_compute).
  pose proof (one_route_for_a_path "GET" "v1/sessions/a%20b/gates" "v1/sessions/a b/gates" ltac:(by vm_compute) ltac:(by vm_compute)) as Hp.
  change (String slash "v1/sessions/a%20b/gates") with "/v1/sessions/a%20b/gates" in Hp. rewrite Hm in Hp.
  split; [done|]. by destruct Hp as (_ & _ & Hu).
Defined.
