(* ===== verification/Router.v ===== *)
(** * The router (src/internal/httpapi/routes.go)

    What happens to a request from its arrival to the handler of its route: the
    request identifier and the headers, the fence, the choice between the user
    interface and the API, authentication, the origin and token guard, the
    route's own authorization, its body and its session. Every step that asks
    something outside is a call, the handlers included (their own behaviour is
    modelled in [Reads], [Controls], [Objects], [Agents] and [Guard]); a call
    answered by [None] panicked. [header] is [w.Header()] so far. Request
    deadlines are not modelled, only the context's error where it is read. *)

From S2P Require Import Prelude Wire Framing Program Pending Identity Refusal Admission HttpErrors Text Encoding Origins Guard Objects Agents Controls Routes.
Local Open Scope prog_scope.
Local Open Scope string_scope.
Local Open Scope Z_scope.

Definition RequestIDHeader : string := "X-Request-Id".
Definition StatusMethodNotAllowed : Z := 405.
Definition StatusRequestEntityTooLarge : Z := 413.
Definition StatusUnsupportedMediaType : Z := 415.
Definition StatusNotImplemented : Z := 501.

(** ** Limits and configuration *)
Record RouteLimits := MkRouteLimits { rl_MaxCommandBytes : Z; rl_MaxRequestBytes : Z; rl_RequestTimeout : Z }.

#[global] Instance RouteLimits_eq_dec : EqDecision RouteLimits.
Proof. solve_decision. Defined.

#[global] Instance ObjectLimits_eq_dec : EqDecision ObjectLimits.
Proof. solve_decision. Defined.

Definition MiB : Z := Z.shiftl 1 20.

Definition DefaultRouteLimits : RouteLimits := MkRouteLimits MiB MiB (30 * Second).

Definition RouteLimits_Validate (l : RouteLimits) : option error :=
  if negb (rl_MaxCommandBytes l =? 0) && ((rl_MaxCommandBytes l <? MiB) || (Z.shiftl 16 20 <? rl_MaxCommandBytes l))
  then Some (wrapf [ErrInvalidRouterConfig])
  else if rl_MaxRequestBytes l <? 1 then Some (wrapf [ErrInvalidRouterConfig])
  else if rl_RequestTimeout l <=? 0 then Some (wrapf [ErrInvalidRouterConfig])
  else None.

(** [RouterConfig], its interfaces by presence. *)
Record RouterConfig := MkRouterConfig {
  rc_StampsPrincipal : bool;
  rc_Credentials : option Authenticator;
  rc_Authorizer : bool;
  rc_Reads : bool;
  rc_Directory : bool;
  rc_Department : list LaunchTemplate;
  rc_Guard : option Guard;
  rc_IDs : bool;
  rc_UI : bool;
  rc_UIRoutes : bool;
  rc_AuthorizeUIRoute : bool;
  rc_Limits : RouteLimits;
  rc_ResolveObjectStore : bool;
  rc_ResolveSessionObjectStore : bool;
  rc_ObjectLimits : ObjectLimits
}.

Record Router := MkRouter {
  rt_stampsPrincipal : bool;
  rt_quiesced : bool;
  rt_credentials : Authenticator;
  rt_department : list LaunchTemplate;
  rt_guard : Guard;
  rt_ui : bool;
  rt_limits : RouteLimits;
  rt_objectLimits : ObjectLimits;
  rt_protectedUI : bool
}.

Section New.
Context (AgentID_Validate : AgentID -> option error).

Definition NewRouter (cfg : RouterConfig) : result Router :=
  let invalid := Fail (wrapf [ErrInvalidRouterConfig]) in
  match rc_Credentials cfg with
  | None => invalid
  | Some credentials =>
      if negb (rc_Authorizer cfg) then invalid
      else if negb (rc_Reads cfg) then invalid
      else if negb (rc_Directory cfg) then invalid
      else match head (omap (LaunchTemplate_Validate AgentID_Validate) (rc_Department cfg)) with
      | Some err => Fail (wrapf [err])
      | None =>
          match rc_Guard cfg with
          | None => invalid
          | Some guard =>
              if negb (rc_IDs cfg) then invalid
              else if negb (Bool.eqb (rc_UIRoutes cfg) (rc_AuthorizeUIRoute cfg)) then invalid
              else
                let limits := if bool_decide (rc_Limits cfg = MkRouteLimits 0 0 0) then DefaultRouteLimits else rc_Limits cfg in
                match RouteLimits_Validate limits with
                | Some err => Fail err
                | None =>
                    if rc_ResolveObjectStore cfg && rc_ResolveSessionObjectStore cfg then invalid
                    else
                      let objects := if bool_decide (rc_ObjectLimits cfg = MkObjectLimits 0 0) then DefaultObjectLimits else rc_ObjectLimits cfg in
                      match ObjectLimits_Validate objects with
                      | Some err => Fail err
                      | None => Ok (MkRouter (rc_StampsPrincipal cfg) false credentials (rc_Department cfg) guard (rc_UI cfg) limits objects (rc_UIRoutes cfg))
                      end
                end
          end
      end
  end.
End New.

Definition Quiesce (rt : Router) : Router :=
  MkRouter (rt_stampsPrincipal rt) true (rt_credentials rt) (rt_department rt) (rt_guard rt) (rt_ui rt) (rt_limits rt)
    (rt_objectLimits rt) (rt_protectedUI rt).

(** ** Requests, calls and what is written *)
Record Request := MkRequest {
  rq_Method : string; rq_Path : string; rq_EscapedPath : string; rq_ContentType : string; rq_http : HTTPRequest;
  rq_Host : string; rq_ForwardedHost : list string; rq_Origin : list string; rq_Upgrade : list string; rq_CSRFToken : string }.

Definition guardRequest (rq : Request) (operation : option OperationContext) : GuardRequest :=
  MkGuardRequest (rq_Host rq) (rq_ForwardedHost rq) (rq_Origin rq) (rq_Upgrade rq) (rq_CSRFToken rq) (rq_Method rq) operation (rq_http rq).

(** What a handler did: it wrote a response, or it panicked, with the headers it
    had set and whether it had written. *)
Inductive handled := Answered (r : Response) | Panics (set : gmap string string) (wrote : bool).

Inductive routerCall : Type -> Type :=
| NewUUID : routerCall (option (result string))
| Authenticating (R : Type) (c : authCall R) : routerCall (option R)
| AuthCtxErr : routerCall (option error)
| GuardClock : routerCall Z
| AskSessionList (p : Principal) : routerCall (option (option error))
| AskSessionRead (p : Principal) (s : SessionID) : routerCall (option (option error))
| AskObjectRead (p : Principal) (s : SessionID) (object : string) : routerCall (option (option error))
| AskControl (p : Principal) (s : SessionID) (kind : CommandKind) : routerCall (option (option error))
| ReadRequestBody : routerCall (option (bytes * option error))
| GetEntry (t : TenantID) (s : SessionID) : routerCall (option (result CatalogEntry))
| RunHandler (h : handlerName) (operation : OperationContext) (values : list (string * string)) (entry : option CatalogEntry)
    (body : option bytes) : routerCall handled
| AskUIRoute (p : Principal) (method path : string) : routerCall (option (option error))
| RunUIRoutes (operation : OperationContext) : routerCall handled
| RunUI : routerCall handled.

Abbreviation router := (prog routerCall).

Inductive served :=
| Wrote (r : Response) | Redirected (header : gmap string string) (to : string) | Panicked (header : gmap string string) (wrote : bool).

Definition ask {R} (header : gmap string string) (c : routerCall (option R)) (k : R -> router served) : router served :=
  Call _ c (fun answer => match answer with None => Ret (Panicked header false) | Some answer => k answer end).

(** The authenticator's own program, its calls among the router's. *)
Fixpoint authenticating {A} (p : prog authCall A) : router (option A) :=
  match p with
  | Ret a => Ret (Some a)
  | Call R c k => Call _ (Authenticating R c) (fun answer => match answer with None => Ret None | Some answer => authenticating (k answer) end)
  end.

(** A handler sets its headers over those already there. *)
Definition handled_by (header : gmap string string) (h : handled) : served :=
  match h with
  | Answered r => Wrote (MkResponse (resp_status r) (resp_header r ∪ header) (resp_body r))
  | Panics set wrote => Panicked (set ∪ header) wrote
  end.

Definition handler_runs (header : gmap string string) (c : routerCall handled) : router served :=
  Call _ c (fun h => Ret (handled_by header h)).

(** ** Failures *)
Definition routeNotFound : apiError := api StatusNotFound ErrorCodeRouteNotFound.
Definition methodNotAllowed : apiError := api StatusMethodNotAllowed ErrorCodeMethodNotAllowed.
Definition invalidSessionID : apiError := api StatusBadRequest ErrorCodeInvalidRequest.
Definition notImplemented : apiError := api StatusNotImplemented ErrorCodeNotImplemented.
Definition unsupportedMediaType : apiError := api StatusUnsupportedMediaType ErrorCodeUnsupportedMediaType.

(** ** Paths *)
Definition isAPIRequest (rq : Request) : bool := isAPIPath (rq_Path rq) || isAPIPath (cleanRequestPath (rq_Path rq)).

Definition has_prefix (prefix s : string) : bool := match after_prefix prefix s with Some _ => true | None => false end.

Definition isUIRouteRequest (rq : Request) : bool := has_prefix "/ui/" (rq_Path rq) || has_prefix "/ui/" (cleanRequestPath (rq_Path rq)).

(** ** Headers *)
Definition stampRequestID (id : result string) (header : gmap string string) : gmap string string :=
  match id with
  | Ok id => if bool_decide (id = "") then header else <[RequestIDHeader := id]> header
  | Fail _ => header
  end.

Definition setNeutralSecurityHeaders (header : gmap string string) : gmap string string :=
  <["X-Frame-Options" := "DENY"]> (<["Referrer-Policy" := "no-referrer"]> (<["X-Content-Type-Options" := "nosniff"]> header)).

Definition apiSecurityHeaders (header : gmap string string) : gmap string string :=
  <["Content-Security-Policy" := "default-src 'none'; frame-ancestors 'none'"]> (<["Cache-Control" := "no-store"]> header).

Fixpoint Join (sep : string) (l : list string) : string :=
  match l with [] => "" | [s] => s | s :: l => s +:+ sep +:+ Join sep l end.

Section Pipeline.
Context `{CoreIdentifiers} `{NetURL} `{HMAC}.
Context (marshalEnvelope : string -> bool -> option bytes).
(** Core's validation of an object reference, and [mime.ParseMediaType]: the
    media type and its parameters, [None] on an error. *)
Context (ObjectReference_Validate : string -> option error) (ParseMediaType : string -> option (string * gmap string string)).
Context (rt : Router) (rq : Request).

Definition fails (header : gmap string string) (f : apiError) : router served := Ret (Wrote (writeAPIError marshalEnvelope header f)).

(** ** The body *)
Definition hasJSONContentType (header : string) : bool :=
  match ParseMediaType header with
  | None => false
  | Some (mediaType, params) =>
      if negb (bool_decide (mediaType = "application/json")) then false
      else match params !! "charset" with Some charset => equal_fold charset "utf-8" | None => true end
  end.

Definition sized (kind : CommandKind) : bool := bool_decide (kind = KindCreateSession) || bool_decide (kind = KindInput).

Definition bodyLimit (kind : CommandKind) : Z :=
  if sized kind && negb (rl_MaxCommandBytes (rt_limits rt) =? 0) then rl_MaxCommandBytes (rt_limits rt) else rl_MaxRequestBytes (rt_limits rt).

(** [io.ReadAll] of [http.MaxBytesReader] over what the stream holds. *)
Inductive bounded := TooLarge | Unreadable | Complete (body : bytes).
Definition readAll (limit : Z) (stream : bytes * option error) : bounded :=
  if limit <? len stream.1 then TooLarge
  else match stream.2 with Some _ => Unreadable | None => Complete stream.1 end.

Definition readBoundedJSONBody (header : gmap string string) (kind : CommandKind) (k : bytes -> router served) : router served :=
  if negb (hasJSONContentType (rq_ContentType rq)) then fails header unsupportedMediaType
  else
    ask header ReadRequestBody (fun stream =>
      match readAll (bodyLimit kind) stream with
      | TooLarge =>
          fails header (api StatusRequestEntityTooLarge
            (if sized kind && negb (rl_MaxCommandBytes (rt_limits rt) =? 0) then ErrorCodeInvalidRequest else ErrorCodePayloadTooLarge))
      | Unreadable => fails header (api StatusBadRequest ErrorCodeInvalidRequest)
      | Complete body => if len body =? 0 then fails header (api StatusBadRequest ErrorCodeInvalidRequest) else k body
      end).

(** ** The route *)
Definition authorize (header : gmap string string) (rule : methodRule) (p : Principal) (sid : SessionID) (object : string)
    (k : option error -> router served) : router served :=
  match rule_auth rule with
  | authObjectRead =>
      match ObjectReference_Validate object with
      | Some _ => fails header invalidObjectRequest
      | None => ask header (AskObjectRead p sid object) k
      end
  | authSessionList => ask header (AskSessionList p) k
  | authSessionRead => ask header (AskSessionRead p sid) k
  | authControl => ask header (AskControl p sid (rule_command rule)) k
  | authAuthenticated => k None
  end.

Definition resolveSession (header : gmap string string) (p : Principal) (sid : SessionID) (k : CatalogEntry -> router served) : router served :=
  ask header (GetEntry (tenant p) sid) (fun entry =>
    match entry with Fail err => fails header (catalogFailure err) | Ok entry => k entry end).

Definition runRule (header : gmap string string) (rule : methodRule) (operation : OperationContext) (values : list (string * string))
    (entry : option CatalogEntry) (body : option bytes) : router served :=
  match rule_handle rule with
  | None => fails header notImplemented
  | Some h => handler_runs header (RunHandler h operation values entry body)
  end.

Definition serveRoute (entry : route) (values : list (string * string)) (header : gmap string string) (operation : option OperationContext)
    : router served :=
  match ruleFor entry (rq_Method rq) with
  | None => fails (<["Allow" := Join ", " (methods entry)]> header) methodNotAllowed
  | Some rule =>
      match operation with
      | None => fails header (authenticationFailure ErrUnauthenticated)
      | Some operation =>
          let p := op_Principal operation in
          let sid := if session entry then PathValue values "sid" else "" in
          if session entry && negb (valid (SessionID_Validate sid)) then fails header invalidSessionID
          else
            authorize header rule p sid (PathValue values "oid") (fun denied =>
              match denied with
              | Some err => fails header (authorizationFailure err)
              | None =>
                  let resolved (body : option bytes) : router served :=
                    if session entry then resolveSession header p sid (fun e => runRule header rule operation values (Some e) body)
                    else runRule header rule operation values None body in
                  match rule_body rule with
                  | bodyJSON => readBoundedJSONBody header (rule_command rule) (fun body => resolved (Some body))
                  | bodyNone => resolved None
                  end
              end)
      end
  end.

(** ** The middleware *)
Definition authenticated (header : gmap string string) (next : OperationContext -> router served) : router served :=
  let! answer := authenticating (AuthenticateRequest (rt_credentials rt) (Some (rq_http rq))) in
  match answer with
  | None => Ret (Panicked header false)
  | Some answer =>
      call! ended := AuthCtxErr in
      match answer with
      | Ok p => next (NewOperationContext (rt_credentials rt) (Some (rq_http rq)) p)
      | Fail err =>
          let failure := authenticationFailure err in
          let failure := match ended with Some ended => default failure (contextFailure ended) | None => failure end in
          fails (if status failure =? StatusUnauthorized then <["Www-Authenticate" := "Bearer realm=" +:+ quoted "factory"]> header else header)
            failure
      end
  end.

Definition guarded_by (header : gmap string string) (next : OperationContext -> router served) (operation : OperationContext) : router served :=
  call! now := GuardClock in
  match Check (rt_guard rt) (Some (guardRequest rq (Some operation))) now with
  | Some reason => Ret (Wrote (writeRejection marshalEnvelope header reason))
  | None => next operation
  end.

Definition mux (header : gmap string string) (operation : OperationContext) : router served :=
  match muxHandler (rq_Method rq) (rq_EscapedPath rq) with
  | MuxRedirect to => Ret (Redirected header to)
  | MuxNone => fails header routeNotFound
  | MuxRoute entry values => serveRoute entry values header (Some operation)
  end.

Definition dispatch (header : gmap string string) (next : router served) : router served :=
  if negb (isAPIRequest rq) then fails header routeNotFound
  else if negb (bool_decide (cleanRequestPath (rq_Path rq) = rq_Path rq)) then fails header routeNotFound
  else next.

Definition own (header : gmap string string) : router served :=
  let header := apiSecurityHeaders header in
  dispatch header (authenticated header (guarded_by header (mux header))).

Definition protectedUI (header : gmap string string) : router served :=
  let header := <["Cache-Control" := "no-store"]> header in
  authenticated header (guarded_by header (fun operation =>
    ask header (AskUIRoute (op_Principal operation) (rq_Method rq) (rq_Path rq)) (fun err =>
      call! ended := AuthCtxErr in
      match err, ended with
      | None, None => handler_runs header (RunUIRoutes operation)
      | _, _ =>
          fails header (match ended with
                        | Some ended => default (match err with Some err => authorizationFailure err | None => internalFailure end) (contextFailure ended)
                        | None => match err with Some err => authorizationFailure err | None => internalFailure end
                        end)
      end))).

(** ** [ServeHTTP] *)
Definition choose (header : gmap string string) : router served :=
  if rt_quiesced rt then fails header controlUnavailable
  else if rt_protectedUI rt && negb (isAPIRequest rq) && isUIRouteRequest rq then
    if negb (bool_decide (cleanRequestPath (rq_Path rq) = rq_Path rq)) then fails header routeNotFound else protectedUI header
  else if rt_ui rt && negb (isAPIRequest rq) then handler_runs header RunUI
  else own header.

Definition routed : router served :=
  ask ∅ NewUUID (fun id => choose (setNeutralSecurityHeaders (stampRequestID id ∅))).

Inductive reply := Reply (r : Response) | ReplyRedirect (header : gmap string string) (to : string) | AbortConnection.

Definition recoverPanic (s : served) : reply :=
  match s with
  | Wrote r => Reply r
  | Redirected header to => ReplyRedirect header to
  | Panicked _ true => AbortConnection
  | Panicked header false => Reply (writeAPIError marshalEnvelope header internalFailure)
  end.

Definition ServeHTTP : router reply := let! s := routed in Ret (recoverPanic s).
End Pipeline.

(** ** What a handler may rely on *)

(** A call of the authenticator, as the router made it. *)
Definition lift_ev (e : event authCall) : event routerCall := match e with Ev R c r => Ev _ (Authenticating R c) (Some r) end.

Lemma authenticating_wp {A} (p : prog authCall A) : forall (Q : A -> list (event authCall) -> Prop), wp p Q ->
  wp (authenticating p) (fun a t => match a with Some a => exists u, t = lift_ev <$> u /\ Q a u | None => True end
    /\ Forall (fun e => match e with Ev _ (Authenticating _ _) _ => True | _ => False end) t).
Proof.
  induction p as [a|R c k IH]; intros Q Hp; simpl in *; [split; [by exists []|done]|].
  intros [r|]; [|by repeat constructor]. eapply wp_mono; [|apply (IH r _ (Hp r))]. simpl. intros [a|] t [Ht Hc]; (split; [|by constructor]); [|done].
  destruct Ht as (u & -> & Hq). by exists (Ev R c r :: u).
Qed.

(** Whether a call hands the request over. *)
Definition runs (e : event routerCall) : bool :=
  match e with Ev _ (RunHandler _ _ _ _ _) _ | Ev _ (RunUIRoutes _) _ | Ev _ RunUI _ => true | _ => false end.

Section License.
Context `{CoreIdentifiers} `{NetURL} `{HMAC}.
Context (ParseMediaType : string -> option (string * gmap string string)) (ObjectReference_Validate : string -> option error).
Context (rt : Router) (rq : Request).

(** The caller: authenticated by this request, and past the guard. *)
Definition caller (past : list (event routerCall)) (op : OperationContext) : Prop :=
  exists c u now,
    presents (rt_credentials rt) (rq_http rq) c /\ vouched (rt_credentials rt) c (op_Principal op) u /\ (lift_ev <$> u) ⊆ past
    /\ op = NewOperationContext (rt_credentials rt) (Some (rq_http rq)) (op_Principal op)
    /\ Ev _ GuardClock now ∈ past /\ Check (rt_guard rt) (Some (guardRequest rq (Some op))) now = None.

(** The decision the rule asks for, granted. *)
Definition granted (past : list (event routerCall)) (rule : methodRule) (p : Principal) (sid : SessionID) (object : string) : Prop :=
  match rule_auth rule with
  | authAuthenticated => True
  | authSessionList => Ev _ (AskSessionList p) (Some None) ∈ past
  | authSessionRead => Ev _ (AskSessionRead p sid) (Some None) ∈ past
  | authObjectRead => ObjectReference_Validate object = None /\ Ev _ (AskObjectRead p sid object) (Some None) ∈ past
  | authControl => Ev _ (AskControl p sid (rule_command rule)) (Some None) ∈ past
  end.

Definition body_read (past : list (event routerCall)) (rule : methodRule) (body : option bytes) : Prop :=
  match rule_body rule with
  | bodyNone => body = None
  | bodyJSON => exists b, body = Some b /\ hasJSONContentType ParseMediaType (rq_ContentType rq) = true
      /\ 0 < len b <= bodyLimit rt (rule_command rule) /\ Ev _ ReadRequestBody (Some (b, None)) ∈ past
  end.

Definition session_resolved (past : list (event routerCall)) (r : route) (p : Principal) (sid : SessionID) (entry : option CatalogEntry) : Prop :=
  if session r then SessionID_Validate sid = None /\ exists e, entry = Some e /\ Ev _ (GetEntry (tenant p) sid) (Some (Ok e)) ∈ past
  else entry = None.

Definition sid_of (r : route) (values : list (string * string)) : SessionID := if session r then PathValue values "sid" else "".

(** The route and the rule a handler runs under. *)
Definition handler_licensed (past : list (event routerCall)) (h : handlerName) (op : OperationContext) (values : list (string * string))
    (entry : option CatalogEntry) (body : option bytes) : Prop :=
  exists r rule,
    r ∈ routeTable /\ matchRoute r (pathSegments (rq_EscapedPath rq)) = Some values
    /\ ruleFor r (rq_Method rq) = Some rule /\ rule_handle rule = Some h
    /\ granted past rule (op_Principal op) (sid_of r values) (PathValue values "oid")
    /\ body_read past rule body /\ session_resolved past r (op_Principal op) (sid_of r values) entry.

(** A call and what came before it. *)
Definition licensed (past : list (event routerCall)) (e : event routerCall) : Prop :=
  Forall (fun e => runs e = false) past
  /\ match e with
     | Ev _ (RunHandler h op values entry body) _ =>
         rt_quiesced rt = false /\ isAPIRequest rq = true /\ cleanRequestPath (rq_Path rq) = rq_Path rq
         /\ caller past op /\ handler_licensed past h op values entry body
     | Ev _ (RunUIRoutes op) _ =>
         rt_quiesced rt = false /\ isAPIRequest rq = false /\ isUIRouteRequest rq = true /\ cleanRequestPath (rq_Path rq) = rq_Path rq
         /\ caller past op /\ Ev _ (AskUIRoute (op_Principal op) (rq_Method rq) (rq_Path rq)) (Some None) ∈ past
     | Ev _ RunUI _ => rt_quiesced rt = false /\ isAPIRequest rq = false
     | _ => True
     end.

(** ** Facts *)
Abbreviation quiet_past past := (Forall (fun e => runs e = false) past).

Lemma quiet_snoc past e : quiet_past past -> runs e = false -> quiet_past (past ++ [e]).
Proof. intros Hp He. apply Forall_app. split; [done|]. by constructor. Qed.

Lemma licensed_quiet past e : quiet_past past -> runs e = false -> licensed past e.
Proof. intros Hp He. split; [done|]. destruct e as [R c r]. by destruct c. Qed.

Lemma ask_obeys {R} header (c : routerCall (option R)) k past :
  quiet_past past -> (forall a, runs (Ev _ c a) = false) -> (forall a, obeys licensed (past ++ [Ev _ c (Some a)]) (k a)) ->
  obeys licensed past (ask header c k).
Proof. intros Hp Hc Hk [a|]; (split; [by apply licensed_quiet|]); [apply Hk|done]. Qed.

Lemma caller_mono past past' op : past ⊆ past' -> caller past op -> caller past' op.
Proof. intros Hs (c & u & now & ? & ? & Hu & ? & Hn & ?). exists c, u, now. split_and!; try done; [by etrans|by apply Hs]. Qed.

Lemma granted_mono past past' rule p sid object : past ⊆ past' -> granted past rule p sid object -> granted past' rule p sid object.
Proof. unfold granted. intros Hs. destruct (rule_auth rule); try done; try apply Hs. intros [? ?]. split; [done|by apply Hs]. Qed.

Lemma body_read_mono past past' rule body : past ⊆ past' -> body_read past rule body -> body_read past' rule body.
Proof.
  unfold body_read. intros Hs. destruct (rule_body rule); [done|]. intros (b & ? & ? & ? & ?). exists b. split_and!; try done; try lia. by apply Hs.
Qed.

Lemma past_mono (past : list (event routerCall)) l : past ⊆ (past ++ l)%list.
Proof. intros e He. apply elem_of_app. by left. Qed.

Lemma last_in (past : list (event routerCall)) e : e ∈ (past ++ [e])%list.
Proof. apply elem_of_app. right. by left. Qed.

Lemma authorize_obeys env header rule p sid object k past :
  quiet_past past ->
  (forall past' denied, quiet_past past' -> past ⊆ past' -> (denied = None -> granted past' rule p sid object) ->
     obeys licensed past' (k denied)) ->
  obeys licensed past (authorize env ObjectReference_Validate header rule p sid object k).
Proof.
  intros Hp Hk. assert (Hstep : forall (c : routerCall (option (option error))), (forall a, runs (Ev _ c a) = false) ->
    (Ev _ c (Some None) ∈ (past ++ [Ev _ c (Some None)])%list -> granted (past ++ [Ev _ c (Some None)])%list rule p sid object) ->
    obeys licensed past (ask header c k)).
  { intros c Hc Hg. apply ask_obeys; [done..|]. intros [err|]; apply Hk; try by apply quiet_snoc. all: try apply past_mono; try done.
    intros _. apply Hg, last_in. }
  unfold authorize. unfold granted in *. destruct (rule_auth rule).
  - by apply Hk.
  - by apply Hstep.
  - by apply Hstep.
  - destruct (ObjectReference_Validate object); [done|]. by apply Hstep.
  - by apply Hstep.
Qed.

Lemma readBoundedJSONBody_obeys env header rule k past :
  quiet_past past -> rule_body rule = bodyJSON ->
  (forall past' b, quiet_past past' -> past ⊆ past' -> body_read past' rule (Some b) -> obeys licensed past' (k b)) ->
  obeys licensed past (readBoundedJSONBody env ParseMediaType rt rq header (rule_command rule) k).
Proof.
  intros Hp Hb Hk. unfold readBoundedJSONBody. destruct (hasJSONContentType _ _) eqn:Hj; [|done]. apply ask_obeys; [done..|].
  intros [b err]. unfold readAll. simpl. destruct (bodyLimit rt (rule_command rule) <? len b) eqn:Hl; [done|].
  destruct err as [err|]; [done|]. destruct (len b =? 0) eqn:Hz; [done|]. reflect_guards.
  apply Hk; [by apply quiet_snoc|apply past_mono|]. unfold body_read. rewrite Hb. exists b. unfold len in *. split_and!; try done; [lia|apply last_in].
Qed.

Lemma runRule_obeys env header rule op values entry body past :
  (forall h, rule_handle rule = Some h -> forall a, licensed past (Ev _ (RunHandler h op values entry body) a)) ->
  obeys licensed past (runRule env header rule op values entry body).
Proof. intros Hl. unfold runRule. destruct (rule_handle rule) as [h|] eqn:Hh; [|done]. intros a. split; [by apply Hl|done]. Qed.

Lemma serveRoute_obeys env r values header op past :
  quiet_past past -> rt_quiesced rt = false -> isAPIRequest rq = true -> cleanRequestPath (rq_Path rq) = rq_Path rq ->
  r ∈ routeTable -> matchRoute r (pathSegments (rq_EscapedPath rq)) = Some values -> caller past op ->
  obeys licensed past (serveRoute env ObjectReference_Validate ParseMediaType rt rq r values header (Some op)).
Proof.
  intros Hp Hq Hapi Hclean Hr Hm Hcaller. unfold serveRoute. destruct (ruleFor r (rq_Method rq)) as [rule|] eqn:Hrule; [|done].
  cbv zeta. fold (sid_of r values). destruct (session r && _) eqn:Hsid; [done|].
  apply authorize_obeys; [done|]. intros past1 [err|] Hp1 Hs1 Hg; [done|]. specialize (Hg eq_refl).
  assert (Hrest : forall past2 body, quiet_past past2 -> past1 ⊆ past2 -> body_read past2 rule body ->
    obeys licensed past2 (if session r
      then resolveSession env header (op_Principal op) (sid_of r values) (fun e => runRule env header rule op values (Some e) body)
      else runRule env header rule op values None body)).
  { intros past2 body Hp2 Hs2 Hb.
    assert (Hlic : forall past3 entry h a, quiet_past past3 -> past2 ⊆ past3 -> session_resolved past3 r (op_Principal op) (sid_of r values) entry ->
      rule_handle rule = Some h -> licensed past3 (Ev _ (RunHandler h op values entry body) a)).
    { intros past3 entry h a Hp3 Hs3 He Hh. split; [done|]. split_and!; try done; [by eapply caller_mono; [|done]; do 2 (etrans; [done|])|].
      exists r, rule. split_and!; try done; [eapply granted_mono; [|done]; by etrans|by eapply body_read_mono]. }
    destruct (session r) eqn:Hses.
    - unfold resolveSession. apply ask_obeys; [done..|]. intros [e|err]; [|done]. apply runRule_obeys. intros h Hh a.
      apply Hlic; [by apply quiet_snoc|apply past_mono| |done]. unfold session_resolved. rewrite Hses.
      split; [|exists e; split; [done|apply last_in]]. simpl in Hsid. apply negb_false_iff in Hsid.
      by destruct (SessionID_Validate _).
    - apply runRule_obeys. intros h Hh a. apply Hlic; try done. unfold session_resolved. by rewrite Hses. }
  destruct (rule_body rule) eqn:Hb; [apply Hrest; [done..|]; unfold body_read; by rewrite Hb|].
  apply readBoundedJSONBody_obeys; [done..|]. intros past2 b Hp2 Hs2 Hread. by apply Hrest.
Qed.

(** ** The middleware *)
Lemma authenticated_obeys env header next past :
  quiet_past past ->
  (forall past' p, quiet_past past' -> past ⊆ past' ->
     (exists c u, presents (rt_credentials rt) (rq_http rq) c /\ vouched (rt_credentials rt) c p u /\ (lift_ev <$> u) ⊆ past') ->
     obeys licensed past' (next (NewOperationContext (rt_credentials rt) (Some (rq_http rq)) p))) ->
  obeys licensed past (authenticated env rt rq header next).
Proof.
  intros Hp Hk. unfold authenticated.
  assert (Hauth : wp (AuthenticateRequest (rt_credentials rt) (Some (rq_http rq))) (fun a u =>
    match a with Ok p => exists c, presents (rt_credentials rt) (rq_http rq) c /\ vouched (rt_credentials rt) c p u | Fail _ => True end)).
  { unfold AuthenticateRequest. destruct (presented (rt_credentials rt) (rq_http rq)) as [c|e] eqn:Hc; [|done].
    apply presented_spec in Hc. eapply wp_mono; [|apply authenticate_wp]. simpl. intros [p|e] t Ht; eauto. }
  apply authenticating_wp in Hauth. apply obeys_bind.
  - clear Hauth Hk. revert past Hp. generalize (AuthenticateRequest (rt_credentials rt) (Some (rq_http rq))).
    intros p. induction p as [a|R c k IH]; intros past Hp; [done|]. intros [r|]; (split; [by apply licensed_quiet|]); [|done].
    apply IH. by apply quiet_snoc.
  - eapply wp_mono; [|apply Hauth]. simpl. intros [[p|e]|] t [Ht Hcalls].
    3: done.
    2: { intros ended. split; [|done]. apply licensed_quiet; [|done]. apply Forall_app. split; [done|].
         eapply Forall_impl; [exact Hcalls|]. intros [R c r]. by destruct c. }
    assert (Hq : quiet_past (past ++ t)).
    { apply Forall_app. split; [done|]. eapply Forall_impl; [exact Hcalls|]. intros [R c r]. by destruct c. }
    destruct Ht as (u & -> & c & Hpres & Hv). intros ended. split; [by apply licensed_quiet|]. apply Hk; [by apply quiet_snoc| |].
    + intros e He. apply elem_of_app. left. apply elem_of_app. by left.
    + exists c, u. split_and!; try done. intros e He. apply elem_of_app. left. apply elem_of_app. by right.
Qed.

Lemma guarded_obeys env header next p past :
  quiet_past past ->
  (exists c u, presents (rt_credentials rt) (rq_http rq) c /\ vouched (rt_credentials rt) c p u /\ (lift_ev <$> u) ⊆ past) ->
  (forall past', quiet_past past' -> caller past' (NewOperationContext (rt_credentials rt) (Some (rq_http rq)) p) ->
     obeys licensed past' (next (NewOperationContext (rt_credentials rt) (Some (rq_http rq)) p))) ->
  obeys licensed past (guarded_by env rt rq header next (NewOperationContext (rt_credentials rt) (Some (rq_http rq)) p)).
Proof.
  intros Hp (c & u & Hpres & Hv & Hu) Hk now. split; [by apply licensed_quiet|].
  destruct (Check _ _ now) as [reason|] eqn:Hc; [done|]. apply Hk; [by apply quiet_snoc|].
  exists c, u, now. split_and!; try done; [|apply last_in]. etrans; [done|apply past_mono].
Qed.

Lemma own_obeys env header past :
  quiet_past past -> rt_quiesced rt = false -> obeys licensed past (own env ObjectReference_Validate ParseMediaType rt rq header).
Proof.
  intros Hp Hq. unfold own, dispatch. destruct (isAPIRequest rq) eqn:Hapi; [|done]. simpl negb. cbv iota.
  case_bool_decide as Hc; [|done]. simpl negb. cbv iota. apply authenticated_obeys; [done|]. intros past1 p Hp1 _ Hv.
  apply guarded_obeys; [done..|]. intros past2 Hp2 Hcaller. unfold mux. pose proof (findRoute_spec routeTable (pathSegments (rq_EscapedPath rq))) as Hf.
  unfold muxHandler. destruct (_ && _); [done|]. destruct (findRoute _ _) as [[r values]|]; [|done]. destruct Hf as [Hr Hm].
  by apply serveRoute_obeys.
Qed.

Lemma protectedUI_obeys env header past :
  quiet_past past -> rt_quiesced rt = false -> isAPIRequest rq = false -> isUIRouteRequest rq = true ->
  cleanRequestPath (rq_Path rq) = rq_Path rq -> obeys licensed past (protectedUI env rt rq header).
Proof.
  intros Hp Hq Hapi Hui Hc. unfold protectedUI. apply authenticated_obeys; [done|]. intros past1 p Hp1 _ Hv.
  apply guarded_obeys; [done..|]. intros past2 Hp2 Hcaller. apply ask_obeys; [done..|]. intros err ended.
  split; [apply licensed_quiet; [by apply quiet_snoc|done]|].
  destruct err as [err|], ended as [ended|]; try done. intros a. split; [|done]. split; [by repeat apply quiet_snoc|].
  split_and!; try done.
  - eapply caller_mono; [|done]. etrans; apply past_mono.
  - apply elem_of_app. left. apply last_in.
Qed.

Lemma routed_obeys env : obeys licensed [] (routed env ObjectReference_Validate ParseMediaType rt rq).
Proof.
  unfold routed. apply ask_obeys; [constructor|done|]. intros id. unfold choose.
  assert (Hp : quiet_past ([] ++ [Ev _ NewUUID (Some id)])) by (by apply quiet_snoc).
  destruct (rt_quiesced rt) eqn:Hq; [done|]. destruct (rt_protectedUI rt && negb (isAPIRequest rq) && isUIRouteRequest rq) eqn:Hui.
  - apply andb_true_iff in Hui as [Hui Hr]. apply andb_true_iff in Hui as [_ Hn]. apply negb_true_iff in Hn.
    case_bool_decide as Hc; [|done]. simpl negb. cbv iota. by apply protectedUI_obeys.
  - destruct (rt_ui rt && negb (isAPIRequest rq)) eqn:Hu; [|by apply own_obeys].
    apply andb_true_iff in Hu as [_ Hn]. apply negb_true_iff in Hn. intros a. split; [|done]. by split.
Qed.
End License.

(** The decision and the place of each handler, as the table has to give them. *)
Definition auth_of (h : handlerName) : authRule :=
  match h with
  | serveControl_ _ => authControl
  | serveObject_ _ => authObjectRead
  | serveSessionList_ => authSessionList
  | serveCommandStatus_ | serveSessionStatus_ | serveSessionJournal_ | serveSessionGates_ => authSessionRead
  | _ => authAuthenticated
  end.

Definition session_of (h : handlerName) : bool :=
  match h with
  | serveControl_ kind => negb (bool_decide (kind = KindCreateSession))
  | h => bool_decide (auth_of h = authSessionRead) || bool_decide (auth_of h = authObjectRead)
  end.

Definition rule_fits (r : route) (rule : methodRule) : bool :=
  match rule_handle rule with
  | None => false
  | Some h =>
      bool_decide (rule_auth rule = auth_of h) && Bool.eqb (session r) (session_of h)
      && Bool.eqb (session r) (existsb (fun s => bool_decide (s = Wild "sid")) (patternSegments (pattern r)))
      && match h with
         | serveControl_ kind => bool_decide (rule_method rule = MethodPost) && bool_decide (rule_body rule = bodyJSON) && bool_decide (rule_command rule = kind)
         | _ => (bool_decide (rule_method rule = MethodGet) || bool_decide (rule_method rule = MethodHead)) && bool_decide (rule_body rule = bodyNone)
         end
  end.

Lemma table_fits : forallb (fun r => forallb (rule_fits r) (rules r)) routeTable = true.
Proof. by vm_compute. Qed.

Lemma table_rule r method rule : r ∈ routeTable -> ruleFor r method = Some rule -> rule_fits r rule = true /\ rule_method rule = method.
Proof.
  intros Hr Hf. unfold ruleFor in Hf. apply List.find_some in Hf as [Hin Hm]. reflect_guards. split; [|done].
  pose proof table_fits as Ht. rewrite forallb_forall in Ht. specialize (Ht r (proj1 (list_elem_of_In _ _) Hr)).
  rewrite forallb_forall in Ht. by apply Ht.
Qed.

(** What a run of a handler means for the session it serves. *)
Definition decided (past : list (event routerCall)) (h : handlerName) (p : Principal) (sid : SessionID) (object : string) : Prop :=
  match h with
  | serveControl_ kind => Ev _ (AskControl p sid kind) (Some None) ∈ past
  | serveObject_ _ => Ev _ (AskObjectRead p sid object) (Some None) ∈ past
  | serveSessionList_ => Ev _ (AskSessionList p) (Some None) ∈ past
  | serveCommandStatus_ | serveSessionStatus_ | serveSessionJournal_ | serveSessionGates_ => Ev _ (AskSessionRead p sid) (Some None) ∈ past
  | serveBootstrap_ | serveAgents_ _ | serveRealtime_ | TokenHandler_ => True
  end.

Definition handler_decided (rt : Router) (rq : Request) (pre : list (event routerCall)) (h : handlerName) (op : OperationContext)
    (values : list (string * string)) (entry : option CatalogEntry) (body : option bytes) : Prop :=
  decided pre h (op_Principal op) (if session_of h then PathValue values "sid" else "") (PathValue values "oid")
  /\ (session_of h = true -> exists found, entry = Some found
        /\ Ev _ (GetEntry (tenant (op_Principal op)) (PathValue values "sid")) (Some (Ok found)) ∈ pre)
  /\ (forall kind, h = serveControl_ kind -> rq_Method rq = MethodPost
        /\ exists b, body = Some b /\ 0 < len b <= bodyLimit rt kind /\ Ev _ ReadRequestBody (Some (b, None)) ∈ pre).

Lemma licensed_decides `{CoreIdentifiers} `{NetURL} `{HMAC} pm ov rt rq pre h op values entry body a :
  licensed pm ov rt rq pre (Ev _ (RunHandler h op values entry body) a) -> handler_decided rt rq pre h op values entry body.
Proof.
  intros (_ & _ & _ & _ & _ & r & rule & Hr & _ & Hrule & Hh & Hg & Hb & Hs).
  destruct (table_rule _ _ _ Hr Hrule) as [Hfit Hm]. unfold rule_fits in Hfit. rewrite Hh in Hfit.
  rewrite !andb_true_iff in Hfit. destruct Hfit as [[[Ha Hses] _] Hbody]. apply Bool.eqb_prop in Hses. reflect_guards.
  unfold sid_of, granted, session_resolved, body_read in *. rewrite Hses in *. rewrite Ha in Hg. split_and!.
  - destruct h; simpl in *; try done; try (by destruct Hg). apply andb_true_iff in Hbody as [_ ?]. by reflect_guards; subst.
  - intros Hh'. rewrite Hh' in Hs. by destruct Hs as [_ Hs].
  - intros kind ->. rewrite !andb_true_iff in Hbody. destruct Hbody as [[? Hj] ?]. reflect_guards. rewrite Hj in Hb.
    split; [congruence|]. destruct Hb as (b & ? & _ & ? & ?). subst. by exists b.
Qed.

Lemma ServeHTTP_obeys `{CoreIdentifiers} `{NetURL} `{HMAC} env ov pm rt rq :
  obeys (licensed pm ov rt rq) [] (ServeHTTP env ov pm rt rq).
Proof. apply obeys_bind; [apply routed_obeys|]. eapply wp_mono; [|apply wp_true]. done. Qed.

(** C20: A handler runs only for a request that earned it. Whatever the
    environment answers, and panics included, the router hands a request to at
    most one handler, as its last call, and to a handler of the API only when
    the router is not fenced; the path is the API's and clean; the credential it
    presents was verified, in date, for the principal the handler is given; the
    guard passed it; the route and the method are the table's for that path; the
    authorizer granted that handler's own decision to that principal for the
    session and object of the path; a command's body is JSON, not empty and
    within its limit; and a session route's record was read under the
    principal's tenant. The user interface is never given a request for the API,
    and its protected routes only after the same authentication, the guard and
    their own authorization. *)
Theorem handlers_run_only_licensed `{CoreIdentifiers} `{NetURL} `{HMAC} (marshalEnvelope : string -> bool -> option bytes)
    (ObjectReference_Validate : string -> option error) (ParseMediaType : string -> option (string * gmap string string))
    (rt : Router) (rq : Request) :
  wp (ServeHTTP marshalEnvelope ObjectReference_Validate ParseMediaType rt rq) (fun _ t =>
    forall pre e post, t = (pre ++ e :: post)%list ->
      licensed ParseMediaType ObjectReference_Validate rt rq pre e
      /\ match e with
         | Ev _ (RunHandler h op values entry body) _ =>
             handler_decided rt rq pre h op values entry body
         | _ => True
         end).
Proof.
  eapply wp_mono; [|apply obeys_wp, ServeHTTP_obeys].
  simpl. intros reply t Ht pre e post Heq. specialize (Ht pre e post Heq). split; [exact Ht|].
  destruct e as [R c a]. destruct c; try done. by eapply licensed_decides.
Qed.

(** ** Headers *)
Definition required (rt : Router) (rq : Request) : gmap string string :=
  (if isAPIRequest rq && negb (rt_quiesced rt) then apiSecurityHeaders ∅ else ∅) ∪ setNeutralSecurityHeaders ∅.

(** A handler that does not weaken them, and an identifier source that does not
    panic. *)
Definition polite (req : gmap string string) (e : event routerCall) : Prop :=
  match e with
  | Ev _ (RunHandler _ _ _ _ _) (Answered r) | Ev _ (RunUIRoutes _) (Answered r) | Ev _ RunUI (Answered r) =>
      forall k v, req !! k = Some v -> resp_header r !! k = None \/ resp_header r !! k = Some v
  | Ev _ (RunHandler _ _ _ _ _) (Panics set _) | Ev _ (RunUIRoutes _) (Panics set _) | Ev _ RunUI (Panics set _) =>
      forall k v, req !! k = Some v -> set !! k = None \/ set !! k = Some v
  | Ev _ NewUUID None => False
  | _ => True
  end.

Definition carries (req : gmap string string) (s : served) : Prop :=
  match s with Wrote r => req ⊆ resp_header r | Redirected header _ | Panicked header _ => req ⊆ header end.

Lemma set_keeps (req header : gmap string string) k v :
  req ⊆ header -> (req !! k = None \/ req !! k = Some v) -> req ⊆ <[k := v]> header.
Proof.
  intros Hs Hk. apply map_subseteq_spec. intros i x Hi. destruct (decide (k = i)) as [<-|Hne].
  - rewrite lookup_insert_eq. destruct Hk; congruence.
  - rewrite lookup_insert_ne by done. by eapply lookup_weaken.
Qed.

Lemma union_keeps (req set header : gmap string string) :
  req ⊆ header -> (forall k v, req !! k = Some v -> set !! k = None \/ set !! k = Some v) -> req ⊆ set ∪ header.
Proof.
  intros Hs Hk. apply map_subseteq_spec. intros i x Hi. apply lookup_union_Some_raw.
  destruct (Hk i x Hi) as [Hn|Hn]; [right; split; [done|by eapply lookup_weaken]|by left].
Qed.

(** The headers a failure sets are the required ones or none of them. *)
Definition harmless (req : gmap string string) : Prop :=
  req !! "Retry-After" = None /\ req !! "Content-Type" = None /\ req !! "Allow" = None /\ req !! "Www-Authenticate" = None
  /\ (req !! "X-Content-Type-Options" = None \/ req !! "X-Content-Type-Options" = Some "nosniff")
  /\ (req !! "Cache-Control" = None \/ req !! "Cache-Control" = Some "no-store").

Lemma required_harmless rt rq : harmless (required rt rq).
Proof. unfold required, harmless. destruct (_ && _); by vm_compute; auto 10. Qed.

Section Headers.
Context `{CoreIdentifiers} `{NetURL} `{HMAC}.
Context (env : string -> bool -> option bytes).
Context (ObjectReference_Validate : string -> option error) (ParseMediaType : string -> option (string * gmap string string)).
Context (rt : Router) (rq : Request) (req : gmap string string) (Hreq : harmless req).

Lemma writeAPIError_keeps header f : req ⊆ header -> req ⊆ resp_header (writeAPIError env header f).
Proof.
  destruct Hreq as (Hr & Hc & _ & _ & Hx & Hcc). intros Hs. unfold writeAPIError.
  destruct (match env _ _ with Some _ => _ | None => _ end) as [st body]. unfold writeJSONBytes. simpl.
  repeat apply set_keeps; auto. destruct (_ && _); [apply set_keeps|]; auto.
Qed.

Abbreviation secured := (assuming (polite req) (carries req)).

Lemma fails_secured header f : req ⊆ header -> secured (fails env header f).
Proof. intros Hs _. by apply writeAPIError_keeps. Qed.

Lemma ask_secured {R} header (c : routerCall (option R)) k : req ⊆ header -> (forall a, secured (k a)) -> secured (ask header c k).
Proof. intros Hs Hk. apply assuming_call. intros [a|] _; [apply Hk|]. by intros _. Qed.

Lemma run_secured header c :
  req ⊆ header -> (forall a, polite req (Ev _ c a) -> match a with Answered r => forall k v, req !! k = Some v -> resp_header r !! k = None \/ resp_header r !! k = Some v
     | Panics set _ => forall k v, req !! k = Some v -> set !! k = None \/ set !! k = Some v end) ->
  secured (handler_runs header c).
Proof.
  intros Hs Hc. apply assuming_call. intros a Ha. specialize (Hc a Ha). apply assuming_ret. destruct a as [r|set wrote]; by apply union_keeps.
Qed.

Lemma authorize_secured header rule p sid object k :
  req ⊆ header -> (forall a, secured (k a)) -> secured (authorize env ObjectReference_Validate header rule p sid object k).
Proof.
  intros Hs Hk. unfold authorize. destruct (rule_auth rule); try by apply ask_secured; [|]. apply Hk.
  destruct (ObjectReference_Validate object); [by apply fails_secured|by apply ask_secured].
Qed.

Lemma body_secured header kind k : req ⊆ header -> (forall b, secured (k b)) -> secured (readBoundedJSONBody env ParseMediaType rt rq header kind k).
Proof.
  intros Hs Hk. unfold readBoundedJSONBody. destruct (hasJSONContentType _ _); [|by apply fails_secured]. apply ask_secured; [done|].
  intros stream. destruct (readAll _ _); [by apply fails_secured..|]. destruct (_ =? 0); [by apply fails_secured|apply Hk].
Qed.

Lemma serveRoute_secured r values header op :
  req ⊆ header -> secured (serveRoute env ObjectReference_Validate ParseMediaType rt rq r values header op).
Proof.
  intros Hs. unfold serveRoute. destruct (ruleFor r _) as [rule|]; [|apply fails_secured, set_keeps; [done|left; apply Hreq]].
  destruct op as [op|]; [|by apply fails_secured]. cbv zeta. destruct (_ && _); [by apply fails_secured|].
  assert (Hrun : forall entry body, secured (runRule env header rule op values entry body)).
  { intros entry body. unfold runRule. destruct (rule_handle rule); [by apply run_secured|by apply fails_secured]. }
  assert (Hres : forall body, secured (if session r
    then resolveSession env header (op_Principal op) (if session r then PathValue values "sid" else "") (fun e => runRule env header rule op values (Some e) body)
    else runRule env header rule op values None body)).
  { intros body. destruct (session r); [|apply Hrun]. apply ask_secured; [done|]. intros [e|err]; [apply Hrun|by apply fails_secured]. }
  apply authorize_secured; [done|]. intros [err|]; [by apply fails_secured|].
  destruct (rule_body rule); [apply Hres|]. by apply body_secured.
Qed.

Lemma authenticated_secured header next : req ⊆ header -> (forall op, secured (next op)) -> secured (authenticated env rt rq header next).
Proof.
  intros Hs Hn. unfold authenticated. eapply (assuming_bind _ (fun _ => True)); [eapply wp_mono; [|apply wp_true]; done|].
  intros [[p|err]|] _; [apply assuming_call; intros ended _; apply Hn| |by intros _].
  apply assuming_call. intros ended _. apply fails_secured. destruct (_ =? _); [|done]. apply set_keeps; [done|]. left. apply Hreq.
Qed.

Lemma guarded_secured header next op : req ⊆ header -> (forall op, secured (next op)) -> secured (guarded_by env rt rq header next op).
Proof.
  intros Hs Hn. apply assuming_call. intros now _. destruct (Check _ _ _); [|apply Hn]. intros _. by apply writeAPIError_keeps.
Qed.

Lemma own_secured header : req ⊆ apiSecurityHeaders header -> secured (own env ObjectReference_Validate ParseMediaType rt rq header).
Proof.
  intros Hs. unfold own, dispatch. cbv zeta. destruct (negb (isAPIRequest rq)); [by apply fails_secured|].
  destruct (negb _); [by apply fails_secured|]. apply authenticated_secured; [done|]. intros op. apply guarded_secured; [done|]. intros op'.
  unfold mux. destruct (muxHandler _ _); [by intros _|by apply serveRoute_secured|by apply fails_secured].
Qed.

Lemma protectedUI_secured header : req ⊆ <["Cache-Control" := "no-store"]> header -> secured (protectedUI env rt rq header).
Proof.
  intros Hs. unfold protectedUI. cbv zeta. apply authenticated_secured; [done|]. intros op. apply guarded_secured; [done|]. intros op'.
  apply ask_secured; [done|]. intros err. apply assuming_call. intros ended _.
  destruct err, ended; try by apply fails_secured. by apply run_secured.
Qed.
End Headers.

Lemma routed_secured `{CoreIdentifiers} `{NetURL} `{HMAC} env ov pm rt rq :
  assuming (polite (required rt rq)) (carries (required rt rq)) (routed env ov pm rt rq).
Proof.
  pose proof (required_harmless rt rq) as Hreq. unfold routed. apply assuming_call. intros [id|] Hid; [|done]. unfold choose.
  set (header := setNeutralSecurityHeaders (stampRequestID id ∅)).
  assert (Hn : setNeutralSecurityHeaders ∅ ⊆ header) by (do 3 apply insert_mono; apply map_empty_subseteq).
  assert (Hapi : required rt rq ⊆ apiSecurityHeaders header).
  { unfold required. apply map_union_least; [destruct (_ && _); [do 2 apply insert_mono|]; apply map_empty_subseteq|].
    unfold apiSecurityHeaders. by do 2 (apply set_keeps; [|by left; vm_compute]). }
  assert (Hplain : isAPIRequest rq && negb (rt_quiesced rt) = false -> required rt rq ⊆ header).
  { intros Hf. unfold required. rewrite Hf. by rewrite (left_id_L ∅ (∪)). }
  destruct (rt_quiesced rt) eqn:Hq; [apply fails_secured; [done|]; apply Hplain; by rewrite andb_false_r|].
  destruct (isAPIRequest rq) eqn:Ha; rewrite ?andb_false_r; simpl negb; rewrite ?andb_false_r; cbv iota; [by apply own_secured|].
  destruct (rt_protectedUI rt && true && isUIRouteRequest rq); [destruct (negb (bool_decide _)); [by apply fails_secured; auto|]|].
  - apply protectedUI_secured; [done|]. apply set_keeps; [auto|]. apply Hreq.
  - destruct (rt_ui rt && true); [by apply run_secured; auto|by apply own_secured].
Qed.

(** ** Panics *)

(** A panic after the first byte is a handler's. *)
Definition late_panics (p : router served) : Prop :=
  wp p (fun s t => forall header, s = Panicked header true -> exists pre e, t = (pre ++ [e])%list /\ runs e = true).

Lemma late_ret s : (forall header, s <> Panicked header true) -> late_panics (Ret s).
Proof. intros Hs header Heq. by destruct (Hs header). Qed.

Lemma late_call {R} (c : routerCall R) k : (forall r, late_panics (k r)) -> late_panics (Call _ c k).
Proof.
  intros Hk r. eapply wp_mono; [|apply Hk]. simpl. intros s t Ht header Heq. destruct (Ht header Heq) as (pre & e & -> & He).
  by exists (Ev R c r :: pre), e.
Qed.

Lemma late_bind {A} (p : router A) k : (forall a, late_panics (k a)) -> late_panics (bind p k).
Proof.
  intros Hk. eapply wp_seq; [apply wp_true|]. intros a t _. eapply wp_mono; [|apply Hk]. simpl. intros s u Hu header Heq.
  destruct (Hu header Heq) as (pre & e & -> & He). exists (t ++ pre)%list, e. by rewrite app_assoc.
Qed.

Lemma late_run header (c : routerCall handled) : (forall a, runs (Ev _ c a) = true) -> late_panics (handler_runs header c).
Proof. intros Hc a. simpl. intros header' Heq. exists [], (Ev _ c a). by split. Qed.

Ltac walk_late :=
  repeat match goal with
  | |- late_panics (Ret _) => by apply late_ret
  | |- late_panics (handler_runs _ _) => by apply late_run
  | |- late_panics (Call _ _ _) => apply late_call; intros ?
  | |- late_panics (bind _ _) => apply late_bind; intros ?
  | |- late_panics (match _ with _ => _ end) => case_match
  | |- late_panics (let _ := _ in _) => cbv zeta
  end.

Lemma routed_late `{CoreIdentifiers} `{NetURL} `{HMAC} env ov pm rt rq : late_panics (routed env ov pm rt rq).
Proof.
  unfold routed, choose, own, protectedUI, dispatch, authenticated, guarded_by, mux, serveRoute, authorize, readBoundedJSONBody,
    resolveSession, runRule, ask, fails. walk_late.
Qed.

(** Every reply carries the security headers, and a panic is contained. If
    no handler weakens them and the identifier source does not panic, whatever
    else panics, fails or is refused, each reply carries the neutral security
    headers, and a reply to a request for the API from a router that is not
    fenced also the content policy and no-store; a connection is aborted only
    when the handler had already begun its response. *)
Theorem replies_are_secured `{CoreIdentifiers} `{NetURL} `{HMAC} (marshalEnvelope : string -> bool -> option bytes)
    (ObjectReference_Validate : string -> option error) (ParseMediaType : string -> option (string * gmap string string))
    (rt : Router) (rq : Request) :
  wp (ServeHTTP marshalEnvelope ObjectReference_Validate ParseMediaType rt rq) (fun answer t =>
    Forall (polite (required rt rq)) t ->
    match answer with
    | Reply r => required rt rq ⊆ resp_header r
    | ReplyRedirect header _ => required rt rq ⊆ header
    | AbortConnection => True
    end)
  /\ wp (ServeHTTP marshalEnvelope ObjectReference_Validate ParseMediaType rt rq) (fun answer t =>
       answer = AbortConnection -> exists pre e, t = (pre ++ [e])%list /\ runs e = true).
Proof.
  pose proof (required_harmless rt rq) as Hreq. split; [change (assuming (polite (required rt rq)) (fun answer => match answer with
    | Reply r => required rt rq ⊆ resp_header r | ReplyRedirect header _ => required rt rq ⊆ header | AbortConnection => True end)
    (ServeHTTP marshalEnvelope ObjectReference_Validate ParseMediaType rt rq))|]; unfold ServeHTTP.
  - eapply assuming_bind; [by apply routed_secured|]. intros [r|header to|header [|]] Hs; apply assuming_ret; simpl in *; try done.
    by apply writeAPIError_keeps.
  - eapply wp_seq; [apply routed_late|]. intros [r|header to|header [|]] t Ht; try done. simpl. intros _. rewrite app_nil_r. by eapply Ht.
Qed.

(** ** A request served *)
Definition demo_environment : handler routerCall unit := fun R c =>
  match c in routerCall R return unit -> R * unit with
  | NewUUID => fun w => (Some (Ok "id"), w)
  | Authenticating R c => fun w =>
      (Some (match c in authCall R return R with
             | VerifyCredential _ => Ok (MkClaims "t" "alice" KindActor 100)
             | Now => 1
             end), w)
  | AuthCtxErr => fun w => (None, w)
  | GuardClock => fun w => (1, w)
  | AskSessionList _ | AskSessionRead _ _ | AskObjectRead _ _ _ | AskControl _ _ _ | AskUIRoute _ _ _ => fun w => (Some None, w)
  | ReadRequestBody => fun w => (Some ("{}", None), w)
  | GetEntry _ _ => fun w => (Some (Ok demo_catalog_entry), w)
  | RunHandler _ _ _ _ _ | RunUIRoutes _ | RunUI => fun w => (Answered (writeJSONBytes ∅ 200 "{}"), w)
  end.

Definition demo_router : Router :=
  MkRouter true false (credentials demo_guard) [] demo_guard false DefaultRouteLimits DefaultObjectLimits false.

Definition demo_request (method path : string) : Request :=
  MkRequest method path path "application/json" (MkHTTPRequest (Some ["Bearer token"]) (fun _ => None) "") "app.example" [] [] [] "".

Definition demo_serve (method path : string) :=
  run demo_environment (ServeHTTP (H0 := demo_url) (fun _ _ => None) (fun _ => None) (fun _ => Some ("application/json", ∅)) demo_router
    (demo_request method path)) tt.

Example router_demo :
  existsb runs (demo_serve "POST" "/v1/sessions/s/input").1.2 = true
  /\ existsb runs (demo_serve "GET" "/v1/sessions/s/input").1.2 = false
  /\ existsb runs (demo_serve "GET" "/v1/sessions/../sessions/s/gates").1.2 = false
  /\ match (demo_serve "POST" "/v1/sessions/s/input").1.1 with Reply r => resp_status r = 200 | _ => False end
  /\ match (demo_serve "GET" "/v1/sessions/s/input").1.1 with Reply r => resp_header r !! "Allow" = Some "POST" | _ => False end.
Proof. by vm_compute. Qed.
