(* ===== verification/CommandPath.v ===== *)
(** * The command path, end to end (src/internal/httpapi/routes.go, controls.go,
    src/internal/realtime/clientlink/commands.go and src/internal/admission/service.go)

    [Router], [Controls], [ClientLink] and [Admission] each leave the others as
    calls. Here the calls are answered by the components themselves: the router's
    call of a control handler runs [serveControl], whose admission runs the entry
    point of the admission service; and the ClientLink's [AdmitterAdmit] runs the
    same entry points. What remains outside is what both leave outside: the
    stores, the authorizer, the clock, the identifier source and the placement
    wake. *)

From S2P Require Import Prelude Wire Framing Text Program Interp Pending Identity Refusal Admission ClientLink HttpErrors Encoding Origins Guard Objects Controls Routes Router.
Local Open Scope prog_scope.
Local Open Scope string_scope.
Local Open Scope Z_scope.

(** ** The composition *)
Inductive serviceCall : Type -> Type :=
| InRouter (R : Type) (c : routerCall R) : serviceCall R
| InControl (R : Type) (c : controlCall R) : serviceCall R
| InRPC (R : Type) (c : rpcCall R) : serviceCall R
| InAdmission (R : Type) (c : admissionCall R) : serviceCall R.

Abbreviation service := (prog serviceCall).

Section Path.
Context `{Sha256} `{InboxLimits} `{CoreCommands} `{CoreJSON}.
Context (cfg : Config).

(** A control handler over the admission service. The body is the one the router
    read and put back, so reading it succeeds; the response is the first one
    written. *)
Fixpoint serving {A} (body : bytes) (p : control A) (written : option Response) : service (option Response) :=
  match p with
  | Ret _ => Ret written
  | Call R c k =>
      match c in controlCall R return (R -> control A) -> service (option Response) with
      | ReadBody => fun k => serving body (k (Ok body)) written
      | ControlAdmit p request => fun k => bind (lift InAdmission (Admit cfg p request)) (fun answer => serving body (k answer) written)
      | WriteResponse r => fun k => serving body (k tt) (match written with None => Some r | Some _ => written end)
      | c => fun k => Call _ (InControl _ c) (fun answer => serving body (k answer) written)
      end k
  end.

(** What net/http sends when a handler wrote nothing. *)
Definition implicitResponse : Response := MkResponse StatusOK ∅ "".

Definition runControl (hasAdmissions : bool) (kind : CommandKind) (operation : OperationContext) (values : list (string * string)) (body : bytes)
    : service handled :=
  let! written := serving body (serveControl hasAdmissions kind
      (MkControlRequest (Some operation) (PathValue values "sid") (PathValue values "gid") (PathValue values "cid"))) None in
  Ret (Answered (default implicitResponse written)).

Definition routerStep (hasAdmissions : bool) (R : Type) (c : routerCall R) : service R :=
  match c in routerCall R return service R with
  | RunHandler (serveControl_ kind) operation values entry (Some body) => runControl hasAdmissions kind operation values body
  | c => invoke (InRouter _ c)
  end.

(** The ClientLink's edge over the admission service. *)
Definition rpcStep (R : Type) (c : rpcCall R) : service R :=
  match c in rpcCall R return service R with
  | AdmitterAdmit p request => lift InAdmission (Admit cfg p request)
  | c => invoke (InRPC _ c)
  end.

Definition serveRPC (limits : Limits) (p : Principal) (method : string) (data : bytes) : service (result bytes) :=
  interp rpcStep (RPC_Admit limits p method data).
End Path.

Section Serve.
Context `{Sha256} `{InboxLimits} `{CoreCommands} `{CoreJSON} `{CoreIdentifiers} `{NetURL} `{HMAC}.
Context (ObjectReference_Validate : string -> option error) (ParseMediaType : string -> option (string * gmap string string)).

(** A request of the HTTP edge, from its arrival to its answer. *)
Definition serveHTTP (cfg : Config) (hasAdmissions : bool) (rt : Router) (rq : Request) : service reply :=
  interp (routerStep cfg hasAdmissions) (ServeHTTP envelope ObjectReference_Validate ParseMediaType rt rq).
End Serve.

(** ** Reading a composed run *)
Definition router_part (t : list (event serviceCall)) : list (event routerCall) :=
  omap (fun e => match e with Ev R c r =>
    match c in serviceCall R return R -> option (event routerCall) with InRouter R c => fun r => Some (Ev R c r) | _ => fun _ => None end r end) t.

Definition admission_part (t : list (event serviceCall)) : list (event admissionCall) :=
  omap (fun e => match e with Ev R c r =>
    match c in serviceCall R return R -> option (event admissionCall) with InAdmission R c => fun r => Some (Ev R c r) | _ => fun _ => None end r end) t.

(** The wakes a run scheduled. *)
Definition wakes (t : list (event serviceCall)) : list (TenantID * SessionID * CommandID) :=
  omap (fun e => match e with Ev _ (InControl _ (ScheduleWake t s c)) _ => Some (t, s, c) | _ => None end) t.

(** What the store admitted in a run. *)
Definition admissions (t : list (event serviceCall)) : list (DispositionInboxEntry * bool) := omap stored (admission_part t).

Lemma lifted_router t : router_part (lift_event InRouter <$> t) = t.
Proof. induction t as [|[R c r] t IH]; [done|]. exact (f_equal (cons _) IH). Qed.

Lemma lifted_admission t : admission_part (lift_event InAdmission <$> t) = t.
Proof. induction t as [|[R c r] t IH]; [done|]. exact (f_equal (cons _) IH). Qed.

Lemma router_no_admission t : admission_part (lift_event InRouter <$> t) = [] /\ wakes (lift_event InRouter <$> t) = [].
Proof. induction t as [|[R c r] t IH]; [done|]. exact IH. Qed.

Lemma admission_no_router t : router_part (lift_event InAdmission <$> t) = [] /\ wakes (lift_event InAdmission <$> t) = [].
Proof. induction t as [|[R c r] t IH]; [done|]. exact IH. Qed.

Lemma parts_app t u :
  router_part (t ++ u) = (router_part t ++ router_part u)%list /\ admission_part (t ++ u) = (admission_part t ++ admission_part u)%list
  /\ wakes (t ++ u) = (wakes t ++ wakes u)%list.
Proof. unfold router_part, admission_part, wakes. by rewrite !omap_app. Qed.

Section Decomposition.
Context `{Sha256} `{InboxLimits} `{CoreCommands} `{CoreJSON}.
Context (cfg : Config).

Definition control_reply (entry : DispositionInboxEntry) : option bytes :=
  match StatusForDisposition entry with
  | None => None
  | Some status => match marshalStatus status with Ok payload => Some payload | Fail _ => None end
  end.

Definition wake_target (kind : CommandKind) (sid : SessionID) (entry : DispositionInboxEntry) : SessionID :=
  let created := desc_SessionID (inbox_Descriptor entry) in
  if bool_decide (kind = KindCreateSession) && negb (bool_decide (created = "")) then created else sid.

(** What a control handler made of a body it decoded: the calls of the entry
    point, then the answer, and a wake after it when it is a success. *)
Definition admitting (kind : CommandKind) (p : Principal) (sid : SessionID) (success : Z) (request : command_request)
    (answer : result (DispositionInboxEntry * bool)) (adm : list (event admissionCall)) (r : Response) (seg : list (event serviceCall)) : Prop :=
  safe_trace cfg p (request_session request) (request_command request) (request_kind request) adm
  /\ (forall past e later, adm = (past ++ e :: later)%list -> stores cfg p request past e)
  /\ accounts cfg answer adm
  /\ match answer with
     | Fail err => seg = lift_event InAdmission <$> adm /\ r = writeAPIError envelope ∅ (admissionFailure err)
     | Ok (entry, _) =>
         match control_reply entry with
         | None => seg = lift_event InAdmission <$> adm /\ r = writeAPIError envelope ∅ internalFailure
         | Some payload => r = writeJSONBytes ∅ success payload /\ exists woken,
             seg = ((lift_event InAdmission <$> adm) ++ [Ev _ (InControl _ (ScheduleWake (tenant p) (wake_target kind sid entry)
                      (desc_CommandID (inbox_Descriptor entry)))) woken])%list
         end
     end.

Definition control_segment (kind : CommandKind) (op : OperationContext) (values : list (string * string)) (body : bytes)
    (h : handled) (seg : list (event serviceCall)) : Prop :=
  exists r, h = Answered r
  /\ ((exists f, seg = [] /\ r = writeAPIError envelope ∅ f /\ public f = true)
      \/ exists success decode request answer adm,
           controlSpecs kind = Some (success, decode) /\ decode (PathValue values "sid") (PathValue values "gid") body = Ok request
           /\ admitting kind (op_Principal op) (PathValue values "sid") success request answer adm r seg).

Lemma Admit_known p request :
  wp (lift InAdmission (Admit cfg p request)) (fun a t => exists u, t = lift_event InAdmission <$> u
    /\ safe_trace cfg p (request_session request) (request_command request) (request_kind request) u
    /\ (forall past e later, u = (past ++ e :: later)%list -> stores cfg p request past e) /\ accounts cfg a u).
Proof.
  apply lift_wp, wp_and; [apply Admit_safe|]. apply wp_and; [|apply Admit_accounts].
  eapply wp_mono; [|apply obeys_wp, (Admit_stores cfg p request [])]. done.
Qed.

Lemma runControl_segment hasAdmissions kind op values body :
  wp (runControl cfg hasAdmissions kind op values body) (control_segment kind op values body).
Proof.
  unfold runControl, serveControl.
  assert (Hf : forall f, public f = true -> control_segment kind op values body (Answered (writeAPIError envelope ∅ f)) [])
    by (intros f Hf; eexists; split; [done|]; left; by exists f).
  destruct (controlSpecs kind) as [[success decode]|] eqn:Hk; [|by apply Hf]. simpl ctl_operation. cbv iota.
  destruct hasAdmissions; [|by apply Hf]. simpl. destruct (decode _ _ body) as [request|err] eqn:Hd; [|apply Hf, admissionFailure_public].
  simpl. eapply (wp_seq _ _ (fun w seg => exists answer u r, w = Some r
    /\ admitting kind (op_Principal op) (PathValue values "sid") success request answer u r seg)).
  - eapply wp_seq; [apply Admit_known|]. intros answer t (u & -> & Hsafe & Hst0 & Hacc). unfold admitting, control_reply.
    destruct answer as [[entry created]|err]; [|by exists (Fail err), u; eexists; rewrite app_nil_r].
    simpl ad_status. destruct (StatusForDisposition entry) as [status|] eqn:Hst;
      [|by exists (Ok (entry, created)), u; eexists; rewrite app_nil_r, Hst].
    destruct (marshalStatus status) as [payload|err] eqn:Hp; [|by exists (Ok (entry, created)), u; eexists; rewrite app_nil_r, Hst, Hp].
    intros woken. exists (Ok (entry, created)), u. eexists. rewrite Hst, Hp. split_and!; try done. exists woken. do 3 f_equal.
    unfold wake_target, dispositionAdmitted. simpl. by destruct (bool_decide (kind = KindCreateSession)).
  - intros w t (answer & u & r & -> & Ha). apply wp_ret. rewrite app_nil_r. exists r. split; [done|]. right.
    by exists success, decode, request, answer, u.
Qed.
End Decomposition.

(** ** What a handler wrote is what is sent *)
Definition sent_as (r : Response) (s : served) : Prop :=
  exists header, s = Wrote (MkResponse (resp_status r) (resp_header r ∪ header) (resp_body r)).

(** A run that ends in a handler's answer. *)
Definition answer_of (e : event routerCall) : option Response :=
  match e with Ev _ (RunHandler _ _ _ _ _) (Answered r) => Some r | _ => None end.

Definition ends_in_answer (t : list (event routerCall)) (r : Response) : Prop := exists pre e, t = (pre ++ [e])%list /\ answer_of e = Some r.

Definition relays (p : router served) : Prop := wp p (fun s t => forall r, ends_in_answer t r -> sent_as r s).

Lemma relays_ret s : relays (Ret s).
Proof. intros r (pre & e & Heq & _). by destruct pre. Qed.

Lemma relays_call {R} (c : routerCall R) k : (forall a, answer_of (Ev R c a) = None) -> (forall a, relays (k a)) -> relays (Call _ c k).
Proof.
  intros Hc Hk a. eapply wp_mono; [|apply Hk]. simpl. intros s t Ht r (pre & e & Heq & He).
  destruct pre as [|e' pre]; simpl in Heq; [apply (f_equal head) in Heq; injection Heq as Heq; by rewrite <- Heq, Hc in He|].
  apply (f_equal (@List.tl _)) in Heq. simpl in Heq. subst t. apply Ht. by exists pre, e.
Qed.

Lemma relays_bind {A} (p : router A) k : only (fun e => answer_of e = None) p -> (forall a, relays (k a)) -> relays (bind p k).
Proof.
  intros Hp Hk. eapply wp_seq; [exact Hp|]. intros a t Ht. eapply wp_mono; [|apply Hk]. simpl.
  intros s u Hu r (pre & e & Heq & He). apply Hu. destruct u as [|x u _] using rev_ind.
  - rewrite app_nil_r in Heq. subst. apply Forall_app in Ht as [_ Ht]. apply Forall_inv in Ht. congruence.
  - rewrite app_assoc in Heq. apply app_inj_tail in Heq as [_ ->]. by exists u, e.
Qed.

Lemma relays_run header (c : routerCall handled) :
  (forall a r, answer_of (Ev _ c a) = Some r -> a = Answered r) -> relays (handler_runs header c).
Proof.
  intros Hc a r (pre & e & Heq & He). destruct pre as [|? [|]]; [|done..].
  apply (f_equal head) in Heq. injection Heq as Heq. rewrite <- Heq in He. apply Hc in He as ->. by exists header.
Qed.

Ltac walk_relays :=
  repeat match goal with
  | |- relays (Ret _) => apply relays_ret
  | |- relays (handler_runs _ _) => apply relays_run; intros [?|? ?] ? ?; by simplify_eq/=
  | |- relays (Call _ _ _) => apply relays_call; [done|intros ?]
  | |- relays (match _ with _ => _ end) => case_match
  | |- relays (let _ := _ in _) => cbv zeta
  | |- relays (bind (authenticating _) _) => apply relays_bind; [|intros ?]
  end.

Lemma authenticating_only {A} (p : prog authCall A) : only (fun e => answer_of e = None) (authenticating p).
Proof. induction p as [a|R c k IH]; [apply only_ret|]. apply only_call; [done|]. intros [r|]; [apply IH|apply only_ret]. Qed.

Lemma routed_relays `{CoreIdentifiers} `{NetURL} `{HMAC} env ov pm rt rq : relays (routed env ov pm rt rq).
Proof.
  unfold routed, choose, own, protectedUI, dispatch, authenticated, guarded_by, mux, serveRoute, authorize, readBoundedJSONBody,
    resolveSession, runRule, ask, fails. walk_relays; apply authenticating_only.
Qed.

Definition reply_sends (r : Response) (answer : reply) : Prop :=
  exists header, answer = Reply (MkResponse (resp_status r) (resp_header r ∪ header) (resp_body r)).

Lemma ServeHTTP_relays `{CoreIdentifiers} `{NetURL} `{HMAC} env ov pm rt rq :
  wp (ServeHTTP env ov pm rt rq) (fun answer t => forall r, ends_in_answer t r -> reply_sends r answer).
Proof.
  eapply wp_seq; [apply routed_relays|]. intros s t Hs. apply wp_ret. rewrite app_nil_r. intros r Hr.
  destruct (Hs r Hr) as [header ->]. by exists header.
Qed.

(** ** The decomposition of a run *)
Section Runs.
Context `{Sha256} `{InboxLimits} `{CoreCommands} `{CoreJSON} `{CoreIdentifiers} `{NetURL} `{HMAC}.
Context (ObjectReference_Validate : string -> option error) (ParseMediaType : string -> option (string * gmap string string)).
Context (cfg : Config) (hasAdmissions : bool) (rt : Router) (rq : Request).

Abbreviation allowed := (licensed ParseMediaType ObjectReference_Validate rt rq).

(** Either the run is the router's own, or its last call was a control handler,
    licensed, and the run ends with that handler's own calls. *)
Definition path_sim (past : list (event routerCall)) (past' : list (event serviceCall)) : Prop :=
  past' = lift_event InRouter <$> past
  \/ exists pre kind op values entry body h seg,
       past = (pre ++ [Ev _ (RunHandler (serveControl_ kind) op values entry (Some body)) h])%list
       /\ allowed pre (Ev _ (RunHandler (serveControl_ kind) op values entry (Some body)) h)
       /\ past' = ((lift_event InRouter <$> pre) ++ seg)%list /\ control_segment cfg kind op values body h seg.

Lemma pass_through past R (c : routerCall R) :
  wp (invoke (InRouter R c)) (fun r t => path_sim (past ++ [Ev R c r]) ((lift_event InRouter <$> past) ++ t)%list).
Proof. intros r. left. by rewrite fmap_app. Qed.

Lemma routerStep_sim past past' R (c : routerCall R) :
  path_sim past past' -> (forall r, allowed past (Ev R c r)) ->
  wp (routerStep cfg hasAdmissions R c) (fun r t => path_sim (past ++ [Ev R c r]) (past' ++ t)).
Proof.
  intros [->|Hrun] Hc.
  - destruct c as [| | | | | | | | | |h op values entry body| | |]; try apply pass_through.
    destruct h as [| | | | | | | |kind| |]; try apply pass_through. destruct body as [body|]; [|apply pass_through].
    eapply wp_mono; [|apply runControl_segment]. simpl. intros a t Ha. right. exists past, kind, op, values, entry, body, a, t.
    by split_and!.
  - destruct Hrun as (pre & kind & op & values & entry & body & a & seg & -> & _).
    assert (Hq : forall r, Forall (fun e => runs e = false) (pre ++ [Ev _ (RunHandler (serveControl_ kind) op values entry (Some body)) a])%list)
      by (intros r; apply (Hc r)).
    assert (Hn : R -> False). { intros r. specialize (Hq r). apply Forall_app in Hq as [_ Hq]. by apply Forall_inv in Hq. }
    clear -Hn. induction (routerStep cfg hasAdmissions R c) as [r|R' c' k IH]; [by destruct (Hn r)|]. intros r'. simpl.
    eapply wp_mono; [|apply (IH r')]. simpl. intros r t. by destruct (Hn r).
Qed.

Lemma path_decomposed :
  wp (serveHTTP ObjectReference_Validate ParseMediaType cfg hasAdmissions rt rq) (fun answer t' => exists t,
    (forall r, ends_in_answer t r -> reply_sends r answer) /\ path_sim t t').
Proof.
  eapply (wp_mono _ (fun answer t' => exists t, (forall r, ends_in_answer t r -> reply_sends r answer) /\ path_sim ([] ++ t) ([] ++ t')));
    [done|].
  unfold serveHTTP. apply (wp_interp _ path_sim allowed).
  - intros past past' R c. apply routerStep_sim.
  - by left.
  - apply ServeHTTP_obeys.
  - apply ServeHTTP_relays.
Qed.
End Runs.

(** ** What a write has behind it *)
Lemma guarded_before {E} (g w : event E -> bool) t : forall pre e post,
  guarded g w t -> t = (pre ++ e :: post)%list -> w e = true -> g e = false -> existsb g pre = true.
Proof.
  induction t as [|x t IH]; intros pre e post Hg Heq Hw Hn; [by destruct pre|].
  destruct pre as [|y pre]; injection Heq as -> Heq; simpl in *; [rewrite Hn in Hg; by destruct Hg; congruence|].
  destruct (g y); [done|]. simpl. destruct Hg as [_ Hg]. by eapply IH.
Qed.

Lemma write_no_grant p s k e : is_write e = true -> grants p s k e = false.
Proof. destruct e as [R c a]. by destruct c. Qed.

(** A split of a composed run at an event that is not the router's. *)
Lemma split_after_router pre0 seg pre (e : event serviceCall) post :
  ((lift_event InRouter <$> pre0) ++ seg = pre ++ e :: post)%list -> router_part [e] = [] ->
  exists k, router_part pre = (pre0 ++ k)%list.
Proof.
  intros Heq He. apply app_eq_inv in Heq as [(k & Hl & Hr)|(k & -> & _)].
  - destruct k as [|x k].
    + rewrite app_nil_r in Hl. exists []. rewrite <- Hl, app_nil_r. apply lifted_router.
    + injection Hr as <- _. assert (Hin : e ∈ lift_event InRouter <$> pre0) by (rewrite Hl; set_solver).
      apply list_elem_of_fmap in Hin as ([R c a] & -> & _). done.
  - exists (router_part k). by rewrite (proj1 (parts_app _ _)), lifted_router.
Qed.

(** The paths of the controls, as the API documents them: the kind a path is for,
    the session it names and the gate. *)
Definition on_path (rq : Request) (kind : CommandKind) (sid : SessionID) (gid : string) : Prop :=
  let path := pathSegments (rq_EscapedPath rq) in
  match kind with
  | KindCreateSession => path = ["v1"; "sessions"] /\ sid = "" /\ gid = ""
  | KindInput => path = ["v1"; "sessions"; sid; "input"] /\ gid = ""
  | KindInterrupt => path = ["v1"; "sessions"; sid; "interrupt"] /\ gid = ""
  | KindRestore => path = ["v1"; "sessions"; sid; "restore"] /\ gid = ""
  | KindGateResponse => path = ["v1"; "sessions"; sid; "gates"; gid]
  | KindOther _ => False
  end.

(** A path is for one kind, one session and one gate. *)
Lemma on_path_unique rq kind kind' sid sid' gid gid' :
  on_path rq kind sid gid -> on_path rq kind' sid' gid' -> kind = kind' /\ sid = sid' /\ gid = gid'.
Proof. unfold on_path. intros H1 H2. destruct kind, kind'; try done; naive_solver congruence. Qed.

Lemma matched_path p path values :
  matchSegments p path = Some values ->
  Forall2 (fun s x => match s with Lit text => x = text | Wild name => x <> "" end) p path
  /\ values = omap (fun sx => match sx.1 with Wild name => Some (name, sx.2) | Lit _ => None end) (zip p path).
Proof.
  revert path values. induction p as [|s p IH]; intros [|x path] values Hm; [by simplify_eq/=|done|by destruct s|].
  destruct s as [text|name]; simpl in Hm; case_bool_decide; try done.
  - destruct (IH _ _ Hm) as [Hf ->]. split; [by constructor|done].
  - apply fmap_Some in Hm as (rest & Hm & ->). destruct (IH _ _ Hm) as [Hf ->]. split; [by constructor|done].
Qed.

Lemma control_route rq r rule kind values :
  r ∈ routeTable -> matchRoute r (pathSegments (rq_EscapedPath rq)) = Some values ->
  ruleFor r (rq_Method rq) = Some rule -> rule_handle rule = Some (serveControl_ kind) ->
  on_path rq kind (PathValue values "sid") (PathValue values "gid").
Proof.
  intros Hr Hm Hrule Hh. apply matched_path in Hm as [Hf ->]. unfold on_path. cbv zeta. revert Hf.
  generalize (pathSegments (rq_EscapedPath rq)). intros path Hf. unfold ruleFor in Hrule. apply List.find_some in Hrule as [Hin _].
  unfold routeTable in Hr. repeat (apply elem_of_cons in Hr as [->|Hr]); [..|by apply elem_of_nil in Hr].
  all: simpl in Hin; repeat destruct Hin as [<-|Hin]; try done; simpl in Hh; simplify_eq; cbv [pattern patternSegments] in Hf |- *.
  all: match goal with |- context [parseSegment <$> ?l] => let x := eval vm_compute in (parseSegment <$> l) in change (parseSegment <$> l) with x in * end.
  all: repeat match goal with Hf : Forall2 _ (_ :: _) _ |- _ => inversion Hf; clear Hf; subst | Hf : Forall2 _ [] _ |- _ => inversion Hf; clear Hf; subst end.
  all: done.
Qed.

Section Earned.
Context `{Sha256} `{InboxLimits} `{CoreCommands} `{CoreJSON} `{CoreIdentifiers} `{NetURL} `{HMAC}.
Context (cfg : Config) (rt : Router) (rq : Request).

(** Everything a write of the store has behind it, in the calls made before. *)
Definition earned (past : list (event serviceCall)) (w : event admissionCall) : Prop :=
  rt_quiesced rt = false /\ rq_Method rq = MethodPost
  /\ exists op kind sid gid body request success decode,
       on_path rq kind sid gid
       /\ caller rt rq (router_part past) op
       /\ Ev _ (AskControl (op_Principal op) sid kind) (Some None) ∈ router_part past
       /\ Ev _ ReadRequestBody (Some (body, None)) ∈ router_part past /\ 0 < len body <= bodyLimit rt kind
       /\ controlSpecs kind = Some (success, decode) /\ decode sid gid body = Ok request
       /\ request_kind request = kind /\ gateNamed request gid = true
       /\ (kind <> KindCreateSession -> request_session request = sid
             /\ exists found, Ev _ (GetEntry (tenant (op_Principal op)) sid) (Some (Ok found)) ∈ router_part past)
       /\ existsb (grants (op_Principal op) (request_session request) kind) (admission_part past) = true
       /\ own_write cfg (tenant (op_Principal op)) (request_session request) (request_command request) kind w
       /\ stores cfg (op_Principal op) request (admission_part past) w.

Definition admission_event (e : event serviceCall) : option (event admissionCall) := head (admission_part [e]).
End Earned.

Lemma admission_event_parts e w : admission_event e = Some w -> admission_part [e] = [w] /\ router_part [e] = [].
Proof. destruct e as [R c a]. destruct c; try done. unfold admission_event. simpl. by intros [= <-]. Qed.

Lemma segment_admissions `{Sha256} `{InboxLimits} `{CoreCommands} `{CoreJSON} cfg kind p sid success request answer adm r seg :
  admitting cfg kind p sid success request answer adm r seg -> admission_part seg = adm.
Proof.
  intros (_ & _ & _ & Ha). destruct answer as [[entry created]|err]; [destruct (control_reply entry)|].
  - destruct Ha as (_ & woken & ->). rewrite (proj1 (proj2 (parts_app _ _))), lifted_admission. apply app_nil_r.
  - destruct Ha as [-> _]. apply lifted_admission.
  - destruct Ha as [-> _]. apply lifted_admission.
Qed.

(** C3: Nothing reaches the store but through every check. Whatever the
    environment answers, in the whole path of an HTTP request, a payload is
    uploaded, a session reserved or a command admitted only after, in the same
    run: the router was not fenced; the credential the request presents was
    verified for the principal and the guard passed it; the authorizer granted
    that principal, on the session the path names, the kind of command the path
    is for; the body was read whole within the kind's limit; the session's
    record was found under the principal's tenant; and the admission service's
    own authorization was granted for the same principal, kind and session. The
    write is then of exactly the request that body decodes to, which names the
    session and the gate of the path: the bytes stored, inline or as the object
    the store made of them, are the encoding of that request with the caller's
    own principal put in and nothing else changed; the identity a create
    reserves is made of the digest and size of those bytes and of the target its
    agent resolved to; and the principal and metadata stored beside them are the
    caller's. *)
Theorem http_writes_are_earned `{Sha256} `{InboxLimits} `{CoreCommands} `{CoreJSON} `{CoreIdentifiers} `{NetURL} `{HMAC}
    (ObjectReference_Validate : string -> option error) (ParseMediaType : string -> option (string * gmap string string))
    (cfg : Config) (hasAdmissions : bool) (rt : Router) (rq : Request) :
  wp (serveHTTP ObjectReference_Validate ParseMediaType cfg hasAdmissions rt rq) (fun _ t =>
    forall pre e post w, t = (pre ++ e :: post)%list -> admission_event e = Some w -> is_write w = true -> earned cfg rt rq pre w).
Proof.
  eapply wp_mono; [|apply path_decomposed]. simpl. intros _ t' (t & _ & Hsim) pre e post w Heq Hw Hwrite.
  destruct (admission_event_parts e w Hw) as [Hadm Hrt].
  assert (Hmid : admission_part t' = (admission_part pre ++ w :: admission_part post)%list).
  { subst t'. rewrite (proj1 (proj2 (parts_app pre _))). f_equal. change (e :: post) with ([e] ++ post)%list.
    by rewrite (proj1 (proj2 (parts_app [e] post))), Hadm. }
  destruct Hsim as [->|(pre0 & kind & op & values & entry & body & h & seg & _ & Hlic & -> & r & -> & Hseg)].
  { rewrite (proj1 (router_no_admission t)) in Hmid. by destruct (admission_part pre). }
  rewrite (proj1 (proj2 (parts_app _ _))), (proj1 (router_no_admission pre0)), app_nil_l in Hmid.
  destruct Hseg as [(f & -> & _)|(success & decode & request & answer & adm & Hk & Hd & Hadmits)]; [by destruct (admission_part pre)|].
  rewrite (segment_admissions _ _ _ _ _ _ _ _ _ _ Hadmits) in Hmid. destruct Hadmits as ((Hg & Hown) & Hstores & _ & _).
  destruct (split_after_router _ _ _ _ _ Heq Hrt) as [k Hpast]. destruct (licensed_decides _ _ _ _ _ _ _ _ _ _ _ Hlic) as (Hdec & Hses & Hbody).
  destruct (Hbody kind eq_refl) as (Hpost & b & [= <-] & Hlen & Hread). destruct Hlic as (_ & Hq & _ & _ & Hcaller & rt' & rule & Hrt' & Hm' & Hrule & Hh & _).
  pose proof (control_route _ _ _ _ _ Hrt' Hm' Hrule Hh) as Hpath.
  destruct (control_decodes _ _ _ _ _ _ _ Hk Hd) as (_ & (method & rpc & Hm & Hr) & Hsid & Hgid).
  pose proof (commandSpecs_kind _ _ _ _ _ Hm Hr) as Hkind. rewrite Hkind in *.
  assert (Hmono : pre0 ⊆ router_part pre) by (rewrite Hpast; apply past_mono).
  split_and!; [done..|]. exists op, kind, (PathValue values "sid"), (PathValue values "gid"), body, request, success, decode. split_and!; try done.
  - by eapply caller_mono.
  - apply Hmono. simpl in Hdec. case_bool_decide as Hcreate; [|exact Hdec]. rewrite Hcreate in Hpath.
    assert (PathValue values "sid" = "") as -> by apply Hpath. exact Hdec.
  - by apply Hmono.
  - lia.
  - lia.
  - intros Hne. rewrite (Hsid Hne). split; [done|]. simpl in Hses. rewrite bool_decide_false in Hses by done.
    destruct (Hses eq_refl) as (found & _ & Hf). exists found. by apply Hmono.
  - eapply guarded_before; [exact Hg|exact Hmid|done|]. by apply write_no_grant.
  - rewrite Hmid in Hown. apply Forall_app in Hown as [_ Hown]. by apply Forall_inv in Hown.
  - by eapply Hstores.
Qed.

(** ** What the caller is told *)
Definition success_status (kind : CommandKind) : Z :=
  match kind with KindCreateSession => 201 | KindGateResponse => 202 | _ => 200 end.

Definition status_of (answer : reply) : Z := match answer with Reply r => resp_status r | _ => 0 end.

(** A success: the path's own status, the status of the entry stored as the
    body, and its wake as the last call: under the caller's tenant, for the
    session the path names, or the one the store created where the path is for a
    create, and for the command stored. *)
Definition answered_success `{CoreJSON} `{CoreIdentifiers} `{NetURL} `{HMAC} (rt : Router) (rq : Request)
    (answer : reply) (t : list (event serviceCall)) (entry : DispositionInboxEntry) : Prop :=
  exists op kind sid gid r payload,
    let wake := ScheduleWake (tenant (op_Principal op)) (wake_target kind sid entry) (desc_CommandID (inbox_Descriptor entry)) in
    on_path rq kind sid gid /\ caller rt rq (router_part t) op
    /\ answer = Reply r /\ resp_status r = success_status kind
    /\ control_reply entry = Some payload /\ resp_body r = payload
    /\ length (wakes t) = 1%nat /\ exists init woken, t = (init ++ [Ev _ (InControl _ wake) woken])%list.

Lemma controlSpecs_status `{CoreJSON} kind success decode : controlSpecs kind = Some (success, decode) -> success = success_status kind.
Proof. by destruct kind; intros [= <- _]. Qed.

Lemma writeAPIError_failure env header f : public f = true -> 400 <= resp_status (writeAPIError env header f).
Proof.
  unfold public, writeAPIError. intros Hp. rewrite !andb_true_iff in Hp. destruct Hp as [[_ Hp] _]. apply Z.leb_le in Hp.
  by destruct (env _ _).
Qed.

Lemma writeAPIError_internal env header : resp_status (writeAPIError env header internalFailure) = StatusInternalServerError.
Proof. unfold writeAPIError. by destruct (env _ _). Qed.

(** C7: The answer is the truth about the store. In the whole path of an HTTP
    request at most one command is admitted. If none was, nothing is woken, and
    a request that reached the admission service is answered a failure; if one
    was, either the answer is the success of the kind its path is for, whose
    body is the status of the entry stored, and the last call, and the only one
    of its kind, wakes the session the path names (the session the store
    created, where the path is for a create) for that very command under the
    caller's tenant; or that status could not be told and the answer is an
    internal error. *)
Theorem http_answers_what_was_stored `{Sha256} `{InboxLimits} `{CoreCommands} `{CoreJSON} `{CoreIdentifiers} `{NetURL} `{HMAC}
    (ObjectReference_Validate : string -> option error) (ParseMediaType : string -> option (string * gmap string string))
    (cfg : Config) (hasAdmissions : bool) (rt : Router) (rq : Request) :
  wp (serveHTTP ObjectReference_Validate ParseMediaType cfg hasAdmissions rt rq) (fun answer t =>
    match admissions t with
    | [] => wakes t = [] /\ (admission_part t <> [] -> 400 <= status_of answer)
    | [(entry, _)] =>
        answered_success rt rq answer t entry
        \/ control_reply entry = None /\ wakes t = [] /\ status_of answer = StatusInternalServerError
    | _ => False
    end).
Proof.
  eapply wp_mono; [|apply path_decomposed]. simpl. intros answer t' (t & Hreply & Hsim). unfold admissions.
  destruct Hsim as [->|(pre0 & kind & op & values & entry & body & h & seg & -> & Hlic & -> & r & -> & Hseg)].
  { destruct (router_no_admission t) as [-> ->]. by split. }
  destruct (Hreply r) as [header ->]; [by eexists _, _|]. clear Hreply. simpl status_of.
  destruct (parts_app (lift_event InRouter <$> pre0) seg) as (_ & -> & ->).
  destruct (router_no_admission pre0) as [-> ->]. rewrite !app_nil_l.
  destruct Hseg as [(f & -> & -> & Hf)|(success & decode & request & a & adm & Hk & Hd & Hadmits)];
    [simpl; split; [done|by intros ?]|].
  rewrite (segment_admissions _ _ _ _ _ _ _ _ _ _ Hadmits). destruct Hadmits as (_ & _ & Hacc & Hans). destruct a as [[stored_entry created]|err].
  - destruct Hacc as (fresh & -> & _). destruct (control_reply stored_entry) as [payload|] eqn:Hp.
    + left. destruct Hans as (-> & woken & Hseg). destruct Hlic as (_ & _ & _ & _ & Hcaller & rt' & rule & Hrt' & Hm' & Hrule & Hh & _).
      eexists op, kind, (PathValue values "sid"), (PathValue values "gid"), _, payload. cbv zeta.
      split_and!; [by eapply control_route| |done|by eapply controlSpecs_status|done..| |].
      * eapply caller_mono; [|exact Hcaller]. rewrite (proj1 (parts_app _ _)), lifted_router. apply past_mono.
      * rewrite (proj2 (proj2 (parts_app _ seg))), (proj2 (router_no_admission pre0)). subst seg.
        by rewrite (proj2 (proj2 (parts_app _ [_]))), (proj2 (admission_no_router adm)).
      * subst seg. eexists _, woken. by rewrite app_assoc.
    + right. destruct Hans as [-> ->]. rewrite (proj2 (admission_no_router adm)). split_and!; [done..|]. apply writeAPIError_internal.
  - destruct Hacc as [-> _]. destruct Hans as [-> ->]. rewrite (proj2 (admission_no_router adm)). split; [done|]. intros _.
    apply writeAPIError_failure, admissionFailure_public.
Qed.

(** ** The two edges, one admission *)
Lemma commandSpecs_decoder `{CoreJSON} m1 m2 kind d1 d2 : commandSpecs m1 = Some (kind, d1) -> commandSpecs m2 = Some (kind, d2) -> d1 = d2.
Proof. unfold commandSpecs. intros H1 H2. repeat case_bool_decide; by simplify_eq. Qed.

(** The admission a request gets in an environment. *)
Definition admitted_in {W} `{Sha256} `{InboxLimits} `{CoreCommands} (env : handler serviceCall W) (cfg : Config) (p : Principal)
    (request : command_request) (w : W) : result (DispositionInboxEntry * bool) * list (event admissionCall) * W :=
  run (fun R c => env R (InAdmission R c)) (Admit cfg p request) w.

(** C10: Both edges are one service. In any environment and state, a body the
    HTTP route of a kind decodes and the same bytes sent by the ClientLink
    method of that kind, when its edge grants it, make exactly the calls of the
    one entry point and leave the store alike; the HTTP edge only adds the wake,
    after a success. A success is answered with the same bytes by both, a
    classified refusal too, and what is neither is an error to both. *)
Theorem edges_admit_alike `{Sha256} `{InboxLimits} `{CoreCommands} `{CoreJSON} {W} (env : handler serviceCall W) (w : W)
    (cfg : Config) (limits : Limits) (kind : CommandKind) (method : string) (rpc : bytes -> result command_request) (success : Z)
    (decode : SessionID -> string -> bytes -> result command_request) (op : OperationContext) (values : list (string * string))
    (body : bytes) (request : command_request) :
  commandSpecs method = Some (kind, rpc) -> controlSpecs kind = Some (success, decode) ->
  decode (PathValue values "sid") (PathValue values "gid") body = Ok request -> len body <= rpcLimit limits method ->
  env _ (InRPC _ (EdgeAuthorizeControl (op_Principal op) (request_session request) kind)) w = (None, w) ->
  let '(answer, adm, after) := admitted_in env cfg (op_Principal op) request w in
  let '(http, t, after_http) := run env (runControl cfg true kind op values body) w in
  let '(reply, u, after_rpc) := run env (serveRPC cfg limits (op_Principal op) method body) w in
  admission_part t = adm /\ admission_part u = adm /\ after_rpc = after
  /\ match answer with
     | Ok (entry, _) =>
         match control_reply entry with
         | Some payload => http = Answered (writeJSONBytes ∅ success payload) /\ reply = Ok payload /\ length (wakes t) = 1%nat
         | None => http = Answered (writeAPIError envelope ∅ internalFailure) /\ reply = Fail (wrapf [ErrUnreadableRecord]) /\ after_http = after
         end
     | Fail err =>
         http = Answered (writeAPIError envelope ∅ (admissionFailure err)) /\ after_http = after
         /\ reply = match errors_code "admission.Error" err with Some code => refusalBody code | None => Fail err end
     end.
Proof.
  intros Hm Hk Hd Hl Hedge. destruct (control_decodes _ _ _ _ _ _ _ Hk Hd) as (_ & (m' & rpc' & Hm' & Hr) & _).
  rewrite (commandSpecs_decoder _ _ _ _ _ Hm' Hm) in Hr. unfold admitted_in.
  destruct (run _ (Admit cfg (op_Principal op) request) w) as [[answer adm] after] eqn:Hrun.
  unfold serveRPC, RPC_Admit. rewrite Hm. rewrite (proj2 (Z.ltb_ge _ _) Hl), Hr.
  cbn [interp rpcStep]. rewrite (run_bind env (invoke _)). cbn [run invoke]. rewrite Hedge. cbn [interp rpcStep].
  rewrite (run_bind env (lift InAdmission _)), lift_run, Hrun.
  unfold runControl, serveControl. rewrite Hk. cbn [ctl_operation negb serving ctl_sid ctl_gid]. cbv iota. rewrite Hd. cbn [serving].
  rewrite !run_bind, lift_run, Hrun.
  assert (Hend : admission_part ((lift_event InAdmission <$> adm) ++ []) = adm) by by rewrite app_nil_r, lifted_admission.
  assert (Hhttp : admission_part (((lift_event InAdmission <$> adm) ++ []) ++ []) = adm) by by rewrite app_nil_r.
  assert (Hwake : forall t s c woken, let tr := (((lift_event InAdmission <$> adm) ++ [Ev _ (InControl _ (ScheduleWake t s c)) woken]) ++ [])%list in
    admission_part tr = adm /\ length (wakes tr) = 1%nat).
  { intros t s c woken. cbv zeta. rewrite app_nil_r. destruct (parts_app (lift_event InAdmission <$> adm) [Ev _ (InControl _ (ScheduleWake t s c)) woken])
      as (_ & -> & ->). by rewrite (proj2 (admission_no_router adm)), lifted_admission, app_nil_r. }
  unfold control_reply, replyFor. destruct answer as [[entry created]|err].
  - simpl ad_status. destruct (StatusForDisposition entry) as [status|]; [|simpl; split_and!; auto].
    destruct (marshalStatus status) as [payload|err]; [|simpl; split_and!; auto].
    cbn [serving run interp]. destruct (env _ _ after) as [woken after'].
    simpl. split_and!; auto; apply Hwake.
  - simpl. destruct (errors_code "admission.Error" err); split_and!; auto.
Qed.

(** ** A command through both edges *)
Definition demo_service_environment : handler serviceCall Z := fun R c =>
  match c in serviceCall R return Z -> R * Z with
  | InRouter R c => fun w =>
      (match c in routerCall R return R with ReadRequestBody => Some ("s", None) | c => (demo_environment _ c tt).1 end, w)
  | InControl R c => fun w =>
      (match c in controlCall R return R with
       | ReadBody => Fail (wrapf []) | ControlAdmit _ _ => Fail (wrapf []) | WriteResponse _ => tt | ScheduleWake _ _ _ => true
       | ReadCommand _ _ _ => Fail (wrapf []) | AskAuditRead _ _ => None
       end, w)
  | InRPC R c => fun w => (match c in rpcCall R return R with EdgeAuthorizeControl _ _ _ => None | AdmitterAdmit _ _ => Fail (wrapf []) end, w)
  | InAdmission R c => demo_admission_world R c
  end.

Definition demo_limits : Limits := MkLimits 0 1 1 1 1 MinPingInterval 1 1 0 1 1.

(** An input through the router is stored once, answered 200 and woken; the same
    request without a credential stores nothing. *)
Example http_path_demo :
  let serve rq := run demo_service_environment
    (serveHTTP (H3 := demo_core) (H4 := demo_url) (fun _ => None) (fun _ => Some ("application/json", ∅)) demo_service true demo_router rq) 0 in
  let '(answer, t, stored) := serve (demo_request "POST" "/v1/sessions/s/input") in
  status_of answer = 200 /\ stored = 1 /\ length (admissions t) = 1%nat /\ length (wakes t) = 1%nat
  /\ existsb is_write (admission_part t) = true
  /\ let '(answer, t, stored) := serve (MkRequest "POST" "/v1/sessions/s/input" "/v1/sessions/s/input" "application/json"
         (MkHTTPRequest None (fun _ => None) "") "app.example" [] [] [] "") in
     status_of answer = 401 /\ stored = 0 /\ admission_part t = [].
Proof. by vm_compute. Qed.

Lemma edges_admit_alike_witness :
  (run demo_service_environment (serveRPC demo_service demo_limits demo_principal MethodSessionInput "s") 0).1.1 = Ok "c"
  /\ (run demo_service_environment (serveRPC demo_service demo_limits demo_principal MethodSessionInput "s") 0).2 = 1
  /\ admission_part (run demo_service_environment (serveRPC demo_service demo_limits demo_principal MethodSessionInput "s") 0).1.2
     = admission_part (run demo_service_environment (runControl demo_service true KindInput (NewLinkOperationContext demo_principal)
         [("sid", "s")] "s") 0).1.2.
Proof.
  pose proof (edges_admit_alike demo_service_environment 0 demo_service demo_limits KindInput MethodSessionInput decodeInput 200
    (fun sid _ body => decodeCommand body decodeInput sid) (NewLinkOperationContext demo_principal) [("sid", "s")] "s"
    (RInput (MkInput "s" "c" None [] "")) eq_refl eq_refl ltac:(by vm_compute) ltac:(by vm_compute) eq_refl) as Ha.
  change (op_Principal (NewLinkOperationContext demo_principal)) with demo_principal in Ha.
  destruct (admitted_in demo_service_environment demo_service demo_principal _ 0) as [[answer adm] after].
  destruct (run demo_service_environment (runControl _ _ _ _ _ _) 0) as [[http t] after_http] eqn:Ht.
  destruct (run demo_service_environment (serveRPC _ _ _ _ _) 0) as [[reply u] after_rpc] eqn:Hu.
  destruct Ha as (<- & Hau & _). split_and!; [by vm_compute in Hu; simplify_eq|by vm_compute in Hu; simplify_eq|exact Hau].
Defined.
