(* ===== verification/ClientTransport.v ===== *)
(** * The ClientLink transport (src/internal/realtime/clientlink/centrifuge.go, publish.go)

    The half of the client edge that meets the Centrifuge node: which upgrade
    requests it serves, the handshake and its disconnects, the refusals of a
    subscription and of an RPC, the node's and the socket's configuration, and
    the bindings a connection holds for its channels. The connections of a
    replica share one engine (ClientLink); a connection's subscribe handler runs
    step by step, interleaved with the unsubscribe and disconnect events the node
    reports, and a release handed out by [drop] or [dropAll] runs at some later
    time. The node itself is a parameter: what it answers, and when it reports an
    event, is free, and what the theorems need of it is a named condition. *)

From S2P Require Import Prelude Wire Framing Text Program Identity Pending Refusal Admission Guard ClientLink.
Local Open Scope prog_scope.
Local Open Scope string_scope.
Local Open Scope Z_scope.

(** ** What the node is told (Centrifuge's own disconnects and errors) *)
Inductive disconnect :=
| DisconnectConnectionLimit | DisconnectBadRequest | DisconnectServerError
| DisconnectInappropriateProtocol | DisconnectExpired | DisconnectInvalidToken.

Inductive clientError := ErrorUnauthorized | ErrorPermissionDenied | ErrorInternal | ErrorMethodNotFound.

(** ** Configuration *)
Definition rpcFrameHeadroomBytes : Z := Z.shiftl 16 10.

Record WebsocketConfig := MkWebsocketConfig {
  ws_Compression : bool; ws_MessageSizeLimit : Z; ws_WriteTimeout : Z; ws_PingInterval : Z; ws_PongTimeout : Z }.

Definition websocketConfig (cfg : EngineConfig) : WebsocketConfig :=
  let limits := e_Limits cfg in
  let frameLimit := Z.shiftl 64 10 in
  let frameLimit := if frameLimit <? MaxMessageBytes limits then MaxMessageBytes limits + rpcFrameHeadroomBytes else frameLimit in
  MkWebsocketConfig false frameLimit (WriteTimeout limits) (PingInterval limits) (PongTimeout limits).

Record NodeConfig := MkNodeConfig {
  nc_Version : string; nc_Name : string; nc_ClientQueueMaxSize : Z; nc_ClientChannelLimit : Z }.

Definition nodeConfig (cfg : EngineConfig) : NodeConfig :=
  MkNodeConfig (e_Version cfg) "factory-clientlink" (PerConnectionQueueBytes (e_Limits cfg))
    (MaxChannelsPerConnection (e_Limits cfg)).

(** [Handler]: the engine, with the configurations its node and socket got. *)
Record Handler := MkHandler { h_engine : Engine; h_node : NodeConfig; h_ws : WebsocketConfig }.

(** The node's library: whether it takes a configuration, and whether it runs. *)
Class NodeLibrary := { node_new : NodeConfig -> option error; node_run : NodeConfig -> option error }.

Definition NewHandler `{NodeLibrary} (cfg : EngineConfig) : result Handler :=
  match NewEngine cfg with
  | Fail err => Fail err
  | Ok engine =>
      match node_new (nodeConfig cfg) with
      | Some _ => Fail (wrapf [ClientLink.ErrInvalidConfig])
      | None =>
          match node_run (nodeConfig cfg) with
          | Some _ => Fail (wrapf [ClientLink.ErrInvalidConfig])
          | None => Ok (MkHandler engine (nodeConfig cfg) (websocketConfig cfg))
          end
      end
  end.

(** ** Upgrade requests: the query by name, and the values of the
    Sec-WebSocket-Protocol header *)
Record UpgradeRequest := MkUpgrade { up_query : string -> string; up_protocols : list string }.

Definition requestsProtobuf (r : UpgradeRequest) : bool :=
  bool_decide (up_query r "format" = "protobuf") || bool_decide (up_query r "cf_protocol" = "protobuf")
  || existsb (fun header =>
       existsb (fun token => bool_decide (fold_letters (TrimSpace token) = "centrifuge-protobuf")) (split "," header))
     (up_protocols r).

(** [ServeHTTP]: the status it refuses with, or the node's own handler. *)
Definition ServeHTTP (r : UpgradeRequest) : option Z := if requestsProtobuf r then Some 400 else None.

(** ** The handshake *)
Record ConnectEvent := MkConnectEvent { ce_Token : string; ce_Data : bytes }.
Record ConnectReply := MkConnectReply { cr_Context : OperationContext; cr_UserID : string; cr_Data : bytes }.

(** [encoding/json] of the two handshake bodies. *)
Class HandshakeJSON := {
  unmarshalConnect : bytes -> result string;       (* protocol_version *)
  marshalConnectReply : string -> string -> result bytes
}.

Definition connectRefusal (err : error) : disconnect :=
  if errors_is err (Sentinel "clientlink.ErrUnsupportedProtocol") then DisconnectInappropriateProtocol
  else if errors_is err (Sentinel "identity.ErrCredentialExpired") then DisconnectExpired
  else if errors_is err (Sentinel "identity.ErrUnauthenticated") then DisconnectInvalidToken
  else DisconnectServerError.

(** The zero operation context, which [OperationContextFrom] answers with
    [false]. *)
Definition noOperation : OperationContext := MkOperationContext zeroPrincipal None "".

Section Connecting.
Context `{CoreIdentifiers} `{HandshakeJSON} (a : Authenticator) (limits : Limits) (version : string).

(** The protocol version the event's data names; no data names none. *)
Definition offered (e : ConnectEvent) : result string := if 0 <? len (ce_Data e) then unmarshalConnect (ce_Data e) else Ok "".

(** [connecting]: the number of clients the hub counts, and the operation
    context of the upgrade's, if the request was authenticated. *)
Definition connecting (numClients : Z) (upgrade : option OperationContext) (e : ConnectEvent)
    : prog authCall (ConnectReply + disconnect) :=
  if MaxConnections limits <=? numClients then Ret (inr DisconnectConnectionLimit)
  else
    match offered e with
    | Fail _ => Ret (inr DisconnectBadRequest)
    | Ok protocolVersion =>
        let upgraded := bool_decide (is_Some upgrade) in
        let! principal := Authenticate a (MkConnect (ce_Token e) protocolVersion (default noOperation upgrade) upgraded) in
        match principal with
        | Fail err => Ret (inr (connectRefusal err))
        | Ok principal =>
            let linkCtx :=
              match upgrade with
              | Some ctx => if bool_decide (ce_Token e = "") then ctx else NewLinkOperationContext principal
              | None => NewLinkOperationContext principal
              end in
            match marshalConnectReply ProtocolVersion version with
            | Fail _ => Ret (inr DisconnectServerError)
            | Ok reply => Ret (inl (MkConnectReply linkCtx (subject principal) reply))
            end
        end
    end.
End Connecting.

(** The client's context, as the node stored it from the reply. *)
Definition principalOf (context : option OperationContext) : option Principal := op_Principal <$> context.

(** ** Refusals *)
Definition subscribeRefusal (err : error) : clientError :=
  if errors_is err (Sentinel "identity.ErrUnauthorized") then ErrorPermissionDenied else ErrorInternal.

Definition rpcRefusal (err : error) : clientError :=
  if errors_is err (Sentinel "clientlink.ErrUnknownMethod") then ErrorMethodNotFound
  else if errors_is err (Sentinel "identity.ErrUnauthorized") then ErrorPermissionDenied
  else ErrorInternal.

(** The RPC handler of [connected]. *)
Definition onRPC `{CoreJSON} (limits : Limits) (context : option OperationContext) (method : string) (data : bytes)
    : prog rpcCall (bytes + clientError) :=
  match principalOf context with
  | None => Ret (inr ErrorUnauthorized)
  | Some principal =>
      let! body := RPC_Admit limits principal method data in
      match body with
      | Fail err => Ret (inr (rpcRefusal err))
      | Ok body => Ret (inl body)
      end
  end.

(** ** Publication (publish.go) *)
Definition ErrNotPublished : error := sentinel "clientlink.ErrNotPublished".

Inductive nodeCall : Type -> Type :=
| NodePublish (channel : string) (encoded : bytes) : nodeCall (option error)
| NodeConnections : nodeCall (list nat)
| ClientChannels (client : nat) : nodeCall (list string)
| ClientUnsubscribe (client : nat) (channel : string) : nodeCall unit.

Definition PublishSession (tenant : TenantID) (session : SessionID) (encoded : bytes) : prog nodeCall (option error) :=
  call! err := NodePublish (SessionChannel tenant session) encoded in
  Ret (match err with Some err => Some (wrapf [ErrNotPublished; err]) | None => None end).

(** The loop of the goroutine [CloseSession] starts. *)
Fixpoint closeOn (channel : string) (clients : list nat) : prog nodeCall unit :=
  match clients with
  | [] => Ret tt
  | client :: clients =>
      call! channels := ClientChannels client in
      if bool_decide (channel ∈ channels) then call! _ := ClientUnsubscribe client channel in closeOn channel clients
      else closeOn channel clients
  end.

Definition CloseSession (tenant : TenantID) (session : SessionID) : prog nodeCall unit :=
  call! clients := NodeConnections in closeOn (SessionChannel tenant session) clients.

(** ** The bindings of the connections *)

(** One successful [Bind]: its [release] closure gives back [b_key], once. *)
Record binding := MkBinding { b_id : nat; b_key : sessionKey }.

#[global] Instance binding_eq : EqDecision binding.
Proof. solve_decision. Defined.

(** What a connection's subscribe handler does next. *)
Inductive subscribing :=
| SubIdle
| SubBound (channel : string) (b : binding)     (* held.hold *)
| SubHeld (channel : string)                    (* cb *)
| SubChecking (channel : string).               (* client.IsSubscribed *)

(** A connection: its context, its handler, its [heldBindings], the releases
    taken out of it that have not run, whether its disconnect was reported, and
    what its subscribe callbacks were answered. *)
Record connection := MkConnection {
  context : option OperationContext;
  handler_ : subscribing;
  releases : gmap string binding;
  pending : list binding;
  disconnected : bool;
  answers : list (string * option clientError)
}.

Definition hold (channel : string) (release : binding) (c : connection) : connection :=
  MkConnection (context c) (handler_ c) (<[channel := release]> (releases c)) (pending c) (disconnected c) (answers c).

Definition drop (channel : string) (c : connection) : connection :=
  match releases c !! channel with
  | Some release =>
      MkConnection (context c) (handler_ c) (delete channel (releases c)) (release :: pending c) (disconnected c) (answers c)
  | None => c
  end.

(** The order in which the map is ranged is left to the one [map_to_list] has:
    the releases run in any order from [pending]. *)
Definition dropAll (c : connection) : connection :=
  MkConnection (context c) (handler_ c) ∅ ((map_to_list (releases c)).*2 ++ pending c) (disconnected c) (answers c).

Definition goto (next : subscribing) (c : connection) : connection :=
  MkConnection (context c) next (releases c) (pending c) (disconnected c) (answers c).

Definition answer (channel : string) (err : option clientError) (c : connection) : connection :=
  MkConnection (context c) (handler_ c) (releases c) (pending c) (disconnected c) ((channel, err) :: answers c).

Definition report (c : connection) : connection :=
  MkConnection (context c) (handler_ c) (releases c) (pending c) true (answers c).

(** The replica: its engine, with the bindings outstanding and the demand held,
    its connections, the bindings made and those released. *)
Record replica := MkReplica {
  link : link_state; connections : gmap nat connection; issued : nat; released : list binding }.

Definition newConnection (context : option OperationContext) : connection :=
  MkConnection context SubIdle ∅ [] false [].

Definition empty_replica : replica := MkReplica (MkLink (MkEngine ∅ 0 []) ∅ (Some ∅)) ∅ 0 [].

(** What the authorizer and the demand plane answer. *)
Definition answering (denied demanded : option error) : @handler linkCall unit :=
  fun R c w => match c with AskSubscribe _ _ => (denied, w) | DemandAcquire _ => (demanded, w) | DemandRelease _ => (demanded, w) end.

Inductive action :=
| Connected (n : nat) (context : OperationContext)
| Subscribe (n : nat) (channel : string) (denied demanded : option error)
| Hold (n : nat)
| Callback (n : nat)
| Check (n : nat) (subscribed : bool)
| Unsubscribed (n : nat) (channel : string)
| Disconnected (n : nat)
| Release (n i : nat)
| Drain (i : nat) (demanded : option error)
| Flush (demanded : option error).

Section Machine.
Context `{CoreIdentifiers} (order : gmap sessionKey demandEntry -> list (sessionKey * demandEntry)).

Definition set_connection (n : nat) (c : connection) (s : replica) : replica :=
  MkReplica (link s) (<[n := c]> (connections s)) (issued s) (released s).

(** The engine after a program that leaves the bindings alone. *)
Definition with_engine (e : Engine) (t : list (event linkCall)) (s : replica) : replica :=
  MkReplica (MkLink e (outstanding (link s)) (after t (ls_held (link s)))) (connections s) (issued s) (released s).

(** The subscribe handler of [connected], up to its binding. *)
Definition onSubscribe (n : nat) (c : connection) (channel : string) (denied demanded : option error) (s : replica) : replica :=
  match principalOf (context c) with
  | None => set_connection n (answer channel (Some ErrorUnauthorized) c) s
  | Some principal =>
      let '(bound, e, t, _) := run (answering denied demanded) (Bind principal channel (ls_engine (link s))) tt in
      match bound with
      | Fail err => set_connection n (answer channel (Some (subscribeRefusal err)) c) (with_engine e t s)
      | Ok key =>
          MkReplica
            (MkLink e (<[key := count (outstanding (link s)) key + 1]> (outstanding (link s))) (after t (ls_held (link s))))
            (<[n := goto (SubBound channel (MkBinding (issued s) key)) c]> (connections s)) (S (issued s)) (released s)
      end
  end.

(** A release that runs: [releaseBinding] on the engine. *)
Definition runRelease (n : nat) (c : connection) (i : nat) (b : binding) (s : replica) : replica :=
  let out := outstanding (link s) in
  MkReplica
    (MkLink (releaseBinding (b_key b) (ls_engine (link s))) (<[b_key b := count out (b_key b) - 1]> out) (ls_held (link s)))
    (<[n := MkConnection (context c) (handler_ c) (releases c) (list_delete i (pending c)) (disconnected c) (answers c)]>
       (connections s))
    (issued s) (b :: released s).

Definition act (x : action) (s : replica) : option replica :=
  match x with
  | Connected n ctx =>
      if bool_decide (connections s !! n = None) then Some (set_connection n (newConnection (Some ctx)) s) else None
  | Subscribe n channel denied demanded =>
      c ← connections s !! n;
      match handler_ c with SubIdle => Some (onSubscribe n c channel denied demanded s) | _ => None end
  | Hold n =>
      c ← connections s !! n;
      match handler_ c with
      | SubBound channel b => Some (set_connection n (goto (SubHeld channel) (hold channel b c)) s)
      | _ => None
      end
  | Callback n =>
      c ← connections s !! n;
      match handler_ c with
      | SubHeld channel => Some (set_connection n (goto (SubChecking channel) (answer channel None c)) s)
      | _ => None
      end
  | Check n subscribed =>
      c ← connections s !! n;
      match handler_ c with
      | SubChecking channel => Some (set_connection n (goto SubIdle (if subscribed then c else drop channel c)) s)
      | _ => None
      end
  | Unsubscribed n channel => c ← connections s !! n; Some (set_connection n (drop channel c) s)
  | Disconnected n => c ← connections s !! n; Some (set_connection n (report (dropAll c)) s)
  | Release n i => c ← connections s !! n; b ← pending c !! i; Some (runRelease n c i b s)
  | Drain i demanded =>
      cb ← scheduled (ls_engine (link s)) !! i;
      let '(e, t, _) := run (answering None demanded) (drain cb (ls_engine (link s))) tt in
      Some (with_engine e t s)
  | Flush demanded =>
      let '(_, e, t, _) := run (answering None demanded) (ReleaseIdleDemand order (ls_engine (link s))) tt in
      Some (with_engine e t s)
  end.

Definition step (s s' : replica) : Prop := exists x, act x s = Some s'.

(** What the node's documentation promises, and the code relies on: it starts no
    subscribe handler on a connection whose disconnect it reported, nor on a
    channel the connection still holds, and a client it closed is subscribed to
    nothing. *)
Definition orderly (x : action) (s : replica) : bool :=
  match x with
  | Subscribe n channel _ _ =>
      match connections s !! n with
      | Some c => negb (disconnected c) && bool_decide (releases c !! channel = None)
      | None => false
      end
  | Check n true => match connections s !! n with Some c => negb (disconnected c) | None => false end
  | _ => true
  end.

Definition orderly_step (s s' : replica) : Prop := exists x, orderly x s = true /\ act x s = Some s'.

(** A sequence of actions, [None] where one cannot be taken. *)
Definition perform (xs : list action) (s : replica) : option replica :=
  foldl (fun s x => s ← s; if orderly x s then act x s else None) (Some s) xs.
Definition reachable_replica : replica -> Prop := reachable (fun s => s = empty_replica) orderly_step.

(** What [hold] writes over: the binding the connection held for the channel. *)
Definition overwritten (x : action) (s : replica) : list binding :=
  match x with
  | Hold n =>
      match connections s !! n with
      | Some c => match handler_ c with SubBound channel _ => option_list (releases c !! channel) | _ => [] end
      | None => []
      end
  | _ => []
  end.

(** A replica, the bindings [hold] wrote over so far, and whether the node kept
    its order so far. *)
Record history := MkHistory { h_replica : replica; h_lost : list binding; h_orderly : bool }.

(** Any action that can be taken, in any order. *)
Definition history_step (h h' : history) : Prop :=
  exists x s', act x (h_replica h) = Some s'
    /\ h' = MkHistory s' (overwritten x (h_replica h) ++ h_lost h) (h_orderly h && orderly x (h_replica h)).

Definition reachable_history : history -> Prop := reachable (fun h => h = MkHistory empty_replica [] true) history_step.

(** [Shutdown]: what stopping the node answered, joined with the flush. *)
Definition Shutdown (stopped : option error) (e : Engine) : linking (option error * Engine) :=
  let! (err, e) := ReleaseIdleDemand order e in
  Ret (errors_join (match stopped with Some x => [x] | None => [] end ++ match err with Some x => [x] | None => [] end)%list, e).
End Machine.

(** The bindings a connection has not given back. *)
Definition in_hand (h : subscribing) : list binding := match h with SubBound _ b => [b] | _ => [] end.
Definition owned (c : connection) : list binding := in_hand (handler_ c) ++ (map_to_list (releases c)).*2 ++ pending c.
Definition all_owned (m : gmap nat connection) : list binding := map_to_list m ≫= (fun kv => owned kv.2).
Definition owes (key : sessionKey) (bs : list binding) : Z := tally (fun b => bool_decide (b_key b = key)) bs.

(** ** Facts shared by the steps *)
#[global] Instance tally_perm {A} (f : A -> bool) : Proper ((≡ₚ) ==> (=)) (tally f).
Proof. intros l l' Hl. unfold tally. by rewrite Hl. Qed.

Lemma run_may {E : Type -> Type} {W A} (h : @handler E W) (p : prog E A) : forall w,
  may p (run h p w).1.1 (run h p w).1.2.
Proof.
  induction p as [a|R c k IH]; intros w; simpl; [done|]. destruct (h R c w) as [r w1]. specialize (IH r w1).
  destruct (run h (k r) w1) as [[a t] w2]. simpl in *. eauto.
Qed.

Lemma all_owned_split m n c : m !! n = Some c -> all_owned m ≡ₚ owned c ++ all_owned (delete n m).
Proof.
  intros Hn. unfold all_owned. rewrite <- (insert_delete_id m n c Hn) at 1.
  rewrite map_to_list_insert by apply lookup_delete_eq. done.
Qed.

Lemma all_owned_insert m n c : all_owned (<[n := c]> m) ≡ₚ owned c ++ all_owned (delete n m).
Proof. rewrite (all_owned_split _ n c) by apply lookup_insert_eq. by rewrite delete_insert_eq. Qed.

Lemma all_owned_elem m b : b ∈ all_owned m <-> exists n c, m !! n = Some c /\ b ∈ owned c.
Proof.
  unfold all_owned. rewrite list_elem_of_bind. split.
  - intros ([n c] & Hb & Hn). apply elem_of_map_to_list in Hn. eauto.
  - intros (n & c & Hn & Hb). exists (n, c). split; [done|]. by apply elem_of_map_to_list.
Qed.

Lemma values_insert (m : gmap string binding) channel b :
  m !! channel = None -> (map_to_list (<[channel := b]> m)).*2 ≡ₚ b :: (map_to_list m).*2.
Proof. intros Hc. by rewrite map_to_list_insert. Qed.

Lemma values_delete (m : gmap string binding) channel b :
  m !! channel = Some b -> (map_to_list m).*2 ≡ₚ b :: (map_to_list (delete channel m)).*2.
Proof.
  intros Hc. rewrite <- (insert_delete_id m channel b Hc) at 1. apply values_insert, lookup_delete_eq.
Qed.

(** No step of a handler or of an event loses or doubles a binding. *)
Lemma hold_owned channel b c :
  handler_ c = SubBound channel b ->
  owned c ≡ₚ option_list (releases c !! channel) ++ owned (goto (SubHeld channel) (hold channel b c)).
Proof.
  intros Hh. unfold owned. simpl. rewrite Hh. simpl. destruct (releases c !! channel) as [old|] eqn:Hc; simpl.
  - rewrite (values_delete _ channel old Hc), <- insert_delete_eq, values_insert by apply lookup_delete_eq. apply Permutation_swap.
  - by rewrite values_insert.
Qed.

Lemma drop_owned channel c : owned (drop channel c) ≡ₚ owned c.
Proof.
  unfold drop. destruct (releases c !! channel) as [b|] eqn:Hc; [|done]. unfold owned. simpl.
  rewrite (values_delete (releases c) channel b Hc). by rewrite <- (Permutation_middle (map_to_list _).*2 (pending c) b).
Qed.

Lemma check_owned channel ch c :
  handler_ c = SubChecking ch -> owned (goto SubIdle (drop channel c)) ≡ₚ owned c.
Proof.
  intros Hh. rewrite <- (drop_owned channel c). unfold owned. simpl. unfold drop. destruct (releases c !! channel); simpl; by rewrite Hh.
Qed.

Lemma dropAll_owned c : owned (report (dropAll c)) ≡ₚ owned c.
Proof. unfold owned. simpl. by rewrite map_to_list_empty. Qed.

(** ** The invariant *)

(** The channels a connection may still hold once its disconnect was reported:
    the one its handler has yet to look at again. *)
Definition watched (h : subscribing) (channel : string) : Prop :=
  match h with SubHeld ch | SubChecking ch => ch = channel | _ => False end.

Record connection_ok (c : connection) : Prop := {
  co_bound : forall channel b, handler_ c = SubBound channel b -> releases c !! channel = None;
  co_closed : disconnected c = true -> forall channel b, releases c !! channel = Some b -> watched (handler_ c) channel
}.

(** The account of the bindings: each one made is owned, released or lost. *)
Record ledger (s : replica) (lost : list binding) : Prop := {
  lg_link : link_inv (link s);
  lg_once : b_id <$> (all_owned (connections s) ++ lost ++ released s)%list ≡ₚ seq 0 (issued s);
  lg_count : forall key, count (outstanding (link s)) key = owes key (all_owned (connections s) ++ lost)
}.

Definition conns_ok (s : replica) : Prop := forall n c, connections s !! n = Some c -> connection_ok c.

Record replica_inv (s : replica) : Prop := { ri_ledger : ledger s []; ri_conns : conns_ok s }.

Lemma ri_link s : replica_inv s -> link_inv (link s).
Proof. intros [[? ? ?] ?]. done. Qed.

Lemma ri_count s key : replica_inv s -> count (outstanding (link s)) key = owes key (all_owned (connections s)).
Proof. intros [[? ? HC] ?]. by rewrite HC, app_nil_r. Qed.

(** A step that changes one connection, which loses the bindings [lost']. *)
Lemma ledger_connection s n c c' lost lost' :
  ledger s lost -> connections s !! n = Some c -> owned c ≡ₚ lost' ++ owned c' ->
  ledger (set_connection n c' s) (lost' ++ lost).
Proof.
  intros [HL HO HC] Hn Ho.
  assert (Hall : all_owned (connections s) ≡ₚ lost' ++ all_owned (<[n := c']> (connections s))).
  { by rewrite all_owned_insert, (all_owned_split _ n c Hn), Ho, app_assoc. }
  split; simpl; [done| |].
  - rewrite <- HO, Hall. by rewrite <- !app_assoc, Permutation_app_swap_app.
  - intros key. rewrite HC. unfold owes. rewrite Hall. by rewrite <- !app_assoc, Permutation_app_swap_app.
Qed.

Lemma ledger_same s n c c' lost :
  ledger s lost -> connections s !! n = Some c -> owned c' ≡ₚ owned c -> ledger (set_connection n c' s) lost.
Proof. intros Hl Hn Ho. by apply (ledger_connection s n c c' lost []); [..|rewrite Ho]. Qed.

Lemma ledger_engine s e t lost :
  ledger s lost -> link_inv (MkLink e (outstanding (link s)) (after t (ls_held (link s)))) -> ledger (with_engine e t s) lost.
Proof. intros [HL HO HC] Hl. by split. Qed.

Lemma conns_insert s n c s' :
  conns_ok s -> connection_ok c -> connections s' = <[n := c]> (connections s) -> conns_ok s'.
Proof.
  intros HK Hc Heq n' c'. rewrite Heq. destruct (decide (n = n')) as [<-|Hne].
  - rewrite lookup_insert_eq. by intros [= <-].
  - rewrite lookup_insert_ne by done. apply HK.
Qed.

Lemma drop_releases channel c ch : releases (drop channel c) !! ch = if bool_decide (channel = ch) then None else releases c !! ch.
Proof.
  unfold drop. destruct (releases c !! channel) as [b|] eqn:Hc; simpl; case_bool_decide as Hn; subst; try done.
  - apply lookup_delete_eq.
  - by apply lookup_delete_ne.
Qed.

Lemma drop_fields channel c :
  handler_ (drop channel c) = handler_ c /\ disconnected (drop channel c) = disconnected c.
Proof. unfold drop. by destruct (releases c !! channel). Qed.

Lemma drop_ok channel c : connection_ok c -> connection_ok (drop channel c).
Proof.
  intros [HB HC]. destruct (drop_fields channel c) as [Hh Hd]. split.
  - intros ch b Hb. rewrite drop_releases. case_bool_decide; [done|]. rewrite Hh in Hb. by eapply HB.
  - rewrite Hd, Hh. intros Hdis ch b. rewrite drop_releases. case_bool_decide; [done|]. by apply HC.
Qed.

Section Steps.
Context `{CoreIdentifiers} (order : gmap sessionKey demandEntry -> list (sessionKey * demandEntry)).
Hypothesis order_any : forall m, order m ≡ₚ map_to_list m.

Lemma engine_inv s lost : ledger s lost ->
  link_inv (MkLink (ls_engine (link s)) (outstanding (link s)) (Some (dom (demand (ls_engine (link s)))))).
Proof. intros [HL _ _]. rewrite <- (li_held _ HL). by destruct (link s). Qed.

Lemma ledger_subscribe s n c channel denied demanded lost :
  ledger s lost -> connections s !! n = Some c -> handler_ c = SubIdle ->
  ledger (onSubscribe n c channel denied demanded s) lost.
Proof.
  intros Hi Hn Hh. unfold onSubscribe.
  assert (Hans : forall err s', ledger s' lost -> connections s' !! n = Some c -> ledger (set_connection n (answer channel err c) s') lost)
    by (intros err s' Hi' Hn'; by apply (ledger_same s' n c)).
  destruct (principalOf (context c)) as [p|]; [|by apply Hans].
  pose proof (run_may (answering denied demanded) (Bind p channel (ls_engine (link s))) tt) as Hm.
  destruct (run _ _ _) as [[[bound e] t] w]. simpl in Hm.
  pose proof (wp_may _ _ _ _ (Bind_inv p channel _ _ (engine_inv s lost Hi)) Hm) as Hb. cbn [fst snd] in Hb.
  rewrite <- (li_held _ (lg_link _ _ Hi)) in Hb.
  destruct bound as [key|err]; [|apply Hans; [by apply ledger_engine|done]].
  set (b := MkBinding (issued s) key).
  assert (Hall : all_owned (<[n := goto (SubBound channel b) c]> (connections s)) ≡ₚ b :: all_owned (connections s)).
  { rewrite all_owned_insert, (all_owned_split (connections s) n c Hn). unfold owned. simpl. by rewrite Hh. }
  destruct Hi as [HL HO HC]. split; simpl; [done| |].
  - rewrite Hall. cbn [app fmap list_fmap]. rewrite HO. change (issued s :: seq 0 (issued s) ≡ₚ seq 0 (S (issued s))).
    rewrite seq_S. simpl. by rewrite Permutation_cons_append.
  - intros k. unfold owes. rewrite Hall. cbn [app]. rewrite tally_cons. simpl. rewrite count_insert.
    fold (owes k (all_owned (connections s) ++ lost)). rewrite <- HC. case_bool_decide; subst; lia.
Qed.

Lemma ledger_released s n c i b lost :
  ledger s lost -> connections s !! n = Some c -> pending c !! i = Some b -> ledger (runRelease n c i b s) lost.
Proof.
  intros Hi Hn Hb. pose proof Hi as [HL HO HC].
  set (c' := MkConnection (context c) (handler_ c) (releases c) (list_delete i (pending c)) (disconnected c) (answers c)).
  assert (Hp : owned c ≡ₚ b :: owned c').
  { unfold owned, c'. simpl. rewrite (delete_Permutation (pending c) i b Hb) at 1. by rewrite <- !Permutation_middle. }
  assert (Hall : all_owned (connections s) ≡ₚ b :: all_owned (<[n := c']> (connections s))).
  { by rewrite all_owned_insert, (all_owned_split (connections s) n c Hn), Hp. }
  assert (Hcount : forall k, owes k (all_owned (connections s) ++ lost)
            = (if bool_decide (b_key b = k) then 1 else 0) + owes k (all_owned (<[n := c']> (connections s)) ++ lost)).
  { intros k. unfold owes. rewrite Hall. cbn [app]. by rewrite tally_cons. }
  assert (Hpos : 0 < count (outstanding (link s)) (b_key b)).
  { rewrite HC, Hcount, bool_decide_true by done.
    pose proof (tally_pos (fun b0 => bool_decide (b_key b0 = b_key b)) (all_owned (<[n := c']> (connections s)) ++ lost)). unfold owes. lia. }
  split; simpl; fold c'.
  - pose proof (li_held _ HL) as Hh. rewrite Hh. apply releaseBinding_inv; [by eapply engine_inv|done].
  - rewrite <- HO, Hall. by rewrite !app_assoc, <- Permutation_middle.
  - intros k. rewrite count_insert. specialize (Hcount k). rewrite <- HC in Hcount. case_bool_decide; subst; lia.
Qed.

(** Whatever is done, in whatever order, the account balances. *)
Lemma ledger_act x s s' lost : ledger s lost -> act order x s = Some s' -> ledger s' (overwritten x s ++ lost).
Proof.
  intros Hi Ha. pose proof (li_held _ (lg_link _ _ Hi)) as Hh.
  destruct x as [n ctx|n channel denied demanded|n|n|n subscribed|n channel|n|n i|i demanded|demanded]; simpl in Ha |- *;
    try (destruct (connections s !! n) as [c|] eqn:Hn; simpl in Ha; [|done]).
  - case_bool_decide as Hn; [|done]. injection Ha as <-. destruct Hi as [HL HO HC].
    assert (Hall : all_owned (<[n := newConnection (Some ctx)]> (connections s)) ≡ₚ all_owned (connections s)).
    { rewrite all_owned_insert, delete_id by done. done. }
    split; simpl; [done|by rewrite Hall|intros key; rewrite HC; unfold owes; by rewrite Hall].
  - destruct (handler_ c) eqn:Hc; try done. injection Ha as <-. by apply ledger_subscribe.
  - destruct (handler_ c) as [|channel b|channel|channel] eqn:Hc; try done. injection Ha as <-.
    apply (ledger_connection s n c); [done..|by apply hold_owned].
  - destruct (handler_ c) as [|channel b|channel|channel] eqn:Hc; try done. injection Ha as <-.
    apply (ledger_same s n c); [done..|]. unfold owned. simpl. by rewrite Hc.
  - destruct (handler_ c) as [|channel b|channel|channel] eqn:Hc; try done. injection Ha as <-.
    apply (ledger_same s n c); [done..|]. destruct subscribed; [unfold owned; simpl; by rewrite Hc|by eapply check_owned].
  - injection Ha as <-. apply (ledger_same s n c); [done..|apply drop_owned].
  - injection Ha as <-. apply (ledger_same s n c); [done..|apply dropAll_owned].
  - destruct (pending c !! i) as [b|] eqn:Hb; simpl in Ha; [|done]. injection Ha as <-. by apply ledger_released.
  - destruct (scheduled (ls_engine (link s)) !! i) as [cb|]; simpl in Ha; [|done].
    pose proof (run_may (answering None demanded) (drain cb (ls_engine (link s))) tt) as Hm.
    destruct (run _ _ _) as [[e t] w]. injection Ha as <-. apply ledger_engine; [done|]. rewrite Hh.
    exact (wp_may _ _ _ _ (drain_inv cb _ _ (engine_inv s lost Hi)) Hm).
  - pose proof (run_may (answering None demanded) (ReleaseIdleDemand order (ls_engine (link s))) tt) as Hm.
    destruct (run _ _ _) as [[[err e] t] w]. injection Ha as <-. apply ledger_engine; [done|]. rewrite Hh.
    exact (wp_may _ _ _ _ (ReleaseIdleDemand_inv order _ _ order_any (engine_inv s lost Hi)) Hm).
Qed.

Lemma conns_subscribe s n c channel denied demanded :
  conns_ok s -> connections s !! n = Some c -> disconnected c = false -> releases c !! channel = None ->
  conns_ok (onSubscribe n c channel denied demanded s).
Proof.
  intros HK Hn Hd Hc. destruct (HK n c Hn) as [HB HC]. unfold onSubscribe.
  destruct (principalOf (context c)) as [p|]; [|by eapply (conns_insert s n (answer channel (Some ErrorUnauthorized) c)); [|split|]].
  destruct (run _ _ _) as [[[[key|err] e] t] w]; (eapply (conns_insert s); [done| |done]); split; simpl; try done.
  - by intros ch b' [= <- <-].
  - by rewrite Hd.
Qed.

(** While the node keeps its order, every connection keeps its own. *)
Lemma conns_act x s s' : conns_ok s -> orderly x s = true -> act order x s = Some s' -> conns_ok s'.
Proof.
  intros HK Ho Ha.
  destruct x as [n ctx|n channel denied demanded|n|n|n subscribed|n channel|n|n i|i demanded|demanded]; simpl in Ha;
    try (destruct (connections s !! n) as [c|] eqn:Hn; simpl in Ha; [pose proof (HK n c Hn) as [KB KC]|done]).
  - case_bool_decide as Hn; [|done]. injection Ha as <-. apply (conns_insert s n (newConnection (Some ctx))); [done| |done]. by split.
  - destruct (handler_ c) eqn:Hc; try done. injection Ha as <-. simpl in Ho. rewrite Hn in Ho. reflect_guards. by apply conns_subscribe.
  - destruct (handler_ c) as [|channel b|channel|channel] eqn:Hc; try done. injection Ha as <-. eapply (conns_insert s); [done| |done].
    split; simpl; [done|]. intros Hd ch b'. destruct (decide (channel = ch)) as [<-|Hne]; [done|].
    rewrite lookup_insert_ne by done. intros Hr. specialize (KC Hd ch b' Hr). done.
  - destruct (handler_ c) as [|channel b|channel|channel] eqn:Hc; try done. injection Ha as <-. eapply (conns_insert s); [done| |done].
    split; simpl; [done|]. intros Hd ch b' Hr. exact (KC Hd ch b' Hr).
  - destruct (handler_ c) as [|channel b|channel|channel] eqn:Hc; try done. injection Ha as <-. eapply (conns_insert s); [done| |done].
    destruct subscribed; split; simpl; try done.
    + simpl in Ho. rewrite Hn in Ho. by destruct (disconnected c).
    + rewrite (proj2 (drop_fields channel c)). intros Hd ch b'. rewrite drop_releases.
      case_bool_decide; [done|]. intros Hr. specialize (KC Hd ch b' Hr). done.
  - injection Ha as <-. eapply (conns_insert s); [done| |done]. by apply drop_ok.
  - injection Ha as <-. eapply (conns_insert s); [done| |done]. by split.
  - destruct (pending c !! i) as [b|] eqn:Hb; simpl in Ha; [|done]. injection Ha as <-. eapply (conns_insert s); [done| |done]. by split.
  - destruct (scheduled (ls_engine (link s)) !! i) as [cb|]; simpl in Ha; [|done]. destruct (run _ _ _) as [[e t] w]. by injection Ha as <-.
  - destruct (run _ _ _) as [[[err e] t] w]. by injection Ha as <-.
Qed.

Lemma orderly_keeps x s : conns_ok s -> overwritten x s = [].
Proof.
  intros HK. destruct x as [| |n| | | | | | |]; try done. simpl. destruct (connections s !! n) as [c|] eqn:Hn; [|done].
  destruct (handler_ c) as [|channel b| |] eqn:Hc; try done. by rewrite (co_bound _ (HK n c Hn) channel b Hc).
Qed.

Lemma inv_act x s s' : replica_inv s -> orderly x s = true -> act order x s = Some s' -> replica_inv s'.
Proof.
  intros [HL HK] Ho Ha. split; [|by eapply conns_act]. pose proof (ledger_act x s s' [] HL Ha) as Hl.
  by rewrite (orderly_keeps x s HK) in Hl.
Qed.

Lemma empty_inv : replica_inv empty_replica.
Proof.
  split; [split|]; simpl; [split; simpl|done|..]; try (by rewrite dom_empty_L); try (intros key; unfold count; by rewrite ?lookup_empty).
Qed.

Lemma history_inv h : reachable_history order h ->
  ledger (h_replica h) (h_lost h) /\ (h_orderly h = true -> h_lost h = [] /\ conns_ok (h_replica h)).
Proof.
  apply (reachable_invariant _ _ (fun h => ledger (h_replica h) (h_lost h) /\ (h_orderly h = true -> h_lost h = [] /\ conns_ok (h_replica h)))).
  - intros h0 ->. destruct empty_inv. by split.
  - intros h1 h2 [HL HO] (x & s' & Ha & ->). simpl. split; [by apply ledger_act|].
    intros [Ho Hx]%andb_true_iff. destruct (HO Ho) as [Hlost HK]. split; [by rewrite (orderly_keeps x _ HK)|by eapply conns_act].
Qed.

Lemma inv_reachable s : reachable_replica order s -> replica_inv s.
Proof.
  apply reachable_invariant; [|by intros s1 s2 Hi (x & Ho & Ha); eapply inv_act]. intros s1 ->. apply empty_inv.
Qed.
End Steps.

(** A connection that is over, and whose releases ran, owns nothing. *)
Lemma owned_none s n c :
  conns_ok s -> connections s !! n = Some c -> disconnected c = true -> handler_ c = SubIdle -> pending c = [] -> owned c = [].
Proof.
  intros HK Hn Hd Hh Hp. destruct (HK n c Hn) as [_ KC]. unfold owned. rewrite Hh, Hp. simpl.
  assert (Hrel : releases c = ∅); [|by rewrite Hrel, map_to_list_empty].
  apply map_eq. intros ch. rewrite lookup_empty. destruct (releases c !! ch) as [b|] eqn:Hb; [|done].
  specialize (KC Hd ch b Hb). by rewrite Hh in KC.
Qed.

Lemma owes_pos b bs : b ∈ bs -> 0 < owes (b_key b) bs.
Proof.
  intros (l1 & l2 & ->)%list_elem_of_split. unfold owes. rewrite tally_app, tally_cons, bool_decide_true by done.
  pose proof (tally_pos (fun x => bool_decide (b_key x = b_key b)) l1).
  pose proof (tally_pos (fun x => bool_decide (b_key x = b_key b)) l2). lia.
Qed.

(** ** What a connection may do *)

Lemma refused_errors c err t : refused c err t ->
  err = wrapf [ErrUnauthenticated] \/ err = wrapf [ErrVerifierUnavailable] \/ err = wrapf [ErrCredentialExpired].
Proof.
  unfold refused. intros Hr. destruct t as [|[? c1 answer] t]; [naive_solver|]. destruct c1 as [c1|]; [|done].
  destruct t as [|[? c2 now] t].
  { destruct Hr as [_ Hr]. destruct answer; [destruct Hr as [_ ->]; by left|]. case_match; subst; auto. }
  destruct c2; [done|]. destruct t; [|done]. destruct Hr as [_ Hr]. destruct answer; [|done]. case_match; subst; auto.
Qed.

Lemma expired_not_failed t : claims_expired t = true -> verifier_failed t = false.
Proof.
  unfold claims_expired, verifier_failed. destruct t as [|[? c answer] [|ev t]]; [done| |].
  - destruct c; done.
  - destruct c; [|done]. done.
Qed.

Lemma vouched_rules `{CoreIdentifiers} a c p t : vouched a c p t -> claims_expired t = false /\ verifier_failed t = false /\ ~ rejected a c t.
Proof.
  intros Hv. pose proof Hv as (claims & now & -> & Hc & Hz & Hlt & _). split_and!; [simpl; apply Z.leb_gt; lia|done|].
  intros [[? _]|[(err & Heq & _)|[(claims' & Heq & _)|(claims' & now' & _ & _ & Hno)]]]; [done|..]; [by apply (f_equal length) in Heq..|].
  by apply (Hno p).
Qed.

(** The conjuncts of a disconnect whose guards have been decided. *)
Local Ltac turned :=
  repeat split; try done; intros; repeat match goal with
    | H : _ /\ _ |- _ => destruct H | H : _ \/ _ |- _ => destruct H | H : exists _, _ |- _ => destruct H | H : Ok _ = Ok _ |- _ => injection H as H end;
  reflect_guards; try discriminate; try congruence; try lia; eauto.

(** The upgrade request was authenticated by cookie, and no token was sent. *)
Definition cookie_upgrade (upgrade : option OperationContext) (e : ConnectEvent) : Prop :=
  ce_Token e = "" /\ exists op, upgrade = Some op /\ op_CredentialSource op = Some SourceCookie /\ tenant (op_Principal op) <> "".

(** C21: A connection is let in only within the connection limit and
    speaking the protocol, and the identity every later subscription and command
    of it reads back is one this replica vouched for: the principal the verifier
    vouched for from the connect token, or, without a token, the one the upgrade
    request was authenticated as by cookie. The user the node is told is that
    principal's subject. A connection turned away is told why, each reason
    exactly when it is the reason: full; an unreadable body; another protocol;
    an expired credential; an invalid one, when none was presented, the verifier
    rejected it or its claims make no principal; and a server error when the
    verifier could not answer, or the reply could not be written, so an outage of
    the verifier is never reported as a bad credential nor a bad credential as an
    outage. *)
Theorem handshake_vouches `{CoreIdentifiers} `{HandshakeJSON} (a : Authenticator) (limits : Limits) (version : string)
    (numClients : Z) (upgrade : option OperationContext) (e : ConnectEvent) :
  wp (connecting a limits version numClients upgrade e) (fun r t =>
    match r with
    | inl reply =>
        numClients < MaxConnections limits /\ offered e = Ok ProtocolVersion
        /\ exists p, principalOf (Some (cr_Context reply)) = Some p /\ cr_UserID reply = subject p
           /\ (ce_Token e <> "" /\ vouched a (NewCredential SourceLink (ce_Token e)) p t
                 /\ cr_Context reply = NewLinkOperationContext p
               \/ ce_Token e = "" /\ t = [] /\ upgrade = Some (cr_Context reply) /\ tenant p <> ""
                 /\ op_CredentialSource (cr_Context reply) = Some SourceCookie)
    | inr d =>
        (d = DisconnectConnectionLimit <-> MaxConnections limits <= numClients)
        /\ (d = DisconnectBadRequest <-> numClients < MaxConnections limits /\ exists err, offered e = Fail err)
        /\ (d = DisconnectInappropriateProtocol <->
              numClients < MaxConnections limits /\ exists v, offered e = Ok v /\ v <> ProtocolVersion)
        /\ (d = DisconnectExpired <-> claims_expired t = true)
        /\ (d = DisconnectInvalidToken <->
              numClients < MaxConnections limits /\ offered e = Ok ProtocolVersion /\ ~ cookie_upgrade upgrade e
              /\ rejected a (NewCredential SourceLink (ce_Token e)) t)
        /\ (d = DisconnectServerError <->
              verifier_failed t = true
              \/ numClients < MaxConnections limits /\ offered e = Ok ProtocolVersion
                 /\ (cookie_upgrade upgrade e /\ t = [] \/ exists p, vouched a (NewCredential SourceLink (ce_Token e)) p t)
                 /\ exists err, marshalConnectReply ProtocolVersion version = Fail err)
    end).
Proof.
  unfold connecting. destruct (MaxConnections limits <=? numClients) eqn:Hf; reflect_guards.
  { apply wp_ret. turned. }
  destruct (offered e) as [v|err] eqn:Hd; [|apply wp_ret; turned].
  unfold Authenticate. simpl.
  case_bool_decide as Hv; simpl; [|turned].
  subst v. case_match eqn:Hg.
  - rewrite !andb_true_iff, negb_true_iff, !bool_decide_eq_true, bool_decide_eq_false in Hg. destruct Hg as [[[Ht Hu] Hs] Hn].
    destruct upgrade as [op|]; simpl in *; [|by apply is_Some_None in Hu].
    assert (Hcookie : cookie_upgrade (Some op) e) by (split; eauto).
    destruct (marshalConnectReply _ _) as [reply|err]; simpl; [|turned; right; turned].
    rewrite bool_decide_true by done. split; [done|]. split; [done|]. exists (op_Principal op). eauto 10.
  - assert (Hcookie : ~ cookie_upgrade upgrade e).
    { intros (Ht & op & -> & Hs & Hn). simpl in Hg. rewrite !bool_decide_true, bool_decide_false in Hg by done. done. }
    eapply wp_seq; [apply wp_and; [apply authenticate_wp|apply wp_and;
      [apply (authentication_failures_classified a)|apply authenticate_rejects]]|].
    intros [p|err] t (Hr & Hc & Hrej); simpl in Hr.
    + assert (Ht : ce_Token e <> "") by by destruct Hr as (claims & now & _ & ? & _).
      assert (Hctx : match upgrade with Some ctx => if bool_decide (ce_Token e = "") then ctx else NewLinkOperationContext p
                     | None => NewLinkOperationContext p end = NewLinkOperationContext p).
      { destruct upgrade; [by rewrite bool_decide_false|done]. }
      rewrite Hctx. destruct (marshalConnectReply _ _) as [reply|err]; apply wp_ret; rewrite app_nil_r.
      * split; [done|]. split; [done|]. exists p. eauto 10.
      * pose proof (vouched_rules _ _ _ _ Hr) as (Hx & _ & Hno). turned. right. turned.
    + apply wp_ret. rewrite app_nil_r. destruct Hc as (H1 & H2 & H3). unfold connectRefusal.
      assert (Hp : errors_is err (Sentinel "clientlink.ErrUnsupportedProtocol") = false).
      { by destruct (refused_errors _ _ _ Hr) as [->|[->| ->]]. }
      assert (Hnov : forall p, ~ vouched a (NewCredential SourceLink (ce_Token e)) p t).
      { intros p Hvp. destruct (vouched_rules _ _ _ _ Hvp) as (Hx & Hf2 & Hno). by apply Hno, Hrej. }
      pose proof (expired_not_failed t) as Hx. pose proof (rejected_only a (NewCredential SourceLink (ce_Token e)) t) as Hro.
      rewrite Hp, H3, H1. destruct (claims_expired t) eqn:He; [|destruct (verifier_failed t) eqn:Hf2];
        try (specialize (Hx eq_refl)); simpl; turned; try naive_solver.
Qed.

(** C15: Whatever order the node reports subscriptions, unsubscriptions and
    disconnects of any number of connections in, interleaved with their subscribe
    handlers, the releases they owe and the engine's own debounced releases: every
    binding ever made is, exactly once, in its handler's hands, held for one
    channel, handed out to be released, released, or lost, written over by a
    second [hold] of a channel the connection was holding already. The engine
    counts for each session exactly the bindings not yet released, so its demand
    stays held, with no release armed, while one is. And as long as the node keeps
    its documented order (no subscribe handler on a channel still held, none after
    a disconnect was reported), none is lost, and a connection whose disconnect
    was reported owns nothing once its handler has returned and its releases
    ran. *)
Theorem bindings_given_back_once `{CoreIdentifiers}
    (order : gmap sessionKey demandEntry -> list (sessionKey * demandEntry)) (h : history) :
  (forall m, order m ≡ₚ map_to_list m) -> reachable_history order h ->
  let s := h_replica h in
  let unreleased := (all_owned (connections s) ++ h_lost h)%list in
  b_id <$> (unreleased ++ released s)%list ≡ₚ seq 0 (issued s)
  /\ (forall b, b ∈ unreleased ->
        exists entry, demand (ls_engine (link s)) !! b_key b = Some entry
          /\ bindings entry = owes (b_key b) unreleased /\ armed entry = false)
  /\ (forall key entry, demand (ls_engine (link s)) !! key = Some entry -> bindings entry = owes key unreleased)
  /\ (h_orderly h = true ->
        h_lost h = []
        /\ forall n c, connections s !! n = Some c -> disconnected c = true -> handler_ c = SubIdle -> pending c = [] -> owned c = []).
Proof.
  intros Ho Hr s unreleased. destruct (history_inv order Ho h Hr) as [[HL HO HC] HK]. unfold unreleased, s. split; [by rewrite <- app_assoc|]. split; [|split].
  - intros b Hb. specialize (HC (b_key b)). pose proof (owes_pos b _ Hb) as Hpos.
    destruct (demand (ls_engine (link (h_replica h))) !! b_key b) as [entry|] eqn:He; [|rewrite (li_absent _ HL _ He) in HC; lia].
    destruct (li_entry _ HL _ _ He) as [C A _]. exists entry. split; [done|]. split; [congruence|].
    destruct (armed entry); [|done]. assert (bindings entry = 0) by by apply A. lia.
  - intros key entry He. destruct (li_entry _ HL _ _ He) as [C _ _]. rewrite <- HC. congruence.
  - intros Hord. destruct (HK Hord) as [Hlost HKs]. split; [done|]. intros n c. by apply owned_none.
Qed.

(** ** Runs *)
Section Runs.
Context `{CoreIdentifiers} (order : gmap sessionKey demandEntry -> list (sessionKey * demandEntry)).

Lemma perform_none xs : foldl (fun s x => s ← s; if orderly x s then act order x s else None) None xs = None.
Proof. induction xs; simpl; auto. Qed.

Lemma perform_cons x xs s s1 :
  orderly x s = true -> act order x s = Some s1 -> perform order (x :: xs) s = perform order xs s1.
Proof. intros Ho Ha. unfold perform. simpl. by rewrite Ho, Ha. Qed.

Lemma perform_app xs ys s s1 : perform order xs s = Some s1 -> perform order (xs ++ ys) s = perform order ys s1.
Proof. unfold perform. intros Hp. by rewrite foldl_app, Hp. Qed.

Lemma perform_reachable xs : forall s s', reachable_replica order s -> perform order xs s = Some s' -> reachable_replica order s'.
Proof.
  induction xs as [|x xs IH]; intros s s' Hr Hp; [by injection Hp as <-|]. unfold perform in Hp. simpl in Hp.
  destruct (orderly x s) eqn:Ho; simpl in Hp; [|by rewrite perform_none in Hp].
  destruct (act order x s) as [s1|] eqn:Ha; simpl in Hp; [|by rewrite perform_none in Hp].
  apply (IH s1); [|done]. eapply reach_step; [exact Hr|]. by exists x.
Qed.

(** Once its handler is idle, a connection's releases can all run. *)
Lemma release_all n bs : forall s c, connections s !! n = Some c -> pending c = bs ->
  exists s', perform order (replicate (length bs) (Release n 0)) s = Some s' /\ (forall b, b ∈ bs \/ b ∈ released s -> b ∈ released s')
    /\ connections s' !! n = Some (MkConnection (context c) (handler_ c) (releases c) [] (disconnected c) (answers c)).
Proof.
  induction bs as [|b bs IH]; intros s c Hn Hp.
  - exists s. split; [done|]. split; [set_solver|]. destruct c. simpl in *. by subst.
  - destruct (IH (runRelease n c 0 b s) (MkConnection (context c) (handler_ c) (releases c) bs (disconnected c) (answers c)))
      as (s' & Hs & Hrel & Hc); [|done|].
    { simpl. rewrite lookup_insert_eq, Hp. done. }
    exists s'. split; [|split; [|done]].
    + simpl replicate. erewrite perform_cons; [exact Hs|done|]. simpl. rewrite Hn. simpl. by rewrite Hp.
    + intros b' Hb'. apply Hrel. simpl. set_solver.
Qed.

(** What is left of a handler on a connection whose disconnect was reported. *)
Definition remaining (n : nat) (h : subscribing) : list action :=
  match h with
  | SubIdle => []
  | SubBound _ _ => [Hold n; Callback n; Check n false]
  | SubHeld _ => [Callback n; Check n false]
  | SubChecking _ => [Check n false]
  end.

Lemma handler_returns n : forall s c, connections s !! n = Some c -> connection_ok c -> disconnected c = true ->
  exists s' c', perform order (remaining n (handler_ c)) s = Some s' /\ connections s' !! n = Some c'
    /\ disconnected c' = true /\ handler_ c' = SubIdle /\ owned c' ≡ₚ owned c.
Proof.
  assert (Hcheck : forall s c channel, connections s !! n = Some c -> handler_ c = SubChecking channel -> disconnected c = true ->
    exists s' c', perform order [Check n false] s = Some s' /\ connections s' !! n = Some c'
      /\ disconnected c' = true /\ handler_ c' = SubIdle /\ owned c' ≡ₚ owned c).
  { intros s c channel Hn Hh Hd. exists (set_connection n (goto SubIdle (drop channel c)) s), (goto SubIdle (drop channel c)).
    split; [|split; [apply lookup_insert_eq|]].
    2: { split; [by rewrite <- Hd, <- (proj2 (drop_fields channel c))|]. split; [done|]. by eapply check_owned. }
    erewrite perform_cons; [done..|]. simpl. by rewrite Hn; simpl; rewrite Hh. }
  assert (Hcall : forall s c channel, connections s !! n = Some c -> handler_ c = SubHeld channel -> disconnected c = true ->
    exists s' c', perform order [Callback n; Check n false] s = Some s' /\ connections s' !! n = Some c'
      /\ disconnected c' = true /\ handler_ c' = SubIdle /\ owned c' ≡ₚ owned c).
  { intros s c channel Hn Hh Hd.
    destruct (Hcheck (set_connection n (goto (SubChecking channel) (answer channel None c)) s)
      (goto (SubChecking channel) (answer channel None c)) channel) as (s' & c' & Hs & Hc & Hd' & Hh' & Ho); [apply lookup_insert_eq|done..|].
    exists s', c'. split; [|split; [done|]; split; [done|]; split; [done|]; rewrite Ho; unfold owned; simpl; by rewrite Hh]. erewrite perform_cons; [exact Hs|done|]. simpl. by rewrite Hn; simpl; rewrite Hh. }
  intros s c Hn Hok Hd. destruct (handler_ c) as [|channel b|channel|channel] eqn:Hh; [by exists s, c| |by eapply Hcall|by eapply Hcheck].
  destruct (Hcall (set_connection n (goto (SubHeld channel) (hold channel b c)) s)
    (goto (SubHeld channel) (hold channel b c)) channel) as (s' & c' & Hs & Hc & Hd' & Hh' & Ho); [apply lookup_insert_eq|done..|].
  exists s', c'. split; [|split; [done|]; split; [done|]; split; [done|]; rewrite Ho; symmetry; rewrite (hold_owned channel b c Hh) at 1; by rewrite (co_bound _ Hok channel b Hh)]. simpl remaining. erewrite perform_cons; [exact Hs|done|]. simpl. by rewrite Hn; simpl; rewrite Hh.
Qed.
End Runs.

(** From any state the replica can reach, a connection whose disconnect was
    reported can finish: what is left of its subscribe handler and of its releases
    is at most three actions more than the bindings it owns, and then it owns none
    and each of those bindings has been released. Nothing it waits for is needed
    from another connection. *)
Theorem disconnected_client_settles `{CoreIdentifiers}
    (order : gmap sessionKey demandEntry -> list (sessionKey * demandEntry)) (s : replica) (n : nat) (c : connection) :
  (forall m, order m ≡ₚ map_to_list m) -> reachable_replica order s ->
  connections s !! n = Some c -> disconnected c = true ->
  exists xs s' c', perform order xs s = Some s' /\ (length xs <= 3 + length (owned c))%nat
    /\ connections s' !! n = Some c' /\ owned c' = [] /\ (forall b, b ∈ owned c -> b ∈ released s').
Proof.
  intros Ho Hr Hn Hd. pose proof (ri_conns _ (inv_reachable order Ho s Hr) n c Hn) as Hok.
  destruct (handler_returns order n s c Hn Hok Hd) as (s1 & c1 & Hp1 & Hn1 & Hd1 & Hh1 & Ho1).
  pose proof (inv_reachable order Ho s1 (perform_reachable order _ _ _ Hr Hp1)) as Hi1.
  assert (Hrel : releases c1 = ∅).
  { apply map_eq. intros ch. rewrite lookup_empty. destruct (releases c1 !! ch) as [b|] eqn:Hb; [|done].
    pose proof (co_closed _ (ri_conns _ Hi1 n c1 Hn1) Hd1 ch b Hb) as Hw. by rewrite Hh1 in Hw. }
  assert (Howned : owned c1 = pending c1) by (unfold owned; by rewrite Hh1, Hrel, map_to_list_empty).
  destruct (release_all order n (pending c1) s1 c1 Hn1 eq_refl) as (s2 & Hp2 & Hrels & Hn2).
  exists (remaining n (handler_ c) ++ replicate (length (pending c1)) (Release n 0))%list, s2. eexists.
  split; [by rewrite (perform_app order _ _ _ s1 Hp1)|]. split; [|split; [exact Hn2|split]].
  - rewrite length_app, length_replicate, <- Howned, Ho1. destruct (handler_ c); simpl; lia.
  - unfold owned. simpl. by rewrite Hh1, Hrel, map_to_list_empty.
  - intros b Hb. apply Hrels. left. by rewrite <- Howned, Ho1.
Qed.

(** ** Stopping *)

(** What a release of demand that failed was answered. *)
Definition failure (ev : event linkCall) : option error :=
  match ev with
  | Ev _ c r => match c in linkCall R return R -> option error with DemandRelease _ => fun r => r | _ => fun _ => None end r
  end.

Lemma releaseIdle_all es : forall e,
  (forall key entry, (key, entry) ∈ es -> bindings entry = 0 /\ armed entry = true) ->
  wp (releaseIdle es e) (fun r t => r.1 = omap failure t
    /\ forall key, demand r.2 !! key = if bool_decide (key ∈ es.*1) then None else demand e !! key).
Proof.
  induction es as [|[key entry] es IH]; intros e Hidle; simpl releaseIdle; [by apply wp_ret|].
  destruct (Hidle key entry) as [Hb Ha]; [apply elem_of_cons; by left|]. rewrite Hb, Ha. change (0 <? 0) with false. cbn [orb negb].
  unfold releaseDemandLocked. intros r. apply wp_bind, wp_ret. cbv beta. cbn [app].
  eapply wp_seq; [apply (IH (drop_ key e)); intros k en Hin; apply (Hidle k en), elem_of_cons; by right|].
  intros [fs e'] t [Hf Ht]. apply wp_ret. simpl in Hf, Ht |- *. rewrite app_nil_r. split; [subst fs; by destruct r|].
  intros k. rewrite Ht. destruct (decide (k = key)) as [->|Hne].
  - rewrite lookup_delete_eq. repeat case_bool_decide; set_solver.
  - rewrite lookup_delete_ne by done. repeat case_bool_decide; set_solver.
Qed.

(** Once every connection's disconnect was reported and their handlers and
    releases have run, [Shutdown] gives back the demand of every session this
    replica held, each once and none it does not hold, whatever the demand plane
    answers and whether the node stopped cleanly: nothing is left for a debounced
    release to give back after it. It succeeds exactly when the node stopped
    cleanly and no release failed. *)
Theorem shutdown_holds_nothing `{CoreIdentifiers}
    (order : gmap sessionKey demandEntry -> list (sessionKey * demandEntry)) (s : replica) (stopped : option error) :
  (forall m, order m ≡ₚ map_to_list m) -> reachable_replica order s ->
  (forall n c, connections s !! n = Some c -> disconnected c = true /\ handler_ c = SubIdle /\ pending c = []) ->
  wp (Shutdown order stopped (ls_engine (link s))) (fun r t =>
    demand r.2 = ∅ /\ after t (ls_held (link s)) = Some ∅ /\ (r.1 = None <-> stopped = None /\ omap failure t = [])).
Proof.
  intros Ho Hr Hall. pose proof (inv_reachable order Ho s Hr) as Hi. pose proof (engine_inv s [] (ri_ledger _ Hi)) as Hl.
  assert (Hidle : forall key entry, demand (ls_engine (link s)) !! key = Some entry -> bindings entry = 0 /\ armed entry = true).
  { intros key entry He. destruct (li_entry _ Hl key entry He) as [C A _]. simpl in C. rewrite (ri_count _ _ Hi) in C.
    assert (Hnone : all_owned (connections s) = []).
    { destruct (all_owned (connections s)) as [|b bs] eqn:Hb; [done|].
      assert (Hin : b ∈ all_owned (connections s)) by (rewrite Hb; set_solver).
      apply all_owned_elem in Hin as (n & c & Hn & Hc). destruct (Hall n c Hn) as (Hd & Hh & Hp).
      rewrite (owned_none s n c (ri_conns _ Hi) Hn Hd Hh Hp) in Hc. set_solver. }
    rewrite Hnone in C. unfold owes in C. rewrite tally_nil in C. split; [done|]. by apply A. }
  unfold Shutdown, ReleaseIdleDemand. apply wp_bind, wp_bind.
  assert (Hin : forall key entry, (key, entry) ∈ order (demand (ls_engine (link s))) -> demand (ls_engine (link s)) !! key = Some entry).
  { intros key entry He. rewrite (Ho _) in He. by apply elem_of_map_to_list. }
  eapply wp_mono; [|apply wp_and; [apply (releaseIdle_all (order (demand (ls_engine (link s)))) (ls_engine (link s)))
    |apply (releaseIdle_inv (outstanding (link s)) (order (demand (ls_engine (link s)))) (ls_engine (link s)))]].
  - intros [fs e'] t [[Hf Hd] [_ Hled]]. apply wp_ret, wp_ret. rewrite !app_nil_r. simpl in *.
    assert (He' : demand e' = ∅).
    { apply map_eq. intros key. rewrite Hd, lookup_empty. case_bool_decide as Hk; [done|].
      destruct (demand (ls_engine (link s)) !! key) as [entry|] eqn:He; [|done]. destruct Hk. rewrite (Ho _).
      apply list_elem_of_fmap. exists (key, entry). split; [done|]. by apply elem_of_map_to_list. }
    split; [done|]. split; [|subst fs; destruct stopped, (omap failure t); naive_solver].
    rewrite (li_held _ (ri_link _ Hi)). simpl. by rewrite Hled, He', dom_empty_L.
  - intros key entry He. by apply (Hidle key), Hin.
  - rewrite (Ho _). apply NoDup_fst_map_to_list.
  - exact Hin.
  - exact Hl.
Qed.

(** ** Examples *)
Definition demo_operation : OperationContext := NewLinkOperationContext demo_principal.

(** A client that goes while its subscribe handler is between the engine's
    binding and the node's callback. *)
Definition demo_leaving : list action :=
  [Connected 0 demo_operation; Subscribe 0 "session:t:s" None None; Hold 0; Disconnected 0; Callback 0; Check 0 false].

Definition demo_replica : replica := default empty_replica (perform map_to_list demo_leaving empty_replica).

Lemma demo_reachable : reachable_replica map_to_list demo_replica.
Proof.
  apply (perform_reachable map_to_list demo_leaving empty_replica); [by apply reach_init|]. unfold demo_replica.
  destruct (perform _ _ _) as [s|] eqn:Hp; [done|]. by vm_compute in Hp.
Qed.

(** A run with what it wrote over. *)
Definition demo_history (xs : list action) : history :=
  foldl (fun h x => match act map_to_list x (h_replica h) with
    | Some s' => MkHistory s' (overwritten x (h_replica h) ++ h_lost h) (h_orderly h && orderly x (h_replica h))
    | None => h
    end) (MkHistory empty_replica [] true) xs.

Lemma demo_history_reachable xs : reachable_history map_to_list (demo_history xs).
Proof.
  induction xs as [|x xs IH] using rev_ind; [by apply reach_init|]. unfold demo_history. rewrite foldl_app. simpl. fold (demo_history xs).
  destruct (act map_to_list x (h_replica (demo_history xs))) as [s'|] eqn:Ha; [|done]. eapply reach_step; [exact IH|]. by exists x, s'.
Qed.

(** A node that starts a second subscription to a channel it has not reported
    the end of. *)
Definition demo_twice : list action :=
  [Connected 0 demo_operation;
   Subscribe 0 "session:t:s" None None; Hold 0; Callback 0; Check 0 true;
   Subscribe 0 "session:t:s" None None; Hold 0; Callback 0; Check 0 true;
   Unsubscribed 0 "session:t:s"; Disconnected 0; Release 0 0].

(** [hold] replaces what it holds for a channel without releasing it: the first
    binding is owned by nobody, and its session's demand is held until the process
    ends, though the connection is gone and all it owed was released. *)
Lemma overwritten_binding_is_lost :
  let h := demo_history demo_twice in
  all_owned (connections (h_replica h)) = [] /\ length (released (h_replica h)) = 1%nat
  /\ h_lost h = [MkBinding 0 (SessionKey "t" "s")]
  /\ (bindings <$> demand (ls_engine (link (h_replica h))) !! SessionKey "t" "s") = Some 1.
Proof. by vm_compute. Qed.

Lemma bindings_given_back_once_witness :
  (h_orderly (demo_history demo_leaving) = true /\ h_lost (demo_history demo_leaving) = [])
  /\ (h_orderly (demo_history demo_twice) = false /\ h_lost (demo_history demo_twice) = [MkBinding 0 (SessionKey "t" "s")]
      /\ exists entry, demand (ls_engine (link (h_replica (demo_history demo_twice)))) !! SessionKey "t" "s" = Some entry
           /\ bindings entry = 1 /\ armed entry = false).
Proof.
  assert (Hord : h_orderly (demo_history demo_leaving) = true) by by vm_compute.
  assert (Hlost : h_lost (demo_history demo_twice) = [MkBinding 0 (SessionKey "t" "s")]) by by vm_compute.
  assert (Hown : all_owned (connections (h_replica (demo_history demo_twice))) = []) by by vm_compute.
  split; [split; [done|]|split; [by vm_compute|split; [done|]]].
  - apply (proj2 (proj2 (proj2 (bindings_given_back_once map_to_list (demo_history demo_leaving)
      (fun m => reflexivity _) (demo_history_reachable demo_leaving)))) Hord).
  - pose proof (proj1 (proj2 (bindings_given_back_once map_to_list (demo_history demo_twice)
      (fun m => reflexivity _) (demo_history_reachable demo_twice))) (MkBinding 0 (SessionKey "t" "s"))) as Hb.
    rewrite Hown, Hlost in Hb. apply Hb. by apply list_elem_of_singleton.
Defined.

Lemma disconnected_client_settles_witness : exists c,
  connections demo_replica !! 0%nat = Some c /\ pending c = [MkBinding 0 (SessionKey "t" "s")]
  /\ exists xs s' c', perform map_to_list xs demo_replica = Some s' /\ (length xs <= 3 + length (owned c))%nat
    /\ connections s' !! 0%nat = Some c' /\ owned c' = [] /\ (forall b, b ∈ owned c -> b ∈ released s').
Proof.
  eexists. split; [by vm_compute|]. split; [done|].
  apply (disconnected_client_settles map_to_list demo_replica 0);
    [intros m; reflexivity|apply demo_reachable|by vm_compute|by vm_compute].
Defined.

(** The same client, once its release ran. *)
Definition demo_gone : replica := default empty_replica (perform map_to_list [Release 0 0] demo_replica).

Lemma demo_gone_reachable : reachable_replica map_to_list demo_gone.
Proof.
  apply (perform_reachable map_to_list [Release 0 0%nat] demo_replica); [apply demo_reachable|]. unfold demo_gone.
  destruct (perform map_to_list [Release 0 0%nat] demo_replica) as [s|] eqn:Hp; [done|]. by vm_compute in Hp.
Qed.

Lemma shutdown_holds_nothing_witness :
  ls_held (link demo_gone) = Some {[SessionKey "t" "s"]}
  /\ wp (Shutdown map_to_list None (ls_engine (link demo_gone))) (fun r t =>
       demand r.2 = ∅ /\ after t (ls_held (link demo_gone)) = Some ∅ /\ (r.1 = None <-> @None error = None /\ omap failure t = [])).
Proof.
  split; [by vm_compute|]. apply (shutdown_holds_nothing map_to_list demo_gone None); [intros m; reflexivity|apply demo_gone_reachable|].
  intros n c Hn. apply elem_of_map_to_list in Hn. revert n c Hn.
  cut (Forall (fun kv => disconnected kv.2 = true /\ handler_ kv.2 = SubIdle /\ pending kv.2 = []) (map_to_list (connections demo_gone))).
  { intros Hall n c Hn. exact (proj1 (Forall_forall _ _) Hall (n, c) Hn). }
  vm_compute. repeat constructor.
Defined.

(** ** Frames *)

Lemma limits_accepted l : Limits_Validate l = None ->
  (MaxMessageBytes l = 0 \/ Z.shiftl 64 10 <= MaxMessageBytes l <= Z.shiftl 16 20)
  /\ 1 <= MaxChannelsPerConnection l /\ 1 <= PerConnectionQueueBytes l
  /\ MinPingInterval <= PingInterval l /\ 0 < PongTimeout l /\ 0 < WriteTimeout l.
Proof.
  unfold Limits_Validate. intros Hv.
  repeat match type of Hv with (if ?b then _ else _) = None => destruct b eqn:?; [done|] end.
  rewrite !andb_false_iff, orb_false_iff, negb_false_iff in *. reflect_guards. lia.
Qed.

(** Every socket built from accepted limits has a frame limit no smaller than
    the largest command payload a method admits, nor than the transport's
    default of 64 KiB, and above that default it leaves 16 KiB for the command's
    envelope; it is at most 16 MiB and that envelope. The queue, the channels
    and the timers the node and the socket get are positive. *)
Lemma frames_carry_admitted_commands `{NodeLibrary} (cfg : EngineConfig) (h : Handler) (method : string) :
  NewHandler cfg = Ok h ->
  rpcLimit (e_Limits cfg) method <= ws_MessageSizeLimit (h_ws h)
  /\ Z.shiftl 64 10 <= ws_MessageSizeLimit (h_ws h) <= Z.shiftl 16 20 + rpcFrameHeadroomBytes
  /\ (Z.shiftl 64 10 < rpcLimit (e_Limits cfg) method ->
        rpcLimit (e_Limits cfg) method + rpcFrameHeadroomBytes <= ws_MessageSizeLimit (h_ws h))
  /\ 1 <= nc_ClientQueueMaxSize (h_node h) /\ 1 <= nc_ClientChannelLimit (h_node h)
  /\ MinPingInterval <= ws_PingInterval (h_ws h) /\ 0 < ws_PongTimeout (h_ws h) /\ 0 < ws_WriteTimeout (h_ws h).
Proof.
  unfold NewHandler, NewEngine. intros Hn.
  repeat match type of Hn with context [if ?b then _ else _] => destruct b; [done|] end.
  destruct (Limits_Validate (e_Limits cfg)) as [err|] eqn:Hv; [done|].
  destruct (node_new _); [done|]. destruct (node_run _); [done|]. injection Hn as <-. simpl.
  destruct (limits_accepted _ Hv) as (Hm & Hc & Hq & Hp & Ho & Hw). unfold rpcLimit, rpcFrameHeadroomBytes.
  change (Z.shiftl 64 10) with 65536 in *. change (Z.shiftl 16 20) with 16777216 in *. change (Z.shiftl 16 10) with 16384.
  repeat case_match; reflect_guards; lia.
Qed.
