(* ===== verification/HostRpc.v ===== *)
(** * The HostLink transport: dialing, calls and closing
    (src/internal/realtime/hostlink/centrifuge.go)

    The link a pool holds to one Host over centrifuge-go. The readers of replies
    and pushes are functions; the calls, the transport's callbacks, the
    generations a reconnect cancels and the ordered close are a machine whose
    actions are the critical sections of the code, interleaved in any order.

    centrifuge-go and Core's JSON are parameters. Of the transport the machine
    uses what the code documents: callbacks run one at a time and in the order
    of the connection's transitions, OnConnecting returns before a reconnect
    starts, a queued request may be emitted before OnConnected runs, and a
    request is emitted only while its context is not done. *)

From S2P Require Import Prelude Wire Framing Bindings Pool.
Local Open Scope string_scope.
Local Open Scope Z_scope.

(** ** Errors *)
Definition ErrUnsupportedProtocol : error := sentinel "hostlink.ErrUnsupportedProtocol".
Definition ErrDialFailed : error := sentinel "hostlink.ErrDialFailed".
Definition ErrHostFailed : error := sentinel "hostlink.ErrHostFailed".
Definition ErrLinkReconnecting : error := sentinel "hostlink.ErrLinkReconnecting".
Definition ErrLinkClosed : error := sentinel "hostlink.ErrLinkClosed".
Definition ErrUnsupportedMethod : error := sentinel "hostlink.ErrUnsupportedMethod".
Definition ErrMalformedAttachReply : error := sentinel "hostlink.ErrMalformedAttachReply".
Definition Canceled : error := sentinel "context.Canceled".

(** A decimal close code is the error's code. *)
Definition HostDisconnect (code : N) : error := Err (Typed "hostlink.HostDisconnect" (itoa code) "" 0) [ErrDialFailed].
Definition HostFailure (method : string) (code : N) : error :=
  Err (Typed "hostlink.HostFailure" (itoa code) method 0) [ErrHostFailed].
Definition HostRefusal (code : string) : error := Err (Typed "hostlink.HostRefusal" code "" 0) [].
Definition UnsupportedMethodError (method : string) : error :=
  Err (Typed "hostlink.UnsupportedMethodError" method "" 0) [ErrUnsupportedMethod].

(** ** The dialer *)
Record CentrifugeDialer := MkDialer { d_version : string; d_limits : Limits }.

#[global] Instance Limits_eq_dec : EqDecision Limits.
Proof. solve_decision. Defined.

(** The credential by presence. *)
Definition NewCentrifugeDialer (hasCredential : bool) (version : string) (limits : Limits) : result CentrifugeDialer :=
  if negb hasCredential then Fail (wrapf [ErrInvalidConfig])
  else if bool_decide (version = "") then Fail (wrapf [ErrInvalidConfig])
  else
    let limits := if bool_decide (limits = MkLimits 0 0 0 0 0) then DefaultLimits else limits in
    match Pool.Validate limits with
    | Some err => Fail err
    | None => Ok (MkDialer version limits)
    end.

(** ** Core's records on the wire *)
Abbreviation methodSet := (gset string).

(** sessionwire.VersionNegotiationResponse: the version, and the methods
    [Supports] matches by exact name. *)
Record VersionNegotiationResponse := MkNegotiation { nr_Version : Z; nr_Methods : methodSet }.

Definition Supports (method : string) (r : VersionNegotiationResponse) : bool := bool_decide (method ∈ nr_Methods r).

Definition zeroNegotiation : VersionNegotiationResponse := MkNegotiation 0 ∅.

(** Core's strict decoders; a refusal by its code. *)
Class HostLinkJSON := {
  CurrentWireVersion : Z;
  DecodeHostLinkConnectReply : bytes -> option VersionNegotiationResponse;
  UnmarshalHostLinkError : bytes -> option string;
  UnmarshalObservation : bytes -> option HostLinkRegistryObservation;
  UnmarshalCapacity : bytes -> option HostLinkCapacityReport;
  UnmarshalEnvelope : bytes -> option (string * bytes)
}.

(** The refusal requires a member the observation refuses, and the converse
    ([decodeAttachReply]: "at most one decode can succeed"). *)
Class HostLinkJSONLaws (codec : HostLinkJSON) : Prop :=
  records_disjoint : forall data code, UnmarshalHostLinkError data = Some code -> UnmarshalObservation data = None.

Section Replies.
Context `{HostLinkJSON}.

Definition verifyNegotiation (data : bytes) : result VersionNegotiationResponse :=
  if bool_decide (data = "") then Fail (wrapf [ErrUnsupportedProtocol])
  else match DecodeHostLinkConnectReply data with
  | None => Fail (wrapf [ErrUnsupportedProtocol])
  | Some reply =>
      if negb (nr_Version reply =? CurrentWireVersion) then Fail (wrapf [ErrUnsupportedProtocol]) else Ok reply
  end.

Definition decodeAttachReply (data : bytes) : result HostLinkRegistryObservation :=
  if bool_decide (data = "") then Fail (wrapf [ErrMalformedAttachReply])
  else match UnmarshalHostLinkError data with
  | Some refusal => Fail (HostRefusal refusal)
  | None =>
      match UnmarshalObservation data with
      | None => Fail (wrapf [ErrMalformedAttachReply])
      | Some observation => Ok observation
      end
  end.

(** The reading of [call]'s reply: bind, unbind and delivery accept with an
    empty body. *)
Definition callReply (reply : result bytes) : option error :=
  match reply with
  | Fail err => Some err
  | Ok data =>
      if bool_decide (data = "") then None
      else match UnmarshalHostLinkError data with
      | None => Some (sentinel "hostlink.call.unreadable")
      | Some refusal => Some (HostRefusal refusal)
      end
  end.

Definition attachReply (reply : result bytes) : result HostLinkRegistryObservation :=
  match reply with Fail err => Fail err | Ok data => decodeAttachReply data end.

(** What [onMessage] hands the observer, if anything. *)
Inductive observation := ObserveCapacity (report : HostLinkCapacityReport) | ObserveRegistry (o : HostLinkRegistryObservation).

Definition PushTypeCapacity : string := "host.capacity".
Definition PushTypeRegistry : string := "host.registry".

Definition onMessage (data : bytes) : option observation :=
  match UnmarshalEnvelope data with
  | None => None
  | Some (type, data) =>
      if bool_decide (type = PushTypeCapacity) then ObserveCapacity <$> UnmarshalCapacity data
      else if bool_decide (type = PushTypeRegistry) then ObserveRegistry <$> UnmarshalObservation data
      else None
  end.

(** [client.RPC]'s outcomes: a reply, an error the server replied with, or a
    condition of the client. *)
Inductive rpcOutcome := Replied (data : bytes) | Answered (code : N) | Broken (err : error).

Definition exchangeReply (method : string) (out : rpcOutcome) : result bytes :=
  match out with
  | Replied data => Ok data
  | Answered code => Fail (HostFailure method code)
  | Broken err => Fail (wrapf [err])
  end.

(** ** Dialing *)

(** Which arm of [Dial]'s select was taken. *)
Inductive dialArm := DialSettled (err : option error) | DialContext (err : error) | DialTimeout_.

(** The link is returned only when the handshake settled without an error;
    every other return closes the client. *)
Definition Dial `{PoolPrimitives} (target : Target) (connectData connect : option error) (arm : dialArm) : result unit :=
  match Target_Validate target with
  | Some err => Fail err
  | None =>
      match connectData with
      | Some err => Fail (wrapf [ErrDialFailed; err])
      | None =>
          match connect with
          | Some err => Fail (wrapf [ErrDialFailed; err])
          | None =>
              match arm with
              | DialSettled None => Ok tt
              | DialSettled (Some err) => Fail err
              | DialContext err => Fail (wrapf [ErrDialFailed; err])
              | DialTimeout_ => Fail (wrapf [ErrDialFailed])
              end
          end
      end
  end.
End Replies.

(** ** In-flight calls *)

(** [inflight]: the channel by how often it has been closed; a second close
    would panic. *)
Record inflight := MkInflight { count : Z; closing : bool; drainedClosed : nat }.

Definition enter (f : inflight) : bool * inflight :=
  if closing f then (false, f) else (true, MkInflight (count f + 1) false (drainedClosed f)).

Definition leave (f : inflight) : inflight :=
  let n := count f - 1 in
  MkInflight n (closing f) (if closing f && (n =? 0) then S (drainedClosed f) else drainedClosed f).

Definition close (f : inflight) : inflight :=
  if closing f then f
  else MkInflight (count f) true (if count f =? 0 then S (drainedClosed f) else drainedClosed f).

(** ** Generations *)

(** [rpcGeneration]: the registered cancel functions, by the call whose context
    each cancels. *)
Record rpcGeneration := MkGeneration { canceled : bool; bindings : gset nat }.

Definition newRPCGeneration : rpcGeneration := MkGeneration false ∅.

(** ** The machine *)

(** Where a call is in [exchange] and [rpc]. *)
Inductive callPoint :=
| AtSnapshot                 (* before the critical section *)
| AtFirstCheck               (* in [bind], before its first check *)
| AtSecondCheck              (* in [bind], its context made *)
| AtEnter                    (* its context bound *)
| AtSelect                   (* its goroutine started *)
| Returned (err : option error).

(** A call: its method and whether it is gated, the generation it saw, whether
    its context is done, whether its goroutine is inside [client.RPC], whether
    the transport has emitted it. *)
Record call := MkCall {
  c_method : string; c_gated : bool; c_point : callPoint; c_gen : option nat; c_done : bool; c_inside : bool; c_sent : bool }.

Definition at_point (p : callPoint) (c : call) : call :=
  MkCall (c_method c) (c_gated c) p (c_gen c) (c_done c) (c_inside c) (c_sent c).
Definition with_done (c : call) : call :=
  MkCall (c_method c) (c_gated c) (c_point c) (c_gen c) true (c_inside c) (c_sent c).

(** A [cancel] that is under way: before its critical section, or with the
    functions it took still to run. *)
Inductive cancelling := CancelStart (gen : nat) | CancelRun (calls : gset nat).

(** The transport: before [Connect], in the OnConnecting callback, connecting,
    up with whether OnConnected has run, or closed for good. *)
Inductive transport := TIdle | TCallback (work : option cancelling) | TConnecting | TUp (announced : bool) | TClosed.

(** What reached the wire: the connection, the call's method, whether it was
    gated, and whether the link was terminal. *)
Record emission := MkEmission { em_conn : nat; em_method : string; em_gated : bool; em_terminal : bool }.

Record link := MkLink {
  terminal : option error;
  negotiated : VersionNegotiationResponse;
  connecting : bool;
  generation : option nat;
  generations : gmap nat rpcGeneration;
  settled : option (option error);
  rpcs : inflight;
  transportClosed : bool;
  drainedFirst : bool;                       (* Close saw the drain, not its bound *)
  calls : gmap nat call;
  conn : nat;                                (* the connections attempted *)
  trans : transport;
  failing : list cancelling;                 (* cancels started by [fail] *)
  advertised : gmap nat methodSet;           (* what each connection's reply named *)
  wire : list emission
}.

(** Before [Connect] is called. *)
Definition dialed : link :=
  MkLink None zeroNegotiation false None ∅ None (MkInflight 0 false 0) false false ∅ 0 TIdle [] ∅ [].

Definition set_call (i : nat) (c : call) (l : link) : link :=
  MkLink (terminal l) (negotiated l) (connecting l) (generation l) (generations l) (settled l) (rpcs l)
    (transportClosed l) (drainedFirst l) (<[i := c]> (calls l)) (conn l) (trans l) (failing l) (advertised l) (wire l).
Definition set_generation (g : nat) (gen : rpcGeneration) (l : link) : link :=
  MkLink (terminal l) (negotiated l) (connecting l) (generation l) (<[g := gen]> (generations l)) (settled l) (rpcs l)
    (transportClosed l) (drainedFirst l) (calls l) (conn l) (trans l) (failing l) (advertised l) (wire l).
Definition set_rpcs (f : inflight) (l : link) : link :=
  MkLink (terminal l) (negotiated l) (connecting l) (generation l) (generations l) (settled l) f
    (transportClosed l) (drainedFirst l) (calls l) (conn l) (trans l) (failing l) (advertised l) (wire l).
Definition set_trans (t : transport) (l : link) : link :=
  MkLink (terminal l) (negotiated l) (connecting l) (generation l) (generations l) (settled l) (rpcs l)
    (transportClosed l) (drainedFirst l) (calls l) (conn l) t (failing l) (advertised l) (wire l).
Definition set_failing (f : list cancelling) (l : link) : link :=
  MkLink (terminal l) (negotiated l) (connecting l) (generation l) (generations l) (settled l) (rpcs l)
    (transportClosed l) (drainedFirst l) (calls l) (conn l) (trans l) f (advertised l) (wire l).

(** The verdict of [exchange]'s snapshot. *)
Definition admitted_by (terminal : option error) (connecting supported gated : bool) (method : string) : option error :=
  match terminal with
  | Some err => Some err
  | None =>
      if gated then
        if connecting then Some (wrapf [ErrLinkReconnecting])
        else if negb supported then Some (UnsupportedMethodError method) else None
      else None
  end.

Definition snapshot (i : nat) (c : call) (l : link) : link :=
  match admitted_by (terminal l) (connecting l) (Supports (c_method c) (negotiated l)) (c_gated c) (c_method c) with
  | Some err => set_call i (at_point (Returned (Some err)) c) l
  | None =>
      let point := if generation l then AtFirstCheck else AtEnter in
      set_call i (MkCall (c_method c) (c_gated c) point (generation l) (c_done c) false false) l
  end.

(** The two critical sections of [rpcGeneration.bind]. *)
Definition firstCheck (i : nat) (c : call) (g : nat) (l : link) : link :=
  match generations l !! g with
  | Some gen =>
      if canceled gen then set_call i (at_point (Returned (Some (wrapf [Canceled]))) c) l
      else set_call i (at_point AtSecondCheck c) l
  | None => l
  end.

Definition secondCheck (i : nat) (c : call) (g : nat) (l : link) : link :=
  match generations l !! g with
  | Some gen =>
      if canceled gen then set_call i (at_point (Returned (Some (wrapf [Canceled]))) c) l
      else set_call i (at_point AtEnter c) (set_generation g (MkGeneration false ({[i]} ∪ bindings gen)) l)
  | None => l
  end.

(** The [release] that [bind] returned. *)
Definition release (i : nat) (c : call) (l : link) : link :=
  match c_gen c with
  | Some g =>
      match generations l !! g with
      | Some gen => set_generation g (MkGeneration (canceled gen) (bindings gen ∖ {[i]})) l
      | None => l
      end
  | None => l
  end.

Definition return_ (i : nat) (c : call) (err : option error) (l : link) : link :=
  set_call i (at_point (Returned err) (with_done c)) (release i c l).

(** [rpc]'s admission, and the start of its goroutine. *)
Definition enterCall (i : nat) (c : call) (l : link) : link :=
  let '(ok, f) := enter (rpcs l) in
  if ok then set_call i (MkCall (c_method c) (c_gated c) AtSelect (c_gen c) (c_done c) true (c_sent c)) (set_rpcs f l)
  else return_ i c (Some (wrapf [ErrLinkClosed])) l.

Definition leaveCall (i : nat) (c : call) (l : link) : link :=
  set_call i (MkCall (c_method c) (c_gated c) (c_point c) (c_gen c) (c_done c) false (c_sent c)) (set_rpcs (leave (rpcs l)) l).

Definition emit (i : nat) (c : call) (l : link) : link :=
  let e := MkEmission (conn l) (c_method c) (c_gated c) (if terminal l then true else false) in
  MkLink (terminal l) (negotiated l) (connecting l) (generation l) (generations l) (settled l) (rpcs l) (transportClosed l)
    (drainedFirst l) (<[i := MkCall (c_method c) (c_gated c) (c_point c) (c_gen c) (c_done c) (c_inside c) true]> (calls l))
    (conn l) (trans l) (failing l) (advertised l) (wire l ++ [e]).

(** One step of [rpcGeneration.cancel]; [i] is the function it runs next. *)
Definition cancelStep (w : cancelling) (i : nat) (l : link) : option cancelling * link :=
  match w with
  | CancelStart g =>
      match generations l !! g with
      | Some gen =>
          if canceled gen then (None, l)
          else (Some (CancelRun (bindings gen)), set_generation g (MkGeneration true ∅) l)
      | None => (None, l)
      end
  | CancelRun todo =>
      if bool_decide (todo = ∅) then (None, l)
      else if bool_decide (i ∈ todo) then
        (Some (CancelRun (todo ∖ {[i]})), match calls l !! i with Some c => set_call i (with_done c) l | None => l end)
      else (Some w, l)
  end.

Definition fail (err : error) (l : link) : link :=
  match terminal l with
  | Some _ => l
  | None =>
      MkLink (Some err) (negotiated l) (connecting l) (generation l) (generations l) (settled l) (rpcs l) (transportClosed l)
        (drainedFirst l) (calls l) (conn l) (trans l)
        (failing l ++ match generation l with Some g => [CancelStart g] | None => [] end) (advertised l) (wire l)
  end.

Definition settleDial (err : option error) (l : link) : link :=
  match settled l with
  | Some _ => l
  | None =>
      MkLink (terminal l) (negotiated l) (connecting l) (generation l) (generations l) (Some err) (rpcs l)
        (transportClosed l) (drainedFirst l) (calls l) (conn l) (trans l) (failing l) (advertised l) (wire l)
  end.

(** [onConnecting]'s critical section; the cancel of the previous generation
    is the callback's work. A new generation is numbered as its connection. *)
Definition onConnecting (l : link) : link :=
  let next := S (conn l) in
  match terminal l with
  | Some _ =>
      MkLink (terminal l) (negotiated l) (connecting l) (generation l) (generations l) (settled l) (rpcs l) (transportClosed l)
        (drainedFirst l) (calls l) next (TCallback None) (failing l) (advertised l) (wire l)
  | None =>
      MkLink None zeroNegotiation true (Some next) (<[next := newRPCGeneration]> (generations l)) (settled l) (rpcs l)
        (transportClosed l) (drainedFirst l) (calls l) next (TCallback (CancelStart <$> generation l)) (failing l)
        (advertised l) (wire l)
  end.

Definition negotiate (r : VersionNegotiationResponse) (l : link) : link :=
  let known := <[conn l := nr_Methods r]> (advertised l) in
  match terminal l with
  | Some _ =>
      MkLink (terminal l) (negotiated l) (connecting l) (generation l) (generations l) (settled l) (rpcs l) (transportClosed l)
        (drainedFirst l) (calls l) (conn l) (TUp true) (failing l) known (wire l)
  | None =>
      MkLink None r false (generation l) (generations l) (settled l) (rpcs l) (transportClosed l)
        (drainedFirst l) (calls l) (conn l) (TUp true) (failing l) known (wire l)
  end.

Definition onConnected `{HostLinkJSON} (data : bytes) (l : link) : link :=
  match verifyNegotiation data with
  | Fail err => settleDial (Some err) (set_trans (TUp true) (fail err l))
  | Ok reply => settleDial None (negotiate reply l)
  end.

Definition onDisconnected (code : N) (l : link) : link :=
  settleDial (Some (HostDisconnect code)) (set_trans TClosed (fail (HostDisconnect code) l)).

(** [Close] after [fail]: the closing of the count, and the flag set once the
    drain or the bound has been waited for. *)
Definition markClosed (byDrain : bool) (l : link) : link :=
  MkLink (terminal l) (negotiated l) (connecting l) (generation l) (generations l) (settled l) (rpcs l) true byDrain
    (calls l) (conn l) (trans l) (failing l) (advertised l) (wire l).

Inductive action :=
| Start (i : nat) (method : string) (gated : bool)
| Snapshot (i : nat) | FirstCheck (i : nat) | SecondCheck (i : nat) | Enter (i : nat)
| Emit (i : nat) | Leave (i : nat) | Expire (i : nat)
| ReturnOutcome (i : nat) (err : option error) | ReturnDone (i : nat) (err : error)
| Connecting | CallbackCancel (i : nat) | CallbackReturn | Reconnected | Connected (data : bytes) | Disconnected (code : N)
| CloseFail | FailCancel (k : nat) (i : nat) | CloseCount | MarkClosed (byDrain : bool) | ClientClosed.

Definition when (b : bool) (l : link) : option link := if b then Some l else None.

(** An action of a call that is at a point. *)
Definition on_call (i : nat) (ready : call -> bool) (f : call -> link) (l : link) : option link :=
  match calls l !! i with Some c => when (ready c) (f c) | None => None end.

Definition at_ (p : callPoint) (c : call) : bool :=
  match p, c_point c with
  | AtSnapshot, AtSnapshot | AtFirstCheck, AtFirstCheck | AtSecondCheck, AtSecondCheck | AtEnter, AtEnter | AtSelect, AtSelect => true
  | _, _ => false
  end.

(** [bind] is a method of the generation the snapshot read, if there is one. *)
Definition hasGen (c : call) : bool := if c_gen c then true else false.
Definition gen_of (c : call) : nat := default 0%nat (c_gen c).

Definition is_up (t : transport) : bool := match t with TUp _ => true | _ => false end.

Definition act `{HostLinkJSON} (a : action) (l : link) : option link :=
  match a with
  | Start i method gated =>
      when (bool_decide (calls l !! i = None)) (set_call i (MkCall method gated AtSnapshot None false false false) l)
  | Snapshot i => on_call i (at_ AtSnapshot) (fun c => snapshot i c l) l
  | FirstCheck i => on_call i (fun c => at_ AtFirstCheck c && hasGen c) (fun c => firstCheck i c (gen_of c) l) l
  | SecondCheck i => on_call i (fun c => at_ AtSecondCheck c && hasGen c) (fun c => secondCheck i c (gen_of c) l) l
  | Enter i => on_call i (at_ AtEnter) (fun c => enterCall i c l) l
  | Emit i => on_call i (fun c => is_up (trans l) && c_inside c && negb (c_sent c) && negb (c_done c)) (fun c => emit i c l) l
  | Leave i => on_call i c_inside (fun c => leaveCall i c l) l
  | Expire i => on_call i (fun _ => true) (fun c => set_call i (with_done c) l) l
  | ReturnOutcome i err => on_call i (fun c => at_ AtSelect c && negb (c_inside c)) (fun c => return_ i c err l) l
  | ReturnDone i err => on_call i (fun c => at_ AtSelect c && c_done c) (fun c => return_ i c (Some err) l) l
  | Connecting => match trans l with TIdle | TUp true => Some (onConnecting l) | _ => None end
  | CallbackCancel i =>
      match trans l with
      | TCallback (Some w) => let '(w, l) := cancelStep w i l in Some (set_trans (TCallback w) l)
      | _ => None
      end
  | CallbackReturn => match trans l with TCallback None => Some (set_trans TConnecting l) | _ => None end
  | Reconnected => match trans l with TConnecting => Some (set_trans (TUp false) l) | _ => None end
  | Connected data => match trans l with TUp false => Some (onConnected data l) | _ => None end
  | Disconnected code => match trans l with TConnecting | TUp true => Some (onDisconnected code l) | _ => None end
  | CloseFail => Some (fail (wrapf [ErrLinkClosed]) l)
  | FailCancel k i =>
      match failing l !! k with
      | Some w =>
          let '(w, l') := cancelStep w i l in
          Some (set_failing (match w with Some w => <[k := w]> (failing l) | None => delete k (failing l) end) l')
      | None => None
      end
  | CloseCount => when (if terminal l then true else false) (set_rpcs (close (rpcs l)) l)
  | MarkClosed byDrain =>
      when (closing (rpcs l) && negb (transportClosed l) && (negb byDrain || Nat.eqb (drainedClosed (rpcs l)) 1)) (markClosed byDrain l)
  | ClientClosed => when (transportClosed l) (set_trans TClosed l)
  end.

Definition step `{HostLinkJSON} (l l' : link) : Prop := exists a, act a l = Some l'.
Definition reachable_link `{HostLinkJSON} : link -> Prop := reachable (fun l => l = dialed) step.

(** ** The calls inside the transport *)
Definition insides (m : gmap nat call) : nat := size (filter (fun kv => c_inside kv.2 = true) m).

Lemma insides_insert m i c c' :
  m !! i = Some c -> c_inside c' = c_inside c -> insides (<[i := c']> m) = insides m.
Proof.
  intros Hi He. unfold insides. destruct (c_inside c') eqn:E'.
  - rewrite map_filter_insert_True by done. symmetry in He.
    rewrite map_size_insert_Some; [done|]. exists c. by rewrite map_lookup_filter_Some.
  - rewrite map_filter_insert_False by (simpl; congruence). f_equal. apply map_filter_delete_not.
    intros y Hy. simplify_eq. simpl. congruence.
Qed.

Lemma insides_new m i c : m !! i = None -> c_inside c = false -> insides (<[i := c]> m) = insides m.
Proof.
  intros Hi He. unfold insides. rewrite map_filter_insert_False by (simpl; congruence). by rewrite delete_id.
Qed.

Lemma insides_enter m i c c' :
  m !! i = Some c -> c_inside c = false -> c_inside c' = true -> insides (<[i := c']> m) = S (insides m).
Proof.
  intros Hi Hc Hc'. unfold insides. rewrite map_filter_insert_True by done. rewrite map_size_insert_None; [done|].
  apply map_lookup_filter_None. right. intros x Hx. simplify_eq. simpl. congruence.
Qed.

Lemma insides_leave m i c c' :
  m !! i = Some c -> c_inside c = true -> c_inside c' = false -> insides m = S (insides (<[i := c']> m)).
Proof.
  intros Hi Hc Hc'. unfold insides. rewrite map_filter_insert_False by (simpl; congruence).
  rewrite map_filter_delete, map_size_delete_Some by (exists c; by rewrite map_lookup_filter_Some).
  assert (size (filter (fun kv : nat * call => c_inside kv.2 = true) m) <> 0%nat); [|lia].
  intros Hz%map_size_empty_inv. apply (f_equal (lookup i)) in Hz. rewrite lookup_empty in Hz.
  apply map_lookup_filter_None in Hz as [Hz|Hz]; [congruence|]. by apply (Hz c).
Qed.

Lemma insides_none m : insides m = 0%nat -> forall i c, m !! i = Some c -> c_inside c = false.
Proof.
  intros Hz%map_size_empty_inv i c Hi. destruct (c_inside c) eqn:E; [|done].
  apply (f_equal (lookup i)) in Hz. rewrite lookup_empty in Hz.
  apply map_lookup_filter_None in Hz as [Hz|Hz]; [congruence|]. by destruct (Hz c).
Qed.

(** The count is the number of goroutines inside; the drain channel is closed
    exactly when the count is closed and nothing is inside; a call whose
    goroutine runs is at its select or has returned. *)
Record counted (l : link) : Prop := {
  counted_calls : count (rpcs l) = Z.of_nat (insides (calls l));
  counted_drain : drainedClosed (rpcs l) = if closing (rpcs l) && (count (rpcs l) =? 0) then 1%nat else 0%nat;
  counted_closed : transportClosed l = true -> closing (rpcs l) = true /\ (drainedFirst l = true -> count (rpcs l) = 0);
  counted_points : forall i c, calls l !! i = Some c -> c_inside c = true ->
    match c_point c with AtSelect | Returned _ => True | _ => False end
}.

(** A step that changes neither the count nor who is inside. *)
Record quiet (l l' : link) : Prop := {
  quiet_rpcs : rpcs l' = rpcs l;
  quiet_flags : transportClosed l' = transportClosed l /\ drainedFirst l' = drainedFirst l;
  quiet_calls : insides (calls l') = insides (calls l);
  quiet_points : forall i c, calls l' !! i = Some c -> c_inside c = true ->
    match c_point c with AtSelect | Returned _ => True | _ =>
      exists c0, calls l !! i = Some c0 /\ c_inside c0 = true /\ c_point c0 = c_point c end
}.

Lemma quiet_counted l l' : counted l -> quiet l l' -> counted l'.
Proof.
  intros [H1 H2 H3 H4] [Q1 [Q2 Q2'] Q3 Q4]. split; rewrite ?Q1, ?Q2, ?Q2', ?Q3; [done..|].
  intros i c Hc Hin. specialize (Q4 i c Hc Hin). destruct (c_point c) eqn:E; try done;
    destruct Q4 as (c0 & H0 & Hin0 & Hp); specialize (H4 i c0 H0 Hin0); by rewrite Hp in H4.
Qed.

Lemma quiet_same l l' :
  calls l' = calls l -> rpcs l' = rpcs l -> transportClosed l' = transportClosed l -> drainedFirst l' = drainedFirst l -> quiet l l'.
Proof.
  intros Hc Hr Ht Hd. split; [done|done|by rewrite Hc|]. rewrite Hc. intros i c Hi Hin.
  destruct (c_point c) eqn:E; try done; exists c; by rewrite E.
Qed.

Lemma quiet_update l l' i c c' :
  calls l !! i = Some c -> calls l' = <[i := c']> (calls l) -> rpcs l' = rpcs l ->
  transportClosed l' = transportClosed l -> drainedFirst l' = drainedFirst l ->
  c_inside c' = c_inside c ->
  (c_inside c' = true -> match c_point c' with AtSelect | Returned _ => True | _ => c_point c' = c_point c end) ->
  quiet l l'.
Proof.
  intros Hi Hc Hr Ht Hd Hin Hp. split; [done|done|rewrite Hc; by apply (insides_insert _ _ c)|].
  rewrite Hc. intros j d Hj Hind. destruct (decide (i = j)) as [<-|Hne].
  - rewrite lookup_insert_eq in Hj. simplify_eq. specialize (Hp Hind).
    destruct (c_point d) eqn:E; try done; exists c; split_and!; congruence.
  - rewrite lookup_insert_ne in Hj by done. destruct (c_point d) eqn:E; try done; exists d; by rewrite E.
Qed.

(** A call whose goroutine runs is not at an earlier point. *)
Lemma counted_outside l i c p :
  counted l -> calls l !! i = Some c -> c_point c = p ->
  match p with AtSelect | Returned _ => False | _ => True end -> c_inside c = false.
Proof.
  intros Hl Hi Hp Hne. destruct (c_inside c) eqn:E; [|done]. pose proof (counted_points _ Hl _ _ Hi E) as H.
  rewrite Hp in H. by destruct p.
Qed.

Lemma release_frame i c l :
  calls (release i c l) = calls l /\ rpcs (release i c l) = rpcs l /\ terminal (release i c l) = terminal l
  /\ transportClosed (release i c l) = transportClosed l /\ drainedFirst (release i c l) = drainedFirst l
  /\ failing (release i c l) = failing l /\ trans (release i c l) = trans l /\ conn (release i c l) = conn l
  /\ generation (release i c l) = generation l /\ advertised (release i c l) = advertised l /\ wire (release i c l) = wire l
  /\ negotiated (release i c l) = negotiated l /\ connecting (release i c l) = connecting l.
Proof. unfold release. by repeat case_match. Qed.

Lemma return_quiet l i c err :
  calls l !! i = Some c -> quiet l (return_ i c err l).
Proof.
  intros Hi. destruct (release_frame i c l) as (F1 & F2 & _ & F3 & F4 & _).
  by apply (quiet_update _ _ i c (at_point (Returned err) (with_done c))); simpl; rewrite ?F1.
Qed.

Lemma cancel_quiet w i l w' l' : cancelStep w i l = (w', l') -> quiet l l'.
Proof.
  unfold cancelStep. intros H. branches; try by apply quiet_same.
  by apply (quiet_update _ _ i c (with_done c)); [| | | | | |intros _; simpl; by destruct (c_point c)].
Qed.

Lemma quiet_trans l l' l'' :
  rpcs l'' = rpcs l' -> transportClosed l'' = transportClosed l' -> drainedFirst l'' = drainedFirst l' -> calls l'' = calls l' ->
  quiet l l' -> quiet l l''.
Proof. intros Hr Ht Hd Hc [Q1 [Q2 Q2'] Q3 Q4]. split; rewrite ?Hr, ?Ht, ?Hd, ?Hc; done. Qed.

Lemma fail_frame err l :
  calls (fail err l) = calls l /\ rpcs (fail err l) = rpcs l /\ transportClosed (fail err l) = transportClosed l
  /\ drainedFirst (fail err l) = drainedFirst l /\ advertised (fail err l) = advertised l /\ wire (fail err l) = wire l
  /\ conn (fail err l) = conn l /\ is_Some (terminal (fail err l)).
Proof. unfold fail. case_match eqn:E; rewrite ?E; eauto 10. Qed.

Lemma settle_frame err l :
  calls (settleDial err l) = calls l /\ rpcs (settleDial err l) = rpcs l /\ transportClosed (settleDial err l) = transportClosed l
  /\ drainedFirst (settleDial err l) = drainedFirst l /\ advertised (settleDial err l) = advertised l
  /\ wire (settleDial err l) = wire l /\ conn (settleDial err l) = conn l /\ terminal (settleDial err l) = terminal l
  /\ generation (settleDial err l) = generation l /\ generations (settleDial err l) = generations l
  /\ trans (settleDial err l) = trans l /\ failing (settleDial err l) = failing l
  /\ negotiated (settleDial err l) = negotiated l /\ connecting (settleDial err l) = connecting l.
Proof. unfold settleDial. by case_match. Qed.

Lemma close_frame err l : quiet l (fail err l).
Proof. destruct (fail_frame err l) as (?&?&?&?&_). by apply quiet_same. Qed.

Section Counted.
Context `{HostLinkJSON}.

Lemma connected_quiet data l : quiet l (onConnected data l).
Proof.
  unfold onConnected. destruct (verifyNegotiation data) as [r|err].
  - destruct (settle_frame None (negotiate r l)) as (S1&S2&S3&S4&_). apply quiet_same; rewrite ?S1, ?S2, ?S3, ?S4; unfold negotiate; by case_match.
  - destruct (settle_frame (Some err) (set_trans (TUp true) (fail err l))) as (S1&S2&S3&S4&_), (fail_frame err l) as (?&?&?&?&_).
    apply quiet_same; rewrite ?S1, ?S2, ?S3, ?S4; done.
Qed.

Lemma disconnected_quiet code l : quiet l (onDisconnected code l).
Proof.
  unfold onDisconnected.
  destruct (settle_frame (Some (HostDisconnect code)) (set_trans TClosed (fail (HostDisconnect code) l))) as (S1&S2&S3&S4&_),
    (fail_frame (HostDisconnect code) l) as (?&?&?&?&_).
  apply quiet_same; rewrite ?S1, ?S2, ?S3, ?S4; done.
Qed.

Lemma enter_counted l i c :
  counted l -> calls l !! i = Some c -> c_point c = AtEnter -> counted (enterCall i c l).
Proof.
  intros Hl Hi Hp. pose proof (counted_outside _ _ _ _ Hl Hi Hp I) as Hout. unfold enterCall, enter.
  destruct (closing (rpcs l)) eqn:Ec; [by eapply quiet_counted, return_quiet|].
  destruct Hl as [H1 H2 H3 H4]. rewrite Ec in *. split; simpl.
  - rewrite (insides_enter _ _ c) by done. rewrite H1. lia.
  - by rewrite H2.
  - intros Ht. by destruct (H3 Ht).
  - intros j d Hj Hin. destruct (decide (i = j)) as [<-|Hne].
    + rewrite lookup_insert_eq in Hj. by simplify_eq.
    + rewrite lookup_insert_ne in Hj by done. by apply (H4 j d).
Qed.

Lemma leave_counted l i c :
  counted l -> calls l !! i = Some c -> c_inside c = true -> counted (leaveCall i c l).
Proof.
  intros Hl Hi Hin. pose proof Hl as [H1 H2 H3 H4]. unfold leaveCall, leave.
  pose proof (insides_leave (calls l) i c (MkCall (c_method c) (c_gated c) (c_point c) (c_gen c) (c_done c) false (c_sent c)) Hi Hin eq_refl) as Hn.
  split; simpl.
  - lia.
  - rewrite H2. destruct (closing (rpcs l)); [|done]. simpl.
    replace (count (rpcs l) =? 0) with false by lia. done.
  - intros Ht. destruct (H3 Ht) as [Hc Hz]. split; [done|]. intros Hd. specialize (Hz Hd). lia.
  - intros j d Hj Hind. destruct (decide (i = j)) as [<-|Hne].
    + rewrite lookup_insert_eq in Hj. by simplify_eq.
    + rewrite lookup_insert_ne in Hj by done. by apply (H4 j d).
Qed.

Lemma close_counted l : counted l -> counted (set_rpcs (close (rpcs l)) l).
Proof.
  intros [H1 H2 H3 H4]. unfold close. destruct (closing (rpcs l)) eqn:Ec.
  - split; simpl; rewrite ?Ec; auto.
  - split; simpl; [done| |intros Ht; by destruct (H3 Ht)|done]. rewrite H2. by destruct (count (rpcs l) =? 0).
Qed.

(** The quiet actions of a call. *)
Lemma snapshot_quiet l i c :
  calls l !! i = Some c -> c_inside c = false -> quiet l (snapshot i c l).
Proof.
  intros Hi Hout. unfold snapshot. case_match.
  - by eapply (quiet_update _ _ i c).
  - eapply (quiet_update _ _ i c); simpl; try done.
Qed.

Lemma check_quiet l i c g :
  calls l !! i = Some c -> c_inside c = false -> quiet l (firstCheck i c g l) /\ quiet l (secondCheck i c g l).
Proof.
  intros Hi Hout. unfold firstCheck, secondCheck. split; repeat case_match; try (by apply quiet_same);
    eapply (quiet_update _ _ i c); simpl; try done; intros Hc; simpl in Hc; congruence.
Qed.

Lemma counted_step l l' : counted l -> step l l' -> counted l'.
Proof.
  intros Hl [a Ha]. destruct a; simpl in Ha; unfold on_call, when, at_ in Ha; branches; simplify_eq; reflect_guards.
  - eapply quiet_counted; [done|]. split; simpl; [done|done|by apply insides_new|]. intros j d Hj Hin.
    destruct (decide (i = j)) as [<-|Hne]; [rewrite lookup_insert_eq in Hj; by simplify_eq|].
    rewrite lookup_insert_ne in Hj by done. destruct (c_point d) eqn:E; try done; exists d; by rewrite E.
  - eapply quiet_counted; [done|]. apply snapshot_quiet; [done|]. by apply (counted_outside l i c AtSnapshot).
  - eapply quiet_counted; [done|]. apply check_quiet; [done|]. by apply (counted_outside l i c AtFirstCheck).
  - eapply quiet_counted; [done|]. apply check_quiet; [done|]. by apply (counted_outside l i c AtSecondCheck).
  - by eapply enter_counted.
  - eapply quiet_counted; [done|]. eapply (quiet_update _ _ i c); simpl; try done. intros _. simpl. by destruct (c_point c).
  - by eapply leave_counted.
  - eapply quiet_counted; [done|]. eapply (quiet_update _ _ i c); simpl; try done. intros _. simpl. by destruct (c_point c).
  - by eapply quiet_counted, return_quiet.
  - by eapply quiet_counted, return_quiet.
  - eapply quiet_counted; [done|]. unfold onConnecting. case_match; by apply quiet_same.
  - eapply quiet_counted; [done|]. unfold onConnecting. case_match; by apply quiet_same.
  - eapply quiet_counted; [done|]. eapply quiet_trans; [..|by eapply cancel_quiet]; done.
  - by apply (quiet_counted l); [|apply quiet_same].
  - by apply (quiet_counted l); [|apply quiet_same].
  - eapply quiet_counted; [done|]. apply connected_quiet.
  - eapply quiet_counted; [done|]. apply disconnected_quiet.
  - eapply quiet_counted; [done|]. apply disconnected_quiet.
  - eapply quiet_counted; [done|]. apply close_frame.
  - eapply quiet_counted; [done|]. eapply quiet_trans; [..|by eapply cancel_quiet]; done.
  - eapply quiet_counted; [done|]. eapply quiet_trans; [..|by eapply cancel_quiet]; done.
  - by apply close_counted.
  - destruct Hl as [C1 C2 C3 C4]. split; simpl; [done|done| |done]. intros _. split; [done|]. intros ->. simpl in *.
    destruct (closing (rpcs l)); [|done]. simpl in C2. destruct (Z.eqb_spec (count (rpcs l)) 0) as [|Hnz]; [done|].
    by rewrite C2 in *.
  - by apply (quiet_counted l); [|apply quiet_same].
Qed.

Lemma counted_reachable l : reachable_link l -> counted l.
Proof.
  apply reachable_invariant; [|apply counted_step]. intros ? ->. split; simpl; [done|done|done|].
  intros i c Hi. by rewrite lookup_empty in Hi.
Qed.
End Counted.

(** ** Generations: what a gated call may be emitted on *)

(** Past the snapshot and not returned. *)
Definition admitted (c : call) : Prop :=
  match c_point c with AtSnapshot | Returned _ => False | _ => True end.
(** Its context is bound to its generation. *)
Definition is_bound (c : call) : Prop :=
  match c_point c with AtEnter | AtSelect => True | _ => False end.

(** A gated call was admitted by a reply that named its method, on the
    connection of its generation. *)
Definition call_ok (adv : gmap nat methodSet) (c : call) : Prop :=
  (c_gated c = true -> admitted c -> exists g ms, c_gen c = Some g /\ adv !! g = Some ms /\ c_method c ∈ ms)
  /\ (forall e, c_point c = Returned e -> c_inside c = true -> c_done c = true).

Definition emission_ok (adv : gmap nat methodSet) (e : emission) : Prop :=
  em_gated e = true -> em_terminal e = false -> exists ms, adv !! em_conn e = Some ms /\ em_method e ∈ ms.

(** The connections whose reply has been read. *)
Definition announced (t : transport) : bool := match t with TUp true | TClosed => true | _ => false end.

Record gated_ok (l : link) : Prop := {
  go_wire : Forall (emission_ok (advertised l)) (wire l);
  go_calls : map_Forall (fun _ c => call_ok (advertised l) c) (calls l);
  go_fresh : forall n, (conn l < n)%nat \/ (n = conn l /\ announced (trans l) = false) -> advertised l !! n = None
}.

(** The cancel functions the OnConnecting callback has still to run. *)
Definition todo (t : transport) : gset nat :=
  match t with TCallback (Some (CancelRun calls)) => calls | _ => ∅ end.

(** A call whose bound context is not done can still be canceled: its generation
    holds it, or the callback is about to. *)
Definition tracked (gens : gmap nat rpcGeneration) (t : transport) (i : nat) (c : call) : Prop :=
  forall g, c_gen c = Some g -> exists gen, gens !! g = Some gen
    /\ (is_bound c -> c_done c = false -> if canceled gen then i ∈ todo t else i ∈ bindings gen).

Record synced (l : link) : Prop := {
  sy_failing : failing l = [];
  sy_generation : generation l = match conn l with O => None | S _ => Some (conn l) end;
  sy_negotiated : forall m, m ∈ nr_Methods (negotiated l) ->
    advertised l !! conn l = Some (nr_Methods (negotiated l)) /\ conn l <> 0%nat;
  sy_generations : forall g gen, generations l !! g = Some gen ->
    (0 < g <= conn l)%nat /\ (canceled gen = true -> g <> conn l)
    /\ (canceled gen = false -> g = conn l \/ trans l = TCallback (Some (CancelStart g)));
  sy_start : forall g, trans l = TCallback (Some (CancelStart g)) -> g <> conn l;
  sy_idle : conn l = 0%nat -> trans l = TIdle \/ trans l = TClosed;
  sy_current : conn l <> 0%nat -> is_Some (generations l !! conn l);
  sy_calls : map_Forall (tracked (generations l) (trans l)) (calls l)
}.

Definition ordered (l : link) : Prop := gated_ok l /\ (terminal l = None -> synced l).

Lemma call_ok_mono adv n ms c : adv !! n = None -> call_ok adv c -> call_ok (<[n := ms]> adv) c.
Proof.
  intros Hn [H1 H2]. split; [|done]. intros Hg Ha. destruct (H1 Hg Ha) as (g & ms' & Hc & Hms & Hin).
  exists g, ms'. split_and!; [done| |done]. rewrite lookup_insert_ne; [done|congruence].
Qed.

Lemma emission_ok_mono adv n ms e : adv !! n = None -> emission_ok adv e -> emission_ok (<[n := ms]> adv) e.
Proof.
  intros Hn H Hg Ht. destruct (H Hg Ht) as (ms' & Hms & Hin). exists ms'. split; [|done].
  rewrite lookup_insert_ne; [done|congruence].
Qed.

(** What a change of one call, of a generation or of the transport keeps. *)
Lemma gated_call l l' i c :
  gated_ok l -> calls l' = <[i := c]> (calls l) -> advertised l' = advertised l -> wire l' = wire l ->
  conn l' = conn l -> announced (trans l') = announced (trans l) -> call_ok (advertised l) c -> gated_ok l'.
Proof.
  intros [H1 H2 H3] Hc Ha Hw Hn Ht Hok. split; rewrite ?Hc, ?Ha, ?Hw, ?Hn, ?Ht; [done| |done]. by apply map_Forall_insert_2.
Qed.

Lemma gated_same l l' :
  gated_ok l -> calls l' = calls l -> advertised l' = advertised l -> wire l' = wire l ->
  conn l' = conn l -> (announced (trans l) = true -> announced (trans l') = true) -> gated_ok l'.
Proof.
  intros [H1 H2 H3] Hc Ha Hw Hn Ht. split; rewrite ?Hc, ?Ha, ?Hw, ?Hn; [done|done|].
  intros n [Hlt|[-> Hf]]; apply H3; [by left|]. right. split; [done|]. destruct (announced (trans l)); [|done].
  by rewrite Ht in Hf.
Qed.

Lemma synced_call l l' i c :
  synced l -> calls l' = <[i := c]> (calls l) -> failing l' = failing l -> generation l' = generation l -> conn l' = conn l ->
  negotiated l' = negotiated l -> advertised l' = advertised l -> generations l' = generations l -> trans l' = trans l ->
  tracked (generations l) (trans l) i c -> synced l'.
Proof.
  intros [H1 H2 H3 H4 H7 H8 H5 H6] Hc Hf Hg Hn Hneg Ha Hgs Ht Hok.
  split; rewrite ?Hc, ?Hf, ?Hg, ?Hn, ?Hneg, ?Ha, ?Hgs, ?Ht; try done. by apply map_Forall_insert_2.
Qed.

(** A call that is further along, bound to the same generation. *)
Lemma call_ok_advance adv c c' :
  call_ok adv c -> admitted c -> c_gated c' = c_gated c -> c_gen c' = c_gen c -> c_method c' = c_method c ->
  (forall e, c_point c' = Returned e -> c_inside c' = true -> c_done c' = true) -> call_ok adv c'.
Proof. intros [H1 _] Ha Hg Hn Hm Hr. split; [|done]. rewrite Hg, Hn, Hm. intros Hgt _. by apply H1. Qed.

Lemma call_ok_done adv c : call_ok adv c -> call_ok adv (with_done c).
Proof. intros [H1 H2]. by split. Qed.

Lemma tracked_done gens t i c : tracked gens t i c -> tracked gens t i (with_done c).
Proof. intros H g Hg. destruct (H g Hg) as (gen & Hgen & _). exists gen. split; [done|]. intros _ Hd. done. Qed.

(** Only the calls a generation loses are affected by a change of it. *)
Lemma tracked_generation gens t i c g gen gen' :
  gens !! g = Some gen -> canceled gen' = canceled gen ->
  (c_done c = false -> i ∈ bindings gen -> i ∈ bindings gen') ->
  tracked gens t i c -> tracked (<[g := gen']> gens) t i c.
Proof.
  intros Hg Hcan Hin H g' Hg'. destruct (H g' Hg') as (gen0 & Hgen0 & Hb). destruct (decide (g = g')) as [<-|Hne].
  - assert (gen0 = gen) as -> by congruence. rewrite lookup_insert_eq. exists gen'. split; [done|]. intros Hbd Hd. specialize (Hb Hbd Hd).
    rewrite Hcan. destruct (canceled gen); [done|]. by apply Hin.
  - rewrite lookup_insert_ne by done. by exists gen0.
Qed.

Section Ordered.
Context `{HostLinkJSON}.

Lemma snapshot_ordered l i c :
  ordered l -> calls l !! i = Some c -> c_inside c = false -> ordered (snapshot i c l).
Proof.
  intros [Hg Hs] Hi Hout. unfold snapshot. destruct (admitted_by _ _ _ _ _) as [err|] eqn:Ea.
  - split.
    + eapply (gated_call l _ i); try done. split; [by intros _ []|]. simpl. congruence.
    + simpl. intros Ht. eapply (synced_call l _ i); [by apply Hs|done..|]. intros g Hgen. simpl in *.
      destruct (sy_calls _ (Hs Ht) i c Hi g Hgen) as (gen & ? & _). exists gen. by split.
  - unfold admitted_by in Ea. destruct (terminal l) eqn:Et; [done|]. specialize (Hs eq_refl). split.
    + eapply (gated_call l _ i); try done. split; [|by intros e ?]. simpl. intros Hgt _. rewrite Hgt in Ea.
      destruct (connecting l); [done|]. destruct (Supports _ _) eqn:Esup; [|done].
      unfold Supports in Esup. apply bool_decide_eq_true in Esup. destruct (sy_negotiated _ Hs _ Esup) as [Hadv Hnz].
      exists (conn l), (nr_Methods (negotiated l)). rewrite (sy_generation _ Hs). by destruct (conn l).
    + simpl. rewrite Et. intros _. eapply (synced_call l _ i); try done. intros g Hgen. simpl in Hgen.
      unfold is_bound. simpl. rewrite Hgen. rewrite (sy_generation _ Hs) in Hgen. pose proof (sy_current _ Hs) as Hcur.
      destruct (conn l) as [|n]; [done|]. destruct Hcur as [gen Hcur]; [done|]. simplify_eq. by exists gen.
Qed.

Lemma bound_generation l i c g :
  ordered l -> terminal l = None -> calls l !! i = Some c -> c_gen c = Some g -> is_Some (generations l !! g).
Proof. intros [_ Hs] Ht Hi Hc. destruct (sy_calls _ (Hs Ht) i c Hi g Hc) as (gen & Hgen & _). by exists gen. Qed.

Lemma first_ordered l i c g :
  ordered l -> calls l !! i = Some c -> c_inside c = false -> c_point c = AtFirstCheck -> c_gen c = Some g ->
  ordered (firstCheck i c g l).
Proof.
  intros [Hg Hs] Hi Hout Hp Hc. pose proof (go_calls _ Hg i c Hi) as Hok. simpl in Hok.
  assert (Ha : admitted c) by (unfold admitted; by rewrite Hp).
  unfold firstCheck. destruct (generations l !! g) as [gen|] eqn:Egen; [|by split].
  assert (Htr : forall p, (match p with AtEnter | AtSelect => False | _ => True end) ->
    terminal l = None -> tracked (generations l) (trans l) i (at_point p c)).
  { intros p Hnp Ht g' Hg'. simpl in Hg'. simplify_eq. exists gen. split; [done|]. unfold is_bound. simpl. by destruct p. }
  destruct (canceled gen); split.
  1,3: eapply (gated_call l _ i); [done..|]; apply (call_ok_advance _ c); try done; simpl; congruence.
  all: simpl; intros Ht; eapply (synced_call l _ i); [by apply Hs|done..|by apply Htr].
Qed.

Lemma second_ordered l i c g :
  ordered l -> calls l !! i = Some c -> c_inside c = false -> c_point c = AtSecondCheck -> c_gen c = Some g ->
  ordered (secondCheck i c g l).
Proof.
  intros [Hg Hs] Hi Hout Hp Hc. pose proof (go_calls _ Hg i c Hi) as Hok. simpl in Hok.
  assert (Ha : admitted c) by (unfold admitted; by rewrite Hp).
  unfold secondCheck. destruct (generations l !! g) as [gen|] eqn:Egen; [|by split].
  destruct (canceled gen) eqn:Ecan; split.
  1,3: eapply (gated_call l _ i); [done..|]; apply (call_ok_advance _ c); try done; simpl; congruence.
  - simpl. intros Ht. eapply (synced_call l _ i); [by apply Hs|done..|]. intros g' Hg'. simpl in Hg'. simplify_eq.
    exists gen. by split.
  - simpl. intros Ht. specialize (Hs Ht). destruct Hs as [H1 H2 H3 H4 H7 H8 H5 H6]. split; simpl; try done.
    + intros g' gen' Hg'. destruct (decide (g = g')) as [<-|Hne].
      * rewrite lookup_insert_eq in Hg'. simplify_eq. simpl. destruct (H4 _ _ Egen) as (?&?&?). split_and!; auto; lia.
      * rewrite lookup_insert_ne in Hg' by done. by apply H4.
    + intros Hnz. destruct (decide (g = conn l)) as [->|Hne]; [rewrite lookup_insert_eq; by eexists|].
      rewrite lookup_insert_ne by done. by apply H5.
    + apply map_Forall_insert_2.
      * intros g' Hg'. simpl in Hg'. simplify_eq. rewrite lookup_insert_eq. eexists. split; [done|]. simpl. set_solver.
      * intros j d Hj. apply (tracked_generation _ _ _ _ _ gen); [done|done|set_solver|by apply H6].
Qed.

(** The release of a call that is done leaves the others tracked. *)
Lemma return_ordered l i c err :
  ordered l -> calls l !! i = Some c -> admitted c -> ordered (return_ i c err l).
Proof.
  intros [Hg Hs] Hi Ha. pose proof (go_calls _ Hg i c Hi) as Hok. simpl in Hok.
  destruct (release_frame i c l) as (F1&F2&F3&F4&F5&F6&F7&F8&F9&F10&F11&F12&F13). split.
  - eapply (gated_call l _ i); simpl; [done|by rewrite F1|by rewrite F10|by rewrite F11|by rewrite F8|by rewrite F7|].
    by apply (call_ok_advance _ c).
  - unfold return_. cbn [terminal set_call]. rewrite F3. intros Ht. specialize (Hs Ht).
    assert (Htr : tracked (generations l) (trans l) i (at_point (Returned err) (with_done c))).
    { intros g Hc. destruct (sy_calls _ Hs i c Hi g Hc) as (gen & Hgen & _). by exists gen. }
    unfold release. destruct (c_gen c) as [g|]; [|by eapply (synced_call l _ i)].
    destruct (generations l !! g) as [gen|] eqn:Egen; [|by eapply (synced_call l _ i)].
    destruct Hs as [H1 H2 H3 H4 H7 H8 H5 H6]. split; simpl; try done.
    + intros g' gen' Hg'. destruct (decide (g = g')) as [<-|Hne].
      * rewrite lookup_insert_eq in Hg'. simplify_eq. simpl. by apply (H4 _ gen).
      * rewrite lookup_insert_ne in Hg' by done. by apply H4.
    + intros Hnz. destruct (decide (g = conn l)) as [->|Hne]; [rewrite lookup_insert_eq; by eexists|].
      rewrite lookup_insert_ne by done. by apply H5.
    + intros j d Hj. destruct (decide (i = j)) as [<-|Hne].
      * rewrite lookup_insert_eq in Hj. simplify_eq. by apply (tracked_generation _ _ _ _ _ gen).
      * rewrite lookup_insert_ne in Hj by done. apply (tracked_generation _ _ _ _ _ gen); [done|done|set_solver|by apply H6].
Qed.

Lemma enter_ordered l i c :
  ordered l -> calls l !! i = Some c -> c_point c = AtEnter -> ordered (enterCall i c l).
Proof.
  intros Ho Hi Hp. assert (Ha : admitted c) by (unfold admitted; by rewrite Hp). unfold enterCall.
  destruct (enter (rpcs l)) as [[] f]; [|by apply return_ordered]. destruct Ho as [Hg Hs].
  pose proof (go_calls _ Hg i c Hi) as Hok. simpl in Hok. split.
  - eapply (gated_call l _ i); [done..|]. by apply (call_ok_advance _ c).
  - simpl. intros Ht. specialize (Hs Ht). eapply (synced_call l _ i); [done..|]. intros g Hc.
    destruct (sy_calls _ Hs i c Hi g Hc) as (gen & Hgen & Hb). exists gen. split; [done|]. intros _. apply Hb.
    unfold is_bound. by rewrite Hp.
Qed.

(** A change of a call that leaves its point and its generation. *)
Lemma touch_ordered l l' i c c' :
  ordered l -> calls l !! i = Some c -> c_method c' = c_method c -> c_gated c' = c_gated c -> c_gen c' = c_gen c ->
  c_point c' = c_point c -> (c_done c' = false -> c_done c = false) -> (c_inside c' = true -> c_inside c = true) ->
  calls l' = <[i := c']> (calls l) -> terminal l' = terminal l -> failing l' = failing l -> generation l' = generation l ->
  conn l' = conn l -> negotiated l' = negotiated l -> advertised l' = advertised l -> generations l' = generations l ->
  trans l' = trans l -> Forall (emission_ok (advertised l)) (wire l') -> ordered l'.
Proof.
  intros [[G1 G2 G3] Hs] Hi Hm Hgt Hgen Hp Hd Hin Hc Ht Hf Hg Hn Hneg Ha Hgs Htr Hw. split.
  - split; rewrite ?Hc, ?Ha, ?Hn, ?Htr; [done| |done]. apply map_Forall_insert_2; [|done].
    destruct (G2 i c Hi) as [H1 H2]. split.
    + unfold admitted. rewrite Hm, Hgt, Hgen, Hp. apply H1.
    + intros e. rewrite Hp. intros He Hin'. destruct (c_done c') eqn:E; [done|]. rewrite <- (H2 e He (Hin Hin')). by rewrite Hd.
  - rewrite Ht. intros Hterm. specialize (Hs Hterm). apply (synced_call l _ i c'); try done. intros g Hg'. rewrite Hgen in Hg'.
    destruct (sy_calls _ Hs i c Hi g Hg') as (gen & Hgn & Hb). exists gen. split; [done|]. unfold is_bound in *.
    rewrite Hp. intros Hb1 Hb2. apply Hb; [done|by apply Hd].
Qed.

(** A gated call is emitted, while the link is not terminal, on a connection
    whose reply named its method. *)
Lemma emit_ordered l i c :
  counted l -> ordered l -> calls l !! i = Some c -> is_up (trans l) = true -> c_inside c = true -> c_done c = false ->
  ordered (emit i c l).
Proof.
  intros Hcnt Ho Hi Hup Hin Hd. apply (touch_ordered l _ i c (MkCall (c_method c) (c_gated c) (c_point c) (c_gen c) (c_done c) (c_inside c) true)); try done.
  simpl. destruct Ho as [Hg Hs].
  apply Forall_app. split; [apply Hg|]. constructor; [|done]. intros Hgt Hterm. simpl in *.
  destruct (terminal l) eqn:Et; [done|]. specialize (Hs eq_refl). destruct (go_calls _ Hg i c Hi) as [Hok Hret].
  assert (Hp : c_point c = AtSelect).
  { pose proof (counted_points _ Hcnt _ _ Hi Hin) as Hp. destruct (c_point c) eqn:E; try done. by rewrite (Hret _ eq_refl Hin) in Hd. }
  destruct Hok as (g & ms & Hgen & Hms & Hm); [done|unfold admitted; by rewrite Hp|].
  destruct (sy_calls _ Hs i c Hi g Hgen) as (gen & Hgn & Hb). specialize (Hb ltac:(unfold is_bound; by rewrite Hp) Hd).
  destruct (sy_generations _ Hs g gen Hgn) as (_ & Hc1 & Hc2). destruct (canceled gen).
  - by destruct (trans l).
  - destruct (Hc2 eq_refl) as [->|Htr]; [by exists ms|]. by rewrite Htr in Hup.
Qed.

(** One step of a cancel, of [fail]'s or of the callback's. *)
Lemma cancel_gated w i l w' l' :
  gated_ok l -> cancelStep w i l = (w', l') ->
  gated_ok l' /\ terminal l' = terminal l /\ conn l' = conn l /\ trans l' = trans l.
Proof.
  intros Hg Hc. unfold cancelStep in Hc. branches; try (split_and!; done).
  - split_and!; try done. by apply (gated_same l).
  - split_and!; try done. eapply (gated_call l _ i); [done..|]. apply call_ok_done. by apply (go_calls _ Hg i).
Qed.

Lemma synced_trans l t :
  synced l -> todo t = todo (trans l) ->
  (forall g, trans l = TCallback (Some (CancelStart g)) <-> t = TCallback (Some (CancelStart g))) ->
  (conn l = 0%nat -> t = TIdle \/ t = TClosed) -> synced (set_trans t l).
Proof.
  intros [H1 H2 H3 H4 H7 H8 H5 H6] Htodo Hstart Hidle. split; simpl; try done.
  - intros g gen Hg. destruct (H4 g gen Hg) as (?&?&Hc). split_and!; try done; try lia. intros Hcan.
    destruct (Hc Hcan) as [|Ht]; [by left|]. right. by apply Hstart.
  - intros g Hg. by apply H7, Hstart.
  - intros i c Hi g Hg. destruct (H6 i c Hi g Hg) as (gen & Hgen & Hb). exists gen. split; [done|]. by rewrite Htodo.
Qed.

(** The generations and the calls that a finished or stale cancel leaves. *)
Lemma callback_done l t :
  synced l -> todo (trans l) = ∅ ->
  (forall g gen, trans l = TCallback (Some (CancelStart g)) -> generations l !! g = Some gen -> canceled gen = true) ->
  (forall g, t <> TCallback (Some (CancelStart g))) ->
  (conn l = 0%nat -> t = TIdle \/ t = TClosed) -> synced (set_trans t l).
Proof.
  intros [H1 H2 H3 H4 H7 H8 H5 H6] Htodo Hstart Hno Hidle. split; simpl; try done.
  - intros g gen Hg. destruct (H4 g gen Hg) as (?&?&Hc). split_and!; try done; try lia. intros Hf.
    destruct (Hc Hf) as [|Ht]; [by left|]. by rewrite (Hstart g gen Ht Hg) in Hf.
  - intros g Hg. by destruct (Hno g).
  - intros i c Hi g Hg. destruct (H6 i c Hi g Hg) as (gen & Hgen & Hb). exists gen. split; [done|]. intros Hb1 Hb2.
    specialize (Hb Hb1 Hb2). destruct (canceled gen); [|done]. by rewrite Htodo in Hb.
Qed.

(** The critical section of a cancel moves the calls of its generation from
    the generation to the callback. *)
Lemma callback_start g gen l :
  synced l -> trans l = TCallback (Some (CancelStart g)) -> generations l !! g = Some gen -> canceled gen = false ->
  synced (set_trans (TCallback (Some (CancelRun (bindings gen)))) (set_generation g (MkGeneration true ∅) l)).
Proof.
  intros [H1 H2 H3 H4 H7 H8 H5 H6] Ht Egen Ecan. split; simpl; try done; try (by intros Hz; destruct (H8 Hz); congruence).
  - intros g' gen' Hg'. destruct (decide (g = g')) as [<-|Hne].
    + rewrite lookup_insert_eq in Hg'. simplify_eq. simpl. destruct (H4 g gen Egen) as (?&_&_).
      split_and!; [lia|lia| |done]. intros _. by apply H7.
    + rewrite lookup_insert_ne in Hg' by done. destruct (H4 g' gen' Hg') as (?&?&Hc). split_and!; try done; try lia.
      intros Hf. destruct (Hc Hf) as [|Htr]; [by left|]. congruence.
  - intros Hnz. rewrite lookup_insert_ne; [by apply H5|]. by apply H7.
  - intros i c Hi g' Hg'. destruct (H6 i c Hi g' Hg') as (gen' & Hgen' & Hb). destruct (decide (g = g')) as [<-|Hne].
    + assert (gen' = gen) as -> by congruence. rewrite lookup_insert_eq. eexists. split; [done|]. simpl. by rewrite Ecan in Hb.
    + rewrite lookup_insert_ne by done. exists gen'. split; [done|]. intros Hb1 Hb2. specialize (Hb Hb1 Hb2).
      destruct (canceled gen'); [|done]. by rewrite Ht in Hb.
Qed.

Lemma callback_run i c todo0 l :
  synced l -> trans l = TCallback (Some (CancelRun todo0)) -> calls l !! i = c ->
  synced (set_trans (TCallback (Some (CancelRun (todo0 ∖ {[i]}))))
    (match c with Some c => set_call i (with_done c) l | None => l end)).
Proof.
  intros [H1 H2 H3 H4 H7 H8 H5 H6] Ht Hc. set (l' := match c with Some c => set_call i (with_done c) l | None => l end).
  assert (Hl : calls l' = match c with Some c => <[i := with_done c]> (calls l) | None => calls l end) by (by destruct c).
  assert (Hk : forall j d g, calls l' !! j = Some d -> c_gen d = Some g -> exists gen, generations l !! g = Some gen
    /\ (is_bound d -> c_done d = false -> if canceled gen then j ∈ todo0 ∖ {[i]} else j ∈ bindings gen)).
  { intros j d g Hj Hg. rewrite Hl in Hj. destruct (decide (i = j)) as [<-|Hne].
    - destruct c as [c|]; [rewrite lookup_insert_eq in Hj|congruence]. simplify_eq.
      destruct (H6 i c Hc g Hg) as (gen & ? & _). by exists gen.
    - assert (Hj' : calls l !! j = Some d) by (destruct c; [by rewrite lookup_insert_ne in Hj|done]).
      destruct (H6 j d Hj' g Hg) as (gen & ? & Hb). exists gen. split; [done|]. intros Hb1 Hb2. specialize (Hb Hb1 Hb2).
      rewrite Ht in Hb. simpl in Hb. destruct (canceled gen); [set_solver|done]. }
  destruct c as [c|]; split; try done; try (intros j d Hj g Hg; by apply (Hk j d g));
    try (intros Hz; simpl in Hz; destruct (H8 Hz); congruence).
  1,2: intros g gen Hg; destruct (H4 g gen Hg) as (Hb & Hn & Hcn); (split; [exact Hb|]); (split; [exact Hn|]); intros Hf;
    destruct (Hcn Hf) as [|Htr]; [by left|congruence].
Qed.

Lemma callback_synced w i l w' l' :
  synced l -> trans l = TCallback (Some w) -> cancelStep w i l = (w', l') -> synced (set_trans (TCallback w') l').
Proof.
  intros Hs Ht Hc.
  assert (Hidle : forall t, conn l = 0%nat -> t = TIdle \/ t = TClosed) by (intros t Hz; destruct (sy_idle _ Hs Hz); congruence).
  destruct w as [g|todo0]; simpl in Hc.
  - destruct (generations l !! g) as [gen|] eqn:Egen; [destruct (canceled gen) eqn:Ecan|]; simplify_eq.
    + apply callback_done; [done|by rewrite Ht|by intros; simplify_eq; congruence|done|apply Hidle].
    + by apply callback_start.
    + apply callback_done; [done|by rewrite Ht|by intros; simplify_eq; congruence|done|apply Hidle].
  - case_bool_decide; simplify_eq; [apply callback_done; [done|by rewrite Ht|by intros; congruence|done|apply Hidle]|].
    case_bool_decide; simplify_eq; [by apply callback_run|]. apply synced_trans; [done|by rewrite Ht|by rewrite Ht|apply Hidle].
Qed.

Lemma connecting_ordered l :
  ordered l -> (trans l = TIdle \/ trans l = TUp true) -> ordered (onConnecting l).
Proof.
  intros [Hg Hs] Ht. unfold onConnecting. destruct (terminal l) as [err|] eqn:Et.
  - split; [|simpl; congruence]. destruct Hg as [G1 G2 G3]. split; simpl; [done|done|]. intros n Hn. apply G3. left. lia.
  - specialize (Hs eq_refl). split; [destruct Hg as [G1 G2 G3]; split; simpl; [done|done|intros n Hn; apply G3; left; lia]|].
    intros _. destruct Hs as [H1 H2 H3 H4 H7 H8 H5 H6].
    assert (Htodo : todo (trans l) = ∅) by (by destruct Ht as [-> | ->]).
    split; simpl; try done.
    + intros g gen Hgen. destruct (decide (S (conn l) = g)) as [<-|Hne].
      * rewrite lookup_insert_eq in Hgen. simplify_eq. simpl. split_and!; first [lia|by left|done].
      * rewrite lookup_insert_ne in Hgen by done. destruct (H4 g gen Hgen) as (Hb & Hc & Hf). split_and!; try lia.
        intros Hcan. right. destruct (Hf Hcan) as [->|Htr]; [|by destruct Ht; congruence]. rewrite H2.
        destruct (conn l); [lia|done].
    + intros g Hst. rewrite H2 in Hst. destruct (conn l); simplify_eq/=. lia.
    + intros _. rewrite lookup_insert_eq. by eexists.
    + intros i c Hi g Hc. destruct (H6 i c Hi g Hc) as (gen & Hgen & Hb). exists gen. destruct (H4 g gen Hgen) as (Hle & _).
      rewrite lookup_insert_ne by lia. split; [done|]. intros Hb1 Hb2. specialize (Hb Hb1 Hb2).
      destruct (canceled gen); [|done]. by rewrite Htodo in Hb.
Qed.

Lemma negotiate_ordered l r :
  ordered l -> trans l = TUp false -> ordered (negotiate r l).
Proof.
  intros [Hg Hs] Ht. assert (Hfresh : advertised l !! conn l = None) by (apply Hg; right; by rewrite Ht).
  assert (Hgo : gated_ok (negotiate r l)).
  { destruct Hg as [G1 G2 G3]. unfold negotiate. destruct (terminal l); split; simpl.
    1,4: eapply Forall_impl; [exact G1|]; intros; by apply emission_ok_mono.
    1,3: eapply map_Forall_impl; [exact G2|]; intros; by apply call_ok_mono.
    all: intros n [Hlt|[-> ?]]; [|done]; rewrite lookup_insert_ne by lia; apply G3; by left. }
  split; [done|]. unfold negotiate. destruct (terminal l) eqn:Et; [simpl; congruence|]. intros _. specialize (Hs eq_refl).
  assert (Hnz : conn l <> 0%nat) by (intros Hz; destruct (sy_idle _ Hs Hz); congruence).
  assert (Hs' : synced (set_trans (TUp true) l)) by (apply synced_trans; [done|by rewrite Ht|by rewrite Ht|done]).
  destruct Hs' as [H1 H2 H3 H4 H7 H8 H5 H6]. split; try done. intros m Hm. simpl in *. by rewrite lookup_insert_eq.
Qed.

(** ** The terminal error *)
Lemma cancel_frame w i l w' l' :
  cancelStep w i l = (w', l') -> terminal l' = terminal l /\ rpcs l' = rpcs l /\ transportClosed l' = transportClosed l.
Proof. unfold cancelStep. intros Hc. by branches. Qed.

(** Once set, by whichever caller was first, it is never replaced. *)
Lemma terminal_stable l l' err : terminal l = Some err -> step l l' -> terminal l' = Some err.
Proof.
  intros Ht [a Ha]. destruct a; simpl in Ha; unfold on_call, when in Ha; branches; simplify_eq; try done;
    try (match goal with Hc : cancelStep _ _ _ = _ |- _ => apply cancel_frame in Hc as (Hc & _) end; simpl; congruence).
  - unfold snapshot. by case_match.
  - unfold firstCheck. by repeat case_match.
  - unfold secondCheck. by repeat case_match.
  - unfold enterCall. repeat case_match; [done|]. unfold return_. simpl. by destruct (release_frame i c l) as (_&_&->&_).
  - unfold return_. simpl. by destruct (release_frame i c l) as (_&_&->&_).
  - unfold return_. simpl. by destruct (release_frame i c l) as (_&_&->&_).
  - unfold onConnecting. by rewrite Ht.
  - unfold onConnecting. by rewrite Ht.
  - unfold onConnected, fail, negotiate. rewrite Ht. unfold settleDial. repeat case_match; simpl; by rewrite ?Ht.
  - unfold onDisconnected, fail. rewrite Ht. unfold settleDial. by case_match.
  - unfold onDisconnected, fail. rewrite Ht. unfold settleDial. by case_match.
  - unfold fail. by rewrite Ht.
Qed.

(** The count is closed only behind a terminal error. *)
Definition closes_terminal (l : link) : Prop := closing (rpcs l) = true -> terminal l <> None.

Lemma closes_terminal_step l l' : closes_terminal l -> step l l' -> closes_terminal l'.
Proof.
  intros Hl Hst Hc. destruct (terminal l) as [err|] eqn:Et; [by rewrite (terminal_stable _ _ _ Et Hst)|].
  assert (Hn : closing (rpcs l) = false) by (destruct (closing (rpcs l)) eqn:E; [by destruct (Hl E)|done]).
  exfalso. destruct Hst as [a Ha]. revert Hc. destruct a; simpl in Ha; unfold on_call, when in Ha; branches; simplify_eq; simpl;
    try congruence;
    try (match goal with Hc : cancelStep _ _ _ = _ |- _ => apply cancel_frame in Hc as (_ & Hc & _) end; simpl; congruence).
  - unfold snapshot. case_match; simpl; congruence.
  - unfold firstCheck. repeat case_match; simpl; congruence.
  - unfold secondCheck. repeat case_match; simpl; congruence.
  - unfold enterCall, enter. rewrite Hn. simpl. congruence.
  - destruct (release_frame i c l) as (_&->&_). congruence.
  - destruct (release_frame i c l) as (_&->&_). congruence.
  - unfold onConnecting. case_match; simpl; congruence.
  - unfold onConnecting. case_match; simpl; congruence.
  - by rewrite (quiet_rpcs _ _ (connected_quiet data l)), Hn.
  - by rewrite (quiet_rpcs _ _ (disconnected_quiet code l)), Hn.
  - by rewrite (quiet_rpcs _ _ (disconnected_quiet code l)), Hn.
  - by rewrite (quiet_rpcs _ _ (close_frame _ l)), Hn.
Qed.

Lemma fail_ordered err l : ordered l -> ordered (fail err l).
Proof.
  intros [Hg Hs]. destruct (fail_frame err l) as (F1&F2&F3&F4&F5&F6&F7&[e F8]). split; [|rewrite F8; done].
  apply (gated_same l); try done. unfold fail. by case_match.
Qed.

Lemma settle_ordered err l : ordered l -> ordered (settleDial err l).
Proof. unfold settleDial. destruct (settled l); [done|]. intros [Hg Hs]. split; [by apply (gated_same l)|]. intros Ht. destruct (Hs Ht). by split. Qed.

Lemma closed_ordered l : ordered l -> terminal l <> None -> ordered (set_trans TClosed l).
Proof. intros [Hg Hs] Ht. split; [by apply (gated_same l)|done]. Qed.

Lemma connected_ordered data l : ordered l -> trans l = TUp false -> ordered (onConnected data l).
Proof.
  intros Ho Ht. unfold onConnected. apply settle_ordered || (case_match; apply settle_ordered).
  - by apply negotiate_ordered.
  - apply fail_ordered with (err := e) in Ho as [Hg Hs]. destruct (fail_frame e l) as (_&_&_&_&_&_&_&[e' F8]).
    split; [|simpl; rewrite F8; done]. by apply (gated_same (fail e l)).
Qed.

Lemma ordered_step l l' : counted l -> closes_terminal l -> ordered l -> step l l' -> ordered l'.
Proof.
  intros Hcnt Hct Ho [a Ha]. pose proof Ho as [Hg Hs].
  assert (Htouch : forall l', calls l' = calls l -> terminal l' = terminal l -> failing l' = failing l -> generation l' = generation l ->
    conn l' = conn l -> negotiated l' = negotiated l -> advertised l' = advertised l -> generations l' = generations l ->
    trans l' = trans l -> wire l' = wire l -> ordered l').
  { intros m E1 E2 E3 E4 E5 E6 E7 E8 E9 E10. split; [apply (gated_same l); congruence|]. rewrite E2. intros Ht.
    destruct (Hs Ht). by split; rewrite ?E1, ?E3, ?E4, ?E5, ?E6, ?E7, ?E8, ?E9. }
  destruct a; simpl in Ha; unfold on_call, when, at_ in Ha; branches; simplify_eq; reflect_guards.
  - split; [by eapply (gated_call l _ i)|]. simpl. intros Ht.
    eapply (synced_call l _ i); [by apply Hs|done..|]. by intros g.
  - apply snapshot_ordered; [done..|]. by apply (counted_outside l i c AtSnapshot).
  - unfold gen_of, hasGen in *. destruct (c_gen c) as [g|] eqn:Ec; [|done]. simpl.
    apply first_ordered; try done. by apply (counted_outside l i c AtFirstCheck).
  - unfold gen_of, hasGen in *. destruct (c_gen c) as [g|] eqn:Ec; [|done]. simpl.
    apply second_ordered; try done. by apply (counted_outside l i c AtSecondCheck).
  - by apply enter_ordered.
  - by apply emit_ordered.
  - eapply (touch_ordered l _ i c (MkCall (c_method c) (c_gated c) (c_point c) (c_gen c) (c_done c) false (c_sent c))); try done. apply Hg.
  - eapply (touch_ordered l _ i c (with_done c)); try done. apply Hg.
  - apply return_ordered; [done..|]. unfold admitted. by case_match.
  - apply return_ordered; [done..|]. unfold admitted. by case_match.
  - apply connecting_ordered; auto.
  - apply connecting_ordered; auto.
  - match goal with Hc : cancelStep _ _ _ = _ |- _ => pose proof (cancel_gated _ _ _ _ _ Hg Hc) as (Hg' & Et & _ & Htr); rename Hc into Hcs end.
    split; [apply (gated_same _ _ Hg'); try done; by rewrite Htr, H0|]. simpl. rewrite Et. intros Ht.
    by eapply callback_synced; [apply Hs| |].
  - split; [apply (gated_same l); try done; by rewrite H0|]. simpl. intros Ht. specialize (Hs Ht).
    apply synced_trans; [done|by rewrite H0|by rewrite H0|]. intros Hz. destruct (sy_idle _ Hs Hz); congruence.
  - split; [apply (gated_same l); try done; by rewrite H0|]. simpl. intros Ht. specialize (Hs Ht).
    apply synced_trans; [done|by rewrite H0|by rewrite H0|]. intros Hz. destruct (sy_idle _ Hs Hz); congruence.
  - by apply connected_ordered.
  - apply settle_ordered, closed_ordered; [by apply fail_ordered|]. by destruct (fail_frame (HostDisconnect code) l) as (_&_&_&_&_&_&_&[? ->]).
  - apply settle_ordered, closed_ordered; [by apply fail_ordered|]. by destruct (fail_frame (HostDisconnect code) l) as (_&_&_&_&_&_&_&[? ->]).
  - by apply fail_ordered.
  - match goal with Hc : cancelStep _ _ _ = _ |- _ => pose proof (cancel_gated _ _ _ _ _ Hg Hc) as (Hg' & Et & _ & Htr) end.
    split; [by apply (gated_same _ _ Hg')|]. simpl. rewrite Et. intros Ht. by rewrite (sy_failing _ (Hs Ht)) in *.
  - match goal with Hc : cancelStep _ _ _ = _ |- _ => pose proof (cancel_gated _ _ _ _ _ Hg Hc) as (Hg' & Et & _ & Htr) end.
    split; [by apply (gated_same _ _ Hg')|]. simpl. rewrite Et. intros Ht. by rewrite (sy_failing _ (Hs Ht)) in *.
  - by apply Htouch.
  - by apply Htouch.
  - apply closed_ordered; [done|]. by apply Hct, (counted_closed _ Hcnt).
Qed.

Lemma link_invariants l : reachable_link l -> counted l /\ closes_terminal l /\ ordered l.
Proof.
  intros Hr. induction Hr as [l -> | l l' Hr (Hc & Ht & Ho) Hst].
  - split; [by apply counted_reachable, reach_init|]. split; [done|]. split; [split; [constructor|done|done]|].
    intros _. split; try done. by left.
  - split_and!; [by eapply counted_step|by eapply closes_terminal_step|by eapply ordered_step].
Qed.
End Ordered.

(** ** What the link promises *)
Section Promises.
Context `{HostLinkJSON}.

(** Only an emission extends the wire. *)
Lemma wire_frame a l l' : act a l = Some l' -> (exists i, a = Emit i) \/ wire l' = wire l.
Proof.
  intros Ha. destruct a; try (left; by eexists); right; simpl in Ha; unfold on_call, when in Ha; branches; simplify_eq; try done;
    try (match goal with Hc : cancelStep _ _ _ = _ |- _ => unfold cancelStep in Hc; by branches end).
  - unfold snapshot. by case_match.
  - unfold firstCheck. by repeat case_match.
  - unfold secondCheck. by repeat case_match.
  - unfold enterCall, return_, release. by repeat case_match.
  - unfold return_, release. by repeat case_match.
  - unfold return_, release. by repeat case_match.
  - unfold onConnecting. by case_match.
  - unfold onConnecting. by case_match.
  - unfold onConnected, settleDial, negotiate, fail. by repeat case_match.
  - unfold onDisconnected, settleDial, fail. by repeat case_match.
  - unfold onDisconnected, settleDial, fail. by repeat case_match.
  - unfold fail. by case_match.
Qed.

(** C13: A reserved method is sent only to a Host that advertised it: in every
    interleaving of calls, reconnects and closes, whatever a gated call emitted
    while the link was not terminal went out on a connection whose own verified
    reply named the call's method, although the reply is read before the call
    is sent and a reconnect may come between the two. *)
Theorem reserved_calls_follow_the_reply l e :
  reachable_link l -> e ∈ wire l -> em_gated e = true -> em_terminal e = false ->
  exists ms, advertised l !! em_conn e = Some ms /\ em_method e ∈ ms.
Proof.
  intros Hr He. destruct (link_invariants l Hr) as (_ & _ & [Hg _]).
  exact (proj1 (Forall_forall _ _) (go_wire _ Hg) e He).
Qed.

(** The drain of a closing link. Its channel is never closed twice; it is
    closed exactly when the count is closed and no goroutine is inside the
    transport; and once Close has seen it, no call is inside and nothing the
    link can do next emits one, so the client's close races no send. *)
Theorem close_waits_for_the_calls l :
  reachable_link l ->
  (drainedClosed (rpcs l) <= 1)%nat
  /\ (drainedClosed (rpcs l) = 1%nat <->
      closing (rpcs l) = true /\ forall i c, calls l !! i = Some c -> c_inside c = false)
  /\ (transportClosed l = true -> drainedFirst l = true ->
      (forall i c, calls l !! i = Some c -> c_inside c = false) /\ forall a l', act a l = Some l' -> wire l' = wire l).
Proof.
  intros Hr. destruct (link_invariants l Hr) as ([C1 C2 C3 C4] & _).
  assert (Hz : count (rpcs l) = 0 <-> forall i c, calls l !! i = Some c -> c_inside c = false).
  { rewrite C1. split; [intros Hn; apply insides_none; lia|]. intros Hno. unfold insides.
    rewrite map_empty_filter_2; [done|]. intros i c Hi. simpl. by rewrite (Hno i c Hi). }
  split_and!.
  - rewrite C2. by case_match; lia.
  - rewrite C2, <- Hz. destruct (closing (rpcs l)); simpl; [|by split; [|intros [? _]]].
    destruct (Z.eqb_spec (count (rpcs l)) 0); split; try done; lia.
  - intros Ht Hd. destruct (C3 Ht) as [_ Hcount]. assert (Hno := proj1 Hz (Hcount Hd)). split; [done|].
    intros a l' Ha. destruct (wire_frame a l l' Ha) as [[i ->]|]; [|done]. simpl in Ha. unfold on_call, when in Ha. exfalso.
    destruct (calls l !! i) as [c|] eqn:Ei; [|done]. rewrite (Hno i c Ei), andb_false_r in Ha. done.
Qed.

(** A link that has its final answer gives it to every later call, and the
    call never reaches the transport. *)
Lemma terminal_answers l i c err :
  terminal l = Some err -> calls l !! i = Some c -> c_point c = AtSnapshot ->
  act (Snapshot i) l = Some (set_call i (at_point (Returned (Some err)) c) l).
Proof.
  intros Ht Hi Hp. simpl. unfold on_call, when, at_. rewrite Hi, Hp. unfold snapshot. by rewrite Ht.
Qed.
End Promises.

(** ** The replies *)

(** An attach is accepted exactly when the body is an observation, whichever of
    the two records is tried first. *)
Lemma attach_reply_exact `{HostLinkJSONLaws} data o :
  decodeAttachReply data = Ok o <-> data <> "" /\ UnmarshalObservation data = Some o.
Proof.
  unfold decodeAttachReply. case_bool_decide as Hd; [naive_solver|].
  destruct (UnmarshalHostLinkError data) as [code|] eqn:E.
  - rewrite (records_disjoint _ _ E). naive_solver.
  - destruct (UnmarshalObservation data); naive_solver.
Qed.

(** The version is this build's, or the connection is refused. *)
Lemma negotiated_version `{HostLinkJSON} data r :
  verifyNegotiation data = Ok r -> nr_Version r = CurrentWireVersion /\ DecodeHostLinkConnectReply data = Some r.
Proof.
  unfold verifyNegotiation. intros Hv. branches. reflect_guards. done.
Qed.

(** ** Runs *)
Fixpoint run_actions `{HostLinkJSON} (actions : list action) (l : link) : option link :=
  match actions with
  | [] => Some l
  | a :: actions => match act a l with Some l => run_actions actions l | None => None end
  end.

Lemma run_reachable `{HostLinkJSON} actions l l' : reachable_link l -> run_actions actions l = Some l' -> reachable_link l'.
Proof.
  revert l. induction actions as [|a actions IH]; intros l Hr Hl; simpl in Hl; [by simplify_eq|].
  destruct (act a l) as [l1|] eqn:E; [|done]. eapply IH; [|done]. eapply reach_step; [done|]. by exists a.
Qed.

(** A Host that advertises attach on one connection and nothing on another. *)
Definition demo_json : HostLinkJSON := {|
  CurrentWireVersion := 1;
  DecodeHostLinkConnectReply data :=
    if bool_decide (data = "attach") then Some (MkNegotiation 1 {["hostlink.attach"]})
    else if bool_decide (data = "none") then Some (MkNegotiation 1 ∅) else None;
  UnmarshalHostLinkError _ := None; UnmarshalObservation _ := None; UnmarshalCapacity _ := None; UnmarshalEnvelope _ := None |}.

Definition demo_connect (reply : bytes) : list action := [Connecting; CallbackReturn; Reconnected; Connected reply].
Definition demo_call (i : nat) : list action :=
  [Start i "hostlink.attach" true; Snapshot i; FirstCheck i; SecondCheck i; Enter i].

(** An attach is sent; the call drains; the link closes. *)
Definition demo_run : list action :=
  (demo_connect "attach" ++ demo_call 0 ++ [Emit 0; CloseFail; CloseCount; Leave 0; MarkClosed true])%list.

Definition demo_link : link := default dialed (run_actions (H := demo_json) demo_run dialed).

Lemma demo_link_reachable : reachable_link (H := demo_json) demo_link.
Proof. apply (run_reachable demo_run dialed); [by apply reach_init|by vm_compute]. Qed.

Lemma reserved_calls_follow_the_reply_witness :
  wire demo_link = [MkEmission 1 "hostlink.attach" true false]
  /\ exists ms, advertised demo_link !! 1%nat = Some ms /\ "hostlink.attach" ∈ ms.
Proof.
  split; [by vm_compute|].
  apply (reserved_calls_follow_the_reply (H := demo_json) demo_link (MkEmission 1 "hostlink.attach" true false)).
  - apply demo_link_reachable.
  - vm_compute. left.
  - reflexivity.
  - reflexivity.
Defined.

Lemma close_waits_for_the_calls_witness :
  drainedClosed (rpcs demo_link) = 1%nat /\ transportClosed demo_link = true /\ drainedFirst demo_link = true
  /\ forall i c, calls demo_link !! i = Some c -> c_inside c = false.
Proof.
  split_and!; [by vm_compute..|].
  apply (close_waits_for_the_calls (H := demo_json) demo_link); [apply demo_link_reachable|by vm_compute..].
Defined.

(** A close that is under way keeps a reconnect from ending the calls of the
    previous connection: [onConnecting] finds the link terminal and returns
    while [fail]'s cancel still has functions to run, so a queued attach goes
    out on a connection that never advertised it. *)
Lemma closing_link_leaks_a_reserved_call :
  exists l, reachable_link (H := demo_json) l /\ advertised l !! 2%nat = Some ∅
    /\ MkEmission 2 "hostlink.attach" true true ∈ wire l.
Proof.
  set (actions := (demo_connect "attach" ++ demo_call 0 ++ [CloseFail; FailCancel 0 0] ++ demo_connect "none" ++ [Emit 0])%list).
  exists (default dialed (run_actions (H := demo_json) actions dialed)). split_and!.
  - apply (run_reachable actions dialed); [by apply reach_init|by vm_compute].
  - by vm_compute.
  - vm_compute. left.
Qed.
