(* ===== verification/HostLinkCalls.v ===== *)
(** * The methods of a Host's link (src/internal/realtime/hostlink/centrifuge.go, capability.go)

    What the pool calls on a link of the Centrifuge transport, each as the call
    it starts in [HostRpc]: a bind, an unbind and an attach on their reserved
    methods, gated by what the Host advertised, and a delivery on the session's
    channel, which is not. And the reading of capabilities: the reply
    [Negotiated] answers with, and the three predicates over it. *)

From S2P Require Import Prelude Wire Bindings Pool HostRpc.
Local Open Scope string_scope.

(** Core's names of the reserved methods, of the capabilities a connect reply
    may list beside them, and of a session's channel. *)
Class HostLinkNames := {
  HostLinkMethodBind : string;
  HostLinkMethodUnbind : string;
  HostLinkMethodAttach : string;
  HostLinkCapabilityGateResponse : string;
  HostLinkCapabilityAttributionPrincipal : string;
  HostLinkCapabilityPayloadReference : string;
  HostLinkChannel : TenantID -> SessionID -> string
}.

Section Calls.
Context `{HostLinkNames}.

(** ** The calls; [i] names the caller *)
Definition centrifugeLink_Bind (i : nat) : action := Start i HostLinkMethodBind true.
Definition centrifugeLink_Unbind (i : nat) : action := Start i HostLinkMethodUnbind true.
Definition centrifugeLink_Attach (i : nat) : action := Start i HostLinkMethodAttach true.
Definition centrifugeLink_DeliverCommand (i : nat) (tenant : TenantID) (session : SessionID) : action :=
  Start i (HostLinkChannel tenant session) false.

(** ** Capabilities *)
Definition GateResponseCapable (reply : VersionNegotiationResponse) : bool := Supports HostLinkCapabilityGateResponse reply.
Definition PrincipalCapable (reply : VersionNegotiationResponse) : bool := Supports HostLinkCapabilityAttributionPrincipal reply.
Definition PayloadReferenceCapable (reply : VersionNegotiationResponse) : bool := Supports HostLinkCapabilityPayloadReference reply.

Definition Negotiated (l : link) : result VersionNegotiationResponse :=
  match terminal l with
  | Some err => Fail err
  | None => if connecting l then Fail (wrapf [ErrLinkReconnecting]) else Ok (negotiated l)
  end.

Context `{HostLinkJSON}.

(** A capability is read off the reply of the link's current connection: in
    every interleaving of calls, reconnects and closes, whatever the reply
    [Negotiated] returns supports was advertised by that connection's own
    verified reply, never by an earlier one, and a link between connections or
    at its end answers with an error. *)
Theorem capability_follows_the_reply l reply method :
  reachable_link l -> Negotiated l = Ok reply -> Supports method reply = true ->
  terminal l = None /\ connecting l = false /\ conn l <> 0%nat /\ advertised l !! conn l = Some (nr_Methods reply) /\ method ∈ nr_Methods reply.
Proof.
  intros Hr Hn Hs. destruct (link_invariants l Hr) as (_ & _ & [_ Hsync]).
  unfold Negotiated in Hn. destruct (terminal l); [done|]. destruct (connecting l); [done|]. simplify_eq.
  unfold Supports in Hs. reflect_guards. destruct (sy_negotiated _ (Hsync eq_refl) _ Hs) as [? ?]. done.
Qed.

(** A delivery is not gated: it is admitted whenever the link has no final
    answer, between connections too. *)
Lemma delivery_is_not_gated i tenant session l l1 l2 :
  act (centrifugeLink_DeliverCommand i tenant session) l = Some l1 -> act (Snapshot i) l1 = Some l2 ->
  terminal l = None -> exists c, calls l2 !! i = Some c /\ admitted c.
Proof.
  simpl. unfold when, on_call. case_bool_decide as Hi; [|done]. intros [= <-]. simpl. rewrite lookup_insert_eq. simpl.
  unfold snapshot, admitted_by. simpl. intros [= <-] ->. eexists. simpl. rewrite lookup_insert_eq. split; [done|].
  unfold admitted. simpl. by destruct (generation l).
Qed.
End Calls.

(** ** A Host that takes payload references *)
Definition demo_names : HostLinkNames := {|
  HostLinkMethodBind := "bind"; HostLinkMethodUnbind := "unbind"; HostLinkMethodAttach := "attach";
  HostLinkCapabilityGateResponse := "gate"; HostLinkCapabilityAttributionPrincipal := "principal";
  HostLinkCapabilityPayloadReference := "reference"; HostLinkChannel t s := t ++ ":" ++ s |}.

Definition demo_capable : HostLinkJSON := {|
  CurrentWireVersion := 1;
  DecodeHostLinkConnectReply data := Some (MkNegotiation 1 {["bind"; data]});
  UnmarshalHostLinkError _ := None; UnmarshalObservation _ := None; UnmarshalCapacity _ := None; UnmarshalEnvelope _ := None |}.

Lemma capability_follows_the_reply_witness :
  exists l reply, Negotiated l = Ok reply /\ PayloadReferenceCapable (H := demo_names) reply = true
    /\ advertised l !! conn l = Some (nr_Methods reply).
Proof.
  set (l := default dialed (run_actions (H := demo_capable) (demo_connect "reference") dialed)).
  exists l, (negotiated l). split; [by vm_compute|]. split; [by vm_compute|].
  apply (capability_follows_the_reply (H0 := demo_capable) l (negotiated l) "reference"); [|by vm_compute..].
  apply (run_reachable (demo_connect "reference") dialed); [by apply reach_init|by vm_compute].
Defined.
