(* ===== verification/HostSubs.v ===== *)
(** * Session subscriptions on a HostLink (src/internal/realtime/hostlink/subscribe.go)

    The live-tail half of a link: [Subscribe], [Unsubscribe], the callbacks they
    install, and what a dropped connection does. A machine whose actions are the
    critical sections of the code, under the link's [mu] or under [regMu]; the
    callers run interleaved, the transport's callbacks one at a time. What the
    transport keeps is its registry of one subscription per channel and what it
    has sent the Host; a discard, wherever it runs, is one critical section at
    some later time. The pool's side of a subscription is in Pool. *)

From S2P Require Import Prelude Wire HostRpc.
Local Open Scope string_scope.

Definition ErrSubscribeRefused : error := sentinel "hostlink.ErrSubscribeRefused".
Definition ErrSubscriptionWithdrawn : error := sentinel "hostlink.ErrSubscriptionWithdrawn".

(** ** State *)

(** What a sink is told; [Restored] is told for a connection, not for a
    subscription. *)
Inductive sinkEvent := Subscribed | Publication (data : bytes) | Ended.

(** A [*sessionSub]: [settled] is the closed channel with the outcome. [told] is
    what its sink has heard of it. *)
Record sessionSub := MkSub {
  s_channel : string; s_live : bool; s_settled : option (option error); s_sub : option nat; told : list sinkEvent }.

(** A caller of [Subscribe], by what it does next. *)
Inductive subscriber :=
| SReserve (channel : string)
| SNew (e : nat)                                (* newSubscription *)
| SInstall (e s : nat)                          (* store the subscription *)
| SLock (e s : nat)                             (* take regMu *)
| SCheck (e s : nat)                            (* under regMu, look again *)
| SSend (e s : nat)                             (* under regMu, sub.Subscribe *)
| SWithdraw (e : nat) (err : error)             (* withdraw's critical section *)
| SWithdrawn (e : nat) (err : error)            (* withdraw's settle *)
| SAwait (e : nat)                              (* await's select *)
| SExpired (e : nat) (err : error)              (* await's critical section *)
| SSettle (e : nat) (err : error) (s : option nat) (* await's settle and discard *)
| SReturned (err : option error).

(** A caller of [Unsubscribe]. *)
Inductive unsubscriber := URemove (channel : string) | USettle (e : nat) | UDiscard (e : nat) | UReturned.

(** What the running callback does next. *)
Inductive callback :=
| CbIdle
| CbSubscribed (e : nat)                        (* sink.Subscribed *)
| CbSettle (e : nat) (err : option error)       (* settle *)
| CbPublication (e : nat) (data : bytes)        (* sink.Publication *)
| CbEnded (e : nat)                             (* sink.Ended *)
| CbSweep (orphan : bool)                       (* the critical section of endAllSubscriptions *)
| CbEndAll (entries : list nat)                 (* the second loop of endAllSubscriptions *)
| CbOrphans                                     (* the critical section of restoreOrphans *)
| CbRestore (sinks : list nat).                 (* sink.Restored *)

Record link := MkLink {
  terminal : option error;
  connecting : bool;
  entries : gmap nat sessionSub;
  subs : gmap string nat;
  orphans : gmap string nat;                    (* a sink, by the entry that owns it *)
  restored : list nat;                          (* the sinks told Restored *)
  regMu : option nat;                           (* the caller that holds it between two sections *)
  transportClosed : bool;
  registry : gmap string nat;                   (* the transport's registration of a channel *)
  owner : gmap nat nat;                         (* the entry a subscription's callbacks are for *)
  sent : gset nat;                              (* subscribed at the Host and not withdrawn *)
  discards : list nat;                          (* discards that have not run *)
  callers : gmap nat subscriber;
  leavers : gmap nat unsubscriber;
  cb : callback
}.

Definition initial : link :=
  MkLink None false ∅ ∅ ∅ [] None false ∅ ∅ ∅ [] ∅ ∅ CbIdle.

(** ** Critical sections *)
Definition set_entries (x : gmap nat sessionSub) (l : link) : link :=
  MkLink (terminal l) (connecting l) x (subs l) (orphans l) (restored l) (regMu l) (transportClosed l) (registry l) (owner l) (sent l) (discards l) (callers l) (leavers l) (cb l).
Definition set_subs (x : gmap string nat) (l : link) : link :=
  MkLink (terminal l) (connecting l) (entries l) x (orphans l) (restored l) (regMu l) (transportClosed l) (registry l) (owner l) (sent l) (discards l) (callers l) (leavers l) (cb l).
Definition set_orphans (x : gmap string nat) (l : link) : link :=
  MkLink (terminal l) (connecting l) (entries l) (subs l) x (restored l) (regMu l) (transportClosed l) (registry l) (owner l) (sent l) (discards l) (callers l) (leavers l) (cb l).
Definition set_restored (x : list nat) (l : link) : link :=
  MkLink (terminal l) (connecting l) (entries l) (subs l) (orphans l) x (regMu l) (transportClosed l) (registry l) (owner l) (sent l) (discards l) (callers l) (leavers l) (cb l).
Definition set_regMu (x : option nat) (l : link) : link :=
  MkLink (terminal l) (connecting l) (entries l) (subs l) (orphans l) (restored l) x (transportClosed l) (registry l) (owner l) (sent l) (discards l) (callers l) (leavers l) (cb l).
Definition set_registry (x : gmap string nat) (l : link) : link :=
  MkLink (terminal l) (connecting l) (entries l) (subs l) (orphans l) (restored l) (regMu l) (transportClosed l) x (owner l) (sent l) (discards l) (callers l) (leavers l) (cb l).
Definition set_owner (x : gmap nat nat) (l : link) : link :=
  MkLink (terminal l) (connecting l) (entries l) (subs l) (orphans l) (restored l) (regMu l) (transportClosed l) (registry l) x (sent l) (discards l) (callers l) (leavers l) (cb l).
Definition set_sent (x : gset nat) (l : link) : link :=
  MkLink (terminal l) (connecting l) (entries l) (subs l) (orphans l) (restored l) (regMu l) (transportClosed l) (registry l) (owner l) x (discards l) (callers l) (leavers l) (cb l).
Definition set_discards (x : list nat) (l : link) : link :=
  MkLink (terminal l) (connecting l) (entries l) (subs l) (orphans l) (restored l) (regMu l) (transportClosed l) (registry l) (owner l) (sent l) x (callers l) (leavers l) (cb l).
Definition set_callers (x : gmap nat subscriber) (l : link) : link :=
  MkLink (terminal l) (connecting l) (entries l) (subs l) (orphans l) (restored l) (regMu l) (transportClosed l) (registry l) (owner l) (sent l) (discards l) x (leavers l) (cb l).
Definition set_leavers (x : gmap nat unsubscriber) (l : link) : link :=
  MkLink (terminal l) (connecting l) (entries l) (subs l) (orphans l) (restored l) (regMu l) (transportClosed l) (registry l) (owner l) (sent l) (discards l) (callers l) x (cb l).
Definition set_cb (x : callback) (l : link) : link :=
  MkLink (terminal l) (connecting l) (entries l) (subs l) (orphans l) (restored l) (regMu l) (transportClosed l) (registry l) (owner l) (sent l) (discards l) (callers l) (leavers l) x.

Definition upd (e : nat) (f : sessionSub -> sessionSub) (l : link) : link :=
  match entries l !! e with Some x => set_entries (<[e := f x]> (entries l)) l | None => l end.

Definition chan (e : nat) (l : link) : string := match entries l !! e with Some x => s_channel x | None => "" end.

(** [l.subs[entry.channel] == entry], and the deletion it guards. *)
Definition current (e : nat) (l : link) : bool := bool_decide (subs l !! chan e l = Some e).
Definition remove (e : nat) (l : link) : link :=
  if current e l then set_subs (delete (chan e l) (subs l)) l else l.

Definition live (e : nat) (l : link) : bool := match entries l !! e with Some x => s_live x | None => false end.
Definition sub_of (e : nat) (l : link) : option nat := match entries l !! e with Some x => s_sub x | None => None end.

Definition settled_entry (err : option error) (x : sessionSub) : sessionSub :=
  match s_settled x with
  | Some _ => x
  | None => MkSub (s_channel x) (s_live x) (Some err) (s_sub x) (told x)
  end.

Definition settle (e : nat) (err : option error) (l : link) : link := upd e (settled_entry err) l.

Definition tell (e : nat) (ev : sinkEvent) (l : link) : link :=
  upd e (fun x => MkSub (s_channel x) (s_live x) (s_settled x) (s_sub x) (told x ++ [ev])%list) l.

(** [go l.discard(sub)], or the call that ends with it. *)
Definition discarding (s : option nat) (l : link) : link :=
  match s with Some s => set_discards (discards l ++ [s])%list l | None => l end.

Definition goto (t : nat) (p : subscriber) (l : link) : link := set_callers (<[t := p]> (callers l)) l.

(** ** [Subscribe] *)
Definition reserve (t e : nat) (channel : string) (l : link) : link :=
  match terminal l with
  | Some err => goto t (SReturned (Some err)) l
  | None =>
      if connecting l then goto t (SReturned (Some (wrapf [ErrLinkReconnecting]))) l
      else match subs l !! channel with
      | Some existing => goto t (SAwait existing) l
      | None =>
          goto t (SNew e) (set_subs (<[channel := e]> (subs l))
            (set_entries (<[e := MkSub channel false None None []]> (entries l)) l))
      end
  end.

(** [newSubscription], the subscription it makes being [s], or the error of its
    last call; a registration of the channel is replaced. The callbacks are
    installed for the entry. *)
Definition newSubscription (t e s : nat) (err : option error) (l : link) : link :=
  if transportClosed l then goto t (SWithdraw e (wrapf [ErrLinkClosed])) l
  else
    let channel := chan e l in
    let l := match registry l !! channel with
             | Some old => set_sent (sent l ∖ {[old]}) (set_registry (delete channel (registry l)) l)
             | None => l
             end in
    match err with
    | Some err => goto t (SWithdraw e err) l
    | None => goto t (SInstall e s) (set_owner (<[s := e]> (owner l)) (set_registry (<[channel := s]> (registry l)) l))
    end.

Definition installed (t e s : nat) (l : link) : link :=
  if current e l
  then goto t (SLock e s) (upd e (fun x => MkSub (s_channel x) (s_live x) (s_settled x) (Some s) (told x)) l)
  else goto t (SAwait e) (discarding (Some s) l).

Definition lockSend (t e s : nat) (l : link) : link :=
  if transportClosed l then goto t (SWithdraw e (wrapf [ErrLinkClosed])) l
  else goto t (SCheck e s) (set_regMu (Some t) l).

Definition checkSend (t e s : nat) (l : link) : link :=
  if current e l then goto t (SSend e s) l
  else goto t (SAwait e) (discarding (Some s) (set_regMu None l)).

Definition send (t e s : nat) (err : option error) (l : link) : link :=
  match err with
  | Some err => goto t (SWithdraw e err) (set_regMu None l)
  | None => goto t (SAwait e) (set_sent ({[s]} ∪ sent l) (set_regMu None l))
  end.

(** ** [discard] *)
Definition discard (s : nat) (l : link) : link :=
  if transportClosed l then l
  else match owner l !! s with
  | Some e =>
      if bool_decide (registry l !! chan e l = Some s)
      then set_sent (sent l ∖ {[s]}) (set_registry (delete (chan e l) (registry l)) l)
      else l
  | None => l
  end.

(** ** Callbacks *)

(** [lose]: a live entry's sink is told, a pending one's waiter is answered; the
    caller withdraws the subscription when the entry was current. *)
Definition lose (e s : nat) (err : error) (l : link) : link :=
  if current e l then
    discarding (Some s) (set_cb (if live e l then CbEnded e else CbSettle e (Some err)) (remove e l))
  else l.

Definition onSubscribed (e : nat) (l : link) : link :=
  if current e l && negb (live e l) then
    set_cb (CbSubscribed e) (upd e (fun x => MkSub (s_channel x) true (s_settled x) (s_sub x) (told x)) l)
  else l.

Definition onPublication (e : nat) (data : bytes) (l : link) : link :=
  if current e l && live e l then set_cb (CbPublication e data) l else l.

(** [OnSubscribing] with any code but the transport's own. *)
Definition onSubscribing (e s : nat) (l : link) : link :=
  if current e l && live e l then lose e s ErrSubscribeRefused l else l.

Definition onError (e s : nat) (err : error) (l : link) : link :=
  if current e l && negb (live e l) then
    discarding (Some s) (set_cb (CbSettle e (Some (wrapf [ErrSubscribeRefused; err]))) (remove e l))
  else l.

(** The critical section of [endAllSubscriptions]. *)
Definition sweep (orphan : bool) (l : link) : link :=
  let lost := filter (fun ce => live ce.2 l = true) (subs l) in
  set_cb (CbEndAll ((map_to_list (subs l)).*2))
    (set_orphans (if orphan then lost ∪ orphans l else ∅) (set_subs ∅ l)).

Definition endOne (e : nat) (l : link) : link :=
  let l' := discarding (sub_of e l) l in
  if live e l then tell e Ended l' else settle e (Some (wrapf [ErrLinkReconnecting])) l'.

(** The next step of the callback that runs. *)
Definition continue (l : link) : link :=
  match cb l with
  | CbIdle => l
  | CbSubscribed e => set_cb (CbSettle e None) (tell e Subscribed l)
  | CbSettle e err => set_cb CbIdle (settle e err l)
  | CbPublication e data => set_cb CbIdle (tell e (Publication data) l)
  | CbEnded e => set_cb CbIdle (tell e Ended l)
  | CbSweep orphan => sweep orphan l
  | CbEndAll [] => set_cb CbIdle l
  | CbEndAll (e :: es) => set_cb (CbEndAll es) (endOne e l)
  | CbOrphans => set_cb (CbRestore ((map_to_list (orphans l)).*2)) (set_orphans ∅ l)
  | CbRestore [] => set_cb CbIdle l
  | CbRestore (x :: xs) => set_cb (CbRestore xs) (set_restored (restored l ++ [x])%list l)
  end.

(** The connection-level callbacks, after HostRpc's part of them. *)
Definition set_connecting (b : bool) (l : link) : link :=
  MkLink (terminal l) b (entries l) (subs l) (orphans l) (restored l) (regMu l) (transportClosed l) (registry l) (owner l)
    (sent l) (discards l) (callers l) (leavers l) (cb l).
Definition fail (err : error) (l : link) : link :=
  MkLink (match terminal l with Some first => Some first | None => Some err end) (connecting l) (entries l) (subs l) (orphans l)
    (restored l) (regMu l) (transportClosed l) (registry l) (owner l) (sent l) (discards l) (callers l) (leavers l) (cb l).
Definition closeTransport (l : link) : link :=
  MkLink (terminal l) (connecting l) (entries l) (subs l) (orphans l) (restored l) (regMu l) true (registry l) (owner l)
    (sent l) (discards l) (callers l) (leavers l) (cb l).

(** ** Actions *)
Inductive action :=
| Call (t : nat) (channel : string)
| Reserve (t e : nat) | Register (t s : nat) (err : option error) | Store (t : nat) | Lock (t : nat) | Check (t : nat)
| Send (t : nat) (err : option error) | Withdraw (t : nat) | Withdrawn (t : nat)
| AwaitSettled (t : nat) | AwaitExpired (t : nat) (err : error) | Expire (t : nat) | SettleExpired (t : nat)
| Leave (u : nat) (channel : string) | LeaveRemove (u : nat) | LeaveSettle (u : nat) | LeaveDiscard (u : nat)
| Discard (k : nat)
| OnSubscribed (s : nat) | OnPublication (s : nat) (data : bytes) | OnUnsubscribed (s : nat) (code : error)
| OnSubscribing (s : nat) | OnError (s : nat) (err : error)
| OnConnecting | OnConnected | OnTerminal (err : error) | Continue
| CloseFail (err : error) | CloseTransport.

Definition when {A} (b : bool) (x : A) : option A := if b then Some x else None.

Definition idle (l : link) : bool := match cb l with CbIdle => true | _ => false end.
Definition regFree (l : link) : bool := match regMu l with None => true | Some _ => false end.

(** A callback of a subscription, for the entry it was installed for. *)
Definition callback_of (s : nat) (f : nat -> link) (l : link) : option link :=
  match owner l !! s with Some e => when (idle l) (f e) | None => None end.

Definition outcome (e : nat) (l : link) : option (option error) := entries l !! e ≫= s_settled.

Definition act (a : action) (l : link) : option link :=
  match a with
  | Call t channel => when (bool_decide (callers l !! t = None)) (goto t (SReserve channel) l)
  | Reserve t e =>
      match callers l !! t with
      | Some (SReserve channel) => when (bool_decide (entries l !! e = None)) (reserve t e channel l)
      | _ => None
      end
  | Register t s err =>
      match callers l !! t with
      | Some (SNew e) => when (regFree l && bool_decide (owner l !! s = None)) (newSubscription t e s err l)
      | _ => None
      end
  | Store t => match callers l !! t with Some (SInstall e s) => Some (installed t e s l) | _ => None end
  | Lock t => match callers l !! t with Some (SLock e s) => when (regFree l) (lockSend t e s l) | _ => None end
  | Check t => match callers l !! t with Some (SCheck e s) => Some (checkSend t e s l) | _ => None end
  | Send t err => match callers l !! t with Some (SSend e s) => Some (send t e s err l) | _ => None end
  | Withdraw t =>
      match callers l !! t with Some (SWithdraw e err) => Some (goto t (SWithdrawn e err) (remove e l)) | _ => None end
  | Withdrawn t =>
      match callers l !! t with
      | Some (SWithdrawn e err) => Some (goto t (SReturned (Some (wrapf [err]))) (settle e (Some err) l))
      | _ => None
      end
  | AwaitSettled t =>
      match callers l !! t with
      | Some (SAwait e) => match outcome e l with Some r => Some (goto t (SReturned r) l) | None => None end
      | _ => None
      end
  | AwaitExpired t err => match callers l !! t with Some (SAwait e) => Some (goto t (SExpired e err) l) | _ => None end
  | Expire t =>
      match callers l !! t with
      | Some (SExpired e err) => Some (goto t (SSettle e err (if current e l then sub_of e l else None)) (remove e l))
      | _ => None
      end
  | SettleExpired t =>
      match callers l !! t with
      | Some (SSettle e err s) =>
          let l := discarding s (settle e (Some (wrapf [err])) l) in
          match outcome e l with Some r => Some (goto t (SReturned r) l) | None => None end
      | _ => None
      end
  | Leave u channel => when (bool_decide (leavers l !! u = None)) (set_leavers (<[u := URemove channel]> (leavers l)) l)
  | LeaveRemove u =>
      match leavers l !! u with
      | Some (URemove channel) =>
          match subs l !! channel with
          | Some e => Some (set_leavers (<[u := USettle e]> (leavers l)) (set_subs (delete channel (subs l)) l))
          | None => Some (set_leavers (<[u := UReturned]> (leavers l)) l)
          end
      | _ => None
      end
  | LeaveSettle u =>
      match leavers l !! u with
      | Some (USettle e) => Some (set_leavers (<[u := UDiscard e]> (leavers l)) (settle e (Some ErrSubscriptionWithdrawn) l))
      | _ => None
      end
  | LeaveDiscard u =>
      match leavers l !! u with
      | Some (UDiscard e) => Some (set_leavers (<[u := UReturned]> (leavers l)) (discarding (sub_of e l) l))
      | _ => None
      end
  | Discard k =>
      match discards l !! k with
      | Some s => when (regFree l) (discard s (set_discards (delete k (discards l)) l))
      | None => None
      end
  | OnSubscribed s => callback_of s (fun e => onSubscribed e l) l
  | OnPublication s data => callback_of s (fun e => onPublication e data l) l
  | OnUnsubscribed s err => callback_of s (fun e => lose e s (wrapf [ErrSubscribeRefused; err]) l) l
  | OnSubscribing s => callback_of s (fun e => onSubscribing e s l) l
  | OnError s err => callback_of s (fun e => onError e s err l) l
  | OnConnecting =>
      when (idle l && (if terminal l then false else true)) (set_cb (CbSweep true) (set_connecting true l))
  | OnConnected => when (idle l) (set_cb CbOrphans (if terminal l then l else set_connecting false l))
  | OnTerminal err => when (idle l) (set_cb (CbSweep false) (fail err l))
  | Continue => when (negb (idle l)) (continue l)
  | CloseFail err => Some (fail err l)
  | CloseTransport => when (regFree l) (closeTransport l)
  end.

Definition step (l l' : link) : Prop := exists a, act a l = Some l'.
Definition reachable_link : link -> Prop := reachable (fun l => l = initial) step.

(** ** What a sink hears *)
Definition is_publication (ev : sinkEvent) : Prop := match ev with Publication _ => True | _ => False end.

(** The protocol of [SessionSink]: nothing, or [Subscribed] and publications,
    and then at most [Ended]. *)
Definition tail_shape (evs : list sinkEvent) : Prop :=
  evs = [] \/ exists ps, Forall is_publication ps /\ (evs = Subscribed :: ps \/ evs = Subscribed :: ps ++ [Ended])%list.

Definition is_current (l : link) (e : nat) : Prop := subs l !! chan e l = Some e.

(** The entries the running callback has still to tell. *)
Definition telling (c : callback) : list nat :=
  match c with
  | CbSubscribed e | CbPublication e _ | CbEnded e => [e]
  | CbEndAll es => es
  | _ => []
  end.

(** The members of an entry the protocol reads. *)
Definition core (x : sessionSub) : string * bool * list sinkEvent := (s_channel x, s_live x, told x).

Record protocol (l : link) : Prop := {
  pr_subs : forall ch e, subs l !! ch = Some e -> exists x, entries l !! e = Some x /\ s_channel x = ch;
  pr_told : forall e x, entries l !! e = Some x ->
    match told x with
    | [] => s_live x = true -> cb l = CbSubscribed e
    | Subscribed :: evs =>
        s_live x = true /\ (Forall is_publication evs
          \/ exists ps, evs = (ps ++ [Ended])%list /\ Forall is_publication ps /\ ~ is_current l e /\ e ∉ telling (cb l))
    | _ => False
    end;
  pr_cb : match cb l with
    | CbSubscribed e => exists x, entries l !! e = Some x /\ s_live x = true /\ told x = []
    | CbPublication e _ => exists x, entries l !! e = Some x /\ told x <> []
    | CbEnded e => exists x, entries l !! e = Some x /\ told x <> [] /\ ~ is_current l e
    | CbEndAll es => NoDup es /\ forall e, e ∈ es -> exists x, entries l !! e = Some x /\ (s_live x = true -> told x <> []) /\ ~ is_current l e
    | _ => True
    end
}.

Lemma protocol_shape l e x : protocol l -> entries l !! e = Some x -> tail_shape (told x).
Proof.
  intros Hl He. pose proof (pr_told _ Hl e x He) as H. unfold tail_shape. destruct (told x) as [|[] evs]; try done; [by left|].
  right. destruct H as [_ [Hp|(ps & -> & Hp & _)]]; [exists evs|exists ps]; auto.
Qed.

(** The entries by what the protocol reads of them. *)
Definition same_core (l l' : link) : Prop := forall e, core <$> (entries l' !! e) = core <$> (entries l !! e).

Lemma same_core_entry l l' e x :
  same_core l l' -> entries l' !! e = Some x -> exists x0, entries l !! e = Some x0 /\ core x0 = core x.
Proof. intros H He. specialize (H e). rewrite He in H. destruct (entries l !! e) as [x0|]; [|done]. simpl in H. exists x0. split; [done|]. congruence. Qed.

Lemma same_core_back l l' e x :
  same_core l l' -> entries l !! e = Some x -> exists x', entries l' !! e = Some x' /\ core x' = core x.
Proof. intros H He. specialize (H e). rewrite He in H. destruct (entries l' !! e) as [x0|]; [|done]. simpl in H. exists x0. split; [done|]. congruence. Qed.

Lemma same_core_chan l l' e : same_core l l' -> chan e l' = chan e l.
Proof.
  intros H. specialize (H e). unfold chan. destruct (entries l' !! e), (entries l !! e); simpl in H; simplify_eq; done.
Qed.

(** An action that only withdraws entries. *)
Lemma protocol_frame l l' :
  protocol l -> same_core l l' -> subs l' ⊆ subs l -> cb l' = cb l -> protocol l'.
Proof.
  intros [H1 H2 H3] Hc Hs Hcb.
  assert (Hcur : forall e, is_current l' e -> is_current l e).
  { unfold is_current. intros e He. rewrite (same_core_chan _ _ _ Hc) in He. by eapply lookup_weaken. }
  split.
  - intros ch e He. destruct (H1 ch e) as (x & Hx & Hch); [by eapply lookup_weaken|].
    destruct (same_core_back _ _ _ _ Hc Hx) as (x' & Hx' & Hco). exists x'. split; [done|]. unfold core in Hco. congruence.
  - intros e x He. destruct (same_core_entry _ _ _ _ Hc He) as (x0 & Hx0 & Hco). injection Hco as _ El Et.
    specialize (H2 e x0 Hx0). rewrite Hcb, <- El, <- Et. destruct (told x0) as [|[] evs]; try done.
    destruct H2 as [Hl [Hp|(ps & Hps & Hp & Hn & Hnt)]]; (split; [done|]); [by left|].
    right. exists ps. split_and!; try done. intros Hcu. by apply Hn, Hcur.
  - rewrite Hcb. destruct (cb l); try done.
    + destruct H3 as (x & Hx & Hl & Ht). destruct (same_core_back _ _ _ _ Hc Hx) as (x' & Hx' & Hco). injection Hco as _ El Et.
      exists x'. split_and!; congruence.
    + destruct H3 as (x & Hx & Ht). destruct (same_core_back _ _ _ _ Hc Hx) as (x' & Hx' & Hco). injection Hco as _ El Et.
      exists x'. split_and!; congruence.
    + destruct H3 as (x & Hx & Ht & Hn). destruct (same_core_back _ _ _ _ Hc Hx) as (x' & Hx' & Hco). injection Hco as _ El Et.
      exists x'. split_and!; [done|congruence|auto].
    + destruct H3 as [Hnd Hes]. split; [done|]. intros e He. destruct (Hes e He) as (x & Hx & Ht & Hn).
      destruct (same_core_back _ _ _ _ Hc Hx) as (x' & Hx' & Hco). injection Hco as _ El Et. exists x'.
      split_and!; [done|by rewrite El, Et|auto].
Qed.

Lemma same_core_refl l l' : entries l' = entries l -> same_core l l'.
Proof. intros H e. by rewrite H. Qed.

Lemma upd_core e f l : (forall x, core (f x) = core x) -> same_core l (upd e f l).
Proof.
  intros Hf e'. unfold upd. destruct (entries l !! e) as [x|] eqn:E; [|done]. simpl. destruct (decide (e = e')) as [<-|Hne].
  - rewrite lookup_insert_eq, E. simpl. by rewrite Hf.
  - by rewrite lookup_insert_ne.
Qed.

Lemma upd_frame e f l :
  subs (upd e f l) = subs l /\ cb (upd e f l) = cb l /\ callers (upd e f l) = callers l /\ leavers (upd e f l) = leavers l
  /\ registry (upd e f l) = registry l /\ owner (upd e f l) = owner l /\ sent (upd e f l) = sent l
  /\ discards (upd e f l) = discards l /\ regMu (upd e f l) = regMu l /\ transportClosed (upd e f l) = transportClosed l
  /\ terminal (upd e f l) = terminal l /\ connecting (upd e f l) = connecting l.
Proof. unfold upd. by case_match. Qed.

Lemma settled_core err x : core (settled_entry err x) = core x.
Proof. unfold settled_entry. by case_match. Qed.

Lemma settle_protocol e err l : protocol l -> protocol (settle e err l).
Proof.
  intros Hl. unfold settle. destruct (upd_frame e (settled_entry err) l) as (Hs & Hc & _).
  apply (protocol_frame l); [done|apply upd_core, settled_core|by rewrite Hs|done].
Qed.

Lemma remove_frame e l :
  subs (remove e l) ⊆ subs l /\ entries (remove e l) = entries l /\ cb (remove e l) = cb l /\ callers (remove e l) = callers l
  /\ leavers (remove e l) = leavers l /\ registry (remove e l) = registry l /\ owner (remove e l) = owner l
  /\ sent (remove e l) = sent l /\ discards (remove e l) = discards l /\ regMu (remove e l) = regMu l
  /\ transportClosed (remove e l) = transportClosed l.
Proof. unfold remove. case_match; split_and!; try done. simpl. apply delete_subseteq. Qed.

Lemma remove_protocol e l : protocol l -> protocol (remove e l).
Proof. intros Hl. destruct (remove_frame e l) as (Hs & He & Hc & _). by apply (protocol_frame l); [|apply same_core_refl| |]. Qed.

(** What does not touch entries, subscriptions or the callback. *)
Lemma protocol_same l l' :
  protocol l -> entries l' = entries l -> subs l' = subs l -> cb l' = cb l -> protocol l'.
Proof. intros Hl He Hs Hc. apply (protocol_frame l); [done|by apply same_core_refl|by rewrite Hs|done]. Qed.

Lemma not_telling l e x evs :
  protocol l -> entries l !! e = Some x -> told x = (Subscribed :: evs) -> e ∈ telling (cb l) -> Forall is_publication evs.
Proof.
  intros Hl He Ht Hin. pose proof (pr_told _ Hl e x He) as H. rewrite Ht in H. destruct H as [_ [Hp|(ps & _ & _ & _ & Hn)]]; done.
Qed.

(** Telling the entry a callback is for, and moving on. *)
Lemma tell_protocol l e x ev c' :
  protocol l -> entries l !! e = Some x -> e ∈ telling (cb l) -> s_live x = true ->
  (match ev with Subscribed => told x = [] | Publication _ => told x <> [] | Ended => told x <> [] /\ ~ is_current l e end) ->
  (forall e', e' ∈ telling c' -> e' ∈ telling (cb l) /\ e' <> e) ->
  (forall e', cb l = CbSubscribed e' -> e' = e) ->
  (forall e', c' <> CbSubscribed e') ->
  match c' with
  | CbPublication _ _ | CbEnded _ => False
  | CbEndAll es => exists es0, cb l = CbEndAll es0 /\ NoDup es
  | _ => True
  end ->
  protocol (set_cb c' (tell e ev l)).
Proof.
  intros Hl He Hin Hlive Hev Htel Hsub Hno Hc'. pose proof Hl as [H1 H2 H3].
  set (x' := MkSub (s_channel x) (s_live x) (s_settled x) (s_sub x) (told x ++ [ev])%list).
  assert (Hent : entries (tell e ev l) = <[e := x']> (entries l)) by (unfold tell, upd; by rewrite He).
  destruct (upd_frame e (fun x => MkSub (s_channel x) (s_live x) (s_settled x) (s_sub x) (told x ++ [ev])%list) l) as (Hs & _).
  fold (tell e ev l) in Hs.
  assert (Hchan : forall e', chan e' (tell e ev l) = chan e' l).
  { intros e'. unfold chan. rewrite Hent. destruct (decide (e = e')) as [<-|Hne]; [by rewrite lookup_insert_eq, He|by rewrite lookup_insert_ne]. }
  assert (Hcur : forall e', is_current (set_cb c' (tell e ev l)) e' <-> is_current l e').
  { intros e'. unfold is_current. change (chan e' (set_cb c' (tell e ev l))) with (chan e' (tell e ev l)). simpl. by rewrite Hs, Hchan. }
  split; simpl.
  - rewrite Hs, Hent. intros ch e' Hc. destruct (H1 ch e' Hc) as (y & Hy & Hch). destruct (decide (e = e')) as [<-|Hne].
    + rewrite lookup_insert_eq. exists x'. split; [done|]. simpl. congruence.
    + rewrite lookup_insert_ne by done. by exists y.
  - rewrite Hent. intros e' y Hy. destruct (decide (e = e')) as [<-|Hne].
    + rewrite lookup_insert_eq in Hy. apply (inj Some) in Hy as <-. simpl. pose proof (H2 e x He) as Hx.
      destruct (told x) as [|ev0 evs] eqn:Et.
      * destruct ev; [|done|naive_solver]. simpl. split; [done|]. left. constructor.
      * destruct ev0; try done. simpl. split; [done|].
        pose proof (not_telling l e x evs Hl He Et Hin) as Hp. destruct ev; [done|left|right].
        -- apply Forall_app. split; [done|]. by repeat constructor.
        -- exists evs. destruct Hev as [_ Hn]. split_and!; [done|done| |].
           ++ intros Hc. by apply Hn, Hcur.
           ++ intros Hc. by destruct (Htel e Hc) as [_ Hne].
    + rewrite lookup_insert_ne in Hy by done. specialize (H2 e' y Hy). destruct (told y) as [|[] evs]; try done.
      * intros Hly. specialize (H2 Hly). by rewrite (Hsub _ H2) in Hne.
      * destruct H2 as [Hly [Hp|(ps & -> & Hp & Hn & Hnt)]]; (split; [done|]); [by left|]. right. exists ps. split_and!; try done.
        -- intros Hc. by apply Hn, Hcur.
        -- intros Hc. by destruct (Htel e' Hc).
  - destruct c' as [| | | | | |es| |]; try done; [by destruct (Hno e0)|]. destruct Hc' as (es0 & Hcb & Hnd). split; [done|].
    intros e' He'. destruct (Htel e' He') as [Hin' Hne]. rewrite Hcb in *. destruct H3 as [_ H3]. destruct (H3 e' Hin') as (y & Hy & Hl' & Hn).
    exists y. rewrite Hent, lookup_insert_ne by done. split_and!; [done|done|]. intros Hc. by apply Hn, Hcur.
Qed.

(** A callback that has nobody to tell. *)
Lemma protocol_recb l c :
  protocol l -> (forall e, cb l <> CbSubscribed e) -> telling c = [] -> protocol (set_cb c l).
Proof.
  intros [H1 H2 H3] Hno Ht. split; simpl.
  - done.
  - intros e x He. specialize (H2 e x He). destruct (told x) as [|[] evs]; try done.
    + intros Hl. by destruct (Hno e (H2 Hl)).
    + destruct H2 as [Hl [Hp|(ps & -> & Hp & Hn & _)]]; (split; [done|]); [by left|]. right. exists ps. rewrite Ht.
      split_and!; [done|done|done|]. by intros ?%elem_of_nil.
  - destruct c; try done. simpl in Ht. subst. split; [constructor|]. by intros e ?%elem_of_nil.
Qed.

(** With no callback running, a live entry's sink has heard. *)
Lemma live_told l e x :
  protocol l -> (forall e, cb l <> CbSubscribed e) -> entries l !! e = Some x -> s_live x = true -> told x <> [].
Proof. intros Hl Hno He Hlive Ht. pose proof (pr_told _ Hl e x He) as H. rewrite Ht in H. by destruct (Hno e (H Hlive)). Qed.

(** A callback that is to tell current entries, or entries just removed, none
    of which has been told [Ended]. *)
Lemma current_open l e x evs :
  protocol l -> is_current l e -> entries l !! e = Some x -> told x = Subscribed :: evs -> Forall is_publication evs.
Proof.
  intros Hl Hc He Ht. pose proof (pr_told _ Hl e x He) as H. rewrite Ht in H.
  by destruct H as [_ [Hp|(ps & _ & _ & Hn & _)]].
Qed.

Lemma protocol_telling l l' es :
  protocol l -> cb l = CbIdle \/ (exists o, cb l = CbSweep o) -> entries l' = entries l -> subs l' ⊆ subs l -> telling (cb l') = es ->
  (forall e, e ∈ es -> is_current l e) ->
  match cb l' with
  | CbPublication e _ => live e l = true
  | CbEnded e => live e l = true /\ subs l' !! chan e l = None
  | CbEndAll es => NoDup es /\ subs l' = ∅
  | CbSubscribed _ => False
  | _ => True
  end -> protocol l'.
Proof.
  intros Hl Hidle He Hs Ht Hcur Hcb. pose proof Hl as [H1 H2 H3].
  assert (Hno : forall e, cb l <> CbSubscribed e) by (intros e; destruct Hidle as [->|[o ->]]; done).
  assert (Hch : forall e, chan e l' = chan e l) by (intros e; unfold chan; by rewrite He).
  assert (Hcu : forall e, is_current l' e -> is_current l e).
  { unfold is_current. intros e Hc. rewrite Hch in Hc. by eapply lookup_weaken. }
  assert (Hent : forall e, is_current l e -> exists x, entries l !! e = Some x) by (intros e Hc; destruct (H1 _ _ Hc) as (x & ? & _); eauto).
  split.
  - rewrite He. intros ch e Hc. apply H1. by eapply lookup_weaken.
  - rewrite He. intros e x Hx. pose proof (H2 e x Hx) as H. destruct (told x) as [|[] evs] eqn:Et; try done.
    + intros Hli. by destruct (Hno e (H Hli)).
    + destruct H as [Hli [Hp|(ps & -> & Hp & Hn & _)]]; (split; [done|]); [by left|]. right. exists ps. split_and!; try done.
      * intros Hc. by apply Hn, Hcu.
      * rewrite Ht. intros Hin. by apply Hn, Hcur.
  - destruct (cb l') eqn:Ecb; try done; simpl in Ht; subst es.
    + destruct (Hent e) as [x Hx]; [apply Hcur; by left|]. exists x. rewrite He. split; [done|]. eapply live_told; try done.
      unfold live in Hcb. by rewrite Hx in Hcb.
    + destruct (Hent e) as [x Hx]; [apply Hcur; by left|]. exists x. rewrite He. destruct Hcb as [Hli Hnone]. split_and!; [done| |].
      * eapply live_told; try done. unfold live in Hli. by rewrite Hx in Hli.
      * unfold is_current. rewrite Hch. congruence.
    + destruct Hcb as [Hnd Hemp]. split; [done|]. intros e Hin. destruct (Hent e (Hcur e Hin)) as [x Hx]. exists x. rewrite He.
      split_and!; [done|intros Hli; by eapply live_told|]. unfold is_current. by rewrite Hemp, lookup_empty.
Qed.

Lemma current_true e l : current e l = true <-> is_current l e.
Proof. apply bool_decide_eq_true. Qed.

Lemma discarding_frame s l :
  entries (discarding s l) = entries l /\ subs (discarding s l) = subs l /\ cb (discarding s l) = cb l
  /\ callers (discarding s l) = callers l /\ leavers (discarding s l) = leavers l /\ registry (discarding s l) = registry l
  /\ owner (discarding s l) = owner l /\ sent (discarding s l) = sent l /\ regMu (discarding s l) = regMu l
  /\ transportClosed (discarding s l) = transportClosed l
  /\ discards (discarding s l) = (discards l ++ match s with Some s => [s] | None => [] end)%list.
Proof. destruct s; simpl; rewrite ?app_nil_r; done. Qed.

Lemma reserve_protocol t e ch l : protocol l -> entries l !! e = None -> protocol (reserve t e ch l).
Proof.
  intros Hl Hfresh. unfold reserve. repeat case_match; try by apply (protocol_same l).
  match goal with E : subs l !! ch = None |- _ => rename E into Hch end.
  destruct Hl as [H1 H2 H3]. 
  assert (Hne : forall e', is_Some (entries l !! e') -> e' <> e) by (intros e' [x Hx] ->; congruence).
  assert (Hcu : forall e', is_Some (entries l !! e') ->
    is_current (goto t (SNew e) (set_subs (<[ch := e]> (subs l)) (set_entries (<[e := MkSub ch false None None []]> (entries l)) l))) e' ->
    is_current l e').
  { unfold is_current, chan. simpl. intros e' Hs. rewrite (lookup_insert_ne (entries l)) by (by apply not_eq_sym, Hne). destruct Hs as [x Hx].
    rewrite Hx. destruct (decide (ch = s_channel x)) as [->|Hc]; [|by rewrite lookup_insert_ne].
    rewrite lookup_insert_eq. intros ?. simplify_eq. }
  split; simpl.
  - intros ch' e' Hc. destruct (decide (ch = ch')) as [<-|Hn].
    + rewrite lookup_insert_eq in Hc. simplify_eq. rewrite lookup_insert_eq. by eexists.
    + rewrite lookup_insert_ne in Hc by done. destruct (H1 ch' e' Hc) as (x & Hx & ?). exists x.
      rewrite lookup_insert_ne; [done|]. apply not_eq_sym, Hne. by exists x.
  - intros e' x Hx. destruct (decide (e = e')) as [<-|Hn].
    + rewrite lookup_insert_eq in Hx. by simplify_eq.
    + rewrite lookup_insert_ne in Hx by done. specialize (H2 e' x Hx). destruct (told x) as [|[] evs]; try done.
      destruct H2 as [Hli [Hp|(ps & -> & Hp & Hnc & Hnt)]]; (split; [done|]); [by left|]. right. exists ps. split_and!; try done.
      intros Hc. apply Hnc, Hcu; [by exists x|done].
  - assert (Hlook : forall e' x, entries l !! e' = Some x -> <[e := MkSub ch false None None []]> (entries l) !! e' = Some x).
    { intros e' x Hx. rewrite lookup_insert_ne; [done|]. apply not_eq_sym, Hne. by exists x. }
    destruct (cb l); try done.
    + destruct H3 as (x & Hx & ?). exists x. by rewrite (Hlook _ _ Hx).
    + destruct H3 as (x & Hx & ?). exists x. by rewrite (Hlook _ _ Hx).
    + destruct H3 as (x & Hx & Ht & Hnc). exists x. rewrite (Hlook _ _ Hx). split_and!; try done. intros Hc. apply Hnc, Hcu; [by exists x|done].
    + destruct H3 as [Hnd H3]. split; [done|]. intros e' He'. destruct (H3 e' He') as (x & Hx & Ht & Hnc). exists x.
      rewrite (Hlook _ _ Hx). split_and!; try done. intros Hc. apply Hnc, Hcu; [by exists x|done].
Qed.

Lemma onSubscribed_protocol e l : protocol l -> cb l = CbIdle -> protocol (onSubscribed e l).
Proof.
  intros Hl Hcb. unfold onSubscribed. destruct (current e l && negb (live e l)) eqn:E; [|done]. reflect_guards.
  assert (Hc : is_current l e) by (by apply current_true). destruct Hl as [H1 H2 H3].
  destruct (H1 _ _ Hc) as (x & Hx & Hch). assert (Hli : s_live x = false) by (unfold live in *; by rewrite Hx in *).
  unfold upd. rewrite Hx.
  set (x' := MkSub (s_channel x) true (s_settled x) (s_sub x) (told x)).
  assert (Htold : told x = []).
  { pose proof (H2 e x Hx) as Hpt. destruct (told x) as [|[] ?]; try done. destruct Hpt as [? _]. congruence. }
  assert (Hcore : forall e' c, is_current (set_cb c (set_entries (<[e := x']> (entries l)) l)) e' -> is_current l e').
  { intros e' c. unfold is_current, chan. simpl. destruct (decide (e = e')) as [<-|Hne]; [by rewrite lookup_insert_eq, Hx|by rewrite lookup_insert_ne]. }
  split; simpl.
  - intros ch e' Hc'. destruct (H1 ch e' Hc') as (y & Hy & ?). destruct (decide (e = e')) as [<-|Hne].
    + rewrite lookup_insert_eq. exists x'. split; [done|]. simpl. congruence.
    + rewrite lookup_insert_ne by done. by exists y.
  - intros e' y Hy. destruct (decide (e = e')) as [<-|Hne].
    + rewrite lookup_insert_eq in Hy. apply (inj Some) in Hy as <-. simpl. by rewrite Htold.
    + rewrite lookup_insert_ne in Hy by done. specialize (H2 e' y Hy). destruct (told y) as [|[] evs]; try done.
      * intros Hly. specialize (H2 Hly). congruence.
      * destruct H2 as [Hly [Hp|(ps & -> & Hp & Hn & Hnt)]]; (split; [done|]); [by left|]. right. exists ps. split_and!; try done.
        -- intros Hc'. by eapply Hn, Hcore.
        -- rewrite list_elem_of_singleton. congruence.
  - exists x'. by rewrite lookup_insert_eq.
Qed.

Lemma removed_none e l : is_current l e -> subs (remove e l) !! chan e l = None.
Proof. intros Hc. unfold remove. rewrite (proj2 (current_true e l) Hc). simpl. apply lookup_delete_eq. Qed.

Lemma lose_protocol e s err l : protocol l -> cb l = CbIdle -> protocol (lose e s err l).
Proof.
  intros Hl Hcb. unfold lose. destruct (current e l) eqn:Ec; [|done]. assert (Hc : is_current l e) by (by apply current_true).
  destruct (remove_frame e l) as (R1 & R2 & _). destruct (live e l) eqn:El.
  - apply (protocol_telling l _ [e]); try done; [by left|by intros ? ->%list_elem_of_singleton|]. simpl. split; [done|]. by apply removed_none.
  - apply (protocol_telling l _ []); try done; [by left|]. by intros ? ?%elem_of_nil.
Qed.

Lemma onError_protocol e s err l : protocol l -> cb l = CbIdle -> protocol (onError e s err l).
Proof.
  intros Hl Hcb. unfold onError. destruct (_ && _); [|done]. destruct (remove_frame e l) as (R1 & R2 & _).
  apply (protocol_telling l _ []); try done; [by left|]. by intros ? ?%elem_of_nil.
Qed.

Lemma subs_entries_nodup l : protocol l -> NoDup ((map_to_list (subs l)).*2).
Proof.
  intros Hl. apply NoDup_fmap_2_strong; [|apply NoDup_map_to_list]. intros [c1 e1] [c2 e2] H1 H2 Heq. simpl in Heq. subst e2.
  apply elem_of_map_to_list in H1, H2. destruct (pr_subs _ Hl _ _ H1) as (x & Hx & <-), (pr_subs _ Hl _ _ H2) as (y & Hy & <-). congruence.
Qed.

Lemma subs_current l e : protocol l -> e ∈ (map_to_list (subs l)).*2 <-> is_current l e.
Proof.
  intros Hl. rewrite list_elem_of_fmap. split.
  - intros ([c e'] & -> & Hin). apply elem_of_map_to_list in Hin. destruct (pr_subs _ Hl _ _ Hin) as (x & Hx & Hch).
    unfold is_current, chan. simpl. rewrite Hx. by rewrite Hch.
  - intros Hc. exists (chan e l, e). split; [done|]. by apply elem_of_map_to_list.
Qed.

Lemma sweep_protocol o l : protocol l -> cb l = CbSweep o -> protocol (sweep o l).
Proof.
  intros Hl Hcb. apply (protocol_telling l _ ((map_to_list (subs l)).*2)); simpl; try done; [by right; exists o|..].
  - apply map_empty_subseteq.
  - intros e He. by apply subs_current.
  - split; [by apply subs_entries_nodup|done].
Qed.

(** The second loop of [endAllSubscriptions] moves on. *)
Lemma endAll_tail e es l : protocol l -> cb l = CbEndAll (e :: es) -> protocol (set_cb (CbEndAll es) l).
Proof.
  intros [H1 H2 H3] Hcb. rewrite Hcb in H3. destruct H3 as [Hnd H3]. apply NoDup_cons in Hnd as [_ Hnd]. split; simpl; [done| |].
  - intros e' x Hx. specialize (H2 e' x Hx). rewrite Hcb in H2. destruct (told x) as [|[] evs]; try done.
    + intros Hli. specialize (H2 Hli). congruence.
    + destruct H2 as [Hli [Hp|(ps & -> & Hp & Hn & Hnt)]]; (split; [done|]); [by left|]. right. exists ps. split_and!; try done.
      intros Hin. apply Hnt. simpl. by right.
  - split; [done|]. intros e' He'. apply H3. by right.
Qed.

Lemma continue_protocol l : protocol l -> protocol (continue l).
Proof.
  intros Hl. pose proof (pr_cb _ Hl) as Hcb. unfold continue. destruct (cb l) eqn:Ec; simpl in Hcb; try done.
  - destruct Hcb as (x & Hx & Hli & Ht). apply (tell_protocol l e x); try done; rewrite ?Ec; simpl; try done; [by left|..]; try congruence.
    by intros e' ?%elem_of_nil.
  - apply protocol_recb; [by apply settle_protocol| |done].
    destruct (upd_frame e (settled_entry err) l) as (_ & Hc & _). unfold settle. rewrite Hc. congruence.
  - destruct Hcb as (x & Hx & Ht). apply (tell_protocol l e x); try done; rewrite ?Ec; simpl; try done; [by left| |by intros e' ?%elem_of_nil].
    pose proof (pr_told _ Hl e x Hx) as Hp. destruct (told x) as [|[] ?]; try done. by destruct Hp.
  - destruct Hcb as (x & Hx & Ht & Hn). apply (tell_protocol l e x); try done; rewrite ?Ec; simpl; try done; [by left| |by intros e' ?%elem_of_nil].
    pose proof (pr_told _ Hl e x Hx) as Hp. destruct (told x) as [|[] ?]; try done. by destruct Hp.
  - by apply sweep_protocol.
  - destruct entries0 as [|e es]; [apply protocol_recb; [done|congruence|done]|]. destruct Hcb as [Hnd Hes].
    destruct (Hes e) as (x & Hx & Ht & Hn); [by left|]. unfold endOne. set (l' := discarding (sub_of e l) l).
    destruct (discarding_frame (sub_of e l) l) as (D1 & D2 & D3 & _). fold l' in D1, D2, D3.
    assert (Hl' : protocol l') by (by apply (protocol_same l)). apply NoDup_cons in Hnd as [Hnin Hnd]. unfold live. rewrite Hx.
    destruct (s_live x) eqn:El.
    + apply (tell_protocol l' e x); try done; rewrite ?D1, ?D3, ?Ec; simpl; try done; [by left| | |by exists (e :: es)].
      * split; [auto|]. unfold is_current, chan. by rewrite D1, D2.
      * intros e' He'. split; [by right|]. congruence.
    + destruct (upd_frame e (settled_entry (Some (wrapf [ErrLinkReconnecting]))) l') as (_ & Hc & _).
      apply (endAll_tail e es (settle e (Some (wrapf [ErrLinkReconnecting])) l')); [by apply settle_protocol|]. unfold settle. by rewrite Hc, D3.
  - apply protocol_recb; [by apply (protocol_same l)|simpl; congruence|done].
  - destruct sinks as [|x xs]; (apply protocol_recb; [by apply (protocol_same l)|simpl; congruence|done]).
Qed.

Lemma protocol_step l l' : protocol l -> step l l' -> protocol l'.
Proof.
  intros Hl [a Ha]. destruct a; simpl in Ha; unfold when, callback_of, idle in Ha; branches; simplify_eq; reflect_guards;
    try (by apply continue_protocol); try by apply (protocol_same l).
  - by apply reserve_protocol.
  - unfold newSubscription. by repeat case_match; apply (protocol_same l).
  - unfold installed. case_match; [|by apply (protocol_same l)].
    match goal with |- protocol (goto _ _ (upd ?e ?f _)) => apply (protocol_same (upd e f l)); try done; destruct (upd_frame e f l) as (Hs & Hc & _) end.
    apply (protocol_frame l); [done|by apply upd_core|by rewrite Hs|done].
  - unfold lockSend. by case_match; apply (protocol_same l).
  - unfold checkSend. by case_match; apply (protocol_same l).
  - unfold send. by case_match; apply (protocol_same l).
  - apply (protocol_same (remove e l)); try done. by apply remove_protocol.
  - apply (protocol_same (settle e (Some err) l)); try done. by apply settle_protocol.
  - apply (protocol_same (remove e l)); try done. by apply remove_protocol.
  - apply (protocol_same (remove e l)); try done. by apply remove_protocol.
  - match goal with |- protocol (goto _ _ (discarding ?s ?l1)) => destruct (discarding_frame s l1) as (D1 & D2 & D3 & _); apply (protocol_same l1); try done end.
    by apply settle_protocol.
  - apply (protocol_frame l); try done. simpl. apply delete_subseteq.
  - match goal with |- protocol (set_leavers _ ?l1) => apply (protocol_same l1); try done end. by apply settle_protocol.
  - destruct (discarding_frame (sub_of e l) l) as (D1 & D2 & D3 & _). by apply (protocol_same l).
  - unfold discard. by repeat case_match; apply (protocol_same l).
  - by apply onSubscribed_protocol.
  - unfold onPublication. destruct (current n l) eqn:Ec; [|done]. destruct (live n l) eqn:El; [|done]. simpl.
    apply (protocol_telling l _ [n]); try done; [by left|]. intros e ->%list_elem_of_singleton. by apply current_true.
  - by apply lose_protocol.
  - unfold onSubscribing. case_match; [by apply lose_protocol|done].
  - by apply onError_protocol.
  - by apply (protocol_telling l _ []); try done; [left|intros ? ?%elem_of_nil].
  - by apply (protocol_telling l _ []); try done; [left|intros ? ?%elem_of_nil].
  - by apply (protocol_telling l _ []); try done; [left|intros ? ?%elem_of_nil].
  - by apply (protocol_telling l _ []); try done; [left|intros ? ?%elem_of_nil].
Qed.

Lemma protocol_reachable l : reachable_link l -> protocol l.
Proof.
  apply reachable_invariant; [|apply protocol_step]. intros ? ->. split; simpl.
  - intros ch e He. by rewrite lookup_empty in He.
  - intros e x He. by rewrite lookup_empty in He.
  - done.
Qed.

(** A nil outcome is recorded only behind [sink.Subscribed]. *)
Record answered (l : link) : Prop := {
  an_entries : forall e x, entries l !! e = Some x -> s_settled x = Some None -> told x <> [];
  an_cb : forall e, cb l = CbSettle e None -> exists x, entries l !! e = Some x /\ told x <> []
}.

Lemma answered_frame l l' :
  answered l ->
  (forall e x', entries l' !! e = Some x' -> s_settled x' = Some None ->
     (exists x, entries l !! e = Some x /\ s_settled x = Some None /\ (told x <> [] -> told x' <> [])) \/ told x' <> []) ->
  (forall e, cb l' = CbSettle e None ->
     (cb l = CbSettle e None /\ forall x, entries l !! e = Some x -> exists x', entries l' !! e = Some x' /\ (told x <> [] -> told x' <> []))
     \/ exists x', entries l' !! e = Some x' /\ told x' <> []) ->
  answered l'.
Proof.
  intros [H1 H2] He Hc. split.
  - intros e x' Hx Hs. destruct (He e x' Hx Hs) as [(x & Hx0 & Hs0 & Ht)|]; [|done]. eauto.
  - intros e Hcb. destruct (Hc e Hcb) as [[Hcb0 Hk]|]; [|done]. destruct (H2 e Hcb0) as (x & Hx & Ht).
    destruct (Hk x Hx) as (x' & Hx' & Hk'). eauto.
Qed.

Lemma answered_same l l' : answered l -> entries l' = entries l -> (forall e, cb l' = CbSettle e None -> cb l = CbSettle e None) -> answered l'.
Proof.
  intros Hl He Hc. apply (answered_frame l); [done|..]; rewrite ?He.
  - intros e x Hx Hs. left. eauto.
  - intros e Hcb. left. split; [by apply Hc|]. eauto.
Qed.

(** A change of one entry that keeps what its sink heard. *)
Lemma answered_upd l l' e f :
  answered l -> entries l' = entries (upd e f l) -> (forall e', cb l' = CbSettle e' None -> cb l = CbSettle e' None) ->
  (forall x, entries l !! e = Some x ->
     (told x <> [] -> told (f x) <> []) /\ (s_settled (f x) = Some None -> s_settled x = Some None \/ told (f x) <> [])) -> answered l'.
Proof.
  intros Hl He Hc Hf. unfold upd in He. destruct (entries l !! e) as [x|] eqn:Ex; [|by apply (answered_same l)].
  destruct (Hf x eq_refl) as [Hf1 Hf2]. apply (answered_frame l); [done|..]; rewrite He; simpl.
  - intros e' x' Hx' Hs. destruct (decide (e = e')) as [<-|Hne].
    + rewrite lookup_insert_eq in Hx'. simplify_eq. destruct (Hf2 Hs); [left|by right]. eauto.
    + rewrite lookup_insert_ne in Hx' by done. left. eauto.
  - intros e' Hcb. left. split; [by apply Hc|]. intros y Hy. destruct (decide (e = e')) as [<-|Hne].
    + rewrite lookup_insert_eq. simplify_eq. eauto.
    + rewrite lookup_insert_ne by done. eauto.
Qed.

Lemma settled_entry_nil err x : s_settled (settled_entry (Some err) x) = Some None -> s_settled x = Some None.
Proof. unfold settled_entry. by destruct (s_settled x) eqn:E; simpl; rewrite ?E. Qed.

Lemma settle_answered e err l l' :
  answered l -> entries l' = entries (settle e (Some err) l) -> (forall e', cb l' = CbSettle e' None -> cb l = CbSettle e' None) -> answered l'.
Proof.
  intros Hl He Hc. apply (answered_upd l _ e (settled_entry (Some err))); try done. intros x _. split.
  - unfold settled_entry. by case_match.
  - intros Hs. left. by eapply settled_entry_nil.
Qed.

Lemma answered_continue l : answered l -> protocol l -> answered (continue l).
Proof.
  intros Hl Hp. pose proof (pr_cb _ Hp) as Hcb. unfold continue. destruct (cb l) eqn:Ec; simpl in Hcb; try done.
  - destruct Hcb as (x & Hx & _). apply (answered_frame l); [done|..]; unfold tell, upd; rewrite Hx; simpl.
    + intros e' x' Hx' Hs. destruct (decide (e = e')) as [<-|Hne].
      * rewrite lookup_insert_eq in Hx'. simplify_eq. right. simpl. by destruct (told x).
      * rewrite lookup_insert_ne in Hx' by done. left. eauto.
    + intros e' Heq. simplify_eq. right. rewrite lookup_insert_eq. eexists. split; [done|]. simpl. by destruct (told x).
  - destruct err as [err|].
    + by apply (settle_answered e err l).
    + destruct (an_cb _ Hl e Ec) as (x & Hx & Ht).
      apply (answered_upd l _ e (settled_entry None)); try done. intros y Hy. simplify_eq. unfold settled_entry.
      case_match; simpl; split; auto.
  - by apply (answered_upd l _ e (fun x => MkSub (s_channel x) (s_live x) (s_settled x) (s_sub x) (told x ++ [Publication data])%list));
      [| | |intros x _; simpl; split; [by destruct (told x)|by left]].
  - by apply (answered_upd l _ e (fun x => MkSub (s_channel x) (s_live x) (s_settled x) (s_sub x) (told x ++ [Ended])%list));
      [| | |intros x _; simpl; split; [by destruct (told x)|by left]].
  - by apply (answered_same l).
  - destruct entries0 as [|e es]; [by apply (answered_same l)|]. unfold endOne.
    destruct (discarding_frame (sub_of e l) l) as (D1 & _). destruct (live e l).
    + apply (answered_upd l _ e (fun x => MkSub (s_channel x) (s_live x) (s_settled x) (s_sub x) (told x ++ [Ended])%list)); try done;
        [|intros x _; simpl; split; [by destruct (told x)|by left]]. simpl. unfold tell, upd. rewrite D1. by case_match; simpl; rewrite ?D1.
    + apply (settle_answered e (wrapf [ErrLinkReconnecting]) l); try done. simpl. unfold settle, upd. rewrite D1. by case_match; simpl; rewrite ?D1.
  - by apply (answered_same l).
  - by destruct sinks; apply (answered_same l).
Qed.

Lemma settle_cb e err l : cb (settle e err l) = cb l.
Proof. apply upd_frame. Qed.

Lemma answered_step l l' : protocol l -> answered l -> step l l' -> answered l'.
Proof.
  intros Hp Hl [a Ha]. destruct a; simpl in Ha; unfold when, callback_of, idle in Ha; branches; simplify_eq; reflect_guards;
    try (by apply answered_continue); try by apply (answered_same l).
  - unfold reserve. repeat case_match; try by apply (answered_same l). apply (answered_frame l); [done|..]; simpl.
    + intros e' x' Hx' Hs. destruct (decide (e = e')) as [<-|Hne].
      * rewrite lookup_insert_eq in Hx'. by simplify_eq.
      * rewrite lookup_insert_ne in Hx' by done. left. eauto.
    + intros e' Hcb. left. split; [done|]. intros x Hx. exists x. rewrite lookup_insert_ne; [done|]. intros ->. congruence.
  - unfold newSubscription. by repeat case_match; apply (answered_same l).
  - unfold installed. case_match; [|by apply (answered_same l)].
    match goal with |- answered (goto _ _ (upd ?e ?f _)) => apply (answered_upd l _ e f); try done; [simpl; by destruct (upd_frame e f l) as (_ & -> & _)|by auto] end.
  - unfold lockSend. by case_match; apply (answered_same l).
  - unfold checkSend. by case_match; apply (answered_same l).
  - unfold send. by case_match; apply (answered_same l).
  - destruct (remove_frame e l) as (_ & R2 & R3 & _). apply (answered_same l); simpl; congruence.
  - apply (settle_answered e err l); try done. simpl. by rewrite settle_cb.
  - destruct (remove_frame e l) as (_ & R2 & R3 & _). apply (answered_same l); simpl; congruence.
  - destruct (remove_frame e l) as (_ & R2 & R3 & _). apply (answered_same l); simpl; congruence.
  - match goal with |- answered (goto _ _ (discarding ?s ?l1)) => destruct (discarding_frame s l1) as (D1 & _ & D3 & _) end.
    apply (settle_answered e (wrapf [err]) l); try done. simpl. by rewrite D3, settle_cb.
  - apply (settle_answered e ErrSubscriptionWithdrawn l); try done. simpl. by rewrite settle_cb.
  - destruct (discarding_frame (sub_of e l) l) as (D1 & _ & D3 & _). apply (answered_same l); simpl; congruence.
  - unfold discard. by repeat case_match; apply (answered_same l).
  - unfold onSubscribed. case_match; [|done].
    match goal with |- answered (set_cb _ (upd ?e ?f _)) => by apply (answered_upd l _ e f); auto end.
  - unfold onPublication. case_match; [|done]. by apply (answered_same l).
  - unfold lose. case_match; [|done]. destruct (remove_frame n l) as (_ & R2 & _). apply (answered_same l); [done|done|]. simpl. by case_match.
  - unfold onSubscribing, lose. repeat case_match; try done; destruct (remove_frame n l) as (_ & R2 & _); by apply (answered_same l).
  - unfold onError. case_match; [|done]. destruct (remove_frame n l) as (_ & R2 & _). by apply (answered_same l).
Qed.

Lemma answered_reachable l : reachable_link l -> answered l.
Proof.
  intros Hr. induction Hr as [l -> | l l' Hr IH Hst].
  - split; simpl; [|done]. intros e x He. by rewrite lookup_empty in He.
  - eapply answered_step; [by apply protocol_reachable|done..].
Qed.

(** ** The transport's registry *)

(** A call registers its entry only while the entry is its channel's. The code
    does not look again between reserving an entry and registering it; what it
    promises about the registry holds for the runs that respect this. *)
Definition orderly (a : action) (l : link) : Prop :=
  match a with
  | Register t _ _ => forall e, callers l !! t = Some (SNew e) -> is_current l e
  | _ => True
  end.

Definition orderly_step (l l' : link) : Prop := exists a, orderly a l /\ act a l = Some l'.
Definition orderly_link : link -> Prop := reachable (fun l => l = initial) orderly_step.

(** The entry a call has reserved and not yet handed over to its await. *)
Definition holding (p : subscriber) : option nat :=
  match p with
  | SNew e | SInstall e _ | SLock e _ | SCheck e _ | SSend e _ | SWithdraw e _ => Some e
  | _ => None
  end.

(** A withdrawal of the entry's subscription is under way. *)
Definition withdrawing (l : link) (e s : nat) : Prop :=
  s ∈ discards l
  \/ (exists u, leavers l !! u = Some (USettle e) \/ leavers l !! u = Some (UDiscard e))
  \/ (exists t err, callers l !! t = Some (SSettle e err (Some s)))
  \/ (exists es, cb l = CbEndAll es /\ e ∈ es).

Definition caller_ok (l : link) (t : nat) (p : subscriber) : Prop :=
  match p with
  | SNew e => exists x, entries l !! e = Some x /\ s_sub x = None /\ forall s, owner l !! s <> Some e
  | SInstall e s => exists x, entries l !! e = Some x /\ s_sub x = None /\ owner l !! s = Some e /\ s ∉ sent l
      /\ (is_current l e -> registry l !! s_channel x = Some s)
  | SLock e s => exists x, entries l !! e = Some x /\ s_sub x = Some s /\ s ∉ sent l
  | SCheck e s => exists x, entries l !! e = Some x /\ s_sub x = Some s /\ s ∉ sent l /\ regMu l = Some t
  | SSend e s => exists x, entries l !! e = Some x /\ s_sub x = Some s /\ s ∉ sent l /\ regMu l = Some t
      /\ registry l !! s_channel x = Some s /\ (is_current l e \/ withdrawing l e s)
  | SWithdraw e _ => exists x, entries l !! e = Some x /\ forall s, s_sub x = Some s -> s ∉ sent l
  | SSettle e _ s => is_Some (entries l !! e) /\ ~ is_current l e /\ forall s', s = Some s' -> owner l !! s' = Some e
  | SExpired e _ | SAwait e => is_Some (entries l !! e)
  | _ => True
  end.

Record registered (l : link) : Prop := {
  rg_owner : forall s e, owner l !! s = Some e -> is_Some (entries l !! e);
  rg_inj : forall s s' e, owner l !! s = Some e -> owner l !! s' = Some e -> s = s';
  rg_registry : forall ch s, registry l !! ch = Some s -> exists e, owner l !! s = Some e /\ chan e l = ch;
  rg_stored : forall e x s, entries l !! e = Some x -> s_sub x = Some s ->
    owner l !! s = Some e /\ (is_current l e -> registry l !! s_channel x = Some s);
  rg_callers : forall t p, callers l !! t = Some p -> caller_ok l t p;
  rg_unique : forall t t' p p' e, callers l !! t = Some p -> callers l !! t' = Some p' ->
    holding p = Some e -> holding p' = Some e -> t = t';
  rg_discards : forall s, s ∈ discards l -> exists e, owner l !! s = Some e /\ ~ is_current l e;
  rg_leavers : forall u e, leavers l !! u = Some (USettle e) \/ leavers l !! u = Some (UDiscard e) ->
    is_Some (entries l !! e) /\ ~ is_current l e;
  rg_sent : forall s, s ∈ sent l -> exists e x, owner l !! s = Some e /\ entries l !! e = Some x /\ s_sub x = Some s
    /\ registry l !! s_channel x = Some s /\ (is_current l e \/ withdrawing l e s \/ transportClosed l = true)
}.

(** The members of an entry the registry reads. *)
Definition place (x : sessionSub) : string * option nat := (s_channel x, s_sub x).

(** An action that registers and sends nothing: entries may lose their channel
    if their subscription is being withdrawn or was never sent, calls may go on
    to a point that holds no entry. *)
Lemma registered_frame l l' :
  registered l ->
  (forall e, place <$> (entries l' !! e) = place <$> (entries l !! e)) ->
  owner l' = owner l -> registry l' = registry l -> sent l' = sent l -> regMu l' = regMu l ->
  (transportClosed l = true -> transportClosed l' = true) ->
  (forall e, is_current l' e -> is_current l e) ->
  (forall e x s, entries l !! e = Some x -> s_sub x = Some s -> is_current l e ->
     is_current l' e \/ withdrawing l' e s \/ (s ∉ sent l /\ forall t p, callers l' !! t = Some p -> p <> SSend e s)) ->
  (forall e x s, entries l !! e = Some x -> s_sub x = Some s -> withdrawing l e s -> withdrawing l' e s) ->
  (forall t p, callers l' !! t = Some p -> callers l !! t = Some p \/ (holding p = None /\ caller_ok l' t p)) ->
  (forall s, s ∈ discards l' -> s ∈ discards l \/ exists e, owner l !! s = Some e /\ ~ is_current l' e) ->
  (forall u e, leavers l' !! u = Some (USettle e) \/ leavers l' !! u = Some (UDiscard e) ->
     is_Some (entries l !! e) /\ ~ is_current l' e) ->
  registered l'.
Proof.
  intros [H1 H2 H3 H4 H5 H6 H7 H8 H9] Hp Ho Hr Hs Hm Htc Hcur Hgone Hwd Hca Hdi Hle.
  assert (Hfwd : forall e x, entries l !! e = Some x -> exists x', entries l' !! e = Some x' /\ s_channel x' = s_channel x /\ s_sub x' = s_sub x).
  { intros e x Hx. specialize (Hp e). rewrite Hx in Hp. destruct (entries l' !! e) as [x'|]; [|done]. simpl in Hp. unfold place in Hp.
    exists x'. split; [done|]. by simplify_eq. }
  assert (Hbwd : forall e x', entries l' !! e = Some x' -> exists x, entries l !! e = Some x /\ s_channel x' = s_channel x /\ s_sub x' = s_sub x).
  { intros e x' Hx. specialize (Hp e). rewrite Hx in Hp. destruct (entries l !! e) as [x|]; [|done]. simpl in Hp. unfold place in Hp.
    exists x. split; [done|]. by simplify_eq. }
  assert (Hsome : forall e, is_Some (entries l !! e) -> is_Some (entries l' !! e)) by (intros e [x Hx]; destruct (Hfwd e x Hx) as (x' & ? & _); eauto).
  assert (Hch : forall e, chan e l' = chan e l).
  { intros e. unfold chan. specialize (Hp e). unfold place in Hp. destruct (entries l' !! e), (entries l !! e); simpl in Hp; by simplify_eq. }
  split; rewrite ?Ho, ?Hr, ?Hs.
  - eauto.
  - done.
  - intros ch s Hreg. destruct (H3 ch s Hreg) as (e & ? & ?). exists e. by rewrite Hch.
  - intros e x' s Hx' Hsub. destruct (Hbwd e x' Hx') as (x & Hx & -> & Hsub'). rewrite Hsub' in Hsub.
    destruct (H4 e x s Hx Hsub) as [? Hc]. split; [done|]. auto.
  - intros t p Hp'. destruct (Hca t p Hp') as [Hold|[_ Hok]]; [|done]. specialize (H5 t p Hold).
    destruct p as [|e|e s|e s|e s|e s|e err|e err|e|e err|e err s|]; simpl in *; rewrite ?Ho, ?Hr, ?Hs, ?Hm; try done.
    + destruct H5 as (x & Hx & Hn & Hno). destruct (Hfwd e x Hx) as (x' & Hx' & _ & Hs'). exists x'. split_and!; [done|congruence|done].
    + destruct H5 as (x & Hx & Hn & Hown & Hns & Hreg). destruct (Hfwd e x Hx) as (x' & Hx' & Hc' & Hs'). exists x'.
      split_and!; [done|congruence|done|done|]. rewrite Hc'. auto.
    + destruct H5 as (x & Hx & Hn & Hns). destruct (Hfwd e x Hx) as (x' & Hx' & _ & Hs'). exists x'. split_and!; [done|congruence|done].
    + destruct H5 as (x & Hx & Hn & Hns & Hmu). destruct (Hfwd e x Hx) as (x' & Hx' & _ & Hs'). exists x'. split_and!; [done|congruence|done|done].
    + destruct H5 as (x & Hx & Hn & Hns & Hmu & Hreg & Hor). destruct (Hfwd e x Hx) as (x' & Hx' & Hc' & Hs'). exists x'.
      split_and!; [done|congruence|done|done|congruence|]. destruct Hor as [Hc|Hw]; [|right; by eapply Hwd].
      destruct (Hgone e x s Hx Hn Hc) as [?|[?|[_ Hno]]]; [by left|by right|]. by destruct (Hno t _ Hp').
    + destruct H5 as (x & Hx & Hns). destruct (Hfwd e x Hx) as (x' & Hx' & _ & Hs'). exists x'. split; [done|]. rewrite Hs'. done.
    + by apply Hsome.
    + by apply Hsome.
    + destruct H5 as (Hse & Hnc & Hown). split_and!; [by apply Hsome|auto|done].
  - intros t t' p p' e Hpt Hpt' Hh Hh'. destruct (Hca t p Hpt) as [Ha|[Ha _]], (Hca t' p' Hpt') as [Hb|[Hb _]]; try congruence. by eapply H6.
  - intros s Hin. destruct (Hdi s Hin) as [Hold|]; [|done]. destruct (H7 s Hold) as (e & ? & ?). exists e. auto.
  - intros u e Hu. destruct (Hle u e Hu) as [? ?]. auto.
  - intros s Hin. destruct (H9 s Hin) as (e & x & Hown & Hx & Hsub & Hreg & Hor). destruct (Hfwd e x Hx) as (x' & Hx' & Hc' & Hs').
    exists e, x'. split_and!; [done|done|congruence|congruence|]. destruct Hor as [Hc|[Hw|Htcl]].
    + destruct (Hgone e x s Hx Hsub Hc) as [?|[?|[? _]]]; [by left|by right; left|done].
    + right; left. by eapply Hwd.
    + right; right. auto.
Qed.

Lemma place_same l l' : entries l' = entries l -> forall e, place <$> (entries l' !! e) = place <$> (entries l !! e).
Proof. intros H e. by rewrite H. Qed.

Lemma upd_place e f l : (forall x, place (f x) = place x) -> forall e', place <$> (entries (upd e f l) !! e') = place <$> (entries l !! e').
Proof.
  intros Hf e'. unfold upd. destruct (entries l !! e) as [x|] eqn:E; [|done]. simpl. destruct (decide (e = e')) as [<-|Hne].
  - rewrite lookup_insert_eq, E. simpl. by rewrite Hf.
  - by rewrite lookup_insert_ne.
Qed.

Lemma settled_place err x : place (settled_entry err x) = place x.
Proof. unfold settled_entry. by case_match. Qed.

Lemma place_chan l l' e : (forall e, place <$> (entries l' !! e) = place <$> (entries l !! e)) -> chan e l' = chan e l.
Proof. intros H. specialize (H e). unfold chan, place in *. destruct (entries l' !! e), (entries l !! e); simpl in H; by simplify_eq. Qed.

Lemma place_current l l' e :
  (forall e, place <$> (entries l' !! e) = place <$> (entries l !! e)) -> subs l' ⊆ subs l -> is_current l' e -> is_current l e.
Proof. unfold is_current. intros Hp Hs Hc. rewrite (place_chan _ _ _ Hp) in Hc. by eapply lookup_weaken. Qed.

Lemma place_current_same l l' e :
  (forall e, place <$> (entries l' !! e) = place <$> (entries l !! e)) -> subs l' = subs l -> is_current l e -> is_current l' e.
Proof. unfold is_current. intros Hp Hs Hc. by rewrite (place_chan _ _ _ Hp), Hs. Qed.

(** An action that leaves the subscriptions of the link alone. *)
Lemma registered_same l l' :
  registered l ->
  (forall e, place <$> (entries l' !! e) = place <$> (entries l !! e)) -> subs l' = subs l ->
  owner l' = owner l -> registry l' = registry l -> sent l' = sent l -> regMu l' = regMu l ->
  (transportClosed l = true -> transportClosed l' = true) ->
  (forall e x s, entries l !! e = Some x -> s_sub x = Some s -> withdrawing l e s -> withdrawing l' e s) ->
  (forall t p, callers l' !! t = Some p -> callers l !! t = Some p \/ (holding p = None /\ caller_ok l' t p)) ->
  (forall s, s ∈ discards l' -> s ∈ discards l \/ exists e, owner l !! s = Some e /\ ~ is_current l e) ->
  (forall u e, leavers l' !! u = Some (USettle e) \/ leavers l' !! u = Some (UDiscard e) ->
     leavers l !! u = Some (USettle e) \/ leavers l !! u = Some (UDiscard e)) ->
  registered l'.
Proof.
  intros Hl Hp Hs Ho Hr Hse Hm Htc Hwd Hca Hdi Hle.
  assert (Hc : forall e, is_current l' e -> is_current l e) by (intros e; apply place_current; [done|by rewrite Hs]).
  apply (registered_frame l); try done.
  - intros e x s _ _ Hcu. left. by eapply place_current_same.
  - intros s Hin. destruct (Hdi s Hin) as [?|(e & ? & ?)]; [by left|]. right. exists e. auto.
  - intros u e Hu. destruct (rg_leavers _ Hl u e (Hle u e Hu)). auto.
Qed.

(** A call that goes on to a point where it holds nothing. *)
Lemma goto_registered l l' t p p' :
  registered l -> callers l !! t = Some p -> (forall e err s, p <> SSettle e err (Some s)) -> holding p' = None -> caller_ok l t p' ->
  (forall e, place <$> (entries l' !! e) = place <$> (entries l !! e)) -> subs l' = subs l -> owner l' = owner l ->
  registry l' = registry l -> sent l' = sent l -> regMu l' = regMu l -> transportClosed l' = transportClosed l ->
  callers l' = <[t := p']> (callers l) -> leavers l' = leavers l -> cb l' = cb l -> discards l' = discards l -> registered l'.
Proof.
  intros Hl Ht Hns Hh Hok Hp Hs Ho Hr Hse Hm Htc Hca Hle Hcb Hdi. apply (registered_same l); try done.
  - by rewrite Htc.
  - intros e x s _ _ [Hw|[[u Hw]|[(t' & err & Hw)|Hw]]]; unfold withdrawing; rewrite ?Hdi, ?Hle, ?Hcb, ?Hca; eauto.
    right; right; left. exists t', err. rewrite lookup_insert_ne; [done|]. intros ->. rewrite Ht in Hw. simplify_eq. by destruct (Hns e err s).
  - rewrite Hca. intros t' q Hq. destruct (decide (t = t')) as [<-|Hne].
    + rewrite lookup_insert_eq in Hq. simplify_eq. right. split; [done|].
      assert (Hsome : forall e, is_Some (entries l !! e) -> is_Some (entries l' !! e)).
      { intros e [x Hx]. specialize (Hp e). rewrite Hx in Hp. by destruct (entries l' !! e). }
      destruct q; simpl in *; rewrite ?Ho; try done; auto. destruct Hok as (? & Hnc & ?). split_and!; auto.
      intros Hc. apply Hnc. eapply place_current; [done|by rewrite Hs|done].
    + rewrite lookup_insert_ne in Hq by done. by left.
  - rewrite Hdi. by left.
  - by rewrite Hle.
Qed.

Lemma remove_current e e' l : is_current l e' -> is_current (remove e l) e' \/ e' = e.
Proof.
  intros Hc. unfold remove. destruct (current e l) eqn:E; [|by left]. apply current_true in E. unfold is_current in *. simpl.
  change (chan e' (set_subs _ l)) with (chan e' l). destruct (decide (chan e l = chan e' l)) as [Heq|Hne].
  - right. rewrite Heq in E. congruence.
  - left. by rewrite lookup_delete_ne.
Qed.

Lemma remove_gone e l : ~ is_current (remove e l) e.
Proof.
  unfold remove. destruct (current e l) eqn:E.
  - unfold is_current. simpl. change (chan e (set_subs _ l)) with (chan e l). by rewrite lookup_delete_eq.
  - intros Hc. apply current_true in Hc. congruence.
Qed.

Lemma withdraw_registered t e err l :
  registered l -> callers l !! t = Some (SWithdraw e err) -> registered (goto t (SWithdrawn e err) (remove e l)).
Proof.
  intros Hl Ht. destruct (remove_frame e l) as (R1&R2&R3&R4&R5&R6&R7&R8&R9&R10&R11).
  pose proof (rg_callers _ Hl t _ Ht) as (x & Hx & Hns). apply (registered_frame l); simpl; try done; rewrite ?R11; try done.
  - by apply place_same.
  - intros e' Hc. apply (place_current _ (goto t (SWithdrawn e err) (remove e l))); [by apply place_same|done|done].
  - intros e' x' s Hx' Hs Hc. destruct (remove_current e e' l Hc) as [?| ->]; [by left|]. simplify_eq. right; right. split; [auto|].
    rewrite R4. intros t' p Hp ->. destruct (decide (t = t')) as [<-|Hne]; [by rewrite lookup_insert_eq in Hp|].
    rewrite lookup_insert_ne in Hp by done. by pose proof (rg_unique _ Hl t t' _ _ e Ht Hp eq_refl eq_refl).
  - intros e' x' s _ _ [Hw|[Hw|[(t' & err' & Hw)|Hw]]]; unfold withdrawing; simpl; rewrite ?R9, ?R5, ?R4, ?R3; auto.
    right; right; left. exists t', err'. rewrite lookup_insert_ne; [done|]. congruence.
  - rewrite R4. intros t' p Hp. destruct (decide (t = t')) as [<-|Hne]; [rewrite lookup_insert_eq in Hp; simplify_eq; by right|].
    rewrite lookup_insert_ne in Hp by done. by left.
  - rewrite R9. by left.
  - rewrite R5. intros u e' Hu. destruct (rg_leavers _ Hl u e' Hu) as [? Hn]. split; [done|]. intros Hc. apply Hn.
    apply (place_current _ (goto t (SWithdrawn e err) (remove e l))); [by apply place_same|done|done].
Qed.

Lemma expire_registered t e err l :
  registered l -> callers l !! t = Some (SExpired e err) ->
  registered (goto t (SSettle e err (if current e l then sub_of e l else None)) (remove e l)).
Proof.
  intros Hl Ht. destruct (remove_frame e l) as (R1&R2&R3&R4&R5&R6&R7&R8&R9&R10&R11).
  set (l' := goto t (SSettle e err (if current e l then sub_of e l else None)) (remove e l)).
  assert (Hcu : forall e', is_current l' e' -> is_current l e') by (intros e'; apply place_current; [by apply place_same|done]).
  pose proof (rg_callers _ Hl t _ Ht) as Hse. simpl in Hse. apply (registered_frame l); simpl; try done; rewrite ?R11; try done.
  - by apply place_same.
  - intros e' x s Hx Hs Hc. destruct (remove_current e e' l Hc) as [?| ->]; [by left|]. right; left. right; right; left.
    exists t, err. unfold l'. simpl. rewrite lookup_insert_eq. rewrite (proj2 (current_true e l) Hc). unfold sub_of. by rewrite Hx, Hs.
  - intros e' x' s _ _ [Hw|[Hw|[(t' & err' & Hw)|Hw]]]; unfold withdrawing; simpl; rewrite ?R9, ?R5, ?R4, ?R3; auto.
    right; right; left. exists t', err'. rewrite lookup_insert_ne; [done|]. congruence.
  - rewrite R4. intros t' p Hp. destruct (decide (t = t')) as [<-|Hne]; [|rewrite lookup_insert_ne in Hp by done; by left].
    rewrite lookup_insert_eq in Hp. apply (inj Some) in Hp as <-. right. split; [done|]. simpl. rewrite R2, R7. split_and!; [done|by apply remove_gone|].
    intros s' Hs'. destruct (current e l); [|done]. unfold sub_of in Hs'. destruct (entries l !! e) as [x|] eqn:Ex; [|done].
    by destruct (rg_stored _ Hl e x s' Ex Hs').
  - rewrite R9. by left.
  - rewrite R5. intros u e' Hu. destruct (rg_leavers _ Hl u e' Hu) as [? Hn]. auto.
Qed.

Lemma settle_tail_frame e err l :
  (forall e', place <$> (entries (settle e err l) !! e') = place <$> (entries l !! e')) /\ subs (settle e err l) = subs l
  /\ cb (settle e err l) = cb l /\ callers (settle e err l) = callers l /\ leavers (settle e err l) = leavers l
  /\ registry (settle e err l) = registry l /\ owner (settle e err l) = owner l /\ sent (settle e err l) = sent l
  /\ discards (settle e err l) = discards l /\ regMu (settle e err l) = regMu l
  /\ transportClosed (settle e err l) = transportClosed l.
Proof. split; [apply upd_place, settled_place|]. destruct (upd_frame e (settled_entry err) l) as (?&?&?&?&?&?&?&?&?&?&_). done. Qed.

Lemma settleExpired_registered t e err s r l :
  registered l -> callers l !! t = Some (SSettle e err s) ->
  registered (goto t (SReturned r) (discarding s (settle e (Some (wrapf [err])) l))).
Proof.
  intros Hl Ht. set (l1 := settle e (Some (wrapf [err])) l).
  destruct (settle_tail_frame e (Some (wrapf [err])) l) as (S1&S2&S3&S4&S5&S6&S7&S8&S9&S10&S11). fold l1 in S1,S2,S3,S4,S5,S6,S7,S8,S9,S10,S11.
  destruct (discarding_frame s l1) as (D1&D2&D3&D4&D5&D6&D7&D8&D9&D10&D11).
  pose proof (rg_callers _ Hl t _ Ht) as (Hse & Hnc & Hown). apply (registered_same l); simpl; try done; try congruence.
  - intros e' x s' _ _ [Hw|[Hw|[(t' & err' & Hw)|Hw]]]; unfold withdrawing; simpl; rewrite ?D11, ?D5, ?D4, ?D3, ?S9, ?S5, ?S4, ?S3; auto.
    + left. apply elem_of_app. by left.
    + destruct (decide (t = t')) as [<-|Hne].
      * rewrite Ht in Hw. simplify_eq. left. apply elem_of_app. right. by left.
      * right; right; left. exists t', err'. by rewrite lookup_insert_ne.
  - rewrite D4, S4. intros t' p Hp. destruct (decide (t = t')) as [<-|Hne]; [rewrite lookup_insert_eq in Hp; simplify_eq; by right|].
    rewrite lookup_insert_ne in Hp by done. by left.
  - rewrite D11, S9. intros s' [?|Hin]%elem_of_app; [by left|]. right. destruct s as [s|]; [|by apply elem_of_nil in Hin].
    apply list_elem_of_singleton in Hin as ->. exists e. auto.
Qed.

(** The steps of [Unsubscribe]. *)
Lemma leave_registered u v l :
  registered l -> (leavers l !! u = None \/ exists ch, leavers l !! u = Some (URemove ch)) ->
  (v = UReturned \/ exists ch, v = URemove ch) -> registered (set_leavers (<[u := v]> (leavers l)) l).
Proof.
  intros Hl Hu Hv. apply (registered_same l); simpl; try done.
  - intros e x s _ _ [Hw|[(w & Hw)|[Hw|Hw]]]; unfold withdrawing; simpl; auto. right; left. exists w.
    rewrite lookup_insert_ne; [done|]. intros ->. naive_solver.
  - by left.
  - by left.
  - intros w e. destruct (decide (u = w)) as [<-|Hne]; [rewrite lookup_insert_eq|by rewrite lookup_insert_ne]. naive_solver.
Qed.

Lemma leaveRemove_registered u ch e l :
  protocol l -> registered l -> leavers l !! u = Some (URemove ch) -> subs l !! ch = Some e ->
  registered (set_leavers (<[u := USettle e]> (leavers l)) (set_subs (delete ch (subs l)) l)).
Proof.
  intros Hp Hl Hu He. set (l' := set_leavers _ _). destruct (pr_subs _ Hp ch e He) as (x & Hx & Hch).
  assert (Hcu : forall e', is_current l' e' -> is_current l e') by (intros e'; apply place_current; [by apply place_same|apply delete_subseteq]).
  assert (Hne : ~ is_current l' e).
  { unfold is_current, l'. simpl. unfold chan. simpl. by rewrite Hx, Hch, lookup_delete_eq. }
  apply (registered_frame l); simpl; try done.
  - intros e' y s Hy Hs Hc. destruct (decide (e' = e)) as [->|Hn].
    + right; left. right; left. exists u. left. unfold l'. simpl. by rewrite lookup_insert_eq.
    + left. unfold is_current, l' in *. simpl. change (chan e' _) with (chan e' l). rewrite lookup_delete_ne; [done|].
      intros ->. congruence.
  - intros e' y s _ _ [Hw|[(w & Hw)|[Hw|Hw]]]; unfold withdrawing; simpl; auto. right; left. exists w.
    rewrite lookup_insert_ne; [done|]. intros ->. naive_solver.
  - by left.
  - by left.
  - intros w e' Hw. destruct (decide (u = w)) as [<-|Hn].
    + rewrite lookup_insert_eq in Hw. destruct Hw; simplify_eq. eauto.
    + rewrite lookup_insert_ne in Hw by done. destruct (rg_leavers _ Hl w e' Hw) as [? ?]. auto.
Qed.

Lemma leaveSettle_registered u e l :
  registered l -> leavers l !! u = Some (USettle e) ->
  registered (set_leavers (<[u := UDiscard e]> (leavers l)) (settle e (Some ErrSubscriptionWithdrawn) l)).
Proof.
  intros Hl Hu. destruct (settle_tail_frame e (Some ErrSubscriptionWithdrawn) l) as (S1&S2&S3&S4&S5&S6&S7&S8&S9&S10&S11).
  apply (registered_same l); simpl; try done; try congruence.
  - intros e' y s _ _ [Hw|[(w & Hw)|[Hw|Hw]]]; unfold withdrawing; simpl; rewrite ?S9, ?S4, ?S3; auto. right; left.
    destruct (decide (u = w)) as [<-|Hn]; [|exists w; by rewrite lookup_insert_ne]. exists u. rewrite lookup_insert_eq.
    right. destruct Hw; congruence.
  - rewrite S4. by left.
  - rewrite S9. by left.
  - intros w e' Hw. destruct (decide (u = w)) as [<-|Hn]; [|by rewrite lookup_insert_ne in Hw].
    rewrite lookup_insert_eq in Hw. left. destruct Hw; congruence.
Qed.

Lemma leaveDiscard_registered u e l :
  registered l -> leavers l !! u = Some (UDiscard e) ->
  registered (set_leavers (<[u := UReturned]> (leavers l)) (discarding (sub_of e l) l)).
Proof.
  intros Hl Hu. destruct (discarding_frame (sub_of e l) l) as (D1&D2&D3&D4&D5&D6&D7&D8&D9&D10&D11).
  destruct (rg_leavers _ Hl u e) as [_ Hnc]; [by right|].
  apply (registered_same l); simpl; try done; try congruence.
  - intros e' y s Hy Hs [Hw|[(w & Hw)|[Hw|Hw]]]; unfold withdrawing; simpl; rewrite ?D11, ?D4, ?D3; auto.
    + left. apply elem_of_app. by left.
    + destruct (decide (u = w)) as [<-|Hn]; [|right; left; exists w; by rewrite lookup_insert_ne].
      left. apply elem_of_app. right. assert (e' = e) as -> by (destruct Hw; congruence). unfold sub_of. rewrite Hy, Hs. by left.
  - rewrite D4. by left.
  - rewrite D11. intros s [?|Hin]%elem_of_app; [by left|]. right. unfold sub_of in Hin.
    destruct (entries l !! e) as [x|] eqn:Ex; [|by apply elem_of_nil in Hin]. destruct (s_sub x) as [s'|] eqn:Es; [|by apply elem_of_nil in Hin].
    apply list_elem_of_singleton in Hin as ->. exists e. split; [|done]. by destruct (rg_stored _ Hl e x s' Ex Es).
  - intros w e' Hw. destruct (decide (u = w)) as [<-|Hn]; [|by rewrite lookup_insert_ne in Hw].
    rewrite lookup_insert_eq in Hw. by destruct Hw.
Qed.

(** A callback that withdraws its entry and asks for its discard. *)
Lemma drop_registered e s c l :
  registered l -> owner l !! s = Some e -> cb l = CbIdle -> registered (discarding (Some s) (set_cb c (remove e l))).
Proof.
  intros Hl Ho Hcb. destruct (remove_frame e l) as (R1&R2&R3&R4&R5&R6&R7&R8&R9&R10&R11).
  set (l' := discarding (Some s) (set_cb c (remove e l))).
  assert (Hcu : forall e', is_current l' e' -> is_current l e') by (intros e'; apply place_current; [by apply place_same|done]).
  apply (registered_frame l); unfold l'; simpl; try done; rewrite ?R11; try done.
  - by apply place_same.
  - intros e' x s' Hx Hs Hc. destruct (remove_current e e' l Hc) as [?| ->]; [by left|]. right; left. left. simpl.
    destruct (rg_stored _ Hl e x s' Hx Hs) as [Ho' _]. rewrite (rg_inj _ Hl s' s e Ho' Ho). apply elem_of_app. right. by left.
  - intros e' x s' _ _ [Hw|[Hw|[Hw|(es & Hw & _)]]]; unfold withdrawing; simpl; rewrite ?R9, ?R5, ?R4; auto; [|congruence].
    left. apply elem_of_app. by left.
  - rewrite R4. by left.
  - rewrite R9. intros s' [?|Hin]%elem_of_app; [by left|]. apply list_elem_of_singleton in Hin as ->. right. exists e.
    split; [done|]. apply remove_gone.
  - rewrite R5. intros u e' Hu. destruct (rg_leavers _ Hl u e' Hu) as [? ?]. auto.
Qed.

(** A change of the callback that does not end the sweep's. *)
Lemma recb_registered l l' :
  registered l -> (forall e, place <$> (entries l' !! e) = place <$> (entries l !! e)) -> subs l' = subs l -> owner l' = owner l ->
  registry l' = registry l -> sent l' = sent l -> regMu l' = regMu l -> transportClosed l' = transportClosed l ->
  callers l' = callers l -> leavers l' = leavers l -> discards l' = discards l ->
  (forall e es, cb l = CbEndAll es -> e ∈ es -> exists es', cb l' = CbEndAll es' /\ e ∈ es') -> registered l'.
Proof.
  intros Hl Hp Hs Ho Hr Hse Hm Htc Hca Hle Hdi Hcb. apply (registered_same l); try done.
  - by rewrite Htc.
  - intros e x s _ _ [Hw|[Hw|[Hw|(es & Hw & Hin)]]]; unfold withdrawing; rewrite ?Hdi, ?Hle, ?Hca; auto.
    right; right; right. by eapply Hcb.
  - rewrite Hca. by left.
  - rewrite Hdi. by left.
  - by rewrite Hle.
Qed.

Lemma sweep_registered o l : protocol l -> registered l -> cb l = CbSweep o -> registered (sweep o l).
Proof.
  intros Hp Hl Hcb. apply (registered_frame l); simpl; try done.
  - intros e x s _ _ Hc. right; left. right; right; right. eexists. split; [done|]. by apply subs_current.
  - intros e x s _ _ [Hw|[Hw|[Hw|(es & Hw & Hin)]]]; unfold withdrawing; simpl; auto. congruence.
  - by left.
  - by left.
  - intros u e Hu. destruct (rg_leavers _ Hl u e Hu) as [? _]. split; [done|]. unfold is_current. simpl. by rewrite lookup_empty.
Qed.

Lemma tell_place e ev l e' : place <$> (entries (tell e ev l) !! e') = place <$> (entries l !! e').
Proof. by apply upd_place. Qed.

Lemma endOne_registered e es l :
  protocol l -> registered l -> cb l = CbEndAll (e :: es) -> registered (set_cb (CbEndAll es) (endOne e l)).
Proof.
  intros Hp Hl Hcb. pose proof (pr_cb _ Hp) as Hes. rewrite Hcb in Hes. destruct Hes as [_ Hes].
  destruct (Hes e) as (x & Hx & _ & Hnc); [by left|].
  destruct (discarding_frame (sub_of e l) l) as (D1&D2&D3&D4&D5&D6&D7&D8&D9&D10&D11).
  assert (Hl1 : registered (set_cb (CbEndAll es) (discarding (sub_of e l) l))).
  { apply (registered_same l); simpl; try done; try congruence.
    - intros e' y s Hy Hs [Hw|[Hw|[Hw|(es' & Hw & Hin)]]]; unfold withdrawing; simpl; rewrite ?D11, ?D5, ?D4; auto.
      + left. apply elem_of_app. by left.
      + rewrite Hcb in Hw. simplify_eq. apply elem_of_cons in Hin as [->|Hin].
        * left. apply elem_of_app. right. unfold sub_of. rewrite Hy, Hs. by left.
        * right; right; right. by exists es.
    - rewrite D4. by left.
    - rewrite D11. intros s [?|Hin]%elem_of_app; [by left|]. right. unfold sub_of in Hin. rewrite Hx in Hin.
      destruct (s_sub x) as [s'|] eqn:Es; [|by apply elem_of_nil in Hin]. apply list_elem_of_singleton in Hin as ->. exists e.
      split; [|done]. by destruct (rg_stored _ Hl e x s' Hx Es). }
  unfold endOne. set (l1 := discarding (sub_of e l) l) in *. destruct (live e l).
  - destruct (upd_frame e (fun x => MkSub (s_channel x) (s_live x) (s_settled x) (s_sub x) (told x ++ [Ended])%list) l1) as (?&?&?&?&?&?&?&?&?&?&_).
    apply (recb_registered (set_cb (CbEndAll es) l1)); simpl; try done; [|by eauto]. intros e'. apply tell_place.
  - destruct (settle_tail_frame e (Some (wrapf [ErrLinkReconnecting])) l1) as (?&?&?&?&?&?&?&?&?&?&?).
    apply (recb_registered (set_cb (CbEndAll es) l1)); simpl; try done. by eauto.
Qed.

Lemma tell_registered c e ev l :
  registered l -> (forall es, cb l <> CbEndAll es) -> registered (set_cb c (tell e ev l)).
Proof.
  intros Hl Hcb.
  destruct (upd_frame e (fun x => MkSub (s_channel x) (s_live x) (s_settled x) (s_sub x) (told x ++ [ev])%list) l) as (?&?&?&?&?&?&?&?&?&?&_).
  apply (recb_registered l); simpl; try done; [intros e'; apply tell_place|]. intros e' es Hes. by destruct (Hcb es).
Qed.

Lemma continue_registered l : protocol l -> registered l -> registered (continue l).
Proof.
  intros Hp Hl. unfold continue. destruct (cb l) eqn:Ec; try done.
  - by apply tell_registered; rewrite ?Ec.
  - destruct (settle_tail_frame e err l) as (?&?&?&?&?&?&?&?&?&?&?). apply (recb_registered l); simpl; try done. by rewrite Ec.
  - by apply tell_registered; rewrite ?Ec.
  - by apply tell_registered; rewrite ?Ec.
  - by apply sweep_registered.
  - destruct entries0 as [|e es]; [|by apply endOne_registered]. apply (recb_registered l); simpl; try done. rewrite Ec.
    intros e es ? Hin. simplify_eq. by apply elem_of_nil in Hin.
  - apply (recb_registered l); simpl; try done. by rewrite Ec.
  - destruct sinks; apply (recb_registered l); simpl; try done; by rewrite Ec.
Qed.

Lemma goto_only l t p p' :
  registered l -> callers l !! t = Some p -> (forall e err s, p <> SSettle e err (Some s)) -> holding p' = None -> caller_ok l t p' ->
  registered (goto t p' l).
Proof. intros Hl Ht Hn Hh Hok. by apply (goto_registered l _ t p p'). Qed.

(** A new entry, on a channel that had none. *)
Lemma reserve_registered t e ch l :
  protocol l -> registered l -> callers l !! t = Some (SReserve ch) -> entries l !! e = None -> registered (reserve t e ch l).
Proof.
  intros Hp Hl Ht He. unfold reserve. destruct (terminal l) as [err|].
  { by apply (goto_only l t (SReserve ch)). }
  destruct (connecting l); [by apply (goto_only l t (SReserve ch))|]. destruct (subs l !! ch) as [e0|] eqn:Es.
  { apply (goto_only l t (SReserve ch)); try done. simpl. destruct (pr_subs _ Hp _ _ Es) as (x & ? & _). by eexists. }
  set (l' := goto _ _ _). pose proof Hl as [H1 H2 H3 H4 H5 H6 H7 H8 H9].
  assert (Hne : forall e' x, entries l !! e' = Some x -> e <> e') by (intros e' x Hx ->; congruence).
  assert (Hlook : forall e' x, entries l !! e' = Some x -> entries l' !! e' = Some x).
  { intros e' x Hx. unfold l'. simpl. rewrite lookup_insert_ne; [done|]. by eapply Hne. }
  assert (Hinv : forall e' x, e' <> e -> entries l' !! e' = Some x -> entries l !! e' = Some x).
  { intros e' x Hn Hx. unfold l' in Hx. simpl in Hx. by rewrite lookup_insert_ne in Hx. }
  assert (Hch : forall e', e' <> e -> chan e' l' = chan e' l).
  { intros e' Hn. unfold chan, l'. simpl. by rewrite lookup_insert_ne. }
  assert (Hcu : forall e' x, entries l !! e' = Some x -> is_current l' e' <-> is_current l e').
  { intros e' x Hx. unfold is_current. rewrite Hch by (by eapply not_eq_sym, Hne). unfold l'. simpl.
    destruct (decide (ch = chan e' l)) as [<-|Hn]; [|by rewrite lookup_insert_ne]. rewrite lookup_insert_eq, Es.
    split; [|done]. intros [= ->]. congruence. }
  assert (Hwd : forall e' x s, entries l !! e' = Some x -> withdrawing l e' s -> withdrawing l' e' s).
  { intros e' x s Hx [Hw|[Hw|[(t' & err & Hw)|Hw]]]; unfold withdrawing, l'; simpl; auto. right; right; left. exists t', err.
    rewrite lookup_insert_ne; [done|]. congruence. }
  assert (Hown : forall s e', owner l !! s = Some e' -> e <> e') by (intros s e' Ho; destruct (H1 s e' Ho) as [x Hx]; by eapply Hne).
  split; simpl.
  - intros s e' Ho. destruct (H1 s e' Ho) as [x Hx]. exists x. by apply Hlook.
  - done.
  - intros ch' s Hr. destruct (H3 ch' s Hr) as (e' & Ho & Hc). exists e'. split; [done|]. rewrite Hch; [done|]. by eapply not_eq_sym, Hown.
  - intros e' x s Hx Hs. destruct (decide (e = e')) as [<-|Hn].
    + rewrite lookup_insert_eq in Hx. by simplify_eq.
    + rewrite lookup_insert_ne in Hx by done. destruct (H4 e' x s Hx Hs) as [? Hr]. split; [done|]. intros Hc. by eapply Hr, Hcu.
  - intros t' p Hp'. destruct (decide (t = t')) as [<-|Hn].
    + rewrite lookup_insert_eq in Hp'. apply (inj Some) in Hp' as <-. simpl. rewrite lookup_insert_eq. eexists. split_and!; [done|done|].
      intros s Ho. by destruct (Hown s e Ho).
    + rewrite lookup_insert_ne in Hp' by done. specialize (H5 t' p Hp'). clear H9 H8 H7 H6.
      destruct p; simpl in *; try done; try (destruct H5 as [x Hx]; exists x; by apply Hlook).
      * destruct H5 as (x & Hx & ?). exists x. by rewrite lookup_insert_ne by (by eapply Hne).
      * destruct H5 as (x & Hx & ? & ? & ? & Hr). exists x. rewrite lookup_insert_ne by (by eapply Hne). split_and!; try done.
        intros Hc. by eapply Hr, Hcu.
      * destruct H5 as (x & Hx & ?). exists x. by rewrite lookup_insert_ne by (by eapply Hne).
      * destruct H5 as (x & Hx & ?). exists x. by rewrite lookup_insert_ne by (by eapply Hne).
      * destruct H5 as (x & Hx & ? & ? & ? & ? & Hor). exists x. rewrite lookup_insert_ne by (by eapply Hne). split_and!; try done.
        destruct Hor; [left; by eapply Hcu|right; by eapply Hwd].
      * destruct H5 as (x & Hx & ?). exists x. by rewrite lookup_insert_ne by (by eapply Hne).
      * destruct H5 as ([x Hx] & Hnc & ?). split_and!; [exists x; by apply Hlook| |done]. intros Hc. by eapply Hnc, Hcu.
  - intros t1 t2 p1 p2 e' Hp1 Hp2 Hh1 Hh2.
    assert (Hold : forall t' p, callers l !! t' = Some p -> holding p = Some e' -> e' <> e).
    { intros t' p Hp' Hh ->. specialize (H5 t' p Hp'). destruct p; simpl in *; simplify_eq; destruct H5 as (x & Hx & _); congruence. }
    destruct (decide (t = t1)) as [<-|Hn1], (decide (t = t2)) as [<-|Hn2]; [done|..].
    + rewrite lookup_insert_eq in Hp1. rewrite lookup_insert_ne in Hp2 by done. simplify_eq/=. by destruct (Hold t2 p2).
    + rewrite lookup_insert_eq in Hp2. rewrite lookup_insert_ne in Hp1 by done. simplify_eq/=. by destruct (Hold t1 p1).
    + rewrite lookup_insert_ne in Hp1, Hp2 by done. by eapply H6.
  - intros s Hin. destruct (H7 s Hin) as (e' & Ho & Hn). exists e'. split; [done|]. destruct (H1 s e' Ho) as [x Hx]. intros Hc. by eapply Hn, Hcu.
  - intros u e' Hu. destruct (H8 u e' Hu) as [[x Hx] Hn]. split; [exists x; by apply Hlook|]. intros Hc. by eapply Hn, Hcu.
  - intros s Hin. destruct (H9 s Hin) as (e' & x & Ho & Hx & ? & ? & Hor). exists e', x. split_and!; try done; [by apply Hlook|].
    destruct Hor as [?|[?|?]]; [left; by eapply Hcu|right; left; by eapply Hwd|by right; right].
Qed.

(** A change of the registry of one channel, nobody holding [regMu]: what was
    sent there is given up, and what is current there has not been stored. *)
Record rewired (ch : string) (l l' : link) : Prop := {
  rw_regMu : regMu l = None;
  rw_registry : forall ch', ch' <> ch -> registry l' !! ch' = registry l !! ch';
  rw_new : forall s, registry l' !! ch = Some s -> exists e, owner l' !! s = Some e /\ chan e l = ch;
  rw_current : forall e x s, entries l !! e = Some x -> s_channel x = ch -> is_current l e -> s_sub x <> Some s;
  rw_sent : forall s, s ∈ sent l' <-> s ∈ sent l /\ registry l !! ch <> Some s;
  rw_owner : forall s e, owner l !! s = Some e -> owner l' !! s = Some e;
  rw_back : forall s e, owner l' !! s = Some e -> owner l !! s = Some e \/
    (is_Some (entries l !! e) /\ forall t p, callers l' !! t = Some p -> p <> SNew e);
  rw_inj : forall s s' e, owner l' !! s = Some e -> owner l' !! s' = Some e -> s = s';
  rw_settles : forall t e err s, callers l !! t = Some (SSettle e err (Some s)) -> callers l' !! t = Some (SSettle e err (Some s));
  rw_same : entries l' = entries l /\ subs l' = subs l /\ regMu l' = regMu l /\ transportClosed l' = transportClosed l
    /\ leavers l' = leavers l /\ cb l' = cb l /\ discards l' = discards l
}.

(** A call that did not move. *)
Lemma rewired_caller ch l l' t p :
  registered l -> rewired ch l l' -> callers l !! t = Some p -> callers l' !! t = Some p ->
  (forall e s, p = SInstall e s -> ~ (is_current l e /\ chan e l = ch)) -> caller_ok l' t p.
Proof.
  intros Hl [W1 W2 W3 W4 W5 W6 W7 W8 W9 (Een & Esu & Emu & Etc & Ele & Ecb & Edi)] Hp Hp' Hins. pose proof (rg_callers _ Hl t p Hp) as Hok.
  assert (Hcu : forall e, is_current l' e <-> is_current l e) by (intros e; unfold is_current, chan; by rewrite Een, Esu).
  assert (Hns : forall s, s ∉ sent l -> s ∉ sent l') by (intros s Hn' Hin; apply Hn'; by apply W5 in Hin as [? _]).
  destruct p; simpl in *; rewrite ?Een, ?Emu; try done.
  - destruct Hok as (x & Hx & Hs & Hno). exists x. split_and!; try done. intros s Ho. destruct (W7 s e Ho) as [?|[_ Hh]]; [by destruct (Hno s)|].
    by destruct (Hh t _ Hp').
  - destruct Hok as (x & Hx & Hs & Ho & Hns' & Hr). exists x. split_and!; try done; [auto..|]. intros Hc%Hcu. rewrite W2; [auto|].
    intros Heq. eapply Hins; [done|]. split; [done|]. unfold chan. by rewrite Hx.
  - destruct Hok as (x & Hx & Hs & ?). exists x. auto.
  - destruct Hok as (x & Hx & Hs & ? & ?). exists x. auto.
  - destruct Hok as (x & Hx & Hs & ? & Hm & _). congruence.
  - destruct Hok as (x & Hx & Hs). exists x. split; [done|]. auto.
  - destruct Hok as (? & Hnc & ?). split_and!; [done| |auto]. by rewrite Hcu.
Qed.

Lemma rewired_registered ch l l' :
  registered l -> rewired ch l l' -> (forall t p, callers l' !! t = Some p -> caller_ok l' t p) ->
  (forall t t' p p' e, callers l' !! t = Some p -> callers l' !! t' = Some p' -> holding p = Some e -> holding p' = Some e -> t = t') ->
  registered l'.
Proof.
  intros Hl [W1 W2 W3 W4 W5 W6 W7 W8 W9 (Een & Esu & Emu & Etc & Ele & Ecb & Edi)] Hok Hun. pose proof Hl as [H1 H2 H3 H4 H5 H6 H7 H8 H9].
  assert (Hcu : forall e, is_current l' e <-> is_current l e) by (intros e; unfold is_current, chan; by rewrite Een, Esu).
  assert (Hch : forall e, chan e l' = chan e l) by (intros e; unfold chan; by rewrite Een).
  assert (Hwd : forall e s, withdrawing l e s -> withdrawing l' e s).
  { intros e s [Hw|[Hw|[(t' & err & Hw)|Hw]]]; unfold withdrawing; rewrite ?Edi, ?Ele, ?Ecb; auto. right; right; left. exists t', err. by apply W9. }
  split; rewrite ?Een; try done.
  - intros s e Ho. destruct (W7 s e Ho) as [?|[? _]]; eauto.
  - intros ch' s Hr. destruct (decide (ch' = ch)) as [->|Hn].
    + destruct (W3 s Hr) as (e & ? & ?). exists e. by rewrite Hch.
    + rewrite W2 in Hr by done. destruct (H3 ch' s Hr) as (e & ? & ?). exists e. rewrite Hch. auto.
  - intros e x s Hx Hs. destruct (H4 e x s Hx Hs) as [? Hr]. split; [auto|]. intros Hc%Hcu. rewrite W2; [auto|]. intros Heq.
    by destruct (W4 e x s Hx Heq Hc).
  - rewrite Edi. intros s Hin. destruct (H7 s Hin) as (e & ? & ?). exists e. rewrite Hcu. auto.
  - rewrite Ele. intros u e Hu. rewrite Hcu. by apply (H8 u).
  - intros s [Hin Hnr]%W5. destruct (H9 s Hin) as (e & x & Ho & Hx & Hs & Hr & Hor). exists e, x. split_and!; auto.
    + rewrite W2; [done|]. congruence.
    + rewrite Hcu, Etc. destruct Hor as [?|[?|?]]; auto.
Qed.

(** A discard that has nothing to withdraw. *)
Lemma undiscard_registered k s l :
  registered l -> regMu l = None -> discards l !! k = Some s -> (s ∉ sent l \/ transportClosed l = true) ->
  registered (set_discards (delete k (discards l)) l).
Proof.
  intros Hl Hmu Hk Hdone. pose proof Hl as [H1 H2 H3 H4 H5 H6 H7 H8 H9]. set (l' := set_discards _ l).
  assert (Hwd : forall e s', s' <> s -> withdrawing l e s' -> withdrawing l' e s').
  { intros e s' Hn [Hw|[Hw|[Hw|Hw]]]; unfold withdrawing, l'; simpl; auto. left.
    apply list_elem_of_lookup in Hw as [i Hi]. apply list_elem_of_lookup. destruct (decide (i < k)%nat).
    - exists i. by rewrite list_lookup_delete_lt.
    - exists (pred i). assert (i <> k) by congruence. rewrite list_lookup_delete_ge by lia. by replace (S (pred i)) with i by lia. }
  split; simpl; try done.
  - intros t p Hp. specialize (H5 t p Hp). destruct p; try done. destruct H5 as (x & ? & ? & ? & Hm & _). congruence.
  - intros s' Hin. apply H7. apply list_elem_of_lookup in Hin as [i Hi]. apply list_elem_of_lookup. destruct (decide (i < k)%nat).
    + exists i. by rewrite list_lookup_delete_lt in Hi.
    + exists (S i). by rewrite list_lookup_delete_ge in Hi by lia.
  - intros s' Hin. destruct (H9 s' Hin) as (e & x & Ho & Hx & Hs & Hr & Hor). exists e, x. split_and!; try done.
    destruct Hor as [?|[Hw|?]]; [by left| |by right; right]. destruct (decide (s' = s)) as [->|Hn]; [|by right; left; apply Hwd].
    destruct Hdone as [?|?]; [done|by right; right].
Qed.

(** A discard gives up the registration of its own subscription only. *)
Lemma discard_registered k s l :
  registered l -> regMu l = None -> discards l !! k = Some s -> registered (discard s (set_discards (delete k (discards l)) l)).
Proof.
  intros Hl Hmu Hk. unfold discard. cbn [transportClosed set_discards owner registry].
  destruct (transportClosed l) eqn:Etc; [apply (undiscard_registered k s); auto|].
  destruct (rg_discards _ Hl s) as (e & Ho & Hnc); [by eapply list_elem_of_lookup_2|]. rewrite Ho.
  change (chan e (set_discards _ l)) with (chan e l). case_bool_decide as Hr.
  - set (l1 := set_sent (sent l ∖ {[s]}) (set_registry (delete (chan e l) (registry l)) l)).
    assert (Hw : rewired (chan e l) l l1).
    { split; unfold l1; simpl; try done.
      - intros ch' Hn. by rewrite lookup_delete_ne.
      - intros s' Hs'. by rewrite lookup_delete_eq in Hs'.
      - intros e' x s' Hx Hch Hc Hs. destruct (rg_stored _ Hl e' x s' Hx Hs) as [Ho' Hr']. specialize (Hr' Hc). rewrite Hch, Hr in Hr'.
        by simplify_eq.
      - intros s'. rewrite elem_of_difference, elem_of_singleton, Hr. naive_solver.
      - by left.
      - apply Hl. }
    apply (undiscard_registered k s l1); [|done|done|left; unfold l1; simpl; set_solver].
    apply (rewired_registered (chan e l) l); [done|done| |apply (rg_unique _ Hl)].
    intros t p Hp. apply (rewired_caller (chan e l) l); [done|done|done|done|]. intros e' s' -> [Hc Hch].
    pose proof (rg_callers _ Hl t _ Hp) as (x & Hx & _ & Ho' & _ & Hr'). specialize (Hr' Hc). unfold chan in Hch at 1. rewrite Hx in Hch.
    rewrite Hch, Hr in Hr'. by simplify_eq.
  - apply (undiscard_registered k s); try done. left. intros Hin.
    destruct (rg_sent _ Hl s Hin) as (e' & x & Ho' & Hx & _ & Hr' & _). simplify_eq. apply Hr. unfold chan. by rewrite Hx.
Qed.

(** A call that goes on, keeping or letting go of its entry and of [regMu]. *)
Lemma move_registered l l' t p p' :
  registered l -> callers l !! t = Some p -> (forall e err s, p <> SSettle e err (Some s)) ->
  (holding p' = None \/ holding p' = holding p) -> (regMu l = None \/ regMu l = Some t) -> caller_ok l' t p' ->
  entries l' = entries l -> subs l' = subs l -> owner l' = owner l -> registry l' = registry l -> sent l' = sent l ->
  transportClosed l' = transportClosed l -> callers l' = <[t := p']> (callers l) -> leavers l' = leavers l -> cb l' = cb l ->
  (forall s, s ∈ discards l -> s ∈ discards l') ->
  (forall s, s ∈ discards l' -> s ∈ discards l \/ exists e, owner l !! s = Some e /\ ~ is_current l e) -> registered l'.
Proof.
  intros Hl Ht Hns Hh Hmu Hok Een Esu Eow Ere Ese Etc Eca Ele Ecb Hd1 Hd2. pose proof Hl as [H1 H2 H3 H4 H5 H6 H7 H8 H9].
  assert (Hcu : forall e, is_current l' e <-> is_current l e) by (intros e; unfold is_current, chan; by rewrite Een, Esu).
  assert (Hch : forall e, chan e l' = chan e l) by (intros e; unfold chan; by rewrite Een).
  assert (Hwd : forall e s, withdrawing l e s -> withdrawing l' e s).
  { intros e s [Hw|[Hw|[(t' & err & Hw)|Hw]]]; unfold withdrawing; rewrite ?Ele, ?Ecb; auto. right; right; left. exists t', err.
    rewrite Eca, lookup_insert_ne; [done|]. intros ->. rewrite Ht in Hw. simplify_eq. by destruct (Hns e err s). }
  split; rewrite ?Een, ?Eow, ?Ere, ?Ese; try done.
  - intros ch s Hr. destruct (H3 ch s Hr) as (e & ? & ?). exists e. by rewrite Hch.
  - intros e x s Hx Hs. rewrite Hcu. by apply H4.
  - rewrite Eca. intros t' q Hq. destruct (decide (t = t')) as [<-|Hn]; [rewrite lookup_insert_eq in Hq; by simplify_eq|].
    rewrite lookup_insert_ne in Hq by done. specialize (H5 t' q Hq).
    destruct q; simpl in *; rewrite ?Een, ?Eow, ?Ere, ?Ese; try done.
    + destruct H5 as (x & Hx & ? & ? & ? & Hr). exists x. split_and!; try done. by rewrite Hcu.
    + destruct H5 as (x & ? & ? & ? & Hm). destruct Hmu; congruence.
    + destruct H5 as (x & ? & ? & ? & Hm & _). destruct Hmu; congruence.
    + by rewrite Hcu.
  - rewrite Eca. intros t1 t2 p1 p2 e Hp1 Hp2 Hh1 Hh2. destruct (decide (t = t1)) as [<-|Hn1], (decide (t = t2)) as [<-|Hn2]; [done|..];
      rewrite ?lookup_insert_eq, ?lookup_insert_ne in Hp1 by done; rewrite ?lookup_insert_eq, ?lookup_insert_ne in Hp2 by done; simplify_eq.
    + destruct Hh as [?|Heq]; [congruence|]. apply (H6 t t2 p p2 e); congruence.
    + destruct Hh as [?|Heq]; [congruence|]. apply (H6 t1 t p1 p e); congruence.
    + by eapply H6.
  - intros s Hin. destruct (Hd2 s Hin) as [Hold|(e & ? & ?)]; [destruct (H7 s Hold) as (e & ? & ?)|]; exists e; by rewrite Hcu.
  - rewrite Ele. intros u e Hu. rewrite Hcu. by apply (H8 u).
  - intros s Hin. destruct (H9 s Hin) as (e & x & ? & ? & ? & ? & Hor). exists e, x. split_and!; try done. rewrite Hcu, Etc.
    destruct Hor as [?|[?|?]]; auto.
Qed.

Lemma regFree_none l : regFree l = true -> regMu l = None.
Proof. unfold regFree. by destruct (regMu l). Qed.

(** A registration, of an entry that is its channel's. *)
Lemma newSubscription_registered t e s err l :
  registered l -> callers l !! t = Some (SNew e) -> regMu l = None -> owner l !! s = None -> is_current l e ->
  registered (newSubscription t e s err l).
Proof.
  intros Hl Ht Hmu Hfresh Hcur. pose proof (rg_callers _ Hl t _ Ht) as (x & Hx & Hnone & Hno). unfold newSubscription.
  destruct (transportClosed l) eqn:Etc.
  { apply (move_registered l _ t (SNew e) (SWithdraw e (wrapf [ErrLinkClosed]))); try done; auto. simpl. exists x. split; [done|]. congruence. }
  set (ch := chan e l). assert (Hcur' : subs l !! ch = Some e) by exact Hcur.
  set (l0 := match registry l !! ch with
             | Some old => set_sent (sent l ∖ {[old]}) (set_registry (delete ch (registry l)) l)
             | None => l
             end).
  assert (E0 : entries l0 = entries l /\ subs l0 = subs l /\ owner l0 = owner l /\ regMu l0 = regMu l /\ transportClosed l0 = transportClosed l
    /\ leavers l0 = leavers l /\ cb l0 = cb l /\ discards l0 = discards l /\ callers l0 = callers l) by (unfold l0; by case_match).
  destruct E0 as (Een & Esu & Eow & Emu & Ect & Ele & Ecb & Edi & Eca).
  assert (Hreg0 : forall ch', registry l0 !! ch' = if bool_decide (ch' = ch) then None else registry l !! ch').
  { intros ch'. unfold l0. destruct (registry l !! ch) as [old|] eqn:Er; simpl; case_bool_decide as Hc; subst.
    - by rewrite lookup_delete_eq.
    - by rewrite lookup_delete_ne.
    - done.
    - done. }
  assert (Hsent0 : forall s', s' ∈ sent l0 <-> s' ∈ sent l /\ registry l !! ch <> Some s').
  { intros s'. unfold l0. destruct (registry l !! ch) as [old|]; simpl; [set_solver|naive_solver]. }
  assert (Hcurr : forall e' y s', entries l !! e' = Some y -> s_channel y = ch -> is_current l e' -> s_sub y <> Some s').
  { intros e' y s' Hy Hch Hc. assert (e' = e) as -> by (unfold is_current, chan in Hc; rewrite Hy, Hch in Hc; congruence).
    congruence. }
  assert (Hins : forall t' e' s', t' <> t -> callers l !! t' = Some (SInstall e' s') -> ~ (is_current l e' /\ chan e' l = ch)).
  { intros t' e' s' Hn Hc [Hc' Hch]. assert (e' = e) as -> by (unfold is_current in Hc'; rewrite Hch in Hc'; congruence).
    destruct Hn. by apply (rg_unique _ Hl t' t _ _ e Hc Ht). }
  assert (Hun : forall p', holding p' = Some e -> forall t1 t2 p1 p2 e', <[t := p']> (callers l) !! t1 = Some p1 ->
    <[t := p']> (callers l) !! t2 = Some p2 -> holding p1 = Some e' -> holding p2 = Some e' -> t1 = t2).
  { intros p' Hp' t1 t2 p1 p2 e' Hp1 Hp2 Hh1 Hh2. destruct (decide (t = t1)) as [<-|Hn1], (decide (t = t2)) as [<-|Hn2]; [done|..];
      rewrite ?lookup_insert_eq, ?lookup_insert_ne in Hp1 by done; rewrite ?lookup_insert_eq, ?lookup_insert_ne in Hp2 by done; simplify_eq.
    - by apply (rg_unique _ Hl t t2 _ _ e Ht Hp2).
    - by apply (rg_unique _ Hl t1 t _ _ e Hp1 Ht).
    - by eapply (rg_unique _ Hl). }
  destruct err as [err|].
  - set (l' := goto t (SWithdraw e err) l0).
    assert (Hw : rewired ch l l').
    { split; unfold l'; simpl; rewrite ?Een, ?Esu, ?Eow, ?Emu, ?Eca; try done.
      - intros ch' Hn. by rewrite Hreg0, bool_decide_false.
      - intros s' Hs'. by rewrite Hreg0, bool_decide_true in Hs'.
      - by left.
      - apply Hl.
      - intros t' e' err' s' Hs'. rewrite lookup_insert_ne; [done|]. congruence. }
    apply (rewired_registered ch l); [done|done| |unfold l'; simpl; rewrite Eca; by apply Hun].
    intros t' p Hp. pose proof Hp as Hp0. unfold l' in Hp0. simpl in Hp0. rewrite Eca in Hp0. destruct (decide (t = t')) as [<-|Hn].
    + rewrite lookup_insert_eq in Hp0. apply (inj Some) in Hp0 as <-. exists x. unfold l'. simpl. rewrite Een. split; [done|]. congruence.
    + rewrite lookup_insert_ne in Hp0 by done. apply (rewired_caller ch l); try done. intros e' s' ->. by eapply Hins.
  - set (l' := goto t (SInstall e s) _).
    assert (Hw : rewired ch l l').
    { split; unfold l'; simpl; rewrite ?Een, ?Esu, ?Eow, ?Emu, ?Eca; try done.
      - intros ch' Hn. rewrite lookup_insert_ne by done. by rewrite Hreg0, bool_decide_false.
      - intros s' Hs'. rewrite lookup_insert_eq in Hs'. simplify_eq. exists e. by rewrite lookup_insert_eq.
      - intros s' e' Ho. rewrite lookup_insert_ne; [done|]. congruence.
      - intros s' e' Ho. destruct (decide (s = s')) as [<-|Hn]; [|rewrite lookup_insert_ne in Ho by done; by left].
        rewrite lookup_insert_eq in Ho. simplify_eq. right. split; [by eexists|]. intros t' p Hp ->.
        destruct (decide (t = t')) as [<-|Hn]; [by rewrite lookup_insert_eq in Hp|]. rewrite lookup_insert_ne in Hp by done.
        by destruct Hn; apply (rg_unique _ Hl t t' _ _ e' Ht Hp).
      - intros s1 s2 e' Ho1 Ho2. destruct (decide (s = s1)) as [<-|Hn1], (decide (s = s2)) as [<-|Hn2]; [done|..];
          rewrite ?lookup_insert_eq, ?lookup_insert_ne in Ho1 by done; rewrite ?lookup_insert_eq, ?lookup_insert_ne in Ho2 by done; simplify_eq.
        + by destruct (Hno s2).
        + by destruct (Hno s1).
        + by eapply (rg_inj _ Hl).
      - intros t' e' err' s' Hs'. rewrite lookup_insert_ne; [done|]. congruence. }
    apply (rewired_registered ch l); [done|done| |unfold l'; simpl; rewrite Eca; by apply Hun].
    intros t' p Hp. pose proof Hp as Hp0. unfold l' in Hp0. simpl in Hp0. rewrite Eca in Hp0. destruct (decide (t = t')) as [<-|Hn].
    + rewrite lookup_insert_eq in Hp0. apply (inj Some) in Hp0 as <-. exists x. unfold l'. simpl. rewrite Een. split_and!; try done.
      * by rewrite lookup_insert_eq.
      * rewrite Hsent0. intros [Hin _]. destruct (rg_sent _ Hl s Hin) as (? & ? & ? & _). congruence.
      * intros _. assert (s_channel x = ch) as -> by (unfold ch, chan; by rewrite Hx). by rewrite lookup_insert_eq.
    + rewrite lookup_insert_ne in Hp0 by done. apply (rewired_caller ch l); try done. intros e' s' ->. by eapply Hins.
Qed.

Lemma installed_registered t e s l :
  registered l -> callers l !! t = Some (SInstall e s) -> registered (installed t e s l).
Proof.
  intros Hl Ht. pose proof (rg_callers _ Hl t _ Ht) as (x & Hx & Hnone & Hown & Hns & Hreg). unfold installed.
  destruct (current e l) eqn:Ec.
  - apply current_true in Ec. specialize (Hreg Ec). unfold upd. rewrite Hx.
    set (x' := MkSub (s_channel x) (s_live x) (s_settled x) (Some s) (told x)). set (l' := goto _ _ _).
    pose proof Hl as [H1 H2 H3 H4 H5 H6 H7 H8 H9].
    assert (Hch : forall e', chan e' l' = chan e' l).
    { intros e'. unfold chan, l'. simpl. destruct (decide (e = e')) as [<-|Hn]; [by rewrite lookup_insert_eq, Hx|by rewrite lookup_insert_ne]. }
    assert (Hcu : forall e', is_current l' e' <-> is_current l e') by (intros e'; unfold is_current; by rewrite Hch).
    assert (Hsome : forall e', is_Some (entries l !! e') -> is_Some (<[e := x']> (entries l) !! e')).
    { intros e' Hs. destruct (decide (e = e')) as [<-|Hn]; [rewrite lookup_insert_eq; by eexists|by rewrite lookup_insert_ne]. }
    assert (Hold : forall t' p, t' <> t -> callers l !! t' = Some p -> holding p <> Some e).
    { intros t' p Hn Hp Hh. destruct Hn. by apply (H6 t' t p _ e Hp Ht). }
    assert (Hwd : forall e' s', withdrawing l e' s' -> withdrawing l' e' s').
    { intros e' s' [Hw|[Hw|[(t' & err & Hw)|Hw]]]; unfold withdrawing, l'; simpl; auto. right; right; left. exists t', err.
      rewrite lookup_insert_ne; [done|]. congruence. }
    split; simpl; try done.
    + intros s' e' Ho. by apply Hsome, (H1 s').
    + intros ch s' Hr. destruct (H3 ch s' Hr) as (e' & ? & ?). exists e'. by rewrite Hch.
    + intros e' y s' Hy Hs. rewrite Hcu. destruct (decide (e = e')) as [<-|Hn].
      * rewrite lookup_insert_eq in Hy. apply (inj Some) in Hy as <-. simpl in *. by simplify_eq.
      * rewrite lookup_insert_ne in Hy by done. by apply H4.
    + intros t' p Hp. destruct (decide (t = t')) as [<-|Hn].
      * rewrite lookup_insert_eq in Hp. apply (inj Some) in Hp as <-. simpl. rewrite lookup_insert_eq. by exists x'.
      * rewrite lookup_insert_ne in Hp by done. pose proof (Hold t' p (not_eq_sym Hn) Hp) as Hh. specialize (H5 t' p Hp).
        destruct p; simpl in *; try done; try (by apply Hsome).
        -- destruct H5 as (y & Hy & ?). exists y. by rewrite lookup_insert_ne by congruence.
        -- destruct H5 as (y & Hy & ? & ? & ? & ?). exists y. rewrite lookup_insert_ne by congruence. split_and!; try done. by rewrite Hcu.
        -- destruct H5 as (y & Hy & ?). exists y. by rewrite lookup_insert_ne by congruence.
        -- destruct H5 as (y & Hy & ?). exists y. by rewrite lookup_insert_ne by congruence.
        -- destruct H5 as (y & Hy & ? & ? & ? & ? & Hor). exists y. rewrite lookup_insert_ne by congruence. split_and!; try done.
           rewrite Hcu. destruct Hor; auto.
        -- destruct H5 as (y & Hy & ?). exists y. by rewrite lookup_insert_ne by congruence.
        -- destruct H5 as (? & ? & ?). split_and!; [by apply Hsome|by rewrite Hcu|done].
    + intros t1 t2 p1 p2 e' Hp1 Hp2 Hh1 Hh2. destruct (decide (t = t1)) as [<-|Hn1], (decide (t = t2)) as [<-|Hn2]; [done|..];
        rewrite ?lookup_insert_eq, ?lookup_insert_ne in Hp1 by done; rewrite ?lookup_insert_eq, ?lookup_insert_ne in Hp2 by done; simplify_eq/=.
      * by destruct (Hold t2 p2 (not_eq_sym Hn2) Hp2).
      * by destruct (Hold t1 p1 (not_eq_sym Hn1) Hp1).
      * by eapply H6.
    + intros s' Hin. destruct (H7 s' Hin) as (e' & ? & ?). exists e'. by rewrite Hcu.
    + intros u e' Hu. rewrite Hcu. destruct (H8 u e' Hu). split; [by apply Hsome|done].
    + intros s' Hin. destruct (H9 s' Hin) as (e' & y & Ho & Hy & Hs & Hr & Hor). exists e', y. rewrite lookup_insert_ne by congruence.
      split_and!; try done. rewrite Hcu. destruct Hor as [?|[?|?]]; auto.
  - assert (Hnc : ~ is_current l e) by (intros Hc%current_true; congruence).
    apply (registered_same l); simpl; try done.
    + intros e' y s' _ _ [Hw|[Hw|[(t' & err & Hw)|Hw]]]; unfold withdrawing; simpl; auto.
      * left. apply elem_of_app. by left.
      * right; right; left. exists t', err. rewrite lookup_insert_ne; [done|]. congruence.
    + intros t' p Hp. destruct (decide (t = t')) as [<-|Hn]; [|rewrite lookup_insert_ne in Hp by done; by left].
      rewrite lookup_insert_eq in Hp. apply (inj Some) in Hp as <-. right. split; [done|]. simpl. by eexists.
    + intros s' [?|Hin]%elem_of_app; [by left|]. apply list_elem_of_singleton in Hin as ->. right. by exists e.
Qed.

Lemma lockSend_registered t e s l :
  registered l -> callers l !! t = Some (SLock e s) -> regMu l = None -> registered (lockSend t e s l).
Proof.
  intros Hl Ht Hmu. pose proof (rg_callers _ Hl t _ Ht) as (x & Hx & Hs & Hns). unfold lockSend. destruct (transportClosed l) eqn:Etc.
  - apply (move_registered l _ t (SLock e s) (SWithdraw e (wrapf [ErrLinkClosed]))); try done; auto. simpl. exists x. split; [done|]. congruence.
  - apply (move_registered l _ t (SLock e s) (SCheck e s)); try done; auto. simpl. exists x. split_and!; try done.
Qed.

Lemma checkSend_registered t e s l :
  registered l -> callers l !! t = Some (SCheck e s) -> registered (checkSend t e s l).
Proof.
  intros Hl Ht. pose proof (rg_callers _ Hl t _ Ht) as (x & Hx & Hs & Hns & Hmu). unfold checkSend.
  destruct (rg_stored _ Hl e x s Hx Hs) as [Ho Hr]. destruct (current e l) eqn:Ec.
  - apply current_true in Ec. apply (move_registered l _ t (SCheck e s) (SSend e s)); try done; auto. simpl. exists x. split_and!; auto.
  - assert (Hnc : ~ is_current l e) by (intros Hc%current_true; congruence).
    apply (move_registered l _ t (SCheck e s) (SAwait e)); try done; auto; simpl.
    + by eexists.
    + intros s' Hin. apply elem_of_app. by left.
    + intros s' [?|Hin]%elem_of_app; [by left|]. apply list_elem_of_singleton in Hin as ->. right. by exists e.
Qed.

Lemma send_registered t e s err l :
  registered l -> callers l !! t = Some (SSend e s) -> registered (send t e s err l).
Proof.
  intros Hl Ht. pose proof (rg_callers _ Hl t _ Ht) as (x & Hx & Hs & Hns & Hmu & Hr & Hor). unfold send. destruct err as [err|].
  { apply (move_registered l _ t (SSend e s) (SWithdraw e err)); try done; auto. simpl. exists x. split; [done|]. congruence. }
  set (l1 := goto t (SAwait e) (set_regMu None l)).
  assert (Hl1 : registered l1).
  { apply (move_registered l _ t (SSend e s) (SAwait e)); try done; auto. simpl. by eexists. }
  pose proof Hl1 as [H1 H2 H3 H4 H5 H6 H7 H8 H9]. destruct (rg_stored _ Hl e x s Hx Hs) as [Ho _].
  split; try done.
  - intros t' p Hp. pose proof (H5 t' p Hp) as Hok.
    assert (Hfree : forall s', (s' = s -> False) -> s' ∉ sent l1 -> s' ∉ sent (goto t (SAwait e) (set_sent ({[s]} ∪ sent l) (set_regMu None l))))
      by (intros s' Hn Hin; simpl in *; set_solver).
    assert (Hnh : holding p <> Some e).
    { simpl in Hp. destruct (decide (t = t')) as [<-|Hn]; [rewrite lookup_insert_eq in Hp; by simplify_eq|].
      rewrite lookup_insert_ne in Hp by done. intros Hh. destruct Hn. by apply (rg_unique _ Hl t t' _ _ e Ht Hp). }
    destruct p; simpl in Hok, Hnh |- *; try done.
    + destruct Hok as (y & Hy & Hsy & Hoy & Hnsy & Hry). exists y. split_and!; try done. apply Hfree; [intros ->; congruence|done].
    + destruct Hok as (y & Hy & Hsy & Hnsy). exists y. split_and!; try done. apply Hfree; [|done]. intros ->.
      destruct (rg_stored _ Hl _ _ _ Hy Hsy). congruence.
    + destruct Hok as (y & Hy & Hsy & Hnsy & ?). done.
    + destruct Hok as (y & Hy & Hsy & Hnsy & ? & _). done.
    + destruct Hok as (y & Hy & Hsy). exists y. split; [done|]. intros s' Hs'. apply Hfree; [|auto]. intros ->.
      destruct (rg_stored _ Hl _ _ _ Hy Hs'). congruence.
  - simpl. intros s' [->%elem_of_singleton|Hin]%elem_of_union.
    + exists e, x. split_and!; try done. destruct Hor as [?|Hw]; [by left|]. right; left.
      destruct Hw as [Hw|[Hw|[(t' & err & Hw)|Hw]]]; unfold withdrawing; simpl; auto. right; right; left. exists t', err.
      rewrite lookup_insert_ne; [done|]. congruence.
    + destruct (H9 s' Hin) as (e' & y & ?). by exists e', y.
Qed.

(** A new caller. *)
Lemma call_registered t ch l : registered l -> callers l !! t = None -> registered (goto t (SReserve ch) l).
Proof.
  intros Hl Ht. apply (registered_same l); simpl; try done.
  - intros e x s _ _ [Hw|[Hw|[(t' & err & Hw)|Hw]]]; unfold withdrawing; simpl; auto. right; right; left. exists t', err.
    rewrite lookup_insert_ne; [done|]. congruence.
  - intros t' p Hp. destruct (decide (t = t')) as [<-|Hn]; [rewrite lookup_insert_eq in Hp; simplify_eq; by right|].
    rewrite lookup_insert_ne in Hp by done. by left.
  - by left.
Qed.

Lemma registered_step l l' : protocol l -> registered l -> orderly_step l l' -> registered l'.
Proof.
  intros Hp Hl (a & Hord & Ha). destruct a; simpl in Ha; unfold when, callback_of, idle in Ha; branches; simplify_eq; reflect_guards;
    try (by apply continue_registered);
    try (match goal with E : regFree l = true |- _ => apply regFree_none in E end).
  - by apply call_registered.
  - by apply reserve_registered.
  - apply newSubscription_registered; try done. by apply Hord.
  - by apply installed_registered.
  - by apply lockSend_registered.
  - by apply checkSend_registered.
  - by apply send_registered.
  - by apply withdraw_registered.
  - destruct (settle_tail_frame e (Some err) l) as (?&?&?&?&?&?&?&?&?&?&?).
    apply (goto_registered l _ t (SWithdrawn e err) (SReturned (Some (wrapf [err])))); simpl; try done. congruence.
  - by apply (goto_only l t (SAwait e)).
  - apply (goto_only l t (SAwait e)); try done. by apply (rg_callers _ Hl t (SAwait e)).
  - match goal with E : current e l = true |- _ => pose proof (expire_registered t e err l Hl) as Hx; rewrite E in Hx end. by apply Hx.
  - match goal with E : current e l = false |- _ => pose proof (expire_registered t e err l Hl) as Hx; rewrite E in Hx end. by apply Hx.
  - by apply settleExpired_registered.
  - apply leave_registered; eauto.
  - by eapply leaveRemove_registered.
  - apply leave_registered; eauto.
  - by apply leaveSettle_registered.
  - by apply leaveDiscard_registered.
  - by apply discard_registered.
  - unfold onSubscribed. case_match; [|done].
    match goal with |- registered (set_cb _ (upd ?e ?f _)) => destruct (upd_frame e f l) as (?&?&?&?&?&?&?&?&?&?&_);
      apply (recb_registered l); simpl; try done; [by apply upd_place|] end. intros ? es ?; congruence.
  - unfold onPublication. case_match; [|done]. apply (recb_registered l); simpl; try done. intros ? es ?; congruence.
  - unfold lose. case_match; [|done]. by apply drop_registered.
  - unfold onSubscribing, lose. repeat case_match; try done; by apply drop_registered.
  - unfold onError. case_match; [|done]. by apply drop_registered.
  - apply (recb_registered l); simpl; try done. intros ? es ?; congruence.
  - apply (recb_registered l); simpl; try done. intros ? es ?; congruence.
  - apply (recb_registered l); simpl; try done. intros ? es ?; congruence.
  - apply (recb_registered l); simpl; try done. intros ? es ?; congruence.
  - apply (recb_registered l); simpl; try done. eauto.
  - apply (registered_same l); simpl; try done; by left.
Qed.

Lemma orderly_reachable l : orderly_link l -> reachable_link l.
Proof.
  intros Hr. induction Hr as [l -> | l l' _ IH (a & _ & Ha)]; [by apply reach_init|]. eapply reach_step; [done|]. by exists a.
Qed.

Lemma registered_orderly l : orderly_link l -> registered l.
Proof.
  intros Hr. induction Hr as [l -> | l l' Hr IH Hst].
  - split; simpl; try (intros *; rewrite ?lookup_empty; done).
    + intros s Hin. by apply elem_of_nil in Hin.
    + intros u e. rewrite lookup_empty. by intros [?|?].
  - eapply registered_step; [by apply protocol_reachable, orderly_reachable|done..].
Qed.

(** ** What a subscription promises *)

(** C11: What a sink hears of its subscription, however callers, callbacks and
    reconnects interleave: [Subscribed] once and first, then publications, then
    [Ended] at most once and last; and a nil outcome is recorded for a caller
    of Subscribe only when the sink has already heard [Subscribed]. *)
Theorem sinks_hear_one_tail l e x :
  reachable_link l -> entries l !! e = Some x ->
  tail_shape (told x) /\ (outcome e l = Some None -> exists evs, told x = Subscribed :: evs).
Proof.
  intros Hr He. pose proof (protocol_reachable l Hr) as Hp. split; [by eapply protocol_shape|].
  unfold outcome. rewrite He. simpl. intros Hs. pose proof (an_entries _ (answered_reachable l Hr) e x He Hs) as Hn.
  pose proof (pr_told _ Hp e x He) as Ht. destruct (told x) as [|[] evs]; try done. by exists evs.
Qed.

(** No subscription is left behind at a Host: as long as a caller registers
    its entry only while the entry is still its channel's, every subscription
    the link has sent and not withdrawn is the one registered for its channel,
    and its entry is still the channel's or a withdrawal of it is under way,
    until the transport closes; and the subscription of an entry that is its
    channel's is never unregistered. *)
Theorem sent_subscriptions_are_owned l :
  orderly_link l ->
  (forall s, s ∈ sent l -> exists e x, owner l !! s = Some e /\ entries l !! e = Some x /\ s_sub x = Some s
     /\ registry l !! s_channel x = Some s /\ (is_current l e \/ withdrawing l e s \/ transportClosed l = true))
  /\ (forall e x s, entries l !! e = Some x -> is_current l e -> s_sub x = Some s -> registry l !! s_channel x = Some s).
Proof.
  intros Hr. pose proof (registered_orderly l Hr) as Hl. split; [apply Hl|]. intros e x s He Hc Hs.
  by apply (rg_stored _ Hl e x s He Hs).
Qed.

(** ** Runs *)
Fixpoint run_actions (actions : list action) (l : link) : option link :=
  match actions with
  | [] => Some l
  | a :: actions => match act a l with Some l => run_actions actions l | None => None end
  end.

(** Whether a run registers only entries that are their channel's. *)
Definition orderlyb (a : action) (l : link) : bool :=
  match a with
  | Register t _ _ => match callers l !! t with Some (SNew e) => current e l | _ => true end
  | _ => true
  end.

Fixpoint orderly_run (actions : list action) (l : link) : bool :=
  match actions with
  | [] => true
  | a :: actions => orderlyb a l && match act a l with Some l => orderly_run actions l | None => true end
  end.

Lemma run_reaches actions l l' : reachable_link l -> run_actions actions l = Some l' -> reachable_link l'.
Proof.
  revert l. induction actions as [|a actions IH]; intros l Hr Hl; simpl in Hl; [by simplify_eq|].
  destruct (act a l) as [l1|] eqn:E; [|done]. eapply IH; [|done]. eapply reach_step; [done|]. by exists a.
Qed.

Lemma run_orderly actions l l' :
  orderly_link l -> orderly_run actions l = true -> run_actions actions l = Some l' -> orderly_link l'.
Proof.
  revert l. induction actions as [|a actions IH]; intros l Hr Ho Hl; simpl in Hl, Ho; [by simplify_eq|]. reflect_guards.
  destruct (act a l) as [l1|] eqn:E; [|done]. apply (IH l1); [|done|done]. eapply reach_step; [done|]. exists a. split; [|done].
  destruct a; try done. simpl in *. intros e He. rewrite He in *. by apply current_true.
Qed.

(** A session is subscribed and hears one publication. *)
Definition demo_subscribe (t e s : nat) : list action :=
  [Call t "c"; Reserve t e; Register t s None; Store t; Lock t; Check t; Send t None; OnSubscribed s; Continue; Continue; AwaitSettled t].

Definition demo_run : list action := (demo_subscribe 0 0 0 ++ [OnPublication 0 "p"; Continue])%list.
Definition demo_link : link := default initial (run_actions demo_run initial).

Lemma demo_orderly : orderly_link demo_link.
Proof. apply (run_orderly demo_run initial); [by apply reach_init|by vm_compute..]. Qed.

Lemma sinks_hear_one_tail_witness :
  exists x, entries demo_link !! 0%nat = Some x /\ told x = [Subscribed; Publication "p"] /\ tail_shape (told x).
Proof.
  eexists. split; [by vm_compute|]. split; [by vm_compute|].
  apply (sinks_hear_one_tail demo_link 0%nat); [apply orderly_reachable, demo_orderly|by vm_compute].
Defined.

Lemma sent_subscriptions_are_owned_witness :
  0%nat ∈ sent demo_link
  /\ exists e x, owner demo_link !! 0%nat = Some e /\ entries demo_link !! e = Some x /\ s_sub x = Some 0%nat
     /\ registry demo_link !! s_channel x = Some 0%nat
     /\ (is_current demo_link e \/ withdrawing demo_link e 0 \/ transportClosed demo_link = true).
Proof.
  split; [by apply (bool_decide_eq_true_1 _); vm_compute|].
  apply (sent_subscriptions_are_owned demo_link); [apply demo_orderly|by apply (bool_decide_eq_true_1 _); vm_compute].
Defined.

(** A wait that takes its expired arm withdraws a subscription that is live and
    answers nil for it: the caller is told it is subscribed, the Host has been
    unsubscribed, and the sink hears nothing. *)
Lemma expired_wait_drops_a_live_tail :
  exists l x, orderly_link l /\ callers l !! 1%nat = Some (SReturned None) /\ entries l !! 0%nat = Some x
    /\ told x = [Subscribed] /\ ~ is_current l 0 /\ sent l = ∅ /\ leavers l = ∅ /\ terminal l = None.
Proof.
  set (actions := (demo_subscribe 0 0 0 ++
    [Call 1 "c"; Reserve 1 9; AwaitExpired 1 (sentinel "context.DeadlineExceeded"); Expire 1; SettleExpired 1; Discard 0])%list).
  exists (default initial (run_actions actions initial)). eexists.
  split; [apply (run_orderly actions initial); [by apply reach_init|by vm_compute..]|]. split_and!; by vm_compute.
Qed.

(** A caller that registers an entry withdrawn meanwhile takes the registration
    of the channel, and the Host's subscription, from the entry that is current. *)
Lemma late_registration_unsubscribes_a_newer_tail :
  exists l x, reachable_link l /\ entries l !! 1%nat = Some x /\ is_current l 1 /\ s_live x = true /\ s_sub x = Some 1%nat
    /\ told x = [Subscribed] /\ sent l = ∅ /\ registry l !! "c" = Some 0%nat.
Proof.
  set (actions := ([Call 0 "c"; Reserve 0 0; Leave 0 "c"; LeaveRemove 0; LeaveSettle 0; LeaveDiscard 0] ++
    demo_subscribe 1 1 1 ++ [Register 0 0 None])%list).
  exists (default initial (run_actions actions initial)). eexists.
  split; [apply (run_reaches actions initial); [by apply reach_init|by vm_compute]|]. split_and!; by vm_compute.
Qed.
