(* ===== verification/Options.v ===== *)
(** * The composition's options (src/options.go, src/composition.go, and the
    checks of [New] in src/server.go)

    A deployer composes a Factory from a list of options. Each option is a name
    and a function on the configuration, as in the code; an interface is an
    element of an abstract type of implementations, held under the seam it
    fills. The file holds the limits and their validation, the options, the
    checks of [New] in the order it makes them, and the launch templates. The
    component graph that [New] goes on to build is in Compose. *)

From S2P Require Import Prelude Wire Framing Text Encoding Program Identity Pool Refusal Admission ClientLink HttpErrors Origins Guard Objects Agents Router.
Local Open Scope string_scope.
Local Open Scope Z_scope.

(** ** Errors *)
Definition ErrNilOption : error := sentinel "factory.ErrNilOption".
Definition ErrDuplicateOption : error := sentinel "factory.ErrDuplicateOption".
Definition ErrNilDependency : error := sentinel "factory.ErrNilDependency".
Definition ErrMissingDependency : error := sentinel "factory.ErrMissingDependency".
Definition ErrConflictingUI : error := sentinel "factory.ErrConflictingUI".
Definition ErrInvalidLimits : error := sentinel "factory.ErrInvalidLimits".
Definition ErrNotAServiceIdentity : error := sentinel "factory.ErrNotAServiceIdentity".
Definition ErrEmptyReplicaID : error := sentinel "factory.ErrEmptyReplicaID".
Definition ErrEmptyVersion : error := sentinel "factory.ErrEmptyVersion".
Definition ErrObjectPolicyWithoutResolver : error := sentinel "factory.ErrObjectPolicyWithoutResolver".
Definition ErrSessionBindingWithoutResolver : error := sentinel "factory.ErrSessionBindingWithoutResolver".
Definition ErrIncompleteSessionBinding : error := sentinel "factory.ErrIncompleteSessionBinding".
Definition ErrCreatePlaneIncomplete : error := sentinel "factory.ErrCreatePlaneIncomplete".
Definition ErrInvalidLaunchTemplate : error := sentinel "factory.ErrInvalidLaunchTemplate".
Definition ErrConflictingObjectResolvers : error := sentinel "factory.ErrConflictingObjectResolvers".
Definition ErrConflictingJournalResolvers : error := sentinel "factory.ErrConflictingJournalResolvers".
Definition ErrHostSessionsWithoutJournalResolver : error := sentinel "factory.ErrHostSessionsWithoutJournalResolver".

(** [OptionError] names the option; [MissingSeamsError] lists the names. *)
Definition OptionError (option : string) (err : error) : error :=
  Err (Typed "factory.OptionError" option "" 0) [err].
Definition MissingSeamsError (options : list string) : error :=
  Err (Typed "factory.MissingSeamsError" (Join ", " options) "" 0) [ErrMissingDependency].

(** ** Limits *)

(** The first check that refuses, of checks made one after the other. *)
Definition first_failure (checks : list (option error)) : option error := head (omap id checks).

(** The returns of [fmt.Errorf("%w: ...", ErrInvalidLimits, ...)]. *)
Definition refuse (b : bool) : option error := if b then Some (wrapf [ErrInvalidLimits]) else None.

Definition positive (d : Z) : option error := refuse (d <=? 0).
Definition atLeastDuration (d floor : Z) : option error := refuse (d <? floor).
Definition atLeastOne (n : Z) : option error := refuse (n <? 1).

Record HTTPLimits := MkHTTPLimits { ht_ReadHeaderTimeout : Z; ht_IdleTimeout : Z; ht_MaxHeaderBytes : Z }.

Definition DefaultHTTPLimits : HTTPLimits := MkHTTPLimits (10 * Second) (120 * Second) (Z.shiftl 1 20).

Definition minHeaderBytes : Z := Z.shiftl 4 10.

Definition HTTPLimits_Validate (l : HTTPLimits) : option error :=
  first_failure
    [positive (ht_ReadHeaderTimeout l); positive (ht_IdleTimeout l); refuse (ht_MaxHeaderBytes l <? minHeaderBytes)].

Record ReconcileLimits := MkReconcileLimits {
  re_Interval : Z; re_ClaimTTL : Z; re_ApplyDeadline : Z; re_MaxDuePerSweep : Z; re_MaxConcurrent : Z; re_PassTimeout : Z }.

Definition Minute : Z := 60 * Second.

Definition DefaultReconcileLimits : ReconcileLimits :=
  MkReconcileLimits (5 * Second) (30 * Second) (5 * Minute) 256 8 (10 * Second).

Definition passTimeout (l : ReconcileLimits) : Z :=
  if re_PassTimeout l =? 0 then re_PassTimeout DefaultReconcileLimits else re_PassTimeout l.

Definition ReconcileLimits_Validate (l : ReconcileLimits) : option error :=
  first_failure
    [positive (re_Interval l); refuse (re_PassTimeout l <? 0); positive (re_ClaimTTL l); positive (re_ApplyDeadline l);
     atLeastOne (re_MaxDuePerSweep l); atLeastOne (re_MaxConcurrent l);
     refuse (re_ClaimTTL l <=? re_Interval l); refuse (re_ApplyDeadline l <=? re_ClaimTTL l);
     refuse (re_ClaimTTL l <=? passTimeout l)].

(** The members of [ClientLinkLimits] and [HostLinkLimits] are those of the
    [Limits] of the two packages, into which they are converted as they are. *)
Abbreviation ClientLinkLimits := ClientLink.Limits (only parsing).
Abbreviation HostLinkLimits := Pool.Limits (only parsing).

Definition MinClientLinkPingInterval : Z := Second.

Definition DefaultClientLinkLimits : ClientLinkLimits :=
  {| MaxMessageBytes := Z.shiftl 64 10; MaxConnections := 5000; MaxChannelsPerConnection := 256;
     PerConnectionQueueBytes := Z.shiftl 1 20; WriteTimeout := 5 * Second; PingInterval := 25 * Second;
     PongTimeout := 10 * Second; CommandTimeout := 30 * Second; DemandReleaseDebounce := 30 * Second;
     OwnershipPollInterval := 5 * Second; DemandTimeout := 30 * Second |}.

Definition clientOwnershipPollInterval (l : ClientLinkLimits) : Z :=
  if OwnershipPollInterval l =? 0 then OwnershipPollInterval DefaultClientLinkLimits else OwnershipPollInterval l.

Definition ClientLinkLimits_Validate (l : ClientLinkLimits) : option error :=
  first_failure
    [refuse ((MaxMessageBytes l <? Z.shiftl 64 10) || (Z.shiftl 16 20 <? MaxMessageBytes l));
     atLeastOne (MaxConnections l); atLeastOne (MaxChannelsPerConnection l); atLeastOne (PerConnectionQueueBytes l);
     positive (WriteTimeout l); atLeastDuration (PingInterval l) MinClientLinkPingInterval;
     positive (PongTimeout l); positive (CommandTimeout l); refuse (DemandReleaseDebounce l <? 0);
     refuse (OwnershipPollInterval l <? 0); positive (DemandTimeout l);
     refuse (PingInterval l <=? PongTimeout l); refuse (PongTimeout l <? WriteTimeout l)].

Definition DefaultHostLinkLimits : HostLinkLimits :=
  {| MaxLinks := 256; DialTimeout := 5 * Second; IdleTimeout := 60 * Second;
     ReconnectMin := 250 * millisecond; ReconnectMax := 10 * Second |}.

Definition HostLinkLimits_Validate (l : HostLinkLimits) : option error :=
  first_failure
    [atLeastOne (MaxLinks l); positive (DialTimeout l); positive (IdleTimeout l); positive (ReconnectMin l);
     positive (ReconnectMax l); refuse (ReconnectMax l <? ReconnectMin l); refuse (IdleTimeout l <? DialTimeout l)].

(** ** Launch templates (composition.go) *)
Record LaunchTemplate := MkLaunchTemplate {
  tpl_Key : HostTargetKey; tpl_Capabilities : list string; tpl_Workload : DesiredWorkload }.

(** The empty placement is [HostPlacementOther ""]. *)
Definition normalized (t : LaunchTemplate) : LaunchTemplate :=
  let key := tpl_Key t in
  if bool_decide (tk_Placement key = HostPlacementOther "") then
    MkLaunchTemplate (MkTargetKey (tk_AgentID key) (tk_RuntimeCompatibilityID key) HostPlacementPooled)
      (tpl_Capabilities t) (tpl_Workload t)
  else t.

Definition published (t : LaunchTemplate) : Agents.LaunchTemplate :=
  Agents.MkTemplate (tpl_Key t) (tpl_Capabilities t).

Definition LaunchTemplate_Validate (AgentID_Validate : AgentID -> option error) (t : LaunchTemplate) : option error :=
  let t := normalized t in
  let workload := tpl_Workload t in
  match Agents.LaunchTemplate_Validate AgentID_Validate (published t) with
  | Some err => Some err
  | None =>
      match tk_Placement (tpl_Key t) with
      | HostPlacementDedicated =>
          if bool_decide (wl_PayloadVersion workload = "") || bool_decide (wl_Payload workload = "")
          then Some (wrapf [ErrInvalidLaunchTemplate]) else None
      | _ =>
          if negb (bool_decide (wl_PayloadVersion workload = "")) || negb (bool_decide (wl_Payload workload = ""))
          then Some (wrapf [ErrInvalidLaunchTemplate]) else None
      end
  end.

(** A copy of a slice of bytes is the same bytes. *)
Definition cloneTemplates (templates : list LaunchTemplate) : list LaunchTemplate := normalized <$> templates.

(** ** The configuration *)

(** The interface members of [config], each under the seam it fills. *)
Inductive seam :=
| Verifier
| AuthorizerSeam
| SessionReader
| Commands
| DirectorySeam
| PlacementController
| Clock
| UUIDSource
| UIHandler
| UIFS
| CatalogSeam
| Gates
| HostTargets
| HostLinkCredential
| WorkloadController
| ObjectPolicy
| PublicCreates
| SessionObjectStoreResolver
| ObjectStoreResolver
| PendingCommands
| Logger
| SessionJournalResolver
| JournalResolver
| UIRoutes
| UIRouteAuthorizer.

#[global] Instance seam_eq_dec : EqDecision seam.
Proof. solve_decision. Defined.

Definition all_seams : list seam :=
  [Verifier; AuthorizerSeam; SessionReader; Commands; DirectorySeam; PlacementController; Clock; UUIDSource; UIHandler; UIFS; CatalogSeam; Gates; HostTargets; HostLinkCredential; WorkloadController; ObjectPolicy; PublicCreates; SessionObjectStoreResolver; ObjectStoreResolver; PendingCommands; Logger; SessionJournalResolver; JournalResolver; UIRoutes; UIRouteAuthorizer].

Definition seam_index (d : seam) : nat :=
  match d with
  | Verifier => 0%nat
  | AuthorizerSeam => 1%nat
  | SessionReader => 2%nat
  | Commands => 3%nat
  | DirectorySeam => 4%nat
  | PlacementController => 5%nat
  | Clock => 6%nat
  | UUIDSource => 7%nat
  | UIHandler => 8%nat
  | UIFS => 9%nat
  | CatalogSeam => 10%nat
  | Gates => 11%nat
  | HostTargets => 12%nat
  | HostLinkCredential => 13%nat
  | WorkloadController => 14%nat
  | ObjectPolicy => 15%nat
  | PublicCreates => 16%nat
  | SessionObjectStoreResolver => 17%nat
  | ObjectStoreResolver => 18%nat
  | PendingCommands => 19%nat
  | Logger => 20%nat
  | SessionJournalResolver => 21%nat
  | JournalResolver => 22%nat
  | UIRoutes => 23%nat
  | UIRouteAuthorizer => 24%nat
  end.

#[global] Program Instance seam_countable : Countable seam :=
  inj_countable seam_index (fun n => all_seams !! n) _.
Next Obligation. by intros []. Qed.

(** Go's implementations of the seams: the two the root package supplies, what
    a type assertion finds, and the two wrappers [New] builds. *)
Class Implementations := {
  Impl : Type;
  SystemClock : Impl;
  CryptoUUIDSource : Impl;
  FileServerFS : Impl -> Impl;
  resolvedJournals_of : Impl -> Impl -> Impl;
  sessionAware_of : Impl -> Impl;
  isSessionCommands : Impl -> bool;
  isEndpointDiscovery : Impl -> bool
}.

#[global] Instance SessionBindingTemplate_eq_dec : EqDecision SessionBindingTemplate.
Proof. solve_decision. Defined.

Section Options.
Context `{Implementations} (AgentID_Validate : AgentID -> option error).

Record config := MkConfig {
  deps : gmap seam Impl;
  stampPrincipal : bool;
  cookieName : string;
  defaultTenant : TenantID;
  csrf : CSRFConfig;
  csrfSet : bool;
  http : HTTPLimits;
  route : RouteLimits;
  reconcile : ReconcileLimits;
  client : ClientLinkLimits;
  host : HostLinkLimits;
  service : Principal;
  serviceSet : bool;
  replicaID : string;
  version : string;
  department : list LaunchTemplate;
  sessionBinding : SessionBindingTemplate;
  objects : ObjectLimits
}.

Definition set_seam (d : seam) (v : Impl) (c : config) : config :=
  let 'MkConfig dp sp ck dt cs ct ht rt re cl ho se st ri ve de sb ob := c in
  MkConfig (<[d := v]> dp) sp ck dt cs ct ht rt re cl ho se st ri ve de sb ob.
Definition set_stampPrincipal (x : bool) (c : config) : config :=
  let 'MkConfig dp _ ck dt cs ct ht rt re cl ho se st ri ve de sb ob := c in
  MkConfig dp x ck dt cs ct ht rt re cl ho se st ri ve de sb ob.
Definition set_cookieName (x : string) (c : config) : config :=
  let 'MkConfig dp sp _ dt cs ct ht rt re cl ho se st ri ve de sb ob := c in
  MkConfig dp sp x dt cs ct ht rt re cl ho se st ri ve de sb ob.
Definition set_defaultTenant (x : TenantID) (c : config) : config :=
  let 'MkConfig dp sp ck _ cs ct ht rt re cl ho se st ri ve de sb ob := c in
  MkConfig dp sp ck x cs ct ht rt re cl ho se st ri ve de sb ob.
Definition set_csrf (x : CSRFConfig) (c : config) : config :=
  let 'MkConfig dp sp ck dt _ _ ht rt re cl ho se st ri ve de sb ob := c in
  MkConfig dp sp ck dt x true ht rt re cl ho se st ri ve de sb ob.
Definition set_http (x : HTTPLimits) (c : config) : config :=
  let 'MkConfig dp sp ck dt cs ct _ rt re cl ho se st ri ve de sb ob := c in
  MkConfig dp sp ck dt cs ct x rt re cl ho se st ri ve de sb ob.
Definition set_route (x : RouteLimits) (c : config) : config :=
  let 'MkConfig dp sp ck dt cs ct ht _ re cl ho se st ri ve de sb ob := c in
  MkConfig dp sp ck dt cs ct ht x re cl ho se st ri ve de sb ob.
Definition set_reconcile (x : ReconcileLimits) (c : config) : config :=
  let 'MkConfig dp sp ck dt cs ct ht rt _ cl ho se st ri ve de sb ob := c in
  MkConfig dp sp ck dt cs ct ht rt x cl ho se st ri ve de sb ob.
Definition set_client (x : ClientLinkLimits) (c : config) : config :=
  let 'MkConfig dp sp ck dt cs ct ht rt re _ ho se st ri ve de sb ob := c in
  MkConfig dp sp ck dt cs ct ht rt re x ho se st ri ve de sb ob.
Definition set_host (x : HostLinkLimits) (c : config) : config :=
  let 'MkConfig dp sp ck dt cs ct ht rt re cl _ se st ri ve de sb ob := c in
  MkConfig dp sp ck dt cs ct ht rt re cl x se st ri ve de sb ob.
Definition set_service (x : Principal) (c : config) : config :=
  let 'MkConfig dp sp ck dt cs ct ht rt re cl ho _ _ ri ve de sb ob := c in
  MkConfig dp sp ck dt cs ct ht rt re cl ho x true ri ve de sb ob.
Definition set_replicaID (x : string) (c : config) : config :=
  let 'MkConfig dp sp ck dt cs ct ht rt re cl ho se st _ ve de sb ob := c in
  MkConfig dp sp ck dt cs ct ht rt re cl ho se st x ve de sb ob.
Definition set_version (x : string) (c : config) : config :=
  let 'MkConfig dp sp ck dt cs ct ht rt re cl ho se st ri _ de sb ob := c in
  MkConfig dp sp ck dt cs ct ht rt re cl ho se st ri x de sb ob.
Definition set_department (x : list LaunchTemplate) (c : config) : config :=
  let 'MkConfig dp sp ck dt cs ct ht rt re cl ho se st ri ve _ sb ob := c in
  MkConfig dp sp ck dt cs ct ht rt re cl ho se st ri ve x sb ob.
Definition set_sessionBinding (x : SessionBindingTemplate) (c : config) : config :=
  let 'MkConfig dp sp ck dt cs ct ht rt re cl ho se st ri ve de _ ob := c in
  MkConfig dp sp ck dt cs ct ht rt re cl ho se st ri ve de x ob.
Definition set_objects (x : ObjectLimits) (c : config) : config :=
  let 'MkConfig dp sp ck dt cs ct ht rt re cl ho se st ri ve de sb _ := c in
  MkConfig dp sp ck dt cs ct ht rt re cl ho se st ri ve de sb x.

(** [Option]: the zero value has no function. *)
Record Option_ := MkOption { name : string; apply : option (config -> result config) }.

Definition option_ (name : string) (apply : config -> result config) : Option_ := MkOption name (Some apply).

Definition nilDependency (name : string) : error := OptionError name ErrNilDependency.

(** The name of the option that fills a seam. *)
Definition seam_option (d : seam) : string :=
  match d with
  | Verifier => "WithCredentialVerifier"
  | AuthorizerSeam => "WithAuthorizer"
  | SessionReader => "WithSessionReader"
  | Commands => "WithCommands"
  | DirectorySeam => "WithDirectory"
  | PlacementController => "WithPlacementController"
  | Clock => "WithClock"
  | UUIDSource => "WithUUIDSource"
  | UIHandler => "WithUIHandler"
  | UIFS => "WithUIFS"
  | CatalogSeam => "WithCatalog"
  | Gates => "WithGates"
  | HostTargets => "WithHostTargets"
  | HostLinkCredential => "WithHostLinkCredential"
  | WorkloadController => "WithWorkloadController"
  | ObjectPolicy => "WithObjectPolicy"
  | PublicCreates => "WithPublicCreates"
  | SessionObjectStoreResolver => "WithSessionObjectStoreResolver"
  | ObjectStoreResolver => "WithObjectStoreResolver"
  | PendingCommands => "WithPendingCommands"
  | Logger => "WithLogger"
  | SessionJournalResolver => "WithSessionJournalResolver"
  | JournalResolver => "WithJournalResolver"
  | UIRoutes | UIRouteAuthorizer => "WithUIRoutes"
  end.

(** The body the options of one interface share: nil is refused. *)
Definition supply (d : seam) (v : option Impl) : Option_ :=
  option_ (seam_option d) (fun c =>
    match v with None => Fail (nilDependency (seam_option d)) | Some v => Ok (set_seam d v c) end).

(** The body of an option that only stores a value. *)
Definition store (name : string) (set : config -> config) : Option_ := option_ name (fun c => Ok (set c)).

Definition WithCredentialVerifier (v : option Impl) : Option_ := supply Verifier v.
Definition WithAuthorizer (v : option Impl) : Option_ := supply AuthorizerSeam v.
Definition WithSessionReader (v : option Impl) : Option_ := supply SessionReader v.
Definition WithCommands (v : option Impl) : Option_ := supply Commands v.
Definition WithDirectory (v : option Impl) : Option_ := supply DirectorySeam v.
Definition WithPlacementController (v : option Impl) : Option_ := supply PlacementController v.
Definition WithClock (v : option Impl) : Option_ := supply Clock v.
Definition WithUUIDSource (v : option Impl) : Option_ := supply UUIDSource v.
Definition WithUIHandler (v : option Impl) : Option_ := supply UIHandler v.
Definition WithUIFS (v : option Impl) : Option_ := supply UIFS v.
Definition WithCatalog (v : option Impl) : Option_ := supply CatalogSeam v.
Definition WithGates (v : option Impl) : Option_ := supply Gates v.
Definition WithHostTargets (v : option Impl) : Option_ := supply HostTargets v.
Definition WithHostLinkCredential (v : option Impl) : Option_ := supply HostLinkCredential v.
Definition WithWorkloadController (v : option Impl) : Option_ := supply WorkloadController v.
Definition WithObjectPolicy (v : option Impl) : Option_ := supply ObjectPolicy v.
Definition WithPublicCreates (v : option Impl) : Option_ := supply PublicCreates v.
Definition WithSessionObjectStoreResolver (v : option Impl) : Option_ := supply SessionObjectStoreResolver v.
Definition WithObjectStoreResolver (v : option Impl) : Option_ := supply ObjectStoreResolver v.
Definition WithPendingCommands (v : option Impl) : Option_ := supply PendingCommands v.
Definition WithLogger (v : option Impl) : Option_ := supply Logger v.
Definition WithSessionJournalResolver (v : option Impl) : Option_ := supply SessionJournalResolver v.
Definition WithJournalResolver (v : option Impl) : Option_ := supply JournalResolver v.

Definition WithUIRoutes (h authorize : option Impl) : Option_ :=
  option_ "WithUIRoutes" (fun c =>
    match h, authorize with
    | Some h, Some authorize => Ok (set_seam UIRouteAuthorizer authorize (set_seam UIRoutes h c))
    | _, _ => Fail (nilDependency "WithUIRoutes")
    end).

Definition WithPrincipalStamping : Option_ := store "WithPrincipalStamping" (set_stampPrincipal true).
Definition WithSessionCookieName (name : string) : Option_ := store "WithSessionCookieName" (set_cookieName name).
Definition WithDefaultTenant (tenant : TenantID) : Option_ := store "WithDefaultTenant" (set_defaultTenant tenant).
Definition WithCSRF (cfg : CSRFConfig) : Option_ := store "WithCSRF" (set_csrf cfg).
Definition WithHTTPLimits (l : HTTPLimits) : Option_ := store "WithHTTPLimits" (set_http l).
Definition WithReconcileLimits (l : ReconcileLimits) : Option_ := store "WithReconcileLimits" (set_reconcile l).
Definition WithClientLinkLimits (l : ClientLinkLimits) : Option_ := store "WithClientLinkLimits" (set_client l).
Definition WithRouteLimits (l : RouteLimits) : Option_ := store "WithRouteLimits" (set_route l).
Definition WithHostLinkLimits (l : HostLinkLimits) : Option_ := store "WithHostLinkLimits" (set_host l).
Definition WithObjectLimits (l : ObjectLimits) : Option_ := store "WithObjectLimits" (set_objects l).

Definition WithServiceIdentity (p : Principal) : Option_ :=
  option_ "WithServiceIdentity" (fun c =>
    if negb (IsService p) then Fail (OptionError "WithServiceIdentity" ErrNotAServiceIdentity) else Ok (set_service p c)).

Definition WithReplicaID (id : string) : Option_ :=
  option_ "WithReplicaID" (fun c =>
    if bool_decide (id = "") then Fail (OptionError "WithReplicaID" ErrEmptyReplicaID) else Ok (set_replicaID id c)).

Definition WithVersion (v : string) : Option_ :=
  option_ "WithVersion" (fun c =>
    if bool_decide (v = "") then Fail (OptionError "WithVersion" ErrEmptyVersion) else Ok (set_version v c)).

Definition WithDepartment (templates : list LaunchTemplate) : Option_ :=
  option_ "WithDepartment" (fun c =>
    match first_failure (LaunchTemplate_Validate AgentID_Validate <$> templates) with
    | Some err => Fail (OptionError "WithDepartment" (wrapf [err]))
    | None => Ok (set_department (cloneTemplates templates) c)
    end).

Definition WithSessionBinding (storageBindingID bindingVersion : string) : Option_ :=
  option_ "WithSessionBinding" (fun c =>
    if bool_decide (storageBindingID = "") || bool_decide (bindingVersion = "") then Fail ErrIncompleteSessionBinding
    else Ok (set_sessionBinding (Admission.MkTemplate storageBindingID bindingVersion) c)).

(** ** The checks of [New] (server.go) *)
Definition initial : config :=
  MkConfig {[Clock := SystemClock; UUIDSource := CryptoUUIDSource]} false "" "" (MkCSRFConfig [] 0 [] false) false
    DefaultHTTPLimits DefaultRouteLimits DefaultReconcileLimits DefaultClientLinkLimits DefaultHostLinkLimits
    zeroPrincipal false "" "" [] (Admission.MkTemplate "" "") (MkObjectLimits 0 0).

Definition has (d : seam) (c : config) : bool := bool_decide (is_Some (deps c !! d)).

(** The first loop: every option is one, and no name comes twice. The index is
    formatted into the name of a nil option. *)
Fixpoint namesOnce (i : N) (supplied : gset string) (opts : list Option_) : option error :=
  match opts with
  | [] => None
  | opt :: opts =>
      match apply opt with
      | None => Some (OptionError ("option " +:+ itoa i) ErrNilOption)
      | Some _ =>
          if bool_decide (name opt = "") then Some (OptionError ("option " +:+ itoa i) ErrNilOption)
          else if bool_decide (name opt ∈ supplied) then Some (OptionError (name opt) ErrDuplicateOption)
          else namesOnce (i + 1) ({[name opt]} ∪ supplied) opts
      end
  end.

(** The second loop; the first has refused an option without a function. *)
Fixpoint applyAll (opts : list Option_) (c : config) : result config :=
  match opts with
  | [] => Ok c
  | opt :: opts =>
      match apply opt with
      | None => applyAll opts c
      | Some apply => match apply c with Fail err => Fail err | Ok c => applyAll opts c end
      end
  end.

Definition requirements (c : config) : list (string * bool) :=
  [("WithCredentialVerifier", has Verifier c); ("WithAuthorizer", has AuthorizerSeam c);
   ("WithSessionReader", has SessionReader c); ("WithCommands", has Commands c);
   ("WithDirectory", has DirectorySeam c); ("WithCatalog", has CatalogSeam c); ("WithGates", has Gates c);
   ("WithHostTargets", has HostTargets c); ("WithHostLinkCredential", has HostLinkCredential c);
   ("WithServiceIdentity", serviceSet c); ("WithReplicaID", negb (bool_decide (replicaID c = "")));
   ("WithCSRF", csrfSet c)].

Definition missing (c : config) : list string := (filter (fun r => r.2 = false) (requirements c)).*1.

Definition missingSeams (c : config) : option error :=
  match missing c with
  | [] => None
  | names => Some (MissingSeamsError (merge_sort String.le names))
  end.

Definition hasSessionBinding (c : config) : bool := negb (bool_decide (sessionBinding c = Admission.MkTemplate "" "")).
Definition objectResolver (c : config) : bool := has ObjectStoreResolver c || has SessionObjectStoreResolver c.

(** What the values mean together. *)
Definition conflicts (c : config) : option error :=
  if has UIHandler c && has UIFS c then Some ErrConflictingUI
  else if has ObjectStoreResolver c && has SessionObjectStoreResolver c
  then Some (OptionError "WithSessionObjectStoreResolver" ErrConflictingObjectResolvers)
  else if has ObjectPolicy c && negb (objectResolver c) then Some ErrObjectPolicyWithoutResolver
  else if hasSessionBinding c && negb (objectResolver c) then Some ErrSessionBindingWithoutResolver
  else if negb (Bool.eqb (hasSessionBinding c) (has PublicCreates c)) then Some ErrCreatePlaneIncomplete
  else if has JournalResolver c && has SessionJournalResolver c
  then Some (OptionError "WithSessionJournalResolver" ErrConflictingJournalResolvers)
  else if negb (has JournalResolver c) && negb (has SessionJournalResolver c) && (has PublicCreates c || has PendingCommands c)
  then Some (OptionError "WithSessionJournalResolver" (wrapf [ErrHostSessionsWithoutJournalResolver]))
  else None.

Context `{NetURL}.

Definition named (opt : string) (err : option error) : option error := OptionError opt <$> err.

Definition invalidValues (c : config) : option error :=
  first_failure
    [named "WithCSRF" (CSRFConfig_Validate (csrf c)); named "WithHTTPLimits" (HTTPLimits_Validate (http c));
     named "WithReconcileLimits" (ReconcileLimits_Validate (reconcile c));
     named "WithClientLinkLimits" (ClientLinkLimits_Validate (client c));
     named "WithRouteLimits" (RouteLimits_Validate (route c));
     named "WithHostLinkLimits" (HostLinkLimits_Validate (host c))].

Definition DefaultVersion : string := "factory".

(** The defaults and wrappers; the copy of the CSRF configuration is the same
    value. *)
Definition finalize (c : config) : config :=
  let c := if bool_decide (version c = "") then set_version DefaultVersion c else c in
  let c := if bool_decide (objects c = MkObjectLimits 0 0) then set_objects DefaultObjectLimits c else c in
  let c := match deps c !! UIFS with Some dir => set_seam UIHandler (FileServerFS dir) c | None => c end in
  match deps c !! SessionReader with
  | None => c
  | Some reads =>
      match deps c !! SessionJournalResolver, deps c !! JournalResolver with
      | Some resolve, _ => set_seam SessionReader (resolvedJournals_of reads resolve) c
      | None, Some resolve => set_seam SessionReader (resolvedJournals_of reads (sessionAware_of resolve)) c
      | None, None => c
      end
  end.

(** The part of [New] before the component graph. *)
Definition configure (opts : list Option_) : result config :=
  match namesOnce 0 ∅ opts with
  | Some err => Fail err
  | None =>
      match applyAll opts initial with
      | Fail err => Fail err
      | Ok c =>
          match first_failure [missingSeams c; conflicts c; invalidValues c] with
          | Some err => Fail err
          | None => Ok (finalize c)
          end
      end
  end.
End Options.

(** ** Checks made one after the other *)
Lemma first_failure_none checks : first_failure checks = None <-> Forall (eq None) checks.
Proof.
  unfold first_failure. induction checks as [|[e|] checks IH]; simpl.
  - by split; [constructor|].
  - split; [done|]. by inversion 1.
  - change (omap id (None :: checks)) with (omap id checks). rewrite IH. split; [by constructor|by inversion 1].
Qed.

Lemma refuse_none b : None = refuse b <-> b = false.
Proof. by destruct b. Qed.

Lemma named_none o err : None = named o err <-> err = None.
Proof. by destruct err. Qed.

(** The reading of a list of checks that all passed. *)
Ltac checks_pass :=
  rewrite ?first_failure_none, ?Forall_cons, ?Forall_nil; unfold positive, atLeastDuration, atLeastOne;
  rewrite ?refuse_none, ?orb_false_iff, ?Z.ltb_ge, ?Z.leb_gt.

(** What a validated set of limits orders. *)
Lemma reconcile_limits_valid l :
  ReconcileLimits_Validate l = None <->
  0 < re_Interval l < re_ClaimTTL l /\ re_ClaimTTL l < re_ApplyDeadline l
  /\ 0 < passTimeout l < re_ClaimTTL l /\ 0 <= re_PassTimeout l
  /\ 1 <= re_MaxDuePerSweep l /\ 1 <= re_MaxConcurrent l.
Proof.
  unfold ReconcileLimits_Validate. checks_pass. unfold passTimeout, DefaultReconcileLimits, Second. simpl.
  destruct (Z.eqb_spec (re_PassTimeout l) 0); lia.
Qed.

Lemma client_limits_valid l :
  ClientLinkLimits_Validate l = None <->
  Z.shiftl 64 10 <= MaxMessageBytes l <= Z.shiftl 16 20 /\ 1 <= MaxConnections l /\ 1 <= MaxChannelsPerConnection l
  /\ 1 <= PerConnectionQueueBytes l /\ 0 < WriteTimeout l <= PongTimeout l /\ PongTimeout l < PingInterval l
  /\ Second <= PingInterval l /\ 0 < CommandTimeout l /\ 0 <= DemandReleaseDebounce l
  /\ 0 <= OwnershipPollInterval l /\ 0 < DemandTimeout l.
Proof. unfold ClientLinkLimits_Validate, MinClientLinkPingInterval. checks_pass. lia. Qed.

Lemma host_limits_valid l :
  HostLinkLimits_Validate l = None <->
  1 <= MaxLinks l /\ 0 < DialTimeout l <= IdleTimeout l /\ 0 < ReconnectMin l <= ReconnectMax l.
Proof. unfold HostLinkLimits_Validate. checks_pass. lia. Qed.

(** The composition's limits are at least as strict as those of the packages
    they are handed to. *)
Lemma client_limits_accepted l : ClientLinkLimits_Validate l = None -> ClientLink.Limits_Validate l = None.
Proof.
  rewrite client_limits_valid. intros (?&?&?&?&?&?&?&?&?&?&?). unfold ClientLink.Limits_Validate, MinPingInterval.
  unfold Second in *.
  repeat match goal with |- context [if ?b then _ else _] => replace b with false by lia end. done.
Qed.

Lemma host_limits_accepted l : HostLinkLimits_Validate l = None -> Pool.Validate l = None.
Proof.
  rewrite host_limits_valid. intros (?&?&?). unfold Pool.Validate.
  repeat match goal with |- context [if ?b then _ else _] => replace b with false by lia end. done.
Qed.

(** The defaults are valid. *)
Lemma default_limits_valid :
  HTTPLimits_Validate DefaultHTTPLimits = None /\ ReconcileLimits_Validate DefaultReconcileLimits = None
  /\ ClientLinkLimits_Validate DefaultClientLinkLimits = None /\ RouteLimits_Validate DefaultRouteLimits = None
  /\ HostLinkLimits_Validate DefaultHostLinkLimits = None /\ ObjectLimits_Validate DefaultObjectLimits = None.
Proof. by vm_compute. Qed.

(** ** The options a deployer can build *)
Section Supplied.
Context `{Implementations} (AgentID_Validate : AgentID -> option error).

(** [Option]'s members are not exported: an option is a value of one of these
    functions, or the zero value. *)
Inductive supplied : Option_ -> Prop :=
| supplied_seam d v : d <> UIRoutes -> d <> UIRouteAuthorizer -> supplied (supply d v)
| supplied_routes h authorize : supplied (WithUIRoutes h authorize)
| supplied_stamping : supplied WithPrincipalStamping
| supplied_cookie name : supplied (WithSessionCookieName name)
| supplied_tenant tenant : supplied (WithDefaultTenant tenant)
| supplied_csrf cfg : supplied (WithCSRF cfg)
| supplied_http l : supplied (WithHTTPLimits l)
| supplied_reconcile l : supplied (WithReconcileLimits l)
| supplied_client l : supplied (WithClientLinkLimits l)
| supplied_route l : supplied (WithRouteLimits l)
| supplied_host l : supplied (WithHostLinkLimits l)
| supplied_objects l : supplied (WithObjectLimits l)
| supplied_service p : supplied (WithServiceIdentity p)
| supplied_replica id : supplied (WithReplicaID id)
| supplied_version v : supplied (WithVersion v)
| supplied_department ts : supplied (WithDepartment AgentID_Validate ts)
| supplied_binding sid v : supplied (WithSessionBinding sid v).

Definition run (opt : Option_) (c : config) : result config :=
  match apply opt with None => Ok c | Some apply => apply c end.

Lemma applyAll_cons opt opts c :
  applyAll (opt :: opts) c = match run opt c with Fail err => Fail err | Ok c => applyAll opts c end.
Proof. unfold run. simpl. by destruct (apply opt). Qed.

Lemma seam_option_inj d1 d2 :
  d1 <> UIRoutes -> d1 <> UIRouteAuthorizer -> d2 <> UIRoutes -> d2 <> UIRouteAuthorizer ->
  seam_option d1 = seam_option d2 -> d1 = d2.
Proof. by destruct d1, d2. Qed.

Lemma set_seam_commute d1 v1 d2 v2 c :
  d1 <> d2 -> set_seam d1 v1 (set_seam d2 v2 c) = set_seam d2 v2 (set_seam d1 v1 c).
Proof. intros Hne. destruct c. simpl. f_equal. by rewrite insert_insert_ne. Qed.

(** Whether an option is refused does not depend on the configuration. *)
Lemma refusal_fixed opt c c' err : supplied opt -> run opt c = Fail err -> run opt c' = Fail err.
Proof. intros Hs. destruct Hs; unfold run; simpl; intros; branches; done. Qed.

(** Options of different names write different members. *)
Lemma options_commute o1 o2 c c1 c2 :
  supplied o1 -> supplied o2 -> name o1 <> name o2 -> run o1 c = Ok c1 -> run o2 c1 = Ok c2 ->
  exists c1', run o2 c = Ok c1' /\ run o1 c1' = Ok c2.
Proof.
  intros H1 H2 Hn. destruct H1, H2; unfold run; simpl in *; try done; intros Ha Hb; branches; simplify_eq;
    eexists; (split; [done|]); f_equal; try (by destruct c);
    rewrite ?(set_seam_commute d), ?(set_seam_commute d UIRoutes) by congruence; done.
Qed.

(** A list without repeated names, applied in any order, gives the same. *)
Lemma applyAll_permutation opts opts' c c' :
  opts ≡ₚ opts' -> Forall supplied opts -> NoDup (name <$> opts) ->
  applyAll opts c = Ok c' -> applyAll opts' c = Ok c'.
Proof.
  intros Hp. revert c. induction Hp as [|o l l' _ IH|o1 o2 l|l1 l2 l3 Hp1 IH1 _ IH2]; intros c Hs Hn; [done|..].
  - apply Forall_cons in Hs as [_ Hs]. rewrite fmap_cons, NoDup_cons in Hn. rewrite !applyAll_cons.
    destruct (run o c) as [c0|]; [|done]. by apply IH; [|tauto].
  - rewrite !Forall_cons in Hs. destruct Hs as (H2 & H1 & _). rewrite !fmap_cons, !NoDup_cons in Hn.
    rewrite !applyAll_cons. destruct (run o2 c) as [c2|] eqn:E2; [|done]. rewrite applyAll_cons.
    destruct (run o1 c2) as [c1|] eqn:E1; [|done].
    destruct (options_commute o2 o1 c c2 c1) as (c1' & E1' & E2'); [done|done|set_solver|done|done|].
    by rewrite E1', applyAll_cons, E2'.
  - intros Hc. apply IH2; [by rewrite <- Hp1|by rewrite <- Hp1|by apply IH1].
Qed.

Lemma namesOnce_none i seen opts :
  Forall supplied opts ->
  namesOnce i seen opts = None <-> NoDup (name <$> opts) /\ Forall (fun o => name o ∉ seen) opts.
Proof.
  intros Hs. revert i seen. induction Hs as [|o opts Ho _ IH]; intros i seen; simpl.
  - split; [intros _; split; constructor|done].
  - assert (Ha : is_Some (apply o)) by (destruct Ho; by eexists).
    assert (Hn : name o <> "") by (by destruct Ho as [[]| | | | | | | | | | | | | | | | ]).
    destruct Ha as [f ->]. rewrite bool_decide_false by done. case_bool_decide as Hin.
    + split; [done|]. intros [_ Hf]. by apply Forall_cons in Hf as [? _].
    + rewrite IH, NoDup_cons, Forall_cons, !Forall_forall, list_elem_of_fmap. split.
      * intros [Hnd Hf]. split; [|split; [done|set_solver]]. split; [|done]. intros (o' & Heq & Ho'). specialize (Hf o' Ho'). set_solver.
      * intros [[Hnot Hnd] [_ Hf]]. split; [done|]. intros o' Ho'. specialize (Hf o' Ho').
        rewrite not_elem_of_union, not_elem_of_singleton. split; [|done]. intros Heq. apply Hnot. by exists o'.
Qed.

(** ** What is required *)
Definition required : list string := (requirements initial).*1.

Lemma has_set_seam d d' v c : has d (set_seam d' v c) = has d c || bool_decide (d = d').
Proof.
  destruct c. unfold has. simpl. destruct (decide (d = d')) as [->|Hne].
  - rewrite lookup_insert_eq, (bool_decide_true (d' = d')) by done. rewrite bool_decide_true by done. by rewrite orb_true_r.
  - by rewrite lookup_insert_ne, (bool_decide_false (d = d')), orb_false_r by done.
Qed.

(** An option fills the requirement of its name, and no other. *)
Lemma requirements_run opt c c' :
  supplied opt -> run opt c = Ok c' ->
  requirements c' = (fun r => (r.1, r.2 || bool_decide (r.1 = name opt))) <$> requirements c.
Proof.
  intros Hs. unfold run, requirements.
  destruct Hs; simpl; intros Hr; branches; simplify_eq; rewrite ?has_set_seam; try destruct d; try destruct c; simpl;
    rewrite ?orb_true_r, ?orb_false_r; try done; by match goal with E : bool_decide _ = false |- _ => rewrite E end.
Qed.

Lemma requirements_applyAll opts c c' :
  Forall supplied opts -> applyAll opts c = Ok c' ->
  requirements c' = (fun r => (r.1, r.2 || bool_decide (r.1 ∈ name <$> opts))) <$> requirements c.
Proof.
  intros Hs. revert c. induction Hs as [|o opts Ho _ IH]; intros c Hc.
  - simpl in Hc. simplify_eq. rewrite <- (list_fmap_id (requirements c')) at 1. apply list_fmap_ext.
    intros ? [n b] _. simpl. by rewrite orb_false_r.
  - rewrite applyAll_cons in Hc. destruct (run o c) as [c1|] eqn:E; [|done].
    rewrite (IH _ Hc), (requirements_run _ _ _ Ho E), <- list_fmap_compose. apply list_fmap_ext.
    intros ? [n b] _. simpl. f_equal. destruct b; [done|]. simpl.
    apply Bool.eq_true_iff_eq. rewrite orb_true_iff, !bool_decide_eq_true. set_solver.
Qed.

(** The members no option filled. *)
Lemma missing_applyAll opts c :
  Forall supplied opts -> applyAll opts initial = Ok c ->
  missing c = filter (fun n => n ∉ name <$> opts) required.
Proof.
  intros Hs Hc. unfold missing, required. rewrite (requirements_applyAll _ _ _ Hs Hc).
  assert (Hf : Forall (fun r : string * bool => r.2 = false) (requirements initial)) by (by repeat constructor).
  induction Hf as [|[n b] l Hb _ IH]; [done|]. simpl in Hb. subst b. rewrite !fmap_cons. simpl.
  destruct (decide (n ∈ name <$> opts)) as [Hin|Hin].
  - rewrite filter_cons_False by (simpl; by rewrite bool_decide_true).
    rewrite filter_cons_False by tauto. apply IH.
  - rewrite filter_cons_True by (simpl; by rewrite bool_decide_false).
    rewrite filter_cons_True by done. rewrite fmap_cons. simpl. by rewrite IH.
Qed.
End Supplied.
