(* ===== verification/Sweeping.v ===== *)
(** * The reconcile loop (src/serve.go runSweep and runOnce, src/compose.go sweeps)

    Each sweep of the server runs in a loop of its own: a pass, under its own
    deadline, then the pool's idle links are reaped, then a pause, until the
    server's context is done. A pass is any of the sweepers' programs with the
    state it carries from pass to pass; the loop's other calls are added to the
    pass's. The number of passes is the recursion's measure: a loop that has not
    returned has made all of them, and found its context live in every pause
    ([sweep_loop_passes]). *)

From S2P Require Import Prelude Wire Program Interp AdmissionQueue Identity Bindings Directory Placement Reconciler Pending AdmissionSweep GateSweep Records Options.
Local Open Scope prog_scope.
Local Open Scope Z_scope.

(** [Interval] answers whether the timer fired; the other arm is the context. *)
Inductive loopCall (E : Type -> Type) : Type -> Type :=
| PassCall R (c : E R) : loopCall E R
| StartPass (timeout : Z) : loopCall E unit
| WarnTruncated (name : string) (shard : Z) : loopCall E unit
| ReapIdle : loopCall E unit
| Interval (d : Z) : loopCall E bool.
Arguments PassCall {E} R c.
Arguments StartPass {E} timeout.
Arguments WarnTruncated {E} name shard.
Arguments ReapIdle {E}.
Arguments Interval {E} d.

Section Loop.
Context {E : Type -> Type} {S : Type}.

(** A pass's answer: the shard it left due rows unread in, its error (which the
    loop drops) and the state for the next. *)
Record sweep := MkSweep { sweep_name : string; sweep_run : S -> prog E (option Z * option error * S) }.

Definition warnTruncated (name : string) (unread : option Z) : prog (loopCall E) unit :=
  match unread with Some shard => invoke (WarnTruncated name shard) | None => Ret tt end.

Context (passTimeout interval : Z) (pass : sweep).

Definition runOnce (s : S) : prog (loopCall E) S :=
  call! _ := StartPass passTimeout in
  let! (unread, _, s) := lift (fun R c => PassCall R c) (sweep_run pass s) in
  let! _ := warnTruncated (sweep_name pass) unread in
  call! _ := ReapIdle in
  Ret s.

(** [Some] when it returned. *)
Fixpoint runSweep (passes : nat) (s : S) : prog (loopCall E) (option S) :=
  match passes with
  | O => Ret None
  | Datatypes.S passes =>
      let! s := runOnce s in
      call! fired := Interval interval in
      if fired : bool then runSweep passes s else Ret (Some s)
  end.

(** ** What the loop's calls are *)

(** The calls of one pass, as the loop makes them. *)
Inductive once (Q : list (event E) -> Prop) : list (event (loopCall E)) -> Prop :=
| once_run u warned :
    Q u -> warned = [] \/ (exists shard, warned = [Ev _ (WarnTruncated (sweep_name pass) shard) tt]) ->
    once Q (Ev _ (StartPass passTimeout) tt :: (lift_event (fun R c => PassCall R c) <$> u) ++ warned ++ [Ev _ ReapIdle tt]).

(** Passes with a pause after each; the last pause ends with the context when
    the loop returned. *)
Inductive looped (Q : list (event E) -> Prop) : nat -> bool -> list (event (loopCall E)) -> Prop :=
| looped_none : looped Q 0 false []
| looped_last t : once Q t -> looped Q 1 true (t ++ [Ev _ (Interval interval) false])
| looped_more n returned t u :
    once Q t -> looped Q n returned u -> looped Q (Datatypes.S n) returned (t ++ Ev _ (Interval interval) true :: u).

Context (Q : list (event E) -> Prop) (Hpass : forall s, wp (sweep_run pass s) (fun _ t => Q t)).

Lemma runOnce_once s : wp (runOnce s) (fun _ t => once Q t).
Proof.
  intros []. eapply wp_seq; [apply lift_wp, Hpass|]. intros [[unread err] s'] t (u & -> & HQ). cbv beta iota.
  destruct unread as [shard|]; simpl; intros [].
  - intros []. by apply (once_run Q u [Ev _ (WarnTruncated (sweep_name pass) shard) tt]); [|right; eauto].
  - by apply (once_run Q u []); [|left].
Qed.

(** What every pass keeps the loop keeps pass by pass: whatever the loop is
    answered, it is a sequence of passes, each under the pass timeout, each one
    followed by a reaping of the idle links and a pause of the interval; it
    returns from the first pause that finds the context done, and otherwise has
    made every pass it was given. *)
Theorem sweep_loop_passes passes s :
  wp (runSweep passes s) (fun out t =>
    exists n, looped Q n (bool_decide (is_Some out)) t /\ (n <= passes)%nat /\ (out = None -> n = passes)).
Proof.
  revert s. induction passes as [|passes IH]; intros s; [exists 0%nat; split_and!; [constructor|done|done]|]. cbn [runSweep].
  eapply wp_seq; [apply runOnce_once|]. intros s' t Ht [].
  - eapply wp_mono; [|apply IH]. simpl. intros out u (n & Hu & Hn & Ho). exists (Datatypes.S n).
    split_and!; [by apply looped_more|lia|intros He; by rewrite (Ho He)].
  - exists 1%nat. split_and!; [by apply looped_last|lia|done].
Qed.
End Loop.
Arguments sweep : clear implicits.

(** ** The two deadline sweeps as passes *)
Section Deadlines.
Context `{ControlLimits} (cfg : ReconcilerConfig) (order : gmap sessionKey bool -> list (sessionKey * bool)) (service : Principal).

Definition unread (r : SweepResult) : option Z := if sr_Truncated r then Some (sr_Shard r) else None.

Definition deadlinePass (name : string) (body : Principal -> rotor -> settling (SweepResult * option error * rotor)) : sweep settleCall rotor :=
  MkSweep name (fun r => let! (result, err, r) := body service r in Ret (unread result, err, r)).

Definition commandsPass : sweep settleCall rotor := deadlinePass "commands" (LegacySweep cfg order).
Definition dispositionsPass : sweep settleCall rotor := deadlinePass "dispositions" (DispositionSweep cfg order).

(** ** The other three: a gate sweep, the target half of a record sweep, and the
    placement sweep, which is composed with its placers. *)
Definition gatesPass (gates : GateSweeperConfig) : sweep gateCall PendingSweeper :=
  MkSweep "gates" (fun s =>
    let! (result, err, s) := GateSweep gates service s in
    Ret (if gs_Truncated result then Some (gs_Shard result) else None, err, s)).

Definition recordsPass (records : SweeperConfig) : sweep recordCall Cursor :=
  MkSweep "records" (fun cursor => let! (_, err, cursor) := SweepTargets records cursor in Ret (None, err, cursor)).

Definition placementPass (pending : PendingSweeperConfig) : sweep (sweepCall Principal) PendingSweeper :=
  MkSweep "placement" (fun s =>
    let! (out, s) := Sweep pending service s in
    Ret (if Pending.Truncated out.1 then Some (Pending.Shard out.1) else None, out.2, s)).

(** A pass whose calls are licensed. *)
Definition licensed_pass (t : list (event settleCall)) : Prop := exists result err, sweep_ok cfg result err t.

(** Every pass of both loops, however many there are and whatever they are
    answered, rejects only what its own listing, instant and claims license, and
    gives every claim it took back before the next pass begins. *)
Theorem deadline_loops_are_licensed passTimeout interval passes r (Ho : forall m, order m ≡ₚ map_to_list m) :
  wp (runSweep passTimeout interval dispositionsPass passes r)
    (fun out t => exists n, looped passTimeout interval dispositionsPass licensed_pass n (bool_decide (is_Some out)) t /\ (n <= passes)%nat) /\
  wp (runSweep passTimeout interval commandsPass passes r)
    (fun out t => exists n, looped passTimeout interval commandsPass licensed_pass n (bool_decide (is_Some out)) t /\ (n <= passes)%nat).
Proof.
  split; (eapply wp_mono; [|apply (sweep_loop_passes _ _ _ licensed_pass)]); try (intros out t (n & ? & ? & _); by exists n).
  - intros s. eapply wp_seq; [by apply DispositionSweep_ok|]. intros [[result err] s'] t Ht. simpl. rewrite app_nil_r. by exists result, err.
  - intros s. eapply wp_seq; [by apply LegacySweep_ok|]. intros [[result err] s'] t Ht. simpl. rewrite app_nil_r. by exists result, err.
Qed.
End Deadlines.
