(* ===== verification/Deploy.v ===== *)
(** * The deployment example and its validator
    (src/examples/deploy/wiring/cmd/validate/main.go, src/examples/deploy/wiring/wiring.go)

    [validate] reads the documents of a Kubernetes manifest and the text of the
    wiring package and lists what it finds wrong; the YAML decoder is a
    third-party package, so the documents it yields are its argument, and the
    map entries come in the order the iteration meets them. The patterns are
    expressions of [Regex]. [Open] assembles the storage of a deployment and
    [ClientLimits] its admission limits. *)

From S2P Require Import Prelude Wire Framing Text JsonText Regex Program ClientLink HttpErrors Options.
Local Open Scope prog_scope.
Local Open Scope string_scope.
Local Open Scope Z_scope.

(** ** Decoded YAML *)

(** What [yaml.Decoder] puts into an [any]; [YOther] is a float or a timestamp. *)
Inductive yaml :=
| YNull | YBool (b : bool) | YInt (n : Z) | YOther (text : string) | YString (s : string)
| YSeq (l : list yaml) | YMap (m : list (yaml * yaml)).

Definition object (v : yaml) : list (yaml * yaml) := match v with YMap m => m | _ => [] end.

Definition is_string (s : string) (v : yaml) : bool := match v with YString t => bool_decide (t = s) | _ => false end.
Definition is_int (n : Z) (v : yaml) : bool := match v with YInt m => m =? n | _ => false end.
Definition is_true (v : yaml) : bool := match v with YBool b => b | _ => false end.
Definition is_nil (v : yaml) : bool := match v with YNull => true | _ => false end.

Fixpoint index (key : string) (m : list (yaml * yaml)) : yaml :=
  match m with [] => YNull | (k, x) :: m => if is_string key k then x else index key m end.

Definition field (v : yaml) (path : list string) : yaml := fold_left (fun v key => index key (object v)) path v.

Definition entries (v : yaml) : list yaml := match v with YSeq l => l | _ => [] end.

Definition present (v : yaml) : bool :=
  match v with YNull => false | YString s => negb (bool_decide (s = "")) | _ => true end.

Definition text (v : yaml) : string := match v with YString s => s | _ => "" end.
Definition int_of (v : yaml) : Z := match v with YInt n => n | _ => 0 end.

(** ** Patterns *)
Definition sequence (l : list regex) : regex := fold_right Seq Eps l.
Definition lit (s : string) : regex := sequence ((fun r => Class [(r, r)]) <$> runes s).

(** [(?i)] on a lower-case ASCII letter: its two cases, and the code points that
    fold to it (U+017F to s, U+212A to k). *)
Definition fold_class (r : Z) : class :=
  ([(r, r); (r - 32, r - 32)] ++ (if r =? 115 then [(383, 383)] else if r =? 107 then [(8490, 8490)] else []))%list.
Definition word (s : string) : regex := sequence ((fun r => Class (fold_class r)) <$> runes s).

Definition opt (e : regex) : regex := Alt e Eps.
Definition dot : regex := Class [(0, 9); (11, 1114111)].
Definition sp : regex := Star (Class [(9, 10); (12, 13); (32, 32)]).

Definition secretField : regex :=
  fold_right Alt Void
    [word "password"; sequence [word "secret"; opt dot; word "key"]; sequence [word "access"; opt dot; word "key"];
     word "credential"; word "token"; word "dsn"].

Definition wiringChecks : list (regex * string) :=
  [(sequence [lit "PerConnectionQueueBytes"; sp; lit "="; sp; lit "1"; sp; lit "<<"; sp; lit "20"], "missing finite per-connection byte queue");
   (sequence [lit "MaxConnections"; sp; lit "="; sp; lit "maxConnections"], "missing per-replica admission bound");
   (sequence [lit "MaxConcurrentTransfers"; sp; lit ":"; sp; Class [(49, 57)]; Star (Class [(48, 57)])], "missing S3 transfer bound");
   (sequence [lit "RequireConfirmedEncryption"; sp; lit ":"; sp; lit "true"], "S3 encryption confirmation missing");
   (sequence [lit "Encryption"; sp; lit ":"; sp; lit "s3store.EncryptionKMS"], "S3 KMS encryption missing");
   (sequence [lit "Migrations"; sp; lit ":"; sp; lit "pgstore.MigrationValidate"], "replicas must validate migrations");
   (sequence [lit "DeploymentPrefix"; sp; lit ":"; sp; lit "cfg.DeploymentPrefix"], "shared S3 deployment prefix missing")].

(** [strings.Contains(strings.ToLower(name), "hostlink")]: the code points that
    lower to one of its letters are the upper-case ones, U+0130 to i and U+212A
    to k. *)
Definition lowered (r : Z) : regex :=
  Class ([(r, r); (r - 32, r - 32)] ++ (if r =? 105 then [(304, 304)] else if r =? 107 then [(8490, 8490)] else []))%list.
Definition namesHostLink (name : string) : bool := MatchString (sequence (lowered <$> runes "hostlink")) name.

(** ** The checks *)
Definition check (failed : bool) (message : string) : list string := if failed then [message] else [].

Definition secretLiteral (k x : yaml) : list string :=
  match k, x with
  | YString key, YString s => check (MatchString secretField key && present x) ("literal secret field " +:+ key)
  | _, _ => []
  end.

Fixpoint secretLiterals (v : yaml) : list string :=
  match v with
  | YMap m => flat_map (fun kx => match kx with (k, x) => (secretLiteral k x ++ secretLiterals x)%list end) m
  | YSeq l => flat_map secretLiterals l
  | _ => []
  end.

(** The loop over the documents: [inl] is a decoding error's text. *)
Inductive decoded := Invalid (message : string) | Decoded (deployment service : yaml) (count : Z) (findings : list string).

Fixpoint decodeLoop (documents : list (string + yaml)) (deployment service : yaml) (count : Z) (findings : list string) : decoded :=
  match documents with
  | [] => Decoded deployment service count findings
  | inl err :: _ => Invalid ("invalid YAML: " +:+ err)
  | inr YNull :: documents => decodeLoop documents deployment service count findings
  | inr doc :: documents =>
      let count := count + 1 in
      let findings := (findings ++ secretLiterals doc)%list in
      let kind := field doc ["kind"] in
      if is_string "Deployment" kind then
        decodeLoop documents doc service count (findings ++ check (negb (is_nil deployment)) "duplicate Deployment")
      else if is_string "Service" kind then
        decodeLoop documents deployment doc count (findings ++ check (negb (is_nil service)) "duplicate Service")
      else decodeLoop documents deployment service count (findings ++ ["unexpected Kubernetes resource"])
  end.

Definition resourceFindings (container : yaml) : list string :=
  flat_map (fun kind => flat_map (fun resource =>
    check (negb (present (field container ["resources"; kind; resource]))) ("missing " +:+ kind +:+ " " +:+ resource +:+ " bound"))
    ["cpu"; "memory"]) ["requests"; "limits"].

Definition envFindings (env : yaml) : list string :=
  let name := text (field env ["name"]) in
  check (MatchString secretField name && present (field env ["value"])) ("literal credential in env " +:+ name).

Definition portFindings (port : yaml) : list string :=
  (check (namesHostLink (text (field port ["name"]))) "HostLink pod port" ++
   check (present (field port ["hostPort"])) "hostPort exposes the pod")%list.

Definition containerFindings (container : yaml) : list string :=
  (resourceFindings container ++ flat_map envFindings (entries (field container ["env"])) ++
   flat_map portFindings (entries (field container ["ports"])))%list.

Definition podFindings (deployment : yaml) : list string :=
  let pod := field deployment ["spec"; "template"; "spec"] in
  let containers := entries (field pod ["containers"]) in
  (check (negb (is_int 2 (field deployment ["spec"; "replicas"]))) "Factory replica count must be two" ++
   check (present (field pod ["affinity"])) "Factory must not require affinity" ++
   check (is_true (field pod ["hostNetwork"])) "hostNetwork exposes the pod" ++
   check (int_of (field pod ["terminationGracePeriodSeconds"]) <? 60) "termination grace below 60 seconds" ++
   check (negb (Nat.eqb (length containers) 1)) "expected one Factory container" ++
   flat_map containerFindings containers)%list.

Definition serviceFindings (service : yaml) : list string :=
  (check (negb (is_string "ClusterIP" (field service ["spec"; "type"]))) "Service must be ClusterIP" ++
   check (negb (Nat.eqb (length (entries (field service ["spec"; "externalIPs"]))) 0)) "Service externalIPs expose Factory" ++
   flat_map (fun port => check (namesHostLink (text (field port ["name"]))) "public HostLink exposure")
     (entries (field service ["spec"; "ports"])))%list.

Definition wiringFindings (wiring : string) : list string :=
  flat_map (fun '(pattern, message) => check (negb (MatchString pattern wiring)) message) wiringChecks.

Definition validate (documents : list (string + yaml)) (wiring : string) : list string :=
  match decodeLoop documents YNull YNull 0 [] with
  | Invalid message => [message]
  | Decoded deployment service count findings =>
      if negb (count =? 2) || is_nil deployment || is_nil service
      then (findings ++ ["expected exactly one Deployment and one Service"])%list
      else (findings ++ podFindings deployment ++ serviceFindings service ++ wiringFindings wiring)%list
  end.

(** ** [Open] and [ClientLimits] *)
Record WiringConfig := MkWiringConfig {
  PostgresDSN : string; S3Endpoint : string; S3Region : string; S3Bucket : string; DeploymentPrefix : string; KMSKeyID : string }.

Record pgOptions := MkPgOptions { DSN : string; MaxConns : Z; StatementTimeout : Z; LockTimeout : Z; MigrationValidate : bool }.
Record s3Options := MkS3Options {
  Endpoint : string; Region : string; Bucket : string; Prefix : string; EncryptionKMS : bool; KeyID : string;
  RequireConfirmedEncryption : bool; MaxConcurrentTransfers : Z }.

(** The calls of the providers and of the startup context; a pool, an object
    store and a composite by name. *)
Inductive opening : Type -> Type :=
| Deadline : opening bool
| ContextErr : opening (option error)
| OpenPostgres (options : pgOptions) : opening (result string)
| OpenS3 (options : s3Options) : opening (result string)
| Compose (pg blobs : string) : opening (result string)
| ClosePostgres (pg : string) : opening unit.

Definition ErrNoDeadline : error := sentinel "deployment wiring: startup context needs a deadline".

Definition Open (cfg : WiringConfig) : prog opening (result (string * string)) :=
  call! bounded := Deadline in
  if negb bounded then Ret (Fail ErrNoDeadline)
  else
    call! err := ContextErr in
    match err with
    | Some err => Ret (Fail err)
    | None =>
        call! pg := OpenPostgres (MkPgOptions (PostgresDSN cfg) 10 (10 * Second) (5 * Second) true) in
        match pg with
        | Fail err => Ret (Fail (wrapf [err]))
        | Ok pg =>
            call! blobs := OpenS3 (MkS3Options (S3Endpoint cfg) (S3Region cfg) (S3Bucket cfg) (DeploymentPrefix cfg) true (KMSKeyID cfg) true 4) in
            match blobs with
            | Fail err => call! _ := ClosePostgres pg in Ret (Fail (wrapf [err]))
            | Ok blobs =>
                call! backend := Compose pg blobs in
                match backend with
                | Fail err => call! _ := ClosePostgres pg in Ret (Fail (wrapf [err]))
                | Ok backend =>
                    call! err := ContextErr in
                    match err with
                    | Some err => call! _ := ClosePostgres pg in Ret (Fail err)
                    | None => Ret (Ok (backend, pg))
                    end
                end
            end
        end
    end.

Definition ClientLimits (maxConnections : Z) : result ClientLinkLimits :=
  let d := DefaultClientLinkLimits in
  let limits := {|
    MaxMessageBytes := MaxMessageBytes d; MaxConnections := maxConnections; MaxChannelsPerConnection := 256;
    PerConnectionQueueBytes := Z.shiftl 1 20; WriteTimeout := WriteTimeout d; PingInterval := PingInterval d;
    PongTimeout := PongTimeout d; CommandTimeout := CommandTimeout d; DemandReleaseDebounce := DemandReleaseDebounce d;
    OwnershipPollInterval := OwnershipPollInterval d; DemandTimeout := DemandTimeout d |} in
  match ClientLinkLimits_Validate limits with Some err => Fail err | None => Ok limits end.

(** * Proofs *)

(** The pools [Open] opened and those it closed, in order. *)
Definition opened (t : list (event opening)) : list string :=
  flat_map (fun e : event opening => match e with Ev _ (OpenPostgres _) (Ok pg) => [pg] | _ => [] end) t.
Definition closed_ (t : list (event opening)) : list string :=
  flat_map (fun e : event opening => match e with Ev _ (ClosePostgres pg) _ => [pg] | _ => [] end) t.

(** Whatever the providers answer, [Open] leaves no connection pool behind: it
    opens at most one, and that one is returned open or closed exactly once. *)
Theorem open_leaves_no_pool cfg :
  wp (Open cfg) (fun out t =>
    match out with
    | Ok (_, pg) => opened t = [pg] /\ closed_ t = []
    | Fail _ => closed_ t = opened t /\ (length (opened t) <= 1)%nat
    end).
Proof.
  unfold Open. intros []; [|simpl; split; [done|lia]]. intros [err|]; [simpl; split; [done|lia]|]. intros [pg|err]; [|simpl; split; [done|lia]].
  intros [blobs|err]; [|intros []; simpl; split; [done|lia]]. intros [backend|err]; [|intros []; simpl; split; [done|lia]].
  intros [err|]; [intros []; simpl; split; [done|lia]|]. done.
Qed.

(** The limits are refused exactly for a bound below one. *)
Lemma wiring_limits_accepted n : (exists l, ClientLimits n = Ok l) <-> 1 <= n.
Proof.
  unfold ClientLimits, ClientLinkLimits_Validate. cbn [MaxConnections]. unfold atLeastOne at 1.
  destruct (Z.ltb_spec n 1); vm_compute refuse; split; try lia; [by intros [l Hl]; vm_compute in Hl|]. intros _. eexists. by vm_compute.
Qed.

(** ** What a manifest without findings is *)
Inductive within (v : yaml) : yaml -> Prop :=
| w_here : within v v
| w_map m k x : (k, x) ∈ m -> within v x -> within v (YMap m)
| w_seq l x : x ∈ l -> within v x -> within v (YSeq l).

(** The text has a part the expression describes. *)
Definition mentions (e : regex) (s : string) : Prop := exists u w v, runes s = (u ++ w ++ v)%list /\ matches e w.

Definition no_literal_secret (doc : yaml) : Prop :=
  forall m key s, within (YMap m) doc -> (YString key, YString s) ∈ m -> s <> "" -> ~ mentions secretField key.

Lemma mentions_iff e s : MatchString e s = true <-> mentions e s.
Proof. apply MatchString_found. Qed.

Lemma mentions_not e s : MatchString e s = false <-> ~ mentions e s.
Proof. rewrite <- mentions_iff. by destruct (MatchString e s). Qed.

Lemma check_nil b m : check b m = [] <-> b = false.
Proof. by destruct b. Qed.

Lemma app_none {A} (l k : list A) : (l ++ k)%list = [] <-> l = [] /\ k = [].
Proof. split; [apply app_eq_nil|by intros [-> ->]]. Qed.

Lemma flat_map_nil {A B} (f : A -> list B) l : flat_map f l = [] <-> Forall (fun x => f x = []) l.
Proof. induction l as [|x l IH]; simpl; [by split|]. by rewrite app_none, Forall_cons, IH. Qed.

(** Induction over nested documents. *)
Lemma yaml_nested (P : yaml -> Prop) :
  (forall v, (forall l, v <> YSeq l) -> (forall m, v <> YMap m) -> P v) ->
  (forall l, Forall P l -> P (YSeq l)) -> (forall m, Forall (fun kx => P kx.2) m -> P (YMap m)) -> forall v, P v.
Proof.
  intros Hs Hl Hm. fix IH 1. intros []; try (by apply Hs).
  - apply Hl. induction l; constructor; auto.
  - apply Hm. induction m as [|[k x] m IHm]; constructor; [apply IH|done].
Qed.

Lemma secretLiteral_nil k x :
  secretLiteral k x = [] <-> forall key s, k = YString key -> x = YString s -> s <> "" -> ~ mentions secretField key.
Proof.
  destruct k; try (by split; [intros _ ? ? [=]|]). destruct x; try (by split; [intros _ ? ? _ [=]|]). unfold secretLiteral, present.
  rewrite check_nil, andb_false_iff, mentions_not, negb_false_iff, bool_decide_eq_true. split.
  - intros [?|?] key t [= <-] [= <-]; done.
  - intros Hn. destruct (decide (s0 = "")) as [|Hne]; [by right|]. left. by eapply Hn.
Qed.

Lemma secretLiterals_nil v : secretLiterals v = [] <-> no_literal_secret v.
Proof.
  unfold no_literal_secret. induction v as [v Hl Hm|l IH|m IH] using yaml_nested; simpl.
  - split; [|destruct v; naive_solver]. intros _ m key s Hw. exfalso. inversion Hw; subst; naive_solver.
  - rewrite flat_map_nil, Forall_forall. rewrite Forall_forall in IH. split.
    + intros Hn m key s Hw. inversion Hw as [| |? x Hx Hw']; subst. by apply (proj1 (IH x Hx) (Hn x Hx)).
    + intros Hn x Hx. apply (IH x Hx). intros m key s Hw. apply (Hn m). by apply (w_seq _ _ x).
  - rewrite flat_map_nil, Forall_forall. rewrite Forall_forall in IH. split.
    + intros Hn m' key s Hw Hin. inversion Hw as [|? k x Hx Hw'|]; subst.
      * specialize (Hn _ Hin). simpl in Hn. apply app_none in Hn as [Hn _]. by apply (proj1 (secretLiteral_nil (YString key) (YString s)) Hn key s).
      * specialize (Hn _ Hx). simpl in Hn. apply app_none in Hn as [_ Hn]. by apply (proj1 (IH _ Hx) Hn m').
    + intros Hn [k x] Hx. apply app_none. split.
      * apply secretLiteral_nil. intros key s -> ->. by apply (Hn m key s); [constructor|].
      * apply (IH _ Hx). intros m' key s Hw. apply (Hn m'). by apply (w_map _ _ k x).
Qed.

(** The pod and the Service, in the words of the messages. *)
Record sound_container (container : yaml) : Prop := {
  sc_bounds : forall kind resource, kind ∈ ["requests"; "limits"] -> resource ∈ ["cpu"; "memory"] ->
    present (field container ["resources"; kind; resource]) = true;
  sc_env : forall env, env ∈ entries (field container ["env"]) ->
    mentions secretField (text (field env ["name"])) -> present (field env ["value"]) = false;
  sc_ports : forall port, port ∈ entries (field container ["ports"]) ->
    namesHostLink (text (field port ["name"])) = false /\ present (field port ["hostPort"]) = false
}.

Record sound_deployment (d : yaml) : Prop := {
  sd_replicas : field d ["spec"; "replicas"] = YInt 2;
  sd_affinity : present (field d ["spec"; "template"; "spec"; "affinity"]) = false;
  sd_network : field d ["spec"; "template"; "spec"; "hostNetwork"] <> YBool true;
  sd_grace : exists n, field d ["spec"; "template"; "spec"; "terminationGracePeriodSeconds"] = YInt n /\ 60 <= n;
  sd_container : exists c, entries (field d ["spec"; "template"; "spec"; "containers"]) = [c] /\ sound_container c
}.

Record sound_service (s : yaml) : Prop := {
  ss_type : field s ["spec"; "type"] = YString "ClusterIP";
  ss_external : entries (field s ["spec"; "externalIPs"]) = [];
  ss_ports : forall port, port ∈ entries (field s ["spec"; "ports"]) -> namesHostLink (text (field port ["name"])) = false
}.

Record deployable (documents : list yaml) (wiring : string) : Prop := {
  dp_secrets : Forall no_literal_secret documents;
  dp_resources : exists d s, filter (fun doc => is_nil doc = false) documents ≡ₚ [d; s] /\
    field d ["kind"] = YString "Deployment" /\ field s ["kind"] = YString "Service" /\ sound_deployment d /\ sound_service s;
  dp_wiring : Forall (fun c => mentions c.1 wiring) wiringChecks
}.

Lemma is_string_iff s v : is_string s v = true <-> v = YString s.
Proof. destruct v; simpl; try (by split). rewrite bool_decide_eq_true. split; [by intros ->|by intros [= ->]]. Qed.
Lemma is_int_iff n v : is_int n v = true <-> v = YInt n.
Proof. destruct v; simpl; try (by split). rewrite Z.eqb_eq. split; [by intros ->|by intros [= ->]]. Qed.
Lemma is_true_iff v : is_true v = true <-> v = YBool true.
Proof. destruct v; simpl; try (by split). split; [by intros ->|by intros [= ->]]. Qed.
Lemma is_nil_iff v : is_nil v = true <-> v = YNull.
Proof. destruct v; by split. Qed.

Lemma containerFindings_nil c : containerFindings c = [] <-> sound_container c.
Proof.
  unfold containerFindings, resourceFindings. rewrite !app_none, !flat_map_nil, !Forall_forall. split.
  - intros (Hb & He & Hp). split.
    + intros kind resource Hk Hr. specialize (Hb _ Hk). rewrite flat_map_nil, Forall_forall in Hb.
      specialize (Hb _ Hr). rewrite check_nil in Hb. by apply negb_false_iff in Hb.
    + intros env Hin Hm. specialize (He _ Hin). unfold envFindings in He. rewrite check_nil in He.
      by rewrite (proj2 (mentions_iff _ _) Hm) in He.
    + intros port Hin. specialize (Hp _ Hin). unfold portFindings in Hp. by rewrite app_none, !check_nil in Hp.
  - intros [Hb He Hp]. split_and!.
    + intros kind Hk. rewrite flat_map_nil, Forall_forall. intros resource Hr. by rewrite check_nil, Hb.
    + intros env Hin. unfold envFindings. rewrite check_nil, andb_false_iff.
      destruct (MatchString secretField _) eqn:Hm; [right|by left]. apply (He _ Hin). by apply mentions_iff.
    + intros port Hin. unfold portFindings. rewrite app_none, !check_nil. by apply Hp.
Qed.

Lemma podFindings_nil d : podFindings d = [] <-> sound_deployment d.
Proof.
  unfold podFindings. cbv zeta. rewrite !app_none, !check_nil, negb_false_iff, is_int_iff, Z.ltb_ge, negb_false_iff, Nat.eqb_eq, flat_map_nil. split.
  - intros (Hr & Ha & Hn & Hg & Hl & Hc). split; [done|done| | |].
    + intros He%is_true_iff. change (field d ["spec"; "template"; "spec"; "hostNetwork"]) with (field (field d ["spec"; "template"; "spec"]) ["hostNetwork"]) in He.
      congruence.
    + exists (int_of (field (field d ["spec"; "template"; "spec"]) ["terminationGracePeriodSeconds"])). split; [|done].
      change (field d ["spec"; "template"; "spec"; "terminationGracePeriodSeconds"])
        with (field (field d ["spec"; "template"; "spec"]) ["terminationGracePeriodSeconds"]).
      destruct (field _ ["terminationGracePeriodSeconds"]); simpl in *; [lia..|done|lia|lia|lia|lia].
    + change (field d ["spec"; "template"; "spec"; "containers"]) with (field (field d ["spec"; "template"; "spec"]) ["containers"]).
      destruct (entries _) as [|c [|]]; try done. exists c. split; [done|]. apply containerFindings_nil. by inversion Hc.
  - intros [Hr Ha Hn (n & Hg & Hle) (c & Hc & Hs)]. split_and!; [done|done| | | |].
    + destruct (is_true _) eqn:He; [|done]. by apply is_true_iff in He.
    + change (field d ["spec"; "template"; "spec"; "terminationGracePeriodSeconds"])
        with (field (field d ["spec"; "template"; "spec"]) ["terminationGracePeriodSeconds"]) in Hg. by rewrite Hg.
    + by change (entries (field (field d ["spec"; "template"; "spec"]) ["containers"]) = [c]) in Hc; rewrite Hc.
    + change (entries (field (field d ["spec"; "template"; "spec"]) ["containers"]) = [c]) in Hc. rewrite Hc.
      constructor; [|done]. by apply containerFindings_nil.
Qed.

Lemma serviceFindings_nil s : serviceFindings s = [] <-> sound_service s.
Proof.
  unfold serviceFindings. rewrite !app_none, !check_nil, negb_false_iff, is_string_iff, negb_false_iff, Nat.eqb_eq, length_zero_iff_nil, flat_map_nil, Forall_forall.
  setoid_rewrite check_nil. split; [intros (? & ? & ?); by split|by intros [? ? ?]].
Qed.

Lemma wiringFindings_nil wiring : wiringFindings wiring = [] <-> Forall (fun c => mentions c.1 wiring) wiringChecks.
Proof.
  unfold wiringFindings. rewrite flat_map_nil. apply Forall_iff. intros [pattern message]. by rewrite check_nil, negb_false_iff, mentions_iff.
Qed.

(** ** The documents *)

(** A decoding error ends the validation with its message. *)
Lemma documents_cases (documents : list (string + yaml)) :
  (exists docs, documents = inr <$> docs) \/ exists docs err rest, documents = ((inr <$> docs) ++ inl err :: rest)%list.
Proof.
  induction documents as [|[err|doc] documents IH]; [by left; exists []|right; by exists [], err, documents|].
  destruct IH as [[docs ->]|(docs & err & rest & ->)]; [left; by exists (doc :: docs)|right; by exists (doc :: docs), err, rest].
Qed.

Lemma decode_invalid docs err rest : forall d s n fs,
  decodeLoop ((inr <$> docs) ++ inl err :: rest) d s n fs = Invalid ("invalid YAML: " +:+ err).
Proof. induction docs as [|doc docs IH]; intros; simpl; [done|]. destruct doc; try apply IH; repeat case_match; apply IH. Qed.

Abbreviation resources := (filter (fun doc => is_nil doc = false)).

Lemma decode_skips docs : forall d s n fs, decodeLoop (inr <$> docs) d s n fs = decodeLoop (inr <$> resources docs) d s n fs.
Proof.
  induction docs as [|doc docs IH]; intros; [done|]. destruct (is_nil doc) eqn:Hn.
  - rewrite filter_cons_False by congruence. apply is_nil_iff in Hn as ->. simpl. apply IH.
  - rewrite filter_cons_True by done. simpl. destruct doc; try done; repeat case_match; apply IH.
Qed.

Lemma decode_count docs : forall d s n fs, Forall (fun doc => is_nil doc = false) docs ->
  exists d' s' fs', decodeLoop (inr <$> docs) d s n fs = Decoded d' s' (n + Z.of_nat (length docs)) fs'.
Proof.
  induction docs as [|doc docs IH]; intros d s n fs Hd; [simpl; rewrite Z.add_0_r; eauto|]. apply Forall_cons in Hd as [Hn Hd].
  assert (n + Z.of_nat (length (doc :: docs)) = n + 1 + Z.of_nat (length docs)) as -> by (simpl; lia). simpl.
  destruct doc; try done; repeat case_match; by apply IH.
Qed.

(** One resource, when nothing is wrong with it so far. *)
Definition step_of (doc d s : yaml) : option (yaml * yaml) :=
  if is_string "Deployment" (field doc ["kind"]) then if is_nil d then Some (doc, s) else None
  else if is_string "Service" (field doc ["kind"]) then if is_nil s then Some (d, doc) else None
  else None.

Lemma decode_step doc docs d s n fs : is_nil doc = false ->
  match step_of doc d s with
  | Some (d', s') => decodeLoop (inr doc :: docs) d s n fs = decodeLoop docs d' s' (n + 1) (fs ++ secretLiterals doc)
  | None => exists d' s' f fs', decodeLoop (inr doc :: docs) d s n fs = decodeLoop docs d' s' (n + 1) (fs ++ f :: fs')
  end.
Proof.
  intros Hn. unfold step_of.
  assert (Hstep : decodeLoop (inr doc :: docs) d s n fs =
    if is_string "Deployment" (field doc ["kind"]) then
      decodeLoop docs doc s (n + 1) ((fs ++ secretLiterals doc) ++ check (negb (is_nil d)) "duplicate Deployment")
    else if is_string "Service" (field doc ["kind"]) then
      decodeLoop docs d doc (n + 1) ((fs ++ secretLiterals doc) ++ check (negb (is_nil s)) "duplicate Service")
    else decodeLoop docs d s (n + 1) ((fs ++ secretLiterals doc) ++ ["unexpected Kubernetes resource"])) by (by destruct doc).
  assert (Hcons : forall m, exists f fs', ((fs ++ secretLiterals doc) ++ [m])%list = (fs ++ f :: fs')%list).
  { intros m. rewrite <- app_assoc. destruct (secretLiterals doc ++ [m])%list as [|f fs'] eqn:He; [by apply app_none in He as [_ ?]|eauto]. }
  rewrite Hstep. repeat case_match; simplify_eq; rewrite ?app_nil_r; try done;
    match goal with |- context [(_ ++ check _ ?m)%list] => destruct (Hcons m) as (f & fs' & Hf) | |- context [[?m]] => destruct (Hcons m) as (f & fs' & Hf) end.
  all: simpl; rewrite Hf; eauto.
Qed.

(** Findings are only ever added. *)
Lemma decode_grows docs : forall d s n fs d' s' c fs', decodeLoop docs d s n fs = Decoded d' s' c fs' -> exists more, fs' = (fs ++ more)%list.
Proof.
  induction docs as [|[err|doc] docs IH]; intros d s n fs d' s' c fs' Hd; simpl in Hd; [exists []; rewrite app_nil_r; by simplify_eq|done|].
  assert (Hmore : forall d s n m, decodeLoop docs d s n ((fs ++ secretLiterals doc) ++ m) = Decoded d' s' c fs' -> exists more, fs' = (fs ++ more)%list).
  { intros ? ? ? m Hm. apply IH in Hm as [more ->]. rewrite <- !app_assoc. eauto. }
  destruct doc; try (by eapply IH); repeat case_match; by eapply Hmore.
Qed.

(** A resource that takes its place, or a finding. *)
Lemma decode_clean doc docs d s n fs d' s' c : is_nil doc = false ->
  decodeLoop (inr doc :: docs) d s n fs = Decoded d' s' c [] ->
  exists d1 s1, step_of doc d s = Some (d1, s1) /\ secretLiterals doc = [] /\ decodeLoop docs d1 s1 (n + 1) [] = Decoded d' s' c [].
Proof.
  intros Hn Hd. pose proof (decode_step doc docs d s n fs Hn) as Hs. destruct (step_of doc d s) as [[d1 s1]|].
  - rewrite Hd in Hs. symmetry in Hs. destruct (decode_grows _ _ _ _ _ _ _ _ _ Hs) as [more Hm].
    symmetry in Hm. apply app_none in Hm as [[-> Hl]%app_none _]. exists d1, s1. rewrite Hl in Hs. done.
  - destruct Hs as (d1 & s1 & f & fs' & Hs). rewrite Hd in Hs. symmetry in Hs. destruct (decode_grows _ _ _ _ _ _ _ _ _ Hs) as [more Hm].
    symmetry in Hm. by apply app_none in Hm as [[_ [=]]%app_none _].
Qed.

Abbreviation kind_is doc k := (field doc ["kind"] = YString k).

Lemma step_inv doc d s d1 s1 : step_of doc d s = Some (d1, s1) ->
  (kind_is doc "Deployment" /\ d = YNull /\ d1 = doc /\ s1 = s) \/ (kind_is doc "Service" /\ s = YNull /\ d1 = d /\ s1 = doc).
Proof.
  unfold step_of. destruct (is_string "Deployment" _) eqn:Hd.
  - destruct (is_nil d) eqn:Hn; [|done]. intros [= <- <-]. left. apply is_string_iff in Hd. by apply is_nil_iff in Hn.
  - destruct (is_string "Service" _) eqn:Hs; [|done]. destruct (is_nil s) eqn:Hn; [|done]. intros [= <- <-]. right.
    apply is_string_iff in Hs. by apply is_nil_iff in Hn.
Qed.

Lemma kind_resource doc k : kind_is doc k -> is_nil doc = false.
Proof. by destruct doc. Qed.

(** The two resources in either order. *)
Lemma decode_pair docs d s : docs ≡ₚ [d; s] -> kind_is d "Deployment" -> kind_is s "Service" ->
  Forall (fun doc => secretLiterals doc = []) docs -> decodeLoop (inr <$> docs) YNull YNull 0 [] = Decoded d s 2 [].
Proof.
  intros Hp Hd Hs Hl. pose proof (kind_resource _ _ Hd) as Hnd. pose proof (kind_resource _ _ Hs) as Hns.
  assert (Hsd : forall s', step_of d YNull s' = Some (d, s')) by (intros s'; unfold step_of; by rewrite Hd).
  assert (Hss : forall d', step_of s d' YNull = Some (d', s)) by (intros d'; unfold step_of; by rewrite Hs).
  apply Permutation_sym, Permutation_length_2_inv in Hp as [->| ->]; apply Forall_cons in Hl as [Ha [Hb _]%Forall_cons]; cbn [fmap list_fmap].
  - pose proof (decode_step d [inr s] YNull YNull 0 [] Hnd) as H1. rewrite Hsd, Ha in H1. rewrite H1.
    pose proof (decode_step s [] d YNull 1 [] Hns) as H2. rewrite Hss, Hb in H2. apply H2.
  - pose proof (decode_step s [inr d] YNull YNull 0 [] Hns) as H1. rewrite Hss, Ha in H1. rewrite H1.
    pose proof (decode_step d [] YNull s 1 [] Hnd) as H2. rewrite Hsd, Hb in H2. apply H2.
Qed.

Lemma decode_two docs d s : Forall (fun doc => is_nil doc = false) docs -> is_nil d = false -> is_nil s = false ->
  decodeLoop (inr <$> docs) YNull YNull 0 [] = Decoded d s 2 [] ->
  docs ≡ₚ [d; s] /\ kind_is d "Deployment" /\ kind_is s "Service" /\ Forall (fun doc => secretLiterals doc = []) docs.
Proof.
  intros Hr Hd Hs Heq. destruct (decode_count docs YNull YNull 0 [] Hr) as (d' & s' & fs' & Hc). rewrite Heq in Hc.
  assert (Hlen : 2 = 0 + Z.of_nat (length docs)) by congruence. clear Hc. destruct docs as [|a [|b [|c docs]]]; simpl in Hlen; try lia.
  apply Forall_cons in Hr as [Ha [Hb _]%Forall_cons]. cbn [fmap list_fmap] in Heq.
  apply decode_clean in Heq as (d1 & s1 & H1 & Hl1 & Heq); [|done]. apply decode_clean in Heq as (d2 & s2 & H2 & Hl2 & Heq); [|done].
  simpl in Heq. injection Heq as -> ->.
  apply step_inv in H1 as [(? & _ & -> & ->)|(? & _ & -> & ->)]; apply step_inv in H2 as [(? & ? & -> & ->)|(? & ? & -> & ->)]; subst; try done.
  all: split_and!; [first [reflexivity|apply Permutation_swap]|done|done|by repeat constructor].
Qed.

(** C39: The deployment validator accepts exactly the deployable examples: it
    finds nothing wrong if and only if every document decodes, no document has a
    literal secret at any depth, the resources are one Deployment and one
    Service that meet every bound and exposure rule, and the wiring's text has
    each of the seven settings its patterns describe. *)
Theorem validate_accepts_exactly documents wiring :
  validate documents wiring = [] <-> exists docs, documents = inr <$> docs /\ deployable docs wiring.
Proof.
  destruct (documents_cases documents) as [[docs ->]|(docs & err & rest & ->)].
  2: { unfold validate. rewrite decode_invalid. split; [done|]. intros (docs' & He & _). exfalso.
       assert (Hin : inl err ∈ (inr <$> docs')) by (rewrite <- He; apply elem_of_app; right; left). by apply list_elem_of_fmap in Hin as (? & ? & _). }
  assert (Hnil : Forall no_literal_secret docs <-> Forall (fun doc => secretLiterals doc = []) (resources docs)).
  { rewrite !Forall_forall. setoid_rewrite list_elem_of_filter. setoid_rewrite <- secretLiterals_nil. split; [naive_solver|].
    intros Hf doc Hd. destruct (is_nil doc) eqn:Hn; [by apply is_nil_iff in Hn as ->|auto]. }
  unfold validate. rewrite decode_skips. split.
  - intros Hv. exists docs. split; [done|].
    destruct (decode_count (resources docs) YNull YNull 0 []) as (d & s & fs & Hdec); [by apply Forall_forall; intros ? [? _]%list_elem_of_filter|].
    rewrite Hdec in Hv. case_match eqn:Hg; [by apply app_none in Hv as [_ ?]|]. reflect_guards.
    rewrite !app_none, podFindings_nil, serviceFindings_nil, wiringFindings_nil in Hv. destruct Hv as (-> & Hp & Hs & Hw).
    match goal with Hc : _ = 2 |- _ => rewrite Hc in Hdec end.
    apply decode_two in Hdec as (Hperm & Hd & Hk & Hl); [|by apply Forall_forall; intros ? [? _]%list_elem_of_filter|done|done].
    split; [by apply Hnil|by exists d, s|done].
  - intros (docs' & Heq & [Hsec (d & s & Hperm & Hd & Hk & Hp & Hs) Hw]). apply (inj (fmap inr)) in Heq as <-.
    rewrite (decode_pair _ d s Hperm Hd Hk) by by apply Hnil. rewrite (kind_resource _ _ Hd), (kind_resource _ _ Hk). simpl.
    rewrite !app_none, podFindings_nil, serviceFindings_nil, wiringFindings_nil. done.
Qed.

(** ** The repository's own example (examples/deploy/cloud-pooled.yaml) *)
Definition ystr (k : string) (v : string) : yaml * yaml := (YString k, YString v).
Definition yin (k : string) (v : yaml) : yaml * yaml := (YString k, v).

Definition demo_pod (env ports : list yaml) : yaml :=
  YMap [yin "terminationGracePeriodSeconds" (YInt 120);
    yin "containers" (YSeq [YMap [ystr "name" "factory"; yin "env" (YSeq env); yin "ports" (YSeq ports);
      yin "resources" (YMap [yin "requests" (YMap [ystr "cpu" "500m"; ystr "memory" "4Gi"]);
                             yin "limits" (YMap [ystr "cpu" "2"; ystr "memory" "8Gi"])])]])].

Definition demo_deployment (replicas : Z) (env ports : list yaml) : yaml :=
  YMap [ystr "apiVersion" "apps/v1"; ystr "kind" "Deployment";
    yin "spec" (YMap [yin "replicas" (YInt replicas); yin "template" (YMap [yin "spec" (demo_pod env ports)])])].

Definition demo_service (name : string) : yaml :=
  YMap [ystr "apiVersion" "v1"; ystr "kind" "Service";
    yin "spec" (YMap [ystr "type" "ClusterIP"; yin "ports" (YSeq [YMap [ystr "name" name; yin "port" (YInt 8080)]])])].

Definition demo_port (name : string) : yaml := YMap [ystr "name" name; yin "containerPort" (YInt 8080)].

(** The settings of wiring.go, in its layout. *)
Definition demo_wiring : string :=
  "		Migrations:       pgstore.MigrationValidate,
		DeploymentPrefix:           cfg.DeploymentPrefix,
		Encryption:                 s3store.EncryptionKMS,
		RequireConfirmedEncryption: true,
		MaxConcurrentTransfers:     4,
	limits.MaxConnections = maxConnections
	limits.PerConnectionQueueBytes = 1 << 20
".

Example validate_demo :
  validate [inr (demo_deployment 2 [] [demo_port "public"]); inr YNull; inr (demo_service "http")] demo_wiring = []
  /\ validate [inr (demo_service "HostLink-public"); inr (demo_deployment 3 [YMap [ystr "name" "DB_PASSWORD"; ystr "value" "leaked"]] [demo_port "public"])]
       "" =
     ["Factory replica count must be two"; "literal credential in env DB_PASSWORD"; "public HostLink exposure";
      "missing finite per-connection byte queue"; "missing per-replica admission bound"; "missing S3 transfer bound";
      "S3 encryption confirmation missing"; "S3 KMS encryption missing"; "replicas must validate migrations";
      "shared S3 deployment prefix missing"]
  /\ validate [inr (demo_service "http"); inr (YMap [ystr "kind" "Secret"; yin "data" (YMap [ystr "secret_key" "c2VjcmV0"])])] demo_wiring =
     ["literal secret field secret_key"; "unexpected Kubernetes resource"; "expected exactly one Deployment and one Service"].
Proof. vm_compute. split_and!; reflexivity. Qed.
