(* ===== verification/Compose.v ===== *)
(** * The composition (src/server.go, src/compose.go, src/exports.go, src/contract.go, src/seams.go)

    [New] as a whole: the configuration of Options, then the credentials, the
    component graph and the router, built by the constructors the components'
    own files model, each refusal attributed to the option the code names. The
    adapters between the packages, the departments' targets, the claim holders
    of the sweeps and the UUID source are here too. What a component is given
    of an interface is whether it is there; what the server then runs is in
    Lifecycle. *)

From S2P Require Import Prelude Wire Framing Text Encoding Program Identity Directory Pending Refusal Admission AdmissionQueue AdmissionSweep GateSweep Placement Workload Records Bindings Demand Relay LiveTail Pool HostRpc ClientLink ClientTransport HttpErrors Origins Guard Objects Agents Router Options.
Local Open Scope prog_scope.
Local Open Scope string_scope.
Local Open Scope Z_scope.

(** ** Adapters between the packages (compose.go) *)
Definition ErrTenantUnaddressable : error := sentinel "placement.ErrTenantUnaddressable".
Definition ErrHostUnreachable : error := sentinel "placement.ErrHostUnreachable".
Definition ErrAttachFailed : error := sentinel "placement.ErrAttachFailed".
Definition AttachRefusal (code : string) : error := Err (Typed "placement.AttachRefusal" code "" 0) [].

(** The first of several sentinels an error is. *)
Definition is_any (targets : list error) (err : error) : bool :=
  existsb (fun target => match target with Err tag _ => errors_is err tag end) targets.

Definition classifyAttach (err : option error) : option error :=
  match err with
  | None => None
  | Some err =>
      match errors_code "hostlink.HostRefusal" err with
      | Some code => Some (AttachRefusal code)
      | None =>
          if is_any [ErrNoTenantEndpoint] err then Some (wrapf [ErrTenantUnaddressable; err])
          else if is_any [ErrUnsupportedMethod] err then Some (wrapf [ErrAttachUnsupported; err])
          else if is_any [ErrDialFailed; ErrLinkReconnecting; ErrLinkLimit; HostRpc.ErrUnsupportedProtocol; ErrLinkClosed] err
          then Some (wrapf [ErrHostUnreachable; err])
          else if is_any [ErrHostFailed] err then Some (wrapf [ErrAttachFailed; err])
          else Some err
      end
  end.

Definition classifyCapabilityRead (err : option error) (unavailable : error) : option error :=
  match err with
  | None => None
  | Some err =>
      if is_any [ErrLinkReconnecting; ErrLinkLimit; ErrDialFailed; HostRpc.ErrUnsupportedProtocol; ErrPoolClosed; ErrLinkClosed] err
      then Some (wrapf [unavailable; err]) else Some err
  end.

(** A Go [(bool, error)]: an error comes with whatever boolean. *)
Definition capability : Type := bool * option error.

(** [gateResponders] and [principalResponders] over what the pool answered. *)
Definition gateResponders_AcceptsGateResponses (read : capability) : capability :=
  (read.1, classifyCapabilityRead read.2 ErrGateResponderUnavailable).
Definition principalResponders_AcceptsCommandPrincipal (read : capability) : capability :=
  (read.1, classifyCapabilityRead read.2 ErrPrincipalResponderUnavailable).

Definition unaddressable (read : capability) : option capability :=
  match read.2 with
  | Some err => if is_any [ErrNoTenantEndpoint] err then Some (false, Some (wrapf [ErrTenantUnaddressable; err])) else None
  | None => None
  end.
Definition unreachable (transient : list error) (read : capability) : option capability :=
  match read.2 with
  | Some err => if is_any transient err then Some (false, Some (wrapf [ErrHostUnreachable; err])) else None
  | None => None
  end.
Definition first_of (arms : list (option capability)) (otherwise : capability) : capability :=
  default otherwise (head (omap id arms)).

Definition placementLinks_AcceptsGateResponses (read : capability) : capability :=
  let read := gateResponders_AcceptsGateResponses read in
  first_of [unaddressable read; unreachable [ErrGateResponderUnavailable] read] read.
Definition placementLinks_AcceptsCommandPrincipal (read : capability) : capability :=
  let read := principalResponders_AcceptsCommandPrincipal read in
  first_of [unaddressable read; unreachable [ErrPrincipalResponderUnavailable] read] read.
Definition placementLinks_AcceptsPayloadReferences (read : capability) : capability :=
  first_of [unaddressable read; unreachable [ErrLinkReconnecting; ErrLinkClosed] read] read.

(** [departmentTargets] *)
Fixpoint ResolveAgent (d : list Options.LaunchTemplate) (agent : AgentID) : option Admission.Target :=
  match d with
  | [] => None
  | template :: d =>
      if bool_decide (tk_AgentID (tpl_Key template) = agent)
      then Some (Admission.MkTarget (tpl_Key template) (tpl_Workload template))
      else ResolveAgent d agent
  end.

#[global] Instance HostTargetKey_eq_dec : EqDecision HostTargetKey.
Proof. solve_decision. Defined.

Definition IsKnown (d : list Options.LaunchTemplate) (key : HostTargetKey) : bool :=
  existsb (fun template => bool_decide (tpl_Key template = key)) d.

(** [Target] and [TargetFor] (contract.go). *)
Record SessionTarget := MkSessionTarget { st_Tenant : TenantID; st_Session : SessionID; st_Agent : AgentID; st_Host : HostID }.
Definition TargetFor (tenant : TenantID) (session : SessionID) (agent : AgentID) (host : HostID) : SessionTarget :=
  MkSessionTarget tenant session agent host.

(** [TenantAuthorizer] (exports.go): the tenant boundary's own rules. *)
Definition TenantAuthorizer_AuthorizeAuditRead := AuthorizeAuditRead.
Definition TenantAuthorizer_AuthorizeSessionList := AuthorizeSessionList.
Definition TenantAuthorizer_AuthorizeSessionRead := AuthorizeSessionRead.
Definition TenantAuthorizer_AuthorizeObjectRead := AuthorizeObjectRead.
Definition TenantAuthorizer_AuthorizeControl {K : Type} := @AuthorizeControl K.
Definition TenantAuthorizer_AuthorizeSubscribe `{CoreIdentifiers} := AuthorizeSubscribe.
Definition TenantAuthorizer_AuthorizeServiceSweep := AuthorizeServiceSweep_.

Definition NewStoreDirectory `{StoreLimits} (limits : Directory.Limits) : result Directory.Limits := NewDirectory limits.

(** [UIRoutePrincipal] (server.go): the operation context of a request, if it
    has one. *)
Definition UIRoutePrincipal (r : option (option OperationContext)) : option Principal :=
  match r with None => None | Some operation => op_Principal <$> operation end.

(** [rebindingPlacer.Reconcile]; the zero observation is [None]. [Rebind] is
    the demand plane's, [LocalBinding] the routing table's. *)
Inductive rebindCall : Type -> Type :=
| PlacerReconcile (req : Placement.Request) : rebindCall (Placement.Result * option error)
| LocalBinding (key : sessionKey) : rebindCall (option Bindings.Binding_)
| DemandRebind (key : sessionKey) : rebindCall (option error)
| WarnRebind (key : sessionKey) : rebindCall unit.

Definition boundTo (observation : HostLinkRegistryObservation) (binding : option Bindings.Binding_) : bool :=
  match binding with
  | None => false
  | Some binding =>
      let key := Bindings.Key binding in
      bool_decide (bk_HostID key = obs_HostID observation) && (bk_HostGeneration key =? obs_HostGeneration observation)
      && (bk_LeaseEpoch key =? obs_LeaseEpoch observation)
  end.

Definition rebindingPlacer_Reconcile (req : Placement.Request) : prog rebindCall (Placement.Result * option error) :=
  call! answer := PlacerReconcile req in
  let '(result, err) := answer in
  match err, res_Attached result with
  | Some _, _ | None, None => Ret (result, err)
  | None, Some attached =>
      let key := SessionKey (req_TenantID req) (req_SessionID req) in
      call! binding := LocalBinding key in
      if boundTo attached binding then Ret (result, None)
      else
        call! err := DemandRebind key in
        match err with
        | Some err =>
            if negb (is_any [Bindings.ErrNoDemand; Demand.ErrDemandClosed] err)
            then call! _ := WarnRebind key in Ret (result, None)
            else Ret (result, None)
        | None => Ret (result, None)
        end
  end.

(** ** Claim holders *)
Section Holders.
Context `{CoreIdentifiers} `{Sha256}.

Definition sweepHolder (replicaID suffix : string) : string :=
  if Identity.len replicaID + Identity.len suffix <=? MaxIDBytes then replicaID +:+ suffix
  else EncodeToString (Sum256 replicaID) +:+ suffix.

Definition dispositionHolder (replicaID : string) : string := sweepHolder replicaID "/dispositions".
Definition commandHolder (replicaID : string) : string := sweepHolder replicaID "/commands".
Definition admissionHolder (replicaID : string) (worker : N) : string :=
  sweepHolder replicaID ("/admission-" +:+ itoa worker).
End Holders.

(** ** UUIDs (seams.go) *)
Definition ErrNoEntropy : error := sentinel "factory.ErrNoEntropy".

(** [io.ReadFull] of sixteen bytes is an argument: the bytes, or its error. *)
Definition newUUIDv4 (entropy : result (list Z)) : result string :=
  match entropy with
  | Fail _ => Fail (wrapf [ErrNoEntropy])
  | Ok b =>
      let b := <[6%nat := Z.lor (Z.land (default 0 (b !! 6%nat)) 15) 64]> b in
      let b := <[8%nat := Z.lor (Z.land (default 0 (b !! 8%nat)) 63) 128]> b in
      let part (from to : nat) := EncodeToString (take (to - from) (skipn from b)) in
      Ok (part 0 4 +:+ "-" +:+ part 4 6 +:+ "-" +:+ part 6 8 +:+ "-" +:+ part 8 10 +:+ "-" +:+ part 10 16)%nat
  end.

(** ** The component graph (compose.go) *)

(** A rejection under the option that carries the value. *)
Definition attributed {A} (option : string) (r : result A) : result A :=
  match r with Ok a => Ok a | Fail err => Fail (OptionError option err) end.

Definition then_ {A B} (r : result A) (k : A -> result B) : result B :=
  match r with Ok a => k a | Fail err => Fail err end.
Local Notation "'try!' x ':=' r 'in' k" := (then_ r (fun x => k)) (at level 200, x pattern, right associativity).

(** [time.Duration] is an int64. *)
Definition i64 (z : Z) : Z := (z + 2 ^ 63) mod 2 ^ 64 - 2 ^ 63.

Record live_plane := MkLivePlane { lp_live : LiveTail.Plane_; lp_bindings : Bindings.Bindings_; lp_demand : Demand.Demand_; lp_relay : Relay.Relay_ }.

Section Compose.
Context {W : Type} `{LinkEnv W} `{Implementations} `{CoreIdentifiers} `{Sha256} `{Directory.StoreLimits} `{ClaimLimits} `{NetURL}.
Context (AgentID_Validate : AgentID -> option error).

(** [components], less the node that [startRealtime] makes. A sweeper is its
    configuration with its state, a placer its configuration. *)
Record components := MkComponents {
  admissions : Admission.Config * AdmissionGate.Gate;
  dialer : CentrifugeDialer;
  pool : Pool.Pool_;
  live : live_plane;
  commandSweeper : ReconcilerConfig;
  dispositionSweeper : ReconcilerConfig;
  gateSweeper : GateSweeperConfig * Pending.PendingSweeper;
  placement : Placement.Config;
  records : Records.SweeperConfig * string;
  pendingSweeper : option (PendingSweeperConfig * Pending.PendingSweeper);
  admitted : option admissionQueue;
  admissionPlacers : list Placement.Config
}.

#[local] Instance sweepLimits : SweepLimits :=
  {| Records.MaxOrderedPageLimit := Directory.MaxOrderedPageLimit;
     Records.MaxHostTargetReconcilePages := Directory.MaxHostTargetReconcilePages |}.

Definition composeLive (c : config) : result live_plane :=
  try! live := attributed "WithClientLinkLimits" (LiveTail.New (HostBindingQueue DefaultRepairLimits) (DemandTimeout (client c))) in
  let bindings := NewBindings in
  try! demand := attributed "WithClientLinkLimits" (NewDemand
    {| Demand.OwnershipPollInterval := clientOwnershipPollInterval (client c);
       Demand.HeldPollInterval := i64 (DemandReleaseDebounce (client c) + re_Interval (reconcile c));
       Demand.PollTimeout := DemandTimeout (client c) |}) in
  try! relay := attributed "WithSessionReader" (NewRelay DefaultRepairLimits) in
  Ok (MkLivePlane live bindings demand relay).

(** What the two deadline sweeps are given. *)
Definition sweepConfig (c : config) (holder : string) : ReconcilerConfig :=
  {| hasAuthorizer := has AuthorizerSeam c; hasDue := has Commands c; hasSettlement := has Commands c; hasClaims := has Commands c;
     hasClock := has Clock c; AdmissionSweep.HolderID := holder; AdmissionSweep.ClaimTTL := re_ClaimTTL (reconcile c);
     PageLimit_ := re_MaxDuePerSweep (reconcile c); MaxPages_ := re_MaxConcurrent (reconcile c) |}.

Definition placerConfig (c : config) (holder : string) : Placement.Config :=
  {| Placement.HolderID := holder; Placement.ClaimTTL := re_ClaimTTL (reconcile c);
     CandidateLimit := re_MaxDuePerSweep (reconcile c); ActorID := subject (service c);
     ReplaceAttempts := 0; ReplaceBackoff := 0; hasLinks := true; hasWorkloads := has WorkloadController c;
     hasDiscovery := match deps c !! WorkloadController with Some w => isEndpointDiscovery w | None => false end |}.

(** The loop over [worker]. *)
Fixpoint composePlacers (c : config) (workers : nat) (worker : N) : result (list Placement.Config) :=
  match workers with
  | O => Ok []
  | S workers =>
      try! placer := attributed "WithReconcileLimits"
        (Placement.NewReconciler MaxReconciliationClaimTTL (placerConfig c (admissionHolder (replicaID c) worker))) in
      try! placers := composePlacers c workers (worker + 1)%N in
      Ok (placer :: placers)
  end.

Definition hasSessionCommandReader (c : config) : bool :=
  match deps c !! PendingCommands with Some r => isSessionCommands r | None => false end
  || match deps c !! Commands with Some r => isSessionCommands r | None => false end.

Definition composePending (c : config) : result (list Placement.Config * option (PendingSweeperConfig * Pending.PendingSweeper)) :=
  if negb (has PendingCommands c) then Ok ([], None)
  else
    try! placers := composePlacers c (Z.to_nat (re_MaxConcurrent (reconcile c))) 0%N in
    let cfg := {| Horizon := re_ApplyDeadline (reconcile c); PageLimit := re_MaxDuePerSweep (reconcile c);
                  MaxPages := re_MaxConcurrent (reconcile c); hasSessionCommands := hasSessionCommandReader c;
                  hasCatalogAndDirectory := has CatalogSeam c && has DirectorySeam c;
                  hasAdmissionPlacer := bool_decide (placers <> []) |} in
    try! sweeper := attributed "WithPendingCommands" (NewPendingSweeper cfg) in
    Ok (placers, Some (cfg, sweeper)).

Definition admissionConfig (c : config) : Admission.Config :=
  {| hasDependencies := forallb (fun d => has d c) [AuthorizerSeam; CatalogSeam; Commands; DirectorySeam; Clock; UUIDSource];
     hasGateResponders := true; StampPrincipal := stampPrincipal c; hasPrincipalResponders := true;
     hasPublicCreates := has PublicCreates c; Admission.Binding := sessionBinding c;
     Admission.ApplyDeadline := re_ApplyDeadline (reconcile c); hasOnAdmitted := true |}.

Definition gateConfig (c : config) : GateSweeperConfig :=
  {| g_hasAuthorizer := has AuthorizerSeam c; g_hasDue := has Gates c; g_hasIntents := has Gates c; g_hasClock := has Clock c;
     g_PageLimit := re_MaxDuePerSweep (reconcile c); g_MaxPages := re_MaxConcurrent (reconcile c) |}.

Definition recordConfig (c : config) : Records.SweeperConfig :=
  {| sw_hasTargets := has HostTargets c; sw_hasClaims := has Commands c; sw_HolderID := replicaID c;
     sw_PageLimit := re_MaxDuePerSweep (reconcile c); sw_MaxPages := re_MaxConcurrent (reconcile c) |}.

Definition composeComponents (c : config) : result components :=
  let admitted := if has PendingCommands c then Some (newAdmissionQueue (re_MaxDuePerSweep (reconcile c))) else None in
  try! dialer := attributed "WithHostLinkCredential" (NewCentrifugeDialer (has HostLinkCredential c) (version c) (host c)) in
  try! pool := attributed "WithHostLinkLimits" (NewPool (Some (host c))) in
  try! service := attributed "WithReconcileLimits" (NewService (admissionConfig c)) in
  try! live := composeLive c in
  try! commands := attributed "WithReconcileLimits" (AdmissionSweep.NewReconciler (sweepConfig c (commandHolder (replicaID c)))) in
  try! dispositions := attributed "WithReconcileLimits" (AdmissionSweep.NewReconciler (sweepConfig c (dispositionHolder (replicaID c)))) in
  try! gates := attributed "WithGates" (NewGateSweeper (gateConfig c)) in
  try! placer := attributed "WithReconcileLimits"
    (Placement.NewReconciler MaxReconciliationClaimTTL (placerConfig c (replicaID c))) in
  try! (placers, pending) := composePending c in
  try! records := attributed "WithHostTargets" (NewRecordSweeper (recordConfig c)) in
  Ok (MkComponents service dialer pool live commands dispositions gates placer (recordConfig c, records) pending admitted placers).

(** ** The server (server.go) *)
Definition composeCredentials (c : config) : result Authenticator :=
  match (if bool_decide (defaultTenant c = "") then None else TenantID_Validate (defaultTenant c)) with
  | Some err => Fail (OptionError "WithDefaultTenant" err)
  | None => attributed "WithSessionCookieName" (NewAuthenticator (has Verifier c) (cookieName c) (defaultTenant c))
  end.

Definition routerConfig (c : config) (credentials : Authenticator) (guard : Guard) : RouterConfig :=
  {| rc_StampsPrincipal := stampPrincipal c; rc_Credentials := Some credentials; rc_Authorizer := has AuthorizerSeam c;
     rc_Reads := has SessionReader c; rc_Directory := has DirectorySeam c; rc_Department := published <$> department c;
     rc_Guard := Some guard; rc_IDs := has UUIDSource c; rc_UI := has UIHandler c; rc_UIRoutes := has UIRoutes c;
     rc_AuthorizeUIRoute := has UIRouteAuthorizer c; rc_Limits := route c;
     rc_ResolveObjectStore := has ObjectStoreResolver c; rc_ResolveSessionObjectStore := has SessionObjectStoreResolver c;
     rc_ObjectLimits := objects c |}.

Definition composeRouter (c : config) (credentials : Authenticator) : result Router :=
  try! guard := attributed "WithCSRF" (NewGuard
    {| cfg_CSRF := csrf c; cfg_Credentials := Some credentials; cfg_hasClock := has Clock c |}) in
  NewRouter AgentID_Validate (routerConfig c credentials guard).

(** [Server] as [New] returns it. *)
Record Server := MkServer {
  cfg : config; router : Router; server_credentials : Authenticator; server_components : components }.

Definition New (opts : list Option_) : result Server :=
  try! c := configure opts in
  try! credentials := composeCredentials c in
  try! parts := composeComponents c in
  try! router := composeRouter c credentials in
  Ok (MkServer c router credentials parts).

(** [startRealtime]'s configuration of the client edge. *)
Definition realtimeConfig (c : config) : EngineConfig :=
  {| e_hasAuthenticator := true; e_hasAuthorizer := has AuthorizerSeam c; e_hasAdmitter := true; e_hasDemand := true;
     e_hasClock := has Clock c; e_Limits := client c; e_Version := version c |}.

(** [sweeps]: the passes of the reconcile loop, in order. *)
Definition sweeps (parts : components) : list string :=
  (["commands"; "dispositions"; "gates"; "records"] ++ match pendingSweeper parts with Some _ => ["placement"] | None => [] end)%list.
End Compose.

Lemma then_ok {A B} (r : result A) (k : A -> result B) b : then_ r k = Ok b <-> exists a, r = Ok a /\ k a = Ok b.
Proof. destruct r; simpl; naive_solver. Qed.

Lemma attributed_ok {A} o (r : result A) a : attributed o r = Ok a <-> r = Ok a.
Proof. by destruct r. Qed.

Lemma if_fail {A} (b : bool) e (r : result A) x : (if b then Fail e else r) = Ok x <-> b = false /\ r = Ok x.
Proof. destruct b; naive_solver. Qed.

Lemma ok_inj {A} (a b : A) : Ok a = Ok b <-> a = b.
Proof. naive_solver. Qed.

(** The reading of a chain of refusals. *)
Ltac accepts :=
  rewrite ?if_fail, ?ok_inj, ?negb_false_iff, ?orb_false_iff, ?bool_decide_eq_false, ?Z.leb_gt, ?Z.ltb_ge.

(** ** Constructors, by what they accept *)
Section Constructors.
Context {W : Type} `{LinkEnv W} `{Implementations} `{CoreIdentifiers} `{Sha256} `{Directory.StoreLimits} `{ClaimLimits}.

Lemma sweep_ok cfg x :
  AdmissionSweep.NewReconciler cfg = Ok x <->
  (hasAuthorizer cfg = true /\ hasDue cfg = true /\ hasSettlement cfg = true /\ hasClaims cfg = true
   /\ hasClock cfg = true /\ AdmissionSweep.HolderID cfg <> ""
   /\ 0 < AdmissionSweep.ClaimTTL cfg <= MaxReconciliationClaimTTL /\ 1 <= PageLimit_ cfg <= Directory.MaxOrderedPageLimit
   /\ 1 <= MaxPages_ cfg) /\ cfg = x.
Proof. unfold AdmissionSweep.NewReconciler. cbv zeta. accepts. tauto. Qed.

Lemma gates_ok cfg x :
  NewGateSweeper cfg = Ok x <->
  (g_hasAuthorizer cfg = true /\ g_hasDue cfg = true /\ g_hasIntents cfg = true /\ g_hasClock cfg = true
   /\ 1 <= g_PageLimit cfg <= Directory.MaxOrderedPageLimit /\ 1 <= g_MaxPages cfg) /\ (cfg, MkSweeper 0 ∅) = x.
Proof. unfold NewGateSweeper. cbv zeta. accepts. tauto. Qed.

Lemma placer_ok c holder x :
  Placement.NewReconciler MaxReconciliationClaimTTL (placerConfig c holder) = Ok x <->
  (holder <> "" /\ 0 < re_ClaimTTL (reconcile c) <= MaxReconciliationClaimTTL
   /\ 1 <= re_MaxDuePerSweep (reconcile c) <= Directory.MaxOrderedPageLimit /\ subject (service c) <> "")
  /\ placerConfig c holder = x.
Proof.
  unfold Placement.NewReconciler, attachConfigError. simpl. accepts.
  destruct (decide (subject (service c) = "")) as [Hs|Hs].
  - rewrite bool_decide_true by done. naive_solver.
  - rewrite bool_decide_false by done. accepts. tauto.
Qed.

Lemma pending_ok cfg x :
  NewPendingSweeper cfg = Ok x <->
  (0 < Horizon cfg /\ 1 <= PageLimit cfg <= Directory.MaxOrderedPageLimit /\ 1 <= MaxPages cfg) /\ MkSweeper 0 ∅ = x.
Proof. unfold NewPendingSweeper. accepts. tauto. Qed.

Lemma records_ok cfg x :
  NewRecordSweeper (H := sweepLimits) cfg = Ok x <->
  (sw_hasTargets cfg = true /\ sw_hasClaims cfg = true /\ sw_HolderID cfg <> ""
   /\ 1 <= sw_PageLimit cfg <= Directory.MaxOrderedPageLimit /\ 1 <= sw_MaxPages cfg <= Directory.MaxHostTargetReconcilePages)
  /\ "" = x.
Proof. unfold NewRecordSweeper. cbv zeta. accepts. simpl. tauto. Qed.

Lemma placers_ok c workers : forall worker x,
  composePlacers c workers worker = Ok x <->
  (workers = O \/ 0 < re_ClaimTTL (reconcile c) <= MaxReconciliationClaimTTL
   /\ 1 <= re_MaxDuePerSweep (reconcile c) <= Directory.MaxOrderedPageLimit /\ subject (service c) <> "")
  /\ ((fun k => placerConfig c (admissionHolder (replicaID c) (worker + N.of_nat k))) <$> seq 0 workers) = x.
Proof.
  assert (Hh : forall worker, admissionHolder (replicaID c) worker <> "").
  { intros w. unfold admissionHolder, sweepHolder. case_match; [by destruct (replicaID c)|by destruct (EncodeToString _)]. }
  induction workers as [|workers IH]; intros worker x; simpl; [rewrite ok_inj; naive_solver|].
  assert (Hl : ((fun k => placerConfig c (admissionHolder (replicaID c) (worker + 1 + N.of_nat k))) <$> seq 0 workers)
    = ((fun k => placerConfig c (admissionHolder (replicaID c) (worker + N.of_nat k))) <$> seq 1 workers)).
  { rewrite <- seq_shift, <- list_fmap_compose. apply list_fmap_ext. intros ? k _. simpl. do 2 f_equal. lia. }
  rewrite N.add_0_r. split.
  - rewrite then_ok. intros (placer & Hp & Hr). rewrite attributed_ok, placer_ok in Hp. destruct Hp as [Hp <-].
    apply then_ok in Hr as (placers & Hr & Hx). apply IH in Hr as [_ Hr]. rewrite Hl in Hr.
    injection Hx as <-. subst placers. split; [tauto|done].
  - intros [[?|Hp] <-]; [done|]. rewrite then_ok. eexists. rewrite attributed_ok, placer_ok. split; [by split; [|done]|].
    rewrite then_ok. eexists. split; [apply IH; split; [by right|exact Hl]|]. done.
Qed.
End Constructors.

(** ** What an accepted configuration holds *)
Section Accepts.
Context {W : Type} `{LinkEnv W} `{Implementations} `{CoreIdentifiers} `{Sha256} `{Directory.StoreLimits} `{ClaimLimits} `{NetURL}.
Context (AgentID_Validate : AgentID -> option error).

(** Kept by every option. *)
Record applied_ok (c : config) : Prop := {
  ap_clock : has Clock c = true;
  ap_uuids : has UUIDSource c = true;
  ap_routes : has UIRoutes c = has UIRouteAuthorizer c;
  ap_department : Forall (fun t => Agents.LaunchTemplate_Validate AgentID_Validate (published t) = None) (department c)
}.

Lemma initial_ok : applied_ok initial.
Proof. by split. Qed.

Lemma template_published t :
  Options.LaunchTemplate_Validate AgentID_Validate t = None ->
  Agents.LaunchTemplate_Validate AgentID_Validate (published (normalized t)) = None.
Proof. unfold Options.LaunchTemplate_Validate. simpl. by destruct (Agents.LaunchTemplate_Validate _ _). Qed.

(** The members the setters of the other options leave alone. *)
Lemma department_set_seam d v c : department (set_seam d v c) = department c.
Proof. by destruct c. Qed.

Lemma run_ok opt c c' : supplied AgentID_Validate opt -> Options.run opt c = Ok c' -> applied_ok c -> applied_ok c'.
Proof.
  intros Hs Hr [Hc Hu Hr' Hd]. destruct Hs as [d v Hn1 Hn2|h a| | | | | | | | | | | | | |ts|]; unfold Options.run in Hr; simpl in Hr;
    branches; simplify_eq; try (by destruct c; split).
  - split; rewrite ?has_set_seam, ?department_set_seam, ?Hc, ?Hu, ?Hr'; try done.
    rewrite !(bool_decide_false (_ = d)) by congruence. done.
  - split; rewrite ?has_set_seam, ?department_set_seam, ?Hc, ?Hu; try done. by rewrite Hr', !orb_true_r.
  - destruct c. split; simpl in *; try done. unfold cloneTemplates. apply Forall_fmap.
    match goal with H : first_failure _ = None |- _ => apply first_failure_none in H; rewrite Forall_fmap in H;
      apply (Forall_impl _ _ _ H) end.
    intros t Ht. by apply template_published.
Qed.

Lemma applyAll_ok opts c c' : Forall (supplied AgentID_Validate) opts -> applyAll opts c = Ok c' -> applied_ok c -> applied_ok c'.
Proof.
  intros Hs. revert c. induction Hs as [|o opts Ho _ IH]; intros c Hc Hok; [simpl in Hc; by simplify_eq|].
  rewrite applyAll_cons in Hc. destruct (Options.run o c) as [c1|] eqn:E; [|done].
  apply (IH c1); [done|]. by eapply run_ok.
Qed.

(** What the checks of [New] leave of a configuration. *)
Record accepted (c : config) : Prop := {
  ac_applied : applied_ok c;
  ac_required : missing c = [];
  ac_conflicts : conflicts c = None;
  ac_values : invalidValues c = None
}.

Lemma configure_ok opts c :
  Forall (supplied AgentID_Validate) opts ->
  configure opts = Ok c <-> exists c0, NoDup (name <$> opts) /\ applyAll opts initial = Ok c0 /\ accepted c0 /\ c = finalize c0.
Proof.
  intros Hs. unfold configure. split.
  - destruct (namesOnce 0 ∅ opts) eqn:Hn; [done|]. destruct (applyAll opts initial) as [c0|] eqn:Ha; [|done].
    destruct (first_failure _) eqn:Hf; [done|]. intros [= <-]. apply first_failure_none in Hf.
    rewrite !Forall_cons in Hf. destruct Hf as (Hm & Hc & Hv & _).
    apply (namesOnce_none AgentID_Validate) in Hn as [Hnd _]; [|done]. exists c0. repeat (split; [done|]). split; [|done].
    split; [eapply applyAll_ok; [done|done|apply initial_ok]| |done..].
    unfold missingSeams in Hm. by destruct (missing c0).
  - intros (c0 & Hnd & Ha & [_ Hm Hc Hv] & ->).
    rewrite (proj2 (namesOnce_none AgentID_Validate 0 ∅ opts Hs)) by (split; [done|]; apply Forall_forall; set_solver).
    rewrite Ha, (proj2 (first_failure_none _)); [done|]. unfold missingSeams. rewrite Hm, Hc, Hv. by repeat constructor.
Qed.

(** What the defaults and the wrappers leave alone. *)
Lemma has_set_present d d' v c : has d' c = true -> has d (set_seam d' v c) = has d c.
Proof.
  intros Hp. rewrite has_set_seam. destruct (decide (d = d')) as [->|Hne]; [by rewrite Hp|].
  by rewrite bool_decide_false, orb_false_r.
Qed.

Lemma finalize_seams d c : d <> UIHandler -> has d (finalize c) = has d c.
Proof.
  intros Hd. unfold finalize.
  set (c1 := if bool_decide (version c = "") then set_version DefaultVersion c else c).
  assert (H1' : deps c1 = deps c) by (unfold c1; destruct (bool_decide _); by destruct c). clearbody c1.
  set (c2 := if bool_decide (objects c1 = MkObjectLimits 0 0) then set_objects DefaultObjectLimits c1 else c1).
  assert (H2' : deps c2 = deps c1) by (unfold c2; destruct (bool_decide _); by destruct c1). clearbody c2.
  set (c3 := match deps c2 !! UIFS with Some dir => set_seam UIHandler (FileServerFS dir) c2 | None => c2 end).
  assert (H3' : has d c3 = has d c2).
  { unfold c3. destruct (deps c2 !! UIFS); [|done]. by rewrite has_set_seam, bool_decide_false, orb_false_r. }
  clearbody c3. transitivity (has d c3); [|rewrite H3'; unfold has; by rewrite H2', H1'].
  destruct (deps c3 !! SessionReader) as [reads|] eqn:Hr; [|done].
  assert (Hp : has SessionReader c3 = true) by (unfold has; by rewrite Hr, bool_decide_true).
  repeat case_match; rewrite ?has_set_present; done.
Qed.

Lemma finalize_fields c :
  stampPrincipal (finalize c) = stampPrincipal c /\ cookieName (finalize c) = cookieName c
  /\ defaultTenant (finalize c) = defaultTenant c /\ csrf (finalize c) = csrf c /\ route (finalize c) = route c
  /\ reconcile (finalize c) = reconcile c /\ client (finalize c) = client c /\ host (finalize c) = host c
  /\ service (finalize c) = service c /\ replicaID (finalize c) = replicaID c /\ department (finalize c) = department c
  /\ sessionBinding (finalize c) = sessionBinding c /\ version (finalize c) <> "" /\ objects (finalize c) <> MkObjectLimits 0 0.
Proof.
  unfold finalize. destruct c as [dp sp ck dt cs ct ht rt re cl ho se st ri ve de sb ob]. simpl.
  case_bool_decide as Hv; simpl; case_bool_decide; simpl; destruct (dp !! UIFS); simpl; repeat case_match; simpl; by split_and!.
Qed.

(** ** A configuration [New] goes on with *)
Record ready (c : config) : Prop := {
  rd_has : Forall (fun d => has d c = true)
    [Verifier; AuthorizerSeam; SessionReader; Commands; DirectorySeam; CatalogSeam; Gates; HostTargets; HostLinkCredential; Clock; UUIDSource];
  rd_replica : replicaID c <> "";
  rd_version : version c <> "";
  rd_csrf : CSRFConfig_Validate (csrf c) = None;
  rd_reconcile : ReconcileLimits_Validate (reconcile c) = None;
  rd_client : ClientLinkLimits_Validate (client c) = None;
  rd_route : RouteLimits_Validate (route c) = None;
  rd_host : HostLinkLimits_Validate (host c) = None;
  rd_objects : objects c <> MkObjectLimits 0 0;
  rd_routes : has UIRoutes c = has UIRouteAuthorizer c;
  rd_resolvers : has ObjectStoreResolver c && has SessionObjectStoreResolver c = false;
  rd_department : Forall (fun t => Agents.LaunchTemplate_Validate AgentID_Validate (published t) = None) (department c)
}.

Lemma requirements_met c : missing c = [] -> Forall (fun r => r.2 = true) (requirements c).
Proof.
  unfold missing. intros Hm. apply Forall_forall. intros [n b] Hin. simpl. destruct b; [done|].
  assert (Hf : n ∈ (filter (fun r : string * bool => r.2 = false) (requirements c)).*1).
  { apply list_elem_of_fmap. exists (n, false). split; [done|]. by apply list_elem_of_filter. }
  rewrite Hm in Hf. by apply not_elem_of_nil in Hf.
Qed.

Lemma ready_finalize c : accepted c -> ready (finalize c).
Proof.
  intros [[Hc Hu Hr Hd] Hm Hx Hv]. apply requirements_met in Hm. unfold requirements in Hm. rewrite !Forall_cons in Hm.
  destruct Hm as (M1 & M2 & M3 & M4 & M5 & M6 & M7 & M8 & M9 & M10 & M11 & M12 & _). simpl in *.
  unfold invalidValues in Hv. rewrite first_failure_none, !Forall_cons in Hv.
  destruct Hv as (V1 & V2 & V3 & V4 & V5 & V6 & _). rewrite named_none in V1, V3, V4, V5, V6.
  destruct (finalize_fields c) as (F1 & F2 & F3 & F4 & F5 & F6 & F7 & F8 & F9 & F10 & F11 & F12 & F13 & F14).
  split; rewrite ?F4, ?F5, ?F6, ?F7, ?F8, ?F10, ?F11, ?finalize_seams by done; try done.
  - repeat constructor; by rewrite finalize_seams.
  - by reflect_guards.
  - unfold conflicts in Hx. destruct (has ObjectStoreResolver c && has SessionObjectStoreResolver c); [|done]. by destruct (has UIHandler c && has UIFS c).
Qed.

Lemma addOrigins_valid entries : forall seen g, validateOrigins seen entries = None -> exists g', addOrigins entries g = Ok g'.
Proof.
  induction entries as [|entry entries IH]; intros seen g Hv; simpl in *; [by eexists|].
  case_bool_decide; [done|]. destruct (ParseOrigin entry) as [origin|err]; [|done]. case_bool_decide; [done|]. by eapply IH.
Qed.

Lemma guard_ok c credentials : ready c -> exists g,
  NewGuard {| cfg_CSRF := csrf c; cfg_Credentials := Some credentials; cfg_hasClock := has Clock c |} = Ok g.
Proof.
  intros Hr. pose proof (rd_has _ Hr) as Hh. rewrite !Forall_cons in Hh. destruct Hh as (_ & _ & _ & _ & _ & _ & _ & _ & _ & Hc & _).
  pose proof (rd_csrf _ Hr) as Hv. unfold NewGuard. simpl. rewrite Hc. simpl. rewrite Hv.
  unfold CSRFConfig_Validate in Hv. do 2 (match type of Hv with (if ?b then _ else _) = _ => destruct b; [done|] end). destruct (TrustedOrigins (csrf c)) as [|e es]; [done|].
  by eapply addOrigins_valid.
Qed.

(** ** What [New] accepts beyond its own checks *)
Record composable (c : config) : Prop := {
  cm_tenant : defaultTenant c = "" \/ TenantID_Validate (defaultTenant c) = None;
  cm_cookie : cookieName c = "" \/ isCookieToken (cookieName c) = true;
  cm_claims : re_ClaimTTL (reconcile c) <= MaxReconciliationClaimTTL;
  cm_page : re_MaxDuePerSweep (reconcile c) <= Directory.MaxOrderedPageLimit;
  cm_pages : re_MaxConcurrent (reconcile c) <= Directory.MaxHostTargetReconcilePages;
  cm_actor : subject (service c) <> "";
  cm_objects : ObjectLimits_Validate (objects c) = None
}.

Lemma credentials_ok c : ready c ->
  (exists a, composeCredentials c = Ok a) <->
  (defaultTenant c = "" \/ TenantID_Validate (defaultTenant c) = None) /\ (cookieName c = "" \/ isCookieToken (cookieName c) = true).
Proof.
  intros Hr. pose proof (rd_has _ Hr) as Hh. apply Forall_cons in Hh as [Hv _]. unfold composeCredentials, NewAuthenticator. rewrite Hv.
  simpl. destruct (decide (defaultTenant c = "")) as [Ht|Ht].
  - rewrite bool_decide_true by done. rewrite (bool_decide_false (defaultTenant c <> "")) by tauto.
    destruct (decide (cookieName c = "")) as [Hc|Hc].
    + rewrite bool_decide_true by done. replace (isCookieToken DefaultCookieName) with true by by vm_compute. simpl. naive_solver.
    + rewrite bool_decide_false by done. destruct (isCookieToken (cookieName c)); simpl; naive_solver.
  - rewrite bool_decide_false by done. rewrite (bool_decide_true (defaultTenant c <> "")) by done.
    destruct (TenantID_Validate (defaultTenant c)) as [err|] eqn:Hvt; [naive_solver|].
    destruct (decide (cookieName c = "")) as [Hc|Hc].
    + rewrite bool_decide_true by done. replace (isCookieToken DefaultCookieName) with true by by vm_compute. simpl. naive_solver.
    + rewrite bool_decide_false by done. destruct (isCookieToken (cookieName c)); simpl; naive_solver.
Qed.

Lemma router_ok c credentials guard : ready c ->
  (exists r, NewRouter AgentID_Validate (routerConfig c credentials guard) = Ok r) <->
  ObjectLimits_Validate (objects c) = None.
Proof.
  intros Hr. pose proof (rd_has _ Hr) as Hh. rewrite !Forall_cons in Hh.
  destruct Hh as (_ & Ha & Hs & _ & Hd & _ & _ & _ & _ & _ & Hu & _).
  unfold NewRouter, routerConfig. simpl. rewrite Ha, Hs, Hd, Hu. simpl.
  rewrite (rd_routes _ Hr), Bool.eqb_reflx, (rd_resolvers _ Hr). simpl.
  assert (Hdep : omap (Agents.LaunchTemplate_Validate AgentID_Validate) (published <$> department c) = []).
  { pose proof (rd_department _ Hr) as Hall. induction Hall as [|t ts Ht _ IH]; [done|]. simpl. by rewrite Ht. }
  rewrite Hdep. simpl.
  assert (Hl : RouteLimits_Validate (if bool_decide (route c = MkRouteLimits 0 0 0) then DefaultRouteLimits else route c) = None).
  { case_bool_decide; [by vm_compute|apply (rd_route _ Hr)]. }
  rewrite Hl, bool_decide_false by apply (rd_objects _ Hr). destruct (ObjectLimits_Validate _); naive_solver.
Qed.

Lemma live_ok c : ready c -> exists p, composeLive c = Ok p.
Proof.
  intros Hr. pose proof (rd_client _ Hr) as Hl. apply client_limits_valid in Hl as (_ & _ & _ & _ & _ & _ & _ & _ & Hd & Hp & Ht).
  unfold composeLive, LiveTail.New. simpl. rewrite (proj2 (Z.leb_gt _ _)) by lia. simpl.
  unfold NewDemand, Demand.Validate. simpl. rewrite (proj2 (Z.leb_gt (DemandTimeout (client c)) 0)) by lia.
  replace (clientOwnershipPollInterval (client c) <=? 0) with false; [simpl; by eexists|].
  symmetry. apply Z.leb_gt. unfold clientOwnershipPollInterval. destruct (Z.eqb_spec (ClientLink.OwnershipPollInterval (client c)) 0).
  - vm_compute. done.
  - lia.
Qed.

Lemma holder_nonempty r suffix : suffix <> "" -> sweepHolder r suffix <> "".
Proof. intros Hs. unfold sweepHolder. case_match; [by destruct r|by destruct (EncodeToString _)]. Qed.

Lemma pending_composed c : ready c ->
  (exists x, composePending c = Ok x) <->
  (has PendingCommands c = true ->
   re_ClaimTTL (reconcile c) <= MaxReconciliationClaimTTL
   /\ re_MaxDuePerSweep (reconcile c) <= Directory.MaxOrderedPageLimit /\ subject (service c) <> "").
Proof.
  intros Hr. pose proof (rd_reconcile _ Hr) as Hl. apply reconcile_limits_valid in Hl as (? & ? & ? & ? & ? & ?).
  unfold composePending. destruct (has PendingCommands c); simpl; [|naive_solver]. split.
  - intros [x Hx] _. apply then_ok in Hx as (placers & Hp & _). apply placers_ok in Hp as [[Hz|(? & ? & ?)] _]; [lia|]. naive_solver lia.
  - intros Hc. destruct (Hc eq_refl) as (? & ? & ?). eexists. apply then_ok. eexists. split; [apply placers_ok; split; [right; split_and!; (lia || done)|done]|].
    apply then_ok. eexists. split; [apply attributed_ok, pending_ok; simpl; split; [lia|done]|done].
Qed.

Lemma dialer_ok v l : v <> "" -> HostLinkLimits_Validate l = None -> NewCentrifugeDialer true v l = Ok (MkDialer v l).
Proof.
  intros Hv Hl. unfold NewCentrifugeDialer. simpl. rewrite bool_decide_false by done.
  pose proof (host_limits_accepted l Hl) as Ha. apply host_limits_valid in Hl as (? & ? & ?). rewrite bool_decide_false; [by rewrite Ha|].
  intros ->. simpl in *. lia.
Qed.

Lemma pool_ok l : HostLinkLimits_Validate l = None -> NewPool (Some l) = Ok (Pool.MkPool l false ∅ ∅ 0).
Proof. intros Hl. unfold NewPool. simpl. by rewrite (host_limits_accepted l Hl). Qed.

Lemma components_ok c : ready c ->
  (exists parts, composeComponents c = Ok parts) <->
  re_ClaimTTL (reconcile c) <= MaxReconciliationClaimTTL
  /\ re_MaxDuePerSweep (reconcile c) <= Directory.MaxOrderedPageLimit
  /\ re_MaxConcurrent (reconcile c) <= Directory.MaxHostTargetReconcilePages /\ subject (service c) <> "".
Proof.
  intros Hr. pose proof (rd_has _ Hr) as Hh. rewrite !Forall_cons in Hh.
  destruct Hh as (_ & Ha & _ & Hcm & Hd & Hcat & Hg & Ht & Hcred & Hck & Hu & _).
  pose proof (rd_reconcile _ Hr) as Hl. apply reconcile_limits_valid in Hl as (? & ? & ? & ? & ? & ?).
  pose proof (rd_replica _ Hr) as Hid. unfold composeComponents. split.
  - intros [parts Hp].
    repeat match goal with H : then_ _ _ = Ok _ |- _ => apply then_ok in H as (? & ? & H) end.
    match goal with x : _ * option _ |- _ => destruct x as [placers pending] end.
    repeat match goal with H : then_ _ _ = Ok _ |- _ => apply then_ok in H as (? & ? & H) end.
    rewrite !attributed_ok in *.
    match goal with H : Placement.NewReconciler _ _ = Ok _ |- _ => apply placer_ok in H as [(_ & ? & ? & ?) _] end.
    match goal with H : NewRecordSweeper _ = Ok _ |- _ => apply records_ok in H as [(_ & _ & _ & _ & ?) _] end.
    simpl in *. split_and!; (lia || done).
  - intros (B1 & B2 & B3 & B4). destruct (live_ok c Hr) as [plane Hlive].
    destruct (proj2 (pending_composed c Hr)) as [[placers pending] Hpend]; [done|].
    eexists. rewrite Hcred, Hlive, Hpend.
    apply then_ok. eexists. split; [apply attributed_ok, dialer_ok; [apply (rd_version _ Hr)|apply (rd_host _ Hr)]|].
    apply then_ok. eexists. split; [apply attributed_ok, pool_ok, (rd_host _ Hr)|].
    apply then_ok. eexists. split.
    { apply attributed_ok. unfold NewService, admissionConfig. simpl. rewrite Ha, Hcat, Hcm, Hd, Hck, Hu. simpl.
      rewrite (proj2 (Z.leb_gt _ _)) by lia. done. }
    apply then_ok. eexists. split; [done|].
    apply then_ok. eexists. split; [apply attributed_ok, sweep_ok; simpl; rewrite Ha, Hcm, Hck; split; [|done]|].
    { split_and!; try done; try lia. by apply holder_nonempty. }
    apply then_ok. eexists. split; [apply attributed_ok, sweep_ok; simpl; rewrite Ha, Hcm, Hck; split; [|done]|].
    { split_and!; try done; try lia. by apply holder_nonempty. }
    apply then_ok. eexists. split; [apply attributed_ok, gates_ok; simpl; rewrite Ha, Hg, Hck; split; [|done]; split_and!; (lia || done)|].
    apply then_ok. eexists. split; [apply attributed_ok, placer_ok; split; [|done]; split_and!; (lia || done)|].
    apply then_ok. eexists. split; [done|].
    apply then_ok. eexists. split; [apply attributed_ok, records_ok; simpl; rewrite Ht, Hcm; split; [|done]; split_and!; (lia || done)|].
    done.
Qed.
End Accepts.

(** ** Claim holders *)
Lemma itoa_length n k : (0 < k)%nat -> (n < 10 ^ N.of_nat k)%N -> (String.length (itoa n) <= k)%nat.
Proof.
  assert (Hgo : forall k x s, (x < 10 ^ N.of_nat k)%N -> (String.length (pretty.pretty_N_go x s) <= k + String.length s)%nat).
  { clear. induction k as [|k IH]; intros x s Hx.
    - assert (x = 0%N) as -> by lia. by rewrite pretty.pretty_N_go_0.
    - destruct (decide (x = 0%N)) as [->|Hne]; [rewrite pretty.pretty_N_go_0; lia|].
      rewrite pretty.pretty_N_go_step by lia. specialize (IH (x `div` 10)%N (String (pretty.pretty_N_char (x `mod` 10)) s)).
      simpl in IH. assert (x `div` 10 < 10 ^ N.of_nat k)%N; [|lia].
      apply N.Div0.div_lt_upper_bound. replace (10 * 10 ^ N.of_nat k)%N with (10 ^ N.of_nat (S k))%N; [done|].
      rewrite Nat2N.inj_succ, N.pow_succ_r'. done. }
  intros Hk Hn. unfold itoa, pretty.pretty, pretty.pretty_N. case_decide; [simpl; lia|]. specialize (Hgo k n "" Hn). simpl in Hgo. lia.
Qed.

(** What follows the last slash. *)
Lemma suffix_inj x y s t :
  has_byte "/" s = false -> has_byte "/" t = false -> x +:+ String "/" s = y +:+ String "/" t -> s = t.
Proof.
  intros Hs Ht. revert y. induction x as [|c x IH]; intros [|d y] Heq; simpl in Heq.
  - by injection Heq.
  - exfalso. injection Heq as _ Heq. subst s. rewrite has_byte_app in Hs. simpl in Hs. by rewrite orb_true_r in Hs.
  - exfalso. injection Heq as _ Heq. subst t. rewrite has_byte_app in Ht. simpl in Ht. by rewrite orb_true_r in Ht.
  - injection Heq as _ Heq. by eapply IH.
Qed.

Lemma length_append s t : String.length (s +:+ t) = (String.length s + String.length t)%nat.
Proof. induction s; simpl; [done|]. by rewrite IHs. Qed.

Section HolderFacts.
Context `{CoreIdentifiers} `{Sha256}.

Definition admissionSuffix (worker : N) : string := "admission-" +:+ itoa worker.

Lemma sweepHolder_shape r s : exists x, sweepHolder r (String "/" s) = x +:+ String "/" s /\ (x = r \/ x = EncodeToString (Sum256 r)).
Proof. unfold sweepHolder. case_match; eauto. Qed.

Lemma sweepHolder_suffix r s t :
  has_byte "/" s = false -> has_byte "/" t = false -> sweepHolder r (String "/" s) = sweepHolder r (String "/" t) -> s = t.
Proof.
  intros Hs Ht. destruct (sweepHolder_shape r s) as (x & -> & _), (sweepHolder_shape r t) as (y & -> & _). by apply suffix_inj.
Qed.

Lemma digest_length b : String.length (EncodeToString (Sum256 b)) = 64%nat.
Proof. destruct (EncodeToString_spec (Sum256 b) (Sum256_bytes b)) as [-> _]. by rewrite Sum256_length. Qed.

(** A holder fits an identifier of the store and is not the replica's own id,
    where Core's identifiers have room for a digest and twice the suffix. *)
Lemma sweepHolder_fits r suffix :
  0 < Identity.len suffix -> 64 + 2 * Identity.len suffix <= MaxIDBytes ->
  Identity.len (sweepHolder r suffix) <= MaxIDBytes /\ sweepHolder r suffix <> r.
Proof.
  intros Hs Hm. unfold sweepHolder, Identity.len in *. case_match eqn:Hl; reflect_guards; rewrite length_append.
  - split; [lia|]. intros Heq. apply (f_equal String.length) in Heq. rewrite length_append in Heq. lia.
  - rewrite digest_length. split; [lia|]. intros Heq. apply (f_equal String.length) in Heq. rewrite length_append, digest_length in Heq. lia.
Qed.

Lemma admission_suffix_facts w :
  (w < 2 ^ 63)%N -> has_byte "/" (admissionSuffix w) = false /\ Identity.len (String "/" (admissionSuffix w)) <= 30.
Proof.
  intros Hw. unfold admissionSuffix. split.
  - rewrite has_byte_app. simpl. apply (digits_have_no "/"); [done|]. apply itoa_digits.
  - unfold Identity.len. simpl. rewrite length_append. simpl.
    assert (Hl : (String.length (itoa w) <= 19)%nat) by (apply itoa_length; [lia|]; change (10 ^ N.of_nat 19)%N with 10000000000000000000%N; lia).
    lia.
Qed.

Lemma itoa_inj m n : itoa m = itoa n -> m = n.
Proof. intros Heq. apply (f_equal (fun s => decimal s 0)) in Heq. rewrite !decimal_itoa in Heq. lia. Qed.
End HolderFacts.

(** The ids of a replica's sweeps, with its own. *)
Lemma claim_holders_distinct `{CoreIdentifiers} `{Sha256} (replicaID : string) (workers : nat) :
  128 <= MaxIDBytes -> Z.of_nat workers < 2 ^ 63 ->
  let derived := (commandHolder replicaID :: dispositionHolder replicaID
                    :: ((fun k => admissionHolder replicaID (N.of_nat k)) <$> seq 0 workers))%list in
  NoDup (replicaID :: derived) /\ Forall (fun holder => Identity.len holder <= MaxIDBytes) derived.
Proof.
  intros Hm Hw derived.
  set (suffixes := ("commands" :: "dispositions" :: ((fun k => admissionSuffix (N.of_nat k)) <$> seq 0 workers))%list).
  assert (Hd : derived = (fun s => sweepHolder replicaID (String "/" s)) <$> suffixes).
  { unfold derived, suffixes. rewrite !fmap_cons. do 2 f_equal. by rewrite <- list_fmap_compose. }
  assert (Hs : Forall (fun s => has_byte "/" s = false /\ Identity.len (String "/" s) <= 30) suffixes).
  { repeat constructor; try done. apply Forall_forall. intros s (k & -> & Hk)%list_elem_of_fmap. apply elem_of_seq in Hk.
    apply admission_suffix_facts. lia. }
  assert (Hnd : NoDup suffixes).
  { unfold suffixes. rewrite !NoDup_cons, not_elem_of_cons. split_and!; try done.
    - intros (k & Heq & _)%list_elem_of_fmap. by unfold admissionSuffix in Heq.
    - intros (k & Heq & _)%list_elem_of_fmap. by unfold admissionSuffix in Heq.
    - apply NoDup_fmap_2; [|apply NoDup_seq]. intros j k Heq. unfold admissionSuffix in Heq. injection Heq as Heq.
      apply itoa_inj in Heq. lia. }
  assert (Hfit : Forall (fun h => Identity.len h <= MaxIDBytes /\ h <> replicaID) derived).
  { rewrite Hd. apply Forall_fmap. eapply Forall_impl; [exact Hs|]. intros s [_ Hl]. apply sweepHolder_fits; [|lia].
    unfold Identity.len. simpl. lia. }
  split; [|eapply Forall_impl; [exact Hfit|]; naive_solver]. apply NoDup_cons. split.
  - intros Hin. rewrite Forall_forall in Hfit. by destruct (Hfit _ Hin).
  - rewrite Hd. clear Hd Hfit. induction suffixes as [|s suffixes IH]; [constructor|].
    apply NoDup_cons in Hnd as [Hni Hnd]. apply Forall_cons in Hs as [[Hsl _] Hs]. rewrite fmap_cons, NoDup_cons.
    split; [|by apply IH]. intros (t & Heq & Ht)%list_elem_of_fmap. rewrite Forall_forall in Hs. destruct (Hs t Ht) as [Htl _].
    apply sweepHolder_suffix in Heq; [|done..]. by subst.
Qed.

(** ** [New] as a whole *)
Section NewFacts.
Context {W : Type} `{LinkEnv W} `{Implementations} `{CoreIdentifiers} `{Sha256} `{Directory.StoreLimits} `{ClaimLimits} `{NetURL}.
Context (AgentID_Validate : AgentID -> option error).

Lemma New_ready opts c :
  Forall (supplied AgentID_Validate) opts -> configure opts = Ok c -> ready AgentID_Validate c.
Proof. intros Hs Hc. apply (configure_ok AgentID_Validate) in Hc as (c0 & _ & _ & Ha & ->); [|done]. by apply ready_finalize. Qed.

Lemma New_composable opts : Forall (supplied AgentID_Validate) opts ->
  (exists s, New AgentID_Validate opts = Ok s) <-> exists c, configure opts = Ok c /\ composable c.
Proof.
  intros Hs. unfold New. split.
  - intros [s Hn]. apply then_ok in Hn as (c & Hc & Hn). exists c. split; [done|]. pose proof (New_ready opts c Hs Hc) as Hr.
    apply then_ok in Hn as (a & Ha & Hn). apply then_ok in Hn as (parts & Hp & Hn). apply then_ok in Hn as (r & Hrt & _).
    destruct (proj1 (credentials_ok AgentID_Validate c Hr)) as [Ht Hk]; [by eexists|].
    destruct (proj1 (components_ok AgentID_Validate c Hr)) as (? & ? & ? & ?); [by eexists|].
    split; try done. unfold composeRouter in Hrt. apply then_ok in Hrt as (g & _ & Hrt).
    apply (router_ok AgentID_Validate c a g Hr). by eexists.
  - intros (c & Hc & [Ht Hk B1 B2 B3 B4 Ho]). pose proof (New_ready opts c Hs Hc) as Hr.
    destruct (proj2 (credentials_ok AgentID_Validate c Hr)) as [a Ha]; [done|].
    destruct (proj2 (components_ok AgentID_Validate c Hr)) as [parts Hp]; [done|].
    destruct (guard_ok AgentID_Validate c a Hr) as [g Hg].
    destruct (proj2 (router_ok AgentID_Validate c a g Hr) Ho) as [r Hrt].
    eexists. apply then_ok. exists c. split; [done|]. apply then_ok. exists a. split; [done|]. apply then_ok. exists parts. split; [done|].
    apply then_ok. exists r. split; [|done]. unfold composeRouter. rewrite Hg. exact Hrt.
Qed.
End NewFacts.

(** C17: [New] returns a server exactly when: no option comes twice and each
    one is accepted by itself; all twelve required options are among them; the
    values do not conflict and the limits are valid; and the composed values fit
    the stores' bounds (the claim's length, the page and the number of pages of
    a sweep), the default tenant and the cookie name are valid, the service
    identity has a subject and the object limits are valid. Nothing else can
    make it refuse: no component it builds rejects what passed. *)
Theorem new_accepts_exactly {W : Type} `{LinkEnv W} `{Implementations} `{CoreIdentifiers} `{Sha256} `{Directory.StoreLimits}
    `{ClaimLimits} `{NetURL} (AgentID_Validate : AgentID -> option error) (opts : list Option_) :
  Forall (supplied AgentID_Validate) opts ->
  (exists s, New AgentID_Validate opts = Ok s) <->
  exists c, NoDup (name <$> opts) /\ applyAll opts initial = Ok c
    /\ (forall n, n ∈ required -> n ∈ name <$> opts)
    /\ conflicts c = None /\ invalidValues c = None /\ composable (finalize c).
Proof.
  intros Hs. rewrite (New_composable AgentID_Validate opts Hs). split.
  - intros (c & Hc & Hcm). apply (configure_ok AgentID_Validate) in Hc as (c0 & Hnd & Ha & [_ Hm Hx Hv] & ->); [|done].
    exists c0. repeat (split; [done|]). split; [|done]. intros n Hn. rewrite (missing_applyAll AgentID_Validate opts c0 Hs Ha) in Hm.
    destruct (decide (n ∈ name <$> opts)) as [?|Hno]; [done|].
    assert (Hf : n ∈ filter (fun n => n ∉ name <$> opts) required) by (by apply list_elem_of_filter).
    rewrite Hm in Hf. by apply not_elem_of_nil in Hf.
  - intros (c0 & Hnd & Ha & Hreq & Hx & Hv & Hcm). exists (finalize c0). split; [|done].
    apply (configure_ok AgentID_Validate); [done|]. exists c0. repeat (split; [done|]). split; [|done].
    split; [by eapply applyAll_ok; [..|apply initial_ok]| |done..].
    rewrite (missing_applyAll AgentID_Validate opts c0 Hs Ha).
    destruct (filter _ _) as [|n l] eqn:Hf; [done|]. exfalso.
    assert (Hn : n ∈ filter (fun n => n ∉ name <$> opts) required) by (rewrite Hf; set_solver).
    apply list_elem_of_filter in Hn as [Hno Hn]. by apply Hno, Hreq.
Qed.

(** The order the options are given in does not matter: a list of options
    that composes a server composes the same server, in every member, in any
    other order. *)
Theorem option_order_immaterial {W : Type} `{LinkEnv W} `{Implementations} `{CoreIdentifiers} `{Sha256} `{Directory.StoreLimits}
    `{ClaimLimits} `{NetURL} (AgentID_Validate : AgentID -> option error) (opts opts' : list Option_) (s : Server) :
  Forall (supplied AgentID_Validate) opts -> opts ≡ₚ opts' ->
  New AgentID_Validate opts = Ok s -> New AgentID_Validate opts' = Ok s.
Proof.
  intros Hs Hp. unfold New. intros Hn. apply then_ok in Hn as (c & Hc & Hn). apply then_ok. exists c. split; [|done].
  apply (configure_ok AgentID_Validate) in Hc as (c0 & Hnd & Ha & Hacc & ->); [|done].
  apply (configure_ok AgentID_Validate); [by rewrite <- Hp|]. exists c0. split; [by rewrite <- Hp|]. split; [|done].
  by eapply applyAll_permutation.
Qed.

(** A composition with required options missing, and nothing wrong with
    the others, is refused with one error that names every one of them and
    nothing else, in alphabetical order. *)
Theorem missing_options_named {W : Type} `{LinkEnv W} `{Implementations} `{CoreIdentifiers} `{Sha256} `{Directory.StoreLimits}
    `{ClaimLimits} `{NetURL} (AgentID_Validate : AgentID -> option error) (opts : list Option_) (c : config) (n : string) :
  Forall (supplied AgentID_Validate) opts -> NoDup (name <$> opts) -> applyAll opts initial = Ok c ->
  n ∈ required -> n ∉ name <$> opts ->
  exists names, New AgentID_Validate opts = Fail (MissingSeamsError names)
    /\ Sorted String.le names /\ names ≡ₚ filter (fun n => n ∉ name <$> opts) required.
Proof.
  intros Hs Hnd Ha Hn Hno. exists (merge_sort String.le (filter (fun n => n ∉ name <$> opts) required)).
  split; [|split; [apply Sorted_merge_sort, _|apply merge_sort_Permutation]].
  unfold New, configure. rewrite (proj2 (namesOnce_none AgentID_Validate 0 ∅ opts Hs)) by (split; [done|]; apply Forall_forall; set_solver).
  rewrite Ha. simpl. unfold missingSeams. rewrite (missing_applyAll AgentID_Validate opts c Hs Ha).
  destruct (filter _ _) as [|m l] eqn:Hf; [|done]. exfalso.
  assert (Hin : n ∈ filter (fun n => n ∉ name <$> opts) required) by (by apply list_elem_of_filter).
  rewrite Hf in Hin. by apply not_elem_of_nil in Hin.
Qed.

(** ** What a composed server is *)

(** The ids the parts claim under. *)
Definition holders {W : Type} `{LinkEnv W} (parts : components) : list string :=
  Placement.HolderID (placement parts) :: AdmissionSweep.HolderID (commandSweeper parts)
    :: AdmissionSweep.HolderID (dispositionSweeper parts) :: (Placement.HolderID <$> admissionPlacers parts).

Section Composed.
Context {W : Type} `{LinkEnv W} `{Implementations} `{CoreIdentifiers} `{Sha256} `{Directory.StoreLimits} `{ClaimLimits} `{NetURL}.
Context (AgentID_Validate : AgentID -> option error).

Definition workers (c : config) : nat := if has PendingCommands c then Z.to_nat (re_MaxConcurrent (reconcile c)) else 0.

Lemma pending_parts c placers pending : composePending c = Ok (placers, pending) ->
  Placement.HolderID <$> placers = (fun k => admissionHolder (replicaID c) (N.of_nat k)) <$> seq 0 (workers c)
  /\ (is_Some pending <-> has PendingCommands c = true).
Proof.
  unfold composePending, workers. destruct (has PendingCommands c); simpl.
  - intros Hp. apply then_ok in Hp as (ps & Hps & Hp). apply then_ok in Hp as (sw & _ & Hp). injection Hp as <- <-.
    apply placers_ok in Hps as [_ <-]. split; [|by split; [|by eexists]].
    rewrite <- list_fmap_compose. apply list_fmap_ext. done.
  - intros [= <- <-]. split; [done|]. split; [by intros []|done].
Qed.

Lemma components_parts c parts : composeComponents c = Ok parts ->
  commandSweeper parts = sweepConfig c (commandHolder (replicaID c))
  /\ dispositionSweeper parts = sweepConfig c (dispositionHolder (replicaID c))
  /\ placement parts = placerConfig c (replicaID c) /\ records parts = (recordConfig c, "")
  /\ composePending c = Ok (admissionPlacers parts, pendingSweeper parts)
  /\ admitted parts = (if has PendingCommands c then Some (newAdmissionQueue (re_MaxDuePerSweep (reconcile c))) else None).
Proof.
  unfold composeComponents. intros Hp.
  do 8 (apply then_ok in Hp as (? & ? & Hp)). apply then_ok in Hp as ([placers pending] & Hpend & Hp).
  apply then_ok in Hp as (? & ? & Hp). injection Hp as <-. rewrite !attributed_ok in *.
  repeat match goal with H : AdmissionSweep.NewReconciler _ = Ok _ |- _ => apply sweep_ok in H as [_ <-] end.
  match goal with H : Placement.NewReconciler _ _ = Ok _ |- _ => apply placer_ok in H as [_ <-] end.
  match goal with H : NewRecordSweeper _ = Ok _ |- _ => apply records_ok in H as [_ <-] end. by split_and!.
Qed.

Lemma New_parts opts s : New AgentID_Validate opts = Ok s ->
  configure opts = Ok (cfg s) /\ composeComponents (cfg s) = Ok (server_components s).
Proof.
  unfold New. intros Hn. apply then_ok in Hn as (c & Hc & Hn). apply then_ok in Hn as (a & _ & Hn).
  apply then_ok in Hn as (parts & Hp & Hn). apply then_ok in Hn as (r & _ & Hn). injection Hn as <-. done.
Qed.
End Composed.

(** The ids a composed replica claims under are pairwise different: its
    own, under which it places, the command sweep's, the disposition sweep's, and
    one for each admission placer; so none of them can extend or release a claim
    another of them holds. Each derived one fits the store's bound on an
    identifier, however long the replica's id is. *)
Theorem composed_claims_are_separate {W : Type} `{LinkEnv W} `{Implementations} `{CoreIdentifiers} `{Sha256}
    `{Directory.StoreLimits} `{ClaimLimits} `{NetURL} (AgentID_Validate : AgentID -> option error) (opts : list Option_) (s : Server) :
  128 <= MaxIDBytes -> re_MaxConcurrent (reconcile (cfg s)) < 2 ^ 63 ->
  Forall (supplied AgentID_Validate) opts -> New AgentID_Validate opts = Ok s ->
  NoDup (holders (server_components s))
  /\ Forall (fun holder => Identity.len holder <= MaxIDBytes) (List.tl (holders (server_components s))).
Proof.
  intros Hm Hw _ Hn. apply New_parts in Hn as [_ Hp]. apply components_parts in Hp as (E1 & E2 & E3 & _ & E4 & _).
  apply pending_parts in E4 as [E4 _]. unfold holders. rewrite E1, E2, E3, E4. simpl.
  apply (claim_holders_distinct (replicaID (cfg s)) (workers (cfg s))); [done|]. unfold workers. case_match; lia.
Qed.

(** A composed server is one that can run: its client edge's configuration
    is one the engine accepts; it has a placement sweep, an admission queue and
    as many admission placers as it may run at once exactly when it was given the
    pending commands to place; every pass ends before the claims it took do, and
    every claim before the commands it is about are due; a live tail's poll and
    the demand's calls have deadlines. *)
Theorem composed_server_can_run {W : Type} `{LinkEnv W} `{Implementations} `{CoreIdentifiers} `{Sha256}
    `{Directory.StoreLimits} `{ClaimLimits} `{NetURL} (AgentID_Validate : AgentID -> option error) (opts : list Option_) (s : Server) :
  Forall (supplied AgentID_Validate) opts -> New AgentID_Validate opts = Ok s ->
  let c := cfg s in let parts := server_components s in
  (exists e, NewEngine (realtimeConfig c) = Ok e)
  /\ (is_Some (pendingSweeper parts) <-> has PendingCommands c = true)
  /\ (is_Some (admitted parts) <-> has PendingCommands c = true)
  /\ length (admissionPlacers parts) = workers c
  /\ sweeps parts = (["commands"; "dispositions"; "gates"; "records"] ++ if has PendingCommands c then ["placement"] else [])%list
  /\ passTimeout (reconcile c) < AdmissionSweep.ClaimTTL (commandSweeper parts)
  /\ AdmissionSweep.ClaimTTL (commandSweeper parts) < re_ApplyDeadline (reconcile c)
  /\ 0 < clientOwnershipPollInterval (client c) /\ 0 < DemandTimeout (client c).
Proof.
  intros Hs Hn. apply New_parts in Hn as [Hc Hp]. destruct s as [c router credentials parts]. cbn [cfg server_components] in *. cbv zeta. pose proof (New_ready AgentID_Validate opts _ Hs Hc) as Hr.
  apply components_parts in Hp as (E1 & _ & _ & _ & E4 & E5). apply pending_parts in E4 as [E4 E6].
  pose proof (rd_reconcile _ _ Hr) as Hl. apply reconcile_limits_valid in Hl as (? & ? & ? & ? & ? & ?).
  pose proof (rd_client _ _ Hr) as Hcl. pose proof (client_limits_accepted _ Hcl) as Hacc.
  apply client_limits_valid in Hcl as (_ & _ & _ & _ & _ & _ & _ & _ & _ & ? & ?).
  pose proof (rd_has _ _ Hr) as Hh. rewrite !Forall_cons in Hh. destruct Hh as (_ & Ha & _ & _ & _ & _ & _ & _ & _ & Hck & _).
  split_and!.
  - unfold NewEngine, realtimeConfig. simpl. rewrite Ha, Hck. simpl. rewrite bool_decide_false by apply (rd_version _ _ Hr).
    rewrite Hacc. by eexists.
  - apply E6.
  - rewrite E5. destruct (has PendingCommands c); [by split|]. split; [by intros []|done].
  - apply (f_equal length) in E4. by rewrite !length_fmap, length_seq in E4.
  - unfold sweeps. destruct (pendingSweeper parts), (has PendingCommands c); try done; exfalso; [by assert (false = true) by (apply E6; by eexists)|].
    by destruct (proj2 E6 eq_refl).
  - rewrite E1. simpl. lia.
  - rewrite E1. simpl. lia.
  - unfold clientOwnershipPollInterval. destruct (Z.eqb_spec (ClientLink.OwnershipPollInterval (client c)) 0); [by vm_compute|lia].
  - done.
Qed.

(** ** The adapters *)

(** Nothing of placement's vocabulary in a transport's error. *)
Definition transport_error (err : error) : Prop :=
  errors_code "placement.AttachRefusal" err = None
  /\ errors_is err (Sentinel "placement.ErrAttachUnsupported") = false
  /\ errors_is err (Sentinel "placement.ErrTenantUnaddressable") = false
  /\ errors_is err (Sentinel "placement.ErrHostUnreachable") = false
  /\ errors_is err (Sentinel "placement.ErrAttachFailed") = false.

(** The failures of an attach that never left this process. *)
Definition never_sent (err : error) : bool :=
  is_any [ErrDialFailed; ErrLinkReconnecting; ErrLinkLimit; HostRpc.ErrUnsupportedProtocol; ErrLinkClosed] err.

Lemma errors_code_wrap ty tag err :
  errors_code ty (wrapf [sentinel tag; err]) = errors_code ty err.
Proof. unfold errors_code. simpl. by destruct (errors_as ty err). Qed.

Lemma errors_is_wrap tag err name :
  errors_is (wrapf [sentinel tag; err]) (Sentinel name) = bool_decide (tag = name) || errors_is err (Sentinel name).
Proof.
  rewrite errors_is_wrapf by done. unfold sentinel. simpl. rewrite !orb_false_r.
  f_equal. apply bool_decide_ext. split; congruence.
Qed.

(** What placement decides about a candidate is what the pool's attach
    failed with: the Host's own refusal is kept with its code, and is stale
    exactly for an epoch mismatch; a base that cannot carry the tenant, a method
    the Host does not speak, an attach that never left this process and a
    Host's own failure each let it try the next candidate as what they are; and
    it gives up on anything else, such as a cancelled call that may have reached
    the Host. *)
Theorem attach_failures_classified (err : error) :
  transport_error err ->
  attachAnswer (classifyAttach (Some err)) =
    match errors_code "hostlink.HostRefusal" err with
    | Some code => (if bool_decide (code = "HostLinkErrorEpochMismatch") then answerStale else answerRefused, code)
    | None =>
        (if is_any [ErrNoTenantEndpoint] err then answerUnaddressable
         else if is_any [ErrUnsupportedMethod] err then answerUnsupported
         else if never_sent err then answerUnreachable
         else if is_any [ErrHostFailed] err then answerFailed else answerAbort, "")
    end.
Proof.
  intros (H1 & H2 & H3 & H4 & H5). unfold classifyAttach. destruct (errors_code "hostlink.HostRefusal" err) as [code|].
  { unfold attachAnswer. change (errors_code "placement.AttachRefusal" (AttachRefusal code)) with (Some code). cbv iota beta.
    by destruct (bool_decide (code = _)). }
  fold (never_sent err).
  destruct (is_any [ErrNoTenantEndpoint] err); [|destruct (is_any [ErrUnsupportedMethod] err);
    [|destruct (never_sent err); [|destruct (is_any [ErrHostFailed] err)]]];
    unfold attachAnswer, ErrTenantUnaddressable, ErrAttachUnsupported, ErrHostUnreachable, ErrAttachFailed;
    rewrite ?errors_code_wrap, ?errors_is_wrap, H1, ?H2, ?H3, ?H4, ?H5; done.
Qed.

Lemma is_any_one name err : is_any [sentinel name] err = errors_is err (Sentinel name).
Proof. unfold is_any, sentinel. simpl. by rewrite orb_false_r. Qed.

(** The capability reads: what placement makes of a failed one. *)
Lemma gate_capability_classified capable err :
  transport_error err -> errors_is err (Sentinel "admission.ErrGateResponderUnavailable") = false ->
  let read := placementLinks_AcceptsGateResponses (capable, Some err) in
  classifyGateCapability (match read.2 with Some err => Fail err | None => Ok read.1 end) =
    if is_any [ErrNoTenantEndpoint] err then gateUnaddressable
    else if never_sent err || is_any [ErrPoolClosed] err then gateUnreachable else gateAbort.
Proof.
  intros (_ & _ & H3 & H4 & _) Hg. unfold placementLinks_AcceptsGateResponses, gateResponders_AcceptsGateResponses, classifyCapabilityRead.
  cbv zeta. cbn [fst snd]. unfold first_of, unaddressable, unreachable.
  assert (Hn : never_sent err || is_any [ErrPoolClosed] err
    = is_any [ErrLinkReconnecting; ErrLinkLimit; ErrDialFailed; HostRpc.ErrUnsupportedProtocol; ErrPoolClosed; ErrLinkClosed] err).
  { unfold never_sent, is_any. simpl. rewrite !orb_false_r. by repeat match goal with |- context [errors_is err ?t] => destruct (errors_is err t) end. }
  rewrite Hn. destruct (is_any [ErrLinkReconnecting; _; _; _; _; _] err) eqn:Ht.
  - assert (Hw : forall target, target <> Wrapper -> target <> Sentinel "admission.ErrGateResponderUnavailable" ->
      errors_is (wrapf [ErrGateResponderUnavailable; err]) target = errors_is err target).
    { intros target Ha Hb. rewrite errors_is_wrapf by done. unfold ErrGateResponderUnavailable, sentinel. simpl.
      rewrite bool_decide_false by congruence. simpl. by rewrite orb_false_r. }
    assert (E1 : is_any [ErrNoTenantEndpoint] (wrapf [ErrGateResponderUnavailable; err]) = is_any [ErrNoTenantEndpoint] err)
      by (unfold ErrNoTenantEndpoint; by rewrite !is_any_one, Hw).
    assert (E2 : is_any [ErrGateResponderUnavailable] (wrapf [ErrGateResponderUnavailable; err]) = true) by by vm_compute.
    cbn [snd]. rewrite E1, E2. destruct (is_any [ErrNoTenantEndpoint] err); cbn -[errors_is]; [done|].
    unfold ErrHostUnreachable. rewrite !errors_is_wrap, Hw by done. by rewrite H3.
  - assert (E2 : is_any [ErrGateResponderUnavailable] err = false) by (unfold ErrGateResponderUnavailable; by rewrite is_any_one).
    cbn [snd]. rewrite E2. destruct (is_any [ErrNoTenantEndpoint] err); cbn -[errors_is]; [done|]. by rewrite H3, H4.
Qed.

(** ** Departments and identifiers *)

(** An agent resolves to the first template of its own. *)
Lemma resolved_agent_is_known d agent target :
  ResolveAgent d agent = Some target -> tk_AgentID (Admission.tg_Key target) = agent /\ IsKnown d (Admission.tg_Key target) = true.
Proof.
  induction d as [|t d IH]; simpl; [done|]. case_bool_decide as Hk.
  - intros [= <-]. simpl. split; [done|]. by rewrite bool_decide_true.
  - intros Hr. destruct (IH Hr) as [? ->]. split; [done|]. by rewrite orb_true_r.
Qed.


(** The shape of a version 4 UUID: hyphens after the 8th, 12th, 16th and 20th of
    32 lower case hexadecimal digits, the version and the variant in place. *)
Definition uuid4_position (i : nat) (c : ascii) : bool :=
  match i with
  | 8 | 13 | 18 | 23 => bool_decide (c = "-"%char)
  | 14 => bool_decide (c = "4"%char)
  | 19 => has_byte c "89ab"
  | _ => lower_hex_byte c
  end%nat.

Fixpoint uuid4_shaped (i : nat) (s : string) : bool :=
  match s with
  | "" => Nat.eqb i 36
  | String c s => uuid4_position i c && uuid4_shaped (S i) s
  end.

Lemma version4_bits b : 0 <= b < 256 -> hex_digit (Z.lor (Z.land b 15) 64 / 16) = "4"%char.
Proof.
  intros Hb. apply Ascii.eqb_eq.
  by apply (below_256 (fun b => Ascii.eqb (hex_digit (Z.lor (Z.land b 15) 64 / 16)) "4"%char)); [vm_compute|].
Qed.

(** Sixteen bytes of entropy make a well-formed UUID; fewer make an error. *)
Lemma newUUIDv4_shaped b s :
  length b = 16%nat -> Forall (fun x => 0 <= x < 256) b -> newUUIDv4 (Ok b) = Ok s -> uuid4_shaped 0 s = true.
Proof.
  intros Hl Hf. do 16 (destruct b as [|? b]; [simpl in Hl; lia|]). destruct b; [|simpl in Hl; lia]. clear Hl.
  do 16 (apply Forall_cons in Hf as [? Hf]). clear Hf. unfold newUUIDv4. intros [= <-].
  cbn -[hex_digit lower_hex_byte has_byte Z.lor Z.land Z.div Z.modulo].
  rewrite version4_bits by done. cbv -[hex_digit lower_hex_byte has_byte Z.lor Z.land Z.div Z.modulo].
  rewrite variant_bits by done. by rewrite !hex_low, !hex_high by done.
Qed.

(** ** A composition to run: an implementation is a name *)
Definition demo_implementations : Implementations := {|
  Impl := string;
  SystemClock := "system clock";
  CryptoUUIDSource := "crypto uuids";
  FileServerFS dir := "files of " +:+ dir;
  resolvedJournals_of reads resolve := reads +:+ " through " +:+ resolve;
  sessionAware_of resolve := resolve;
  isSessionCommands _ := true;
  isEndpointDiscovery _ := false
|}.

Definition demo_ids : CoreIdentifiers := {|
  MaxIDBytes := 256;
  TenantID_Validate t := if bool_decide (t = "") then Some (sentinel "core.ErrInvalid") else None;
  SessionID_Validate s := if bool_decide (s = "") then Some (sentinel "core.ErrInvalid") else None;
  Principal_Validate _ := None
|}.

Definition demo_stores : StoreLimits :=
  {| Directory.MaxOrderedPageLimit := 1000; DefaultHostTargetReconcilePages := 8; Directory.MaxHostTargetReconcilePages := 64 |}.
Definition demo_claims : ClaimLimits := {| MaxReconciliationClaimTTL := 60 * Second |}.

#[local] Existing Instances demo_implementations demo_ids demo_stores demo_claims demo_url demo_links.

Definition demo_agents : AgentID -> option error := fun _ => None.

Definition demo_required : list Option_ :=
  [WithCredentialVerifier (Some "verifier"); WithAuthorizer (Some "authorizer"); WithSessionReader (Some "reads");
   WithCommands (Some "commands"); WithDirectory (Some "directory"); WithCatalog (Some "catalog"); WithGates (Some "gates");
   WithHostTargets (Some "targets"); WithHostLinkCredential (Some "credential");
   WithServiceIdentity (MkPrincipal "t" "factory" KindService);
   WithCSRF (MkCSRFConfig (replicate 32 7) Second ["https://app.example"] false)].

Definition demo_options : list Option_ :=
  (WithReplicaID "replica-1" :: WithPendingCommands (Some "pending") :: WithSessionJournalResolver (Some "journals") :: demo_required)%list.

Lemma demo_options_supplied extra : Forall (supplied demo_agents) extra -> Forall (supplied demo_agents) (extra ++ demo_options).
Proof. intros He. apply Forall_app. split; [exact He|]. repeat constructor; done. Qed.

Definition demo_new (opts : list Option_) : result Server := New demo_agents opts.

(** What is computed of a composed server. *)
Definition demo_check (opts : list Option_) (p : Server -> bool) : bool := match demo_new opts with Ok s => p s | Fail _ => false end.

Lemma demo_checked opts p : demo_check opts p = true -> exists s, New demo_agents opts = Ok s /\ p s = true.
Proof. unfold demo_check, demo_new. destruct (New demo_agents opts) as [s|]; [eauto|done]. Qed.

Lemma new_accepts_exactly_witness :
  (exists s, New demo_agents demo_options = Ok s)
  /\ exists c, NoDup (name <$> demo_options) /\ applyAll demo_options initial = Ok c
       /\ (forall n, n ∈ required -> n ∈ name <$> demo_options)
       /\ conflicts c = None /\ invalidValues c = None /\ composable (finalize c).
Proof.
  assert (Hn : exists s, New demo_agents demo_options = Ok s).
  { destruct (demo_checked demo_options (fun _ => true)) as (s & Hs & _); [by vm_compute|eauto]. }
  split; [exact Hn|]. exact (proj1 (new_accepts_exactly demo_agents demo_options (demo_options_supplied [] (Forall_nil_2 _))) Hn).
Defined.

Lemma option_order_immaterial_witness : exists s,
  New demo_agents demo_options = Ok s /\ New demo_agents (rev demo_options) = Ok s.
Proof.
  destruct (demo_checked demo_options (fun _ => true)) as (s & Hs & _); [by vm_compute|]. exists s. split; [exact Hs|].
  apply (option_order_immaterial demo_agents demo_options (rev demo_options) s);
    [apply (demo_options_supplied []), Forall_nil_2|apply Permutation_rev|exact Hs].
Defined.

(** Without the options of the replica and of the commands. *)
Definition demo_incomplete : list Option_ := filter (fun o => name o <> "WithCommands" /\ name o <> "WithReplicaID") demo_options.

Lemma missing_options_named_witness : exists names,
  New demo_agents demo_incomplete = Fail (MissingSeamsError names) /\ Sorted String.le names
  /\ names ≡ₚ ["WithCommands"; "WithReplicaID"].
Proof.
  assert (Ha : exists c, applyAll demo_incomplete initial = Ok c).
  { destruct (applyAll demo_incomplete initial) as [c|e] eqn:Ha; [eauto|]. exfalso. by vm_compute in Ha. }
  destruct Ha as [c Ha].
  assert (Hs : Forall (supplied demo_agents) demo_incomplete).
  { pose proof (demo_options_supplied [] (Forall_nil_2 _)) as Hs. apply Forall_forall. intros o [_ Ho]%list_elem_of_filter.
    rewrite Forall_forall in Hs. by apply Hs. }
  destruct (missing_options_named demo_agents demo_incomplete c "WithCommands" Hs) as (names & Hn & Ho & Hp);
    [by apply (bool_decide_unpack _); vm_compute|done|by apply (bool_decide_unpack _); vm_compute
    |by apply (bool_decide_unpack _); vm_compute|].
  exists names. split; [done|]. split; [done|]. rewrite Hp.
  replace (filter (fun n => n ∉ name <$> demo_incomplete) required) with ["WithCommands"; "WithReplicaID"] by by vm_compute. done.
Defined.

Lemma composed_claims_are_separate_witness : exists s,
  New demo_agents demo_options = Ok s /\ NoDup (holders (server_components s))
  /\ holders (server_components s) !! 3%nat = Some "replica-1/admission-0".
Proof.
  destruct (demo_checked demo_options (fun s => (re_MaxConcurrent (reconcile (cfg s)) <? 2 ^ 63)
    && bool_decide (holders (server_components s) !! 3%nat = Some "replica-1/admission-0"))) as (s & Hs & Hp); [by vm_compute|].
  apply andb_true_iff in Hp as [Hm Hp]. exists s. split; [exact Hs|]. split; [|by apply bool_decide_eq_true in Hp].
  apply (composed_claims_are_separate demo_agents demo_options s);
    [by vm_compute|by apply Z.ltb_lt|apply (demo_options_supplied []), Forall_nil_2|exact Hs].
Defined.

Lemma composed_server_can_run_witness : exists s,
  New demo_agents demo_options = Ok s /\ sweeps (server_components s) = ["commands"; "dispositions"; "gates"; "records"; "placement"].
Proof.
  destruct (demo_checked demo_options (fun s => has PendingCommands (cfg s))) as (s & Hs & Hp); [by vm_compute|].
  exists s. split; [exact Hs|].
  destruct (composed_server_can_run demo_agents demo_options s) as (_ & _ & _ & _ & Hsw & _);
    [apply (demo_options_supplied []), Forall_nil_2|exact Hs|]. rewrite Hsw, Hp. done.
Defined.

Lemma attach_failures_classified_witness :
  attachAnswer (classifyAttach (Some (HostRefusal "HostLinkErrorEpochMismatch"))) = (answerStale, "HostLinkErrorEpochMismatch")
  /\ attachAnswer (classifyAttach (Some (wrapf [ErrLinkReconnecting]))) = (answerUnreachable, "")
  /\ attachAnswer (classifyAttach (Some Canceled)) = (answerAbort, "").
Proof.
  split; [apply (attach_failures_classified (HostRefusal "HostLinkErrorEpochMismatch")); by vm_compute|].
  split; [apply (attach_failures_classified (wrapf [ErrLinkReconnecting])); by vm_compute|].
  apply (attach_failures_classified Canceled). by vm_compute.
Defined.

(** ** Where the comments and the code part *)

(** A rejection of the object limits reaches the deployer without the option
    that carries them: they are validated by the router alone. *)
Lemma object_limits_unattributed :
  demo_new (WithObjectLimits (MkObjectLimits (Z.shiftl 2 20) (Z.shiftl 2 20)) :: demo_options) = Fail (wrapf [ErrInvalidRouterConfig]).
Proof. by vm_compute. Qed.

(** More workers than the store's record sweep reads pages of are refused as if
    the host targets were at fault. *)
Lemma concurrency_blames_the_targets : exists err,
  demo_new (WithReconcileLimits (MkReconcileLimits (5 * Second) (30 * Second) (5 * Minute) 256 65 (10 * Second)) :: demo_options)
  = Fail (OptionError "WithHostTargets" err).
Proof. eexists. by vm_compute. Qed.

(** A replica id longer than the store's bound is composed, and placement and the
    record sweep claim under it as it is, while the other sweeps hash it. *)
Fixpoint repeat_text (n : nat) (s : string) : string := match n with O => "" | S n => s +:+ repeat_text n s end.

Lemma long_replica_id_is_not_hashed :
  demo_check (WithReplicaID (repeat_text 300 "r") :: List.tl demo_options) (fun s =>
    (MaxIDBytes <? Identity.len (Placement.HolderID (placement (server_components s))))
    && (MaxIDBytes <? Identity.len (sw_HolderID (records (server_components s)).1))
    && (Identity.len (AdmissionSweep.HolderID (commandSweeper (server_components s))) <=? MaxIDBytes)) = true.
Proof. by vm_compute. Qed.
