(* ===== verification/PlacementPath.v ===== *)
(** * Placement over the HostLink pool (src/compose.go, src/internal/placement
    and src/internal/realtime/hostlink)

    The reconciler's HostLink calls are, in the deployment, the pool's
    operations behind the adapter [placementLinks]. Here the adapter is written
    over the pool's own operations and answers those calls of a reconciliation,
    while the stores, the directory, the workload controller and the clock
    remain its environment: so that what is known of the pool holds of the pool
    a reconciliation leaves. The pool's own reads ([TenantLinks], [Bindings],
    the capability reads) are here too. *)

From S2P Require Import Prelude Wire Program Bindings Directory Pool Placement Reconciler HostRpc Compose.
Local Open Scope prog_scope.
Local Open Scope string_scope.
Local Open Scope Z_scope.

(** ** The pool's reads *)
Section Reads.
Context `{PoolPrimitives} {W : Type} `{LinkEnv W}.

Definition PoolLimits (p : Pool_) : Pool.Limits := Pool.limits p.

(** The links of a Host, of any tenant. *)
Definition hostLinks (host : HostID) (p : Pool_) : list pooledLink :=
  (filter (fun e => lk_host e.1 = host) (map_to_list (Pool.links p))).*2.

Definition TenantLinks (host : HostID) (p : Pool_) : Z := Z.of_nat (length (hostLinks host p)).

Definition Bindings (host : HostID) (p : Pool_) : Z := fold_right (fun l n => n + Z.of_nat (size (pl_bindings l))) 0 (hostLinks host p).

(** The capabilities a Host's negotiated reply may carry, and the pool's reads
    of them; [gateResponses] is the pool's configured predicate. *)
Record Capabilities := MkCapabilities { gateResponses : Reply -> bool; PrincipalCapable : Reply -> bool; PayloadReferenceCapable : Reply -> bool }.
Context (caps : Capabilities).

Definition Pool_AcceptsGateResponses (target : Target) (tenant : TenantID) (p : Pool_) (w : W) := accepts target tenant (gateResponses caps) p w.
Definition Pool_AcceptsCommandPrincipal (target : Target) (tenant : TenantID) (p : Pool_) (w : W) := accepts target tenant (PrincipalCapable caps) p w.
Definition Pool_AcceptsPayloadReferences (target : Target) (tenant : TenantID) (p : Pool_) (w : W) := accepts target tenant (PayloadReferenceCapable caps) p w.

(** ** [placementLinks] *)
Definition placementLinks_Attach (endpoint : InternalEndpoint) (req : HostLinkAttachRequest) (p : Pool_) (w : W)
    : result HostLinkRegistryObservation * Pool_ * W :=
  let '(answer, p, w) := Pool.Attach (MkTarget (attach_HostID req) endpoint 0) req p w in
  (match answer with
   | Ok observation => Ok observation
   | Fail err => Fail (default err (classifyAttach (Some err)))
   end, p, w).

Definition placementLinks_Bind (endpoint : InternalEndpoint) (req : HostLinkBindRequest) (p : Pool_) (w : W) : option error * Pool_ * W :=
  Pool.Bind (MkTarget (bind_HostID req) endpoint 0) req p w.

Definition placementLinks_Unbind (req : HostLinkUnbindRequest) (p : Pool_) (w : W) : option error * Pool_ * W := Pool.Unbind req p w.

Definition placementLinks_DeliverCommand (tenant : TenantID) (session : SessionID) (command : CommandID) (p : Pool_) (w : W) : option error * W :=
  Pool.DeliverCommand (SessionKey tenant session) command p w.

Definition placementLinks_RouteFor (tenant : TenantID) (session : SessionID) (p : Pool_) : option HostID := Pool.RouteFor (SessionKey tenant session) p.

Definition ownerTarget (owner : HostLinkRegistryObservation) : Target :=
  MkTarget (obs_HostID owner) (obs_InternalEndpoint owner) (obs_HostGeneration owner).

(** A capability read of the pool, as Go returns it. *)
Definition read_of (answer : result bool) : Compose.capability :=
  match answer with Ok b => (b, None) | Fail err => (false, Some err) end.
Definition answer_of (read : Compose.capability) : result bool :=
  match read.2 with Some err => Fail err | None => Ok read.1 end.

Definition placementLinks_Accepts (cap : Reconciler.capability) (owner : HostLinkRegistryObservation) (p : Pool_) (w : W)
    : result bool * Pool_ * W :=
  let '(pooled, classified) :=
    match cap with
    | GateResponses => (Pool_AcceptsGateResponses, placementLinks_AcceptsGateResponses)
    | CommandPrincipal => (Pool_AcceptsCommandPrincipal, placementLinks_AcceptsCommandPrincipal)
    | PayloadReferences => (Pool_AcceptsPayloadReferences, placementLinks_AcceptsPayloadReferences)
    end in
  let '(answer, p, w) := pooled (ownerTarget owner) (obs_TenantID owner) p w in
  (answer_of (classified (read_of answer)), p, w).

(** ** A reconciliation's environment, with the pool in it *)
Definition withPool (h : handler request W) : handler request (Pool_ * W) := fun R c =>
  match c in request R return Pool_ * W -> R * (Pool_ * W) with
  | Attach endpoint req => fun s => let '(a, p, w) := placementLinks_Attach endpoint req s.1 s.2 in (a, (p, w))
  | Bind endpoint req => fun s => let '(a, p, w) := placementLinks_Bind endpoint req s.1 s.2 in (a, (p, w))
  | Unbind req => fun s => let '(a, p, w) := placementLinks_Unbind req s.1 s.2 in (a, (p, w))
  | DeliverCommand tenant session command => fun s =>
      let '(a, w) := placementLinks_DeliverCommand tenant session command s.1 s.2 in (a, (s.1, w))
  | RouteFor tenant session => fun s => (placementLinks_RouteFor tenant session s.1, s)
  | Accepts cap owner => fun s => let '(a, p, w) := placementLinks_Accepts cap owner s.1 s.2 in (a, (p, w))
  | c => fun s => let '(a, w) := h _ c s.2 in (a, (s.1, w))
  end.
End Reads.

(** ** Whose links a reconciliation asks for *)
Section Scoped.
Context `{PlacementPrimitives} (cfg : Config) (tenant : TenantID).

(** The stores answer of the session they were asked for, and a Host of the
    session it was asked to attach. *)
Definition truthful (e : event request) : Prop :=
  match e with
  | Ev _ (GetCatalogEntry t _) (Ok entry) => rec_TenantID (entry_Record entry) = t
  | Ev _ (UpdateCatalogDesiredState req) (Ok entry) => rec_TenantID (entry_Record entry) = upd_TenantID req
  | Ev _ (Attach _ req) (Ok observation) => obs_TenantID observation = attach_TenantID req
  | _ => True
  end.

Definition own_link (e : event request) : Prop :=
  match e with
  | Ev _ (Attach _ req) _ => attach_TenantID req = tenant
  | Ev _ (Bind _ req) _ => bind_TenantID req = tenant
  | Ev _ (Unbind req) _ => unbind_TenantID req = tenant
  | Ev _ (Accepts _ owner) _ => obs_TenantID owner = tenant
  | Ev _ (DeliverCommand t _ _) _ | Ev _ (RouteFor t _) _ => t = tenant
  | _ => True
  end.

Definition scoped {A} (Q : A -> Prop) (p : routine A) : Prop := wp p (fun a t => Forall truthful t -> Forall own_link t /\ Q a).

Lemma scoped_ret {A} (Q : A -> Prop) a : Q a -> scoped Q (Ret a).
Proof. intros Ha _. by split. Qed.

Lemma scoped_call {A R} (Q : A -> Prop) (c : request R) k :
  (forall r, own_link (Ev R c r)) -> (forall r, truthful (Ev R c r) -> scoped Q (k r)) -> scoped Q (Call R c k).
Proof.
  intros Hc Hk r. eapply wp_mono; [|apply (wp_impl (k r) (truthful (Ev R c r)) _ (Hk r))]. simpl.
  intros a t Ht Hall. apply Forall_cons in Hall as [Hr Hall]. destruct (Ht Hr Hall) as [? ?]. split; [by constructor|done].
Qed.

Lemma scoped_bind {A B} (Q : A -> Prop) (Q' : B -> Prop) (p : routine A) k :
  scoped Q p -> (forall a, Q a -> scoped Q' (k a)) -> scoped Q' (bind p k).
Proof.
  intros Hp Hk. eapply wp_seq; [exact Hp|]. intros a t Ha. eapply wp_mono; [|apply (wp_impl (k a) (Q a) _ (Hk a))]. simpl.
  intros b u Hb Hall. apply Forall_app in Hall as [Ht Hu]. destruct (Ha Ht) as [Ho HQ]. destruct (Hb HQ Hu) as [Ho' HQ'].
  split; [by apply Forall_app|done].
Qed.

Abbreviation safe := (scoped (fun _ => True)).

Lemma safe_bind {A B} (p : routine A) (k : A -> routine B) : safe p -> (forall a, safe (k a)) -> safe (bind p k).
Proof. intros Hp Hk. eapply scoped_bind; [exact Hp|]. intros a _. apply Hk. Qed.

Ltac walk_safe :=
  repeat match goal with
  | |- scoped _ (Ret _) => by apply scoped_ret
  | |- scoped _ (Call _ _ _) => apply scoped_call; [done|intros ? ?]
  | |- scoped _ (match _ with _ => _ end) => case_match
  | |- scoped _ (let _ := _ in _) => cbv zeta
  end.

Context (req : Request) (Hreq : req_TenantID req = tenant).

Lemma screen_safe cap listed command observation memo : obs_TenantID observation = tenant -> safe (screen cap listed command observation memo).
Proof. intros Ho. unfold screen. walk_safe. Qed.

Lemma deliverLoop_safe observation wake : obs_TenantID observation = tenant -> forall memo result, safe (deliverLoop req observation wake memo result).
Proof.
  intros Ho. induction wake as [|command wake IH]; intros memo result; [by apply scoped_ret|]. simpl.
  apply safe_bind; [by apply screen_safe|]. intros [[] reference]; [|apply IH]. simpl.
  apply safe_bind; [by apply screen_safe|]. intros [[] gate]; [|apply IH]. simpl.
  apply safe_bind; [by apply screen_safe|]. intros [[] principal]; [|apply IH]. simpl. apply scoped_call; [done|]. intros r _. apply IH.
Qed.

Lemma bindAndDeliver_safe observation result attached : obs_TenantID observation = tenant -> safe (bindAndDeliver req observation result attached).
Proof.
  intros Ho. unfold bindAndDeliver. cbv zeta. walk_safe; (apply safe_bind; [by apply deliverLoop_safe|]; intros ?; walk_safe).
Qed.

Lemma wake_safe owner result : obs_TenantID owner = tenant -> safe (wake cfg req owner result).
Proof. intros Ho. unfold wake. case_match; [by apply scoped_ret|by apply bindAndDeliver_safe]. Qed.

Lemma reusable_tenant owner record now : ReusableOwner owner record now = true -> obs_TenantID owner = rec_TenantID record.
Proof. unfold ReusableOwner. rewrite !andb_true_iff. intros (((((((Ht & _) & _) & _) & _) & _) & _) & _). by reflect_guards. Qed.

(** ** Pooled *)
Lemma gatePooled_safe cap pending candidate result (skip : Result -> routine pass) capable :
  (forall r, safe (skip r)) -> safe capable -> safe (gatePooled cap pending req candidate result skip capable).
Proof.
  intros Hs Hc. unfold gatePooled. destruct pending; [done|]. apply scoped_call; [done|]. intros answer _.
  destruct (classifyGateCapability answer); try apply Hs; [done|by apply scoped_ret].
Qed.

Lemma candidatesLoop_safe record mode hosts : rec_TenantID record = tenant -> forall result, safe (candidatesLoop cfg req record mode hosts result).
Proof.
  intros Hr. induction hosts as [|candidate hosts IH]; intros result; [by apply scoped_ret|]. simpl.
  destruct (negb _); [apply IH|]. do 3 (apply gatePooled_safe; [done|]). apply scoped_call; [done|].
  intros [observation|err] Ht.
  - apply safe_bind; [apply bindAndDeliver_safe; simpl in Ht; congruence|]. intros out. by apply scoped_ret.
  - destruct (attachAnswer (Some err)) as [answer code]. destruct answer; try apply IH; by apply scoped_ret.
Qed.

Lemma attachCandidates_safe record mode again result :
  rec_TenantID record = tenant -> (forall f, again = Some f -> forall r, safe (f r)) -> safe (attachCandidates cfg req record mode again result).
Proof.
  intros Hr Ha. unfold attachCandidates. walk_safe. apply safe_bind; [by apply candidatesLoop_safe|]. intros [out|? stale]; [by apply scoped_ret|].
  destruct stale; [|by apply scoped_ret]. destruct again as [f|]; [by eapply Ha|by apply scoped_ret].
Qed.

Lemma attemptBody_safe record mode again result :
  rec_TenantID record = tenant -> (forall f, again = Some f -> forall r, safe (f r)) -> safe (attemptBody cfg req record mode again result).
Proof.
  intros Hr Ha. unfold attemptBody. apply scoped_call; [done|]. intros [[owner|]|err] _; [| |by apply scoped_ret];
    (apply scoped_call; [done|]); intros now _; [|by apply attachCandidates_safe].
  destruct (ReusableOwner owner record now) eqn:Ho; [|by apply attachCandidates_safe].
  apply wake_safe. rewrite (reusable_tenant _ _ _ Ho). done.
Qed.

Lemma attemptLoop_safe record mode remaining : rec_TenantID record = tenant -> forall attempt result,
  safe (attemptLoop cfg req record mode remaining attempt result).
Proof.
  intros Hr. induction remaining as [|remaining IH]; intros attempt result; simpl; cbv zeta.
  - destruct (0 <? attempt); [apply scoped_call; [done|]; intros [err|] _; [by apply scoped_ret|]|]; by apply attemptBody_safe.
  - assert (Ha : forall f, Some (attemptLoop cfg req record mode remaining (attempt + 1)) = Some f -> forall r, safe (f r)) by (intros f [= <-] r; apply IH).
    destruct (0 <? attempt); [apply scoped_call; [done|]; intros [err|] _; [by apply scoped_ret|]|]; by apply attemptBody_safe.
Qed.

Lemma reportIncapable_safe result rep : safe (reportIncapable req result rep).
Proof. unfold reportIncapable. walk_safe. Qed.

Lemma placePooled_safe writes rep : safe (placePooled cfg req writes rep).
Proof.
  unfold placePooled, placePooled_body. apply safe_bind.
  - apply scoped_call; [done|]. intros [entry|err] Ht; [|by apply scoped_ret]. cbv zeta. case_match; [|by apply scoped_ret].
    apply attemptLoop_safe. simpl in Ht. congruence.
  - intros out. apply safe_bind; [apply reportIncapable_safe|]. intros rep'. by apply scoped_ret.
Qed.

(** ** Dedicated *)
Abbreviation continues k := (forall record, rec_TenantID record = tenant -> safe (k record)).

Lemma rereadDedicated_safe intent result k : continues k -> safe (rereadDedicated req intent result k).
Proof.
  intros Hk. unfold rereadDedicated. apply scoped_call; [done|]. intros [entry|err] Ht; [|by apply scoped_ret].
  case_match; [apply Hk; simpl in Ht; congruence|by apply scoped_ret].
Qed.

Lemma gateDedicated_safe cap pending intent endpoint result record k :
  rec_TenantID record = tenant -> continues k -> safe (gateDedicated cap pending req intent endpoint result record k).
Proof.
  intros Hr Hk. unfold gateDedicated. destruct pending; [by apply Hk|]. apply scoped_call; [done|]. intros answer _.
  case_match; try by apply scoped_ret. by apply rereadDedicated_safe.
Qed.

Lemma wake_reusable_safe record intent now owner result :
  rec_TenantID record = tenant -> reusable record intent now owner = true -> safe (wake cfg req owner result).
Proof. unfold reusable. rewrite andb_true_iff. intros Hr [Ho _]. apply wake_safe. by rewrite (reusable_tenant _ _ _ Ho). Qed.

Lemma attachDedicated_safe intent endpoint result record : rec_TenantID record = tenant -> safe (attachDedicated cfg req intent endpoint result record).
Proof.
  intros Hr. unfold attachDedicated. cbv zeta. apply scoped_call; [done|]. intros [observation|err] Ht.
  - walk_safe. apply bindAndDeliver_safe. simpl in Ht. congruence.
  - destruct (attachAnswer (Some err)) as [answer code]. walk_safe. by eapply wake_reusable_safe.
Qed.

Lemma discoverDedicated_safe intent result : safe (discoverDedicated cfg req intent result).
Proof.
  unfold discoverDedicated. walk_safe. apply rereadDedicated_safe. intros ? ?.
  do 3 (apply gateDedicated_safe; [done|]; intros ? ?). by apply attachDedicated_safe.
Qed.

Lemma placeDedicated_safe intent result : safe (placeDedicated cfg req intent result).
Proof.
  unfold placeDedicated. apply scoped_call; [done|]. intros [observed|err] _; [|by apply scoped_ret]. apply rereadDedicated_safe. intros record Hr.
  cbv zeta. walk_safe; first [by eapply wake_reusable_safe|apply discoverDedicated_safe].
Qed.

(** ** The reconciliation *)
Definition of_tenant {B} (r : result CatalogEntry * B) : Prop :=
  match r.1 with Ok entry => rec_TenantID (entry_Record entry) = tenant | Fail _ => True end.

Lemma ensureDesiredLoop_safe desired attempts : forall entry writes,
  rec_TenantID (entry_Record entry) = tenant -> scoped of_tenant (ensureDesiredLoop req desired attempts entry writes).
Proof.
  induction attempts as [|attempts IH]; intros entry writes He; simpl; [by apply scoped_ret|].
  case_match; [by apply scoped_ret|]. apply scoped_call; [done|]. intros [updated|err] Hu.
  - apply scoped_ret. simpl in *. congruence.
  - case_match; [by apply scoped_ret|]. apply scoped_call; [done|]. intros [entry'|err'] He'; [|by apply scoped_ret].
    apply IH. simpl in He'. congruence.
Qed.

Lemma reviveLoop_safe attempts : forall entry writes,
  rec_TenantID (entry_Record entry) = tenant -> scoped of_tenant (reviveLoop req attempts entry writes).
Proof.
  induction attempts as [|attempts IH]; intros entry writes He; simpl; [by apply scoped_ret|].
  case_match; [by apply scoped_ret|]. case_match; [|by apply scoped_ret]. apply scoped_call; [done|]. intros [updated|err] Hu.
  - apply scoped_ret. simpl in *. congruence.
  - case_match; [by apply scoped_ret|]. apply scoped_call; [done|]. intros [entry'|err'] He'; [|by apply scoped_ret].
    apply IH. simpl in He'. congruence.
Qed.

Lemma place_safe record owner now writes rep : safe (place cfg req record owner now writes rep).
Proof.
  unfold place. cbv zeta. walk_safe; [|apply placePooled_safe]. apply safe_bind; [apply placeDedicated_safe|]. intros out. by apply scoped_ret.
Qed.

Lemma underClaim_safe owner now rep : safe (underClaim cfg req owner now rep).
Proof.
  unfold underClaim. cbv zeta. apply scoped_call; [done|]. intros [entry|err] He; [|by apply scoped_ret].
  assert (Ht : rec_TenantID (entry_Record entry) = tenant) by (simpl in He; congruence).
  eapply scoped_bind; [case_match; [by apply ensureDesiredLoop_safe|by apply scoped_ret]|].
  intros [[ensured|err] writes] Hens; [|by apply scoped_ret].
  eapply scoped_bind; [case_match; [by apply reviveLoop_safe|by apply scoped_ret]|].
  intros [[restored|err] revived] _; [|by apply scoped_ret]. apply place_safe.
Qed.

Lemma routable_tenant record owner now o : routable record owner now = Some o -> obs_TenantID o = rec_TenantID record.
Proof.
  unfold routable, Decide. case_bool_decide as Hd; [|done]. destruct owner as [owner|]; [|done].
  destruct (ReusableOwner owner record now) eqn:Ho; [|by repeat case_match]. case_match; [|done]. intros [= <-]. by eapply reusable_tenant.
Qed.

Lemma Reconcile_safe rep : safe (Reconcile cfg req rep).
Proof.
  unfold Reconcile. cbv zeta. apply scoped_call; [done|]. intros [entry|err] He; [|by apply scoped_ret].
  apply scoped_call; [done|]. intros [owner|err] _; [|by apply scoped_ret]. apply scoped_call; [done|]. intros now _.
  destruct (routable _ owner now) as [o|] eqn:Ho.
  - apply safe_bind; [|intros ?; by apply scoped_ret]. apply wake_safe. apply routable_tenant in Ho. simpl in He. congruence.
  - apply safe_bind; [unfold claim; walk_safe|]. intros [|expiresAt|err]; [|apply safe_bind; [unfold deferToHolder; walk_safe|intros ?; by apply scoped_ret]|by apply scoped_ret].
    apply safe_bind; [apply underClaim_safe|]. intros out. walk_safe.
Qed.
End Scoped.

(** ** The pool a reconciliation leaves *)
Section OverPool.
Context `{PlacementPrimitives} `{PoolPrimitives} {W : Type} `{LinkEnv W} (caps : Capabilities) (h : handler request W).

(** Every read and write of a stored entry answers with the session's own. *)
Definition truthful_store : Prop := forall R (c : request R) w r, is_attach (Ev R c r) = false -> truthful (Ev R c (h R c w).1).

Lemma withPool_truthful (Hh : truthful_store) R (c : request R) s : truthful (Ev R c (withPool caps h R c s).1).
Proof.
  destruct c; try done; simpl; try (match goal with |- context [h ?R ?c ?w] => pose proof (Hh R c w (h R c w).1 eq_refl) as Ht; by destruct (h R c w) as [[]?] end).
  unfold placementLinks_Attach. destruct (Pool.Attach _ req s.1 s.2) as [[[o|err] p] w] eqn:Ha; simpl; [|done].
  by apply attach_returns_what_it_asked in Ha as [? _].
Qed.

(** A call for [tenant] keeps the pool's invariant and everything of the other
    tenants. *)
Lemma withPool_preserves tenant R (c : request R) s :
  pinv s.1 -> own_link tenant (Ev R c (withPool caps h R c s).1) -> preserves tenant s.1 (withPool caps h R c s).2.1.
Proof.
  intros Hp Ho. pose proof (preserves_refl tenant s.1 Hp) as Hk.
  destruct c; simpl in *; try (by destruct (h _ _ s.2) as [? ?]); try done.
  - unfold placementLinks_Attach in *. destruct (Pool.Attach _ req s.1 s.2) as [[a p] w] eqn:Ha; simpl in *.
    apply Attach_preserves in Ha as [? _]; [|done]. by subst.
  - unfold placementLinks_Bind in *. destruct (Pool.Bind _ req s.1 s.2) as [[a p] w] eqn:Ha; simpl in *.
    apply Bind_preserves in Ha as [? _]; [|done]. by subst.
  - unfold placementLinks_Unbind in *. destruct (Pool.Unbind req s.1 s.2) as [[a p] w] eqn:Ha; simpl in *.
    apply Unbind_preserves in Ha; [|done]. by subst.
  - by destruct (placementLinks_DeliverCommand _ _ _ _ _).
  - unfold placementLinks_Accepts, Pool_AcceptsGateResponses, Pool_AcceptsCommandPrincipal, Pool_AcceptsPayloadReferences.
    destruct capability; simpl;
      match goal with |- context [accepts ?t ?n ?f ?p ?w] => destruct (accepts t n f p w) as [[a p'] w'] eqn:Ha end; simpl;
      (apply accepts_preserves in Ha; [|done]); by subst.
Qed.

Lemma run_preserves tenant {A} (p : routine A) : forall s,
  pinv s.1 -> Forall (own_link tenant) (run (withPool caps h) p s).1.2 -> preserves tenant s.1 (run (withPool caps h) p s).2.1.
Proof.
  induction p as [a|R c k IH]; intros s Hp Ho; simpl in *; [by apply preserves_refl|].
  pose proof (withPool_preserves tenant R c s Hp) as Hc. destruct (withPool caps h R c s) as [r s'] eqn:Hr. simpl in Hc.
  specialize (IH r s'). destruct (run (withPool caps h) (k r) s') as [[a t] s'']. simpl in *. apply Forall_cons in Ho as [Ho Ht].
  specialize (Hc Ho). eapply preserves_trans; [exact Hc|]. apply IH; [apply Hc|done].
Qed.

Lemma run_truthful (Hh : truthful_store) {A} (p : routine A) : forall s, Forall truthful (run (withPool caps h) p s).1.2.
Proof.
  induction p as [a|R c k IH]; intros s; simpl; [constructor|]. pose proof (withPool_truthful Hh R c s) as Hc.
  destruct (withPool caps h R c s) as [r s']. specialize (IH r s'). destruct (run (withPool caps h) (k r) s') as [[a t] s'']. by constructor.
Qed.

(** C5: A reconciliation, run over the pool it shares with the reconciliations
    of every other session, keeps the pool's invariant (its bounds, and routes
    and links that agree) and leaves every link and every route of every other
    tenant exactly as it was - through attaches, binds, failed capability reads,
    superseded and dead links alike - provided only that the catalog answers
    with the entry of the session it was asked about. *)
Theorem reconciliation_keeps_other_tenants (cfg : Config) req rep p (w : W) :
  truthful_store -> pinv p -> preserves (req_TenantID req) p (run (withPool caps h) (Reconcile cfg req rep) (p, w)).2.1.
Proof.
  intros Hh Hp. apply (run_preserves (req_TenantID req) _ (p, w)); [done|].
  apply (wp_run (withPool caps h) _ _ (p, w) (Reconcile_safe cfg (req_TenantID req) req eq_refl rep)). by apply run_truthful.
Qed.
End OverPool.

(** ** A reconciliation over a pool another tenant uses

    Tenant ["t"] has its session bound to Host ["h"]; tenant ["t2"] places a
    session of its own there: attach, bind, one delivery and unbind, over a
    link of its own. *)
Definition demo_of (t : TenantID) (s : SessionID) : CatalogRecord :=
  Catalog_Record t s "agent" "rt" HostPlacementPooled 1 (Workload "" "") None 0 0
    (Session_Binding "storage" "1" "runtime" ProtocolModeDisposition) [].

Definition demo_stores : handler request Z := fun R c =>
  match c in request R return Z -> R * Z with
  | GetCatalogEntry t s => fun w => (Ok (Catalog_Entry (demo_of t s) 5), w)
  | UpdateCatalogDesiredState r => fun w => (Ok (Catalog_Entry (demo_of (upd_TenantID r) (upd_SessionID r)) 6), w)
  | AcquireReconciliationClaim _ _ _ _ => fun w => (None, w)
  | ReleaseReconciliationClaim _ _ _ => fun w => (None, w)
  | Owner _ _ => fun w => (Ok None, w)
  | Candidates _ => fun w => (Ok (TargetPage [demo_candidate "h" "e9"] "" 0), w)
  | Now => fun w => (10, w)
  | EnsureWorkload _ => fun w => (None, w)
  | ObserveWorkload _ => fun w => (Ok None, w)
  | WorkloadEndpoint _ => fun w => (Ok None, w)
  | Attach _ _ => fun w => (Fail ErrPoolClosed, w)
  | Bind _ _ => fun w => (None, w)
  | Unbind _ => fun w => (None, w)
  | DeliverCommand _ _ _ => fun w => (None, w)
  | RouteFor _ _ => fun w => (None, w)
  | Accepts _ _ => fun w => (Ok false, w)
  | Wait _ => fun w => (None, w)
  end.

Definition demo_capabilities : @Capabilities Z demo_links := @MkCapabilities Z demo_links id id id.

Definition demo_placed :=
  run (withPool (H := demo_pool_primitives) demo_capabilities demo_stores)
    (@Reconcile demo_placement demo_config (MkRequest "t2" "s2" None ["c1"]%string [] [] [] false) (MkReporter ∅ []))
    (demo_bound_pool, 0).

Lemma reconciliation_keeps_other_tenants_witness :
  d_Outcome (res_Decision demo_placed.1.1.1.1) = OutcomeAttachPooled /\ res_Delivered demo_placed.1.1.1.1 = 1 /\
  TenantLinks "h" demo_placed.2.1 = 2 /\ Bindings "h" demo_placed.2.1 = 1 /\
  preserves "t2" demo_bound_pool demo_placed.2.1.
Proof.
  do 4 (split; [vm_compute; reflexivity|]).
  apply (@reconciliation_keeps_other_tenants demo_placement demo_pool_primitives Z demo_links demo_capabilities demo_stores demo_config
    (MkRequest "t2" "s2" None ["c1"]%string [] [] [] false)); [|exact demo_bound_pool_inv].
  intros R c w r Hn. destruct c; first [exact I|reflexivity].
Defined.

(** The three capability reads do not classify the same failures: a full link
    ceiling or a failed dial is a Host to pass over when gate responses or
    principals are asked about, and ends the pass when payload references are. *)
Lemma reference_reads_abort :
  Forall (fun err =>
    classifyGateCapability (answer_of (placementLinks_AcceptsGateResponses (read_of (Fail err)))) = gateUnreachable /\
    classifyGateCapability (answer_of (placementLinks_AcceptsCommandPrincipal (read_of (Fail err)))) = gateUnreachable /\
    classifyGateCapability (answer_of (placementLinks_AcceptsPayloadReferences (read_of (Fail err)))) = gateAbort)
  [ErrLinkLimit; ErrDialFailed].
Proof. repeat constructor. Qed.
