(* ===== verification/Lifecycle.v ===== *)
(** * The server's lifecycle (src/serve.go, and the node in src/compose.go)

    [Serve], [Start], [Quiesce] with its goroutine, and [Stop], with
    [startRealtime] and [stopRealtime] under them, as a machine: any number of
    callers run interleaved, each at the critical section it takes next. What a
    call outside answers (the node's boot and shutdown, the HTTP server, the
    components' [Close]) and whether a context is done are chosen freely. The
    admission fence is the one of Admission, and admissions come and go between
    the steps. The sweeps' loops are launched and return; what a pass does is in
    the sweepers' own files. *)

From S2P Require Import Prelude Wire Program Admission ClientLink Options Compose.
Import AdmissionGate.
Local Open Scope string_scope.
Local Open Scope Z_scope.

Definition ErrServerStopped : error := sentinel "factory.ErrServerStopped".
Definition ErrAlreadyServing : error := sentinel "factory.ErrAlreadyServing".
Definition ErrAlreadyStarted : error := sentinel "factory.ErrAlreadyStarted".
Definition ErrServerQuiesced : error := sentinel "factory.ErrServerQuiesced".

(** ** State *)
Inductive serverState := stateIdle | stateServing | stateStopped.

#[global] Instance serverState_eq_dec : EqDecision serverState.
Proof. solve_decision. Defined.

(** The node of [components]: whether [realtime] holds it, [realtimeDone] with
    [realtimeErr] once it is closed, and how often one was booted and shut down. *)
Record realtime := MkRealtime { node : bool; realtimeDone : option (option (option error)); boots : nat; shutdowns : nat }.

(** The sweeps' goroutines: how often they were launched, whether [stop] was
    called, whether [done] was closed. *)
Record loops := MkLoops { launches : nat; cancelled : bool; loopsDone : bool }.

(** What [Stop] closes. *)
Inductive closing := CloseListener | CloseRealtime | CloseWakes | CancelSweeps | CloseDemand | CloseBindings | CloseLive | ClosePool.

(** Where the callers are. *)
Inductive rt_pc := RtEnter | RtWait | RtShutdown.
Inductive start_pc := StLock | StCheck | StRealtime | StLaunch.
Inductive quiesce_pc := QEnter | QPoll | QWait.
Inductive finish_pc := FqLock | FqFence | FqDrain | FqRealtime (p : rt_pc) | FqReturned.

(** [firstErr] goes along. *)
Inductive stop_pc :=
| SpQuiesce (p : quiesce_pc)
| SpJoin (err : error)
| SpLock (err : option error)
| SpCheck (err : option error)
| SpListener (err : option error)
| SpRealtime (p : rt_pc) (err : option error)
| SpWakes (err : option error)
| SpCancel (err : option error)
| SpWait (err : option error)
| SpDemand (err : option error)
| SpBindings (err : option error)
| SpLive (err : option error)
| SpPool (err : option error).

Inductive thread :=
| Serving_ (p : option start_pc)                (* None: the claim *)
| Accepting                                     (* server.Serve(ln) *)
| Starting (p : start_pc)
| Quiescing (p : quiesce_pc)
| Stopping (p : stop_pc)
| Served (err : option error) (closed : bool)   (* whether the listener was closed *)
| Started_ (err : option error)
| Quiesced (err : option error)
| Stopped (torn : bool) (err : option error).   (* whether this call tore down *)

Inductive holder := Caller (i : nat) | Finisher.

Record server := MkServer_ {
  state : serverState;
  quiescing : bool;
  quiesceResult : option (option error);  (* quiesceErr, once quiesceDone is closed *)
  started : bool;
  startFailed : bool;                     (* a Start whose node did not boot *)
  http_ : option bool;                    (* the http.Server, and whether it was shut down *)
  lifecycle : option holder;
  gate : Gate;
  inside : nat;
  rt : realtime;
  lp : loops;
  closings : list closing;                (* the latest first *)
  threads : gmap nat thread;
  finish : option finish_pc
}.

(** What a call outside answers, and the context's error if it is done. *)
Record choice := MkChoice { failure_ : option error; ctx : option error }.

Definition initial_server : server :=
  MkServer_ stateIdle false None false false None None newGate 0 (MkRealtime false None 0 0) (MkLoops 0 false false) [] ∅ None.

Definition set_thread (i : nat) (t : thread) (s : server) : server :=
  let 'MkServer_ st q qr sd sf h l g n r lo cl th f := s in MkServer_ st q qr sd sf h l g n r lo cl (<[i := t]> th) f.
Definition set_lock (x : option holder) (s : server) : server :=
  let 'MkServer_ st q qr sd sf h _ g n r lo cl th f := s in MkServer_ st q qr sd sf h x g n r lo cl th f.
Definition set_state (x : serverState) (s : server) : server :=
  let 'MkServer_ _ q qr sd sf h l g n r lo cl th f := s in MkServer_ x q qr sd sf h l g n r lo cl th f.
Definition set_http (x : option bool) (s : server) : server :=
  let 'MkServer_ st q qr sd sf _ l g n r lo cl th f := s in MkServer_ st q qr sd sf x l g n r lo cl th f.
Definition set_started (s : server) : server :=
  let 'MkServer_ st q qr _ sf h l g n r lo cl th f := s in MkServer_ st q qr true sf h l g n r lo cl th f.
Definition set_failed (s : server) : server :=
  let 'MkServer_ st q qr sd _ h l g n r lo cl th f := s in MkServer_ st q qr sd true h l g n r lo cl th f.
Definition set_rt (x : realtime) (s : server) : server :=
  let 'MkServer_ st q qr sd sf h l g n _ lo cl th f := s in MkServer_ st q qr sd sf h l g n x lo cl th f.
Definition set_lp (x : loops) (s : server) : server :=
  let 'MkServer_ st q qr sd sf h l g n r _ cl th f := s in MkServer_ st q qr sd sf h l g n r x cl th f.
Definition close_ (x : closing) (s : server) : server :=
  let 'MkServer_ st q qr sd sf h l g n r lo cl th f := s in MkServer_ st q qr sd sf h l g n r lo (x :: cl) th f.
Definition set_gate (x : Gate) (k : nat) (s : server) : server :=
  let 'MkServer_ st q qr sd sf h l _ _ r lo cl th f := s in MkServer_ st q qr sd sf h l x k r lo cl th f.
Definition set_finish (x : finish_pc) (s : server) : server :=
  let 'MkServer_ st q qr sd sf h l g n r lo cl th _ := s in MkServer_ st q qr sd sf h l g n r lo cl th (Some x).
Definition set_quiescing (s : server) : server :=
  let 'MkServer_ st _ qr sd sf h l g n r lo cl th f := s in MkServer_ st true qr sd sf h l g n r lo cl th (Some FqLock).
Definition set_result (x : option error) (s : server) : server :=
  let 'MkServer_ st q _ sd sf h l g n r lo cl th f := s in MkServer_ st q (Some x) sd sf h l g n r lo cl th f.

(** Equality of errors. *)
Fixpoint error_eqb (a b : error) : bool :=
  match a, b with
  | Err t cs, Err u ds =>
      bool_decide (t = u) && (fix go (cs ds : list error) : bool :=
        match cs, ds with
        | [], [] => true
        | c :: cs, d :: ds => error_eqb c d && go cs ds
        | _, _ => false
        end) cs ds
  end.

(** [firstErr = errors.Join(firstErr, err)], when [err] is not nil. *)
Definition join (firstErr err : option error) : option error :=
  match err with
  | None => firstErr
  | Some err => errors_join (match firstErr with Some x => [x; err] | None => [err] end)
  end.

(** ** The node (compose.go) *)

(** [startRealtime]: the node is published, or its error returned. *)
Definition startRealtime (c : choice) (r : realtime) : realtime * option error :=
  match failure_ c with
  | Some err => (r, Some (wrapf [err]))
  | None => (MkRealtime true (realtimeDone r) (S (boots r)) (shutdowns r), None)
  end.

(** [realtimeHandler] and [clientLink]: whether they answer the node. *)
Definition offered (r : realtime) : bool := node r && bool_decide (realtimeDone r = None).

(** One step of [stopRealtime]: the next one, or what it returned. *)
Definition stopRealtime (p : rt_pc) (c : choice) (r : realtime) : option (realtime * (rt_pc + option error)) :=
  match p with
  | RtEnter =>
      match realtimeDone r with
      | Some _ => Some (r, inl RtWait)
      | None =>
          if negb (node r) then Some (r, inr None)
          else Some (MkRealtime (node r) (Some None) (boots r) (shutdowns r), inl RtShutdown)
      end
  | RtWait =>
      match ctx c with
      | Some err => Some (r, inr (Some err))
      | None => match realtimeDone r with Some (Some err) => Some (r, inr err) | _ => None end
      end
  | RtShutdown =>
      let err := failure_ c in
      Some (MkRealtime (if bool_decide (err = None) then false else node r) (Some (Some err)) (boots r) (S (shutdowns r)), inr err)
  end.

(** ** The callers (serve.go) *)
Definition lock_ (h : holder) (s : server) : option server :=
  match lifecycle s with Some _ => None | None => Some (set_lock (Some h) s) end.
Definition unlock : server -> server := set_lock None.

(** [Start]; a return unlocks. *)
Definition start (i : nat) (p : start_pc) (c : choice) (s : server) : option (server * (start_pc + option error)) :=
  match p with
  | StLock => s ← lock_ (Caller i) s; Some (s, inl StCheck)
  | StCheck =>
      if bool_decide (state s = stateStopped) then Some (unlock s, inr (Some ErrServerStopped))
      else if quiescing s then Some (unlock s, inr (Some ErrServerQuiesced))
      else if started s then Some (unlock s, inr (Some ErrAlreadyStarted))
      else Some (set_started s, inl StRealtime)
  | StRealtime =>
      let '(r, err) := startRealtime c (rt s) in
      match err with
      | Some err => Some (unlock (set_failed s), inr (Some err))
      | None => Some (set_rt r s, inl StLaunch)
      end
  | StLaunch => Some (unlock (set_lp (MkLoops (S (launches (lp s))) false false) s), inr None)
  end.

(** [Serve]'s claim. *)
Definition claim (s : server) : server * option error :=
  match state s with
  | stateServing => (s, Some ErrAlreadyServing)
  | stateStopped => (s, Some ErrServerStopped)
  | stateIdle =>
      if quiescing s then (s, Some ErrServerQuiesced)
      else (set_http (Some false) (set_state stateServing s), None)
  end.

(** What [Serve] does with [Start]'s answer. *)
Definition served (err : option error) : thread :=
  match err with
  | None => Accepting
  | Some err =>
      if errors_is err (Sentinel "factory.ErrAlreadyStarted") then Accepting
      else if errors_is err (Sentinel "factory.ErrServerStopped") || errors_is err (Sentinel "factory.ErrServerQuiesced")
      then Served None true
      else Served (Some err) true
  end.

(** [Quiesce]; [finishQuiesce] starts with the first, and the router's fence
    falls in the same critical section, so it is [quiescing]. *)
Definition quiesce (p : quiesce_pc) (c : choice) (s : server) : option (server * (quiesce_pc + option error)) :=
  match p with
  | QEnter => Some (if quiescing s then s else set_quiescing s, inl QPoll)
  | QPoll => Some (s, match quiesceResult s with Some err => inr err | None => inl QWait end)
  | QWait =>
      match ctx c with
      | Some err => Some (s, inr (Some err))
      | None => err ← quiesceResult s; Some (s, inr err)
      end
  end.

Definition finishQuiesce (p : finish_pc) (c : choice) (s : server) : option server :=
  match p with
  | FqLock => s ← lock_ Finisher s; Some (set_finish FqFence s)
  | FqFence => g ← FenceAdmissions (gate s); Some (set_finish FqDrain (unlock (set_gate g (inside s) s)))
  | FqDrain => if quiesced (gate s) then Some (set_finish (FqRealtime RtEnter) s) else None
  | FqRealtime p =>
      '(r, next) ← stopRealtime p c (rt s);
      match next with
      | inl p => Some (set_finish (FqRealtime p) (set_rt r s))
      | inr err => Some (set_finish FqReturned (set_result err (set_rt r s)))
      end
  | FqReturned => None
  end.

(** [Stop]. The error a wait ended with is the completed result itself, or the
    context's, which wraps nothing, so [errors.Is] is equality. The members its critical section copies ([http], [stop], [done])
    do not change once the state is stopped, and are read where they are used. *)
Definition stop (i : nat) (p : stop_pc) (c : choice) (s : server) : option (server * thread) :=
  match p with
  | SpQuiesce p =>
      '(s, next) ← quiesce p c s;
      Some (s, match next with
               | inl p => Stopping (SpQuiesce p)
               | inr None => Stopping (SpLock None)
               | inr (Some err) => Stopping (SpJoin err)
               end)
  | SpJoin err =>
      match quiesceResult s with
      | None => Some (s, Stopped false (Some err))
      | Some completed =>
          let err' := match completed with
            | Some e => if error_eqb err e then Some err else join (Some err) (Some e)
            | None => Some err
            end in
          Some (s, Stopping (SpLock err'))
      end
  | SpLock err => s ← lock_ (Caller i) s; Some (s, Stopping (SpCheck err))
  | SpCheck err =>
      if bool_decide (state s = stateStopped) then Some (unlock s, Stopped false None)
      else Some (set_state stateStopped s, Stopping (SpListener err))
  | SpListener err =>
      match http_ s with
      | None => Some (s, Stopping (SpRealtime RtEnter err))
      | Some _ => Some (close_ CloseListener (set_http (Some true) s), Stopping (SpRealtime RtEnter (join err (failure_ c))))
      end
  | SpRealtime p err =>
      '(r, next) ← stopRealtime p c (rt s);
      match next with
      | inl p => Some (set_rt r s, Stopping (SpRealtime p err))
      | inr e => Some (close_ CloseRealtime (set_rt r s), Stopping (SpWakes (join err e)))
      end
  | SpWakes err => Some (close_ CloseWakes s, Stopping (SpCancel (join err (failure_ c))))
  | SpCancel err =>
      if Nat.eqb (launches (lp s)) 0 then Some (s, Stopping (SpWait err))
      else Some (close_ CancelSweeps (set_lp (MkLoops (launches (lp s)) true (loopsDone (lp s))) s), Stopping (SpWait err))
  | SpWait err =>
      match ctx c with
      | Some e => Some (s, Stopping (SpDemand (join err (Some e))))
      | None => if Nat.eqb (launches (lp s)) 0 || loopsDone (lp s) then Some (s, Stopping (SpDemand err)) else None
      end
  | SpDemand err => Some (close_ CloseDemand s, Stopping (SpBindings (join err (failure_ c))))
  | SpBindings err => Some (close_ CloseBindings s, Stopping (SpLive (join err (failure_ c))))
  | SpLive err => Some (close_ CloseLive s, Stopping (SpPool (join err (failure_ c))))
  | SpPool err => Some (unlock (close_ ClosePool s), Stopped true (join err (failure_ c)))
  end.

Inductive operation := OpServe | OpStart | OpQuiesce | OpStop.

Definition entry (o : operation) : thread :=
  match o with
  | OpServe => Serving_ None | OpStart => Starting StLock | OpQuiesce => Quiescing QEnter | OpStop => Stopping (SpQuiesce QEnter)
  end.

(** One step of a caller. *)
Definition advance (i : nat) (t : thread) (c : choice) (s : server) : option (server * thread) :=
  match t with
  | Serving_ None =>
      let '(s, err) := claim s in
      Some (s, match err with Some err => Served (Some err) false | None => Serving_ (Some StLock) end)
  | Serving_ (Some p) =>
      '(s, next) ← start i p c s;
      Some (s, match next with inl p => Serving_ (Some p) | inr err => served err end)
  | Accepting =>
      match failure_ c with
      | Some err => Some (s, Served (Some err) true)
      | None => if bool_decide (http_ s = Some true) then Some (s, Served None true) else None
      end
  | Starting p => '(s, next) ← start i p c s; Some (s, match next with inl p => Starting p | inr err => Started_ err end)
  | Quiescing p => '(s, next) ← quiesce p c s; Some (s, match next with inl p => Quiescing p | inr err => Quiesced err end)
  | Stopping p => stop i p c s
  | Served _ _ | Started_ _ | Quiesced _ | Stopped _ _ => None
  end.

Inductive action :=
| Spawn (i : nat) (o : operation)
| Advance (i : nat) (c : choice)
| Finish (c : choice)
| BeginAdmission
| EndAdmission
| LoopsReturn.

Definition act (x : action) (s : server) : option server :=
  match x with
  | Spawn i o => if bool_decide (threads s !! i = None) then Some (set_thread i (entry o) s) else None
  | Advance i c => t ← threads s !! i; '(s, t) ← advance i t c s; Some (set_thread i t s)
  | Finish c => p ← finish s; finishQuiesce p c s
  | BeginAdmission =>
      match beginAdmission (gate s) with (None, g) => Some (set_gate g (S (inside s)) s) | (Some _, _) => None end
  | EndAdmission => match inside s with O => None | S n => g ← endAdmission (gate s); Some (set_gate g n s) end
  | LoopsReturn => if cancelled (lp s) && negb (loopsDone (lp s)) then Some (set_lp (MkLoops (launches (lp s)) true true) s) else None
  end.

Definition step (s s' : server) : Prop := exists x, act x s = Some s'.
Definition reachable_server : server -> Prop := reachable (fun s => s = initial_server) step.

(** ** Where a caller is *)
Definition in_start (t : thread) : option start_pc :=
  match t with Serving_ p => p | Starting p => Some p | _ => None end.

(** What [Stop] has closed at a point of its teardown, the latest first. *)
Definition listener_closed (s : server) : list closing := match http_ s with Some _ => [CloseListener] | None => [] end.
Definition sweeps_cancelled (s : server) : list closing := if Nat.eqb (launches (lp s)) 0 then [] else [CancelSweeps].

Definition torn (p : stop_pc) (s : server) : list closing :=
  match p with
  | SpRealtime _ _ => listener_closed s
  | SpWakes _ => CloseRealtime :: listener_closed s
  | SpCancel _ => CloseWakes :: CloseRealtime :: listener_closed s
  | SpWait _ | SpDemand _ => sweeps_cancelled s ++ CloseWakes :: CloseRealtime :: listener_closed s
  | SpBindings _ => CloseDemand :: sweeps_cancelled s ++ CloseWakes :: CloseRealtime :: listener_closed s
  | SpLive _ => CloseBindings :: CloseDemand :: sweeps_cancelled s ++ CloseWakes :: CloseRealtime :: listener_closed s
  | SpPool _ => CloseLive :: CloseBindings :: CloseDemand :: sweeps_cancelled s ++ CloseWakes :: CloseRealtime :: listener_closed s
  | _ => []
  end.

Definition torn_down (s : server) : list closing := ClosePool :: torn (SpPool None) s.

(** The error [Stop] carries, once it is past the fence. *)
Definition stop_err (p : stop_pc) : option (option error) :=
  match p with
  | SpQuiesce _ | SpJoin _ => None
  | SpLock e | SpCheck e | SpListener e | SpRealtime _ e | SpWakes e | SpCancel e | SpWait e | SpDemand e | SpBindings e | SpLive e | SpPool e => Some e
  end.

(** Whether the teardown has begun, has passed the node, has passed the sweeps. *)
Definition tearing (p : stop_pc) : bool :=
  match p with SpQuiesce _ | SpJoin _ | SpLock _ | SpCheck _ => false | _ => true end.
Definition past_node (p : stop_pc) : bool :=
  match p with SpWakes _ | SpCancel _ | SpWait _ | SpDemand _ | SpBindings _ | SpLive _ | SpPool _ => true | _ => false end.
Definition past_sweeps (p : stop_pc) : bool :=
  match p with SpDemand _ | SpBindings _ | SpLive _ | SpPool _ => true | _ => false end.

(** Whether a caller is between [lifecycle.Lock] and its unlock. *)
Definition owns (t : thread) : bool :=
  match t with
  | Serving_ (Some p) | Starting p => match p with StLock => false | _ => true end
  | Stopping p => tearing p || match p with SpCheck _ => true | _ => false end
  | _ => false
  end.

Definition early (f : option finish_pc) : Prop := f = None \/ f = Some FqLock.
Definition loops_over (s : server) : Prop := launches (lp s) = O \/ loopsDone (lp s) = true.

(** What holds while a caller holds the lock. *)
Definition launching (n : nat) (s : server) : Prop :=
  started s = true /\ startFailed s = false /\ launches (lp s) = O /\ boots (rt s) = n
  /\ state s <> stateStopped /\ early (finish s).
Definition start_ok (p : start_pc) (s : server) : Prop :=
  match p with StRealtime => launching 0 s | StLaunch => launching 1 s | _ => True end.
Definition stop_ok (p : stop_pc) (s : server) : Prop :=
  match p with
  | SpRealtime RtShutdown _ => False
  | _ =>
      tearing p = true -> state s = stateStopped /\ closings s = torn p s
        /\ (stop_err p = Some None -> (past_node p = true -> node (rt s) = false) /\ (past_sweeps p = true -> loops_over s))
  end.
Definition crit_ok (t : thread) (s : server) : Prop :=
  match t with
  | Serving_ (Some p) | Starting p => start_ok p s
  | Stopping p => stop_ok p s
  | _ => True
  end.

(** What holds wherever a caller is, and stays. *)
Definition stable_ok (t : thread) (s : server) : Prop :=
  match t with
  | Accepting => started s = true /\ (startFailed s = true \/ launches (lp s) = 1%nat)
  | Stopping p =>
      match stop_err p with
      | Some e => finish s = Some FqReturned /\ (e = None -> quiesceResult s = Some None)
      | None => True
      end
  | Quiesced None => finish s = Some FqReturned /\ quiesceResult s = Some None
  | Stopped true e =>
      finish s = Some FqReturned /\ state s = stateStopped /\ closings s = torn_down s
      /\ (e = None -> quiesceResult s = Some None /\ node (rt s) = false /\ loops_over s)
  | _ => True
  end.

Definition thread_ok (i : nat) (t : thread) (s : server) : Prop :=
  (owns t = true -> lifecycle s = Some (Caller i)) /\ crit_ok t s /\ stable_ok t s.

(** Where [finishQuiesce] is, and what it has done. *)
Definition node_ok (r : realtime) : Prop :=
  (boots r <= 1)%nat /\
  match realtimeDone r with
  | None => shutdowns r = O /\ node r = Nat.eqb (boots r) 1
  | Some None => shutdowns r = O /\ node r = true /\ boots r = 1%nat
  | Some (Some e) => shutdowns r = 1%nat /\ node r = negb (bool_decide (e = None)) /\ boots r = 1%nat
  end.

Definition fenced (s : server) : Prop := quiescing s = true /\ gateClosed (gate s) = true.
Definition pending_ (s : server) : Prop := quiesceResult s = None /\ realtimeDone (rt s) = None.

Definition finish_ok (s : server) : Prop :=
  match finish s with
  | None => quiescing s = false /\ gateClosed (gate s) = false /\ pending_ s
  | Some FqLock => quiescing s = true /\ gateClosed (gate s) = false /\ pending_ s
  | Some FqFence => quiescing s = true /\ gateClosed (gate s) = false /\ pending_ s /\ lifecycle s = Some Finisher
  | Some FqDrain => fenced s /\ pending_ s
  | Some (FqRealtime RtEnter) => fenced s /\ inside s = O /\ pending_ s
  | Some (FqRealtime RtWait) => False
  | Some (FqRealtime RtShutdown) => fenced s /\ inside s = O /\ quiesceResult s = None /\ realtimeDone (rt s) = Some None
  | Some FqReturned =>
      fenced s /\ inside s = O /\ exists r, quiesceResult s = Some r
        /\ (boots (rt s) = O /\ r = None /\ realtimeDone (rt s) = None \/ realtimeDone (rt s) = Some (Some r))
  end.

Record glob (s : server) : Prop := {
  si_gate : gate_inv (gate s, inside s);
  si_node : node_ok (rt s);
  si_finish : finish_ok s;
  si_finisher : lifecycle s = Some Finisher -> finish s = Some FqFence;
  si_idle : started s = false -> boots (rt s) = O /\ launches (lp s) = O /\ startFailed s = false;
  si_launches : (launches (lp s) <= 1)%nat;
  si_open : state s <> stateStopped -> closings s = [];
  si_served : state s = stateIdle -> http_ s = None;
  si_fenced : state s = stateStopped -> finish s = Some FqReturned
}.

(** A server that was started has its planes, or failed to, or is starting. *)
Definition starting_ok (s : server) (starts : Prop) : Prop :=
  started s = true -> startFailed s = true \/ launches (lp s) = 1%nat \/ starts.

Definition is_starting (t : thread) : Prop := in_start t = Some StRealtime \/ in_start t = Some StLaunch.

Record server_inv (s : server) : Prop := {
  si_glob : glob s;
  si_started : starting_ok s (exists i t, threads s !! i = Some t /\ is_starting t);
  si_threads : forall i t, threads s !! i = Some t -> thread_ok i t s
}.

(** ** Framing *)

(** What no step takes back. *)
Record mono (s s' : server) : Prop := {
  m_finish : finish s = Some FqReturned -> finish s' = Some FqReturned /\ quiesceResult s' = quiesceResult s;
  m_started : started s = true -> started s' = true;
  m_failed : startFailed s = true -> startFailed s' = true;
  m_launch : launches (lp s) = 1%nat -> launches (lp s') = 1%nat;
  m_stopped : state s = stateStopped -> closings s = torn_down s ->
    state s' = stateStopped /\ closings s' = torn_down s'
    /\ (node (rt s) = false -> node (rt s') = false) /\ (loops_over s -> loops_over s')
}.

Lemma stable_mono t s s' : mono s s' -> stable_ok t s -> stable_ok t s'.
Proof.
  intros [MF MS MX ML MD]. destruct t as [| | | |p| | |[e|]|[|] e]; simpl; try done.
  - intros [? [?|?]]; auto.
  - destruct (stop_err p) as [e|]; [|done]. intros [Hf He]. destruct (MF Hf) as [? Hq]. split; [done|]. rewrite Hq. done.
  - intros [Hf Hq]. destruct (MF Hf) as [? Hq']. by rewrite Hq'.
  - intros (Hf & Hs & Hc & He). destruct (MF Hf) as [? Hq]. destruct (MD Hs Hc) as (? & ? & Hn & Hl). split_and!; try done.
    rewrite Hq. intros ->. destruct He as (? & ? & ?); auto.
Qed.

Lemma crit_free t s : owns t = false -> crit_ok t s.
Proof. destruct t as [[[]|]| |[]| |[]| | | |]; simpl; try done. Qed.

Lemma torn_not_down p s : closings s = torn p s -> closings s <> torn_down s.
Proof.
  intros ->. unfold torn_down. intros Heq. apply (f_equal length) in Heq. simpl in Heq.
  destruct p; simpl in Heq; rewrite ?length_app in Heq; simpl in Heq; lia.
Qed.

(** A step of caller [i] that leaves the other callers where they are. *)
Lemma inv_thread i t' s s1 :
  server_inv s -> threads s1 = threads s -> mono s s1 -> glob s1 -> thread_ok i t' s1 ->
  (forall j tj, j <> i -> threads s !! j = Some tj -> owns tj = true -> crit_ok tj s1 /\ lifecycle s1 = lifecycle s) ->
  starting_ok s1 (is_starting t' \/ exists j tj, j <> i /\ threads s !! j = Some tj /\ is_starting tj) ->
  server_inv (set_thread i t' s1).
Proof.
  intros Hi Ht Hm Hg Hok Hoth Hst. destruct s1 as [st q qr sd sf h l g n r lo cl th f]. simpl in Ht. subst th.
  assert (Hf : forall j tj, thread_ok j tj (MkServer_ st q qr sd sf h l g n r lo cl (threads s) f) ->
    thread_ok j tj (set_thread i t' (MkServer_ st q qr sd sf h l g n r lo cl (threads s) f))).
  { intros j tj Hj. destruct tj as [[[]|]| |[]| |[]| | |[|]|[|] e]; done. }
  split.
  - by destruct Hg.
  - intros Hs. destruct (Hst Hs) as [?|[?|[?|(j & tj & Hne & Hj & Hp)]]]; [by left|by right; left|right; right|right; right]; simpl.
    + exists i, t'. by rewrite lookup_insert_eq.
    + exists j, tj. by rewrite lookup_insert_ne.
  - intros j tj. simpl. destruct (decide (i = j)) as [<-|Hne].
    + rewrite lookup_insert_eq. intros [= <-]. by apply Hf.
    + rewrite lookup_insert_ne by done. intros Hj. apply Hf. destruct (si_threads _ Hi j tj Hj) as (Ho & Hc & Hstb).
      split; [|split; [|by eapply stable_mono]].
      * intros Hown. destruct (Hoth j tj) as [_ Hl]; [done..|]. simpl in *. rewrite Hl. auto.
      * destruct (owns tj) eqn:Hown; [by apply (Hoth j tj)|by apply crit_free].
Qed.

(** No other caller holds the lock the caller [i] holds, or nobody does. *)
Lemma others_free i s (Q : nat -> thread -> Prop) :
  server_inv s -> lifecycle s = None \/ lifecycle s = Some (Caller i) \/ lifecycle s = Some Finisher ->
  forall j tj, j <> i -> threads s !! j = Some tj -> owns tj = true -> Q j tj.
Proof.
  intros Hi Hl j tj Hne Hj Ho. destruct (si_threads _ Hi j tj Hj) as (Hown & _ & _). specialize (Hown Ho).
  exfalso. destruct Hl as [?|[?|?]]; congruence.
Qed.

(** Those that were starting and are not caller [i]. *)
Lemma starting_others i t t' s s1 :
  server_inv s -> threads s !! i = Some t -> (is_starting t -> is_starting t') ->
  (started s1 = true -> started s = true) -> (startFailed s = true -> startFailed s1 = true) ->
  (launches (lp s) = 1%nat -> launches (lp s1) = 1%nat) ->
  starting_ok s1 (is_starting t' \/ exists j tj, j <> i /\ threads s !! j = Some tj /\ is_starting tj).
Proof.
  intros Hi Ht Htt Hs Hf Hl Hs1. destruct (si_started _ Hi (Hs Hs1)) as [?|[?|(j & tj & Hj & Hp)]]; [auto..|].
  right. right. destruct (decide (j = i)) as [->|Hne]; [left; apply Htt; congruence|]. right. eauto.
Qed.

Lemma mono_refl s : mono s s.
Proof. by split. Qed.

Lemma quiet_finish s : finish_ok s -> quiescing s = false -> finish s = None.
Proof. unfold finish_ok, fenced. destruct (finish s) as [[| | |[]|]|]; intros; destruct_and?; (done || congruence). Qed.

(** Taking and giving back the lock, for a caller. *)
Lemma glob_lock x s : glob s -> lifecycle s <> Some Finisher -> x <> Some Finisher -> glob (set_lock x s).
Proof.
  intros [G1 G2 G3 G4 G5 G6 G7 G8 G9] Hl Hx. destruct s as [st q qr sd sf h l g n r lo cl th f]. split; try done.
  unfold finish_ok in *. simpl in *. destruct f as [[| | | |]|]; try done. by destruct G3 as (_ & _ & _ & ?).
Qed.

Lemma mono_lock x s : mono s (set_lock x s).
Proof. destruct s. by split. Qed.

(** ** [Start] *)
Definition next_start (next : start_pc + option error) (t' : thread) : Prop :=
  match next with
  | inl p => t' = Serving_ (Some p) \/ t' = Starting p
  | inr err => t' = served err \/ t' = Started_ err
  end.

Lemma returned_ok i err t' s :
  next_start (inr err) t' -> (served err = Accepting -> started s = true /\ (startFailed s = true \/ launches (lp s) = 1%nat)) ->
  thread_ok i t' s /\ ~ is_starting t'.
Proof.
  intros Hn Hacc. assert (Ho : owns t' = false /\ ~ is_starting t').
  { destruct Hn as [->| ->]; [|split; [done|by intros []]]. unfold served. repeat case_match; (split; [done|by intros []]). }
  destruct Ho as [Ho Hs]. split; [|done]. split; [by rewrite Ho|]. split; [by apply crit_free|].
  destruct Hn as [->| ->]; [|done]. unfold served in *. destruct err as [err|]; [|by apply Hacc].
  destruct (errors_is err (Sentinel "factory.ErrAlreadyStarted")); [by apply Hacc|]. by case_match.
Qed.

Lemma going_on i p t' s : next_start (inl p) t' -> p <> StLock -> lifecycle s = Some (Caller i) -> start_ok p s -> thread_ok i t' s.
Proof. intros [->| ->] Hp Hl Hok; destruct p; done. Qed.

Lemma starting_free i s j tj :
  server_inv s -> lifecycle s = Some (Caller i) -> threads s !! j = Some tj -> is_starting tj -> j = i.
Proof.
  intros Hi Hl Hj Hs. destruct (si_threads _ Hi j tj Hj) as (Ho & _ & _).
  assert (owns tj = true) as Hown by (destruct Hs as [Hs|Hs]; destruct tj as [[[]|]| |[]| |[]| | | |]; done).
  specialize (Ho Hown). congruence.
Qed.

Lemma inv_start i t p c s s1 next t' :
  server_inv s -> threads s !! i = Some t -> (t = Serving_ (Some p) \/ t = Starting p) -> start i p c s = Some (s1, next) ->
  next_start next t' -> server_inv (set_thread i t' s1).
Proof.
  intros Hi Ht Hin Hst Hn. pose proof (si_glob _ Hi) as Hg. destruct (si_threads _ Hi i t Ht) as (Hown & Hcrit & _).
  assert (Hc : start_ok p s) by (destruct Hin as [->| ->]; done).
  assert (Hl : p <> StLock -> lifecycle s = Some (Caller i)) by (intros Hp; apply Hown; destruct Hin as [->| ->]; by destruct p).
  assert (Hnot : p = StLock \/ p = StCheck -> ~ is_starting t)
    by (intros Hp; destruct Hin as [->| ->]; destruct Hp as [->| ->]; by intros []).
  destruct p; simpl in Hst.
  - unfold lock_ in Hst. destruct (lifecycle s) eqn:Hls; simpl in Hst; [done|]. injection Hst as <- <-.
    apply (inv_thread i t' s); [done|by destruct s|apply mono_lock|apply glob_lock; [done|congruence|done]| | |].
    + eapply going_on; [done|done|by destruct s|done].
    + apply others_free; [done|by left].
    + apply (starting_others i t); try done; [intros ?; exfalso; by apply Hnot; [left|]|by destruct s..].
  - specialize (Hl ltac:(done)).
    assert (Hret : forall err, next_start (inr err) t' ->
      (served err = Accepting -> started s = true /\ (startFailed s = true \/ launches (lp s) = 1%nat)) ->
      server_inv (set_thread i t' (unlock s))).
    { intros err Hr Hacc. destruct (returned_ok i err t' (unlock s) Hr) as [Hok _]; [by destruct s|].
      apply (inv_thread i t' s); [done|by destruct s|apply mono_lock|apply glob_lock; [done|congruence|done]|done| |].
      - apply others_free; [done|by right; left].
      - apply (starting_others i t); try done; [intros ?; exfalso; by apply Hnot; [right|]|by destruct s..]. }
    case_bool_decide as Hstate; [injection Hst as <- <-; by apply (Hret _ Hn)|].
    destruct (quiescing s) eqn:Hq; [injection Hst as <- <-; by apply (Hret _ Hn)|].
    destruct (started s) eqn:Hs.
    + injection Hst as <- <-. apply (Hret _ Hn). intros _. split; [done|].
      destruct (si_started _ Hi Hs) as [?|[?|(j & tj & Hj & Hp)]]; [auto..|].
      pose proof (starting_free i s j tj Hi Hl Hj Hp) as ->. exfalso. apply Hnot; [by right|]. congruence.
    + injection Hst as <- <-. destruct (si_idle _ Hg Hs) as (Hb & Hla & Hsf).
      pose proof (si_finish _ Hg) as Hfin. assert (He : early (finish s)).
      { left. by apply quiet_finish. }
      apply (inv_thread i t' s); [done|by destruct s|by destruct s; split| | | |].
      * destruct Hg as [G1 G2 G3 G4 G5 G6 G7 G8 G9]. destruct s. by split.
      * apply (going_on i StRealtime); [done|done|by destruct s|]. destruct s. simpl in *. by split_and!.
      * apply others_free; [done|by right; left].
      * intros _. right. right. left. destruct Hn as [->| ->]; by left.
  - specialize (Hl ltac:(done)). destruct Hc as (Hs & Hsf & Hla & Hb & Hne & He). unfold startRealtime in Hst.
    destruct (failure_ c) as [err|]; injection Hst as <- <-.
    + destruct (returned_ok i _ t' (unlock (set_failed s)) Hn) as [Hok _]; [intros _; destruct s; simpl in *; auto|].
      apply (inv_thread i t' s); [done|by destruct s|by destruct s; split| |done| |].
      * apply glob_lock; [|destruct s; simpl in *; congruence|done]. destruct Hg as [G1 G2 G3 G4 G5 G6 G7 G8 G9].
        destruct s. simpl in *. split; try done. simpl. congruence.
      * apply others_free; [done|by right; left].
      * intros _. left. by destruct s.
    + assert (Hrt : realtimeDone (rt s) = None).
      { pose proof (si_finish _ Hg) as Hfin. unfold finish_ok, pending_ in Hfin. destruct He as [He|He]; rewrite He in Hfin; tauto. }
      pose proof (si_node _ Hg) as Hnode. unfold node_ok in Hnode. rewrite Hrt in Hnode. destruct Hnode as (_ & Hsh & _).
      apply (inv_thread i t' s); [done|by destruct s|by destruct s; split| | | |].
      * destruct Hg as [G1 G2 G3 G4 G5 G6 G7 G8 G9]. destruct s as [st q qr sd sf h l g n [nd rd bo sh] lo cl th f]. simpl in *. subst.
        split; try done.
        -- unfold finish_ok in *. simpl in *. by destruct He as [->| ->].
      * apply (going_on i StLaunch); [done|done|by destruct s|]. destruct s. simpl in *. split_and!; simpl; (done || congruence || lia).
      * apply others_free; [done|by right; left].
      * intros _. right. right. left. destruct Hn as [->| ->]; by right.
  - specialize (Hl ltac:(done)). destruct Hc as (Hs & Hsf & Hla & Hb & Hne & He). injection Hst as <- <-.
    destruct (returned_ok i None t' (unlock (set_lp (MkLoops (S (launches (lp s))) false false) s)) Hn) as [Hok _].
    { intros _. destruct s. simpl in *. rewrite Hla. auto. }
    apply (inv_thread i t' s); [done|by destruct s| | |done| |].
    + destruct s. split; simpl in *; try done. congruence.
    + apply glob_lock; [|destruct s; simpl in *; congruence|done]. destruct Hg as [G1 G2 G3 G4 G5 G6 G7 G8 G9].
      destruct s. simpl in *. split; try done; simpl; [congruence|lia].
    + apply others_free; [done|by right; left].
    + intros _. right. left. destruct s. simpl in *. by rewrite Hla.
Qed.

(** ** Steps outside the lock *)
Record quiet (s s' : server) : Prop := {
  q_threads : threads s' = threads s;
  q_mono : mono s s';
  q_glob : glob s';
  q_lock : lifecycle s' = lifecycle s;
  q_crit : forall t, crit_ok t s -> crit_ok t s';
  q_started : started s' = started s;
  q_failed : startFailed s' = startFailed s;
  q_launches : launches (lp s') = launches (lp s)
}.

Lemma quiet_refl s : server_inv s -> quiet s s.
Proof. intros [Hg _ _]. by split. Qed.

Lemma inv_quiet i t t' s s1 :
  server_inv s -> threads s !! i = Some t -> quiet s s1 -> ~ is_starting t -> owns t' = false -> stable_ok t' s1 ->
  server_inv (set_thread i t' s1).
Proof.
  intros Hi Ht [Q1 Q2 Q3 Q4 Q5 Q6 Q7 Q8] Hns Ho Hst.
  apply (inv_thread i t' s); [done|done|done|done| | |].
  - split; [by rewrite Ho|]. split; [|done]. by apply crit_free.
  - intros j tj _ Hj _. split; [|done]. apply Q5. by destruct (si_threads _ Hi j tj Hj) as (_ & ? & _).
  - apply (starting_others i t); (done || congruence).
Qed.

Lemma quiet_quiescing s : server_inv s -> quiescing s = false -> quiet s (set_quiescing s).
Proof.
  intros [Hg _ _] Hq. pose proof (quiet_finish s (si_finish _ Hg) Hq) as Hf. destruct Hg as [G1 G2 G3 G4 G5 G6 G7 G8 G9].
  unfold finish_ok in G3. rewrite Hf in G3. destruct s as [st q qr sd sf h l g n r lo cl th f]. simpl in *. subst.
  split; try done.
  - split; try done; unfold finish_ok; simpl; [tauto| |]; [intros Hl; by specialize (G4 Hl)|intros Hs; by specialize (G9 Hs)].
  - intros t. destruct t as [[[]|]| |[]| |[]| | | |]; simpl; try done; intros (?&?&?&?&?&?); by split_and!; try right.
Qed.

Lemma quiet_claim s : server_inv s -> state s = stateIdle -> quiescing s = false -> quiet s (set_http (Some false) (set_state stateServing s)).
Proof.
  intros [Hg _ _] Hst Hq. destruct Hg as [G1 G2 G3 G4 G5 G6 G7 G8 G9]. destruct s as [st q qr sd sf h l g n r lo cl th f]. simpl in *. subst.
  split; try done.
  - split; try done. simpl. intros _. by apply G7.
  - intros t. destruct t as [[[]|]| |[]| |p| | | |]; simpl; try done.
    + intros (?&?&?&?&?&?); by split_and!.
    + intros (?&?&?&?&?&?); by split_and!.
    + intros (?&?&?&?&?&?); by split_and!.
    + intros (?&?&?&?&?&?); by split_and!.
    + unfold stop_ok. destruct p as [| | | | |[]| | | | | | |]; simpl; try done; intros Hp Htear; specialize (Hp Htear); by destruct Hp as [? _].
Qed.

Lemma quiesce_quiet p c s s1 next : server_inv s -> quiesce p c s = Some (s1, next) ->
  quiet s s1 /\ (next = inr None -> finish s1 = Some FqReturned /\ quiesceResult s1 = Some None).
Proof.
  intros Hi Hq. pose proof (si_finish _ (si_glob _ Hi)) as Hf.
  assert (Hres : quiesceResult s = Some None -> finish s = Some FqReturned).
  { unfold finish_ok, pending_ in Hf. destruct (finish s) as [[| | |[]|]|]; intros; destruct_and?; (done || congruence). }
  destruct p; simpl in Hq.
  - injection Hq as <- <-. split; [|done]. destruct (quiescing s) eqn:Hqs; [by apply quiet_refl|by apply quiet_quiescing].
  - injection Hq as <- <-. split; [by apply quiet_refl|]. destruct (quiesceResult s) as [err|]; [|done]. intros [= ->]. auto.
  - destruct (ctx c) as [e|]; [injection Hq as <- <-; split; [by apply quiet_refl|done]|].
    destruct (quiesceResult s) as [err|] eqn:Hr; simpl in Hq; [|done]. injection Hq as <- <-. split; [by apply quiet_refl|]. intros [= ->]. auto.
Qed.

(** ** [Stop] *)

(** A step of the teardown. *)
Lemma inv_tear i p t' s s1 :
  server_inv s -> threads s !! i = Some (Stopping p) -> tearing p = true ->
  threads s1 = threads s -> finish s1 = finish s -> quiesceResult s1 = quiesceResult s -> started s1 = started s ->
  startFailed s1 = startFailed s -> launches (lp s1) = launches (lp s) -> glob s1 -> thread_ok i t' s1 ->
  server_inv (set_thread i t' s1).
Proof.
  intros Hi Ht Hp E1 E2 E3 E4 E5 E6 Hg Hok. destruct (si_threads _ Hi i _ Ht) as (Hown & Hcrit & _).
  assert (Hl : lifecycle s = Some (Caller i)) by (apply Hown; simpl; by rewrite Hp).
  assert (Hc : closings s = torn p s) by (simpl in Hcrit; destruct p as [| | | | |[]| | | | | | |]; try done; by apply Hcrit).
  apply (inv_thread i t' s); [done|done| |done|done| |].
  - split; rewrite ?E2, ?E3, ?E4, ?E5, ?E6; try done. intros _ Hd. by apply torn_not_down in Hc.
  - apply others_free; [done|by right; left].
  - apply (starting_others i (Stopping p)); try done; (by intros []) || congruence.
Qed.

(** Closing one more. *)
Lemma glob_close x s : glob s -> state s = stateStopped -> glob (close_ x s).
Proof. intros [G1 G2 G3 G4 G5 G6 G7 G8 G9] Hs. destruct s. simpl in *. by split. Qed.

Lemma join_none a b : join a b = None -> a = None /\ b = None.
Proof. unfold join. destruct b, a; done. Qed.

(** What the teardown carries from one step to the next. *)
Lemma tear_ok i p p' s s1 :
  thread_ok i (Stopping p) s -> lifecycle s1 = lifecycle s -> tearing p = true -> tearing p' = true ->
  (forall e, p' <> SpRealtime RtShutdown e) -> state s1 = stateStopped -> closings s1 = torn p' s1 ->
  finish s1 = finish s -> quiesceResult s1 = quiesceResult s ->
  (stop_err p' = Some None -> stop_err p = Some None) ->
  (stop_err p' = Some None -> (past_node p' = true -> node (rt s1) = false) /\ (past_sweeps p' = true -> loops_over s1)) ->
  thread_ok i (Stopping p') s1.
Proof.
  intros (Ho & Hc & Hst) Hl Hp Hp' Hno Hs Hcl Hf Hq He Hpast. split; [|split].
  - intros _. rewrite Hl. apply Ho. simpl. by rewrite Hp.
  - simpl. destruct p' as [| | | | |[]| | | | | | |]; try done. by destruct (Hno err).
  - simpl in *. destruct p; try done; destruct p'; try done; simpl in *; destruct Hst as [? Hr]; rewrite Hf, Hq; (split; [done|]);
      intros ->; apply Hr; specialize (He eq_refl); congruence.
Qed.

(** The last of them. *)
Lemma torn_ok i err s s1 :
  thread_ok i (Stopping (SpPool err)) s -> finish s1 = finish s -> quiesceResult s1 = quiesceResult s -> state s1 = stateStopped ->
  closings s1 = torn_down s1 -> rt s1 = rt s -> lp s1 = lp s ->
  forall e, (e = None -> err = None) -> thread_ok i (Stopped true e) s1.
Proof.
  intros (_ & Hc & Hst) Hf Hq Hs Hcl Hr Hlp e He. split; [done|]. split; [done|]. simpl in *. destruct Hst as [? Hqr].
  unfold loops_over. rewrite Hf, Hq, Hr, Hlp. split_and!; try done. intros ->. specialize (He eq_refl). subst err.
  destruct Hc as (_ & _ & Hc); [done|]. destruct Hc as [Hn Hl]; [done|]. split; [by apply Hqr|]. split; [by apply Hn|by apply Hl].
Qed.

Section Tear.
Context (i : nat) (c : choice) (s : server) (Hi : server_inv s).

Lemma tear_state p : threads s !! i = Some (Stopping p) -> tearing p = true ->
  state s = stateStopped /\ closings s = torn p s /\ lifecycle s = Some (Caller i) /\ finish s = Some FqReturned
  /\ (stop_err p = Some None -> (past_node p = true -> node (rt s) = false) /\ (past_sweeps p = true -> loops_over s)).
Proof.
  intros Ht Hp. destruct (si_threads _ Hi i _ Ht) as (Ho & Hc & Hs). simpl in *. rewrite Hp in Ho. simpl in Ho.
  destruct p as [| | | | |[]| | | | | | |]; try done; destruct (Hc eq_refl) as (? & ? & ?); destruct Hs as [? _]; by split_and!; auto.
Qed.

(** A step that closes one component and goes on. *)
Lemma tear_close x p p' err :
  threads s !! i = Some (Stopping p) -> tearing p = true -> tearing p' = true -> stop_err p = Some err ->
  stop_err p' = Some (join err (failure_ c)) -> (forall q e, p' <> SpRealtime q e) ->
  x :: torn p s = torn p' (close_ x s) -> past_node p' = past_node p -> past_sweeps p' = past_sweeps p ->
  server_inv (set_thread i (Stopping p') (close_ x s)).
Proof.
  intros Ht Hp Hp' He He' Hno Htorn Hn Hsw. destruct (tear_state p Ht Hp) as (Hst & Hcl & Hl & Hf & Hpast).
  apply (inv_tear i p _ s); try done; try (by destruct s).
  - apply glob_close; [apply (si_glob _ Hi)|done].
  - apply (tear_ok i p p' s); try done; try (by destruct s).
    + by apply (si_threads _ Hi).
    + rewrite <- Htorn, <- Hcl. by destruct s.
    + rewrite He, He'. intros [= Hj]. apply join_none in Hj as [-> _]. done.
    + rewrite Hn, Hsw. intros Hj. destruct Hpast as [Hp1 Hp2].
      { rewrite He' in Hj. injection Hj as Hj. apply join_none in Hj as [-> _]. done. }
      unfold loops_over in *. destruct s. done.
Qed.

Lemma tear_listener err s1 t' :
  threads s !! i = Some (Stopping (SpListener err)) -> stop i (SpListener err) c s = Some (s1, t') -> server_inv (set_thread i t' s1).
Proof.
  intros Ht Hstep. destruct (tear_state _ Ht eq_refl) as (Hst & Hcl & Hl & Hf & _). simpl in *.
  pose proof (si_threads _ Hi i _ Ht) as Hok. pose proof (si_glob _ Hi) as Hg.
  destruct (http_ s) as [b|] eqn:Hh; injection Hstep as <- <-; (apply (inv_tear i (SpListener err) _ s); try done; try (by destruct s)).
  - apply glob_close; [|by destruct s]. destruct Hg as [G1 G2 G3 G4 G5 G6 G7 G8 G9]. destruct s. simpl in *. subst. by split.
  - apply (tear_ok i (SpListener err) _ s); try done; try (by destruct s).
    + destruct s. simpl in *. by rewrite Hcl.
    + simpl. intros [= Hj]. apply join_none in Hj as [-> _]. done.
  - apply (tear_ok i (SpListener err) _ s); try done. simpl. unfold listener_closed. by rewrite Hh.
Qed.

Lemma tear_realtime p err s1 t' :
  threads s !! i = Some (Stopping (SpRealtime p err)) -> stop i (SpRealtime p err) c s = Some (s1, t') -> server_inv (set_thread i t' s1).
Proof.
  intros Ht Hstep. pose proof (si_threads _ Hi i _ Ht) as Hok. pose proof (si_glob _ Hi) as Hg.
  destruct (tear_state _ Ht eq_refl) as (Hst & Hcl & Hl & Hf & _).
  pose proof (si_node _ Hg) as Hn. pose proof (si_finish _ Hg) as Hfin. unfold finish_ok in Hfin. rewrite Hf in Hfin.
  destruct Hfin as (_ & _ & r & _ & Hr).
  assert (Hsame : set_rt (rt s) s = s) by by destruct s.
  assert (Hdone : forall e, (e = None -> node (rt s) = false) ->
    server_inv (set_thread i (Stopping (SpWakes (join err e))) (close_ CloseRealtime s))).
  { intros e He. apply (inv_tear i (SpRealtime p err) _ s); try done; try (by destruct s); [by apply glob_close|].
    apply (tear_ok i (SpRealtime p err) _ s); try done; try (by destruct s).
    - destruct s. simpl in *. by rewrite Hcl.
    - simpl. intros [= Hj]. by apply join_none in Hj as [-> _].
    - simpl. intros [= Hj]. apply join_none in Hj as [_ ->]. split; [|done]. intros _. destruct s. by apply He. }
  assert (Hbase : threads s !! i = Some (Stopping (SpRealtime p err))) by done.
  destruct p; simpl in Hstep.
  - destruct (realtimeDone (rt s)) as [d|] eqn:Hd; simpl in Hstep.
    + injection Hstep as <- <-. rewrite Hsame. apply (inv_tear i (SpRealtime RtEnter err) _ s); try done.
    + destruct Hr as [(Hb & _ & _)|?]; [|done]. unfold node_ok in Hn. rewrite Hd, Hb in Hn. destruct Hn as (_ & _ & Hn). simpl in Hn.
      rewrite Hn in Hstep. simpl in Hstep. injection Hstep as <- <-. rewrite Hsame. by apply (Hdone None).
  - destruct (ctx c) as [e|]; simpl in Hstep; [injection Hstep as <- <-; rewrite Hsame; by apply (Hdone (Some e))|].
    destruct (realtimeDone (rt s)) as [[e|]|] eqn:Hd; simpl in Hstep; try done. injection Hstep as <- <-. rewrite Hsame. apply (Hdone e).
    intros ->. unfold node_ok in Hn. rewrite Hd in Hn. by destruct Hn as (_ & _ & -> & _).
  - by destruct Hok as (_ & Hbad & _).
Qed.

Lemma tear_cancel err s1 t' :
  threads s !! i = Some (Stopping (SpCancel err)) -> stop i (SpCancel err) c s = Some (s1, t') -> server_inv (set_thread i t' s1).
Proof.
  intros Ht Hstep. pose proof (si_threads _ Hi i _ Ht) as Hok. pose proof (si_glob _ Hi) as Hg.
  destruct (tear_state _ Ht eq_refl) as (Hst & Hcl & Hl & Hf & Hpast). simpl in Hstep.
  destruct (Nat.eqb_spec (launches (lp s)) 0) as [Hz|Hz]; injection Hstep as <- <-;
    (apply (inv_tear i (SpCancel err) _ s); try done; try (by destruct s)).
  - apply (tear_ok i (SpCancel err) _ s); try done. simpl. unfold sweeps_cancelled. by rewrite Hz.
  - apply glob_close; [|by destruct s]. destruct Hg as [G1 G2 G3 G4 G5 G6 G7 G8 G9]. destruct s. simpl in *. by split.
  - apply (tear_ok i (SpCancel err) _ s); try done; try (by destruct s).
    destruct s. simpl in *. unfold sweeps_cancelled. simpl. destruct (Nat.eqb_spec (launches lp0) 0); [done|]. by rewrite Hcl.
Qed.

Lemma tear_wait err s1 t' :
  threads s !! i = Some (Stopping (SpWait err)) -> stop i (SpWait err) c s = Some (s1, t') -> server_inv (set_thread i t' s1).
Proof.
  intros Ht Hstep. pose proof (si_threads _ Hi i _ Ht) as Hok. pose proof (si_glob _ Hi) as Hg.
  destruct (tear_state _ Ht eq_refl) as (Hst & Hcl & Hl & Hf & Hpast). simpl in Hstep.
  destruct (ctx c) as [e|].
  - injection Hstep as <- <-. apply (inv_tear i (SpWait err) _ s); try done. apply (tear_ok i (SpWait err) _ s); try done; by destruct err.
  - destruct (_ || _) eqn:Hd in Hstep; [|done]. injection Hstep as <- <-. apply (inv_tear i (SpWait err) _ s); try done.
    apply (tear_ok i (SpWait err) _ s); try done. intros He. destruct (Hpast He) as [Hn _]. split; [done|]. intros _.
    unfold loops_over. apply orb_true_iff in Hd as [Hd|Hd]; [left; by apply Nat.eqb_eq|by right].
Qed.

Lemma tear_pool err s1 t' :
  threads s !! i = Some (Stopping (SpPool err)) -> stop i (SpPool err) c s = Some (s1, t') -> server_inv (set_thread i t' s1).
Proof.
  intros Ht Hstep. pose proof (si_threads _ Hi i _ Ht) as Hok. pose proof (si_glob _ Hi) as Hg.
  destruct (tear_state _ Ht eq_refl) as (Hst & Hcl & Hl & Hf & Hpast). simpl in Hstep. injection Hstep as <- <-.
  apply (inv_tear i (SpPool err) _ s); try done; try (by destruct s).
  - apply glob_lock; [by apply glob_close|destruct s; simpl in *; congruence|done].
  - apply (torn_ok i err s); try done; try (by destruct s).
    + destruct s. simpl in *. by rewrite Hcl.
    + intros Hj. by apply join_none in Hj as [-> _].
Qed.

Lemma inv_stop p s1 t' : threads s !! i = Some (Stopping p) -> stop i p c s = Some (s1, t') -> server_inv (set_thread i t' s1).
Proof.
  intros Ht Hstep. pose proof (si_threads _ Hi i _ Ht) as Hok. pose proof (si_glob _ Hi) as Hg.
  assert (Hns : ~ is_starting (Stopping p)) by by intros [].
  destruct p as [p|err|err|err|err|p err|err|err|err|err|err|err|err].
  - simpl in Hstep. destruct (quiesce p c s) as [[s2 next]|] eqn:Hq; simpl in Hstep; [|done]. injection Hstep as <- <-.
    destruct (quiesce_quiet p c s s2 next Hi Hq) as [Hquiet Hnone].
    apply (inv_quiet i (Stopping (SpQuiesce p)) _ s); try done; destruct next as [p'|[e|]]; try done. simpl. by destruct (Hnone eq_refl).
  - simpl in Hstep. pose proof (si_finish _ Hg) as Hfin. destruct (quiesceResult s) as [completed|] eqn:Hr; injection Hstep as <- <-;
      (apply (inv_quiet i (Stopping (SpJoin err)) _ s); try done; try (by apply quiet_refl)).
    assert (Hf : finish s = Some FqReturned).
    { unfold finish_ok, pending_ in Hfin. destruct (finish s) as [[| | |[]|]|]; destruct_and?; (done || congruence). }
    simpl. split; [done|]. destruct completed as [e|]; [|done]. by case_match.
  - simpl in Hstep. unfold lock_ in Hstep. destruct (lifecycle s) eqn:Hls; simpl in Hstep; [done|]. injection Hstep as <- <-.
    apply (inv_thread i _ s); [done|by destruct s|apply mono_lock|apply glob_lock; [done|congruence|done]| | |].
    + destruct Hok as (_ & _ & Hst). destruct s. done.
    + apply others_free; [done|by left].
    + apply (starting_others i (Stopping (SpLock err))); try done; by destruct s.
  - destruct Hok as (Ho & _ & Hst). specialize (Ho eq_refl). simpl in Hstep. case_bool_decide as Hs; injection Hstep as <- <-.
    + apply (inv_thread i _ s); [done|by destruct s|apply mono_lock|apply glob_lock; [done|congruence|done]|done| |].
      * apply others_free; [done|by right; left].
      * apply (starting_others i (Stopping (SpCheck err))); try done; by destruct s.
    + pose proof (si_open _ Hg Hs) as Hcl. apply (inv_thread i _ s); [done|by destruct s|by destruct s; split| | | |].
      * destruct Hg as [G1 G2 G3 G4 G5 G6 G7 G8 G9]. destruct Hst as [Hfin _]. destruct s. simpl in *. by split.
      * destruct s. simpl in *. by split_and!.
      * apply others_free; [done|by right; left].
      * apply (starting_others i (Stopping (SpCheck err))); try done; by destruct s.
  - by eapply tear_listener.
  - by eapply tear_realtime.
  - simpl in Hstep. injection Hstep as <- <-. apply (tear_close CloseWakes (SpWakes err) _ err); try done; by destruct s.
  - by eapply tear_cancel.
  - by eapply tear_wait.
  - simpl in Hstep. injection Hstep as <- <-. apply (tear_close CloseDemand (SpDemand err) _ err); try done; by destruct s.
  - simpl in Hstep. injection Hstep as <- <-. apply (tear_close CloseBindings (SpBindings err) _ err); try done; by destruct s.
  - simpl in Hstep. injection Hstep as <- <-. apply (tear_close CloseLive (SpLive err) _ err); try done; by destruct s.
  - by eapply tear_pool.
Qed.
End Tear.

(** ** The other steps *)
Lemma inv_env s s1 :
  server_inv s -> threads s1 = threads s -> mono s s1 -> glob s1 ->
  (forall i t, threads s !! i = Some t -> owns t = true -> crit_ok t s1 /\ lifecycle s1 = lifecycle s) ->
  started s1 = started s -> startFailed s1 = startFailed s -> launches (lp s1) = launches (lp s) -> server_inv s1.
Proof.
  intros Hi Ht Hm Hg Hc E1 E2 E3. split; [done| |].
  - intros Hs. rewrite E2, E3, Ht. apply (si_started _ Hi). congruence.
  - intros i t. rewrite Ht. intros Hit. destruct (si_threads _ Hi i t Hit) as (Ho & Hcr & Hst). split; [|split; [|by eapply stable_mono]].
    + intros Hown. destruct (Hc i t Hit Hown) as [_ ->]. auto.
    + destruct (owns t) eqn:Hown; [by apply (Hc i t)|by apply crit_free].
Qed.

(** While the fence is falling, whoever holds the lock has yet to look. *)
Lemma falling_crit i t s s1 :
  server_inv s -> threads s !! i = Some t -> ~ early (finish s) -> finish s <> Some FqReturned -> crit_ok t s1.
Proof.
  intros Hi Ht He Hf. destruct (si_threads _ Hi i t Ht) as (_ & Hc & Hst).
  destruct t as [[[]|]| |[]| |p| | | |]; simpl in *; try done; try (by destruct Hc as (_ & _ & _ & _ & _ & ?)).
  destruct p as [| | | | |[]| | | | | | |]; simpl in *; try done; by destruct Hst.
Qed.

Lemma falling_mono s s1 :
  glob s -> finish s <> Some FqReturned -> started s1 = started s -> startFailed s1 = startFailed s -> launches (lp s1) = launches (lp s) ->
  mono s s1.
Proof.
  intros Hg Hf E1 E2 E3. split; rewrite ?E1, ?E2, ?E3; try done. intros Hs. by destruct Hf; apply (si_fenced _ Hg).
Qed.

Lemma inv_finish p c s s1 : server_inv s -> finish s = Some p -> finishQuiesce p c s = Some s1 -> server_inv s1.
Proof.
  intros Hi Hp Hs. pose proof (si_glob _ Hi) as Hg. pose proof (si_finish _ Hg) as Hf. unfold finish_ok in Hf. rewrite Hp in Hf.
  assert (Hstate : p <> FqReturned -> state s <> stateStopped).
  { intros Hne Hst. pose proof (si_fenced _ Hg Hst). congruence. }
  destruct p as [| | |p|]; simpl in Hs; [| | | |done].
  - unfold lock_ in Hs. destruct (lifecycle s) eqn:Hl; simpl in Hs; [done|]. injection Hs as <-.
    apply (inv_env s); try done; try (by destruct s).
    + apply falling_mono; try done; [congruence|by destruct s..].
    + destruct Hg as [G1 G2 G3 G4 G5 G6 G7 G8 G9]. destruct s. simpl in *. split; try done; simpl.
      * unfold finish_ok. simpl. destruct Hf as (? & ? & ?). by split_and!.
      * intros Hst. by specialize (Hstate ltac:(done)).
    + intros i t Hit Ho. destruct (si_threads _ Hi i t Hit) as (Hown & _). specialize (Hown Ho). congruence.
  - destruct Hf as (Hq & Hgc & Hpend & Hl). destruct (gate_inv_fence _ _ (si_gate _ Hg)) as (g' & Hfe & Hgi & Hgc').
    rewrite Hfe in Hs. simpl in Hs. injection Hs as <-. apply (inv_env s); try done; try (by destruct s).
    + apply falling_mono; try done; [congruence|by destruct s..].
    + destruct Hg as [G1 G2 G3 G4 G5 G6 G7 G8 G9]. destruct s. simpl in *. split; try done; simpl.
      intros Hst. by specialize (Hstate ltac:(done)).
    + intros i t Hit Ho. destruct (si_threads _ Hi i t Hit) as (Hown & _). specialize (Hown Ho). congruence.
  - destruct Hf as [Hfe Hpend]. destruct (quiesced (gate s)) eqn:Hqd; [|done]. injection Hs as <-.
    pose proof (si_gate _ Hg) as [_ Hdr]. unfold quiesced in Hqd. apply bool_decide_eq_true in Hqd.
    destruct Hfe as [Hq Hgc]. rewrite Hgc, Hqd in Hdr. injection Hdr as Hz. symmetry in Hz. apply Nat.eqb_eq in Hz.
    apply (inv_env s); try done; try (by destruct s).
    + apply falling_mono; try done; [congruence|by destruct s..].
    + destruct Hg as [G1 G2 G3 G4 G5 G6 G7 G8 G9]. destruct s. simpl in *. split; try done; simpl.
      * intros Hl. specialize (G4 Hl). congruence.
      * intros Hst. by specialize (Hstate ltac:(done)).
    + intros i t Hit Ho. split; [|by destruct s]. apply (falling_crit i t s); try done; rewrite Hp; [by intros []|done].
  - assert (Hcrit : forall s1', threads s1' = threads s -> lifecycle s1' = lifecycle s ->
      forall i t, threads s !! i = Some t -> owns t = true -> crit_ok t s1' /\ lifecycle s1' = lifecycle s).
    { intros s1' _ Hl i t Hit _. split; [|done]. apply (falling_crit i t s); try done; rewrite Hp; [by intros []|done]. }
    pose proof (si_node _ Hg) as Hn. unfold node_ok in Hn. destruct p; [| done |].
    + destruct Hf as (Hfe & Hin & Hqr & Hrd). simpl in Hs. rewrite Hrd in Hs, Hn. destruct Hn as (Hb & Hsh & Hnode).
      destruct (node (rt s)) eqn:Hnd; simpl in Hs; injection Hs as <-;
        (apply (inv_env s); try done; try (by destruct s); [apply falling_mono; try done; [congruence|by destruct s..]| |by apply Hcrit; destruct s]);
        destruct Hg as [G1 G2 G3 G4 G5 G6 G7 G8 G9]; destruct s as [st q qr sd sf h l g n [nd rd bo sh] lo cl th f]; simpl in *; subst;
        (split; try done; simpl; try (intros Hl; by specialize (G4 Hl)); try (intros Hst; by specialize (Hstate ltac:(done)))).
      * unfold node_ok. simpl. split_and!; try done. by apply Nat.eqb_eq.
      * unfold finish_ok. simpl. split_and!; try done. exists None. split; [done|]. left. split_and!; try done.
        destruct bo as [|[|bo]]; [done|done|lia].
    + destruct Hf as (Hfe & Hin & Hqr & Hrd). simpl in Hs. rewrite Hrd in Hn. destruct Hn as (Hb & Hsh & Hnode & Hbo). injection Hs as <-.
      apply (inv_env s); try done; try (by destruct s); [apply falling_mono; try done; [congruence|by destruct s..]| |by apply Hcrit; destruct s].
      destruct Hg as [G1 G2 G3 G4 G5 G6 G7 G8 G9]. destruct s as [st q qr sd sf h l g n [nd rd bo sh] lo cl th f]. simpl in *. subst.
      split; try done; simpl; try (intros Hl; by specialize (G4 Hl)); try (intros Hst; by specialize (Hstate ltac:(done))).
      unfold finish_ok. simpl. split_and!; try done. eauto.
Qed.

(** What the admissions and the loops change. *)
Lemma crit_gate t g n s : crit_ok t s -> crit_ok t (set_gate g n s).
Proof. destruct s. destruct t as [[[]|]| |[]| |[| | | | |[]| | | | | | |]| | | |]; done. Qed.

Lemma inv_gate g n s :
  server_inv s -> gate_inv (g, n) -> gateClosed g = gateClosed (gate s) -> (gateClosed g = true -> (n <= inside s)%nat) ->
  server_inv (set_gate g n s).
Proof.
  intros Hi Hgi Hc Hn. pose proof (si_glob _ Hi) as Hg. apply (inv_env s); try done; try (by destruct s).
  - destruct Hg as [G1 G2 G3 G4 G5 G6 G7 G8 G9]. destruct s as [st q qr sd sf h l g0 n0 r lo cl th f]. simpl in *. split; try done.
    unfold finish_ok, fenced, pending_ in *. simpl in *. rewrite Hc in *. destruct f as [[| | |[]|]|]; try done; destruct_and?; split_and?; try done; (assert (n <= 0)%nat; [subst; auto|lia]).
  - intros i t Hit _. split; [|by destruct s]. apply crit_gate. by destruct (si_threads _ Hi i t Hit) as (_ & ? & _).
Qed.

Lemma inv_loops s : server_inv s -> server_inv (set_lp (MkLoops (launches (lp s)) true true) s).
Proof.
  intros Hi. pose proof (si_glob _ Hi) as Hg. apply (inv_env s); try done; try (by destruct s).
  - destruct s as [st q qr sd sf h l g n r lo cl th f]. split; try done. simpl. intros Hst Hcl. split_and!; try done. intros _. by right.
  - destruct Hg as [G1 G2 G3 G4 G5 G6 G7 G8 G9]. destruct s. by split.
  - intros i t Hit _. split; [|by destruct s]. destruct (si_threads _ Hi i t Hit) as (_ & Hc & _).
    destruct s. destruct t as [[[]|]| |[]| |[| | | | |[]| | | | | | |]| | | |]; simpl in *; try done;
      intros Ht; destruct (Hc Ht) as (? & ? & Hp); (split_and!; [done..|]); intros He; destruct (Hp He); (split; [done|]); intros _; by right.
Qed.

Lemma inv_advance i t c s s1 t' :
  server_inv s -> threads s !! i = Some t -> advance i t c s = Some (s1, t') -> server_inv (set_thread i t' s1).
Proof.
  intros Hi Ht Hs. destruct t as [[p|]| |p|p|p| | | |]; simpl in Hs; try done.
  - destruct (start i p c s) as [[s2 next]|] eqn:Hst; simpl in Hs; [|done]. injection Hs as <- <-.
    apply (inv_start i (Serving_ (Some p)) p c s _ next); try done; [by left|]. destruct next; by left.
  - unfold claim in Hs.
    destruct (state s) eqn:Hstate; [destruct (quiescing s) eqn:Hq| |]; injection Hs as <- <-;
      (apply (inv_quiet i (Serving_ None) _ s); try done; try (by apply quiet_refl)); try (by intros []). by apply quiet_claim.
  - destruct (failure_ c); [|case_bool_decide; [|done]]; injection Hs as <- <-;
      (apply (inv_quiet i Accepting _ s); try done; try (by apply quiet_refl)); by intros [].
  - destruct (start i p c s) as [[s2 next]|] eqn:Hst; simpl in Hs; [|done]. injection Hs as <- <-.
    apply (inv_start i (Starting p) p c s _ next); try done; [by right|]. destruct next; by right.
  - destruct (quiesce p c s) as [[s2 next]|] eqn:Hq; simpl in Hs; [|done]. injection Hs as <- <-.
    destruct (quiesce_quiet p c s s2 next Hi Hq) as [Hquiet Hnone].
    apply (inv_quiet i (Quiescing p) _ s); try done; [by intros []|by destruct next|]. destruct next as [|[e|]]; try done. by apply Hnone.
  - by eapply inv_stop.
Qed.

Lemma inv_server_act x s s1 : server_inv s -> act x s = Some s1 -> server_inv s1.
Proof.
  intros Hi Hs. pose proof (si_glob _ Hi) as Hg. destruct x as [i o|i c|c| | |]; simpl in Hs.
  - case_bool_decide as Hn; [|done]. injection Hs as <-. apply (inv_thread i _ s); try done.
    + by split; [destruct o|split; destruct o].
    + intros j tj _ Hj _. split; [|done]. by destruct (si_threads _ Hi j tj Hj) as (_ & ? & _).
    + intros Hst. destruct (si_started _ Hi Hst) as [?|[?|(j & tj & Hj & Hp)]]; [auto..|]. right. right. right. exists j, tj.
      split; [congruence|done].
  - destruct (threads s !! i) as [t|] eqn:Ht; simpl in Hs; [|done].
    destruct (advance i t c s) as [[s2 t']|] eqn:Ha; simpl in Hs; [|done]. injection Hs as <-. by eapply inv_advance.
  - destruct (finish s) as [p|] eqn:Hf; simpl in Hs; [|done]. by eapply inv_finish.
  - destruct (beginAdmission (gate s)) as [[e|] g] eqn:Hb; [done|]. injection Hs as <-.
    destruct (gate_inv_begin _ _ _ (si_gate _ Hg) Hb) as [Hgi Hc]. unfold beginAdmission in Hb. rewrite Hc in Hb. injection Hb as <-.
    apply inv_gate; try done; simpl; congruence.
  - destruct (inside s) as [|n] eqn:Hin; [done|]. pose proof (si_gate _ Hg) as Hgi. rewrite Hin in Hgi.
    destruct (gate_inv_end _ _ Hgi) as (g' & He & Hgi' & Hc). rewrite He in Hs. simpl in Hs. injection Hs as <-.
    apply inv_gate; try done; rewrite Hin; lia.
  - destruct (_ && _); [|done]. injection Hs as <-. by apply inv_loops.
Qed.

Lemma server_inv_reachable s : reachable_server s -> server_inv s.
Proof.
  apply reachable_invariant; [|by intros s1 s2 Hi (x & Ha); eapply inv_server_act].
  intros s1 ->. split; [|done|done]. split; try done; try (simpl; lia). split; simpl; [lia|done].
Qed.

(** ** Every call returns *)

(** Where a caller that waits is, and what makes the wait end. *)
Definition place_ok (t : thread) (s : server) : Prop :=
  match t with
  | Quiescing (QPoll | QWait) | Stopping (SpQuiesce (QPoll | QWait)) => quiescing s = true
  | Stopping (SpRealtime RtWait _) => realtimeDone (rt s) <> None
  | Stopping (SpWait _) => launches (lp s) = O \/ cancelled (lp s) = true
  | _ => True
  end.

Record live_inv (s : server) : Prop := {
  li_server : server_inv s;
  li_owner : forall i, lifecycle s = Some (Caller i) -> exists t, threads s !! i = Some t /\ owns t = true;
  li_places : forall i t, threads s !! i = Some t -> place_ok t s
}.

(** What a step of a caller does to the others' places. *)
Record keeps (quietly : Prop) (s s' : server) : Prop := {
  k_quiescing : quiescing s = true -> quiescing s' = true;
  k_node : realtimeDone (rt s) <> None -> realtimeDone (rt s') <> None;
  k_loops : quietly -> launches (lp s) = O \/ cancelled (lp s) = true -> launches (lp s') = O \/ cancelled (lp s') = true
}.

Lemma place_keeps (quietly : Prop) t s s' :
  keeps quietly s s' -> (forall err, t = Stopping (SpWait err) -> quietly) -> place_ok t s -> place_ok t s'.
Proof. intros [K1 K2 K3] Hq. destruct t as [| | |[]|[[]| | | | |[]| | | | | | |]| | | |]; simpl; eauto. Qed.

Lemma stopRealtime_keeps p c r r' next : stopRealtime p c r = Some (r', next) -> realtimeDone r <> None -> realtimeDone r' <> None.
Proof. destruct p; simpl; repeat case_match; naive_solver. Qed.

(** What a step of a caller leaves, the launch of the sweeps apart. *)
Definition hand_over (i : nat) (t t' : thread) (s s1 : server) : Prop :=
  threads s1 = threads s /\ keeps (in_start t <> Some StLaunch) s s1
  /\ (lifecycle s1 = None \/ lifecycle s1 = Some (Caller i) /\ owns t' = true \/ lifecycle s1 = lifecycle s /\ (owns t = true -> owns t' = true))
  /\ (place_ok t s -> place_ok t' s1).

Lemma keeps_refl b s : keeps b s s.
Proof. by split. Qed.

Lemma served_place err s : place_ok (served err) s.
Proof. unfold served. by repeat case_match. Qed.

Lemma start_hands i p c s s1 next t t' :
  start i p c s = Some (s1, next) -> t = Serving_ (Some p) \/ t = Starting p -> next_start next t' -> hand_over i t t' s s1.
Proof.
  intros Hs Ht Hn.
  assert (Hp : place_ok t' s1).
  { destruct next as [q|err]; destruct Hn as [->| ->]; try done. apply served_place. }
  assert (Ho : forall q, next = inl q -> q <> StLock -> owns t' = true).
  { intros q -> Hq. destruct Hn as [->| ->]; by destruct q. }
  assert (Hl : p = StLaunch -> in_start t = Some StLaunch) by (intros ->; by destruct Ht as [->| ->]).
  unfold hand_over. destruct s as [st q qr sd sf h l g n r lo cl th f]. destruct p; simpl in Hs.
  - destruct l; simpl in Hs; [done|]. simplify_eq. simpl. split_and!; try done; right; left; split; [done|by eapply Ho].
  - repeat case_match; simplify_eq; simpl; split_and!; try done; try (by split); try (by left).
    right. right. split; [done|]. intros _. by eapply Ho.
  - unfold startRealtime in Hs. destruct (failure_ c); simplify_eq; simpl; split_and!; try done; try (by split); try (by left).
    right. right. split; [done|]. intros _. by eapply Ho.
  - simplify_eq. simpl. split_and!; try done; [split; [done..|]; intros []; by apply Hl|by left].
Qed.

Lemma quiesce_hands p c s s1 next :
  quiesce p c s = Some (s1, next) ->
  threads s1 = threads s /\ keeps True s s1 /\ lifecycle s1 = lifecycle s
  /\ (forall q, next = inl q -> (place_ok (Quiescing p) s -> place_ok (Quiescing q) s1)).
Proof.
  destruct s as [st q qr sd sf h l g n r lo cl th f]. destruct p; simpl; intros Hs; repeat case_match; simplify_eq; simpl.
  all: try (split_and!; [done|by split|done|]; intros ? [= <-]; done).
  destruct qr; simpl in Hs; simplify_eq; by split_and!.
Qed.

Lemma stop_hands i p c s s1 t' : stop i p c s = Some (s1, t') -> hand_over i (Stopping p) t' s s1.
Proof.
  intros Hs. destruct p as [p|err|err|err|err|p err|err|err|err|err|err|err|err]; simpl in Hs.
  - destruct (quiesce p c s) as [[s2 next]|] eqn:Hq; simpl in Hs; [|done]. injection Hs as <- <-.
    destruct (quiesce_hands p c s s2 next Hq) as (Ht & Hk & Hl & Hp). split_and!; [done|by destruct Hk; split; auto|by right; right|].
    destruct next as [q|[e|]]; [|done|done]. simpl in *. apply (Hp q eq_refl).
  - destruct (quiesceResult s); simplify_eq; (split_and!; [done|apply keeps_refl|by right; right|done]).
  - destruct s as [st q qr sd sf h l g n r lo cl th f]. destruct l; simpl in Hs; [done|]. simplify_eq.
    split_and!; [done|by split|by right; left|done].
  - destruct s as [st q qr sd sf h l g n r lo cl th f]. case_bool_decide; simplify_eq; simpl.
    + split_and!; [done|by split|by left|done].
    + split_and!; [done|by split|by right; right|done].
  - destruct s as [st q qr sd sf h l g n r lo cl th f]. simpl in Hs. destruct h; simplify_eq; simpl;
      (split_and!; [done|by split|by right; right|done]).
  - destruct (stopRealtime p c (rt s)) as [[r' [q|e]]|] eqn:Hr; simpl in Hs; simplify_eq;
      pose proof (stopRealtime_keeps _ _ _ _ _ Hr) as Hk; destruct s as [st q' qr sd sf h l g n r lo cl th f]; simpl in *;
      (split_and!; [done|by split|by right; right|]); [|done].
    intros _. destruct q; simpl; try done. destruct p; simpl in Hr; repeat case_match; simplify_eq; congruence.
  - simplify_eq. destruct s. by split_and!; [|split|right; right|].
  - destruct s as [st q' qr sd sf h l g n r lo cl th f]. simpl in Hs. destruct (Nat.eqb_spec (launches lo) 0); simplify_eq; simpl.
    + split_and!; [done|by split|by right; right|]. intros _. by left.
    + split_and!; [done|split; simpl; auto|by right; right|]. intros _. by right.
  - repeat case_match; simplify_eq; (split_and!; [done|apply keeps_refl|by right; right|done]).
  - simplify_eq. destruct s. by split_and!; [|split|right; right|].
  - simplify_eq. destruct s. by split_and!; [|split|right; right|].
  - simplify_eq. destruct s. by split_and!; [|split|right; right|].
  - simplify_eq. destruct s. by split_and!; [|split|left|].
Qed.

Lemma advance_hands i t c s s1 t' : advance i t c s = Some (s1, t') -> hand_over i t t' s s1.
Proof.
  intros Hs. destruct t as [[p|]| |p|p|p| | | |]; simpl in Hs; try done.
  - destruct (start i p c s) as [[s2 next]|] eqn:Hst; simpl in Hs; [|done]. injection Hs as <- <-.
    apply (start_hands i p c s _ next); [done|by left|]. destruct next; by left.
  - destruct s as [st q qr sd sf h l g n r lo cl th f]. unfold claim in Hs. simpl in Hs. repeat case_match; simplify_eq; simpl;
      (split_and!; [done|by split|by right; right|done]).
  - repeat case_match; simplify_eq; (split_and!; [done|apply keeps_refl|by right; right|done]).
  - destruct (start i p c s) as [[s2 next]|] eqn:Hst; simpl in Hs; [|done]. injection Hs as <- <-.
    apply (start_hands i p c s _ next); [done|by right|]. destruct next; by right.
  - destruct (quiesce p c s) as [[s2 next]|] eqn:Hq; simpl in Hs; [|done]. injection Hs as <- <-.
    destruct (quiesce_hands p c s s2 next Hq) as (Ht & Hk & Hl & Hp). split_and!; [done|by destruct Hk; split; auto|by right; right|].
    destruct next as [q|e]; [|done]. apply (Hp q eq_refl).
  - by apply (stop_hands _ _ c).
Qed.


(** The loops are launched by whoever holds the lock, so no [Stop] waits for them. *)
Lemma launch_keeps i t t' s s1 j tj :
  server_inv s -> threads s !! i = Some t -> hand_over i t t' s s1 -> j <> i -> threads s !! j = Some tj -> place_ok tj s -> place_ok tj s1.
Proof.
  intros Hi Ht (_ & Hk & _) Hne Hj. apply (place_keeps _ _ _ _ Hk). intros err -> Hl.
  destruct (si_threads _ Hi j _ Hj) as (Ho & _). specialize (Ho eq_refl).
  destruct Hne. apply eq_sym. apply (starting_free j s i t Hi Ho Ht). by right.
Qed.

Lemma live_thread i t t' s s1 :
  live_inv s -> threads s !! i = Some t -> server_inv (set_thread i t' s1) -> hand_over i t t' s s1 -> live_inv (set_thread i t' s1).
Proof.
  intros [Hi Hown Hpl] Ht Hinv Hh. pose proof Hh as (Hth & Hk & Hl & Hp).
  assert (Hs : threads (set_thread i t' s1) = <[i := t']> (threads s)) by (destruct s1; simpl in *; by subst).
  assert (Hsl : lifecycle (set_thread i t' s1) = lifecycle s1) by by destruct s1.
  assert (Hsp : forall u, place_ok u s1 -> place_ok u (set_thread i t' s1)).
  { intros u. destruct s1. by destruct u as [| | |[]|[[]| | | | |[]| | | | | | |]| | | |]. }
  split; [done| |].
  - intros j. rewrite Hsl, Hs. intros Hj. destruct (decide (i = j)) as [<-|Hne].
    + exists t'. rewrite lookup_insert_eq. split; [done|]. destruct Hl as [?|[[_ ?]|[Hl Ho]]]; [congruence|done|].
      apply Ho. rewrite Hl in Hj. destruct (Hown i Hj) as (u & Hu & ?). congruence.
    + rewrite lookup_insert_ne by done. apply Hown. destruct Hl as [?|[[? _]|[Hl _]]]; congruence.
  - intros j u. rewrite Hs. destruct (decide (i = j)) as [<-|Hne].
    + rewrite lookup_insert_eq. intros [= <-]. apply Hsp, Hp. by apply (Hpl i).
    + rewrite lookup_insert_ne by done. intros Hj. apply Hsp. apply (launch_keeps i t t' s s1 j u); [done..|]. by apply (Hpl j).
Qed.

Lemma live_env s s1 :
  live_inv s -> server_inv s1 -> threads s1 = threads s -> keeps True s s1 ->
  (forall i, lifecycle s1 = Some (Caller i) -> lifecycle s = Some (Caller i)) -> live_inv s1.
Proof.
  intros [Hi Hown Hpl] Hs Ht Hk Hl. split; [done| |].
  - intros i Hli. rewrite Ht. auto.
  - intros i t. rewrite Ht. intros Hit. apply (place_keeps _ _ _ _ Hk); [done|]. by apply (Hpl i).
Qed.

Lemma finish_hands p c s s1 :
  finishQuiesce p c s = Some s1 ->
  threads s1 = threads s /\ keeps True s s1 /\ (forall i, lifecycle s1 = Some (Caller i) -> lifecycle s = Some (Caller i)).
Proof.
  intros Hs. destruct p as [| | |p|]; simpl in Hs.
  - destruct s as [st q qr sd sf h l g n r lo cl th f]. destruct l; simpl in Hs; [done|]. by simplify_eq.
  - destruct (FenceAdmissions (gate s)); simpl in Hs; [|done]. destruct s. by simplify_eq.
  - destruct (quiesced (gate s)); [|done]. destruct s. by simplify_eq.
  - destruct (stopRealtime p c (rt s)) as [[r' [q|e]]|] eqn:Hr; simpl in Hs; simplify_eq;
      pose proof (stopRealtime_keeps _ _ _ _ _ Hr) as Hk; destruct s; simpl in *; (split_and!; [done|by split|done]).
  - done.
Qed.

Lemma live_act x s s1 : live_inv s -> act x s = Some s1 -> live_inv s1.
Proof.
  intros Hl Hs. pose proof (inv_server_act x s s1 (li_server _ Hl) Hs) as Hinv. destruct x as [i o|i c|c| | |]; simpl in Hs.
  - case_bool_decide as Hn; [|done]. injection Hs as <-. destruct Hl as [Hi Hown Hpl]. destruct s as [st q qr sd sf h l g n r lo cl th f].
    simpl in *. split; [done| |]; simpl.
    + intros j Hj. destruct (Hown j Hj) as (t & Ht & Ho). exists t. rewrite lookup_insert_ne; [done|congruence].
    + intros j t. destruct (decide (i = j)) as [<-|Hne]; [rewrite lookup_insert_eq; intros [= <-]; by destruct o|].
      rewrite lookup_insert_ne by done. intros Hj. specialize (Hpl j t Hj). by destruct t as [| | |[]|[[]| | | | |[]| | | | | | |]| | | |].
  - destruct (threads s !! i) as [t|] eqn:Ht; simpl in Hs; [|done].
    destruct (advance i t c s) as [[s2 t']|] eqn:Ha; simpl in Hs; [|done]. injection Hs as <-.
    apply (live_thread i t t' s s2); try done. by eapply advance_hands.
  - destruct (finish s) as [p|] eqn:Hf; simpl in Hs; [|done]. destruct (finish_hands _ _ _ _ Hs) as (? & ? & ?). by apply (live_env s).
  - repeat case_match; simplify_eq. apply (live_env s); try done; by destruct s.
  - destruct (inside s); [done|]. destruct (endAdmission (gate s)); simpl in Hs; simplify_eq. apply (live_env s); try done; by destruct s.
  - destruct (_ && _); [|done]. simplify_eq. apply (live_env s); try done; destruct s; try done. split; simpl; auto.
Qed.

Lemma live_reachable s : reachable_server s -> live_inv s.
Proof.
  apply reachable_invariant; [|by intros s1 s2 Hi (x & Ha); eapply live_act].
  intros s1 ->. split; [|done|done]. apply server_inv_reachable. by apply reach_init.
Qed.

(** How many steps a caller has left at most. *)
Definition start_work (p : start_pc) : nat := match p with StLock => 5 | StCheck => 4 | StRealtime => 3 | StLaunch => 2 end.
Definition quiesce_work (p : quiesce_pc) : nat := match p with QEnter => 3 | QPoll => 2 | QWait => 1 end.
Definition rt_work (p : rt_pc) : nat := match p with RtEnter => 2 | RtWait | RtShutdown => 1 end.
Definition stop_work (p : stop_pc) : nat :=
  match p with
  | SpQuiesce p => 15 + quiesce_work p | SpJoin _ => 15 | SpLock _ => 14 | SpCheck _ => 13 | SpListener _ => 12
  | SpRealtime p _ => 8 + rt_work p | SpWakes _ => 8 | SpCancel _ => 7 | SpWait _ => 6 | SpDemand _ => 4 | SpBindings _ => 3
  | SpLive _ => 2 | SpPool _ => 1
  end.
Definition thread_work (t : thread) : nat :=
  match t with
  | Serving_ None => 8 | Serving_ (Some p) => 1 + start_work p | Accepting => 1 | Starting p => start_work p
  | Quiescing p => quiesce_work p | Stopping p => stop_work p
  | Served _ _ | Started_ _ | Quiesced _ | Stopped _ _ => 0
  end.
Definition finish_work (f : option finish_pc) : nat :=
  match f with
  | None | Some FqLock => 6 | Some FqFence => 5 | Some FqDrain => 4 | Some (FqRealtime p) => 1 + rt_work p | Some FqReturned => 0
  end.

Definition callers_work (m : gmap nat thread) : nat := map_fold (fun _ t n => (thread_work t + n)%nat) 0%nat m.
Definition others_work (s : server) : nat := finish_work (finish s) + inside s + (if loopsDone (lp s) then 0 else 1).

(** How many steps the server makes before it has answered everyone. *)
Definition work (s : server) : nat := callers_work (threads s) + others_work s.

(** The server's own steps: no new call, and no new admission. *)
Definition internal (x : action) : bool := match x with Spawn _ _ | BeginAdmission => false | _ => true end.

(** Those in which no context expires and nothing fails. *)
Definition patient (x : action) : bool :=
  internal x && match x with Advance _ c | Finish c => bool_decide (ctx c = None /\ failure_ c = None) | _ => true end.

Definition returned (t : thread) : bool := match t with Served _ _ | Started_ _ | Quiesced _ | Stopped _ _ => true | _ => false end.

Lemma callers_work_delete i t m : m !! i = Some t -> callers_work m = (thread_work t + callers_work (delete i m))%nat.
Proof. intros Hi. unfold callers_work. apply (map_fold_delete_L (fun _ t n => (thread_work t + n)%nat)); [lia|done]. Qed.

Lemma callers_work_insert i t t' m :
  m !! i = Some t -> (callers_work (<[i := t']> m) + thread_work t = callers_work m + thread_work t')%nat.
Proof.
  intros Hi. rewrite (callers_work_delete i t m Hi), (callers_work_delete i t' (<[i := t']> m)) by apply lookup_insert_eq.
  rewrite delete_insert_eq. lia.
Qed.

Lemma start_works i p c s s1 next :
  start i p c s = Some (s1, next) ->
  (match next with inl q => start_work q | inr _ => 0 end + others_work s1 < start_work p + others_work s)%nat.
Proof.
  destruct s as [st q qr sd sf h l g n r lo cl th f]. unfold others_work. destruct p; simpl; intros Hs.
  - destruct l; simpl in Hs; [done|]. simplify_eq. simpl. lia.
  - destruct (bool_decide _), q, sd; simplify_eq; simpl; lia.
  - unfold startRealtime in Hs. destruct (failure_ c); simplify_eq; simpl; lia.
  - simplify_eq. simpl. destruct (loopsDone lo); lia.
Qed.

Lemma quiesce_works p c s s1 next :
  server_inv s -> quiesce p c s = Some (s1, next) ->
  (match next with inl q => quiesce_work q | inr _ => 0 end + others_work s1 < quiesce_work p + others_work s)%nat.
Proof.
  intros Hi Hs. pose proof (quiet_finish s (si_finish _ (si_glob _ Hi))) as Hq. destruct p; simpl in Hs.
  - destruct s as [st q qr sd sf h l g n r lo cl th f]. simpl in *. destruct q; simplify_eq; unfold others_work; simpl; [lia|].
    rewrite (Hq eq_refl). simpl. lia.
  - destruct (quiesceResult s); simplify_eq; simpl; lia.
  - destruct (ctx c); [simplify_eq; simpl; lia|]. destruct (quiesceResult s); simpl in Hs; simplify_eq; simpl; lia.
Qed.

Lemma stopRealtime_works p c r r' next :
  stopRealtime p c r = Some (r', next) -> (match next with inl q => rt_work q | inr _ => 0 end < rt_work p)%nat.
Proof. destruct p; simpl; repeat case_match; intros; simplify_eq; simpl; try lia. Qed.

Lemma stop_works i p c s s1 t' :
  server_inv s -> stop i p c s = Some (s1, t') -> (thread_work t' + others_work s1 < stop_work p + others_work s)%nat.
Proof.
  intros Hi Hs. destruct p as [p|err|err|err|err|p err|err|err|err|err|err|err|err]; simpl in Hs.
  - destruct (quiesce p c s) as [[s2 next]|] eqn:Hq; simpl in Hs; [|done]. injection Hs as <- <-.
    pose proof (quiesce_works p c s s2 next Hi Hq) as Hw. destruct next as [q|[e|]]; simpl in *; lia.
  - destruct (quiesceResult s); simplify_eq; simpl; lia.
  - destruct s as [st q qr sd sf h l g n r lo cl th f]. destruct l; simpl in Hs; [done|]. simplify_eq. unfold others_work. simpl. lia.
  - destruct s. case_bool_decide; simplify_eq; unfold others_work; simpl; lia.
  - destruct s as [st q qr sd sf h l g n r lo cl th f]. simpl in Hs. destruct h; simplify_eq; unfold others_work; simpl; lia.
  - destruct (stopRealtime p c (rt s)) as [[r' next]|] eqn:Hr; simpl in Hs; [|done]. pose proof (stopRealtime_works _ _ _ _ _ Hr) as Hw.
    destruct s. destruct next; simplify_eq; unfold others_work; simpl in *; lia.
  - destruct s. simplify_eq. unfold others_work. simpl. lia.
  - destruct s. case_match; simplify_eq; unfold others_work; simpl; lia.
  - repeat case_match; simplify_eq; simpl; lia.
  - destruct s. simplify_eq. unfold others_work. simpl. lia.
  - destruct s. simplify_eq. unfold others_work. simpl. lia.
  - destruct s. simplify_eq. unfold others_work. simpl. lia.
  - destruct s. simplify_eq. unfold others_work. simpl. lia.
Qed.

Lemma served_work err : (thread_work (served err) <= 1)%nat.
Proof. unfold served. repeat case_match; simpl; lia. Qed.

Lemma advance_works i t c s s1 t' :
  server_inv s -> advance i t c s = Some (s1, t') -> (thread_work t' + others_work s1 < thread_work t + others_work s)%nat.
Proof.
  intros Hi Hs. destruct t as [[p|]| |p|p|p| | | |]; simpl in Hs; try done.
  - destruct (start i p c s) as [[s2 next]|] eqn:Hst; simpl in Hs; [|done]. injection Hs as <- <-.
    pose proof (start_works _ _ _ _ _ _ Hst) as Hw. destruct next as [q|err]; simpl in *; [lia|]. pose proof (served_work err). lia.
  - unfold claim in Hs. destruct s. simpl in *. repeat case_match; simplify_eq; unfold others_work; simpl; lia.
  - repeat case_match; simplify_eq; simpl; lia.
  - destruct (start i p c s) as [[s2 next]|] eqn:Hst; simpl in Hs; [|done]. injection Hs as <- <-.
    pose proof (start_works _ _ _ _ _ _ Hst) as Hw. destruct next; simpl in *; lia.
  - destruct (quiesce p c s) as [[s2 next]|] eqn:Hq; simpl in Hs; [|done]. injection Hs as <- <-.
    pose proof (quiesce_works p c s s2 next Hi Hq) as Hw. destruct next; simpl in *; lia.
  - by eapply stop_works.
Qed.

(** Every step of the server's own brings its end nearer. *)
Lemma internal_works x s s1 : server_inv s -> internal x = true -> act x s = Some s1 -> (work s1 < work s)%nat.
Proof.
  intros Hi Hx Hs. unfold work. destruct x as [|i c|c| | |]; simpl in Hx, Hs; try done.
  - destruct (threads s !! i) as [t|] eqn:Ht; simpl in Hs; [|done].
    destruct (advance i t c s) as [[s2 t']|] eqn:Ha; simpl in Hs; [|done]. injection Hs as <-.
    pose proof (advance_works _ _ _ _ _ _ Hi Ha) as Hw. destruct (advance_hands _ _ _ _ _ _ Ha) as (Hth & _).
    pose proof (callers_work_insert i t t' (threads s) Ht) as Hc.
    destruct s2 as [st q qr sd sf h l g n r lo cl th f]. unfold others_work in *. simpl in *. subst th. lia.
  - destruct (finish s) as [p|] eqn:Hf; simpl in Hs; [|done]. destruct (finish_hands _ _ _ _ Hs) as (-> & _ & _).
    assert (others_work s1 < others_work s)%nat; [|lia]. unfold others_work. rewrite Hf. destruct p as [| | |p|]; simpl in Hs.
    + destruct s as [st q qr sd sf h l g n r lo cl th f]. destruct l; simpl in Hs; [done|]. simplify_eq. simpl. lia.
    + destruct (FenceAdmissions (gate s)); simpl in Hs; [|done]. destruct s. simplify_eq. simpl. lia.
    + destruct (quiesced (gate s)); [|done]. destruct s. simplify_eq. simpl. lia.
    + destruct (stopRealtime p c (rt s)) as [[r' [q|e]]|] eqn:Hr; simpl in Hs; simplify_eq;
        pose proof (stopRealtime_works _ _ _ _ _ Hr); destruct s; simpl in *; lia.
    + done.
  - destruct (inside s) eqn:Hn; [done|]. destruct (endAdmission (gate s)); simpl in Hs; simplify_eq.
    unfold others_work. destruct s. simpl in *. subst. lia.
  - destruct (cancelled (lp s)); simpl in Hs; [|done]. destruct (loopsDone (lp s)) eqn:Hd; simpl in Hs; [done|]. simplify_eq.
    unfold others_work. destruct s as [st q qr sd sf h l g n r lo cl th f]. simpl in *. rewrite Hd. lia.
Qed.

(** ** No deadlock *)
Definition resting (s : server) : Prop := forall x, patient x = true -> act x s = None.

Definition ready : choice := MkChoice None None.

(** Whoever takes its next step outside the lock can take it. *)
Lemma start_moves i p s : p <> StLock \/ lifecycle s = None -> is_Some (start i p ready s).
Proof.
  intros Hp. destruct p; simpl; try (repeat case_match; eauto; fail); eauto.
  destruct Hp as [?|Hl]; [done|]. unfold lock_. rewrite Hl. simpl. eauto.
Qed.

Section Resting.
Context (s : server) (Hlive : live_inv s) (Hrest : resting s).

Lemma rest_advance i t : threads s !! i = Some t -> advance i t ready s = None.
Proof.
  intros Ht. assert (Ha : act (Advance i ready) s = None) by by apply Hrest. simpl in Ha. rewrite Ht in Ha. simpl in Ha.
  by destruct (advance i t ready s) as [[]|].
Qed.

Lemma rest_start i t p : threads s !! i = Some t -> t = Serving_ (Some p) \/ t = Starting p -> p = StLock /\ lifecycle s <> None.
Proof.
  intros Ht Hp. pose proof (rest_advance i t Ht) as Ha.
  assert (Hn : start i p ready s = None).
  { destruct Hp as [->| ->]; simpl in Ha; by destruct (start i p ready s) as [[]|]. }
  assert (Hmove : ~ (p <> StLock \/ lifecycle s = None)).
  { intros Hm. destruct (start_moves i p s Hm) as [? Hs]. congruence. }
  split; [|intros Hl; apply Hmove; by right]. destruct p; try done; destruct Hmove; by left.
Qed.

Lemma rest_inside : inside s = O.
Proof.
  assert (Ha : act EndAdmission s = None) by by apply Hrest. simpl in Ha. destruct (inside s) as [|n] eqn:Hn; [done|].
  pose proof (si_gate _ (si_glob _ (li_server _ Hlive))) as Hg. rewrite Hn in Hg.
  destruct (gate_inv_end _ _ Hg) as (g' & He & _). by rewrite He in Ha.
Qed.

(** The goroutine has not begun, or is done. *)
Lemma rest_finish : finish s = None \/ finish s = Some FqReturned.
Proof.
  pose proof (si_glob _ (li_server _ Hlive)) as Hg. pose proof (si_finish _ Hg) as Hf. unfold finish_ok in Hf.
  destruct (finish s) as [p|] eqn:Hfin; [right|by left].
  assert (Ha : finishQuiesce p ready s = None).
  { assert (Hx : act (Finish ready) s = None) by by apply Hrest. simpl in Hx. by rewrite Hfin in Hx. }
  destruct p as [| | |[]|]; simpl in Ha; try done.
  - exfalso. unfold lock_ in Ha. destruct (lifecycle s) as [[i|]|] eqn:Hl; [| |done].
    + destruct (li_owner _ Hlive i Hl) as (t & Ht & Ho).
      destruct (si_threads _ (li_server _ Hlive) i t Ht) as (_ & _ & Hst).
      destruct t as [[p|]| |p| |p| | | |]; simpl in Ho; try done.
      * destruct (rest_start i _ p Ht) as [-> _]; [by left|done].
      * destruct (rest_start i _ p Ht) as [-> _]; [by right|done].
      * simpl in Hst. destruct p; simpl in *; try done; destruct Hst; congruence.
    + pose proof (si_finisher _ Hg Hl). congruence.
  - destruct (gate_inv_fence _ _ (si_gate _ Hg)) as (g' & He & _). by rewrite He in Ha.
  - destruct Hf as [[Hq Hgc] _]. pose proof (si_gate _ Hg) as [_ Hdr]. rewrite Hgc, rest_inside in Hdr.
    unfold quiesced in Ha. simpl in Hdr. by rewrite Hdr in Ha.
  - destruct Hf as (_ & _ & _ & Hrd). rewrite Hrd in Ha. by destruct (node (rt s)).
Qed.

(** Nobody holds the lock. *)
Lemma rest_lock : lifecycle s = None.
Proof.
  pose proof (li_server _ Hlive) as Hi. pose proof (si_glob _ Hi) as Hg. pose proof (si_finish _ Hg) as Hf. unfold finish_ok in Hf.
  destruct (lifecycle s) as [[i|]|] eqn:Hl; [exfalso|exfalso|done].
  - destruct (li_owner _ Hlive i Hl) as (t & Ht & Ho). pose proof (rest_advance i t Ht) as Ha.
    destruct (si_threads _ Hi i t Ht) as (_ & Hc & Hst). pose proof (li_places _ Hlive i t Ht) as Hpl.
    destruct t as [[p|]| |p| |p| | | |]; simpl in Ho; try done.
    + destruct (rest_start i _ p Ht) as [-> _]; [by left|done].
    + destruct (rest_start i _ p Ht) as [-> _]; [by right|done].
    + destruct p as [| | |e|e|p e|e|e|e|e|e|e|e]; simpl in *; try done.
      * by case_bool_decide.
      * by destruct (http_ s).
      * destruct Hst as [Hst _]. rewrite Hst in Hf. destruct Hf as (_ & _ & r & _ & Hr).
        destruct p; simpl in *; [| |done].
        -- destruct (realtimeDone (rt s)); [done|]. by destruct (node (rt s)).
        -- destruct Hr as [(_ & _ & Hr)|Hr]; [done|]. by rewrite Hr in Ha.
      * by destruct (Nat.eqb _ _).
      * destruct (Nat.eqb_spec (launches (lp s)) 0); [done|]. destruct (loopsDone (lp s)) eqn:Hd; [done|].
        destruct Hpl as [?|Hcan]; [done|]. assert (Hx : act LoopsReturn s = None) by by apply Hrest.
        simpl in Hx. by rewrite Hcan, Hd in Hx.
  - pose proof (si_finisher _ Hg Hl). destruct (rest_finish) as [?|?]; congruence.
Qed.

(** So every caller has its answer, or accepts. *)
Lemma rest_caller i t : threads s !! i = Some t -> returned t = true \/ t = Accepting /\ http_ s <> Some true.
Proof.
  intros Ht. pose proof (rest_advance i t Ht) as Ha. pose proof rest_lock as Hl. pose proof (li_places _ Hlive i t Ht) as Hpl.
  destruct (si_threads _ (li_server _ Hlive) i t Ht) as (Hown & _ & _).
  assert (Hq : forall p, (quiesce p ready s = None) -> p = QPoll \/ p = QWait -> quiescing s = true -> False).
  { intros p Hn [->| ->] Hqs; simpl in Hn; [done|]. destruct rest_finish as [Hf|Hf];
      pose proof (si_finish _ (si_glob _ (li_server _ Hlive))) as Hfin; unfold finish_ok in Hfin; rewrite Hf in Hfin.
    - destruct Hfin as [? _]. congruence.
    - destruct Hfin as (_ & _ & r & Hr & _). by rewrite Hr in Hn. }
  destruct t as [[p|]| |p|p|p| | | |]; try (by left); [exfalso|exfalso|right|exfalso..].
  - destruct (rest_start i _ p Ht) as [_ ?]; [by left|done].
  - simpl in Ha. by destruct (claim s).
  - split; [done|]. intros Hh. simpl in Ha. by rewrite Hh in Ha.
  - destruct (rest_start i _ p Ht) as [_ ?]; [by right|done].
  - simpl in Ha. destruct (quiesce p ready s) as [[]|] eqn:Hqs; [done|]. destruct p; [done|by apply (Hq QPoll); [|left|]|by apply (Hq QWait); [|right|]].
  - destruct p as [p| | | | | | | | | | | |]; try (specialize (Hown eq_refl); congruence).
    + simpl in Ha. destruct (quiesce p ready s) as [[]|] eqn:Hqs; [done|]. destruct p; [done|by apply (Hq QPoll); [|left|]|by apply (Hq QWait); [|right|]].
    + simpl in Ha. by destruct (quiesceResult s).
    + simpl in Ha. unfold lock_ in Ha. by rewrite Hl in Ha.
Qed.
End Resting.

(** ** What is final *)
Definition planes (s : server) : nat * nat := (boots (rt s), launches (lp s)).

Lemma stopRealtime_boots p c r r' next : stopRealtime p c r = Some (r', next) -> boots r' = boots r.
Proof. destruct p; simpl; repeat case_match; intros; by simplify_eq. Qed.

(** A step of a caller leaves the result alone, and a stopped server's planes and state. *)
Definition leaves (s s1 : server) : Prop :=
  quiesceResult s1 = quiesceResult s /\ (state s = stateStopped -> state s1 = stateStopped /\ planes s1 = planes s).

Lemma leaves_refl s : leaves s s.
Proof. by split. Qed.
#[local] Hint Resolve leaves_refl : core.

Lemma start_leaves i p c s s1 next : (state s = stateStopped -> p <> StRealtime /\ p <> StLaunch) -> start i p c s = Some (s1, next) -> leaves s s1.
Proof.
  intros Hp Hs. destruct s as [st q qr sd sf h l g n r lo cl th f]. unfold leaves. destruct p; simpl in *.
  - destruct l; simpl in Hs; by simplify_eq.
  - destruct (bool_decide _), q, sd; by simplify_eq.
  - unfold startRealtime in Hs. destruct (failure_ c); simplify_eq; simpl; (split; [done|]; intros Hst; by destruct (Hp Hst)).
  - simplify_eq. simpl. split; [done|]. intros Hst. by destruct (Hp Hst).
Qed.

Lemma quiesce_leaves p c s s1 next : quiesce p c s = Some (s1, next) -> leaves s s1.
Proof.
  destruct s as [st q qr sd sf h l g n r lo cl th f]. unfold leaves. destruct p; simpl; intros Hs.
  - destruct q; by simplify_eq.
  - by simplify_eq.
  - destruct (ctx c); [by simplify_eq|]. destruct qr; simpl in Hs; by simplify_eq.
Qed.

Lemma stop_leaves i p c s s1 t' : stop i p c s = Some (s1, t') -> leaves s s1.
Proof.
  intros Hs. destruct p as [p|err|err|err|err|p err|err|err|err|err|err|err|err]; simpl in Hs.
  - destruct (quiesce p c s) as [[s2 next]|] eqn:Hq; simpl in Hs; [|done]. simplify_eq. by eapply quiesce_leaves.
  - destruct (quiesceResult s) eqn:Hr; simplify_eq; auto.
  - unfold lock_ in Hs. destruct (lifecycle s); simpl in Hs; [done|]. destruct s. by simplify_eq.
  - destruct s. case_bool_decide; by simplify_eq.
  - destruct s as [st q qr sd sf h l g n r lo cl th f]. destruct h; simpl in Hs; by simplify_eq.
  - destruct (stopRealtime p c (rt s)) as [[r' [q|e]]|] eqn:Hr; simpl in Hs; simplify_eq; apply stopRealtime_boots in Hr;
      destruct s; (split; [done|]); unfold planes; simpl in *; by rewrite Hr.
  - destruct s. by simplify_eq.
  - destruct s. destruct (Nat.eqb _ _); by simplify_eq.
  - destruct (ctx c); [by simplify_eq|]. destruct (_ || _); by simplify_eq.
  - destruct s. by simplify_eq.
  - destruct s. by simplify_eq.
  - destruct s. by simplify_eq.
  - destruct s. by simplify_eq.
Qed.

Lemma start_open s i t p :
  server_inv s -> threads s !! i = Some t -> t = Serving_ (Some p) \/ t = Starting p -> state s = stateStopped -> p <> StRealtime /\ p <> StLaunch.
Proof.
  intros Hi Ht Hp Hst. destruct (si_threads _ Hi i t Ht) as (_ & Hc & _).
  assert (Hok : start_ok p s) by by destruct Hp as [->| ->].
  split; intros ->; by destruct Hok as (_ & _ & _ & _ & ? & _).
Qed.

Lemma act_final x s s1 :
  server_inv s -> act x s = Some s1 ->
  (forall r, quiesceResult s = Some r -> quiesceResult s1 = Some r)
  /\ (state s = stateStopped -> state s1 = stateStopped /\ planes s1 = planes s).
Proof.
  intros Hi Hs. enough (leaves s s1 \/ quiesceResult s = None /\ (state s = stateStopped -> state s1 = stateStopped /\ planes s1 = planes s)) as H.
  { destruct H as [[Hr ?]|[Hr ?]]; split; intros; congruence || auto. }
  destruct x as [i o|i c|c| | |]; simpl in Hs.
  - left. case_bool_decide; [|done]. destruct s. by simplify_eq.
  - left. destruct (threads s !! i) as [t|] eqn:Ht; simpl in Hs; [|done].
    destruct (advance i t c s) as [[s2 t']|] eqn:Ha; simpl in Hs; [|done]. injection Hs as <-.
    assert (Hl : leaves s s2); [|by destruct s2].
    destruct t as [[p|]| |p|p|p| | | |]; simpl in Ha; try done.
    + destruct (start i p c s) as [[s3 next]|] eqn:Hst; simpl in Ha; [|done]. simplify_eq. eapply start_leaves; [|done].
      eapply start_open; eauto.
    + unfold claim in Ha. destruct s as [st q qr sd sf h l g n r lo cl th f]. simpl in Ha. destruct st; [destruct q|..]; by simplify_eq.
    + destruct (failure_ c); [by simplify_eq|]. case_bool_decide; by simplify_eq.
    + destruct (start i p c s) as [[s3 next]|] eqn:Hst; simpl in Ha; [|done]. simplify_eq. eapply start_leaves; [|done].
      eapply start_open; eauto.
    + destruct (quiesce p c s) as [[s3 next]|] eqn:Hq; simpl in Ha; [|done]. simplify_eq. by eapply quiesce_leaves.
    + by eapply stop_leaves.
  - destruct (finish s) as [p|] eqn:Hf; simpl in Hs; [|done].
    pose proof (si_glob _ Hi) as Hg. pose proof (si_finish _ Hg) as Hfin. unfold finish_ok in Hfin. rewrite Hf in Hfin.
    right. split; [destruct p as [| | |[]|]; simpl in Hs; try done; by destruct_and?; unfold pending_ in *; destruct_and?|].
    intros Hst. pose proof (si_fenced _ Hg Hst) as Hr. rewrite Hf in Hr. injection Hr as ->. done.
  - left. destruct (beginAdmission (gate s)) as [[e|] g]; [done|]. destruct s. by simplify_eq.
  - left. destruct (inside s); [done|]. destruct (endAdmission (gate s)); simpl in Hs; [|done]. destruct s. by simplify_eq.
  - left. destruct (_ && _); [|done]. destruct s. by simplify_eq.
Qed.

(** A run, for the concrete servers. *)
Fixpoint drive (xs : list action) (s : server) : option server :=
  match xs with [] => Some s | x :: xs => s ← act x s; drive xs s end.

Lemma drive_reachable xs s s' : reachable_server s -> drive xs s = Some s' -> reachable_server s'.
Proof.
  revert s. induction xs as [|x xs IH]; intros s Hr; simpl; [by intros [= <-]|].
  destruct (act x s) as [s1|] eqn:Ha; simpl; [|done]. apply IH. eapply reach_step; [done|]. by exists x.
Qed.

Definition go (i : nat) : action := Advance i ready.

(** One [Serve] and one [Stop] to their ends, with an admission under way. *)
Definition served_and_stopped : list action :=
  [Spawn 0 OpServe; go 0; go 0; go 0; go 0; go 0; BeginAdmission; Spawn 1 OpStop; go 1; go 1; Finish ready; Finish ready; EndAdmission;
   Finish ready; Finish ready; Finish ready; go 1; go 1; go 1; go 1; go 0; go 1; go 1; go 1; go 1; LoopsReturn; go 1; go 1; go 1; go 1; go 1].

Definition after_ (xs : list action) : server := default initial_server (drive xs initial_server).

Lemma after_reachable xs : is_Some (drive xs initial_server) -> reachable_server (after_ xs).
Proof.
  intros [s Hs]. unfold after_. rewrite Hs. simpl. eapply drive_reachable; [|done]. by apply reach_init.
Qed.

(** ** The theorems *)

(** C4: The server's calls all end. From every state the server can be in, each of its own steps (whatever it is answered and whichever
    contexts expire) leaves strictly less to do, so only finitely many follow; and when no step is left that needs neither a failure nor an
    expired context, every caller of [Serve], [Start], [Quiesce] and [Stop] has its answer, except a [Serve] whose listener nobody shut
    down. No interleaving of the callers, the drain and the sweeps deadlocks. *)
Theorem every_call_returns s (Hs : reachable_server s) :
  (forall x s', internal x = true -> act x s = Some s' -> (work s' < work s)%nat)
  /\ ((forall x, patient x = true -> act x s = None) ->
      forall i t, threads s !! i = Some t -> returned t = true \/ t = Accepting /\ http_ s <> Some true).
Proof.
  pose proof (live_reachable s Hs) as Hl. split.
  - intros x s'. apply internal_works. by apply Hl.
  - intros Hrest i t. by apply rest_caller.
Qed.

Lemma every_call_returns_witness :
  threads (after_ served_and_stopped) !! 1%nat = Some (Stopped true None)
  /\ (work (after_ (take 30 served_and_stopped)) = 1)%nat
  /\ (work (after_ served_and_stopped) < work (after_ (take 30 served_and_stopped)))%nat.
Proof.
  split; [vm_compute; reflexivity|]. split; [vm_compute; reflexivity|].
  assert (Hr : reachable_server (after_ (take 30 served_and_stopped))) by (apply after_reachable; vm_compute; eauto).
  apply (proj1 (every_call_returns (after_ (take 30 served_and_stopped)) Hr) (go 1)); vm_compute; reflexivity.
Defined.

(** C8: The node and the sweeps start at most once and the node is shut down at most once; nothing is torn down before the server is
    stopped, and a stopped server stays stopped and starts nothing more, whatever steps follow. A [Stop] that tears down does so after
    admission was fenced and drained, holding the lock, in one fixed order (the listener, the node, the wakes, the sweeps, the demand, the
    bindings, the live plane, the pool), and when it returns each has been closed, once, in that order. *)
Theorem teardown_in_order s (Hs : reachable_server s) :
  (boots (rt s) <= 1 /\ launches (lp s) <= 1 /\ shutdowns (rt s) <= 1)%nat
  /\ (state s <> stateStopped -> closings s = [])
  /\ (state s = stateStopped -> forall x s', act x s = Some s' -> state s' = stateStopped /\ planes s' = planes s)
  /\ (forall i p, threads s !! i = Some (Stopping p) -> tearing p = true ->
        closings s = torn p s /\ state s = stateStopped /\ lifecycle s = Some (Caller i) /\ quiesceResult s <> None /\ inside s = O)
  /\ (forall i err, threads s !! i = Some (Stopped true err) -> closings s = torn_down s /\ NoDup (closings s)).
Proof.
  pose proof (server_inv_reachable s Hs) as Hi. pose proof (si_glob _ Hi) as Hg. split_and!.
  - apply (si_node _ Hg).
  - apply (si_launches _ Hg).
  - pose proof (si_node _ Hg) as [_ Hn]. destruct (realtimeDone (rt s)) as [[e|]|]; destruct_and?; lia.
  - apply (si_open _ Hg).
  - intros Hst x s' Ha. by apply (act_final x s s' Hi Ha).
  - intros i p Hp Ht. destruct (si_threads _ Hi i _ Hp) as (Hown & Hc & Hst). simpl in Hc, Hst.
    assert (Hok : state s = stateStopped /\ closings s = torn p s).
    { unfold stop_ok in Hc. destruct p as [| | | | |[]| | | | | | |]; try done; destruct (Hc Ht) as (? & ? & _); done. }
    destruct Hok as [Hss Hcl]. pose proof (si_fenced _ Hg Hss) as Hf. pose proof (si_finish _ Hg) as Hfin. unfold finish_ok in Hfin.
    rewrite Hf in Hfin. destruct Hfin as (_ & Hin & r & Hr & _). split_and!; try done; [|congruence]. apply Hown. simpl. by rewrite Ht.
  - intros i err Ht. destruct (si_threads _ Hi i _ Ht) as (_ & _ & Hst). destruct Hst as (_ & _ & Hcl & _). split; [done|].
    rewrite Hcl. unfold torn_down, torn, sweeps_cancelled, listener_closed.
    destruct (Nat.eqb _ _), (http_ s); simpl; repeat (constructor; [set_solver|]); constructor.
Qed.

Lemma teardown_in_order_witness :
  closings (after_ served_and_stopped)
    = [ClosePool; CloseLive; CloseBindings; CloseDemand; CancelSweeps; CloseWakes; CloseRealtime; CloseListener]
  /\ NoDup (closings (after_ served_and_stopped)).
Proof.
  split; [vm_compute; reflexivity|]. assert (Hr : reachable_server (after_ served_and_stopped)) by (apply after_reachable; vm_compute; eauto).
  refine (proj2 (proj2 (proj2 (proj2 (proj2 (teardown_in_order _ Hr)))) 1%nat None _)). vm_compute. reflexivity.
Defined.

(** C19: A completed [Quiesce] is for good, and a nil answer is true. Once the fence's result is in, admission is closed, no admission is
    inside and none enters, the node is not offered to anyone (and is down, when the result is nil), and no step ever changes the result.
    A [Quiesce] that answered nil has that result, and so has a tearing [Stop] that answered nil, whose node is down and whose sweeps have
    all returned. *)
Theorem quiesced_for_good s (Hs : reachable_server s) :
  (forall r, quiesceResult s = Some r ->
     gateClosed (gate s) = true /\ inside s = O /\ offered (rt s) = false /\ (r = None -> node (rt s) = false)
     /\ act BeginAdmission s = None /\ forall x s', act x s = Some s' -> quiesceResult s' = Some r)
  /\ (forall i, threads s !! i = Some (Quiesced None) -> quiesceResult s = Some None)
  /\ (forall i, threads s !! i = Some (Stopped true None) -> quiesceResult s = Some None /\ node (rt s) = false /\ loops_over s).
Proof.
  pose proof (server_inv_reachable s Hs) as Hi. pose proof (si_glob _ Hi) as Hg. split_and!.
  - intros r Hr. pose proof (si_finish _ Hg) as Hfin. unfold finish_ok, pending_, fenced in Hfin.
    assert (Hf : finish s = Some FqReturned) by (destruct (finish s) as [[| | |[]|]|]; destruct_and?; (done || congruence)).
    rewrite Hf in Hfin. destruct Hfin as ([Hq Hc] & Hin & r' & Hr' & Hrt). assert (r' = r) as -> by congruence.
    assert (Hno : offered (rt s) = false /\ (r = None -> node (rt s) = false)).
    { pose proof (si_node _ Hg) as [_ Hn]. unfold offered. destruct Hrt as [(Hb & -> & Hd)|Hd]; rewrite Hd in *.
      - destruct Hn as [_ Hn]. rewrite Hn, Hb. done.
      - destruct Hn as (_ & Hn & _). rewrite Hn, andb_false_r. split; [done|]. by intros ->. }
    destruct Hno. split_and!; try done.
    + simpl. unfold beginAdmission. by rewrite Hc.
    + intros x s' Ha. by apply (act_final x s s' Hi Ha).
  - intros i Ht. by destruct (si_threads _ Hi i _ Ht) as (_ & _ & _ & ?).
  - intros i Ht. destruct (si_threads _ Hi i _ Ht) as (_ & _ & _ & _ & _ & He). by apply He.
Qed.

Lemma quiesced_for_good_witness :
  threads (after_ served_and_stopped) !! 1%nat = Some (Stopped true None)
  /\ (quiesceResult (after_ served_and_stopped) = Some None
      /\ node (rt (after_ served_and_stopped)) = false /\ loops_over (after_ served_and_stopped)).
Proof.
  split; [vm_compute; reflexivity|]. assert (Hr : reachable_server (after_ served_and_stopped)) by (apply after_reachable; vm_compute; eauto).
  apply (proj2 (proj2 (quiesced_for_good _ Hr)) 1%nat). vm_compute. reflexivity.
Defined.

(** ** A start that failed *)
Definition boot_failed : error := sentinel "clientlink.NewHandler".
Definition failing : choice := MkChoice (Some boot_failed) None.

(** A [Start] whose node did not boot leaves [started] set, so the [Serve] that
    follows takes [ErrAlreadyStarted] for running planes and accepts
    connections with no node and no sweep. *)
Lemma serve_after_a_failed_start :
  let s := after_ [Spawn 0 OpStart; go 0; go 0; Advance 0 failing; Spawn 1 OpServe; go 1; go 1; go 1] in
  threads s !! 0%nat = Some (Started_ (Some (wrapf [boot_failed]))) /\ threads s !! 1%nat = Some Accepting
  /\ boots (rt s) = O /\ launches (lp s) = O.
Proof. by vm_compute. Qed.

(** A [Serve] whose start failed has returned, and the next is told that another
    is serving. *)
Lemma failed_serve_keeps_the_claim :
  let s := after_ [Spawn 0 OpServe; go 0; go 0; go 0; Advance 0 failing; Spawn 1 OpServe; go 1] in
  threads s !! 0%nat = Some (Served (Some (wrapf [boot_failed])) true) /\ threads s !! 1%nat = Some (Served (Some ErrAlreadyServing) false).
Proof. by vm_compute. Qed.
