(* ===== verification/Startup.v ===== *)
(** * What [Start] says and asks when it starts (src/serve.go, src/compose.go)

    The bound of the node's shutdown, the warning of a replica that places
    nothing, and the probe of the registered Hosts that a composition with
    principal stamping runs once, as a program: the directory's pages, the
    Hosts' answers and the contexts are calls, the warnings are what it writes. *)

From S2P Require Import Prelude Wire Program Identity Admission Directory Pool ClientLink Options.
Local Open Scope string_scope.
Local Open Scope Z_scope.
Local Open Scope prog_scope.

(** time.Duration(1<<63 - 1). *)
Definition maxDuration : Z := 2 ^ 63 - 1.

(** [maxDuration-l.DemandTimeout] and the sum are 64-bit. *)
Definition int64 (z : Z) : Z := (z + 2 ^ 63) mod 2 ^ 64 - 2 ^ 63.

Definition quiesceShutdownBound (l : ClientLink.Limits) : Z :=
  if int64 (maxDuration - DemandTimeout l) <? CommandTimeout l then maxDuration
  else int64 (CommandTimeout l + DemandTimeout l).

Inductive level := Warning | Failure_.

Definition warnNoPlacement : string :=
  "factory: WithPendingCommands is not composed, so this replica places no session on a Host".
Definition warnNoPlacementWithCreates : string :=
  "factory: WithPublicCreates is composed but WithPendingCommands is not, so this replica admits creates it will never place on a Host".

Definition warnPlacementUncomposed `{Implementations} (cfg : config) : option (level * string) :=
  if has PendingCommands cfg then None
  else if has PublicCreates cfg then Some (Failure_, warnNoPlacementWithCreates)
  else Some (Warning, warnNoPlacement).

(** [warnTruncated] (compose.go): a pass that ended with its shard unread. *)
Definition warnTruncated (sweep : string) (shard : Z) (truncated : bool) : option (string * Z) :=
  if negb truncated then None else Some (sweep, shard).

(** ** The probe *)
Definition principalProbePageLimit : Z := 64.
Definition principalProbeMaxPages : nat := 64.

(** What is warned of. *)
Inductive warning :=
| HostLacksPrincipal (host : HostID) (generation : Z)
| HostPrincipalUnasked (host : option HostID)    (* nil: the directory, or the page bound *)
| HostProbeBudget.

Inductive probeCall : Type -> Type :=
| ProbeOver : probeCall bool                      (* probeCtx.Err() != nil *)
| Interrupted : probeCall bool                    (* ctx.Err() == context.Canceled *)
| BudgetSpent : probeCall bool                    (* probeCtx ended by its deadline *)
| ListHosts (req : ListCompatibleHostsRequest) : probeCall (result HostTargetPage)
| AskHost (target : Pool.Target) (tenant_ : TenantID) : probeCall (result bool)
| Say (w : warning) : probeCall unit.

Definition hostTarget (host : HostLinkCapacityReport) : Pool.Target :=
  Pool.MkTarget (cap_HostID host) (cap_InternalEndpoint host) (cap_HostGeneration host).

Definition report (host : HostLinkCapacityReport) (answer : result bool) : option warning :=
  match answer with
  | Fail _ => Some (HostPrincipalUnasked (Some (cap_HostID host)))
  | Ok false => Some (HostLacksPrincipal (cap_HostID host) (cap_HostGeneration host))
  | Ok true => None
  end.

Definition say (w : option warning) : prog probeCall unit :=
  match w with Some w => Call _ (Say w) Ret | None => Ret tt end.

(** The Hosts of a page; true if the probe is interrupted. *)
Fixpoint askHosts (tenant_ : TenantID) (hosts : list HostLinkCapacityReport) (seen : list HostID) : prog probeCall (bool * list HostID) :=
  match hosts with
  | [] => Ret (false, seen)
  | host :: hosts =>
      if bool_decide (cap_HostID host ∈ seen) then askHosts tenant_ hosts seen
      else
        let seen := cap_HostID host :: seen in
        call! answer := AskHost (hostTarget host) tenant_ in
        call! stop := Interrupted in
        if (stop : bool) then Ret (true, seen)
        else let! _ := say (report host answer) in askHosts tenant_ hosts seen
  end.

(** The pages of a template, [pages] of them at most. *)
Fixpoint probePages (pages : nat) (tenant_ : TenantID) (key : HostTargetKey) (cursor : Cursor) (seen : list HostID) : prog probeCall (bool * list HostID) :=
  match pages with
  | O => Ret (false, seen)
  | S more =>
      call! over := ProbeOver in
      if (over : bool) then Ret (true, seen)
      else
        call! page := ListHosts (ListRequest (tk_AgentID key) (tk_RuntimeCompatibilityID key) (tk_Placement key) cursor principalProbePageLimit) in
        match (page : result HostTargetPage) with
        | Fail _ =>
            call! stop := Interrupted in
            if (stop : bool) then Ret (true, seen)
            else let! _ := say (Some (HostPrincipalUnasked None)) in Ret (false, seen)
        | Ok page =>
            let! (stop, seen) := askHosts tenant_ (tpage_Targets page) seen in
            if (stop : bool) then Ret (true, seen)
            else if bool_decide (tpage_NextCursor page = "") then Ret (false, seen)
            else match more with
                 | O => let! _ := say (Some (HostPrincipalUnasked None)) in Ret (false, seen)
                 | S _ => probePages more tenant_ key (tpage_NextCursor page) seen
                 end
        end
  end.

Fixpoint probeTemplates (tenant_ : TenantID) (templates : list LaunchTemplate) (seen : list HostID) : prog probeCall (bool * list HostID) :=
  match templates with
  | [] => Ret (false, seen)
  | configured :: templates =>
      let template := normalized configured in
      if negb (bool_decide (tk_Placement (tpl_Key template) = HostPlacementPooled)) then probeTemplates tenant_ templates seen
      else
        let! (stop, seen) := probePages principalProbeMaxPages tenant_ (tpl_Key template) "" seen in
        if (stop : bool) then Ret (true, seen) else probeTemplates tenant_ templates seen
  end.

Definition warnIncapableHosts `{Implementations} (cfg : config) : prog probeCall unit :=
  if negb (stampPrincipal cfg) then Ret tt
  else
    let! _ := probeTemplates (tenant (service cfg)) (department cfg) [] in
    call! spent := BudgetSpent in
    say (if (spent : bool) then Some HostProbeBudget else None).

(** ** What it does *)
Definition asked (t : list (event probeCall)) : list HostID :=
  omap (fun e => match e with Ev _ (AskHost target _) _ => Some (target_Host target) | _ => None end) t.

(** The Hosts that answered they lack the capability, and those it was said of. *)
Definition lacking (t : list (event probeCall)) : list HostID :=
  omap (fun e => match e with
                 | Ev _ c r => (match c in probeCall R return R -> option HostID with
                                | AskHost target _ => fun r => match r with Ok false => Some (target_Host target) | _ => None end
                                | _ => fun _ => None
                                end) r
                 end) t.
Definition denounced (t : list (event probeCall)) : list HostID :=
  omap (fun e => match e with Ev _ (Say (HostLacksPrincipal host _)) _ => Some host | _ => None end) t.

Definition is_list (e : event probeCall) : bool := match e with Ev _ (ListHosts _) _ => true | _ => false end.

(** What a part of the probe does to what was seen; [n] pages at most. *)
Definition probes (n : Z) (seen : list HostID) (r : bool * list HostID) (t : list (event probeCall)) : Prop :=
  (NoDup seen -> NoDup (snd r)) /\ snd r = (reverse (asked t) ++ seen)%list /\ tally is_list t <= n
  /\ denounced t `prefix_of` lacking t /\ (fst r = false -> denounced t = lacking t).

Lemma probes_silent n seen b t :
  asked t = [] -> lacking t = [] -> denounced t = [] -> tally is_list t <= n -> probes n seen (b, seen) t.
Proof. intros Ha Hl Hd Ht. unfold probes. rewrite Ha, Hl, Hd. by split_and!. Qed.

Lemma probes_app m n seen seen1 r t u :
  probes m seen (false, seen1) t -> probes n seen1 r u -> probes (m + n) seen r (t ++ u)%list.
Proof.
  intros (H1 & H2 & H3 & H4 & H5) (K1 & K2 & K3 & K4 & K5). simpl in *. specialize (H5 eq_refl).
  unfold probes, asked, lacking, denounced in *. rewrite !omap_app, tally_app. split_and!; [auto| |lia| |].
  - rewrite K2, H2, reverse_app, <- app_assoc. done.
  - rewrite H5. by apply prefix_app.
  - intros Hr. by rewrite H5, K5.
Qed.

Lemma probes_mono m n seen r t : m <= n -> probes m seen r t -> probes n seen r t.
Proof. intros Hmn (H1 & H2 & H3 & H4). split; [done|]. split; [done|]. split; [lia|done]. Qed.

Lemma probes_nil seen : probes 0 seen (false, seen) [].
Proof. by apply probes_silent. Qed.

Lemma say_only w : wp (say w) (fun _ t => asked t = [] /\ lacking t = [] /\ tally is_list t = 0
  /\ denounced t = match w with Some (HostLacksPrincipal host _) => [host] | _ => [] end).
Proof. destruct w as [[]|]; simpl; intros; by split_and!. Qed.

(** One Host that was asked. *)
Lemma probes_ask seen host tenant_ answer t :
  cap_HostID host ∉ seen -> asked t = [] -> lacking t = [] -> tally is_list t = 0 ->
  denounced t = match report host answer with Some (HostLacksPrincipal host _) => [host] | _ => [] end ->
  probes 0 seen (false, cap_HostID host :: seen) (Ev _ (AskHost (hostTarget host) tenant_) answer :: Ev _ Interrupted false :: t).
Proof.
  intros Hn Ha Hl Ht Hd. set (t' := Ev _ (AskHost _ _) _ :: _).
  assert (Ea : asked t' = cap_HostID host :: asked t) by done.
  assert (El : lacking t' = (match answer with Ok false => [cap_HostID host] | _ => [] end ++ lacking t)%list) by by destruct answer as [[]|].
  assert (Ed : denounced t' = denounced t) by done.
  unfold probes. rewrite Ea, El, Ed, Ha, Hl, Hd. unfold t'. rewrite !tally_cons, Ht. simpl.
  split_and!; [|done|lia|by destruct answer as [[]|]|by destruct answer as [[]|]]. intros Hs. by constructor.
Qed.

Lemma askHosts_wp tenant_ hosts seen : wp (askHosts tenant_ hosts seen) (probes 0 seen).
Proof.
  revert seen. induction hosts as [|host hosts IH]; intros seen; simpl; [apply probes_nil|].
  case_bool_decide as Hin; [apply IH|]. simpl. intros answer [|]; simpl.
  - unfold probes. simpl. split_and!; try done; [by constructor|apply prefix_nil].
  - apply wp_bind. eapply wp_mono; [|apply say_only]. intros _ t (Ha & Hl & Ht & Hd). eapply wp_mono; [|apply IH].
    intros r u Hu. simpl. change (_ :: _ :: t ++ u)%list with ((Ev _ (AskHost (hostTarget host) tenant_) answer :: Ev _ Interrupted false :: t) ++ u)%list.
    rewrite <- (Z.add_0_l 0). eapply probes_app; [|done]. by apply probes_ask.
Qed.

(** A page that was read, before its Hosts. *)
Lemma probes_page seen req answer t r n :
  probes n seen r t -> probes (1 + n) seen r (Ev _ ProbeOver false :: Ev _ (ListHosts req) answer :: t).
Proof.
  intros Ht. change (_ :: _ :: t)%list with ([Ev _ ProbeOver false; Ev _ (ListHosts req) answer] ++ t)%list.
  eapply probes_app; [|done]. by apply probes_silent.
Qed.

Lemma probes_said n seen b t u :
  asked u = [] -> lacking u = [] -> tally is_list u = 0 -> denounced u = [] -> probes n seen (false, b) t -> probes n seen (false, b) (t ++ u)%list.
Proof.
  intros H1 H2 H3 H4 Ht. rewrite <- (Z.add_0_r n). eapply probes_app; [done|]. apply probes_silent; (done || lia).
Qed.

Lemma probePages_wp pages tenant_ key cursor seen :
  wp (probePages pages tenant_ key cursor seen) (probes (Z.of_nat pages) seen).
Proof.
  revert cursor seen. induction pages as [|more IH]; intros cursor seen; [apply probes_nil|].
  rewrite Nat2Z.inj_succ, <- Z.add_1_l. cbn [probePages wp]. intros [|].
  - apply probes_silent; try done. rewrite tally_cons, tally_nil. simpl. lia.
  - cbn [wp]. intros [page|err].
    + apply wp_bind. eapply wp_mono; [|apply askHosts_wp]. intros [stop seen1] t Ht.
      assert (Hz : forall r u n, 0 <= n -> probes 0 seen r u -> probes n seen r u) by (intros; by eapply probes_mono).
      destruct stop; [|case_bool_decide; [|destruct more as [|more]]].
      * apply probes_page. rewrite app_nil_r. apply Hz; [lia|done].
      * apply probes_page. rewrite app_nil_r. apply Hz; [lia|done].
      * apply wp_bind. eapply wp_mono; [|apply say_only]. intros _ u (Hu1 & Hu2 & Hu3 & Hu4).
        apply probes_page. rewrite app_nil_r. apply probes_said; try done.
      * eapply wp_mono; [|apply IH]. intros r u Hu. apply probes_page. rewrite <- (Z.add_0_l (Z.of_nat _)). by eapply probes_app.
    + cbn [wp]. intros [|].
      * apply probes_page. apply probes_silent; try done. rewrite tally_cons, tally_nil. simpl. lia.
      * apply wp_bind. eapply wp_mono; [|apply say_only]. intros _ u (Hu1 & Hu2 & Hu3 & Hu4). simpl. rewrite app_nil_r.
        apply probes_page. change (_ :: u)%list with ([Ev _ Interrupted false] ++ u)%list. apply probes_said; try done. apply probes_silent; try done. rewrite tally_cons, tally_nil. simpl. lia.
Qed.

Definition pooled (templates : list LaunchTemplate) : Z :=
  tally (fun t => bool_decide (tk_Placement (tpl_Key (normalized t)) = HostPlacementPooled)) templates.

Lemma probeTemplates_wp tenant_ templates seen :
  wp (probeTemplates tenant_ templates seen) (probes (64 * pooled templates) seen).
Proof.
  revert seen. induction templates as [|t ts IH]; intros seen; [apply probes_nil|]. cbn [probeTemplates]. cbv zeta.
  unfold pooled. rewrite tally_cons. fold (pooled ts). case_bool_decide as Hp; cbn [negb].
  - apply wp_bind. eapply wp_mono; [|apply probePages_wp]. intros [stop seen1] u Hu. destruct stop.
    + simpl. rewrite app_nil_r. eapply probes_mono; [|done]. pose proof (tally_pos (fun t => bool_decide (tk_Placement (tpl_Key (normalized t)) = HostPlacementPooled)) ts). unfold principalProbeMaxPages, pooled. lia.
    + eapply wp_mono; [|apply IH]. intros r v Hv. replace (64 * (1 + pooled ts)) with (Z.of_nat principalProbeMaxPages + 64 * pooled ts) by (unfold principalProbeMaxPages; lia).
      by eapply probes_app.
  - rewrite Z.add_0_l. apply IH.
Qed.

(** ** The theorems *)

(** The startup probe is bounded and asks each Host once: 64 pages at most for each pooled template, no Host
    twice however many templates and pages list it; a Host is said to lack the capability only if it answered so, in the order
    the answers came; and a composition without principal stamping asks and says nothing. *)
Theorem startup_probe_bounded `{Implementations} cfg :
  wp (warnIncapableHosts cfg) (fun _ t =>
    NoDup (asked t) /\ tally is_list t <= 64 * pooled (department cfg) /\ denounced t `prefix_of` lacking t
    /\ (stampPrincipal cfg = false -> t = [])).
Proof.
  unfold warnIncapableHosts. destruct (stampPrincipal cfg); cbn [negb].
  - apply wp_bind. eapply wp_mono; [|apply probeTemplates_wp]. intros [b seen] t (H1 & H2 & H3 & H4 & _). simpl in *.
    specialize (H1 (NoDup_nil_2)). rewrite app_nil_r in H2. subst seen. rewrite (reverse_Permutation (asked t)) in H1.
    intros [|]; simpl; [intros ?|]; unfold asked, denounced, lacking in *; rewrite !omap_app, tally_app; simpl; rewrite ?app_nil_r; split_and!; try done;
      rewrite ?tally_cons, ?tally_nil; simpl; lia.
  - simpl. split_and!; try done; [constructor|]. pose proof (tally_pos (fun t => bool_decide (tk_Placement (tpl_Key (normalized t)) = HostPlacementPooled)) (department cfg)).
    unfold pooled. simpl. rewrite tally_nil. lia.
Qed.

(** The bound of the node's shutdown is the two timeouts together, or the longest duration where that is less; it never wraps. *)
Lemma quiesceShutdownBound_exact l :
  0 <= CommandTimeout l <= maxDuration -> 0 <= DemandTimeout l <= maxDuration ->
  quiesceShutdownBound l = Z.min (CommandTimeout l + DemandTimeout l) maxDuration.
Proof.
  unfold quiesceShutdownBound, maxDuration, int64. intros Hc Hd.
  rewrite (Z.mod_small (2 ^ 63 - 1 - DemandTimeout l + 2 ^ 63)) by lia.
  destruct (Z.ltb_spec (2 ^ 63 - 1 - DemandTimeout l + 2 ^ 63 - 2 ^ 63) (CommandTimeout l)); [lia|].
  rewrite Z.mod_small by lia. lia.
Qed.
